(* ===== verification/_CoqProject ===== *)
-Q . S2P
Prelude.v
Precedence.v
BitLPM.v
UintTrie.v
PolicyKey.v
PortRange.v
Identity.v
RuleOrigin.v
PassMeta.v
MapState.v
MapStateIndex.v
MapStateLookup.v
MapStateOps.v
MapStateFrame.v
MapStateChanges.v
MapStatePolicy.v
PolicyRule.v
TierOrder.v
TierState.v
TierScan.v
TierInvariant.v
TierInsert.v
TierPolicy.v
TierPriorities.v
TierEvaluation.v
PlainEvaluation.v
MapChanges.v
MapChangesPolicy.v
L4Types.v
L4Filter.v
L4MapState.v
L4Merge.v
L4Resolve.v
L4Contributions.v
L4Evaluation.v
L4Enforcement.v
EndpointPolicy.v
L4Typing.v
L4Incremental.v
IncrementalRules.v
IncrementalEquivalence.v
IncrementalDistill.v
Text.v
Netip.v
Labels.v
NetipText.v
Selectors.v
SelectorCache.v
SelectorCacheInv.v
SelectorCacheUpdate.v
SelectorCacheSpec.v
SelectorCacheHistory.v
PolicyLifecycle.v
GoLib.v
Repository.v
RuleSort.v
RepositoryInv.v
RepositorySpec.v
RepositoryPolicy.v
RepositoryVerdict.v
DnsZombies.v
DnsZombiesGC.v
DnsCache.v
DnsCacheInv.v
DnsCacheGC.v
DnsCacheRefine.v
DnsCacheHistory.v
DnsCacheShare.v
LocalIdentity.v
LocalIdentityHistory.v
Maglev.v
MaglevTurn.v
MaglevTable.v
IpAlloc.v
IpAllocBlocks.v
IpAllocRefine.v
