(* ===== verification/Prelude.v ===== *)
(** * Verification of Cilium's policy engine

    Cilium enforces network policy in eBPF programs that look up one map per endpoint:
    the key is a traffic direction, a protocol, a port prefix and the numeric identity
    of the peer; the entry is an allow or deny verdict with a precedence.  The agent
    computes that map from policy rules whose subjects and peers are label selectors.
    This library models the code from the policy repository and the selector cache down
    to the map state, and proves that the map decides traffic as the rules say and follows
    the changes of the identities.  It also models the cache of DNS lookups that feeds the
    rules with names, the allocators of local identities and of IP addresses, and the Maglev
    tables that spread connections over the backends of a service.

    ** Parts of the program and where they are modelled

    Containers and words:
    - [Prelude]: Go's unsigned integers as [Z] with explicit wrap-around ([uwrap],
      [ushl], [ushr], [unot]), [math/bits], map ranges and sorts, and list lemmas.
    - [Precedence] ([src/pkg/policy/types/entry.go]): the 32-bit precedence word (24-bit
      priority, then a byte for deny, allow with proxy priority, or pass), [MapStateEntry]
      and its [Merge].
    - [BitLPM], [UintTrie] ([src/pkg/container/bitlpm]): the path-compressed binary trie,
      its lookups and iterators, over any key type with the class [Key]; the class [Trie]
      with [TrieLaws] is the interface its clients use.
    - [PolicyKey] ([src/pkg/policy/types/types.go]): the map key and its prefix order.
    - [PortRange] ([src/pkg/policy/portrange.go], [keysForRange] of [l4.go]): port ranges
      as masked ports.
    - [Identity] ([src/pkg/identity/numericidentity.go], [src/pkg/policy/aggregate.go],
      [src/pkg/clustermesh/types]): numeric identities, their scopes and clusters, and the
      aggregate identity that stands for each of them.
    - [RuleOrigin] ([src/pkg/policy/origin.go], [src/pkg/labels/arraylist.go]): the labels
      and log strings of the rules an entry comes from.

    The map state of an endpoint ([src/pkg/policy/mapstate.go]):
    - [PassMeta], [MapState]: pass verdicts, the map state (entries, trie index, identity
      index), insertion with and without pass verdicts, deletion, changes and revert;
      [MapStateIndex], [MapStateLookup], [MapStateOps], [MapStateFrame], [MapStateChanges]
      and [MapStatePolicy] hold its theorems.
    - [MapChanges]: the queue of incremental changes and its consumption; [MapChangesPolicy]
      holds the theorem about the rules in force.

    From rules to map states:
    - [PolicyRule] ([src/pkg/policy/types/policyentry.go], [src/pkg/policy/api],
      [src/pkg/u8proto], [src/pkg/iana]): policy entries, ports and layer 7 rules.
    - [TierPriorities] ([src/pkg/policy/rules.go], [testutils/simulate.go]): the priorities
      of tiered rules, and the step-by-step simulator of a policy; [TierOrder], [TierState],
      [TierScan], [TierInvariant], [TierInsert], [TierPolicy], [TierEvaluation] and
      [PlainEvaluation] relate the map state to the simulator, with and without passes.
    - [L4Types], [L4Merge], [L4Filter] ([src/pkg/policy/l4.go], [rule.go]): per-selector
      policies and their merging, filters and policy maps, the resolution of a rule;
      [L4Resolve] and [L4Typing] describe the resolved maps.
    - [L4MapState] ([src/pkg/policy/l4.go], [resolve.go]): the conversion of the filters
      into entries, [DistillPolicy]; [L4Contributions], [L4Evaluation], [L4Enforcement] and
      [EndpointPolicy] relate it to the rules.
    - [L4Incremental] ([src/pkg/policy/l4.go], [resolve.go]): how changed selections reach
      the endpoints, from [IdentitySelectionUpdated] to [ConsumeMapChanges];
      [IncrementalRules], [IncrementalEquivalence] and [IncrementalDistill] compare the map
      state that results with one computed anew.

    Labels, selectors and the repository:
    - [Text], [Netip], [NetipText]: what the code uses of Go's [strings] and [net/netip].
    - [Labels] ([src/pkg/labels]): labels, sets and arrays of labels, labels of CIDRs.
    - [Selectors] ([src/pkg/policy/types/requirements.go], [selector.go]): requirements
      and the selectors made of them.
    - [SelectorCache] ([src/pkg/policy/selectorcache.go], [selectorcache_selector.go]): the
      identities each selector selects, and the notifications of its users;
      [SelectorCacheInv] has its invariant, [SelectorCacheUpdate] the update of identities,
      [SelectorCacheSpec] the abstract cache and the refinement, [SelectorCacheHistory] the
      theorems about histories.
    - [PolicyLifecycle] ([src/pkg/policy/l4.go]): holds, users and detachment of a selector
      policy, as a concurrent system; the class [UserCache] is what it needs of the cache.
    - [Repository] ([src/pkg/policy/repository.go], [rule.go], [rules.go]): the rules, their
      subjects, and the rules of an identity; [RuleSort], [RepositoryInv], [RepositorySpec]
      (the abstract repository and the refinement), [RepositoryPolicy] and
      [RepositoryVerdict] hold its theorems.

    The Go library: [GoLib] has what the code uses of [time], [container/heap] and of
    [float64], rounded to nearest even, with the error of a rounding.

    DNS lookups ([src/pkg/fqdn/cache.go]):
    - [DnsZombies]: [DNSZombieMappings], the addresses in use after their lookups expired;
      [DnsZombiesGC] holds the theorems about their collection.
    - [DnsCache]: [DNSCache], the lookups by name and by address; [DnsCacheInv] has its
      invariant, [DnsCacheGC] the garbage collection, [DnsCacheRefine] and
      [DnsCacheHistory] the table it implements, [DnsCacheShare] dumps, restores and the
      global cache.

    Local identities ([src/pkg/identity/cache/local.go]):
    - [LocalIdentity]: [localIdentityCache]; [LocalIdentityHistory] has the search for a
      free number, the abstract allocator and the refinement.

    IP addresses ([src/pkg/ipalloc]):
    - [IpAlloc]: [HashAllocator], with its free blocks in a heap and in a linked list;
      [IpAllocBlocks] has the invariant of the blocks and their operations, [IpAllocRefine]
      the table it implements and the adapter to the interface of service addresses.

    Load balancing:
    - [Maglev] ([src/pkg/murmur3], [src/pkg/maglev]): the hash of the backends, the
      configuration, the permutations of the slots and the lookup table; [MaglevTurn] shows
      that the rows are permutations and that the weighted turns go on, [MaglevTable] holds
      the theorems about tables.

    ** How the model relates to the code

    A Go function is a definition of the same name, a method takes its receiver first and
    returns the updated receiver; a prefix such as [Precedence_] or [ms_] separates methods
    of the same name.  A nil map or slice that the code tells from an empty one is an
    [option].  Errors and panics are the left values of a sum ([error + A]), threaded with
    [sbind] and [each].  Loops over an iterator that change the container are loops over the
    keys the iterator would produce, the entries being read when a key is reached.  The
    iteration order of Go maps is unspecified: it is the class [GoRange], whose law says
    that a range visits every key once, and every theorem holds for every such order.
    [slices.SortFunc] is the class [GoSort], a sorted permutation for every total preorder;
    [MapChanges], whose comparison is no order, has a class of its own: a permutation that
    leaves a list alone in which no element compares less than another.  Pointers the code
    compares are addresses ([r_ptr] of a rule, [e_ptr] of a lookup, the identifiers of cached
    selectors).  A point in time is its distance in nanoseconds from the zero time.  Logging
    and metrics have no definition, and locks are held for the whole of every modelled
    method, but for [PolicyLifecycle], where the steps of concurrent methods interleave.

    ** What the theorems show

    - End to end: after any history of the repository the policy of an identity is distilled
      into a map state that decides every flow as the applicable entries do
      ([repository_verdict]); replacing the rules of a resource returns exactly the identities
      that the replaced and the given entries apply to ([replace_by_resource]); the order of
      the rules is deterministic.
    - Selector cache: after any history the published selections are exactly the matching
      identities, and the notifications are exactly their changes, each followed by a commit
      of the snapshot that has them.
    - Incremental updates: after any history of changed selections and consumptions the map
      state of an endpoint decides every lookup as the one computed anew for the current
      selections ([incremental_recomputation]).
    - DNS: every history of the cache follows a table that keeps the lookups that expire
      last, the queries by name and by address agree ([dns_cache_refines]); a collection
      removes what expired and the surplus of a name, and all it removes becomes a zombie
      ([collection_loses_nothing]); a zombie dies for a reason, the limits cost the least
      important ones ([zombies_collected]), and within the limits none dies before two runs of
      the connection tracking collector unless a forced expiry names it ([zombie_two_runs]);
      dumps restore; the global cache gains no unknown pair from the endpoints.
    - Local identities: every history follows an abstract allocator in which labels have one
      counted number, withheld numbers are the last to be given away unasked, and labels are
      refused only when no number is left
      ([local_identities_refine]); observers know the identities ([observers_in_sync]).
    - IP addresses: every history of the allocator follows a table of the addresses in use,
      none panics, and an allocation fails only when it must ([hash_allocator_refines]).
    - Maglev: a table is always found and complete, in spite of rounded counters
      ([maglev_table_complete]); the shares of the backends follow their weights
      ([maglev_shares]); nodes agree on the table ([maglev_nodes_agree]).
    - Life of a policy: no endpoint uses a detached policy, and every superseded policy is
      released ([PolicyLifecycle]).
    - Resolution: the resolved maps are well typed, priorities leave room for passes, too
      many levels are refused; the map state with passes simulates the rules.
    - Map state: every operation keeps the indices in agreement with the entries, the
      iterators are exact on every reachable state, the work list of insertion with passes
      is emptied, a lookup returns a rule of highest precedence that covers the key; the
      recorded changes are the difference between the states, and a revert restores the
      state.
    - Containers and words: the trie refines a finite map from bit strings; precedence
      comparison is the documented order; the masked ports of a range partition it;
      [Covers] is coverage of traffic; labels and CIDRs are parsed back from their text.
    - Counterexamples, among the theorems of the files above, show where the code does not
      do what it means to.

    ** Bounds and fuel

    Prefix lengths are [nat], words are [Z] within their width.  The iterators of the trie
    are drained with as much fuel as the trie has nodes, [sub_loop] with the number of keys
    that can be queued ([sub_fuel]), the binary search of [Selects] with the length of the
    slice, the cleanup of the DNS cache with the number of seconds begun ([cleanup_fuel]),
    the search for a free identity with the numbers of the scope ([search_fuel]), the turns of
    a Maglev table with the number of backends and its slots with the size of the table, the
    walk along the free blocks of an allocator with their number;
    theorems show that none runs out.  Histories of the DNS cache have lookups made and
    expiring after the zero time, which the code takes for no time at all.  Histories of the
    selector cache add fewer than [2 ^ 64] selectors, the identifiers being 64-bit counters, and
    in them and in those of the repository no update changes the labels of an identity that is
    known at the time: with changed labels the cache goes stale ([changed_labels_stale]).  The
    priority levels that a resolved policy needs count less than [2 ^ 63], so that the 64-bit
    count is exact; beyond, it wraps around ([pass_levels_overflow]).
    Maglev tables have fewer than [2 ^ 32] backends, so that the sum of the weights is exact.

    ** Not modelled

    The eBPF programs and the system calls that write the kernel map, the translation of
    Kubernetes objects to policy entries, the layer 7 proxies, the key-value store and the
    global allocation of identities, the DNS proxy, and the rest of the agent, the operator and the tools: they
    are I/O, external stores or other subsystems. *)

From Stdlib Require Export ZArith Lia.
From stdpp Require Export base gmap sets list strings sorting.

(** * Machine integers

    Go's unsigned integers of width [w] are [Z]s in [[0, 2^w)]; every operation
    that can leave that range wraps explicitly. *)

(** [lia] extended with division and modulo by constants. *)
Ltac dlia := Z.to_euclidean_division_equations; lia.

Definition is_uint (w x : Z) : Prop := (0 ≤ x < 2 ^ w)%Z.

Definition uwrap (w x : Z) : Z := (x mod 2 ^ w)%Z.

(** Go's shifts: a count of at least the operand's width gives 0. *)
Definition ushr (w x n : Z) : Z := if (n <? w)%Z then Z.shiftr x n else 0%Z.
Definition ushl (w x n : Z) : Z :=
  if (n <? w)%Z then uwrap w (Z.shiftl x n) else 0%Z.

(** Go's unary [^]. *)
Definition unot (w x : Z) : Z := (2 ^ w - 1 - x)%Z.

(** [math/bits]: [LeadingZeros<w>] and [TrailingZeros<w>]. *)
Definition LeadingZeros (w x : Z) : Z :=
  (if x =? 0 then w else w - 1 - Z.log2 x)%Z.

Fixpoint ctz_pos (p : positive) : Z :=
  match p with
  | xO q => (1 + ctz_pos q)%Z
  | _ => 0%Z
  end.

Definition TrailingZeros (w x : Z) : Z :=
  match x with
  | Zpos p => ctz_pos p
  | _ => w
  end.

(** * Bit-level lemmas *)

Section bits.
Local Open Scope Z_scope.

Lemma pow2_pos n : 0 ≤ n → 0 < 2 ^ n.
Proof. intros. apply Z.pow_pos_nonneg; lia. Qed.

Lemma is_uint_pow2 w n : 0 ≤ n < w → is_uint w (2 ^ n).
Proof.
  intros [Hn Hw]. split; [pose proof (pow2_pos n Hn); lia|].
  apply Z.pow_lt_mono_r; lia.
Qed.

Lemma uwrap_uint w x : 0 ≤ w → is_uint w (uwrap w x).
Proof. intros. apply Z.mod_pos_bound. by apply pow2_pos. Qed.

Lemma uwrap_small w x : is_uint w x → uwrap w x = x.
Proof. intros. by apply Z.mod_small. Qed.

Lemma testbit_uint_high w x i : is_uint w x → 0 ≤ w ≤ i → Z.testbit x i = false.
Proof.
  intros Hx Hi. rewrite <- (uwrap_small w x Hx). apply Z.mod_pow2_bits_high. lia.
Qed.

Lemma uint_by_bits w x :
  0 ≤ w → 0 ≤ x → (∀ i, w ≤ i → Z.testbit x i = false) → is_uint w x.
Proof.
  intros Hw Hx Hb. enough (x mod 2 ^ w = x) as <- by by apply uwrap_uint.
  apply Z.bits_inj'. intros i Hi. destruct (decide (i < w)).
  - by rewrite Z.mod_pow2_bits_low by lia.
  - rewrite Z.mod_pow2_bits_high by lia. symmetry. apply Hb. lia.
Qed.

Lemma lxor_uint w a b : 0 ≤ w → is_uint w a → is_uint w b → is_uint w (Z.lxor a b).
Proof.
  intros Hw Ha Hb. apply uint_by_bits; [done| |].
  - apply Z.lxor_nonneg. unfold is_uint in *. lia.
  - intros i Hi. rewrite Z.lxor_spec, !(testbit_uint_high w) by (done || lia). done.
Qed.

Lemma land_uint_r w a b : 0 ≤ w → is_uint w b → is_uint w (Z.land a b).
Proof.
  intros Hw Hb. apply uint_by_bits; [done| |].
  - apply Z.land_nonneg. unfold is_uint in *. lia.
  - intros i Hi. rewrite Z.land_spec, (testbit_uint_high w b) by (done || lia).
    apply andb_false_r.
Qed.

Lemma lor_uint w a b : 0 ≤ w → is_uint w a → is_uint w b → is_uint w (Z.lor a b).
Proof.
  intros Hw Ha Hb. apply uint_by_bits; [done| |].
  - apply Z.lor_nonneg. unfold is_uint in *. lia.
  - intros i Hi. rewrite Z.lor_spec, !(testbit_uint_high w) by (done || lia). done.
Qed.

(** The mask with the [b] low bits of a [w]-bit word cleared. *)
Lemma land_himask w b x :
  0 ≤ b ≤ w → is_uint w x → Z.land x (2 ^ w - 2 ^ b) = x / 2 ^ b * 2 ^ b.
Proof.
  intros Hb Hx.
  rewrite <- Z.shiftr_div_pow2, <- Z.shiftl_mul_pow2 by lia.
  replace (2 ^ w - 2 ^ b) with (Z.shiftl (Z.ones (w - b)) b).
  2:{ rewrite Z.shiftl_mul_pow2, Z.ones_equiv by lia.
      replace w with ((w - b) + b) at 2 by lia. rewrite Z.pow_add_r by lia. lia. }
  apply Z.bits_inj'. intros i Hi. rewrite Z.land_spec.
  destruct (decide (i < b)).
  - rewrite !Z.shiftl_spec_low by lia. apply andb_false_r.
  - rewrite !Z.shiftl_spec, Z.shiftr_spec by lia.
    replace (i - b + b) with i by lia.
    destruct (decide (i < w)).
    + rewrite Z.ones_spec_low by lia. apply andb_true_r.
    + rewrite Z.ones_spec_high by lia. rewrite (testbit_uint_high w) by (done || lia).
      done.
Qed.

Lemma land_lomask b x : 0 ≤ b → Z.land x (2 ^ b - 1) = x mod 2 ^ b.
Proof. intros. rewrite <- Z.land_ones, Z.ones_equiv by lia. f_equal; lia. Qed.

(** Or-ing a value into cleared low bits adds it. *)
Lemma lor_low_add b q r : 0 ≤ b → is_uint b r → Z.lor (q * 2 ^ b) r = q * 2 ^ b + r.
Proof.
  intros Hb Hr. rewrite <- Z.lxor_lor; [rewrite <- Z.add_nocarry_lxor; [done|]|];
    apply Z.bits_inj'; intros i Hi; rewrite Z.land_spec, Z.bits_0;
    rewrite <- Z.shiftl_mul_pow2 by lia;
    destruct (decide (i < b));
    [by rewrite Z.shiftl_spec_low by lia
    |rewrite (testbit_uint_high b r) by (done || lia); apply andb_false_r
    |by rewrite Z.shiftl_spec_low by lia
    |rewrite (testbit_uint_high b r) by (done || lia); apply andb_false_r].
Qed.

(** * Leading and trailing zeros *)

Lemma LeadingZeros_bounds w x : 0 ≤ w → is_uint w x → 0 ≤ LeadingZeros w x ≤ w.
Proof.
  unfold LeadingZeros, is_uint. intros Hw Hx. destruct (Z.eqb_spec x 0); [lia|].
  pose proof (Z.log2_nonneg x). assert (Z.log2 x < w); [|lia].
  apply Z.log2_lt_pow2; lia.
Qed.

Lemma LeadingZeros_full w x : 0 ≤ w → is_uint w x → LeadingZeros w x = w → x = 0.
Proof.
  unfold LeadingZeros, is_uint. intros Hw Hx. destruct (Z.eqb_spec x 0); [done|].
  pose proof (Z.log2_nonneg x). lia.
Qed.

Lemma LeadingZeros_bit w x :
  0 ≤ w → is_uint w x → LeadingZeros w x < w →
  Z.testbit x (w - 1 - LeadingZeros w x) = true.
Proof.
  unfold LeadingZeros, is_uint. intros Hw Hx. destruct (Z.eqb_spec x 0); [lia|].
  intros _. replace (w - 1 - (w - 1 - Z.log2 x)) with (Z.log2 x) by lia.
  apply Z.bit_log2. lia.
Qed.

Lemma LeadingZeros_above w x i :
  0 ≤ w → is_uint w x → w - 1 - LeadingZeros w x < i → 0 ≤ i → Z.testbit x i = false.
Proof.
  unfold LeadingZeros, is_uint. intros Hw Hx. destruct (Z.eqb_spec x 0) as [->|].
  { intros _ _. apply Z.bits_0. }
  intros Hi Hi0. apply Z.bits_above_log2; lia.
Qed.

(** The number of leading zeros of [a ^ b] is the length of the common prefix. *)
Lemma LeadingZeros_lxor_agree w a b i :
  0 ≤ w → is_uint w a → is_uint w b →
  0 ≤ i < LeadingZeros w (Z.lxor a b) →
  Z.testbit a (w - 1 - i) = Z.testbit b (w - 1 - i).
Proof.
  intros Hw Ha Hb Hi. pose proof (lxor_uint w a b Hw Ha Hb) as Hx.
  pose proof (LeadingZeros_bounds _ _ Hw Hx).
  pose proof (LeadingZeros_above w _ (w - 1 - i) Hw Hx ltac:(lia) ltac:(lia)) as H0.
  rewrite Z.lxor_spec in H0. by apply xorb_eq.
Qed.

Lemma LeadingZeros_lxor_differ w a b :
  0 ≤ w → is_uint w a → is_uint w b →
  LeadingZeros w (Z.lxor a b) < w →
  Z.testbit a (w - 1 - LeadingZeros w (Z.lxor a b)) ≠
  Z.testbit b (w - 1 - LeadingZeros w (Z.lxor a b)).
Proof.
  intros Hw Ha Hb Hlt. pose proof (lxor_uint w a b Hw Ha Hb) as Hx.
  pose proof (LeadingZeros_bit w _ Hw Hx Hlt) as H0.
  rewrite Z.lxor_spec in H0. intros E. rewrite E, xorb_nilpotent in H0. done.
Qed.

Lemma LeadingZeros_ge w x n :
  0 ≤ n ≤ w → is_uint w x → n ≤ LeadingZeros w x ↔ x < 2 ^ (w - n).
Proof.
  unfold LeadingZeros, is_uint. intros Hn Hx. destruct (Z.eqb_spec x 0) as [->|].
  { pose proof (pow2_pos (w - n)). lia. }
  rewrite (Z.log2_lt_pow2 x) by lia. lia.
Qed.

Lemma LeadingZeros_lxor_ge w a b n :
  0 ≤ n ≤ w → is_uint w a → is_uint w b →
  n ≤ LeadingZeros w (Z.lxor a b) ↔ a / 2 ^ (w - n) = b / 2 ^ (w - n).
Proof.
  intros Hn Ha Hb. rewrite LeadingZeros_ge by (auto using lxor_uint with lia).
  pose proof (lxor_uint w a b ltac:(lia) Ha Hb) as [Hx _].
  rewrite <- !Z.shiftr_div_pow2 by lia.
  rewrite <- Z.lxor_eq_0_iff, <- Z.shiftr_lxor, Z.shiftr_div_pow2 by lia.
  pose proof (pow2_pos (w - n)). rewrite Z.div_small_iff by lia. lia.
Qed.

Lemma ctz_pos_spec p :
  0 ≤ ctz_pos p ∧ ∃ q, Zpos p = (2 * q + 1) * 2 ^ ctz_pos p.
Proof.
  induction p as [p _|p [IH [q Hq]]|]; simpl.
  - split; [lia|]. exists (Zpos p). lia.
  - split; [lia|]. exists q. rewrite Z.pow_add_r by lia. lia.
  - split; [lia|]. exists 0. lia.
Qed.

Lemma TrailingZeros_nonneg w x : 0 ≤ w → 0 ≤ TrailingZeros w x.
Proof. intros. destruct x; simpl; try lia. apply ctz_pos_spec. Qed.

Lemma TrailingZeros_spec w x :
  0 < x → ∃ q, x = (2 * q + 1) * 2 ^ TrailingZeros w x.
Proof. destruct x; try lia. intros _. apply ctz_pos_spec. Qed.

Lemma testbit_odd_mul q n : 0 ≤ n → Z.testbit ((2 * q + 1) * 2 ^ n) n = true.
Proof.
  intros. rewrite <- Z.shiftl_mul_pow2, Z.shiftl_spec, Z.sub_diag by lia.
  apply Z.testbit_odd_0.
Qed.

Lemma testbit_mul_low q n i : 0 ≤ i < n → Z.testbit (q * 2 ^ n) i = false.
Proof. intros. rewrite <- Z.shiftl_mul_pow2 by lia. apply Z.shiftl_spec_low. lia. Qed.

Lemma TrailingZeros_bit w x : 0 < x → Z.testbit x (TrailingZeros w x) = true.
Proof.
  intros Hx. destruct (TrailingZeros_spec w x Hx) as [q Hq].
  rewrite Hq at 1. apply testbit_odd_mul. destruct x; try lia. apply ctz_pos_spec.
Qed.

Lemma TrailingZeros_below w x i :
  0 < x → 0 ≤ i < TrailingZeros w x → Z.testbit x i = false.
Proof.
  intros Hx Hi. destruct (TrailingZeros_spec w x Hx) as [q Hq].
  rewrite Hq. by apply testbit_mul_low.
Qed.

End bits.

(** * Ranging over Go maps *)

Class GoRange := {
  range : ∀ {A} `{Countable A}, gset A → list A;
  range_perm : ∀ {A} `{Countable A} (s : gset A), range s ≡ₚ elements s;
}.

(** The iteration order of the examples. *)
Definition range_elements : GoRange := {|
  range A _ _ s := elements s;
  range_perm A _ _ s := Permutation_refl (elements s);
|}.

Section range.
Context {GR : GoRange}.

Lemma elem_of_range {A} `{Countable A} (x : A) (s : gset A) : x ∈ range s ↔ x ∈ s.
Proof. by rewrite range_perm, elem_of_elements. Qed.

Lemma NoDup_range {A} `{Countable A} (s : gset A) : NoDup (range s).
Proof. rewrite range_perm. apply NoDup_elements. Qed.

Lemma range_empty A `{Countable A} : range (∅ : gset A) = [].
Proof. apply Permutation_nil_r. by rewrite range_perm, elements_empty. Qed.

(** The values of a map, in the order of an iteration. *)
Definition range_values {K A} `{Countable K} (m : gmap K A) : list A := omap (λ k, m !! k) (range (dom m)).

Lemma elem_of_range_values {K A} `{Countable K} (m : gmap K A) x : x ∈ range_values m ↔ ∃ k, m !! k = Some x.
Proof.
  unfold range_values. rewrite list_elem_of_omap. split; [naive_solver|]. intros (k & E). exists k.
  split; [|done]. apply elem_of_range, elem_of_dom. by exists x.
Qed.
End range.

(** * Sorting

    Go's [sort] and [slices.Sort] are not stable: of elements that compare equal any order
    may come out. *)

Class GoSort := {
  sort_by : ∀ {A} (le : relation A) `{∀ x y, Decision (le x y)}, list A → list A;
  sort_by_perm : ∀ {A} (le : relation A) `{∀ x y, Decision (le x y)} l, sort_by le l ≡ₚ l;
  sort_by_sorted : ∀ {A} (le : relation A) `{∀ x y, Decision (le x y)} `{!Total le} `{!Transitive le} l,
    StronglySorted le (sort_by le l);
}.

(** The sorting algorithm of the examples. *)
Definition sort_merge : GoSort.
Proof.
  refine {| sort_by A le dec l := merge_sort le l |}.
  - intros A le dec l. apply merge_sort_Permutation.
  - intros A le dec HT HR l. by apply StronglySorted_merge_sort.
Defined.

(** With an antisymmetric order the sorted list is unique. *)
Lemma sort_by_unique {GS : GoSort} {A} (le : relation A) `{∀ x y, Decision (le x y)} `{!Total le} `{!Transitive le} `{!AntiSymm eq le}
  l l' : l' ≡ₚ l → StronglySorted le l' → sort_by le l = l'.
Proof.
  intros HP HS. apply (StronglySorted_unique le); [by apply sort_by_sorted|done|]. by rewrite sort_by_perm.
Qed.
