(* ===== verification/Precedence.v ===== *)
(** * Policy precedence and map-state entries

    Model of [src/pkg/policy/types/entry.go]: API priorities, the 32-bit
    [Precedence] encoding the datapath compares, and [MapStateEntry]. *)

From S2P Require Import Prelude.
Local Open Scope Z_scope.

(** ** Constants *)

Definition MaxListenerPriority : Z := 126.
Definition precedencePriorityShift : Z := 8.
Definition precedencePriorityBits : Z := 32 - precedencePriorityShift.
Definition HighestPriority : Z := 0.
Definition LowestPriority : Z := 2 ^ precedencePriorityBits - 1.

Definition precedenceByteMask : Z := 255.
Definition precedenceByteDeny : Z := 255.
Definition precedenceByteAllow : Z := 1.
Definition precedenceBytePass : Z := 0.

Definition MinPrecedence : Z := 0.
Definition MaxPrecedence : Z := unot 32 0.
Definition MaxDenyPrecedence : Z := MaxPrecedence.
Definition MaxBasePrecedence : Z := Z.land MaxPrecedence (unot 32 precedenceByteMask).
Definition MaxAllowPrecedence : Z :=
  Z.lor (Z.land MaxPrecedence (unot 32 precedenceByteMask)) precedenceByteAllow.

(** ** Priorities *)

(** Integer division by zero panics in Go: [None]. *)
Definition Roundup (w n to : Z) : option Z :=
  if to =? 0 then None
  else
    let r := n mod to in
    Some (if negb (r =? 0) then uwrap w (n + uwrap w (to - r)) else n).

(** The method's receiver is a pointer: the result pairs its new value with
    the returned boolean. *)
Definition IncrementWithRoundup (p to : Z) : option (Z * bool) :=
  match Roundup 32 (uwrap 32 (p + 1)) to with
  | None => None
  | Some np =>
      if (LowestPriority <? np) || (np <? p) then Some (p, false)
      else Some (np, true)
  end.

Definition Priority_Add (p add : Z) : Z * bool :=
  let np := uwrap 32 (p + add) in
  if (LowestPriority <? np) || (np <? p) then (p, false) else (np, true).

Definition toBasePrecedence (priority : Z) : Z :=
  let priority := if LowestPriority <? priority then LowestPriority else priority in
  ushl 32 (uwrap 32 (LowestPriority - priority)) precedencePriorityShift.

Definition ToPassPrecedence (priority : Z) : Z := toBasePrecedence priority.
Definition ToAllowPrecedence (priority : Z) : Z :=
  Z.lor (toBasePrecedence priority) precedenceByteAllow.
Definition ToDenyPrecedence (priority : Z) : Z :=
  Z.lor (toBasePrecedence priority) precedenceByteDeny.

(** ** Precedences *)

Definition Precedence_WithListenerPriority (p priority : Z) : Z :=
  let p := Z.land p (unot 32 precedenceByteMask) in
  let p := Z.lor p precedenceByteAllow in
  if 0 <? priority then
    let priority := Z.min priority MaxListenerPriority in
    uwrap 32 (p + uwrap 32 (precedenceByteMask - 1 - priority))
  else uwrap 32 (p + 1).

Definition ToPrecedenceWithListenerPriority (p : Z) (deny redirect : bool) (lp : Z) : Z :=
  let precedence := toBasePrecedence p in
  if deny then Z.lor precedence precedenceByteDeny
  else if negb redirect then Z.lor precedence precedenceByteAllow
  else Precedence_WithListenerPriority precedence lp.

Definition Precedence_IsDeny (p : Z) : bool :=
  Z.land p precedenceByteMask =? precedenceByteDeny.
Definition Precedence_IsPass (p : Z) : bool :=
  Z.land p precedenceByteMask =? precedenceBytePass.
Definition Precedence_IsAllow (p : Z) : bool :=
  negb (Precedence_IsDeny p) && negb (Precedence_IsPass p).

Definition AllowPrecedence (p : Z) : Z :=
  Z.lor (Z.land p (unot 32 precedenceByteMask)) precedenceByteAllow.

Definition ProxyPortPrecedenceMayDiffer (p o : Z) : bool :=
  (Z.lxor p o <=? precedenceByteMask) &&
  Bool.eqb (Precedence_IsDeny p) (Precedence_IsDeny o).

Definition Precedence_Priority (p : Z) : Z :=
  uwrap 32 (LowestPriority - ushr 32 p precedencePriorityShift).

Definition Precedence_ListenerPriority (p : Z) : Z :=
  uwrap 8 (precedenceByteMask - Z.land p precedenceByteMask).

(** ** Map-state entries *)

Record MapStateEntry := mkMapStateEntry {
  Precedence : Z;
  ProxyPort : Z;
  invalid : bool;
  Cookie : Z;
}.

#[export] Instance MapStateEntry_eq_dec : EqDecision MapStateEntry.
Proof. solve_decision. Defined.

Definition set_Precedence (p : Z) (e : MapStateEntry) : MapStateEntry :=
  mkMapStateEntry p (ProxyPort e) (invalid e) (Cookie e).
Definition set_ProxyPort (pp : Z) (e : MapStateEntry) : MapStateEntry :=
  mkMapStateEntry (Precedence e) pp (invalid e) (Cookie e).

Definition Invalidate (e : MapStateEntry) : MapStateEntry :=
  mkMapStateEntry (Precedence e) (ProxyPort e) true (Cookie e).
Definition IsValid (e : MapStateEntry) : bool := negb (invalid e).

Definition MapStateEntry_IsDeny (e : MapStateEntry) : bool :=
  Precedence_IsDeny (Precedence e).
Definition MapStateEntry_IsAllow (e : MapStateEntry) : bool :=
  Precedence_IsAllow (Precedence e).
Definition IsRedirectEntry (e : MapStateEntry) : bool := negb (ProxyPort e =? 0).

Definition MapStateEntry_WithListenerPriority (e : MapStateEntry) (priority : Z)
    : MapStateEntry :=
  if negb (ProxyPort e =? 0)
  then set_Precedence (Precedence_WithListenerPriority (Precedence e) priority) e
  else e.

Definition NewMapStateEntry (priority : Z) (deny : bool) (proxyPort listenerPriority : Z)
    : MapStateEntry :=
  let precedence := toBasePrecedence priority in
  let '(precedence, proxyPort, listenerPriority) :=
    if deny then (Z.lor precedence precedenceByteDeny, 0, 0)
    else (Z.lor precedence precedenceByteAllow, proxyPort, listenerPriority) in
  MapStateEntry_WithListenerPriority
    (mkMapStateEntry precedence proxyPort false 0) listenerPriority.

Definition AllowEntry : MapStateEntry := mkMapStateEntry MaxAllowPrecedence 0 false 0.
Definition DenyEntry : MapStateEntry := mkMapStateEntry MaxDenyPrecedence 0 false 0.
Definition InvalidEntry : MapStateEntry := mkMapStateEntry MaxDenyPrecedence 0 true 0.

Definition WithPriority (e : MapStateEntry) (priority : Z) : MapStateEntry :=
  let p := Z.land (Precedence e) (2 ^ precedencePriorityShift - 1) in
  set_Precedence
    (Z.lor p (ushl 32 (uwrap 32 (LowestPriority - priority)) precedencePriorityShift)) e.

Definition WithDeny (e : MapStateEntry) (isDeny : bool) : MapStateEntry :=
  if isDeny then
    if negb (MapStateEntry_IsDeny e) then
      set_Precedence
        (Z.lor (Z.land (Precedence e) (unot 32 precedenceByteMask)) precedenceByteDeny) e
    else e
  else if negb (MapStateEntry_IsAllow e) then
    set_Precedence
      (Z.lor (Z.land (Precedence e) (unot 32 precedenceByteMask)) precedenceByteAllow) e
  else e.

(** A zero port panics. *)
Definition WithProxyPort (e : MapStateEntry) (proxyPort : Z) : option MapStateEntry :=
  if proxyPort =? 0 then None
  else
    Some (set_Precedence
            (Z.lor (Z.land (Precedence e) (unot 32 precedenceByteMask)) precedenceByteAllow)
            (set_ProxyPort proxyPort e)).

(** [e.Merge(entry)], returning the updated [e]. *)
Definition MapStateEntry_Merge (e entry : MapStateEntry) : MapStateEntry :=
  if MapStateEntry_IsAllow e && MapStateEntry_IsAllow entry then
    if IsRedirectEntry entry then
      if (Precedence e <? Precedence entry) ||
         (Precedence entry =? Precedence e) && (ProxyPort entry <? ProxyPort e)
      then set_Precedence (Precedence entry) (set_ProxyPort (ProxyPort entry) e)
      else e
    else e
  else e.

(** ** Arithmetic normal forms

    Every precedence is [base * 256 + byte]; the lemmas below put each
    operation in that form, after which [lia] decides order questions. *)

Create HintDb precedence.

Lemma clear_byte p :
  is_uint 32 p → Z.land p (unot 32 precedenceByteMask) = p / 256 * 256.
Proof. intros. by apply (land_himask 32 8 p). Qed.

Lemma land_byte p : Z.land p precedenceByteMask = p mod 256.
Proof. by apply (land_lomask 8 p). Qed.

Lemma lor_byte q b : 0 ≤ b < 256 → Z.lor (q * 256) b = q * 256 + b.
Proof. intros. by apply (lor_low_add 8 q b). Qed.

Lemma toBasePrecedence_eq p :
  0 ≤ p → toBasePrecedence p = (LowestPriority - Z.min p LowestPriority) * 256.
Proof.
  intros Hp. unfold toBasePrecedence, ushl. change (precedencePriorityShift <? 32) with true.
  cbv iota. rewrite Z.shiftl_mul_pow2 by done.
  change (2 ^ precedencePriorityShift) with 256.
  assert (HL : LowestPriority = 16777215) by done. rewrite HL.
  replace (if 16777215 <? p then 16777215 else p) with (Z.min p 16777215)
    by (destruct (Z.ltb_spec 16777215 p); lia).
  rewrite !uwrap_small; unfold is_uint; try rewrite uwrap_small; unfold is_uint; lia.
Qed.

Lemma ToAllowPrecedence_eq p :
  0 ≤ p → ToAllowPrecedence p = (LowestPriority - Z.min p LowestPriority) * 256 + 1.
Proof. intros. unfold ToAllowPrecedence. rewrite toBasePrecedence_eq, lor_byte; done. Qed.

Lemma ToDenyPrecedence_eq p :
  0 ≤ p → ToDenyPrecedence p = (LowestPriority - Z.min p LowestPriority) * 256 + 255.
Proof. intros. unfold ToDenyPrecedence. rewrite toBasePrecedence_eq, lor_byte; done. Qed.

(** The low byte a listener priority maps to: 2 for the default, else 129..254. *)
Definition listener_byte (lp : Z) : Z :=
  if 0 <? lp then 255 - Z.min lp MaxListenerPriority else 2.

Lemma listener_byte_bounds lp : 2 ≤ listener_byte lp ≤ 254.
Proof.
  unfold listener_byte. change MaxListenerPriority with 126.
  destruct (Z.ltb_spec 0 lp); lia.
Qed.

Lemma Precedence_WithListenerPriority_eq p lp :
  is_uint 32 p → 0 ≤ lp →
  Precedence_WithListenerPriority p lp = p / 256 * 256 + listener_byte lp.
Proof.
  intros Hp Hlp. unfold Precedence_WithListenerPriority, listener_byte.
  rewrite clear_byte, lor_byte by done.
  change precedenceByteAllow with 1. change precedenceByteMask with 255.
  change MaxListenerPriority with 126. unfold is_uint in Hp.
  assert (p / 256 * 256 ≤ 2 ^ 32 - 256).
  { pose proof (Z.div_lt_upper_bound p 256 (2 ^ 24)). lia. }
  assert (0 ≤ p / 256 * 256) by (pose proof (Z.div_pos p 256); lia).
  destruct (Z.ltb_spec 0 lp); [|rewrite uwrap_small; unfold is_uint; lia].
  rewrite (uwrap_small 32 (255 - 1 - _)) by (unfold is_uint; lia).
  rewrite uwrap_small; unfold is_uint; lia.
Qed.

Lemma ToPrecedenceWithListenerPriority_eq p deny redirect lp :
  0 ≤ p → 0 ≤ lp →
  ToPrecedenceWithListenerPriority p deny redirect lp =
  (LowestPriority - Z.min p LowestPriority) * 256 +
  (if deny then 255 else if redirect then listener_byte lp else 1).
Proof.
  intros Hp Hlp. unfold ToPrecedenceWithListenerPriority. rewrite toBasePrecedence_eq by done.
  destruct deny; [by rewrite lor_byte|]. destruct redirect; simpl; [|by rewrite lor_byte].
  assert (HL : LowestPriority = 16777215) by done.
  rewrite Precedence_WithListenerPriority_eq by (unfold is_uint; lia).
  by rewrite Z.div_mul.
Qed.

Lemma Precedence_IsDeny_iff p : Precedence_IsDeny p = true ↔ p mod 256 = 255.
Proof. unfold Precedence_IsDeny. rewrite land_byte. apply Z.eqb_eq. Qed.

Lemma Precedence_IsPass_iff p : Precedence_IsPass p = true ↔ p mod 256 = 0.
Proof. unfold Precedence_IsPass. rewrite land_byte. apply Z.eqb_eq. Qed.

Lemma Precedence_IsAllow_iff p :
  Precedence_IsAllow p = true ↔ p mod 256 ≠ 0 ∧ p mod 256 ≠ 255.
Proof.
  unfold Precedence_IsAllow. rewrite andb_true_iff, !negb_true_iff, <- !not_true_iff_false.
  rewrite Precedence_IsDeny_iff, Precedence_IsPass_iff. tauto.
Qed.

Lemma Precedence_Priority_eq p :
  is_uint 32 p → Precedence_Priority p = LowestPriority - p / 256.
Proof.
  intros Hp. unfold Precedence_Priority, ushr.
  change (precedencePriorityShift <? 32) with true. cbv iota.
  rewrite Z.shiftr_div_pow2 by done. change (2 ^ precedencePriorityShift) with 256.
  assert (HL : LowestPriority = 16777215) by done. unfold is_uint in Hp.
  pose proof (Z.div_lt_upper_bound p 256 (2 ^ 24)). pose proof (Z.div_pos p 256).
  apply uwrap_small. unfold is_uint. lia.
Qed.

(** [p ^ o <= 0xff] compares everything but the low byte. *)
Lemma lxor_le_byte p o :
  is_uint 32 p → is_uint 32 o → (Z.lxor p o ≤ precedenceByteMask ↔ p / 256 = o / 256).
Proof.
  intros Hp Ho.
  assert (Hx : is_uint 32 (Z.lxor p o)) by by apply lxor_uint.
  assert (E : Z.lxor p o / 256 = Z.lxor (p / 256) (o / 256)).
  { change 256 with (2 ^ 8). rewrite <- !Z.shiftr_div_pow2 by done. apply Z.shiftr_lxor. }
  change precedenceByteMask with 255. unfold is_uint in Hx. split; intros H.
  - apply Z.lxor_eq. rewrite <- E. apply Z.div_small. lia.
  - rewrite H, Z.lxor_nilpotent in E. dlia.
Qed.

Lemma ProxyPortPrecedenceMayDiffer_iff p o :
  is_uint 32 p → is_uint 32 o →
  ProxyPortPrecedenceMayDiffer p o = true ↔
  Precedence_Priority p = Precedence_Priority o ∧ Precedence_IsDeny p = Precedence_IsDeny o.
Proof.
  intros Hp Ho. unfold ProxyPortPrecedenceMayDiffer.
  rewrite andb_true_iff, Z.leb_le, eqb_true_iff, lxor_le_byte by done.
  rewrite !Precedence_Priority_eq by done.
  split; intros [? ?]; (split; [lia|done]).
Qed.

(** ** Well-formed entries

    What [NewMapStateEntry] produces: a deny entry has no proxy port and an
    allow entry has the plain allow byte exactly when it has no proxy port. *)

Record wf_entry (e : MapStateEntry) : Prop := {
  wf_prec : is_uint 32 (Precedence e);
  wf_port : is_uint 16 (ProxyPort e);
  wf_nopass : Precedence e mod 256 ≠ 0;
  wf_deny : Precedence e mod 256 = 255 → ProxyPort e = 0;
  wf_allow : Precedence e mod 256 ≠ 255 → (ProxyPort e = 0 ↔ Precedence e mod 256 = 1);
}.

Lemma NewMapStateEntry_Precedence priority deny pp lp :
  0 ≤ priority → 0 ≤ lp →
  Precedence (NewMapStateEntry priority deny pp lp) =
  ToPrecedenceWithListenerPriority priority deny (negb (pp =? 0)) lp.
Proof.
  intros Hp Hlp. rewrite ToPrecedenceWithListenerPriority_eq by done.
  unfold NewMapStateEntry, MapStateEntry_WithListenerPriority.
  destruct deny; simpl; [by rewrite toBasePrecedence_eq, lor_byte|].
  rewrite toBasePrecedence_eq, lor_byte by done.
  destruct (pp =? 0); simpl; [done|].
  assert (HL : LowestPriority = 16777215) by done.
  rewrite Precedence_WithListenerPriority_eq by (unfold is_uint, precedenceByteAllow; lia).
  rewrite Z.div_add_l by done. by rewrite Z.add_0_r.
Qed.

Lemma mod_256_add q b : 0 ≤ b < 256 → (q * 256 + b) mod 256 = b.
Proof. intros. rewrite Z.add_comm, Z.mod_add by done. by apply Z.mod_small. Qed.

Lemma NewMapStateEntry_wf priority deny pp lp :
  is_uint 32 priority → is_uint 16 pp → is_uint 8 lp →
  wf_entry (NewMapStateEntry priority deny pp lp).
Proof.
  intros Hp Hpp Hlp. pose proof (listener_byte_bounds lp).
  assert (HL : LowestPriority = 16777215) by done. unfold is_uint in *.
  pose proof (NewMapStateEntry_Precedence priority deny pp lp ltac:(lia) ltac:(lia)) as HP.
  rewrite ToPrecedenceWithListenerPriority_eq in HP by lia.
  assert (HPP : ProxyPort (NewMapStateEntry priority deny pp lp) = if deny then 0 else pp).
  { unfold NewMapStateEntry, MapStateEntry_WithListenerPriority.
    destruct deny; simpl; [done|]. by destruct (pp =? 0). }
  assert (HM : Precedence (NewMapStateEntry priority deny pp lp) mod 256 =
    if deny then 255 else if negb (pp =? 0) then listener_byte lp else 1).
  { rewrite HP. destruct deny; [by rewrite mod_256_add|].
    destruct (negb (pp =? 0)); rewrite mod_256_add; lia. }
  split; rewrite ?HM, ?HPP, ?HP; destruct deny; unfold is_uint;
    destruct (Z.eqb_spec pp 0); simpl; lia.
Qed.

Ltac entry_lia :=
  repeat match goal with
  | H : wf_entry _ |- _ => destruct H
  end; unfold is_uint in *; try lia.

(** Only the proxy-port part of two mergeable entries can differ. *)
Lemma MapStateEntry_Merge_Precedence e o :
  wf_entry e → wf_entry o →
  ProxyPortPrecedenceMayDiffer (Precedence e) (Precedence o) = true →
  Precedence (MapStateEntry_Merge e o) = Z.max (Precedence e) (Precedence o).
Proof.
  intros He Ho H. rewrite ProxyPortPrecedenceMayDiffer_iff in H by entry_lia.
  destruct H as [Hpri Hdeny]. rewrite !Precedence_Priority_eq in Hpri by entry_lia.
  pose proof (Z.div_mod (Precedence e) 256). pose proof (Z.div_mod (Precedence o) 256).
  unfold MapStateEntry_Merge, MapStateEntry_IsAllow, IsRedirectEntry.
  destruct (Precedence_IsAllow (Precedence e)) eqn:Ae; simpl.
  - apply Precedence_IsAllow_iff in Ae as [_ Ae].
    assert (Precedence_IsDeny (Precedence e) = false) as De.
    { rewrite <- not_true_iff_false, Precedence_IsDeny_iff. done. }
    rewrite De in Hdeny. symmetry in Hdeny.
    rewrite <- not_true_iff_false, Precedence_IsDeny_iff in Hdeny.
    assert (Precedence_IsAllow (Precedence o) = true) as ->
      by (apply Precedence_IsAllow_iff; entry_lia).
    pose proof (Z.mod_pos_bound (Precedence e) 256 ltac:(lia)).
    destruct (Z.eqb_spec (ProxyPort o) 0); simpl.
    + entry_lia.
    + destruct (Z.ltb_spec (Precedence e) (Precedence o)); simpl; [lia|].
      destruct (Z.eqb_spec (Precedence o) (Precedence e)); simpl; [|lia].
      destruct (_ <? _); simpl; lia.
  - assert (Precedence e mod 256 = 255) as De.
    { rewrite <- not_true_iff_false, Precedence_IsAllow_iff in Ae. entry_lia. }
    assert (Precedence o mod 256 = 255); [|lia].
    apply Precedence_IsDeny_iff. rewrite <- Hdeny. by apply Precedence_IsDeny_iff.
Qed.

(** ** Properties *)

(** The order in which rules are meant to win: lower priority number first;
    on one priority level deny over redirect over plain allow; among redirects
    an explicit listener priority over the default one, lower numbers first. *)
Definition listener_beats (l1 l2 : Z) : Prop :=
  0 < l1 ∧ (l2 = 0 ∨ Z.min l1 MaxListenerPriority < Z.min l2 MaxListenerPriority).

Definition rule_beats (p1 : Z) (d1 r1 : bool) (l1 p2 : Z) (d2 r2 : bool) (l2 : Z) : Prop :=
  p1 < p2 ∨
  p1 = p2 ∧
    (d1 = true ∧ d2 = false ∨
     d1 = false ∧ d2 = false ∧
       (r1 = true ∧ r2 = false ∨ r1 = true ∧ r2 = true ∧ listener_beats l1 l2)).

Lemma listener_byte_lt l1 l2 :
  0 ≤ l1 → 0 ≤ l2 → (listener_byte l2 < listener_byte l1 ↔ listener_beats l1 l2).
Proof.
  intros. unfold listener_byte, listener_beats. change MaxListenerPriority with 126.
  destruct (Z.ltb_spec 0 l1), (Z.ltb_spec 0 l2); lia.
Qed.

(** C30. Comparing the 32-bit precedences two rules are given compares the rules
    themselves: the numeric order is exactly priority, then deny, then redirect,
    then listener priority. *)
Theorem precedence_order (p1 p2 l1 l2 : Z) (d1 r1 d2 r2 : bool) :
  0 ≤ p1 ≤ LowestPriority → 0 ≤ p2 ≤ LowestPriority → is_uint 8 l1 → is_uint 8 l2 →
  ToPrecedenceWithListenerPriority p2 d2 r2 l2 < ToPrecedenceWithListenerPriority p1 d1 r1 l1
  ↔ rule_beats p1 d1 r1 l1 p2 d2 r2 l2.
Proof.
  intros Hp1 Hp2 Hl1 Hl2. unfold is_uint in *.
  rewrite !ToPrecedenceWithListenerPriority_eq by lia.
  pose proof (listener_byte_bounds l1). pose proof (listener_byte_bounds l2).
  pose proof (listener_byte_lt l1 l2 ltac:(lia) ltac:(lia)) as HL.
  rewrite !Z.min_l by lia. unfold rule_beats.
  set (b1 := if d1 then _ else _). set (b2 := if d2 then _ else _).
  assert (HB : b2 < b1 ↔
    d1 = true ∧ d2 = false ∨
    d1 = false ∧ d2 = false ∧
      (r1 = true ∧ r2 = false ∨ r1 = true ∧ r2 = true ∧ listener_beats l1 l2)).
  { rewrite <- HL. unfold b1, b2. destruct d1, d2, r1, r2; intuition (done || lia). }
  rewrite <- HB. unfold b1, b2. destruct d1, d2, r1, r2; lia.
Qed.

Lemma precedence_order_witness :
  ToPrecedenceWithListenerPriority 7 false true 100 <
  ToPrecedenceWithListenerPriority 7 false true 1
  ↔ rule_beats 7 false true 1 7 false true 100.
Proof. apply precedence_order; unfold is_uint; vm_compute; split; congruence. Defined.

(** The encoding loses nothing: a precedence gives back its priority, its
    verdict, and (for a redirect) its listener priority. *)
Theorem precedence_decode (p lp : Z) (deny redirect : bool) :
  0 ≤ p ≤ LowestPriority → 1 ≤ lp ≤ MaxListenerPriority →
  let P := ToPrecedenceWithListenerPriority p deny redirect lp in
  Precedence_Priority P = p ∧
  Precedence_IsDeny P = deny ∧ Precedence_IsAllow P = negb deny ∧
  Precedence_IsPass P = false ∧
  (deny = false → redirect = true → Precedence_ListenerPriority P = lp) ∧
  Precedence_Priority (ToPassPrecedence p) = p ∧
  Precedence_IsPass (ToPassPrecedence p) = true.
Proof.
  intros Hp Hlp P. assert (HL : LowestPriority = 16777215) by done.
  assert (HM : MaxListenerPriority = 126) by done.
  set (b := if deny then 255 else if redirect then listener_byte lp else 1).
  pose proof (listener_byte_bounds lp) as Hb.
  assert (HP : P = (LowestPriority - p) * 256 + b).
  { unfold P. rewrite ToPrecedenceWithListenerPriority_eq by lia.
    by rewrite Z.min_l by lia. }
  assert (Hbb : 1 ≤ b ≤ 255) by (unfold b; destruct deny, redirect; lia).
  assert (HPu : is_uint 32 P) by (unfold is_uint; lia).
  assert (Hbase : ToPassPrecedence p = (LowestPriority - p) * 256).
  { unfold ToPassPrecedence. rewrite toBasePrecedence_eq by lia. by rewrite Z.min_l by lia. }
  assert (Hmod : P mod 256 = b) by (rewrite HP; apply mod_256_add; lia).
  repeat split.
  - rewrite Precedence_Priority_eq by done. dlia.
  - apply eq_true_iff_eq. rewrite Precedence_IsDeny_iff, Hmod. unfold b.
    destruct deny, redirect; intuition (done || lia).
  - apply eq_true_iff_eq. rewrite Precedence_IsAllow_iff, Hmod. unfold b.
    destruct deny, redirect; intuition (done || lia).
  - rewrite <- not_true_iff_false, Precedence_IsPass_iff. lia.
  - intros -> ->. unfold Precedence_ListenerPriority. rewrite land_byte, Hmod.
    unfold b, listener_byte. change precedenceByteMask with 255.
    destruct (Z.ltb_spec 0 lp); [|lia]. rewrite uwrap_small; unfold is_uint; lia.
  - rewrite Precedence_Priority_eq; [|unfold is_uint; lia]. rewrite Hbase. dlia.
  - apply Precedence_IsPass_iff. rewrite Hbase. by apply Z.mod_mul.
Qed.

Lemma precedence_decode_witness :
  let P := ToPrecedenceWithListenerPriority 1000 false true 101 in
  Precedence_Priority P = 1000 ∧ Precedence_IsDeny P = false ∧
  Precedence_IsAllow P = true ∧ Precedence_IsPass P = false ∧
  (false = false → true = true → Precedence_ListenerPriority P = 101) ∧
  Precedence_Priority (ToPassPrecedence 1000) = 1000 ∧
  Precedence_IsPass (ToPassPrecedence 1000) = true.
Proof. apply (precedence_decode 1000 101 false true); vm_compute; split; congruence. Defined.

(** Merging two entries of one priority level and verdict does not depend
    on the order: the higher listener precedence wins, and the lower proxy port
    on a tie. *)
Theorem merge_order_independent (e o : MapStateEntry) :
  wf_entry e → wf_entry o →
  ProxyPortPrecedenceMayDiffer (Precedence e) (Precedence o) = true →
  Precedence (MapStateEntry_Merge e o) = Z.max (Precedence e) (Precedence o) ∧
  Precedence (MapStateEntry_Merge e o) = Precedence (MapStateEntry_Merge o e) ∧
  ProxyPort (MapStateEntry_Merge e o) = ProxyPort (MapStateEntry_Merge o e) ∧
  wf_entry (MapStateEntry_Merge e o).
Proof.
  intros He Ho H.
  assert (H' : ProxyPortPrecedenceMayDiffer (Precedence o) (Precedence e) = true).
  { rewrite ProxyPortPrecedenceMayDiffer_iff in * by entry_lia. intuition congruence. }
  pose proof (MapStateEntry_Merge_Precedence e o He Ho H) as H1.
  pose proof (MapStateEntry_Merge_Precedence o e Ho He H') as H2.
  split; [done|]. split; [lia|].
  unfold MapStateEntry_Merge, MapStateEntry_IsAllow, IsRedirectEntry in *.
  rewrite (andb_comm (Precedence_IsAllow (Precedence o))).
  rewrite ProxyPortPrecedenceMayDiffer_iff in H by entry_lia. destruct H as [Hpri Hd].
  rewrite !Precedence_Priority_eq in Hpri by entry_lia.
  pose proof (Z.div_mod (Precedence e) 256 ltac:(done)).
  pose proof (Z.div_mod (Precedence o) 256 ltac:(done)).
  destruct (Precedence_IsAllow (Precedence e)) eqn:Ae,
    (Precedence_IsAllow (Precedence o)) eqn:Ao; simpl in *;
    try (split; [|done]);
    rewrite <- ?not_true_iff_false, ?Precedence_IsAllow_iff in *; try entry_lia.
  destruct (Z.eqb_spec (ProxyPort o) 0), (Z.eqb_spec (ProxyPort e) 0); simpl in *;
    repeat (case_match; simpl in *); split; try done; try entry_lia.
Qed.

Lemma merge_order_independent_witness :
  let e := NewMapStateEntry 5 false 8080 1 in
  let o := NewMapStateEntry 5 false 80 1 in
  Precedence (MapStateEntry_Merge e o) = Z.max (Precedence e) (Precedence o) ∧
  Precedence (MapStateEntry_Merge e o) = Precedence (MapStateEntry_Merge o e) ∧
  ProxyPort (MapStateEntry_Merge e o) = ProxyPort (MapStateEntry_Merge o e) ∧
  wf_entry (MapStateEntry_Merge e o).
Proof.
  intros e o. apply (merge_order_independent e o).
  - apply NewMapStateEntry_wf; unfold is_uint; lia.
  - apply NewMapStateEntry_wf; unfold is_uint; lia.
  - reflexivity.
Defined.

Lemma Roundup_spec n to :
  is_uint 32 n → is_uint 32 to → 0 < to →
  Roundup 32 n to = Some (uwrap 32 ((n + to - 1) / to * to)).
Proof.
  intros Hn Hto Hpos. unfold Roundup. destruct (Z.eqb_spec to 0); [lia|].
  pose proof (Z.mod_pos_bound n to Hpos). pose proof (Z.div_mod n to ltac:(lia)) as Hdm.
  unfold is_uint in *.
  destruct (Z.eqb_spec (n mod to) 0) as [E|E]; simpl; f_equal.
  - assert ((n + to - 1) / to = n / to) as ->.
    { symmetry. apply (Z.div_unique _ _ _ (to - 1)); lia. }
    replace (n / to * to) with n by lia. by rewrite uwrap_small.
  - assert ((n + to - 1) / to = n / to + 1) as ->.
    { symmetry. apply (Z.div_unique _ _ _ (n mod to - 1)); lia. }
    rewrite (uwrap_small 32 (to - _)) by (unfold is_uint; lia). f_equal. lia.
Qed.

(** [IncrementWithRoundup] moves a priority to the next multiple of [to],
    and refuses exactly when that multiple is past [LowestPriority], also when
    the 32-bit addition wraps around. *)
Theorem IncrementWithRoundup_next_multiple (p to : Z) :
  0 ≤ p ≤ LowestPriority → is_uint 32 to → 0 < to →
  ∃ k : Z, (k - 1) * to ≤ p < k * to ∧
    IncrementWithRoundup p to =
      Some (if k * to <=? LowestPriority then (k * to, true) else (p, false)).
Proof.
  intros Hp Hto Hpos. assert (HL : LowestPriority = 16777215) by done.
  exists (p / to + 1).
  pose proof (Z.mod_pos_bound p to Hpos). pose proof (Z.div_mod p to ltac:(lia)) as Hdm.
  split; [lia|]. unfold IncrementWithRoundup, is_uint in *.
  rewrite (uwrap_small 32 (p + 1)) by (unfold is_uint; lia).
  rewrite Roundup_spec by (unfold is_uint; lia).
  replace ((p + 1 + to - 1) / to) with (p / to + 1)
    by (apply (Z.div_unique _ _ _ (p mod to)); lia).
  set (np := (p / to + 1) * to). assert (Hnp : p < np ≤ p + to) by (unfold np; lia).
  destruct (decide (np < 2 ^ 32)) as [Hs|Hs].
  - rewrite (uwrap_small 32 np) by (unfold is_uint; lia).
    destruct (Z.leb_spec np LowestPriority), (Z.ltb_spec LowestPriority np),
      (Z.ltb_spec np p); simpl; try lia; done.
  - assert (uwrap 32 np = np - 2 ^ 32) as ->.
    { symmetry. apply (Z.mod_unique _ _ 1); lia. }
    destruct (Z.leb_spec np LowestPriority); [lia|].
    destruct (Z.ltb_spec (np - 2 ^ 32) p); [by rewrite orb_true_r|lia].
Qed.

Lemma IncrementWithRoundup_next_multiple_witness :
  ∃ k : Z, (k - 1) * 1000 ≤ 2500 < k * 1000 ∧
    IncrementWithRoundup 2500 1000 =
      Some (if k * 1000 <=? LowestPriority then (k * 1000, true) else (2500, false)).
Proof.
  apply (IncrementWithRoundup_next_multiple 2500 1000); unfold is_uint;
    vm_compute; try split; congruence.
Defined.
