(* ===== verification/BitLPM.v ===== *)
(** * The longest-prefix-match trie

    Model of [src/pkg/container/bitlpm/trie.go]: the [Key] interface a trie is
    indexed by, the path-compressed binary trie with intermediate nodes, its
    lookups, iterators, [Upsert] and [Delete].  The trie is proved to implement
    a finite map from bit prefixes to values ([Trie]/[TrieLaws] at the end),
    which is what [pkg/policy] relies on. *)

From S2P Require Import Prelude.

(** ** The [Key] interface *)

Class Key (K : Type) := {
  CommonPrefix : K → K → nat;
  BitValueAt : K → nat → Z;
}.

Definition bit `{Key K} (k : K) (i : nat) : bool := negb (BitValueAt k i =? 0)%Z.

(** The first [p] bits of a key: what a prefix-key pair stands for. *)
Definition bits `{Key K} (p : nat) (k : K) : list bool := bit k <$> seq 0 p.

(** What the trie relies on: on proper keys, [CommonPrefix] counts the equal
    leading bits, up to the key size [keyLen]. *)
Class KeyLaws (K : Type) `{Key K} := {
  keyLen : nat;
  key_ok : K → Prop;
  CommonPrefix_le a b : key_ok a → key_ok b → CommonPrefix a b ≤ keyLen;
  CommonPrefix_agree a b i :
    key_ok a → key_ok b → i < CommonPrefix a b → bit a i = bit b i;
  CommonPrefix_differ a b :
    key_ok a → key_ok b → CommonPrefix a b < keyLen →
    bit a (CommonPrefix a b) ≠ bit b (CommonPrefix a b);
}.

(** ** Nodes *)

Section trie.
Context {K T : Type} `{Key K} `{Inhabited T}.

(** [Nil] is Go's nil pointer; the two subtrees are [children[0]] and
    [children[1]]. *)
Inductive node :=
  | Nil
  | Node (child0 child1 : node) (prefixLen : nat) (key : K) (intermediate : bool) (value : T).

Record trie := mkTrie { root : node; maxPrefix : nat; entries : nat }.

Definition NewTrie (max : nat) : trie := mkTrie Nil max 0.

Definition is_nil (n : node) : bool := match n with Nil => true | _ => false end.

Definition child_at (b : Z) (c0 c1 : node) : node := if (b =? 0)%Z then c0 else c1.

(** [n.prefixMatch(prefix, k)] for a node with prefix length [nlen] and key [nkey]. *)
Definition prefixMatch (nlen : nat) (nkey : K) (prefix : nat) (k : K) : nat :=
  let limit := min nlen prefix in
  let prefixLen := CommonPrefix nkey k in
  if limit <=? prefixLen then limit else prefixLen.

(** A visitor callback: it threads the caller's state and says whether to go on. *)
Definition visitor (S : Type) : Type := S → nat → K → T → S * bool.

Fixpoint traverse_from {S} (max prefixLen : nat) (k : K) (fn : visitor S) (s : S)
    (currentNode : node) : S :=
  match currentNode with
  | Nil => s
  | Node c0 c1 p key intermediate value =>
      let matchLen := prefixMatch p key prefixLen k in
      if matchLen <? p then s
      else
        if intermediate then
          if (BitValueAt k p =? 0)%Z
          then traverse_from max prefixLen k fn s c0
          else traverse_from max prefixLen k fn s c1
        else
          let '(s, ok) := fn s p key value in
          if negb ok || (matchLen =? max) then s
          else if (BitValueAt k p =? 0)%Z
          then traverse_from max prefixLen k fn s c0
          else traverse_from max prefixLen k fn s c1
  end.

Definition traverse {S} (t : trie) (prefixLen : nat) (k : K) (fn : visitor S) (s : S) : S :=
  traverse_from (maxPrefix t) prefixLen k fn s (root t).

(** ** Lookups *)

Definition ExactLookup (t : trie) (prefixLen : nat) (k : K) : option T :=
  let prefixLen := min prefixLen (maxPrefix t) in
  traverse t prefixLen k
    (λ ret p _ v, if p =? prefixLen then (Some v, false) else (ret, true)) None.

Definition LongestPrefixMatch (t : trie) (k : K) : option (K * T) :=
  traverse t (maxPrefix t) k (λ _ _ key v, (Some (key, v), true)) None.

Definition Ancestors {S} (t : trie) (prefixLen : nat) (k : K) (fn : visitor S) (s : S) : S :=
  traverse t (min prefixLen (maxPrefix t)) k fn s.

(** ** Ancestor iteration, shortest prefix first *)

Record ancestorIterator := mkAncestorIterator {
  it_key : K;
  it_prefixLen : nat;
  it_maxPrefix : nat;
  it_currentNode : node;
}.

Definition AncestorIterator (t : trie) (prefixLen : nat) (k : K) : ancestorIterator :=
  mkAncestorIterator k (min prefixLen (maxPrefix t)) (maxPrefix t) (root t).

(** The loop of [ancestorIterator.Next]: the produced pair and the iterator's
    next [currentNode]. *)
Fixpoint ancestor_next (k : K) (prefixLen max : nat) (currentNode : node)
    : option (K * T) * node :=
  match currentNode with
  | Nil => (None, Nil)
  | Node c0 c1 p key intermediate value =>
      let matchLen := prefixMatch p key prefixLen k in
      if matchLen <? p then (None, currentNode)
      else
        if intermediate then
          if (BitValueAt k p =? 0)%Z
          then ancestor_next k prefixLen max c0
          else ancestor_next k prefixLen max c1
        else
          (Some (key, value),
           if matchLen =? max then Nil else child_at (BitValueAt k p) c0 c1)
  end.

Definition ancestorIterator_Next (i : ancestorIterator) : option (K * T) * ancestorIterator :=
  let '(r, n) := ancestor_next (it_key i) (it_prefixLen i) (it_maxPrefix i) (it_currentNode i) in
  (r, mkAncestorIterator (it_key i) (it_prefixLen i) (it_maxPrefix i) n).

(** ** Ancestor iteration, longest prefix first *)

(** The node stack ([nodes]); its top is the end of the list. *)
Abbreviation nodes := (list node).

Definition push (n : node) (stack : nodes) : nodes := stack ++ [n].

Definition pop (stack : nodes) : option (node * nodes) :=
  match last stack with
  | Some n => Some (n, take (length stack - 1) stack)
  | None => None
  end.

Fixpoint ancestor_stack (max prefixLen : nat) (k : K) (stack : nodes) (currentNode : node)
    : nodes :=
  match currentNode with
  | Nil => stack
  | Node c0 c1 p key intermediate value =>
      let matchLen := prefixMatch p key prefixLen k in
      if matchLen <? p then stack
      else
        if intermediate then
          if (BitValueAt k p =? 0)%Z
          then ancestor_stack max prefixLen k stack c0
          else ancestor_stack max prefixLen k stack c1
        else
          let stack := push currentNode stack in
          if matchLen =? max then stack
          else if (BitValueAt k p =? 0)%Z
          then ancestor_stack max prefixLen k stack c0
          else ancestor_stack max prefixLen k stack c1
  end.

(** The iterator does not clamp [prefixLen] to [maxPrefix]. *)
Definition AncestorLongestPrefixFirstIterator (t : trie) (prefixLen : nat) (k : K) : nodes :=
  ancestor_stack (maxPrefix t) prefixLen k [] (root t).

Definition ancestorLPFIterator_Next (stack : nodes) : option (K * T) * nodes :=
  match pop stack with
  | Some (Node _ _ _ key _ value, stack) => (Some (key, value), stack)
  | _ => (None, stack)
  end.

(** [treverse]: the same stack, with the callback run from its top. *)
Fixpoint visit_nodes {S} (fn : visitor S) (s : S) (l : nodes) : S :=
  match l with
  | Node _ _ p key _ value :: l =>
      let '(s, ok) := fn s p key value in if ok then visit_nodes fn s l else s
  | _ => s
  end.

Definition treverse {S} (t : trie) (prefixLen : nat) (k : K) (fn : visitor S) (s : S) : S :=
  visit_nodes fn s (rev (ancestor_stack (maxPrefix t) prefixLen k [] (root t))).

Definition AncestorsLongestPrefixFirst {S} (t : trie) (prefixLen : nat) (k : K)
    (fn : visitor S) (s : S) : S :=
  treverse t (min prefixLen (maxPrefix t)) k fn s.

(** ** Descendants *)

(** The subtree of all keys under a prefix: the loop [Descendants] and
    [DescendantIterator] share. *)
Fixpoint descend (max prefixLen : nat) (k : K) (currentNode : node) : node :=
  match currentNode with
  | Nil => Nil
  | Node c0 c1 p key _ _ =>
      let matchLen := prefixMatch p key prefixLen k in
      if prefixLen <=? matchLen then currentNode
      else if max <=? p then Nil
      else if (BitValueAt k p =? 0)%Z then descend max prefixLen k c0
      else descend max prefixLen k c1
  end.

Fixpoint node_size (n : node) : nat :=
  match n with
  | Nil => 0
  | Node c0 c1 _ _ _ _ => S (node_size c0 + node_size c1)
  end.

(** A push guarded by a nil test. *)
Definition push_child (c : node) (stack : nodes) : nodes :=
  match c with Nil => stack | _ => push c stack end.

Definition DescendantIterator (t : trie) (prefixLen : nat) (k : K) : nodes :=
  push_child (descend (maxPrefix t) (min prefixLen (maxPrefix t)) k (root t)) [].

(** [descendantIterator.Next]; each round removes a node from the forest on the
    stack, so its total size is enough fuel. *)
Fixpoint descendant_next (fuel : nat) (stack : nodes) : option (K * T) * nodes :=
  match fuel with
  | 0 => (None, stack)
  | S fuel =>
      match pop stack with
      | Some (Node c0 c1 _ key intermediate value, stack) =>
          let stack := push_child c1 (push_child c0 stack) in
          if intermediate then descendant_next fuel stack
          else (Some (key, value), stack)
      | _ => (None, stack)
      end
  end.

Definition forest_size (l : nodes) : nat := sum_list_with node_size l.

Definition descendantIterator_Next (stack : nodes) : option (K * T) * nodes :=
  descendant_next (S (forest_size stack)) stack.

(** [node.forEach]: a [false] from the callback ends the call for this node
    only; the caller one level up does not see it. *)
Fixpoint forEach {S} (fn : visitor S) (s : S) (n : node) : S :=
  match n with
  | Nil => s
  | Node c0 c1 p key intermediate value =>
      let '(s, ok) := if intermediate then (s, true) else fn s p key value in
      if ok then forEach fn (forEach fn s c0) c1 else s
  end.

Definition Descendants {S} (t : trie) (prefixLen : nat) (k : K) (fn : visitor S) (s : S) : S :=
  forEach fn s (descend (maxPrefix t) (min prefixLen (maxPrefix t)) k (root t)).

Definition ForEach {S} (t : trie) (fn : visitor S) (s : S) : S := forEach fn s (root t).

Definition Len (t : trie) : nat := entries t.

(** ** Upsert *)

(** Replaces the subtree at the insertion point; the boolean says whether the
    key is new. *)
Fixpoint upsert_node (max prefixLen : nat) (k : K) (value : T) (currentNode : node)
    : node * bool :=
  match currentNode with
  | Nil => (Node Nil Nil prefixLen k false value, true)
  | Node c0 c1 p key intermediate v =>
      let matchLen := prefixMatch p key prefixLen k in
      if negb (p =? matchLen) || (p =? max) || (p =? prefixLen) then
        if matchLen =? p then
          (Node c0 c1 prefixLen k false value, intermediate)
        else if matchLen =? prefixLen then
          (if (BitValueAt key matchLen =? 0)%Z
           then Node currentNode Nil prefixLen k false value
           else Node Nil currentNode prefixLen k false value, true)
        else
          let upsertNode := Node Nil Nil prefixLen k false value in
          (if (BitValueAt k matchLen =? 0)%Z
           then Node upsertNode currentNode matchLen key true inhabitant
           else Node currentNode upsertNode matchLen key true inhabitant, true)
      else if (BitValueAt k p =? 0)%Z then
        let '(c0, new) := upsert_node max prefixLen k value c0 in
        (Node c0 c1 p key intermediate v, new)
      else
        let '(c1, new) := upsert_node max prefixLen k value c1 in
        (Node c0 c1 p key intermediate v, new)
  end.

Definition Upsert (t : trie) (prefixLen : nat) (k : K) (value : T) : trie * bool :=
  let prefixLen := min prefixLen (maxPrefix t) in
  let '(r, new) := upsert_node (maxPrefix t) prefixLen k value (root t) in
  (mkTrie r (maxPrefix t) (if new then S (entries t) else entries t), new).

(** ** Delete *)

Definition childless (n : node) : bool :=
  match n with Node c0 c1 _ _ _ _ => is_nil c0 && is_nil c1 | Nil => true end.

(** The subtree with the key removed, [None] when the key is not there.  A
    childless node under an intermediate parent takes the parent with it. *)
Fixpoint delete_node (prefixLen : nat) (k : K) (currentNode : node) : option node :=
  match currentNode with
  | Nil => None
  | Node c0 c1 p key intermediate v =>
      let matchLen := prefixMatch p key prefixLen k in
      if negb (p =? matchLen) || (p =? prefixLen) then
        if negb (p =? prefixLen) || negb (p =? matchLen) || intermediate then None
        else
          if negb (is_nil c0) && negb (is_nil c1) then Some (Node c0 c1 p key true inhabitant)
          else if negb (is_nil c0) then Some c0
          else if negb (is_nil c1) then Some c1
          else Some Nil
      else if (BitValueAt k p =? 0)%Z then
        match delete_node prefixLen k c0 with
        | None => None
        | Some c0' =>
            if intermediate && childless c0 then Some c1
            else Some (Node c0' c1 p key intermediate v)
        end
      else
        match delete_node prefixLen k c1 with
        | None => None
        | Some c1' =>
            if intermediate && childless c1 then Some c0
            else Some (Node c0 c1' p key intermediate v)
        end
  end.

Definition Delete (t : trie) (prefixLen : nat) (k : K) : trie * bool :=
  match delete_node (min prefixLen (maxPrefix t)) k (root t) with
  | Some r => (mkTrie r (maxPrefix t) (entries t - 1), true)
  | None => (t, false)
  end.

(** ** Draining an iterator: the loop [for ok, k, v := iter.Next(); ok; ...] *)

Fixpoint drain {I} (next : I → option (K * T) * I) (fuel : nat) (it : I) : list (K * T) :=
  match fuel with
  | 0 => []
  | S fuel =>
      match next it with
      | (Some kv, it) => kv :: drain next fuel it
      | (None, _) => []
      end
  end.

End trie.
Arguments node : clear implicits.
Arguments trie : clear implicits.

(** ** Bit prefixes *)

Section bits.
Context {K : Type} `{KeyLaws K}.
Implicit Types (a b k : K) (p q : nat).

Lemma bits_length p k : length (bits p k) = p.
Proof. unfold bits. by rewrite length_fmap, length_seq. Qed.

Lemma bits_lookup p k i : i < p → bits p k !! i = Some (bit k i).
Proof. intros. unfold bits. by rewrite list_lookup_fmap, lookup_seq_lt. Qed.

Lemma bits_agree a b p :
  (∀ i, i < p → bit a i = bit b i) → bits p a = bits p b.
Proof.
  intros E. apply list_eq_same_length with p; rewrite ?bits_length; try done.
  intros i x y Hi. rewrite !bits_lookup by done. intros [= <-] [= <-]. by apply E.
Qed.

Lemma bits_prefix p q k : p ≤ q → bits p k `prefix_of` bits q k.
Proof.
  intros Hpq. exists (bit k <$> seq p (q - p)).
  unfold bits. rewrite <- fmap_app, <- seq_app. by replace (p + (q - p)) with q by lia.
Qed.

Lemma bits_prefix_iff a b p q :
  key_ok a → key_ok b → p ≤ keyLen → q ≤ keyLen →
  bits p a `prefix_of` bits q b ↔ p ≤ q ∧ p ≤ CommonPrefix a b.
Proof.
  intros Ha Hb Hp Hq. split.
  - intros Hpre. pose proof (prefix_length _ _ Hpre) as Hl. rewrite !bits_length in Hl.
    split; [done|]. destruct (decide (p ≤ CommonPrefix a b)); [done|].
    exfalso. apply (CommonPrefix_differ a b Ha Hb); [lia|].
    assert (bits q b !! CommonPrefix a b = Some (bit a (CommonPrefix a b))) as E.
    { eapply prefix_lookup_Some; [|done]. apply bits_lookup. lia. }
    rewrite bits_lookup in E by lia. by simplify_eq.
  - intros [Hpq Hc]. rewrite (bits_agree a b).
    + by apply bits_prefix.
    + intros i Hi. apply CommonPrefix_agree; auto with lia.
Qed.

Lemma prefixMatch_eq p a q k :
  prefixMatch p a q k = min (min p q) (CommonPrefix a k).
Proof. unfold prefixMatch. destruct (Nat.leb_spec (min p q) (CommonPrefix a k)); lia. Qed.

Lemma BitValueAt_bit {A} (x y : A) k i :
  (if (BitValueAt k i =? 0)%Z then x else y) = if bit k i then y else x.
Proof. unfold bit. by destruct (_ =? _)%Z. Qed.

(** A list strictly extending a prefix continues with one of its two children. *)
Lemma prefix_snoc_lookup {A} (l l' : list A) (x : A) :
  l ++ [x] `prefix_of` l' ↔ l `prefix_of` l' ∧ l' !! length l = Some x.
Proof.
  split.
  - intros [m ->]. split; [exists ([x] ++ m); by rewrite app_assoc|].
    rewrite <- app_assoc, lookup_app_r by lia. by rewrite Nat.sub_diag.
  - intros [[m ->] Hx]. rewrite lookup_app_r, Nat.sub_diag in Hx by lia.
    destruct m; simplify_eq/=. exists m. by rewrite <- app_assoc.
Qed.
End bits.

Create HintDb bitlpm.
#[export] Hint Rewrite @bits_length @prefixMatch_eq : bitlpm.

(** ** The invariant and the abstract map *)

Section spec.
Context {K T : Type} `{KeyLaws K} `{Inhabited T}.
Context (max : nat).
Abbreviation node := (node K T).
Implicit Types (n : node) (k : K) (p q : nat) (pre bs : list bool).

(** The longest prefix the trie stores. *)
Definition limit : nat := min max keyLen.

(** Below [pre]: every key of the subtree extends [pre], the two children of a
    node extend its prefix by 0 and by 1, and an intermediate node has both. *)
Fixpoint wf pre n : Prop :=
  match n with
  | Nil => True
  | Node c0 c1 p k im v =>
      p ≤ limit ∧ key_ok k ∧ pre `prefix_of` bits p k ∧
      (im = true → c0 ≠ Nil ∧ c1 ≠ Nil) ∧
      wf (bits p k ++ [false]) c0 ∧ wf (bits p k ++ [true]) c1
  end.

Fixpoint tmap n : gmap (list bool) (K * T) :=
  match n with
  | Nil => ∅
  | Node c0 c1 p k im v =>
      let m := tmap c0 ∪ tmap c1 in
      if im then m else <[bits p k := (k, v)]> m
  end.

Lemma wf_weaken pre pre' n : pre' `prefix_of` pre → wf pre n → wf pre' n.
Proof. destruct n; simpl; [done|]. intros ? (? & ? & ? & ? & ? & ?).
  split_and!; try done. by etrans. Qed.

Lemma tmap_prefix pre n bs x : wf pre n → tmap n !! bs = Some x → pre `prefix_of` bs.
Proof.
  revert pre. induction n as [|c0 IH0 c1 IH1 p k im v]; simpl; intros pre; [by rewrite lookup_empty|].
  intros (_ & _ & Hpre & _ & W0 & W1) Hx.
  assert ((tmap c0 ∪ tmap c1) !! bs = Some x → pre `prefix_of` bs) as HU.
  { intros [E|[_ E]]%lookup_union_Some_raw;
      (etrans; [exact Hpre|]); (etrans; [by apply prefix_app_r|]); eauto. }
  destruct im; [by apply HU|].
  apply lookup_insert_Some in Hx as [[<- _]|[_ Hx]]; auto.
Qed.

Lemma tmap_lookup pre c0 c1 p k im v bs :
  wf pre (Node c0 c1 p k im v) →
  tmap (Node c0 c1 p k im v) !! bs =
    if decide (bs = bits p k) then (if im then None else Some (k, v))
    else match bs !! p with
         | Some false => tmap c0 !! bs
         | Some true => tmap c1 !! bs
         | None => None
         end.
Proof.
  simpl. intros (_ & _ & _ & _ & W0 & W1).
  assert (H0' : ∀ x, tmap c0 !! bs = Some x → bs !! p = Some false).
  { intros x E. apply (tmap_prefix _ _ _ _ W0), prefix_snoc_lookup in E.
    rewrite bits_length in E. tauto. }
  assert (H1' : ∀ x, tmap c1 !! bs = Some x → bs !! p = Some true).
  { intros x E. apply (tmap_prefix _ _ _ _ W1), prefix_snoc_lookup in E.
    rewrite bits_length in E. tauto. }
  assert (HU : (tmap c0 ∪ tmap c1) !! bs =
    match bs !! p with
    | Some false => tmap c0 !! bs | Some true => tmap c1 !! bs | None => None end).
  { rewrite lookup_union.
    destruct (tmap c0 !! bs) as [x|] eqn:E0, (tmap c1 !! bs) as [y|] eqn:E1; simpl.
    - rewrite (H0' x) in H1' by done. by specialize (H1' y eq_refl).
    - by rewrite (H0' x).
    - by rewrite (H1' y).
    - by destruct (bs !! p) as [[]|]. }
  case_decide as E.
  - subst bs. destruct im.
    + rewrite HU. rewrite lookup_ge_None_2; [done|]. by rewrite bits_length.
    + apply lookup_insert_eq.
  - destruct im; [done|]. by rewrite lookup_insert_ne.
Qed.

(** Every stored value is filed under the bits of its own key. *)
Lemma tmap_key pre n bs k v :
  wf pre n → tmap n !! bs = Some (k, v) →
  key_ok k ∧ length bs ≤ limit ∧ bs = bits (length bs) k.
Proof.
  revert pre. induction n as [|c0 IH0 c1 IH1 p k' im v']; intros pre W.
  { simpl. by rewrite lookup_empty. }
  rewrite (tmap_lookup pre) by done. destruct W as (Hp & Hk & _ & _ & W0 & W1).
  case_decide as E.
  - subst bs. destruct im; [done|]. intros [= -> ->]. by rewrite bits_length.
  - destruct (bs !! p) as [[]|]; [by eapply IH1|by eapply IH0|done].
Qed.

Lemma wf_nonempty pre n : wf pre n → n ≠ Nil → ∃ bs, is_Some (tmap n !! bs).
Proof.
  revert pre. induction n as [|c0 IH0 c1 IH1 p k im v]; intros pre W; [done|].
  intros _. destruct im.
  - pose proof W as (_ & _ & _ & Him & W0 & W1). destruct (Him eq_refl) as [N0 _].
    destruct (IH0 _ W0 N0) as [bs Hbs]. exists bs. rewrite (tmap_lookup pre) by done.
    destruct Hbs as [x Hx].
    pose proof (tmap_prefix _ _ _ _ W0 Hx) as Hpre.
    apply prefix_snoc_lookup in Hpre as [_ Hl]. rewrite bits_length in Hl. rewrite Hl.
    case_decide; [|by eexists]. subst bs. rewrite lookup_ge_None_2 in Hl; [done|].
    by rewrite bits_length.
  - exists (bits p k). rewrite (tmap_lookup pre) by done. by rewrite decide_True.
Qed.

(** *** Nodes by the side of a child

    [mk b cb co ...] is the node with [cb] on side [b] and [co] on the other:
    the proofs follow one side and never distinguish left from right. *)

Definition mk (b : bool) (cb co : node) p k (im : bool) (v : T) : node :=
  if b then Node co cb p k im v else Node cb co p k im v.

Lemma node_mk b c0 c1 p k im v :
  Node c0 c1 p k im v = mk b (if b then c1 else c0) (if b then c0 else c1) p k im v.
Proof. by destruct b. Qed.

Lemma wf_mk pre b cb co p k im v :
  wf pre (mk b cb co p k im v) ↔
  p ≤ limit ∧ key_ok k ∧ pre `prefix_of` bits p k ∧
  (im = true → cb ≠ Nil ∧ co ≠ Nil) ∧
  wf (bits p k ++ [b]) cb ∧ wf (bits p k ++ [negb b]) co.
Proof. destruct b; simpl; tauto. Qed.

Lemma tmap_mk pre b cb co p k im v bs :
  wf pre (mk b cb co p k im v) →
  tmap (mk b cb co p k im v) !! bs =
    if decide (bs = bits p k) then (if im then None else Some (k, v))
    else match bs !! p with
         | Some x => if Bool.eqb x b then tmap cb !! bs else tmap co !! bs
         | None => None
         end.
Proof.
  destruct b; simpl mk; intros W; rewrite (tmap_lookup pre) by done;
    case_decide; try done; destruct (bs !! p) as [[]|]; done.
Qed.

Lemma mk_not_nil b cb co p k im v : mk b cb co p k im v ≠ Nil.
Proof. by destruct b. Qed.

Lemma bits_lookup_None p k : bits p k !! p = None.
Proof. apply lookup_ge_None_2. by rewrite bits_length. Qed.

(** The node's prefix contains the searched one exactly when the match length
    is the node's prefix length. *)
Lemma contains_iff p key q k :
  key_ok key → key_ok k → p ≤ limit → q ≤ limit →
  prefixMatch p key q k = p ↔ bits p key `prefix_of` bits q k.
Proof.
  intros Hkey Hk Hp Hq. unfold limit in *.
  rewrite bits_prefix_iff, prefixMatch_eq by (done || lia). lia.
Qed.

Lemma child_prefix p key q k :
  p < q → bits p key `prefix_of` bits q k →
  bits p key ++ [bit k p] `prefix_of` bits q k.
Proof.
  intros Hpq Hpre. apply prefix_snoc_lookup. split; [done|].
  rewrite bits_length. by apply bits_lookup.
Qed.

Lemma bits_ne p q k k' : p ≠ q → bits p k ≠ bits q k'.
Proof. intros Hne E. apply (f_equal length) in E. rewrite !bits_length in E. lia. Qed.

Lemma prefix_bits pre p k : pre `prefix_of` bits p k → pre = bits (length pre) k.
Proof.
  intros Hpre. pose proof (prefix_length _ _ Hpre) as Hl. rewrite bits_length in Hl.
  pose proof (bits_prefix (length pre) p k Hl) as Hb.
  destruct (prefix_weak_total _ _ _ Hpre Hb); [|symmetry];
    (apply prefix_length_eq; [done|rewrite bits_length; lia]).
Qed.

(** A prefix of two keys is within their common prefix. *)
Lemma prefix_common pre p q key k :
  key_ok key → key_ok k → p ≤ limit → q ≤ limit →
  pre `prefix_of` bits p key → pre `prefix_of` bits q k →
  pre `prefix_of` bits (min (min p q) (CommonPrefix key k)) key.
Proof.
  unfold limit. intros Hkey Hk Hp Hq P1 P2.
  pose proof (prefix_length _ _ P1) as Hl. rewrite bits_length in Hl.
  pose proof (prefix_bits _ _ _ P1) as E. rewrite E in P2 |- *.
  apply bits_prefix_iff in P2; try done; try lia. apply bits_prefix. lia.
Qed.

Lemma tmap_below pre n bs p k b :
  wf pre n → pre = bits p k ++ [b] → bs !! p ≠ Some b → tmap n !! bs = None.
Proof.
  intros W -> Hb. destruct (tmap n !! bs) eqn:E; [|done].
  apply (tmap_prefix _ _ _ _ W), prefix_snoc_lookup in E.
  rewrite bits_length in E. tauto.
Qed.

(** *** Upsert *)

(** [n'] is [n] with the prefix-key pair [q], [k] mapped to [v]. *)
Definition upserted pre q k v n n' (new : bool) : Prop :=
  wf pre n' ∧ n' ≠ Nil ∧
  (∀ bs, tmap n' !! bs = if decide (bs = bits q k) then Some (k, v) else tmap n !! bs) ∧
  (new = true ↔ tmap n !! bits q k = None).

Lemma upserted_leaf pre q k v :
  key_ok k → q ≤ limit → pre `prefix_of` bits q k →
  upserted pre q k v Nil (Node Nil Nil q k false v) true.
Proof.
  intros Hk Hq Hpre.
  assert (W : wf pre (Node Nil Nil q k false v)) by (simpl; by split_and!).
  split_and!; try done. intros bs. rewrite (tmap_lookup pre) by done.
  case_decide; [done|]. by destruct (bs !! q) as [[]|].
Qed.

Lemma upserted_replace pre q k v c0 c1 key im v' :
  wf pre (Node c0 c1 q key im v') → key_ok k → bits q key = bits q k →
  upserted pre q k v (Node c0 c1 q key im v') (Node c0 c1 q k false v) im.
Proof.
  intros W Hk Eb. pose proof W as (Hp & Hkey & Hpre & Him & W0 & W1).
  assert (W' : wf pre (Node c0 c1 q k false v)) by (simpl; rewrite <- Eb; by split_and!).
  split_and!; try done.
  - intros bs. rewrite !(tmap_lookup pre) by done. rewrite Eb. by case_decide.
  - rewrite (tmap_lookup pre), Eb, decide_True by done. by destruct im.
Qed.

Lemma upserted_below pre q k v b cb cb' co p key im v' new :
  wf pre (mk b cb co p key im v') → p < q → bit k p = b →
  upserted (bits p key ++ [b]) q k v cb cb' new →
  upserted pre q k v (mk b cb co p key im v') (mk b cb' co p key im v') new.
Proof.
  intros W Hpq Hb (Wb & Nb & Lb & New). pose proof W as W0.
  apply wf_mk in W0 as (Hp & Hkey & Hpre & Him & _ & Wo).
  assert (W' : wf pre (mk b cb' co p key im v')).
  { apply wf_mk. split_and!; try done. intros. split; [done|by apply Him]. }
  pose proof (bits_lookup q k p Hpq) as Hl. rewrite Hb in Hl.
  pose proof (bits_ne q p k key ltac:(lia)) as Hne.
  split_and!; [done|apply mk_not_nil| |].
  - intros bs. rewrite !(tmap_mk pre), Lb by done.
    destruct (decide (bs = bits q k)) as [->|]; [|done].
    by rewrite decide_False, Hl, eqb_reflx.
  - by rewrite (tmap_mk pre), decide_False, Hl, eqb_reflx.
Qed.

(** The new node goes on top of an existing one on its side [b]. *)
Lemma upserted_above pre q k v b n :
  wf (bits q k ++ [b]) n → key_ok k → q ≤ limit → pre `prefix_of` bits q k →
  upserted pre q k v n (mk b n Nil q k false v) true.
Proof.
  intros W Hk Hq Hpre.
  assert (W' : wf pre (mk b n Nil q k false v)) by (apply wf_mk; by split_and!).
  split_and!; [done|apply mk_not_nil| |].
  - intros bs. rewrite (tmap_mk pre) by done. case_decide; [done|].
    destruct (bs !! q) as [x|] eqn:E; [destruct (eqb_spec x b) as [->|]; [done|]|];
      symmetry; (eapply tmap_below; [exact W|done|]); congruence.
  - split; [|done]. intros _. eapply tmap_below; [exact W|done|].
    by rewrite bits_lookup_None.
Qed.

(** The new node and an existing one become siblings under an intermediate node. *)
Lemma upserted_fork pre q k v n m key :
  wf (bits m key ++ [negb (bit k m)]) n → n ≠ Nil →
  key_ok k → key_ok key → m < q → q ≤ limit →
  bits m key `prefix_of` bits q k → pre `prefix_of` bits m key →
  upserted pre q k v n
    (mk (bit k m) (Node Nil Nil q k false v) n m key true inhabitant) true.
Proof.
  intros W Hn Hk Hkey Hmq Hq Hin Hpre.
  destruct (upserted_leaf (bits m key ++ [bit k m]) q k v) as (Wl & _ & Ll & _);
    [done..|by apply child_prefix|].
  assert (W' : wf pre (mk (bit k m) (Node Nil Nil q k false v) n m key true inhabitant)).
  { apply wf_mk. split_and!; try done. lia. }
  pose proof (bits_lookup q k m Hmq) as Hl.
  assert (HN : ∀ bs, bs !! m ≠ Some (negb (bit k m)) → tmap n !! bs = None).
  { intros bs Hbs. eapply tmap_below; [exact W|done|done]. }
  split_and!; [done|apply mk_not_nil| |].
  - intros bs. rewrite (tmap_mk pre), Ll by done.
    destruct (decide (bs = bits q k)) as [->|Hne].
    + rewrite decide_False by (apply bits_ne; lia). by rewrite Hl, eqb_reflx.
    + destruct (decide (bs = bits m key)) as [->|].
      * symmetry. apply HN. by rewrite bits_lookup_None.
      * destruct (bs !! m) as [x|] eqn:E; [|symmetry; apply HN; congruence].
        destruct (eqb_spec x (bit k m)) as [->|]; [|done]. symmetry. apply HN.
        rewrite E. by destruct (bit k m).
  - split; [|done]. intros _. apply HN. rewrite Hl. by destruct (bit k m).
Qed.

Lemma upsert_node_spec pre n q k v :
  wf pre n → key_ok k → q ≤ limit → pre `prefix_of` bits q k →
  upserted pre q k v n (upsert_node max q k v n).1 (upsert_node max q k v n).2.
Proof.
  intros W Hk Hq. revert pre W.
  induction n as [|c0 IH0 c1 IH1 p key im v']; intros pre W Hpre.
  { by apply upserted_leaf. }
  pose proof W as (Hp & Hkey & Hpre' & Him & W0 & W1).
  pose proof (contains_iff p key q k Hkey Hk Hp Hq) as HC.
  assert (Hown : wf (bits p key) (Node c0 c1 p key im v')) by (simpl; by split_and!).
  cbn [upsert_node]. rewrite !BitValueAt_bit.
  destruct (Nat.eqb_spec p (prefixMatch p key q k)) as [Em|Em]; simpl.
  - pose proof (proj1 HC (eq_sym Em)) as Hin.
    pose proof (prefix_length _ _ Hin) as Hpq. rewrite !bits_length in Hpq.
    destruct (decide (p = q)) as [<-|Hne].
    + rewrite Nat.eqb_refl, orb_true_r, <- Em, Nat.eqb_refl. apply upserted_replace; try done.
      apply prefix_length_eq; rewrite ?bits_length; done.
    + rewrite (proj2 (Nat.eqb_neq p q)) by done.
      rewrite (proj2 (Nat.eqb_neq p max)) by (unfold limit in *; lia). simpl.
      pose proof (child_prefix p key q k ltac:(lia) Hin) as Hch.
      rewrite (node_mk (bit k p) c0 c1) in W |- *.
      destruct (bit k p) eqn:Bk.
      * specialize (IH1 _ W1 Hch). destruct (upsert_node max q k v c1) as [c' new].
        apply (upserted_below pre q k v true c1 c'); auto with lia.
      * specialize (IH0 _ W0 Hch). destruct (upsert_node max q k v c0) as [c' new].
        apply (upserted_below pre q k v false c0 c'); auto with lia.
  - rewrite (proj2 (Nat.eqb_neq (prefixMatch p key q k) p)) by done.
    assert (Hnotin : ¬ bits p key `prefix_of` bits q k) by (rewrite <- HC; done).
    rewrite prefixMatch_eq in *. unfold limit in *.
    set (m := min (min p q) (CommonPrefix key k)) in *.
    assert (Eb : bits m key = bits m k).
    { apply bits_agree. intros i Hi. apply CommonPrefix_agree; auto with lia. }
    assert (Hside : m < p → wf (bits m key ++ [bit key m]) (Node c0 c1 p key im v')).
    { intros Hmp. eapply wf_weaken; [|exact Hown]. apply child_prefix; [done|].
      apply bits_prefix. lia. }
    destruct (Nat.eqb_spec m q) as [Eq|Eq].
    + rewrite Eq in *. rewrite Eb in Hside.
      pose proof (upserted_above pre q k v (bit key q) (Node c0 c1 p key im v')) as HA.
      unfold mk in HA. destruct (bit key q); apply HA; try done; apply Hside; lia.
    + assert (m = CommonPrefix key k) as Ecp by lia.
      assert (bit key m = negb (bit k m)) as Hd.
      { pose proof (CommonPrefix_differ key k Hkey Hk ltac:(lia)) as Hd.
        rewrite <- Ecp in Hd. destruct (bit key m), (bit k m); done. }
      rewrite Hd in Hside.
      pose proof (upserted_fork pre q k v (Node c0 c1 p key im v') m key) as HF.
      assert (pre `prefix_of` bits m key).
      { apply prefix_common; unfold limit; done. }
      unfold mk in HF. unfold limit in HF.
      destruct (bit k m); apply HF; try done; try lia; try (apply Hside; lia);
      rewrite Eb; apply bits_prefix; lia.
Qed.

(** *** Delete *)

(** [n'] is [n] without the prefix-key pair [q], [k], which [n] has. *)
Definition deleted pre q k n n' : Prop :=
  wf pre n' ∧
  (∀ bs, tmap n' !! bs = if decide (bs = bits q k) then None else tmap n !! bs) ∧
  is_Some (tmap n !! bits q k).

(** The tail of [Delete]: what takes the place of the removed node. *)
Definition detach c0 c1 p key : node :=
  if negb (is_nil c0) && negb (is_nil c1) then Node c0 c1 p key true inhabitant
  else if negb (is_nil c0) then c0
  else if negb (is_nil c1) then c1
  else Nil.

Lemma wf_child pre b cb co p k im v :
  wf pre (mk b cb co p k im v) → wf pre cb ∧ wf pre co.
Proof.
  rewrite wf_mk. intros (_ & _ & Hpre & _ & Wb & Wo).
  split; (eapply wf_weaken; [|done]); (etrans; [exact Hpre|]); by apply prefix_app_r.
Qed.

Lemma detach_spec pre c0 c1 p key v :
  wf pre (Node c0 c1 p key false v) →
  wf pre (detach c0 c1 p key) ∧ tmap (detach c0 c1 p key) = tmap c0 ∪ tmap c1.
Proof.
  intros W. destruct (wf_child pre false c0 c1 p key false v W) as [W0 W1].
  destruct W as (Hp & Hkey & Hpre & _ & W0' & W1').
  unfold detach. destruct c0 as [|? ? ? ? ? ?], c1 as [|? ? ? ? ? ?];
    cbn [is_nil negb andb]; (split; [try done|]); cbn [tmap];
    rewrite ?(left_id_L ∅ (∪)), ?(right_id_L ∅ (∪)); try done.
Qed.

Lemma deleted_here pre q k key c0 c1 v :
  wf pre (Node c0 c1 q key false v) → bits q key = bits q k →
  deleted pre q k (Node c0 c1 q key false v) (detach c0 c1 q key).
Proof.
  intros W Eb. destruct (detach_spec _ _ _ _ _ _ W) as [W' E]. split; [done|].
  rewrite E. split; [|rewrite (tmap_lookup pre), Eb, decide_True by done; by eexists].
  intros bs. case_decide as Ed.
  - subst. destruct W as (_ & _ & _ & _ & W0 & W1).
    apply lookup_union_None; split; (eapply tmap_below; [done..|by rewrite bits_lookup_None]).
  - simpl. rewrite Eb. by rewrite lookup_insert_ne.
Qed.

Lemma deleted_below pre q k b cb cb' co p key im v :
  wf pre (mk b cb co p key im v) → p < q → bit k p = b → (im = true → cb' ≠ Nil) →
  deleted (bits p key ++ [b]) q k cb cb' →
  deleted pre q k (mk b cb co p key im v) (mk b cb' co p key im v).
Proof.
  intros W Hpq Hb Hnil (Wb & Lb & Hs). pose proof W as W0.
  apply wf_mk in W0 as (Hp & Hkey & Hpre & Him & _ & Wo).
  assert (W' : wf pre (mk b cb' co p key im v)).
  { apply wf_mk. split_and!; try done. intros Hi. split; [auto|by apply Him]. }
  pose proof (bits_lookup q k p Hpq) as Hl. rewrite Hb in Hl.
  pose proof (bits_ne q p k key ltac:(lia)) as Hne.
  split; [done|split].
  - intros bs. rewrite !(tmap_mk pre), Lb by done.
    destruct (decide (bs = bits q k)) as [->|]; [|done].
    by rewrite decide_False, Hl, eqb_reflx.
  - by rewrite (tmap_mk pre), decide_False, Hl, eqb_reflx.
Qed.

(** Removing a leaf below an intermediate node leaves the sibling alone. *)
Lemma deleted_promote pre q k b cb co p key v :
  wf pre (mk b cb co p key true v) → p < q → bit k p = b →
  deleted (bits p key ++ [b]) q k cb Nil →
  deleted pre q k (mk b cb co p key true v) co.
Proof.
  intros W Hpq Hb (Wb & Lb & Hs). pose proof W as W0.
  apply wf_mk in W0 as (Hp & Hkey & Hpre & Him & _ & Wo).
  pose proof (bits_lookup q k p Hpq) as Hl. rewrite Hb in Hl.
  assert (HN : ∀ bs, bs !! p ≠ Some (negb b) → tmap co !! bs = None)
    by (intros; by eapply tmap_below).
  split; [by eapply wf_child|split].
  - intros bs. rewrite (tmap_mk pre) by done. specialize (Lb bs). simpl in Lb.
    rewrite lookup_empty in Lb. destruct (decide (bs = bits q k)) as [->|].
    { apply HN. rewrite Hl. by destruct b. }
    case_decide; [apply HN; subst; by rewrite bits_lookup_None|].
    destruct (bs !! p) as [x|] eqn:E; [|apply HN; congruence].
    destruct (eqb_spec x b) as [->|]; [|done]. rewrite <- Lb. apply HN. rewrite E. by destruct b.
  - rewrite (tmap_mk pre), decide_False by (done || apply bits_ne; lia).
    by rewrite Hl, eqb_reflx.
Qed.

Lemma delete_node_nil pre n q k : wf pre n → delete_node q k n = Some Nil → childless n = true.
Proof.
  destruct n as [|c0 c1 p key im v]; [done|]. intros (_ & _ & _ & Him & _ & _). cbn [delete_node].
  repeat case_match; intros [=]; subst; simpl in *; try done;
    try (destruct (is_nil c0), (is_nil c1); done);
    repeat match goal with E : _ && _ = true |- _ => apply andb_true_iff in E as [? ?] end;
    subst; by destruct (Him eq_refl).
Qed.

Lemma childless_deleted pre q k n n' :
  wf pre n → childless n = true → deleted pre q k n n' → deleted pre q k n Nil.
Proof.
  intros W Hc (_ & L & Hs). split; [done|]. split; [|done]. intros bs.
  destruct n as [|[] [] p key im v]; try done.
  { cbn [tmap] in *. by case_decide. }
  rewrite (tmap_lookup pre) in Hs |- * by done. cbn [tmap] in *. rewrite !lookup_empty in *.
  destruct (decide (bs = bits q k)) as [|Hne]; [done|].
  destruct (decide (bs = bits p key)); [|by destruct (bs !! p) as [[]|]].
  rewrite decide_False in Hs by congruence.
  destruct Hs as [? Hs]. by destruct (bits q k !! p) as [[]|].
Qed.

(** One step of the way back up, at the parent. *)
Lemma deleted_step pre q k b cb cb' co p key im v :
  wf pre (mk b cb co p key im v) → p < q → bit k p = b →
  delete_node q k cb = Some cb' → deleted (bits p key ++ [b]) q k cb cb' →
  deleted pre q k (mk b cb co p key im v)
    (if im && childless cb then co else mk b cb' co p key im v).
Proof.
  intros W Hpq Hb Ed HD. pose proof W as (_ & _ & _ & _ & Wb & _)%wf_mk.
  destruct im; simpl; [destruct (childless cb) eqn:Ec|].
  - eapply deleted_promote; [done..|]. by eapply childless_deleted.
  - eapply deleted_below; [done..| |done]. intros _ ->.
    by rewrite (delete_node_nil _ _ _ _ Wb Ed) in Ec.
  - by eapply deleted_below.
Qed.

Lemma delete_node_spec pre n q k :
  wf pre n → key_ok k → q ≤ limit →
  match delete_node q k n with
  | Some n' => deleted pre q k n n'
  | None => tmap n !! bits q k = None
  end.
Proof.
  intros W Hk Hq. revert pre W.
  induction n as [|c0 IH0 c1 IH1 p key im v]; intros pre W.
  { simpl. by rewrite lookup_empty. }
  pose proof W as (Hp & Hkey & Hpre & Him & W0 & W1).
  pose proof (contains_iff p key q k Hkey Hk Hp Hq) as HC.
  assert (Hown : wf (bits p key) (Node c0 c1 p key im v)) by (simpl; by split_and!).
  cbn [delete_node]. rewrite BitValueAt_bit.
  destruct (Nat.eqb_spec p (prefixMatch p key q k)) as [Em|Em]; cbn [negb orb].
  - pose proof (proj1 HC (eq_sym Em)) as Hin.
    pose proof (prefix_length _ _ Hin) as Hpq. rewrite !bits_length in Hpq.
    destruct (Nat.eqb_spec p q) as [<-|Hne]; cbn [negb orb].
    + assert (Eb : bits p key = bits p k) by (apply prefix_length_eq; rewrite ?bits_length; done).
      destruct im; [by rewrite (tmap_lookup pre), Eb, decide_True|].
      pose proof (deleted_here pre p k key c0 c1 v W Eb) as HD. unfold detach in HD.
      by destruct (is_nil c0), (is_nil c1).
    + specialize (IH0 _ W0). specialize (IH1 _ W1).
      assert (Hnone : tmap (if bit k p then c1 else c0) !! bits q k = None →
                tmap (Node c0 c1 p key im v) !! bits q k = None).
      { intros E. rewrite (tmap_lookup pre), decide_False by (done || by apply bits_ne).
        rewrite bits_lookup by lia. by destruct (bit k p). }
      rewrite (node_mk (bit k p) c0 c1) in W |- *.
      destruct (bit k p) eqn:Bk.
      * destruct (delete_node q k c1) as [c'|] eqn:Ed; [|by apply Hnone].
        pose proof (deleted_step pre q k true c1 c' c0 p key im v) as HS.
        destruct (im && childless c1); apply HS; auto with lia.
      * destruct (delete_node q k c0) as [c'|] eqn:Ed; [|by apply Hnone].
        pose proof (deleted_step pre q k false c0 c' c1 p key im v) as HS.
        destruct (im && childless c0); apply HS; auto with lia.
  - rewrite orb_true_r. cbn [orb].
    destruct (tmap (Node c0 c1 p key im v) !! bits q k) as [x|] eqn:E; [|done].
    exfalso. apply Em. symmetry. apply HC. by apply (tmap_prefix _ _ _ _ Hown E).
Qed.

(** *** Ancestors *)

(** The entries on the path to [q], [k], in the order they are visited. *)
Fixpoint path q k n : list (nat * K * T) :=
  match n with
  | Nil => []
  | Node c0 c1 p key im v =>
      let matchLen := prefixMatch p key q k in
      let rest := if bit k p then path q k c1 else path q k c0 in
      if matchLen <? p then []
      else if im then rest
      else (p, key, v) :: (if matchLen =? max then [] else rest)
  end.

Lemma path_node q k c0 c1 p key im v :
  path q k (Node c0 c1 p key im v) =
  if prefixMatch p key q k <? p then []
  else (if im then [] else [(p, key, v)]) ++
       (if negb im && (prefixMatch p key q k =? max) then []
        else path q k (if bit k p then c1 else c0)).
Proof. simpl. repeat case_match; done. Qed.

Lemma tmap_side pre c0 c1 p key im v (b : bool) bs x :
  wf pre (Node c0 c1 p key im v) →
  tmap (if b then c1 else c0) !! bs = Some x → bs !! p = Some b.
Proof.
  intros (_ & _ & _ & _ & W0 & W1) E.
  destruct b; [apply (tmap_prefix _ _ _ _ W1) in E|apply (tmap_prefix _ _ _ _ W0) in E];
    apply prefix_snoc_lookup in E as [_ E]; by rewrite bits_length in E.
Qed.

Lemma path_here p0 key0 v0 (im : bool) p key v :
  (p, key, v) ∈ (if im then ([] : list (nat * K * T)) else [(p0, key0, v0)]) ↔
  im = false ∧ p = p0 ∧ key = key0 ∧ v = v0.
Proof.
  destruct im; rewrite ?list_elem_of_singleton, ?elem_of_nil; [|split].
  - split; [done|]. by intros [? _].
  - by intros [= -> -> ->].
  - by intros (_ & -> & -> & ->).
Qed.

(** A key whose prefix extends the node's continues on [k]'s side, if it is on
    the way to [k] at all. *)
Lemma path_turn p0 q k bs b :
  bs !! p0 = Some b → bs `prefix_of` bits q k → bit k p0 = b.
Proof.
  intros Hb Hpq. pose proof (prefix_lookup_Some _ _ _ _ Hb Hpq) as Hb'.
  pose proof (lookup_lt_Some _ _ _ Hb') as Hl. rewrite bits_length in Hl.
  rewrite bits_lookup in Hb' by done. by simplify_eq.
Qed.

Lemma path_spec pre n q k :
  wf pre n → key_ok k → q ≤ limit →
  ∀ p key v, (p, key, v) ∈ path q k n ↔
    p ≤ limit ∧ tmap n !! bits p key = Some (key, v) ∧ bits p key `prefix_of` bits q k.
Proof.
  intros W Hk Hq. revert pre W.
  induction n as [|c0 IH0 c1 IH1 p0 key0 im v0]; intros pre W p key v.
  { simpl. rewrite lookup_empty, elem_of_nil. naive_solver. }
  pose proof W as (Hp & Hkey & Hpre & Him & W0 & W1).
  pose proof (contains_iff p0 key0 q k Hkey Hk Hp Hq) as HC.
  assert (Hown : wf (bits p0 key0) (Node c0 c1 p0 key0 im v0)) by (simpl; by split_and!).
  rewrite path_node. destruct (Nat.ltb_spec (prefixMatch p0 key0 q k) p0) as [Hlt|Hge].
  { rewrite elem_of_nil. split; [done|]. intros (_ & Hin & Hpq). exfalso.
    apply (tmap_prefix _ _ _ _ Hown) in Hin. assert (prefixMatch p0 key0 q k = p0); [|lia].
    apply HC. by etrans. }
  assert (Em : prefixMatch p0 key0 q k = p0) by (rewrite prefixMatch_eq in *; lia).
  pose proof (proj1 HC Em) as Hin. rewrite Em, elem_of_app, path_here.
  assert (HI : (p, key, v) ∈ path q k (if bit k p0 then c1 else c0) ↔
    p ≤ limit ∧ tmap (if bit k p0 then c1 else c0) !! bits p key = Some (key, v) ∧
    bits p key `prefix_of` bits q k) by (destruct (bit k p0); [by eapply IH1|by eapply IH0]).
  clear IH0 IH1. rewrite (tmap_lookup pre) by done. case_decide as Ed.
  - assert (p = p0) as ->.
    { apply (f_equal length) in Ed. by rewrite !bits_length in Ed. }
    split.
    + intros [(-> & _ & -> & ->)|Hr]; [by split_and!|]. exfalso.
      case_match; [by apply elem_of_nil in Hr|]. apply HI in Hr as (_ & E & _).
      apply (tmap_side _ _ _ _ _ _ _ _ _ _ W) in E. by rewrite Ed, bits_lookup_None in E.
    + destruct im; intros (_ & [= -> ->] & _). auto.
  - split.
    + intros [(-> & -> & -> & ->)|Hr]; [done|].
      case_match; [by apply elem_of_nil in Hr|]. apply HI in Hr as (? & E & ?).
      rewrite (tmap_side _ _ _ _ _ _ _ _ _ _ W E). by destruct (bit k p0).
    + intros (Hpl & E & Hpq). right.
      destruct (bits p key !! p0) as [b|] eqn:Hb; [|done].
      rewrite (path_turn p0 q k _ b Hb Hpq) in *.
      rewrite (proj2 (andb_false_iff _ _)), HI; [by destruct b|].
      right. apply Nat.eqb_neq. apply lookup_lt_Some in Hb. rewrite bits_length in Hb.
      unfold limit in *. lia.
Qed.

Lemma path_above pre n q k :
  wf pre n → Forall (λ x, length pre ≤ x.1.1) (path q k n).
Proof.
  revert pre. induction n as [|c0 IH0 c1 IH1 p key im v]; intros pre W; [constructor|].
  destruct W as (_ & _ & Hpre & _ & W0 & W1). rewrite path_node.
  apply prefix_length in Hpre. rewrite bits_length in Hpre.
  assert (HF : Forall (λ x : nat * K * T, length pre ≤ x.1.1)
                 (path q k (if bit k p then c1 else c0))).
  { destruct (bit k p);
      [specialize (IH1 _ W1) as IH|specialize (IH0 _ W0) as IH];
      (eapply Forall_impl; [exact IH|]); intros x; rewrite length_app, bits_length; simpl; lia. }
  repeat case_match; simpl; auto.
Qed.

(** Shortest prefix first. *)
Lemma path_sorted pre n q k :
  wf pre n → StronglySorted (λ x y, x.1.1 < y.1.1) (path q k n).
Proof.
  revert pre. induction n as [|c0 IH0 c1 IH1 p key im v]; intros pre W; [constructor|].
  destruct W as (_ & _ & _ & _ & W0 & W1). rewrite path_node.
  assert (HS : StronglySorted (λ x y : nat * K * T, x.1.1 < y.1.1)
                 (path q k (if bit k p then c1 else c0)) ∧
               Forall (λ x : nat * K * T, p < x.1.1) (path q k (if bit k p then c1 else c0))).
  { destruct (bit k p); (split; [by eauto|]);
      [pose proof (path_above _ _ q k W1) as HA|pose proof (path_above _ _ q k W0) as HA];
      (eapply Forall_impl; [exact HA|]); intros x; rewrite length_app, bits_length; simpl; lia. }
  destruct HS. repeat case_match; simpl; try done; constructor; auto; constructor.
Qed.

(** Running a visitor over a list of entries, until it says stop. *)
Fixpoint visit {S} (fn : visitor S) (s : S) (l : list (nat * K * T)) : S :=
  match l with
  | [] => s
  | (p, key, v) :: l => let '(s, ok) := fn s p key v in if ok then visit fn s l else s
  end.

Lemma traverse_from_path {S} q k (fn : visitor S) s n :
  traverse_from max q k fn s n = visit fn s (path q k n).
Proof.
  revert s. induction n as [|c0 IH0 c1 IH1 p key im v]; intros s; [done|].
  cbn [traverse_from path]. destruct (_ <? _); [done|].
  destruct im; [rewrite BitValueAt_bit; by destruct (bit k p)|].
  simpl. destruct (fn s p key v) as [s' []]; simpl; [|done].
  destruct (_ =? max); [done|]. rewrite BitValueAt_bit. by destruct (bit k p).
Qed.

(** The abstract entry of a visited node. *)
Definition entry_of (x : nat * K * T) : list bool * (K * T) :=
  (bits x.1.1 x.1.2, (x.1.2, x.2)).

(** [l] lists, in an order, the values of the entries of [m] that satisfy [P]. *)
Definition lists_entries (R : nat → nat → Prop) (P : list bool → Prop)
    `{∀ bs, Decision (P bs)} (m : gmap (list bool) (K * T)) (l : list (K * T)) : Prop :=
  ∃ l', l = l'.*2 ∧ l' ≡ₚ map_to_list (filter (λ x, P x.1) m) ∧
        StronglySorted (λ x y, R (length x.1) (length y.1)) l'.

Lemma lists_entries_intro R P `{∀ bs, Decision (P bs)} m l' :
  NoDup l' → (∀ bs x, (bs, x) ∈ l' ↔ m !! bs = Some x ∧ P bs) →
  StronglySorted (λ x y, R (length x.1) (length y.1)) l' →
  lists_entries R P m l'.*2.
Proof.
  intros Hnd Hin Hs. exists l'. split_and!; try done.
  apply NoDup_Permutation; [done|apply NoDup_map_to_list|].
  intros [bs x]. by rewrite Hin, elem_of_map_to_list, map_lookup_filter_Some.
Qed.

Lemma elem_of_lists_entries R P `{∀ bs, Decision (P bs)} m l x :
  lists_entries R P m l → x ∈ l ↔ ∃ bs, m !! bs = Some x ∧ P bs.
Proof.
  intros (l' & -> & Hp & _). rewrite list_elem_of_fmap. split.
  - intros ([bs y] & -> & Hin). rewrite Hp, elem_of_map_to_list, map_lookup_filter_Some in Hin.
    eauto.
  - intros (bs & Hm & HP). exists (bs, x). split; [done|].
    by rewrite Hp, elem_of_map_to_list, map_lookup_filter_Some.
Qed.

Lemma sorted_lt_NoDup (l : list (nat * K * T)) :
  StronglySorted (λ x y, x.1.1 < y.1.1) l → NoDup (entry_of <$> l).
Proof.
  induction 1 as [|x l _ IH HF]; simpl; constructor; [|done].
  intros (y & E & Hy)%list_elem_of_fmap. rewrite Forall_forall in HF.
  specialize (HF y Hy). apply (f_equal (λ z, length z.1)) in E. simpl in E.
  rewrite !bits_length in E. lia.
Qed.

Lemma path_entries pre n q k bs x :
  wf pre n → key_ok k → q ≤ limit →
  (bs, x) ∈ entry_of <$> path q k n ↔ tmap n !! bs = Some x ∧ bs `prefix_of` bits q k.
Proof.
  intros W Hk Hq. rewrite list_elem_of_fmap. split.
  - intros ([[p key] v] & [= -> ->] & Hin). apply (path_spec pre) in Hin; try done. tauto.
  - intros [Hm Hpre]. destruct x as [key v].
    destruct (tmap_key _ _ _ _ _ W Hm) as (Hkey & Hl & E).
    exists (length bs, key, v). unfold entry_of; simpl. rewrite <- E. split; [done|].
    apply (path_spec pre); try done. by rewrite <- E.
Qed.

Lemma path_lists_entries pre n q k :
  wf pre n → key_ok k → q ≤ limit →
  lists_entries lt (λ bs, bs `prefix_of` bits q k) (tmap n) (entry_of <$> path q k n).*2.
Proof.
  intros W Hk Hq. pose proof (path_sorted pre n q k W) as Hs.
  apply lists_entries_intro.
  - by apply sorted_lt_NoDup.
  - intros. by apply (path_entries pre).
  - eapply StronglySorted_fmap; [|done]. intros x y. simpl. by rewrite !bits_length.
Qed.

Lemma StronglySorted_reverse {A} (R : relation A) (l : list A) :
  StronglySorted R l → StronglySorted (flip R) (reverse l).
Proof.
  induction 1 as [|x l _ IH HF]; [constructor|]. rewrite reverse_cons.
  apply StronglySorted_app_2; [|done|repeat constructor].
  intros y z Hy ->%list_elem_of_singleton. rewrite Forall_forall in HF.
  apply HF. by rewrite elem_of_reverse in Hy.
Qed.

Lemma path_lists_entries_rev pre n q k :
  wf pre n → key_ok k → q ≤ limit →
  lists_entries gt (λ bs, bs `prefix_of` bits q k) (tmap n)
    (reverse (entry_of <$> path q k n).*2).
Proof.
  intros W Hk Hq. destruct (path_lists_entries pre n q k W Hk Hq) as (l & -> & Hp & Hs).
  exists (reverse l). split_and!.
  - by rewrite fmap_reverse.
  - by rewrite reverse_Permutation.
  - by apply StronglySorted_reverse.
Qed.

(** *** The ancestor iterators produce the path *)

Abbreviation pairs := (λ l, (entry_of <$> l).*2).

Lemma ancestor_next_path q k n :
  match ancestor_next k q max n with
  | (Some kv, n') => pairs (path q k n) = kv :: pairs (path q k n') ∧ node_size n' < node_size n
  | (None, _) => path q k n = []
  end.
Proof.
  induction n as [|c0 IH0 c1 IH1 p key im v]; [done|].
  cbn [ancestor_next]. rewrite path_node. destruct (_ <? _); [done|].
  destruct im; simpl.
  - rewrite BitValueAt_bit.
    destruct (bit k p);
      [destruct (ancestor_next k q max c1) as [[kv|] n']
      |destruct (ancestor_next k q max c0) as [[kv|] n']];
      try done; (destruct IH1 || destruct IH0); split; auto with lia;
      simpl in *; try lia; intuition.
  - unfold child_at. rewrite BitValueAt_bit.
    destruct (_ =? _); simpl; [split; auto with lia|].
    split; [done|]. destruct (bit k p); lia.
Qed.

Lemma drain_ancestorIterator q k n fuel :
  node_size n < fuel →
  drain ancestorIterator_Next fuel (mkAncestorIterator k q max n) = pairs (path q k n).
Proof.
  revert n. induction fuel as [|fuel IH]; intros n Hf; [lia|]. simpl.
  unfold ancestorIterator_Next; simpl. pose proof (ancestor_next_path q k n) as HN.
  destruct (ancestor_next k q max n) as [[kv|] n']; [|by rewrite HN].
  destruct HN as [-> Hs]. f_equal. apply IH. lia.
Qed.

Definition node_is (n : node) (x : nat * K * T) : Prop :=
  ∃ c0 c1 im, n = Node c0 c1 x.1.1 x.1.2 im x.2.

Lemma ancestor_stack_path q k st n :
  ∃ l, ancestor_stack max q k st n = st ++ l ∧ Forall2 node_is l (path q k n).
Proof.
  revert st. induction n as [|c0 IH0 c1 IH1 p key im v]; intros st.
  { exists []. by rewrite app_nil_r. }
  cbn [ancestor_stack path]. destruct (_ <? _); [exists []; by rewrite app_nil_r|].
  rewrite !BitValueAt_bit. destruct im; [by destruct (bit k p)|]. unfold push.
  destruct (_ =? max).
  - eexists. split; [done|]. repeat constructor. by do 3 eexists.
  - destruct (bit k p);
      [destruct (IH1 (st ++ [Node c0 c1 p key false v])) as (l & -> & Hl)
      |destruct (IH0 (st ++ [Node c0 c1 p key false v])) as (l & -> & Hl)];
      (eexists; split; [by rewrite <- app_assoc|]);
      constructor; [by do 3 eexists|done|by do 3 eexists|done].
Qed.

Lemma drain_ancestorLPFIterator l st fuel :
  Forall2 node_is st l → length st < fuel →
  drain ancestorLPFIterator_Next fuel st = reverse (pairs l).
Proof.
  revert l fuel. induction st as [|n st IH] using rev_ind; intros l fuel HF Hf.
  { apply Forall2_nil_inv_l in HF as ->. destruct fuel; [simpl in Hf; lia|done]. }
  apply Forall2_app_inv_l in HF as (l1 & l2 & HF1 & HF2 & ->).
  apply Forall2_cons_inv_l in HF2 as (x & l3 & (c0 & c1 & im & ->) & HF3 & ->).
  apply Forall2_nil_inv_l in HF3 as ->. rewrite length_app in Hf. simpl in Hf.
  destruct fuel as [|fuel]; [lia|]. simpl. unfold ancestorLPFIterator_Next, pop.
  rewrite last_snoc, length_app. simpl.
  rewrite Nat.add_sub, take_app_length. rewrite (IH l1) by (done || lia).
  by rewrite !fmap_app, reverse_app.
Qed.

(** *** Descendants *)

Lemma not_contained p q key k :
  key_ok key → key_ok k → p ≤ limit → q ≤ limit →
  min (min p q) (CommonPrefix key k) < q → ¬ bits q k `prefix_of` bits p key.
Proof.
  intros Hkey Hk Hp Hq Hm Hx. pose proof (prefix_length _ _ Hx) as Hl.
  rewrite !bits_length in Hl.
  pose proof (prefix_common (bits q k) p q key k Hkey Hk Hp Hq Hx (reflexivity _)) as Hc.
  apply prefix_length in Hc. rewrite !bits_length in Hc. lia.
Qed.

(** Entries of a node under a prefix that does not contain the node's are all on
    the searched key's side. *)
Lemma descend_turn c0 c1 p key im v q k bs x :
  wf (bits p key) (Node c0 c1 p key im v) → ¬ bits q k `prefix_of` bits p key →
  bits q k `prefix_of` bs → tmap (Node c0 c1 p key im v) !! bs = Some x →
  p < q ∧ bs ≠ bits p key ∧ bs !! p = Some (bit k p).
Proof.
  intros Hown Hnot Hx E. apply (tmap_prefix _ _ _ _ Hown) in E.
  destruct (prefix_weak_total _ _ _ E Hx) as [Ht|]; [|done].
  assert (p < q) as Hpq.
  { destruct (decide (p < q)); [done|]. exfalso. apply Hnot.
    apply prefix_length_eq in Ht; [by rewrite Ht|]. rewrite !bits_length. lia. }
  split_and!; [done|by intros ->|].
  eapply prefix_lookup_Some; [|exact Hx]. by apply bits_lookup.
Qed.

Lemma descend_spec pre n q k :
  wf pre n → key_ok k → q ≤ limit →
  (∃ pre', wf pre' (descend max q k n)) ∧
  ∀ bs, tmap (descend max q k n) !! bs =
        if decide (bits q k `prefix_of` bs) then tmap n !! bs else None.
Proof.
  intros W Hk Hq. revert pre W.
  induction n as [|c0 IH0 c1 IH1 p key im v]; intros pre W.
  { split; [by exists []|]. intros bs. simpl. rewrite lookup_empty. by case_decide. }
  pose proof W as (Hp & Hkey & Hpre & Him & W0 & W1).
  assert (Hown : wf (bits p key) (Node c0 c1 p key im v)) by (simpl; by split_and!).
  cbn [descend]. rewrite prefixMatch_eq.
  destruct (Nat.leb_spec q (min (min p q) (CommonPrefix key k))) as [Hm|Hm].
  { split; [by exists pre|]. intros bs. case_decide as Hd; [done|].
    destruct (tmap _ !! bs) eqn:E; [|done]. exfalso. apply Hd.
    apply (tmap_prefix _ _ _ _ Hown) in E. etrans; [|exact E].
    rewrite <- (bits_agree key k) by (intros; apply CommonPrefix_agree; auto with lia).
    apply bits_prefix. lia. }
  pose proof (not_contained p q key k Hkey Hk Hp Hq Hm) as Hnot.
  pose proof (λ bs x, descend_turn c0 c1 p key im v q k bs x Hown Hnot) as Hsome.
  destruct (Nat.leb_spec max p).
  { split; [by exists []|]. intros bs. simpl. rewrite lookup_empty. case_decide as Hd; [|done].
    destruct (tmap (Node c0 c1 p key im v) !! bs) as [x|] eqn:E; [|done].
    destruct (Hsome _ _ Hd E). unfold limit in *. lia. }
  rewrite BitValueAt_bit.
  assert (HI : (∃ pre', wf pre' (if bit k p then descend max q k c1 else descend max q k c0)) ∧
    ∀ bs, tmap (if bit k p then descend max q k c1 else descend max q k c0) !! bs =
      if decide (bits q k `prefix_of` bs) then tmap (if bit k p then c1 else c0) !! bs else None)
    by (destruct (bit k p); [by eapply IH1|by eapply IH0]).
  destruct HI as [? HI]. split; [done|]. intros bs. rewrite HI.
  case_decide as Hd; [|done]. destruct (tmap (Node _ _ _ _ _ _) !! bs) as [x|] eqn:E.
  - destruct (Hsome _ _ Hd E) as (_ & Hne & Hb).
    rewrite (tmap_lookup pre), decide_False, Hb in E by done. by destruct (bit k p).
  - destruct (tmap (if bit k p then c1 else c0) !! bs) as [x|] eqn:Ec; [|done].
    pose proof (tmap_side _ _ _ _ _ _ _ _ _ _ W Ec) as Hb.
    rewrite (tmap_lookup pre) in E by done. case_decide as Hx.
    + subst. by rewrite bits_lookup_None in Hb.
    + rewrite Hb in E. by destruct (bit k p); rewrite Ec in E.
Qed.

(** The entries of a subtree in the order [descendantIterator] produces them. *)
Fixpoint tlist n : list (list bool * (K * T)) :=
  match n with
  | Nil => []
  | Node c0 c1 p k im v =>
      (if im then [] else [(bits p k, (k, v))]) ++ tlist c1 ++ tlist c0
  end.

Lemma tlist_spec pre n bs x : wf pre n → (bs, x) ∈ tlist n ↔ tmap n !! bs = Some x.
Proof.
  revert pre. induction n as [|c0 IH0 c1 IH1 p k im v]; intros pre W.
  { simpl. by rewrite elem_of_nil, lookup_empty. }
  pose proof W as (_ & _ & _ & _ & W0 & W1).
  cbn [tlist]. rewrite !elem_of_app, (IH0 _ W0), (IH1 _ W1), (tmap_lookup pre) by done.
  pose proof (λ x, tmap_side _ _ _ _ _ _ _ false bs x W) as S0.
  pose proof (λ x, tmap_side _ _ _ _ _ _ _ true bs x W) as S1. simpl in *.
  case_decide as Ed.
  - subst bs. rewrite bits_lookup_None in *.
    destruct im; [rewrite elem_of_nil|rewrite list_elem_of_singleton]; split.
    + by intros [?|[?%S1|?%S0]].
    + done.
    + by intros [[= ->]|[?%S1|?%S0]].
    + intros [= <-]. by left.
  - assert (¬ (bs, x) ∈ (if im then [] else [(bits p k, (k, v))])) as Hn.
    { destruct im; [apply not_elem_of_nil|rewrite list_elem_of_singleton]. by intros [= ->]. }
    split.
    + intros [?|[E|E]]; [done| |]; [rewrite (S1 _ E)|rewrite (S0 _ E)]; done.
    + destruct (bs !! p) as [[]|]; [auto|auto|done].
Qed.

Lemma tlist_NoDup pre n : wf pre n → NoDup (tlist n).
Proof.
  revert pre. induction n as [|c0 IH0 c1 IH1 p k im v]; intros pre W; [constructor|].
  pose proof W as (_ & _ & _ & _ & W0 & W1). cbn [tlist].
  pose proof (λ bs x, tmap_side _ _ _ _ _ _ _ false bs x W) as S0.
  pose proof (λ bs x, tmap_side _ _ _ _ _ _ _ true bs x W) as S1. simpl in *.
  rewrite !NoDup_app. split_and!; eauto.
  - destruct im; [apply NoDup_nil_2|apply NoDup_singleton].
  - intros [bs x]. rewrite elem_of_app, (tlist_spec _ _ _ _ W0), (tlist_spec _ _ _ _ W1).
    destruct im; [by intros ?%elem_of_nil|rewrite list_elem_of_singleton].
    intros [= -> ->] [E|E]; [apply S1 in E|apply S0 in E]; by rewrite bits_lookup_None in E.
  - intros [bs x]. rewrite (tlist_spec _ _ _ _ W0), (tlist_spec _ _ _ _ W1).
    intros E1%S1 E0%S0. congruence.
Qed.

(** What is still to be produced from the iterator's stack. *)
Definition pending (st : list node) : list (K * T) := (mjoin (tlist <$> reverse st)).*2.

Lemma pending_snoc st n : pending (st ++ [n]) = (tlist n).*2 ++ pending st.
Proof. unfold pending. rewrite reverse_snoc. apply fmap_app. Qed.

Lemma pending_push_child st n : pending (push_child n st) = (tlist n).*2 ++ pending st.
Proof. destruct n; [done|]. apply pending_snoc. Qed.

Lemma forest_size_snoc st n : forest_size (st ++ [n]) = forest_size st + node_size n.
Proof. unfold forest_size. rewrite sum_list_with_app. simpl. lia. Qed.

Lemma forest_size_push_child st n :
  forest_size (push_child n st) = forest_size st + node_size n.
Proof. destruct n; [simpl; lia|]. apply forest_size_snoc. Qed.

Lemma pop_snoc st n : pop (st ++ [n]) = Some (n, st).
Proof. unfold pop. by rewrite last_snoc, length_app, Nat.add_sub, take_app_length. Qed.

Lemma descendant_next_pending fuel st :
  Forall (.≠ Nil) st → forest_size st < fuel →
  match descendant_next fuel st with
  | (Some kv, st') =>
      pending st = kv :: pending st' ∧ forest_size st' < forest_size st ∧ Forall (.≠ Nil) st'
  | (None, _) => pending st = []
  end.
Proof.
  revert st. induction fuel as [|fuel IH]; intros st Hn Hf; [lia|]. cbn [descendant_next].
  destruct st as [|n st _] using rev_ind; [done|].
  apply Forall_app in Hn as [Hst Hn]. rewrite Forall_singleton in Hn.
  rewrite pop_snoc. destruct n as [|c0 c1 p k im v]; [done|].
  set (st' := push_child c1 (push_child c0 st)).
  assert (Hp : pending (st ++ [Node c0 c1 p k im v]) =
               (if im then [] else [(k, v)]) ++ pending st').
  { unfold st'. rewrite pending_snoc, !pending_push_child. cbn [tlist].
    rewrite !fmap_app, <- !app_assoc. by destruct im. }
  assert (Hs : S (forest_size st') = forest_size (st ++ [Node c0 c1 p k im v])).
  { unfold st'. rewrite forest_size_snoc, !forest_size_push_child. simpl. lia. }
  assert (Hn' : Forall (.≠ Nil) st').
  { unfold st'. destruct c0, c1; simpl; unfold push; rewrite ?Forall_app, ?Forall_singleton;
      naive_solver. }
  rewrite Hp. destruct im; simpl; [|split_and!; auto with lia].
  specialize (IH st' Hn' ltac:(lia)).
  destruct (descendant_next fuel st') as [[kv|] st'']; [|done].
  destruct IH as (-> & ? & ?). split_and!; auto with lia.
Qed.

Lemma drain_descendantIterator fuel st :
  Forall (.≠ Nil) st → forest_size st < fuel →
  drain descendantIterator_Next fuel st = pending st.
Proof.
  revert st. induction fuel as [|fuel IH]; intros st Hn Hf; [lia|]. simpl.
  pose proof (descendant_next_pending (S (forest_size st)) st Hn ltac:(lia)) as HP.
  unfold descendantIterator_Next.
  destruct (descendant_next (S (forest_size st)) st) as [[kv|] st']; [|done].
  destruct HP as (-> & ? & ?). f_equal. apply IH; auto with lia.
Qed.

Lemma lists_entries_any R P `{∀ bs, Decision (P bs)} m l' :
  NoDup l' → (∀ bs x, (bs, x) ∈ l' ↔ m !! bs = Some x ∧ P bs) →
  (∀ i j, R i j) → lists_entries R P m l'.*2.
Proof.
  intros Hnd Hin HR. apply lists_entries_intro; [done..|].
  clear Hnd Hin. induction l' as [|x l' IH]; constructor; [done|].
  apply Forall_true. intros. apply HR.
Qed.

(** *** Exact and longest-prefix lookups *)

Lemma visit_exact q (l : list (nat * K * T)) r :
  let out := visit (λ ret p _ v, if p =? q then (Some v, false) else (ret, true)) r l in
  (out = r ∧ ∀ x, x ∈ l → x.1.1 ≠ q) ∨ ∃ key v, (q, key, v) ∈ l ∧ out = Some v.
Proof.
  revert r. induction l as [|[[p key] v] l IH]; intros r; simpl.
  { left. split; [done|]. by intros x ?%elem_of_nil. }
  destruct (Nat.eqb_spec p q) as [->|Hne].
  - right. exists key, v. split; [left|done].
  - destruct (IH r) as [[-> Hl]|(key' & v' & Hin & ->)]; [left|right].
    + split; [done|]. intros x [->|Hx]%elem_of_cons; [done|by apply Hl].
    + exists key', v'. split; [by right|done].
Qed.

Lemma visit_last (l : list (nat * K * T)) r :
  visit (λ _ _ key v, (Some (key, v), true)) r l =
  match last l with Some x => Some (x.1.2, x.2) | None => r end.
Proof.
  revert r. induction l as [|[[p key] v] l IH]; intros r; [done|]. simpl.
  rewrite IH. destruct l as [|y l]; [done|].
  change (last ((p, key, v) :: y :: l)) with (last (y :: l)).
  by destruct (last (y :: l)) eqn:E; [|apply last_None in E].
Qed.

Lemma traverse_exact pre n q k :
  wf pre n → key_ok k → q ≤ limit →
  traverse_from max q k
    (λ ret p _ v, if p =? q then (Some v, false) else (ret, true)) None n =
  snd <$> tmap n !! bits q k.
Proof.
  intros W Hk Hq. rewrite traverse_from_path.
  destruct (visit_exact q (path q k n) None) as [[-> Hl]|(key & v & Hin & ->)].
  - destruct (tmap n !! bits q k) as [[key v]|] eqn:E; [exfalso|done].
    destruct (tmap_key _ _ _ _ _ W E) as (_ & _ & Eb). rewrite bits_length in Eb.
    apply (Hl (q, key, v)); [|done]. apply (path_spec pre); try done.
    by rewrite <- Eb.
  - apply (path_spec pre) in Hin as (_ & E & Hp); try done.
    apply prefix_length_eq in Hp; [|by rewrite !bits_length]. by rewrite <- Hp, E.
Qed.
End spec.

(** ** The trie implements a finite map from prefixes *)

Section laws.
Context {K T : Type} `{KeyLaws K} `{Inhabited T}.
Implicit Types (t : trie K T) (k : K) (q : nat).

(** The abstract contents: bit prefixes to the key and value stored there. *)
Definition contents t : gmap (list bool) (K * T) := tmap (root t).

(** The representation invariant. *)
Definition trie_inv t : Prop :=
  wf (maxPrefix t) [] (root t) ∧ entries t = size (contents t).

(** The prefix-key pair an operation acts on, with the length clamped. *)
Definition prefix_of_key t q k : list bool := bits (min q (maxPrefix t)) k.

(** The operation's key is proper and its clamped prefix is within the key. *)
Definition proper t q k : Prop := key_ok k ∧ min q (maxPrefix t) ≤ keyLen.

Lemma proper_limit t q k : proper t q k → key_ok k ∧ min q (maxPrefix t) ≤ limit (maxPrefix t).
Proof. unfold proper, limit. intros [? ?]. split; [done|lia]. Qed.

Lemma NewTrie_spec max : trie_inv (NewTrie max) ∧ contents (NewTrie max) = ∅.
Proof. done. Qed.

Lemma Upsert_spec t q k v :
  trie_inv t → proper t q k →
  trie_inv (Upsert t q k v).1 ∧ maxPrefix (Upsert t q k v).1 = maxPrefix t ∧
  contents (Upsert t q k v).1 = <[prefix_of_key t q k := (k, v)]> (contents t) ∧
  ((Upsert t q k v).2 = true ↔ contents t !! prefix_of_key t q k = None).
Proof.
  intros [W He] [Hk Hq]%proper_limit. unfold Upsert, contents, prefix_of_key in *.
  destruct (upsert_node_spec (maxPrefix t) [] (root t) (min q (maxPrefix t)) k v)
    as (W' & _ & L & New); [done..|apply prefix_nil|].
  destruct (upsert_node _ _ _ _ _) as [r new]; simpl in *.
  assert (E : tmap r = <[bits (min q (maxPrefix t)) k := (k, v)]> (tmap (root t))).
  { apply map_eq. intros bs. rewrite L, lookup_insert. repeat case_decide; congruence. }
  split_and!; try done. split; [done|]. unfold contents; simpl. rewrite E, map_size_insert.
  destruct new.
  - rewrite (proj1 New eq_refl). by rewrite He.
  - destruct (tmap (root t) !! _) eqn:El; [by rewrite He|].
    by pose proof (proj2 New eq_refl).
Qed.

Lemma Delete_spec t q k :
  trie_inv t → proper t q k →
  trie_inv (Delete t q k).1 ∧ maxPrefix (Delete t q k).1 = maxPrefix t ∧
  contents (Delete t q k).1 = delete (prefix_of_key t q k) (contents t) ∧
  ((Delete t q k).2 = true ↔ is_Some (contents t !! prefix_of_key t q k)).
Proof.
  intros [W He] [Hk Hq]%proper_limit. unfold Delete, contents, prefix_of_key in *.
  pose proof (delete_node_spec (maxPrefix t) [] (root t) (min q (maxPrefix t)) k W Hk Hq) as HD.
  destruct (delete_node _ _ _) as [r|]; simpl.
  - destruct HD as (W' & L & Hs).
    assert (E : tmap r = delete (bits (min q (maxPrefix t)) k) (tmap (root t))).
    { apply map_eq. intros bs. rewrite L, lookup_delete. repeat case_decide; congruence. }
    split_and!; try done. split; [done|]. unfold contents; simpl. rewrite E, map_size_delete.
    destruct Hs as [x ->]. lia.
  - split_and!; try done; [by rewrite delete_id|]. rewrite HD. split; [done|by intros []].
Qed.

Lemma ExactLookup_spec t q k :
  trie_inv t → proper t q k →
  ExactLookup t q k = snd <$> contents t !! prefix_of_key t q k.
Proof. intros [W _] [Hk Hq]%proper_limit. by apply (traverse_exact _ []). Qed.

(** The sequences the three iterators of [pkg/policy] produce. *)
Definition AncestorIterator_all t q k : list (K * T) :=
  drain ancestorIterator_Next (S (node_size (root t))) (AncestorIterator t q k).
Definition AncestorLPF_all t q k : list (K * T) :=
  let st := AncestorLongestPrefixFirstIterator t q k in
  drain ancestorLPFIterator_Next (S (length st)) st.
Definition DescendantIterator_all t q k : list (K * T) :=
  let st := DescendantIterator t q k in
  drain descendantIterator_Next (S (forest_size st)) st.

Lemma AncestorIterator_spec t q k :
  trie_inv t → proper t q k →
  lists_entries lt (λ bs, bs `prefix_of` prefix_of_key t q k) (contents t)
    (AncestorIterator_all t q k).
Proof.
  intros [W _] [Hk Hq]%proper_limit. unfold AncestorIterator_all, AncestorIterator.
  rewrite drain_ancestorIterator by lia. by apply (path_lists_entries _ []).
Qed.

Lemma AncestorLPF_spec t q k :
  trie_inv t → proper t q k → q ≤ maxPrefix t →
  lists_entries gt (λ bs, bs `prefix_of` prefix_of_key t q k) (contents t)
    (AncestorLPF_all t q k).
Proof.
  intros [W _] [Hk Hq]%proper_limit Hle.
  unfold AncestorLPF_all, AncestorLongestPrefixFirstIterator, prefix_of_key.
  rewrite Nat.min_l in * by done.
  destruct (ancestor_stack_path (maxPrefix t) q k [] (root t)) as (l & -> & Hl).
  rewrite (drain_ancestorLPFIterator _ _ _ Hl) by (simpl; lia).
  by apply (path_lists_entries_rev _ []).
Qed.

Lemma DescendantIterator_spec t q k :
  trie_inv t → proper t q k →
  lists_entries (λ _ _, True) (λ bs, prefix_of_key t q k `prefix_of` bs) (contents t)
    (DescendantIterator_all t q k).
Proof.
  intros [W _] [Hk Hq]%proper_limit. unfold DescendantIterator_all, DescendantIterator.
  destruct (descend_spec _ _ _ _ _ W Hk Hq) as [[pre' W'] HD].
  set (d := descend _ _ _ _) in *.
  rewrite drain_descendantIterator;
    [|destruct d; [constructor|by apply Forall_singleton]|lia].
  rewrite pending_push_child, app_nil_r.
  apply lists_entries_any; [by eapply tlist_NoDup| |done].
  intros bs x. rewrite (tlist_spec _ _ _ _ _ W'), HD. unfold prefix_of_key, contents.
  case_decide; naive_solver.
Qed.
End laws.

(** ** The [Trie] interface

    The operations [pkg/policy] calls, and the laws it relies on: a trie of
    maximum prefix [max] is a finite map from bit prefixes, searched upwards and
    downwards by the prefix order. *)

Class Trie (K T : Type) := {
  trie_t : Type;
  trie_New : nat → trie_t;
  trie_ExactLookup : trie_t → nat → K → option T;
  trie_Upsert : trie_t → nat → K → T → trie_t * bool;
  trie_Delete : trie_t → nat → K → trie_t * bool;
  trie_Ancestors : trie_t → nat → K → list (K * T);
  trie_AncestorsLPF : trie_t → nat → K → list (K * T);
  trie_Descendants : trie_t → nat → K → list (K * T);
}.

Class TrieLaws (K T : Type) `{KeyLaws K} (TR : Trie K T) := {
  trie_ok : nat → trie_t → Prop;
  trie_map : trie_t → gmap (list bool) (K * T);
  trie_New_law max : trie_ok max (trie_New max) ∧ trie_map (trie_New max) = ∅;
  trie_key_law max t bs k v :
    trie_ok max t → trie_map t !! bs = Some (k, v) →
    key_ok k ∧ length bs ≤ min max keyLen ∧ bs = bits (length bs) k;
  trie_ExactLookup_law max t q k :
    trie_ok max t → key_ok k → q ≤ min max keyLen →
    trie_ExactLookup t q k = snd <$> trie_map t !! bits q k;
  trie_Upsert_law max t q k v :
    trie_ok max t → key_ok k → q ≤ min max keyLen →
    trie_ok max (trie_Upsert t q k v).1 ∧
    trie_map (trie_Upsert t q k v).1 = <[bits q k := (k, v)]> (trie_map t);
  trie_Delete_law max t q k :
    trie_ok max t → key_ok k → q ≤ min max keyLen →
    trie_ok max (trie_Delete t q k).1 ∧
    trie_map (trie_Delete t q k).1 = delete (bits q k) (trie_map t);
  trie_Ancestors_law max t q k :
    trie_ok max t → key_ok k → q ≤ min max keyLen →
    lists_entries lt (λ bs, bs `prefix_of` bits q k) (trie_map t) (trie_Ancestors t q k);
  trie_AncestorsLPF_law max t q k :
    trie_ok max t → key_ok k → q ≤ min max keyLen →
    lists_entries gt (λ bs, bs `prefix_of` bits q k) (trie_map t) (trie_AncestorsLPF t q k);
  trie_Descendants_law max t q k :
    trie_ok max t → key_ok k → q ≤ min max keyLen →
    lists_entries (λ _ _, True) (λ bs, bits q k `prefix_of` bs) (trie_map t)
      (trie_Descendants t q k);
}.

#[export] Instance bitlpm_Trie {K T} `{Key K} `{Inhabited T} : Trie K T := {|
  trie_t := trie K T;
  trie_New := NewTrie;
  trie_ExactLookup := ExactLookup;
  trie_Upsert := Upsert;
  trie_Delete := Delete;
  trie_Ancestors := AncestorIterator_all;
  trie_AncestorsLPF := AncestorLPF_all;
  trie_Descendants := DescendantIterator_all;
|}.

Lemma proper_intro {K T} `{KeyLaws K} (t : trie K T) max q k :
  maxPrefix t = max → key_ok k → q ≤ min max keyLen →
  proper t q k ∧ prefix_of_key t q k = bits q k.
Proof.
  intros <- Hk Hq. unfold proper, prefix_of_key. rewrite Nat.min_l by lia.
  split; [split; [done|lia]|done].
Qed.

#[export] Program Instance bitlpm_TrieLaws {K T} `{KeyLaws K} `{Inhabited T} :
    TrieLaws K T bitlpm_Trie := {|
  trie_ok max t := trie_inv t ∧ maxPrefix t = max;
  trie_map := contents;
|}.
Next Obligation. intros. simpl. by destruct (NewTrie_spec (K:=K) (T:=T) max). Qed.
Next Obligation.
  intros K T ? ? ? max t bs k v [[W _] <-] E. by apply (tmap_key _ _ _ _ _ _ W E).
Qed.
Next Obligation.
  intros K T ? ? ? max t q k [Hi Hm] Hk Hq.
  destruct (proper_intro t max q k Hm Hk Hq) as [Hp <-]. by apply ExactLookup_spec.
Qed.
Next Obligation.
  intros K T ? ? ? max t q k v [Hi Hm] Hk Hq.
  destruct (proper_intro t max q k Hm Hk Hq) as [Hp <-].
  destruct (Upsert_spec t q k v Hi Hp) as (? & ? & ? & _). simpl. by split_and!; try congruence.
Qed.
Next Obligation.
  intros K T ? ? ? max t q k [Hi Hm] Hk Hq.
  destruct (proper_intro t max q k Hm Hk Hq) as [Hp <-].
  destruct (Delete_spec t q k Hi Hp) as (? & ? & ? & _). simpl. by split_and!; try congruence.
Qed.
Next Obligation.
  intros K T ? ? ? max t q k [Hi Hm] Hk Hq.
  destruct (proper_intro t max q k Hm Hk Hq) as [Hp <-]. by apply AncestorIterator_spec.
Qed.
Next Obligation.
  intros K T ? ? ? max t q k [Hi Hm] Hk Hq.
  destruct (proper_intro t max q k Hm Hk Hq) as [Hp <-]. apply AncestorLPF_spec; auto; lia.
Qed.
Next Obligation.
  intros K T ? ? ? max t q k [Hi Hm] Hk Hq.
  destruct (proper_intro t max q k Hm Hk Hq) as [Hp <-]. by apply DescendantIterator_spec.
Qed.
