(* ===== verification/UintTrie.v ===== *)
(** * Tries over unsigned integers, and the trie's properties

    Model of [src/pkg/container/bitlpm/unsigned.go]: [unsignedKey], the trie key
    of a Go unsigned type, and the [UintTrie] wrapper.  The properties of the
    generic trie of [BitLPM] are stated here, where a concrete key type is at
    hand to run them on. *)

From S2P Require Import Prelude BitLPM.

(** ** [unsignedKey] *)

(** The type parameter: a predeclared [uint<w>], or a defined type whose
    underlying type is one (the constraint's [~uint<w>]). *)
Inductive uwidth := W8 | W16 | W32 | W64.
Inductive Unsigned := builtin (w : uwidth) | named (w : uwidth).

Definition uwidth_bits (w : uwidth) : Z :=
  match w with W8 => 8 | W16 => 16 | W32 => 32 | W64 => 64 end.
Definition Unsigned_bits (u : Unsigned) : Z :=
  match u with builtin w | named w => uwidth_bits w end.

Record unsignedKey (u : Unsigned) := mkUnsignedKey { uk_value : Z }.
Arguments mkUnsignedKey {u}.
Arguments uk_value {u}.

(** The type switch of the two methods lists the predeclared types only: a
    defined type matches no case. *)
Definition unsignedKey_CommonPrefix {u} (a b : unsignedKey u) : nat :=
  match u with
  | builtin w => Z.to_nat (LeadingZeros (uwidth_bits w) (Z.lxor (uk_value a) (uk_value b)))
  | named _ => 0
  end.

Definition unsignedKey_BitValueAt {u} (k : unsignedKey u) (i : nat) : Z :=
  match u with
  | builtin w =>
      let n := uwrap 64 (uwidth_bits w - 1 - Z.of_nat i) in
      if (Z.land (uk_value k) (ushl (uwidth_bits w) 1 n) =? 0)%Z then 0 else 1
  | named _ => 1
  end.

#[export] Instance unsignedKey_Key u : Key (unsignedKey u) := {|
  CommonPrefix := unsignedKey_CommonPrefix;
  BitValueAt := unsignedKey_BitValueAt;
|}.

Lemma uwidth_bits_bounds w : (8 ≤ uwidth_bits w ≤ 64)%Z.
Proof. destruct w; simpl; lia. Qed.

Lemma unsignedKey_bit w (k : unsignedKey (builtin w)) i :
  (Z.of_nat i < uwidth_bits w)%Z →
  bit k i = Z.testbit (uk_value k) (uwidth_bits w - 1 - Z.of_nat i).
Proof.
  intros Hi. pose proof (uwidth_bits_bounds w) as Hw.
  unfold bit; simpl. unfold unsignedKey_BitValueAt.
  assert (E : uwrap 64 (uwidth_bits w - 1 - Z.of_nat i) = (uwidth_bits w - 1 - Z.of_nat i)%Z).
  { apply uwrap_small. unfold is_uint. split; [lia|].
    change (2 ^ 64)%Z with 18446744073709551616%Z. lia. }
  rewrite E. clear E. assert (Hn : (0 ≤ uwidth_bits w - 1 - Z.of_nat i < uwidth_bits w)%Z) by lia.
  revert Hn. generalize (uwidth_bits w - 1 - Z.of_nat i)%Z. intros n Hn.
  unfold ushl. rewrite (proj2 (Z.ltb_lt n (uwidth_bits w))) by lia.
  rewrite Z.shiftl_1_l, uwrap_small by (apply is_uint_pow2; lia).
  destruct (Z.testbit (uk_value k) n) eqn:Eb.
  - destruct (Z.eqb_spec (Z.land (uk_value k) (2 ^ n)) 0) as [E0|]; [|done].
    apply (f_equal (λ x, Z.testbit x n)) in E0.
    rewrite Z.land_spec, Eb, Z.pow2_bits_true, Z.bits_0 in E0 by lia. done.
  - assert (Z.land (uk_value k) (2 ^ n) = 0%Z) as ->; [|done].
    apply Z.bits_inj'. intros j Hj. rewrite Z.land_spec, Z.pow2_bits_eqb, Z.bits_0 by lia.
    destruct (Z.eqb_spec n j) as [<-|]; [by rewrite Eb|apply andb_false_r].
Qed.

Lemma lxor_zeros_bounds w x y :
  is_uint (uwidth_bits w) x → is_uint (uwidth_bits w) y →
  (0 ≤ LeadingZeros (uwidth_bits w) (Z.lxor x y) ≤ uwidth_bits w)%Z.
Proof.
  intros Hx Hy. pose proof (uwidth_bits_bounds w).
  apply LeadingZeros_bounds; [lia|]. apply lxor_uint; auto with lia.
Qed.

#[export] Program Instance unsignedKey_KeyLaws w : KeyLaws (unsignedKey (builtin w)) := {|
  keyLen := Z.to_nat (uwidth_bits w);
  key_ok k := is_uint (uwidth_bits w) (uk_value k);
|}.
Next Obligation.
  intros w a b Ha Hb. simpl. pose proof (uwidth_bits_bounds w).
  pose proof (lxor_zeros_bounds w _ _ Ha Hb). lia.
Qed.
Next Obligation.
  intros w a b i Ha Hb Hi. simpl in Hi. pose proof (uwidth_bits_bounds w).
  pose proof (lxor_zeros_bounds w _ _ Ha Hb).
  rewrite !unsignedKey_bit by lia. apply LeadingZeros_lxor_agree; auto with lia.
Qed.
Next Obligation.
  intros w a b Ha Hb Hi. simpl in *. pose proof (uwidth_bits_bounds w).
  pose proof (lxor_zeros_bounds w _ _ Ha Hb).
  rewrite !unsignedKey_bit by lia. rewrite !Z2Nat.id by lia.
  apply LeadingZeros_lxor_differ; auto with lia.
Qed.

(** ** [UintTrie] *)

Section UintTrie.
Context {u : Unsigned} {T : Type} `{Inhabited T}.

Record UintTrie := mkUintTrie { ut_trie : trie (unsignedKey u) T; keySize : Z }.

Definition NewUintTrie : UintTrie :=
  let size := (Unsigned_bits u / 8)%Z in
  mkUintTrie (NewTrie (Z.to_nat (size * 8))) size.

Definition UintTrie_Upsert (ut : UintTrie) (prefix : nat) (k : Z) (value : T) : UintTrie * bool :=
  let '(t, new) := Upsert (ut_trie ut) prefix (mkUnsignedKey k) value in
  (mkUintTrie t (keySize ut), new).

Definition UintTrie_Delete (ut : UintTrie) (prefix : nat) (k : Z) : UintTrie * bool :=
  let '(t, ok) := Delete (ut_trie ut) prefix (mkUnsignedKey k) in
  (mkUintTrie t (keySize ut), ok).

Definition UintTrie_ExactLookup (ut : UintTrie) (prefix : nat) (k : Z) : option T :=
  ExactLookup (ut_trie ut) prefix (mkUnsignedKey k).

Definition UintTrie_LongestPrefixMatch (ut : UintTrie) (k : Z) : option (Z * T) :=
  match LongestPrefixMatch (ut_trie ut) (mkUnsignedKey k) with
  | Some (k2, v) => Some (uk_value k2, v)
  | None => None
  end.

Definition UintTrie_Ancestors {S} (ut : UintTrie) (prefix : nat) (k : Z)
    (fn : S → nat → Z → T → S * bool) (s : S) : S :=
  Ancestors (ut_trie ut) prefix (mkUnsignedKey k) (λ s p k v, fn s p (uk_value k) v) s.

Definition UintTrie_Descendants {S} (ut : UintTrie) (prefix : nat) (k : Z)
    (fn : S → nat → Z → T → S * bool) (s : S) : S :=
  Descendants (ut_trie ut) prefix (mkUnsignedKey k) (λ s p k v, fn s p (uk_value k) v) s.

Definition UintTrie_Len (ut : UintTrie) : nat := Len (ut_trie ut).

Definition UintTrie_ForEach {S} (ut : UintTrie) (fn : S → nat → Z → T → S * bool) (s : S) : S :=
  ForEach (ut_trie ut) (λ s p k v, fn s p (uk_value k) v) s.
End UintTrie.
Arguments UintTrie : clear implicits.

(** ** Properties of the trie *)

Section properties.
Context {K T : Type} `{KeyLaws K} `{Inhabited T}.

(** C31. Storing a value under a prefix-key pair makes exactly the lookups of
    that prefix return it, leaves every other lookup alone, keeps the trie's
    invariant, counts the entry once and reports whether it is new. *)
Theorem trie_upsert_lookup (t : trie K T) (q : nat) (k : K) (v : T) :
  trie_inv t → proper t q k →
  trie_inv (Upsert t q k v).1 ∧
  (∀ q' k', proper t q' k' →
     ExactLookup (Upsert t q k v).1 q' k' =
       if decide (prefix_of_key t q' k' = prefix_of_key t q k) then Some v
       else ExactLookup t q' k') ∧
  (Upsert t q k v).2 = bool_decide (ExactLookup t q k = None) ∧
  Len (Upsert t q k v).1 = Len t + (if (Upsert t q k v).2 then 1 else 0).
Proof.
  intros Hi Hp. destruct (Upsert_spec t q k v Hi Hp) as (Hi' & Hm & Hc & Hnew).
  destruct (Upsert t q k v) as [t' new]; simpl in *.
  assert (Hn : new = bool_decide (ExactLookup t q k = None)).
  { rewrite ExactLookup_spec by done. apply eq_true_iff_eq. rewrite Hnew, bool_decide_eq_true.
    by rewrite fmap_None. }
  split; [done|]. split; [|split; [done|]].
  - intros q' k' Hp'.
    assert (proper t' q' k' ∧ prefix_of_key t' q' k' = prefix_of_key t q' k') as [? E]
      by (unfold proper, prefix_of_key in *; by rewrite Hm).
    rewrite !ExactLookup_spec, Hc, E by done. rewrite lookup_insert.
    repeat case_decide; congruence || done.
  - unfold Len. rewrite (proj2 Hi'), (proj2 Hi), Hc, map_size_insert.
    destruct new.
    + rewrite (proj1 Hnew eq_refl). simpl. lia.
    + destruct (contents t !! _) eqn:E; [unfold id; lia|]. by pose proof (proj2 Hnew eq_refl).
Qed.

(** C32. Deleting removes that prefix-key pair and nothing else, reports whether
    it was there, and keeps the invariant (intermediate nodes included). *)
Theorem trie_delete_lookup (t : trie K T) (q : nat) (k : K) :
  trie_inv t → proper t q k →
  trie_inv (Delete t q k).1 ∧
  (∀ q' k', proper t q' k' →
     ExactLookup (Delete t q k).1 q' k' =
       if decide (prefix_of_key t q' k' = prefix_of_key t q k) then None
       else ExactLookup t q' k') ∧
  (Delete t q k).2 = bool_decide (is_Some (ExactLookup t q k)) ∧
  Len (Delete t q k).1 = Len t - (if (Delete t q k).2 then 1 else 0).
Proof.
  intros Hi Hp. destruct (Delete_spec t q k Hi Hp) as (Hi' & Hm & Hc & Hf).
  destruct (Delete t q k) as [t' found]; simpl in *.
  assert (Hn : found = bool_decide (is_Some (ExactLookup t q k))).
  { rewrite ExactLookup_spec by done. apply eq_true_iff_eq. rewrite Hf, bool_decide_eq_true.
    by rewrite fmap_is_Some. }
  split; [done|]. split; [|split; [done|]].
  - intros q' k' Hp'.
    assert (proper t' q' k' ∧ prefix_of_key t' q' k' = prefix_of_key t q' k') as [? E]
      by (unfold proper, prefix_of_key in *; by rewrite Hm).
    rewrite !ExactLookup_spec, Hc, E by done. rewrite lookup_delete.
    repeat case_decide; congruence || done.
  - unfold Len. rewrite (proj2 Hi'), (proj2 Hi), Hc, map_size_delete.
    destruct (contents t !! prefix_of_key t q k) eqn:E; destruct found; try lia.
    + by discriminate (proj2 Hf (ex_intro _ _ eq_refl)).
    + by destruct (proj1 Hf eq_refl).
    + unfold id. lia.
Qed.

(** C36. [LongestPrefixMatch] on a trie that satisfies its invariant, with prefixes no
    longer than the key type, returns the entry whose prefix is the longest stored one
    containing the key, and nothing only when no stored prefix contains the key. *)
Theorem trie_longest_prefix_match (t : trie K T) (k : K) :
  trie_inv t → key_ok k → maxPrefix t ≤ keyLen →
  match LongestPrefixMatch t k with
  | Some (k', v) =>
      ∃ bs, contents t !! bs = Some (k', v) ∧ bs `prefix_of` bits (maxPrefix t) k ∧
        ∀ bs' x, contents t !! bs' = Some x → bs' `prefix_of` bits (maxPrefix t) k →
          length bs' ≤ length bs
  | None => ∀ bs x, contents t !! bs = Some x → ¬ bs `prefix_of` bits (maxPrefix t) k
  end.
Proof.
  intros [W _] Hk Hm. unfold LongestPrefixMatch, traverse, contents.
  assert (Hq : maxPrefix t ≤ limit (maxPrefix t)) by (unfold limit; lia).
  rewrite traverse_from_path, visit_last.
  pose proof (λ bs x, path_entries _ [] (root t) (maxPrefix t) k bs x W Hk Hq) as HE.
  pose proof (path_sorted _ [] (root t) (maxPrefix t) k W) as HS.
  destruct (last (path _ _ _ _)) as [[[p k'] v]|] eqn:El.
  - apply last_Some in El as [l El]. rewrite El in *. exists (bits p k').
    assert (HI : (bits p k', (k', v)) ∈ entry_of <$> (l ++ [(p, k', v)])).
    { rewrite fmap_app, elem_of_app. right. by apply list_elem_of_singleton. }
    apply HE in HI as [HI Hpre']. split; [done|]. split; [done|]. clear HI Hpre'.
    intros bs' x E Hpre.
    assert (HI : (bs', x) ∈ entry_of <$> (l ++ [(p, k', v)])) by by apply HE.
    apply list_elem_of_fmap in HI as ([[p' k''] v'] & [= -> ->] & HI).
    unfold bits. rewrite !length_fmap, !length_seq. apply elem_of_app in HI as [HI|HI%list_elem_of_singleton].
      pose proof (StronglySorted_app_1_elem_of _ _ _ _ _ HS HI
        (proj2 (list_elem_of_singleton _ _) eq_refl)). simpl in *. lia.
    + by simplify_eq/=.
  - apply last_None in El. intros bs x E Hpre.
    assert (HI : (bs, x) ∈ entry_of <$> path (maxPrefix t) (maxPrefix t) k (root t)) by by apply HE.
    rewrite El in HI. by apply elem_of_nil in HI.
Qed.

(** The two ancestor iterators produce exactly the stored entries whose
    prefix contains the given one, the first by strictly growing and the second
    by strictly shrinking prefix length, and both stop. *)
Theorem trie_ancestor_iterators (t : trie K T) (q : nat) (k : K) :
  trie_inv t → proper t q k → q ≤ maxPrefix t →
  lists_entries lt (λ bs, bs `prefix_of` prefix_of_key t q k) (contents t)
    (AncestorIterator_all t q k) ∧
  lists_entries gt (λ bs, bs `prefix_of` prefix_of_key t q k) (contents t)
    (AncestorLPF_all t q k).
Proof. split; [by apply AncestorIterator_spec|by apply AncestorLPF_spec]. Qed.

(** The descendant iterator produces every stored entry the given prefix
    contains, once, and stops. *)
Theorem trie_descendant_iterator (t : trie K T) (q : nat) (k : K) :
  trie_inv t → proper t q k →
  lists_entries (λ _ _, True) (λ bs, prefix_of_key t q k `prefix_of` bs) (contents t)
    (DescendantIterator_all t q k).
Proof. apply DescendantIterator_spec. Qed.

(** The callback of [ForEach] runs on the second subtree of a fork whatever it
    answered on the first one: a false answer only cuts the entry's own
    subtree. *)
Lemma forEach_fork {S} (fn : visitor S) s c0 c1 p (k : K) (v : T) :
  forEach fn s (Node c0 c1 p k true v) = forEach fn (forEach fn s c0) c1.
Proof. reflexivity. Qed.
End properties.

(** ** Runs on a concrete trie *)

Definition demo_key (x : Z) : unsignedKey (builtin W8) := mkUnsignedKey x.
Definition demo_entries : list (nat * Z * nat) :=
  [(0, 0%Z, 1); (4, 160%Z, 2); (8, 163%Z, 3); (3, 96%Z, 4)].
Definition demo : trie (unsignedKey (builtin W8)) nat :=
  foldl (λ t '(p, x, v), (Upsert t p (demo_key x) v).1) (ut_trie NewUintTrie) demo_entries.

Lemma demo_proper (t : trie (unsignedKey (builtin W8)) nat) q x :
  maxPrefix t = 8 → (0 ≤ x < 256)%Z → proper t q (demo_key x).
Proof. intros Hm Hx. split; [exact Hx|]. rewrite Hm. simpl. lia. Qed.

Lemma demo_inv : trie_inv demo ∧ maxPrefix demo = 8.
Proof.
  assert (H : ∀ l (t : trie (unsignedKey (builtin W8)) nat),
    Forall (λ y : nat * Z * nat, (0 ≤ y.1.2 < 256)%Z) l → trie_inv t ∧ maxPrefix t = 8 →
    let t' := foldl (λ t '(p, x, v), (Upsert t p (demo_key x) v).1) t l in
    trie_inv t' ∧ maxPrefix t' = 8).
  { intros l. induction l as [|[[p x] v] l IH]; intros t Hl [Hi Hm]; [done|].
    inversion Hl; subst. simpl in *. apply IH; [done|].
    destruct (Upsert_spec t p (demo_key x) v Hi) as (Hi' & Hm' & _); [by apply demo_proper|].
    split; [done|]. by rewrite Hm'. }
  apply H; [|done]. repeat constructor; simpl; lia.
Qed.

Lemma trie_upsert_lookup_witness :
  ExactLookup demo 5 (demo_key 168) = None ∧
  ExactLookup (Upsert demo 5 (demo_key 168) 9).1 5 (demo_key 171) = Some 9 ∧
  ExactLookup (Upsert demo 5 (demo_key 168) 9).1 8 (demo_key 163) = Some 3 ∧
  Len (Upsert demo 5 (demo_key 168) 9).1 = 5.
Proof.
  destruct demo_inv as [Hi Hm].
  pose proof (trie_upsert_lookup demo 5 (demo_key 168) 9 Hi
    (demo_proper _ _ 168 Hm ltac:(lia))) as (_ & HL & _ & HN).
  split; [reflexivity|].
  split; [|split; [|exact HN]].
  - rewrite (HL 5 (demo_key 171)); [reflexivity|apply demo_proper; [done|lia]].
  - rewrite (HL 8 (demo_key 163)); [reflexivity|apply demo_proper; [done|lia]].
Defined.

Lemma trie_delete_lookup_witness :
  ExactLookup (Delete demo 4 (demo_key 160)).1 4 (demo_key 160) = None ∧
  ExactLookup (Delete demo 4 (demo_key 160)).1 8 (demo_key 163) = Some 3 ∧
  Len (Delete demo 4 (demo_key 160)).1 = 3.
Proof.
  destruct demo_inv as [Hi Hm].
  pose proof (trie_delete_lookup demo 4 (demo_key 160) Hi
    (demo_proper _ _ 160 Hm ltac:(lia))) as (_ & HL & _ & HN).
  split; [|split; [|exact HN]].
  - rewrite (HL 4 (demo_key 160)); [reflexivity|apply demo_proper; [done|lia]].
  - rewrite (HL 8 (demo_key 163)); [reflexivity|apply demo_proper; [done|lia]].
Defined.

Lemma trie_longest_prefix_match_witness :
  LongestPrefixMatch demo (demo_key 162) = Some (demo_key 160, 2) ∧
  ∃ bs, contents demo !! bs = Some (demo_key 160, 2) ∧
    ∀ bs' x, contents demo !! bs' = Some x → bs' `prefix_of` bits 8 (demo_key 162) →
      length bs' ≤ length bs.
Proof.
  assert (E : LongestPrefixMatch demo (demo_key 162) = Some (demo_key 160, 2)) by reflexivity.
  split; [exact E|]. destruct demo_inv as [Hi Hm].
  pose proof (trie_longest_prefix_match demo (demo_key 162) Hi
    ltac:(simpl; unfold is_uint; lia) ltac:(rewrite Hm; simpl; lia)) as HP.
  rewrite E in HP. destruct HP as (bs & El & _ & Hmax). rewrite Hm in Hmax.
  exists bs. split; [exact El|exact Hmax].
Defined.

Lemma trie_ancestor_iterators_witness :
  AncestorIterator_all demo 8 (demo_key 163) =
    [(demo_key 0, 1); (demo_key 160, 2); (demo_key 163, 3)] ∧
  lists_entries lt (λ bs, bs `prefix_of` prefix_of_key demo 8 (demo_key 163)) (contents demo)
    (AncestorIterator_all demo 8 (demo_key 163)).
Proof.
  split; [reflexivity|]. destruct demo_inv as [Hi Hm].
  apply (trie_ancestor_iterators demo 8 (demo_key 163) Hi).
  - apply demo_proper; [done|lia].
  - by rewrite Hm.
Defined.

Lemma trie_descendant_iterator_witness :
  DescendantIterator_all demo 1 (demo_key 128) = [(demo_key 160, 2); (demo_key 163, 3)] ∧
  lists_entries (λ _ _, True) (λ bs, prefix_of_key demo 1 (demo_key 128) `prefix_of` bs)
    (contents demo) (DescendantIterator_all demo 1 (demo_key 128)).
Proof.
  split; [reflexivity|]. destruct demo_inv as [Hi Hm].
  apply (trie_descendant_iterator demo 1 (demo_key 128) Hi).
  apply demo_proper; [done|lia].
Defined.

(** A callback that asks to stop at its first entry is still called on the
    second one. *)
Lemma forEach_does_not_stop :
  let t := (Upsert (Upsert (NewTrie 8) 4 (demo_key 160) 1).1 4 (demo_key 32) 2).1 in
  ForEach t (λ seen _ _ v, (seen ++ [v], false)) [] = [2; 1].
Proof. reflexivity. Qed.

(** Over a defined type with an unsigned underlying type the keys compare as
    different in every bit, so a stored entry is never found again. *)
Lemma named_type_lookup_lost (w : uwidth) (q : nat) (x : Z) (v : nat) :
  0 < q →
  let t := NewUintTrie (u:=named w) (T:=nat) in
  UintTrie_ExactLookup (UintTrie_Upsert t q x v).1 q x = None.
Proof.
  intros Hq. unfold UintTrie_ExactLookup, UintTrie_Upsert. simpl.
  unfold ExactLookup, traverse, Upsert, prefixMatch; simpl.
  destruct q as [|q]; [lia|]. by destruct w.
Qed.

Lemma named_type_lookup_lost_witness :
  let t := NewUintTrie (u:=named W32) (T:=nat) in
  UintTrie_ExactLookup (UintTrie_Upsert t 24 655360 7).1 24 655360 = None ∧
  UintTrie_Len (UintTrie_Upsert t 24 655360 7).1 = 1.
Proof. split; [apply (named_type_lookup_lost W32 24 655360 7); lia|reflexivity]. Defined.
