(* ===== verification/PolicyKey.v ===== *)
(** * Policy map keys

    Model of [src/pkg/policy/types/types.go]: the policy map key, its
    constructors, the cover and breadth predicates, and the bit layout under
    which keys are indexed in the trie of [BitLPM]. *)

From S2P Require Import Prelude BitLPM.

Local Open Scope Z_scope.

(** ** Keys *)

Definition MapStatePrefixLen : nat := 32.

(** [bits_] is the source's [bits]: the direction in the highest bit and the
    port prefix length in the others. *)
Record LPMKey := mkLPMKey { bits_ : Z; Nexthdr : Z; DestPort : Z }.
Record Key := mkKey { Key_LPMKey :> LPMKey; Identity : Z }.

#[export] Instance LPMKey_eq_dec : EqDecision LPMKey.
Proof. solve_decision. Defined.
#[export] Instance Key_eq_dec : EqDecision Key.
Proof. solve_decision. Defined.
#[export] Program Instance LPMKey_countable : Countable LPMKey :=
  inj_countable' (λ k, (bits_ k, Nexthdr k, DestPort k)) (λ '(b, n, p), mkLPMKey b n p) _.
Next Obligation. by intros []. Qed.
#[export] Program Instance Key_countable : Countable Key :=
  inj_countable' (λ k, (Key_LPMKey k, Identity k)) (λ '(l, i), mkKey l i) _.
Next Obligation. by intros []. Qed.

(** [u8proto] and [trafficdirection]. *)
Definition ANY : Z := 0.
Definition TCP : Z := 6.
Definition UDP : Z := 17.
Definition SCTP : Z := 132.
Definition Egress : Z := 1.
Definition Ingress : Z := 0.

Definition directionBitShift : Z := 7.
Definition directionBitMask : Z := Z.shiftl 1 directionBitShift.

Definition EgressKey : Key := mkKey (mkLPMKey (Z.shiftl 1 directionBitShift) 0 0) 0.
Definition IngressKey : Key := mkKey (mkLPMKey (Z.shiftl 0 directionBitShift) 0 0) 0.
Definition KeyForDirection (direction : Z) : Key :=
  mkKey (mkLPMKey (ushl 8 direction directionBitShift) 0 0) 0.

Definition WithProto (k : Key) (proto : Z) : Key :=
  mkKey (mkLPMKey (bits_ k) proto (DestPort k)) (Identity k).

Definition WithPort (k : Key) (port : Z) : Key :=
  let b := Z.land (bits_ k) directionBitMask in
  let b := if port =? 0 then b else Z.lor b 16 in
  mkKey (mkLPMKey b (Nexthdr k) port) (Identity k).

Definition WithPortPrefix (k : Key) (port prefixLen : Z) : Key :=
  let prefixLen :=
    if (16 <? prefixLen) || negb (port =? 0) && (prefixLen =? 0) then 16 else prefixLen in
  let p := Z.land port (ushl 16 65535 (16 - prefixLen)) in
  let b := Z.lor (Z.land (bits_ k) directionBitMask) prefixLen in
  mkKey (mkLPMKey b (Nexthdr k) p) (Identity k).

Definition WithPortProto (k : Key) (proto port : Z) : Key := WithPort (WithProto k proto) port.
Definition WithPortProtoPrefix (k : Key) (proto port prefixLen : Z) : Key :=
  WithPortPrefix (WithProto k proto) port prefixLen.
Definition WithTCPPort (k : Key) (port : Z) : Key := WithPortProto k TCP port.
Definition WithTCPPortPrefix (k : Key) (port prefixLen : Z) : Key :=
  WithPortProtoPrefix k TCP port prefixLen.
Definition WithUDPPort (k : Key) (port : Z) : Key := WithPortProto k UDP port.
Definition WithUDPPortPrefix (k : Key) (port prefixLen : Z) : Key :=
  WithPortProtoPrefix k UDP port prefixLen.
Definition WithSCTPPort (k : Key) (port : Z) : Key := WithPortProto k SCTP port.
Definition WithSCTPPortPrefix (k : Key) (port prefixLen : Z) : Key :=
  WithPortProtoPrefix k SCTP port prefixLen.
Definition WithIdentity (k : Key) (nid : Z) : Key := mkKey k nid.

Definition TrafficDirection (k : LPMKey) : Z := Z.shiftr (bits_ k) directionBitShift.
Definition PortPrefixLen (k : LPMKey) : Z := Z.land (bits_ k) (unot 8 directionBitMask).
Definition HasPortWildcard (k : LPMKey) : bool :=
  Z.land (bits_ k) (unot 8 directionBitMask) <? 16.
Definition IsIngress (k : LPMKey) : bool := TrafficDirection k =? Ingress.
Definition IsEgress (k : LPMKey) : bool := TrafficDirection k =? Egress.

Definition EndPort (k : LPMKey) : Z :=
  uwrap 16 (DestPort k + ushr 16 65535 (PortPrefixLen k)).

(** In Go [&] binds tighter than [^]. *)
Definition PortIsBroader (k : LPMKey) (c : Key) : bool :=
  let kPrefixLen := PortPrefixLen k in
  let cPrefixLen := PortPrefixLen c in
  (kPrefixLen <? cPrefixLen) &&
  (Z.lxor (DestPort k) (Z.land (DestPort c) (ushl 16 65535 (uwrap 8 (16 - kPrefixLen)))) =? 0).

Definition PortIsEqual (k : LPMKey) (c : Key) : bool :=
  (DestPort k =? DestPort c) && (ushl 8 (bits_ k) 1 =? ushl 8 (bits_ c) 1).

Definition Covers (k c : Key) : bool :=
  ((Identity k =? 0) || (Identity k =? Identity c)) &&
  ((Nexthdr k =? 0) || (Nexthdr k =? Nexthdr c)) &&
  (PortIsEqual k c || PortIsBroader k c).

Definition PortProtoIsBroader (k c : Key) : bool :=
  (Nexthdr k =? 0) && negb (Nexthdr c =? 0) ||
  (Nexthdr k =? Nexthdr c) && PortIsBroader k c.

Definition PortProtoIsEqual (k : LPMKey) (c : Key) : bool :=
  (Nexthdr k =? Nexthdr c) && PortIsEqual k c.

Definition PrefixLength (k : LPMKey) : nat :=
  if Nexthdr k =? 0 then 1%nat else (9 + Z.to_nat (PortPrefixLen k))%nat.

Definition LPMKey_CommonPrefix (k b : LPMKey) : nat :=
  if negb (Z.shiftr (Z.lxor (bits_ k) (bits_ b)) directionBitShift =? 0) then 0%nat
  else
    let v := 1 + LeadingZeros 8 (Z.lxor (Nexthdr k) (Nexthdr b)) in
    if v <? 9 then Z.to_nat v
    else Z.to_nat (v + LeadingZeros 16 (Z.lxor (DestPort k) (DestPort b))).

Definition LPMKey_BitValueAt (k : LPMKey) (i : nat) : Z :=
  if Nat.eqb i 0 then Z.shiftr (bits_ k) directionBitShift
  else if Nat.ltb i 9 then Z.land (ushr 8 (Nexthdr k) (8 - Z.of_nat i)) 1
  else Z.land (uwrap 8 (ushr 16 (DestPort k) (uwrap 64 (24 - Z.of_nat i)))) 1.

#[export] Instance LPMKey_Key : BitLPM.Key LPMKey := {|
  CommonPrefix := LPMKey_CommonPrefix;
  BitValueAt := LPMKey_BitValueAt;
|}.

(** [Keys]: [None] is the nil map. *)
Definition Keys : Type := option (gset Key).
Definition Keys_Has (keys : Keys) (key : Key) : bool :=
  match keys with None => false | Some s => bool_decide (key ∈ s) end.
Definition Keys_Insert (keys : Keys) (key : Key) : Keys :=
  Some ({[key]} ∪ default ∅ keys).

(** ** Well-formed keys *)

(** Field widths: all the bit trie needs. *)
Record lpm_ok (k : LPMKey) : Prop := {
  lpm_bits : is_uint 8 (bits_ k);
  lpm_proto : is_uint 8 (Nexthdr k);
  lpm_port : is_uint 16 (DestPort k);
}.

(** What the constructors establish: a prefix length within the port, a port
    cleared below its prefix, and no port under a wildcarded protocol. *)
Record wf_lpm (k : LPMKey) : Prop := {
  wf_lpm_ok : lpm_ok k;
  wf_plen : PortPrefixLen k ≤ 16;
  wf_aligned : DestPort k mod 2 ^ (16 - PortPrefixLen k) = 0;
  wf_any : Nexthdr k = 0 → PortPrefixLen k = 0;
}.

Record wf_key (k : Key) : Prop := {
  wf_key_lpm : wf_lpm k;
  wf_identity : is_uint 32 (Identity k);
}.

#[export] Instance lpm_ok_dec k : Decision (lpm_ok k).
Proof.
  refine (cast_if (decide (is_uint 8 (bits_ k) ∧ is_uint 8 (Nexthdr k) ∧ is_uint 16 (DestPort k))));
    [abstract (constructor; tauto)|abstract (intros []; tauto)].
Defined.

(** ** Bit layout *)

Lemma TrafficDirection_eq k : TrafficDirection k = bits_ k / 128.
Proof. unfold TrafficDirection. by rewrite Z.shiftr_div_pow2. Qed.

Lemma PortPrefixLen_eq k : PortPrefixLen k = bits_ k mod 128.
Proof. unfold PortPrefixLen. by apply (land_lomask 7). Qed.

Lemma bits_layout k : bits_ k = TrafficDirection k * 128 + PortPrefixLen k.
Proof. rewrite TrafficDirection_eq, PortPrefixLen_eq. dlia. Qed.

Lemma PortPrefixLen_nonneg k : 0 ≤ PortPrefixLen k.
Proof. rewrite PortPrefixLen_eq. dlia. Qed.

Lemma TrafficDirection_range k : lpm_ok k → TrafficDirection k = 0 ∨ TrafficDirection k = 1.
Proof. intros [H _ _]. rewrite TrafficDirection_eq. unfold is_uint in H. dlia. Qed.

Lemma LPMKey_eq k c :
  TrafficDirection k = TrafficDirection c → PortPrefixLen k = PortPrefixLen c →
  Nexthdr k = Nexthdr c → DestPort k = DestPort c → k = c.
Proof.
  intros Hd Hp Hn HD. pose proof (bits_layout k) as E. pose proof (bits_layout c) as E'.
  rewrite Hd, Hp, <- E' in E. destruct k, c; simpl in *; by subst.
Qed.

Lemma land_1_bit x : negb (Z.land x 1 =? 0) = Z.testbit x 0.
Proof.
  change 1 with (Z.ones 1) at 1. rewrite Z.land_ones by lia. change (2 ^ 1) with 2.
  rewrite <- Z.bit0_mod. by destruct (Z.testbit x 0).
Qed.

Lemma bit_direction k : bit k 0 = negb (TrafficDirection k =? 0).
Proof. done. Qed.

Lemma bit_proto k i : (1 ≤ i < 9)%nat → bit k i = Z.testbit (Nexthdr k) (8 - Z.of_nat i).
Proof.
  intros Hi. unfold bit; simpl. unfold LPMKey_BitValueAt.
  rewrite (proj2 (Nat.eqb_neq i 0)), (proj2 (Nat.ltb_lt i 9)) by lia.
  rewrite land_1_bit. unfold ushr. rewrite (proj2 (Z.ltb_lt _ 8)) by lia.
  rewrite Z.shiftr_spec by lia. f_equal; lia.
Qed.

Lemma bit_port k i : (9 ≤ i < 25)%nat → bit k i = Z.testbit (DestPort k) (24 - Z.of_nat i).
Proof.
  intros Hi. unfold bit; simpl. unfold LPMKey_BitValueAt.
  rewrite (proj2 (Nat.eqb_neq i 0)), (proj2 (Nat.ltb_ge i 9)) by lia.
  rewrite land_1_bit, (uwrap_small 64) by (unfold is_uint; lia).
  unfold ushr, uwrap. rewrite (proj2 (Z.ltb_lt _ 16)) by lia.
  rewrite Z.mod_pow2_bits_low, Z.shiftr_spec by lia. f_equal; lia.
Qed.

Lemma same_direction k b :
  Z.shiftr (Z.lxor (bits_ k) (bits_ b)) directionBitShift = 0 ↔
  TrafficDirection k = TrafficDirection b.
Proof. by rewrite Z.shiftr_lxor, Z.lxor_eq_0_iff. Qed.

(** The length of the common prefix, in terms of the fields. *)
Lemma CommonPrefix_cases k b :
  lpm_ok k → lpm_ok b →
  CommonPrefix k b = 0%nat ∧ TrafficDirection k ≠ TrafficDirection b ∨
  TrafficDirection k = TrafficDirection b ∧
    let v := LeadingZeros 8 (Z.lxor (Nexthdr k) (Nexthdr b)) in
    let u := LeadingZeros 16 (Z.lxor (DestPort k) (DestPort b)) in
    0 ≤ v ≤ 8 ∧ 0 ≤ u ≤ 16 ∧
    (v < 8 ∧ CommonPrefix k b = Z.to_nat (1 + v) ∨
     v = 8 ∧ Nexthdr k = Nexthdr b ∧ CommonPrefix k b = Z.to_nat (9 + u)).
Proof.
  intros [_ Hn Hp] [_ Hn' Hp']. simpl. unfold LPMKey_CommonPrefix.
  pose proof (LeadingZeros_bounds 8 _ ltac:(lia) (lxor_uint 8 _ _ ltac:(lia) Hn Hn')) as Hv.
  pose proof (LeadingZeros_bounds 16 _ ltac:(lia) (lxor_uint 16 _ _ ltac:(lia) Hp Hp')) as Hu.
  pose proof (LeadingZeros_full 8 _ ltac:(lia) (lxor_uint 8 _ _ ltac:(lia) Hn Hn')) as Hf.
  rewrite Z.lxor_eq_0_iff in Hf.
  pose proof (same_direction k b) as Hd.
  destruct (Z.eqb_spec (Z.shiftr (Z.lxor (bits_ k) (bits_ b)) directionBitShift) 0); simpl;
    [|left; tauto].
  right. split; [tauto|]. split; [done|]. split; [done|].
  destruct (Z.ltb_spec (1 + LeadingZeros 8 (Z.lxor (Nexthdr k) (Nexthdr b))) 9);
    [left; split; [lia|done]|right].
  split; [lia|]. split; [apply Hf; lia|]. f_equal; lia.
Qed.

#[export] Program Instance LPMKey_KeyLaws : KeyLaws LPMKey := {|
  keyLen := 25;
  key_ok := lpm_ok;
|}.
Next Obligation. intros a b Ha Hb. destruct (CommonPrefix_cases a b Ha Hb); simpl in *; lia. Qed.
Next Obligation.
  intros a b i Ha Hb Hi. pose proof Ha as [_ Hn Hp]; pose proof Hb as [_ Hn' Hp'].
  destruct (CommonPrefix_cases a b Ha Hb) as [[E _]|(Hd & Hv & Hu & HC)]; [lia|].
  destruct (decide (i = 0%nat)) as [->|]; [by rewrite !bit_direction, Hd|].
  destruct (decide (i < 9)%nat).
  - rewrite !bit_proto by lia. replace (8 - Z.of_nat i) with (8 - 1 - (Z.of_nat i - 1)) by lia.
    apply LeadingZeros_lxor_agree; auto with lia.
  - rewrite !bit_port by lia. replace (24 - Z.of_nat i) with (16 - 1 - (Z.of_nat i - 9)) by lia.
    apply LeadingZeros_lxor_agree; auto with lia.
Qed.
Next Obligation.
  intros a b Ha Hb Hi. pose proof Ha as [_ Hn Hp]; pose proof Hb as [_ Hn' Hp'].
  destruct (CommonPrefix_cases a b Ha Hb) as [[-> Hd]|(Hd & Hv & Hu & HC)].
  - rewrite !bit_direction.
    destruct (TrafficDirection_range a Ha) as [Ea|Ea], (TrafficDirection_range b Hb) as [Eb|Eb];
      rewrite Ea, Eb in *; done.
  - destruct HC as [[Hlt ->]|(Hv8 & _ & HC)].
    + rewrite !bit_proto, Z2Nat.id by lia.
      replace (8 - (1 + _)) with (8 - 1 - LeadingZeros 8 (Z.lxor (Nexthdr a) (Nexthdr b))) by lia.
      apply LeadingZeros_lxor_differ; auto with lia.
    + rewrite HC in *. rewrite !bit_port, Z2Nat.id by lia.
      replace (24 - (9 + _)) with (16 - 1 - LeadingZeros 16 (Z.lxor (DestPort a) (DestPort b))) by lia.
      apply LeadingZeros_lxor_differ; auto with lia.
Qed.

(** ** Port ranges *)

Lemma ushl_himask w n : 0 ≤ n ≤ w → ushl w (2 ^ w - 1) n = 2 ^ w - 2 ^ n.
Proof.
  intros Hn. unfold ushl, uwrap. destruct (Z.ltb_spec n w).
  - rewrite Z.shiftl_mul_pow2 by lia. pose proof (pow2_pos n). pose proof (pow2_pos w).
    assert (2 ^ n < 2 ^ w) by (apply Z.pow_lt_mono_r; lia).
    symmetry. apply (Z.mod_unique _ _ (2 ^ n - 1)); lia.
  - replace n with w by lia. lia.
Qed.

Lemma ushr_lomask w n : 0 ≤ n ≤ w → ushr w (2 ^ w - 1) n = 2 ^ (w - n) - 1.
Proof.
  intros Hn. unfold ushr. destruct (Z.ltb_spec n w).
  - rewrite Z.shiftr_div_pow2 by lia. pose proof (pow2_pos n).
    replace w with ((w - n) + n) at 1 by lia. rewrite Z.pow_add_r by lia.
    symmetry. apply (Z.div_unique _ _ _ (2 ^ n - 1)); lia.
  - replace n with w by lia. rewrite Z.sub_diag. done.
Qed.

Lemma port_mask p n : is_uint 16 p → 0 ≤ n ≤ 16 →
  Z.land p (ushl 16 65535 n) = p / 2 ^ n * 2 ^ n.
Proof. intros Hp Hn. rewrite (ushl_himask 16) by lia. by apply land_himask. Qed.

(** The ports a key matches. *)
Definition port_in (k : LPMKey) (p : Z) : Prop := DestPort k ≤ p ≤ EndPort k.

Lemma wf_plen_range k : wf_lpm k → 0 ≤ 16 - PortPrefixLen k ≤ 16.
Proof. intros W. pose proof (wf_plen k W). pose proof (PortPrefixLen_nonneg k). lia. Qed.

Lemma aligned_eq x d : 0 < d → x mod d = 0 → x = x / d * d.
Proof. intros Hd Hx. pose proof (Z.div_mod x d). lia. Qed.

Lemma EndPort_eq k : wf_lpm k → EndPort k = DestPort k + 2 ^ (16 - PortPrefixLen k) - 1.
Proof.
  intros W. pose proof (wf_plen_range k W) as Hr. pose proof (PortPrefixLen_nonneg k).
  pose proof (lpm_port k (wf_lpm_ok k W)) as Hp.
  unfold EndPort. rewrite (ushr_lomask 16) by lia. rewrite uwrap_small; [lia|].
  pose proof (pow2_pos (16 - PortPrefixLen k) ltac:(lia)) as Hd.
  pose proof (aligned_eq _ _ Hd (wf_aligned k W)) as Ha.
  assert (E : 2 ^ 16 = 2 ^ PortPrefixLen k * 2 ^ (16 - PortPrefixLen k)).
  { rewrite <- Z.pow_add_r by lia. f_equal. lia. }
  unfold is_uint in *. rewrite E in *. rewrite Ha in Hp |- *.
  revert Hd Hp. generalize (2 ^ (16 - PortPrefixLen k)) (2 ^ PortPrefixLen k).
  intros d e Hd Hp. generalize dependent (DestPort k / d). intros q Hp. assert (0 ≤ q < e) by nia. nia.
Qed.

Lemma port_in_iff k p : wf_lpm k →
  port_in k p ↔ p / 2 ^ (16 - PortPrefixLen k) = DestPort k / 2 ^ (16 - PortPrefixLen k).
Proof.
  intros W. unfold port_in. rewrite EndPort_eq by done. pose proof (wf_plen_range k W) as Hr.
  pose proof (pow2_pos (16 - PortPrefixLen k) ltac:(lia)) as Hd.
  pose proof (aligned_eq _ _ Hd (wf_aligned k W)) as Ha.
  generalize dependent (2 ^ (16 - PortPrefixLen k)). intros d Hd Ha. split; intros Hp.
  - symmetry. apply (Z.div_unique _ _ _ (p - DestPort k)); lia.
  - pose proof (Z.div_mod p d). pose proof (Z.mod_pos_bound p d Hd). nia.
Qed.

(** The breadth of ports in terms of the masked ports. *)
Definition port_le (k c : LPMKey) : Prop :=
  PortPrefixLen k ≤ PortPrefixLen c ∧
  DestPort c / 2 ^ (16 - PortPrefixLen k) = DestPort k / 2 ^ (16 - PortPrefixLen k).

Lemma PortIsBroader_iff (k : LPMKey) (c : Key) : wf_lpm k → wf_lpm c →
  PortIsBroader k c = true ↔ PortPrefixLen k < PortPrefixLen c ∧ port_le k c.
Proof.
  intros W W'. pose proof (wf_plen_range k W) as Hr. unfold PortIsBroader, port_le.
  rewrite uwrap_small by (unfold is_uint; lia).
  rewrite (port_mask (DestPort c)) by (done || apply W').
  pose proof (pow2_pos (16 - PortPrefixLen k) ltac:(lia)) as Hd.
  pose proof (aligned_eq _ _ Hd (wf_aligned k W)) as Ha.
  rewrite andb_true_iff, Z.ltb_lt, Z.eqb_eq, Z.lxor_eq_0_iff.
  assert (DestPort k = DestPort c / 2 ^ (16 - PortPrefixLen k) * 2 ^ (16 - PortPrefixLen k) ↔
    DestPort c / 2 ^ (16 - PortPrefixLen k) = DestPort k / 2 ^ (16 - PortPrefixLen k)); [|lia].
  generalize dependent (2 ^ (16 - PortPrefixLen k)). intros d Hd Ha.
  split; intros E; [rewrite E; by rewrite Z.div_mul by lia|congruence].
Qed.

Lemma shifted_bits b : is_uint 8 b → ushl 8 b 1 = b mod 128 * 2.
Proof. intros. unfold ushl, uwrap, is_uint in *. simpl. rewrite Z.shiftl_mul_pow2 by lia. dlia. Qed.

Lemma PortIsEqual_iff (k : LPMKey) (c : Key) : lpm_ok k → lpm_ok c →
  PortIsEqual k c = true ↔ PortPrefixLen k = PortPrefixLen c ∧ DestPort k = DestPort c.
Proof.
  intros [Hb _ _] [Hb' _ _]. unfold PortIsEqual.
  rewrite andb_true_iff, !Z.eqb_eq, !shifted_bits, !PortPrefixLen_eq by done. lia.
Qed.

Lemma port_le_iff (k : LPMKey) (c : Key) : wf_lpm k → wf_lpm c →
  PortIsEqual k c || PortIsBroader k c = true ↔ port_le k c.
Proof.
  intros W W'. rewrite orb_true_iff, PortIsBroader_iff, PortIsEqual_iff by (done || apply wf_lpm_ok; done).
  unfold port_le. split; [intros [[-> ->]|]; [done|tauto]|]. intros [Hl E].
  destruct (decide (PortPrefixLen k = PortPrefixLen c)) as [E'|]; [left|right; split; [lia|done]].
  split; [done|]. pose proof (wf_plen_range k W) as Hr.
  pose proof (pow2_pos (16 - PortPrefixLen k) ltac:(lia)) as Hd.
  rewrite (aligned_eq (DestPort k) _ Hd), (aligned_eq (DestPort c) _ Hd), E;
    [done|rewrite E'; apply W'|apply W].
Qed.

(** A broader or equal port range is a superset. *)
Lemma port_le_subset k c : wf_lpm k → wf_lpm c →
  port_le k c ↔ ∀ p, port_in c p → port_in k p.
Proof.
  intros W W'. setoid_rewrite port_in_iff; try done.
  pose proof (wf_plen_range k W) as Hr. pose proof (wf_plen_range c W') as Hr'.
  pose proof (pow2_pos (16 - PortPrefixLen c) ltac:(lia)) as Hd'.
  split.
  - intros [Hl E] p Hp. rewrite <- E.
    replace (16 - PortPrefixLen k)
      with ((16 - PortPrefixLen c) + (PortPrefixLen c - PortPrefixLen k)) by lia.
    rewrite Z.pow_add_r, <- !Z.div_div by lia. by rewrite Hp.
  - intros Hs. pose proof (Hs (DestPort c) eq_refl) as E. split; [|done].
    destruct (decide (PortPrefixLen k ≤ PortPrefixLen c)) as [|Hn]; [done|]. exfalso.
    pose proof (aligned_eq _ _ Hd' (wf_aligned c W')) as Ha.
    set (d := 2 ^ (16 - PortPrefixLen k)) in *. set (e := 2 ^ (16 - PortPrefixLen c)) in *.
    assert (Hde : 0 < d ∧ d < e).
    { subst d e. split; [apply pow2_pos; lia|apply Z.pow_lt_mono_r; lia]. }
    assert (E2 : (DestPort c + (e - 1)) / d = DestPort k / d).
    { apply Hs. symmetry. apply (Z.div_unique _ _ _ (e - 1)); lia. }
    rewrite <- E2 in E.
    assert (Hm : DestPort c mod d = 0).
    { replace (DestPort c) with (DestPort c / e * (e / d) * d); [apply Z.mod_mul; lia|].
      assert (e = e / d * d); [|lia]. apply aligned_eq; [lia|]. subst d e.
      replace (16 - PortPrefixLen c)
        with ((PortPrefixLen k - PortPrefixLen c) + (16 - PortPrefixLen k)) by lia.
      rewrite Z.pow_add_r by lia. apply Z.mod_mul. lia. }
    clearbody d e. pose proof (Z.div_mod (DestPort c) d). pose proof (Z.div_mod (DestPort c + (e - 1)) d).
    pose proof (Z.mod_pos_bound (DestPort c + (e - 1)) d). nia.
Qed.

(** ** The prefix order *)

Lemma PrefixLength_le k : wf_lpm k → (PrefixLength k ≤ 25)%nat.
Proof.
  intros W. pose proof (wf_plen k W). unfold PrefixLength. destruct (_ =? _); lia.
Qed.

(** The bits a key is indexed by. *)
Definition key_bits (k : LPMKey) : list bool := bits (PrefixLength k) k.

(** Same direction, and protocol and ports broader or equal. *)
Definition lpm_le (k c : LPMKey) : Prop :=
  TrafficDirection k = TrafficDirection c ∧
  (Nexthdr k = 0 ∨ Nexthdr k = Nexthdr c ∧ port_le k c).

Lemma key_bits_prefix k c : wf_lpm k → wf_lpm c →
  key_bits k `prefix_of` key_bits c ↔ lpm_le k c.
Proof.
  intros W W'. pose proof (wf_lpm_ok k W) as Ok. pose proof (wf_lpm_ok c W') as Ok'.
  unfold key_bits. rewrite bits_prefix_iff by (done || by apply PrefixLength_le).
  unfold lpm_le, port_le, PrefixLength.
  pose proof (wf_plen_range k W) as Hr. pose proof (wf_plen_range c W') as Hr'.
  pose proof (LeadingZeros_lxor_ge 16 (DestPort k) (DestPort c) (PortPrefixLen k)
    ltac:(lia) (lpm_port k Ok) (lpm_port c Ok')) as HL.
  destruct (CommonPrefix_cases k c Ok Ok') as [[-> Hd]|(Hd & Hv & Hu & HC)].
  { split; [|tauto]. destruct (Nexthdr k =? 0); lia. }
  destruct (Z.eqb_spec (Nexthdr k) 0) as [E|E], (Z.eqb_spec (Nexthdr c) 0) as [E'|E'];
    destruct HC as [[Hlt ->]|(Hv8 & En & ->)]; try (split; [tauto|intros; split; lia]).
  - split; [lia|]. intros [_ [?|[? _]]]; lia.
  - lia.
  - split; [lia|]. intros [_ [?|[Ek _]]]; [lia|]. exfalso.
    rewrite Ek, Z.lxor_nilpotent in Hlt. by apply (Z.lt_irrefl 8) in Hlt.
  - split.
    + intros [H1 H2]. split; [done|]. right. split; [done|]. split; [lia|].
      symmetry. apply HL. lia.
    + intros [_ [?|(_ & H1 & H2)]]; [done|]. symmetry in H2. apply HL in H2. lia.
Qed.

Lemma lpm_le_antisym k c : wf_lpm k → wf_lpm c → lpm_le k c → lpm_le c k → k = c.
Proof.
  intros W W' [Hd H1] [_ H2].
  assert (Hn : Nexthdr k = Nexthdr c) by (destruct H1 as [E|[]], H2 as [E'|[]]; congruence).
  assert (HP : PortPrefixLen k = PortPrefixLen c ∧ DestPort k = DestPort c).
  { pose proof (wf_any k W) as A. pose proof (wf_any c W') as A'.
    destruct (decide (Nexthdr k = 0)) as [E|E].
    - rewrite A, A' by congruence. split; [done|].
      pose proof (wf_aligned k W) as B. pose proof (wf_aligned c W') as B'.
      rewrite A in B by congruence. rewrite A' in B' by congruence.
      pose proof (lpm_port k (wf_lpm_ok k W)) as U. pose proof (lpm_port c (wf_lpm_ok c W')) as U'.
      change (2 ^ (16 - 0)) with (2 ^ 16) in B, B'.
      rewrite Z.mod_small in B, B' by done. congruence.
    - destruct H1 as [|[_ [L E1]]], H2 as [|[_ [L' _]]]; try congruence.
      assert (EP : PortPrefixLen k = PortPrefixLen c) by lia. split; [done|].
      pose proof (wf_plen_range k W) as Hr.
      pose proof (pow2_pos (16 - PortPrefixLen k) ltac:(lia)) as Hp.
      rewrite (aligned_eq (DestPort k) _ Hp), (aligned_eq (DestPort c) _ Hp), E1;
        [done|rewrite EP; apply W'|apply W]. }
  destruct HP. by apply LPMKey_eq.
Qed.

Lemma key_bits_inj k c : wf_lpm k → wf_lpm c → key_bits k = key_bits c → k = c.
Proof.
  intros W W' E. apply lpm_le_antisym; try done; apply key_bits_prefix; try done; by rewrite E.
Qed.

Lemma lpm_le_refl k : lpm_le k k.
Proof. split; [done|right]. by split. Qed.

Lemma lpm_le_trans a b c : wf_lpm a → wf_lpm b → wf_lpm c →
  lpm_le a b → lpm_le b c → lpm_le a c.
Proof.
  intros Wa Wb Wc Hab Hbc. apply key_bits_prefix; try done.
  apply key_bits_prefix in Hab, Hbc; try done. by etrans.
Qed.

(** Broader keys of a common narrower key are comparable. *)
Lemma lpm_le_total a b c : wf_lpm a → wf_lpm b → wf_lpm c →
  lpm_le a c → lpm_le b c → lpm_le a b ∨ lpm_le b a.
Proof.
  intros Wa Wb Wc Hac Hbc. rewrite <- !key_bits_prefix by done.
  apply key_bits_prefix in Hac, Hbc; try done.
  destruct (prefix_weak_total _ _ _ Hac Hbc); tauto.
Qed.

(** Without a protocol on the narrower side, the broader key has none either. *)
Lemma lpm_le_any k c : wf_lpm k → wf_lpm c → Nexthdr k = 0 →
  lpm_le k c ↔ TrafficDirection k = TrafficDirection c.
Proof. unfold lpm_le. tauto. Qed.

Lemma any_port_le k c : wf_lpm k → wf_lpm c → Nexthdr k = 0 → port_le k c.
Proof.
  intros W W' E. unfold port_le. rewrite (wf_any k W E). pose proof (PortPrefixLen_nonneg c).
  split; [lia|]. change (2 ^ (16 - 0)) with (2 ^ 16).
  pose proof (lpm_port k (wf_lpm_ok k W)). pose proof (lpm_port c (wf_lpm_ok c W')).
  by rewrite !Z.div_small.
Qed.

Lemma Covers_iff (k c : Key) : wf_key k → wf_key c → TrafficDirection k = TrafficDirection c →
  Covers k c = true ↔ (Identity k = 0 ∨ Identity k = Identity c) ∧ lpm_le k c.
Proof.
  intros [W _] [W' _] Hd. unfold Covers, lpm_le.
  rewrite !andb_true_iff, port_le_iff, !orb_true_iff, !Z.eqb_eq by done.
  pose proof (any_port_le k c W W'). tauto.
Qed.

(** ** Constructors *)

Lemma direction_byte k n : is_uint 7 n →
  let b := Z.lor (Z.land (bits_ k) directionBitMask) n in
  lpm_ok k → b = TrafficDirection k * 128 + n.
Proof.
  intros Hn b [Hb _ _]. subst b.
  assert (E : Z.land (bits_ k) directionBitMask = TrafficDirection k * 2 ^ 7).
  { rewrite TrafficDirection_eq. change directionBitMask with (2 ^ 8 - 2 ^ 7).
    rewrite land_himask by (done || lia). done. }
  rewrite E, lor_low_add by (done || lia). done.
Qed.

Lemma rebuilt_key k proto port n id :
  lpm_ok k → is_uint 7 n →
  let k' := mkKey (mkLPMKey (Z.lor (Z.land (bits_ k) directionBitMask) n) proto port) id in
  TrafficDirection k' = TrafficDirection k ∧ PortPrefixLen k' = n ∧ is_uint 8 (bits_ k').
Proof.
  intros Ok Hn. simpl. rewrite direction_byte, TrafficDirection_eq, PortPrefixLen_eq by done.
  pose proof (TrafficDirection_range k Ok). simpl. unfold is_uint in *. dlia.
Qed.

(** The port prefix a key is built with: out-of-range lengths, and length 0 with
    a port, stand for the single port. *)
Definition effective_len (port prefixLen : Z) : Z :=
  if (16 <? prefixLen) || negb (port =? 0) && (prefixLen =? 0) then 16 else prefixLen.

Lemma effective_len_range port prefixLen : is_uint 8 prefixLen →
  0 ≤ effective_len port prefixLen ≤ 16.
Proof.
  unfold is_uint, effective_len. intros H.
  destruct (Z.ltb_spec 16 prefixLen), (port =? 0), (Z.eqb_spec prefixLen 0); simpl; lia.
Qed.

Lemma WithPortProtoPrefix_wf k proto port prefixLen :
  wf_key k → is_uint 8 proto → is_uint 16 port → is_uint 8 prefixLen →
  (proto = 0 → port = 0 ∧ prefixLen = 0) →
  wf_key (WithPortProtoPrefix k proto port prefixLen) ∧
  TrafficDirection (WithPortProtoPrefix k proto port prefixLen) = TrafficDirection k ∧
  PortPrefixLen (WithPortProtoPrefix k proto port prefixLen) = effective_len port prefixLen ∧
  DestPort (WithPortProtoPrefix k proto port prefixLen) =
    port / 2 ^ (16 - effective_len port prefixLen) * 2 ^ (16 - effective_len port prefixLen).
Proof.
  intros [W Wi] Hp HP HL Hany. unfold WithPortProtoPrefix, WithPortPrefix.
  fold (effective_len port prefixLen). pose proof (effective_len_range port prefixLen HL) as Hr.
  rewrite port_mask by (done || lia).
  destruct (rebuilt_key (WithProto k proto) proto
    (port / 2 ^ (16 - effective_len port prefixLen) * 2 ^ (16 - effective_len port prefixLen))
    (effective_len port prefixLen) (Identity k)) as (E1 & E2 & E3).
  { constructor; simpl; try done; apply (wf_lpm_ok k W). }
  { unfold is_uint; lia. }
  cbn [WithProto Identity Nexthdr Key_LPMKey bits_] in *. split; [|split; [exact E1|split; [exact E2|done]]].
  pose proof (pow2_pos (16 - effective_len port prefixLen) ltac:(lia)) as Hd.
  constructor; [|done]. cbn [Key_LPMKey].
  constructor; [constructor|rewrite E2; lia|rewrite E2|]; cbn [bits_ Nexthdr DestPort].
  - exact E3.
  - done.
  - unfold is_uint in *. generalize dependent (2 ^ (16 - effective_len port prefixLen)).
    intros d Hd. pose proof (Z.div_mod port d). pose proof (Z.mod_pos_bound port d). pose proof (Z.div_pos port d). nia.
  - apply Z.mod_mul. lia.
  - intros E. destruct (Hany E) as [-> ->]. exact E2.
Qed.

(** ** Properties *)

(** A packet as the policy sees it. *)
Record traffic := mkTraffic { t_direction : Z; t_identity : Z; t_proto : Z; t_port : Z }.

Definition traffic_ok (t : traffic) : Prop :=
  0 < t_identity t < 2 ^ 32 ∧ 0 < t_proto t < 2 ^ 8 ∧ is_uint 16 (t_port t).

(** What a key matches: identity 0 and protocol 0 are wildcards. *)
Definition key_matches (k : Key) (t : traffic) : Prop :=
  TrafficDirection k = t_direction t ∧
  (Identity k = 0 ∨ Identity k = t_identity t) ∧
  (Nexthdr k = 0 ∨ Nexthdr k = t_proto t) ∧
  port_in k (t_port t).

Lemma port_in_nonempty k : wf_lpm k → port_in k (DestPort k) ∧ is_uint 16 (DestPort k).
Proof. intros W. split; [by apply port_in_iff|apply W]. Qed.

Lemma port_in_uint k p : wf_lpm k → port_in k p → is_uint 16 p.
Proof.
  intros W [H1 H2]. pose proof (lpm_port k (wf_lpm_ok k W)) as H3. unfold is_uint in *.
  assert (EndPort k < 2 ^ 16) by (apply Z.mod_pos_bound; lia). lia.
Qed.

(** A value a field of [c] accepts, avoiding [x] where it can. *)
Definition pick (c x : Z) : Z := if c =? 0 then (if x =? 1 then 2 else 1) else c.

Lemma pick_spec w c x : 2 ≤ w → is_uint w c →
  0 < pick c x < 2 ^ w ∧ (c = 0 ∨ c = pick c x) ∧ (x ≠ 0 → x = pick c x → x = c).
Proof.
  intros Hw Hc. unfold pick, is_uint in *. pose proof (Z.pow_le_mono_r 2 2 w ltac:(lia) Hw).
  destruct (Z.eqb_spec c 0), (Z.eqb_spec x 1); simpl in *; lia.
Qed.

(** C33. [Covers] is containment of traffic: on well-formed keys of one
    direction, [k] covers [c] exactly when every packet [c] matches is matched
    by [k]. *)
Theorem Covers_iff_matches (k c : Key) :
  wf_key k → wf_key c → TrafficDirection k = TrafficDirection c →
  Covers k c = true ↔ ∀ t, traffic_ok t → key_matches c t → key_matches k t.
Proof.
  intros W W' Hd. rewrite Covers_iff by done. pose proof (wf_key_lpm k W) as WL.
  pose proof (wf_key_lpm c W') as WL'. split.
  - intros [Hi [_ Hl]] t (Ht & Ht' & _) (M1 & M2 & M3 & M4).
    unfold key_matches. rewrite Hd. split; [done|].
    assert (HP : port_le k c) by (destruct Hl as [|[]]; [by apply any_port_le|done]).
    split; [|split; [|by apply (port_le_subset k c)]].
    + destruct Hi as [?| ->]; tauto.
    + destruct Hl as [|[-> _]]; tauto.
  - intros HM. destruct (port_in_nonempty c WL') as [P1 P2].
    pose proof (lpm_proto c (wf_lpm_ok c WL')) as Hpr.
    destruct (pick_spec 32 (Identity c) (Identity k) ltac:(lia) (wf_identity c W')) as (I1 & I2 & I3).
    destruct (pick_spec 8 (Nexthdr c) (Nexthdr k) ltac:(lia) Hpr) as (N1 & N2 & N3).
    assert (HM' : ∀ p, port_in c p → key_matches k (mkTraffic (TrafficDirection c)
      (pick (Identity c) (Identity k)) (pick (Nexthdr c) (Nexthdr k)) p)).
    { intros p Hp. apply HM; [|done]. split; [done|]. split; [done|]. by apply (port_in_uint c). }
    destruct (HM' _ P1) as (_ & A & B & _); simpl in *.
    split; [destruct (decide (Identity k = 0)); tauto|]. split; [done|]. destruct (decide (Nexthdr k = 0)); [tauto|right].
    split; [tauto|]. apply port_le_subset; try done. intros p Hp. by apply (HM' p).
Qed.

Definition key_a : Key := WithTCPPortPrefix (WithIdentity IngressKey 0) 80 12.
Definition key_b : Key := WithTCPPort (WithIdentity IngressKey 1234) 81.

Lemma IngressKey_wf : wf_key IngressKey.
Proof. repeat split; vm_compute; congruence. Qed.

Lemma wf_key_a : wf_key key_a.
Proof. repeat split; vm_compute; congruence. Qed.
Lemma wf_key_b : wf_key key_b.
Proof. repeat split; vm_compute; congruence. Qed.

Lemma Covers_iff_matches_witness :
  Covers key_a key_b = true ∧ ∀ t, traffic_ok t → key_matches key_b t → key_matches key_a t.
Proof.
  split; [reflexivity|].
  apply (Covers_iff_matches key_a key_b wf_key_a wf_key_b eq_refl). reflexivity.
Defined.

(** The trie order is the breadth order: the index bits of a key are a
    prefix of those of another exactly when the directions agree and the first
    key's protocol and ports are equal to or broader than the second's; keys with
    the same index bits are equal. *)
Theorem key_prefix_iff_broader (k c : Key) :
  wf_lpm k → wf_lpm c →
  (bits (PrefixLength k) (Key_LPMKey k) `prefix_of` bits (PrefixLength c) (Key_LPMKey c) ↔
     TrafficDirection k = TrafficDirection c ∧
     (PortProtoIsEqual k c || PortProtoIsBroader k c = true)) ∧
  (bits (PrefixLength k) (Key_LPMKey k) = bits (PrefixLength c) (Key_LPMKey c) ↔
     Key_LPMKey k = Key_LPMKey c).
Proof.
  intros W W'. split; [|split; [by apply key_bits_inj|by intros ->]].
  fold (key_bits k) (key_bits c). rewrite key_bits_prefix by done. unfold lpm_le.
  apply and_iff_compat_l. unfold PortProtoIsEqual, PortProtoIsBroader.
  pose proof (port_le_iff k c W W') as HP. pose proof (any_port_le k c W W') as HA.
  rewrite !orb_true_iff, !andb_true_iff, negb_true_iff, !Z.eqb_eq, Z.eqb_neq.
  rewrite orb_true_iff in HP. destruct (decide (Nexthdr c = 0)); intuition congruence.
Qed.

Lemma key_prefix_iff_broader_witness :
  bits (PrefixLength key_a) (Key_LPMKey key_a) `prefix_of`
    bits (PrefixLength key_b) (Key_LPMKey key_b).
Proof.
  apply (key_prefix_iff_broader key_a key_b (wf_key_lpm _ wf_key_a) (wf_key_lpm _ wf_key_b)).
  split; reflexivity.
Defined.

(** A key built for a port and prefix length keeps the direction and
    identity, is well-formed, and matches exactly the ports sharing that many
    leading bits, or the single port when the length is 0 or above 16. *)
Theorem WithPortProtoPrefix_ports (k : Key) (proto port prefixLen p : Z) :
  wf_key k → is_uint 8 proto → is_uint 16 port → is_uint 8 prefixLen →
  (proto = 0 → port = 0 ∧ prefixLen = 0) →
  let k' := WithPortProtoPrefix k proto port prefixLen in
  wf_key k' ∧ TrafficDirection k' = TrafficDirection k ∧ Identity k' = Identity k ∧
  Nexthdr k' = proto ∧
  (port_in k' p ↔
     if (16 <? prefixLen) || negb (port =? 0) && (prefixLen =? 0) then p = port
     else p / 2 ^ (16 - prefixLen) = port / 2 ^ (16 - prefixLen)).
Proof.
  intros W Hp HP HL Hany k'.
  destruct (WithPortProtoPrefix_wf k proto port prefixLen W Hp HP HL Hany) as (W' & E1 & E2 & E3).
  split; [done|]. split; [done|]. split; [done|]. split; [done|].
  rewrite (port_in_iff k' p (wf_key_lpm _ W')). subst k'. rewrite E2, E3.
  pose proof (effective_len_range port prefixLen HL) as Hr.
  rewrite Z.div_mul by (pose proof (pow2_pos (16 - effective_len port prefixLen)); lia).
  unfold effective_len. destruct (_ || _); [|done]. by rewrite !Z.div_1_r.
Qed.

Lemma WithPortProtoPrefix_ports_witness :
  DestPort (WithPortProtoPrefix EgressKey TCP 8083 14) = 8080 ∧
  port_in (WithPortProtoPrefix EgressKey TCP 8083 14) 8081.
Proof.
  split; [reflexivity|].
  apply (WithPortProtoPrefix_ports EgressKey TCP 8083 14 8081);
    [repeat split; vm_compute; congruence|done..|reflexivity].
Defined.

(** [Covers] does not look at the direction. *)
Lemma Covers_ignores_direction : Covers IngressKey EgressKey = true.
Proof. reflexivity. Qed.
