(* ===== verification/PortRange.v ===== *)
(** * Port ranges as masked ports

    Model of [src/pkg/policy/portrange.go] and of [keysForRange] of
    [src/pkg/policy/l4.go]: a port range becomes a list of masked ports, each of
    which is one policy map key. *)

From S2P Require Import Prelude BitLPM PolicyKey.

Local Open Scope Z_scope.

(** ** Operations *)

Record MaskedPort := mkMaskedPort { mp_port : Z; mp_mask : Z }.

Definition maskedPort (port wildcardBits : Z) : MaskedPort :=
  let mask := ushl 16 65535 wildcardBits in
  mkMaskedPort (Z.land port mask) mask.

(** The two loops from [bit] up to the middle bit, [n] iterations away. *)
Fixpoint start_loop (n : nat) (start bit : Z) : list MaskedPort :=
  match n with
  | O => []
  | S n =>
      (if Z.land start (ushl 16 1 bit) =? 0
       then [maskedPort (uwrap 16 (start + ushl 16 1 bit)) bit] else [])
      ++ start_loop n start (bit + 1)
  end.

Fixpoint end_loop (n : nat) (end_ bit : Z) : list MaskedPort :=
  match n with
  | O => []
  | S n =>
      (if negb (Z.land end_ (ushl 16 1 bit) =? 0)
       then [maskedPort (uwrap 16 (end_ - ushl 16 1 bit)) bit] else [])
      ++ end_loop n end_ (bit + 1)
  end.

Definition PortRangeToMaskedPorts (start end_ : Z) : list MaskedPort :=
  if (start =? 0) && ((end_ =? 0) || (end_ =? 65535)) then [mkMaskedPort 0 0]
  else if end_ <=? start then [mkMaskedPort start 65535]
  else
    let commonBits := LeadingZeros 16 (Z.lxor start end_) in
    let mask := ushr 16 65535 commonBits in
    if (Z.land start mask =? 0) && (Z.land (unot 16 end_) mask =? 0)
    then [maskedPort start (16 - commonBits)]
    else
      let middleBit := 16 - 1 - commonBits in
      let middle := ushl 16 1 middleBit in
      let bit := TrailingZeros 16 (Z.lor start middle) in
      let bit' := TrailingZeros 16 (Z.lor (unot 16 end_) middle) in
      ([maskedPort start bit] ++ start_loop (Z.to_nat (middleBit - (bit + 1))) start (bit + 1))
      ++ ([maskedPort end_ bit'] ++ end_loop (Z.to_nat (middleBit - (bit' + 1))) end_ (bit' + 1)).

Definition keysForRange (key : Key) (port endPort : Z) : list Key :=
  if (port =? 0) || (endPort <=? port) then [key]
  else
    (λ mp, WithPortPrefix key (mp_port mp) (uwrap 8 (LeadingZeros 16 (unot 16 (mp_mask mp)))))
      <$> PortRangeToMaskedPorts port endPort.

(** ** Counting matches *)

Definition mp_matches (p : Z) (m : MaskedPort) : Prop := Z.land p (mp_mask m) = mp_port m.
#[export] Instance mp_matches_dec p m : Decision (mp_matches p m) := decide (_ = _).

(** How many of the masked ports match [p]. *)
Definition hits (p : Z) (l : list MaskedPort) : nat := length (filter (mp_matches p) l).

(** 1 within [[a, b)], 0 elsewhere. *)
Definition ind (a b p : Z) : nat := if decide (a ≤ p < b) then 1 else 0.

Lemma ind_app a b c p : a ≤ b ≤ c → (ind a b p + ind b c p)%nat = ind a c p.
Proof. intros. unfold ind. repeat case_decide; lia. Qed.

Lemma ind_empty a p : ind a a p = 0%nat.
Proof. unfold ind. case_decide; lia. Qed.

Lemma hits_app p l l' : hits p (l ++ l') = (hits p l + hits p l')%nat.
Proof. unfold hits. by rewrite filter_app, length_app. Qed.

Lemma hits_masked p x n : is_uint 16 p → is_uint 16 x → 0 ≤ n ≤ 16 →
  hits p [maskedPort x n] = ind (x / 2 ^ n * 2 ^ n) ((x / 2 ^ n + 1) * 2 ^ n) p.
Proof.
  intros Hp Hx Hn. unfold hits, ind, maskedPort. rewrite filter_cons, filter_nil. simpl.
  rewrite (port_mask x) by done. unfold mp_matches; simpl.
  assert (HE : Z.land p (ushl 16 65535 n) = x / 2 ^ n * 2 ^ n ↔
    x / 2 ^ n * 2 ^ n ≤ p < (x / 2 ^ n + 1) * 2 ^ n).
  { rewrite port_mask by done. pose proof (pow2_pos n ltac:(lia)) as Hd.
    generalize dependent (2 ^ n). intros d Hd.
    pose proof (Z.div_mod p d). pose proof (Z.mod_pos_bound p d Hd). split.
    - intros E. assert (p / d = x / d) by nia. nia.
    - intros E. assert (p / d < x / d + 1) by nia. assert (x / d < p / d + 1) by nia.
      f_equal. lia. }
  repeat case_decide; tauto || done.
Qed.

Lemma div_pow2_succ x b : 0 ≤ b →
  x / 2 ^ b = 2 * (x / 2 ^ (b + 1)) + Z.b2z (Z.testbit x b).
Proof.
  intros Hb. rewrite Z.pow_add_r, <- Z.div_div by (pose proof (pow2_pos b); lia).
  rewrite Z.testbit_spec' by done. change (2 ^ 1) with 2. dlia.
Qed.

Lemma land_pow2_bit x b : 0 ≤ b < 16 →
  (Z.land x (ushl 16 1 b) =? 0) = negb (Z.testbit x b).
Proof.
  intros Hb. unfold ushl. rewrite (proj2 (Z.ltb_lt b 16)), Z.shiftl_1_l by lia.
  rewrite uwrap_small by (apply is_uint_pow2; lia).
  destruct (Z.testbit x b) eqn:E; simpl.
  - apply Z.eqb_neq. intros E0. apply (f_equal (λ y, Z.testbit y b)) in E0.
    by rewrite Z.land_spec, E, Z.pow2_bits_true, Z.bits_0 in E0 by lia.
  - apply Z.eqb_eq, Z.bits_inj'. intros j Hj.
    rewrite Z.land_spec, Z.pow2_bits_eqb, Z.bits_0 by lia.
    destruct (Z.eqb_spec b j) as [<-|]; [by rewrite E|apply andb_false_r].
Qed.

Lemma ushl_bit b : 0 ≤ b < 16 → ushl 16 1 b = 2 ^ b.
Proof.
  intros Hb. unfold ushl. rewrite (proj2 (Z.ltb_lt b 16)), Z.shiftl_1_l by lia.
  apply uwrap_small, is_uint_pow2. lia.
Qed.

Lemma land_pow2_clear x b : 0 ≤ b → Z.testbit x b = false → Z.land x (2 ^ b) = 0.
Proof.
  intros Hb E. apply Z.bits_inj'. intros j Hj. rewrite Z.land_spec, Z.pow2_bits_eqb, Z.bits_0 by lia.
  destruct (Z.eqb_spec b j) as [<-|]; [by rewrite E|apply andb_false_r].
Qed.

(** Adding a clear bit, or subtracting a set one, stays in range and moves to the
    neighbouring block. *)
Lemma add_clear_bit x b : 0 ≤ b < 16 → is_uint 16 x → Z.testbit x b = false →
  uwrap 16 (x + 2 ^ b) = x + 2 ^ b ∧ is_uint 16 (x + 2 ^ b) ∧ (x + 2 ^ b) / 2 ^ b = x / 2 ^ b + 1.
Proof.
  intros Hb Hx E. assert (HU : is_uint 16 (x + 2 ^ b)).
  { rewrite Z.add_nocarry_lxor by (apply land_pow2_clear; lia || done).
    apply lxor_uint; [lia|done|apply is_uint_pow2; lia]. }
  split; [by apply uwrap_small|]. split; [done|]. pose proof (pow2_pos b).
  replace (x + 2 ^ b) with (x + 1 * 2 ^ b) by lia. rewrite Z.div_add; lia.
Qed.

Lemma sub_set_bit x b : 0 ≤ b < 16 → is_uint 16 x → Z.testbit x b = true →
  uwrap 16 (x - 2 ^ b) = x - 2 ^ b ∧ is_uint 16 (x - 2 ^ b) ∧ (x - 2 ^ b) / 2 ^ b = x / 2 ^ b - 1.
Proof.
  intros Hb Hx E. pose proof (pow2_pos b ltac:(lia)) as Hd.
  assert (HU : is_uint 16 (x - 2 ^ b)).
  { pose proof (div_pow2_succ x b ltac:(lia)) as ED. rewrite E in ED. simpl in ED.
    unfold is_uint in *. assert (0 ≤ x / 2 ^ (b + 1)) by (apply Z.div_pos; [lia|apply pow2_pos; lia]).
    pose proof (Z.mul_div_le x (2 ^ b) Hd). nia. }
  split; [by apply uwrap_small|]. split; [done|].
  replace (x - 2 ^ b) with (x + (-1) * 2 ^ b) by lia. rewrite Z.div_add; lia.
Qed.

(** Blocks of a number grow with the bit. *)
Lemma block_end_mono x b n : 0 ≤ b → 0 ≤ n →
  (x / 2 ^ b + 1) * 2 ^ b ≤ (x / 2 ^ (b + n) + 1) * 2 ^ (b + n).
Proof.
  intros Hb Hn. rewrite (Z.pow_add_r 2 b), <- Z.div_div by (pose proof (pow2_pos b); pose proof (pow2_pos n); lia).
  pose proof (pow2_pos b Hb) as Hd. pose proof (pow2_pos n Hn) as He.
  generalize dependent (2 ^ b). intros d. generalize (x / d). intros q.
  generalize dependent (2 ^ n). intros e He Hd.
  pose proof (Z.div_mod q e). pose proof (Z.mod_pos_bound q e He). nia.
Qed.

Lemma block_start_mono x b n : 0 ≤ b → 0 ≤ n →
  x / 2 ^ (b + n) * 2 ^ (b + n) ≤ x / 2 ^ b * 2 ^ b.
Proof.
  intros Hb Hn. rewrite (Z.pow_add_r 2 b), <- Z.div_div by (pose proof (pow2_pos b); pose proof (pow2_pos n); lia).
  pose proof (pow2_pos b Hb) as Hd. pose proof (pow2_pos n Hn) as He.
  generalize dependent (2 ^ b). intros d. generalize (x / d). intros q.
  generalize dependent (2 ^ n). intros e He Hd.
  pose proof (Z.div_mod q e). pose proof (Z.mod_pos_bound q e He). nia.
Qed.

(** [start_loop] covers what lies between the end of the block of [start] at the
    current bit and the end of its block at the last one. *)
Lemma hits_start_loop p start n bit : is_uint 16 p → is_uint 16 start →
  0 ≤ bit → bit + Z.of_nat n ≤ 16 →
  hits p (start_loop n start bit) =
    ind ((start / 2 ^ bit + 1) * 2 ^ bit)
        ((start / 2 ^ (bit + Z.of_nat n) + 1) * 2 ^ (bit + Z.of_nat n)) p.
Proof.
  intros Hp Hs. revert bit. induction n as [|n IH]; intros bit Hb Hn.
  { rewrite Z.add_0_r, ind_empty. done. }
  cbn [start_loop]. rewrite hits_app, IH by lia.
  pose proof (block_end_mono start (bit + 1) (Z.of_nat n) ltac:(lia) ltac:(lia)) as Hge.
  replace (bit + 1 + Z.of_nat n) with (bit + Z.of_nat (S n)) in * by lia.
  rewrite land_pow2_bit, ushl_bit by lia.
  pose proof (pow2_pos bit Hb) as Hd. pose proof (div_pow2_succ start bit Hb) as ED.
  assert (E2 : 2 ^ (bit + 1) = 2 * 2 ^ bit) by (rewrite Z.pow_add_r by lia; lia).
  rewrite E2 in Hge |- *. rewrite E2 in ED. destruct (Z.testbit start bit) eqn:E; simpl in ED |- *.
  - rewrite ED. simpl. f_equal; lia.
  - destruct (add_clear_bit start bit) as (-> & HU & EQ); try (done || lia).
    rewrite hits_masked, EQ by (done || lia).
    rewrite <- (ind_app ((start / 2 ^ bit + 1) * 2 ^ bit)
      ((start / (2 * 2 ^ bit) + 1) * (2 * 2 ^ bit))
      ((start / 2 ^ (bit + Z.of_nat (S n)) + 1) * 2 ^ (bit + Z.of_nat (S n)))) by (rewrite ED; lia).
    f_equal. f_equal. rewrite ED. ring.
Qed.

Lemma hits_end_loop p end_ n bit : is_uint 16 p → is_uint 16 end_ →
  0 ≤ bit → bit + Z.of_nat n ≤ 16 →
  hits p (end_loop n end_ bit) =
    ind (end_ / 2 ^ (bit + Z.of_nat n) * 2 ^ (bit + Z.of_nat n)) (end_ / 2 ^ bit * 2 ^ bit) p.
Proof.
  intros Hp Hs. revert bit. induction n as [|n IH]; intros bit Hb Hn.
  { rewrite Z.add_0_r, ind_empty. done. }
  cbn [end_loop]. rewrite hits_app, IH by lia.
  pose proof (block_start_mono end_ (bit + 1) (Z.of_nat n) ltac:(lia) ltac:(lia)) as Hge.
  replace (bit + 1 + Z.of_nat n) with (bit + Z.of_nat (S n)) in * by lia.
  rewrite land_pow2_bit, ushl_bit by lia.
  pose proof (pow2_pos bit Hb) as Hd. pose proof (div_pow2_succ end_ bit Hb) as ED.
  assert (E2 : 2 ^ (bit + 1) = 2 * 2 ^ bit) by (rewrite Z.pow_add_r by lia; lia).
  rewrite E2 in Hge |- *. rewrite E2 in ED. destruct (Z.testbit end_ bit) eqn:E; simpl in ED |- *.
  - destruct (sub_set_bit end_ bit) as (-> & HU & EQ); try (done || lia).
    rewrite hits_masked, EQ, Nat.add_comm by (done || lia).
    rewrite <- (ind_app _ (end_ / (2 * 2 ^ bit) * (2 * 2 ^ bit)) (end_ / 2 ^ bit * 2 ^ bit))
      by (rewrite ED; lia).
    f_equal. f_equal; rewrite ED; ring.
  - rewrite ED. simpl. f_equal; lia.
Qed.

(** ** The two sides of the middle *)

Lemma unot_mod w x : 0 ≤ w → is_uint w x → unot w x = Z.lnot x mod 2 ^ w.
Proof.
  intros Hw Hx. unfold unot, is_uint in *. apply (Z.mod_unique _ _ (-1)); [lia|].
  unfold Z.lnot. lia.
Qed.

Lemma unot_bit w x i : is_uint w x → 0 ≤ i < w → Z.testbit (unot w x) i = negb (Z.testbit x i).
Proof.
  intros Hx Hi. rewrite unot_mod, Z.mod_pow2_bits_low by (done || lia). apply Z.lnot_spec. lia.
Qed.

Lemma low_clear_mod x t : 0 ≤ t → (∀ i, 0 ≤ i < t → Z.testbit x i = false) → x mod 2 ^ t = 0.
Proof.
  intros Ht Hx. apply Z.bits_inj'. intros i Hi. rewrite Z.bits_0.
  destruct (decide (i < t)).
  - rewrite Z.mod_pow2_bits_low by lia. apply Hx. lia.
  - apply Z.mod_pow2_bits_high. lia.
Qed.

(** The trailing zeros counted up to the middle bit. *)
Lemma trailing_below y M : is_uint 16 y → 0 ≤ M < 16 →
  let t := TrailingZeros 16 (Z.lor y (2 ^ M)) in
  0 ≤ t ≤ M ∧ y mod 2 ^ t = 0 ∧ (t < M → Z.testbit y t = true).
Proof.
  intros Hy HM t. pose proof (TrailingZeros_nonneg 16 (Z.lor y (2 ^ M)) ltac:(lia)) as Ht.
  assert (Hpos : 0 < Z.lor y (2 ^ M)).
  { assert (0 ≤ Z.lor y (2 ^ M)) by (apply Z.lor_nonneg; pose proof (pow2_pos M); unfold is_uint in Hy; lia).
    assert (Z.lor y (2 ^ M) ≠ 0); [|lia]. rewrite Z.lor_eq_0_iff. pose proof (pow2_pos M). lia. }
  pose proof (TrailingZeros_bit 16 _ Hpos) as Hb. pose proof (λ i, TrailingZeros_below 16 _ i Hpos) as Hl.
  fold t in Ht, Hb, Hl. setoid_rewrite Z.lor_spec in Hl. rewrite Z.lor_spec in Hb.
  assert (HtM : t ≤ M).
  { destruct (decide (t ≤ M)); [done|]. pose proof (Hl M ltac:(lia)) as HF.
    rewrite Z.pow2_bits_true, orb_true_r in HF by lia. done. }
  split; [done|]. split.
  - apply low_clear_mod; [done|]. intros i Hi. apply (orb_false_elim _ _ (Hl i Hi)).
  - intros Hlt. rewrite Z.pow2_bits_false, orb_false_r in Hb by lia. done.
Qed.

Lemma hits_left p start M : is_uint 16 p → is_uint 16 start → 0 ≤ M < 16 →
  let t := TrailingZeros 16 (Z.lor start (2 ^ M)) in
  hits p ([maskedPort start t] ++ start_loop (Z.to_nat (M - (t + 1))) start (t + 1)) =
    ind start ((start / 2 ^ M + 1) * 2 ^ M) p.
Proof.
  intros Hp Hs HM t. destruct (trailing_below start M Hs HM) as (Ht & Hm & Hb). fold t in Ht, Hm, Hb.
  pose proof (pow2_pos t ltac:(lia)) as Hd. pose proof (aligned_eq _ _ Hd Hm) as Ha.
  rewrite hits_app, hits_masked by (done || lia). rewrite <- Ha.
  destruct (decide (t < M)) as [HtM|HtM].
  - rewrite hits_start_loop by (done || lia).
    replace (t + 1 + Z.of_nat (Z.to_nat (M - (t + 1)))) with M by lia.
    pose proof (block_end_mono start (t + 1) (M - (t + 1)) ltac:(lia) ltac:(lia)) as Hge.
    replace (t + 1 + (M - (t + 1))) with M in Hge by lia.
    pose proof (div_pow2_succ start t ltac:(lia)) as ED. rewrite (Hb HtM) in ED. simpl in ED.
    assert (E : (start / 2 ^ (t + 1) + 1) * 2 ^ (t + 1) = (start / 2 ^ t + 1) * 2 ^ t).
    { rewrite ED, Z.pow_add_r by lia. ring. }
    rewrite E in *. apply ind_app. lia.
  - replace (Z.to_nat (M - (t + 1))) with 0%nat by lia. replace t with M by lia.
    unfold hits at 1; simpl. lia.
Qed.

Lemma unot_aligned x t : is_uint 16 x → 0 ≤ t ≤ 16 → unot 16 x mod 2 ^ t = 0 →
  (x / 2 ^ t + 1) * 2 ^ t = x + 1.
Proof.
  intros Hx Ht Hm. pose proof (pow2_pos t ltac:(lia)) as Hd.
  pose proof (aligned_eq _ _ Hd Hm) as Ha. unfold unot in Ha.
  assert (E : 2 ^ 16 = 2 ^ (16 - t) * 2 ^ t) by (rewrite <- Z.pow_add_r by lia; f_equal; lia).
  set (k := 2 ^ (16 - t) - (2 ^ 16 - 1 - x) / 2 ^ t) in *.
  assert (Hk : x = k * 2 ^ t - 1) by (subst k; rewrite E in *; lia).
  assert (x / 2 ^ t = k - 1) as ->; [|lia].
  symmetry. apply (Z.div_unique _ _ _ (2 ^ t - 1)); lia.
Qed.

Lemma unot_uint w x : is_uint w x → is_uint w (unot w x).
Proof. unfold is_uint, unot. lia. Qed.

Lemma hits_right p end_ M : is_uint 16 p → is_uint 16 end_ → 0 ≤ M < 16 →
  let t := TrailingZeros 16 (Z.lor (unot 16 end_) (2 ^ M)) in
  hits p ([maskedPort end_ t] ++ end_loop (Z.to_nat (M - (t + 1))) end_ (t + 1)) =
    ind (end_ / 2 ^ M * 2 ^ M) (end_ + 1) p.
Proof.
  intros Hp He HM t. destruct (trailing_below (unot 16 end_) M (unot_uint _ _ He) HM) as (Ht & Hm & Hb).
  fold t in Ht, Hm, Hb. pose proof (unot_aligned end_ t He ltac:(lia) Hm) as Ha.
  rewrite hits_app, hits_masked, Ha, Nat.add_comm by (done || lia).
  destruct (decide (t < M)) as [HtM|HtM].
  - rewrite hits_end_loop by (done || lia).
    replace (t + 1 + Z.of_nat (Z.to_nat (M - (t + 1)))) with M by lia.
    pose proof (block_start_mono end_ (t + 1) (M - (t + 1)) ltac:(lia) ltac:(lia)) as Hge.
    replace (t + 1 + (M - (t + 1))) with M in Hge by lia.
    pose proof (div_pow2_succ end_ t ltac:(lia)) as ED. specialize (Hb HtM).
    rewrite unot_bit in Hb by (done || lia). apply negb_true_iff in Hb. rewrite Hb in ED. simpl in ED.
    assert (E : end_ / 2 ^ (t + 1) * 2 ^ (t + 1) = end_ / 2 ^ t * 2 ^ t).
    { rewrite ED, Z.pow_add_r by lia. ring. }
    rewrite E in *. apply ind_app. pose proof (pow2_pos t). lia.
  - replace (Z.to_nat (M - (t + 1))) with 0%nat by lia. replace t with M by lia. done.
Qed.

(** The first differing bit of a range's ends. *)
Lemma middle_bit s e : is_uint 16 s → is_uint 16 e → s < e →
  let M := 15 - LeadingZeros 16 (Z.lxor s e) in
  0 ≤ M < 16 ∧ s / 2 ^ (M + 1) = e / 2 ^ (M + 1) ∧ s / 2 ^ M + 1 = e / 2 ^ M.
Proof.
  intros Hs He Hlt M. pose proof (lxor_uint 16 s e ltac:(lia) Hs He) as Hx.
  pose proof (LeadingZeros_bounds 16 _ ltac:(lia) Hx) as Hb.
  assert (Hne : LeadingZeros 16 (Z.lxor s e) < 16).
  { destruct (decide (LeadingZeros 16 (Z.lxor s e) = 16)) as [E|]; [|lia].
    apply LeadingZeros_full in E; [|lia|done]. rewrite Z.lxor_eq_0_iff in E. lia. }
  pose proof (LeadingZeros_lxor_differ 16 s e ltac:(lia) Hs He Hne) as Hd.
  assert (Hh : s / 2 ^ (M + 1) = e / 2 ^ (M + 1)).
  { subst M. replace (15 - LeadingZeros 16 (Z.lxor s e) + 1)
      with (16 - LeadingZeros 16 (Z.lxor s e)) by lia.
    apply LeadingZeros_lxor_ge; (done || lia). }
  assert (HM : 0 ≤ M < 16) by (subst M; lia).
  split; [done|]. split; [done|].
  replace (16 - 1 - LeadingZeros 16 (Z.lxor s e)) with M in Hd by (subst M; lia).
  clearbody M. clear Hne Hb.
  pose proof (div_pow2_succ s M ltac:(lia)) as E1. pose proof (div_pow2_succ e M ltac:(lia)) as E2.
  pose proof (Z.div_le_mono s e (2 ^ M) (pow2_pos M ltac:(lia)) ltac:(lia)) as HL.
  rewrite Hh in E1. destruct (Z.testbit s M), (Z.testbit e M); cbn [Z.b2z] in *; congruence || lia.
Qed.

Lemma hits_one p x : is_uint 16 p → is_uint 16 x →
  hits p [mkMaskedPort x 65535] = ind x (x + 1) p.
Proof.
  intros Hp Hx. pose proof (hits_masked p x 0 Hp Hx ltac:(lia)) as H.
  rewrite Z.pow_0_r, Z.div_1_r, !Z.mul_1_r in H. rewrite <- H. unfold maskedPort.
  rewrite port_mask, Z.pow_0_r, Z.div_1_r, Z.mul_1_r by (done || lia). done.
Qed.

Lemma hits_range_lt p start end_ : is_uint 16 p → is_uint 16 start → is_uint 16 end_ →
  start < end_ → ¬ (start = 0 ∧ end_ = 65535) →
  hits p (PortRangeToMaskedPorts start end_) = ind start (end_ + 1) p.
Proof.
  intros Hp Hs He Hlt Hn. unfold PortRangeToMaskedPorts.
  assert ((start =? 0) && ((end_ =? 0) || (end_ =? 65535)) = false) as ->.
  { destruct (Z.eqb_spec start 0), (Z.eqb_spec end_ 0), (Z.eqb_spec end_ 65535); simpl; try lia. }
  rewrite (proj2 (Z.leb_gt end_ start)) by done.
  destruct (middle_bit start end_ Hs He Hlt) as (HM & Hh & Hmid).
  set (c := LeadingZeros 16 (Z.lxor start end_)) in *. cbn zeta.
  replace (16 - 1 - c) with (15 - c) by lia. replace (15 - c + 1) with (16 - c) in Hh by lia.
  rewrite (ushr_lomask 16) by lia. rewrite !land_lomask by lia. rewrite ushl_bit by lia.
  destruct (Z.eqb_spec (start mod 2 ^ (16 - c)) 0) as [Ea|]; [destruct (Z.eqb_spec (unot 16 end_ mod 2 ^ (16 - c)) 0) as [Eb|]|];
    cbn [andb].
  - rewrite hits_masked by (done || lia). apply unot_aligned in Eb; [|done|lia].
    rewrite Hh, Eb, <- Hh, <- aligned_eq; [done|apply pow2_pos; lia|done].
  - rewrite hits_app, hits_left, hits_right, <- Hmid by done. apply ind_app.
    pose proof (pow2_pos (15 - c)). pose proof (Z.div_mod start (2 ^ (15 - c))).
    pose proof (Z.mod_pos_bound start (2 ^ (15 - c))).
    pose proof (Z.mul_div_le end_ (2 ^ (15 - c))). nia.
  - rewrite hits_app, hits_left, hits_right, <- Hmid by done. apply ind_app.
    pose proof (pow2_pos (15 - c)). pose proof (Z.div_mod start (2 ^ (15 - c))).
    pose proof (Z.mod_pos_bound start (2 ^ (15 - c))).
    pose proof (Z.mul_div_le end_ (2 ^ (15 - c))). nia.
Qed.

Lemma hits_range p start end_ : is_uint 16 p → is_uint 16 start → is_uint 16 end_ →
  hits p (PortRangeToMaskedPorts start end_) =
    if (start =? 0) && (end_ =? 0) then 1%nat else ind start (Z.max start end_ + 1) p.
Proof.
  intros Hp Hs He.
  assert (Hany : hits p [mkMaskedPort 0 0] = 1%nat).
  { unfold hits. rewrite filter_cons, decide_True by apply Z.land_0_r. done. }
  destruct (decide (start = 0 ∧ end_ = 65535)) as [[-> ->]|Hn].
  { etrans; [exact Hany|]. unfold ind, is_uint in *. simpl. case_decide; [done|]. lia. }
  destruct (decide (start < end_)).
  - rewrite hits_range_lt by done. unfold is_uint in *.
    rewrite (proj2 (Z.eqb_neq end_ 0)), andb_false_r, Z.max_r by lia. done.
  - rewrite Z.max_l by lia. unfold PortRangeToMaskedPorts.
    rewrite (proj2 (Z.leb_le end_ start)) by lia.
    destruct (Z.eqb_spec start 0) as [->|]; cbn [andb]; [|by apply hits_one].
    unfold is_uint in He. replace end_ with 0 by lia. exact Hany.
Qed.

(** ** Keys of a range *)

Definition is_masked (m : MaskedPort) : Prop :=
  ∃ x n, is_uint 16 x ∧ 0 ≤ n ≤ 16 ∧ m = maskedPort x n.

Lemma is_masked_intro x n : is_uint 16 x → 0 ≤ n ≤ 16 → is_masked (maskedPort x n).
Proof. intros. by exists x, n. Qed.

Lemma start_loop_masked n start bit : is_uint 16 start → 0 ≤ bit → bit + Z.of_nat n ≤ 16 →
  Forall is_masked (start_loop n start bit).
Proof.
  intros Hs. revert bit. induction n as [|n IH]; intros bit Hb Hn; [constructor|].
  cbn [start_loop]. apply Forall_app. split; [|apply IH; lia].
  destruct (_ =? 0); [|constructor]. apply Forall_singleton, is_masked_intro; [|lia].
  apply uwrap_uint. lia.
Qed.

Lemma end_loop_masked n end_ bit : is_uint 16 end_ → 0 ≤ bit → bit + Z.of_nat n ≤ 16 →
  Forall is_masked (end_loop n end_ bit).
Proof.
  intros Hs. revert bit. induction n as [|n IH]; intros bit Hb Hn; [constructor|].
  cbn [end_loop]. apply Forall_app. split; [|apply IH; lia].
  destruct (negb _); [|constructor]. apply Forall_singleton, is_masked_intro; [|lia].
  apply uwrap_uint. lia.
Qed.

Lemma full_mask x : is_uint 16 x → mkMaskedPort x 65535 = maskedPort x 0.
Proof.
  intros Hx. unfold maskedPort. by rewrite port_mask, Z.div_1_r, Z.mul_1_r by (done || lia).
Qed.

Lemma PortRange_masked start end_ : is_uint 16 start → is_uint 16 end_ →
  Forall is_masked (PortRangeToMaskedPorts start end_).
Proof.
  intros Hs He. unfold PortRangeToMaskedPorts.
  destruct (_ && _).
  { apply Forall_singleton. by apply (is_masked_intro 0 16). }
  destruct (Z.leb_spec end_ start).
  { apply Forall_singleton. rewrite full_mask by done. by apply is_masked_intro. }
  destruct (middle_bit start end_ Hs He) as (HM & _); [lia|].
  set (c := LeadingZeros 16 (Z.lxor start end_)) in *. cbn zeta.
  replace (16 - 1 - c) with (15 - c) by lia. rewrite ushl_bit by lia.
  destruct (_ && _); [apply Forall_singleton, is_masked_intro; (done || lia)|].
  destruct (trailing_below start (15 - c) Hs HM) as (Ht & _).
  destruct (trailing_below (unot 16 end_) (15 - c) (unot_uint _ _ He) HM) as (Ht' & _).
  set (t := TrailingZeros 16 (Z.lor start (2 ^ (15 - c)))) in *.
  set (t' := TrailingZeros 16 (Z.lor (unot 16 end_) (2 ^ (15 - c)))) in *.
  repeat apply Forall_app_2; try (apply Forall_singleton, is_masked_intro; (done || lia)).
  - apply start_loop_masked; (done || lia).
  - apply end_loop_masked; (done || lia).
Qed.

Lemma LeadingZeros_lomask n : 0 ≤ n ≤ 16 → LeadingZeros 16 (2 ^ n - 1) = 16 - n.
Proof.
  intros Hn. pose proof (pow2_pos n ltac:(lia)).
  assert (Hu : is_uint 16 (2 ^ n - 1)).
  { unfold is_uint. pose proof (Z.pow_le_mono_r 2 n 16). lia. }
  pose proof (LeadingZeros_bounds 16 _ ltac:(lia) Hu) as Hb.
  pose proof (LeadingZeros_ge 16 _ (16 - n) ltac:(lia) Hu) as H1.
  replace (16 - (16 - n)) with n in H1 by lia.
  destruct (decide (n = 0)) as [->|]; [done|].
  pose proof (LeadingZeros_ge 16 _ (16 - n + 1) ltac:(lia) Hu) as H2.
  replace (16 - (16 - n + 1)) with (n - 1) in H2 by lia.
  assert (2 ^ n = 2 * 2 ^ (n - 1)).
  { replace n with (1 + (n - 1)) at 1 by lia. rewrite Z.pow_add_r by lia. done. }
  pose proof (pow2_pos (n - 1)). lia.
Qed.

Definition key_of_masked (key : Key) (mp : MaskedPort) : Key :=
  WithPortPrefix key (mp_port mp) (uwrap 8 (LeadingZeros 16 (unot 16 (mp_mask mp)))).

(** The key of a masked port matches the ports the mask does. *)
Lemma key_of_masked_spec key mp : wf_key key → Nexthdr key ≠ 0 → is_masked mp →
  wf_key (key_of_masked key mp) ∧
  TrafficDirection (key_of_masked key mp) = TrafficDirection key ∧
  (∀ p, is_uint 16 p → port_in (key_of_masked key mp) p ↔ mp_matches p mp).
Proof.
  intros W Hn (x & n & Hx & Hr & ->). unfold key_of_masked, maskedPort. cbn [mp_port mp_mask].
  rewrite (port_mask x), (ushl_himask 16) by (done || lia). unfold unot.
  replace (2 ^ 16 - 1 - (2 ^ 16 - 2 ^ n)) with (2 ^ n - 1) by lia.
  rewrite LeadingZeros_lomask, uwrap_small by (unfold is_uint; lia).
  pose proof (pow2_pos n ltac:(lia)) as Hd.
  assert (Hu : is_uint 16 (x / 2 ^ n * 2 ^ n)).
  { unfold is_uint in *. pose proof (Z.mul_div_le x (2 ^ n) Hd). pose proof (Z.div_pos x (2 ^ n)). nia. }
  destruct (WithPortProtoPrefix_wf key (Nexthdr key) (x / 2 ^ n * 2 ^ n) (16 - n))
    as (W' & E1 & E2 & E3); try done; [apply W|unfold is_uint; lia|].
  assert (HL : effective_len (x / 2 ^ n * 2 ^ n) (16 - n) = 16 - n).
  { unfold effective_len. rewrite (proj2 (Z.ltb_ge 16 (16 - n))) by lia.
    destruct (Z.eqb_spec (16 - n) 0); [|by rewrite andb_false_r].
    replace n with 16 by lia. unfold is_uint in Hx. by rewrite (Z.div_small x) by lia. }
  unfold WithPortProtoPrefix in *.
  assert (EK : WithProto key (Nexthdr key) = key) by (by destruct key as [[]]).
  rewrite EK in *. split; [done|]. split; [done|]. intros p Hp.
  rewrite (port_in_iff _ p (wf_key_lpm _ W')), E2, E3, HL.
  replace (16 - (16 - n)) with n by lia. rewrite !Z.div_mul by lia.
  unfold mp_matches; simpl. rewrite land_himask by (done || lia).
  split; [by intros ->|]. intros E. apply Z.mul_cancel_r in E; lia.
Qed.

#[export] Instance port_in_dec k p : Decision (port_in k p).
Proof. unfold port_in. apply _. Defined.

(** An unmasked port is a port of full prefix length, and port 0 is the wildcard. *)
Lemma WithPort_prefix k port : is_uint 16 port →
  WithPort k port = WithPortPrefix k port (if port =? 0 then 0 else 16).
Proof.
  intros Hp. unfold WithPort, WithPortPrefix. destruct (Z.eqb_spec port 0) as [->|Hn]; simpl.
  - by rewrite Z.lor_0_r.
  - rewrite port_mask, Z.div_1_r, Z.mul_1_r by (done || lia). done.
Qed.

Lemma KeyForDirection_wf d : 0 ≤ d ≤ 1 → wf_key (KeyForDirection d).
Proof.
  intros Hd. assert (d = 0 ∨ d = 1) as [-> | ->] by lia; repeat split; vm_compute; congruence.
Qed.

(** The key of a filter before it is split into the keys of its range. *)
Lemma filter_key_spec d proto port : 0 ≤ d ≤ 1 → is_uint 8 proto → is_uint 16 port →
  (proto = 0 → port = 0) →
  let key := WithPortProto (KeyForDirection d) proto port in
  wf_key key ∧ TrafficDirection key = d ∧ Nexthdr key = proto ∧
  (∀ p, is_uint 16 p → port_in key p ↔ port = 0 ∨ p = port).
Proof.
  intros Hd Hp HP Hany key. subst key. unfold WithPortProto. rewrite WithPort_prefix by done.
  destruct (WithPortProtoPrefix_wf (KeyForDirection d) proto port (if port =? 0 then 0 else 16))
    as (W & E1 & E2 & E3); try done.
  { by apply KeyForDirection_wf. }
  { by destruct (_ =? 0). }
  { intros E. rewrite (Hany E). done. }
  split; [exact W|]. split; [|split; [done|]].
  { unfold WithPortProtoPrefix in E1. rewrite E1. by assert (d = 0 ∨ d = 1) as [-> | ->] by lia. }
  intros p Hu. unfold WithPortProtoPrefix in *. rewrite (port_in_iff _ p (wf_key_lpm _ W)), E2, E3.
  unfold is_uint in *. destruct (Z.eqb_spec port 0) as [->|Hn].
  - unfold effective_len; simpl. rewrite Z.div_small by lia. tauto.
  - assert (effective_len port 16 = 16) as ->.
    { unfold effective_len. by rewrite andb_false_r. }
    rewrite Z.sub_diag, Z.pow_0_r, Z.mul_1_r, !Z.div_1_r. lia.
Qed.

Lemma hits_keys key p l : wf_key key → Nexthdr key ≠ 0 → is_uint 16 p → Forall is_masked l →
  length (filter (λ k : Key, port_in k p) (key_of_masked key <$> l)) = hits p l ∧
  Forall wf_key (key_of_masked key <$> l).
Proof.
  intros W Hn Hp. induction 1 as [|m l Hm Hl IH]; [done|]. destruct IH as [IH1 IH2].
  destruct (key_of_masked_spec key m W Hn Hm) as (W' & _ & HM). specialize (HM p Hp).
  split; [|by constructor]. unfold hits in *. rewrite fmap_cons, !filter_cons.
  destruct (decide (mp_matches p m)), (decide (port_in (key_of_masked key m) p));
    try tauto; simpl; by rewrite IH1.
Qed.

(** ** Properties *)

(** A prefix: the mask has its zeros at the end, where the port has zeros too. *)
Definition is_prefix (m : MaskedPort) : Prop :=
  is_uint 16 (mp_port m) ∧ ∃ n, 0 ≤ n ≤ 16 ∧ mp_mask m = 2 ^ 16 - 2 ^ n ∧ mp_port m mod 2 ^ n = 0.

Lemma masked_prefix m : is_masked m → is_prefix m.
Proof.
  intros (x & n & Hx & Hn & ->). unfold is_prefix, maskedPort. cbn [mp_port mp_mask]. rewrite port_mask by done.
  pose proof (pow2_pos n ltac:(lia)). split.
  - pose proof (Z.mul_div_le x (2 ^ n) ltac:(lia)). pose proof (Z.div_pos x (2 ^ n)). unfold is_uint in *. nia.
  - exists n. split_and!; [lia|lia| |by rewrite Z.mod_mul by lia].
    assert (n = 0 ∨ n = 1 ∨ n = 2 ∨ n = 3 ∨ n = 4 ∨ n = 5 ∨ n = 6 ∨ n = 7 ∨ n = 8 ∨ n = 9 ∨ n = 10 ∨ n = 11 ∨ n = 12 ∨ n = 13 ∨
      n = 14 ∨ n = 15 ∨ n = 16) as Hc by lia. by repeat (destruct Hc as [-> |Hc]; [done|]); subst n.
Qed.

(** C34. The masked ports of a range match every port of the range exactly once
    and no other port, and each of them is a prefix: its mask is a run of ones and then
    zeros, and its port has zeros where the mask has.  The pair (0, 0) stands for every
    port, and an end below the start for the start alone. *)
Theorem PortRangeToMaskedPorts_exact (start end_ : Z) :
  is_uint 16 start → is_uint 16 end_ →
  Forall is_prefix (PortRangeToMaskedPorts start end_) ∧
  ∀ p, is_uint 16 p →
    length (filter (λ m, Z.land p (mp_mask m) = mp_port m) (PortRangeToMaskedPorts start end_)) =
    if decide (start = 0 ∧ end_ = 0 ∨ start ≤ p ≤ Z.max start end_) then 1%nat else 0%nat.
Proof.
  intros Hs He. split.
  { eapply Forall_impl; [by apply PortRange_masked|]. apply masked_prefix. }
  intros p Hp. pose proof (hits_range p start end_ Hp Hs He) as HR.
  unfold hits, mp_matches in HR. etrans; [exact HR|]. unfold ind.
  destruct (Z.eqb_spec start 0), (Z.eqb_spec end_ 0); simpl; repeat case_decide; lia.
Qed.

Lemma PortRangeToMaskedPorts_exact_witness :
  length (filter (λ m, Z.land 1023 (mp_mask m) = mp_port m) (PortRangeToMaskedPorts 1 1023)) = 1%nat ∧
  length (PortRangeToMaskedPorts 1 1023) = 10%nat.
Proof.
  split; [|reflexivity]. apply (PortRangeToMaskedPorts_exact 1 1023); done.
Defined.

(** The keys of a port range: their direction and protocol, and how many match a port. *)
Lemma keysForRange_spec (d proto port endPort : Z) :
  0 ≤ d ≤ 1 → is_uint 8 proto → is_uint 16 port → is_uint 16 endPort → (proto = 0 → port = 0) →
  let keys := keysForRange (WithPortProto (KeyForDirection d) proto port) port endPort in
  Forall (λ k, wf_key k ∧ TrafficDirection k = d ∧ Nexthdr k = proto) keys ∧
  ∀ p, is_uint 16 p → length (filter (λ k : Key, port_in k p) keys) =
    if decide (port = 0 ∨ port ≤ p ≤ Z.max port endPort) then 1%nat else 0%nat.
Proof.
  intros Hd Hpr HP HE Hany keys. subst keys.
  destruct (filter_key_spec d proto port Hd Hpr HP Hany) as (W & ED & EN & HI).
  unfold keysForRange. fold (key_of_masked (WithPortProto (KeyForDirection d) proto port)).
  assert (H1 : port = 0 ∨ endPort ≤ port ∨ port ≠ 0 ∧ port < endPort) by lia.
  destruct (Z.eqb_spec port 0), (Z.leb_spec endPort port); cbn [orb];
    try (split; [by apply Forall_singleton|]; intros p Hp; rewrite filter_cons, filter_nil;
         specialize (HI p Hp); unfold port_in in *; repeat case_decide; simpl; lia).
  split.
  - apply Forall_fmap, Forall_forall. intros mp Hmp.
    destruct (key_of_masked_spec (WithPortProto (KeyForDirection d) proto port) mp) as (W' & D' & _); [done| | |].
    { rewrite EN. intros E0%Hany; lia. }
    { by apply (proj1 (Forall_forall _ _) (PortRange_masked port endPort HP HE)). }
    refine (conj W' (conj (eq_trans D' ED) EN)).
  - intros p Hp. destruct (hits_keys (WithPortProto (KeyForDirection d) proto port) p
      (PortRangeToMaskedPorts port endPort)) as [HH _]; try done.
    { rewrite EN. intros E0%Hany; lia. }
    { by apply PortRange_masked. }
    etrans; [exact HH|]. rewrite hits_range by done.
    rewrite (proj2 (Z.eqb_neq port 0)) by done. simpl. unfold ind. repeat case_decide; lia.
Qed.

(** The keys of a filter's port range are well-formed and, for a filter with
    a port, match each port of the range through exactly one key and no port
    outside; port 0 gives one key matching every port. *)
Theorem keysForRange_exact (d proto port endPort p : Z) :
  0 ≤ d ≤ 1 → is_uint 8 proto → is_uint 16 port → is_uint 16 endPort →
  (proto = 0 → port = 0) → is_uint 16 p →
  let keys := keysForRange (WithPortProto (KeyForDirection d) proto port) port endPort in
  Forall wf_key keys ∧
  length (filter (λ k : Key, port_in k p) keys) =
    if decide (port = 0 ∨ port ≤ p ≤ Z.max port endPort) then 1%nat else 0%nat.
Proof.
  intros Hd Hpr HP HE Hany Hp. destruct (keysForRange_spec d proto port endPort Hd Hpr HP HE Hany) as [HF HL].
  split; [|by apply HL]. apply (Forall_impl _ _ _ HF). by intros k [? _].
Qed.

Lemma keysForRange_exact_witness :
  let keys := keysForRange (WithPortProto (KeyForDirection Egress) TCP 8000) 8000 8010 in
  length keys = 3%nat ∧ length (filter (λ k : Key, port_in k 8008) keys) = 1%nat.
Proof.
  split; [reflexivity|].
  apply (keysForRange_exact Egress TCP 8000 8010 8008); done.
Defined.
