(* ===== verification/Identity.v ===== *)
(** * Numeric identities, clusters and aggregation

    Model of [src/pkg/identity/numericidentity.go] (scopes, reserved identities),
    [src/pkg/clustermesh/types/types.go] and [option.go] (cluster configuration,
    its validation, the identity range of each cluster) and
    [src/pkg/policy/aggregate.go] (the aggregate identity of an identity). *)

From stdpp Require Import pretty.
From S2P Require Import Prelude.

Local Open Scope Z_scope.

(** ** Constants *)

Definition Bitlength : Z := 24.
Definition MinimalIdentity : Z := 256.
Definition IdentityScopeMask : Z := 4278190080.
Definition IdentityScopeGlobal : Z := 0.
Definition IdentityScopeLocal : Z := Z.shiftl 1 Bitlength.
Definition IdentityScopeRemoteNode : Z := Z.shiftl 2 Bitlength.
Definition MinAllocatorLocalIdentity : Z := 1.
Definition MinLocalIdentity : Z := Z.lor MinAllocatorLocalIdentity IdentityScopeLocal.
Definition MaxAllocatorLocalIdentity : Z := 16777215.
Definition MaxLocalIdentity : Z := Z.lor MaxAllocatorLocalIdentity IdentityScopeLocal.
Definition MinimalNumericIdentity : Z := MinimalIdentity.
Definition UserReservedNumericIdentity : Z := 128.

Definition IdentityUnknown : Z := 0.
Definition ReservedIdentityHost : Z := 1.
Definition ReservedIdentityWorld : Z := 2.
Definition ReservedIdentityUnmanaged : Z := 3.
Definition ReservedIdentityHealth : Z := 4.
Definition ReservedIdentityInit : Z := 5.
Definition ReservedIdentityRemoteNode : Z := 6.
Definition ReservedIdentityKubeAPIServer : Z := 7.
Definition ReservedIdentityIngress : Z := 8.
Definition ReservedIdentityWorldIPv4 : Z := 9.
Definition ReservedIdentityWorldIPv6 : Z := 10.
Definition ReservedIdentityAggregateCluster : Z := 11.
Definition ReservedIdentityAggregateClusterMesh : Z := 12.
Definition ReservedIdentityAggregateWorld : Z := 13.
Definition ReservedIdentityAggregateRemoteNode : Z := 14.

(** ** Cluster configuration *)

Record ClusterInfo := mkClusterInfo {
  ci_ID : Z;
  ci_Name : string;
  MaxConnectedClusters : Z;
}.

(** [defaults.MaxConnectedClusters] and [defaults.ClusterName]. *)
Definition default_MaxConnectedClusters : Z := 255.
Definition default_ClusterName : string := "default".
Definition ClusterIDMin : Z := 0.
Definition ClusterIDExt511 : Z := 511.
Definition clusterNameMaxLength : nat := 32.

(** The errors of the validation functions, by message. *)
Inductive cluster_error :=
  | InvalidMaxConnectedClusters | InvalidClusterID | ReservedClusterID | UnsupportedClusterID
  | EmptyName | NameTooLong | NameSyntax | DefaultNameWithID
  | BuggyClusterID | MismatchedMaxConnectedClusters | InvalidExportMode.

(** The package variable [ClusterIDMax] after the call. *)
Definition InitClusterIDMax (c : ClusterInfo) : cluster_error + Z :=
  if (MaxConnectedClusters c =? default_MaxConnectedClusters) ||
     (MaxConnectedClusters c =? ClusterIDExt511)
  then inr (MaxConnectedClusters c)
  else inl InvalidMaxConnectedClusters.

(** [uint32(math.Log2(float64(n)))] is the integer logarithm for [n > 0]. *)
Definition GetClusterIDBits (c : ClusterInfo) : Z :=
  Z.log2 (uwrap 32 (MaxConnectedClusters c + 1)).

Definition GetClusterIDShift (c : ClusterInfo) : Z := uwrap 32 (Bitlength - GetClusterIDBits c).

Definition MinimalAllocationIdentityFor (c : ClusterInfo) (clusterID : Z) : Z :=
  if 0 <? clusterID then uwrap 32 (ushl 32 1 (GetClusterIDShift c) * clusterID)
  else MinimalIdentity.

Definition MinimalAllocationIdentity (c : ClusterInfo) : Z :=
  MinimalAllocationIdentityFor c (ci_ID c).

Definition MaximumAllocationIdentityFor (c : ClusterInfo) (clusterID : Z) : Z :=
  uwrap 32 (uwrap 32 (ushl 32 1 (GetClusterIDShift c) * uwrap 32 (clusterID + 1)) - 1).

Definition MaximumAllocationIdentity (c : ClusterInfo) : Z :=
  MaximumAllocationIdentityFor c (ci_ID c).

Definition ValidateClusterID (ClusterIDMax clusterID : Z) : option cluster_error :=
  if clusterID =? ClusterIDMin then Some ReservedClusterID
  else if ClusterIDMax <? clusterID then Some UnsupportedClusterID
  else None.

(** The regular expression of cluster names: lower-case letters, digits and dashes,
    with a letter or digit at both ends. *)
Definition lower_alnum (c : Ascii.ascii) : bool :=
  let n := Ascii.nat_of_ascii c in
  ((97 <=? n) && (n <=? 122) || (48 <=? n) && (n <=? 57))%nat.
Definition dash (c : Ascii.ascii) : bool := Nat.eqb (Ascii.nat_of_ascii c) 45.

Definition clusterNameRegex (name : string) : bool :=
  match String.list_ascii_of_string name with
  | [] => false
  | c :: l =>
      lower_alnum c && forallb (λ c, dash c || lower_alnum c) l &&
      match last l with Some d => lower_alnum d | None => true end
  end.

Definition ValidateClusterName (name : string) : option cluster_error :=
  if bool_decide (name = EmptyString) then Some EmptyName
  else if (clusterNameMaxLength <? String.length name)%nat then Some NameTooLong
  else if negb (clusterNameRegex name) then Some NameSyntax
  else None.

Definition validateName (c : ClusterInfo) : option cluster_error :=
  match ValidateClusterName (ci_Name c) with
  | Some err => Some err
  | None =>
      if negb (ci_ID c =? 0) && bool_decide (ci_Name c = default_ClusterName)
      then Some DefaultNameWithID else None
  end.

Definition Validate (ClusterIDMax : Z) (c : ClusterInfo) : option cluster_error :=
  if (ci_ID c <? ClusterIDMin) || (ClusterIDMax <? ci_ID c) then Some InvalidClusterID
  else validateName c.

Definition ValidateStrict (ClusterIDMax : Z) (c : ClusterInfo) : option cluster_error :=
  match ValidateClusterID ClusterIDMax (ci_ID c) with
  | Some err => Some err
  | None => validateName c
  end.

Definition ValidateBuggyClusterID (c : ClusterInfo) (ipamMode chainingMode : string)
  : option cluster_error :=
  if negb (Z.land (ci_ID c) 128 =? 0) &&
     (bool_decide (ipamMode = "eni"%string) || bool_decide (ipamMode = "alibabacloud"%string)
      || bool_decide (chainingMode = "aws-cni"%string))
  then Some BuggyClusterID else None.

Definition ExtendedClusterMeshEnabled (c : ClusterInfo) : bool :=
  negb (MaxConnectedClusters c =? default_MaxConnectedClusters).

(** The fields of [CiliumClusterConfig] the validation reads. *)
Record CiliumClusterConfig := mkCiliumClusterConfig {
  cfg_ID : Z;
  cfg_MaxConnectedClusters : Z;
  cfg_EndpointSlicesExportMode : string;
}.

Definition ValidateRemoteConfig (ClusterIDMax : Z) (c : ClusterInfo) (config : CiliumClusterConfig)
  : option cluster_error :=
  match ValidateClusterID ClusterIDMax (cfg_ID config) with
  | Some err => Some err
  | None =>
      if ExtendedClusterMeshEnabled c &&
         negb (MaxConnectedClusters c =? cfg_MaxConnectedClusters config)
      then Some MismatchedMaxConnectedClusters
      else if bool_decide (cfg_EndpointSlicesExportMode config ∈
        [EmptyString; "services-and-endpointslices"%string; "endpointslices-only"%string])
      then None else Some InvalidExportMode
  end.

(** [RegisterClusterInfoValidator]'s start hook. *)
Definition validate_on_start (c : ClusterInfo) : cluster_error + Z :=
  match InitClusterIDMax c with
  | inl err => inl err
  | inr ClusterIDMax =>
      match ValidateStrict ClusterIDMax c with
      | Some err => inl err
      | None => inr ClusterIDMax
      end
  end.

(** ** Numeric identities *)

Definition Scope (id : Z) : Z := Z.land id IdentityScopeMask.
Definition HasLocalScope (id : Z) : bool := Scope id =? IdentityScopeLocal.
Definition HasRemoteNodeScope (id : Z) : bool := Scope id =? IdentityScopeRemoteNode.

Definition ClusterID (id : Z) (cinfo : ClusterInfo) : Z :=
  Z.land (ushr 32 id (GetClusterIDShift cinfo)) (MaxConnectedClusters cinfo).

(** [option.Config.IsDualStack()] is an argument. *)
Definition IsWorld (dualStack : bool) (id : Z) : bool :=
  (id =? ReservedIdentityWorld) ||
  dualStack && ((id =? ReservedIdentityWorldIPv4) || (id =? ReservedIdentityWorldIPv6)).

Definition IsCluster (dualStack : bool) (id : Z) : bool :=
  negb (IsWorld dualStack id || HasLocalScope id).

Definition GetWorldIdentityFromIP (dualStack is6 : bool) : Z :=
  if dualStack then (if is6 then ReservedIdentityWorldIPv6 else ReservedIdentityWorldIPv4)
  else ReservedIdentityWorld.

(** The two package maps of reserved identities. *)
Record reserved := mkReserved {
  reservedIdentities : gmap string Z;
  reservedIdentityNames : gmap Z string;
}.

Definition initial_names : list (string * Z) :=
  [("host"%string, ReservedIdentityHost); ("world"%string, ReservedIdentityWorld);
   ("world-ipv4"%string, ReservedIdentityWorldIPv4);
   ("world-ipv6"%string, ReservedIdentityWorldIPv6);
   ("unmanaged"%string, ReservedIdentityUnmanaged); ("health"%string, ReservedIdentityHealth);
   ("init"%string, ReservedIdentityInit); ("remote-node"%string, ReservedIdentityRemoteNode);
   ("kube-apiserver"%string, ReservedIdentityKubeAPIServer);
   ("ingress"%string, ReservedIdentityIngress);
   ("aggregate-cluster"%string, ReservedIdentityAggregateCluster);
   ("aggregate-cluster-mesh"%string, ReservedIdentityAggregateClusterMesh);
   ("aggregate-world"%string, ReservedIdentityAggregateWorld);
   ("aggregate-remote-node"%string, ReservedIdentityAggregateRemoteNode)].

Definition initial_reserved : reserved :=
  mkReserved (list_to_map initial_names)
    (<[IdentityUnknown := "unknown"%string]>
       (list_to_map ((λ x, (x.2, x.1)) <$> initial_names))).

Definition IsUserReservedIdentity (id : Z) : bool :=
  (UserReservedNumericIdentity <=? id) && (id <? MinimalNumericIdentity).

(** The boolean is false for [ErrNotUserIdentity]. *)
Definition AddUserDefinedNumericIdentity (r : reserved) (identity : Z) (label : string)
  : reserved * bool :=
  if negb (IsUserReservedIdentity identity) then (r, false)
  else (mkReserved (<[label := identity]> (reservedIdentities r))
          (<[identity := label]> (reservedIdentityNames r)), true).

Definition GetReservedID (r : reserved) (name : string) : Z :=
  match reservedIdentities r !! name with Some v => v | None => IdentityUnknown end.

Definition IsReservedIdentity (r : reserved) (id : Z) : bool :=
  match reservedIdentityNames r !! id with Some _ => true | None => false end.

Definition NumericIdentity_String (r : reserved) (id : Z) : string :=
  match reservedIdentityNames r !! id with Some v => v | None => pretty (Z.to_N id) end.

Definition GetAllReservedIdentities (r : reserved) : list Z :=
  merge_sort Z.le (snd <$> map_to_list (reservedIdentities r)).

(** ** Aggregation *)

Definition aggregateFor (nid : Z) (cinfo : ClusterInfo) : Z :=
  if (nid =? IdentityUnknown) || (nid =? ReservedIdentityAggregateCluster)
     || (nid =? ReservedIdentityAggregateClusterMesh)
     || (nid =? ReservedIdentityAggregateWorld)
     || (nid =? ReservedIdentityAggregateRemoteNode)
  then nid
  else if nid <? 100 then IdentityUnknown
  else if Scope nid =? IdentityScopeRemoteNode then ReservedIdentityAggregateRemoteNode
  else if Scope nid =? IdentityScopeLocal then ReservedIdentityAggregateWorld
  else if ClusterID nid cinfo =? ci_ID cinfo then ReservedIdentityAggregateCluster
  else ReservedIdentityAggregateClusterMesh.

Definition aggregates (agg child : Z) (cinfo : ClusterInfo) : bool :=
  negb (agg =? child) && (aggregateFor child cinfo =? agg).

Definition isAggregate (nid : Z) (cinfo : ClusterInfo) : bool := nid =? aggregateFor nid cinfo.

Definition AllAggregates : list Z :=
  [IdentityUnknown; ReservedIdentityAggregateRemoteNode; ReservedIdentityAggregateWorld;
   ReservedIdentityAggregateCluster; ReservedIdentityAggregateClusterMesh].

(** ** Lemmas *)

Lemma aggregateFor_in nid cinfo : aggregateFor nid cinfo ∈ AllAggregates.
Proof.
  unfold aggregateFor. destruct (_ || _) eqn:E.
  - rewrite !orb_true_iff, !Z.eqb_eq in E. unfold AllAggregates. set_solver.
  - repeat case_match; unfold AllAggregates; set_solver.
Qed.

Lemma aggregateFor_fixed nid cinfo : nid ∈ AllAggregates → aggregateFor nid cinfo = nid.
Proof.
  unfold AllAggregates. rewrite !elem_of_cons, elem_of_nil.
  intros [-> |[-> |[-> |[-> |[-> |[]]]]]]; reflexivity.
Qed.

Lemma aggregateFor_idem nid cinfo : aggregateFor (aggregateFor nid cinfo) cinfo = aggregateFor nid cinfo.
Proof. apply aggregateFor_fixed, aggregateFor_in. Qed.

Lemma aggregates_iff agg child cinfo :
  aggregates agg child cinfo = true ↔ agg ≠ child ∧ aggregateFor child cinfo = agg.
Proof. unfold aggregates. by rewrite andb_true_iff, negb_true_iff, Z.eqb_neq, Z.eqb_eq. Qed.

Lemma isAggregate_iff nid cinfo : isAggregate nid cinfo = true ↔ aggregateFor nid cinfo = nid.
Proof. unfold isAggregate. rewrite Z.eqb_eq. split; congruence. Qed.

Lemma InitClusterIDMax_values c m :
  InitClusterIDMax c = inr m →
  MaxConnectedClusters c = m ∧
  (m = 255 ∧ GetClusterIDShift c = 16 ∨ m = 511 ∧ GetClusterIDShift c = 15).
Proof.
  unfold InitClusterIDMax, GetClusterIDShift, GetClusterIDBits.
  destruct (Z.eqb_spec (MaxConnectedClusters c) default_MaxConnectedClusters) as [E|];
    [|destruct (Z.eqb_spec (MaxConnectedClusters c) ClusterIDExt511) as [E|]];
    simpl; intros [= <-]; rewrite E; (split; [done|]); [left|right]; by split.
Qed.

Lemma Scope_eq id : is_uint 32 id → Scope id = id / 2 ^ 24 * 2 ^ 24.
Proof. intros. unfold Scope. change IdentityScopeMask with (2 ^ 32 - 2 ^ 24). by apply land_himask. Qed.

(** The identity range of a cluster: [shift] low bits under the cluster number. *)
Lemma allocation_range c m a :
  InitClusterIDMax c = inr m → 0 ≤ a ≤ m →
  let s := GetClusterIDShift c in
  (m + 1) * 2 ^ s = 2 ^ 24 ∧
  MinimalAllocationIdentityFor c a = (if 0 <? a then a * 2 ^ s else 256) ∧
  MaximumAllocationIdentityFor c a = (a + 1) * 2 ^ s - 1.
Proof.
  intros HI Ha. destruct (InitClusterIDMax_values c m HI) as [_ Hm].
  unfold MinimalAllocationIdentityFor, MaximumAllocationIdentityFor.
  destruct Hm as [[-> ->]|[-> ->]]; simpl;
    change (ushl 32 1 16) with 65536; change (ushl 32 1 15) with 32768;
    unfold uwrap; change (2 ^ 32) with 4294967296; (split; [done|]);
    (split; [destruct (0 <? a); [|done]|]); dlia.
Qed.

Lemma ClusterID_eq id c m :
  InitClusterIDMax c = inr m → ClusterID id c = (id / 2 ^ GetClusterIDShift c) mod (m + 1).
Proof.
  intros HI. destruct (InitClusterIDMax_values c m HI) as [Em Hm]. unfold ClusterID. rewrite Em.
  destruct Hm as [[-> ->]|[-> ->]]; unfold ushr; simpl; rewrite Z.shiftr_div_pow2 by done;
    [apply (land_lomask 8)|apply (land_lomask 9)]; done.
Qed.

(** ** Properties *)

(** Every identity has one aggregate, the aggregates are exactly the
    identities that aggregate to themselves, and an aggregate is never aggregated
    further. *)
Theorem aggregateFor_partition (nid agg : Z) (cinfo : ClusterInfo) :
  aggregateFor nid cinfo ∈ AllAggregates ∧
  (isAggregate nid cinfo = true ↔ nid ∈ AllAggregates) ∧
  (aggregates agg nid cinfo = true ↔ nid ∉ AllAggregates ∧ agg = aggregateFor nid cinfo).
Proof.
  split; [apply aggregateFor_in|]. rewrite isAggregate_iff, aggregates_iff. split.
  - split; [intros <-; apply aggregateFor_in|apply aggregateFor_fixed].
  - split.
    + intros [Hn <-]. split; [|done]. intros Hin. by apply Hn, aggregateFor_fixed.
    + intros [Hn ->]. split; [|done]. intros E. apply Hn. rewrite <- E. apply aggregateFor_in.
Qed.

(** With a valid cluster configuration, the identity ranges of the clusters
    are disjoint, lie in the global scope above the reserved identities, and the
    cluster is recovered from the identity, so that an allocated identity
    aggregates to the cluster or to the mesh according to its cluster. *)
Theorem allocated_identity_cluster (c : ClusterInfo) (m a id : Z) :
  InitClusterIDMax c = inr m → 0 ≤ a ≤ m →
  MinimalAllocationIdentityFor c a ≤ id ≤ MaximumAllocationIdentityFor c a →
  ClusterID id c = a ∧ Scope id = IdentityScopeGlobal ∧ MinimalNumericIdentity ≤ id < 2 ^ 24 ∧
  (∀ b, 0 ≤ b ≤ m → b ≠ a →
     ¬ (MinimalAllocationIdentityFor c b ≤ id ≤ MaximumAllocationIdentityFor c b)) ∧
  aggregateFor id c =
    if a =? ci_ID c then ReservedIdentityAggregateCluster else ReservedIdentityAggregateClusterMesh.
Proof.
  intros HI Ha Hid. pose proof (InitClusterIDMax_values c m HI) as [_ Hs].
  pose proof (λ b, allocation_range c m b HI) as HR.
  destruct (HR a Ha) as (HT & Emin & Emax). rewrite Emin, Emax in Hid.
  set (s := GetClusterIDShift c) in *.
  assert (Hq : a * 2 ^ s ≤ id < (a + 1) * 2 ^ s ∧ 256 ≤ id).
  { destruct (Z.ltb_spec 0 a); destruct Hs as [[_ E]|[_ E]]; rewrite E in *; simpl in *; lia. }
  assert (Hlt : id < 2 ^ 24).
  { destruct Hs as [[-> E]|[-> E]]; rewrite E in *; simpl in *; lia. }
  assert (HC : ClusterID id c = a).
  { rewrite (ClusterID_eq id c m HI). fold s.
    assert (id / 2 ^ s = a) as ->; [|apply Z.mod_small; lia].
    symmetry. apply (Z.div_unique _ _ _ (id - a * 2 ^ s)); lia. }
  assert (HS : Scope id = 0).
  { rewrite Scope_eq by (unfold is_uint; lia). by rewrite Z.div_small by lia. }
  split; [done|]. split; [done|]. split; [unfold MinimalNumericIdentity, MinimalIdentity; lia|]. split.
  - intros b Hb Hne. destruct (HR b Hb) as (_ & -> & ->). fold s.
    destruct (Z.ltb_spec 0 b); destruct Hs as [[_ E]|[_ E]]; rewrite E in *; simpl in *; lia.
  - unfold aggregateFor. rewrite HC, HS.
    repeat match goal with |- context [id =? ?x] => rewrite (proj2 (Z.eqb_neq id x)) by (unfold x; lia) end.
    simpl. by rewrite (proj2 (Z.ltb_ge id 100)) by lia.
Qed.

Definition demo_cluster : ClusterInfo := mkClusterInfo 3 "mesh-a" 511.

Lemma allocated_identity_cluster_witness :
  ClusterID 100000 demo_cluster = 3 ∧
  aggregateFor 100000 demo_cluster = ReservedIdentityAggregateCluster.
Proof.
  destruct (allocated_identity_cluster demo_cluster 511 3 100000) as (H & _ & _ & _ & HA);
    [reflexivity|lia|split; vm_compute; discriminate|].
  split; [exact H|exact HA].
Defined.
