(* ===== verification/RuleOrigin.v ===== *)
(** * Rule origins

    Model of [src/pkg/policy/origin.go] (the labels and log lines of the rules a
    policy entry derives from, and their merge) and of
    [MergeSortedLabelArrayListStrings] of [src/pkg/labels/arraylist.go]. *)

From Stdlib Require Import Strings.Ascii Strings.String.
From stdpp Require Import strings.
From S2P Require Import Prelude.

Local Open Scope Z_scope.

(** ** Go strings

    Strings are byte strings; an index is a [Z], with -1 for not found. *)

Fixpoint IndexByte (s : string) (c : Ascii.ascii) : Z :=
  match s with
  | EmptyString => -1
  | String d s => if Ascii.eqb d c then 0
                  else let i := IndexByte s c in if i <? 0 then -1 else i + 1
  end.

(** [s[a:b]] and [s[a:]], for indices in range. *)
Definition slice (s : string) (a b : Z) : string := String.substring (Z.to_nat a) (Z.to_nat (b - a)) s.
Definition slice_from (s : string) (a : Z) : string :=
  slice s a (Z.of_nat (String.length s)).

Definition ascii_separator : Ascii.ascii := Ascii.ascii_of_nat 31.
Definition separator : string := String ascii_separator EmptyString.

(** [strings.Join] and [strings.Split] with the one-byte separator. *)
Fixpoint Join (items : list string) : string :=
  match items with
  | [] => EmptyString
  | [x] => x
  | x :: l => String.append x (String.append separator (Join l))
  end.

Fixpoint Split (s : string) : list string :=
  match s with
  | EmptyString => [EmptyString]
  | String c s =>
      if Ascii.eqb c ascii_separator then EmptyString :: Split s
      else match Split s with
           | x :: l => String c x :: l
           | [] => [String c EmptyString]
           end
  end.

(** ** Label array lists *)

Definition nextArray (str : string) (end_ : Z) : Z * Z :=
  let start := IndexByte (slice_from str end_) "["%char in
  if 0 <=? start then
    let start := start + end_ in
    let end_ := IndexByte (slice_from str start) "]"%char in
    (start, if 0 <=? end_ then end_ + start + 1 else end_)
  else (start, end_).

Definition sb_write (sb s : string) : string :=
  String.append (if bool_decide (sb = EmptyString) then sb else String.append sb ", ") s.

Definition writeRemainder (str : string) (start end_ : Z) (sb : string) : string :=
  if (0 <=? start) && (start <? end_) then sb_write sb (slice_from str start) else sb.

Definition no_array (start end_ : Z) : bool := (start <? 0) || (end_ <? 0) || (end_ <=? start).

(** The two inner loops: [inl] is [break Loop] with the text written so far. *)
Fixpoint lesser_from_a (fuel : nat) (a b : string) (aStart aEnd bStart bEnd : Z) (sb : string)
  : option (string + (Z * Z * string)) :=
  match fuel with
  | O => None
  | S fuel =>
      if String.ltb (slice a aStart aEnd) (slice b bStart bEnd) then
        let sb := sb_write sb (slice a aStart aEnd) in
        let '(aStart, aEnd) := nextArray a aEnd in
        if no_array aStart aEnd then Some (inl (writeRemainder b bStart bEnd sb))
        else lesser_from_a fuel a b aStart aEnd bStart bEnd sb
      else Some (inr (aStart, aEnd, sb))
  end.

Fixpoint lesser_from_b (fuel : nat) (a b : string) (aStart aEnd bStart bEnd : Z) (sb : string)
  : option (string + (Z * Z * string)) :=
  match fuel with
  | O => None
  | S fuel =>
      if String.ltb (slice b bStart bEnd) (slice a aStart aEnd) then
        let sb := sb_write sb (slice b bStart bEnd) in
        let '(bStart, bEnd) := nextArray b bEnd in
        if no_array bStart bEnd then Some (inl (writeRemainder a aStart aEnd sb))
        else lesser_from_b fuel a b aStart aEnd bStart bEnd sb
      else Some (inr (bStart, bEnd, sb))
  end.

Fixpoint merge_loop (fuel : nat) (a b : string) (aEnd bEnd : Z) (sb : string) : option string :=
  match fuel with
  | O => None
  | S fuel' =>
      let '(aStart, aEnd) := nextArray a aEnd in
      if no_array aStart aEnd then
        let '(bStart, bEnd) := nextArray b bEnd in Some (writeRemainder b bStart bEnd sb)
      else
        let '(bStart, bEnd) := nextArray b bEnd in
        if no_array bStart bEnd then Some (writeRemainder a aStart aEnd sb)
        else
          match lesser_from_a fuel a b aStart aEnd bStart bEnd sb with
          | None => None
          | Some (inl r) => Some r
          | Some (inr (aStart, aEnd, sb)) =>
              match lesser_from_b fuel a b aStart aEnd bStart bEnd sb with
              | None => None
              | Some (inl r) => Some r
              | Some (inr (bStart, bEnd, sb)) =>
                  let sb :=
                    if bool_decide (slice a aStart aEnd = slice b bStart bEnd)
                    then sb_write sb (slice b bStart bEnd) else sb in
                  merge_loop fuel' a b aEnd bEnd sb
              end
          end
  end.

(** Every round consumes an array, so the fuel is never exhausted
    ([merge_loop_total]). *)
Definition MergeSortedLabelArrayListStrings (la lb : string) : string :=
  default EmptyString
    (merge_loop (2 + String.length la + String.length lb)%nat la lb 0 0 EmptyString).

(** ** String lists *)

Definition newStringList (items : list string) : string :=
  Join (merge_sort (λ x y, Is_true (String.leb x y)) items).

Definition mergeStringList (a b : string) : string :=
  if bool_decide (a = EmptyString) then b
  else if bool_decide (b = EmptyString) then a
  else newStringList (elements (list_to_set (Split a ++ Split b) : gset string)).

(** ** [ruleOrigin]

    A unique handle compares by the value it stands for; [None] is the zero
    handle. *)

Record RuleMeta := mkRuleMeta { rm_labels : string; rm_log : string }.

#[export] Instance RuleMeta_eq_dec : EqDecision RuleMeta.
Proof. solve_decision. Defined.

Definition ruleOrigin : Type := option RuleMeta.

Definition ruleOrigin_Value (ro : ruleOrigin) : RuleMeta :=
  match ro with None => mkRuleMeta EmptyString EmptyString | Some v => v end.

Definition LabelsString (ro : ruleOrigin) : string :=
  match ro with None => EmptyString | Some v => rm_labels v end.

(** [json.Marshal] of a list of strings: the escapes of [encoding/json]. *)
Definition hex_digit (n : N) : Ascii.ascii :=
  Ascii.ascii_of_N (if (n <? 10)%N then 48 + n else 87 + n)%N.

Definition json_u00 (n : N) : list Ascii.ascii :=
  [("\")%char; "u"%char; "0"%char; "0"%char; hex_digit (n / 16); hex_digit (n mod 16)]%N.

Definition json_ascii (c : Ascii.ascii) : list Ascii.ascii :=
  let n := Ascii.N_of_ascii c in
  (if (n =? 92) || (n =? 34) then ["\"%char; c]
   else if n =? 8 then ["\"%char; "b"%char]
   else if n =? 12 then ["\"%char; "f"%char]
   else if n =? 10 then ["\"%char; "n"%char]
   else if n =? 13 then ["\"%char; "r"%char]
   else if n =? 9 then ["\"%char; "t"%char]
   else if (n <? 32) || (n =? 38) || (n =? 60) || (n =? 62) then json_u00 n
   else [c])%N.

(** [utf8.DecodeRune] on the first bytes: the size of a valid multi-byte
    sequence, by the ranges of the first two bytes. *)
Definition cont (lo hi n : N) : bool := ((lo <=? n) && (n <=? hi))%N.

Definition utf8_size (l : list N) : nat :=
  match l with
  | a :: b :: l' =>
      if cont 194 223 a && cont 128 191 b then 2
      else match l' with
      | c :: l'' =>
          let lo2 := (if (a =? 224)%N then 160 else 128)%N in
          let hi2 := (if (a =? 237)%N then 159 else 191)%N in
          if cont 224 239 a && cont lo2 hi2 b && cont 128 191 c then 3
          else match l'' with
          | d :: _ =>
              let lo4 := (if (a =? 240)%N then 144 else 128)%N in
              let hi4 := (if (a =? 244)%N then 143 else 191)%N in
              if cont 240 244 a && cont lo4 hi4 b && cont 128 191 c && cont 128 191 d then 4
              else 1
          | [] => 1
          end
      | [] => 1
      end
  | _ => 1
  end.

Definition json_u (digits : string) : list Ascii.ascii :=
  String.list_ascii_of_string (String.append "\u" digits).

(** [drop] bytes are to be skipped, then [copy] bytes of a multi-byte sequence to
    be copied. *)
Fixpoint json_body (drop copy : nat) (s : list Ascii.ascii) : list Ascii.ascii :=
  match s with
  | [] => []
  | c :: s' =>
      match drop, copy with
      | S drop, _ => json_body drop copy s'
      | O, S copy => c :: json_body 0 copy s'
      | O, O =>
          if (Ascii.N_of_ascii c <? 128)%N then json_ascii c ++ json_body 0 0 s'
          else
            match Ascii.N_of_ascii <$> s with
            | 226%N :: 128%N :: 168%N :: _ => json_u "2028" ++ json_body 2 0 s'
            | 226%N :: 128%N :: 169%N :: _ => json_u "2029" ++ json_body 2 0 s'
            | l =>
                match utf8_size l with
                | S (S m) => c :: json_body 0 (S m) s'
                | _ => json_u "fffd" ++ json_body 0 0 s'
                end
            end
      end
  end.

Definition json_quote : Ascii.ascii := Ascii.ascii_of_nat 34.

Definition json_string (s : string) : list Ascii.ascii :=
  json_quote :: json_body 0 0 (String.list_ascii_of_string s) ++ [json_quote].

Fixpoint json_items (l : list string) : list Ascii.ascii :=
  match l with
  | [] => []
  | [s] => json_string s
  | s :: l => json_string s ++ ","%char :: json_items l
  end.

Definition json_Marshal (l : list string) : string :=
  String.string_of_list_ascii (("["%char :: json_items l) ++ ["]"%char]).

Definition LogString (ro : ruleOrigin) : string :=
  match ro with None => EmptyString | Some v => json_Marshal (Split (rm_log v)) end.

Definition makeRuleOrigin (lbls : string) (logs : list string) : ruleOrigin :=
  Some (mkRuleMeta lbls (newStringList logs)).

Definition ruleOrigin_Merge (ro other : ruleOrigin) : ruleOrigin :=
  if bool_decide (ro = other) then ro
  else
    match ro, other with
    | None, _ => other
    | _, None => ro
    | Some v, Some w =>
        Some (mkRuleMeta (MergeSortedLabelArrayListStrings (rm_labels v) (rm_labels w))
                (mergeStringList (rm_log v) (rm_log w)))
    end.

Definition NilRuleOrigin : ruleOrigin := Some (mkRuleMeta "[]" EmptyString).

(** ** Termination of the merge *)

Definition slen (s : string) : Z := Z.of_nat (String.length s).

Lemma IndexByte_bounds s c : -1 ≤ IndexByte s c < slen s ∨ IndexByte s c = -1.
Proof.
  unfold slen. induction s as [|d s IH]; [by right|]. cbn [IndexByte String.length].
  destruct (Ascii.eqb d c); [left; lia|].
  destruct (Z.ltb_spec (IndexByte s c) 0); [by right|left; lia].
Qed.

Lemma substring_length n m s : (String.length (String.substring n m s) ≤ String.length s - n)%nat.
Proof.
  revert n m. induction s as [|c s IH]; intros [|n] [|m]; simpl; try lia.
  - specialize (IH 0%nat m). lia.
  - apply IH.
  - apply IH.
Qed.

Lemma slice_from_length s e : 0 ≤ e → slen (slice_from s e) ≤ Z.max 0 (slen s - e).
Proof.
  intros He. unfold slice_from, slice, slen.
  pose proof (substring_length (Z.to_nat e) (Z.to_nat (Z.of_nat (String.length s) - e)) s). lia.
Qed.

Lemma nextArray_progress s e st e' :
  0 ≤ e → nextArray s e = (st, e') → no_array st e' = false → e < e' ≤ slen s.
Proof.
  intros He. unfold nextArray, no_array.
  pose proof (IndexByte_bounds (slice_from s e) "["%char) as H1.
  pose proof (slice_from_length s e He) as H2.
  destruct (Z.leb_spec 0 (IndexByte (slice_from s e) "["%char)) as [Hs|Hs].
  - set (i := IndexByte (slice_from s e) "["%char) in *.
    pose proof (IndexByte_bounds (slice_from s (i + e)) "]"%char) as H3.
    pose proof (slice_from_length s (i + e) ltac:(lia)) as H4.
    intros [= <- <-]. rewrite !orb_false_iff, !Z.ltb_ge, Z.leb_gt.
    destruct (Z.leb_spec 0 (IndexByte (slice_from s (i + e)) "]"%char)); lia.
  - intros [= <- <-]. rewrite !orb_false_iff, !Z.ltb_ge. lia.
Qed.

Lemma lesser_from_a_total fuel a b aS aE bS bE sb :
  0 ≤ aE ≤ slen a → slen a - aE < Z.of_nat fuel →
  ∃ r, lesser_from_a fuel a b aS aE bS bE sb = Some r ∧
    match r with inr (_, aE', _) => aE ≤ aE' ≤ slen a | inl _ => True end.
Proof.
  revert aS aE sb. induction fuel as [|fuel IH]; intros aS aE sb Ha Hf; [lia|].
  cbn [lesser_from_a]. destruct (String.ltb _ _); [|eexists; split; [done|simpl; lia]].
  destruct (nextArray a aE) as [aS' aE'] eqn:EN. destruct (no_array aS' aE') eqn:Eno; [by eexists|].
  pose proof (nextArray_progress _ _ _ _ (proj1 Ha) EN Eno).
  destruct (IH aS' aE' (sb_write sb (slice a aS aE)) ltac:(lia) ltac:(lia)) as (r & -> & Hr).
  exists r. split; [done|]. destruct r as [|[[? ?] ?]]; [done|lia].
Qed.

Lemma lesser_from_b_total fuel a b aS aE bS bE sb :
  0 ≤ bE ≤ slen b → slen b - bE < Z.of_nat fuel →
  ∃ r, lesser_from_b fuel a b aS aE bS bE sb = Some r ∧
    match r with inr (_, bE', _) => bE ≤ bE' ≤ slen b | inl _ => True end.
Proof.
  revert bS bE sb. induction fuel as [|fuel IH]; intros bS bE sb Hb Hf; [lia|].
  cbn [lesser_from_b]. destruct (String.ltb _ _); [|eexists; split; [done|simpl; lia]].
  destruct (nextArray b bE) as [bS' bE'] eqn:EN. destruct (no_array bS' bE') eqn:Eno; [by eexists|].
  pose proof (nextArray_progress _ _ _ _ (proj1 Hb) EN Eno).
  destruct (IH bS' bE' (sb_write sb (slice b bS bE)) ltac:(lia) ltac:(lia)) as (r & -> & Hr).
  exists r. split; [done|]. destruct r as [|[[? ?] ?]]; [done|lia].
Qed.

(** The merge returns: its fuel covers the arrays left in both strings. *)
Lemma merge_loop_total fuel a b aE bE sb :
  0 ≤ aE ≤ slen a → 0 ≤ bE ≤ slen b →
  (slen a - aE) + (slen b - bE) < Z.of_nat fuel →
  is_Some (merge_loop fuel a b aE bE sb).
Proof.
  revert aE bE sb. induction fuel as [|fuel IH]; intros aE bE sb Ha Hb Hf; [lia|].
  cbn [merge_loop]. destruct (nextArray a aE) as [aS aE'] eqn:EA.
  destruct (no_array aS aE') eqn:Na; [destruct (nextArray b bE); by eexists|].
  pose proof (nextArray_progress _ _ _ _ (proj1 Ha) EA Na).
  destruct (nextArray b bE) as [bS bE'] eqn:EB. destruct (no_array bS bE') eqn:Nb; [by eexists|].
  pose proof (nextArray_progress _ _ _ _ (proj1 Hb) EB Nb).
  destruct (lesser_from_a_total (S fuel) a b aS aE' bS bE' sb ltac:(lia) ltac:(lia)) as (r & -> & Hr).
  destruct r as [r|[[aS2 aE2] sb2]]; [by eexists|].
  destruct (lesser_from_b_total (S fuel) a b aS2 aE2 bS bE' sb2 ltac:(lia) ltac:(lia)) as (r & -> & Hr').
  destruct r as [r|[[bS2 bE2] sb3]]; [by eexists|]. apply IH; lia.
Qed.

(** ** Properties *)

(** Merging two sorted label lists drops label arrays: when the current
    array of the first list ends up below that of the second, both are skipped. *)
Theorem merge_label_lists_loses_arrays :
  MergeSortedLabelArrayListStrings "[a], [d]" "[b], [e]" = "[a], [b]"%string.
Proof. vm_compute. reflexivity. Qed.
