(* ===== verification/PassMeta.v ===== *)
(** * Pass metadata

    Model of the [passMeta] part of [src/pkg/policy/mapstate.go]: the metadata a
    PASS verdict leaves on a policy entry, at most one per tier, and the
    precedence an entry of a lower tier inherits from the passes covering it. *)

From S2P Require Import Prelude Precedence.

Local Open Scope Z_scope.

(** ** Operations *)

Record passMeta := mkPassMeta {
  pm_precedence : Z;
  tierMaxPrecedence : Z;
  tierMinPrecedence : Z;
}.

#[export] Instance passMeta_eq_dec : EqDecision passMeta.
Proof. solve_decision. Defined.

Notation passMetas := (list passMeta).

(** [slices.Insert]. *)
Definition insert_at {A} (l : list A) (i : nat) (x : A) : list A := take i l ++ x :: drop i l.

(** The scan of [Collect] from index [i]: the updated slice. *)
Fixpoint collect_scan (l : passMetas) (pass : passMeta) : passMetas :=
  match l with
  | [] => [pass]
  | m :: l =>
      if tierMinPrecedence pass <? tierMinPrecedence m then pass :: m :: l
      else if tierMinPrecedence m =? tierMinPrecedence pass then
        (if pm_precedence m <? pm_precedence pass then pass :: l else m :: l)
      else m :: collect_scan l pass
  end.

Definition Collect (pm : passMetas) (pass : passMeta) : passMetas :=
  if (pm_precedence pass =? 0) || (pm_precedence pass <? tierMinPrecedence pass)
     || (tierMaxPrecedence pass <? pm_precedence pass)
  then pm else collect_scan pm pass.

Definition isDifferentTierOrHigherPrecedence (pass : passMeta) (precedence : Z) : bool :=
  let sameTier := (tierMinPrecedence pass <=? precedence) && (precedence <=? tierMaxPrecedence pass) in
  negb sameTier || (precedence <? pm_precedence pass).

Fixpoint passMetas_Delete (old : passMetas) (precedence : Z) : passMetas :=
  match old with
  | [] => []
  | m :: old =>
      if isDifferentTierOrHigherPrecedence m precedence
      then m :: passMetas_Delete old precedence
      else passMetas_Delete old precedence
  end.

(** How far the inner loop of [Merge] advances. *)
Fixpoint skip_lower (l : passMetas) (t : Z) : nat :=
  match l with
  | [] => 0
  | m :: l => if tierMinPrecedence m <? t then S (skip_lower l t) else 0
  end.

(** The outer loop: [other] is what is left of it from [j] on. *)
Fixpoint Merge_loop (old other : passMetas) (i : nat) : passMetas :=
  match other with
  | [] => old
  | o :: other' =>
      let i := (i + skip_lower (drop i old) (tierMinPrecedence o))%nat in
      match old !! i with
      | None => old ++ other
      | Some m =>
          if tierMinPrecedence o <? tierMinPrecedence m
          then Merge_loop (insert_at old i o) other' i
          else if pm_precedence m <? pm_precedence o
          then Merge_loop (<[i := o]> old) other' i
          else Merge_loop old other' i
      end
  end.

Definition passMetas_Merge (old other : passMetas) : passMetas := Merge_loop old other 0.

(** [*passMetas]: [None] is nil.  The boolean says whether the returned pointer
    differs from the receiver. *)
Definition MergeClone (old other : option passMetas) : option passMetas * bool :=
  match old, other with
  | None, None => (None, false)
  | None, Some _ | Some [], Some _ => (other, true)
  | Some [], None => (None, true)
  | Some _, None | Some _, Some [] => (old, false)
  | Some a, Some b =>
      if bool_decide (a = b) then (old, false) else (Some (passMetas_Merge a b), true)
  end.

Fixpoint InheritPassPrecedence (precedence : Z) (passes : passMetas) : Z :=
  match passes with
  | [] => precedence
  | pass :: passes =>
      InheritPassPrecedence
        (uwrap 32 (uwrap 32 (precedence - tierMinPrecedence pass) + pm_precedence pass)) passes
  end.

(** ** Sorted pass metadata *)

(** At most one entry per tier, in the order of increasing precedence. *)
Definition pm_sorted (l : passMetas) : Prop :=
  StronglySorted (λ a b, tierMinPrecedence a < tierMinPrecedence b) l.

(** Below every entry of the list. *)
Definition pm_below (t : Z) (l : passMetas) : Prop := Forall (λ m, t < tierMinPrecedence m) l.

Lemma pm_sorted_cons m l : pm_sorted (m :: l) ↔ pm_below (tierMinPrecedence m) l ∧ pm_sorted l.
Proof.
  split; [intros H; inversion H; by subst|intros [? ?]; by constructor].
Qed.

Lemma pm_below_weaken t t' l : t' ≤ t → pm_below t l → pm_below t' l.
Proof. intros Ht Hl. eapply Forall_impl; [exact Hl|]. intros m ?. simpl in *. lia. Qed.

(** A reference merge of two sorted lists, keeping the higher precedence on equal
    tiers and the receiver's entry on equal precedence. *)
Fixpoint merge_ref (a : passMetas) : passMetas → passMetas :=
  fix go b :=
    match a, b with
    | [], _ => b
    | _, [] => a
    | x :: a', y :: b' =>
        if tierMinPrecedence x <? tierMinPrecedence y then x :: merge_ref a' b
        else if tierMinPrecedence y <? tierMinPrecedence x then y :: go b'
        else (if pm_precedence x <? pm_precedence y then y else x) :: merge_ref a' b'
    end.

Lemma merge_ref_nil_r a : merge_ref a [] = a.
Proof. by destruct a. Qed.

Lemma merge_ref_cons x a y b :
  merge_ref (x :: a) (y :: b) =
    if tierMinPrecedence x <? tierMinPrecedence y then x :: merge_ref a (y :: b)
    else if tierMinPrecedence y <? tierMinPrecedence x then y :: merge_ref (x :: a) b
    else (if pm_precedence x <? pm_precedence y then y else x) :: merge_ref a b.
Proof. done. Qed.

(** Advancing over an entry below everything that is left of [other]. *)
Lemma merge_ref_skip x a b : pm_below (tierMinPrecedence x) b → merge_ref (x :: a) b = x :: merge_ref a b.
Proof.
  intros Hb. destruct b as [|y b]; [by rewrite !merge_ref_nil_r|]. inversion Hb; subst.
  rewrite merge_ref_cons. by rewrite (proj2 (Z.ltb_lt _ _)).
Qed.

Lemma skip_lower_spec l t :
  ∃ l1 l2, l = l1 ++ l2 ∧ skip_lower l t = length l1 ∧
    Forall (λ m, tierMinPrecedence m < t) l1 ∧
    match l2 with [] => True | m :: _ => t ≤ tierMinPrecedence m end.
Proof.
  induction l as [|m l (l1 & l2 & -> & E & H1 & H2)]; [by exists [], []|]. simpl.
  destruct (Z.ltb_spec (tierMinPrecedence m) t).
  - exists (m :: l1), l2. rewrite E. split_and!; try done. by constructor.
  - exists [], (m :: l1 ++ l2). by split_and!.
Qed.

Lemma merge_ref_skips l1 l2 o other :
  Forall (λ m, tierMinPrecedence m < tierMinPrecedence o) l1 → pm_sorted (o :: other) →
  merge_ref (l1 ++ l2) (o :: other) = l1 ++ merge_ref l2 (o :: other).
Proof.
  intros H Ho. induction H as [|m l1 Hm Hl IH]; [done|]. simpl app.
  rewrite merge_ref_cons, (proj2 (Z.ltb_lt _ _)) by done. simpl. by rewrite IH.
Qed.

(** The loop started at the end of a prefix agrees with the reference merge. *)
Lemma Merge_loop_ref other : ∀ pre suf,
  pm_sorted other → pm_sorted suf →
  Merge_loop (pre ++ suf) other (length pre) = pre ++ merge_ref suf other.
Proof.
  induction other as [|o other IH]; intros pre suf Ho Hs; [by rewrite merge_ref_nil_r|].
  cbn [Merge_loop]. rewrite drop_app_length.
  destruct (skip_lower_spec suf (tierMinPrecedence o)) as (l1 & l2 & -> & -> & H1 & H2).
  rewrite (merge_ref_skips _ _ _ _ H1 Ho). apply pm_sorted_cons in Ho as [Hb Ho].
  rewrite <- length_app. rewrite !app_assoc.
  destruct l2 as [|m l2].
  { rewrite app_nil_r. rewrite (proj2 (lookup_ge_None _ _)) by done. done. }
  rewrite lookup_app_r, Nat.sub_diag by done. cbn [lookup list_lookup].
  assert (Hs2 : pm_sorted (m :: l2)) by (by apply StronglySorted_app_1_r in Hs).
  rewrite merge_ref_cons, (proj2 (Z.ltb_ge (tierMinPrecedence m) (tierMinPrecedence o)) H2).
  destruct (Z.ltb_spec (tierMinPrecedence o) (tierMinPrecedence m)) as [Hlt|Hge].
  - unfold insert_at. rewrite take_app_length, drop_app_length.
    rewrite (IH (pre ++ l1) (o :: m :: l2)); [|done|apply pm_sorted_cons; split; [|done]].
    + rewrite merge_ref_skip by done. done.
    + constructor; [done|]. apply pm_sorted_cons in Hs2 as [Hs2 _].
      by eapply pm_below_weaken; [|exact Hs2]; lia.
  - assert (E : tierMinPrecedence o = tierMinPrecedence m) by lia.
    apply pm_sorted_cons in Hs2 as [Hm Hl2].
    destruct (pm_precedence m <? pm_precedence o) eqn:Ep.
    + rewrite insert_app_r_alt, Nat.sub_diag by done. simpl.
      rewrite (IH (pre ++ l1) (o :: l2)); [|done|apply pm_sorted_cons; by rewrite E].
      by rewrite merge_ref_skip by done.
    + rewrite (IH (pre ++ l1) (m :: l2)); [|done|by apply pm_sorted_cons].
      rewrite merge_ref_skip by (by rewrite <- E). done.
Qed.

Lemma passMetas_Merge_ref old other :
  pm_sorted other → pm_sorted old → passMetas_Merge old other = merge_ref old other.
Proof. intros. by apply (Merge_loop_ref other [] old). Qed.

Lemma pm_below_elem t l m : pm_below t l → m ∈ l → t < tierMinPrecedence m.
Proof. unfold pm_below. rewrite Forall_forall. auto. Qed.

Lemma merge_ref_below t a b : pm_below t a → pm_below t b → pm_below t (merge_ref a b).
Proof.
  intros Ha. revert b. induction Ha as [|x a Hx Ha IHa]; intros b Hb; [by destruct b|].
  induction Hb as [|y b Hy Hb IHb]; [by constructor|]. rewrite merge_ref_cons.
  destruct (_ <? _); [constructor; [done|apply IHa; by constructor]|].
  destruct (_ <? _); [by constructor|].
  constructor; [by destruct (_ <? _)|by apply IHa].
Qed.

Lemma merge_ref_sorted a b : pm_sorted a → pm_sorted b → pm_sorted (merge_ref a b).
Proof.
  revert b. induction a as [|x a IHa]; intros b Ha Hb; [by destruct b|].
  apply pm_sorted_cons in Ha as [Hxa Ha].
  induction b as [|y b IHb]; [by apply pm_sorted_cons|].
  pose proof Hb as Hb0. apply pm_sorted_cons in Hb as [Hyb Hb]. rewrite merge_ref_cons.
  destruct (Z.ltb_spec (tierMinPrecedence x) (tierMinPrecedence y)) as [Hxy|Hyx].
  { apply pm_sorted_cons. split; [|by apply IHa]. apply merge_ref_below; [done|].
    constructor; [done|]. eapply pm_below_weaken; [|exact Hyb]. lia. }
  destruct (Z.ltb_spec (tierMinPrecedence y) (tierMinPrecedence x)) as [Hyx'|Hxy'].
  { apply pm_sorted_cons. split; [|by apply IHb]. apply merge_ref_below; [|done].
    constructor; [done|]. eapply pm_below_weaken; [|exact Hxa]. lia. }
  apply pm_sorted_cons. split; [|by apply IHa].
  assert (E : tierMinPrecedence y = tierMinPrecedence x) by lia.
  destruct (_ <? _); apply merge_ref_below; rewrite ?E; try done; by rewrite <- E.
Qed.

(** Which entries survive a merge. *)
Definition merge_keeps (a b : passMetas) (m : passMeta) : Prop :=
  (m ∈ a ∧ ∀ m', m' ∈ b → tierMinPrecedence m' = tierMinPrecedence m →
     pm_precedence m' ≤ pm_precedence m) ∨
  (m ∈ b ∧ ∀ m', m' ∈ a → tierMinPrecedence m' = tierMinPrecedence m →
     pm_precedence m' < pm_precedence m).

Lemma merge_keeps_left x a b m : pm_below (tierMinPrecedence x) a → pm_below (tierMinPrecedence x) b →
  merge_keeps (x :: a) b m ↔ m = x ∨ merge_keeps a b m.
Proof.
  intros Ha Hb. pose proof (λ m', pm_below_elem _ _ m' Ha) as Ha'.
  pose proof (λ m', pm_below_elem _ _ m' Hb) as Hb'.
  unfold merge_keeps. setoid_rewrite elem_of_cons. split.
  - intros [[[-> |Hm] H]|[Hm H]]; auto.
    right. right. split; [done|]. intros m' ?. apply H. auto.
  - intros [-> |[[Hm H]|[Hm H]]].
    + left. split; [auto|]. intros m' Hm' E. specialize (Hb' m' Hm'). lia.
    + left. auto.
    + right. split; [done|]. intros m' [-> |Hm'] E; [|auto]. specialize (Hb' m Hm). lia.
Qed.

Lemma merge_keeps_right y a b m : pm_below (tierMinPrecedence y) a → pm_below (tierMinPrecedence y) b →
  merge_keeps a (y :: b) m ↔ m = y ∨ merge_keeps a b m.
Proof.
  intros Ha Hb. pose proof (λ m', pm_below_elem _ _ m' Ha) as Ha'.
  pose proof (λ m', pm_below_elem _ _ m' Hb) as Hb'.
  unfold merge_keeps. setoid_rewrite elem_of_cons. split.
  - intros [[Hm H]|[[-> |Hm] H]]; auto.
    right. left. split; [done|]. intros m' ?. apply H. auto.
  - intros [-> |[[Hm H]|[Hm H]]].
    + right. split; [auto|]. intros m' Hm' E. specialize (Ha' m' Hm'). lia.
    + left. split; [done|]. intros m' [-> |Hm'] E; [|auto]. specialize (Ha' m Hm). lia.
    + right. auto.
Qed.

Lemma merge_keeps_both x y a b m : tierMinPrecedence x = tierMinPrecedence y →
  pm_below (tierMinPrecedence x) a → pm_below (tierMinPrecedence y) b →
  merge_keeps (x :: a) (y :: b) m ↔
    m = (if pm_precedence x <? pm_precedence y then y else x) ∨ merge_keeps a b m.
Proof.
  intros E Ha Hb. pose proof (λ m', pm_below_elem _ _ m' Ha) as Ha'.
  pose proof (λ m', pm_below_elem _ _ m' Hb) as Hb'.
  unfold merge_keeps. setoid_rewrite elem_of_cons.
  destruct (Z.ltb_spec (pm_precedence x) (pm_precedence y)) as [Hp|Hp]; split.
  - intros [[[-> |Hm] H]|[[-> |Hm] H]]; auto.
    + specialize (H y ltac:(auto) ltac:(auto)). lia.
    + right. left. split; [done|]. intros m' ?. apply H. auto.
    + right. right. split; [done|]. intros m' ?. apply H. auto.
  - intros [-> |[[Hm H]|[Hm H]]].
    + right. split; [auto|]. intros m' [-> |Hm'] Ee; [lia|]. specialize (Ha' m' Hm'). lia.
    + left. split; [auto|]. intros m' [-> |Hm'] Ee; [|auto]. specialize (Ha' m Hm). lia.
    + right. split; [auto|]. intros m' [-> |Hm'] Ee; [|auto]. specialize (Hb' m Hm). lia.
  - intros [[[-> |Hm] H]|[[-> |Hm] H]]; auto.
    + right. left. split; [done|]. intros m' ?. apply H. auto.
    + specialize (H x ltac:(auto) ltac:(auto)). lia.
    + right. right. split; [done|]. intros m' ?. apply H. auto.
  - intros [-> |[[Hm H]|[Hm H]]].
    + left. split; [auto|]. intros m' [-> |Hm'] Ee; [lia|]. specialize (Hb' m' Hm'). lia.
    + left. split; [auto|]. intros m' [-> |Hm'] Ee; [|auto]. specialize (Ha' m Hm). lia.
    + right. split; [auto|]. intros m' [-> |Hm'] Ee; [|auto]. specialize (Hb' m Hm). lia.
Qed.

Lemma merge_ref_elem a b m : pm_sorted a → pm_sorted b → m ∈ merge_ref a b ↔ merge_keeps a b m.
Proof.
  revert b. induction a as [|x a IHa]; intros b Ha Hb.
  { unfold merge_keeps. setoid_rewrite elem_of_nil. destruct b; simpl; naive_solver. }
  apply pm_sorted_cons in Ha as [Hxa Ha].
  induction b as [|y b IHb].
  { rewrite merge_ref_nil_r. unfold merge_keeps. setoid_rewrite elem_of_nil. naive_solver. }
  pose proof Hb as Hb0. apply pm_sorted_cons in Hb as [Hyb Hb]. rewrite merge_ref_cons.
  destruct (Z.ltb_spec (tierMinPrecedence x) (tierMinPrecedence y)) as [Hxy|Hyx].
  { rewrite elem_of_cons, IHa by done. symmetry. apply merge_keeps_left; [done|].
    constructor; [done|]. eapply pm_below_weaken; [|exact Hyb]. lia. }
  destruct (Z.ltb_spec (tierMinPrecedence y) (tierMinPrecedence x)) as [Hyx'|Hxy'].
  { rewrite elem_of_cons, IHb by done. symmetry. apply merge_keeps_right; [|done].
    constructor; [done|]. eapply pm_below_weaken; [|exact Hxa]. lia. }
  rewrite elem_of_cons, IHa by done. symmetry. apply merge_keeps_both; [lia|done..].
Qed.

Lemma collect_scan_ref l pass : collect_scan l pass = merge_ref l [pass].
Proof.
  induction l as [|m l IH]; [done|]. rewrite merge_ref_cons. cbn [collect_scan].
  destruct (Z.ltb_spec (tierMinPrecedence pass) (tierMinPrecedence m)),
    (Z.eqb_spec (tierMinPrecedence m) (tierMinPrecedence pass)),
    (Z.ltb_spec (tierMinPrecedence m) (tierMinPrecedence pass)); try lia; try done.
  - destruct (_ <? _); by rewrite merge_ref_nil_r.
  - by rewrite IH.
Qed.

(** ** Inherited precedence *)

(** A pass within its tier, with a base precedence and tier bound. *)
Definition pass_ok (m : passMeta) : Prop :=
  0 ≤ tierMinPrecedence m ≤ pm_precedence m ∧ pm_precedence m ≤ tierMaxPrecedence m ∧
  tierMaxPrecedence m < 2 ^ 32 ∧ pm_precedence m mod 256 = 0 ∧ tierMinPrecedence m mod 256 = 0.

(** Passes of separate tiers above the precedence [p]. *)
Fixpoint passes_above (p : Z) (l : passMetas) : Prop :=
  match l with
  | [] => True
  | m :: l => pass_ok m ∧ p < tierMinPrecedence m ∧ passes_above (tierMaxPrecedence m) l
  end.

(** How much the passes lift an entry. *)
Definition lift (l : passMetas) : Z :=
  foldr (λ m s, pm_precedence m - tierMinPrecedence m + s) 0 l.

Lemma passes_above_weaken p q l : q ≤ p → passes_above p l → passes_above q l.
Proof. destruct l as [|m l]; [done|]. simpl. intros Hq (? & ? & ?). split_and!; try done. lia. Qed.

Lemma InheritPassPrecedence_lift l p : 0 ≤ p → passes_above p l →
  InheritPassPrecedence p l = p + lift l ∧ 0 ≤ lift l ∧ lift l mod 256 = 0 ∧
  match last l with Some m => p + lift l < pm_precedence m | None => True end.
Proof.
  revert p. induction l as [|m l IH]; intros p Hp Hl; [simpl; split_and!; (done || lia)|].
  destruct Hl as ((H1 & H2 & H3 & H4 & H5) & Hlt & Hl).
  cbn [InheritPassPrecedence lift foldr].
  assert (E : uwrap 32 (uwrap 32 (p - tierMinPrecedence m) + pm_precedence m) =
    p + (pm_precedence m - tierMinPrecedence m)).
  { unfold uwrap. rewrite Z.add_mod_idemp_l by lia. rewrite Z.mod_small; lia. }
  rewrite E. destruct (IH (p + (pm_precedence m - tierMinPrecedence m))) as (-> & I1 & I2 & I3);
    [lia|by eapply passes_above_weaken; [|exact Hl]; lia|].
  fold (lift l). split; [lia|]. split; [lia|]. split.
  { rewrite Z.add_mod, I2 by done.
    rewrite Zminus_mod, H4, H5. done. }
  destruct l as [|m' l]; [simpl in *; lia|]. rewrite last_cons.
  destruct (last (m' :: l)) as [x|] eqn:El; [lia|]. apply last_None in El. done.
Qed.

(** ** Properties *)

(** Merging pass metadata keeps the slices sorted with one entry per tier, and
    keeps of each tier exactly the pass of highest precedence (the receiver's on a
    tie). *)
Theorem passMetas_Merge_spec (old other : passMetas) :
  pm_sorted old → pm_sorted other →
  pm_sorted (passMetas_Merge old other) ∧
  ∀ m, m ∈ passMetas_Merge old other ↔
    (m ∈ old ∧ ∀ m', m' ∈ other → tierMinPrecedence m' = tierMinPrecedence m →
       pm_precedence m' ≤ pm_precedence m) ∨
    (m ∈ other ∧ ∀ m', m' ∈ old → tierMinPrecedence m' = tierMinPrecedence m →
       pm_precedence m' < pm_precedence m).
Proof.
  intros Ho Hn. rewrite passMetas_Merge_ref by done.
  split; [by apply merge_ref_sorted|]. intros m. by apply merge_ref_elem.
Qed.

Definition pass_a : passMeta := mkPassMeta 4096 8191 2048.
Definition pass_b : passMeta := mkPassMeta 20480 32767 16384.
Definition pass_c : passMeta := mkPassMeta 24576 32767 16384.

Lemma passMetas_Merge_spec_witness :
  passMetas_Merge [pass_b] [pass_a; pass_c] = [pass_a; pass_c] ∧
  pm_sorted (passMetas_Merge [pass_b] [pass_a; pass_c]).
Proof.
  split; [reflexivity|].
  apply (passMetas_Merge_spec [pass_b] [pass_a; pass_c]); repeat constructor.
Defined.

(** Collecting a pass is merging the one-entry slice, when the pass lies within
    its tier, and leaves the slice alone otherwise; the slice stays sorted. *)
Theorem Collect_is_Merge (pm : passMetas) (pass : passMeta) :
  pm_sorted pm →
  pm_sorted (Collect pm pass) ∧
  Collect pm pass =
    if (pm_precedence pass =? 0) || (pm_precedence pass <? tierMinPrecedence pass)
       || (tierMaxPrecedence pass <? pm_precedence pass)
    then pm else passMetas_Merge pm [pass].
Proof.
  intros Hs. assert (H1 : pm_sorted [pass]) by repeat constructor.
  unfold Collect. rewrite passMetas_Merge_ref, collect_scan_ref by done.
  split; [|done]. destruct (_ || _); [done|]. by apply merge_ref_sorted.
Qed.

Lemma Collect_is_Merge_witness :
  Collect [pass_b] pass_c = [pass_c] ∧ pm_sorted (Collect [pass_b] pass_c).
Proof. split; [reflexivity|]. apply (Collect_is_Merge [pass_b] pass_c). repeat constructor. Defined.

(** An entry passed to from higher tiers never wraps: it is lifted by the
    distance of each pass from the bottom of its tier, keeps its verdict byte, keeps
    its order with the other entries lifted by the same passes, and lands between
    its own precedence and that of the last pass. *)
Theorem InheritPassPrecedence_order (passes : passMetas) (pass : passMeta) (p q : Z) :
  0 ≤ p → 0 ≤ q → passes_above p (passes ++ [pass]) → passes_above q (passes ++ [pass]) →
  let p' := InheritPassPrecedence p (passes ++ [pass]) in
  let q' := InheritPassPrecedence q (passes ++ [pass]) in
  p ≤ p' < pm_precedence pass ∧ p' mod 256 = p mod 256 ∧ (p < q ↔ p' < q').
Proof.
  intros Hp Hq Ap Aq p' q'. subst p' q'.
  destruct (InheritPassPrecedence_lift _ p Hp Ap) as (-> & H1 & H2 & H3).
  destruct (InheritPassPrecedence_lift _ q Hq Aq) as (-> & _).
  rewrite last_snoc in H3. split; [lia|]. split; [|lia].
  rewrite Z.add_mod, H2, Z.add_0_r, Z.mod_mod by done. done.
Qed.

Lemma InheritPassPrecedence_order_witness :
  InheritPassPrecedence 511 [pass_a; pass_b] = 6655 ∧
  InheritPassPrecedence 511 [pass_a; pass_b] < 20480.
Proof.
  split; [reflexivity|].
  apply (InheritPassPrecedence_order [pass_a] pass_b 511 257); repeat split; (done || lia).
Defined.
