(* ===== verification/MapState.v ===== *)
(** * The policy map state

    Model of [src/pkg/policy/mapstate.go] and of [ChangeState] and
    [policyFeatures] of [src/pkg/policy/l4.go]: the container of an endpoint's
    policy entries with its trie and identity indices, its iterators, the lookup
    the datapath performs, and the insertion and removal of entries with their
    change tracking.

    The trie is used through the [Trie] interface of [BitLPM].  Loops over a Go
    map see its keys in an unspecified order, the [GoRange] class.  A loop over an
    iterator of the map state is a loop over the keys the iterator produces on the
    state the loop starts from, whose entries are read when they are reached: the
    bodies remove or update only the entry just produced, and the iterators are
    written to continue after that.  The identity sets stored in the trie are
    updated by storing the new set, which is the in-place update of the source
    because a key is stored under its own prefix. *)

From S2P Require Import Prelude Precedence BitLPM PolicyKey Identity RuleOrigin PassMeta.

Local Open Scope Z_scope.

(** ** Entries *)

Record mapStateEntry := mkEntry {
  mse_MapStateEntry :> MapStateEntry;
  passes : option passMetas;
  derivedFromRules : ruleOrigin;
}.

#[export] Instance mapStateEntry_eq_dec : EqDecision mapStateEntry.
Proof. solve_decision. Defined.

Definition IsPassEntry (e : mapStateEntry) : bool := bool_decide (is_Some (passes e)).
Definition Passes (e : mapStateEntry) : passMetas := default [] (passes e).

Definition set_passes (p : option passMetas) (e : mapStateEntry) : mapStateEntry :=
  mkEntry (mse_MapStateEntry e) p (derivedFromRules e).
Definition set_entry (m : MapStateEntry) (e : mapStateEntry) : mapStateEntry :=
  mkEntry m (passes e) (derivedFromRules e).
Definition set_origin (o : ruleOrigin) (e : mapStateEntry) : mapStateEntry :=
  mkEntry (mse_MapStateEntry e) (passes e) o.

Definition PassEntry (priority tierPriority nextTierPriority : Z) (derivedFrom : ruleOrigin)
  : mapStateEntry :=
  mkEntry InvalidEntry
    (Some [mkPassMeta (ToPassPrecedence priority) (ToDenyPrecedence tierPriority)
             (uwrap 32 (ToPassPrecedence nextTierPriority + 256))])
    derivedFrom.

(** [types.Verdict]. *)
Inductive Verdict := Allow | Deny | Pass.

Definition newMapStateEntry (priority tierPriority nextTierPriority : Z) (derivedFrom : ruleOrigin)
    (proxyPort listenerPriority : Z) (verdict : Verdict) : mapStateEntry :=
  match verdict with
  | Pass => PassEntry priority tierPriority nextTierPriority derivedFrom
  | _ =>
      mkEntry
        (NewMapStateEntry priority (match verdict with Deny => true | _ => false end)
           proxyPort listenerPriority)
        None derivedFrom
  end.

Definition makeInvalidEntry : mapStateEntry := mkEntry InvalidEntry None None.

(** The labels of the rule, as [ArrayListString] renders them. *)
Definition newAllowEntryWithLabels (lbls : string) : mapStateEntry :=
  newMapStateEntry 0 HighestPriority LowestPriority (makeRuleOrigin lbls [EmptyString]) 0 0 Allow.

Definition wrap_MapStateEntry (e : MapStateEntry) : mapStateEntry := mkEntry e None NilRuleOrigin.

Definition equivalent (e o : mapStateEntry) : bool :=
  bool_decide (mse_MapStateEntry e = mse_MapStateEntry o) &&
  bool_decide (passes e = passes o) &&
  (bool_decide (derivedFromRules e = derivedFromRules o) ||
   bool_decide (LogString (derivedFromRules e) = LogString (derivedFromRules o))).

Definition mapStateEntry_Equal (e o : mapStateEntry) : bool :=
  equivalent e o && bool_decide (derivedFromRules e = derivedFromRules o).

(** ** Policy features and change tracking *)

Definition denyRules : Z := 1.
Definition redirectRules : Z := 2.
Definition orderedRules : Z := 4.
Definition passRules : Z := 8.
Definition namedPortRules : Z := 16.
Definition precedenceFeatures : Z := Z.lor (Z.lor denyRules redirectRules) orderedRules.
Definition allFeatures : Z := unot 8 0.
Definition setFeature (pf feature : Z) : Z := Z.lor pf feature.
Definition contains (pf feature : Z) : bool := negb (Z.land pf feature =? 0).

(** A nil map is [None]. *)
Record ChangeState := mkChangeState {
  Adds : Keys;
  Deletes : Keys;
  old : option (gmap Key mapStateEntry);
}.

Definition keys_size (k : Keys) : nat := size (default ∅ k).

Definition ChangeState_Empty (c : ChangeState) : bool :=
  Nat.eqb (keys_size (Adds c) + keys_size (Deletes c) + size (default ∅ (old c)))%nat 0.

Definition ChangeState_Size (c : ChangeState) : Z :=
  Z.of_nat (keys_size (Adds c)) -
  Z.of_nat (size (default ∅ (Deletes c) ∖ default ∅ (Adds c))).

Definition keys_add (k : Key) (ks : Keys) : Keys := (λ s, {[k]} ∪ s) <$> ks.
Definition keys_remove (k : Key) (ks : Keys) : Keys := (λ s, s ∖ {[k]}) <$> ks.

Definition insertOldIfNotExists (changes : ChangeState) (key : Key) (entry : mapStateEntry)
  : ChangeState * bool :=
  match old changes with
  | None => (changes, false)
  | Some o =>
      match o !! key with
      | Some _ => (changes, false)
      | None =>
          if Keys_Has (Adds changes) key then (changes, false)
          else (mkChangeState (Adds changes) (Deletes changes) (Some (<[key := entry]> o)), true)
      end
  end.

(** ** The container *)

Notation IDSet := (gset Z).

Section mapState.
Context {TR : Trie LPMKey IDSet} {GR : GoRange}.

Record mapState := mkMapState {
  clusterInfo : ClusterInfo;
  ms_entries : gmap Key mapStateEntry;
  ms_trie : @trie_t _ _ TR;
  byId : option (gmap Z (gset LPMKey));
}.

Definition Empty (ms : mapState) : bool := bool_decide (ms_entries ms = ∅).
Definition mapState_Len (ms : mapState) : nat := size (ms_entries ms).

(** [MapStateSizes.byId]: the sizes only preallocate; the identities stay. *)
Definition newMapState (sizes_byId : gset Z) (features : Z) (cinfo : ClusterInfo) : mapState :=
  mkMapState cinfo ∅ (trie_New MapStatePrefixLen)
    (if contains features (Z.lor passRules namedPortRules)
     then Some (gset_to_gmap ∅ sizes_byId) else None).

Definition Sizes_byId (ms : mapState) : gset Z := dom (default ∅ (byId ms)).

Definition upsert (ms : mapState) (k : Key) (e : mapStateEntry) : mapState :=
  let entries := <[k := e]> (ms_entries ms) in
  match ms_entries ms !! k with
  | Some _ => mkMapState (clusterInfo ms) entries (ms_trie ms) (byId ms)
  | None =>
      let idSet := default ∅ (trie_ExactLookup (ms_trie ms) (PrefixLength k) (Key_LPMKey k)) in
      let t := (trie_Upsert (ms_trie ms) (PrefixLength k) (Key_LPMKey k) ({[Identity k]} ∪ idSet)).1 in
      let b := (λ m : gmap Z (gset LPMKey),
                  <[Identity k := {[Key_LPMKey k]} ∪ default ∅ (m !! Identity k)]> m) <$> byId ms in
      mkMapState (clusterInfo ms) entries t b
  end.

Definition ms_delete (ms : mapState) (k : Key) : mapState :=
  match ms_entries ms !! k with
  | None => ms
  | Some _ =>
      let t :=
        match trie_ExactLookup (ms_trie ms) (PrefixLength k) (Key_LPMKey k) with
        | Some idSet =>
            let idSet := idSet ∖ {[Identity k]} in
            if bool_decide (idSet = ∅)
            then (trie_Delete (ms_trie ms) (PrefixLength k) (Key_LPMKey k)).1
            else (trie_Upsert (ms_trie ms) (PrefixLength k) (Key_LPMKey k) idSet).1
        | None => ms_trie ms
        end in
      let b :=
        (λ m : gmap Z (gset LPMKey),
           match m !! Identity k with
           | Some keys =>
               let keys := keys ∖ {[Key_LPMKey k]} in
               if bool_decide (keys = ∅) then delete (Identity k) m else <[Identity k := keys]> m
           | None => m
           end) <$> byId ms in
      mkMapState (clusterInfo ms) (delete k (ms_entries ms)) t b
  end.

(** [get] and [insert] only log on a suspicious key. *)
Definition ms_get (ms : mapState) (k : Key) : option mapStateEntry := ms_entries ms !! k.
Definition ms_Get (ms : mapState) (k : Key) : option MapStateEntry :=
  mse_MapStateEntry <$> ms_get ms k.
Definition ms_insert (ms : mapState) (k : Key) (v : mapStateEntry) : mapState := upsert ms k v.
Definition updateExisting (ms : mapState) (k : Key) (v : mapStateEntry) : mapState :=
  mkMapState (clusterInfo ms) (<[k := v]> (ms_entries ms)) (ms_trie ms) (byId ms).

(** [ForEach]: the callback threads the caller's state; false stops. *)
Fixpoint for_entries {S} (ms : mapState) (f : S → Key → mapStateEntry → S * bool) (l : list Key)
    (s : S) : S * bool :=
  match l with
  | [] => (s, true)
  | k :: l =>
      match ms_entries ms !! k with
      | None => for_entries ms f l s
      | Some e => let '(s, ok) := f s k e in if ok then for_entries ms f l s else (s, false)
      end
  end.
Definition forEach {S} (ms : mapState) (f : S → Key → mapStateEntry → S * bool) (s : S) : S * bool :=
  for_entries ms f (range (dom (ms_entries ms))) s.
Definition ms_ForEach {S} (ms : mapState) (f : S → Key → MapStateEntry → S * bool) (s : S) : S * bool :=
  forEach ms (λ s k e, f s k (mse_MapStateEntry e)) s.

Definition ms_Equals (msA : mapState) (msB : gmap Key MapStateEntry) : bool :=
  Nat.eqb (mapState_Len msA) (size msB) &&
  (forEach msA (λ _ k vA, let ok := bool_decide (msB !! k = Some (mse_MapStateEntry vA)) in (tt, ok)) tt).2.

Definition ms_Equal (msA msB : mapState) : bool :=
  Nat.eqb (mapState_Len msA) (mapState_Len msB) &&
  (forEach msA (λ _ k vA,
     (tt, match ms_get msB k with Some vB => mapStateEntry_Equal vB vA | None => false end)) tt).2.

(** ** Iterators *)

(** The keys [forID] and [forCoveredIDs] visit. *)
Definition forID (k : Key) (idSet : IDSet) : list Key :=
  if bool_decide (Identity k ∈ idSet) then [k] else [].
Definition forCoveredIDs (ms : mapState) (agg : Z) (k : Key) (idSet : IDSet) : list Key :=
  WithIdentity k <$> filter (λ id, aggregates agg id (clusterInfo ms) = true) (range idSet).

Definition CoveringBroaderOrEqualKeys (ms : mapState) (key : Key) : list Key :=
  let agg := aggregateFor (Identity key) (clusterInfo ms) in
  '(lpmKey, idSet) ← trie_Ancestors (ms_trie ms) (PrefixLength key) (Key_LPMKey key);
  let k := mkKey lpmKey 0 in
  forID (WithIdentity k agg) idSet ++
  (if Identity key =? agg then [] else forID (WithIdentity k (Identity key)) idSet).

Definition BroaderOrEqualKeys (ms : mapState) (key : Key) : list Key :=
  let agg := aggregateFor (Identity key) (clusterInfo ms) in
  '(lpmKey, idSet) ← trie_Ancestors (ms_trie ms) (PrefixLength key) (Key_LPMKey key);
  let k := mkKey lpmKey 0 in
  forID (WithIdentity k agg) idSet ++
  (if Identity key =? agg then [] else forID (WithIdentity k (Identity key)) idSet) ++
  (if Identity key =? agg then forCoveredIDs ms agg k idSet else []).

Definition CoveredNarrowerOrEqualKeys (ms : mapState) (key : Key) : list Key :=
  let agg := aggregateFor (Identity key) (clusterInfo ms) in
  '(lpmKey, idSet) ← trie_Descendants (ms_trie ms) (PrefixLength key) (Key_LPMKey key);
  let k := mkKey lpmKey 0 in
  if Identity key =? agg
  then forCoveredIDs ms agg k idSet ++ forID (WithIdentity k agg) idSet
  else forID (WithIdentity k (Identity key)) idSet.

Definition NarrowerOrEqualKeys (ms : mapState) (key : Key) : list Key :=
  let wc := aggregateFor (Identity key) (clusterInfo ms) in
  '(lpmKey, idSet) ← trie_Descendants (ms_trie ms) (PrefixLength key) (Key_LPMKey key);
  let k := mkKey lpmKey 0 in
  (if Identity key =? wc then forCoveredIDs ms wc k idSet else []) ++
  forID (WithIdentity k (Identity key)) idSet ++
  (if Identity key =? wc then [] else forID (WithIdentity k wc) idSet).

Definition CoveringKeysWithSameID (ms : mapState) (key : Key) : list Key :=
  '(lpmKey, idSet) ← trie_AncestorsLPF (ms_trie ms) (PrefixLength key) (Key_LPMKey key);
  forID (WithIdentity (mkKey lpmKey 0) (Identity key)) idSet.

Definition LPMAncestors (ms : mapState) (key : Key) : list Key :=
  let agg := aggregateFor (Identity key) (clusterInfo ms) in
  '(lpmKey, idSet) ← trie_AncestorsLPF (ms_trie ms) (PrefixLength key) (Key_LPMKey key);
  let k := mkKey lpmKey 0 in
  forID (WithIdentity k (Identity key)) idSet ++
  (if Identity key =? agg then [] else forID (WithIdentity k agg) idSet).

(** The entries of the keys, for loops that do not change the state. *)
Definition entries_of (ms : mapState) (l : list Key) : list (Key * mapStateEntry) :=
  omap (λ k, (λ v, (k, v)) <$> ms_entries ms !! k) l.

(** ** Lookup *)

(** The scan of [lookup]: the first valid entry of the identity and of the
    aggregate, stopping when both are known. *)
Fixpoint lookup_scan (agg : Z) (l : list (Key * mapStateEntry))
    (idE aggE : option (Key * mapStateEntry)) : option (Key * mapStateEntry) * option (Key * mapStateEntry) :=
  match l with
  | [] => (idE, aggE)
  | (k, v) :: l =>
      let idE := match idE with
                 | None => if negb (Identity k =? agg) && IsValid v then Some (k, v) else None
                 | _ => idE end in
      let aggE := match aggE with
                  | None => if (Identity k =? agg) && IsValid v then Some (k, v) else None
                  | _ => aggE end in
      match idE, aggE with
      | Some _, Some _ => (idE, aggE)
      | _, _ => lookup_scan agg l idE aggE
      end
  end.

Definition lookup (ms : mapState) (key : Key) : mapStateEntry * bool :=
  let agg := aggregateFor (Identity key) (clusterInfo ms) in
  match lookup_scan agg (entries_of ms (LPMAncestors ms key)) None None with
  | (Some (_, e), None) | (None, Some (_, e)) => (e, true)
  | (Some (idKey, idEntry), Some (aggKey, aggEntry)) =>
      if Precedence idEntry =? MaxPrecedence then (idEntry, true)
      else if Precedence aggEntry <? Precedence idEntry then (idEntry, true)
      else if Precedence idEntry <? Precedence aggEntry then (aggEntry, true)
      else if (PrefixLength idKey <? PrefixLength aggKey)%nat then (aggEntry, true)
      else (idEntry, true)
  | (None, None) => (mkEntry DenyEntry None NilRuleOrigin, false)
  end.

(** ** Additions and removals with change tracking *)

Definition addKeyWithChanges (ms : mapState) (key : Key) (entry : mapStateEntry)
    (changes : ChangeState) : mapState * ChangeState * bool :=
  let record (changes : ChangeState) (add : bool) : ChangeState :=
    if add && bool_decide (is_Some (Adds changes))
    then mkChangeState (keys_add key (Adds changes)) (keys_remove key (Deletes changes)) (old changes)
    else changes in
  match ms_get ms key with
  | None => (ms_insert ms key entry, record changes true, true)
  | Some oldEntry =>
      if mapStateEntry_Equal entry oldEntry then (ms, changes, false)
      else
        let changes := (insertOldIfNotExists changes key oldEntry).1 in
        let datapathEqual := bool_decide (mse_MapStateEntry oldEntry = mse_MapStateEntry entry) in
        let '(merged, passUpdated) := MergeClone (passes oldEntry) (passes entry) in
        let oldEntry := set_passes merged oldEntry in
        let takeover := set_origin (derivedFromRules entry) (set_entry (mse_MapStateEntry entry) oldEntry) in
        let result :=
          if negb (IsValid oldEntry) then Some takeover
          else if IsValid entry then
            if ProxyPortPrecedenceMayDiffer (Precedence oldEntry) (Precedence entry) then
              Some (set_origin (ruleOrigin_Merge (derivedFromRules oldEntry) (derivedFromRules entry))
                      (set_entry (MapStateEntry_Merge oldEntry entry) oldEntry))
            else if Precedence oldEntry <? Precedence entry then Some takeover
            else if negb passUpdated then None
            else Some oldEntry
          else Some oldEntry in
        match result with
        | None => (ms, changes, false)
        | Some e => (updateExisting ms key e, record changes (negb datapathEqual), true)
        end
  end.

Definition deleteExistingWithChanges (ms : mapState) (key : Key) (entry : mapStateEntry)
    (changes : ChangeState) : mapState * ChangeState :=
  let '(changes, inserted) := insertOldIfNotExists changes key entry in
  let changes :=
    if inserted
    then mkChangeState (Adds changes) (keys_add key (Deletes changes)) (old changes) else changes in
  let changes := mkChangeState (keys_remove key (Adds changes)) (Deletes changes) (old changes) in
  (ms_delete ms key, changes).

Definition deleteKeyWithChanges (ms : mapState) (key : Key) (changes : ChangeState)
  : mapState * ChangeState :=
  match ms_get ms key with
  | Some entry => deleteExistingWithChanges ms key entry changes
  | None => (ms, changes)
  end.

(** A loop whose body changes the state: the keys are those the iterator
    produced, the entry is read when the key is reached. *)
Definition for_keys (l : list Key)
    (body : Key → mapStateEntry → mapState * ChangeState → mapState * ChangeState)
    (s : mapState * ChangeState) : mapState * ChangeState :=
  foldl (λ s k, match ms_entries s.1 !! k with Some v => body k v s | None => s end) s l.

Definition deleteIdWithChanges (ms : mapState) (id : Z) (changes : ChangeState)
  : mapState * ChangeState :=
  match byId ms ≫= (λ m, m !! id) with
  | Some lpmKeys =>
      foldl (λ s lpmKey, deleteKeyWithChanges s.1 (mkKey lpmKey id) s.2) (ms, changes) (range lpmKeys)
  | None => (ms, changes)
  end.

Definition revertChanges (ms : mapState) (changes : ChangeState) : mapState :=
  let ms := foldl ms_delete ms (range (default ∅ (Adds changes))) in
  let o := default ∅ (old changes) in
  foldl (λ ms k, match o !! k with Some v => ms_insert ms k v | None => ms end) ms (range (dom o)).

(** ** Insertion without pass verdicts *)

Definition aggregateIsEquivalent (ms : mapState) (newKey : Key) (newEntry : mapStateEntry) : bool :=
  let agg := aggregateFor (Identity newKey) (clusterInfo ms) in
  if agg =? Identity newKey then false
  else
    match ms_entries ms !! WithIdentity newKey agg with
    | None => false
    | Some aggEntry => equivalent aggEntry newEntry
    end.

Definition pruneAggregated (ms : mapState) (newKey : Key) (newEntry : mapStateEntry)
    (changes : ChangeState) : mapState * ChangeState :=
  if negb (isAggregate (Identity newKey) (clusterInfo ms)) then (ms, changes)
  else
    match trie_ExactLookup (ms_trie ms) (PrefixLength newKey) (Key_LPMKey newKey) with
    | None => (ms, changes)
    | Some idSet =>
        for_keys (forCoveredIDs ms (Identity newKey) newKey idSet)
          (λ k v s, if equivalent v newEntry then deleteExistingWithChanges s.1 k v s.2 else s)
          (ms, changes)
    end.

(** Some covering entry makes the new one redundant. *)
Definition covered_by (ms : mapState) (newKey : Key) (bail : Key → mapStateEntry → bool) : bool :=
  existsb (λ '(k, v), bail k v) (entries_of ms (CoveringBroaderOrEqualKeys ms newKey)).

(** Deletes the covered entries that satisfy a condition. *)
Definition delete_covered (ms : mapState) (newKey : Key) (cond : Key → mapStateEntry → bool)
    (changes : ChangeState) : mapState * ChangeState :=
  for_keys (CoveredNarrowerOrEqualKeys ms newKey)
    (λ k v s, if cond k v then deleteExistingWithChanges s.1 k v s.2 else s) (ms, changes).

(** ** Insertion with pass verdicts *)

Definition pruneCoveredNarrowerKey (k : Key) (v : mapStateEntry) (key : Key) (entry : mapStateEntry)
    (precedence : Z) (s : mapState * ChangeState) : mapState * ChangeState :=
  let '(ms, changes) := s in
  let deletePassMeta :=
    forallb (λ p, negb (isDifferentTierOrHigherPrecedence p precedence)) (Passes v) in
  let deletePassEntry :=
    existsb (λ p, negb (isDifferentTierOrHigherPrecedence p precedence)) (Passes v) in
  let deleteEntry :=
    negb (IsValid v) || ((Precedence v <? precedence) ||
      MapStateEntry_IsDeny v && (Precedence v =? precedence) && negb (bool_decide (k = key))) in
  let deleteEntry :=
    deleteEntry ||
    (bool_decide (Key_LPMKey key = Key_LPMKey k) &&
     aggregates (Identity key) (Identity k) (clusterInfo ms) && equivalent v entry) in
  if deletePassMeta && deleteEntry then deleteExistingWithChanges ms k v changes
  else if deletePassMeta || deletePassEntry || deleteEntry then
    let v' :=
      if deletePassMeta then set_passes None v
      else if deletePassEntry then set_passes (Some (passMetas_Delete (Passes v) precedence)) v
      else v in
    let v' := if deleteEntry then set_entry (Invalidate v') v' else v' in
    (updateExisting ms k v', changes)
  else (ms, changes).

Definition prune_covered (key : Key) (entry : mapStateEntry) (precedence : Z)
    (s : mapState * ChangeState) : mapState * ChangeState :=
  for_keys (CoveredNarrowerOrEqualKeys s.1 key)
    (λ k v s, pruneCoveredNarrowerKey k v key entry precedence s) s.

(** The work list [keySlice] and the keys already seen. *)
Definition addNewKey (key : Key) (s : list Key * Keys) : list Key * Keys :=
  if Keys_Has s.2 key then s else (s.1 ++ [key], Keys_Insert s.2 key).
Definition addNewKeys (l34Keys : Keys) (s : list Key * Keys) : list Key * Keys :=
  foldl (λ s k, addNewKey k s) s (range (default ∅ l34Keys)).

Definition collectNarrowerPasses (tierMax : Z) (k : Key) (v : mapStateEntry) (key : Key)
    (cinfo : ClusterInfo) (s : list Key * Keys) : list Key * Keys :=
  let k := if Identity k =? aggregateFor (Identity key) cinfo then WithIdentity k (Identity key) else k in
  if bool_decide (k = key) then s
  else if existsb (λ p, tierMax <? pm_precedence p) (Passes v) then addNewKey k s else s.

(** What a scan of the broader keys accumulates. *)
Record scan := mkScan { sc_passes : passMetas; sc_l34Keys : Keys; sc_doneKeys : Keys; sc_bail : Z }.

Definition scan_l34 (k : Key) (s : scan) : scan :=
  mkScan (sc_passes s) (Keys_Insert (sc_l34Keys s) k) (sc_doneKeys s) (sc_bail s).
Definition scan_done (k : Key) (s : scan) : scan :=
  mkScan (sc_passes s) (sc_l34Keys s) (Keys_Insert (sc_doneKeys s) k) (sc_bail s).
Definition scan_collect (p : passMeta) (s : scan) : scan :=
  mkScan (Collect (sc_passes s) p) (sc_l34Keys s) (sc_doneKeys s) (sc_bail s).
Definition scan_bail (p : Z) (s : scan) : scan :=
  mkScan (sc_passes s) (sc_l34Keys s) (sc_doneKeys s) (if sc_bail s <? p then p else sc_bail s).

(** The loop over the passes of one entry; [None] is the early return of the main
    scan, which the scans of the subset keys do not have. *)
Fixpoint scan_passes (main covering : bool) (entryPrec : Z) (subKey : Key) (l : passMetas) (s : scan)
  : option scan :=
  match l with
  | [] => Some s
  | pass :: l =>
      if entryPrec <? tierMinPrecedence pass then
        if covering then scan_passes main covering entryPrec subKey l (scan_collect pass s)
        else Some (scan_l34 subKey s)
      else if main && covering && (entryPrec <? pm_precedence pass) then None
      else scan_passes main covering entryPrec subKey l s
  end.

Definition scan_entry (main : bool) (tierMax aggregateID : Z) (key : Key) (entry : mapStateEntry)
    (k : Key) (v : mapStateEntry) (s : scan) : option scan :=
  let covering := negb (Identity key =? aggregateID) || (Identity k =? aggregateID) in
  let subKey := WithIdentity key (Identity k) in
  match scan_passes main covering (Precedence entry) subKey (Passes v) s with
  | None => None
  | Some s =>
      if IsValid v && ((Precedence entry <? Precedence v) ||
           MapStateEntry_IsDeny entry && (Precedence v =? Precedence entry) &&
           negb (bool_decide (k = key)))
      then
        if covering then
          if Precedence v <=? tierMax then (if main then None else Some s)
          else Some (scan_bail (Precedence v) s)
        else if Precedence v <=? tierMax then Some (scan_done subKey s)
        else Some s
      else Some s
  end.

Fixpoint scan_broader (main : bool) (tierMax aggregateID : Z) (key : Key) (entry : mapStateEntry)
    (l : list (Key * mapStateEntry)) (s : scan) : option scan :=
  match l with
  | [] => Some s
  | (k, v) :: l =>
      match scan_entry main tierMax aggregateID key entry k v s with
      | None => None
      | Some s => scan_broader main tierMax aggregateID key entry l s
      end
  end.

(** The entry with the precedence it inherits. *)
Definition passed (entry : mapStateEntry) (precedence : Z) : mapStateEntry :=
  set_entry (set_Precedence precedence entry) entry.

Definition add_passed (key : Key) (entry : mapStateEntry) (precedence : Z)
    (s : mapState * ChangeState) : mapState * ChangeState :=
  let s := prune_covered key entry precedence s in
  (addKeyWithChanges s.1 key (passed entry precedence) s.2).1.

(** One round of the loop over the subset keys: the state, the keys still to do
    and the keys seen. *)
Definition sub_round (tierMax aggregateID : Z) (entry : mapStateEntry) (key : Key)
    (s : mapState * ChangeState) (keys : list Key) (done : Keys)
  : (mapState * ChangeState) * list Key * Keys :=
  match scan_broader false tierMax aggregateID key entry (entries_of s.1 (BroaderOrEqualKeys s.1 key))
          (mkScan [] (Some ∅) done 0) with
  | None => (s, keys, done)
  | Some sc =>
      let '(keys, done) := addNewKeys (sc_l34Keys sc) (keys, sc_doneKeys sc) in
      let precedence := InheritPassPrecedence (Precedence entry) (sc_passes sc) in
      if sc_bail sc <? precedence then (add_passed key entry precedence s, keys, done)
      else (s, keys, done)
  end.

(** The loop over the work list; [inr] holds the keys left when the fuel ends. *)
Fixpoint sub_loop (fuel : nat) (tierMax aggregateID : Z) (entry : mapStateEntry)
    (s : mapState * ChangeState) (keys : list Key) (done : Keys)
  : (mapState * ChangeState) + (mapState * ChangeState) * list Key :=
  match keys with
  | [] => inl s
  | key :: keys =>
      match fuel with
      | O => inr (s, key :: keys)
      | S fuel =>
          let '(s, keys, done) := sub_round tierMax aggregateID entry key s keys done in
          sub_loop fuel tierMax aggregateID entry s keys done
      end
  end.

(** A subset key is queued once, and has the ports of a queued key and the identity
    of an entry or of a queued key. *)
Definition sub_fuel (ms : mapState) (keys : list Key) : nat :=
  S (length keys * (size (ms_entries ms) + length keys))%nat.

Definition insert_pass (ms : mapState) (tierMax : Z) (key : Key) (entry : mapStateEntry)
    (newPass : passMeta) (changes : ChangeState) : mapState * ChangeState :=
  let bails (_ : Key) (v : mapStateEntry) :=
    (IsValid v && (Precedence v <=? tierMax) && (pm_precedence newPass <? Precedence v)) ||
    existsb (λ p, (tierMinPrecedence p =? tierMinPrecedence newPass) &&
                  (pm_precedence newPass <=? pm_precedence p)) (Passes v) in
  if covered_by ms key bails then (ms, changes)
  else
    let s := prune_covered key entry (pm_precedence newPass) (ms, changes) in
    (addKeyWithChanges s.1 key entry s.2).1.

(** The loop over the narrower keys: lower entries are pruned unless the new entry
    is bailed out, and keys with passes of higher tiers are queued. *)
Definition scan_narrower (tierMax aggregateID : Z) (key : Key) (entry : mapStateEntry) (bail : bool)
    (cinfo : ClusterInfo) (l : list Key) (s : mapState * ChangeState) (q : list Key * Keys)
  : (mapState * ChangeState) * (list Key * Keys) :=
  foldl (λ '(s, q) k,
    match ms_entries s.1 !! k with
    | None => (s, q)
    | Some v =>
        let covering := (Identity key =? aggregateID) || (Identity k =? Identity key) in
        let s' :=
          if negb bail && covering
          then pruneCoveredNarrowerKey k v key entry (Precedence entry) s else s in
        (s', collectNarrowerPasses tierMax k v key cinfo q)
    end) (s, q) l.

(** An allow or deny entry, up to the loop over the subset keys: the state, the work
    list and the keys seen, or [None] where the source returns early. *)
Definition insert_verdict (ms : mapState) (tierMax : Z) (key : Key) (entry : mapStateEntry)
    (changes : ChangeState) : option ((mapState * ChangeState) * list Key * Keys) :=
  let aggregateID := aggregateFor (Identity key) (clusterInfo ms) in
  match scan_broader true tierMax aggregateID key entry
          (entries_of ms (BroaderOrEqualKeys ms key)) (mkScan [] None None 0) with
  | None => None
  | Some sc =>
      let q := addNewKeys (sc_l34Keys sc) ([], sc_doneKeys sc) in
      let bail := 0 <? sc_bail sc in
      let '(s, (keys, done)) :=
        scan_narrower tierMax aggregateID key entry bail (clusterInfo ms)
          (NarrowerOrEqualKeys ms key) (ms, changes) q in
      let precedence := InheritPassPrecedence (Precedence entry) (sc_passes sc) in
      let '(s, bail) :=
        if negb (bool_decide (sc_passes sc = [])) && (sc_bail sc <? precedence)
        then (add_passed key entry precedence s, true) else (s, bail) in
      let s := if bail then s else (addKeyWithChanges s.1 key entry s.2).1 in
      Some (s, keys, done)
  end.

Definition insertWithPasses (ms : mapState) (tierMax : Z) (key : Key) (entry : mapStateEntry)
    (changes : ChangeState) : mapState * ChangeState :=
  if negb (Z.land tierMax 255 =? 255) || IsValid entry && (tierMax <? Precedence entry)
  then (ms, changes)
  else
    match passes entry with
    | Some [newPass] =>
        if tierMax <? pm_precedence newPass then (ms, changes)
        else insert_pass ms tierMax key entry newPass changes
    | Some _ => (ms, changes)
    | None =>
        match insert_verdict ms tierMax key entry changes with
        | None => (ms, changes)
        | Some (s, keys, done) =>
            match sub_loop (sub_fuel s.1 keys) tierMax
                    (aggregateFor (Identity key) (clusterInfo ms)) entry s keys done with
            | inl s => s
            | inr (s, _) => s
            end
        end
    end.

(** ** [insertWithChanges] *)

Definition insertWithChanges (ms : mapState) (tierMaxPrecedence : Z) (newKey : Key)
    (newEntry : mapStateEntry) (features : Z) (changes : ChangeState) : mapState * ChangeState :=
  if aggregateIsEquivalent ms newKey newEntry then (ms, changes)
  else if contains features passRules
  then insertWithPasses ms tierMaxPrecedence newKey newEntry changes
  else
    let finish (s : mapState * ChangeState) :=
      let s := pruneAggregated s.1 newKey newEntry s.2 in
      (addKeyWithChanges s.1 newKey newEntry s.2).1 in
    if MapStateEntry_IsDeny newEntry then
      if covered_by ms newKey (λ k v,
           IsValid v && ((Precedence newEntry <? Precedence v) ||
             (Precedence v =? Precedence newEntry) && negb (bool_decide (k = newKey))))
      then (ms, changes)
      else
        finish (delete_covered ms newKey (λ k v,
          (Precedence v <? Precedence newEntry) ||
          (Precedence v =? Precedence newEntry) && negb (bool_decide (k = newKey))) changes)
    else if contains features precedenceFeatures then
      if covered_by ms newKey (λ _ v, IsValid v && (Precedence newEntry <? Precedence v))
      then (ms, changes)
      else finish (delete_covered ms newKey (λ _ v, Precedence v <? Precedence newEntry) changes)
    else finish (ms, changes).

Definition LabelsAllowAnyIngress : string :=
  "[reserved:io.cilium.policy.derived-from=allow-any-ingress]".
Definition LabelsAllowAnyEgress : string :=
  "[reserved:io.cilium.policy.derived-from=allow-any-egress]".

Definition allowAllIdentities (ms : mapState) (ingress egress : bool) : mapState :=
  let ms :=
    if ingress then
      foldl (λ ms nid, upsert ms (WithIdentity IngressKey nid)
                         (newAllowEntryWithLabels LabelsAllowAnyIngress)) ms AllAggregates
    else ms in
  if egress then
    foldl (λ ms nid, upsert ms (WithIdentity EgressKey nid)
                       (newAllowEntryWithLabels LabelsAllowAnyEgress)) ms AllAggregates
  else ms.
End mapState.
Arguments mapState : clear implicits.
Arguments mapState TR.
