(* ===== verification/MapStateIndex.v ===== *)
(** * The indices of the map state

    The representation invariant of [MapState.mapState] (the trie and the identity
    index agree with the entries), its preservation by every operation that
    changes entries, and what the iterators produce under it. *)

From S2P Require Import Prelude Precedence BitLPM PolicyKey Identity RuleOrigin PassMeta MapState.

Local Open Scope Z_scope.

(** The examples run on the bit trie itself. *)
Definition bitlpm : Trie LPMKey IDSet := bitlpm_Trie.

Section index.
Context {TR : Trie LPMKey IDSet} {TL : TrieLaws LPMKey IDSet TR} {GR : GoRange}.
Implicit Types (ms : mapState TR) (k key : Key) (e v : mapStateEntry).

Definition present ms k : Prop := is_Some (ms_entries ms !! k).

(** The invariant: the trie maps the bits of a port/protocol to the non-empty set
    of identities having an entry there, and the identity index, when in use, maps
    an identity to its port/protocols. *)
Record ms_inv ms : Prop := {
  inv_trie : trie_ok MapStatePrefixLen (ms_trie ms);
  inv_wf k : present ms k → wf_key k;
  inv_sound bs l ids : trie_map (ms_trie ms) !! bs = Some (l, ids) →
    wf_lpm l ∧ bs = key_bits l ∧ ids ≠ ∅ ∧ ∀ id, id ∈ ids ↔ present ms (mkKey l id);
  inv_complete k : present ms k → is_Some (trie_map (ms_trie ms) !! key_bits k);
  inv_byId m : byId ms = Some m →
    ∀ l id, present ms (mkKey l id) ↔ ∃ s, m !! id = Some s ∧ l ∈ s;
}.

Lemma prefix_fits (l : LPMKey) : wf_lpm l → (PrefixLength l ≤ min MapStatePrefixLen keyLen)%nat.
Proof. intros W. pose proof (PrefixLength_le l W). simpl. lia. Qed.

Lemma Key_eta k : mkKey (Key_LPMKey k) (Identity k) = k.
Proof. by destruct k. Qed.

(** The trie at a port/protocol. *)
Lemma trie_at ms (l : LPMKey) : ms_inv ms → wf_lpm l →
  trie_map (ms_trie ms) !! key_bits l = None ∧ (∀ id, ¬ present ms (mkKey l id)) ∨
  ∃ ids, trie_map (ms_trie ms) !! key_bits l = Some (l, ids) ∧ ids ≠ ∅ ∧
    ∀ id, id ∈ ids ↔ present ms (mkKey l id).
Proof.
  intros I W. destruct (trie_map (ms_trie ms) !! key_bits l) as [[l' ids]|] eqn:E.
  - right. destruct (inv_sound ms I _ _ _ E) as (W' & Eb & Hne & Hin).
    apply key_bits_inj in Eb as <-; try done. by exists ids.
  - left. split; [done|]. intros id Hp. apply (inv_complete ms I) in Hp. simpl in Hp.
    rewrite E in Hp. by destruct Hp.
Qed.

Lemma lookup_at ms (l : LPMKey) : ms_inv ms → wf_lpm l →
  trie_ExactLookup (ms_trie ms) (PrefixLength l) l = snd <$> trie_map (ms_trie ms) !! key_bits l.
Proof.
  intros I W. apply (trie_ExactLookup_law MapStatePrefixLen); [apply I|apply W|by apply prefix_fits].
Qed.

(** ** Preservation *)

Lemma present_insert ms k e k' ent :
  ent = <[k := e]> (ms_entries ms) → is_Some (ent !! k') ↔ k' = k ∨ present ms k'.
Proof.
  intros ->. destruct (decide (k' = k)) as [->|Hn].
  - rewrite lookup_insert_eq. naive_solver.
  - rewrite lookup_insert_ne by done. unfold present. naive_solver.
Qed.

Lemma present_delete ms k k' :
  is_Some (delete k (ms_entries ms) !! k') ↔ k' ≠ k ∧ present ms k'.
Proof.
  destruct (decide (k' = k)) as [->|Hn].
  - rewrite lookup_delete_eq. split; [by intros []|naive_solver].
  - rewrite lookup_delete_ne by done. unfold present. naive_solver.
Qed.

(** The identity index after an insertion and after a removal. *)
Lemma byId_insert (P : Key → Prop) (m : gmap Z (gset LPMKey)) k :
  (∀ l id, P (mkKey l id) ↔ ∃ s, m !! id = Some s ∧ l ∈ s) → ∀ l id,
  mkKey l id = k ∨ P (mkKey l id) ↔
  ∃ s, <[Identity k := {[Key_LPMKey k]} ∪ default ∅ (m !! Identity k)]> m !! id = Some s ∧ l ∈ s.
Proof.
  intros HP l id. rewrite HP. split.
  - intros [<-|(s & Hs & Hl)]; simpl.
    { rewrite lookup_insert_eq. eexists; split; [done|set_solver]. }
    destruct (decide (Identity k = id)) as [<-|Hn].
    + rewrite lookup_insert_eq, Hs. eexists; split; [done|set_solver].
    + rewrite lookup_insert_ne by done. eauto.
  - intros (s & Hs & Hl). destruct (decide (Identity k = id)) as [<-|Hn].
    + rewrite lookup_insert_eq in Hs. injection Hs as <-.
      apply elem_of_union in Hl as [->%elem_of_singleton|Hl]; [left; apply Key_eta|right].
      destruct (m !! Identity k) as [s|]; [|set_solver]. eauto.
    + rewrite lookup_insert_ne in Hs by done. eauto.
Qed.

Lemma byId_delete (P : Key → Prop) (m : gmap Z (gset LPMKey)) k :
  (∀ l id, P (mkKey l id) ↔ ∃ s, m !! id = Some s ∧ l ∈ s) → P k → ∀ l id,
  mkKey l id ≠ k ∧ P (mkKey l id) ↔
  ∃ s, match m !! Identity k with
       | Some keys =>
           let keys := keys ∖ {[Key_LPMKey k]} in
           if bool_decide (keys = ∅) then delete (Identity k) m else <[Identity k := keys]> m
       | None => m
       end !! id = Some s ∧ l ∈ s.
Proof.
  intros HP Hk l id. rewrite HP. rewrite <- (Key_eta k), HP in Hk. destruct Hk as (s0 & Hs0 & Hk).
  rewrite Hs0. cbn zeta. destruct (decide (id = Identity k)) as [->|Hn].
  - split.
    + intros (Hne & s & Hs & Hl). rewrite Hs0 in Hs. injection Hs as <-.
      assert (Hl' : l ∈ s0 ∖ {[Key_LPMKey k]}).
      { apply elem_of_difference. split; [done|]. intros ->%elem_of_singleton.
        by rewrite Key_eta in Hne. }
      rewrite bool_decide_false by set_solver. rewrite lookup_insert_eq. eauto.
    + intros (s & Hs & Hl). case_bool_decide; [by rewrite lookup_delete_eq in Hs|].
      rewrite lookup_insert_eq in Hs. injection Hs as <-.
      apply elem_of_difference in Hl as [Hl Hl']. split; [|eauto].
      intros Ek. apply Hl'. rewrite <- Ek. set_solver.
  - assert (Hne : mkKey l id ≠ k) by (intros <-; done).
    destruct (bool_decide _); [rewrite lookup_delete_ne by congruence|rewrite lookup_insert_ne by congruence];
      (split; [by intros [_ ?]|by split]).
Qed.

Lemma updateExisting_inv ms k e : ms_inv ms → present ms k → ms_inv (updateExisting ms k e).
Proof.
  intros [I1 I2 I3 I4 I5] Hp.
  assert (HP : ∀ k', present (updateExisting ms k e) k' ↔ present ms k').
  { intros k'. unfold present at 1. simpl. rewrite (present_insert ms k e) by done. naive_solver. }
  constructor; simpl; try done.
  - intros k'. rewrite HP. apply I2.
  - intros bs l ids E. setoid_rewrite HP. by apply I3.
  - intros k'. rewrite HP. apply I4.
  - intros m Hm l id. rewrite HP. by apply I5.
Qed.

Lemma new_id_set ms k : ms_inv ms → wf_key k →
  let ids := default ∅ (trie_ExactLookup (ms_trie ms) (PrefixLength k) (Key_LPMKey k)) in
  ∀ id, id ∈ ids ↔ present ms (mkKey k id).
Proof.
  intros I [W _] ids id. subst ids. rewrite lookup_at by done.
  destruct (trie_at ms k I W) as [[-> Hn]|(ids & -> & _ & Hin)]; simpl; [|done].
  split; [set_solver|]. intros Hp. by destruct (Hn id).
Qed.

Lemma upsert_inv ms k e : ms_inv ms → wf_key k → ms_inv (upsert ms k e).
Proof.
  intros I W. unfold upsert. destruct (ms_entries ms !! k) eqn:E.
  { apply (updateExisting_inv ms k e I). by eexists. }
  pose proof (wf_key_lpm k W) as WL. pose proof (new_id_set ms k I W) as HS. simpl in HS.
  set (ids := default ∅ (trie_ExactLookup _ _ _)) in *.
  destruct (trie_Upsert_law MapStatePrefixLen (ms_trie ms) (PrefixLength k) (Key_LPMKey k)
    ({[Identity k]} ∪ ids)) as [Hok Hmap]; [apply I|apply WL|by apply prefix_fits|].
  fold (key_bits k) in Hmap. pose proof (λ k', present_insert ms k e k' _ eq_refl) as HP.
  constructor; simpl; unfold present; simpl; try done.
  - intros k'. rewrite HP. intros [-> |Hp]; [done|by apply (inv_wf ms I)].
  - intros bs l ids'. rewrite Hmap, lookup_insert. case_decide as Eb.
    + intros [= <- <-]. split_and!; [done|done|set_solver|]. intros id.
      rewrite HP, elem_of_union, elem_of_singleton, HS.
      split; [intros [-> |]; [left; apply Key_eta|by right]|].
      intros [<-|]; [by left|by right].
    + intros E'. destruct (inv_sound ms I _ _ _ E') as (W' & -> & Hne & Hin).
      split_and!; try done. intros id. rewrite HP, Hin.
      split; [by right|]. intros [<-|]; [|done]. done.
  - intros k'. rewrite HP, Hmap, lookup_insert. case_decide; [done|].
    intros [-> |Hp]; [done|by apply (inv_complete ms I)].
  - intros m Hm l id. destruct (byId ms) as [m0|] eqn:Eb; simplify_eq/=.
    rewrite HP. apply (byId_insert (present ms)), (inv_byId ms I m0 Eb).
Qed.

Lemma delete_inv ms k : ms_inv ms → ms_inv (ms_delete ms k).
Proof.
  intros I. unfold ms_delete. destruct (ms_entries ms !! k) as [e|] eqn:E; [|done].
  assert (Hp : present ms k) by (by eexists). pose proof (inv_wf ms I k Hp) as W.
  pose proof (wf_key_lpm k W) as WL. rewrite lookup_at by done.
  destruct (trie_at ms k I WL) as [[_ Hn]|(ids & Et & Hne & Hin)].
  { destruct (Hn (Identity k)). by rewrite Key_eta. }
  rewrite Et. simpl. pose proof (λ k', present_delete ms k k') as HP.
  set (ids' := ids ∖ {[Identity k]}).
  set (t := if bool_decide (ids' = ∅) then _ else _).
  assert (HT : trie_ok MapStatePrefixLen t ∧
    trie_map t = if bool_decide (ids' = ∅) then delete (key_bits k) (trie_map (ms_trie ms))
                 else <[key_bits k := (Key_LPMKey k, ids')]> (trie_map (ms_trie ms))).
  { subst t. case_bool_decide.
    - apply (trie_Delete_law MapStatePrefixLen); [apply I|apply WL|by apply prefix_fits].
    - apply (trie_Upsert_law MapStatePrefixLen); [apply I|apply WL|by apply prefix_fits]. }
  destruct HT as [Hok Hmap].
  assert (Hids : ∀ id, id ∈ ids' ↔ mkKey k id ≠ k ∧ present ms (mkKey k id)).
  { intros id. subst ids'. rewrite elem_of_difference, elem_of_singleton, Hin.
    split; [intros [? Hn]; split; [|done]|intros [Hn ?]; split; [done|]].
    - intros Ek. apply Hn. by rewrite <- Ek.
    - intros ->. by rewrite Key_eta in Hn. }
  constructor; simpl; unfold present; simpl; try done.
  - intros k'. rewrite HP. intros [_ Hp']. by apply (inv_wf ms I).
  - intros bs l s Hs. setoid_rewrite HP. rewrite Hmap in Hs. case_bool_decide.
    + apply lookup_delete_Some in Hs as [Hb Hs].
      destruct (inv_sound ms I _ _ _ Hs) as (W' & -> & Hne' & Hin'). split_and!; try done.
      intros id. rewrite Hin'. split; [|tauto]. intros ?. split; [|done]. intros <-. done.
    + apply lookup_insert_Some in Hs as [[<- [= <- <-]]|[Hb Hs]]; [by split_and!|].
      destruct (inv_sound ms I _ _ _ Hs) as (W' & -> & Hne' & Hin'). split_and!; try done.
      intros id. rewrite Hin'. split; [|tauto]. intros ?. split; [|done]. intros <-. done.
  - intros k'. rewrite HP, Hmap. intros [Hn Hp'].
    destruct (decide (key_bits k = key_bits k')) as [Eb|Hb].
    + apply key_bits_inj in Eb; [|done|apply (inv_wf ms I k' Hp')].
      assert (Hid : Identity k' ∈ ids').
      { apply Hids. rewrite Eb, Key_eta. done. }
      rewrite bool_decide_false by set_solver. rewrite Eb, lookup_insert_eq. done.
    + destruct (inv_complete ms I k' Hp') as [x Hx].
      case_bool_decide; rewrite ?lookup_delete_ne, ?lookup_insert_ne by done; by eexists.
  - intros m Hm l id. destruct (byId ms) as [m0|] eqn:Eb; simplify_eq/=.
    rewrite HP. by apply (byId_delete (present ms)); [apply (inv_byId ms I m0 Eb)|].
Qed.

Lemma newMapState_inv ids features cinfo : ms_inv (newMapState (TR:=TR) ids features cinfo).
Proof.
  destruct (trie_New_law (TR:=TR) MapStatePrefixLen) as [Hok Hmap].
  constructor; simpl; try done.
  - intros k [x Hx]. done.
  - intros bs l s. by rewrite Hmap.
  - intros k [x Hx]. done.
  - intros m. destruct (contains _ _); [|done]. intros [= <-] l id.
    split; [by intros [x Hx]|]. intros (s & Hs & Hl).
    apply lookup_gset_to_gmap_Some in Hs as [_ <-]. by apply elem_of_empty in Hl.
Qed.

(** ** What the iterators produce *)

(** [a] covers [b]: broader or equal ports, and the same or the aggregate
    identity. *)
Definition kcovers (cinfo : ClusterInfo) (a b : Key) : Prop :=
  lpm_le a b ∧ (Identity a = Identity b ∨ Identity a = aggregateFor (Identity b) cinfo).

Lemma kcovers_refl cinfo k : kcovers cinfo k k.
Proof. split; [apply lpm_le_refl|by left]. Qed.

Lemma kcovers_trans cinfo a b c : wf_key a → wf_key b → wf_key c →
  kcovers cinfo a b → kcovers cinfo b c → kcovers cinfo a c.
Proof.
  intros [Wa _] [Wb _] [Wc _] [H1 I1] [H2 I2]. split; [by apply (lpm_le_trans a b c)|].
  destruct I1 as [-> | ->], I2 as [E|E]; auto; rewrite E, ?aggregateFor_idem; auto.
Qed.

(** An aggregate covers what it aggregates, a leaf only itself. *)
Lemma kcovers_agg cinfo a b : aggregateFor (Identity a) cinfo = Identity a →
  kcovers cinfo a b ↔ lpm_le a b ∧ aggregateFor (Identity b) cinfo = Identity a.
Proof.
  intros Ha. unfold kcovers. split.
  - intros [? [<-| ->]]; auto.
  - intros [? <-]. auto.
Qed.

Lemma kcovers_leaf cinfo a b : aggregateFor (Identity a) cinfo ≠ Identity a →
  kcovers cinfo a b ↔ lpm_le a b ∧ Identity a = Identity b.
Proof.
  intros Ha. unfold kcovers. split; [|tauto].
  intros [? [?|E]]; [done|]. destruct Ha. by rewrite E, aggregateFor_idem.
Qed.

Lemma elem_of_forID k idSet k' : k' ∈ forID k idSet ↔ k' = k ∧ Identity k ∈ idSet.
Proof.
  unfold forID. case_bool_decide; [rewrite list_elem_of_singleton; tauto|].
  rewrite elem_of_nil. tauto.
Qed.

Lemma elem_of_forCoveredIDs ms agg k idSet k' :
  k' ∈ forCoveredIDs ms agg k idSet ↔
  Key_LPMKey k' = Key_LPMKey k ∧ Identity k' ∈ idSet ∧
  agg ≠ Identity k' ∧ aggregateFor (Identity k') (clusterInfo ms) = agg.
Proof.
  unfold forCoveredIDs. rewrite list_elem_of_fmap. split.
  - intros (id & -> & [Ha Hin]%list_elem_of_filter). apply aggregates_iff in Ha as [? ?].
    rewrite range_perm, elem_of_elements in Hin. done.
  - intros (El & Hin & Hn & Ha). exists (Identity k'). split.
    { destruct k', k; simpl in *; by subst. }
    apply list_elem_of_filter. rewrite aggregates_iff, range_perm, elem_of_elements. done.
Qed.

(** The keys a trie iterator leads to: those whose bits it selects. *)
Lemma trie_keys ms (sel : list bool → Prop) l :
  ms_inv ms →
  (∀ x, x ∈ l ↔ ∃ bs, trie_map (ms_trie ms) !! bs = Some x ∧ sel bs) →
  ∀ (f : LPMKey * IDSet → list Key) k,
  k ∈ (l ≫= f) ↔
  ∃ l' ids, trie_map (ms_trie ms) !! key_bits l' = Some (l', ids) ∧ sel (key_bits l') ∧ k ∈ f (l', ids).
Proof.
  intros I Hl f k. rewrite list_elem_of_bind. split.
  - intros ([l' ids] & Hk & Hin). apply Hl in Hin as (bs & Hb & Hs).
    destruct (inv_sound ms I _ _ _ Hb) as (_ & -> & _). eauto.
  - intros (l' & ids & Hb & Hs & Hk). exists (l', ids). split; [done|]. apply Hl. eauto.
Qed.

(** Present keys are those found through the trie. *)
Lemma present_trie ms k : ms_inv ms →
  present ms k ↔ ∃ ids, trie_map (ms_trie ms) !! key_bits k = Some (Key_LPMKey k, ids) ∧ Identity k ∈ ids.
Proof.
  intros I. split.
  - intros Hp. destruct (trie_at ms k I (wf_key_lpm k (inv_wf ms I k Hp))) as [[_ Hn]|(ids & E & _ & Hin)].
    + destruct (Hn (Identity k)). by rewrite Key_eta.
    + exists ids. split; [done|]. apply Hin. by rewrite Key_eta.
  - intros (ids & E & Hin). destruct (inv_sound ms I _ _ _ E) as (_ & _ & _ & H).
    apply H in Hin. by rewrite Key_eta in Hin.
Qed.

Lemma ancestors_elem ms key : ms_inv ms → wf_key key → ∀ x,
  x ∈ trie_Ancestors (ms_trie ms) (PrefixLength key) (Key_LPMKey key) ↔
  ∃ bs, trie_map (ms_trie ms) !! bs = Some x ∧ bs `prefix_of` key_bits key.
Proof.
  intros I [W _] x. eapply elem_of_lists_entries.
  apply (trie_Ancestors_law MapStatePrefixLen); [apply I|apply W|by apply prefix_fits].
Qed.

Lemma ancestorsLPF_elem ms key : ms_inv ms → wf_key key → ∀ x,
  x ∈ trie_AncestorsLPF (ms_trie ms) (PrefixLength key) (Key_LPMKey key) ↔
  ∃ bs, trie_map (ms_trie ms) !! bs = Some x ∧ bs `prefix_of` key_bits key.
Proof.
  intros I [W _] x. eapply elem_of_lists_entries.
  apply (trie_AncestorsLPF_law MapStatePrefixLen); [apply I|apply W|by apply prefix_fits].
Qed.

Lemma descendants_elem ms key : ms_inv ms → wf_key key → ∀ x,
  x ∈ trie_Descendants (ms_trie ms) (PrefixLength key) (Key_LPMKey key) ↔
  ∃ bs, trie_map (ms_trie ms) !! bs = Some x ∧ key_bits key `prefix_of` bs.
Proof.
  intros I [W _] x. eapply elem_of_lists_entries.
  apply (trie_Descendants_law MapStatePrefixLen); [apply I|apply W|by apply prefix_fits].
Qed.

(** The keys of an iterator that visits, at each port/protocol, the identities
    satisfying a condition. *)
Lemma iterator_keys ms (sel : list bool → Prop) l (P : Z → Prop) (f : LPMKey * IDSet → list Key) :
  ms_inv ms →
  (∀ x, x ∈ l ↔ ∃ bs, trie_map (ms_trie ms) !! bs = Some x ∧ sel bs) →
  (∀ l' ids k, k ∈ f (l', ids) ↔ Key_LPMKey k = l' ∧ Identity k ∈ ids ∧ P (Identity k)) →
  ∀ k, k ∈ (l ≫= f) ↔ present ms k ∧ sel (key_bits k) ∧ P (Identity k).
Proof.
  intros I Hl Hf k. rewrite (trie_keys ms sel l I Hl), present_trie by done. split.
  - intros (l' & ids & Hb & Hs & Hk). apply Hf in Hk as (<- & Hi & HP). eauto.
  - intros ((ids & Hb & Hi) & Hs & HP). exists k, ids. split_and!; try done. by apply Hf.
Qed.

Lemma mkKey_eq_iff (a b : LPMKey) (i j : Z) : mkKey a i = mkKey b j ↔ a = b ∧ i = j.
Proof. split; [by intros [=]|by intros [-> ->]]. Qed.

Ltac iter_ids :=
  intros l' ids k0; repeat (rewrite elem_of_app || rewrite elem_of_forID ||
    rewrite elem_of_forCoveredIDs || rewrite elem_of_nil);
  destruct k0 as [lk ik]; unfold WithIdentity; cbn [Key_LPMKey Identity]; rewrite ?mkKey_eq_iff.

Lemma covering_keys ms key k : ms_inv ms → wf_key key →
  k ∈ CoveringBroaderOrEqualKeys ms key ↔ present ms k ∧ kcovers (clusterInfo ms) k key.
Proof.
  intros I W. unfold CoveringBroaderOrEqualKeys.
  rewrite (iterator_keys ms _ _ (λ id, id = Identity key ∨ id = aggregateFor (Identity key) (clusterInfo ms))
    _ I (ancestors_elem ms key I W)).
  - unfold kcovers. split; intros (Hp & Hl & Hi); (split; [done|split; [|done]]);
      apply (inv_wf ms I) in Hp as [Wk _]; by apply key_bits_prefix; try apply W.
  - destruct (Z.eqb_spec (Identity key) (aggregateFor (Identity key) (clusterInfo ms))) as [E|E];
      iter_ids; try rewrite <- E; clear -E; naive_solver.
Qed.

Lemma broader_keys ms key k : ms_inv ms → wf_key key →
  k ∈ BroaderOrEqualKeys ms key ↔
  present ms k ∧ lpm_le k key ∧
  (Identity k = Identity key ∨ Identity k = aggregateFor (Identity key) (clusterInfo ms) ∨
   aggregateFor (Identity k) (clusterInfo ms) = Identity key).
Proof.
  intros I W. unfold BroaderOrEqualKeys.
  rewrite (iterator_keys ms _ _ (λ id, id = Identity key ∨
    id = aggregateFor (Identity key) (clusterInfo ms) ∨ aggregateFor id (clusterInfo ms) = Identity key)
    _ I (ancestors_elem ms key I W)).
  - split; intros (Hp & Hl & Hi); (split; [done|split; [|done]]);
      apply (inv_wf ms I) in Hp as [Wk _]; by apply key_bits_prefix; try apply W.
  - pose proof (λ id, aggregateFor_idem id (clusterInfo ms)) as Hidem.
    destruct (Z.eqb_spec (Identity key) (aggregateFor (Identity key) (clusterInfo ms))) as [E|E]; iter_ids.
    + rewrite <- E. clear -E Hidem; destruct (decide (Identity key = ik)); naive_solver.
    + clear -E Hidem. split; [naive_solver|]. intros (<- & Hi & [-> |[-> |Ha]]); [naive_solver..|].
      destruct E. by rewrite <- Ha, Hidem.
Qed.

Lemma covered_keys ms key k : ms_inv ms → wf_key key →
  k ∈ CoveredNarrowerOrEqualKeys ms key ↔ present ms k ∧ kcovers (clusterInfo ms) key k.
Proof.
  intros I W. unfold CoveredNarrowerOrEqualKeys.
  rewrite (iterator_keys ms _ _ (λ id, Identity key = id ∨ Identity key = aggregateFor id (clusterInfo ms))
    _ I (descendants_elem ms key I W)).
  - unfold kcovers. split; intros (Hp & Hl & Hi); (split; [done|split; [|done]]);
      apply (inv_wf ms I) in Hp as [Wk _]; by apply key_bits_prefix; try apply W.
  - pose proof (λ id, aggregateFor_idem id (clusterInfo ms)) as Hidem.
    destruct (Z.eqb_spec (Identity key) (aggregateFor (Identity key) (clusterInfo ms))) as [E|E]; iter_ids.
    + rewrite <- E. clear -E Hidem; destruct (decide (Identity key = ik)); naive_solver.
    + clear -E Hidem. split; [naive_solver|]. intros (<- & Hi & [<- |Ha]); [naive_solver|].
      destruct E. by rewrite Ha, Hidem.
Qed.

Lemma narrower_keys ms key k : ms_inv ms → wf_key key →
  k ∈ NarrowerOrEqualKeys ms key ↔
  present ms k ∧ lpm_le key k ∧
  (Identity key = Identity k ∨ Identity key = aggregateFor (Identity k) (clusterInfo ms) ∨
   Identity k = aggregateFor (Identity key) (clusterInfo ms)).
Proof.
  intros I W. unfold NarrowerOrEqualKeys.
  rewrite (iterator_keys ms _ _ (λ id, Identity key = id ∨ Identity key = aggregateFor id (clusterInfo ms) ∨
    id = aggregateFor (Identity key) (clusterInfo ms)) _ I (descendants_elem ms key I W)).
  - split; intros (Hp & Hl & Hi); (split; [done|split; [|done]]);
      apply (inv_wf ms I) in Hp as [Wk _]; by apply key_bits_prefix; try apply W.
  - pose proof (λ id, aggregateFor_idem id (clusterInfo ms)) as Hidem.
    destruct (Z.eqb_spec (Identity key) (aggregateFor (Identity key) (clusterInfo ms))) as [E|E]; iter_ids.
    + rewrite <- E. clear -E Hidem; destruct (decide (Identity key = ik)); naive_solver.
    + clear -E Hidem. split; [naive_solver|]. intros (<- & Hi & [<- |[Ha| ->]]); [naive_solver| |naive_solver].
      destruct E. by rewrite Ha, Hidem.
Qed.

Lemma lpm_ancestor_keys ms key k : ms_inv ms → wf_key key →
  k ∈ LPMAncestors ms key ↔ present ms k ∧ kcovers (clusterInfo ms) k key.
Proof.
  intros I W. unfold LPMAncestors.
  rewrite (iterator_keys ms _ _ (λ id, id = Identity key ∨ id = aggregateFor (Identity key) (clusterInfo ms))
    _ I (ancestorsLPF_elem ms key I W)).
  - unfold kcovers. split; intros (Hp & Hl & Hi); (split; [done|split; [|done]]);
      apply (inv_wf ms I) in Hp as [Wk _]; by apply key_bits_prefix; try apply W.
  - destruct (Z.eqb_spec (Identity key) (aggregateFor (Identity key) (clusterInfo ms))) as [E|E];
      iter_ids; try rewrite <- E; clear -E; naive_solver.
Qed.

Lemma elem_of_entries_of ms l k v :
  (k, v) ∈ entries_of ms l ↔ k ∈ l ∧ ms_entries ms !! k = Some v.
Proof.
  unfold entries_of. rewrite list_elem_of_omap. split.
  - intros (k' & Hk' & E). apply fmap_Some in E as (v' & E & [= -> ->]). done.
  - intros [Hk E]. exists k. by rewrite E.
Qed.
(** ** The effect of the operations on the entries *)

Lemma ms_delete_entries ms k : ms_entries (ms_delete ms k) = delete k (ms_entries ms).
Proof.
  unfold ms_delete. destruct (ms_entries ms !! k) eqn:E; [done|]. by rewrite delete_id.
Qed.

Lemma ms_delete_clusterInfo ms k : clusterInfo (ms_delete ms k) = clusterInfo ms.
Proof. unfold ms_delete. by destruct (ms_entries ms !! k). Qed.

Lemma upsert_entries ms k e : ms_entries (upsert ms k e) = <[k := e]> (ms_entries ms).
Proof. unfold upsert. by destruct (ms_entries ms !! k). Qed.

Lemma upsert_clusterInfo ms k e : clusterInfo (upsert ms k e) = clusterInfo ms.
Proof. unfold upsert. by destruct (ms_entries ms !! k). Qed.

Lemma deleteExisting_state ms k v ch : (deleteExistingWithChanges ms k v ch).1 = ms_delete ms k.
Proof. unfold deleteExistingWithChanges. by destruct (insertOldIfNotExists ch k v). Qed.

Lemma for_keys_cons k l body (s : mapState TR * ChangeState) :
  for_keys (k :: l) body s =
  for_keys l body (match ms_entries s.1 !! k with Some v => body k v s | None => s end).
Proof. done. Qed.

Lemma deleteKey_state ms k ch : (deleteKeyWithChanges ms k ch).1 = ms_delete ms k.
Proof.
  unfold deleteKeyWithChanges, ms_get. destruct (ms_entries ms !! k) eqn:E.
  - apply deleteExisting_state.
  - unfold ms_delete. by rewrite E.
Qed.

End index.
