(* ===== verification/MapStateLookup.v ===== *)
(** * Lookup in the map state

    The scan of [lookup] ([src/pkg/policy/mapstate.go]) returns an entry of the highest
    precedence among the valid entries that cover the key, on every state in which a
    narrower entry never has a lower precedence than a broader one. *)

From S2P Require Import Prelude Precedence BitLPM PolicyKey Identity RuleOrigin PassMeta.
From S2P Require Import MapState MapStateIndex.

Local Open Scope Z_scope.

Section lookup.
Context {TR : Trie LPMKey IDSet} {TL : TrieLaws LPMKey IDSet TR} {GR : GoRange}.
Implicit Types (ms : mapState TR) (k key : Key) (e v : mapStateEntry).

(** No valid entry of a direction hides a broader one of higher precedence. *)
Record ordered (dir : Z) ms : Prop := {
  ord_inv : ms_inv ms;
  ord_word k v : TrafficDirection k = dir → ms_entries ms !! k = Some v → IsValid v = true → is_uint 32 (Precedence v);
  ord_chain k v k' v' : TrafficDirection k = dir → ms_entries ms !! k = Some v → IsValid v = true →
    ms_entries ms !! k' = Some v' → IsValid v' = true →
    kcovers (clusterInfo ms) k k' → Precedence v ≤ Precedence v';
}.

Lemma bind_sorted {A B} (R : relation A) (S : relation B) (f : A → list B) l :
  (∀ x y a b, x ∈ l → y ∈ l → R x y → a ∈ f x → b ∈ f y → S a b) →
  (∀ x, x ∈ l → StronglySorted S (f x)) →
  StronglySorted R l → StronglySorted S (l ≫= f).
Proof.
  intros H1 H2 Hs. induction Hs as [|x l Hs IH Hx]; [constructor|]. cbn [mbind list_bind].
  apply StronglySorted_app. split_and!.
  - intros a b Ha Hb. apply list_elem_of_bind in Hb as (y & Hb & Hy). rewrite Forall_forall in Hx.
    eapply (H1 x y); eauto; [by left|by right].
  - apply H2. by left.
  - apply IH; [|intros; apply H2; by right]. intros; eapply H1; eauto; by right.
Qed.

(** The entries visited by the lookup come with the longest prefix first. *)
Definition longest_first (x y : Key * mapStateEntry) : Prop :=
  (PrefixLength y.1 ≤ PrefixLength x.1)%nat.

Lemma LPMAncestors_sorted ms key : ms_inv ms → wf_key key →
  StronglySorted longest_first (entries_of ms (LPMAncestors ms key)).
Proof.
  intros I W. unfold entries_of.
  assert (HS : StronglySorted (λ x y : Key, (PrefixLength y ≤ PrefixLength x)%nat) (LPMAncestors ms key)).
  { destruct (trie_AncestorsLPF_law MapStatePrefixLen (ms_trie ms) (PrefixLength key) (Key_LPMKey key))
      as (l' & El & Hp & Hs); [apply I|apply W|apply prefix_fits, W|].
    unfold LPMAncestors. rewrite El, list_fmap_bind. unfold compose.
    assert (Hlen : ∀ bs l ids k, (bs, (l, ids)) ∈ l' → Key_LPMKey k = l → PrefixLength k = length bs).
    { intros bs l ids k Hin <-. rewrite Hp, elem_of_map_to_list, map_lookup_filter_Some in Hin.
      destruct Hin as [Hin _]. apply (inv_sound ms I) in Hin as (_ & -> & _). symmetry. apply bits_length. }
    assert (Hkey : ∀ l ids k, k ∈ forID (WithIdentity (mkKey l 0) (Identity key)) ids ++
      (if Identity key =? aggregateFor (Identity key) (clusterInfo ms) then []
       else forID (WithIdentity (mkKey l 0) (aggregateFor (Identity key) (clusterInfo ms))) ids) →
      Key_LPMKey k = l).
    { intros l ids k [[-> _]%elem_of_forID|Hk]%elem_of_app; [done|].
      destruct (_ =? _); [by apply elem_of_nil in Hk|]. by apply elem_of_forID in Hk as [-> _]. }
    apply (bind_sorted (λ x y, (length x.1 > length y.1)%nat)); [..|exact Hs].
    - intros [bs [l ids]] [bs' [l2 ids']] a b Hx Hy HR Ha Hb. cbn [fst snd] in *.
      apply Hkey in Ha, Hb. rewrite (Hlen _ _ _ a Hx Ha), (Hlen _ _ _ b Hy Hb). lia.
    - intros [bs [l ids]] Hx. cbn [fst snd].
      assert (HF : ∀ k1 k2 : Key, Key_LPMKey k1 = l → Key_LPMKey k2 = l → (PrefixLength k2 ≤ PrefixLength k1)%nat)
        by (by intros k1 k2 -> ->).
      unfold forID. repeat case_match; simpl; repeat constructor; by apply HF. }
  induction HS as [|k l HS IH HF]; [constructor|]. cbn [omap list_omap].
  destruct (ms_entries ms !! k) as [v|] eqn:E; simpl; [|done]. constructor; [done|].
  apply Forall_forall. intros [k' v'] Hin. apply elem_of_entries_of in Hin as [Hin _].
  rewrite Forall_forall in HF. by apply HF.
Qed.

(** The first valid entry of each kind. *)
Definition first_of (P : Key * mapStateEntry → bool) (l : list (Key * mapStateEntry)) :=
  head (filter (λ x, P x = true) l).

Definition id_entry agg (x : Key * mapStateEntry) : bool := negb (Identity x.1 =? agg) && IsValid x.2.
Definition agg_entry agg (x : Key * mapStateEntry) : bool := (Identity x.1 =? agg) && IsValid x.2.

Lemma first_of_cons P x l : first_of P (x :: l) = if P x then Some x else first_of P l.
Proof. unfold first_of. rewrite filter_cons. destruct (P x) eqn:E; by case_decide. Qed.

Lemma lookup_scan_first agg l i a :
  lookup_scan agg l i a =
    (match i with Some _ => i | None => first_of (id_entry agg) l end,
     match a with Some _ => a | None => first_of (agg_entry agg) l end).
Proof.
  revert i a. induction l as [|[k v] l IH]; intros i a; [by destruct i, a|].
  cbn [lookup_scan]. rewrite !first_of_cons. unfold id_entry, agg_entry; cbn [fst snd].
  destruct i as [x|], a as [y|]; rewrite ?IH; try done;
    destruct (_ =? _), (IsValid v); cbn [negb andb]; rewrite ?IH; done.
Qed.

Lemma first_of_spec P (l : list (Key * mapStateEntry)) x :
  StronglySorted longest_first l → first_of P l = Some x →
  x ∈ l ∧ P x = true ∧ ∀ y, y ∈ l → P y = true → y = x ∨ longest_first x y.
Proof.
  induction 1 as [|z l Hs IH HF]; [done|]. rewrite first_of_cons.
  destruct (P z) eqn:E.
  - intros [= ->]. split; [by left|]. split; [done|]. rewrite Forall_forall in HF.
    intros y [->|Hy]%elem_of_cons _; [by left|right; by apply HF].
  - intros (Hx & HP & Hm)%IH. split; [by right|]. split; [done|].
    intros y [->|Hy]%elem_of_cons HPy; [congruence|by apply Hm].
Qed.

Lemma first_of_none P (l : list (Key * mapStateEntry)) :
  first_of P l = None → ∀ y, y ∈ l → P y = false.
Proof.
  intros H y Hy. destruct (P y) eqn:E; [|done]. exfalso. unfold first_of in H.
  assert (Hf : y ∈ filter (λ x, P x = true) l) by (by apply list_elem_of_filter).
  destruct (filter _ l); [by apply elem_of_nil in Hf|done].
Qed.

(** Among the entries of one identity covering a key, the first one visited has the
    highest precedence. *)
Lemma first_of_max ms key (P : Key * mapStateEntry → bool) id x :
  ordered (TrafficDirection key) ms → wf_key key →
  (∀ y : Key * mapStateEntry, y ∈ entries_of ms (LPMAncestors ms key) → P y = true ↔ Identity y.1 = id ∧ IsValid y.2 = true) →
  first_of P (entries_of ms (LPMAncestors ms key)) = Some x →
  ms_entries ms !! x.1 = Some x.2 ∧ IsValid x.2 = true ∧ kcovers (clusterInfo ms) x.1 key ∧ Identity x.1 = id ∧
  ∀ k' v', ms_entries ms !! k' = Some v' → IsValid v' = true → kcovers (clusterInfo ms) k' key → Identity k' = id →
    Precedence v' ≤ Precedence x.2.
Proof.
  intros Pol W HP Hx. pose proof (ord_inv _ _ Pol) as I.
  destruct (first_of_spec P _ x (LPMAncestors_sorted ms key I W) Hx) as (Hin & HPx & Hmax).
  destruct x as [k v]; cbn [fst snd] in *.
  pose proof Hin as Hin'. apply elem_of_entries_of in Hin' as [Hk E].
  apply lpm_ancestor_keys in Hk as [_ Hk]; try done.
  destruct (proj1 (HP (k, v) Hin) HPx) as [Hid Hv]; cbn [fst snd] in Hid, Hv.
  split_and!; try done. intros k' v' E' Hv' Hc' Hid'.
  assert (Hin2 : (k', v') ∈ entries_of ms (LPMAncestors ms key)).
  { apply elem_of_entries_of. split; [|done]. apply lpm_ancestor_keys; try done.
    split; [by exists v'|done]. }
  destruct (Hmax (k', v') Hin2) as [[= -> ->]|HL]; [by apply HP|done|].
  unfold longest_first in HL; cbn [fst] in HL.
  assert (wf_lpm k) as Wk by (apply (inv_wf ms I); by exists v).
  assert (wf_lpm k') as Wk' by (apply (inv_wf ms I); by exists v').
  assert (Hle : lpm_le k' k).
  { destruct (lpm_le_total k' k key) as [|Hle]; [done|done|apply W|apply Hc'|apply Hk|done|].
    apply key_bits_prefix in Hle; try done. unfold key_bits in Hle.
    assert (Eb : key_bits k = key_bits k').
    { apply (prefix_length_eq _ _ Hle). unfold key_bits. by rewrite !bits_length. }
    apply key_bits_inj in Eb as ->; try done. apply lpm_le_refl. }
  eapply (ord_chain _ _ Pol); [|exact E'|done|exact E|done|]; [apply Hc'|]. split; [done|left; congruence].
Qed.

(** The result of a lookup among the entries. *)
Definition highest ms key v : Prop :=
  (∃ k, ms_entries ms !! k = Some v ∧ IsValid v = true ∧ kcovers (clusterInfo ms) k key) ∧
  ∀ k' v', ms_entries ms !! k' = Some v' → IsValid v' = true → kcovers (clusterInfo ms) k' key →
    Precedence v' ≤ Precedence v.

(** The best entry for one identity, if any. *)
Definition best_of ms key (id : Z) (o : option (Key * mapStateEntry)) : Prop :=
  match o with
  | Some (k, v) =>
      ms_entries ms !! k = Some v ∧ IsValid v = true ∧ kcovers (clusterInfo ms) k key ∧
      ∀ k' v', ms_entries ms !! k' = Some v' → IsValid v' = true → kcovers (clusterInfo ms) k' key →
        Identity k' = id → Precedence v' ≤ Precedence v
  | None =>
      ∀ k' v', ms_entries ms !! k' = Some v' → IsValid v' = true → kcovers (clusterInfo ms) k' key →
        Identity k' ≠ id
  end.

Lemma first_of_best ms key (P : Key * mapStateEntry → bool) id :
  ordered (TrafficDirection key) ms → wf_key key →
  (∀ y : Key * mapStateEntry, y ∈ entries_of ms (LPMAncestors ms key) → P y = true ↔ Identity y.1 = id ∧ IsValid y.2 = true) →
  best_of ms key id (first_of P (entries_of ms (LPMAncestors ms key))).
Proof.
  intros Pol W HP. destruct (first_of P _) as [[k v]|] eqn:E.
  - destruct (first_of_max ms key P id (k, v) Pol W HP E) as (? & ? & ? & _ & ?). done.
  - intros k' v' E' Hv' Hc Hid. pose proof (first_of_none _ _ E (k', v')) as Hn.
    assert (Hin : (k', v') ∈ entries_of ms (LPMAncestors ms key)).
    { apply elem_of_entries_of. split; [|done]. apply lpm_ancestor_keys; [apply Pol|done|].
      split; [by exists v'|done]. }
    specialize (Hn Hin). assert (P (k', v') = true) by (by apply (HP _ Hin)). congruence.
Qed.

Lemma lookup_best ms key : ordered (TrafficDirection key) ms → wf_key key →
  let agg := aggregateFor (Identity key) (clusterInfo ms) in
  let l := entries_of ms (LPMAncestors ms key) in
  (Identity key ≠ agg → best_of ms key (Identity key) (first_of (id_entry agg) l)) ∧
  (Identity key = agg → first_of (id_entry agg) l = None) ∧
  best_of ms key agg (first_of (agg_entry agg) l).
Proof.
  intros Pol W agg l.
  assert (Hin : ∀ y : Key * mapStateEntry, y ∈ l → Identity y.1 = Identity key ∨ Identity y.1 = agg).
  { intros [k v] Hy. apply elem_of_entries_of in Hy as [Hk E].
    by apply lpm_ancestor_keys in Hk as [_ [_ Hk]]; [|apply Pol|done]. }
  assert (HI : ∀ y : Key * mapStateEntry, y ∈ l → id_entry agg y = true ↔
    (Identity y.1 = Identity key ∧ IsValid y.2 = true) ∧ Identity key ≠ agg).
  { intros y Hy. unfold id_entry. destruct (Hin y Hy) as [Hid|Hid];
      rewrite andb_true_iff, negb_true_iff, Z.eqb_neq; rewrite Hid; [tauto|].
    split; [tauto|]. intros [[E ?] Hn]. congruence. }
  split_and!.
  - intros Hn. apply first_of_best; [done|done|]. intros y Hy. rewrite (HI y Hy). tauto.
  - intros E. destruct (first_of (id_entry agg) l) as [x|] eqn:Ef; [|done].
    apply first_of_spec in Ef as (Hx & HP & _); [|by apply LPMAncestors_sorted; [apply Pol|]].
    apply HI in HP as [_ HP]; done.
  - apply first_of_best; [done|done|]. intros y Hy. unfold agg_entry. by rewrite andb_true_iff, Z.eqb_eq.
Qed.

Lemma lookup_entries ms key : ordered (TrafficDirection key) ms → wf_key key →
  match lookup ms key with
  | (v, true) => highest ms key v
  | (v, false) => v = mkEntry DenyEntry None NilRuleOrigin ∧
      ∀ k v, ms_entries ms !! k = Some v → IsValid v = true → ¬ kcovers (clusterInfo ms) k key
  end.
Proof.
  intros Pol W. unfold lookup. rewrite lookup_scan_first.
  destruct (lookup_best ms key Pol W) as (HI & HN & HA).
  set (agg := aggregateFor (Identity key) (clusterInfo ms)) in *.
  set (l := entries_of ms (LPMAncestors ms key)) in *.
  assert (HC : ∀ k, kcovers (clusterInfo ms) k key → Identity k = agg ∨ Identity k = Identity key ∧ Identity key ≠ agg).
  { intros k [_ [E|E]]; [|by left]. destruct (decide (Identity key = agg)); [left; congruence|by right]. }
  assert (HB : ∀ k v, kcovers (clusterInfo ms) k key → ms_entries ms !! k = Some v → IsValid v = true → Precedence v ≤ MaxPrecedence).
  { intros k v Hk E Hv. pose proof (ord_word _ _ Pol k v (proj1 (proj1 Hk)) E Hv) as Hu.
    unfold is_uint in Hu. change MaxPrecedence with (2 ^ 32 - 1). lia. }
  destruct (first_of (id_entry agg) l) as [[ki vi]|] eqn:Ei.
  - assert (Hne : Identity key ≠ agg) by (intros E; by apply HN in E).
    destruct (HI Hne) as (E1 & V1 & C1 & M1).
    destruct (first_of (agg_entry agg) l) as [[ka va]|] eqn:Ea.
    + destruct HA as (E2 & V2 & C2 & M2).
      assert (HH : ∀ k v, (k = ki ∧ v = vi ∨ k = ka ∧ v = va) → Precedence vi ≤ Precedence v →
        Precedence va ≤ Precedence v → highest ms key v).
      { intros k v Hkv Hvi Hva. split; [exists k; by destruct Hkv as [[-> ->]|[-> ->]]|].
        intros k' v' E' Hv' Hc'. destruct (HC k' Hc') as [Hid|[Hid _]];
          [pose proof (M2 k' v' E' Hv' Hc' Hid)|pose proof (M1 k' v' E' Hv' Hc' Hid)]; lia. }
      pose proof (HB _ _ C2 E2 V2). destruct (Z.eqb_spec (Precedence vi) MaxPrecedence); [by apply (HH ki vi); auto; lia|].
      destruct (Z.ltb_spec (Precedence va) (Precedence vi)); [by apply (HH ki vi); auto; lia|].
      destruct (Z.ltb_spec (Precedence vi) (Precedence va)); [by apply (HH ka va); auto; lia|].
      destruct (_ <? _)%nat; [by apply (HH ka va); auto; lia|by apply (HH ki vi); auto; lia].
    + split; [by exists ki|]. intros k' v' E' Hv' Hc'.
      destruct (HC k' Hc') as [Hid|[Hid _]]; [by destruct (HA k' v' E' Hv' Hc')|by eapply M1].
  - destruct (first_of (agg_entry agg) l) as [[ka va]|] eqn:Ea.
    + destruct HA as (E2 & V2 & C2 & M2). split; [by exists ka|]. intros k' v' E' Hv' Hc'.
      destruct (HC k' Hc') as [Hid|[Hid Hne]]; [by eapply M2|]. by destruct (HI Hne k' v' E' Hv' Hc').
    + split; [done|]. intros k' v' E' Hv' Hc'.
      destruct (HC k' Hc') as [Hid|[Hid Hne]]; [by destruct (HA k' v' E' Hv' Hc')|by destruct (HI Hne k' v' E' Hv' Hc')].
Qed.
End lookup.
