(* ===== verification/MapStateOps.v ===== *)
(** * Every operation of the map state keeps its indices

    The invariant [MapStateIndex.ms_inv] is kept by all operations of
    [src/pkg/policy/mapstate.go] that change entries, insertion through passes and
    the revert of recorded changes included, and the work list of
    [insertWithPasses] is emptied within the fuel of [MapState.sub_fuel]. *)

From S2P Require Import Prelude Precedence BitLPM PolicyKey Identity RuleOrigin PassMeta.
From S2P Require Import PortRange MapState MapStateIndex.

Local Open Scope Z_scope.

Section ops.
Context {TR : Trie LPMKey IDSet} {TL : TrieLaws LPMKey IDSet TR} {GR : GoRange}.
Context (cinfo : ClusterInfo) (P O : Key → Prop).
Context (P_wf : ∀ k, P k → wf_key k) (P_O : ∀ k, P k → O k).
Implicit Types (ms : mapState TR) (k key : Key) (e v : mapStateEntry) (s : mapState TR * ChangeState).

(** A state and its change record: the indices agree, all keys satisfy [P] and all
    recorded old keys [O]. *)
Record st_inv s : Prop := {
  st_ms : ms_inv s.1;
  st_cinfo : clusterInfo s.1 = cinfo;
  st_keys k : present s.1 k → P k;
  st_old k o : old s.2 = Some o → is_Some (o !! k) → O k;
}.

Lemma insertOld_old ch k e o k' : (∀ k o, old ch = Some o → is_Some (o !! k) → O k) → P k →
  old (insertOldIfNotExists ch k e).1 = Some o → is_Some (o !! k') → O k'.
Proof.
  intros H Pk. unfold insertOldIfNotExists.
  destruct (old ch) as [o0|] eqn:E; [|simpl; congruence].
  destruct (o0 !! k) eqn:E0; [simpl; rewrite E; intros [= <-]; by apply H|].
  destruct (Keys_Has _ _); simpl; [rewrite E; intros [= <-]; by apply H|].
  intros [= <-]. rewrite lookup_insert_is_Some. intros [<-|[_ ?]]; [by apply P_O|by eapply H].
Qed.

Lemma deleteExisting_st k v s : st_inv s → present s.1 k →
  st_inv (deleteExistingWithChanges s.1 k v s.2).
Proof.
  intros [I C K HO] Hp. pose proof (deleteExisting_state s.1 k v s.2) as E.
  constructor; rewrite ?E.
  - by apply delete_inv.
  - by rewrite ms_delete_clusterInfo.
  - intros k'. unfold present. rewrite ms_delete_entries, present_delete. intros [_ ?]. by apply K.
  - pose proof (insertOld_old s.2 k v) as HO'. unfold deleteExistingWithChanges.
    destruct (insertOldIfNotExists s.2 k v) as [ch []]; simpl in *; eauto.
Qed.

Lemma updateExisting_st k e s ch : st_inv s → present s.1 k →
  (∀ k o, old ch = Some o → is_Some (o !! k) → O k) → st_inv (updateExisting s.1 k e, ch).
Proof.
  intros [I C K _] Hp HO. constructor; try done.
  - by apply updateExisting_inv.
  - intros k'. unfold present. simpl. rewrite (present_insert s.1 k e) by done.
    intros [-> |?]; by apply K.
Qed.

Lemma upsert_st k e s ch : st_inv s → P k →
  (∀ k o, old ch = Some o → is_Some (o !! k) → O k) → st_inv (upsert s.1 k e, ch).
Proof.
  intros [I C K _] Pk HO. constructor; try done.
  - apply upsert_inv; auto.
  - by rewrite <- C, <- (upsert_clusterInfo s.1 k e).
  - intros k'. unfold present. simpl. rewrite upsert_entries, (present_insert s.1 k e) by done.
    intros [-> |?]; [done|by apply K].
Qed.

Lemma record_old (b : bool) (A D : Keys) (ch : ChangeState) :
  old (if b then mkChangeState A D (old ch) else ch) = old ch.
Proof. by destruct b. Qed.

Lemma addKey_st k e s : st_inv s → P k → st_inv (addKeyWithChanges s.1 k e s.2).1.
Proof.
  intros S Pk. unfold addKeyWithChanges, ms_get. destruct (ms_entries s.1 !! k) as [o|] eqn:E; simpl.
  2:{ apply upsert_st; try done. intros k' o. rewrite record_old. apply S. }
  destruct (mapStateEntry_Equal e o); [by destruct s|].
  assert (HO : ∀ k' o', old (insertOldIfNotExists s.2 k o).1 = Some o' → is_Some (o' !! k') → O k').
  { intros k' o'. apply insertOld_old; [apply S|done]. }
  destruct (MergeClone _ _) as [merged upd].
  match goal with |- context [match ?r with Some _ => _ | None => _ end] => destruct r as [e'|] end; simpl.
  - apply updateExisting_st; [done|by eexists|]. intros k' o'. rewrite record_old. apply HO.
  - constructor; [apply S..|apply HO].
Qed.

Lemma for_keys_st l body s :
  (∀ k v s, k ∈ l → st_inv s → ms_entries s.1 !! k = Some v → st_inv (body k v s)) →
  st_inv s → st_inv (for_keys l body s).
Proof.
  revert s. induction l as [|k l IH]; intros s HB S; [done|].
  rewrite for_keys_cons. apply IH; [intros; apply HB; [by right|done..]|].
  destruct (ms_entries s.1 !! k) eqn:E; [|done]. apply HB; [by left|done..].
Qed.

Lemma delete_loop_st l (cond : Key → mapStateEntry → bool) s : st_inv s →
  st_inv (for_keys l (λ k v s, if cond k v then deleteExistingWithChanges s.1 k v s.2 else s) s).
Proof.
  intros S. apply for_keys_st; [|done]. intros k v s' _ S' E.
  destruct (cond k v); [|done]. apply deleteExisting_st; [done|by eexists].
Qed.

Lemma pruneAggregated_st k e s : st_inv s → st_inv (pruneAggregated s.1 k e s.2).
Proof.
  intros S. unfold pruneAggregated. rewrite <- surjective_pairing. repeat case_match; try done.
  by apply delete_loop_st.
Qed.

Lemma deleteKey_st k s : st_inv s → st_inv (deleteKeyWithChanges s.1 k s.2).
Proof.
  intros S. unfold deleteKeyWithChanges, ms_get. destruct (ms_entries s.1 !! k) eqn:E.
  - apply deleteExisting_st; [done|by eexists].
  - by destruct s.
Qed.

Lemma deleteId_st id s : st_inv s → st_inv (deleteIdWithChanges s.1 id s.2).
Proof.
  intros S. unfold deleteIdWithChanges. rewrite <- surjective_pairing. destruct (_ ≫= _) as [x|]; [|done].
  generalize (range x). intros l. revert s S. induction l as [|y l IH]; intros s S; [done|]. simpl. by apply IH, deleteKey_st.
Qed.

Lemma foldl_st {A} (f : mapState TR → A → mapState TR) l ms ch :
  (∀ ms x, x ∈ l → st_inv (ms, ch) → st_inv (f ms x, ch)) → st_inv (ms, ch) → st_inv (foldl f ms l, ch).
Proof.
  revert ms. induction l as [|x l IH]; intros ms HF S; [done|]. simpl.
  apply IH; [intros; apply HF; [by right|done]|]. apply HF; [by left|done].
Qed.

Lemma revert_st s : (∀ k, O k → P k) → st_inv s → st_inv (revertChanges s.1 s.2, s.2).
Proof.
  intros OP S. unfold revertChanges. apply foldl_st.
  - intros ms k Hk S'. destruct (default ∅ (old s.2) !! k) eqn:E; [|done].
    apply (upsert_st k _ (ms, s.2)); [done| |apply S'].
    destruct (old s.2) eqn:Eo; [|done]. by eapply OP, (st_old s S).
  - apply foldl_st; [|by destruct s]. intros ms k _ S'.
    destruct S' as [I C K HO]. constructor; simpl in *.
    + by apply delete_inv.
    + by rewrite ms_delete_clusterInfo.
    + intros k'. unfold present. rewrite ms_delete_entries, present_delete. intros [_ ?]. by apply K.
    + done.
Qed.

(** ** Insertion *)

Lemma prune_st k v key e p s : st_inv s → ms_entries s.1 !! k = Some v →
  st_inv (pruneCoveredNarrowerKey k v key e p s).
Proof.
  intros S E. destruct s as [ms ch]. unfold pruneCoveredNarrowerKey.
  repeat (match goal with |- context [if ?b then _ else _] => destruct b end); try done;
    try (apply (deleteExisting_st k v (ms, ch)); [done|by eexists]);
    apply (updateExisting_st k _ (ms, ch)); try done; try (by eexists); apply S.
Qed.

Lemma prune_covered_st key e p s : st_inv s → st_inv (prune_covered key e p s).
Proof.
  intros S. unfold prune_covered. apply for_keys_st; [|done]. intros k v s' _ S' E. by apply prune_st.
Qed.

Lemma add_passed_st key e p s : st_inv s → P key → st_inv (add_passed key e p s).
Proof. intros S Pk. unfold add_passed. apply addKey_st; [by apply prune_covered_st|done]. Qed.
End ops.

Lemma WithIdentity_wf (k : Key) (id : Z) : wf_key k → is_uint 32 id → wf_key (WithIdentity k id).
Proof. intros [W _] Hid. by constructor. Qed.

(** ** The scan of the broader keys *)

Section scan.
Context {TR : Trie LPMKey IDSet}.
Implicit Types (ms : mapState TR) (k key : Key) (e v : mapStateEntry).

(** Induction over the scan of the broader keys. *)
Lemma scan_passes_ind (Q : scan → Prop) main cov p sub l sc sc' :
  (∀ sc, Q sc → Q (scan_l34 sub sc)) → (∀ m sc, Q sc → Q (scan_collect m sc)) →
  Q sc → scan_passes main cov p sub l sc = Some sc' → Q sc'.
Proof.
  intros H1 H2. revert sc. induction l as [|m l IH]; simpl; intros sc HQ E; [by simplify_eq|].
  destruct (p <? tierMinPrecedence m).
  - destruct cov; [eapply IH; [|done]; by apply H2|]. simplify_eq. by apply H1.
  - destruct (main && cov && _); [done|]. by eapply IH.
Qed.

Lemma scan_broader_ind (Q : scan → Prop) main tier agg key e l sc sc' :
  (∀ k v sc, (k, v) ∈ l → Q sc →
     Q (scan_l34 (WithIdentity key (Identity k)) sc) ∧ Q (scan_done (WithIdentity key (Identity k)) sc)) →
  (∀ m sc, Q sc → Q (scan_collect m sc)) → (∀ p sc, Q sc → Q (scan_bail p sc)) →
  Q sc → scan_broader main tier agg key e l sc = Some sc' → Q sc'.
Proof.
  intros H1 H2 H3. revert sc. induction l as [|[k v] l IH]; simpl; intros sc HQ E; [by simplify_eq|].
  destruct (scan_entry _ _ _ _ _ _ _ _) as [sc1|] eqn:E1; [|done].
  eapply IH; [intros; apply (H1 k0 v0); [by right|done]| |exact E]. clear IH E.
  unfold scan_entry in E1. destruct (scan_passes _ _ _ _ _ _) as [sc2|] eqn:E2; [|done].
  assert (HQ2 : Q sc2).
  { eapply scan_passes_ind; [| |exact HQ|exact E2]; [|done].
    intros sc0 HQ0. by apply (H1 k v sc0); [left|]. }
  assert (HD : Q (scan_done (WithIdentity key (Identity k)) sc2)) by (by apply (H1 k v sc2); [left|]).
  repeat case_match; simplify_eq; auto.
Qed.

(** Only the main scan returns early. *)
Lemma scan_broader_total tier agg key e l sc : is_Some (scan_broader false tier agg key e l sc).
Proof.
  revert sc. induction l as [|[k v] l IH]; simpl; intros sc; [done|].
  assert (HP : ∀ cov p sub m sc, is_Some (scan_passes false cov p sub m sc)).
  { intros cov p sub m. induction m as [|x m IHm]; simpl; intros sc0; [done|].
    destruct (_ <? _); [destruct cov|]; auto. }
  assert (HE : is_Some (scan_entry false tier agg key e k v sc)).
  { unfold scan_entry. destruct (HP (negb (Identity key =? agg) || (Identity k =? agg)) (Precedence e)
      (WithIdentity key (Identity k)) (Passes v) sc) as [sc1 ->]. repeat case_match; done. }
  destruct HE as [sc1 ->]. apply IH.
Qed.

(** The subset keys a scan collects, and the keys it marks. *)
Lemma scan_broader_keys main tier agg key e ms l sc sc' :
  (∀ k v, (k, v) ∈ l → present ms k) →
  sc_l34Keys sc = None ∨ sc_l34Keys sc = Some ∅ →
  scan_broader main tier agg key e l sc = Some sc' →
  (∀ k, k ∈ default ∅ (sc_l34Keys sc') → ∃ k0, present ms k0 ∧ k = WithIdentity key (Identity k0)) ∧
  default ∅ (sc_doneKeys sc) ⊆ default ∅ (sc_doneKeys sc').
Proof.
  intros Hl H0 E. revert E.
  apply (scan_broader_ind (λ sc',
    (∀ k, k ∈ default ∅ (sc_l34Keys sc') → ∃ k0, present ms k0 ∧ k = WithIdentity key (Identity k0)) ∧
    default ∅ (sc_doneKeys sc) ⊆ default ∅ (sc_doneKeys sc'))).
  - intros k v sc1 Hin [HA HB]. specialize (Hl k v Hin). unfold scan_l34, scan_done, Keys_Insert.
    split; (split; [|set_solver]); simpl; [|done].
    intros k'. rewrite elem_of_union, elem_of_singleton. intros [-> |]; eauto.
  - done.
  - done.
  - split; [|done]. intros k. destruct H0 as [-> | ->]; simpl; set_solver.
Qed.

End scan.

(** ** The work list *)

Section worklist.
Context {GR : GoRange}.

(** The subset keys still to do: those queued, and those of [U] not yet seen. *)
Definition work (U : gset Key) (q : list Key * Keys) : nat :=
  (size (U ∖ default ∅ q.2) + length q.1)%nat.

(** Queued keys are distinct and marked as seen. *)
Definition queue_ok (q : list Key * Keys) : Prop :=
  NoDup q.1 ∧ ∀ k, k ∈ q.1 → k ∈ default ∅ q.2.

Lemma Keys_Has_spec (ks : Keys) k : Keys_Has ks k = bool_decide (k ∈ default ∅ ks).
Proof. destruct ks; simpl; [done|]. symmetry. apply bool_decide_false. set_solver. Qed.

Lemma addNewKey_spec k q : queue_ok q →
  queue_ok (addNewKey k q) ∧
  (∀ k', k' ∈ (addNewKey k q).1 → k' ∈ q.1 ∨ k' = k) ∧
  (∀ U, k ∈ U → work U (addNewKey k q) ≤ work U q)%nat.
Proof.
  intros [Hnd Hin]. destruct q as [keys done]. unfold addNewKey. rewrite Keys_Has_spec. simpl.
  case_bool_decide as Hk; [by repeat split; auto|]. split; [|split].
  - split; simpl in *.
    + apply NoDup_app. split_and!; [done| |apply NoDup_singleton].
      intros k' Hk' ->%list_elem_of_singleton. auto.
    + intros k'. rewrite elem_of_app, list_elem_of_singleton, elem_of_union, elem_of_singleton.
      intros [?| ->]; auto.
  - intros k'. simpl. rewrite elem_of_app, list_elem_of_singleton. done.
  - intros U HU. unfold work. cbn [fst snd]. rewrite length_app. cbn [length].
    change (default ∅ (Keys_Insert done k)) with ({[k]} ∪ default ∅ done).
    assert (E : U ∖ default ∅ done = {[k]} ∪ (U ∖ ({[k]} ∪ default ∅ done))).
    { apply set_eq. intros x. rewrite elem_of_union, !elem_of_difference, elem_of_union, elem_of_singleton.
      destruct (decide (x = k)) as [->|]; tauto. }
    rewrite E, (size_union {[k]}), size_singleton by set_solver. lia.
Qed.

Lemma addNewKeys_spec (l34 : Keys) q : queue_ok q →
  queue_ok (addNewKeys l34 q) ∧
  (∀ k', k' ∈ (addNewKeys l34 q).1 → k' ∈ q.1 ∨ k' ∈ default ∅ l34) ∧
  (∀ U, default ∅ l34 ⊆ U → work U (addNewKeys l34 q) ≤ work U q)%nat.
Proof.
  intros Q. unfold addNewKeys.
  assert (HL : ∀ k, k ∈ range (default ∅ l34) ↔ k ∈ default ∅ l34).
  { intros k. rewrite range_perm. apply elem_of_elements. }
  assert (HG : ∀ l q, queue_ok q →
    queue_ok (foldl (λ q0 k, addNewKey k q0) q l) ∧
    (∀ k', k' ∈ (foldl (λ q0 k, addNewKey k q0) q l).1 → k' ∈ q.1 ∨ k' ∈ l) ∧
    (∀ U, (∀ k, k ∈ l → k ∈ U) → work U (foldl (λ q0 k, addNewKey k q0) q l) ≤ work U q)%nat).
  { clear. induction l as [|k l IH]; intros q Q; simpl.
    { split_and!; auto. }
    destruct (addNewKey_spec k q Q) as (Q1 & K1 & W1). destruct (IH _ Q1) as (Q2 & K2 & W2).
    split_and!; [done| |].
    - intros k' [Hk|Hk]%K2; rewrite elem_of_cons; [apply K1 in Hk as [?| ->]|]; auto.
    - intros U HU. etrans; [apply W2|apply W1]; intros; apply HU; rewrite elem_of_cons; auto. }
  destruct (HG (range (default ∅ l34)) q Q) as (Q1 & K1 & W1). split_and!; [done| |].
  - intros k' [?|Hk]%K1; [by left|right; by apply HL].
  - intros U HU. apply W1. intros k Hk. apply HU. by apply HL.
Qed.

Lemma work_bound U q : queue_ok q → (∀ k, k ∈ q.1 → k ∈ U) → (work U q ≤ size U)%nat.
Proof.
  intros [Hnd Hin] HU. destruct q as [keys done]. unfold work. simpl in *.
  rewrite <- (size_list_to_set (C:=gset Key) keys Hnd).
  rewrite <- size_union; [|set_solver]. apply subseteq_size. set_solver.
Qed.

Lemma work_mono U (keys : list Key) (d d' : Keys) : default ∅ d ⊆ default ∅ d' →
  (work U (keys, d') ≤ work U (keys, d))%nat.
Proof.
  intros H. unfold work. simpl. pose proof (subseteq_size (U ∖ default ∅ d') (U ∖ default ∅ d)) as HS.
  assert (U ∖ default ∅ d' ⊆ U ∖ default ∅ d) by set_solver. specialize (HS ltac:(done)). lia.
Qed.
End worklist.

(** ** The loop over the subset keys *)

Section loop.
Context {TR : Trie LPMKey IDSet} {TL : TrieLaws LPMKey IDSet TR} {GR : GoRange}.
Context (cinfo : ClusterInfo) (L : list LPMKey) (I : list Z).
Implicit Types (ms : mapState TR) (k key : Key) (e v : mapStateEntry) (s : mapState TR * ChangeState).

(** All keys with a port/protocol of [L] and an identity of [I]. *)
Definition product : gset Key := list_to_set (l ← L; mkKey l <$> I).

Lemma elem_of_product k : k ∈ product ↔ Key_LPMKey k ∈ L ∧ Identity k ∈ I.
Proof.
  unfold product. rewrite elem_of_list_to_set, list_elem_of_bind. split.
  - intros (l & Hk & Hl). apply list_elem_of_fmap in Hk as (i & -> & Hi). done.
  - intros [Hl Hi]. exists (Key_LPMKey k). split; [|done]. apply list_elem_of_fmap.
    exists (Identity k). by rewrite Key_eta.
Qed.

Lemma size_list_le (l : list Key) : (size (list_to_set l : gset Key) ≤ length l)%nat.
Proof.
  induction l as [|x l IH]; simpl; [done|]. rewrite size_union_alt, size_singleton.
  pose proof (subseteq_size ((list_to_set l : gset Key) ∖ {[x]}) (list_to_set l)) as H.
  assert ((list_to_set l : gset Key) ∖ {[x]} ⊆ list_to_set l) by set_solver. specialize (H ltac:(done)). lia.
Qed.

Lemma size_product : (size product ≤ length L * length I)%nat.
Proof.
  unfold product. etrans; [apply size_list_le|]. clear.
  induction L as [|l L' IH]; [done|]. rewrite bind_cons, length_app, length_fmap. cbn [length]. lia.
Qed.

Definition known k : Prop := wf_key k ∧ Identity k ∈ I.
Definition queueable k : Prop := known k ∧ Key_LPMKey k ∈ L.

Notation loop_inv := (st_inv (TR:=TR) cinfo known wf_key).

Lemma sub_round_ok tier agg e key s keys done :
  loop_inv s → queueable key → (∀ k, k ∈ keys → queueable k) → queue_ok (keys, done) →
  let '(s', keys', done') := sub_round tier agg e key s keys done in
  loop_inv s' ∧ (∀ k, k ∈ keys' → queueable k) ∧ queue_ok (keys', done') ∧
  (work product (keys', done') ≤ work product (keys, done))%nat.
Proof.
  intros S [[Wk Ik] Lk] HK Q. unfold sub_round.
  destruct (scan_broader_total tier agg key e (entries_of s.1 (BroaderOrEqualKeys s.1 key))
    (mkScan [] (Some ∅) done 0)) as [sc E]. rewrite E.
  edestruct (scan_broader_keys false tier agg key e s.1) as [H34 Hdone]; [| |exact E|].
  { intros k v [_ Ev]%elem_of_entries_of. by eexists. }
  { by right. }
  simpl in Hdone.
  assert (Q1 : queue_ok (keys, sc_doneKeys sc)).
  { split; [apply Q|]. intros k Hk. apply Hdone. by apply Q. }
  assert (HQ : ∀ k, k ∈ default ∅ (sc_l34Keys sc) → queueable k).
  { intros k (k0 & Hp & ->)%H34. destruct (st_keys _ _ _ _ S k0 Hp) as [W0 I0].
    split; [split; [|done]|done]. apply WithIdentity_wf; [done|apply W0]. }
  destruct (addNewKeys_spec (sc_l34Keys sc) _ Q1) as (Q2 & K2 & W2).
  specialize (W2 product).
  destruct (addNewKeys _ _) as [keys' done'].
  assert (HW : (work product (keys', done') ≤ work product (keys, done))%nat).
  { etrans; [apply W2|by apply work_mono]. intros k [[_ ?] ?]%HQ. by apply elem_of_product. }
  assert (HK' : ∀ k, k ∈ keys' → queueable k) by (intros k [?|?]%K2; auto).
  destruct (_ <? _); split_and!; try done. apply add_passed_st; try done; by intros k [].
Qed.

Lemma sub_loop_ok tier agg e fuel : ∀ s keys done,
  loop_inv s → (∀ k, k ∈ keys → queueable k) → queue_ok (keys, done) →
  (work product (keys, done) ≤ fuel)%nat →
  ∃ s', sub_loop fuel tier agg e s keys done = inl s' ∧ loop_inv s'.
Proof.
  induction fuel as [|fuel IH]; intros s keys done S HK Q HW.
  { destruct keys; [by exists s|]. unfold work in HW. simpl in HW. lia. }
  destruct keys as [|key keys]; simpl; [by exists s|].
  assert (Q1 : queue_ok (keys, done)).
  { destruct Q as [Hnd Hin]. split; [by apply NoDup_cons in Hnd as [_ ?]|].
    intros k Hk. apply Hin. by right. }
  pose proof (sub_round_ok tier agg e key s keys done S (HK key ltac:(left)) (λ k H, HK k (list_elem_of_further k key keys H)) Q1) as HR.
  destruct (sub_round _ _ _ _ _ _ _) as [[s' keys'] done']. destruct HR as (S' & HK' & Q' & HW').
  apply IH; try done. unfold work in *. simpl in *. lia.
Qed.
End loop.

Section operations.
Context {TR : Trie LPMKey IDSet} {TL : TrieLaws LPMKey IDSet TR} {GR : GoRange}.
Implicit Types (ms : mapState TR) (k key : Key) (e v : mapStateEntry) (s : mapState TR * ChangeState).

(** The state and its change record are well formed. *)
Notation state_ok cinfo := (st_inv (TR:=TR) cinfo wf_key wf_key).

Lemma sub_loop_mono fuel fuel' tier agg e s keys done s' : (fuel ≤ fuel')%nat →
  sub_loop fuel tier agg e s keys done = inl s' → sub_loop fuel' tier agg e s keys done = inl s'.
Proof.
  revert fuel' s keys done. induction fuel as [|fuel IH]; intros fuel' s [|key keys] seen Hf E;
    try (by destruct fuel'); try done.
  destruct fuel' as [|fuel']; [lia|]. revert E. simpl.
  destruct (sub_round _ _ _ _ _ _ _) as [[s1 keys1] done1]. apply IH. lia.
Qed.

Lemma sub_loop_fuel cinfo tier agg e s keys done :
  state_ok cinfo s → (∀ k, k ∈ keys → wf_key k) → queue_ok (keys, done) →
  ∃ s', sub_loop (sub_fuel s.1 keys) tier agg e s keys done = inl s' ∧ state_ok cinfo s'.
Proof.
  intros [I C K O] HK Q.
  set (L := Key_LPMKey <$> keys). set (ids := (Identity <$> elements (dom (ms_entries s.1))) ++ (Identity <$> keys)).
  assert (HQ : ∀ k, k ∈ keys → queueable L ids k).
  { intros k Hk. split; [split; [by apply HK|]|].
    - apply elem_of_app. right. by apply list_elem_of_fmap_2.
    - by apply list_elem_of_fmap_2. }
  destruct (sub_loop_ok cinfo L ids tier agg e (sub_fuel s.1 keys) s keys done) as (s' & E & S'); try done.
  - constructor; try done. intros k Hp. split; [by apply K|]. apply elem_of_app. left.
    apply list_elem_of_fmap_2, elem_of_elements, elem_of_dom, Hp.
  - assert (HU : ∀ k, k ∈ keys → k ∈ product L ids).
    { intros k Hk. destruct (HQ k Hk) as [[_ ?] ?]. by apply elem_of_product. }
    etrans; [by apply work_bound|]. etrans; [apply size_product|].
    unfold sub_fuel. subst L ids. rewrite length_app, !length_fmap.
    change (length (elements (dom (ms_entries s.1)))) with (size (dom (ms_entries s.1))).
    rewrite size_dom. lia.
  - exists s'. split; [done|]. destruct S' as [I' C' K' O']. constructor; try done.
    intros k Hp. by apply K'.
Qed.

(** The queue of the insertion: distinct well-formed keys. *)
Definition wf_queue (q : list Key * Keys) : Prop := queue_ok q ∧ ∀ k, k ∈ q.1 → wf_key k.

Lemma addNewKey_wf k q : wf_key k → wf_queue q → wf_queue (addNewKey k q).
Proof.
  intros W [Q HK]. destruct (addNewKey_spec k q Q) as (Q' & K' & _). split; [done|].
  intros k' [?| ->]%K'; auto.
Qed.

Lemma collectNarrowerPasses_wf tier k v key cinfo q : wf_key k → wf_key key → wf_queue q →
  wf_queue (collectNarrowerPasses tier k v key cinfo q).
Proof.
  intros W Wk Q. unfold collectNarrowerPasses.
  set (k' := if Identity k =? _ then _ else _).
  assert (W' : wf_key k').
  { subst k'. destruct (_ =? _); [|done]. apply WithIdentity_wf; [done|apply Wk]. }
  destruct (bool_decide _); [done|]. destruct (existsb _ _); [by apply addNewKey_wf|done].
Qed.

Lemma scan_narrower_ok cinfo tier agg key e bail ci l : wf_key key → ∀ s q,
  state_ok cinfo s → wf_queue q →
  state_ok cinfo (scan_narrower tier agg key e bail ci l s q).1 ∧
  wf_queue (scan_narrower tier agg key e bail ci l s q).2.
Proof.
  intros Wk. induction l as [|k l IH]; intros s q S Q; [done|]. unfold scan_narrower. cbn [foldl].
  destruct (ms_entries s.1 !! k) as [v|] eqn:E; [|by apply IH].
  apply IH.
  - destruct (_ && _); [|done]. by apply prune_st.
  - apply collectNarrowerPasses_wf; try done. apply (st_keys _ _ _ _ S). by eexists.
Qed.

Lemma insert_verdict_ok cinfo ms tier key e ch s keys seen :
  state_ok cinfo (ms, ch) → wf_key key → insert_verdict ms tier key e ch = Some (s, keys, seen) →
  state_ok cinfo s ∧ wf_queue (keys, seen).
Proof.
  intros S Wk. unfold insert_verdict.
  destruct (scan_broader _ _ _ _ _ _ _) as [sc|] eqn:E; [|done].
  edestruct (scan_broader_keys true) as [H34 _]; [| |exact E|].
  { intros k v [_ Ev]%elem_of_entries_of. by eexists. }
  { by left. }
  assert (Q : wf_queue (addNewKeys (sc_l34Keys sc) ([], sc_doneKeys sc))).
  { destruct (addNewKeys_spec (sc_l34Keys sc) ([], sc_doneKeys sc)) as (Q & K & _).
    { split; [constructor|]. intros k. set_solver. }
    split; [done|]. intros k [?|Hk]%K; [set_solver|]. apply H34 in Hk as (k0 & Hp & ->).
    apply WithIdentity_wf; [done|]. apply (st_keys _ _ _ _ S k0 Hp). }
  pose proof (scan_narrower_ok cinfo tier (aggregateFor (Identity key) (clusterInfo ms)) key e (0 <? sc_bail sc)
    (clusterInfo ms) (NarrowerOrEqualKeys ms key) Wk (ms, ch) _ S Q) as [S1 Q1].
  destruct (scan_narrower _ _ _ _ _ _ _ _ _) as [s1 [keys1 seen1]]. simpl in S1, Q1.
  destruct (_ && _); [|destruct (0 <? _)]; intros [= <- <- <-]; (split; [|done]).
  - by apply add_passed_st.
  - done.
  - by apply addKey_st.
Qed.

Lemma insertWithPasses_ok cinfo ms tier key e ch : state_ok cinfo (ms, ch) → wf_key key →
  state_ok cinfo (insertWithPasses ms tier key e ch).
Proof.
  intros S Wk. unfold insertWithPasses. destruct (_ || _); [done|].
  destruct (passes e) as [[|newPass [|]]|]; try done.
  - destruct (_ <? _); [done|]. unfold insert_pass. destruct (covered_by _ _ _); [done|].
    apply addKey_st; try done. by apply prune_covered_st.
  - destruct (insert_verdict _ _ _ _ _) as [[[s keys] seen]|] eqn:E; [|done].
    destruct (insert_verdict_ok cinfo _ _ _ _ _ _ _ _ S Wk E) as [S' [Q HK]].
    edestruct (sub_loop_fuel cinfo tier) as (s' & -> & S''); done.
Qed.

Lemma insertWithChanges_ok cinfo ms tier key e features ch : state_ok cinfo (ms, ch) → wf_key key →
  state_ok cinfo (insertWithChanges ms tier key e features ch).
Proof.
  intros S Wk. unfold insertWithChanges. destruct (aggregateIsEquivalent _ _ _); [done|].
  destruct (contains features passRules); [by apply insertWithPasses_ok|].
  assert (HF : ∀ s, state_ok cinfo s →
    state_ok cinfo (addKeyWithChanges (pruneAggregated s.1 key e s.2).1 key e (pruneAggregated s.1 key e s.2).2).1).
  { intros s S'. apply addKey_st; try done. by apply pruneAggregated_st. }
  destruct (MapStateEntry_IsDeny e); [|destruct (contains features precedenceFeatures)];
    repeat (destruct (covered_by _ _ _); [done|]); apply HF; try done; by apply delete_loop_st.
Qed.

(** ** Sequences of operations *)

Inductive operation :=
| OpInsert (tierMaxPrecedence : Z) (key : Key) (entry : mapStateEntry) (features : Z)
| OpDeleteKey (key : Key)
| OpDeleteId (id : Z)
| OpAllowAll (ingress egress : bool)
| OpRevert
| OpNewRound (adds deletes : Keys).

(** [OpNewRound] starts recording in empty maps, as [consumeMapChanges] and
    [toMapState] do. *)
Definition apply_operation s (o : operation) : mapState TR * ChangeState :=
  match o with
  | OpInsert tier key e features => insertWithChanges s.1 tier key e features s.2
  | OpDeleteKey key => deleteKeyWithChanges s.1 key s.2
  | OpDeleteId id => deleteIdWithChanges s.1 id s.2
  | OpAllowAll ingress egress => (allowAllIdentities s.1 ingress egress, s.2)
  | OpRevert => (revertChanges s.1 s.2, s.2)
  | OpNewRound adds deletes => (s.1, mkChangeState adds deletes (Some ∅))
  end.

Definition operation_ok (o : operation) : Prop :=
  match o with OpInsert _ key _ _ => wf_key key | _ => True end.

Lemma aggregate_key_wf (k : Key) id : wf_key k → id ∈ AllAggregates → wf_key (WithIdentity k id).
Proof.
  intros W Hid. apply WithIdentity_wf; [done|].
  revert Hid. unfold AllAggregates. rewrite !elem_of_cons, elem_of_nil.
  intros [-> |[-> |[-> |[-> |[-> |[]]]]]]; done.
Qed.

Lemma allowAll_ok cinfo ms ch ingress egress : state_ok cinfo (ms, ch) →
  state_ok cinfo (allowAllIdentities ms ingress egress, ch).
Proof.
  intros S. unfold allowAllIdentities.
  assert (HU : ∀ k e ms, wf_key k → state_ok cinfo (ms, ch) →
    state_ok cinfo (foldl (λ ms nid, upsert ms (WithIdentity k nid) e) ms AllAggregates, ch)).
  { intros k e ms0 W S0. apply foldl_st; [|done]. intros ms1 id Hid S1.
    apply (upsert_st _ _ _ ltac:(done) _ _ (ms1, ch)); try done; [by apply aggregate_key_wf|apply S1]. }
  assert (WI : wf_key IngressKey) by apply IngressKey_wf.
  assert (WE : wf_key EgressKey) by (apply (KeyForDirection_wf Egress); unfold Egress; lia).
  destruct egress; [apply HU; [done|]|]; (destruct ingress; [by apply HU|done]).
Qed.

Lemma apply_operation_ok cinfo s o : state_ok cinfo s → operation_ok o → state_ok cinfo (apply_operation s o).
Proof.
  intros S Ho. destruct o; simpl.
  - destruct s. by apply insertWithChanges_ok.
  - by apply deleteKey_st.
  - by apply deleteId_st.
  - apply allowAll_ok. by destruct s.
  - by apply revert_st.
  - destruct S as [I C K O]. constructor; try done. simpl. intros k o [= <-] [x Hx]. done.
Qed.

(** The state reached from an empty one. *)
Definition reach (ids : gset Z) (features : Z) (cinfo : ClusterInfo) (ops : list operation)
  : mapState TR * ChangeState :=
  foldl apply_operation (newMapState ids features cinfo, mkChangeState None None None) ops.

Lemma reach_ok ids features cinfo ops : Forall operation_ok ops →
  state_ok cinfo (reach ids features cinfo ops).
Proof.
  intros H. unfold reach.
  assert (S : state_ok cinfo (newMapState (TR:=TR) ids features cinfo, mkChangeState None None None)).
  { constructor; try done; [apply newMapState_inv|]. intros k [x Hx]. done. }
  revert S. generalize (newMapState (TR:=TR) ids features cinfo, mkChangeState None None None).
  induction H as [|o ops Ho H IH]; intros s S; [done|]. simpl. by apply IH, apply_operation_ok.
Qed.
End operations.

(** ** Results *)

Section results.
Context {TR : Trie LPMKey IDSet} {TL : TrieLaws LPMKey IDSet TR} {GR : GoRange}.

(** C19. After any sequence of insertions (with and without passes), removals, reverts
    and recording rounds, the indices agree with the entries: every identity set
    in the trie is non-empty and lists exactly the identities with an entry at that
    port and protocol, every entry is found through the trie, and the identity
    index, when in use, lists exactly the port/protocols of each identity. *)
Theorem operations_keep_indices ids features cinfo ops : Forall operation_ok ops →
  ms_inv (reach (TR:=TR) ids features cinfo ops).1.
Proof. intros H. apply (reach_ok ids features cinfo ops H). Qed.

(** C20. On every reachable state the four iterators produce, for a well-formed key, exactly
    these entries.  [CoveringBroaderOrEqualKeys]: a broader or equal port and protocol, and the
    key's identity or its aggregate.  [CoveredNarrowerOrEqualKeys]: a narrower or equal port and
    protocol, and the key's identity or one that it aggregates.  [BroaderOrEqualKeys] and
    [NarrowerOrEqualKeys]: a broader or equal, or a narrower or equal, port and protocol, and
    the key's identity, its aggregate, or one that it aggregates.  So an aggregate key yields
    the entries of its own identities, not those of other aggregates. *)
Theorem iterators_exact ids features cinfo ops key k : Forall operation_ok ops → wf_key key →
  let ms := (reach (TR:=TR) ids features cinfo ops).1 in
  (k ∈ CoveringBroaderOrEqualKeys ms key ↔ present ms k ∧ kcovers cinfo k key) ∧
  (k ∈ CoveredNarrowerOrEqualKeys ms key ↔ present ms k ∧ kcovers cinfo key k) ∧
  (k ∈ BroaderOrEqualKeys ms key ↔ present ms k ∧ lpm_le k key ∧
     (Identity k = Identity key ∨ Identity k = aggregateFor (Identity key) cinfo ∨
      aggregateFor (Identity k) cinfo = Identity key)) ∧
  (k ∈ NarrowerOrEqualKeys ms key ↔ present ms k ∧ lpm_le key k ∧
     (Identity key = Identity k ∨ Identity key = aggregateFor (Identity k) cinfo ∨
      Identity k = aggregateFor (Identity key) cinfo)).
Proof.
  intros H W ms. destruct (reach_ok (TR:=TR) ids features cinfo ops H) as [I C _ _].
  rewrite (covering_keys ms key k I W), (covered_keys ms key k I W), (broader_keys ms key k I W),
    (narrower_keys ms key k I W). subst ms. by rewrite C.
Qed.

(** C21. The loop of [insertWithPasses] over the subset keys, which queues further keys
    while it runs, ends: on every reachable state it empties the work list within
    the given fuel, so the result does not depend on the fuel. *)
Theorem subset_keys_terminate ids features cinfo ops tier key e s keys seen :
  Forall operation_ok ops → wf_key key →
  let s0 := reach (TR:=TR) ids features cinfo ops in
  insert_verdict s0.1 tier key e s0.2 = Some (s, keys, seen) →
  ∃ s', ∀ fuel, (sub_fuel s.1 keys ≤ fuel)%nat →
    sub_loop fuel tier (aggregateFor (Identity key) cinfo) e s keys seen = inl s'.
Proof.
  intros H W s0 E. pose proof (reach_ok (TR:=TR) ids features cinfo ops H) as S. fold s0 in S.
  rewrite (surjective_pairing s0) in S.
  destruct (insert_verdict_ok cinfo _ _ _ _ _ _ _ _ S W E) as [S' [Q HK]].
  edestruct (sub_loop_fuel cinfo tier) as (s' & E' & _); [exact S'|exact HK|exact Q|].
  exists s'. intros fuel Hf. by apply (sub_loop_mono _ _ _ _ _ _ _ _ _ Hf).
Qed.
End results.

(** A pass for one identity on port 80 in the first tier, another for a second
    identity on all ports, and then an allow for the whole cluster in the next
    tier. *)
Definition demo_pass : list operation :=
  [OpNewRound (Some ∅) (Some ∅);
   OpInsert (ToDenyPrecedence 0) (WithTCPPort (WithIdentity IngressKey 100000) 80)
     (PassEntry 10 0 100 NilRuleOrigin) allFeatures;
   OpInsert (ToDenyPrecedence 0) (WithIdentity IngressKey 100001)
     (PassEntry 20 0 100 NilRuleOrigin) allFeatures].
Definition demo_allow_key : Key := WithIdentity IngressKey ReservedIdentityAggregateCluster.
Definition demo_allow : mapStateEntry :=
  newMapStateEntry 150 100 200 NilRuleOrigin 0 0 Allow.

Lemma demo_pass_ok : Forall operation_ok demo_pass.
Proof. repeat constructor; vm_compute; congruence. Qed.

Definition demo_state : mapState bitlpm * ChangeState :=
  reach (TR:=bitlpm) (GR:=range_elements) ∅ allFeatures demo_cluster demo_pass.

Lemma operations_keep_indices_witness :
  mapState_Len demo_state.1 = 2%nat ∧ ms_inv (TR:=bitlpm) demo_state.1.
Proof.
  split; [vm_compute; reflexivity|].
  apply (operations_keep_indices (TR:=bitlpm) (GR:=range_elements)). exact demo_pass_ok.
Defined.

Lemma iterators_exact_witness :
  WithIdentity IngressKey 100001 ∈ CoveredNarrowerOrEqualKeys (GR:=range_elements) demo_state.1 demo_allow_key ↔
  present demo_state.1 (WithIdentity IngressKey 100001) ∧
  kcovers demo_cluster demo_allow_key (WithIdentity IngressKey 100001).
Proof.
  refine (proj1 (proj2 (iterators_exact (TR:=bitlpm) (GR:=range_elements) ∅ allFeatures demo_cluster demo_pass
    demo_allow_key (WithIdentity IngressKey 100001) demo_pass_ok _))).
  repeat split; vm_compute; congruence.
Defined.

Definition demo_insert :=
  insert_verdict (GR:=range_elements) demo_state.1 (ToDenyPrecedence 100) demo_allow_key demo_allow
    demo_state.2.

Lemma subset_keys_terminate_witness :
  match demo_insert with
  | Some (s, keys, seen) =>
      length keys = 2%nat ∧
      ∃ s', ∀ fuel, (sub_fuel s.1 keys ≤ fuel)%nat →
        sub_loop (GR:=range_elements) fuel (ToDenyPrecedence 100) ReservedIdentityAggregateCluster
          demo_allow s keys seen = inl s'
  | None => False
  end.
Proof.
  assert (EL : (match demo_insert with Some (_, keys, _) => length keys | None => 0%nat end) = 2%nat)
    by (vm_compute; reflexivity).
  destruct demo_insert as [[[s keys] seen]|] eqn:E; [|discriminate EL]. split; [exact EL|].
  apply (subset_keys_terminate (TR:=bitlpm) (GR:=range_elements) ∅ allFeatures demo_cluster demo_pass
    (ToDenyPrecedence 100) demo_allow_key demo_allow s keys seen demo_pass_ok); [|exact E].
  repeat split; vm_compute; congruence.
Defined.
