(* ===== verification/MapStateFrame.v ===== *)
(** * Directions of the map state

    An insertion ([insertWithChanges] of [src/pkg/policy/mapstate.go]) leaves the entries of
    the other traffic direction alone, so that the ingress and the egress policy of an endpoint
    share one map state without interfering. *)

From S2P Require Import Prelude Precedence BitLPM PolicyKey Identity RuleOrigin PassMeta.
From S2P Require Import PortRange MapState MapStateIndex MapStateOps.

Local Open Scope Z_scope.

Section frame.
Context {TR : Trie LPMKey IDSet} {TL : TrieLaws LPMKey IDSet TR} {GR : GoRange}.
Context (cinfo : ClusterInfo) (d : Z).
Implicit Types (ms : mapState TR) (k key : Key) (e v : mapStateEntry) (s : mapState TR * ChangeState).

Notation state_ok := (st_inv (TR:=TR) cinfo wf_key wf_key).
Notation along k := (TrafficDirection (Key_LPMKey k) = d).

(** The entries of other directions are kept. *)
Definition frames s s' : Prop := ∀ k, ¬ along k → ms_entries s'.1 !! k = ms_entries s.1 !! k.

Lemma frames_refl s : frames s s.
Proof. done. Qed.

Lemma frames_trans s s' s'' : frames s s' → frames s' s'' → frames s s''.
Proof. intros H H' k Hk. by rewrite (H' k Hk), (H k Hk). Qed.

(** Changes at one key. *)
Lemma frames_at k s s' : along k → (∀ k', k' ≠ k → ms_entries s'.1 !! k' = ms_entries s.1 !! k') → frames s s'.
Proof. intros Dk H k' Hk'. apply H. by intros ->. Qed.

Lemma deleteExisting_frames k v s : along k → frames s (deleteExistingWithChanges s.1 k v s.2).
Proof.
  intros Dk. apply (frames_at k); [done|]. intros k' Hn.
  rewrite deleteExisting_state, ms_delete_entries. by apply lookup_delete_ne.
Qed.

Lemma updateExisting_frames k e s ch : along k → frames s (updateExisting s.1 k e, ch).
Proof. intros Dk. apply (frames_at k); [done|]. intros k' Hn. cbn. by apply lookup_insert_ne. Qed.

Lemma upsert_frames k e s ch : along k → frames s (upsert s.1 k e, ch).
Proof.
  intros Dk. apply (frames_at k); [done|]. intros k' Hn. cbn [fst]. rewrite upsert_entries. by apply lookup_insert_ne.
Qed.

Lemma addKey_frames k e s : along k → frames s (addKeyWithChanges s.1 k e s.2).1.
Proof.
  intros Dk. unfold addKeyWithChanges, ms_get. destruct (ms_entries s.1 !! k) as [o|] eqn:E; simpl; [|by apply upsert_frames].
  destruct (mapStateEntry_Equal e o); [done|]. destruct (MergeClone _ _) as [merged upd].
  match goal with |- context [match ?r with Some _ => _ | None => _ end] => destruct r as [e'|] end; simpl;
    [by apply updateExisting_frames|done].
Qed.

Lemma for_keys_frames l body s :
  (∀ k v s, k ∈ l → frames s (body k v s)) → frames s (for_keys l body s).
Proof.
  revert s. induction l as [|k l IH]; intros s HB; [done|]. rewrite for_keys_cons.
  eapply frames_trans; [|apply IH; intros; apply HB; by right].
  destruct (ms_entries s.1 !! k); [apply HB; by left|done].
Qed.

Lemma delete_loop_frames l (cond : Key → mapStateEntry → bool) s : (∀ k, k ∈ l → along k) →
  frames s (for_keys l (λ k v s, if cond k v then deleteExistingWithChanges s.1 k v s.2 else s) s).
Proof.
  intros Hl. apply for_keys_frames. intros k v s' Hk. destruct (cond k v); [|done]. by apply deleteExisting_frames, Hl.
Qed.

Lemma prune_frames k v key e p s : along k → frames s (pruneCoveredNarrowerKey k v key e p s).
Proof.
  intros Dk. destruct s as [ms ch]. unfold pruneCoveredNarrowerKey.
  repeat (match goal with |- context [if ?b then _ else _] => destruct b end); try done;
    try by apply (deleteExisting_frames k v (ms, ch)).
  all: by apply (updateExisting_frames k _ (ms, ch)).
Qed.

(** ** Keys of the iterators *)

Lemma covered_along ms key k : ms_inv ms → wf_key key → along key → k ∈ CoveredNarrowerOrEqualKeys ms key → along k.
Proof. intros I W Dk [_ [[E _] _]]%covered_keys; [congruence|done|done]. Qed.

Lemma narrower_along ms key k : ms_inv ms → wf_key key → along key → k ∈ NarrowerOrEqualKeys ms key → along k.
Proof. intros I W Dk (_ & [E _] & _)%narrower_keys; [congruence|done|done]. Qed.

Lemma prune_covered_frames key e p s : state_ok s → wf_key key → along key → frames s (prune_covered key e p s).
Proof.
  intros S W Dk. unfold prune_covered. apply for_keys_frames. intros k v s' Hk.
  apply prune_frames. by apply (covered_along s.1 key); [apply S|..].
Qed.

Lemma add_passed_frames key e p s : state_ok s → wf_key key → along key → frames s (add_passed key e p s).
Proof.
  intros S W Dk. unfold add_passed. eapply frames_trans; [by apply (prune_covered_frames key e p)|]. by apply addKey_frames.
Qed.

Lemma pruneAggregated_frames k e s : along k → frames s (pruneAggregated s.1 k e s.2).
Proof.
  intros Dk. unfold pruneAggregated. rewrite <- surjective_pairing. destruct (negb _); [done|].
  destruct (trie_ExactLookup _ _ _); [|done]. apply (delete_loop_frames _ (λ _ v, equivalent v e)).
  intros k' (E & _)%elem_of_forCoveredIDs. congruence.
Qed.

(** ** Insertion *)

Definition queue_along (q : list Key * Keys) : Prop := ∀ k, k ∈ q.1 → wf_key k ∧ along k.

Lemma sub_round_frames tier agg e key s keys seen :
  state_ok s → wf_key key → along key → queue_ok (keys, seen) → queue_along (keys, seen) →
  let '(s', keys', seen') := sub_round tier agg e key s keys seen in
  state_ok s' ∧ frames s s' ∧ queue_ok (keys', seen') ∧ queue_along (keys', seen').
Proof.
  intros S Wk Dk Q QA. unfold sub_round.
  destruct (scan_broader_total tier agg key e (entries_of s.1 (BroaderOrEqualKeys s.1 key))
    (mkScan [] (Some ∅) seen 0)) as [sc E]. rewrite E.
  edestruct (scan_broader_keys false tier agg key e s.1) as [H34 Hseen]; [| |exact E|].
  { intros k v [_ Ev]%elem_of_entries_of. by eexists. }
  { by right. }
  assert (Q1 : queue_ok (keys, sc_doneKeys sc)).
  { split; [apply Q|]. intros k Hk. apply Hseen. by apply Q. }
  destruct (addNewKeys_spec (sc_l34Keys sc) _ Q1) as (Q2 & K2 & _).
  destruct (addNewKeys _ _) as [keys' seen'].
  assert (QA' : queue_along (keys', seen')).
  { intros k [Hk|Hk]%K2; [by apply QA|]. apply H34 in Hk as (k0 & Hp & ->). split; [|done].
    apply WithIdentity_wf; [done|]. apply (st_keys _ _ _ _ S k0 Hp). }
  destruct (_ <? _); split_and!; try done; [|by apply add_passed_frames]. by apply add_passed_st.
Qed.

Lemma sub_loop_frames tier agg e fuel : ∀ s keys seen,
  state_ok s → queue_ok (keys, seen) → queue_along (keys, seen) →
  frames s (match sub_loop fuel tier agg e s keys seen with inl s' => s' | inr (s', _) => s' end).
Proof.
  induction fuel as [|fuel IH]; intros s [|key keys] seen S Q QA; try done. cbn [sub_loop].
  assert (Q1 : queue_ok (keys, seen)).
  { destruct Q as [Hnd Hin]. split; [by apply NoDup_cons in Hnd as [_ ?]|]. intros k Hk. apply Hin. by right. }
  destruct (QA key ltac:(by left)) as [Wk Dk].
  pose proof (sub_round_frames tier agg e key s keys seen S Wk Dk Q1 (λ k Hk, QA k (list_elem_of_further k key keys Hk))) as HR.
  destruct (sub_round _ _ _ _ _ _ _) as [[s1 keys1] seen1]. destruct HR as (S1 & F1 & Q1' & QA1).
  eapply frames_trans; [exact F1|]. by apply IH.
Qed.

Lemma addNewKey_along k q : wf_key k → along k → queue_ok q → queue_along q → queue_along (addNewKey k q).
Proof. intros W Dk Q QA k' Hk'. destruct (addNewKey_spec k q Q) as (_ & K & _). apply K in Hk' as [?| ->]; [by apply QA|done]. Qed.

Lemma scan_narrower_frames tier agg key e bail ci l : wf_key key → along key → ∀ s q,
  state_ok s → queue_ok q → queue_along q → (∀ k, k ∈ l → along k) →
  let r := scan_narrower tier agg key e bail ci l s q in frames s r.1 ∧ queue_ok r.2 ∧ queue_along r.2.
Proof.
  intros Wk Dk. induction l as [|k l IH]; intros s q S Q QA Hl; [done|]. unfold scan_narrower. cbn [foldl].
  fold (scan_narrower tier agg key e bail ci l).
  destruct (ms_entries s.1 !! k) as [v|] eqn:E; [|apply IH; try done; intros; apply Hl; by right].
  assert (Dk' : along k) by (apply Hl; by left).
  assert (W : wf_key k) by (apply (st_keys _ _ _ _ S); by eexists).
  set (s1 := if negb bail && _ then _ else s).
  assert (S1 : state_ok s1) by (unfold s1; destruct (_ && _); [by apply prune_st|done]).
  assert (F1 : frames s s1) by (unfold s1; destruct (_ && _); [by apply prune_frames|done]).
  assert (QC : queue_ok (collectNarrowerPasses tier k v key ci q) ∧ queue_along (collectNarrowerPasses tier k v key ci q)).
  { unfold collectNarrowerPasses. set (k' := if Identity k =? _ then _ else k).
    assert (W' : wf_key k' ∧ along k').
    { unfold k'. destruct (Identity k =? aggregateFor (Identity key) ci); split; try done. apply WithIdentity_wf; [done|apply Wk]. }
    destruct (bool_decide _); [done|]. destruct (existsb _ _); [|done].
    destruct W'. split; [by apply addNewKey_spec|by apply addNewKey_along]. }
  destruct (IH s1 (collectNarrowerPasses tier k v key ci q)) as (F2 & Q2); try done; [apply QC|apply QC|intros; apply Hl; by right|].
  split; [by eapply frames_trans|done].
Qed.

Lemma insert_verdict_frames ms tier key e ch s keys seen :
  state_ok (ms, ch) → wf_key key → along key → insert_verdict ms tier key e ch = Some (s, keys, seen) →
  frames (ms, ch) s ∧ queue_ok (keys, seen) ∧ queue_along (keys, seen).
Proof.
  intros S Wk Dk. unfold insert_verdict. destruct (scan_broader _ _ _ _ _ _ _) as [sc|] eqn:E; [|done].
  edestruct (scan_broader_keys true) as [H34 _]; [| |exact E|].
  { intros k v [_ Ev]%elem_of_entries_of. by eexists. }
  { by left. }
  destruct (addNewKeys_spec (sc_l34Keys sc) ([], sc_doneKeys sc)) as (Q & K & _).
  { split; [constructor|]. intros k. set_solver. }
  assert (QA : queue_along (addNewKeys (sc_l34Keys sc) ([], sc_doneKeys sc))).
  { intros k [?|Hk]%K; [set_solver|]. apply H34 in Hk as (k0 & Hp & ->). split; [|done].
    apply WithIdentity_wf; [done|]. apply (st_keys _ _ _ _ S k0 Hp). }
  pose proof (scan_narrower_frames tier (aggregateFor (Identity key) (clusterInfo ms)) key e (0 <? sc_bail sc)
    (clusterInfo ms) (NarrowerOrEqualKeys ms key) Wk Dk (ms, ch) _ S Q QA (λ k, narrower_along ms key k (st_ms _ _ _ _ S) Wk Dk)) as HN.
  pose proof (scan_narrower_ok cinfo tier (aggregateFor (Identity key) (clusterInfo ms)) key e (0 <? sc_bail sc)
    (clusterInfo ms) (NarrowerOrEqualKeys ms key) Wk (ms, ch) _ S (conj Q (λ k Hk, proj1 (QA k Hk)))) as [S1 _].
  destruct (scan_narrower _ _ _ _ _ _ _ _ _) as [s1 [keys1 seen1]]. destruct HN as (F1 & Q1 & QA1). cbn [fst snd] in *.
  destruct (_ && _); [|destruct (0 <? _)]; intros [= <- <- <-]; (split; [|done]).
  - eapply frames_trans; [exact F1|]. by apply add_passed_frames.
  - done.
  - eapply frames_trans; [exact F1|]. by apply addKey_frames.
Qed.

Lemma insertWithPasses_frames ms tier key e ch : state_ok (ms, ch) → wf_key key → along key →
  frames (ms, ch) (insertWithPasses ms tier key e ch).
Proof.
  intros S Wk Dk. unfold insertWithPasses. destruct (_ || _); [done|].
  destruct (passes e) as [[|newPass [|]]|]; try done.
  - destruct (_ <? _); [done|]. unfold insert_pass. destruct (covered_by _ _ _); [done|].
    eapply frames_trans; [by apply (prune_covered_frames key e (pm_precedence newPass))|]. by apply addKey_frames.
  - destruct (insert_verdict _ _ _ _ _) as [[[s keys] seen]|] eqn:E; [|done].
    destruct (insert_verdict_frames _ _ _ _ _ _ _ _ S Wk Dk E) as (F & Q & QA).
    destruct (insert_verdict_ok cinfo _ _ _ _ _ _ _ _ S Wk E) as [S' _].
    eapply frames_trans; [exact F|]. by apply sub_loop_frames.
Qed.

Lemma insertWithChanges_frames ms tier key e features ch : state_ok (ms, ch) → wf_key key → along key →
  frames (ms, ch) (insertWithChanges ms tier key e features ch).
Proof.
  intros S Wk Dk. unfold insertWithChanges. destruct (aggregateIsEquivalent _ _ _); [done|].
  destruct (contains features passRules); [by apply insertWithPasses_frames|].
  assert (HF : ∀ s, frames (ms, ch) s →
    frames (ms, ch) (addKeyWithChanges (pruneAggregated s.1 key e s.2).1 key e (pruneAggregated s.1 key e s.2).2).1).
  { intros s F. eapply frames_trans; [exact F|]. eapply frames_trans; [by apply (pruneAggregated_frames key e)|]. by apply addKey_frames. }
  destruct (MapStateEntry_IsDeny e); [|destruct (contains features precedenceFeatures)];
    repeat (destruct (covered_by _ _ _); [done|]); apply HF; try done;
    (apply delete_loop_frames; intros k; by apply covered_along; [apply S|..]).
Qed.
End frame.
