(* ===== verification/MapStateChanges.v ===== *)
(** * Recorded changes

    What the change record of [src/pkg/policy/mapstate.go] promises: reverting a
    round of operations restores the entries ([revertChanges]), and the recorded
    additions and removals are the difference the datapath has to apply.  Both
    hold for policies without pass verdicts, the second when identities that
    already have entries are not added to; runs at the end of the file show that
    neither restriction can be dropped. *)

From S2P Require Import Prelude Precedence BitLPM PolicyKey Identity RuleOrigin PassMeta.
From S2P Require Import PortRange MapState MapStateIndex MapStateOps.

Local Open Scope Z_scope.

Lemma MapStateEntry_Merge_same (e : MapStateEntry) : MapStateEntry_Merge e e = e.
Proof. unfold MapStateEntry_Merge. rewrite !Z.ltb_irrefl, andb_false_r. by repeat case_match. Qed.

Lemma bool_decide_ext_if {A} (P Q : Prop) `{Decision P} `{Decision Q} (x y : A) : (P ↔ Q) →
  (if bool_decide P then x else y) = (if bool_decide Q then x else y).
Proof. intros E. by rewrite (bool_decide_ext P Q E). Qed.

Section changes.
Context {TR : Trie LPMKey IDSet} {TL : TrieLaws LPMKey IDSet TR} {GR : GoRange}.
Implicit Types (ms : mapState TR) (k key : Key) (e v : mapStateEntry) (s : mapState TR * ChangeState).

(** Induction over an insertion without passes: entries covered by the new key, or
    aggregated by it, are removed, and then the entry is added. *)
Lemma insert_ind (Q Q' : mapState TR * ChangeState → Prop) ms tier key e features ch :
  contains features passRules = false →
  (∀ s k v, k ∈ CoveredNarrowerOrEqualKeys ms key ∨ isAggregate (Identity key) (clusterInfo s.1) = true →
     ms_entries s.1 !! k = Some v → Q s → Q (deleteExistingWithChanges s.1 k v s.2)) →
  (∀ s, Q s → Q' s) → (∀ s, Q s → Q' (addKeyWithChanges s.1 key e s.2).1) →
  Q (ms, ch) → Q' (insertWithChanges ms tier key e features ch).
Proof.
  intros Hf HD HQ HA H0. unfold insertWithChanges. rewrite Hf. destruct (aggregateIsEquivalent _ _ _); [auto|].
  assert (HL : ∀ l (cond : Key → mapStateEntry → bool) (T : Key → Prop) (I : mapState TR → Prop) s,
    (∀ s k v, T k → I s.1 → ms_entries s.1 !! k = Some v → Q s → Q (deleteExistingWithChanges s.1 k v s.2)) →
    (∀ ms k, I ms → I (ms_delete ms k)) → (∀ k, k ∈ l → T k) → I s.1 → Q s →
    Q (for_keys l (λ k v s, if cond k v then deleteExistingWithChanges s.1 k v s.2 else s) s)).
  { intros l cond T I s HT HI. revert s. induction l as [|k l IH]; intros s Hl Is Qs; [done|].
    rewrite for_keys_cons. destruct (ms_entries s.1 !! k) as [v|] eqn:E; [|apply IH; try done; intros; apply Hl; by right].
    destruct (cond k v); apply IH; try done; try (intros; apply Hl; by right).
    - rewrite deleteExisting_state. by apply HI.
    - apply HT; try done. apply Hl. by left. }
  assert (HP : ∀ s, Q s → Q (pruneAggregated s.1 key e s.2)).
  { intros s Qs. unfold pruneAggregated. rewrite <- surjective_pairing.
    destruct (isAggregate (Identity key) (clusterInfo s.1)) eqn:Ha; simpl; [|done].
    destruct (trie_ExactLookup _ _ _); [|done].
    apply (HL _ (λ _ v, equivalent v e) (λ _, True)
      (λ ms, isAggregate (Identity key) (clusterInfo ms) = true)); try done.
    - intros s' k v _ Hi Ev Qs'. apply HD; auto.
    - intros ms' k. by rewrite ms_delete_clusterInfo. }
  assert (HC : ∀ cond, Q (ms, ch) → Q (delete_covered ms key cond ch)).
  { intros cond Qs. unfold delete_covered.
    apply (HL _ cond (λ k, k ∈ CoveredNarrowerOrEqualKeys ms key) (λ _, True)); try done.
    intros s' k v Hk _ Ev Qs'. apply HD; auto. }
  destruct (MapStateEntry_IsDeny e); [|destruct (contains features precedenceFeatures)];
    repeat (destruct (covered_by _ _ _); [auto|]); apply HA, HP; auto.
Qed.

(** ** Reverting *)

Definition recording (ch : ChangeState) : Prop := is_Some (Adds ch) ∧ is_Some (old ch).

(** The entry a key had when recording started. *)
Definition original s k : option mapStateEntry :=
  match default ∅ (old s.2) !! k with
  | Some e => Some e
  | None => if Keys_Has (Adds s.2) k then None else ms_entries s.1 !! k
  end.

Record recorded (E : gmap Key mapStateEntry) s : Prop := {
  rec_on : recording s.2;
  rec_original k : original s k = E !! k;
}.

Lemma Keys_Has_keys_add k k' (ks : Keys) : is_Some ks →
  Keys_Has (keys_add k ks) k' = bool_decide (k' = k) || Keys_Has ks k'.
Proof.
  intros [s0 ->]. simpl. rewrite <- bool_decide_or. apply bool_decide_ext.
  by rewrite elem_of_union, elem_of_singleton.
Qed.

Lemma Keys_Has_keys_remove k k' (ks : Keys) :
  Keys_Has (keys_remove k ks) k' = negb (bool_decide (k' = k)) && Keys_Has ks k'.
Proof.
  destruct ks as [s0|]; simpl; [|by destruct (negb _)].
  rewrite <- bool_decide_not, <- bool_decide_and. apply bool_decide_ext.
  rewrite elem_of_difference, elem_of_singleton. tauto.
Qed.

(** Where [insertOldIfNotExists] records the entry, the record shows what was there. *)
Lemma insertOld_recorded E s k v ch b : recorded E s → ms_entries s.1 !! k = Some v →
  insertOldIfNotExists s.2 k v = (ch, b) →
  Adds ch = Adds s.2 ∧ Deletes ch = Deletes s.2 ∧ is_Some (old ch) ∧
  (∀ k', k' ≠ k → default ∅ (old ch) !! k' = default ∅ (old s.2) !! k') ∧
  (default ∅ (old ch) !! k = E !! k ∧ (is_Some (E !! k)) ∨
   Keys_Has (Adds s.2) k = true ∧ default ∅ (old ch) !! k = None ∧ E !! k = None).
Proof.
  intros [[HA [o Eo]] HO] Ev. specialize (HO k). unfold original in HO. unfold insertOldIfNotExists.
  rewrite Eo in *. simpl in HO. destruct (o !! k) as [e|] eqn:Ek.
  { intros [= <- <-]. rewrite Eo. simpl. rewrite Ek. split_and!; try done. left. by rewrite <- HO. }
  destruct (Keys_Has (Adds s.2) k) eqn:Eh.
  - intros [= <- <-]. rewrite Eo. split_and!; try done. by right.
  - intros [= <- <-]. simpl. split_and!; try done.
    + intros k' Hn. by rewrite lookup_insert_ne.
    + left. rewrite lookup_insert_eq. rewrite <- HO, Ev. done.
Qed.

Lemma deleteExisting_recorded E s k v : recorded E s → ms_entries s.1 !! k = Some v →
  recorded E (deleteExistingWithChanges s.1 k v s.2).
Proof.
  intros R Ev. pose proof (deleteExisting_state s.1 k v s.2) as Es. unfold deleteExistingWithChanges in *.
  destruct (insertOldIfNotExists s.2 k v) as [ch b] eqn:EI.
  destruct (insertOld_recorded E s k v ch b R Ev EI) as (HA & HD & HO & Hne & Hk).
  destruct R as [[[A EA] _] R]. split.
  { split; [|by destruct b]. destruct b; simpl; rewrite HA, EA; by eexists. }
  intros k'. unfold original. rewrite Es, ms_delete_entries.
  assert (E1 : ∀ D, Keys_Has (Adds (if b then mkChangeState (Adds ch) D (old ch) else ch)) k' = Keys_Has (Adds s.2) k').
  { intros D. destruct b; simpl; by rewrite HA. }
  simpl. rewrite record_old, Keys_Has_keys_remove, E1.
  destruct (decide (k' = k)) as [->|Hn].
  - rewrite (bool_decide_true (k = k)) by done. simpl. rewrite lookup_delete_eq.
    destruct Hk as [[-> [x Hx]]|(_ & -> & ->)]; [by rewrite Hx|done].
  - rewrite (bool_decide_false (k' = k)) by done. simpl. rewrite lookup_delete_ne, Hne by done. apply R.
Qed.

(** The record of an addition. *)
Definition record_add (b : bool) k (ch : ChangeState) : ChangeState :=
  if b && bool_decide (is_Some (Adds ch))
  then mkChangeState (keys_add k (Adds ch)) (keys_remove k (Deletes ch)) (old ch) else ch.

(** What [addKeyWithChanges] does: a new entry, nothing, or an update in place that
    is recorded when it changes what the datapath sees. *)
Lemma addKey_cases ms k e ch :
  let r := (addKeyWithChanges ms k e ch).1 in
  match ms_entries ms !! k with
  | None => r = (upsert ms k e, record_add true k ch)
  | Some v =>
      r = (ms, ch) ∨ r = (ms, (insertOldIfNotExists ch k v).1) ∨
      ∃ v', r = (updateExisting ms k v',
                 record_add (negb (bool_decide (mse_MapStateEntry v = mse_MapStateEntry e))) k
                   (insertOldIfNotExists ch k v).1) ∧
            (mse_MapStateEntry v = mse_MapStateEntry e → mse_MapStateEntry v' = mse_MapStateEntry v)
  end.
Proof.
  intros r. subst r. unfold addKeyWithChanges, ms_get, record_add.
  destruct (ms_entries ms !! k) as [v|] eqn:Ev; [|done].
  destruct (mapStateEntry_Equal e v); [by left|]. right.
  destruct (MergeClone _ _) as [merged upd]. cbn [set_passes mse_MapStateEntry].
  destruct (IsValid _) eqn:EV; simpl; [|right; eexists; split; [done|]; by intros ->].
  destruct (IsValid e); [|right; eexists; split; [done|done]].
  destruct (ProxyPortPrecedenceMayDiffer _ _) eqn:Ep.
  - right; eexists; split; [done|]. simpl. intros <-. apply MapStateEntry_Merge_same.
  - destruct (_ <? _); [right; eexists; split; [done|]; by intros ->|].
    destruct upd; simpl; [right; by eexists|by left].
Qed.

Lemma Keys_Has_record_add b k k' ch : is_Some (Adds ch) →
  Keys_Has (Adds (record_add b k ch)) k' = (b && bool_decide (k' = k)) || Keys_Has (Adds ch) k'.
Proof.
  intros HA. unfold record_add. rewrite (bool_decide_true _ HA), andb_true_r.
  destruct b; simpl; [|done]. by apply Keys_Has_keys_add.
Qed.

Lemma record_add_on b k ch : recording ch → recording (record_add b k ch).
Proof.
  intros [[A EA] HO]. unfold record_add. destruct (b && _); [|by split; [eexists|]].
  split; simpl; [rewrite EA; by eexists|done].
Qed.

Lemma old_record_add b k ch : old (record_add b k ch) = old ch.
Proof. unfold record_add. by destruct (b && _). Qed.

Lemma addKey_recorded E s k e : recorded E s → recorded E (addKeyWithChanges s.1 k e s.2).1.
Proof.
  intros R. pose proof (addKey_cases s.1 k e s.2) as HC. cbn zeta in HC.
  destruct (addKeyWithChanges s.1 k e s.2).1 as [ms1 ch1]. pose proof (rec_on _ _ R) as [HA HO].
  destruct (ms_entries s.1 !! k) as [v|] eqn:Ev.
  2:{ injection HC as -> ->. split; [by apply record_add_on|]. intros k'. rewrite <- (rec_original _ _ R).
      unfold original. simpl. rewrite old_record_add, Keys_Has_record_add, upsert_entries by done. simpl.
      destruct (decide (k' = k)) as [->|Hn].
      - rewrite (bool_decide_true (k = k)) by done. rewrite Ev. by repeat case_match.
      - rewrite (bool_decide_false (k' = k)), lookup_insert_ne by done. done. }
  destruct (insertOldIfNotExists s.2 k v) as [ch b] eqn:EI.
  destruct (insertOld_recorded E s k v ch b R Ev EI) as (EA & ED & HO' & Hne & Hk). simpl in HC.
  assert (HG : ∀ ms' b0, (∀ k', k' ≠ k → ms_entries ms' !! k' = ms_entries s.1 !! k') →
    (default ∅ (old ch) !! k = None → Keys_Has (Adds s.2) k = true) →
    recorded E (ms', record_add b0 k ch)).
  { intros ms' b0 Hm Hkk. split; [apply record_add_on; split; [by rewrite EA|done]|]. intros k'.
    unfold original. simpl. rewrite old_record_add, Keys_Has_record_add, EA by (by rewrite EA).
    destruct (decide (k' = k)) as [->|Hn].
    - destruct Hk as [[-> [x Hx]]|(Hh & -> & ->)]; [by rewrite Hx|]. by rewrite Hh, orb_true_r.
    - rewrite (bool_decide_false (k' = k)), andb_false_r, Hne, Hm by done. apply R. }
  assert (Hkk : default ∅ (old ch) !! k = None → Keys_Has (Adds s.2) k = true).
  { destruct Hk as [[-> [x Hx]]|(Hh & _)]; [by rewrite Hx|done]. }
  destruct HC as [[= -> ->]|[[= -> ->]|(v' & [= -> ->] & _)]].
  - by destruct s.
  - by apply (HG s.1 false).
  - apply HG; [|done]. intros k' Hn. simpl. by rewrite lookup_insert_ne.
Qed.

Lemma insert_recorded E ms tier k e features ch : contains features passRules = false →
  recorded E (ms, ch) → recorded E (insertWithChanges ms tier k e features ch).
Proof.
  intros Hf R. apply (insert_ind (recorded E) (recorded E)); try done.
  - intros s k' v _ Ev R'. by apply deleteExisting_recorded.
  - intros s R'. by apply addKey_recorded.
Qed.

Lemma deleteKey_recorded E s k : recorded E s → recorded E (deleteKeyWithChanges s.1 k s.2).
Proof.
  intros R. unfold deleteKeyWithChanges, ms_get. destruct (ms_entries s.1 !! k) eqn:Ev.
  - by apply deleteExisting_recorded.
  - by destruct s.
Qed.

Lemma deleteId_recorded E s id : recorded E s → recorded E (deleteIdWithChanges s.1 id s.2).
Proof.
  intros R. unfold deleteIdWithChanges. rewrite <- surjective_pairing.
  destruct (_ ≫= _) as [x|]; [|done]. generalize (range x). intros l. revert s R.
  induction l as [|y l IH]; intros s R; [done|]. simpl. by apply IH, deleteKey_recorded.
Qed.

Lemma foldl_delete_entries l ms k :
  ms_entries (foldl ms_delete ms l) !! k = if bool_decide (k ∈ l) then None else ms_entries ms !! k.
Proof.
  revert ms. induction l as [|x l IH]; intros ms; [done|]. simpl. rewrite IH, ms_delete_entries.
  destruct (decide (k = x)) as [->|Hn].
  - rewrite lookup_delete_eq, (bool_decide_true (x ∈ x :: l)) by (by left). by destruct (bool_decide _).
  - rewrite lookup_delete_ne by done. apply bool_decide_ext_if. rewrite elem_of_cons. tauto.
Qed.

Lemma foldl_insert_entries (o : gmap Key mapStateEntry) l ms k :
  ms_entries (foldl (λ ms k, match o !! k with Some v => ms_insert ms k v | None => ms end) ms l) !! k =
  match o !! k with
  | Some v => if bool_decide (k ∈ l) then Some v else ms_entries ms !! k
  | None => ms_entries ms !! k
  end.
Proof.
  revert ms. induction l as [|x l IH]; intros ms; [simpl; by destruct (o !! k)|]. simpl. rewrite IH.
  destruct (decide (k = x)) as [->|Hn].
  - destruct (o !! x) as [v|]; [|done]. unfold ms_insert. rewrite upsert_entries, lookup_insert_eq.
    rewrite (bool_decide_true (x ∈ x :: l)) by (by left). by destruct (bool_decide _).
  - assert (Em : ms_entries (match o !! x with Some v => ms_insert ms x v | None => ms end) !! k = ms_entries ms !! k).
    { destruct (o !! x); [|done]. unfold ms_insert. by rewrite upsert_entries, lookup_insert_ne. }
    rewrite Em. destruct (o !! k); [|done]. apply bool_decide_ext_if. rewrite elem_of_cons. tauto.
Qed.

Lemma revert_entries s k : ms_entries (revertChanges s.1 s.2) !! k = original s k.
Proof.
  unfold revertChanges, original. cbn zeta. rewrite foldl_insert_entries, foldl_delete_entries.
  rewrite Keys_Has_spec.
  assert (Hr : bool_decide (k ∈ range (default ∅ (Adds s.2))) = bool_decide (k ∈ default ∅ (Adds s.2))).
  { apply bool_decide_ext. by rewrite range_perm, elem_of_elements. }
  destruct (default ∅ (old s.2) !! k) as [e|] eqn:Eo; [|by rewrite Hr].
  rewrite bool_decide_true; [done|]. rewrite range_perm, elem_of_elements, elem_of_dom. by eexists.
Qed.

(** The operations of a round without passes. *)
Definition plain_operation (o : operation) : Prop :=
  match o with
  | OpInsert _ _ _ features => contains features passRules = false
  | OpDeleteKey _ | OpDeleteId _ => True
  | _ => False
  end.

Definition round ms (ops : list operation) : mapState TR * ChangeState :=
  foldl apply_operation (ms, mkChangeState (Some ∅) (Some ∅) (Some ∅)) ops.

Lemma round_recorded ms ops : Forall plain_operation ops → recorded (ms_entries ms) (round ms ops).
Proof.
  intros H. unfold round.
  assert (R : recorded (ms_entries ms) (ms, mkChangeState (Some ∅) (Some ∅) (Some ∅))).
  { split; [by split; eexists|]. intros k. unfold original. simpl. rewrite lookup_empty. done. }
  revert R. generalize (ms, mkChangeState (Some ∅) (Some ∅) (Some ∅)).
  induction H as [|o ops Ho H IH]; intros s R; [done|]. simpl. apply IH.
  destruct o; simpl in *; try done; [destruct s; by apply insert_recorded|by apply deleteKey_recorded|
    by apply deleteId_recorded].
Qed.

(** ** The difference the datapath applies *)

(** The datapath's map after the recorded changes are applied to it. *)
Definition datapath_after (E : gmap Key mapStateEntry) s k : option MapStateEntry :=
  if Keys_Has (Adds s.2) k then ms_Get s.1 k
  else if Keys_Has (Deletes s.2) k then None
  else mse_MapStateEntry <$> E !! k.

(** Removed keys are recorded as such and stay removed; added keys are new. *)
Record delta (E : gmap Key mapStateEntry) s : Prop := {
  delta_recorded : recorded E s;
  delta_on : is_Some (Deletes s.2);
  delta_old k : is_Some (default ∅ (old s.2) !! k) →
    ms_entries s.1 !! k = None ∧ Keys_Has (Adds s.2) k = false ∧ Keys_Has (Deletes s.2) k = true;
  delta_deletes k : Keys_Has (Deletes s.2) k = true → is_Some (default ∅ (old s.2) !! k);
  delta_adds k : Keys_Has (Adds s.2) k = true → is_Some (ms_entries s.1 !! k);
}.

(** The record at a key is exact: a removal is recorded when an entry is gone, an addition when
    there is one at a key that had none; an entry at a key that had one may be recorded as an
    addition only where [may] allows. *)
Record exact_at (E : gmap Key mapStateEntry) (may : Prop) s k : Prop := {
  ex_datapath : datapath_after E s k = ms_Get s.1 k;
  ex_deletes : Keys_Has (Deletes s.2) k = true ↔ is_Some (E !! k) ∧ ms_entries s.1 !! k = None;
  ex_adds : Keys_Has (Adds s.2) k = true → is_Some (ms_entries s.1 !! k) ∧ (E !! k = None ∨ may);
  ex_new : E !! k = None → is_Some (ms_entries s.1 !! k) → Keys_Has (Adds s.2) k = true;
}.

Lemma delta_exact E s k : delta E s → datapath_after E s k = ms_Get s.1 k.
Proof.
  intros [R _ HO HD HA]. unfold datapath_after, ms_Get, ms_get.
  destruct (Keys_Has (Adds s.2) k) eqn:EA; [done|]. destruct (Keys_Has (Deletes s.2) k) eqn:ED.
  - destruct (HO k (HD k ED)) as (-> & _). done.
  - pose proof (rec_original _ _ R k) as Ek. unfold original in Ek. rewrite EA in Ek.
    destruct (default ∅ (old s.2) !! k) as [e|] eqn:Eo; [|by rewrite Ek].
    destruct (HO k) as (_ & _ & H); [by rewrite Eo|]. congruence.
Qed.

Lemma delta_exact_at E s k may : delta E s → exact_at E may s k.
Proof.
  intros Dl. pose proof (delta_exact E s k Dl) as HD. destruct Dl as [R _ HO HDe HA].
  pose proof (rec_original _ _ R k) as Ek. unfold original in Ek. constructor; [done|..].
  - split.
    + intros H%HDe. pose proof (HO k H) as (-> & _). destruct H as [x Hx]. rewrite Hx in Ek. split; [by rewrite <- Ek|done].
    + intros [[v Hv] Hn]. rewrite Hn in Ek. destruct (default ∅ (old s.2) !! k) as [x|] eqn:Ex.
      * by apply (HO k).
      * rewrite Hv in Ek. by destruct (Keys_Has (Adds s.2) k).
  - intros H. split; [by apply HA|]. left. destruct (default ∅ (old s.2) !! k) as [x|] eqn:Ex; [|by rewrite H in Ek].
    destruct (HO k) as (_ & ? & _); [by rewrite Ex|]. congruence.
  - intros Hn [v Hv]. rewrite Hn, Hv in Ek. destruct (default ∅ (old s.2) !! k); [done|]. by destruct (Keys_Has (Adds s.2) k).
Qed.

Lemma insertOld_none ch k v : default ∅ (old ch) !! k = None → is_Some (old ch) →
  insertOldIfNotExists ch k v =
  if Keys_Has (Adds ch) k then (ch, false)
  else (mkChangeState (Adds ch) (Deletes ch) (Some (<[k := v]> (default ∅ (old ch)))), true).
Proof.
  intros Hk [o Eo]. unfold insertOldIfNotExists. rewrite Eo in *. simpl in *. by rewrite Hk.
Qed.

Lemma deleteExisting_delta E s k v : delta E s → ms_entries s.1 !! k = Some v →
  delta E (deleteExistingWithChanges s.1 k v s.2).
Proof.
  intros [R [D ED] HO HD HA] Ev. pose proof (deleteExisting_recorded E s k v R Ev) as R'.
  pose proof (deleteExisting_state s.1 k v s.2) as Es.
  assert (Eo : default ∅ (old s.2) !! k = None).
  { apply eq_None_not_Some. intros (H & _)%HO. congruence. }
  pose proof (insertOld_none s.2 k v Eo (proj2 (rec_on _ _ R))) as EI.
  unfold deleteExistingWithChanges in *. rewrite EI in *. clear EI.
  destruct (Keys_Has (Adds s.2) k) eqn:Ek; simpl in *; constructor; try done; simpl; rewrite ?Es.
  - intros k' Hk'. destruct (HO k' Hk') as (E1 & E2 & E3).
    rewrite ms_delete_entries, lookup_delete_None, Keys_Has_keys_remove, E2, andb_false_r. auto.
  - intros k'. rewrite Keys_Has_keys_remove, ms_delete_entries. intros [Hn Hk']%andb_prop.
    apply negb_true_iff, bool_decide_eq_false in Hn. rewrite lookup_delete_ne by done. by apply HA.
  - rewrite ED. by eexists.
  - intros k'. rewrite ms_delete_entries, Keys_Has_keys_remove, Keys_Has_keys_add by (by rewrite ED).
    destruct (decide (k' = k)) as [->|Hn].
    + intros _. by rewrite (bool_decide_true (k = k)), lookup_delete_eq.
    + rewrite lookup_insert_ne, lookup_delete_ne, (bool_decide_false (k' = k)) by done. simpl. apply HO.
  - intros k'. rewrite Keys_Has_keys_add by (by rewrite ED). destruct (decide (k' = k)) as [->|Hn].
    + by rewrite lookup_insert_eq.
    + rewrite lookup_insert_ne, (bool_decide_false (k' = k)) by done. apply HD.
  - intros k'. rewrite Keys_Has_keys_remove, ms_delete_entries. intros [Hn Hk']%andb_prop.
    apply negb_true_iff, bool_decide_eq_false in Hn. rewrite lookup_delete_ne by done. by apply HA.
Qed.

Lemma delta_update E s b k ms' : delta E s → default ∅ (old s.2) !! k = None →
  (∀ k', k' ≠ k → ms_entries ms' !! k' = ms_entries s.1 !! k') → is_Some (ms_entries ms' !! k) →
  recorded E (ms', record_add b k s.2) → delta E (ms', record_add b k s.2).
Proof.
  intros [R [D ED] HO HD HA] Eo Hm Hk R'. pose proof (rec_on _ _ R) as [HA0 _].
  assert (HDel : ∀ k', Keys_Has (Deletes (record_add b k s.2)) k' =
    (negb (b && bool_decide (k' = k))) && Keys_Has (Deletes s.2) k').
  { intros k'. unfold record_add. rewrite (bool_decide_true _ HA0), andb_true_r.
    destruct b; simpl; [by rewrite Keys_Has_keys_remove|done]. }
  constructor; simpl; try done.
  - unfold record_add. destruct (_ && _); simpl; rewrite ED; by eexists.
  - intros k'. rewrite old_record_add, HDel, Keys_Has_record_add by done. intros Hk'.
    assert (Hn : k' ≠ k) by (intros ->; rewrite Eo in Hk'; by destruct Hk').
    rewrite Hm, (bool_decide_false (k' = k)), andb_false_r by done. simpl. by apply HO.
  - intros k'. rewrite HDel, old_record_add. intros [_ ?]%andb_prop. by apply HD.
  - intros k'. rewrite Keys_Has_record_add by done. destruct (decide (k' = k)) as [->|Hn]; [done|].
    rewrite (bool_decide_false (k' = k)), andb_false_r, Hm by done. apply HA.
Qed.

Lemma addKey_delta E s k e : delta E s → E !! k = None → delta E (addKeyWithChanges s.1 k e s.2).1.
Proof.
  intros Dl Ek. pose proof (addKey_recorded E s k e (delta_recorded _ _ Dl)) as R'.
  pose proof (addKey_cases s.1 k e s.2) as HC. cbn zeta in HC.
  destruct (addKeyWithChanges s.1 k e s.2).1 as [ms1 ch1].
  pose proof (rec_original _ _ (delta_recorded _ _ Dl) k) as Eo. unfold original in Eo. rewrite Ek in Eo.
  destruct (default ∅ (old s.2) !! k) as [x|] eqn:Ex; [done|].
  destruct (ms_entries s.1 !! k) as [v|] eqn:Ev.
  2:{ injection HC as -> ->. apply delta_update; try done; rewrite upsert_entries.
      - intros k' Hn. by rewrite lookup_insert_ne.
      - by rewrite lookup_insert_eq. }
  destruct (Keys_Has (Adds s.2) k) eqn:EA; [|done].
  rewrite (insertOld_none _ _ _ Ex (proj2 (rec_on _ _ (delta_recorded _ _ Dl)))), EA in HC. simpl in HC.
  destruct HC as [[= -> ->]|[[= -> ->]|(v' & [= -> ->] & _)]]; [by destruct s..|].
  apply delta_update; try done; simpl.
  - intros k' Hn. by rewrite lookup_insert_ne.
  - by rewrite lookup_insert_eq.
Qed.

(** The last addition of a round may be to a key that had an entry. *)
Lemma addKey_exact E s k e k' : delta E s →
  datapath_after E (addKeyWithChanges s.1 k e s.2).1 k' = ms_Get (addKeyWithChanges s.1 k e s.2).1.1 k'.
Proof.
  intros Dl. pose proof (delta_exact E s k' Dl) as H0. pose proof (addKey_cases s.1 k e s.2) as HC. cbn zeta in HC.
  destruct (addKeyWithChanges s.1 k e s.2).1 as [ms1 ch1].
  pose proof (rec_on _ _ (delta_recorded _ _ Dl)) as [HA HO].
  assert (HG : ∀ ms' b ch, Adds ch = Adds s.2 → Deletes ch = Deletes s.2 →
    (∀ k', k' ≠ k → ms_entries ms' !! k' = ms_entries s.1 !! k') →
    (b = false → ms_Get ms' k = ms_Get s.1 k) →
    datapath_after E (ms', record_add b k ch) k' = ms_Get ms' k').
  { intros ms' b ch EA ED Hm Hb. unfold datapath_after, ms_Get, ms_get, record_add in *. simpl.
    rewrite EA, (bool_decide_true _ HA), andb_true_r. destruct (decide (k' = k)) as [->|Hn].
    - destruct b; simpl; [|rewrite EA, ED, Hb; done].
      by rewrite Keys_Has_keys_add, (bool_decide_true (k = k)).
    - rewrite Hm by done. etrans; [|exact H0]. destruct b; simpl; rewrite ?EA, ?ED; [|done].
      rewrite Keys_Has_keys_add, Keys_Has_keys_remove, (bool_decide_false (k' = k)) by done. done. }
  destruct (ms_entries s.1 !! k) as [v|] eqn:Ev.
  2:{ injection HC as -> ->. apply (HG _ true); try done. intros k0 Hn. simpl. by rewrite upsert_entries, lookup_insert_ne. }
  assert (HI : Adds (insertOldIfNotExists s.2 k v).1 = Adds s.2 ∧ Deletes (insertOldIfNotExists s.2 k v).1 = Deletes s.2).
  { unfold insertOldIfNotExists. by repeat case_match. }
  destruct HI as [EA ED]. destruct HC as [[= -> ->]|[[= -> ->]|(v' & [= -> ->] & Hv)]].
  - done.
  - by apply (HG s.1 false).
  - apply HG; try done; simpl.
    + intros k0 Hn. by rewrite lookup_insert_ne.
    + intros Hb%negb_false_iff%bool_decide_eq_true. unfold ms_Get, ms_get. simpl.
      rewrite lookup_insert_eq, Ev. simpl. by rewrite Hv.
Qed.

Lemma addKey_exact_at E s k e k' : delta E s → exact_at E (k' = k) (addKeyWithChanges s.1 k e s.2).1 k'.
Proof.
  intros Dl. pose proof (addKey_exact E s k e k' Dl) as HX. pose proof (delta_exact_at E s k' (k' = k) Dl) as [_ X2 X3 X4].
  pose proof (addKey_cases s.1 k e s.2) as HC. cbn zeta in HC. destruct (addKeyWithChanges s.1 k e s.2).1 as [ms1 ch1].
  pose proof (rec_on _ _ (delta_recorded _ _ Dl)) as [HA HO].
  assert (HG : ∀ ms' b ch, Adds ch = Adds s.2 → Deletes ch = Deletes s.2 →
    (∀ k0, k0 ≠ k → ms_entries ms' !! k0 = ms_entries s.1 !! k0) → is_Some (ms_entries ms' !! k) →
    (b = false → is_Some (ms_entries s.1 !! k)) →
    datapath_after E (ms', record_add b k ch) k' = ms_Get ms' k' → exact_at E (k' = k) (ms', record_add b k ch) k').
  { intros ms' b ch EA ED Hm Hk Hb HX'. constructor; cbn [fst snd]; [done|..];
      unfold record_add; rewrite EA, (bool_decide_true _ HA), andb_true_r; destruct (decide (k' = k)) as [-> |Hn].
    - destruct b; cbn [Deletes]; rewrite ?ED, ?Keys_Has_keys_remove, ?(bool_decide_true (k = k)) by done; cbn [negb andb].
      + split; [done|]. intros [_ E0]. by rewrite E0 in Hk.
      + rewrite X2. split; intros [_ E0]; [destruct (Hb eq_refl); congruence|by rewrite E0 in Hk].
    - rewrite (Hm k') by done. destruct b; cbn [Deletes]; rewrite ?ED, ?Keys_Has_keys_remove, ?(bool_decide_false (k' = k)) by done; exact X2.
    - intros _. split; [done|by right].
    - rewrite (Hm k') by done. destruct b; cbn [Adds]; rewrite ?EA, ?Keys_Has_keys_add, ?(bool_decide_false (k' = k)) by done; exact X3.
    - intros E0 _. destruct b; cbn [Adds]; rewrite ?EA, ?Keys_Has_keys_add, ?(bool_decide_true (k = k)) by done.
      + done.
      + by apply X4; [|apply Hb].
    - rewrite (Hm k') by done. destruct b; cbn [Adds]; rewrite ?EA, ?Keys_Has_keys_add, ?(bool_decide_false (k' = k)) by done; exact X4. }
  destruct (ms_entries s.1 !! k) as [v|] eqn:Ev.
  2:{ injection HC as -> ->. apply (HG _ true); try done; cbn [fst]; rewrite upsert_entries.
      - intros k0 Hn. by rewrite lookup_insert_ne.
      - by rewrite lookup_insert_eq. }
  assert (HI : Adds (insertOldIfNotExists s.2 k v).1 = Adds s.2 ∧ Deletes (insertOldIfNotExists s.2 k v).1 = Deletes s.2).
  { unfold insertOldIfNotExists. by repeat case_match. }
  destruct HI as [EA ED]. destruct HC as [[= -> ->]|[[= -> ->]|(v' & [= -> ->] & Hv)]].
  - by constructor.
  - apply (HG s.1 false); try done.
  - apply HG; try done; cbn [fst].
    + intros k0 Hn. cbn. by rewrite lookup_insert_ne.
    + cbn. by rewrite lookup_insert_eq.
Qed.

(** An operation that does not insert at a key of [E]. *)
Definition fresh_operation (E : gmap Key mapStateEntry) (o : operation) : Prop :=
  plain_operation o ∧ match o with OpInsert _ key _ _ => E !! key = None | _ => True end.

Lemma deleteKey_delta E s k : delta E s → delta E (deleteKeyWithChanges s.1 k s.2).
Proof.
  intros R. unfold deleteKeyWithChanges, ms_get. destruct (ms_entries s.1 !! k) eqn:Ev.
  - by apply deleteExisting_delta.
  - by destruct s.
Qed.

Lemma deleteId_delta E s id : delta E s → delta E (deleteIdWithChanges s.1 id s.2).
Proof.
  intros R. unfold deleteIdWithChanges. rewrite <- surjective_pairing.
  destruct (_ ≫= _) as [x|]; [|done]. generalize (range x). intros l. revert s R.
  induction l as [|y l IH]; intros s R; [done|]. simpl. by apply IH, deleteKey_delta.
Qed.

Lemma round_delta ms ops : Forall (fresh_operation (ms_entries ms)) ops → delta (ms_entries ms) (round ms ops).
Proof.
  intros H. unfold round.
  assert (R : delta (ms_entries ms) (ms, mkChangeState (Some ∅) (Some ∅) (Some ∅))).
  { constructor; simpl.
    - by apply (round_recorded ms []).
    - by eexists.
    - intros k. rewrite lookup_empty. by intros [].
    - intros k. rewrite bool_decide_eq_true. set_solver.
    - intros k. rewrite bool_decide_eq_true. set_solver. }
  revert R. generalize (ms, mkChangeState (Some ∅) (Some ∅) (Some ∅)).
  induction H as [|o ops [Ho Hf] H IH]; intros s R; [done|]. simpl. apply IH.
  destruct o; simpl in *; try done; [|by apply deleteKey_delta|by apply deleteId_delta].
  destruct s as [ms1 ch1]. apply (insert_ind (delta (ms_entries ms)) (delta (ms_entries ms))); try done.
  - intros s k v _ Ev R'. by apply deleteExisting_delta.
  - intros s R'. by apply addKey_delta.
Qed.

(** The key an operation inserts at. *)
Definition inserts_at (o : operation) k : Prop := match o with OpInsert _ key _ _ => k = key | _ => False end.

Lemma last_exact ms ops o k : Forall (fresh_operation (ms_entries ms)) ops → plain_operation o →
  exact_at (ms_entries ms) (inserts_at o k) (apply_operation (round ms ops) o) k.
Proof.
  intros H Ho. pose proof (round_delta ms ops H) as R. destruct o; simpl in *; try done.
  - destruct (round ms ops) as [ms1 ch1].
    apply (insert_ind (delta (ms_entries ms)) (λ s, exact_at (ms_entries ms) (k = key) s k)); try done.
    + intros s k' v _ Ev R'. by apply deleteExisting_delta.
    + intros s R'. by apply delta_exact_at.
    + intros s R'. by apply addKey_exact_at.
  - by apply delta_exact_at, deleteKey_delta.
  - by apply delta_exact_at, deleteId_delta.
Qed.
End changes.

(** ** Results *)

Section results.
Context {TR : Trie LPMKey IDSet} {TL : TrieLaws LPMKey IDSet TR} {GR : GoRange}.

(** C22. Reverting a round of insertions and removals without pass verdicts restores
    exactly the entries the state had before the round, whatever the operations
    did to each other's entries. *)
Theorem revert_restores (ms : mapState TR) ops : Forall plain_operation ops →
  let s := round ms ops in
  ms_entries (revertChanges s.1 s.2) = ms_entries ms.
Proof.
  intros H s. apply map_eq. intros k. rewrite revert_entries.
  apply (rec_original _ _ (round_recorded ms ops H)).
Qed.

(** C23. The recorded changes of a round without passes are the difference between the
    entries before and after it.  The round may remove anything and insert at keys that
    had no entry, and its last operation may insert anywhere.  At every key: a datapath
    that applies the changes to what it had holds what the map state holds; a removal is
    recorded exactly when the entry is gone; additions are recorded only of entries that
    are there, and exactly of those at keys that had none, but for the key of the last
    insertion, whose entry may be recorded even when it is as before. *)
Theorem round_delta_exact (ms : mapState TR) ops o k :
  Forall (fresh_operation (ms_entries ms)) ops → plain_operation o →
  let E := ms_entries ms in
  let s := apply_operation (round ms ops) o in
  datapath_after E s k = ms_Get s.1 k ∧
  (Keys_Has (Deletes s.2) k = true ↔ is_Some (E !! k) ∧ ms_entries s.1 !! k = None) ∧
  (Keys_Has (Adds s.2) k = true → is_Some (ms_entries s.1 !! k) ∧ (E !! k = None ∨ inserts_at o k)) ∧
  (E !! k = None → is_Some (ms_entries s.1 !! k) → Keys_Has (Adds s.2) k = true).
Proof. intros H Ho E s. by destruct (last_exact ms ops o k H Ho). Qed.
End results.

(** ** Runs *)

Definition demo_all : Key := WithIdentity IngressKey 100000.
Definition demo_http : Key := WithTCPPort demo_all 80.
Definition demo_https : Key := WithTCPPort demo_all 443.
Definition demo_verdict (priority : Z) (v : Verdict) : mapStateEntry :=
  newMapStateEntry priority 0 1000 NilRuleOrigin 0 0 v.

Definition demo_start (features : Z) (ops : list operation) : mapState bitlpm :=
  (reach (TR:=bitlpm) (GR:=range_elements) ∅ features demo_cluster ops).1.
Definition demo_round (features : Z) (start ops : list operation) : mapState bitlpm * ChangeState :=
  round (TR:=bitlpm) (GR:=range_elements) (demo_start features start) ops.

Definition plain_insert (key : Key) (e : mapStateEntry) : operation :=
  OpInsert MaxPrecedence key e precedenceFeatures.

Definition demo_before : list operation := [plain_insert demo_http (demo_verdict 100 Allow)].
(** The entry is changed, and then removed by a deny that covers it. *)
Definition demo_override : list operation :=
  [plain_insert demo_http (demo_verdict 50 Allow); plain_insert demo_all (demo_verdict 10 Deny)].

Lemma revert_restores_witness :
  let s := demo_round precedenceFeatures demo_before demo_override in
  ms_Get s.1 demo_http = None ∧
  ms_entries (revertChanges (GR:=range_elements) s.1 s.2) = ms_entries (demo_start precedenceFeatures demo_before).
Proof.
  cbn zeta. split; [vm_compute; reflexivity|].
  apply (revert_restores (TR:=bitlpm) (GR:=range_elements)). repeat constructor.
Defined.

Lemma round_delta_exact_witness :
  let ms := demo_start precedenceFeatures demo_before in
  let s := apply_operation (GR:=range_elements)
    (round (TR:=bitlpm) (GR:=range_elements) ms [plain_insert demo_https (demo_verdict 50 Allow)])
    (plain_insert demo_all (demo_verdict 10 Deny)) in
  ms_Get s.1 demo_http = None ∧ datapath_after (ms_entries ms) s demo_http = ms_Get s.1 demo_http.
Proof.
  cbn zeta. split; [vm_compute; reflexivity|].
  apply (round_delta_exact (TR:=bitlpm) (GR:=range_elements)); [|reflexivity].
  repeat constructor.
Defined.

(** A key that is changed and then removed in the same round is dropped from both
    the recorded additions and the recorded removals: the map state has no entry for
    it, while the datapath keeps the entry it had, which allows the traffic the new
    covering rule denies. *)
Theorem change_then_removal_unreported :
  let s := demo_round precedenceFeatures demo_before demo_override in
  ms_Get s.1 demo_http = None ∧ MapStateEntry_IsDeny (lookup s.1 demo_http).1 = true ∧
  Keys_Has (Adds s.2) demo_http = false ∧ Keys_Has (Deletes s.2) demo_http = false ∧
  ∃ e, datapath_after (ms_entries (demo_start precedenceFeatures demo_before)) s demo_http = Some e ∧
       IsValid e = true ∧ MapStateEntry_IsAllow e = true.
Proof. vm_compute. repeat split. eexists. by split_and!. Qed.

(** A pass and, in the next tier, an allow, on one port. *)
Definition demo_passed (tier next : Z) : list operation :=
  [OpInsert (ToDenyPrecedence tier) demo_http (PassEntry (tier + 10) tier next NilRuleOrigin) allFeatures;
   OpInsert (ToDenyPrecedence next) demo_http
     (newMapStateEntry (next + 50) next (next + 100) NilRuleOrigin 0 0 Allow) allFeatures].

(** With pass verdicts a revert does not restore the state: the entry the deny of
    the same tier replaces on the passed port is invalidated before its old value is
    recorded, so after the revert the traffic that was allowed has no match. *)
Theorem pass_revert_incomplete :
  let start := demo_start allFeatures (demo_passed 0 100) in
  let s := demo_round allFeatures (demo_passed 0 100)
    [OpInsert (ToDenyPrecedence 100) demo_all (newMapStateEntry 120 100 200 NilRuleOrigin 0 0 Deny) allFeatures] in
  let back := revertChanges (GR:=range_elements) s.1 s.2 in
  (lookup start demo_http).2 = true ∧ MapStateEntry_IsDeny (lookup start demo_http).1 = false ∧
  (lookup back demo_http).2 = false.
Proof. vm_compute. repeat split. Qed.

(** With pass verdicts an entry that a deny of a higher tier invalidates, and that
    is kept for its pass, is not reported: the map state denies the traffic, and the
    datapath keeps the valid allow entry it had. *)
Theorem pass_invalidation_unreported :
  let start := demo_start allFeatures (demo_passed 100 200) in
  let s := demo_round allFeatures (demo_passed 100 200)
    [OpInsert (ToDenyPrecedence 0) demo_all (newMapStateEntry 50 0 100 NilRuleOrigin 0 0 Deny) allFeatures] in
  MapStateEntry_IsDeny (lookup s.1 demo_http).1 = true ∧
  Keys_Has (Adds s.2) demo_http = false ∧ Keys_Has (Deletes s.2) demo_http = false ∧
  ∃ e, datapath_after (ms_entries start) s demo_http = Some e ∧
       IsValid e = true ∧ MapStateEntry_IsAllow e = true.
Proof. vm_compute. repeat split. eexists. by split_and!. Qed.
