(* ===== verification/MapStatePolicy.v ===== *)
(** * What the map state enforces

    Without pass verdicts, inserting rules with [insertWithChanges] keeps the map
    state such that the lookup of the datapath returns an entry of the highest
    precedence among all inserted rules covering the looked-up key, whatever the
    order of the insertions; removing the entries of an identity leaves the policy
    of the remaining rules. *)

From S2P Require Import Prelude Precedence BitLPM PolicyKey Identity RuleOrigin PassMeta.
From S2P Require Import MapState MapStateIndex MapStateLookup.

Local Open Scope Z_scope.

(** All keys. *)
Notation every := (λ _ : Key, True).

Lemma MapStateEntry_Merge_wf e o : wf_entry e → wf_entry o → wf_entry (MapStateEntry_Merge e o).
Proof.
  intros We Wo. unfold MapStateEntry_Merge. repeat case_match; try done.
  destruct Wo. by constructor.
Qed.

Lemma MapStateEntry_Merge_valid e o : IsValid (MapStateEntry_Merge e o) = IsValid e.
Proof. unfold MapStateEntry_Merge. by repeat case_match. Qed.

Section policy.
Context {TR : Trie LPMKey IDSet} {TL : TrieLaws LPMKey IDSet TR} {GR : GoRange}.
Implicit Types (ms : mapState TR) (k key : Key) (e v : mapStateEntry).

(** A state that lost some entries, all of which satisfy [P] and none of which is
    left satisfying it. *)
Record removes (P : Key → mapStateEntry → Prop) ms ms' : Prop := {
  rem_inv : ms_inv ms';
  rem_cinfo : clusterInfo ms' = clusterInfo ms;
  rem_left k v : ms_entries ms' !! k = Some v → ms_entries ms !! k = Some v ∧ ¬ P k v;
  rem_lost k v : ms_entries ms !! k = Some v → ms_entries ms' !! k = Some v ∨ P k v;
}.

Lemma removes_none P ms : ms_inv ms → (∀ k v, ms_entries ms !! k = Some v → ¬ P k v) → removes P ms ms.
Proof. intros I HP. constructor; auto. Qed.

Lemma removes_one P ms k v :
  ms_inv ms → ms_entries ms !! k = Some v → P k v →
  removes (λ k' v', k' = k ∧ P k' v') ms (ms_delete ms k).
Proof.
  intros I E HP. constructor; [by apply delete_inv|apply ms_delete_clusterInfo|..];
    intros k' v'; rewrite ms_delete_entries.
  - rewrite lookup_delete_Some. intros [Hn E']. split; [done|]. intros [-> _]. done.
  - intros E'. destruct (decide (k' = k)) as [->|Hn]; [right; by simplify_eq|left].
    by rewrite lookup_delete_ne.
Qed.

Lemma removes_trans P Q ms ms' ms'' :
  removes P ms ms' → removes Q ms' ms'' → removes (λ k v, P k v ∨ Q k v) ms ms''.
Proof.
  intros H1 H2. constructor; [apply H2|by rewrite (rem_cinfo _ _ _ H2), (rem_cinfo _ _ _ H1)|..]; intros k v E.
  - apply (rem_left _ _ _ H2) in E as [E HQ]. apply (rem_left _ _ _ H1) in E as [E HP]. tauto.
  - apply (rem_lost _ _ _ H1) in E as [E|]; [|tauto]. apply (rem_lost _ _ _ H2) in E. tauto.
Qed.

Lemma removes_iff P Q ms ms' :
  (∀ k v, ms_entries ms !! k = Some v → P k v ↔ Q k v) → removes P ms ms' → removes Q ms ms'.
Proof.
  intros HPQ H. constructor; [apply H|apply H|..]; intros k v E.
  - apply (rem_left _ _ _ H) in E as [E HP]. split; [done|]. by rewrite <- HPQ.
  - destruct (rem_lost _ _ _ H k v E) as [|HP]; [by left|right]. by apply HPQ.
Qed.

Lemma removes_present P ms ms' k : removes P ms ms' → present ms' k → present ms k.
Proof. intros H [v Hv]. apply (rem_left _ _ _ H) in Hv as [Hv _]. by exists v. Qed.

Lemma delete_loop_removes l (cond : Key → mapStateEntry → bool) ms ch :
  ms_inv ms →
  removes (λ k v, k ∈ l ∧ cond k v = true) ms
    (for_keys l (λ k v s, if cond k v then deleteExistingWithChanges s.1 k v s.2 else s) (ms, ch)).1.
Proof.
  revert ms ch. induction l as [|k l IH]; intros ms ch I.
  { apply removes_none; [done|]. intros k v _. rewrite elem_of_nil. tauto. }
  rewrite for_keys_cons. cbn [fst snd].
  destruct (ms_entries ms !! k) as [v|] eqn:E; [destruct (cond k v) eqn:Ec|].
  - destruct (deleteExistingWithChanges ms k v ch) as [ms1 ch1] eqn:ED.
    pose proof (deleteExisting_state ms k v ch) as Es. rewrite ED in Es. simpl in Es. subst ms1.
    eapply removes_iff; [|eapply removes_trans;
      [by apply (removes_one (λ k v, cond k v = true) ms k v)|by apply IH, delete_inv]].
    intros k' v' E'. rewrite elem_of_cons. tauto.
  - eapply removes_iff; [|by apply IH]. intros k' v' E'. rewrite elem_of_cons.
    split; [tauto|]. intros [[-> |Hin] Hc]; [|done]. congruence.
  - eapply removes_iff; [|by apply IH]. intros k' v' E'. rewrite elem_of_cons.
    split; [tauto|]. intros [[-> |Hin] Hc]; [|done]. congruence.
Qed.

Lemma delete_covered_removes ms key cond ch : ms_inv ms → wf_key key →
  removes (λ k v, kcovers (clusterInfo ms) key k ∧ cond k v = true) ms
    (delete_covered ms key cond ch).1.
Proof.
  intros I W. unfold delete_covered. eapply removes_iff; [|by apply delete_loop_removes].
  intros k v E. cbn beta. rewrite covered_keys by done.
  assert (present ms k) by (by exists v). tauto.
Qed.

Lemma pruneAggregated_removes ms key e ch : ms_inv ms → wf_key key →
  removes (λ k v, Key_LPMKey k = Key_LPMKey key ∧ Identity key ≠ Identity k ∧
                  aggregateFor (Identity k) (clusterInfo ms) = Identity key ∧ equivalent v e = true)
    ms (pruneAggregated ms key e ch).1.
Proof.
  intros I W. unfold pruneAggregated.
  destruct (isAggregate (Identity key) (clusterInfo ms)) eqn:Ea; simpl.
  - rewrite lookup_at by (done || apply W).
    destruct (trie_at ms key I (wf_key_lpm key W)) as [[-> Hn]|(ids & -> & _ & Hin)]; simpl.
    + apply removes_none; [done|]. intros k v E (El & _).
      destruct (Hn (Identity k)). rewrite <- El, Key_eta. by exists v.
    + eapply removes_iff;
        [|apply (delete_loop_removes (forCoveredIDs ms (Identity key) key ids) (λ k v, equivalent v e)); done].
      intros k v E. cbn beta. rewrite elem_of_forCoveredIDs, Hin.
      split; [tauto|]. intros (El & Hk & Ha & Heq). rewrite <- El, Key_eta. split_and!; try done. by exists v.
  - apply removes_none; [done|]. intros k v E (_ & _ & Hagg & _).
    rewrite <- not_true_iff_false, isAggregate_iff in Ea. apply Ea.
    by rewrite <- Hagg, aggregateFor_idem.
Qed.

(** An entry of a rule without a pass verdict. *)
Record plain_entry (e : mapStateEntry) : Prop := {
  plain_wf : wf_entry e;
  plain_valid : IsValid e = true;
  plain_passes : passes e = None;
}.

Lemma equivalent_entry e o : equivalent e o = true → mse_MapStateEntry e = mse_MapStateEntry o.
Proof. unfold equivalent. rewrite !andb_true_iff, bool_decide_eq_true. tauto. Qed.

Lemma addKey_plain ms k e ch :
  ms_inv ms → wf_key k → plain_entry e →
  (∀ v0, ms_entries ms !! k = Some v0 → plain_entry v0 ∧ Precedence v0 ≤ Precedence e) →
  let ms' := (addKeyWithChanges ms k e ch).1.1 in
  ms_inv ms' ∧ clusterInfo ms' = clusterInfo ms ∧
  ∃ v, ms_entries ms' = <[k := v]> (ms_entries ms) ∧ plain_entry v ∧ Precedence v = Precedence e.
Proof.
  intros I W [We Ve Pe] Hold. unfold addKeyWithChanges, ms_get, ms_insert.
  destruct (ms_entries ms !! k) as [v0|] eqn:E.
  - destruct (Hold v0 eq_refl) as [[W0 V0 P0] Hle].
    assert (Hkeep : plain_entry v0) by done.
    destruct (mapStateEntry_Equal e v0) eqn:Eq.
    { unfold mapStateEntry_Equal in Eq. apply andb_true_iff in Eq as [Eq%equivalent_entry _].
      split; [done|]. split; [done|]. exists v0. rewrite insert_id by done.
      split_and!; try done. by rewrite Eq. }
    destruct v0 as [m0 p0 o0], e as [m pe oe]. cbn [passes mse_MapStateEntry derivedFromRules] in *.
    subst p0 pe. cbn [MergeClone]. unfold set_passes, set_origin, set_entry.
    cbn [passes mse_MapStateEntry derivedFromRules]. rewrite V0, Ve. cbn [negb].
    assert (HU : ∀ x, ms_inv (updateExisting ms k x))
      by (intros; apply updateExisting_inv; [done|by eexists]).
    destruct (ProxyPortPrecedenceMayDiffer _ _) eqn:Ed;
      [|destruct (Z.ltb_spec (Precedence m0) (Precedence m))]; cbn [fst];
      (split; [by auto|split; [done|eexists; split; [try reflexivity|]]]).
    + split; [constructor; cbn; [by apply MapStateEntry_Merge_wf|by rewrite MapStateEntry_Merge_valid|done]|].
      cbn. rewrite MapStateEntry_Merge_Precedence by done. lia.
    + by split.
    + symmetry. by apply insert_id.
    + split; [done|]. cbn. lia.
  - cbn. split; [by apply upsert_inv|]. split; [apply upsert_clusterInfo|].
    exists e. rewrite upsert_entries. done.
Qed.

(** ** The policy invariant *)

Notation rule := (Key * mapStateEntry)%type.

Record rule_ok (r : rule) : Prop := {
  rule_wf : wf_key r.1;
  rule_plain : plain_entry r.2;
}.

(** The keys the rules are about: all keys, those of one direction, or those of the identities
    that are not removed.  The keys that cover them are among them. *)
Definition closed (D : Key → Prop) : Prop := ∀ cinfo k k', kcovers cinfo k k' → D k' → D k.

Section scope.
Context (D : Key → Prop) (HD : closed D).

(** The map state holds the policy of the rules [R]: every entry has the
    precedence of a rule for its key, every rule is covered by an entry of at least
    its precedence, and a narrower entry never has a lower precedence. *)
Record policy_inv ms (R : list rule) : Prop := {
  pol_inv : ms_inv ms;
  pol_plain k v : D k → ms_entries ms !! k = Some v → plain_entry v;
  pol_sound k v : D k → ms_entries ms !! k = Some v →
    ∃ r : rule, r ∈ R ∧ r.1 = k ∧ Precedence r.2 = Precedence v;
  pol_complete (r : rule) : r ∈ R → ∃ k v, ms_entries ms !! k = Some v ∧
    kcovers (clusterInfo ms) k r.1 ∧ Precedence r.2 ≤ Precedence v;
  pol_ordered k v k' v' : D k' → ms_entries ms !! k = Some v → ms_entries ms !! k' = Some v' →
    kcovers (clusterInfo ms) k k' → Precedence v ≤ Precedence v';
  pol_rules (r : rule) : r ∈ R → rule_ok r ∧ D r.1;
}.

Lemma pol_wf ms R k v : policy_inv ms R → ms_entries ms !! k = Some v → wf_key k.
Proof. intros P E. apply (inv_wf ms (pol_inv _ _ P)). by exists v. Qed.

(** A rule already covered by an entry of its precedence or higher. *)
Lemma policy_skip ms R k e k' v' :
  policy_inv ms R → rule_ok (k, e) → D k → ms_entries ms !! k' = Some v' →
  kcovers (clusterInfo ms) k' k → Precedence e ≤ Precedence v' →
  policy_inv ms ((k, e) :: R).
Proof.
  intros P Hr Dk E Hc Hle. destruct P as [I P1 P2 P3 P4 P5].
  constructor; try done.
  - intros k0 v0 D0 E0. destruct (P2 k0 v0 D0 E0) as (r & Hin & ?). exists r. split; [by right|done].
  - intros r [-> |Hin]%elem_of_cons; [|by apply P3]. by exists k', v'.
  - intros r [-> |Hin]%elem_of_cons; [done|by apply P5].
Qed.

(** The shape of an insertion: entries covered by the new key and not above it are
    removed, then the new entry is stored. *)
Record inserts (P : Key → mapStateEntry → Prop) ms k e ms' : Prop := {
  ins_inv : ms_inv ms';
  ins_cinfo : clusterInfo ms' = clusterInfo ms;
  ins_here : ∃ v, ms_entries ms' !! k = Some v ∧ plain_entry v ∧ Precedence v = Precedence e;
  ins_left k' v : k' ≠ k → ms_entries ms' !! k' = Some v → ms_entries ms !! k' = Some v ∧ ¬ P k' v;
  ins_lost k' v : k' ≠ k → ms_entries ms !! k' = Some v → ms_entries ms' !! k' = Some v ∨ P k' v;
}.

Lemma policy_insert P ms R k e ms' :
  policy_inv ms R → rule_ok (k, e) → D k → inserts P ms k e ms' →
  (∀ k' v', ms_entries ms !! k' = Some v' → P k' v' →
     kcovers (clusterInfo ms) k k' ∧ Precedence v' ≤ Precedence e) →
  (∀ k' v', ms_entries ms !! k' = Some v' → kcovers (clusterInfo ms) k' k →
     Precedence v' ≤ Precedence e) →
  (∀ k' v', k' ≠ k → D k' → ms_entries ms !! k' = Some v' → ¬ P k' v' →
     kcovers (clusterInfo ms) k k' → Precedence e ≤ Precedence v') →
  policy_inv ms' ((k, e) :: R).
Proof.
  intros Pol Hr Dk [I' EC (v & Ev & Hv & Hprec) HL HX] HP Hbroad Hnarrow.
  assert (Hwf : ∀ k' v', ms_entries ms !! k' = Some v' → wf_key k') by (intros; by eapply pol_wf).
  destruct Pol as [I P1 P2 P3 P4 P5]. pose proof (rule_wf _ Hr) as Wk. cbn [fst] in Wk.
  constructor; try done.
  - intros k' v' Dk' E. destruct (decide (k' = k)) as [->|Hn]; [by simplify_eq|].
    apply HL in E as [E _]; [|done]. by apply (P1 k').
  - intros k' v' Dk' E. destruct (decide (k' = k)) as [->|Hn].
    + simplify_eq. exists (k, e). split; [by left|done].
    + apply HL in E as [E _]; [|done]. destruct (P2 k' v' Dk' E) as (r & Hin & ?).
      exists r. split; [by right|done].
  - intros r [-> |Hin]%elem_of_cons.
    { exists k, v. rewrite Hprec. split; [done|]. split; [apply kcovers_refl|done]. }
    destruct (P3 r Hin) as (k' & v' & E & Hc & Hle). rewrite EC.
    destruct (decide (k' = k)) as [->|Hn].
    + exists k, v. rewrite Hprec. split_and!; try done.
      etrans; [exact Hle|]. apply (Hbroad k); [done|apply kcovers_refl].
    + destruct (HX k' v' Hn E) as [E'|HPk]; [by exists k', v'|].
      destruct (HP k' v' E HPk) as [Hkk Hp]. exists k, v. rewrite Hprec. split; [done|].
      split; [|lia]. eapply (kcovers_trans _ k k'); eauto. apply (P5 r Hin).
  - intros k1 v1 k2 v2 D1 E1 E2. rewrite EC. intros Hc.
    destruct (decide (k1 = k)) as [->|Hn1], (decide (k2 = k)) as [->|Hn2]; simplify_eq; [done|..].
    + apply HL in E2 as [E2 HnP]; [|done]. rewrite Hprec. by eapply Hnarrow.
    + apply HL in E1 as [E1 _]; [|done]. rewrite Hprec. by eapply Hbroad.
    + apply HL in E1 as [E1 _]; [|done]. apply HL in E2 as [E2 _]; [|done]. by eapply P4.
  - intros r [-> |Hin]%elem_of_cons; [done|by apply P5].
Qed.

(** ** Insertion *)

Lemma covered_by_true ms key bail : ms_inv ms → wf_key key → covered_by ms key bail = true →
  ∃ k v, ms_entries ms !! k = Some v ∧ kcovers (clusterInfo ms) k key ∧ bail k v = true.
Proof.
  intros I W. unfold covered_by. rewrite existsb_exists. intros ([k v] & Hin & Hb).
  apply list_elem_of_In, elem_of_entries_of in Hin as [Hk E]. apply covering_keys in Hk as [_ Hk]; try done.
  eauto.
Qed.

Lemma covered_by_false ms key bail : ms_inv ms → wf_key key → covered_by ms key bail = false →
  ∀ k v, ms_entries ms !! k = Some v → kcovers (clusterInfo ms) k key → bail k v = false.
Proof.
  intros I W Hf k v E Hc. destruct (bail k v) eqn:Eb; [|done].
  rewrite <- Hf. symmetry. apply existsb_exists. exists (k, v). split; [|done].
  apply list_elem_of_In, elem_of_entries_of. split; [|done].
  apply covering_keys; try done. split; [by exists v|done].
Qed.

(** What [pruneAggregated] removes. *)
Definition duplicates ms key e (k : Key) (v : mapStateEntry) : Prop :=
  Key_LPMKey k = Key_LPMKey key ∧ Identity key ≠ Identity k ∧
  aggregateFor (Identity k) (clusterInfo ms) = Identity key ∧ equivalent v e = true.

Definition finish ms key e ch : mapState TR * ChangeState :=
  let s := pruneAggregated ms key e ch in (addKeyWithChanges s.1 key e s.2).1.

Lemma finish_inserts Q ms ms1 k e ch :
  removes Q ms ms1 → wf_key k → plain_entry e →
  (∀ v0, ms_entries ms !! k = Some v0 → plain_entry v0 ∧ Precedence v0 ≤ Precedence e) →
  inserts (λ k' v', Q k' v' ∨ duplicates ms k e k' v') ms k e (finish ms1 k e ch).1.
Proof.
  intros HR W He Hself. unfold finish.
  pose proof (pruneAggregated_removes ms1 k e ch (rem_inv _ _ _ HR) W) as HR2.
  pose proof (removes_trans _ _ _ _ _ HR HR2) as HR3. rewrite (rem_cinfo _ _ _ HR) in HR3.
  set (s := pruneAggregated ms1 k e ch) in *. clear HR2.
  destruct (addKey_plain s.1 k e s.2 (rem_inv _ _ _ HR3) W He) as (I & EC & v & Ent & Hv & Hp).
  { intros v0 E. apply (rem_left _ _ _ HR3) in E as [E _]. by apply Hself. }
  constructor; [done|by rewrite EC, (rem_cinfo _ _ _ HR3)|..].
  - exists v. by rewrite Ent, lookup_insert_eq.
  - intros k' v' Hn. rewrite Ent, lookup_insert_ne by done. apply (rem_left _ _ _ HR3).
  - intros k' v' Hn. rewrite Ent, lookup_insert_ne by done. apply (rem_lost _ _ _ HR3).
Qed.

Lemma duplicates_covered ms k e k' v' : duplicates ms k e k' v' →
  kcovers (clusterInfo ms) k k' ∧ Precedence v' = Precedence e.
Proof.
  intros (El & _ & Ha & Heq%equivalent_entry). split; [|by rewrite Heq].
  split; [|by right]. rewrite El. apply lpm_le_refl.
Qed.

(** The common part of the three branches. *)
Lemma finish_policy cond ms R ms1 k e ch :
  policy_inv ms R → rule_ok (k, e) → D k →
  removes (λ k' v', kcovers (clusterInfo ms) k k' ∧ cond k' v' = true) ms ms1 →
  (∀ k' v', ms_entries ms !! k' = Some v' → kcovers (clusterInfo ms) k' k →
     Precedence v' ≤ Precedence e) →
  (∀ k' v', cond k' v' = true → Precedence v' ≤ Precedence e) →
  (∀ k' v', k' ≠ k → D k' → ms_entries ms !! k' = Some v' → kcovers (clusterInfo ms) k k' →
     cond k' v' = false → Precedence e ≤ Precedence v') →
  policy_inv (finish ms1 k e ch).1 ((k, e) :: R).
Proof.
  intros Pol Hr Dk HR Hbroad Hcond Hnarrow.
  eapply policy_insert; [done|done|done|eapply finish_inserts; [exact HR|apply Hr|apply Hr|]|..].
  - intros v0 E. split; [by eapply pol_plain|]. eapply Hbroad; [done|apply kcovers_refl].
  - intros k' v' E [[Hc Hb]|Hd]; [split; [done|by eapply Hcond]|].
    destruct (duplicates_covered _ _ _ _ _ Hd) as [? ->]. done.
  - done.
  - intros k' v' Hn Dk' E HnP Hc. destruct (cond k' v') eqn:Ec; [tauto|]. by eapply Hnarrow.
Qed.

Lemma insert_policy ms R tier k e features ch :
  policy_inv ms R → rule_ok (k, e) → D k →
  contains features passRules = false →
  (contains features precedenceFeatures = true ∨
   ∀ r : rule, r ∈ R → Precedence r.2 = Precedence e) →
  policy_inv (insertWithChanges ms tier k e features ch).1 ((k, e) :: R).
Proof.
  intros Pol Hr Dk Hpass Hfeat. pose proof (pol_inv _ _ Pol) as I.
  pose proof (rule_wf _ Hr) as W. cbn [fst] in W.
  unfold insertWithChanges. fold finish. rewrite Hpass.
  destruct (aggregateIsEquivalent ms k e) eqn:Ea.
  { unfold aggregateIsEquivalent in Ea. destruct (_ =? _); [done|].
    destruct (ms_entries ms !! _) as [v|] eqn:E; [|done]. apply equivalent_entry in Ea.
    eapply policy_skip; [done|done|done|exact E| |by rewrite Ea].
    split; [apply lpm_le_refl|by right]. }
  destruct (MapStateEntry_IsDeny e); [|destruct (contains features precedenceFeatures) eqn:Ef].
  - destruct (covered_by _ _ _) eqn:Ec.
    { destruct (covered_by_true _ _ _ I W Ec) as (k' & v' & E & Hc & Hb).
      eapply policy_skip; [done|done|done|exact E|done|].
      rewrite andb_true_iff, orb_true_iff, andb_true_iff, Z.ltb_lt, Z.eqb_eq in Hb. lia. }
    pose proof (covered_by_false _ _ _ I W Ec) as Hnb. cbn beta in Hnb.
    eapply finish_policy; [done|done|done|by apply delete_covered_removes|..].
    + intros k' v' E Hc. specialize (Hnb k' v' E Hc).
      rewrite (plain_valid _ (pol_plain _ _ Pol _ _ (HD _ _ _ Hc Dk) E)) in Hnb. simpl in Hnb.
      apply orb_false_iff in Hnb as [Hnb%Z.ltb_ge _]. done.
    + intros k' v'. rewrite orb_true_iff, andb_true_iff, Z.ltb_lt, Z.eqb_eq. lia.
    + intros k' v' Hn Dk' E Hc [Hl%Z.ltb_ge _]%orb_false_iff. done.
  - destruct (covered_by _ _ _) eqn:Ec.
    { destruct (covered_by_true _ _ _ I W Ec) as (k' & v' & E & Hc & Hb).
      eapply policy_skip; [done|done|done|exact E|done|].
      rewrite andb_true_iff, Z.ltb_lt in Hb. lia. }
    pose proof (covered_by_false _ _ _ I W Ec) as Hnb. cbn beta in Hnb.
    eapply finish_policy; [done|done|done|by apply delete_covered_removes|..].
    + intros k' v' E Hc. specialize (Hnb k' v' E Hc).
      rewrite (plain_valid _ (pol_plain _ _ Pol _ _ (HD _ _ _ Hc Dk) E)) in Hnb. by apply Z.ltb_ge in Hnb.
    + intros k' v'. rewrite Z.ltb_lt. lia.
    + intros k' v' Hn Dk' E Hc Hl%Z.ltb_ge. done.
  - destruct Hfeat as [|Hsame]; [done|].
    assert (HS : ∀ k' v', D k' → ms_entries ms !! k' = Some v' → Precedence v' = Precedence e).
    { intros k' v' Dk' E. destruct (pol_sound _ _ Pol k' v' Dk' E) as (r & Hin & _ & <-). by apply Hsame. }
    apply (finish_policy (λ _ _, false) ms R ms); try done.
    + apply removes_none; [done|]. intros k' v' _ [_ ?]. done.
    + intros k' v' E Hc. by rewrite (HS k' v' (HD _ _ _ Hc Dk) E).
    + intros k' v' _ Dk' E Hc _. by rewrite (HS k' v' Dk' E).
Qed.

(** ** Lookup *)

Lemma pol_ordered_state dir ms R : (∀ k, TrafficDirection k = dir → D k) → policy_inv ms R → ordered dir ms.
Proof.
  intros Hdir Pol. constructor; [apply Pol| |].
  - intros k v Dk E _. apply (plain_wf _ (pol_plain _ _ Pol _ _ (Hdir k Dk) E)).
  - intros k v k' v' Dk E _ E' _ Hc. apply (pol_ordered _ _ Pol k v k' v'); [|done..].
    apply Hdir. destruct Hc as [[Ed _] _]. by rewrite <- Ed.
Qed.

(** ** Removal of an identity *)

Definition delete_keys (s : mapState TR * ChangeState) (ks : list Key) : mapState TR * ChangeState :=
  foldl (λ s k, deleteKeyWithChanges s.1 k s.2) s ks.

Lemma delete_keys_removes ks s : ms_inv s.1 → removes (λ k _, k ∈ ks) s.1 (delete_keys s ks).1.
Proof.
  revert s. induction ks as [|k ks IH]; intros s I.
  { apply removes_none; [done|]. intros k v _. apply not_elem_of_nil. }
  cbn [delete_keys foldl]. set (s1 := deleteKeyWithChanges s.1 k s.2).
  assert (Es : s1.1 = ms_delete s.1 k) by apply deleteKey_state.
  assert (I1 : ms_inv s1.1) by (rewrite Es; by apply delete_inv).
  pose proof (IH s1 I1) as HR. fold (delete_keys s1 ks).
  assert (H1 : removes (λ k' _, k' = k) s.1 s1.1).
  { rewrite Es. destruct (ms_entries s.1 !! k) as [v|] eqn:E.
    - eapply removes_iff; [|by apply (removes_one (λ _ _, True) s.1 k v)]. cbn. tauto.
    - unfold ms_delete. rewrite E. apply removes_none; [done|]. intros k' v' E' ->. congruence. }
  eapply removes_iff; [|eapply removes_trans; [exact H1|exact HR]].
  intros k' v' _. rewrite elem_of_cons. done.
Qed.

Lemma deleteId_keys ms id ch m : byId ms = Some m →
  deleteIdWithChanges ms id ch =
  delete_keys (ms, ch) ((λ l, mkKey l id) <$> range (default ∅ (m !! id))).
Proof.
  intros E. unfold deleteIdWithChanges, delete_keys. rewrite E. cbn [mbind option_bind].
  destruct (m !! id) as [s|].
  - change (default ∅ (Some s)) with s. generalize (range s) as l. generalize (ms, ch). intros s0 l. revert s0.
    induction l as [|x l IH]; intros s0; [done|]. cbn. apply IH.
  - change (default ∅ None) with (∅ : gset LPMKey).
    assert (range (∅ : gset LPMKey) = []) as ->; [|done].
    apply Permutation_nil_r. rewrite range_perm, elements_empty. done.
Qed.

(** Deleting keys of the identity [id] that include those of its rules. *)
Lemma delete_identity_policy ms R id ks ch :
  policy_inv ms R → aggregateFor id (clusterInfo ms) ≠ id →
  (∀ k, k ∈ ks → Identity k = id) →
  (∀ k, present ms k → Identity k = id → k ∈ ks) →
  policy_inv (delete_keys (ms, ch) ks).1 (filter (λ r : rule, Identity r.1 ≠ id) R).
Proof.
  intros Pol Hagg Hid Hks. pose proof (delete_keys_removes ks (ms, ch) (pol_inv _ _ Pol)) as HR.
  cbn [fst] in HR. destruct Pol as [I P1 P2 P3 P4 P5]. destruct HR as [I' EC HL HX].
  constructor; try done.
  - intros k v Dk [E _]%HL. by apply (P1 k).
  - intros k v Dk [E Hn]%HL. destruct (P2 k v Dk E) as (r & Hin & Er & Hp). exists r. split; [|done].
    apply list_elem_of_filter. split; [|done]. rewrite Er. intros Hk. apply Hn, Hks; [by exists v|done].
  - intros r [Hr Hin]%list_elem_of_filter. destruct (P3 r Hin) as (k & v & E & Hc & Hle).
    rewrite EC. exists k, v. split; [|done]. destruct (HX k v E) as [|Hk]; [done|].
    apply Hid in Hk. destruct Hc as [_ [Hc|Hc]]; [congruence|].
    destruct Hagg. rewrite <- Hk, Hc. apply aggregateFor_idem.
  - intros k v k' v' Dk [E _]%HL [E' _]%HL. rewrite EC. by apply P4.
  - intros r [_ Hin]%list_elem_of_filter. by apply P5.
Qed.

Lemma new_policy ids features cinfo : policy_inv (newMapState ids features cinfo) [].
Proof. clear HD. constructor; try (intros; set_solver); apply newMapState_inv. Qed.

(** What the policy of the rules says of a key. *)
Definition decides (cinfo : ClusterInfo) (R : list rule) (key : Key) (res : mapStateEntry * bool) : Prop :=
  match res with
  | (v, true) =>
      (∃ r : rule, r ∈ R ∧ kcovers cinfo r.1 key ∧ Precedence r.2 = Precedence v) ∧
      ∀ r : rule, r ∈ R → kcovers cinfo r.1 key → Precedence r.2 ≤ Precedence v
  | (v, false) =>
      MapStateEntry_IsDeny v = true ∧ ∀ r : rule, r ∈ R → ¬ kcovers cinfo r.1 key
  end.

Lemma lookup_decides ms R key : (∀ k, TrafficDirection k = TrafficDirection key → D k) → policy_inv ms R → wf_key key →
  decides (clusterInfo ms) R key (lookup ms key).
Proof.
  intros HK Pol W. pose proof (lookup_entries ms key (pol_ordered_state _ _ _ HK Pol) W) as HL.
  assert (HV : ∀ k v, kcovers (clusterInfo ms) k key → ms_entries ms !! k = Some v → IsValid v = true)
    by (intros k v Hk E; apply (pol_plain _ _ Pol k v); [apply HK, Hk|done]).
  assert (HC : ∀ r : rule, r ∈ R → kcovers (clusterInfo ms) r.1 key →
    ∃ k v, ms_entries ms !! k = Some v ∧ kcovers (clusterInfo ms) k key ∧ Precedence r.2 ≤ Precedence v).
  { intros r Hin Hc. destruct (pol_complete _ _ Pol r Hin) as (k & v & E & Hk & Hle).
    exists k, v. split; [done|]. split; [|done].
    eapply kcovers_trans; [by eapply pol_wf|apply (pol_rules _ _ Pol r Hin)|done|done|done]. }
  destruct (lookup ms key) as [v []]; cbn [decides].
  - destruct HL as [(k & E & _ & Hk) Hmax]. split.
    + destruct (pol_sound _ _ Pol k v) as (r & Hin & Er & Hp); [apply HK, Hk|done|]. exists r.
      split_and!; try done. by rewrite Er.
    + intros r Hin Hc. destruct (HC r Hin Hc) as (k' & v' & E' & Hc' & Hle).
      pose proof (Hmax k' v' E' (HV _ _ Hc' E') Hc'). lia.
  - destruct HL as [-> Hn]. split; [done|]. intros r Hin Hc.
    destruct (HC r Hin Hc) as (k' & v' & E' & Hc' & _). by destruct (Hn k' v' E' (HV _ _ Hc' E')).
Qed.
End scope.

Lemma every_closed : closed every.
Proof. done. Qed.

(** ** The cluster configuration never changes *)

Lemma addKey_clusterInfo ms k e ch :
  clusterInfo (addKeyWithChanges ms k e ch).1.1 = clusterInfo ms.
Proof.
  unfold addKeyWithChanges, ms_get, ms_insert. destruct (ms_entries ms !! k); [|apply upsert_clusterInfo].
  destruct (mapStateEntry_Equal _ _); [done|]. destruct (MergeClone _ _). by repeat case_match.
Qed.

Lemma delete_loop_clusterInfo l (cond : Key → mapStateEntry → bool) s :
  clusterInfo (for_keys (TR:=TR) l (λ k v s, if cond k v then deleteExistingWithChanges s.1 k v s.2 else s) s).1 =
  clusterInfo s.1.
Proof.
  revert s. induction l as [|k l IH]; intros s; [done|]. rewrite for_keys_cons, IH.
  destruct (ms_entries s.1 !! k) as [v|]; [|done]. destruct (cond k v); [|done].
  by rewrite deleteExisting_state, ms_delete_clusterInfo.
Qed.

Lemma finish_clusterInfo ms k e ch : clusterInfo (finish ms k e ch).1 = clusterInfo ms.
Proof.
  unfold finish. rewrite addKey_clusterInfo. unfold pruneAggregated.
  destruct (negb _); [done|]. destruct (trie_ExactLookup _ _ _); [|done].
  apply (delete_loop_clusterInfo _ (λ _ v, equivalent v e)).
Qed.

Lemma insert_clusterInfo ms tier k e features ch : contains features passRules = false →
  clusterInfo (insertWithChanges ms tier k e features ch).1 = clusterInfo ms.
Proof.
  intros Hf. unfold insertWithChanges. rewrite Hf. destruct (aggregateIsEquivalent _ _ _); [done|].
  destruct (MapStateEntry_IsDeny e); [destruct (covered_by _ _ _); [done|]|
    destruct (contains features precedenceFeatures); [destruct (covered_by _ _ _); [done|]|]].
  - etrans; [apply finish_clusterInfo|]. apply delete_loop_clusterInfo.
  - etrans; [apply finish_clusterInfo|].
    apply (delete_loop_clusterInfo _ (λ _ v, Precedence v <? Precedence e)).
  - apply finish_clusterInfo.
Qed.

Lemma delete_keys_clusterInfo ks s : clusterInfo (delete_keys s ks).1 = clusterInfo s.1.
Proof.
  revert s. induction ks as [|k ks IH]; intros s; [done|]. cbn. etrans; [apply IH|].
  by rewrite deleteKey_state, ms_delete_clusterInfo.
Qed.

(** ** Histories *)

(** What reaches an endpoint's map state: rules, and removals of identities with
    the keys accumulated for them. *)
Inductive event :=
  | AddRule (tier : Z) (r : rule)
  | DelIdentity (id : Z) (ks : list Key).

(** One change of [consumeMapChanges]. *)
Definition apply_event (features : Z) (s : mapState TR * ChangeState) (ev : event)
  : mapState TR * ChangeState :=
  match ev with
  | AddRule tier r => insertWithChanges s.1 tier r.1 r.2 features s.2
  | DelIdentity id ks =>
      match byId s.1 with
      | Some _ => deleteIdWithChanges s.1 id s.2
      | None => delete_keys s ks
      end
  end.

(** The rules in force. *)
Definition rules_after (R : list rule) (ev : event) : list rule :=
  match ev with
  | AddRule _ r => r :: R
  | DelIdentity id _ => filter (λ r : rule, Identity r.1 ≠ id) R
  end.

(** What callers ensure: rules without pass verdicts, of one precedence unless the
    precedence features are on; only leaf identities are removed, with all keys of
    their rules. *)
Definition event_ok (features : Z) (cinfo : ClusterInfo) (R : list rule) (ev : event) : Prop :=
  match ev with
  | AddRule _ r =>
      rule_ok r ∧ (contains features precedenceFeatures = true ∨
                   ∀ r' : rule, r' ∈ R → Precedence r'.2 = Precedence r.2)
  | DelIdentity id ks =>
      aggregateFor id cinfo ≠ id ∧ (∀ k, k ∈ ks → Identity k = id) ∧
      ∀ r : rule, r ∈ R → Identity r.1 = id → r.1 ∈ ks
  end.

Fixpoint history_ok (features : Z) (cinfo : ClusterInfo) (R : list rule) (evs : list event) : Prop :=
  match evs with
  | [] => True
  | ev :: evs => event_ok features cinfo R ev ∧ history_ok features cinfo (rules_after R ev) evs
  end.

Lemma apply_event_policy features s ev R :
  policy_inv every s.1 R → contains features passRules = false →
  event_ok features (clusterInfo s.1) R ev →
  policy_inv every (apply_event features s ev).1 (rules_after R ev).
Proof.
  intros Pol Hf He. destruct ev as [tier [k e]|id ks]; cbn [apply_event rules_after].
  - destruct He as [Hr Hp]. by apply (insert_policy every every_closed).
  - destruct He as (Ha & Hid & Hks). destruct (byId s.1) as [m|] eqn:Em.
    + rewrite (deleteId_keys _ _ _ m Em). destruct s as [ms ch]. cbn [fst] in *.
      pose proof (inv_byId _ (pol_inv _ _ _ Pol) m Em) as HB.
      apply (delete_identity_policy every ms R id _ ch Pol Ha).
      * intros k (l & -> & _)%list_elem_of_fmap. done.
      * intros k Hp Hk. apply list_elem_of_fmap. exists (Key_LPMKey k).
        split; [by rewrite <- Hk, Key_eta|]. rewrite range_perm, elem_of_elements.
        rewrite <- (Key_eta k), Hk in Hp. apply HB in Hp as (s & -> & Hl). done.
    + destruct s as [ms ch]. apply (delete_identity_policy every); try done.
      intros k [v Hv] Hk. destruct (pol_sound _ _ _ Pol k v ltac:(done) Hv) as (r & Hin & <- & _). by apply Hks.
Qed.

Lemma apply_event_clusterInfo features s ev : contains features passRules = false →
  clusterInfo (apply_event features s ev).1 = clusterInfo s.1.
Proof.
  intros Hf. destruct ev as [tier r|id ks]; cbn [apply_event]; [by apply insert_clusterInfo|].
  destruct (byId s.1) as [m|] eqn:E; [|apply delete_keys_clusterInfo].
  rewrite (deleteId_keys _ _ _ m E). apply (delete_keys_clusterInfo _ (s.1, s.2)).
Qed.

Definition run (features : Z) (s : mapState TR * ChangeState) (evs : list event) :=
  foldl (apply_event features) s evs.

Definition rules_of (evs : list event) : list rule := foldl rules_after [] evs.

Lemma run_policy features evs : contains features passRules = false → ∀ s R,
  policy_inv every s.1 R → history_ok features (clusterInfo s.1) R evs →
  policy_inv every (run features s evs).1 (foldl rules_after R evs) ∧
  clusterInfo (run features s evs).1 = clusterInfo s.1.
Proof.
  intros Hf. induction evs as [|ev evs IH]; intros s R Pol Hh; [done|].
  destruct Hh as [He Hh]. cbn [run foldl].
  pose proof (apply_event_policy features s ev R Pol Hf He) as Pol'.
  pose proof (apply_event_clusterInfo features s ev Hf) as EC.
  rewrite <- EC in Hh. destruct (IH _ _ Pol' Hh) as [? EC']. split; [done|].
  etrans; [exact EC'|done].
Qed.

Lemma run_decides ids features cinfo ch evs key :
  contains features passRules = false → history_ok features cinfo [] evs → wf_key key →
  decides cinfo (rules_of evs) key
    (lookup (run features (newMapState ids features cinfo, ch) evs).1 key).
Proof.
  intros Hf Hh W.
  destruct (run_policy features evs Hf (newMapState ids features cinfo, ch) []
    (new_policy every ids features cinfo) Hh) as [Pol EC].
  cbn [fst] in EC. change (clusterInfo (newMapState ids features cinfo)) with cinfo in EC.
  pose proof (lookup_decides every _ _ key ltac:(done) Pol W) as HD. rewrite EC in HD. exact HD.
Qed.

(** ** Properties *)

(** C17. The policy is enforced: after any history of rule insertions and identity
    removals, the lookup of a well-formed key finds an entry exactly when a rule in
    force covers the key, and the entry has the highest precedence among those rules;
    otherwise it denies.  The history has no pass rules (nor the feature for them), its
    rules have well-formed keys, and without the precedence features all rules in force
    have one precedence; only identities that are no aggregates are removed, with the
    keys of all their rules. *)
Theorem policy_history_lookup ids features cinfo ch evs key :
  contains features passRules = false → history_ok features cinfo [] evs → wf_key key →
  decides cinfo (rules_of evs) key
    (lookup (run features (newMapState ids features cinfo, ch) evs).1 key).
Proof.
  intros. by apply run_decides.
Qed.

(** The order in which the rules arrive does not matter: two histories that
    leave the same rules in force give every key the same verdict and precedence. *)
Theorem policy_order_irrelevant ids features cinfo ch evs evs' key :
  contains features passRules = false →
  history_ok features cinfo [] evs → history_ok features cinfo [] evs' →
  (∀ r, r ∈ rules_of evs ↔ r ∈ rules_of evs') → wf_key key →
  let res := lookup (run features (newMapState ids features cinfo, ch) evs).1 key in
  let res' := lookup (run features (newMapState ids features cinfo, ch) evs').1 key in
  res.2 = res'.2 ∧ Precedence res.1 = Precedence res'.1.
Proof.
  intros Hf Hh Hh' HR W res res'.
  assert (HN : ∀ l, (lookup (run features (newMapState ids features cinfo, ch) l).1 key).2 = false →
    Precedence (lookup (run features (newMapState ids features cinfo, ch) l).1 key).1 = MaxDenyPrecedence).
  { intros l. unfold lookup. by repeat case_match. }
  pose proof (run_decides ids _ _ ch _ _ Hf Hh W) as H1. pose proof (run_decides ids _ _ ch _ _ Hf Hh' W) as H2.
  pose proof (HN evs) as N1. pose proof (HN evs') as N2. fold res in H1, N1. fold res' in H2, N2.
  destruct res as [v b], res' as [v' b']. cbn [fst snd] in *.
  destruct b, b'; cbn [decides] in H1, H2.
  - split; [done|]. destruct H1 as [(r & Hr & Hc & <-) M1], H2 as [(r' & Hr' & Hc' & <-) M2].
    apply Z.le_antisymm; [apply M2; [by apply HR|done]|apply M1; [by apply HR|done]].
  - destruct H1 as [(r & Hr & Hc & _) _], H2 as [_ Hn]. destruct (Hn r); [by apply HR|done].
  - destruct H2 as [(r & Hr & Hc & _) _], H1 as [_ Hn]. destruct (Hn r); [by apply HR|done].
  - split; [done|]. by rewrite N1, N2.
Qed.
End policy.

(** ** A run *)

Definition demo_leaf : Z := 100000.
Definition demo_web : Key := WithTCPPort (WithIdentity IngressKey demo_leaf) 80.

(** An allow rule for the cluster, a deny rule for one identity and port, and an
    allow rule of higher priority for a range of ports. *)
Definition demo_rules : list (Key * mapStateEntry) :=
  [(WithIdentity IngressKey ReservedIdentityAggregateCluster,
    newMapStateEntry 100 0 1000 NilRuleOrigin 0 0 Allow);
   (demo_web, newMapStateEntry 50 0 1000 NilRuleOrigin 0 0 Deny);
   (WithTCPPortPrefix (WithIdentity IngressKey ReservedIdentityAggregateCluster) 80 12,
    newMapStateEntry 10 0 1000 NilRuleOrigin 0 0 Allow)].

Definition demo_history : list event := AddRule MaxPrecedence <$> demo_rules.

Lemma demo_rules_ok : Forall rule_ok demo_rules.
Proof.
  assert (HR : ∀ r, r ∈ demo_rules → rule_ok r); [|by apply Forall_forall].
  intros r. unfold demo_rules. rewrite !elem_of_cons, elem_of_nil.
  intros [-> |[-> |[-> |[]]]]; repeat split; first [vm_compute; congruence|intros; vm_compute in *; congruence].
Qed.

Lemma demo_history_ok : history_ok precedenceFeatures demo_cluster [] demo_history.
Proof.
  pose proof demo_rules_ok as HR. rewrite Forall_forall in HR.
  cbn. split_and!; try done; try (left; reflexivity); apply HR; set_solver.
Qed.

(** The rules, then the removal of the identity. *)
Definition demo_removal : list event := demo_history ++ [DelIdentity demo_leaf [demo_web]].

Lemma demo_removal_ok : history_ok precedenceFeatures demo_cluster [] demo_removal.
Proof.
  pose proof demo_rules_ok as HR. rewrite Forall_forall in HR.
  cbn. split_and!; try done; try (left; reflexivity); try (apply HR; set_solver).
  - intros k ->%list_elem_of_singleton. reflexivity.
  - intros r. rewrite !elem_of_cons, elem_of_nil.
    intros [-> |[-> |[-> |[]]]] E; try discriminate E. by left.
Qed.

Lemma policy_history_lookup_witness :
  let ms := (run (TR:=bitlpm) (GR:=range_elements) precedenceFeatures
    (newMapState ∅ precedenceFeatures demo_cluster, mkChangeState None None None) demo_removal).1 in
  (lookup ms demo_web).2 = true ∧ MapStateEntry_IsDeny (lookup ms demo_web).1 = false ∧
  decides demo_cluster (rules_of demo_removal) demo_web (lookup ms demo_web).
Proof.
  cbn zeta. split; [vm_compute; reflexivity|]. split; [vm_compute; reflexivity|].
  apply (policy_history_lookup (TR:=bitlpm) (TL:=bitlpm_TrieLaws) (GR:=range_elements));
    [reflexivity|apply demo_removal_ok|].
  repeat split; vm_compute; congruence.
Defined.

Lemma policy_order_irrelevant_witness :
  let run' evs := (run (TR:=bitlpm) (GR:=range_elements) precedenceFeatures
    (newMapState ∅ precedenceFeatures demo_cluster, mkChangeState None None None) evs).1 in
  Precedence (lookup (run' demo_history) demo_web).1 =
  Precedence (lookup (run' (reverse demo_history)) demo_web).1.
Proof.
  cbn zeta. pose proof demo_rules_ok as HR. rewrite Forall_forall in HR.
  apply (policy_order_irrelevant (TR:=bitlpm) (TL:=bitlpm_TrieLaws) (GR:=range_elements)
    ∅ precedenceFeatures demo_cluster (mkChangeState None None None) demo_history
    (reverse demo_history) demo_web);
    [reflexivity|apply demo_history_ok| | |repeat split; vm_compute; congruence].
  - cbn. split_and!; try done; try (left; reflexivity); apply HR; set_solver.
  - intros r. cbn. set_solver.
Defined.
