(* ===== verification/PolicyRule.v ===== *)
(** * Policy rules

    The rules the policy engine resolves: [types.PolicyEntry]
    ([src/pkg/policy/types/policyentry.go]) with the port rules and layer 7 rules of
    [src/pkg/policy/api] it refers to, their comparisons, protocol numbers
    ([src/pkg/u8proto]) and the reading of port strings ([src/pkg/iana],
    [strconv.ParseUint]).  Errors are values of [error], the run-time panics of an
    index out of range and of a nil pointer among them.

    A selector is its key: the selector cache keeps one cached selector per key. *)

From Stdlib Require Import QArith Ascii.
From stdpp Require Import pretty.
From S2P Require Import Prelude Precedence BitLPM PolicyKey RuleOrigin PassMeta MapState.

Local Open Scope Z_scope.

(** ** Errors *)

Inductive error :=
  | ErrTooManyPriorityLevels
  | ErrUnorderedTiers
  | ErrInvalidTier
  | ErrUnorderedRules
  | ErrDifferentTiers
  | ErrConflictingParsers
  | ErrConflictingListeners
  | ErrConflictingTLS
  | ErrServerNamesWithL7
  | ErrTLSContext
  | ErrListenerKind
  | IndexOutOfRange
  | NilPointer.

(** Indexing a slice. *)
Definition index {A} (l : list A) (i : Z) : error + A :=
  match l !! Z.to_nat i with Some x => inr x | None => inl IndexOutOfRange end.

Definition store {A} (l : list A) (i : Z) (x : A) : error + list A :=
  match l !! Z.to_nat i with Some _ => inr (<[Z.to_nat i := x]> l) | None => inl IndexOutOfRange end.

Definition sbind {A B} (m : error + A) (f : A → error + B) : error + B :=
  match m with inl e => inl e | inr x => f x end.

Declare Scope tier_scope.
Notation "x '<~' m ';;' k" := (sbind m (λ x, k)) (at level 100, m at next level, right associativity) : tier_scope.
Open Scope tier_scope.

Lemma sbind_assoc {A B C} (m : error + A) (f : A → error + B) (g : B → error + C) :
  sbind (sbind m f) g = sbind m (λ x, sbind (f x) g).
Proof. by destruct m. Qed.

Lemma sbind_inr {A B} (m : error + A) (f : A → error + B) y :
  sbind m f = inr y ↔ ∃ x, m = inr x ∧ f x = inr y.
Proof. destruct m as [e|x]; simpl; naive_solver. Qed.

(** A loop over a slice that returns at the first error. *)
Fixpoint each {A S} (f : S → A → error + S) (s : S) (l : list A) : error + S :=
  match l with
  | [] => inr s
  | x :: l => s <~ f s x;; each f s l
  end.

Lemma each_app {A S} (f : S → A → error + S) l1 l2 : ∀ s, each f s (l1 ++ l2) = sbind (each f s l1) (λ s, each f s l2).
Proof. induction l1 as [|x l1 IH]; intros s; simpl; [done|]. destruct (f s x); simpl; [done|apply IH]. Qed.

(** An invariant of the states of a loop that succeeds, which may depend on the
    elements seen. *)
Lemma each_ind {A S} (f : S → A → error + S) (I : list A → S → Prop) l s s' :
  (∀ l1 x l2 s s', l = l1 ++ x :: l2 → I l1 s → f s x = inr s' → I (l1 ++ [x]) s') →
  I [] s → each f s l = inr s' → I l s'.
Proof.
  intros Hstep. assert (HG : ∀ l1 l2 s, l = l1 ++ l2 → I l1 s → each f s l2 = inr s' → I l s').
  { intros l1 l2. revert l1. induction l2 as [|x l2 IH]; intros l1 t El HI; simpl.
    - intros [= <-]. by rewrite app_nil_r in El; subst.
    - intros (t' & E1 & E2)%sbind_inr. apply (IH (l1 ++ [x]) t'); [by rewrite <- app_assoc| |done].
      by apply (Hstep l1 x l2 t). }
  intros HI. by apply (HG [] l).
Qed.

(** ** Protocols *)

Definition ProtoTCP : string := "TCP".
Definition ProtoUDP : string := "UDP".
Definition ProtoSCTP : string := "SCTP".
Definition ProtoAny : string := "ANY".

Definition IsAny (l4 : string) : bool := bool_decide (l4 = ProtoAny) || bool_decide (l4 = "").

Definition ProtoIDs : gmap string Z := list_to_map [
  ("all", 0); ("any", 0); ("none", 0); ("icmp", 1); ("igmp", 2); ("ipip", 4); ("tcp", 6); ("udp", 17);
  ("ipv6", 41); ("gre", 47); ("esp", 50); ("ah", 51); ("icmpv6", 58); ("vrrp", 112); ("sctp", 132)].

Definition protoNames : gmap Z string := list_to_map [
  (0, "ANY"); (1, "ICMP"); (2, "IGMP"); (4, "IPIP"); (6, "TCP"); (17, "UDP"); (41, "IPv6"); (47, "GRE");
  (50, "ESP"); (51, "AH"); (58, "ICMPv6"); (112, "VRRP"); (132, "SCTP")].

(** [strings.ToLower] on ASCII. *)
Definition lower (c : ascii) : ascii :=
  let n := Z.of_nat (nat_of_ascii c) in
  if (65 <=? n) && (n <=? 90) then ascii_of_nat (Z.to_nat (n + 32)) else c.

Fixpoint ToLower (s : string) : string :=
  match s with
  | EmptyString => EmptyString
  | String c s => String (lower c) (ToLower s)
  end.

Definition U8proto_String (p : Z) : string :=
  match protoNames !! p with Some n => n | None => pretty (Z.to_N p) end.

Definition ParseProtocol (proto : string) : option Z := ProtoIDs !! ToLower proto.

Definition FromNumber (proto : Z) : option Z :=
  match protoNames !! proto with Some _ => Some proto | None => None end.

(** ** Port strings *)

Definition is_digit (c : ascii) : bool :=
  let n := Z.of_nat (nat_of_ascii c) in (48 <=? n) && (n <=? 57).
Definition is_letter (c : ascii) : bool :=
  let n := Z.of_nat (nat_of_ascii (lower c)) in (97 <=? n) && (n <=? 122).
Definition is_alnum (c : ascii) : bool := is_digit c || is_letter c.

(** The regular expression of [iana.IsSvcName]: letters and digits with single dashes
    between them, of which at least one is a letter.  [dash] is whether a dash may
    follow, [letter] whether a letter was seen. *)
Fixpoint svc_name (dash letter : bool) (l : list ascii) : bool :=
  match l with
  | [] => dash && letter
  | c :: l =>
      if is_alnum c then svc_name true (letter || is_letter c) l
      else if bool_decide (c = "-"%char) && dash then svc_name false letter l
      else false
  end.

Definition IsSvcName (name : string) : bool :=
  let l := String.list_ascii_of_string name in
  (0 <? Z.of_nat (length l)) && (Z.of_nat (length l) <=? 15) && svc_name false false l.

(** [strconv.ParseUint] with base 0 and 16 bits: the value it returns, which is 0 with a
    syntax error and the largest with a range error. *)

(** An underscore separates digits; [prev] is the kind of the character before. *)
Inductive charKind := Begin | Digit | Underscore | Other.

Fixpoint underscores_ok (hex : bool) (prev : charKind) (l : list ascii) : bool :=
  match l with
  | [] => match prev with Underscore => false | _ => true end
  | c :: l =>
      if is_digit c || hex && is_letter c && (Z.of_nat (nat_of_ascii (lower c)) <=? 102)
      then underscores_ok hex Digit l
      else if bool_decide (c = "_"%char)
      then match prev with Digit => underscores_ok hex Underscore l | _ => false end
      else match prev with Underscore => false | _ => underscores_ok hex Other l end
  end.

Definition underscoreOK (l : list ascii) : bool :=
  let l := match l with c :: l' => if bool_decide (c = "-"%char) || bool_decide (c = "+"%char) then l' else l | [] => [] end in
  match l with
  | "0"%char :: c :: l' =>
      if bool_decide (lower c ∈ ["b"; "o"; "x"]%char)
      then underscores_ok (bool_decide (lower c = "x"%char)) Digit l'
      else underscores_ok false Begin l
  | _ => underscores_ok false Begin l
  end.

(** The digits of a number: its value so far, and whether there were underscores; or
    the value returned on an error. *)
Fixpoint parse_digits (base n : Z) (underscores : bool) (l : list ascii) : Z + (Z * bool) :=
  match l with
  | [] => inr (n, underscores)
  | c :: l =>
      if bool_decide (c = "_"%char) then parse_digits base n true l
      else
        let d := if is_digit c then Some (Z.of_nat (nat_of_ascii c) - 48)
                 else if is_letter c then Some (Z.of_nat (nat_of_ascii (lower c)) - 97 + 10) else None in
        match d with
        | None => inl 0
        | Some d =>
            if base <=? d then inl 0
            else let n1 := n * base + d in
                 if 65535 <? n1 then inl 65535 else parse_digits base n1 underscores l
        end
  end.

Definition ParseUint16 (s : string) : Z :=
  let l := String.list_ascii_of_string s in
  let '(base, digits) :=
    match l with
    | "0"%char :: l' =>
        match l' with
        | c :: l'' =>
            if (3 <=? Z.of_nat (length l)) && bool_decide (lower c = "b"%char) then (2, l'')
            else if (3 <=? Z.of_nat (length l)) && bool_decide (lower c = "o"%char) then (8, l'')
            else if (3 <=? Z.of_nat (length l)) && bool_decide (lower c = "x"%char) then (16, l'')
            else (8, l')
        | [] => (8, l')
        end
    | _ => (10, l)
    end in
  match l with
  | [] => 0
  | _ =>
      match parse_digits base 0 false digits with
      | inl v => v
      | inr (n, underscores) => if underscores && negb (underscoreOK l) then 0 else n
      end
  end.

(** ** Layer 7 rules *)

Record HeaderMatch := mkHeaderMatch {
  Mismatch : string;
  hm_Name : string;
  hm_Secret : option (string * string);
  hm_Value : string;
}.

Record PortRuleHTTP := mkHTTP {
  Path : string;
  Method : string;
  Host : string;
  Headers : list string;
  HeaderMatches : list HeaderMatch;
}.

Record PortRuleDNS := mkDNS { MatchName : string; MatchPattern : string }.

Record L7Rules := mkL7Rules { HTTP : list PortRuleHTTP; DNS : list PortRuleDNS }.

#[export] Instance HeaderMatch_eq_dec : EqDecision HeaderMatch.
Proof. solve_decision. Defined.
#[export] Instance PortRuleHTTP_eq_dec : EqDecision PortRuleHTTP.
Proof. solve_decision. Defined.
#[export] Instance PortRuleDNS_eq_dec : EqDecision PortRuleDNS.
Proof. solve_decision. Defined.
#[export] Instance L7Rules_eq_dec : EqDecision L7Rules.
Proof. solve_decision. Defined.

Definition wildcardHTTP : PortRuleHTTP := mkHTTP "" "" "" [] [].
Definition wildcardDNS : PortRuleDNS := mkDNS "" "*".

Definition PortRuleHTTP_Exists (h : PortRuleHTTP) (rules : L7Rules) : bool := bool_decide (h ∈ HTTP rules).
Definition PortRuleDNS_Exists (d : PortRuleDNS) (rules : L7Rules) : bool := bool_decide (d ∈ DNS rules).

Definition L7Rules_Len (r : L7Rules) : Z := Z.of_nat (length (HTTP r)) + Z.of_nat (length (DNS r)).

Definition L7Rules_IsEmpty (r : option L7Rules) : bool :=
  match r with None => true | Some r => L7Rules_Len r =? 0 end.

(** The generated comparison of an unordered array: the lengths, and that every element
    occurs in the other array. *)
Definition unordered_DeepEqual {A} `{EqDecision A} (l1 l2 : list A) : bool :=
  bool_decide (length l1 = length l2) && forallb (λ x, bool_decide (x ∈ l2)) l1.

Definition L7Rules_DeepEqual (a b : L7Rules) : bool :=
  unordered_DeepEqual (HTTP a) (HTTP b) && unordered_DeepEqual (DNS a) (DNS b).

(** ** Port rules *)

Record PortProtocol := mkPortProtocol { pp_Port : string; pp_EndPort : Z; pp_Protocol : string }.

(** [api.TLSContext]: a reference to a secret and its items. *)
Record apiTLSContext := mkAPITLS {
  tls_Secret : option (string * string);
  tls_TrustedCA : string;
  tls_Certificate : string;
  tls_PrivateKey : string;
}.

Record EnvoyListener := mkListener {
  EnvoyConfig_Kind : string;
  EnvoyConfig_Name : string;
  Listener_Name : string;
  Listener_Priority : Z;
}.

Record PortRule := mkPortRule {
  Ports : list PortProtocol;
  pr_TerminatingTLS : option apiTLSContext;
  pr_OriginatingTLS : option apiTLSContext;
  pr_ServerNames : list string;
  pr_Listener : option EnvoyListener;
  pr_Rules : option L7Rules;
}.

#[export] Instance PortProtocol_eq_dec : EqDecision PortProtocol.
Proof. solve_decision. Defined.
#[export] Instance apiTLSContext_eq_dec : EqDecision apiTLSContext.
Proof. solve_decision. Defined.
#[export] Instance EnvoyListener_eq_dec : EqDecision EnvoyListener.
Proof. solve_decision. Defined.
#[export] Instance PortRule_eq_dec : EqDecision PortRule.
Proof. solve_decision. Defined.

(** ** Policy entries *)

(** Priorities are finite floats, which are rationals.  The labels are as
    [ArrayListString] renders the sorted labels of the rule. *)
Record PolicyEntry := mkPolicyEntry {
  Tier : Z;
  Priority : Q;
  pe_Log : string;
  L3 : option (list string);
  L4 : list PortRule;
  Labels : string;
  DefaultDeny : bool;
  pe_Verdict : Verdict;
  pe_Ingress : bool;
}.

#[export] Instance Q_eq_dec : EqDecision Q.
Proof. solve_decision. Defined.
#[export] Instance Verdict_eq_dec : EqDecision Verdict.
Proof. solve_decision. Defined.
#[export] Instance PolicyEntry_eq_dec : EqDecision PolicyEntry.
Proof. solve_decision. Defined.

Definition is_pass_verdict (v : Verdict) : bool := match v with Pass => true | _ => false end.

Definition PolicyEntry_IsDeny (e : PolicyEntry) : bool := bool_decide (pe_Verdict e = Deny).
Definition PolicyEntry_IsAllow (e : PolicyEntry) : bool := bool_decide (pe_Verdict e = Allow).

(** [rule.origin]. *)
Definition rule_origin (e : PolicyEntry) : ruleOrigin := makeRuleOrigin (Labels e) [pe_Log e].

(** A rule that matters only by its place in the order. *)
Definition order_entry (tier : Z) (priority : Q) (v : Verdict) (labels : string) : PolicyEntry :=
  mkPolicyEntry tier priority "" (Some []) [] labels false v true.
