(* ===== verification/TierOrder.v ===== *)
(** * The order of tiered policies

    A policy with tiers and pass verdicts, and the precedence an allow or deny rule
    has at a key: the word of the rule lifted by the highest pass of every earlier
    tier that covers the key.  The lifted words are ordered like the evaluation of
    the tiers, provided the words of a tier leave room after each pass for the words
    of the later tiers, which [TierPriorities] shows of the priorities the program
    assigns. *)

From S2P Require Import Prelude Precedence BitLPM PolicyKey Identity RuleOrigin PassMeta.
From S2P Require Import MapState MapStateIndex MapStatePolicy.

Local Open Scope Z_scope.

#[export] Instance kcovers_dec cinfo a b : Decision (kcovers cinfo a b).
Proof. unfold kcovers, lpm_le, port_le. apply _. Defined.

(** A rule: its tier, its key, and the entry it inserts. *)
Record trule := mkRule { tr_tier : nat; tr_key : Key; tr_entry : mapStateEntry }.

#[export] Instance trule_eq_dec : EqDecision trule.
Proof. solve_decision. Defined.

Definition is_pass (r : trule) : bool := IsPassEntry (tr_entry r).

(** The precedence of the verdict, or of the pass. *)
Definition word (r : trule) : Z :=
  match passes (tr_entry r) with
  | Some (m :: _) => pm_precedence m
  | _ => Precedence (tr_entry r)
  end.

(** ** Elevation *)

Section elevation.
(** The lowest precedence of each tier. *)
Context (Lmin : nat → Z).

(** How much the pass of a tier lifts the entries of later tiers. *)
Definition tier_lift (f : nat → option Z) (i : nat) : Z :=
  match f i with Some m => m - Lmin i | None => 0 end.

(** A word of tier [i + d] lifted by the passes of the tiers from [i] on. *)
Fixpoint elev (f : nat → option Z) (i d : nat) (p : Z) : Z :=
  match d with
  | O => p
  | S d => elev f (S i) d p + tier_lift f i
  end.
End elevation.

(** ** Policies *)

Section policy.
Context (cinfo : ClusterInfo) (n : nat) (dir : Z) (Lmax Lmin : nat → Z).

(** The tiers follow one another downwards; a tier without rules may be empty. *)
Record layout_ok : Prop := {
  lay_pos t : (t < n)%nat → 0 ≤ Lmin t ≤ Lmax t + 1;
  lay_next t : (S t < n)%nat → Lmax (S t) < Lmin t;
  lay_word t : (t < n)%nat → Lmax t < 2 ^ 32;
  lay_max t : (t < n)%nat → Lmax t mod 256 = 255;
  lay_min t : (t < n)%nat → Lmin t mod 256 = 0;
}.

Definition meta (t : nat) (w : Z) : passMeta := mkPassMeta w (Lmax t) (Lmin t).

Record trule_ok (r : trule) : Prop := {
  ok_tier : (tr_tier r < n)%nat;
  ok_key : wf_key (tr_key r);
  ok_word : Lmin (tr_tier r) ≤ word r ≤ Lmax (tr_tier r);
  ok_pass : is_pass r = true →
    IsValid (tr_entry r) = false ∧ passes (tr_entry r) = Some [meta (tr_tier r) (word r)] ∧
    word r mod 256 = 0;
  ok_verdict : is_pass r = false → plain_entry (tr_entry r);
  ok_direction : TrafficDirection (tr_key r) = dir;
}.

(** Room after each pass: what a later tier is lifted to is above the rest of the
    tier, and within the tier. *)
Definition gaps (R : list trule) : Prop :=
  ∀ r q, r ∈ R → q ∈ R → is_pass r = true → (tr_tier r < tr_tier q)%nat →
  Lmin (tr_tier r) ≤ word r - (Lmin (tr_tier r) - word q) ∧
  ∀ r', r' ∈ R → tr_tier r' = tr_tier r → word r' < word r →
    word r' < word r - (Lmin (tr_tier r) - word q).

Record tpolicy (R : list trule) : Prop := {
  pol_layout : layout_ok;
  pol_rule r : r ∈ R → trule_ok r;
  pol_gaps : gaps R;
}.

Definition rcovers (r : trule) (x : Key) : Prop := kcovers cinfo (tr_key r) x.

(** The highest pass of a tier at a key. *)
Fixpoint Pmax (R : list trule) (x : Key) (i : nat) : option Z :=
  match R with
  | [] => None
  | r :: R =>
      let o := Pmax R x i in
      if is_pass r && bool_decide (tr_tier r = i) && bool_decide (rcovers r x)
      then Some (match o with Some m => Z.max m (word r) | None => word r end)
      else o
  end.

Lemma Pmax_spec R x i :
  match Pmax R x i with
  | Some m =>
      (∃ r, r ∈ R ∧ is_pass r = true ∧ tr_tier r = i ∧ rcovers r x ∧ word r = m) ∧
      ∀ r, r ∈ R → is_pass r = true → tr_tier r = i → rcovers r x → word r ≤ m
  | None => ∀ r, r ∈ R → is_pass r = true → tr_tier r = i → ¬ rcovers r x
  end.
Proof.
  induction R as [|r R IH]; simpl; [set_solver|].
  destruct (is_pass r && bool_decide (tr_tier r = i) && bool_decide (rcovers r x)) eqn:E.
  - rewrite !andb_true_iff, !bool_decide_eq_true in E. destruct E as [[Ep Et] Ec].
    destruct (Pmax R x i) as [m|]; simpl.
    + destruct IH as [(r0 & Hin & H0) Hmax]. split.
      * destruct (Z.max_spec m (word r)) as [[_ ->]|[_ ->]].
        -- exists r. split_and!; try done. by left.
        -- exists r0. split; [by right|done].
      * intros r1 [-> |Hr1]%elem_of_cons ? ? ?; [lia|]. specialize (Hmax r1 Hr1). naive_solver lia.
    + split; [exists r; split_and!; try done; by left|].
      intros r1 [-> |Hr1]%elem_of_cons ? ? ?; [lia|]. by destruct (IH r1).
  - rewrite !andb_false_iff, !bool_decide_eq_false in E.
    destruct (Pmax R x i) as [m|].
    + destruct IH as [(r0 & Hin & H0) Hmax]. split; [exists r0; split; [by right|done]|].
      intros r1 [-> |Hr1]%elem_of_cons ? ? ?; [naive_solver congruence|by apply Hmax].
    + intros r1 [-> |Hr1]%elem_of_cons ? ?; [naive_solver congruence|by apply IH].
Qed.

(** The precedence of a rule at a key. *)
Definition height (R : list trule) (x : Key) (r : trule) : Z :=
  elev Lmin (Pmax R x) 0 (tr_tier r) (word r).

(** The allow or deny rule that decides a key: the highest of its tier, with every
    earlier tier passed. *)
Definition live (R : list trule) (x : Key) (e : trule) : Prop :=
  e ∈ R ∧ is_pass e = false ∧ rcovers e x ∧
  ∀ r, r ∈ R → rcovers r x →
    (tr_tier r = tr_tier e → word r ≤ word e) ∧
    ((tr_tier r < tr_tier e)%nat → ∃ m, Pmax R x (tr_tier r) = Some m ∧ word r ≤ m).

Section order.
(** The whole policy, and the rules processed so far. *)
Context (RF : list trule) (TP : tpolicy RF) (R : list trule) (HR : ∀ r, r ∈ R → r ∈ RF).

Lemma word_verdict r : r ∈ RF → is_pass r = false → word r = Precedence (tr_entry r) ∧ word r mod 256 ≠ 0.
Proof.
  intros Hr Hp. destruct (ok_verdict r (pol_rule _ TP r Hr) Hp) as [W V P _]. unfold word. rewrite P.
  split; [done|apply W].
Qed.

Lemma word_differs r r' : r ∈ RF → r' ∈ RF → is_pass r = true → is_pass r' = false → word r ≠ word r'.
Proof.
  intros Hr Hr' Hp Hp' E. destruct (ok_pass r (pol_rule _ TP r Hr) Hp) as (_ & _ & H).
  destruct (word_verdict r' Hr' Hp') as [_ H']. congruence.
Qed.

Lemma Pmax_pass x i m : Pmax R x i = Some m →
  ∃ r, r ∈ R ∧ is_pass r = true ∧ tr_tier r = i ∧ rcovers r x ∧ word r = m.
Proof. intros E. pose proof (Pmax_spec R x i) as H. rewrite E in H. apply H. Qed.

Lemma Pmax_ge x r : r ∈ R → is_pass r = true → rcovers r x →
  ∃ m, Pmax R x (tr_tier r) = Some m ∧ word r ≤ m.
Proof.
  intros. pose proof (Pmax_spec R x (tr_tier r)) as HS.
  destruct (Pmax R x (tr_tier r)) as [m|]; [|by destruct (HS r)].
  exists m. split; [done|]. by apply HS.
Qed.

Lemma rcovers_trans r k x : r ∈ RF → wf_key k → wf_key x → rcovers r k → kcovers cinfo k x → rcovers r x.
Proof.
  intros Hr Wk Wx H1 H2. eapply kcovers_trans; [apply (ok_key r (pol_rule _ TP r Hr))|exact Wk|done|done|done].
Qed.

(** Passes of processed rules that cover a key. *)
Definition passes_at (x : Key) (f : nat → option Z) : Prop :=
  ∀ i m, f i = Some m → ∃ r, r ∈ R ∧ is_pass r = true ∧ tr_tier r = i ∧ rcovers r x ∧ word r = m.

Lemma passes_at_Pmax k x : wf_key k → wf_key x → kcovers cinfo k x → passes_at x (Pmax R k).
Proof.
  intros Wk Wx Hkx i m (r & Hr & Hp & Ht & Hc & Hw)%Pmax_pass. exists r. split_and!; try done.
  apply (rcovers_trans r k x); auto.
Qed.

Lemma passes_at_le x f i m : passes_at x f → f i = Some m → ∃ m', Pmax R x i = Some m' ∧ m ≤ m'.
Proof. intros H (r & Hr & Hp & <- & Hc & <-)%H. by apply Pmax_ge. Qed.

Lemma passes_at_range x f i m : passes_at x f → f i = Some m → (i < n)%nat ∧ Lmin i ≤ m ≤ Lmax i.
Proof.
  intros H (r & Hr & Hp & <- & Hc & <-)%H. by destruct (pol_rule _ TP r (HR r Hr)).
Qed.

(** Lifted words stay in the tier they are lifted to. *)
Lemma elev_range x f r d : passes_at x f → r ∈ RF → ∀ i, tr_tier r = (i + d)%nat →
  word r ≤ elev Lmin f i d (word r) ≤ Lmax i ∧
  match d with
  | O => True
  | S _ => match f i with
           | Some m => elev Lmin f i d (word r) < m
           | None => elev Lmin f i d (word r) < Lmin i
           end
  end.
Proof.
  intros Hf Hr. pose proof (pol_rule _ TP r Hr) as [Ht _ Hw _ _ _].
  induction d as [|d IH]; intros i Ei; simpl.
  { rewrite Nat.add_0_r in Ei. rewrite <- Ei. split; [lia|done]. }
  assert (Hi : (S i < n)%nat) by lia. pose proof (lay_next (pol_layout _ TP) i Hi) as HN.
  pose proof (lay_pos (pol_layout _ TP) i ltac:(lia)) as HP.
  destruct (IH (S i)) as [HI _]; [lia|]. unfold tier_lift.
  destruct (f i) as [m|] eqn:Em; [|lia]. apply (passes_at_range x) in Em as [_ Hm]; [|done]. lia.
Qed.

(** The lifted words compare like the evaluation of the tiers: at a key decided by
    [e], no rule covering it is lifted higher by passes covering it, and only rules
    of the word and tier of [e] as high. *)
Lemma elev_below x f e r : live R x e → r ∈ RF → is_pass r = false → rcovers r x →
  (r ∈ R ∨ (tr_tier e < tr_tier r)%nat) → passes_at x f →
  ∀ d i d', tr_tier e = (i + d)%nat → tr_tier r = (i + d')%nat →
  elev Lmin f i d' (word r) ≤ elev Lmin (Pmax R x) i d (word e) ∧
  (tr_tier r ≠ tr_tier e ∨ word r < word e →
   elev Lmin f i d' (word r) < elev Lmin (Pmax R x) i d (word e)).
Proof.
  intros (He & Pe & Ce & HL) Hr Pr Cr Hor Hf. apply HR in He as HeF.
  pose proof (pol_rule _ TP e HeF) as [Ht _ Hw _ _ _]. pose proof (pol_rule _ TP r Hr) as [Htr _ Hwr _ _ _].
  induction d as [|d IH]; intros i d' Ei Ei'.
  - rewrite Nat.add_0_r in Ei. simpl.
    destruct d' as [|d'].
    { rewrite Nat.add_0_r in Ei'. destruct Hor as [HrR|]; [|lia]. destruct (HL r HrR Cr) as [H _]. simpl.
      specialize (H ltac:(congruence)). split; [done|]. intros [?|?]; [congruence|done]. }
    destruct (elev_range x f r (S d') Hf Hr i Ei') as [_ H].
    pose proof (lay_next (pol_layout _ TP) i ltac:(lia)) as HN.
    assert (elev Lmin f i (S d') (word r) < word e); [|lia].
    destruct (f i) as [m|] eqn:Em; [|rewrite Ei in *; lia].
    apply Hf in Em as (r0 & Hr0 & Hp0 & Ht0 & Hc0 & <-).
    destruct (HL r0 Hr0 Hc0) as [Hm _].
    pose proof (word_differs r0 e (HR _ Hr0) HeF Hp0 Pe). specialize (Hm ltac:(congruence)). lia.
  - change (elev Lmin (Pmax R x) i (S d) (word e))
      with (elev Lmin (Pmax R x) (S i) d (word e) + tier_lift Lmin (Pmax R x) i).
    assert (Hi : (S i < n)%nat) by lia. pose proof (lay_next (pol_layout _ TP) i Hi) as HN.
    destruct (elev_range x (Pmax R x) e d (Pmax_pass x) HeF (S i) ltac:(lia)) as [[Hge _] _].
    assert (EL : tier_lift Lmin (Pmax R x) i = match Pmax R x i with Some m => m - Lmin i | None => 0 end)
      by done.
    rewrite EL. clear EL. destruct (Pmax R x i) as [m|] eqn:Em.
    + pose proof (Pmax_pass _ _ _ Em) as (r0 & Hr0 & Hp0 & Ht0 & Hc0 & Em0).
      destruct (pol_gaps _ TP r0 e (HR _ Hr0) HeF Hp0 ltac:(lia)) as [Hbot Hgap].
      rewrite Ht0, Em0 in *. simpl. destruct d' as [|d'].
      * rewrite Nat.add_0_r in Ei'. simpl. destruct Hor as [HrR|]; [|lia].
        destruct (HL r HrR Cr) as [_ H]. destruct (H ltac:(lia)) as (m' & Em' & Hle).
        rewrite Ei', Em in Em'. injection Em' as <-.
        pose proof (word_differs r0 r (HR _ Hr0) Hr Hp0 Pr).
        specialize (Hgap r Hr ltac:(congruence) ltac:(lia)). lia.
      * destruct (elev_range x f r (S d') Hf Hr i Ei') as [_ H].
        destruct (IH (S i) d' ltac:(lia) ltac:(lia)) as [I1 I2]. simpl in H |- *.
        unfold tier_lift in *. destruct (f i) as [m'|] eqn:Em'; [|lia].
        destruct (passes_at_le x f i m' Hf Em') as (m0 & E0 & Hle). rewrite Em in E0. injection E0 as <-.
        destruct (decide (m' = m)) as [->|Hne]; [lia|].
        apply Hf in Em' as (r1 & Hr1 & Hp1 & Ht1 & Hc1 & <-).
        specialize (Hgap r1 (HR _ Hr1) ltac:(congruence) ltac:(lia)). lia.
    + assert (HD : d' ≠ O).
      { intros ->. destruct Hor as [HrR|]; [|lia]. destruct (HL r HrR Cr) as [_ H].
        destruct (H ltac:(lia)) as (m' & Em' & _). rewrite Ei', Nat.add_0_r in Em'. congruence. }
      destruct d' as [|d']; [done|]. destruct (IH (S i) d' ltac:(lia) ltac:(lia)) as [I1 I2]. simpl.
      unfold tier_lift. destruct (f i) as [m'|] eqn:Em'; [|lia].
      destruct (passes_at_le x f i m' Hf Em') as (m0 & E0 & _). congruence.
Qed.

Lemma height_below k x e r : live R x e → r ∈ R → is_pass r = false → rcovers r k →
  wf_key k → wf_key x → kcovers cinfo k x →
  height R k r ≤ height R x e ∧ (tr_tier r ≠ tr_tier e ∨ word r < word e → height R k r < height R x e).
Proof.
  intros HL Hr Pr Ck Wk Wx Hkx. apply elev_below; try done; auto.
  - apply (rcovers_trans r k x); auto.
  - by apply passes_at_Pmax.
Qed.

Lemma tier_lift_nonneg x f i : passes_at x f → 0 ≤ tier_lift Lmin f i.
Proof.
  intros Hf. unfold tier_lift. destruct (f i) as [m|] eqn:E; [|done].
  apply (passes_at_range x) in E as [_ ?]; [lia|done].
Qed.

(** The tier a rule is lifted to: its own, or that of the first pass. *)
Lemma elev_tier x f r d : passes_at x f → r ∈ RF → ∀ i, tr_tier r = (i + d)%nat →
  (∀ j, (i ≤ j < i + d)%nat → f j = None) ∧ elev Lmin f i d (word r) = word r ∨
  ∃ j m, (i ≤ j < i + d)%nat ∧ f j = Some m ∧ Lmin j ≤ elev Lmin f i d (word r) < m.
Proof.
  intros Hf Hr. induction d as [|d IH]; intros i Ei; simpl; [left; split; [lia|done]|].
  destruct (elev_range x f r (S d) Hf Hr i Ei) as [_ HE]. simpl in HE. unfold tier_lift in *.
  destruct (f i) as [m|] eqn:Em.
  - right. exists i, m. split; [lia|]. split; [done|]. split; [|done].
    destruct (elev_range x f r d Hf Hr (S i) ltac:(lia)) as [[Hge _] _].
    apply Hf in Em as (r0 & Hr0 & Hp0 & Ht0 & Hc0 & <-).
    destruct (pol_gaps _ TP r0 r (HR _ Hr0) Hr Hp0 ltac:(lia)) as [Hbot _]. rewrite Ht0 in Hbot. lia.
  - destruct (IH (S i) ltac:(lia)) as [[Hn E]|(j & m & Hj & Hfj & Hb)].
    + left. split; [|lia]. intros j Hj. destruct (decide (j = i)) as [->|]; [done|]. apply Hn. lia.
    + right. exists j, m. split_and!; try done; lia.
Qed.

Lemma tiers_disjoint i j p : (i < n)%nat → (j < n)%nat → Lmin i ≤ p ≤ Lmax i → Lmin j ≤ p ≤ Lmax j → i = j.
Proof.
  intros Hi Hj Hpi Hpj.
  assert (HM : ∀ a b, (a < b)%nat → (b < n)%nat → Lmax b < Lmin a).
  { intros a b Hab Hb. induction Hab as [|b Hab IH]; [by apply (lay_next (pol_layout _ TP))|].
    pose proof (lay_next (pol_layout _ TP) b Hb). pose proof (lay_pos (pol_layout _ TP) b ltac:(lia)).
    specialize (IH ltac:(lia)). lia. }
  destruct (Nat.lt_trichotomy i j) as [H|[H|H]]; [specialize (HM i j H Hj); lia|done|].
  specialize (HM j i H Hi). lia.
Qed.

Lemma tier_above i j : (i < j)%nat → (j < n)%nat → Lmax j < Lmin i.
Proof.
  intros Hij Hj. induction Hij as [|j Hij IH]; [by apply (lay_next (pol_layout _ TP))|].
  pose proof (lay_next (pol_layout _ TP) j Hj). pose proof (lay_pos (pol_layout _ TP) j ltac:(lia)).
  specialize (IH ltac:(lia)). lia.
Qed.

(** ** Processing more rules *)

Lemma Pmax_verdict e x i : is_pass e = false → Pmax (e :: R) x i = Pmax R x i.
Proof. intros Hp. simpl. by rewrite Hp. Qed.

Lemma Pmax_other r x i : tr_tier r ≠ i → Pmax (r :: R) x i = Pmax R x i.
Proof. intros Hi. simpl. by rewrite (bool_decide_false _ Hi), andb_false_r. Qed.

Lemma elev_ext f g i d p : (∀ j, (i ≤ j < i + d)%nat → f j = g j) → elev Lmin f i d p = elev Lmin g i d p.
Proof.
  revert i. induction d as [|d IH]; intros i H; simpl; [done|]. unfold tier_lift.
  rewrite (H i) by lia. f_equal. apply IH. intros j Hj. apply H. lia.
Qed.

Lemma elev_mono x f g i d p : passes_at x g →
  (∀ j m, f j = Some m → ∃ m', g j = Some m' ∧ m ≤ m') → elev Lmin f i d p ≤ elev Lmin g i d p.
Proof.
  intros Hg H. revert i. induction d as [|d IH]; intros i; simpl; [done|]. specialize (IH (S i)).
  pose proof (tier_lift_nonneg x g i Hg). unfold tier_lift in *. destruct (f i) as [m|] eqn:Em; [|lia].
  destruct (H i m Em) as (m' & -> & ?). lia.
Qed.

Lemma height_mono k x r : wf_key k → wf_key x → kcovers cinfo k x → height R k r ≤ height R x r.
Proof.
  intros Wk Wx Hkx. apply (elev_mono x); [exact (Pmax_pass x)|].
  intros j m Hm. by apply (passes_at_le x (Pmax R k)); [apply passes_at_Pmax|].
Qed.

(** ** The rule that decides *)

Definition passed_below (x : Key) (T : nat) : Prop :=
  ∀ r, r ∈ R → rcovers r x → (tr_tier r < T)%nat → ∃ m, Pmax R x (tr_tier r) = Some m ∧ word r ≤ m.

Lemma highest_rule (P : trule → Prop) `{∀ r, Decision (P r)} (l : list trule) :
  (∃ r, r ∈ l ∧ P r) → ∃ r, r ∈ l ∧ P r ∧ ∀ r', r' ∈ l → P r' → word r' ≤ word r.
Proof.
  induction l as [|a l IH]; intros (r & Hr & HP); [by apply elem_of_nil in Hr|].
  destruct (decide (Exists P l)) as [He|He]; rewrite Exists_exists in He.
  - destruct (IH He) as (b & Hb & Pb & Hmax). destruct (decide (P a ∧ word b < word a)) as [[Pa Hlt]|Hn].
    + exists a. split; [by left|]. split; [done|]. intros r' [-> |Hr']%elem_of_cons HP'; [done|].
      specialize (Hmax r' Hr' HP'). lia.
    + exists b. split; [by right|]. split; [done|]. intros r' [-> |Hr']%elem_of_cons HP'; [|by apply Hmax].
      destruct (Z.le_gt_cases (word a) (word b)); [done|]. destruct Hn. split; [done|lia].
  - apply elem_of_cons in Hr as [-> |Hr]; [|destruct He; by exists r].
    exists a. split; [by left|]. split; [done|]. intros r' [-> |Hr']%elem_of_cons HP'; [done|].
    destruct He. by exists r'.
Qed.

Lemma passed_or_live x T : passed_below x T ∨ ∃ e, live R x e ∧ (tr_tier e < T)%nat.
Proof.
  induction T as [|T IH]; [left; intros r _ _ ?; lia|]. destruct IH as [HP|(e & He & Ht)]; [|right; exists e; split; [done|lia]].
  assert (DC : ∀ r, Decision (tr_tier r = T ∧ rcovers r x)) by (intros; unfold rcovers; apply _).
  destruct (decide (Exists (λ r, tr_tier r = T ∧ rcovers r x) R)) as [He|He].
  - apply Exists_exists in He.
    destruct (highest_rule (λ r, tr_tier r = T ∧ rcovers r x) R He) as (e & He' & [Ht Hc] & Hmax).
    assert (HD : (∃ m, Pmax R x T = Some m ∧ word e ≤ m) ∨
      ¬ ∃ m, Pmax R x T = Some m ∧ word e ≤ m).
    { destruct (Pmax R x T) as [m|]; [|right; by intros (? & ? & _)].
      destruct (Z.le_gt_cases (word e) m); [left; by exists m|]. right. intros (m' & [= <-] & ?). lia. }
    destruct HD as [(m & Em & Hle)|Hn].
    + left. intros r Hr Hcr Htr. destruct (decide (tr_tier r = T)) as [E|E]; [|apply HP; try done; lia].
      rewrite E. exists m. split; [done|]. specialize (Hmax r Hr (conj E Hcr)). lia.
    + right. exists e. split; [|lia]. split_and!; try done.
      * destruct (is_pass e) eqn:Ep; [|done]. destruct Hn. rewrite <- Ht. by apply Pmax_ge.
      * intros r Hr Hcr. split; [intros E; apply Hmax; [done|split; [congruence|done]]|]. intros Hlt. apply HP; try done. lia.
  - left. intros r Hr Hcr Htr. destruct (decide (tr_tier r = T)) as [E|E]; [|apply HP; try done; lia].
    destruct He. apply Exists_exists. by exists r.
Qed.

(** ** The inherited precedence *)

(** The metadata of the passes of the first [T] tiers. *)
Definition tier_metas (f : nat → option Z) (T : nat) : passMetas := omap (λ i, meta i <$> f i) (seq 0 T).

Lemma elem_of_tier_metas f T m : m ∈ tier_metas f T ↔ ∃ i w, (i < T)%nat ∧ f i = Some w ∧ m = meta i w.
Proof.
  unfold tier_metas. rewrite list_elem_of_omap. setoid_rewrite elem_of_seq. split.
  - intros (i & Hi & E). apply fmap_Some in E as (w & E & ->). exists i, w. split_and!; [lia|done|done].
  - intros (i & w & Hi & E & ->). exists i. rewrite E. split; [lia|done].
Qed.

Lemma elev_sum f i d p : elev Lmin f i d p = p + foldr Z.add 0 (tier_lift Lmin f <$> seq i d).
Proof.
  revert i. induction d as [|d IH]; intros i; [simpl; lia|].
  cbn [elev seq]. rewrite fmap_cons, IH. cbn [foldr]. lia.
Qed.

Lemma lift_tier_metas f (l : list nat) :
  lift (omap (λ i, meta i <$> f i) l) = foldr Z.add 0 (tier_lift Lmin f <$> l).
Proof.
  induction l as [|i l IH]; [done|]. rewrite fmap_cons. cbn [omap list_omap foldr]. rewrite <- IH.
  unfold tier_lift. destruct (f i) as [m|]; simpl; [done|lia].
Qed.

Lemma lift_perm l l' : l ≡ₚ l' → lift l = lift l'.
Proof. induction 1; simpl; unfold lift in *; simpl in *; lia. Qed.

Lemma metas_above x f T l : passes_at x f → pm_sorted l →
  (∀ m, m ∈ l → ∃ i w, (i < T)%nat ∧ f i = Some w ∧ m = meta i w) →
  ∀ p, (∀ m, m ∈ l → p < tierMinPrecedence m) → passes_above p l.
Proof.
  intros Hf HS Hl. induction l as [|m l IH]; intros p Hp; [done|].
  apply pm_sorted_cons in HS as [Hb HS]. destruct (Hl m) as (i & w & Hi & Hw & ->); [by left|].
  destruct (passes_at_range x f i w Hf Hw) as [Hin Hwr].
  pose proof (lay_pos (pol_layout _ TP) i Hin). pose proof (lay_word (pol_layout _ TP) i Hin).
  split_and!.
  - split_and!; simpl; try lia; [|by apply (lay_min (pol_layout _ TP))].
    apply Hf in Hw as (r & Hr & Hpr & _ & _ & <-). apply (ok_pass r (pol_rule _ TP r (HR _ Hr)) Hpr).
  - apply Hp. by left.
  - apply IH; [done|intros m' Hm'; apply Hl; by right|]. intros m' Hm'. simpl.
    destruct (Hl m') as (j & w' & Hj & Hw' & ->); [by right|]. pose proof (pm_below_elem _ _ _ Hb Hm') as Hlt.
    simpl in *. destruct (passes_at_range x f j w' Hf Hw') as [Hjn _].
    pose proof (lay_pos (pol_layout _ TP) j Hjn).
    destruct (Nat.lt_trichotomy i j) as [H'|[->|H']]; [|lia|by apply tier_above].
    pose proof (tier_above i j H' Hjn). lia.
Qed.

Lemma inherit_elev x f r l : passes_at x f → r ∈ RF → pm_sorted l →
  (∀ m, m ∈ l ↔ ∃ i w, (i < tr_tier r)%nat ∧ f i = Some w ∧ m = meta i w) →
  InheritPassPrecedence (word r) l = elev Lmin f 0 (tr_tier r) (word r).
Proof.
  intros Hf Hr HS Hl. pose proof (pol_rule _ TP r Hr) as [Ht _ Hw _ _ _].
  pose proof (lay_pos (pol_layout _ TP) _ Ht).
  destruct (InheritPassPrecedence_lift l (word r)) as [-> _]; [lia| |].
  { apply (metas_above x f (tr_tier r)); try done; [intros m; apply Hl|].
    intros m (i & w & Hi & _ & ->)%Hl. simpl. pose proof (tier_above i _ Hi Ht). lia. }
  rewrite elev_sum, <- lift_tier_metas. f_equal. apply lift_perm, NoDup_Permutation.
  - clear -HS. induction HS as [|m l HS IH Hb]; constructor; [|done].
    intros Hm. rewrite Forall_forall in Hb. specialize (Hb m Hm). lia.
  - assert (HN : ∀ k T, (k + T ≤ n)%nat → NoDup (omap (λ i, meta i <$> f i) (seq k T))); [|apply (HN 0%nat); lia].
    intros k T. revert k. induction T as [|T IH]; intros k HkT; [constructor|]. simpl.
    destruct (f k) as [w|] eqn:Ek; simpl; [|apply IH; lia]. constructor; [|apply IH; lia].
    rewrite list_elem_of_omap. intros (j & Hj%elem_of_seq & E). apply fmap_Some in E as (w' & Ej & [= _ _ E]).
    pose proof (tier_above k j ltac:(lia) ltac:(lia)). destruct (passes_at_range x f j w' Hf Ej) as [_ ?]. lia.
  - intros m. rewrite Hl. symmetry. apply elem_of_tier_metas.
Qed.
End order.
End policy.
