(* ===== verification/TierState.v ===== *)
(** * The map state as verdicts and passes

    What insertion with passes ([src/pkg/policy/mapstate.go], [insertWithPasses] and
    the functions it calls) does to the two parts of the entries that decide the
    policy: the precedence of the valid verdicts and the pass metadata. *)

From S2P Require Import Prelude Precedence BitLPM PolicyKey Identity RuleOrigin PassMeta.
From S2P Require Import MapState MapStateIndex MapStateOps MapStatePolicy.

Local Open Scope Z_scope.

(** ** Pass metadata *)

Lemma elem_of_Delete l p m : m ∈ passMetas_Delete l p ↔ m ∈ l ∧ isDifferentTierOrHigherPrecedence m p = true.
Proof.
  induction l as [|a l IH]; simpl; [set_solver|].
  destruct (isDifferentTierOrHigherPrecedence a p) eqn:E; rewrite ?elem_of_cons, IH;
    (split; [naive_solver|]); intros [[-> |?] ?]; auto; congruence.
Qed.

Lemma Delete_sorted l p : pm_sorted l → pm_sorted (passMetas_Delete l p).
Proof.
  induction 1 as [|m l HS IH Hb]; simpl; [constructor|].
  destruct (isDifferentTierOrHigherPrecedence m p); [|done]. apply pm_sorted_cons. split; [|done].
  apply Forall_forall. intros m' [Hm' _]%elem_of_Delete. rewrite Forall_forall in Hb. by apply Hb.
Qed.

(** The metadata a prune at precedence [p] removes. *)
Definition lost (p : Z) (m : passMeta) : Prop :=
  tierMinPrecedence m ≤ p ≤ tierMaxPrecedence m ∧ pm_precedence m ≤ p.

Lemma not_different m p : isDifferentTierOrHigherPrecedence m p = false → lost p m.
Proof.
  unfold isDifferentTierOrHigherPrecedence, lost. rewrite orb_false_iff, negb_false_iff, andb_true_iff.
  rewrite !Z.leb_le, Z.ltb_ge. tauto.
Qed.

(** ** Views *)

Section views.
Context {TR : Trie LPMKey IDSet} {TL : TrieLaws LPMKey IDSet TR} {GR : GoRange}.
Context (cinfo : ClusterInfo).
Implicit Types (ms : mapState TR) (k key : Key) (e v : mapStateEntry) (s : mapState TR * ChangeState).

Definition valid_prec (v : mapStateEntry) : option Z := if IsValid v then Some (Precedence v) else None.
Definition vprec ms k : option Z := ms_entries ms !! k ≫= valid_prec.
Definition metas ms k : passMetas := default [] (Passes <$> ms_entries ms !! k).

Record tentry v : Prop := {
  te_wf : IsValid v = true → wf_entry v;
  te_sorted : pm_sorted (Passes v);
}.

Record sinv ms : Prop := {
  si_inv : ms_inv ms;
  si_cinfo : clusterInfo ms = cinfo;
  si_entry k v : ms_entries ms !! k = Some v → tentry v;
}.

Lemma vprec_present ms k q : vprec ms k = Some q → present ms k.
Proof. unfold vprec. intros (v & E & _)%bind_Some. by exists v. Qed.

Lemma metas_present ms k m : m ∈ metas ms k → present ms k.
Proof.
  unfold metas. destruct (ms_entries ms !! k) as [v|] eqn:E; [by exists v|]. simpl. by intros ?%elem_of_nil.
Qed.

Lemma sinv_wf ms k : sinv ms → present ms k → wf_key k.
Proof. intros S. apply (inv_wf ms (si_inv _ S)). Qed.

(** A state from which verdicts of precedence at most [B] and passes satisfying [L]
    were removed at keys of [V]. *)
Record pruned (V : Key → Prop) (B : Z) (L : passMeta → Prop) ms ms' : Prop := {
  pr_sinv : sinv ms';
  pr_vprec k : vprec ms' k = vprec ms k ∨
    V k ∧ vprec ms' k = None ∧ ∃ q, vprec ms k = Some q ∧ q ≤ B;
  pr_metas k m : m ∈ metas ms' k → m ∈ metas ms k;
  pr_kept k m : m ∈ metas ms k → m ∈ metas ms' k ∨ V k ∧ L m;
}.

(** No verdict below [B] is left at the keys of [V]. *)
Definition low (V : Key → Prop) (B : Z) ms : Prop := ∀ k q, V k → vprec ms k = Some q → B ≤ q.

Lemma pruned_refl V B L ms : sinv ms → pruned V B L ms ms.
Proof. intros S. constructor; auto. Qed.

Lemma pruned_sub V B L ms ms' k q : pruned V B L ms ms' → vprec ms' k = Some q → vprec ms k = Some q.
Proof. intros P E. destruct (pr_vprec _ _ _ _ _ P k) as [?|(_ & ? & _)]; congruence. Qed.

Lemma pruned_low V V' B B' L ms ms' : pruned V B L ms ms' → low V' B' ms → low V' B' ms'.
Proof. intros P H k q Hk E. apply (H k q Hk). by apply (pruned_sub V B L ms ms'). Qed.

Lemma pruned_trans V B L ms ms' ms'' : pruned V B L ms ms' → pruned V B L ms' ms'' → pruned V B L ms ms''.
Proof.
  intros P Q. destruct P as [S1 P1 M1 K1], Q as [S2 P2 M2 K2]. constructor; auto.
  - intros k. destruct (P2 k) as [E2|(HV & E2 & q & Eq & Hq)].
    + rewrite E2. destruct (P1 k) as [?|(HV & ? & ?)]; [by left|right; auto].
    + destruct (P1 k) as [E1|(HV1 & E1 & Hq1)]; [|congruence]. right. rewrite <- E1. split_and!; auto. by exists q.
  - intros k m Hm. destruct (K1 k m Hm) as [Hm'|[? ?]]; [|auto]. destruct (K2 k m Hm') as [?|[? ?]]; auto.
Qed.

Lemma pruned_weaken (V V' : Key → Prop) B B' (L L' : passMeta → Prop) ms ms' :
  (∀ k, V k → V' k) → B ≤ B' → (∀ m, L m → L' m) → pruned V B L ms ms' → pruned V' B' L' ms ms'.
Proof.
  intros HV HB HL [S P M K]. constructor; auto.
  - intros k. destruct (P k) as [?|(? & ? & q & ? & ?)]; [auto|right]. split_and!; auto. exists q. split; [done|lia].
  - intros k m Hm. destruct (K k m Hm) as [?|[? ?]]; auto.
Qed.

(** ** Pruning *)

(** Replacing or removing one entry. *)
Lemma pruned_one (V : Key → Prop) B (L : passMeta → Prop) ms ms' k v (o : option mapStateEntry) :
  sinv ms → ms_entries ms !! k = Some v → ms_inv ms' → clusterInfo ms' = cinfo → V k →
  (∀ k', k' ≠ k → ms_entries ms' !! k' = ms_entries ms !! k') → ms_entries ms' !! k = o →
  (∀ v', o = Some v' → pm_sorted (Passes v') ∧ (∀ m, m ∈ Passes v' → m ∈ Passes v) ∧
     (IsValid v' = true → mse_MapStateEntry v' = mse_MapStateEntry v)) →
  (IsValid v = true → (∃ v', o = Some v' ∧ IsValid v' = true) ∨ Precedence v ≤ B) →
  (∀ m, m ∈ Passes v → (∃ v', o = Some v' ∧ m ∈ Passes v') ∨ L m) →
  pruned V B L ms ms'.
Proof.
  intros S E I C HVk Hne Eo HO HV HM.
  assert (Hv : ∀ k', k' ≠ k → vprec ms' k' = vprec ms k' ∧ metas ms' k' = metas ms k').
  { intros k' Hn. unfold vprec, metas. by rewrite Hne. }
  assert (HI : ∀ v', o = Some v' → IsValid v' = true → valid_prec v' = valid_prec v).
  { intros v' Ev' Vv'. destruct (HO v' Ev') as (_ & _ & H). unfold valid_prec, IsValid in *.
    by rewrite <- (H Vv'). }
  constructor.
  - constructor; [done|done|]. intros k' v0 E'. destruct (decide (k' = k)) as [->|Hn].
    + rewrite Eo in E'. destruct (HO v0 E') as (HS & _ & HI0). constructor; [|done].
      intros Hv0. rewrite (HI0 Hv0). apply (si_entry _ S k v E). unfold IsValid in *. by rewrite <- (HI0 Hv0).
    + rewrite Hne in E' by done. by apply (si_entry _ S k').
  - intros k'. destruct (decide (k' = k)) as [->|Hn]; [|left; by apply Hv].
    unfold vprec. rewrite E, Eo. simpl. destruct (IsValid v) eqn:Vv.
    + destruct (HV eq_refl) as [(v' & -> & Vv')|Hle]; [left; simpl; by apply HI|].
      destruct o as [v'|]; simpl; [destruct (IsValid v') eqn:Vv'; [left; by apply HI|]|];
        right; unfold valid_prec; rewrite ?Vv, ?Vv'; split_and!; eauto.
    + left. destruct o as [v'|]; simpl; [|unfold valid_prec; by rewrite Vv].
      destruct (IsValid v') eqn:Vv'; [by apply HI|]. unfold valid_prec. by rewrite Vv, Vv'.
  - intros k' m. destruct (decide (k' = k)) as [->|Hn]; [|destruct (Hv k' Hn) as [_ ->]; done].
    unfold metas. rewrite E, Eo. destruct o as [v'|]; simpl; [apply HO; done|by intros ?%elem_of_nil].
  - intros k' m. destruct (decide (k' = k)) as [->|Hn]; [|destruct (Hv k' Hn) as [_ ->]; auto].
    unfold metas. rewrite E, Eo. simpl. intros Hm. destruct (HM m Hm) as [(v' & -> & Hm')|]; auto.
Qed.

Lemma prune_key_view (V : Key → Prop) key e p s k v :
  sinv s.1 → ms_entries s.1 !! k = Some v → V k → (IsValid e = true → Precedence e ≤ p) →
  let ms' := (pruneCoveredNarrowerKey k v key e p s).1 in
  pruned V p (lost p) s.1 ms' ∧ ∀ q, vprec ms' k = Some q → p ≤ q.
Proof.
  destruct s as [ms ch]. intros S E HV He. unfold pruneCoveredNarrowerKey. cbn [fst].
  destruct (si_entry _ S k v E) as [Wv Sv].
  set (dp := forallb _ _). set (de := existsb _ _). set (dv := negb (IsValid v) || _ || _).
  assert (HP : dp = true → ∀ m, m ∈ Passes v → lost p m).
  { unfold dp. intros H m Hm. apply not_different. rewrite forallb_forall in H.
    apply negb_true_iff, H. by apply list_elem_of_In. }
  assert (HD : ∀ m, m ∈ Passes v → m ∈ passMetas_Delete (Passes v) p ∨ lost p m).
  { intros m Hm. destruct (isDifferentTierOrHigherPrecedence m p) eqn:Em;
      [left; by apply elem_of_Delete|right; by apply not_different]. }
  assert (HE : IsValid v = true → dv = true → Precedence v ≤ p).
  { unfold dv. intros Vv. rewrite Vv. cbn [negb orb]. rewrite !orb_true_iff, !andb_true_iff, Z.ltb_lt, Z.eqb_eq.
    intros [[?|[[_ ?] _]]|[_ Heq%equivalent_entry]]; [lia|lia|].
    rewrite Heq. apply He. unfold IsValid in *. by rewrite <- Heq. }
  assert (HN : IsValid v = true → dv = false → p ≤ Precedence v).
  { unfold dv. intros -> . rewrite !orb_false_iff, Z.ltb_ge. tauto. }
  destruct (dp && dv) eqn:Eb; [|destruct (dp || de || dv) eqn:Ec].
  - apply andb_true_iff in Eb as [Ep Ev]. rewrite deleteExisting_state.
    assert (EN : ms_entries (ms_delete ms k) !! k = None) by (rewrite ms_delete_entries; apply lookup_delete_eq).
    split.
    + apply (pruned_one V p _ ms _ k v None); auto.
      * apply delete_inv, S.
      * rewrite ms_delete_clusterInfo. apply S.
      * intros k' Hn. rewrite ms_delete_entries. by apply lookup_delete_ne.
      * intros v' [=].
    + intros q. unfold vprec. by rewrite EN.
  - set (v1 := if dp then set_passes None v else _). set (v2 := if dv then _ else v1).
    assert (E1 : mse_MapStateEntry v1 = mse_MapStateEntry v) by (unfold v1; by destruct dp, de).
    assert (E2 : Passes v2 = Passes v1) by (unfold v2; by destruct dv).
    assert (V2 : IsValid v2 = true → dv = false ∧ mse_MapStateEntry v2 = mse_MapStateEntry v)
      by (unfold v2; destruct dv; done).
    cbn [fst]. split.
    + apply (pruned_one V p _ ms _ k v (Some v2)); auto.
      * apply updateExisting_inv; [apply S|by exists v].
      * apply S.
      * intros k' Hn. by apply lookup_insert_ne.
      * apply lookup_insert_eq.
      * intros v' [= <-]. rewrite E2. unfold v1. split_and!; [| |intros; by apply V2].
        -- destruct dp; [constructor|]. destruct de; [by apply Delete_sorted|done].
        -- intros m. destruct dp; [by intros ?%elem_of_nil|]. destruct de; [|done]. by intros [? _]%elem_of_Delete.
      * intros Vv. destruct dv eqn:Ev; [right; by apply HE|]. left. exists v2. split; [done|].
        unfold v2, IsValid. rewrite E1. done.
      * intros m Hm. destruct dp eqn:Ep; [right; by apply HP|].
        unfold v1 in *. destruct de; [destruct (HD m Hm)|]; [left|by right|left]; (exists v2; split; [done|by rewrite E2]).
    + intros q. unfold vprec. cbn [ms_entries updateExisting]. rewrite lookup_insert_eq. simpl. unfold valid_prec.
      destruct (IsValid v2) eqn:Vv2; [|done]. intros [= <-]. destruct (V2 eq_refl) as [Ev Em]. rewrite Em.
      apply HN; [|done]. unfold IsValid in *. by rewrite <- Em.
  - split; [by apply pruned_refl|]. intros q. unfold vprec. rewrite E. simpl. unfold valid_prec.
    destruct (IsValid v) eqn:Vv; [|done]. intros [= <-]. apply HN; [done|]. by rewrite !orb_false_iff in Ec; destruct Ec.
Qed.

Lemma prune_keys_view (l : list Key) key e p s :
  sinv s.1 → (IsValid e = true → Precedence e ≤ p) →
  let ms' := (for_keys l (λ k v s, pruneCoveredNarrowerKey k v key e p s) s).1 in
  pruned (λ k, k ∈ l) p (lost p) s.1 ms' ∧ low (λ k, k ∈ l) p ms'.
Proof.
  intros S He. cbn zeta.
  assert (HG : ∀ (V : Key → Prop) l' s, (∀ k, k ∈ l' → V k) → sinv s.1 →
    let ms' := (for_keys l' (λ k v s, pruneCoveredNarrowerKey k v key e p s) s).1 in
    pruned V p (lost p) s.1 ms' ∧ low (λ k, k ∈ l') p ms'); [|by apply HG].
  clear S. intros V l'. induction l' as [|k l' IH]; intros s' HV S'; cbn zeta.
  { split; [by apply pruned_refl|]. by intros k q ?%elem_of_nil. }
  rewrite for_keys_cons. destruct (ms_entries s'.1 !! k) as [v|] eqn:E.
  - destruct (prune_key_view V key e p s' k v S' E (HV k ltac:(by left)) He) as [P1 L1].
    destruct (IH (pruneCoveredNarrowerKey k v key e p s')) as [P2 L2];
      [intros; apply HV; by right|apply (pr_sinv _ _ _ _ _ P1)|].
    split; [by eapply pruned_trans|]. intros k' q [-> |Hk']%elem_of_cons Hq; [|by apply (L2 k')].
    apply L1. by apply (pruned_sub _ _ _ _ _ _ _ P2).
  - destruct (IH s') as [P2 L2]; [intros; apply HV; by right|done|].
    split; [done|]. intros k' q [-> |Hk']%elem_of_cons Hq; [|by apply (L2 k')].
    apply (pruned_sub _ _ _ _ _ _ _ P2) in Hq. unfold vprec in Hq. by rewrite E in Hq.
Qed.

Lemma prune_covered_view key e p s :
  sinv s.1 → wf_key key → (IsValid e = true → Precedence e ≤ p) →
  let ms' := (prune_covered key e p s).1 in
  pruned (kcovers cinfo key) p (lost p) s.1 ms' ∧ low (kcovers cinfo key) p ms'.
Proof.
  intros S W He. cbn zeta. destruct (prune_keys_view (CoveredNarrowerOrEqualKeys s.1 key) key e p s S He) as [P L].
  assert (HK : ∀ k, k ∈ CoveredNarrowerOrEqualKeys s.1 key ↔ present s.1 k ∧ kcovers cinfo key k).
  { intros k. rewrite <- (si_cinfo _ S). apply covered_keys; [apply S|done]. }
  split.
  - eapply pruned_weaken; [|reflexivity| |exact P]; [|done]. by intros k [_ ?]%HK.
  - intros k q Hk Hq. apply (L k q); [|done]. apply HK. split; [|done].
    eapply vprec_present, (pruned_sub _ _ _ _ _ _ _ P), Hq.
Qed.

(** ** Additions *)

Definition vmax : option Z → option Z → option Z := union_with (λ a b, Some (Z.max a b)).

Lemma merge_ref_same l : merge_ref l l = l.
Proof. induction l as [|m l IH]; [done|]. rewrite merge_ref_cons, !Z.ltb_irrefl. by rewrite IH. Qed.

Lemma MergeClone_metas (a b : option passMetas) : pm_sorted (default [] a) → pm_sorted (default [] b) →
  default [] (MergeClone a b).1 = merge_ref (default [] a) (default [] b).
Proof.
  destruct a as [[|x a]|], b as [[|y b]|]; cbn [default from_option id MergeClone fst]; intros Ha Hb;
    rewrite ?merge_ref_nil_r; try done.
  case_bool_decide as E; cbn [fst default from_option id]; [injection E as -> ->; symmetry; apply merge_ref_same|].
  by apply (passMetas_Merge_ref (x :: a) (y :: b)).
Qed.

Lemma MergeClone_same (a b : option passMetas) : (MergeClone a b).2 = false → (MergeClone a b).1 = a.
Proof. destruct a as [[|x a]|], b as [[|y b]|]; simpl; try done. by case_bool_decide. Qed.

(** What remains at the key of an addition. *)
Definition added v e : option Z * passMetas := (vmax (valid_prec v) (valid_prec e), merge_ref (Passes v) (Passes e)).

Lemma addKey_result ms k e ch v :
  ms_inv ms → ms_entries ms !! k = Some v → tentry v → tentry e →
  let ms' := (addKeyWithChanges ms k e ch).1.1 in
  ms_inv ms' ∧ clusterInfo ms' = clusterInfo ms ∧
  ∃ v', ms_entries ms' = <[k := v']> (ms_entries ms) ∧ tentry v' ∧ added v e = (valid_prec v', Passes v').
Proof.
  intros I E [Wv Sv] [We Se]. unfold addKeyWithChanges, ms_get. rewrite E. unfold added.
  assert (HU : ∀ x, ms_inv (updateExisting ms k x)) by (intros; apply updateExisting_inv; [done|by eexists]).
  destruct (mapStateEntry_Equal e v) eqn:Eq.
  { unfold mapStateEntry_Equal in Eq. apply andb_true_iff in Eq as [Eq _].
    pose proof (equivalent_entry _ _ Eq) as Em. unfold equivalent in Eq.
    rewrite !andb_true_iff, !bool_decide_eq_true in Eq. destruct Eq as [[_ Ep] _].
    split; [done|]. split; [done|]. exists v. rewrite insert_id by done. split; [done|]. split; [done|].
    unfold Passes, valid_prec, IsValid, vmax. rewrite Ep, Em, merge_ref_same.
    f_equal. destruct (negb _); simpl; [|done]. by rewrite Z.max_id. }
  pose proof (MergeClone_metas (passes v) (passes e) Sv Se) as HM.
  pose proof (merge_ref_sorted _ _ Sv Se) as HS.
  pose proof (MergeClone_same (passes v) (passes e)) as HU0.
  destruct (MergeClone (passes v) (passes e)) as [mg upd] eqn:Emg. cbn [fst snd] in HM, HU0.
  change (IsValid (set_passes mg v)) with (IsValid v).
  destruct v as [mv pv ov], e as [me pe oe].
  unfold set_passes, set_origin, set_entry, valid_prec, Passes, vmax in *.
  cbn [passes mse_MapStateEntry derivedFromRules] in *.
  destruct (IsValid mv) eqn:Vv; cbn [negb]; [destruct (IsValid me) eqn:Ve;
    [destruct (ProxyPortPrecedenceMayDiffer _ _) eqn:Ed;
      [|destruct (Z.ltb_spec (Precedence mv) (Precedence me)); [|destruct upd]]|]|]; cbn [fst snd negb];
    (split; [by auto|split; [done|eexists; split; [try reflexivity|]]]).
  - split; [constructor; cbn; [intros; by apply MapStateEntry_Merge_wf; auto|by rewrite HM]|].
    cbn [mse_MapStateEntry passes]. rewrite MapStateEntry_Merge_valid, Vv, HM. cbn.
    rewrite MapStateEntry_Merge_Precedence; auto.
  - split; [constructor; cbn; [by auto|by rewrite HM]|]. cbn [mse_MapStateEntry passes]. rewrite Ve, HM. cbn. do 2 f_equal. lia.
  - split; [constructor; cbn; [by auto|by rewrite HM]|]. cbn [mse_MapStateEntry passes]. rewrite Vv, HM. cbn. do 2 f_equal. lia.
  - symmetry. by apply insert_id.
  - split; [by constructor; auto|]. cbn [mse_MapStateEntry passes]. rewrite Vv, <- HM, HU0 by done. cbn. do 2 f_equal. lia.
  - split; [constructor; cbn; [by auto|by rewrite HM]|]. cbn [mse_MapStateEntry passes]. by rewrite Vv, HM.
  - split; [constructor; cbn; [by auto|by rewrite HM]|]. cbn [mse_MapStateEntry passes]. rewrite HM. by destruct (IsValid me).
Qed.

Lemma addKey_view ms k e ch : sinv ms → wf_key k → tentry e →
  let ms' := (addKeyWithChanges ms k e ch).1.1 in
  sinv ms' ∧ (∀ k', k' ≠ k → vprec ms' k' = vprec ms k' ∧ metas ms' k' = metas ms k') ∧
  vprec ms' k = vmax (vprec ms k) (valid_prec e) ∧ metas ms' k = merge_ref (metas ms k) (Passes e).
Proof.
  intros S W Te. cbn zeta.
  assert (HV : ∃ v', ms_entries (addKeyWithChanges ms k e ch).1.1 = <[k := v']> (ms_entries ms) ∧ tentry v' ∧
    ms_inv (addKeyWithChanges ms k e ch).1.1 ∧ clusterInfo (addKeyWithChanges ms k e ch).1.1 = cinfo ∧
    valid_prec v' = vmax (vprec ms k) (valid_prec e) ∧ Passes v' = merge_ref (metas ms k) (Passes e)).
  { unfold vprec, metas. destruct (ms_entries ms !! k) as [v|] eqn:E; simpl.
    - destruct (addKey_result ms k e ch v (si_inv _ S) E (si_entry _ S k v E) Te) as (I & C & v' & Ev & Tv & HA).
      injection HA as H1 H2. exists v'. rewrite C. split_and!; try done. apply S.
    - exists e. unfold addKeyWithChanges, ms_get, ms_insert. rewrite E. cbn [fst].
      rewrite upsert_entries, upsert_clusterInfo. split_and!; try done; [|apply S|by destruct (valid_prec e)|].
      + apply upsert_inv; [apply S|done].
      + by destruct (Passes e). }
  destruct HV as (v' & Ev & Tv & I & C & Hp & Hm). unfold vprec at 1 3, metas at 1 3. rewrite Ev.
  split_and!.
  - constructor; [done|done|]. intros k' v. rewrite Ev. intros [[<- <-]|[_ H]]%lookup_insert_Some; [done|].
    by apply (si_entry _ S k').
  - intros k' Hn. by rewrite lookup_insert_ne.
  - by rewrite lookup_insert_eq.
  - by rewrite lookup_insert_eq.
Qed.
End views.
