(* ===== verification/TierScan.v ===== *)
(** * The scans of insertion with passes

    Closed forms of the loops of [insertWithPasses] ([src/pkg/policy/mapstate.go]): what
    the scan of the broader keys collects, and which keys are queued. *)

From S2P Require Import Prelude Precedence BitLPM PolicyKey Identity RuleOrigin PassMeta.
From S2P Require Import MapState MapStateIndex MapStateOps MapStatePolicy TierState.

Local Open Scope Z_scope.

(** ** Collected passes *)

Definition dominated (l : passMetas) (m : passMeta) : Prop :=
  ∃ m', m' ∈ l ∧ tierMinPrecedence m' = tierMinPrecedence m ∧ pm_precedence m ≤ pm_precedence m'.

Definition in_tier (m : passMeta) : Prop :=
  0 < pm_precedence m ∧ tierMinPrecedence m ≤ pm_precedence m ≤ tierMaxPrecedence m.

Lemma Collect_sorted l m : pm_sorted l → pm_sorted (Collect l m).
Proof.
  intros HS. unfold Collect. destruct (_ || _); [done|]. rewrite collect_scan_ref. apply merge_ref_sorted; [done|].
  repeat constructor.
Qed.

Lemma Collect_elem l m x : x ∈ Collect l m → x ∈ l ∨ x = m.
Proof.
  unfold Collect. destruct (_ || _); [auto|]. induction l as [|a l IH]; simpl.
  { intros ->%list_elem_of_singleton. auto. }
  repeat case_match; rewrite !elem_of_cons; naive_solver.
Qed.

Lemma collect_scan_dominates l m x : x = m ∨ dominated l x → dominated (collect_scan l m) x.
Proof.
  induction l as [|a l IH]; simpl.
  { intros [-> |(m' & Hm' & _)]; [|by apply elem_of_nil in Hm']. exists m. split; [by left|lia]. }
  intros Hx. destruct (Z.ltb_spec (tierMinPrecedence m) (tierMinPrecedence a)).
  { destruct Hx as [-> |(m' & Hm' & ?)]; [exists m; split; [by left|lia]|]. exists m'. split; [by right|done]. }
  destruct (Z.eqb_spec (tierMinPrecedence a) (tierMinPrecedence m)).
  - destruct (Z.ltb_spec (pm_precedence a) (pm_precedence m)).
    + destruct Hx as [-> |(m' & [-> |Hm']%elem_of_cons & ?)]; [exists m; split; [by left|lia]..|].
      exists m'. split; [by right|done].
    + destruct Hx as [-> |(m' & [-> |Hm']%elem_of_cons & ?)]; [exists a; split; [by left|lia]..|].
      exists m'. split; [by right|done].
  - destruct Hx as [-> |(m' & [-> |Hm']%elem_of_cons & ?)]; [|exists a; split; [by left|lia]|].
    + destruct IH as (m' & Hm' & ?); [by left|]. exists m'. split; [by right|done].
    + destruct IH as (m'' & Hm'' & ?); [right; by exists m'|]. exists m''. split; [by right|done].
Qed.

Lemma Collect_dominates l m x : dominated l x ∨ x = m ∧ in_tier m → dominated (Collect l m) x.
Proof.
  unfold Collect. destruct (_ || _) eqn:E.
  - rewrite !orb_true_iff, Z.eqb_eq, !Z.ltb_lt in E. intros [?|[-> Hm]]; [done|]. unfold in_tier in Hm. lia.
  - intros [?|[-> _]]; apply collect_scan_dominates; auto.
Qed.

Lemma Collect_all l ps :
  pm_sorted l → pm_sorted (foldl Collect l ps) ∧
  (∀ x, x ∈ foldl Collect l ps → x ∈ l ∨ x ∈ ps) ∧
  (∀ x, dominated l x ∨ x ∈ ps ∧ in_tier x → dominated (foldl Collect l ps) x).
Proof.
  revert l. induction ps as [|p ps IH]; intros l HS; simpl.
  { split_and!; auto. intros x [?|[?%elem_of_nil _]]; done. }
  destruct (IH (Collect l p) (Collect_sorted l p HS)) as (H1 & H2 & H3). split_and!; [done| |].
  - intros x [[?| ->]%Collect_elem|?]%H2; rewrite elem_of_cons; auto.
  - intros x Hx. apply H3. rewrite elem_of_cons in Hx.
    destruct Hx as [?|[[-> |?] ?]]; [left; apply Collect_dominates; auto..|right; auto].
Qed.

(** ** The scan of the broader keys *)

Section scan.
Context (tier agg : Z) (key : Key) (entry : mapStateEntry).
Implicit Types (k : Key) (v : mapStateEntry) (l : list (Key * mapStateEntry)).

Definition cov k : bool := negb (Identity key =? agg) || (Identity k =? agg).
Definition higher v : bool := existsb (λ m, Precedence entry <? tierMinPrecedence m) (Passes v).
Definition beats k v : bool :=
  IsValid v && ((Precedence entry <? Precedence v) ||
    MapStateEntry_IsDeny entry && (Precedence v =? Precedence entry) && negb (bool_decide (k = key))).

Definition ev_passes (x : Key * mapStateEntry) : passMetas :=
  if cov x.1 then filter (λ m, Precedence entry < tierMinPrecedence m) (Passes x.2) else [].
Definition ev_l34 (x : Key * mapStateEntry) : list Key :=
  if negb (cov x.1) && higher x.2 then [WithIdentity key (Identity x.1)] else [].
Definition ev_done (x : Key * mapStateEntry) : list Key :=
  if negb (cov x.1) && beats x.1 x.2 && (Precedence x.2 <=? tier) then [WithIdentity key (Identity x.1)] else [].
Definition ev_bail (x : Key * mapStateEntry) : list Z :=
  if cov x.1 && beats x.1 x.2 && negb (Precedence x.2 <=? tier) then [Precedence x.2 : Z] else [].
Definition stop (x : Key * mapStateEntry) : bool :=
  cov x.1 && (existsb (λ m, negb (Precedence entry <? tierMinPrecedence m) &&
                            (Precedence entry <? pm_precedence m)) (Passes x.2) ||
              beats x.1 x.2 && (Precedence x.2 <=? tier)).

Definition run_scan l (s : scan) : scan :=
  mkScan (foldl Collect (sc_passes s) (l ≫= ev_passes)) (foldl Keys_Insert (sc_l34Keys s) (l ≫= ev_l34))
    (foldl Keys_Insert (sc_doneKeys s) (l ≫= ev_done)) (foldl Z.max (sc_bail s) (l ≫= ev_bail)).

Lemma scan_passes_covering main sub (l : passMetas) s :
  scan_passes main true (Precedence entry) sub l s =
  if main && existsb (λ m, negb (Precedence entry <? tierMinPrecedence m) &&
                           (Precedence entry <? pm_precedence m)) l then None
  else Some (mkScan (foldl Collect (sc_passes s) (filter (λ m, Precedence entry < tierMinPrecedence m) l))
               (sc_l34Keys s) (sc_doneKeys s) (sc_bail s)).
Proof.
  revert s. induction l as [|m l IH]; intros s; simpl; [by rewrite andb_false_r; destruct s|].
  rewrite filter_cons. destruct (Z.ltb_spec (Precedence entry) (tierMinPrecedence m)); simpl.
  - rewrite IH, decide_True by done. done.
  - rewrite decide_False by lia. rewrite andb_true_r. destruct (Precedence entry <? pm_precedence m), main; simpl; try done; apply IH.
Qed.

Lemma scan_passes_other main sub (l : passMetas) s :
  scan_passes main false (Precedence entry) sub l s =
  Some (if existsb (λ m, Precedence entry <? tierMinPrecedence m) l then scan_l34 sub s else s).
Proof.
  induction l as [|m l IH]; simpl; [done|]. destruct (_ <? _); simpl; [done|]. by rewrite andb_false_r.
Qed.

Lemma scan_entry_run main k v s :
  scan_entry main tier agg key entry k v s = if main && stop (k, v) then None else Some (run_scan [(k, v)] s).
Proof.
  unfold scan_entry, stop, run_scan. cbn [mbind list_bind fst snd]. rewrite !app_nil_r.
  unfold ev_passes, ev_l34, ev_done, ev_bail. cbn [fst snd].
  change (negb (Identity key =? agg) || (Identity k =? agg)) with (cov k). fold (beats k v).
  change (IsValid v && ((Precedence entry <? Precedence v) || MapStateEntry_IsDeny entry &&
    (Precedence v =? Precedence entry) && negb (bool_decide (k = key)))) with (beats k v).
  destruct (cov k) eqn:Ec; cbn [negb andb].
  - rewrite scan_passes_covering. destruct (main && existsb _ _) eqn:Em.
    { apply andb_true_iff in Em as [-> ->]. done. }
    rewrite andb_orb_distrib_r, Em. cbn [orb]. destruct (beats k v); cbn [andb]; [|by rewrite andb_false_r].
    destruct (Precedence v <=? tier); cbn [negb]; [by destruct main|]. rewrite andb_false_r.
    unfold scan_bail. cbn. do 2 f_equal. destruct (Z.ltb_spec (sc_bail s) (Precedence v)); lia.
  - rewrite scan_passes_other, andb_false_r. unfold higher. cbn [foldl].
    destruct (existsb _ _), (beats k v), (Precedence v <=? tier), s; done.
Qed.

Lemma run_scan_cons x l s : run_scan (x :: l) s = run_scan l (run_scan [x] s).
Proof. unfold run_scan. cbn [mbind list_bind sc_passes sc_l34Keys sc_doneKeys sc_bail]. by rewrite !app_nil_r, !foldl_app. Qed.

Lemma scan_broader_run main l s :
  scan_broader main tier agg key entry l s = if main && existsb stop l then None else Some (run_scan l s).
Proof.
  revert s. induction l as [|[k v] l IH]; intros s; cbn [scan_broader existsb].
  { rewrite andb_false_r. by destruct s. }
  rewrite scan_entry_run. destruct main, (stop (k, v)); cbn [andb orb]; try done; by rewrite IH, (run_scan_cons (k, v) l).
Qed.

Lemma elem_of_ev_passes l m : m ∈ l ≫= ev_passes ↔
  ∃ k v, (k, v) ∈ l ∧ cov k = true ∧ m ∈ Passes v ∧ Precedence entry < tierMinPrecedence m.
Proof.
  rewrite list_elem_of_bind. unfold ev_passes. split.
  - intros ([k v] & Hm & Hl). simpl in Hm. destruct (cov k) eqn:E; [|by apply elem_of_nil in Hm].
    apply list_elem_of_filter in Hm as [? ?]. eauto 10.
  - intros (k & v & Hl & Ec & Hm & Hlt). exists (k, v). split; [|done]. simpl. rewrite Ec. by apply list_elem_of_filter.
Qed.

Lemma higher_spec v : higher v = true ↔ ∃ m, m ∈ Passes v ∧ Precedence entry < tierMinPrecedence m.
Proof. unfold higher. rewrite existsb_exists. setoid_rewrite <- list_elem_of_In. by setoid_rewrite Z.ltb_lt. Qed.

Lemma elem_of_ev_l34 l y : y ∈ l ≫= ev_l34 ↔
  ∃ k v, (k, v) ∈ l ∧ cov k = false ∧ higher v = true ∧ y = WithIdentity key (Identity k).
Proof.
  rewrite list_elem_of_bind. unfold ev_l34. split.
  - intros ([k v] & Hm & Hl). simpl in Hm. destruct (cov k) eqn:E, (higher v) eqn:Eh; simpl in Hm; try by apply elem_of_nil in Hm.
    apply list_elem_of_singleton in Hm as ->. by exists k, v.
  - intros (k & v & Hl & Ec & Eh & ->). exists (k, v). split; [|done]. simpl. rewrite Ec, Eh. by left.
Qed.

Lemma beats_le k v : beats k v = true → IsValid v = true ∧ Precedence entry ≤ Precedence v.
Proof. unfold beats. rewrite !andb_true_iff, orb_true_iff, !andb_true_iff, Z.ltb_lt, Z.eqb_eq. intros [? [?|[[_ ?] _]]]; split; try done; lia. Qed.

Lemma beats_false k v : beats k v = false → IsValid v = true → Precedence v ≤ Precedence entry.
Proof. unfold beats. intros H Hv. rewrite Hv in H. simpl in H. apply orb_false_iff in H as [?%Z.ltb_ge _]. done. Qed.

Lemma elem_of_ev_done l y : y ∈ l ≫= ev_done →
  ∃ k v, (k, v) ∈ l ∧ cov k = false ∧ y = WithIdentity key (Identity k) ∧ IsValid v = true ∧
         Precedence entry ≤ Precedence v ≤ tier.
Proof.
  rewrite list_elem_of_bind. unfold ev_done. intros ([k v] & Hm & Hl). simpl in Hm.
  destruct (cov k) eqn:E, (beats k v) eqn:Eb, (Z.leb_spec (Precedence v) tier); simpl in Hm; try by apply elem_of_nil in Hm.
  apply list_elem_of_singleton in Hm as ->. destruct (beats_le k v Eb). exists k, v. split_and!; done.
Qed.

Lemma elem_of_ev_bail l q : q ∈ l ≫= ev_bail ↔
  ∃ k v, (k, v) ∈ l ∧ cov k = true ∧ beats k v = true ∧ tier < Precedence v ∧ Precedence v = q.
Proof.
  rewrite list_elem_of_bind. unfold ev_bail. split.
  - intros ([k v] & Hm & Hl). simpl in Hm.
    destruct (cov k) eqn:E, (beats k v) eqn:Eb, (Z.leb_spec (Precedence v) tier); simpl in Hm; try by apply elem_of_nil in Hm.
    apply list_elem_of_singleton in Hm as ->. exists k, v. split_and!; done.
  - intros (k & v & Hl & Ec & Eb & Hlt & <-). exists (k, v). split; [|done]. simpl. rewrite Ec, Eb.
    destruct (Z.leb_spec (Precedence v) tier); [lia|]. by left.
Qed.

Lemma stop_spec k v : stop (k, v) = true → cov k = true ∧
  ((∃ m, m ∈ Passes v ∧ tierMinPrecedence m ≤ Precedence entry < pm_precedence m) ∨
   IsValid v = true ∧ Precedence entry ≤ Precedence v ≤ tier).
Proof.
  unfold stop. simpl. rewrite andb_true_iff, orb_true_iff, existsb_exists, andb_true_iff, Z.leb_le.
  intros [Hc [(m & Hm%list_elem_of_In & Hlt)|[Hb ?]]]; (split; [done|]).
  - left. exists m. rewrite andb_true_iff, negb_true_iff, Z.ltb_ge, Z.ltb_lt in Hlt. done.
  - right. destruct (beats_le k v Hb). done.
Qed.

Lemma stop_false k v : stop (k, v) = false → cov k = true → IsValid v = true →
  Precedence v ≤ Precedence entry ∨ beats k v = true ∧ tier < Precedence v.
Proof.
  unfold stop. simpl. intros H Hc Hv. rewrite Hc in H. simpl in H. apply orb_false_iff in H as [_ H].
  destruct (beats k v) eqn:Eb; [|left; by apply (beats_false k)]. simpl in H. apply Z.leb_gt in H. auto.
Qed.

Lemma foldl_Keys_Insert (ks : Keys) (l : list Key) y :
  y ∈ default ∅ (foldl Keys_Insert ks l) ↔ y ∈ default ∅ ks ∨ y ∈ l.
Proof.
  revert ks. induction l as [|k l IH]; intros ks; simpl.
  - rewrite elem_of_nil. tauto.
  - rewrite IH. unfold Keys_Insert. simpl. rewrite elem_of_union, elem_of_singleton, elem_of_cons. tauto.
Qed.

Lemma foldl_max b (l : list Z) :
  b ≤ foldl Z.max b l ∧ (∀ x, x ∈ l → x ≤ foldl Z.max b l) ∧ (foldl Z.max b l = b ∨ foldl Z.max b l ∈ l).
Proof.
  revert b. induction l as [|a l IH]; intros b; simpl.
  { split_and!; [lia| |by left]. by intros x ?%elem_of_nil. }
  destruct (IH (b `max` a)) as (H1 & H2 & H3). split_and!; [lia| |].
  - intros x [-> |Hx]%elem_of_cons; [lia|by apply H2].
  - rewrite elem_of_cons. destruct H3 as [->|]; [|auto]. lia.
Qed.
End scan.

(** ** The work list *)

Section queue.
Context {GR : GoRange}.
Implicit Types (q : list Key * Keys).

(** A queue grown by keys of [W]. *)
Record qgrows (W : Key → Prop) q q' : Prop := {
  qg_keys y : y ∈ q.1 → y ∈ q'.1;
  qg_new y : y ∈ q'.1 → y ∈ q.1 ∨ W y;
  qg_done y : y ∈ default ∅ q'.2 → y ∈ default ∅ q.2 ∨ y ∈ q'.1;
  qg_seen y : y ∈ default ∅ q.2 → y ∈ default ∅ q'.2;
}.

Lemma qgrows_refl W q : qgrows W q q.
Proof. constructor; auto. Qed.

Lemma qgrows_trans W q q' q'' : qgrows W q q' → qgrows W q' q'' → qgrows W q q''.
Proof.
  intros [A1 B1 C1 D1] [A2 B2 C2 D2]. constructor; auto.
  - intros y [?|?]%B2; auto.
  - intros y [[?|?]%C1|?]%C2; auto.
Qed.

Lemma addNewKey_grows (W : Key → Prop) k q : W k → qgrows W q (addNewKey k q) ∧ k ∈ default ∅ (addNewKey k q).2.
Proof.
  intros HW. destruct q as [keys seen]. unfold addNewKey. rewrite Keys_Has_spec. simpl. case_bool_decide as Hk.
  - split; [apply qgrows_refl|done].
  - split; [|simpl; rewrite elem_of_union, elem_of_singleton; auto].
    constructor; simpl; intros y; rewrite ?elem_of_app, ?list_elem_of_singleton, ?elem_of_union, ?elem_of_singleton; try tauto.
    intros [?| ->]; auto.
Qed.

Lemma addNewKeys_grows (l34 : Keys) q :
  qgrows (λ k, k ∈ default ∅ l34) q (addNewKeys l34 q) ∧
  ∀ k, k ∈ default ∅ l34 → k ∈ default ∅ (addNewKeys l34 q).2.
Proof.
  unfold addNewKeys.
  assert (HL : ∀ k, k ∈ range (default ∅ l34) ↔ k ∈ default ∅ l34).
  { intros k. rewrite range_perm. apply elem_of_elements. }
  assert (HG : ∀ (W : Key → Prop) l q, (∀ k, k ∈ l → W k) →
    qgrows W q (foldl (λ q0 k, addNewKey k q0) q l) ∧ ∀ k, k ∈ l → k ∈ default ∅ (foldl (λ q0 k, addNewKey k q0) q l).2).
  { clear. intros W. induction l as [|k l IH]; intros q HW; simpl.
    { split; [apply qgrows_refl|]. by intros k ?%elem_of_nil. }
    destruct (addNewKey_grows W k q (HW k ltac:(by left))) as [G1 K1].
    destruct (IH (addNewKey k q)) as [G2 K2]; [intros; apply HW; by right|].
    split; [by eapply qgrows_trans|]. intros k' [-> |?]%elem_of_cons; [|by apply K2]. by apply (qg_seen _ _ _ G2). }
  destruct (HG (λ k, k ∈ default ∅ l34) (range (default ∅ l34)) q) as [G K]; [intros k; apply HL|].
  split; [done|]. intros k Hk. apply K. by apply HL.
Qed.
End queue.

(** ** The scan of the narrower keys *)

Section narrower.
Context {TR : Trie LPMKey IDSet} {TL : TrieLaws LPMKey IDSet TR} {GR : GoRange}.
Context (cinfo ci : ClusterInfo) (tier agg : Z) (key : Key) (entry : mapStateEntry) (bail : bool).
Implicit Types (s : mapState TR * ChangeState) (q : list Key * Keys) (k : Key).

(** The subset key a narrower key stands for. *)
Definition subset k : Key :=
  if Identity k =? aggregateFor (Identity key) ci then WithIdentity k (Identity key) else k.
Definition same_ids k : Prop := Identity key = agg ∨ Identity k = Identity key.

Lemma collect_grows (W : Key → Prop) k v q :
  (∀ m, m ∈ Passes v → tier < pm_precedence m → subset k ≠ key → W (subset k)) →
  qgrows W q (collectNarrowerPasses tier k v key ci q) ∧
  ∀ m, m ∈ Passes v → tier < pm_precedence m → subset k ≠ key →
    subset k ∈ default ∅ (collectNarrowerPasses tier k v key ci q).2.
Proof.
  intros HW. unfold collectNarrowerPasses. fold (subset k). case_bool_decide as E; [split; [apply qgrows_refl|done]|].
  destruct (existsb _ _) eqn:Ex.
  - apply existsb_exists in Ex as (m & Hm%list_elem_of_In & Hlt%Z.ltb_lt).
    destruct (addNewKey_grows W (subset k) q (HW m Hm Hlt E)). done.
  - split; [apply qgrows_refl|]. intros m Hm Hlt _. rewrite <- not_true_iff_false, existsb_exists in Ex.
    destruct Ex. exists m. rewrite Z.ltb_lt. split; [by apply list_elem_of_In|done].
Qed.

Lemma narrower_prune (V : Key → Prop) s k v : sinv cinfo s.1 → ms_entries s.1 !! k = Some v →
  (same_ids k → V k) →
  let s1 := if negb bail && ((Identity key =? agg) || (Identity k =? Identity key))
            then pruneCoveredNarrowerKey k v key entry (Precedence entry) s else s in
  (bail = true → s1 = s) ∧ pruned cinfo V (Precedence entry) (lost (Precedence entry)) s.1 s1.1 ∧
  (bail = false → same_ids k → ∀ w, vprec s1.1 k = Some w → Precedence entry ≤ w).
Proof.
  intros S E HV. cbn zeta. destruct bail; cbn [negb andb]; [split_and!; [done|by apply pruned_refl|done]|].
  assert (HI : (Identity key =? agg) || (Identity k =? Identity key) = true ↔ same_ids k)
    by (unfold same_ids; by rewrite orb_true_iff, !Z.eqb_eq).
  destruct ((Identity key =? agg) || (Identity k =? Identity key)).
  - destruct (prune_key_view cinfo V key entry (Precedence entry) s k v S E) as [P L]; [apply HV; by apply HI|lia|].
    split_and!; [done|done|auto].
  - split_and!; [done|by apply pruned_refl|]. intros _ H. apply HI in H. done.
Qed.

Lemma scan_narrower_view (l : list Key) s q :
  sinv cinfo s.1 →
  let r := scan_narrower tier agg key entry bail ci l s q in
  (bail = true → r.1 = s) ∧
  pruned cinfo (λ k, k ∈ l ∧ same_ids k) (Precedence entry) (lost (Precedence entry)) s.1 r.1.1 ∧
  (bail = false → low (λ k, k ∈ l ∧ same_ids k) (Precedence entry) r.1.1) ∧
  qgrows (λ y, ∃ k m, k ∈ l ∧ m ∈ metas s.1 k ∧ tier < pm_precedence m ∧ y = subset k ∧ y ≠ key) q r.2 ∧
  ∀ k m, k ∈ l → m ∈ metas r.1.1 k → tier < pm_precedence m → subset k ≠ key → subset k ∈ default ∅ r.2.2.
Proof.
  intros S. cbn zeta.
  set (V := λ k, k ∈ l ∧ same_ids k). set (W := λ y, ∃ k m, k ∈ l ∧ m ∈ metas s.1 k ∧ _).
  assert (HG : ∀ l' s' q', (∀ k, k ∈ l' → k ∈ l) → sinv cinfo s'.1 → (∀ k m, m ∈ metas s'.1 k → m ∈ metas s.1 k) →
    let r := scan_narrower tier agg key entry bail ci l' s' q' in
    (bail = true → r.1 = s') ∧ pruned cinfo V (Precedence entry) (lost (Precedence entry)) s'.1 r.1.1 ∧
    (bail = false → low (λ k, k ∈ l' ∧ same_ids k) (Precedence entry) r.1.1) ∧ qgrows W q' r.2 ∧
    ∀ k m, k ∈ l' → m ∈ metas r.1.1 k → tier < pm_precedence m → subset k ≠ key → subset k ∈ default ∅ r.2.2);
    [|by apply HG].
  induction l' as [|k l' IH]; intros s' q' Hl S' Hm; cbn zeta.
  { split_and!; [done|by apply pruned_refl|by intros _ k w [?%elem_of_nil _]|apply qgrows_refl|by intros k m ?%elem_of_nil]. }
  unfold scan_narrower. cbn [foldl].
  destruct (ms_entries s'.1 !! k) as [v|] eqn:E; fold (scan_narrower tier agg key entry bail ci l').
  2:{ destruct (IH s' q') as (R1 & R2 & R3 & R4 & R5); [intros; apply Hl; by right|done|done|].
      split_and!; [done|done| |done|].
      - intros Hb k' w [[-> |Hk']%elem_of_cons HI] Hq; [|by apply (R3 Hb k')].
        apply (pruned_sub _ _ _ _ _ _ _ _ R2) in Hq. unfold vprec in Hq. by rewrite E in Hq.
      - intros k' m [-> |Hk']%elem_of_cons Hm'; [|by apply R5]. apply (pr_metas _ _ _ _ _ _ R2) in Hm'.
        unfold metas in Hm'. rewrite E in Hm'. by apply elem_of_nil in Hm'. }
  set (s1 := if negb bail && ((Identity key =? agg) || (Identity k =? Identity key))
    then pruneCoveredNarrowerKey k v key entry (Precedence entry) s' else s').
  assert (Hmv : ∀ m, m ∈ Passes v ↔ m ∈ metas s'.1 k) by (intros; unfold metas; by rewrite E).
  destruct (narrower_prune V s' k v S' E) as (B1 & P1 & L1); [intros; split; [apply Hl; by left|done]|].
  destruct (collect_grows W k v q') as [G1 K1].
  { intros m Hm' Hlt Hne. exists k, m. split_and!; try done; [apply Hl; by left|]. by apply Hm, Hmv. }
  destruct (IH s1 (collectNarrowerPasses tier k v key ci q')) as (R1 & R2 & R3 & R4 & R5).
  { intros; apply Hl; by right. }
  { apply P1. }
  { intros k' m ?%(pr_metas _ _ _ _ _ _ P1). by apply Hm. }
  split_and!.
  - intros Hb. etrans; [exact (R1 Hb)|exact (B1 Hb)].
  - by eapply pruned_trans.
  - intros Hb k' w [[-> |Hk']%elem_of_cons HI] Hq; [|by apply (R3 Hb k')].
    apply (pruned_sub _ _ _ _ _ _ _ _ R2) in Hq. by apply L1.
  - by eapply qgrows_trans.
  - intros k' m [-> |Hk']%elem_of_cons Hm' Hlt Hne; [|by apply (R5 k' m)].
    apply (qg_seen _ _ _ R4), (K1 m); try done. apply Hmv.
    by apply (pr_metas _ _ _ _ _ _ P1), (pr_metas _ _ _ _ _ _ R2).
Qed.
End narrower.
