(* ===== verification/TierInvariant.v ===== *)
(** * The invariant of a map state with passes

    While the rules of a tiered policy are inserted in the order of their tiers, the
    valid entries of the map state carry lifted words of rules that cover their key,
    every pass that can win is present, and the rule that decides a key reaches it. *)

From S2P Require Import Prelude Precedence BitLPM PolicyKey Identity RuleOrigin PassMeta.
From S2P Require Import MapState MapStateIndex MapStateLookup MapStateOps MapStatePolicy.
From S2P Require Import TierOrder TierState TierScan.

Local Open Scope Z_scope.

Section invariant.
Context {TR : Trie LPMKey IDSet} {TL : TrieLaws LPMKey IDSet TR} {GR : GoRange}.
Context (cinfo : ClusterInfo) (n : nat) (dir : Z) (Lmax Lmin : nat → Z) (RF : list trule).
Context (TP : tpolicy n dir Lmax Lmin RF).
Implicit Types (ms : mapState TR) (k x y : Key) (v : mapStateEntry) (R : list trule) (r e : trule).

Notation "k ⊒ x" := (kcovers cinfo k x) (at level 70).
Notation rcovers := (rcovers cinfo).
Notation passes_at := (passes_at cinfo).
Notation Pmax := (Pmax cinfo).
Notation meta := (meta Lmax Lmin).
Notation height := (height cinfo Lmin).
Notation live := (live cinfo).

(** Some valid entry covering [x] has at least the precedence [p]. *)
Definition reaches ms x (p : Z) : Prop := ∃ k q, vprec ms k = Some q ∧ k ⊒ x ∧ p ≤ q.

(** The pass of precedence [w] is the highest rule of tier [i] at [x]. *)
Definition winner R x i w : Prop :=
  Pmax R x i = Some w ∧ ∀ r, r ∈ R → tr_tier r = i → rcovers r x → word r ≤ w.

Definition has_meta ms x i w : Prop := ∃ k, k ⊒ x ∧ meta i w ∈ metas ms k.

(** The word of a rule lifted by passes at the key. *)
Definition lifted R k r (q : Z) : Prop :=
  ∃ f, passes_at R k f ∧ q = elev Lmin f 0 (tr_tier r) (word r).

Record tinv R ms : Prop := {
  t_sinv : sinv cinfo ms;
  t_chain k k' q q' : TrafficDirection k = dir → k ⊒ k' → vprec ms k = Some q → vprec ms k' = Some q' → q ≤ q';
  t_sound k q : TrafficDirection k = dir → vprec ms k = Some q → ∃ r, r ∈ R ∧ is_pass r = false ∧ rcovers r k ∧ lifted R k r q;
  t_metas k m : TrafficDirection k = dir → m ∈ metas ms k →
    ∃ r, r ∈ R ∧ is_pass r = true ∧ tr_key r = k ∧ m = meta (tr_tier r) (word r);
  t_pass x i w : wf_key x → winner R x i w → has_meta ms x i w;
  t_live x e : wf_key x → live R x e → reaches ms x (height R x e);
}.

Lemma vprec_wf ms k q : sinv cinfo ms → vprec ms k = Some q → wf_key k.
Proof. intros S H. apply (sinv_wf _ _ _ S), (vprec_present _ _ _ H). Qed.

Lemma metas_wf ms k m : sinv cinfo ms → m ∈ metas ms k → wf_key k.
Proof. intros S H. apply (sinv_wf _ _ _ S), (metas_present _ _ _ H). Qed.

Lemma covers_direction k x : k ⊒ x → TrafficDirection k = TrafficDirection x.
Proof. by intros [[? _] _]. Qed.

Lemma rule_direction r x : r ∈ RF → rcovers r x → TrafficDirection x = dir.
Proof. intros Hr <-%covers_direction. apply (ok_direction _ _ _ _ _ (pol_rule _ _ _ _ _ TP r Hr)). Qed.

Section rules.
Context (R : list trule) (HR : ∀ r, r ∈ R → r ∈ RF).

Lemma passes_at_mono k x f : wf_key k → wf_key x → k ⊒ x → passes_at R k f → passes_at R x f.
Proof.
  intros Wk Wx Hkx Hf i m (r & Hr & Hp & Ht & Hc & Hw)%Hf. exists r. split_and!; try done.
  apply (rcovers_trans cinfo n dir Lmax Lmin RF TP r k x); auto.
Qed.

(** Nothing valid at a key is above the rule that decides it. *)
Lemma reached_exact ms x e k q : tinv R ms → wf_key x → live R x e →
  vprec ms k = Some q → k ⊒ x → q ≤ height R x e.
Proof.
  intros I Wx HL Hq Hk. pose proof (vprec_wf _ _ _ (t_sinv _ _ I) Hq) as Wk.
  assert (Dk : TrafficDirection k = dir) by (rewrite (covers_direction k x Hk); apply (rule_direction e); [apply HR|]; apply HL).
  destruct (t_sound _ _ I k q Dk Hq) as (r & Hr & Hp & Hc & f & Hf & ->).
  apply (elev_below cinfo n dir Lmax Lmin RF TP R HR x f e r); auto.
  - apply (rcovers_trans cinfo n dir Lmax Lmin RF TP r k x); auto.
  - by apply (passes_at_mono k x).
Qed.

(** A precedence within a tier that no processed rule is below is the word of a rule
    of the tier. *)
Lemma lifted_in_tier T k r q : r ∈ RF → (tr_tier r ≤ T)%nat →
  (T < n)%nat → lifted R k r q → Lmin T ≤ q ≤ Lmax T → tr_tier r = T ∧ word r = q.
Proof.
  intros Hr Hrt Hn (f & Hf & ->) Hq.
  destruct (elev_tier cinfo n dir Lmax Lmin RF TP R HR k f r (tr_tier r) Hf Hr 0) as [[_ E]|(j & m & Hj & Hfj & Hm)]; [done| |].
  - rewrite E in *. split; [|done]. destruct (pol_rule _ _ _ _ _ TP r Hr) as [Hrn _ Hw _ _ _].
    by apply (tiers_disjoint n dir Lmax Lmin RF TP _ _ (word r)).
  - destruct (passes_at_range cinfo n dir Lmax Lmin RF TP R HR k f j m Hf Hfj) as [Hjn Hjm].
    assert (j = T) by (apply (tiers_disjoint n dir Lmax Lmin RF TP _ _ (elev Lmin f 0 (tr_tier r) (word r))); try done; lia).
    lia.
Qed.

(** ** One more rule *)

Section more.
Context (e : trule) (He : e ∈ RF) (HT : ∀ r, r ∈ R → (tr_tier r ≤ tr_tier e)%nat).
Notation T := (tr_tier e).

Lemma more_rules r : r ∈ e :: R → r ∈ RF.
Proof. intros [-> |?]%elem_of_cons; auto. Qed.

Lemma lifted_more k r q : lifted R k r q → lifted (e :: R) k r q.
Proof.
  intros (f & Hf & ->). exists f. split; [|done]. intros i m (r' & Hr' & ?)%Hf. exists r'. split; [by right|done].
Qed.

Lemma height_more x r : (tr_tier r ≤ T)%nat → height (e :: R) x r = height R x r.
Proof. intros Ht. apply elev_ext. intros j Hj. apply Pmax_other. lia. Qed.

Lemma live_more x r : r ∈ R → live (e :: R) x r → live R x r.
Proof.
  intros HrR (_ & Hp & Hc & HL). split_and!; try done. intros r' Hr' Hc'.
  destruct (HL r') as [H1 H2]; [by right|done|]. split; [done|]. intros Hlt.
  destruct (H2 Hlt) as (m & Em & Hm). exists m. split; [|done]. rewrite <- Em. symmetry. apply Pmax_other.
  pose proof (HT r HrR). lia.
Qed.

Lemma winner_more x i w : winner (e :: R) x i w →
  (is_pass e = true ∧ T = i ∧ word e = w ∧ rcovers e x) ∨ winner R x i w.
Proof.
  intros [HP HW]. assert (HW' : ∀ r, r ∈ R → tr_tier r = i → rcovers r x → word r ≤ w) by (intros r Hr; apply HW; by right).
  simpl in HP. destruct (is_pass e && bool_decide (T = i) && bool_decide (rcovers e x)) eqn:E; [|by right].
  rewrite !andb_true_iff, !bool_decide_eq_true in E. destruct E as [[Ep Et] Ec].
  destruct (Pmax R x i) as [m|] eqn:Em; injection HP as HP; [|by left].
  destruct (Z.max_spec m (word e)) as [[? E]|[? E]]; [left; split_and!; try done; lia|right].
  split; [|done]. rewrite Em. f_equal. lia.
Qed.

(** A pass above a precedence of an earlier tier. *)
Lemma pass_tier r p : r ∈ RF → (tr_tier r ≤ T)%nat → Lmin T ≤ p ≤ Lmax T → Lmin (tr_tier r) ≤ p → tr_tier r = T.
Proof.
  intros Hr Hle Hp Hr'. destruct (decide (tr_tier r = T)); [done|].
  pose proof (tier_above n dir Lmax Lmin RF TP (tr_tier r) T ltac:(lia) (ok_tier _ _ _ _ _ (pol_rule _ _ _ _ _ TP e He))). lia.
Qed.

(** *** A pass *)

Section pass.
Context (Hpass : is_pass e = true).
Notation w0 := (word e).
Notation ke := (tr_key e).

Lemma pass_live x r : live (e :: R) x r → r ∈ R ∧ live R x r ∧ (tr_tier r ≤ T)%nat.
Proof.
  intros HL. assert (Hr : r ∈ R).
  { destruct HL as ([-> |Hr]%elem_of_cons & Hp & _); [congruence|done]. }
  split_and!; [done|by apply live_more|by apply HT].
Qed.

(** The pass is not needed. *)
Lemma pass_skip ms : tinv R ms →
  (∀ x, wf_key x → rcovers e x → winner (e :: R) x T w0 → has_meta ms x T w0) → tinv (e :: R) ms.
Proof.
  intros I HS. constructor; try apply I.
  - intros k q Dk (r & Hr & Hp & Hc & Hl)%(t_sound _ _ I); [|done]. exists r.
    split_and!; try done; [by right|by apply lifted_more].
  - intros k m Dk (r & Hr & ?)%(t_metas _ _ I); [|done]. exists r. split; [by right|done].
  - intros x i w Wx HW. destruct (winner_more x i w HW) as [(_ & <- & <- & Hc)|HW']; [by apply HS|by apply (t_pass _ _ I)].
  - intros x r Wx HL. destruct (pass_live x r HL) as (_ & HL' & Ht). rewrite height_more by done. by apply (t_live _ _ I).
Qed.

Lemma wf_ke : wf_key ke.
Proof. apply (ok_key _ _ _ _ _ (pol_rule _ _ _ _ _ TP e He)). Qed.

Lemma tier_in : (T < n)%nat ∧ Lmin T ≤ w0 ≤ Lmax T.
Proof. by destruct (pol_rule _ _ _ _ _ TP e He). Qed.

(** An entry or a pass that makes the new pass redundant. *)
Lemma pass_covered ms k (v : mapStateEntry) : tinv R ms → ms_entries ms !! k = Some v → k ⊒ ke →
  (IsValid v && (Precedence v <=? Lmax T) && (w0 <? Precedence v)) ||
    existsb (λ p, (tierMinPrecedence p =? Lmin T) && (w0 <=? pm_precedence p)) (Passes v) = true →
  tinv (e :: R) ms.
Proof.
  intros I E Hk Hb. destruct tier_in as [Tn Tw]. apply pass_skip; [done|]. intros x Wx Hc [HP HW].
  assert (Wk : wf_key k) by (apply (sinv_wf _ _ _ (t_sinv _ _ I)); by exists v).
  assert (Hkx : k ⊒ x) by (apply (kcovers_trans _ k ke x); auto using wf_ke).
  assert (Dk : TrafficDirection k = dir) by (by rewrite (covers_direction k x Hkx); apply (rule_direction e)).
  apply orb_true_iff in Hb as [Hb|Hb].
  - rewrite !andb_true_iff, Z.leb_le, Z.ltb_lt in Hb. destruct Hb as [[Hv Hle] Hlt].
    destruct (t_sound _ _ I k (Precedence v) Dk) as (r & Hr & Hp & Hcr & Hl); [unfold vprec; rewrite E; simpl; unfold valid_prec; by rewrite Hv|].
    destruct (lifted_in_tier T k r (Precedence v)) as [Ht Hw]; auto; [lia|].
    exfalso. assert (Hcx : rcovers r x) by (apply (rcovers_trans cinfo n dir Lmax Lmin RF TP r k x); auto).
    specialize (HW r ltac:(by right) Ht Hcx). lia.
  - apply existsb_exists in Hb as (m & Hm%list_elem_of_In & Hb).
    rewrite andb_true_iff, Z.eqb_eq, Z.leb_le in Hb. destruct Hb as [Hmin Hle].
    assert (Hmk : m ∈ metas ms k) by (unfold metas; by rewrite E).
    destruct (t_metas _ _ I k m Dk Hmk) as (r & Hr & Hp & Hkr & ->). simpl in Hmin, Hle.
    assert (Ht : tr_tier r = T).
    { destruct (pol_rule _ _ _ _ _ TP r (HR r Hr)) as [Hrn _ Hw _ _ _].
      apply (tiers_disjoint n dir Lmax Lmin RF TP _ _ (Lmin T)); try done; lia. }
    exists k. split; [done|]. rewrite Ht in Hmk. replace w0 with (word r); [done|].
    assert (Hcx : rcovers r x) by (unfold TierOrder.rcovers; by rewrite Hkr).
    specialize (HW r ltac:(by right) Ht Hcx). lia.
Qed.

Lemma merge_new a m m' : pm_sorted a → pm_sorted [m] → m' ∈ merge_ref a [m] → m' ∈ a ∨ m' = m.
Proof.
  intros Sa Sm. rewrite merge_ref_elem by done. intros [[? _]|[?%list_elem_of_singleton _]]; auto.
Qed.

(** The pass is added. *)
Lemma pass_add ms ms1 ms2 : tinv R ms →
  (∀ m, m ∈ metas ms ke → tierMinPrecedence m = Lmin T → pm_precedence m < w0) →
  pruned cinfo (kcovers cinfo ke) w0 (lost w0) ms ms1 → sinv cinfo ms2 →
  (∀ k, vprec ms2 k = vprec ms1 k) → (∀ k, k ≠ ke → metas ms2 k = metas ms1 k) →
  metas ms2 ke = merge_ref (metas ms1 ke) [meta T w0] → tinv (e :: R) ms2.
Proof.
  intros I HB P S2 HV HM HMe. destruct tier_in as [Tn Tw]. pose proof wf_ke as Wke.
  assert (Sm : ∀ k, pm_sorted (metas ms1 k)).
  { intros k. unfold metas. destruct (ms_entries ms1 !! k) as [v|] eqn:E; [|constructor].
    apply (si_entry _ _ (pr_sinv _ _ _ _ _ _ P) k v E). }
  assert (S1 : pm_sorted [meta T w0]) by (repeat constructor).
  assert (Hsub : ∀ k q, vprec ms2 k = Some q → vprec ms k = Some q)
    by (intros k q; rewrite HV; apply (pruned_sub _ _ _ _ _ _ _ _ P)).
  assert (HN : meta T w0 ∈ metas ms2 ke).
  { rewrite HMe, merge_ref_elem by done. right. split; [by left|]. intros m Hm Ht. simpl in *.
    apply HB; [|done]. by apply (pr_metas _ _ _ _ _ _ P). }
  constructor; [done|..].
  - intros k k' q q' Dk Hk Hq%Hsub Hq'%Hsub. by apply (t_chain _ _ I k k').
  - intros k q Dk (r & Hr & Hp & Hc & Hl)%Hsub%(t_sound _ _ I); [|done]. exists r. split_and!; try done; [by right|by apply lifted_more].
  - intros k m Dk Hm.
    assert (m ∈ metas ms1 k ∨ k = ke ∧ m = meta T w0) as [Hm1|[-> ->]].
    { destruct (decide (k = ke)) as [->|Hn]; [|left; by rewrite <- HM]. rewrite HMe in Hm.
      apply merge_new in Hm; naive_solver. }
    + destruct (t_metas _ _ I k m) as (r & Hr & ?); [done|by apply (pr_metas _ _ _ _ _ _ P)|]. exists r. split; [by right|done].
    + exists e. split_and!; try done. by left.
  - intros x i w Wx HW. destruct (winner_more x i w HW) as [(_ & <- & <- & Hc)|HW']; [by exists ke|].
    destruct (t_pass _ _ I x i w Wx HW') as (k & Hkx & Hmk).
    assert (Hin : (i < n)%nat ∧ Lmin i ≤ w ≤ Lmax i).
    { destruct HW' as [HP _]. apply (passes_at_range cinfo n dir Lmax Lmin RF TP R HR x (Pmax R x)); [|done].
      exact (Pmax_pass cinfo Lmax Lmin R x). }
    pose proof (metas_wf _ _ _ (t_sinv _ _ I) Hmk) as Wk.
    assert (HW0 : ke ⊒ x → T = i → w0 ≤ w) by (intros Hc Ht; apply HW; [by left|done|done]).
    destruct (pr_kept _ _ _ _ _ _ P k _ Hmk) as [Hm1|[Hck Hl]].
    + destruct (decide (k = ke)) as [->|Hn]; [|exists k; by rewrite HM]. exists ke. split; [done|].
      rewrite HMe, merge_ref_elem by done. left. split; [done|]. intros m' ->%list_elem_of_singleton Et. simpl in *.
      apply HW0; [done|]. apply (tiers_disjoint n dir Lmax Lmin RF TP _ _ (Lmin i)); try tauto; lia.
    + destruct Hl as [Hl1 Hl2]. simpl in Hl1, Hl2.
      assert (Et : T = i) by (apply (tiers_disjoint n dir Lmax Lmin RF TP _ _ w0); tauto).
      assert (Hcx : ke ⊒ x) by (by apply (kcovers_trans _ ke k x)). specialize (HW0 Hcx Et).
      exists ke. split; [done|]. replace w with w0 by lia. by rewrite <- Et.
  - intros x r Wx HL. destruct (pass_live x r HL) as (Hr & HL' & Ht). rewrite height_more by done.
    destruct (t_live _ _ I x r Wx HL') as (k & q & Hq & Hk & Hle).
    pose proof (vprec_wf _ _ _ (t_sinv _ _ I) Hq) as Wk.
    destruct (pr_vprec _ _ _ _ _ _ P k) as [E|(Hck & _ & q' & Eq & Hle')].
    { exists k, q. rewrite HV, E. done. }
    exfalso. rewrite Hq in Eq. injection Eq as <-.
    assert (Hcx : ke ⊒ x) by (by apply (kcovers_trans _ ke k x)).
    destruct (elev_range cinfo n dir Lmax Lmin RF TP R HR x (Pmax R x) r (tr_tier r) (Pmax_pass cinfo Lmax Lmin R x) (HR r Hr) 0 eq_refl)
      as [[Hge _] _].
    change (elev Lmin (Pmax R x) 0 (tr_tier r) (word r)) with (height R x r) in Hge.
    destruct (decide (tr_tier r = T)) as [E|E].
    + destruct HL as (_ & Hp & _ & HL). destruct (HL e) as [Hw _]; [by left|done|]. specialize (Hw (eq_sym E)).
      pose proof (word_differs n dir Lmax Lmin RF TP e r He (HR r Hr) Hpass Hp). lia.
    + pose proof (tier_above n dir Lmax Lmin RF TP (tr_tier r) T ltac:(lia) Tn).
      destruct (pol_rule _ _ _ _ _ TP r (HR r Hr)) as [_ _ Hw _ _ _]. lia.
Qed.

Lemma pass_entry : IsValid (tr_entry e) = false ∧ passes (tr_entry e) = Some [meta T w0] ∧ tentry (tr_entry e).
Proof.
  destruct (ok_pass _ _ _ _ _ (pol_rule _ _ _ _ _ TP e He) Hpass) as (Hv & Hp & _). split_and!; [done|done|].
  constructor; [congruence|]. unfold Passes. rewrite Hp. repeat constructor.
Qed.

Lemma insert_pass_tinv ms ch : tinv R ms →
  tinv (e :: R) (insert_pass ms (Lmax T) ke (tr_entry e) (meta T w0) ch).1.
Proof.
  intros I. unfold insert_pass. destruct (covered_by _ _ _) eqn:Ec.
  - apply covered_by_true in Ec as (k & v & E & Hk & Hb); [|apply I|apply wf_ke].
    rewrite (si_cinfo _ _ (t_sinv _ _ I)) in Hk. by apply (pass_covered ms k v).
  - pose proof (covered_by_false _ _ _ (si_inv _ _ (t_sinv _ _ I)) wf_ke Ec) as Hb. clear Ec. cbn beta in Hb.
    destruct pass_entry as (Hv & Hp & Te).
    destruct (prune_covered_view cinfo ke (tr_entry e) w0 (ms, ch) (t_sinv _ _ I) wf_ke) as [P _]; [congruence|].
    change (pm_precedence (meta T w0)) with w0.
    set (s := prune_covered ke (tr_entry e) w0 (ms, ch)) in *.
    destruct (addKey_view cinfo s.1 ke (tr_entry e) s.2 (pr_sinv _ _ _ _ _ _ P) wf_ke Te) as (S2 & HN & HV & HM).
    unfold Passes in HM. rewrite Hp in HM. unfold valid_prec in HV. rewrite Hv in HV.
    apply (pass_add ms s.1); try done.
    + intros m Hm Ht. unfold metas in Hm. destruct (ms_entries ms !! ke) as [v|] eqn:E; [|by apply elem_of_nil in Hm].
      specialize (Hb ke v E (kcovers_refl _ _)). apply orb_false_iff in Hb as [_ Hb].
      destruct (Z.lt_ge_cases (pm_precedence m) w0) as [|Hge]; [done|]. exfalso.
      rewrite <- not_true_iff_false, existsb_exists in Hb. apply Hb. exists m.
      rewrite andb_true_iff, Z.eqb_eq, Z.leb_le. split; [by apply list_elem_of_In|done].
    + intros k. destruct (decide (k = ke)) as [->|Hn]; [|by apply HN]. rewrite HV. by destruct (vprec s.1 ke).
    + intros k Hn. by apply HN.
Qed.

Lemma insert_pass_rule ms features ch : contains features passRules = true → tinv R ms →
  tinv (e :: R) (insertWithChanges ms (Lmax T) ke (tr_entry e) features ch).1.
Proof.
  intros Hf I. destruct pass_entry as (Hv & Hp & Te). destruct tier_in as [Tn Tw].
  unfold insertWithChanges. destruct (aggregateIsEquivalent _ _ _) eqn:Ea.
  - unfold aggregateIsEquivalent in Ea. rewrite (si_cinfo _ _ (t_sinv _ _ I)) in Ea.
    destruct (_ =? _); [done|]. set (ka := WithIdentity _ _) in Ea.
    destruct (ms_entries ms !! ka) as [v|] eqn:E; [|done].
    apply (pass_covered ms ka v); try done; [split; [apply lpm_le_refl|by right]|].
    unfold equivalent in Ea. rewrite !andb_true_iff, !bool_decide_eq_true in Ea. destruct Ea as [[_ Ep] _].
    apply orb_true_iff. right. unfold Passes. rewrite Ep, Hp. simpl. by rewrite Z.eqb_refl, Z.leb_refl.
  - rewrite Hf. unfold insertWithPasses. rewrite Hv, Hp. cbn [andb orb]. rewrite orb_false_r.
    destruct (Z.land _ _ =? 255) eqn:El; cbn [negb].
    + destruct (Z.ltb_spec (Lmax T) (pm_precedence (meta T w0))) as [Hlt|_]; [simpl in Hlt; lia|].
      by apply insert_pass_tinv.
    + exfalso. apply Z.eqb_neq in El. apply El. change 255 with (Z.ones 8). rewrite Z.land_ones by lia.
      apply (lay_max _ _ _ (pol_layout _ _ _ _ _ TP) T Tn).
Qed.
End pass.
End more.
End rules.
End invariant.
