(* ===== verification/TierInsert.v ===== *)
(** * Insertion of an allow or deny rule with passes

    Inserting an allow or deny rule of the current tier keeps the invariant of
    [TierInvariant]: the rule is lifted at every key where the passes of the earlier
    tiers meet, whichever of the two scans or the work list finds it. *)

From S2P Require Import Prelude Precedence BitLPM PolicyKey Identity RuleOrigin PassMeta.
From S2P Require Import MapState MapStateIndex MapStateLookup MapStateOps MapStatePolicy.
From S2P Require Import TierOrder TierState TierScan TierInvariant.

Local Open Scope Z_scope.

Section insert.
Context {TR : Trie LPMKey IDSet} {TL : TrieLaws LPMKey IDSet TR} {GR : GoRange}.
Context (cinfo : ClusterInfo) (n : nat) (dir : Z) (Lmax Lmin : nat → Z) (RF : list trule).
Context (TP : tpolicy n dir Lmax Lmin RF) (R : list trule) (HR : ∀ r, r ∈ R → r ∈ RF).
Context (e : trule) (He : e ∈ RF) (HT : ∀ r, r ∈ R → (tr_tier r ≤ tr_tier e)%nat).
Context (Hverdict : is_pass e = false).
Implicit Types (ms : mapState TR) (k x y z : Key) (v : mapStateEntry) (r : trule) (p q : Z).
Implicit Types (s : mapState TR * ChangeState).

Notation "k ⊒ x" := (kcovers cinfo k x) (at level 70).
Notation rcovers := (rcovers cinfo).
Notation passes_at := (passes_at cinfo R).
Notation Pmax := (Pmax cinfo R).
Notation meta := (meta Lmax Lmin).
Notation height := (height cinfo Lmin R).
Notation live := (live cinfo).
Notation T := (tr_tier e).
Notation ke := (tr_key e).
Notation E := (tr_entry e).
Notation reaches := (reaches cinfo).
Notation winner := (winner cinfo (e :: R)).
Notation lifted := (lifted cinfo Lmin R).
Notation lift_by f := (elev Lmin f 0 T (word e)).

Lemma tier_e : (T < n)%nat ∧ Lmin T ≤ word e ≤ Lmax T ∧ 0 ≤ Lmin T.
Proof.
  destruct (pol_rule _ _ _ _ _ TP e He) as [Tn _ Tw _ _ _].
  pose proof (lay_pos _ _ _ (pol_layout _ _ _ _ _ TP) T Tn). split_and!; try done; lia.
Qed.

Lemma wf_e : wf_key ke.
Proof. apply (ok_key _ _ _ _ _ (pol_rule _ _ _ _ _ TP e He)). Qed.

Lemma plain_e : plain_entry E ∧ word e = Precedence E.
Proof.
  split; [apply (ok_verdict _ _ _ _ _ (pol_rule _ _ _ _ _ TP e He) Hverdict)|].
  apply (word_verdict n dir Lmax Lmin RF TP e He Hverdict).
Qed.

Lemma word_pos : 0 < word e.
Proof.
  destruct (word_verdict n dir Lmax Lmin RF TP e He Hverdict) as [_ H]. destruct tier_e as (_ & ? & ?).
  destruct (decide (word e = 0)) as [Hz|]; [by rewrite Hz in H|lia].
Qed.

Lemma dir_of z : ke ⊒ z → TrafficDirection z = dir.
Proof. apply (rule_direction cinfo n dir Lmax Lmin RF TP e z He). Qed.

Lemma dir_le (k z : Key) : lpm_le k z → ke ⊒ z → TrafficDirection k = dir.
Proof. intros [-> _]. apply dir_of. Qed.

(** The invariant between the steps: entries of the new rule are lifted above its
    tier, except at its own key. *)
Record mid ms : Prop := {
  m_sinv : sinv cinfo ms;
  m_chain k k' q q' : TrafficDirection k = dir → k ⊒ k' → vprec ms k = Some q → vprec ms k' = Some q' → q ≤ q';
  m_sound k q : TrafficDirection k = dir → vprec ms k = Some q →
    ∃ r, (r ∈ R ∨ r = e ∧ (k = ke ∨ Lmax T < q)) ∧ is_pass r = false ∧ rcovers r k ∧ lifted k r q;
  m_metas k m : TrafficDirection k = dir → m ∈ metas ms k →
    ∃ r, r ∈ R ∧ is_pass r = true ∧ tr_key r = k ∧ m = meta (tr_tier r) (word r);
  m_pass x i w : wf_key x → winner x i w → has_meta cinfo Lmax Lmin ms x i w;
  m_live x r : wf_key x → live R x r → reaches ms x (height x r);
}.

Lemma tinv_mid ms : tinv cinfo dir Lmax Lmin R ms → mid ms.
Proof.
  intros I. constructor; try apply I.
  - intros k q Dk (r & Hr & ?)%(t_sound _ _ _ _ _ _ I); [|done]. exists r. split; [by left|done].
  - intros x i w Wx HW. apply (t_pass _ _ _ _ _ _ I); [done|].
    destruct (winner_more cinfo R e x i w HW) as [(? & _)|]; [congruence|done].
Qed.

(** The new rule reaches every key it decides. *)
Definition decided ms : Prop := ∀ x, wf_key x → live (e :: R) x e → reaches ms x (height x e).

Lemma mid_tinv ms : mid ms → decided ms → tinv cinfo dir Lmax Lmin (e :: R) ms.
Proof.
  intros M HD. constructor; try apply M.
  - intros k q Dk (r & Hr & Hp & Hc & Hl)%(m_sound _ M); [|done]. exists r.
    split_and!; try done; [|by apply lifted_more]. apply elem_of_cons. tauto.
  - intros k m Dk (r & Hr & ?)%(m_metas _ M); [|done]. exists r. split; [by right|done].
  - intros x r Wx HL. assert (Hin : r ∈ e :: R) by apply HL. apply elem_of_cons in Hin as [-> |Hr].
    + rewrite height_more by done. by apply HD.
    + rewrite height_more by (by apply HT). apply (m_live _ M); [done|].
      apply (live_more cinfo R e); auto.
Qed.

Definition grew ms ms' : Prop := ∀ x p, wf_key x → reaches ms x p → reaches ms' x p.
Definition kept ms ms' : Prop := ∀ x i w k, wf_key x → winner x i w → k ⊒ x →
  meta i w ∈ metas ms k → meta i w ∈ metas ms' k.

(** ** Adding the rule at a key *)

Lemma lift_mod k f : passes_at k f → lift_by f mod 256 = word e mod 256.
Proof.
  intros Hf. generalize 0%nat, T. intros i d. revert i. induction d as [|d IH]; intros i; simpl; [done|].
  rewrite <- (IH (S i)). unfold tier_lift. destruct (f i) as [m|] eqn:Em; [|f_equal; lia].
  destruct (passes_at_range cinfo n dir Lmax Lmin RF TP R HR k f i m Hf Em) as [Hi _].
  pose proof (lay_min _ _ _ (pol_layout _ _ _ _ _ TP) i Hi).
  apply Hf in Em as (r & Hr & Hp & _ & _ & <-).
  destruct (ok_pass _ _ _ _ _ (pol_rule _ _ _ _ _ TP r (HR r Hr)) Hp) as (_ & _ & Hm). dlia.
Qed.

Lemma lift_range k f : passes_at k f → word e ≤ lift_by f < 2 ^ 32.
Proof.
  intros Hf. destruct tier_e as (Tn & _ & _).
  destruct (elev_range cinfo n dir Lmax Lmin RF TP R HR k f e T Hf He 0 eq_refl) as [H _].
  pose proof (lay_word _ _ _ (pol_layout _ _ _ _ _ TP) 0%nat ltac:(lia)). lia.
Qed.

Lemma passed_plain k f : passes_at k f → plain_entry (passed E (lift_by f)) ∧ Precedence (passed E (lift_by f)) = lift_by f.
Proof.
  intros Hf. destruct plain_e as [[W V P] Ew]. pose proof (lift_mod k f Hf) as Hm. pose proof (lift_range k f Hf) as Hr.
  set (p := lift_by f) in *. clearbody p. split; [|done]. rewrite Ew in Hm, Hr. destruct W as [Wp Wo Wn Wd Wa]. constructor; [|done|done].
  constructor; cbn; try done; [|by rewrite Hm..]. unfold is_uint in *. lia.
Qed.

(** A winning pass is above everything the new rule is lifted to. *)
Lemma winner_not_lost x y i w f : wf_key x → wf_key y → (i < n)%nat → ke ⊒ y → y ⊒ x →
  winner x i w → passes_at y f → ¬ lost (lift_by f) (meta i w).
Proof.
  intros Wx Wy Hi Hky Hyx [HP HW] Hf [Hl1 Hl2]. simpl in Hl1, Hl2. destruct tier_e as (Tn & Tw & _).
  destruct (elev_tier cinfo n dir Lmax Lmin RF TP R HR y f e T Hf He 0) as [[_ Ew]|(j & m & Hj & Hfj & Hm)]; [done| |].
  - rewrite Ew in *. assert (T = i) as <- by (by apply (tiers_disjoint n dir Lmax Lmin RF TP _ _ (word e))).
    assert (Hle : word e ≤ w).
    { apply HW; [by left|done|]. by apply (kcovers_trans _ ke y x); auto using wf_e. }
    assert (w = word e) as -> by lia. simpl in HP. rewrite Hverdict in HP. simpl in HP.
    apply (Pmax_pass cinfo Lmax Lmin) in HP as (r & Hr & Hp & _ & _ & Ewr).
    by apply (word_differs n dir Lmax Lmin RF TP r e (HR r Hr) He Hp Hverdict).
  - destruct (passes_at_range cinfo n dir Lmax Lmin RF TP R HR y f j m Hf Hfj) as [Hjn Hjm].
    assert (j = i) as -> by (apply (tiers_disjoint n dir Lmax Lmin RF TP _ _ (lift_by f)); try done; lia).
    apply Hf in Hfj as (r & Hr & _ & Ht & Hc & <-).
    assert (word r ≤ w); [|lia]. apply HW; [by right|done|].
    apply (rcovers_trans cinfo n dir Lmax Lmin RF TP r y x); auto.
Qed.

Definition lost_by f (m : passMeta) : Prop := lost (lift_by f) m ∨ lost (word e) m.

Lemma elev_none i d p : elev Lmin (λ _, None) i d p = p.
Proof. revert i. induction d as [|d IH]; intros i; simpl; [done|]. rewrite IH. unfold tier_lift. lia. Qed.

Lemma winner_kept x y i w f : wf_key x → wf_key y → ke ⊒ y → y ⊒ x →
  winner x i w → passes_at y f → ¬ lost_by f (meta i w).
Proof.
  intros Wx Wy Hky Hyx HW Hf.
  assert (Hi : (i < n)%nat).
  { destruct HW as [HP _]. simpl in HP. rewrite Hverdict in HP. simpl in HP.
    by apply (passes_at_range cinfo n dir Lmax Lmin RF TP R HR x (Pmax x) i w (Pmax_pass cinfo Lmax Lmin R x)). }
  intros [Hl|Hl]; [by apply (winner_not_lost x y i w f)|].
  apply (winner_not_lost x y i w (λ _, None)); try done. by rewrite elev_none.
Qed.

Lemma add_step ms ms1 y f ch : mid ms → wf_key y → ke ⊒ y → passes_at y f →
  y = ke ∨ Lmax T < lift_by f →
  pruned cinfo (kcovers cinfo y) (lift_by f) (lost_by f) ms ms1 → low (kcovers cinfo y) (lift_by f) ms1 →
  (∀ k q, k ⊒ y → vprec ms k = Some q → q ≤ lift_by f) →
  let ms2 := (addKeyWithChanges ms1 y (passed E (lift_by f)) ch).1.1 in
  mid ms2 ∧ grew ms ms2 ∧ kept ms ms2 ∧ vprec ms2 y = Some (lift_by f).
Proof.
  intros M Wy Hky Hf Hor P HL HU. cbn zeta. destruct (passed_plain y f Hf) as [[We Ve Pe] Ep].
  assert (Te : tentry (passed E (lift_by f))) by (constructor; [done|unfold Passes; rewrite Pe; constructor]).
  destruct (addKey_view cinfo ms1 y _ ch (pr_sinv _ _ _ _ _ _ P) Wy Te) as (S2 & HN & HV & HM).
  set (ms2 := (addKeyWithChanges _ _ _ _).1.1) in *. unfold valid_prec in HV. rewrite Ve, Ep in HV.
  unfold Passes in HM. rewrite Pe in HM. simpl in HM. rewrite merge_ref_nil_r in HM. clear We Ve Pe Ep Te.
  set (p := lift_by f) in *.
  pose proof (λ k q, pruned_sub _ _ _ _ _ _ k q P) as Hsub.
  assert (HVy : vprec ms2 y = Some p).
  { rewrite HV. destruct (vprec ms1 y) as [q|] eqn:Eq; [|done]. simpl. f_equal.
    pose proof (HL y q (kcovers_refl _ _) Eq). pose proof (HU y q (kcovers_refl _ _) (Hsub _ _ Eq)). lia. }
  assert (HMk : ∀ k, metas ms2 k = metas ms1 k) by (intros k; destruct (decide (k = y)) as [->|]; [done|by apply HN]).
  assert (HVk : ∀ k q, vprec ms2 k = Some q → k = y ∧ q = p ∨ k ≠ y ∧ vprec ms1 k = Some q).
  { intros k q Hq. destruct (decide (k = y)) as [->|Hn]; [left; split; congruence|right].
    destruct (HN k Hn) as [E1 _]. by rewrite <- E1. }
  assert (HG : grew ms ms2).
  { intros x p0 Wx (k & q & Hq & Hk & Hle). destruct (pr_vprec _ _ _ _ _ _ P k) as [Eq|(Hc & _ & q' & Eq & Hle')].
    - rewrite Hq in Eq. destruct (decide (k = y)) as [->|Hn].
      + exists y, p. split_and!; [done|done|]. pose proof (HU y q (kcovers_refl _ _) Hq). lia.
      + exists k, q. destruct (HN k Hn) as [-> _]. done.
    - exists y, p. rewrite Hq in Eq. injection Eq as <-. split_and!; [done| |lia].
      apply (kcovers_trans _ y k x); try done. by apply (vprec_wf cinfo ms k q (m_sinv _ M)). }
  assert (HK : kept ms ms2).
  { intros x i w k Wx HW Hk Hm. rewrite HMk. destruct (pr_kept _ _ _ _ _ _ P k _ Hm) as [|[Hc Hl]]; [done|].
    exfalso. apply (winner_kept x y i w f); try done. apply (kcovers_trans _ y k x); try done.
    by apply (metas_wf cinfo ms k _ (m_sinv _ M) Hm). }
  split_and!; try done. constructor; [done|..].
  - intros k k' q q' Dk Hkk [[-> ->]|[Hn Hq]]%HVk [[-> ->]|[Hn' Hq']]%HVk; [done|by apply (HL k')|by apply (HU k); auto|].
    apply (m_chain _ M k k'); auto.
  - intros k q Dk [[-> ->]|[Hn Hq]]%HVk; [|by apply (m_sound _ M); [|apply Hsub]].
    exists e. split; [right; split; [done|destruct Hor; auto]|]. split; [done|]. split; [done|]. by exists f.
  - intros k m Dk. rewrite HMk. intros Hm. by apply (m_metas _ M); [|apply (pr_metas _ _ _ _ _ _ P)].
  - intros x i w Wx HW. destruct (m_pass _ M x i w Wx HW) as (k & Hk & Hm). exists k. split; [done|]. by apply (HK x i w k).
  - intros x r Wx HLr. by apply HG, (m_live _ M).
Qed.
(** ** The scan of the broader keys *)

Notation agg := (aggregateFor (Identity ke) cinfo).
Notation broader ms z := (entries_of ms (BroaderOrEqualKeys ms z)).

Lemma agg_of z : ke ⊒ z → aggregateFor (Identity z) cinfo = agg.
Proof. intros [_ [->| ->]]; [done|]. by rewrite aggregateFor_idem. Qed.

Lemma WithIdentity_covers z k : z ⊒ WithIdentity z (Identity k) ↔ Identity z = Identity k ∨ Identity z = aggregateFor (Identity k) cinfo.
Proof. unfold kcovers. simpl. split; [tauto|]. intros H. split; [apply lpm_le_refl|done]. Qed.

Lemma broader_cases ms z k v : sinv cinfo ms → wf_key z → ke ⊒ z → (k, v) ∈ broader ms z →
  ms_entries ms !! k = Some v ∧
  (cov agg z k = true ∧ k ⊒ z ∨
   cov agg z k = false ∧ Identity z = agg ∧ Identity k ≠ agg ∧ aggregateFor (Identity k) cinfo = agg ∧ lpm_le k z).
Proof.
  intros S Wz Hz [Hk Ev]%elem_of_entries_of. split; [done|].
  apply broader_keys in Hk as (_ & Hle & Hid); [|apply S|done].
  rewrite (si_cinfo _ _ S), (agg_of z Hz) in Hid. pose proof (agg_of z Hz) as Ha.
  unfold cov, kcovers. rewrite Ha.
  destruct (Z.eqb_spec (Identity z) agg) as [Ez|Ez]; cbn [negb orb].
  - destruct (Z.eqb_spec (Identity k) agg) as [Ek|Ek]; [left; auto|right]. split_and!; try done.
    destruct Hid as [?|[?|?]]; congruence.
  - left. split; [done|]. split; [done|]. destruct Hid as [?|[?|Hid]]; auto.
    destruct Ez. by rewrite <- Ha, <- Hid, aggregateFor_idem.
Qed.

Lemma covering_broader ms z k v : sinv cinfo ms → wf_key z → ke ⊒ z → ms_entries ms !! k = Some v → k ⊒ z →
  (k, v) ∈ broader ms z ∧ cov agg z k = true.
Proof.
  intros S Wz Hz Ev Hk.
  assert (Hin : (k, v) ∈ broader ms z).
  { apply elem_of_entries_of. split; [|done]. apply broader_keys; [apply S|done|]. destruct Hk as [Hl Hi].
    rewrite (si_cinfo _ _ S). split_and!; [by exists v|done|tauto]. }
  split; [done|]. destruct (broader_cases ms z k v S Wz Hz Hin) as [_ [[? _]|(_ & Ez & Ek & _)]]; [done|].
  destruct Hk as [_ [Hi|Hi]]; [congruence|]. by rewrite (agg_of z Hz) in Hi.
Qed.

(** The passes a scan collects, as a function of the tier. *)
Lemma sorted_unique l (m m' : passMeta) : pm_sorted l → m ∈ l → m' ∈ l →
  tierMinPrecedence m = tierMinPrecedence m' → m = m'.
Proof.
  induction 1 as [|a l HS IH Hb]; [by intros ?%elem_of_nil|]. rewrite Forall_forall in Hb.
  intros [-> |Hm]%elem_of_cons [-> |Hm']%elem_of_cons Et; [done| | |by apply IH].
  - specialize (Hb m' Hm'). lia.
  - specialize (Hb m Hm). lia.
Qed.

Definition pass_below z (m : passMeta) : Prop :=
  ∃ r, r ∈ R ∧ is_pass r = true ∧ rcovers r z ∧ (tr_tier r < T)%nat ∧ m = meta (tr_tier r) (word r).

Lemma collected_passes (l : passMetas) z : pm_sorted l → (∀ m, m ∈ l → pass_below z m) →
  ∃ f, passes_at z f ∧ ∀ m, m ∈ l ↔ ∃ i w, (i < T)%nat ∧ f i = Some w ∧ m = meta i w.
Proof.
  intros HS Hl. destruct tier_e as (Tn & _).
  set (f := λ i, if decide ((i < T)%nat ∧ Exists (λ r, tr_tier r = i) R)
    then pm_precedence <$> head (filter (λ m, tierMinPrecedence m = Lmin i) l) else None).
  assert (Hf : ∀ i w, f i = Some w → (i < T)%nat ∧ meta i w ∈ l ∧
    ∃ r, r ∈ R ∧ is_pass r = true ∧ tr_tier r = i ∧ rcovers r z ∧ word r = w).
  { intros i w. unfold f. case_decide as HiE; [|done]. destruct HiE as [Hi (ri & Hri & Eri)%Exists_exists]. intros (m & Hm & ->)%fmap_Some.
    assert (Hin : m ∈ filter (λ m, tierMinPrecedence m = Lmin i) l) by (destruct (filter _ l); [done|]; injection Hm as ->; by left).
    apply list_elem_of_filter in Hin as [Et Hin]. destruct (Hl m Hin) as (r & Hr & Hp & Hc & Ht & ->). simpl in *.
    destruct (pol_rule _ _ _ _ _ TP r (HR r Hr)) as [Hrn _ Hw _ _ _].
    assert (tr_tier r = i) as <-.
    { destruct (pol_rule _ _ _ _ _ TP ri (HR ri Hri)) as [_ _ Hwi _ _ _]. rewrite Eri in Hwi.
      apply (tiers_disjoint n dir Lmax Lmin RF TP _ _ (Lmin i)); try lia. }
    split_and!; try done. by exists r. }
  exists f. split; [intros i w Hw; by apply Hf|]. intros m. split.
  - intros Hm. destruct (Hl m Hm) as (r & Hr & Hp & Hc & Ht & ->).
    assert (Hin : meta (tr_tier r) (word r) ∈ filter (λ m, tierMinPrecedence m = Lmin (tr_tier r)) l)
      by (by apply list_elem_of_filter).
    exists (tr_tier r). unfold f. rewrite decide_True by (split; [done|apply Exists_exists; by exists r]).
    destruct (filter _ l) as [|m' l'] eqn:Ef; [by apply elem_of_nil in Hin|].
    assert (Hin' : m' ∈ filter (λ m, tierMinPrecedence m = Lmin (tr_tier r)) l) by (rewrite Ef; by left).
    apply list_elem_of_filter in Hin' as [Et Hin']. simpl.
    rewrite (sorted_unique l m' (meta (tr_tier r) (word r))); try done. by exists (word r).
  - intros (i & w & Hi & Hw & ->). by apply Hf.
Qed.

(** An old rule of the tier that is at least as high decides the key instead. *)
Definition blocked y : Prop :=
  ∃ r, r ∈ R ∧ is_pass r = false ∧ tr_tier r = T ∧ rcovers r y ∧ word e ≤ word r.

(** A key at which an earlier tier has a pass. *)
Definition queueable y : Prop :=
  wf_key y ∧ ke ⊒ y ∧ ∃ r, r ∈ R ∧ is_pass r = true ∧ (tr_tier r < T)%nat ∧ rcovers r y.

Lemma meta_above ms k m : mid ms → TrafficDirection k = dir → m ∈ metas ms k → Precedence E < tierMinPrecedence m →
  ∃ r, r ∈ R ∧ is_pass r = true ∧ tr_key r = k ∧ (tr_tier r < T)%nat ∧ m = meta (tr_tier r) (word r).
Proof.
  intros M Dk Hm Hlt. destruct plain_e as [_ Ew]. destruct tier_e as (Tn & Tw & _).
  destruct (m_metas _ M k m Dk Hm) as (r & Hr & Hp & Hk & ->). exists r. split_and!; try done. simpl in Hlt.
  pose proof (HT r Hr). destruct (decide (tr_tier r = T)) as [Et|]; [|lia]. rewrite Et in Hlt. lia.
Qed.

Lemma meta_tier i : (i < T)%nat → word e < Lmin i ∧ Lmax T < Lmin i.
Proof. intros Hi. destruct tier_e as (Tn & Tw & _). pose proof (tier_above n dir Lmax Lmin RF TP i T Hi Tn). lia. Qed.

Lemma Lmin_inj i j : (i < n)%nat → (j < n)%nat → Lmin i ≤ Lmax i → Lmin j ≤ Lmax j → Lmin j = Lmin i → j = i.
Proof. intros Hi Hj Hmi Hmj Em. apply (tiers_disjoint n dir Lmax Lmin RF TP _ _ (Lmin i)); try lia. Qed.

Section scanned.
Context (main : bool) (ms : mapState TR) (z : Key) (s0 sc : scan).
Context (M : mid ms) (Wz : wf_key z) (Hz : ke ⊒ z).
Context (Hsc : scan_broader main (Lmax T) agg z E (broader ms z) s0 = Some sc).

Lemma scanned_run : sc = run_scan (Lmax T) agg z E (broader ms z) s0.
Proof. rewrite scan_broader_run in Hsc. destruct (main && _); [done|]. by injection Hsc. Qed.

Lemma scanned_passes : sc_passes s0 = [] → ∃ f, passes_at z f ∧
  InheritPassPrecedence (Precedence E) (sc_passes sc) = lift_by f ∧
  (sc_passes sc = [] → lift_by f = word e) ∧ (sc_passes sc ≠ [] → Lmax T < lift_by f) ∧
  ∀ k i w, k ⊒ z → meta i w ∈ metas ms k → (i < T)%nat → ∃ w', f i = Some w' ∧ w ≤ w'.
Proof.
  intros H0. rewrite scanned_run. unfold run_scan. cbn [sc_passes]. rewrite H0.
  destruct (Collect_all [] (broader ms z ≫= ev_passes agg z E)) as (HS & HE & HD); [constructor|].
  set (ps := foldl Collect [] _) in *. destruct plain_e as [_ Ew].
  assert (HB : ∀ m, m ∈ ps → pass_below z m).
  { intros m [?%elem_of_nil|Hm]%HE; [done|]. apply elem_of_ev_passes in Hm as (k & v & Hin & Hc & Hm & Hlt).
    destruct (broader_cases ms z k v (m_sinv _ M) Wz Hz Hin) as [Ev [[_ Hk]|[? _]]]; [|congruence].
    destruct (meta_above ms k m M) as (r & Hr & Hp & Hkr & Ht & ->); [by apply (dir_le k z); [apply Hk|]|unfold metas; by rewrite Ev|done|].
    exists r. split_and!; try done. unfold TierOrder.rcovers. by rewrite Hkr. }
  destruct (collected_passes ps z HS HB) as (f & Hf & Hps). exists f. split; [done|].
  split; [rewrite <- Ew; by apply (inherit_elev cinfo n dir Lmax Lmin RF TP R HR z f e ps)|].
  assert (HC : ∀ k i w, k ⊒ z → meta i w ∈ metas ms k → (i < T)%nat → ∃ w', f i = Some w' ∧ w ≤ w').
  { intros k i w Hk Hm Hi. assert (Dk : TrafficDirection k = dir) by (by apply (dir_le k z); [apply Hk|]). destruct (meta_tier i Hi) as [Hi1 _]. destruct (HD (meta i w)) as (m' & Hm' & Et & Hle).
    - right. split.
      + unfold metas in Hm. destruct (ms_entries ms !! k) as [v|] eqn:Ev; [|by apply elem_of_nil in Hm].
        destruct (covering_broader ms z k v (m_sinv _ M) Wz Hz Ev Hk) as [Hin Hc].
        apply elem_of_ev_passes. exists k, v. split_and!; try done. simpl. lia.
      + destruct (m_metas _ M k _ Dk Hm) as (r & Hr & _ & _ & Eq). rewrite Eq. pose proof word_pos.
        destruct (pol_rule _ _ _ _ _ TP r (HR r Hr)) as [_ _ Hw _ _ _]. injection Eq as _ _ Emin.
        unfold in_tier. simpl. lia.
    - apply Hps in Hm' as (j & w' & Hj & Hw' & ->). simpl in Et, Hle. exists w'. split; [|done].
      destruct (passes_at_range cinfo n dir Lmax Lmin RF TP R HR z f j w' Hf Hw') as [Hjn Hjr].
      destruct (m_metas _ M k _ Dk Hm) as (r & Hr & _ & _ & [= _ Emax Emin]).
      destruct (pol_rule _ _ _ _ _ TP r (HR r Hr)) as [_ _ Hw _ _ _]. destruct tier_e as (Tn & _).
      rewrite <- (Lmin_inj i j); try done; lia. }
  destruct (elev_tier cinfo n dir Lmax Lmin RF TP R HR z f e T Hf He 0) as [[Hn El]|(j & w & Hj & Hfj & Hw)]; [done| |].
  - split_and!; [done| |done]. intros Hne. destruct ps as [|m ps']; [done|].
    destruct (Hps m) as [(i & w & Hi & Hw & _) _]; [by left|]. rewrite Hn in Hw by lia. done.
  - assert (Hp : meta j w ∈ ps) by (apply Hps; exists j, w; split_and!; [lia|done|done]).
    split_and!; [intros Hnil; rewrite Hnil in Hp; by apply elem_of_nil in Hp| |done].
    intros _. destruct (meta_tier j ltac:(lia)). lia.
Qed.

Lemma scanned_bail : sc_bail s0 = 0 →
  (sc_bail sc = 0 ∨ Lmax T < sc_bail sc ∧ ∃ k, k ⊒ z ∧ vprec ms k = Some (sc_bail sc)) ∧
  ∀ k q, k ⊒ z → vprec ms k = Some q → q ≤ word e ∨ main = false ∧ q ≤ Lmax T ∨ q ≤ sc_bail sc.
Proof.
  intros H0. destruct plain_e as [_ Ew]. split.
  - rewrite scanned_run. unfold run_scan. cbn [sc_bail]. rewrite H0.
    destruct (foldl_max 0 (broader ms z ≫= ev_bail (Lmax T) agg z E)) as (_ & _ & [?|Hin]); [by left|right].
    apply elem_of_ev_bail in Hin as (k & v & Hin & Hc & Hb & Hlt & Eq). rewrite <- Eq in *. split; [done|].
    destruct (broader_cases ms z k v (m_sinv _ M) Wz Hz Hin) as [Ev [[_ Hk]|[? _]]]; [|congruence].
    exists k. split; [done|]. unfold vprec. rewrite Ev. simpl. unfold valid_prec.
    by destruct (beats_le _ _ _ _ Hb) as [-> _].
  - intros k q Hk Hq. unfold vprec in Hq. apply bind_Some in Hq as (v & Ev & Hq). unfold valid_prec in Hq.
    destruct (IsValid v) eqn:Vv; [|done]. injection Hq as <-.
    destruct (covering_broader ms z k v (m_sinv _ M) Wz Hz Ev Hk) as [Hin Hc].
    assert (HB : beats z E k v = true → Lmax T < Precedence v → Precedence v ≤ sc_bail sc).
    { intros Hb Hlt. rewrite scanned_run. unfold run_scan. cbn [sc_bail]. apply foldl_max.
      apply elem_of_ev_bail. by exists k, v. }
    rewrite scan_broader_run in Hsc. destruct main.
    + cbn [andb] in Hsc. destruct (existsb _ _) eqn:Ex; [done|].
      destruct (stop_false (Lmax T) agg z E k v) as [?|[? ?]]; try done; [|lia|auto].
      destruct (stop (Lmax T) agg z E (k, v)) eqn:Es; [|done]. rewrite <- Ex. symmetry. apply existsb_exists.
      exists (k, v). split; [by apply list_elem_of_In|done].
    + destruct (beats z E k v) eqn:Eb; [|left; pose proof (beats_false _ _ _ _ Eb Vv); lia].
      destruct (Z.le_gt_cases (Precedence v) (Lmax T)); auto.
Qed.

Lemma scanned_l34 y : y ∈ default ∅ (sc_l34Keys sc) → y ∈ default ∅ (sc_l34Keys s0) ∨ queueable y.
Proof.
  rewrite scanned_run. unfold run_scan. cbn [sc_l34Keys]. rewrite foldl_Keys_Insert. intros [?|Hy]; [by left|right].
  apply elem_of_ev_l34 in Hy as (k & v & Hin & Hc & Hh & ->).
  destruct (broader_cases ms z k v (m_sinv _ M) Wz Hz Hin) as [Ev [[? _]|(_ & Ez & Ek & Ea & Hle)]]; [congruence|].
  apply higher_spec in Hh as (m & Hm & Hlt).
  assert (Hmk : m ∈ metas ms k) by (unfold metas; by rewrite Ev).
  destruct (meta_above ms k m M (dir_le k z Hle Hz) Hmk Hlt) as (r & Hr & Hp & Hkr & Ht & ->).
  pose proof (metas_wf cinfo ms k _ (m_sinv _ M) Hmk) as Wk.
  assert (Wy : wf_key (WithIdentity z (Identity k))) by (apply WithIdentity_wf; [done|apply Wk]).
  split_and!; [done| |].
  - apply (kcovers_trans _ ke z _ wf_e Wz Wy Hz). apply WithIdentity_covers. right. congruence.
  - exists r. split_and!; try done. unfold TierOrder.rcovers. rewrite Hkr. split; [done|by left].
Qed.

Lemma scanned_l34_all k m : lpm_le k z → Identity z = agg → aggregateFor (Identity k) cinfo = agg → Identity k ≠ agg →
  m ∈ metas ms k → Precedence E < tierMinPrecedence m → WithIdentity z (Identity k) ∈ default ∅ (sc_l34Keys sc).
Proof.
  intros Hle Ez Ea Ek Hm Hlt. rewrite scanned_run. unfold run_scan. cbn [sc_l34Keys]. rewrite foldl_Keys_Insert. right.
  unfold metas in Hm. destruct (ms_entries ms !! k) as [v|] eqn:Ev; [|by apply elem_of_nil in Hm].
  assert (Hin : (k, v) ∈ broader ms z).
  { apply elem_of_entries_of. split; [|done]. apply broader_keys; [apply M|done|].
    rewrite (si_cinfo _ _ (m_sinv _ M)). split_and!; [by exists v|done|]. right. right. congruence. }
  apply elem_of_ev_l34. exists k, v. split_and!; try done; [|apply higher_spec; by exists m].
  unfold cov. rewrite Ez, Z.eqb_refl. by apply Z.eqb_neq.
Qed.

Lemma scanned_done y : y ∈ default ∅ (sc_doneKeys sc) → y ∈ default ∅ (sc_doneKeys s0) ∨ blocked y.
Proof.
  rewrite scanned_run. unfold run_scan. cbn [sc_doneKeys]. rewrite foldl_Keys_Insert. intros [?|Hy]; [by left|right].
  destruct plain_e as [_ Ew]. destruct tier_e as (Tn & Tw & _).
  apply elem_of_ev_done in Hy as (k & v & Hin & Hc & -> & Hv & Hb).
  destruct (broader_cases ms z k v (m_sinv _ M) Wz Hz Hin) as [Ev [[? _]|(_ & Ez & Ek & Ea & Hle)]]; [congruence|].
  assert (Hq : vprec ms k = Some (Precedence v : Z)) by (unfold vprec; rewrite Ev; simpl; unfold valid_prec; by rewrite Hv).
  destruct (m_sound _ M k _ (dir_le k z Hle Hz) Hq) as (r & Hor & Hp & Hcr & Hl).
  assert (Hr : r ∈ R).
  { destruct Hor as [?|[_ [-> |?]]]; [done| |lia]. exfalso. apply Ek.
    pose proof (agg_of z Hz) as Haz. destruct Hz as [_ [Hi|Hi]]; congruence. }
  destruct (lifted_in_tier cinfo n dir Lmax Lmin RF TP R HR T k r (Precedence v)) as [Ht Hw]; auto; [lia|].
  exists r. split_and!; try done; [|lia].
  assert (Wk : wf_key k) by (by apply (vprec_wf cinfo ms k _ (m_sinv _ M) Hq)).
  apply (rcovers_trans cinfo n dir Lmax Lmin RF TP r k); auto; [apply WithIdentity_wf; [done|apply Wk]|].
  split; [done|by left].
Qed.
End scanned.

(** ** A key the new rule decides *)

Section key.
Context (x : Key) (Wx : wf_key x) (HL : live (e :: R) x e).

Lemma key_winner i w : (i < T)%nat → Pmax x i = Some w → winner x i w.
Proof.
  intros Hi Hw. assert (HP : TierOrder.Pmax cinfo (e :: R) x i = Some w) by (by rewrite Pmax_verdict).
  split; [done|]. intros r Hr <- Hc. destruct HL as (_ & _ & _ & H). destruct (H r Hr Hc) as [_ H'].
  destruct (H' Hi) as (m & Em & Hm). rewrite HP in Em. by injection Em as ->.
Qed.

Lemma blocked_reaches ms y : mid ms → wf_key y → y ⊒ x → blocked y → reaches ms x (height x e).
Proof.
  intros M Wy Hyx (r & Hr & Hp & Ht & Hc & Hw).
  assert (Hcx : rcovers r x) by (apply (rcovers_trans cinfo n dir Lmax Lmin RF TP r y x); auto).
  destruct HL as (_ & _ & Hce & HLe). destruct (HLe r) as [Hle _]; [by right|done|].
  specialize (Hle Ht).
  assert (height x e = height x r) as -> by (unfold TierOrder.height; rewrite Ht; f_equal; lia).
  apply (m_live _ M); [done|]. split_and!; try done. intros r' Hr' Hc'.
  destruct (HLe r') as [H1 H2]; [by right|done|]. split.
  - intros E'. rewrite Ht in E'. specialize (H1 E'). lia.
  - intros Hlt. rewrite Ht in Hlt. destruct (H2 Hlt) as (m & Em & Hm). rewrite Pmax_verdict in Em by done. by exists m.
Qed.

(** The winning passes at [x] are at keys covering [z]. *)
Definition pinned ms z : Prop := ∀ i w, (i < T)%nat → Pmax x i = Some w → ∃ k, k ⊒ z ∧ meta i w ∈ metas ms k.

Lemma pinned_height ms z f : wf_key z → z ⊒ x → pinned ms z → passes_at z f →
  (∀ k i w, k ⊒ z → meta i w ∈ metas ms k → (i < T)%nat → ∃ w', f i = Some w' ∧ w ≤ w') →
  lift_by f = height x e.
Proof.
  intros Wz Hzx HP Hf HC. apply elev_ext. intros j Hj.
  pose proof (passes_at_mono cinfo n dir Lmax Lmin RF TP R HR z x f Wz Wx Hzx Hf) as Hfx.
  destruct (f j) as [w|] eqn:Ef.
  - destruct (passes_at_le cinfo Lmax Lmin R x f j w Hfx Ef) as (w' & Ew' & Hle).
    destruct (HP j w' ltac:(lia) Ew') as (k & Hk & Hm). destruct (HC k j w' Hk Hm ltac:(lia)) as (w'' & E'' & Hle').
    rewrite Ef in E''. injection E'' as <-. rewrite Ew'. f_equal. lia.
  - destruct (Pmax x j) as [w'|] eqn:Ew'; [|done].
    destruct (HP j w' ltac:(lia) Ew') as (k & Hk & Hm). destruct (HC k j w' Hk Hm ltac:(lia)) as (w'' & E'' & _). congruence.
Qed.

Lemma kept_pinned ms ms' z : wf_key z → z ⊒ x → sinv cinfo ms → kept ms ms' → pinned ms z → pinned ms' z.
Proof.
  intros Wz Hzx S HK HP i w Hi Hw. destruct (HP i w Hi Hw) as (k & Hk & Hm). exists k. split; [done|].
  apply (HK x i w k); try done; [by apply key_winner|]. apply (kcovers_trans _ k z x); try done.
  by apply (metas_wf cinfo ms k _ S Hm).
Qed.
End key.

(** A rule that a round would add at a queued key is lifted above its tier. *)
Lemma queued_high ms z f (b : Z) : mid ms → queueable z → passes_at z f →
  (∀ k i w, k ⊒ z → meta i w ∈ metas ms k → (i < T)%nat → ∃ w', f i = Some w' ∧ w ≤ w') →
  (∀ k q, k ⊒ z → vprec ms k = Some q → q ≤ word e ∨ q ≤ Lmax T ∨ q ≤ b) →
  b < lift_by f → Lmax T < lift_by f.
Proof.
  intros M (Wz & Hz & r & Hr & Hp & Ht & Hc) Hf HC HU Hb. pose proof tier_e as (Tn & Tw & _).
  pose proof (lift_range z f Hf) as Hlr.
  destruct (passed_or_live cinfo Lmax Lmin R z T) as [HP|(e0 & HL0 & Ht0)].
  - destruct (HP r Hr Hc Ht) as (w & Ew & Hle).
    destruct (m_pass _ M z (tr_tier r) w Wz) as (k & Hk & Hm).
    { split; [by rewrite Pmax_verdict|]. intros r' [-> |Hr']%elem_of_cons Et Hc'; [lia|].
      destruct (HP r' Hr' Hc' ltac:(lia)) as (w' & Ew' & ?). rewrite Et, Ew in Ew'. by injection Ew' as ->. }
    destruct (HC k _ w Hk Hm Ht) as (w' & Ef & _).
    destruct (elev_tier cinfo n dir Lmax Lmin RF TP R HR z f e T Hf He 0) as [[Hn _]|(j & m & Hj & _ & Hm')]; [done| |].
    + rewrite Hn in Ef by lia. done.
    + destruct (meta_tier j ltac:(lia)). lia.
  - exfalso. destruct (m_live _ M z e0 Wz HL0) as (k & q & Hq & Hk & Hle).
    assert (He0 : e0 ∈ R) by apply HL0.
    destruct (elev_below cinfo n dir Lmax Lmin RF TP R HR z f e0 e) with (d := tr_tier e0) (i := 0%nat) (d' := T) as [_ Hlt]; auto.
    specialize (Hlt ltac:(left; lia)).
    change (elev Lmin (Pmax z) 0 (tr_tier e0) (word e0)) with (height z e0) in Hlt.
    destruct (elev_range cinfo n dir Lmax Lmin RF TP R HR z (Pmax z) e0 (tr_tier e0) (Pmax_pass cinfo Lmax Lmin R z) (HR e0 He0) 0 eq_refl)
      as [[Hge _] _].
    change (elev Lmin (Pmax z) 0 (tr_tier e0) (word e0)) with (height z e0) in Hge.
    pose proof (tier_above n dir Lmax Lmin RF TP (tr_tier e0) T Ht0 Tn).
    destruct (pol_rule _ _ _ _ _ TP e0 (HR e0 He0)) as [_ _ Hw0 _ _ _].
    destruct (HU k q Hk Hq) as [?|[?|?]]; lia.
Qed.

(** ** Rounds *)

Lemma grew_refl ms : grew ms ms.
Proof. by intros x p _. Qed.
Lemma kept_refl ms : kept ms ms.
Proof. by intros x i w k _ _ _. Qed.

Lemma add_passed_step ms s z f : mid ms → wf_key z → ke ⊒ z → passes_at z f → z = ke ∨ Lmax T < lift_by f →
  pruned cinfo (kcovers cinfo z) (lift_by f) (lost_by f) ms s.1 →
  (∀ k q, k ⊒ z → vprec ms k = Some q → q ≤ lift_by f) →
  let ms2 := (add_passed z E (lift_by f) s).1 in
  mid ms2 ∧ grew ms ms2 ∧ kept ms ms2 ∧ vprec ms2 z = Some (lift_by f).
Proof.
  intros M Wz Hz Hf Hor P HU. cbn zeta. unfold add_passed. destruct plain_e as [_ Ew].
  destruct (prune_covered_view cinfo z E (lift_by f) s (pr_sinv _ _ _ _ _ _ P) Wz) as [P' L'].
  { intros _. pose proof (lift_range z f Hf). lia. }
  apply add_step; try done. eapply pruned_trans; [exact P|].
  revert P'. apply pruned_weaken; [done|lia|]. intros m Hm. by left.
Qed.

(** What a round leaves: at every key the new rule decides and whose passes meet at
    the key of the round, the rule is reached. *)
Definition stepped ms z ms' : Prop :=
  mid ms' ∧ grew ms ms' ∧ kept ms ms' ∧
  ∀ x, wf_key x → live (e :: R) x e → z ⊒ x → pinned x ms z → reaches ms' x (height x e).

Lemma bailed_stepped ms z f (b : Z) : mid ms → wf_key z → passes_at z f →
  (∀ k i w, k ⊒ z → meta i w ∈ metas ms k → (i < T)%nat → ∃ w', f i = Some w' ∧ w ≤ w') →
  lift_by f ≤ b → b = 0 ∨ Lmax T < b ∧ (∃ k, k ⊒ z ∧ vprec ms k = Some b) → stepped ms z ms.
Proof.
  intros M Wz Hf HC Hb HB. split_and!; [done|apply grew_refl|apply kept_refl|]. intros x Wx HL Hzx HP.
  rewrite <- (pinned_height x Wx ms z f) by done. pose proof (lift_range z f Hf). pose proof word_pos.
  destruct HB as [?|(_ & k & Hk & Hq)]; [lia|]. exists k, b. split_and!; [done| |done].
  apply (kcovers_trans _ k z x); try done. by apply (vprec_wf cinfo ms k b (m_sinv _ M)).
Qed.

Lemma added_stepped ms z f ms' : wf_key z → passes_at z f →
  (∀ k i w, k ⊒ z → meta i w ∈ metas ms k → (i < T)%nat → ∃ w', f i = Some w' ∧ w ≤ w') →
  mid ms' → grew ms ms' → kept ms ms' → vprec ms' z = Some (lift_by f) → stepped ms z ms'.
Proof.
  intros Wz Hf HC M' HG HK HV. split_and!; try done. intros x Wx HL Hzx HP.
  rewrite <- (pinned_height x Wx ms z f) by done. exists z, (lift_by f). split_and!; try done.
Qed.

Lemma round_stepped s z (s0 sc : scan) : mid s.1 → queueable z → sc_passes s0 = [] → sc_bail s0 = 0 →
  scan_broader false (Lmax T) agg z E (broader s.1 z) s0 = Some sc →
  let p := InheritPassPrecedence (Precedence E) (sc_passes sc) in
  stepped s.1 z (if sc_bail sc <? p then add_passed z E p s else s).1.
Proof.
  intros M Qz H0 Hb0 Hsc. pose proof Qz as (Wz & Hz & _). cbn zeta.
  destruct (scanned_passes false s.1 z s0 sc M Wz Hz Hsc H0) as (f & Hf & -> & _ & _ & HC).
  destruct (scanned_bail false s.1 z s0 sc M Wz Hz Hsc Hb0) as [HB HU].
  pose proof (lift_range z f Hf) as Hr.
  destruct (Z.ltb_spec (sc_bail sc) (lift_by f)) as [Hlt|Hge]; [|by apply (bailed_stepped s.1 z f (sc_bail sc))].
  assert (Hhigh : Lmax T < lift_by f).
  { apply (queued_high s.1 z f (sc_bail sc)); try done. intros k q Hk Hq. destruct (HU k q Hk Hq) as [?|[[_ ?]|?]]; auto. }
  destruct (add_passed_step s.1 s z f) as (M' & HG & HK & HV); try done; [by right|by apply pruned_refl, M| |].
  - intros k q Hk Hq. destruct (HU k q Hk Hq) as [?|[[_ ?]|?]]; lia.
  - by apply (added_stepped s.1 z f).
Qed.

(** ** The work list *)

(** A key the new rule decides is reached, or the key where its passes meet is queued,
    or the aggregate key from which that key will be queued is. *)
Definition good x ms y : Prop := wf_key y ∧ y ⊒ x ∧ pinned x ms y.

Definition awaits x ms z (seen : Keys) : Prop :=
  ∃ k i w, Identity z = agg ∧ Identity x ≠ agg ∧ Identity k = Identity x ∧ lpm_le k z ∧
    (i < T)%nat ∧ Pmax x i = Some w ∧ meta i w ∈ metas ms k ∧
    good x ms (WithIdentity z (Identity x)) ∧ WithIdentity z (Identity x) ∉ default ∅ seen.

Definition target x ms (keys : list Key) (seen : Keys) : Prop :=
  reaches ms x (height x e) ∨ (∃ y, good x ms y ∧ y ∈ keys) ∨ (∃ z, z ∈ keys ∧ awaits x ms z seen).

Lemma good_kept x ms ms' y : wf_key x → live (e :: R) x e → sinv cinfo ms → kept ms ms' → good x ms y → good x ms' y.
Proof. intros Wx HL S HK (Wy & Hy & HP). split_and!; try done. by apply (kept_pinned x Wx HL ms). Qed.

Lemma key_aggregate x : live (e :: R) x e → aggregateFor (Identity x) cinfo = agg.
Proof. intros HL. apply agg_of. apply HL. Qed.

Lemma awaits_covers x ms z k : wf_key x → mid ms → wf_key z → Identity k = Identity x → lpm_le k z →
  present ms k → WithIdentity z (Identity x) ⊒ x → k ⊒ x.
Proof.
  intros Wx M Wz Ek Hle Hp Hy. pose proof (sinv_wf _ _ _ (m_sinv _ M) Hp) as Wk.
  apply (kcovers_trans _ k (WithIdentity z (Identity x)) x); try done.
  - apply WithIdentity_wf; [done|apply Wx].
  - split; [done|by left].
Qed.

Lemma sub_round_step s z keys (seen : Keys) s' keys' (seen' : Keys) : mid s.1 → queueable z →
  (∀ y, y ∈ keys → queueable y) → sub_round (Lmax T) agg E z s keys seen = (s', keys', seen') →
  mid s'.1 ∧ (∀ y, y ∈ keys' → queueable y) ∧
  ∀ x, wf_key x → live (e :: R) x e → target x s.1 (z :: keys) seen → target x s'.1 keys' seen'.
Proof.
  intros M Qz HQ. unfold sub_round. set (s0 := mkScan [] (Some ∅) seen 0).
  destruct (scan_broader false _ _ _ _ _ s0) as [sc|] eqn:Hsc.
  2:{ by destruct (scan_broader_total (Lmax T) agg z E (broader s.1 z) s0) as [? ?]; simplify_eq. }
  pose proof Qz as (Wz & Hz & _).
  pose proof (round_stepped s z s0 sc M Qz eq_refl eq_refl Hsc) as HS. cbn zeta in HS.
  pose proof (scanned_l34 false s.1 z s0 sc M Wz Hz Hsc) as H34.
  pose proof (scanned_l34_all false s.1 z s0 sc M Wz Hsc) as H34'.
  pose proof (scanned_done false s.1 z s0 sc M Wz Hz Hsc) as HD.
  destruct (addNewKeys_grows (sc_l34Keys sc) (keys, sc_doneKeys sc)) as [[GK GN GD _] HA].
  destruct (addNewKeys _ _) as [keys1 seen1]. cbn [fst snd] in *.
  set (p := InheritPassPrecedence _ _) in *.
  set (s1 := if sc_bail sc <? p then add_passed z E p s else s) in *.
  intros Eq. assert (s1 = s' ∧ keys1 = keys' ∧ seen1 = seen') as (<- & <- & <-).
  { unfold s1. destruct (_ <? _); by simplify_eq. }
  destruct HS as (M' & HG & HK & HR'). split; [done|]. split.
  { intros y [?|[?%not_elem_of_empty|?]%H34]%GN; [by apply HQ|done|done]. }
  intros x Wx HL HT'.
  assert (Hblk : ∀ y, wf_key y → y ⊒ x → y ∈ default ∅ (sc_doneKeys sc) → y ∉ default ∅ seen → reaches s1.1 x (height x e)).
  { intros y Wy Hy [?|Hb]%HD Hn; [done|]. by apply (blocked_reaches x Wx HL s1.1 y). }
  assert (HW : ∀ k i w, (i < T)%nat → Pmax x i = Some w → k ⊒ x → meta i w ∈ metas s.1 k → meta i w ∈ metas s1.1 k).
  { intros k i w Hi Hw Hk Hm. apply (HK x i w k); try done. by apply key_winner. }
  destruct HT' as [Hr|[(y & Gy & [-> |Hy]%elem_of_cons)|(z' & Hz' & k & i & w & Iz & Ix & Ik & Hle & Hi & Hw & Hm & Gy & Hn)]].
  - left. by apply HG.
  - left. apply HR'; try done; apply Gy.
  - right. left. exists y. split; [|by apply GK]. apply (good_kept x s.1); try done. apply M.
  - pose proof Gy as (Wy & Hyx & _).
    assert (Gy' : good x s1.1 (WithIdentity z' (Identity x))) by (apply (good_kept x s.1); try done; apply M).
    assert (HDy : WithIdentity z' (Identity x) ∈ default ∅ seen1 → target x s1.1 keys1 seen1).
    { intros [Hd|Hq]%GD; [left; by apply (Hblk (WithIdentity z' (Identity x)))|right; left; by eexists]. }
    destruct (decide (WithIdentity z' (Identity x) ∈ default ∅ seen1)) as [Hd|Hd]; [by apply HDy|].
    apply elem_of_cons in Hz' as [-> |Hz'].
    + destruct Hd. apply HA. rewrite <- Ik. apply (H34' k (meta i w)); try done; [|by rewrite Ik|].
      * rewrite Ik. by apply key_aggregate.
      * simpl. destruct plain_e as [_ <-]. by apply meta_tier.
    + right. right. exists z'. split; [by apply GK|]. exists k, i, w. split_and!; try done.
      apply HW; try done. apply (awaits_covers x s.1 z'); try done; [by apply HQ|by eapply metas_present].
Qed.

Lemma sub_loop_step fuel : ∀ s keys (seen : Keys) s', mid s.1 → (∀ y, y ∈ keys → queueable y) →
  sub_loop fuel (Lmax T) agg E s keys seen = inl s' →
  mid s'.1 ∧ ∀ x, wf_key x → live (e :: R) x e → target x s.1 keys seen → reaches s'.1 x (height x e).
Proof.
  induction fuel as [|fuel IH]; intros s [|z keys] seen s' M HQ Hs; cbn [sub_loop] in Hs; simplify_eq.
  1,2: split; [done|]; intros x Wx HL [?|[(y & _ & ?%elem_of_nil)|(z & ?%elem_of_nil & _)]]; done.
  destruct (sub_round _ _ _ _ _ _ _) as [[s1 keys1] seen1] eqn:Er.
  destruct (sub_round_step s z keys seen s1 keys1 seen1) as (M1 & HQ1 & HT1); try done.
  { apply HQ. by left. }
  { intros y Hy. apply HQ. by right. }
  destruct (IH s1 keys1 seen1 s' M1 HQ1 Hs) as [M' H']. split; [done|]. intros x Wx HL HT'. by apply H', HT1.
Qed.

(** ** The scans of the insertion *)

Lemma stop_decided ms (s0 : scan) : tinv cinfo dir Lmax Lmin R ms →
  scan_broader true (Lmax T) agg ke E (broader ms ke) s0 = None → decided ms.
Proof.
  intros I Hsc x Wx HL. pose proof (tinv_mid ms I) as M. destruct plain_e as [_ Ew]. destruct tier_e as (Tn & Tw & _).
  rewrite scan_broader_run in Hsc. cbn [andb] in Hsc. destruct (existsb _ _) eqn:Ex; [|done].
  apply existsb_exists in Ex as ([k v] & Hin%list_elem_of_In & Hst). apply stop_spec in Hst as [Hc Hst].
  destruct (broader_cases ms ke k v (m_sinv _ M) wf_e (kcovers_refl _ _) Hin) as [Ev [[_ Hk]|[? _]]]; [|congruence].
  assert (Wk : wf_key k) by (apply (sinv_wf _ _ _ (m_sinv _ M)); by exists v).
  assert (Hkx : k ⊒ x) by (apply (kcovers_trans _ k ke x); auto using wf_e; apply HL).
  assert (Dk : TrafficDirection k = dir) by (apply (dir_le k ke); [apply Hk|apply kcovers_refl]).
  destruct Hst as [(m & Hm & Hlt)|[Hv Hq]].
  - destruct (m_metas _ M k m Dk) as (r & Hr & Hp & Hkr & ->); [unfold metas; by rewrite Ev|]. simpl in Hlt.
    assert (Ht : tr_tier r = T) by (apply (pass_tier n dir Lmax Lmin RF TP e He r (word e)); auto; lia).
    destruct HL as (_ & _ & _ & HLe). destruct (HLe r) as [Hle _]; [by right|unfold TierOrder.rcovers; by rewrite Hkr|].
    specialize (Hle Ht). lia.
  - destruct (t_sound _ _ _ _ _ _ I k (Precedence v) Dk) as (r & Hr & Hp & Hcr & Hl).
    { unfold vprec. rewrite Ev. simpl. unfold valid_prec. by rewrite Hv. }
    destruct (lifted_in_tier cinfo n dir Lmax Lmin RF TP R HR T k r (Precedence v)) as [Ht Hw]; auto; [lia|].
    apply (blocked_reaches x Wx HL ms k); try done. exists r. split_and!; try done. lia.
Qed.

(** The narrower keys that are pruned are those the rule covers. *)
Lemma narrower_covered ms k : sinv cinfo ms → present ms k →
  (k ∈ NarrowerOrEqualKeys ms ke ∧ same_ids agg ke k) ↔ ke ⊒ k.
Proof.
  intros S Hp. rewrite narrower_keys; [|apply S|apply wf_e]. rewrite (si_cinfo _ _ S). unfold same_ids, kcovers. split.
  - intros [(_ & Hle & [?|[?|E1]]) [E2|E2]]; (split; [done|]); auto. left. congruence.
  - intros [Hle [Ei|Ei]]; [split; [split_and!; auto|right; congruence]|]. split; [split_and!; auto|]. left.
    by rewrite Ei, aggregateFor_idem.
Qed.

Lemma narrower_subset ms k : sinv cinfo ms → k ∈ NarrowerOrEqualKeys ms ke →
  ke ⊒ subset cinfo ke k ∧ k ⊒ subset cinfo ke k ∧ wf_key k ∧ wf_key (subset cinfo ke k).
Proof.
  intros S Hk. apply narrower_keys in Hk as (Hp & Hle & Hid); [|apply S|apply wf_e]. rewrite (si_cinfo _ _ S) in Hid.
  pose proof (sinv_wf _ _ _ S Hp) as Wk. unfold subset.
  destruct (Z.eqb_spec (Identity k) agg) as [Ek|Ek].
  - split_and!; [split; [done|by left]|split; [apply lpm_le_refl|by right]|done|].
    apply WithIdentity_wf; [done|apply wf_e].
  - split_and!; [|apply kcovers_refl|done|done]. split; [done|]. destruct Hid as [?|[?|?]]; auto. done.
Qed.

Lemma queued_narrower ms k m : mid ms → k ∈ NarrowerOrEqualKeys ms ke → m ∈ metas ms k → Lmax T < pm_precedence m →
  queueable (subset cinfo ke k).
Proof.
  intros M Hk Hm Hlt. destruct (narrower_subset ms k (m_sinv _ M) Hk) as (H1 & H2 & Wk & Ws). split_and!; try done.
  destruct (m_metas _ M k m (dir_le k _ (proj1 H2) H1) Hm) as (r & Hr & Hp & Hkr & ->). simpl in Hlt. exists r. split_and!; try done.
  - destruct (pol_rule _ _ _ _ _ TP r (HR r Hr)) as [_ _ Hw _ _ _]. pose proof (HT r Hr).
    destruct (decide (tr_tier r = T)) as [Et|]; [|lia]. rewrite Et in Hw. lia.
  - unfold TierOrder.rcovers. by rewrite Hkr.
Qed.

(** The state the main part leaves. *)
Definition main_state (sc : scan) s1 : mapState TR * ChangeState :=
  let p := InheritPassPrecedence (Precedence E) (sc_passes sc) in
  let '(s, bail) :=
    if negb (bool_decide (sc_passes sc = [])) && (sc_bail sc <? p)
    then (add_passed ke E p s1, true) else (s1, 0 <? sc_bail sc) in
  if bail then s else (addKeyWithChanges s.1 ke E s.2).1.

Lemma main_stepped ms ch (s0 sc : scan) s1 : mid ms → sc_passes s0 = [] → sc_bail s0 = 0 →
  scan_broader true (Lmax T) agg ke E (broader ms ke) s0 = Some sc →
  ((0 <? sc_bail sc) = true → s1 = (ms, ch)) →
  pruned cinfo (λ k, k ∈ NarrowerOrEqualKeys ms ke ∧ same_ids agg ke k) (Precedence E) (lost (Precedence E)) ms s1.1 →
  ((0 <? sc_bail sc) = false → low (λ k, k ∈ NarrowerOrEqualKeys ms ke ∧ same_ids agg ke k) (Precedence E) s1.1) →
  stepped ms ke (main_state sc s1).1.
Proof.
  intros M H0 Hb0 Hsc Hbail P L. unfold main_state.
  destruct (scanned_passes true ms ke s0 sc M wf_e (kcovers_refl _ _) Hsc H0) as (f & Hf & -> & Hnil & Hne & HC).
  destruct (scanned_bail true ms ke s0 sc M wf_e (kcovers_refl _ _) Hsc Hb0) as [HB HU].
  pose proof (lift_range ke f Hf) as Hr. pose proof word_pos as Hw0. destruct plain_e as [Pl Ew]. destruct tier_e as (_ & Tw & _).
  assert (P' : pruned cinfo (kcovers cinfo ke) (lift_by f) (lost_by f) ms s1.1).
  { constructor; [apply P| |apply P|].
    - intros k. destruct (pr_vprec _ _ _ _ _ _ P k) as [?|(HV & ? & q & Hq & Hle)]; [by left|right].
      split_and!; [|done|exists q; split; [done|lia]].
      apply (narrower_covered ms k (m_sinv _ M)); [by eapply vprec_present|done].
    - intros k m Hm. destruct (pr_kept _ _ _ _ _ _ P k m Hm) as [?|[HV Hl]]; [by left|right]. split.
      + apply (narrower_covered ms k (m_sinv _ M)); [by eapply metas_present|done].
      + right. by rewrite Ew. }
  assert (HU' : sc_bail sc < lift_by f → ∀ k q, k ⊒ ke → vprec ms k = Some q → q ≤ lift_by f).
  { intros Hlt k q Hk Hq. destruct (HU k q Hk Hq) as [?|[[? _]|?]]; [lia|done|lia]. }
  destruct (negb _ && _) eqn:Ea.
  - apply andb_true_iff in Ea as [_ Hlt%Z.ltb_lt].
    destruct (add_passed_step ms s1 ke f M wf_e (kcovers_refl _ _) Hf) as (M' & HG & HK & HV); [by left|done|by apply HU'|].
    apply (added_stepped ms ke f (add_passed ke E (lift_by f) s1).1); auto using wf_e.
  - destruct (Z.ltb_spec 0 (sc_bail sc)) as [Hpos|Hz].
    + rewrite Hbail by done. apply (bailed_stepped ms ke f (sc_bail sc)); auto using wf_e.
      apply andb_false_iff in Ea as [Ea|Hge%Z.ltb_ge]; [|done].
      apply negb_false_iff, bool_decide_eq_true in Ea. rewrite (Hnil Ea). destruct HB as [?|[? _]]; lia.
    + assert (Hbz : sc_bail sc = 0) by (destruct HB as [?|[? _]]; lia).
      apply andb_false_iff in Ea as [Ea|Hge%Z.ltb_ge]; [|lia].
      apply negb_false_iff, bool_decide_eq_true in Ea. specialize (Hnil Ea).
      assert (HE : E = passed E (lift_by f)).
      { rewrite Hnil, Ew. unfold passed, set_entry, set_Precedence. by destruct E as [[] ? ?]. }
      rewrite HE at 1.
      destruct (add_step ms s1.1 ke f s1.2 M wf_e (kcovers_refl _ _) Hf) as (M' & HG & HK & HV); [by left|done|..].
      { intros k q Hk Hq. rewrite Hnil, Ew. apply (L eq_refl k q); [|done].
        apply narrower_covered; [apply M| |done]. by eapply vprec_present, (pruned_sub _ _ _ _ _ _ _ _ P). }
      { apply HU'. lia. }
      apply (added_stepped ms ke f (addKeyWithChanges s1.1 ke (passed E (lift_by f)) s1.2).1.1); auto using wf_e.
Qed.

(** ** Where the passes of a key meet *)

Section meet.
Context (x : Key) (Wx : wf_key x) (HL : live (e :: R) x e) (ms : mapState TR) (M : mid ms).

(** The winning passes of the tiers below [d] are at keys that cover [x], with the
    ports of [z] or broader. *)
Definition within d z : Prop :=
  ∀ i w, (i < d)%nat → Pmax x i = Some w → ∃ k, k ⊒ x ∧ meta i w ∈ metas ms k ∧ lpm_le k z.

Definition longest z : Prop :=
  z = ke ∨ ¬ lpm_le z ke ∧ ∃ i w, (i < T)%nat ∧ Pmax x i = Some w ∧ meta i w ∈ metas ms z.

Lemma covers_e : ke ⊒ x.
Proof. apply HL. Qed.

Lemma choose_key d : (d ≤ T)%nat → ∃ z, wf_key z ∧ z ⊒ x ∧ lpm_le ke z ∧ longest z ∧ within d z.
Proof.
  induction d as [|d IH]; intros Hd.
  { exists ke. split_and!; [apply wf_e|apply covers_e|apply lpm_le_refl|by left|]. intros i w Hi. lia. }
  destruct IH as (z & Wz & Hzx & Hke & Hz & Hin); [lia|].
  destruct (Pmax x d) as [w|] eqn:Ew.
  2:{ exists z. split_and!; try done. intros i w Hi Hw. destruct (decide (i = d)) as [->|]; [congruence|]. apply Hin; [lia|done]. }
  destruct (m_pass _ M x d w Wx) as (k & Hk & Hm); [by apply key_winner; [done|lia|]|].
  pose proof (metas_wf cinfo ms k _ (m_sinv _ M) Hm) as Wk. pose proof wf_e as We.
  assert (HS : ∀ z', lpm_le k z' → lpm_le z z' → wf_key z' → within (S d) z').
  { intros z' Hkz Hzz Wz' i w' Hi Hw'. destruct (decide (i = d)) as [->|].
    - rewrite Ew in Hw'. injection Hw' as <-. by exists k.
    - destruct (Hin i w') as (k' & Hk' & Hm' & Hle'); [lia|done|]. exists k'. split_and!; try done.
      pose proof (metas_wf cinfo ms k' _ (m_sinv _ M) Hm') as Wk'. apply (lpm_le_trans k' z z'); try done; apply Wk' || apply Wz || apply Wz'. }
  destruct (decide (lpm_le k z)) as [Hkz|Hkz].
  { exists z. split_and!; try done. by apply HS; [|apply lpm_le_refl|]. }
  assert (Hzk : lpm_le z k).
  { destruct (lpm_le_total z k x) as [|?]; try done; [apply Wz|apply Wk|apply Wx|apply Hzx|apply Hk]. }
  exists k. split_and!; [done|done| | |by apply HS; [apply lpm_le_refl| |]].
  - apply (lpm_le_trans ke z k); try done; [apply We|apply Wz|apply Wk].
  - right. split; [|exists d, w; split_and!; [lia|done|done]]. intros Hkk. apply Hkz.
    apply (lpm_le_trans k ke z); try done; [apply Wk|apply We|apply Wz].
Qed.

Lemma covers_ids k : k ⊒ x → Identity k = Identity x ∨ Identity k = agg.
Proof. rewrite <- (key_aggregate x HL). by intros [_ ?]. Qed.

(** At a key with the identity of [x] all of them meet. *)
Lemma leaf_pinned z : within T z → Identity z = Identity x → pinned x ms z.
Proof.
  intros Hin Hz i w Hi Hw. destruct (Hin i w Hi Hw) as (k & Hk & Hm & Hle). exists k. split; [|done].
  split; [done|]. rewrite Hz, (key_aggregate x HL). by apply covers_ids.
Qed.

(** At an aggregate key they meet, or one of them is at a key with the identity of [x]. *)
Lemma aggregate_pinned z : within T z → Identity z = agg →
  pinned x ms z ∨ ∃ k i w, Identity k = Identity x ∧ lpm_le k z ∧ (i < T)%nat ∧ Pmax x i = Some w ∧ meta i w ∈ metas ms k.
Proof.
  intros Hin Hz.
  assert (HG : ∀ d, (d ≤ T)%nat → (∀ i w, (i < d)%nat → Pmax x i = Some w → ∃ k, k ⊒ z ∧ meta i w ∈ metas ms k) ∨
    ∃ k i w, Identity k = Identity x ∧ lpm_le k z ∧ (i < T)%nat ∧ Pmax x i = Some w ∧ meta i w ∈ metas ms k); [|by apply HG].
  induction d as [|d IH]; intros Hd; [left; lia|]. destruct IH as [IH|?]; [lia| |by right].
  destruct (Pmax x d) as [w|] eqn:Ew.
  2:{ left. intros i w Hi Hw. destruct (decide (i = d)) as [->|]; [congruence|]. apply IH; [lia|done]. }
  destruct (Hin d w) as (k & Hk & Hm & Hle); [lia|done|]. destruct (covers_ids k Hk) as [Ek|Ek].
  - right. exists k, d, w. split_and!; try done.
  - left. intros i w' Hi Hw'. destruct (decide (i = d)) as [->|]; [|apply IH; [lia|done]].
    rewrite Ew in Hw'. injection Hw' as <-. exists k. split; [split; [done|left; congruence]|done].
Qed.
End meet.

(** What the scans leave in the queue. *)
Record queued ms (keys : list Key) (seen : Keys) : Prop := {
  qu_ok y : y ∈ keys → queueable y;
  qu_seen y : y ∈ default ∅ seen → blocked y ∨ y ∈ keys;
  qu_leaf k m : lpm_le k ke → Identity ke = agg → aggregateFor (Identity k) cinfo = agg → Identity k ≠ agg →
    m ∈ metas ms k → Precedence E < tierMinPrecedence m → WithIdentity ke (Identity k) ∈ default ∅ seen;
  qu_narrower x k i w : wf_key x → winner x i w → (i < T)%nat → k ⊒ x → meta i w ∈ metas ms k → lpm_le ke k →
    ¬ lpm_le k ke → ke ⊒ x → subset cinfo ke k ∈ default ∅ seen;
}.

Section target.
Context (x : Key) (Wx : wf_key x) (HL : live (e :: R) x e) (ms ms' : mapState TR) (M : mid ms).
Context (keys : list Key) (seen : Keys) (Q : queued ms keys seen) (HS : stepped ms ke ms').

Lemma seen_target y : good x ms y → y ∈ default ∅ seen → target x ms' keys seen.
Proof.
  intros Gy Hy. pose proof Gy as (Wy & Hyx & _). destruct HS as (M' & _ & HK & _).
  destruct (qu_seen _ _ _ Q y Hy) as [Hb|Hk].
  - left. by apply (blocked_reaches x Wx HL ms' y).
  - right. left. exists y. split; [|done]. apply (good_kept x ms); try done. apply M.
Qed.

Lemma own_target : within x ms T ke → target x ms' keys seen.
Proof.
  intros Hin. pose proof (covers_e x HL) as Hex. destruct HS as (M' & _ & HK & HR').
  destruct (covers_ids x HL ke Hex) as [Ei|Ei].
  { left. apply HR'; try done. by apply leaf_pinned. }
  destruct (aggregate_pinned x HL ms ke Hin Ei) as [HP|(k & i & w & Ek & Hle & Hi & Hw & Hm)]; [left; by apply HR'|].
  destruct (decide (Identity x = agg)) as [Ex|Ex].
  { left. apply HR'; try done. apply leaf_pinned; try done. congruence. }
  apply (seen_target (WithIdentity ke (Identity x))).
  - split_and!; [apply WithIdentity_wf; [apply wf_e|apply Wx]|split; [apply Hex|by left]|]. by apply leaf_pinned.
  - rewrite <- Ek. apply (qu_leaf _ _ _ Q k (meta i w)); try done; [|congruence|].
    + rewrite Ek. by apply key_aggregate.
    + simpl. destruct plain_e as [_ <-]. by apply meta_tier.
Qed.

Lemma longer_target z i w : wf_key z → z ⊒ x → lpm_le ke z → ¬ lpm_le z ke → within x ms T z →
  (i < T)%nat → Pmax x i = Some w → meta i w ∈ metas ms z → target x ms' keys seen.
Proof.
  intros Wz Hzx Hle Hn Hin Hi Hw Hm. pose proof (covers_e x HL) as Hex. destruct HS as (M' & _ & HK & HR').
  assert (Hseen : subset cinfo ke z ∈ default ∅ seen).
  { apply (qu_narrower _ _ _ Q x z i w); try done. by apply key_winner. }
  assert (Hleaf : ∀ y, Key_LPMKey y = Key_LPMKey z → wf_key y → Identity y = Identity x → good x ms y).
  { intros y Ey Wy Iy. split_and!; [done|split; [rewrite Ey; apply Hzx|by left]|]. apply leaf_pinned; try done.
    intros j w' Hj Hw'. destruct (Hin j w' Hj Hw') as (k & Hk & Hmk & Hlk). exists k. rewrite Ey. done. }
  unfold subset in Hseen. destruct (covers_ids x HL z Hzx) as [Ez|Ez].
  { destruct (Z.eqb_spec (Identity z) agg) as [Eza|Eza]; [|by apply (seen_target z); [apply Hleaf|]].
    apply (seen_target (WithIdentity z (Identity ke))); [|done]. apply Hleaf; [done|apply WithIdentity_wf; [done|apply wf_e]|].
    simpl. destruct (covers_ids x HL ke Hex); congruence. }
  rewrite Ez, Z.eqb_refl in Hseen. destruct (covers_ids x HL ke Hex) as [Ei|Ei].
  { apply (seen_target (WithIdentity z (Identity ke))); [|done]. apply Hleaf; [done|apply WithIdentity_wf; [done|apply wf_e]|done]. }
  assert (Eself : WithIdentity z (Identity ke) = z) by (rewrite Ei, <- Ez; by destruct z). rewrite Eself in Hseen.
  destruct (decide (Identity x = agg)) as [Ex|Ex]; [apply (seen_target z); [apply Hleaf; congruence|done]|].
  destruct (aggregate_pinned x HL ms z Hin Ez) as [HP|(k & j & w' & Ek & Hlk & Hj & Hw' & Hmk)]; [by apply (seen_target z)|].
  assert (Gy : good x ms (WithIdentity z (Identity x))) by (apply Hleaf; [done|apply WithIdentity_wf; [done|apply Wx]|done]).
  destruct (decide (WithIdentity z (Identity x) ∈ default ∅ seen)) as [Hy|Hy]; [by apply (seen_target _ Gy)|].
  destruct (qu_seen _ _ _ Q z Hseen) as [Hb|Hk]; [left; by apply (blocked_reaches x Wx HL ms' z)|].
  right. right. exists z. split; [done|]. exists k, j, w'. split_and!; try done.
  - apply (HK x j w' k); try done; [by apply key_winner|].
    apply (awaits_covers x ms z k); try done; [by eapply metas_present|apply Gy].
  - apply (good_kept x ms); try done. apply M.
Qed.

Lemma main_target : target x ms' keys seen.
Proof.
  destruct (choose_key x Wx HL ms M T) as (z & Wz & Hzx & Hle & [-> |(Hn & i & w & Hi & Hw & Hm)] & Hin); [done|by apply own_target|].
  by apply (longer_target z i w).
Qed.
End target.

(** ** The insertion *)

Lemma narrower_winner ms ms1 x k i w : mid ms → wf_key x → winner x i w → k ⊒ x → ke ⊒ x → meta i w ∈ metas ms k →
  pruned cinfo (λ k, k ∈ NarrowerOrEqualKeys ms ke ∧ same_ids agg ke k) (Precedence E) (lost (Precedence E)) ms ms1 →
  meta i w ∈ metas ms1 k.
Proof.
  intros M Wx HW Hk Hex Hm P. destruct plain_e as [_ Ew].
  destruct (pr_kept _ _ _ _ _ _ P k _ Hm) as [|[_ Hl]]; [done|]. exfalso.
  apply (winner_kept x ke i w (λ _, None)); auto using wf_e, kcovers_refl; [|right; by rewrite Ew].
  by intros j m.
Qed.

Lemma insert_verdict_step ms ch s keys (seen : Keys) : mid ms →
  insert_verdict ms (Lmax T) ke E ch = Some (s, keys, seen) → queued ms keys seen ∧ stepped ms ke s.1.
Proof.
  intros M. unfold insert_verdict. rewrite (si_cinfo _ _ (m_sinv _ M)). set (s0 := mkScan [] None None 0).
  destruct (scan_broader true _ _ _ _ _ s0) as [sc|] eqn:Hsc; [|done].
  pose proof (scanned_l34 true ms ke s0 sc M wf_e (kcovers_refl _ _) Hsc) as H34.
  pose proof (scanned_l34_all true ms ke s0 sc M wf_e Hsc) as H34'.
  pose proof (scanned_done true ms ke s0 sc M wf_e (kcovers_refl _ _) Hsc) as HD.
  destruct (addNewKeys_grows (sc_l34Keys sc) ([], sc_doneKeys sc)) as [[_ GN GD _] HA].
  set (q := addNewKeys _ _) in *.
  destruct (scan_narrower_view cinfo cinfo (Lmax T) agg ke E (0 <? sc_bail sc) (NarrowerOrEqualKeys ms ke) (ms, ch) q (m_sinv _ M))
    as (B1 & P1 & L1 & [GK' GN' GD' GS'] & K1).
  destruct (scan_narrower _ _ _ _ _ _ _ _ _) as [s1 [keys1 seen1]]. cbn [fst snd] in *.
  intros Eq. assert (main_state sc s1 = s ∧ keys1 = keys ∧ seen1 = seen) as (<- & -> & ->).
  { unfold main_state. by destruct (negb _ && _); simplify_eq. }
  split; [|by apply (main_stepped ms ch s0)]. constructor.
  - intros y [[?%elem_of_nil|[?%not_elem_of_empty|?]%H34]%GN|(k & m & Hk & Hm & Hlt & -> & _)]%GN'; try done.
    by apply (queued_narrower ms k m).
  - intros y [[[?%not_elem_of_empty|?]%HD|Hq]%GD|?]%GD'; try done; [by left|right; by apply GK'|by right].
  - intros k m Hle Ei Ea Ek Hm Hlt. apply GS', HA. by apply (H34' k m).
  - intros x k i w Wx HW Hi Hk Hm Hle Hn Hex. apply (K1 k (meta i w)).
    + apply narrower_keys; [apply M|apply wf_e|]. rewrite (si_cinfo _ _ (m_sinv _ M)).
      split_and!; [by eapply metas_present|done|].
      destruct Hk as [_ Hk], Hex as [_ Hex]. destruct Hk as [Hk|Hk], Hex as [Hex|Hex]; rewrite Hk, Hex; rewrite ?aggregateFor_idem; auto.
    + by apply (narrower_winner ms s1.1 x k i w).
    + simpl. destruct HW as [HP _]. rewrite Pmax_verdict in HP by done.
      destruct (passes_at_range cinfo n dir Lmax Lmin RF TP R HR x (Pmax x) i w (Pmax_pass cinfo Lmax Lmin R x) HP) as [_ Hw].
      destruct (meta_tier i Hi). lia.
    + intros Es. apply Hn. rewrite <- Es. unfold subset. destruct (_ =? _); apply lpm_le_refl.
Qed.

Lemma insert_verdict_rule ms features ch : contains features passRules = true →
  st_inv cinfo wf_key wf_key (ms, ch) → tinv cinfo dir Lmax Lmin R ms →
  tinv cinfo dir Lmax Lmin (e :: R) (insertWithChanges ms (Lmax T) ke E features ch).1.
Proof.
  intros Hf Hst I. pose proof (tinv_mid ms I) as M. destruct plain_e as [[We Ve Pe] Ew]. destruct tier_e as (Tn & Tw & _).
  unfold insertWithChanges. destruct (aggregateIsEquivalent _ _ _) eqn:Ea.
  - apply mid_tinv; [done|]. intros x Wx HL. unfold aggregateIsEquivalent in Ea. rewrite (si_cinfo _ _ (m_sinv _ M)) in Ea.
    destruct (_ =? _); [done|]. set (ka := WithIdentity _ _) in Ea.
    destruct (ms_entries ms !! ka) as [v|] eqn:Ev; [|done]. apply equivalent_entry in Ea.
    destruct (t_sound _ _ _ _ _ _ I ka (word e) (dir_of ke (kcovers_refl _ _))) as (r & Hr & Hp & Hc & Hl).
    { unfold vprec. rewrite Ev. simpl. unfold valid_prec, IsValid in *. by rewrite Ea, Ve, Ew. }
    destruct (lifted_in_tier cinfo n dir Lmax Lmin RF TP R HR T ka r (word e)) as [Ht Hw]; auto.
    assert (Wk : wf_key ka) by (apply (sinv_wf _ _ _ (m_sinv _ M)); by exists v).
    apply (blocked_reaches x Wx HL ms ka); try done; [|exists r; split_and!; try done; lia].
    apply (kcovers_trans _ ka ke x); auto using wf_e; [split; [apply lpm_le_refl|by right]|apply HL].
  - rewrite Hf. unfold insertWithPasses. rewrite Ve, Pe, <- Ew. cbn [andb].
    assert (El : Z.land (Lmax T) 255 = 255).
    { change 255 with (Z.ones 8) at 1. rewrite Z.land_ones by lia. apply (lay_max _ _ _ (pol_layout _ _ _ _ _ TP) T Tn). }
    rewrite El. destruct (Z.ltb_spec (Lmax T) (word e)); [lia|]. cbn [negb orb Z.eqb Pos.eqb].
    rewrite (si_cinfo _ _ (m_sinv _ M)).
    destruct (insert_verdict ms (Lmax T) ke E ch) as [[[s keys] seen]|] eqn:Ei.
    + destruct (insert_verdict_step ms ch s keys seen M Ei) as [Q HS].
      destruct (insert_verdict_ok cinfo ms (Lmax T) ke E ch s keys seen Hst wf_e Ei) as [Hst' [Qok HK]].
      destruct (sub_loop_fuel cinfo (Lmax T) agg E s keys seen Hst' HK Qok) as (s' & Es & _).
      cbn beta iota. rewrite Es. pose proof HS as (M' & _).
      destruct (sub_loop_step _ s keys seen s' M' (qu_ok _ _ _ Q) Es) as [M'' HD].
      apply mid_tinv; [done|]. intros x Wx HL. apply HD; try done. by apply (main_target x Wx HL ms s.1 M).
    + apply mid_tinv; [done|]. unfold insert_verdict in Ei. rewrite (si_cinfo _ _ (m_sinv _ M)) in Ei.
      destruct (scan_broader true _ _ _ _ _ _) as [sc|] eqn:Hsc; [|by eapply stop_decided].
      exfalso. destruct (scan_narrower _ _ _ _ _ _ _ _ _) as [s1 [keys1 seen1]]. by destruct (negb _ && _).
Qed.
End insert.
