(* ===== verification/TierPolicy.v ===== *)
(** * Tiered policies with pass verdicts

    Inserting the rules of a tiered policy tier by tier into an empty map state gives
    lookups that return the verdict of the rule that decides the key: the highest rule
    of the first tier whose highest rule is not a pass. *)

From S2P Require Import Prelude Precedence BitLPM PolicyKey Identity RuleOrigin PassMeta.
From S2P Require Import MapState MapStateIndex MapStateLookup MapStateOps MapStatePolicy.
From S2P Require Import TierOrder TierState TierScan TierInvariant TierInsert.

Local Open Scope Z_scope.

(** ** Rules as a set *)

Section ext.
Context (cinfo : ClusterInfo) (Lmin : nat → Z) (R R' : list trule) (HE : ∀ r, r ∈ R ↔ r ∈ R').

Lemma Pmax_ext x i : Pmax cinfo R x i = Pmax cinfo R' x i.
Proof.
  pose proof (Pmax_spec cinfo Lmin Lmin R x i) as H. pose proof (Pmax_spec cinfo Lmin Lmin R' x i) as H'.
  destruct (Pmax cinfo R x i) as [m|], (Pmax cinfo R' x i) as [m'|]; [|exfalso..|done].
  - destruct H as [(r & Hr & Hp & Ht & Hc & <-) Hm], H' as [(r' & Hr' & Hp' & Ht' & Hc' & <-) Hm'].
    f_equal. apply Z.le_antisymm; [apply Hm'|apply Hm]; try done; by apply HE.
  - destruct H as [(r & Hr & Hp & Ht & Hc & _) _]. apply (H' r); try done. by apply HE.
  - destruct H' as [(r & Hr & Hp & Ht & Hc & _) _]. apply (H r); try done. by apply HE.
Qed.

Lemma height_ext x r : height cinfo Lmin R x r = height cinfo Lmin R' x r.
Proof. apply elev_ext. intros j _. apply Pmax_ext. Qed.

Lemma live_ext x e : live cinfo R x e → live cinfo R' x e.
Proof.
  intros (He & Hp & Hc & HL). split_and!; [by apply HE|done|done|]. intros r Hr Hcr.
  destruct (HL r) as [H1 H2]; [by apply HE|done|]. split; [done|]. intros Ht. rewrite <- Pmax_ext. by apply H2.
Qed.
End ext.

(** ** Insertion of a policy *)

Section tiered.
Context {TR : Trie LPMKey IDSet} {TL : TrieLaws LPMKey IDSet TR} {GR : GoRange}.
Context (cinfo : ClusterInfo) (n : nat) (dir : Z) (Lmax Lmin : nat → Z).
Implicit Types (ms : mapState TR) (s : mapState TR * ChangeState) (x : Key) (r e : trule) (rs : list trule).

Definition insert_rule (features : Z) s r : mapState TR * ChangeState :=
  insertWithChanges s.1 (Lmax (tr_tier r)) (tr_key r) (tr_entry r) features s.2.

(** In the order of the tiers. *)
Definition by_tier rs : Prop := StronglySorted (λ a b, (tr_tier a ≤ tr_tier b)%nat) rs.

(** A state without entries of the direction. *)
Lemma empty_tinv ms : sinv cinfo ms → (∀ k : Key, TrafficDirection k = dir → ms_entries ms !! k = None) →
  tinv cinfo dir Lmax Lmin [] ms.
Proof.
  intros S HE. constructor; [done|..].
  - intros k k' q q' Dk _. unfold vprec. by rewrite HE.
  - intros k q Dk. unfold vprec. by rewrite HE.
  - intros k m Dk. unfold metas. rewrite HE by done. by intros ?%elem_of_nil.
  - by intros x i w _ [? _].
  - by intros x e _ (?%elem_of_nil & _).
Qed.

Lemma new_tinv ids features : tinv cinfo dir Lmax Lmin [] (newMapState (TR:=TR) ids features cinfo).
Proof.
  apply empty_tinv; [|intros; apply lookup_empty]. constructor; [apply newMapState_inv|done|].
  intros k v. cbn. by rewrite lookup_empty.
Qed.

Lemma insert_rule_tinv RF R r s features : tpolicy n dir Lmax Lmin RF → (∀ r, r ∈ R → r ∈ RF) → r ∈ RF →
  (∀ r', r' ∈ R → (tr_tier r' ≤ tr_tier r)%nat) → contains features passRules = true →
  st_inv cinfo wf_key wf_key s → tinv cinfo dir Lmax Lmin R s.1 →
  st_inv cinfo wf_key wf_key (insert_rule features s r) ∧ tinv cinfo dir Lmax Lmin (r :: R) (insert_rule features s r).1.
Proof.
  intros TP HR Hr HT Hf Hs I. unfold insert_rule. split.
  - destruct s as [ms ch]. apply insertWithChanges_ok; [done|].
    apply (ok_key _ _ _ _ _ (pol_rule _ _ _ _ _ TP r Hr)).
  - destruct (is_pass r) eqn:Ep.
    + by apply (insert_pass_rule cinfo n dir Lmax Lmin RF).
    + destruct s as [ms ch]. by apply (insert_verdict_rule cinfo n dir Lmax Lmin RF).
Qed.

Lemma insert_rules_tinv RF rs features : tpolicy n dir Lmax Lmin RF → contains features passRules = true → by_tier rs →
  ∀ R s, (∀ r, r ∈ R → r ∈ RF) → (∀ r, r ∈ rs → r ∈ RF) → (∀ r r', r ∈ R → r' ∈ rs → (tr_tier r ≤ tr_tier r')%nat) →
  st_inv cinfo wf_key wf_key s → tinv cinfo dir Lmax Lmin R s.1 →
  tinv cinfo dir Lmax Lmin (reverse rs ++ R) (foldl (insert_rule features) s rs).1.
Proof.
  intros TP Hf. induction 1 as [|r rs HS IH Hlt]; intros R s HR Hrs HT Hs I; [done|].
  rewrite reverse_cons, <- app_assoc. rewrite Forall_forall in Hlt.
  destruct (insert_rule_tinv RF R r s features) as [Hs' I']; try done.
  { apply Hrs. by left. }
  { intros r' Hr'. apply HT; [done|by left]. }
  cbn [foldl]. apply IH; try done.
  - intros r' [-> |?]%elem_of_cons; [apply Hrs; by left|by apply HR].
  - intros r' Hr'. apply Hrs. by right.
  - intros r' r'' [-> |?]%elem_of_cons Hr''; [by apply Hlt|]. apply HT; [done|by right].
Qed.

(** ** Lookup *)

Lemma tinv_ordered R ms : tinv cinfo dir Lmax Lmin R ms → ordered dir ms.
Proof.
  intros I. pose proof (t_sinv _ _ _ _ _ _ I) as S. constructor; [apply S| |].
  - intros k v _ E Hv. apply (te_wf _ (si_entry _ _ S k v E) Hv).
  - intros k v k' v' Dk E Hv E' Hv' Hk. rewrite (si_cinfo _ _ S) in Hk.
    apply (t_chain _ _ _ _ _ _ I k k'); [done|done| |]; unfold vprec, valid_prec; [rewrite E|rewrite E']; simpl; by rewrite ?Hv, ?Hv'.
Qed.

Lemma height_mod RF R x e : tpolicy n dir Lmax Lmin RF → (∀ r, r ∈ R → r ∈ RF) → e ∈ RF →
  height cinfo Lmin R x e mod 256 = word e mod 256.
Proof. intros TP HR He. apply (lift_mod cinfo n dir Lmax Lmin RF TP R HR e x). exact (Pmax_pass cinfo Lmax Lmin R x). Qed.

(** What a lookup returns. *)
Record gives (e : trule) (p : Z) (res : mapStateEntry * bool) : Prop := {
  gv_found : res.2 = true;
  gv_precedence : Precedence res.1 = p;
  gv_deny : MapStateEntry_IsDeny res.1 = MapStateEntry_IsDeny (tr_entry e);
  gv_redirect : IsRedirectEntry res.1 = IsRedirectEntry (tr_entry e);
}.

Lemma lookup_live RF R ms x e : tpolicy n dir Lmax Lmin RF → (∀ r, r ∈ R → r ∈ RF) → tinv cinfo dir Lmax Lmin R ms →
  wf_key x → live cinfo R x e → gives e (height cinfo Lmin R x e) (lookup ms x).
Proof.
  intros TP HR I Wx HL. pose proof (t_sinv _ _ _ _ _ _ I) as S.
  destruct (t_live _ _ _ _ _ _ I x e Wx HL) as (k & q & Hq & Hk & Hle).
  unfold vprec in Hq. apply bind_Some in Hq as (v & Ev & Hq). unfold valid_prec in Hq.
  destruct (IsValid v) eqn:Vv; [|done]. injection Hq as <-.
  assert (Dx : TrafficDirection x = dir) by (apply (rule_direction cinfo n dir Lmax Lmin RF TP e); [apply HR|]; apply HL).
  pose proof (tinv_ordered R ms I) as HO. rewrite <- Dx in HO. pose proof (lookup_entries ms x HO Wx) as HLk. rewrite (si_cinfo _ _ S) in HLk.
  destruct (lookup ms x) as [v0 [|]]; [|by destruct (proj2 HLk k v Ev Vv)].
  destruct HLk as [(k0 & E0 & V0 & Hk0) Hmax]. rewrite (si_cinfo _ _ S) in Hk0, Hmax.
  specialize (Hmax k v Ev Vv Hk).
  assert (Hp : Precedence v0 = height cinfo Lmin R x e).
  { assert (Precedence v0 ≤ height cinfo Lmin R x e); [|lia].
    apply (reached_exact cinfo n dir Lmax Lmin RF TP R HR ms x e k0); try done.
    unfold vprec. rewrite E0. simpl. unfold valid_prec. by rewrite V0. }
  assert (He : e ∈ RF) by (apply HR, HL).
  destruct (ok_verdict _ _ _ _ _ (pol_rule _ _ _ _ _ TP e He)) as [We Ve Pe _]; [apply HL|].
  assert (Hm : Precedence v0 mod 256 = Precedence (tr_entry e) mod 256).
  { rewrite Hp, (height_mod RF R x e TP HR He). f_equal.
    apply (word_verdict n dir Lmax Lmin RF TP e He). apply HL. }
  pose proof (te_wf _ (si_entry _ _ S k0 v0 E0) V0) as W0.
  constructor; [done|done| |].
  - unfold MapStateEntry_IsDeny, Precedence_IsDeny, precedenceByteMask, precedenceByteDeny.
    change 255 with (Z.ones 8). simpl. rewrite !Z.land_ones by lia. simpl. change (2 ^ 8) with 256. by rewrite Hm.
  - unfold IsRedirectEntry. f_equal. apply eq_true_iff_eq. rewrite !Z.eqb_eq. simpl.
    destruct We as [_ _ _ Wd Wa], W0 as [_ _ _ Wd0 Wa0].
    destruct (decide (Precedence (tr_entry e) mod 256 = 255)) as [E|E].
    + rewrite Wd by done. rewrite Wd0 by congruence. done.
    + rewrite Wa, Wa0 by congruence. by rewrite Hm.
Qed.

Lemma tiered_lookup_from s features rs x e : contains features passRules = true → tpolicy n dir Lmax Lmin rs → by_tier rs →
  st_inv cinfo wf_key wf_key s → tinv cinfo dir Lmax Lmin [] s.1 → wf_key x → live cinfo rs x e →
  gives e (height cinfo Lmin rs x e) (lookup (foldl (insert_rule features) s rs).1 x).
Proof.
  intros Hf TP HS Hs I Wx HL.
  assert (HE : ∀ r, r ∈ rs ↔ r ∈ reverse rs ++ []) by (intros r; by rewrite app_nil_r, elem_of_reverse).
  rewrite (height_ext cinfo Lmin rs (reverse rs ++ []) HE). apply (lookup_live rs); [done|intros r; apply HE| |done|].
  - by apply (insert_rules_tinv rs rs features TP Hf HS []); [intros r ?%elem_of_nil| |intros r r' ?%elem_of_nil|..].
  - by apply (live_ext cinfo Lmin rs).
Qed.

Lemma tiered_lookup ids features ch rs x e : contains features passRules = true → tpolicy n dir Lmax Lmin rs → by_tier rs →
  (∀ k o, old ch = Some o → is_Some (o !! k) → wf_key k) → wf_key x → live cinfo rs x e →
  gives e (height cinfo Lmin rs x e) (lookup (foldl (insert_rule features) (newMapState ids features cinfo, ch) rs).1 x).
Proof.
  intros Hf TP HS Hch Wx HL. apply tiered_lookup_from; try done; [|apply new_tinv].
  constructor; [apply newMapState_inv|done| |done]. intros k [v Hv]. cbn in Hv. by rewrite lookup_empty in Hv.
Qed.
End tiered.
