(* ===== verification/TierPriorities.v ===== *)
(** * Tier priorities

    The assignment of datapath priorities to the rules of a tiered policy
    ([pkg/policy/rules.go]) and the step-by-step policy simulator of
    [pkg/policy/testutils/simulate.go].  The assigned priorities leave room after every
    pass for all the rules of the later tiers, so that, by the theory of [TierPolicy],
    a map state built from them decides every flow as the simulator does. *)

From Stdlib Require Import QArith.
From stdpp Require Import sorting.
From S2P Require Import Prelude Precedence BitLPM PolicyKey Identity RuleOrigin PassMeta.
From S2P Require Import MapState MapStateIndex MapStateLookup MapStateOps MapStatePolicy PolicyRule.
From S2P Require Import TierOrder TierState TierScan TierInvariant TierInsert TierPolicy.

Local Open Scope Z_scope.

(** ** Priority levels

    The arithmetic on [int] is a parameter of the definitions: [swrap 64] for the code,
    the identity for the exact count of the levels. *)

(** A signed integer of [w] bits. *)
Definition swrap (w x : Z) : Z := (x + 2 ^ (w - 1)) mod 2 ^ w - 2 ^ (w - 1).

Definition perTierRoundUp : Z := 10.

Section levels.
Context (int : Z → Z).

Definition roundUp (n to : Z) : Z := int (Z.quot (int (n + int (to - 1))) to * to).

Definition RoundupInt (n to : Z) : Z :=
  let r := Z.rem n to in
  if negb (r =? 0) then int (n + int (to - r)) else n.

(** The variables of the first loop. *)
Record levelScan := mkScan {
  tierPriorityLevels : list Z;
  numPassVerdicts : list Z;
  lastPrio : Q;
  levels : Z;
  lastPassLevel : Z;
  lastTier : Z;
}.

(** The change of tier or of priority level. *)
Definition scan_level (nTiers : Z) (s : levelScan) (r : PolicyEntry) : error + levelScan :=
  if negb (Tier r =? lastTier s) then
    if Tier r <? lastTier s then inl ErrUnorderedTiers
    else if nTiers <=? Tier r then inl ErrInvalidTier
    else
      a <~ store (tierPriorityLevels s) (lastTier s) (roundUp (levels s) 10);;
      inr (mkScan a (numPassVerdicts s) (Priority r) 1 0 (Tier r))
  else if negb (Qeq_bool (Priority r) (lastPrio s)) then
    if negb (Qle_bool (lastPrio s) (Priority r)) then inl ErrUnorderedRules
    else inr (mkScan (tierPriorityLevels s) (numPassVerdicts s) (Priority r)
                (int (levels s + 1)) (lastPassLevel s) (lastTier s))
  else inr s.

Definition scan_pass (s : levelScan) (r : PolicyEntry) : error + levelScan :=
  if is_pass_verdict (pe_Verdict r) && negb (levels s =? lastPassLevel s) then
    k <~ index (numPassVerdicts s) (lastTier s);;
    a <~ store (numPassVerdicts s) (lastTier s) (int (k + 1));;
    inr (mkScan (tierPriorityLevels s) a (lastPrio s) (levels s) (levels s) (lastTier s))
  else inr s.

Definition scan_rule (nTiers : Z) (s : levelScan) (r : PolicyEntry) : error + levelScan :=
  s <~ scan_level nTiers s r;; scan_pass s r.

(** [for tier := k - 1; tier >= 0; tier--]. *)
Fixpoint lift_levels (numPass : list Z) (k : nat) (a : list Z) : error + list Z :=
  match k with
  | O => inr a
  | S k =>
      let tier := Z.of_nat k in
      l <~ index a tier;;
      p <~ index numPass tier;;
      n <~ index a (tier + 1);;
      let v := int (l + int (int (p + 1) * n)) in
      a <~ store a tier (RoundupInt v perTierRoundUp);;
      lift_levels numPass k a
  end.

(** The priority levels each tier needs, with those of the later tiers. *)
Definition tier_levels (rules : list PolicyEntry) : error + list Z :=
  match rules, last rules with
  | r0 :: _, Some rl =>
      let nTiers := Tier rl + 1 in
      let zeros := replicate (Z.to_nat nTiers) 0 in
      s <~ each (scan_rule nTiers) (mkScan zeros zeros (Priority r0) 1 0 (Tier r0)) rules;;
      a <~ store (tierPriorityLevels s) (lastTier s) (roundUp (levels s) perTierRoundUp);;
      lift_levels (numPassVerdicts s) (Z.to_nat (lastTier s)) a
  | _, _ => inl IndexOutOfRange
  end.
End levels.

(** The base priorities of the tiers after the first, which has base priority 0. *)
Fixpoint base_priorities (a : list Z) (basePriority : Z) : list Z :=
  match a with
  | l :: (n :: _) as a =>
      let b := uwrap 32 (basePriority + uwrap 32 (swrap 64 (l - n))) in
      b :: base_priorities a b
  | _ => []
  end.

Definition computeTierPriorities (rules : list PolicyEntry) : error + (list Z * list Z) :=
  a <~ tier_levels (swrap 64) rules;;
  top <~ index a 0;;
  if LowestPriority <? top then inl ErrTooManyPriorityLevels
  else inr (0 :: base_priorities a 0, tail a ++ [0]).

(** The levels a policy needs, counted exactly. *)
Definition levels_needed (rules : list PolicyEntry) : error + Z :=
  a <~ tier_levels id rules;; index a 0.

(** ** Assignment of priorities *)

Section resolve.
(** What [L4PolicyMaps.resolveL4Policy] does with one rule at its tier and priority. *)
Context {A : Type} (addRule : A → Z → Z → PolicyEntry → error + A).

(** The variables of the loop. *)
Record resolution := mkResolution {
  result : A;
  priority : Z;
  increment : Z;
  tier : Z;
  prevPrio : Q;
}.

Definition resolve_level (bases : list Z) (s : resolution) (r : PolicyEntry) : error + resolution :=
  if negb (Tier r =? tier s) then
    p <~ index bases (Tier r);;
    inr (mkResolution (result s) p 1 (Tier r) (Priority r))
  else if negb (Qeq_bool (Priority r) (prevPrio s)) then
    let (p, ok) := Priority_Add (priority s) (increment s) in
    if negb ok then inl ErrTooManyPriorityLevels
    else inr (mkResolution (result s) p 1 (tier s) (Priority r))
  else inr s.

Definition resolve_rule (bases passLevels : list Z) (s : resolution) (r : PolicyEntry) : error + resolution :=
  s <~ resolve_level bases s r;;
  res <~ addRule (result s) (tier s) (priority s) r;;
  let s := mkResolution res (priority s) (increment s) (tier s) (prevPrio s) in
  let lastTier := uwrap 8 (Z.of_nat (length bases) - 1) in
  if is_pass_verdict (pe_Verdict r) && (tier s <? lastTier) then
    n <~ index passLevels (tier s);;
    inr (mkResolution (result s) (priority s) (uwrap 32 (uwrap 32 n + 1)) (tier s) (prevPrio s))
  else inr s.

(** The base priorities of the tiers and what the rules add up to. *)
Definition resolveL4Policy (init : A) (rules : list PolicyEntry) : error + (list Z * A) :=
  match rules with
  | [] => inr ([0], init)
  | r0 :: _ =>
      tiers <~ computeTierPriorities rules;;
      let (bases, passLevels) := tiers : list Z * list Z in
      s <~ each (resolve_rule bases passLevels) (mkResolution init 0 1 0 (Priority r0)) rules;;
      inr (bases, result s)
  end.
End resolve.

(** The rules with the priorities they are resolved at. *)
Definition assign (out : list (PolicyEntry * Z)) (_ p : Z) (r : PolicyEntry)
  : error + list (PolicyEntry * Z) := inr (out ++ [(r, p)]).

(** The next tier's priority as [L4DirectionPolicy.toMapState] passes it on. *)
Definition nextTierPriority (bases : list Z) (tier : Z) : Z :=
  default LowestPriority (bases !! Z.to_nat (tier + 1)).

(** ** The simulator *)

Inductive FlowDecision := DecisionAllowed | DecisionDenied.

Section simulate.
Implicit Types (entry : PolicyEntry).

Fixpoint match_loop (skipTierBefore : Z) (l : list PolicyEntry) : FlowDecision :=
  match l with
  | [] => DecisionDenied
  | entry :: l =>
      if Tier entry <? skipTierBefore then match_loop skipTierBefore l
      else
        match pe_Verdict entry with
        | Pass => match_loop (uwrap 8 (Tier entry + 1)) l
        | Deny => DecisionDenied
        | Allow => DecisionAllowed
        end
  end.
End simulate.

Definition findMatchingRule (matchingEntries : list PolicyEntry) (defaultDeny : bool) : FlowDecision :=
  match matchingEntries with
  | [] => if defaultDeny then DecisionDenied else DecisionAllowed
  | _ => match_loop 0 matchingEntries
  end.

Definition verdictOrder (v : Verdict) : Z := match v with Deny => 0 | Allow => 1 | Pass => 2 end.

(** The order of the simulator's [sort]: tier, priority, then deny, allow, pass. *)
Definition entry_le (a b : PolicyEntry) : Prop :=
  Tier a < Tier b ∨
  Tier a = Tier b ∧ ((Priority a < Priority b)%Q ∨
  (Priority a == Priority b)%Q ∧ verdictOrder (pe_Verdict a) ≤ verdictOrder (pe_Verdict b)).

(** ** Position of a rule in its tier *)

(** The priority level a rule is on: how many levels of its tier there are so far, how
    many of them have a pass, and whether this one does. *)
Record position := mkPos { c_tier : Z; c_prio : Q; c_levels : Z; c_passes : Z; c_cur : bool }.

Definition pass_at (c : position) (v : Verdict) : position :=
  if is_pass_verdict v && negb (c_cur c)
  then mkPos (c_tier c) (c_prio c) (c_levels c) (c_passes c + 1) true else c.

Definition advance (c : position) (r : PolicyEntry) : position :=
  if negb (Tier r =? c_tier c) then mkPos (Tier r) (Priority r) 1 0 false
  else if negb (Qeq_bool (Priority r) (c_prio c))
  then mkPos (c_tier c) (Priority r) (c_levels c + 1) (c_passes c) false else c.

Definition next_pos (c : position) (r : PolicyEntry) : position := pass_at (advance c r) (pe_Verdict r).

Fixpoint walk (c : position) (rs : list PolicyEntry) : list (PolicyEntry * position) :=
  match rs with
  | [] => []
  | r :: rs => (r, next_pos c r) :: walk (next_pos c r) rs
  end.

Fixpoint walk_end (c : position) (rs : list PolicyEntry) : position :=
  match rs with
  | [] => c
  | r :: rs => walk_end (next_pos c r) rs
  end.

Definition start (r : PolicyEntry) : position := mkPos (Tier r) (Priority r) 1 0 false.

Definition before (c : position) : Z := c_passes c - (if c_cur c then 1 else 0).

(** Positions in order: of a later tier, of a later level of the same tier, or of the
    same level. *)
Definition pos_le (c c' : position) : Prop :=
  c_tier c < c_tier c' ∨
  c_tier c = c_tier c' ∧
  ((c_levels c = c_levels c' ∧ before c = before c' ∧ c_passes c ≤ c_passes c' ∧ (c_prio c == c_prio c')%Q) ∨
   (c_levels c < c_levels c' ∧ c_passes c ≤ before c' ∧ (c_prio c < c_prio c')%Q)).

Definition in_order (c : position) (r : PolicyEntry) : Prop :=
  c_tier c ≤ Tier r ∧ (c_tier c = Tier r → (c_prio c <= Priority r)%Q).

Fixpoint ordered_from (c : position) (rs : list PolicyEntry) : Prop :=
  match rs with
  | [] => True
  | r :: rs => in_order c r ∧ ordered_from (next_pos c r) rs
  end.

Lemma before_le c : before c ≤ c_passes c.
Proof. unfold before. destruct (c_cur c); lia. Qed.

#[export] Instance pos_le_trans : Transitive pos_le.
Proof.
  intros a b c [H1|[H1 D1]] [H2|[H2 D2]]; [left; lia|left; lia|left; lia|].
  right. split; [lia|]. pose proof (before_le a). pose proof (before_le b).
  destruct D1 as [(?&?&?&Q1)|(?&?&Q1)], D2 as [(?&?&?&Q2)|(?&?&Q2)].
  - left. split_and!; [lia..|by rewrite Q1].
  - right. split_and!; [lia..|by rewrite Q1].
  - right. split_and!; [lia..|by rewrite <- Q2].
  - right. split_and!; [lia..|by apply (Qlt_trans _ (c_prio b))].
Qed.

Lemma next_pos_tier c r : c_tier (next_pos c r) = Tier r.
Proof.
  unfold next_pos, pass_at, advance.
  destruct (Z.eqb_spec (Tier r) (c_tier c)); simpl; repeat case_match; simpl in *; congruence.
Qed.

Lemma next_pos_prio c r : (c_prio (next_pos c r) == Priority r)%Q.
Proof.
  unfold next_pos, pass_at, advance.
  destruct (negb (Tier r =? c_tier c)); simpl; [by case_match|].
  destruct (Qeq_bool (Priority r) (c_prio c)) eqn:E; simpl; [|by case_match].
  apply Qeq_bool_iff in E. case_match; simpl; by symmetry.
Qed.

Lemma next_pos_pass c r : pe_Verdict r = Pass → c_cur (next_pos c r) = true.
Proof.
  intros Hv. unfold next_pos, pass_at. rewrite Hv. simpl. by destruct (c_cur (advance c r)) eqn:E.
Qed.

Lemma pass_at_tier c v : c_tier (pass_at c v) = c_tier c.
Proof. unfold pass_at. by destruct (_ && _). Qed.

Lemma pass_at_prio c v : c_prio (pass_at c v) = c_prio c.
Proof. unfold pass_at. by destruct (_ && _). Qed.

Lemma pass_at_le c v : pos_le c (pass_at c v).
Proof.
  right. unfold pass_at, before. destruct (is_pass_verdict v), (c_cur c) eqn:E; simpl; rewrite ?E;
    (split; [done|left; split_and!; [lia..|done]]).
Qed.

Lemma advance_le c r : in_order c r → pos_le c (advance c r).
Proof.
  intros [Ht Hq]. unfold advance. destruct (Z.eqb_spec (Tier r) (c_tier c)) as [E|E]; simpl; [|left; simpl; lia].
  right. destruct (Qeq_bool (Priority r) (c_prio c)) eqn:Eq; simpl; [split; [done|left; by split_and!]|].
  split; [done|right]. unfold before. simpl. split_and!; [lia..|].
  apply Qle_lteq in Hq as [?|Hq]; [done| |done].
  apply Qeq_bool_neq in Eq. by destruct Eq.
Qed.

Lemma next_pos_le c r : in_order c r → pos_le c (next_pos c r).
Proof. intros H. etrans; [by apply advance_le|apply pass_at_le]. Qed.

Lemma walk_sorted c rs : ordered_from c rs →
  StronglySorted (λ a b, pos_le a.2 b.2) (walk c rs) ∧ Forall (λ a, pos_le c a.2) (walk c rs).
Proof.
  revert c. induction rs as [|r rs IH]; intros c; simpl; [intros; split; constructor|].
  intros [H1 H2]. destruct (IH _ H2) as [HS HF]. split; [by constructor|].
  pose proof (next_pos_le _ _ H1). constructor; [done|].
  eapply Forall_impl; [done|]. intros a Ha. simpl in *. by etrans.
Qed.

(** Any two rules of the walk are comparable. *)
Lemma walk_compare c rs a b : ordered_from c rs → a ∈ walk c rs → b ∈ walk c rs → a.2 = b.2 ∨ pos_le a.2 b.2 ∨ pos_le b.2 a.2.
Proof.
  intros [HS _]%walk_sorted. induction HS as [|x l HS IH HF]; [by intros ?%elem_of_nil|].
  rewrite Forall_forall in HF.
  intros [-> |Ha]%elem_of_cons [-> |Hb]%elem_of_cons; [by left|right; left; by apply HF|right; right; by apply HF|by apply IH].
Qed.

Lemma walk_in c rs a : a ∈ walk c rs → a.1 ∈ rs.
Proof.
  revert c. induction rs as [|r rs IH]; intros c; simpl; [by intros ?%elem_of_nil|].
  intros [-> |Ha]%elem_of_cons; [by left|]. right. by eapply IH.
Qed.

Lemma walk_pos c rs a : a ∈ walk c rs →
  c_tier a.2 = Tier a.1 ∧ (c_prio a.2 == Priority a.1)%Q ∧ (pe_Verdict a.1 = Pass → c_cur a.2 = true).
Proof.
  revert c. induction rs as [|r rs IH]; intros c; simpl; [by intros ?%elem_of_nil|].
  intros [-> |Ha]%elem_of_cons; [|by eapply IH]. simpl.
  split_and!; [apply next_pos_tier|apply next_pos_prio|apply next_pos_pass].
Qed.

(** ** The scan of the levels *)

(** Rules in the order [ruleSlice.sort] puts them. *)
Definition rule_le (a b : PolicyEntry) : Prop :=
  Tier a < Tier b ∨ Tier a = Tier b ∧ (Priority a <= Priority b)%Q.

Lemma ordered_walk c rs : StronglySorted rule_le rs → Forall (in_order c) rs → ordered_from c rs.
Proof.
  intros HS. revert c. induction HS as [|r rs HS IH HR]; intros c HC; simpl; [done|].
  inversion HC; subst. split; [done|]. apply IH. rewrite Forall_forall in HR |- *.
  intros q Hq. specialize (HR q Hq). unfold in_order. rewrite next_pos_tier.
  split; [destruct HR; lia|]. intros E. rewrite next_pos_prio. destruct HR as [?|[_ ?]]; [lia|done].
Qed.

Definition at_ (l : list Z) (i : Z) : Z := default 0 (l !! Z.to_nat i).

Lemma index_at l i : 0 ≤ i < Z.of_nat (length l) → index l i = inr (at_ l i).
Proof.
  intros Hi. unfold index, at_. destruct (lookup_lt_is_Some_2 l (Z.to_nat i)) as [x ->]; [lia|done].
Qed.

Lemma store_in (l : list Z) i x : 0 ≤ i < Z.of_nat (length l) → store l i x = inr (<[Z.to_nat i := x]> l).
Proof.
  intros Hi. unfold store. destruct (lookup_lt_is_Some_2 l (Z.to_nat i)) as [y ->]; [lia|done].
Qed.

Lemma at_insert (l : list Z) i j x : 0 ≤ i < Z.of_nat (length l) → 0 ≤ j →
  at_ (<[Z.to_nat i := x]> l) j = if decide (i = j) then x else at_ l j.
Proof.
  intros Hi Hj. unfold at_. case_decide as E; [subst; by rewrite list_lookup_insert_eq by lia|].
  rewrite list_lookup_insert_ne; [done|lia].
Qed.

(** The scan at a position: [N] bounds the counts, [n] is the number of tiers. *)
Record scan_at (n N : Z) (s : levelScan) (c : position) : Prop := {
  sa_tier : lastTier s = c_tier c;
  sa_prio : lastPrio s = c_prio c;
  sa_levels : levels s = c_levels c;
  sa_cur : (levels s =? lastPassLevel s) = c_cur c;
  sa_low : 0 ≤ lastPassLevel s ≤ levels s;
  sa_pos : 1 ≤ levels s ≤ N + 1;
  sa_range : 0 ≤ lastTier s < n;
  sa_len : Z.of_nat (length (tierPriorityLevels s)) = n ∧ Z.of_nat (length (numPassVerdicts s)) = n;
  sa_passes : at_ (numPassVerdicts s) (lastTier s) = c_passes c;
  sa_later t : lastTier s < t → at_ (numPassVerdicts s) t = 0;
  sa_nonneg t : 0 ≤ t → 0 ≤ at_ (tierPriorityLevels s) t ∧ 0 ≤ at_ (numPassVerdicts s) t ≤ N;
}.

(** The levels a tier has so far. *)
Definition reserve (s : levelScan) (t : Z) : Z :=
  if decide (t = lastTier s) then levels s else at_ (tierPriorityLevels s) t.

Record scan_grows (s s' : levelScan) : Prop := {
  sg_tier : lastTier s ≤ lastTier s';
  sg_levels t : 0 ≤ t ≤ lastTier s → reserve s t ≤ reserve s' t;
  sg_passes t : 0 ≤ t ≤ lastTier s → at_ (numPassVerdicts s) t ≤ at_ (numPassVerdicts s') t;
}.

#[export] Instance scan_grows_preorder : PreOrder scan_grows.
Proof.
  split; [intros s; constructor; intros; lia|]. intros a b c [? H1 H2] [? H3 H4]. constructor; [lia|..].
  - intros t Ht. etrans; [by apply H1|apply H3; lia].
  - intros t Ht. etrans; [by apply H2|apply H4; lia].
Qed.

Lemma roundUp_ge k : 0 ≤ k → k ≤ roundUp id k 10.
Proof. intros Hk. unfold roundUp, id. rewrite Z.quot_div_nonneg by lia. dlia. Qed.

Lemma RoundupInt_ge v : 0 ≤ v → v ≤ RoundupInt id v perTierRoundUp.
Proof.
  intros Hv. unfold RoundupInt, id, perTierRoundUp. rewrite Z.rem_mod_nonneg by lia.
  destruct (Z.eqb_spec (v mod 10) 0); simpl; dlia.
Qed.

Lemma scan_level_at n N s c r : scan_at n N s c → in_order c r → 0 ≤ Tier r < n →
  ∃ s', scan_level id n s r = inr s' ∧ scan_at n (N + 1) s' (advance c r) ∧ scan_grows s s'.
Proof.
  intros S [Ht Hq] Hr. destruct S as [S1 S2 S3 S4 S5 S6 S7 [S8 S8'] S9 S10 S11].
  unfold scan_level, advance. rewrite S1, S2.
  destruct (Z.eqb_spec (Tier r) (c_tier c)) as [E|E]; simpl.
  - destruct (Qeq_bool (Priority r) (c_prio c)) eqn:Eq; simpl.
    + exists s. split; [done|]. split; [|done]. constructor; try done; [lia|].
      intros t T. destruct (S11 t T). lia.
    + rewrite (proj2 (Qle_bool_iff _ _)) by (apply Hq; lia). simpl. eexists. split; [done|].
      split; constructor; simpl; unfold id; try done; try lia.
      * congruence.
      * intros t T. apply S10. lia.
      * intros t T. destruct (S11 t T). lia.
      * intros t T. unfold reserve. simpl. repeat case_decide; lia.
  - destruct (Z.ltb_spec (Tier r) (c_tier c)); [lia|]. destruct (Z.leb_spec n (Tier r)); [lia|].
    rewrite store_in by lia. simpl. eexists. split; [done|]. pose proof (roundUp_ge (levels s) ltac:(lia)).
    split; constructor; simpl; try done; try lia.
    + rewrite length_insert. done.
    + apply S10. lia.
    + intros t T. apply S10. lia.
    + intros t T. destruct (S11 t T). rewrite at_insert by lia. case_decide; lia.
    + intros t T. unfold reserve. simpl. rewrite at_insert by lia. repeat case_decide; subst; lia.
Qed.

Lemma scan_pass_at n N s c r : scan_at n N s c →
  ∃ s', scan_pass id s r = inr s' ∧ scan_at n (N + 1) s' (pass_at c (pe_Verdict r)) ∧ scan_grows s s'.
Proof.
  intros S. destruct S as [S1 S2 S3 S4 S5 S6 S7 [S8 S8'] S9 S10 S11].
  unfold scan_pass, pass_at. rewrite S4. destruct (is_pass_verdict (pe_Verdict r) && negb (c_cur c)) eqn:E.
  - rewrite index_at by lia. simpl. rewrite store_in by lia. simpl. eexists. split; [done|].
    destruct (S11 (lastTier s) ltac:(lia)).
    split; constructor; simpl; unfold id; try done; try lia.
    + by rewrite length_insert.
    + rewrite at_insert by lia. case_decide; lia.
    + intros t T. rewrite at_insert by lia. case_decide; [lia|by apply S10].
    + intros t T. destruct (S11 t T). rewrite at_insert by lia. case_decide; lia.
    + intros t T. rewrite at_insert by lia. case_decide; subst; lia.
  - exists s. split; [done|]. split; [|done]. constructor; try done; [lia|].
    intros t T. destruct (S11 t T). lia.
Qed.

Lemma scan_rule_at n N s c r : scan_at n N s c → in_order c r → 0 ≤ Tier r < n →
  ∃ s', scan_rule id n s r = inr s' ∧ scan_at n (N + 2) s' (next_pos c r) ∧ scan_grows s s'.
Proof.
  intros S Ho Hr. destruct (scan_level_at _ _ _ _ _ S Ho Hr) as (s1 & E1 & A1 & G1).
  destruct (scan_pass_at _ _ _ _ r A1) as (s2 & E2 & A2 & G2).
  exists s2. unfold scan_rule. rewrite E1. simpl. split; [done|]. split; [|by etrans].
  by replace (N + 2) with (N + 1 + 1) by lia.
Qed.

Lemma scan_rules_at n rs : ∀ N s c, scan_at n N s c → ordered_from c rs → Forall (λ r, 0 ≤ Tier r < n) rs →
  ∃ s', each (scan_rule id n) s rs = inr s' ∧ scan_at n (N + 2 * Z.of_nat (length rs)) s' (walk_end c rs) ∧
    scan_grows s s' ∧
    ∀ a, a ∈ walk c rs → c_levels a.2 ≤ reserve s' (Tier a.1) ∧ c_passes a.2 ≤ at_ (numPassVerdicts s') (Tier a.1).
Proof.
  induction rs as [|r rs IH]; intros N s c S; cbn [ordered_from walk walk_end each length].
  - intros _ _. exists s. split_and!; [done|by replace (N + _) with N by lia|done|by intros ? ?%elem_of_nil].
  - intros [Ho HO] [Hr HR]%Forall_cons.
    destruct (scan_rule_at _ _ _ _ _ S Ho Hr) as (s1 & -> & A1 & G1). simpl.
    destruct (IH _ _ _ A1 HO HR) as (s2 & E2 & A2 & G2 & W). exists s2.
    split; [done|]. split; [by replace (N + _) with (N + 2 + 2 * Z.of_nat (length rs)) by lia|].
    split; [by etrans|]. intros a [-> |Ha]%elem_of_cons; [|by apply W]. cbn [fst snd].
    destruct A1 as [T1 _ L1 _ _ _ R1 _ P1 _ _]. rewrite next_pos_tier in T1. rewrite <- L1, <- P1, T1.
    pose proof (sg_levels _ _ G2 (Tier r) ltac:(lia)) as HL. unfold reserve at 1 in HL.
    rewrite decide_True in HL by done. split; [done|]. apply (sg_passes _ _ G2). lia.
Qed.

(** ** The exact computation *)

(** The computation on [int] is exact as long as the levels needed fit in it. *)
Section exact.
Context (int : Z → Z) (Hint : ∀ x, 0 ≤ x < 2 ^ 63 → int x = x).

Lemma roundUp_exact k : 0 ≤ k < 2 ^ 62 → roundUp int k 10 = roundUp id k 10.
Proof.
  intros Hk. unfold roundUp, id. rewrite (Hint (10 - 1)), (Hint (k + _)) by lia.
  rewrite Z.quot_div_nonneg by lia. apply Hint. dlia.
Qed.

Lemma RoundupInt_exact v : 0 ≤ v → RoundupInt id v perTierRoundUp < 2 ^ 63 →
  RoundupInt int v perTierRoundUp = RoundupInt id v perTierRoundUp.
Proof.
  intros Hv. unfold RoundupInt, id, perTierRoundUp. rewrite Z.rem_mod_nonneg by lia.
  destruct (Z.eqb_spec (v mod 10) 0); simpl; [done|]. intros.
  rewrite (Hint (10 - _)) by dlia. apply Hint. dlia.
Qed.

Lemma scan_rule_exact n N s c r : scan_at n N s c → N < 2 ^ 61 → scan_rule int n s r = scan_rule id n s r.
Proof.
  intros S HN. destruct S as [_ _ _ _ _ S6 S7 [_ S8'] _ _ S11].
  unfold scan_rule. assert (scan_level int n s r = scan_level id n s r) as ->.
  { unfold scan_level. rewrite roundUp_exact, (Hint (levels s + 1)) by lia. done. }
  destruct (scan_level id n s r) as [|s'] eqn:E; [done|]. simpl.
  unfold scan_pass. destruct (is_pass_verdict _ && _); [|done].
  assert (H : numPassVerdicts s' = numPassVerdicts s ∧ 0 ≤ lastTier s').
  { unfold scan_level, store in E. repeat (case_match; simplify_eq/=); try (split; [done|lia]). }
  destruct H as [H1 H2]. rewrite H1. unfold index. case_match eqn:Ek; [|done]. simpl.
  destruct (S11 (lastTier s') H2) as [_ Hb]. unfold at_ in Hb. rewrite Ek in Hb. simpl in Hb.
  by rewrite Hint by lia.
Qed.

Lemma scan_rules_exact n rs : ∀ N s c, scan_at n N s c → N + 2 * Z.of_nat (length rs) < 2 ^ 61 →
  ordered_from c rs → Forall (λ r, 0 ≤ Tier r < n) rs →
  each (scan_rule int n) s rs = each (scan_rule id n) s rs.
Proof.
  induction rs as [|r rs IH]; intros N s c S HN; [done|]. intros [Ho HO] [Hr HR]%Forall_cons.
  cbn [each]. cbn [length] in HN. rewrite (scan_rule_exact n N s c r S) by lia.
  destruct (scan_rule_at _ _ _ _ _ S Ho Hr) as (s1 & -> & A1 & G1). simpl.
  apply (IH (N + 2) s1 (next_pos c r)); try done. lia.
Qed.

(** What the loop over the tiers gives: the levels of a tier cover its own, and those of
    the next tier once for each pass and once more. *)
Record lifted_levels (ps a : list Z) (k : nat) (res : list Z) : Prop := {
  ll_len : length res = length a;
  ll_keep i : Z.of_nat k ≤ i → at_ res i = at_ a i;
  ll_step i : 0 ≤ i < Z.of_nat k → at_ a i + (at_ ps i + 1) * at_ res (i + 1) ≤ at_ res i;
  ll_nonneg i : 0 ≤ i → 0 ≤ at_ res i;
  ll_top : at_ a (Z.of_nat k) ≤ at_ res 0;
}.

Lemma lift_levels_spec ps k : ∀ a, (∀ i, 0 ≤ i → 0 ≤ at_ a i) → (∀ i, 0 ≤ i → 0 ≤ at_ ps i < 2 ^ 62) →
  (k < length a)%nat → (k < length ps)%nat →
  ∃ res, lift_levels id ps k a = inr res ∧ lifted_levels ps a k res ∧
    (at_ res 0 < 2 ^ 63 → lift_levels int ps k a = inr res).
Proof.
  induction k as [|k IH]; intros a Ha Hp Hka Hkp.
  - exists a. split; [done|]. split; [|done]. constructor; try done; lia.
  - cbn [lift_levels]. rewrite !index_at by lia. cbn [sbind].
    rewrite !store_in by lia. cbn [sbind].
    pose proof (Ha (Z.of_nat k) ltac:(lia)). pose proof (Ha (Z.of_nat k + 1) ltac:(lia)).
    pose proof (Hp (Z.of_nat k) ltac:(lia)).
    set (l := at_ a (Z.of_nat k)) in *. set (p := at_ ps (Z.of_nat k)) in *. set (m := at_ a (Z.of_nat k + 1)) in *.
    assert (0 ≤ (p + 1) * m) by nia.
    pose proof (RoundupInt_ge (l + (p + 1) * m) ltac:(lia)) as Hv.
    change (id (l + id (id (p + 1) * m))) with (l + (p + 1) * m).
    set (v := RoundupInt id (l + (p + 1) * m) perTierRoundUp) in *.
    destruct (IH (<[Z.to_nat (Z.of_nat k) := v]> a)) as (res & E & L & X).
    { intros i Hi. rewrite at_insert by lia. case_decide; [lia|by apply Ha]. }
    { done. } { rewrite length_insert. lia. } { lia. }
    exists res. split; [done|]. destruct L as [L1 L2 L3 L4 L5]. rewrite length_insert in L1.
    rewrite at_insert in L5 by lia. rewrite decide_True in L5 by done.
    split; [constructor|].
    + done.
    + intros i Hi. rewrite L2 by lia. rewrite at_insert by lia. by rewrite decide_False by lia.
    + intros i Hi. destruct (decide (i = Z.of_nat k)) as [-> |Hne].
      * rewrite !L2 by lia. rewrite !at_insert by lia. rewrite decide_False by lia. by rewrite decide_True by done.
      * specialize (L3 i ltac:(lia)). rewrite at_insert in L3 by lia. by rewrite decide_False in L3 by lia.
    + done.
    + replace (Z.of_nat (S k)) with (Z.of_nat k + 1) by lia. fold m. nia.
    + intros HB. rewrite (Hint (p + 1)) by lia. rewrite (Hint ((p + 1) * m)) by lia. rewrite Hint by lia.
      rewrite RoundupInt_exact by (fold v; lia). fold v. by apply X.
Qed.
End exact.

Lemma swrap_small x : 0 ≤ x < 2 ^ 63 → swrap 64 x = x.
Proof. intros Hx. unfold swrap. change (64 - 1) with 63. rewrite Z.mod_small; lia. Qed.

(** ** The layout of the tiers *)

(** What the levels [a] of the tiers give the rules of the walk. *)
Record levels_ok (rules : list PolicyEntry) (c : position) (a ls ps : list Z) : Prop := {
  lo_nonneg t : 0 ≤ t → 0 ≤ at_ a t ∧ 0 ≤ at_ ls t ∧ 0 ≤ at_ ps t;
  lo_step t : 0 ≤ t → t + 1 < Z.of_nat (length a) → at_ ls t + (at_ ps t + 1) * at_ a (t + 1) ≤ at_ a t;
  lo_last t : t + 1 = Z.of_nat (length a) → at_ ls t ≤ at_ a t;
  lo_rule r : r ∈ walk c rules → 0 ≤ Tier r.1 < Z.of_nat (length a) ∧
    c_levels r.2 ≤ at_ ls (Tier r.1) ∧ c_passes r.2 ≤ at_ ps (Tier r.1);
}.

(** Rules as [resolveL4Policy] gets them: sorted, with tiers of one byte. *)
Record sorted_rules (rules : list PolicyEntry) : Prop := {
  sr_sorted : StronglySorted rule_le rules;
  sr_tier r : r ∈ rules → is_uint 8 (Tier r);
  sr_len : Z.of_nat (length rules) < 2 ^ 60;
}.

#[export] Instance rule_le_dec a b : Decision (rule_le a b).
Proof.
  refine (cast_if (decide (Tier a < Tier b ∨ Tier a = Tier b ∧ Qle_bool (Priority a) (Priority b) = true)));
    unfold rule_le; rewrite <- Qle_bool_iff; done.
Defined.

Lemma sorted_rules_check rules :
  bool_decide (StronglySorted rule_le rules ∧ Forall (λ r, 0 ≤ Tier r < 256) rules ∧
    Z.of_nat (length rules) < 2 ^ 60) = true → sorted_rules rules.
Proof. intros (H1 & H2 & H3)%bool_decide_eq_true. rewrite Forall_forall in H2. by constructor. Qed.

Lemma sorted_last rules rl r : StronglySorted rule_le rules → last rules = Some rl → r ∈ rules → Tier r ≤ Tier rl.
Proof.
  intros HS. revert r. induction HS as [|x l HS IH HF]; intros r; [done|].
  rewrite Forall_forall in HF. destruct l as [|y l].
  - intros [= ->] ->%list_elem_of_singleton. done.
  - change (last (x :: y :: l)) with (last (y :: l)). intros HL [-> |Hr]%elem_of_cons; [|by apply IH].
    destruct (HF y ltac:(by left)) as [?|[? _]]; pose proof (IH y HL ltac:(by left)); lia.
Qed.

Lemma start_at n r : 0 ≤ Tier r < n →
  scan_at n 0 (mkScan (replicate (Z.to_nat n) 0) (replicate (Z.to_nat n) 0) (Priority r) 1 0 (Tier r)) (start r).
Proof.
  intros Hr. assert (Hz : ∀ t, at_ (replicate (Z.to_nat n) 0) t = 0).
  { intros t. unfold at_. destruct (_ !! _) eqn:E; [|done]. by apply lookup_replicate in E as [-> _]. }
  constructor; simpl; rewrite ?length_replicate; try done; try lia; intros; rewrite ?Hz; lia.
Qed.

Lemma walk_end_tier c rs : c_tier (walk_end c rs) = default (c_tier c) (Tier <$> last rs).
Proof.
  revert c. induction rs as [|r rs IH]; intros c; [done|]. cbn [walk_end]. rewrite IH, next_pos_tier.
  rewrite last_cons. by destruct (last rs).
Qed.

Lemma scan_end n (rs : list PolicyEntry) s c : ∀ ls, scan_at n (2 * Z.of_nat (length rs)) s c → Z.of_nat (length rs) < 2 ^ 60 →
  ls = <[Z.to_nat (lastTier s) := roundUp id (levels s) perTierRoundUp]> (tierPriorityLevels s) →
  store (tierPriorityLevels s) (lastTier s) (roundUp id (levels s) perTierRoundUp) = inr ls ∧
  store (tierPriorityLevels s) (lastTier s) (roundUp (swrap 64) (levels s) perTierRoundUp) = inr ls ∧
  ∀ t, 0 ≤ t → 0 ≤ at_ ls t ∧ reserve s t ≤ at_ ls t.
Proof.
  intros ls S HN ->. destruct S as [_ _ _ _ _ S6 S7 [S8 _] _ _ S11].
  pose proof (roundUp_ge (levels s) ltac:(lia)).
  unfold perTierRoundUp. rewrite (roundUp_exact _ swrap_small) by lia.
  rewrite !store_in by lia. split_and!; [done..|]. intros t Ht. destruct (S11 t Ht).
  rewrite at_insert by lia. unfold reserve. repeat case_decide; lia.
Qed.

Lemma sorted_ordered r0 rs : StronglySorted rule_le (r0 :: rs) → ordered_from (start r0) (r0 :: rs).
Proof.
  intros HS. apply ordered_walk; [done|]. inversion HS as [|? ? _ HF]; subst.
  constructor; [split; simpl; [lia|by intros _; apply Qle_refl]|].
  eapply Forall_impl; [done|]. intros r Hr. destruct Hr as [?|[? ?]]; split; simpl; (lia || by intros).
Qed.

Lemma tier_levels_ok r0 rs : sorted_rules (r0 :: rs) →
  ∃ a ls ps, tier_levels id (r0 :: rs) = inr a ∧
    Some (Z.of_nat (length a)) = (λ r, Tier r + 1) <$> last (r0 :: rs) ∧
    levels_ok (r0 :: rs) (start r0) a ls ps ∧
    (at_ a 0 < 2 ^ 63 → tier_levels (swrap 64) (r0 :: rs) = inr a).
Proof.
  intros [HS HT HN]. unfold tier_levels.
  destruct (last (r0 :: rs)) as [rl|] eqn:El; [|by apply last_None in El].
  pose proof (sorted_last _ _ r0 HS El ltac:(by left)). set (n := Tier rl + 1) in *.
  assert (HR : Forall (λ r, 0 ≤ Tier r < n) (r0 :: rs)).
  { apply Forall_forall. intros r Hr. pose proof (sorted_last _ _ r HS El Hr). destruct (HT r Hr). unfold n. lia. }
  pose proof (sorted_ordered _ _ HS) as HO.
  pose proof (start_at n r0 ltac:(by inversion HR)) as A0.
  destruct (scan_rules_at n _ _ _ _ A0 HO HR) as (s & E & A & G & W).
  rewrite (scan_rules_exact (swrap 64) swrap_small n (r0 :: rs) 0 _ _ A0); [|lia|done|done].
  rewrite E. cbn [sbind].
  replace (0 + 2 * Z.of_nat (length (r0 :: rs))) with (2 * Z.of_nat (length (r0 :: rs))) in A by lia.
  destruct (scan_end n (r0 :: rs) s _ _ A HN eq_refl) as (-> & -> & HL). cbn [sbind].
  set (ls := <[Z.to_nat (lastTier s) := _]> _) in *.
  assert (Hl : lastTier s = Tier rl). { rewrite (sa_tier _ _ _ _ A), walk_end_tier, El. done. }
  destruct A as [_ _ _ _ _ _ S7 [S8 S8'] _ _ S11].
  assert (length ls = length (tierPriorityLevels s)) by apply length_insert.
  destruct (lift_levels_spec (swrap 64) swrap_small (numPassVerdicts s) (Z.to_nat (lastTier s)) ls)
    as (a & -> & L & X).
  { intros i Hi. by apply HL. } { intros i Hi. destruct (S11 i Hi). lia. } { lia. } { lia. }
  exists a, ls, (numPassVerdicts s). destruct L as [L1 L2 L3 L4 L5].
  split; [done|]. split; [simpl; f_equal; lia|]. split; [|done]. constructor.
  - intros t Ht. destruct (HL t Ht), (S11 t Ht). pose proof (L4 t Ht). lia.
  - intros t Ht Hn. apply L3. lia.
  - intros t Ht. rewrite L2 by lia. done.
  - intros r Hr. destruct (W r Hr). apply walk_in in Hr as Hr'. rewrite Forall_forall in HR.
    pose proof (HR _ Hr'). destruct (HL (Tier r.1) ltac:(lia)). lia.
Qed.

Lemma base_priorities_at a : ∀ b, 0 ≤ b → b + at_ a 0 ≤ LowestPriority →
  (∀ t, 0 ≤ t → 0 ≤ at_ a t) → (∀ t, 0 ≤ t → t + 1 < Z.of_nat (length a) → at_ a (t + 1) ≤ at_ a t) →
  length (base_priorities a b) = pred (length a) ∧
  ∀ i : nat, (S i < length a)%nat → base_priorities a b !! i = Some (b + at_ a 0 - at_ a (Z.of_nat i + 1)).
Proof.
  assert (HL : LowestPriority = 16777215) by done.
  assert (Hat : ∀ l a t, 0 ≤ t → at_ (l :: a) (t + 1) = at_ a t).
  { intros l a' t Ht. unfold at_. replace (Z.to_nat (t + 1)) with (S (Z.to_nat t)) by lia. done. }
  induction a as [|l a IH]; intros b Hb HB H0 Hd; [split; [done|simpl; lia]|].
  destruct a as [|m a]; [split; [done|simpl; lia]|].
  pose proof (Hd 0 ltac:(lia) ltac:(simpl; lia)) as H1. pose proof (H0 0 ltac:(lia)). pose proof (H0 (0 + 1) ltac:(lia)).
  rewrite Hat in * by lia. change (at_ (l :: m :: a) 0) with l in *. change (at_ (m :: a) 0) with m in *.
  cbn [base_priorities]. rewrite swrap_small by lia. rewrite (uwrap_small 32 (l - m)) by (unfold is_uint; lia).
  rewrite uwrap_small by (unfold is_uint; lia).
  destruct (IH (b + (l - m))) as [IH1 IH2]; [lia| | | |].
  - change (at_ (m :: a) 0) with m. lia.
  - intros t Ht. rewrite <- (Hat l) by done. apply H0. lia.
  - intros t Ht Hn. rewrite <- (Hat l _ (t + 1)), <- (Hat l _ t) by lia. apply Hd; simpl in *; lia.
  - split; [simpl in *; lia|]. intros [|i] Hi.
    + rewrite Hat by lia. change (at_ (m :: a) (Z.of_nat 0)) with m. simpl. f_equal. lia.
    + etrans; [apply IH2; simpl in *; lia|]. change (at_ (m :: a) 0) with m.
      replace (Z.of_nat (S i) + 1) with (Z.of_nat i + 1 + 1) by lia. rewrite (Hat l) by lia. f_equal. lia.
Qed.

(** ** The assigned priorities *)

Lemma walk_pos_ok c rs : 1 ≤ c_levels c → 0 ≤ before c → ∀ a, a ∈ walk c rs → 1 ≤ c_levels a.2 ∧ 0 ≤ before a.2.
Proof.
  revert c. induction rs as [|r rs IH]; intros c Hl Hb a; [by intros ?%elem_of_nil|].
  assert (1 ≤ c_levels (next_pos c r) ∧ 0 ≤ before (next_pos c r)) as [H1 H2].
  { pose proof (before_le c). unfold next_pos, pass_at, advance, before in *.
    repeat (case_match; simpl in *); lia. }
  intros [-> |Ha]%elem_of_cons; [done|]. by eapply IH.
Qed.

Section assignment.
Context (rules : list PolicyEntry) (c0 : position) (a ls ps : list Z).
Context (LO : levels_ok rules c0 a ls ps) (HO : ordered_from c0 rules).
Context (Hpos : 1 ≤ c_levels c0 ∧ 0 ≤ before c0) (Htop : at_ a 0 ≤ LowestPriority).

(** The levels of the next tier. *)
Definition next_levels (t : Z) : Z := at_ a (t + 1).

Definition base (t : Z) : Z := at_ a 0 - at_ a t.

Definition priority_at (c : position) : Z :=
  base (c_tier c) + (c_levels c - 1) + before c * next_levels (c_tier c).

Lemma at_beyond t : Z.of_nat (length a) ≤ t → at_ a t = 0.
Proof. intros Ht. unfold at_. rewrite lookup_ge_None_2; [done|lia]. Qed.

Lemma levels_step t : 0 ≤ t < Z.of_nat (length a) → at_ ls t + (at_ ps t + 1) * next_levels t ≤ at_ a t.
Proof.
  intros Ht. unfold next_levels. destruct (decide (t + 1 < Z.of_nat (length a))).
  - apply LO; lia.
  - rewrite (at_beyond (t + 1)) by lia. rewrite Z.mul_0_r, Z.add_0_r. apply LO. lia.
Qed.

Lemma levels_decrease t : 0 ≤ t → at_ a (t + 1) ≤ at_ a t.
Proof.
  intros Ht. destruct (lo_nonneg _ _ _ _ _ LO t Ht) as (? & ? & ?).
  destruct (lo_nonneg _ _ _ _ _ LO (t + 1) ltac:(lia)) as (? & _ & _).
  destruct (decide (t < Z.of_nat (length a))).
  - pose proof (levels_step t ltac:(lia)) as H3. unfold next_levels in H3. nia.
  - rewrite !at_beyond by lia. lia.
Qed.

Lemma levels_antitone t t' : 0 ≤ t ≤ t' → at_ a t' ≤ at_ a t.
Proof.
  intros [Ht Hle]. replace t' with (t + Z.of_nat (Z.to_nat (t' - t))) by lia.
  induction (Z.to_nat (t' - t)) as [|k IH]; [by rewrite Z.add_0_r|].
  etrans; [|done]. replace (t + Z.of_nat (S k)) with (t + Z.of_nat k + 1) by lia. apply levels_decrease. lia.
Qed.

(** A rule leaves room for the next tier in its own, and a pass twice that. *)
Lemma priority_room r : r ∈ walk c0 rules →
  base (Tier r.1) ≤ priority_at r.2 ∧
  priority_at r.2 + 1 + (if is_pass_verdict (pe_Verdict r.1) then 2 else 1) * next_levels (Tier r.1) ≤ at_ a 0.
Proof.
  intros Hr. destruct (lo_rule _ _ _ _ _ LO r Hr) as (Ht & Hl & Hp).
  destruct (walk_pos _ _ _ Hr) as (Et & _ & Hc). pose proof (walk_pos_ok _ _ (proj1 Hpos) (proj2 Hpos) _ Hr) as [? ?].
  pose proof (levels_step _ Ht) as HS. destruct (lo_nonneg _ _ _ _ _ LO (Tier r.1 + 1) ltac:(lia)) as (Hn & _ & _).
  fold (next_levels (Tier r.1)) in Hn. unfold priority_at, base. rewrite Et. split; [nia|].
  assert (before r.2 + (if is_pass_verdict (pe_Verdict r.1) then 1 else 0) ≤ at_ ps (Tier r.1)).
  { unfold before. destruct (pe_Verdict r.1); simpl; [destruct (c_cur r.2); lia..|].
    rewrite Hc by done. lia. }
  destruct (is_pass_verdict _); nia.
Qed.

(** Within a tier the priorities are ordered like the rules. *)
Lemma priority_mono r q : r ∈ walk c0 rules → q ∈ walk c0 rules → Tier r.1 = Tier q.1 →
  (Priority r.1 == Priority q.1)%Q ∧ priority_at r.2 = priority_at q.2 ∨
  (Priority r.1 < Priority q.1)%Q ∧ priority_at r.2 + 1 ≤ priority_at q.2 ∧
    (pe_Verdict r.1 = Pass → priority_at r.2 + next_levels (Tier r.1) + 1 ≤ priority_at q.2) ∨
  (Priority q.1 < Priority r.1)%Q ∧ priority_at q.2 + 1 ≤ priority_at r.2.
Proof.
  intros Hr Hq Ht. destruct (walk_pos _ _ _ Hr) as (Er & Qr & Pr), (walk_pos _ _ _ Hq) as (Eq & Qq & Pq).
  destruct (lo_rule _ _ _ _ _ LO r Hr) as (Htr & _ & _).
  destruct (lo_nonneg _ _ _ _ _ LO (Tier r.1 + 1) ltac:(lia)) as (Hn & _ & _).
  unfold priority_at. rewrite Er, Eq, <- Ht, <- Qr, <- Qq. fold (next_levels (Tier r.1)) in Hn.
  pose proof (before_le r.2). pose proof (before_le q.2).
  destruct (walk_compare _ _ _ _ HO Hr Hq) as [-> |[[?|[_ [(?&?&_&?)|(?&Hb&?)]]]|[?|[_ [(?&?&_&?)|(?&Hb&?)]]]]];
    [by left|lia|left; split; [done|nia]| |lia|left; split; [by symmetry|nia]|].
  - right; left. split_and!; [done|nia|]. intros Hv. specialize (Pr Hv). unfold before in *. rewrite Pr in *. nia.
  - right; right. split; [done|nia].
Qed.

(** ** The loop of [resolveL4Policy] *)

Section loop.
Context {A : Type} (addRule : A → Z → Z → PolicyEntry → error + A) (bases : list Z).
Context (Hlen : length bases = length a) (H256 : Z.of_nat (length a) ≤ 256).
Context (Hbase : ∀ t, 0 ≤ t < Z.of_nat (length a) → at_ bases t = base t).

Record resolved_at (s : resolution (A:=A)) (c : position) : Prop := {
  ra_tier : tier s = c_tier c;
  ra_prio : prevPrio s = c_prio c;
  ra_priority : priority s = priority_at c;
  ra_increment : increment s = (if c_cur c then next_levels (c_tier c) else 0) + 1;
}.

Lemma passLevels_at t : 0 ≤ t < Z.of_nat (length a) → index (tail a ++ [0]) t = inr (next_levels t).
Proof.
  intros Ht. unfold index, next_levels, at_. destruct a as [|l a']; simpl in *; [lia|].
  replace (Z.to_nat (t + 1)) with (S (Z.to_nat t)) by lia. simpl.
  destruct (decide (Z.to_nat t < length a')%nat).
  - rewrite lookup_app_l by done. destruct (lookup_lt_is_Some_2 a' (Z.to_nat t)) as [x ->]; [done|]. done.
  - rewrite lookup_app_r by lia. replace (Z.to_nat t - length a')%nat with 0%nat by lia.
    by rewrite (lookup_ge_None_2 a') by lia.
Qed.

Lemma priority_pass c v : priority_at (pass_at c v) = priority_at c.
Proof. unfold priority_at, pass_at, before. repeat case_match; simpl; destruct (c_cur c); simpl in *; done || lia. Qed.

Lemma resolve_level_at s c r : resolved_at s c → in_order c r → (r, next_pos c r) ∈ walk c0 rules →
  ∃ s', resolve_level bases s r = inr s' ∧ resolved_at s' (advance c r) ∧ result s' = result s ∧ tier s' = Tier r.
Proof.
  intros [R1 R2 R3 R4] Ho Hw. pose proof (priority_room _ Hw) as [Hlow Hroom]. cbn [fst snd] in *.
  destruct (lo_rule _ _ _ _ _ LO _ Hw) as (Ht & _ & _). cbn [fst snd] in Ht.
  destruct (lo_nonneg _ _ _ _ _ LO (Tier r + 1) ltac:(lia)) as (Hn & _ & _). fold (next_levels (Tier r)) in Hn.
  assert (HL : LowestPriority = 16777215) by done.
  unfold next_pos in Hroom, Hlow. rewrite priority_pass in Hroom, Hlow.
  unfold resolve_level. rewrite R1, R2. unfold advance in *.
  destruct (Z.eqb_spec (Tier r) (c_tier c)) as [E|E]; cbn [negb] in *.
  - destruct (Qeq_bool (Priority r) (c_prio c)) eqn:Eq; cbn [negb] in *.
    { exists s. split_and!; [done|by constructor|done|congruence]. }
    set (c' := mkPos (c_tier c) (Priority r) (c_levels c + 1) (c_passes c) false) in *.
    assert (priority s + increment s = priority_at c') as Hp.
    { rewrite R3, R4. unfold priority_at, before. simpl. destruct (c_cur c); lia. }
    assert (0 ≤ base (Tier r)) by (pose proof (levels_antitone 0 (Tier r)); unfold base; lia).
    assert (1 ≤ increment s) by (rewrite R4, <- E; destruct (c_cur c); lia).
    unfold Priority_Add. rewrite Hp.
    assert (priority_at c' ≤ LowestPriority) by (destruct (is_pass_verdict _); lia).
    rewrite uwrap_small by (unfold is_uint; lia).
    destruct (Z.ltb_spec LowestPriority (priority_at c')); [lia|].
    destruct (Z.ltb_spec (priority_at c') (priority s)); [lia|]. simpl.
    eexists. split; [done|]. split; [by constructor|]. simpl. by split; [|congruence].
  - rewrite index_at by (rewrite Hlen; lia). simpl. eexists. split; [done|]. split; [|done].
    constructor; simpl; try done. rewrite Hbase by done. unfold priority_at, before. simpl. lia.
Qed.

Lemma resolve_rule_at s c r : resolved_at s c → in_order c r → (r, next_pos c r) ∈ walk c0 rules →
  ∃ s', resolved_at s' (next_pos c r) ∧
    ∀ B (k : resolution → error + B),
    sbind (resolve_rule addRule bases (tail a ++ [0]) s r) k =
    sbind (addRule (result s) (Tier r) (priority_at (next_pos c r)) r) (λ x,
      k (mkResolution x (priority s') (increment s') (tier s') (prevPrio s'))).
Proof.
  intros R Ho Hw. destruct (resolve_level_at _ _ _ R Ho Hw) as (s1 & E1 & [R1 R2 R3 R4] & Er & Et).
  destruct (lo_rule _ _ _ _ _ LO _ Hw) as (Ht & _ & _). cbn [fst snd] in Ht.
  destruct (lo_nonneg _ _ _ _ _ LO (Tier r + 1) ltac:(lia)) as (Hn & _ & _). fold (next_levels (Tier r)) in Hn.
  assert (HL : LowestPriority = 16777215) by done.
  assert (next_levels (Tier r) ≤ at_ a 0) by (apply levels_antitone; lia).
  set (last := uwrap 8 (Z.of_nat (length bases) - 1)).
  set (grown := is_pass_verdict (pe_Verdict r) && (tier s1 <? last)).
  exists (mkResolution (result s1) (priority s1)
    (if grown then next_levels (Tier r) + 1 else increment s1) (tier s1) (prevPrio s1)).
  split.
  - assert (E0 : Tier r = last → next_levels (Tier r) = 0).
    { unfold last. rewrite Hlen, uwrap_small by (unfold is_uint; lia). intros El. apply at_beyond. lia. }
    assert (Tier r ≤ last) by (unfold last; rewrite Hlen, uwrap_small by (unfold is_uint; lia); lia).
    unfold next_pos. constructor; cbn [tier prevPrio priority increment].
    + by rewrite pass_at_tier.
    + by rewrite pass_at_prio.
    + by rewrite priority_pass.
    + rewrite pass_at_tier, <- R1, Et. unfold grown, pass_at. rewrite R4, <- R1, Et.
      destruct (is_pass_verdict _), (c_cur (advance c r)) eqn:Ec, (Z.ltb_spec (Tier r) last); simpl;
        rewrite ?Ec; simpl; try done; rewrite ?E0 by lia; lia.
  - intros B k. unfold resolve_rule, next_pos. rewrite E1, priority_pass. cbn [sbind].
    rewrite Er, Et, R3. destruct (addRule _ _ _ _) as [|x]; [done|]. cbn [sbind].
    cbv zeta. cbn [tier result priority increment prevPrio]. fold last. subst grown. rewrite ?Et.
    destruct (is_pass_verdict (pe_Verdict r) && (Tier r <? last)); [|done].
    rewrite passLevels_at by lia. cbn [sbind]. rewrite (uwrap_small 32 (next_levels _)) by (unfold is_uint; lia).
    rewrite uwrap_small by (unfold is_uint; lia). done.
Qed.

(** The loop adds every rule at its tier and at the priority of its position. *)
Lemma resolve_rules_at rs : ∀ s c, resolved_at s c → ordered_from c rs →
  (∀ x, x ∈ walk c rs → x ∈ walk c0 rules) →
  sbind (each (resolve_rule addRule bases (tail a ++ [0])) s rs) (λ s, inr (result s)) =
  each (λ acc x, addRule acc (Tier x.1) (priority_at x.2) x.1) (result s) (walk c rs).
Proof.
  induction rs as [|r rs IH]; intros s c R HOr Hw; [done|]. destruct HOr as [Ho HOr].
  cbn [walk each] in *. destruct (resolve_rule_at s c r R Ho) as (s' & R' & E); [apply Hw; by left|].
  rewrite sbind_assoc, E. cbn [fst snd]. destruct (addRule _ _ _ _) as [|x]; [done|]. cbn [sbind].
  apply IH; [by destruct R'; constructor|done|]. intros y Hy. apply Hw. by right.
Qed.
End loop.
End assignment.

Lemma bases_at a : (0 < length a)%nat → at_ a 0 ≤ LowestPriority →
  (∀ t, 0 ≤ t → 0 ≤ at_ a t) → (∀ t, 0 ≤ t → at_ a (t + 1) ≤ at_ a t) →
  length (0 :: base_priorities a 0) = length a ∧
  ∀ t, 0 ≤ t < Z.of_nat (length a) → at_ (0 :: base_priorities a 0) t = base a t.
Proof.
  intros Hl Ht H0 Hd. destruct (base_priorities_at a 0) as [B1 B2]; [lia|lia|done|by intros; apply Hd|].
  split; [simpl; lia|]. intros t Hr. unfold at_ at 1, base.
  destruct (Z.to_nat t) as [|i] eqn:E; simpl; [replace t with 0 by lia; lia|].
  rewrite B2 by lia. simpl. replace (Z.of_nat i + 1) with t by lia. lia.
Qed.

(** The first rule sets the tier. *)
Lemma resolve_first {A} addRule bases pl (init : A) r0 rs b :
  index bases (Tier r0) = inr b → (Tier r0 = 0 → b = 0) →
  each (resolve_rule addRule bases pl) (mkResolution init 0 1 0 (Priority r0)) (r0 :: rs) =
  each (resolve_rule addRule bases pl) (mkResolution init b 1 (Tier r0) (Priority r0)) (r0 :: rs).
Proof.
  intros Hb H0. cbn [each]. f_equal. unfold resolve_rule. f_equal. unfold resolve_level. cbn [tier prevPrio result].
  rewrite Z.eqb_refl, (proj2 (Qeq_bool_iff _ _)) by apply Qeq_refl. cbn [negb].
  destruct (Z.eqb_spec (Tier r0) 0) as [E|E]; cbn [negb]; [by rewrite E, H0 by done|by rewrite Hb].
Qed.

(** What resolving sorted rules comes to: every rule is added at its tier and at the
    priority of its position, whatever is done with it. *)
Lemma resolve_positions r0 rs need : sorted_rules (r0 :: rs) →
  levels_needed (r0 :: rs) = inr need → need ≤ LowestPriority →
  ∃ a ls ps, levels_ok (r0 :: rs) (start r0) a ls ps ∧ ordered_from (start r0) (r0 :: rs) ∧ at_ a 0 = need ∧
    Some (Z.of_nat (length a)) = (λ r, Tier r + 1) <$> last (r0 :: rs) ∧
    (length (0 :: base_priorities a 0) = length a ∧
     ∀ t, 0 ≤ t < Z.of_nat (length a) → at_ (0 :: base_priorities a 0) t = base a t) ∧
    ∀ A (addRule : A → Z → Z → PolicyEntry → error + A) init,
    resolveL4Policy addRule init (r0 :: rs) =
    sbind (each (λ acc x, addRule acc (Tier x.1) (priority_at a x.2) x.1) init (walk (start r0) (r0 :: rs)))
      (λ acc, inr (0 :: base_priorities a 0, acc)).
Proof.
  intros Hs Hn Hle. destruct (tier_levels_ok _ _ Hs) as (a & ls & ps & E & El & LO & X).
  assert (HL : LowestPriority = 16777215) by done.
  assert (Hla : 0 < Z.of_nat (length a) ≤ 256).
  { destruct (last (r0 :: rs)) as [rl|] eqn:Ela; [|by apply last_None in Ela]. simpl in El. injection El as El.
    destruct Hs as [_ Ht _]. specialize (Ht rl (last_Some_elem_of _ _ Ela)). unfold is_uint in Ht. lia. }
  unfold levels_needed in Hn. rewrite E in Hn. cbn [sbind] in Hn. rewrite index_at in Hn by lia. injection Hn as Hn.
  assert (HO := sorted_ordered _ _ (sr_sorted _ Hs)).
  pose proof (bases_at a ltac:(lia) ltac:(lia) (λ t Ht, proj1 (lo_nonneg _ _ _ _ _ LO t Ht)) (levels_decrease _ _ _ _ _ LO))
    as [B1 B2].
  exists a, ls, ps. split_and!; try done. intros A addRule init.
  unfold resolveL4Policy, computeTierPriorities. rewrite X by lia. cbn [sbind]. rewrite index_at by lia. cbn [sbind].
  destruct (Z.ltb_spec LowestPriority (at_ a 0)); [lia|]. cbn [sbind].
  assert (Ht0 : 0 ≤ Tier r0 < Z.of_nat (length a)).
  { apply (lo_rule _ _ _ _ _ LO (r0, next_pos (start r0) r0)). by left. }
  rewrite (resolve_first addRule (0 :: base_priorities a 0) _ _ _ _ (base a (Tier r0))).
  - rewrite <- (resolve_rules_at (r0 :: rs) (start r0) a ls ps LO ltac:(by simpl) ltac:(lia) addRule
      (0 :: base_priorities a 0) B1 ltac:(lia) B2 _
      (mkResolution init (base a (Tier r0)) 1 (Tier r0) (Priority r0)) (start r0)); [|..|done|done].
    + by rewrite sbind_assoc.
    + constructor; simpl; try done. unfold priority_at, before. simpl. lia.
  - rewrite index_at by (rewrite B1; lia). by rewrite B2.
  - intros Ez. rewrite Ez. unfold base. lia.
Qed.

(** ** What the priorities promise *)

(** The rules with their priorities, tier after tier: a tier has the priorities from its
    base up to that of the next tier, in the order of the rules' own priorities.  The
    lift of a rule of a later tier by a pass is [lift]: it is past the pass, before the
    rest of its tier, and before the next tier. *)
Definition lift (pass next p : Z) : Z := pass + 1 + (p - next).

Record assigned (rules : list PolicyEntry) (bases : list Z) (out : list (PolicyEntry * Z)) : Prop := {
  as_rules : out.*1 = rules;
  as_tiers : Some (Z.of_nat (length bases)) = (λ r, Tier r + 1) <$> last rules;
  as_bases t : 0 ≤ t < Z.of_nat (length bases) → 0 ≤ at_ bases t ≤ nextTierPriority bases t ∧
    nextTierPriority bases t ≤ LowestPriority;
  as_range r p : (r, p) ∈ out →
    0 ≤ Tier r < Z.of_nat (length bases) ∧ at_ bases (Tier r) ≤ p < nextTierPriority bases (Tier r);
  as_order r p q p' : (r, p) ∈ out → (q, p') ∈ out → Tier r = Tier q →
    ((Priority r == Priority q)%Q ↔ p = p') ∧ ((Priority r < Priority q)%Q ↔ p < p');
  as_room r p q p' : (r, p) ∈ out → (q, p') ∈ out → pe_Verdict r = Pass → Tier r < Tier q →
    let next := nextTierPriority bases (Tier r) in
    p < lift p next p' < next ∧
    ∀ r' p'', (r', p'') ∈ out → Tier r' = Tier r → p < p'' → lift p next p' < p'';
}.

Lemma each_assign {B} (f : B → PolicyEntry * Z) (l : list B) : ∀ out,
  each (λ acc x, assign acc (Tier (f x).1) (f x).2 (f x).1) out l = inr (out ++ map f l).
Proof.
  induction l as [|x l IH]; intros out; simpl; [by rewrite app_nil_r|].
  rewrite IH, <- app_assoc. by destruct (f x).
Qed.

Lemma walk_rules c rs : (walk c rs).*1 = rs.
Proof. revert c. induction rs as [|r rs IH]; intros c; simpl; [done|]. by rewrite IH. Qed.

Section promise.
Context (r0 : PolicyEntry) (rs : list PolicyEntry) (a ls ps : list Z).
Notation rules := (r0 :: rs).
Notation bases := (0 :: base_priorities a 0).
Notation out := (map (λ x, (x.1, priority_at a x.2)) (walk (start r0) rules)).
Context (LO : levels_ok rules (start r0) a ls ps) (HO : ordered_from (start r0) rules).
Context (Hle : at_ a 0 ≤ LowestPriority) (B1 : length bases = length a).
Context (B2 : ∀ t, 0 ≤ t < Z.of_nat (length a) → at_ bases t = base a t).

Lemma next_at t : 0 ≤ t → t + 1 < Z.of_nat (length a) → nextTierPriority bases t = at_ a 0 - next_levels a t.
Proof.
  intros Ht Hn. specialize (B2 (t + 1) ltac:(lia)). unfold nextTierPriority. unfold at_ at 1 in B2.
  destruct (lookup_lt_is_Some_2 bases (Z.to_nat (t + 1))) as [b Eb]; [rewrite B1; lia|].
  rewrite Eb in *. simpl in *. by subst b.
Qed.

Lemma next_last t : t + 1 = Z.of_nat (length a) → nextTierPriority bases t = LowestPriority.
Proof. intros Ht. unfold nextTierPriority. rewrite lookup_ge_None_2; [done|rewrite B1; lia]. Qed.

Lemma next_ge t : 0 ≤ t < Z.of_nat (length a) → at_ a 0 - next_levels a t ≤ nextTierPriority bases t ≤ LowestPriority.
Proof.
  intros Ht. destruct (lo_nonneg _ _ _ _ _ LO (t + 1) ltac:(lia)) as (Hn & _). fold (next_levels a t) in Hn.
  destruct (decide (t + 1 < Z.of_nat (length a))); [rewrite next_at by lia|rewrite next_last by lia]; lia.
Qed.

Lemma out_walk r p : (r, p) ∈ out → ∃ c, p = priority_at a c ∧ (r, c) ∈ walk (start r0) rules.
Proof.
  intros ([r' c] & [= <- <-] & Hc)%list_elem_of_In%in_map_iff. exists c. split; [done|]. by apply list_elem_of_In.
Qed.

Lemma out_room r p : (r, p) ∈ out → 0 ≤ Tier r < Z.of_nat (length a) ∧ base a (Tier r) ≤ p ∧
  p + 1 + (if is_pass_verdict (pe_Verdict r) then 2 else 1) * next_levels a (Tier r) ≤ at_ a 0 ∧ 0 ≤ next_levels a (Tier r).
Proof.
  intros (c & -> & Hw)%out_walk. destruct (lo_rule _ _ _ _ _ LO _ Hw) as (Ht & _ & _). cbn [fst] in Ht.
  destruct (priority_room _ _ _ _ _ LO ltac:(done) _ Hw) as [H1 H2].
  destruct (lo_nonneg _ _ _ _ _ LO (Tier r + 1) ltac:(lia)) as (Hn & _).
  exact (conj Ht (conj H1 (conj H2 Hn))).
Qed.

Lemma out_order r p q p' : (r, p) ∈ out → (q, p') ∈ out → Tier r = Tier q →
  (Priority r == Priority q)%Q ∧ p = p' ∨
  (Priority r < Priority q)%Q ∧ p + 1 ≤ p' ∧ (pe_Verdict r = Pass → p + next_levels a (Tier r) + 1 ≤ p') ∨
  (Priority q < Priority r)%Q ∧ p' + 1 ≤ p.
Proof.
  intros (c & -> & Hw)%out_walk (c' & -> & Hw')%out_walk Ht.
  apply (priority_mono _ _ _ _ _ LO HO _ _ Hw Hw' Ht).
Qed.

Lemma positions_assigned : Some (Z.of_nat (length a)) = (λ r, Tier r + 1) <$> last rules → assigned rules bases out.
Proof.
  intros El. constructor.
  - unfold fmap. rewrite map_map. apply walk_rules.
  - by rewrite B1.
  - rewrite B1. intros t Ht. rewrite B2 by done. pose proof (next_ge t Ht).
    pose proof (levels_antitone _ _ _ _ _ LO 0 t ltac:(lia)).
    pose proof (levels_decrease _ _ _ _ _ LO t ltac:(lia)). unfold base, next_levels in *. lia.
  - intros r p (Ht & H1 & H2 & H3)%out_room. rewrite B1, B2 by lia. split; [done|].
    pose proof (next_ge (Tier r) Ht). destruct (is_pass_verdict _); lia.
  - intros r p q p' Hr Hq Ht. destruct (out_order _ _ _ _ Hr Hq Ht) as [[E ->]|[(E & ? & _)|(E & ?)]].
    + split; [done|]. split; [|lia]. intros HL. rewrite E in HL. by apply Qlt_irrefl in HL.
    + split; split; intros; try done; try lia. rewrite H0 in E. by apply Qlt_irrefl in E.
    + split; split; intros; try lia; [rewrite H0 in E; by apply Qlt_irrefl in E|].
      by apply (Qlt_trans _ _ _ E), Qlt_irrefl in H0.
  - intros r p q p' Hr Hq Hv Ht. pose proof (out_room _ _ Hr) as (Tr & R1 & R2 & R3).
    pose proof (out_room _ _ Hq) as (Tq & Q1 & Q2 & Q3). rewrite Hv in R2. cbn [is_pass_verdict] in R2.
    pose proof (levels_antitone _ _ _ _ _ LO (Tier r + 1) (Tier q) ltac:(lia)).
    unfold lift. cbv zeta. rewrite next_at by lia. unfold base in *. fold (next_levels a (Tier r)) in *.
    assert (p' + 1 ≤ at_ a 0) by (destruct (is_pass_verdict _); lia).
    split; [lia|]. intros r' p'' Hr' Ht' Hp. destruct (out_order _ _ _ _ Hr Hr' ltac:(lia)) as [[_ ?]|[(_ & _ & HP)|[_ ?]]]; [lia| |lia].
    specialize (HP Hv). lia.
Qed.
End promise.

Lemma each_map {A B S} (f : S → B → error + S) (g : A → B) (l : list A) : ∀ s,
  each (λ s x, f s (g x)) s l = each f s (map g l).
Proof. induction l as [|x l IH]; intros s; simpl; [done|]. destruct (f s (g x)); simpl; [done|apply IH]. Qed.

Lemma resolve_assigned rules need : sorted_rules rules → levels_needed rules = inr need → need ≤ LowestPriority →
  ∃ bases out, assigned rules bases out ∧
    ∀ A (addRule : A → Z → Z → PolicyEntry → error + A) init,
    resolveL4Policy addRule init rules =
    sbind (each (λ acc x, addRule acc (Tier x.1) x.2 x.1) init out) (λ acc, inr (bases, acc)).
Proof.
  intros Hs Hn Hle. destruct rules as [|r0 rs]; [done|].
  destruct (resolve_positions _ _ _ Hs Hn Hle) as (a & ls & ps & LO & HO & Ha & El & [B1 B2] & E). subst need.
  eexists _, _. split; [exact (positions_assigned _ _ _ _ _ LO HO Hle B1 B2 El)|].
  intros A addRule init. rewrite E. f_equal.
  apply (each_map (λ acc x, addRule acc (Tier x.1) x.2 x.1) (λ x, (x.1, priority_at a x.2))).
Qed.

(** C16. Resolving rules in the order of [ruleSlice.sort], whose tiers need at most
    [LowestPriority] levels, succeeds whatever is done with each rule: the rules are
    added one after the other at their tiers and at priorities with which the tiers
    have disjoint ranges, the order within a tier is that of the rules' own priorities,
    and every pass leaves the room the rules of all the later tiers need. *)
Theorem resolve_leaves_room (rules : list PolicyEntry) (need : Z) :
  sorted_rules rules → levels_needed rules = inr need → need ≤ LowestPriority →
  ∃ bases out, assigned rules bases out ∧
    ∀ A (addRule : A → Z → Z → PolicyEntry → error + A) init,
    resolveL4Policy addRule init rules =
    sbind (each (λ acc x, addRule acc (Tier x.1) x.2 x.1) init out) (λ acc, inr (bases, acc)).
Proof. apply resolve_assigned. Qed.

(** Three tiers: two levels with passes around an allow, a deny over an allow, and the
    default. *)
Definition example_rules : list PolicyEntry := [
  order_entry 0 0 Pass "a"; order_entry 0 (1 # 2) Allow "b"; order_entry 0 1 Pass "c";
  order_entry 1 0 Deny "d"; order_entry 1 0 Allow "e"; order_entry 1 5 Allow "f";
  order_entry 3 0 Deny "g"].

(** A chain of [k] tiers with one pass each, before a tier with one allow rule. *)
Definition pass_chain (k : nat) : list PolicyEntry :=
  map (λ t, order_entry (Z.of_nat t) 0 Pass "pass") (seq 0 k) ++ [order_entry (Z.of_nat k) 0 Allow "allow"].

Lemma example_sorted : sorted_rules example_rules.
Proof. by apply sorted_rules_check. Defined.

Lemma resolve_leaves_room_witness :
  ∃ bases out, assigned example_rules bases out ∧
    resolveL4Policy assign [] example_rules =
    sbind (each (λ acc x, assign acc (Tier x.1) x.2 x.1) [] out) (λ acc, inr (bases, acc)).
Proof.
  destruct (resolve_leaves_room example_rules 70 example_sorted) as (b & o & H1 & H2);
    [by vm_compute|by vm_compute|]. exists b, o. split; [done|]. apply H2.
Defined.

Lemma refuse_levels {A} (addRule : A → Z → Z → PolicyEntry → error + A) init rules need :
  sorted_rules rules → levels_needed rules = inr need → LowestPriority < need < 2 ^ 63 →
  resolveL4Policy addRule init rules = inl ErrTooManyPriorityLevels.
Proof.
  intros Hs Hn Hle. destruct rules as [|r0 rs]; [done|].
  destruct (tier_levels_ok _ _ Hs) as (a & ls & ps & E & El & LO & X).
  unfold levels_needed in Hn. rewrite E in Hn. cbn [sbind] in Hn.
  assert (at_ a 0 = need) as Ha by (unfold index, at_ in *; by destruct (a !! _); simplify_eq/=).
  unfold resolveL4Policy, computeTierPriorities. rewrite X by lia. cbn [sbind]. rewrite Hn. cbn [sbind].
  by destruct (Z.ltb_spec LowestPriority need); [|lia].
Qed.

(** Rules that are resolved need no more levels than there are, if their count did not overflow. *)
Lemma resolved_levels {A} (addRule : A → Z → Z → PolicyEntry → error + A) init rules need x :
  sorted_rules rules → levels_needed rules = inr need → need < 2 ^ 63 → resolveL4Policy addRule init rules = inr x → need ≤ LowestPriority.
Proof.
  intros Hs Hn Hfit E. destruct (Z.le_gt_cases need LowestPriority) as [|Hgt]; [done|].
  by rewrite (refuse_levels addRule init rules need Hs Hn ltac:(lia)) in E.
Qed.

(** C35. Rules that need more levels than there are priorities are refused, provided the
    count of the levels fits the program's 64-bit integers. *)
Theorem resolve_refuses {A} (addRule : A → Z → Z → PolicyEntry → error + A) (init : A)
    (rules : list PolicyEntry) (need : Z) :
  sorted_rules rules → levels_needed rules = inr need → LowestPriority < need < 2 ^ 63 →
  resolveL4Policy addRule init rules = inl ErrTooManyPriorityLevels.
Proof. apply refuse_levels. Qed.

Lemma resolve_refuses_witness :
  resolveL4Policy assign [] (pass_chain 21) = inl ErrTooManyPriorityLevels.
Proof.
  apply (resolve_refuses assign [] (pass_chain 21) 41943030); [by apply sorted_rules_check|by vm_compute|by vm_compute].
Defined.

(** The count of the levels can overflow: sixty-one tiers with a pass need more than
    2^63 levels, which wrap around to few enough to be accepted, and the rule of the
    last tier gets a priority above those of earlier tiers. *)
Theorem pass_levels_overflow :
  sorted_rules (pass_chain 61) ∧
  (∃ need, levels_needed (pass_chain 61) = inr need ∧ 2 ^ 63 < need) ∧
  ∃ bases out p q, resolveL4Policy assign [] (pass_chain 61) = inr (bases, out) ∧
    (order_entry 61 0 Allow "allow", p) ∈ out ∧ (order_entry 32 0 Pass "pass", q) ∈ out ∧ p < q.
Proof.
  split; [by apply sorted_rules_check|]. split; [eexists; split; [by vm_compute|done]|].
  eexists _, _, 68, 2147483736. split; [by vm_compute|].
  split_and!; [apply list_elem_of_lookup; exists 61%nat; by vm_compute| |done].
  apply list_elem_of_lookup. exists 32%nat. by vm_compute.
Qed.
