(* ===== verification/TierEvaluation.v ===== *)
(** * Evaluation of tiered policies

    A map state filled with the rules of a tiered policy, at the priorities
    [resolveL4Policy] assigns them, decides every flow a default rule covers as the
    step-by-step simulator of [pkg/policy/testutils/simulate.go] does. *)

From Stdlib Require Import QArith.
From stdpp Require Import sorting.
From S2P Require Import Prelude Precedence BitLPM PolicyKey Identity RuleOrigin PassMeta.
From S2P Require Import MapState MapStateIndex MapStateLookup MapStateOps MapStatePolicy PolicyRule.
From S2P Require Import TierOrder TierState TierScan TierInvariant TierInsert TierPolicy TierPriorities.

Local Open Scope Z_scope.

(** ** Contributions of the rules *)

(** A key a rule contributes to the map state: what [L4Filter.toMapState] passes to
    [newMapStateEntry] and [insertWithChanges] for it. *)
Record contribution := mkContribution {
  co_rule : PolicyEntry;
  co_priority : Z;
  co_key : Key;
  co_origin : ruleOrigin;
  co_proxyPort : Z;
  co_listenerPriority : Z;
}.

Section contributions.
Context (bases : list Z).

Definition co_tier (c : contribution) : Z := Tier (co_rule c).

Definition co_entry (c : contribution) : mapStateEntry :=
  newMapStateEntry (co_priority c) (at_ bases (co_tier c)) (nextTierPriority bases (co_tier c))
    (co_origin c) (co_proxyPort c) (co_listenerPriority c) (pe_Verdict (co_rule c)).

Definition contributed (c : contribution) : trule :=
  mkRule (Z.to_nat (co_tier c)) (co_key c) (co_entry c).

(** The precedences of a tier; those of the passes of an empty tier before all others
    would not fit 32 bits. *)
Definition tier_max (t : nat) : Z := ToDenyPrecedence (at_ bases (Z.of_nat t)).

Definition tier_min (t : nat) : Z := (LowestPriority - nextTierPriority bases (Z.of_nat t) + 1) * 256.

(** The contribution of a resolved rule. *)
Record contributes (dir : Z) (out : list (PolicyEntry * Z)) (c : contribution) : Prop := {
  ct_rule : (co_rule c, co_priority c) ∈ out;
  ct_key : wf_key (co_key c);
  ct_proxy : is_uint 16 (co_proxyPort c);
  ct_listener : is_uint 8 (co_listenerPriority c);
  ct_direction : TrafficDirection (co_key c) = dir;
}.

Context (dir : Z) (rules : list PolicyEntry) (out : list (PolicyEntry * Z)) (AS : assigned rules bases out).

Notation LP := LowestPriority.

Lemma tier_max_eq t : (t < length bases)%nat → tier_max t = (LP - at_ bases (Z.of_nat t)) * 256 + 255.
Proof.
  intros Ht. destruct (as_bases _ _ _ AS (Z.of_nat t) ltac:(lia)) as [? ?].
  unfold tier_max. rewrite ToDenyPrecedence_eq by lia. by rewrite Z.min_l by lia.
Qed.

Lemma next_eq t : (S t < length bases)%nat → nextTierPriority bases (Z.of_nat t) = at_ bases (Z.of_nat (S t)).
Proof.
  intros Ht. unfold nextTierPriority, at_. replace (Z.to_nat (Z.of_nat t + 1)) with (S t) by lia. rewrite Nat2Z.id.
  destruct (lookup_lt_is_Some_2 bases (S t) Ht) as [b ->]. done.
Qed.

Lemma tier_layout : layout_ok (length bases) tier_max tier_min.
Proof.
  constructor; intros t Ht; try rewrite tier_max_eq by lia; unfold tier_min;
    destruct (as_bases _ _ _ AS (Z.of_nat t) ltac:(lia)) as [H1 H2]; change LP with 16777215 in *.
  - lia.
  - rewrite next_eq by lia. lia.
  - lia.
  - by rewrite mod_256_add.
  - apply Z.mod_mul. lia.
Qed.

(** The word of a rule: its priority, and the kind of its verdict. *)
Lemma contributed_word c : contributes dir out c → ∃ b, word (contributed c) = (LP - co_priority c) * 256 + b ∧
  match pe_Verdict (co_rule c) with Pass => b = 0 | Deny => b = 255 | Allow => 1 ≤ b ≤ 254 end.
Proof.
  intros [Hr _ _ Hl _]. destruct (as_range _ _ _ AS _ _ Hr) as [Ht Hp].
  destruct (as_bases _ _ _ AS _ Ht) as [? ?]. unfold word, contributed, co_entry, newMapStateEntry. cbn [tr_entry].
  destruct Hl as [Hl _]. pose proof (listener_byte_bounds (co_listenerPriority c)).
  destruct (pe_Verdict (co_rule c)); cbn [passes mse_MapStateEntry].
  1, 2: rewrite NewMapStateEntry_Precedence, ToPrecedenceWithListenerPriority_eq by lia; rewrite Z.min_l by lia.
  - eexists. split; [done|]. destruct (negb _); lia.
  - by exists 255.
  - exists 0. unfold PassEntry, ToPassPrecedence. cbn [passes pm_precedence].
    rewrite toBasePrecedence_eq by lia. rewrite Z.min_l by lia. lia.
Qed.

Lemma contributed_is_pass c : is_pass (contributed c) = is_pass_verdict (pe_Verdict (co_rule c)).
Proof. unfold is_pass, contributed, co_entry, newMapStateEntry. simpl. by destruct (pe_Verdict (co_rule c)). Qed.

Lemma NewMapStateEntry_valid p d pp lp : IsValid (NewMapStateEntry p d pp lp) = true.
Proof.
  unfold NewMapStateEntry, MapStateEntry_WithListenerPriority. destruct d; [done|]. simpl. by destruct (negb (pp =? 0)).
Qed.

Lemma contributed_tier c : contributes dir out c →
  (tr_tier (contributed c) < length bases)%nat ∧ Z.of_nat (tr_tier (contributed c)) = co_tier c.
Proof. intros [Hr _ _ _ _]. destruct (as_range _ _ _ AS _ _ Hr) as [Ht _]. unfold contributed, co_tier. simpl. lia. Qed.

Lemma contributed_ok c : contributes dir out c → trule_ok (length bases) dir tier_max tier_min (contributed c).
Proof.
  intros Hc. destruct (contributed_tier c Hc) as [Hn Et]. destruct (contributed_word c Hc) as (b & Hw & Hb).
  pose proof (contributed_is_pass c) as Hip. destruct Hc as [Hr Hk Hpp Hl Hd].
  destruct (as_range _ _ _ AS _ _ Hr) as [Ht Hp]. destruct (as_bases _ _ _ AS _ Ht) as [? ?].
  fold (co_tier c) in *. assert (HL : LP = 16777215) by done.
  constructor.
  - done.
  - done.
  - rewrite tier_max_eq by done. unfold tier_min. rewrite Et, Hw.
    destruct (pe_Verdict (co_rule c)); lia.
  - rewrite Hip. destruct (pe_Verdict (co_rule c)) eqn:Ev; try done. intros _. rewrite Hw. subst b.
    unfold contributed, co_entry, newMapStateEntry. rewrite Ev. cbn [tr_entry tr_tier]. split; [done|].
    split; [|rewrite Z.add_0_r; apply Z.mod_mul; lia].
    unfold PassEntry, meta. cbn [passes]. unfold ToPassPrecedence. rewrite !toBasePrecedence_eq by lia.
    unfold tier_max, tier_min. rewrite Z2Nat.id by lia. rewrite !Z.min_l by lia.
    rewrite uwrap_small by (unfold is_uint; lia). do 3 f_equal; lia.
  - rewrite Hip. intros Hv. unfold contributed, co_entry, newMapStateEntry. cbn [tr_entry].
    assert (Hwf : ∀ d, wf_entry (NewMapStateEntry (co_priority c) d (co_proxyPort c) (co_listenerPriority c)))
      by (intros d; apply NewMapStateEntry_wf; [unfold is_uint; lia|done|done]).
    destruct (pe_Verdict (co_rule c)); [| |done]; (constructor; [apply Hwf|apply NewMapStateEntry_valid|done]).
  - done.
Qed.

Lemma contributed_policy cs : Forall (contributes dir out) cs →
  tpolicy (length bases) dir tier_max tier_min (map contributed cs).
Proof.
  rewrite Forall_forall. intros HC. constructor; [exact tier_layout|..].
  - intros r (c & <- & Hc)%list_elem_of_In%in_map_iff. by apply contributed_ok, HC, list_elem_of_In.
  - intros r q (c & <- & Hc%list_elem_of_In)%list_elem_of_In%in_map_iff
      (d & <- & Hd%list_elem_of_In)%list_elem_of_In%in_map_iff Hp Ht.
    destruct (contributed_tier c (HC c Hc)) as [Hn Et], (contributed_tier d (HC d Hd)) as [Hn' Et'].
    destruct (contributed_word c (HC c Hc)) as (b & -> & Hb), (contributed_word d (HC d Hd)) as (b' & -> & Hb').
    rewrite contributed_is_pass in Hp. destruct (pe_Verdict (co_rule c)) eqn:Ev; try done. subst b.
    destruct (as_room _ _ _ AS _ _ _ _ (ct_rule _ _ _ (HC c Hc)) (ct_rule _ _ _ (HC d Hd)) Ev) as [HR1 HR2].
    { unfold co_tier in *. lia. }
    cbv zeta in HR1, HR2. unfold tier_min, lift in *. rewrite Et. fold (co_tier c) in *.
    assert (0 ≤ b' ≤ 255) by (destruct (pe_Verdict (co_rule d)); lia).
    split; [lia|].
    intros r' (c' & <- & Hc'%list_elem_of_In)%list_elem_of_In%in_map_iff Ht' Hw.
    destruct (contributed_tier c' (HC c' Hc')) as [_ Et''].
    destruct (contributed_word c' (HC c' Hc')) as (b'' & Hw'' & Hb''). rewrite Hw'' in *.
    assert (0 ≤ b'' ≤ 255) by (destruct (pe_Verdict (co_rule c')); lia).
    specialize (HR2 _ _ (ct_rule _ _ _ (HC c' Hc'))). fold (co_tier c') in HR2. specialize (HR2 ltac:(lia) ltac:(lia)). lia.
Qed.
End contributions.

(** ** The simulator *)

(** The loop of the simulator on sorted entries: the first entry of every tier before
    [te] is a pass, and the first entry of tier [te] has verdict [v]. *)
Definition first_of_tier (l : list PolicyEntry) (e : PolicyEntry) : Prop :=
  ∃ l1 l2, l = l1 ++ e :: l2 ∧ ∀ b, b ∈ l1 → Tier b ≠ Tier e.

Lemma first_of_tier_cons a l e : first_of_tier l e → Tier a ≠ Tier e → first_of_tier (a :: l) e.
Proof.
  intros (l1 & l2 & -> & H) Hne. exists (a :: l1), l2. split; [done|].
  intros b [-> |Hb]%elem_of_cons; [done|by apply H].
Qed.

Lemma match_loop_decides te v l : te ≤ 255 → v ≠ Pass → ∀ skip, skip ≤ te →
  StronglySorted entry_le l → (∃ e, e ∈ l ∧ Tier e = te) →
  (∀ e, first_of_tier l e → skip ≤ Tier e →
    (Tier e < te → pe_Verdict e = Pass ∧ 0 ≤ Tier e) ∧ (Tier e = te → pe_Verdict e = v)) →
  match_loop skip l = match v with Allow => DecisionAllowed | _ => DecisionDenied end.
Proof.
  intros Hte Hv. induction l as [|a l IH]; intros skip Hs HS (e & He & Ht) HF; [by apply elem_of_nil in He|].
  apply StronglySorted_cons in HS as [HA HS]. rewrite Forall_forall in HA.
  assert (Hnext : ∀ skip', skip' ≤ te → Tier a < skip' → skip ≤ skip' →
    match_loop skip' l = match v with Allow => DecisionAllowed | _ => DecisionDenied end).
  { intros skip' H1 H2 H3. apply IH; try done.
    - apply elem_of_cons in He as [-> |He]; [lia|]. by exists e.
    - intros b Hb Hle. apply HF; [|lia]. apply first_of_tier_cons; [done|lia]. }
  assert (Hfa : first_of_tier (a :: l) a). { exists [], l. split; [done|]. by intros ? ?%elem_of_nil. }
  cbn [match_loop]. destruct (Z.ltb_spec (Tier a) skip) as [Hlt|Hge]; [by apply Hnext|].
  destruct (HF a Hfa Hge) as [Hp Hv'].
  assert (Tier a ≤ te).
  { apply elem_of_cons in He as [-> |He]; [lia|]. destruct (HA e He) as [?|[? _]]; lia. }
  destruct (decide (Tier a = te)) as [E|E].
  - rewrite (Hv' E). by destruct v.
  - destruct Hp as [-> ?]; [lia|]. rewrite uwrap_small by (unfold is_uint; lia). apply Hnext; lia.
Qed.

(** The first entry of a tier is the least of it. *)
Lemma first_least l e b : StronglySorted entry_le l → first_of_tier l e → b ∈ l → Tier b = Tier e → e = b ∨ entry_le e b.
Proof.
  intros HS (l1 & l2 & -> & H) Hb Ht. apply elem_of_app in Hb as [Hb|[-> |Hb]%elem_of_cons]; [by destruct (H b Hb)|by left|].
  right. apply StronglySorted_app_1_r, StronglySorted_cons in HS as [HF _]. rewrite Forall_forall in HF. by apply HF.
Qed.

Lemma entry_le_trans a b c : entry_le a b → entry_le b c → entry_le a c.
Proof.
  unfold entry_le. intros [?|[? H1]] [?|[? H2]]; [left; lia..|]. right. split; [lia|].
  destruct H1 as [H1|[H1 V1]], H2 as [H2|[H2 V2]].
  - left. by eapply Qlt_trans.
  - left. by rewrite <- H2.
  - left. by rewrite H1.
  - right. split; [by rewrite H1|lia].
Qed.

Lemma entry_le_verdict a b : entry_le a b → entry_le b a → pe_Verdict a = pe_Verdict b.
Proof.
  unfold entry_le. intros [?|[? H1]] [?|[? H2]]; [lia..|].
  destruct H1 as [H1|[H1 V1]], H2 as [H2|[H2 V2]].
  - destruct (Qlt_irrefl (Priority a)). by eapply Qlt_trans.
  - rewrite H2 in H1. by destruct (Qlt_irrefl (Priority a)).
  - rewrite H1 in H2. by destruct (Qlt_irrefl (Priority b)).
  - destruct (pe_Verdict a), (pe_Verdict b); simpl in *; done || lia.
Qed.

(** ** Lookup and simulation *)

Section evaluation.
Context (cinfo : ClusterInfo) (dir : Z) (rules : list PolicyEntry) (bases : list Z) (out : list (PolicyEntry * Z)).
Context (AS : assigned rules bases out) (cs : list contribution) (HC : Forall (contributes dir out) cs).
Context (x : Key).

(** The rules with a contribution that covers the flow. *)
Definition matching : list PolicyEntry :=
  map co_rule (filter (λ c, kcovers cinfo (co_key c) x) cs).

(** The flow is covered by a rule of a tier without passes. *)
Definition has_default : Prop :=
  ∃ d, d ∈ cs ∧ kcovers cinfo (co_key d) x ∧ ∀ r, r ∈ rules → Tier r = co_tier d → pe_Verdict r ≠ Pass.

Lemma elem_of_contributed r : r ∈ map (contributed bases) cs ↔ ∃ c, c ∈ cs ∧ contributes dir out c ∧ r = contributed bases c.
Proof.
  rewrite list_elem_of_In, in_map_iff. rewrite Forall_forall in HC. split.
  - intros (c & <- & Hc%list_elem_of_In). exists c. split; [done|]. split; [by apply HC|done].
  - intros (c & Hc & _ & ->). exists c. by rewrite <- list_elem_of_In.
Qed.

Lemma elem_of_matching r : r ∈ matching ↔ ∃ c, c ∈ cs ∧ contributes dir out c ∧ kcovers cinfo (co_key c) x ∧ r = co_rule c.
Proof.
  unfold matching. rewrite list_elem_of_In, in_map_iff. rewrite Forall_forall in HC. split.
  - intros (c & <- & [Hk Hc]%list_elem_of_In%list_elem_of_filter). exists c. split_and!; try done. by apply HC.
  - intros (c & Hc & _ & Hk & ->). exists c. split; [done|]. by apply list_elem_of_In, list_elem_of_filter.
Qed.

Lemma assigned_rule c : contributes dir out c → co_rule c ∈ rules.
Proof. intros [Hr _ _ _ _]. rewrite <- (as_rules _ _ _ AS). by apply (list_elem_of_fmap_2 fst) in Hr. Qed.

(** A flow with a default has a live rule. *)
Lemma default_live : has_default → ∃ c, c ∈ cs ∧ contributes dir out c ∧
  live cinfo (map (contributed bases) cs) x (contributed bases c) ∧ pe_Verdict (co_rule c) ≠ Pass.
Proof.
  intros (d & Hd & Hk & Hnp). assert (Cd : contributes dir out d) by (by rewrite Forall_forall in HC; apply HC).
  pose proof (contributed_policy bases dir rules out AS cs HC) as TP.
  destruct (passed_or_live cinfo (tier_max bases) (tier_min bases) (map (contributed bases) cs) x (length bases))
    as [HP|(e & HL & _)].
  - destruct (contributed_tier bases dir rules out AS d Cd) as [Hn Et].
    destruct (HP (contributed bases d)) as (m & HPm & _); [apply elem_of_contributed; by exists d|done|done|].
    pose proof (Pmax_spec cinfo (tier_min bases) (tier_min bases) (map (contributed bases) cs) x (tr_tier (contributed bases d))) as HS.
    rewrite HPm in HS. destruct HS as [(r & (c & Hc & Cc & ->)%elem_of_contributed & Hp & Ht & _) _].
    rewrite contributed_is_pass in Hp. destruct (contributed_tier bases dir rules out AS c Cc) as [_ Et'].
    destruct (Hnp (co_rule c)); [by apply assigned_rule|fold (co_tier c); lia|]. by destruct (pe_Verdict (co_rule c)).
  - pose proof HL as ((c & Hc & Cc & ->)%elem_of_contributed & Hp & _). exists c. split_and!; try done.
    rewrite contributed_is_pass in Hp. by destruct (pe_Verdict (co_rule c)).
Qed.

(** A rule sorted before a rule of its tier, with no higher word, has its verdict. *)
Lemma word_verdict_order c d : contributes dir out c → contributes dir out d → co_tier c = co_tier d →
  word (contributed bases c) ≤ word (contributed bases d) → co_rule c = co_rule d ∨ entry_le (co_rule c) (co_rule d) →
  pe_Verdict (co_rule c) = pe_Verdict (co_rule d).
Proof.
  intros Cc Cd Ht Hw [-> |Hle]; [done|]. destruct (contributed_word bases dir rules out AS c Cc) as (b & Hb & Vb).
  destruct (contributed_word bases dir rules out AS d Cd) as (b' & Hb' & Vb').
  destruct (as_order _ _ _ AS _ _ _ _ (ct_rule _ _ _ Cc) (ct_rule _ _ _ Cd) Ht) as [[O1 O1'] [O2 O2']].
  unfold co_tier in Ht.
  assert (co_priority d ≤ co_priority c).
  { destruct (pe_Verdict (co_rule c)), (pe_Verdict (co_rule d)); lia. }
  destruct Hle as [?|[_ [HL|[HE HV]]]]; [lia|specialize (O2 HL); lia|].
  specialize (O1 HE). destruct (pe_Verdict (co_rule c)), (pe_Verdict (co_rule d)); simpl in *; done || lia.
Qed.

(** Rules [m] stand for the contributions that cover the flow: the rules of these are
    among them, and every rule of [m] comes with, or after, one of its tier. *)
Record represents (m : list PolicyEntry) : Prop := {
  rp_contribution c : c ∈ cs → kcovers cinfo (co_key c) x → co_rule c ∈ m;
  rp_rule e : e ∈ m → ∃ c, c ∈ cs ∧ kcovers cinfo (co_key c) x ∧ co_tier c = Tier e ∧
    (co_rule c = e ∨ entry_le (co_rule c) e);
}.

Lemma matching_represents m : m ≡ₚ matching → represents m.
Proof.
  intros Hm. constructor.
  - intros c Hc Hk. rewrite Hm. apply elem_of_matching. exists c. split_and!; try done.
    by apply (proj1 (Forall_forall _ _) HC).
  - intros e. rewrite Hm. intros (c & Hc & _ & Hk & ->)%elem_of_matching. exists c. split_and!; auto.
Qed.

(** The contribution behind the first rule of a tier. *)
Lemma first_contribution m e : represents m → StronglySorted entry_le m → first_of_tier m e → ∃ d,
  d ∈ cs ∧ contributes dir out d ∧ kcovers cinfo (co_key d) x ∧ co_tier d = Tier e ∧ pe_Verdict (co_rule d) = pe_Verdict e ∧
  ∀ p, p ∈ m → Tier p = Tier e → co_rule d = p ∨ entry_le (co_rule d) p.
Proof.
  intros [R1 R2] HS Hf. destruct (R2 e) as (d & Hd & Hk & Ht & Hle).
  { destruct Hf as (l1 & l2 & -> & _). apply elem_of_app. right. by left. }
  assert (Cd : contributes dir out d) by (by apply (proj1 (Forall_forall _ _) HC)).
  exists d. split_and!; try done.
  - destruct Hle as [<-|Hle]; [done|].
    destruct (first_least m e (co_rule d) HS Hf) as [<-|Hge]; [by apply R1|done|done|].
    by apply entry_le_verdict.
  - intros p Hp Htp. destruct (first_least m e p HS Hf Hp Htp) as [<-|Hep]; [done|].
    right. destruct Hle as [-> |Hle]; [done|]. by apply (entry_le_trans _ e).
Qed.

(** The simulator returns the verdict of the live rule. *)
Lemma simulation_live c m dd : (∀ r, r ∈ rules → is_uint 8 (Tier r)) → c ∈ cs → contributes dir out c →
  live cinfo (map (contributed bases) cs) x (contributed bases c) → pe_Verdict (co_rule c) ≠ Pass →
  represents m → StronglySorted entry_le m →
  findMatchingRule m dd = match pe_Verdict (co_rule c) with Allow => DecisionAllowed | _ => DecisionDenied end.
Proof.
  intros H8 Hc Cc HL Hv Hm HS. pose proof HL as (_ & _ & Hk & Hlive).
  assert (Hcm : co_rule c ∈ m) by (by apply (rp_contribution _ Hm)).
  assert (findMatchingRule m dd = match_loop 0 m) as -> by (by destruct m; [apply elem_of_nil in Hcm|]).
  pose proof (H8 _ (assigned_rule c Cc)) as H8c. unfold is_uint in H8c. fold (co_tier c) in H8c.
  apply (match_loop_decides (co_tier c)); [lia|done|lia|done|by exists (co_rule c)|].
  intros e Hf Hge. destruct (first_contribution m e Hm HS Hf) as (d & Hd & Cd & Hkd & Et & Ev & Hfirst). rewrite <- Ev, <- Et.
  destruct (contributed_tier bases dir rules out AS c Cc) as [_ Etc].
  destruct (contributed_tier bases dir rules out AS d Cd) as [_ Etd].
  destruct (Hlive (contributed bases d)) as [HL1 HL2]; [apply elem_of_contributed; by exists d|done|].
  split.
  - intros Ht. split; [|lia]. destruct HL2 as (w & HP & Hw); [lia|].
    pose proof (Pmax_spec cinfo (tier_min bases) (tier_min bases) (map (contributed bases) cs) x (tr_tier (contributed bases d))) as HSp.
    rewrite HP in HSp. destruct HSp as [(r & (p & Hp & Cp & ->)%elem_of_contributed & Hpp & Htp & Hkp & <-) _].
    destruct (contributed_tier bases dir rules out AS p Cp) as [_ Etp]. rewrite contributed_is_pass in Hpp.
    rewrite (word_verdict_order d p); [by destruct (pe_Verdict (co_rule p))|done|done|lia|done|].
    apply Hfirst; [by apply (rp_contribution _ Hm)|unfold co_tier in *; lia].
  - intros Ht. apply (word_verdict_order d c); [done..|apply HL1; lia|]. apply Hfirst; [done|]. unfold co_tier in *; lia.
Qed.
End evaluation.

Lemma co_entry_deny bases dir out rules c : assigned rules bases out → contributes dir out c → pe_Verdict (co_rule c) ≠ Pass →
  MapStateEntry_IsDeny (co_entry bases c) = match pe_Verdict (co_rule c) with Deny => true | _ => false end.
Proof.
  intros AS Cc Hv. destruct (contributed_word bases dir rules out AS c Cc) as (b & Hw & Hb).
  assert (E : word (contributed bases c) = Precedence (co_entry bases c)).
  { unfold word, contributed, co_entry, newMapStateEntry. simpl. by destruct (pe_Verdict (co_rule c)). }
  unfold MapStateEntry_IsDeny. apply eq_true_iff_eq. rewrite Precedence_IsDeny_iff, <- E, Hw.
  rewrite mod_256_add by (destruct (pe_Verdict (co_rule c)); lia).
  destruct (pe_Verdict (co_rule c)); split; try done; lia.
Qed.

Section lookup.
Context {TR : Trie LPMKey IDSet} {TL : TrieLaws LPMKey IDSet TR} {GR : GoRange}.

(** The contributions inserted one after the other, at the precedences of their tiers. *)
Definition add_contribution (bases : list Z) (features : Z) (s : mapState TR * ChangeState) (c : contribution)
  : mapState TR * ChangeState :=
  insertWithChanges s.1 (ToDenyPrecedence (at_ bases (co_tier c))) (co_key c) (co_entry bases c) features s.2.

Definition tier_sorted (cs : list contribution) : Prop := StronglySorted (λ a b, co_tier a ≤ co_tier b) cs.

Lemma add_contributions bases dir features rules out cs s : assigned rules bases out → Forall (contributes dir out) cs →
  foldl (add_contribution bases features) s cs =
  foldl (insert_rule (tier_max bases) features) s (map (contributed bases) cs).
Proof.
  intros AS HC. revert s. induction HC as [|c cs Hc HC IH]; intros s; [done|]. cbn [foldl map]. rewrite IH. f_equal.
  unfold add_contribution, insert_rule, tier_max. by rewrite (proj2 (contributed_tier bases dir rules out AS c Hc)).
Qed.

Lemma contributed_by_tier bases cs : tier_sorted cs → by_tier (map (contributed bases) cs).
Proof.
  intros HS. unfold by_tier. induction HS as [|c cs HS IH HF]; simpl; constructor; [done|].
  apply Forall_forall. intros r (d & <- & Hd%list_elem_of_In)%list_elem_of_In%in_map_iff.
  pose proof (proj1 (Forall_forall _ _) HF d Hd). simpl in *. lia.
Qed.

Lemma assigned_resolve rules need bases out : sorted_rules rules → levels_needed rules = inr need → need ≤ LowestPriority →
  resolveL4Policy assign [] rules = inr (bases, out) → assigned rules bases out.
Proof.
  intros Hs Hn Hle Hr. destruct (resolve_assigned rules need Hs Hn Hle) as (b & o & AS & E).
  rewrite E, (each_assign (λ x, x)) in Hr. cbn [sbind app] in Hr. rewrite map_id in Hr. by injection Hr as -> ->.
Qed.

(** A state without entries of a direction. *)
Record fresh (cinfo : ClusterInfo) (dir : Z) (s : mapState TR * ChangeState) : Prop := {
  fr_state : st_inv cinfo wf_key wf_key s;
  fr_entries : sinv cinfo s.1;
  fr_none k : TrafficDirection (Key_LPMKey k) = dir → ms_entries s.1 !! k = None;
}.

Lemma fresh_new cinfo dir ids features : fresh cinfo dir (newMapState ids features cinfo, mkChangeState None None None).
Proof.
  assert (HE : ∀ k, ms_entries (newMapState (TR:=TR) ids features cinfo) !! k = None) by (intros; apply lookup_empty).
  constructor; [constructor; [apply newMapState_inv|done| |done]|constructor; [apply newMapState_inv|done|]|done].
  - intros k [v Hv]. cbn [fst] in Hv. by rewrite HE in Hv.
  - intros k v. cbn [fst]. by rewrite HE.
Qed.

(** The state after the insertions. *)
Lemma contributions_tinv (cinfo : ClusterInfo) (dir : Z) (rules : list PolicyEntry) (bases : list Z)
    (out : list (PolicyEntry * Z)) (cs : list contribution) s features :
  assigned rules bases out → fresh cinfo dir s → Forall (contributes dir out) cs → tier_sorted cs →
  contains features passRules = true →
  tinv cinfo dir (tier_max bases) (tier_min bases) (reverse (map (contributed bases) cs) ++ [])
    (foldl (add_contribution bases features) s cs).1.
Proof.
  intros AS [Hst HE HN] HC HT Hf. rewrite (add_contributions bases dir features rules out cs) by done.
  pose proof (contributed_policy bases dir rules out AS cs HC) as TP.
  apply (insert_rules_tinv cinfo (length bases) dir (tier_max bases) (tier_min bases) (map (contributed bases) cs) _ features TP Hf
    (contributed_by_tier bases cs HT) []); [by intros r ?%elem_of_nil|done|by intros r r' ?%elem_of_nil|done|by apply empty_tinv].
Qed.

Lemma lookup_represents (cinfo : ClusterInfo) (dir : Z) (rules : list PolicyEntry) (bases : list Z)
    (out : list (PolicyEntry * Z)) (cs : list contribution) s features (x : Key) (m : list PolicyEntry) (dd : bool) :
  sorted_rules rules → assigned rules bases out → fresh cinfo dir s →
  Forall (contributes dir out) cs → tier_sorted cs → contains features passRules = true →
  wf_key x → has_default cinfo rules cs x →
  represents cinfo cs x m → StronglySorted entry_le m →
  let ms := (foldl (add_contribution bases features) s cs).1 in
  (lookup ms x).2 = true ∧
  findMatchingRule m dd = if MapStateEntry_IsDeny (lookup ms x).1 then DecisionDenied else DecisionAllowed.
Proof.
  intros Hs AS [Hst HE HN] HC HT Hf Wx HD Hm HS. cbv zeta.
  destruct (default_live cinfo dir rules bases out AS cs HC x HD) as (c & Hc & Cc & HL & Hv).
  rewrite (add_contributions bases dir features rules out cs) by done.
  pose proof (tiered_lookup_from cinfo (length bases) dir (tier_max bases) (tier_min bases) s features
    (map (contributed bases) cs) x (contributed bases c) Hf
    (contributed_policy bases dir rules out AS cs HC) (contributed_by_tier bases cs HT)
    Hst (empty_tinv cinfo dir _ _ _ HE HN) Wx HL) as [G1 _ G3 _].
  split; [done|]. rewrite G3. cbn [contributed tr_entry]. rewrite (co_entry_deny bases dir out rules) by done.
  rewrite (simulation_live cinfo dir rules bases out AS cs HC x c m dd (sr_tier _ Hs)) by done.
  by destruct (pe_Verdict (co_rule c)).
Qed.

(** C15. A tiered policy with pass verdicts is enforced as it is meant: resolve the
    sorted rules to priorities and insert the keys they contribute, tier by tier, into
    an empty map state.  Every flow that is covered by a rule of a tier without passes,
    as the default rule of a policy covers every flow of its direction, is found, and
    is denied or allowed as the simulator decides on the rules that cover it. *)
Theorem lookup_simulates (cinfo : ClusterInfo) (dir : Z) (rules : list PolicyEntry) (need : Z) (bases : list Z)
    (out : list (PolicyEntry * Z)) (cs : list contribution) ids features (x : Key) (m : list PolicyEntry) (dd : bool) :
  sorted_rules rules → levels_needed rules = inr need → need ≤ LowestPriority →
  resolveL4Policy assign [] rules = inr (bases, out) →
  Forall (contributes dir out) cs → tier_sorted cs → contains features passRules = true →
  wf_key x → has_default cinfo rules cs x →
  m ≡ₚ matching cinfo cs x → StronglySorted entry_le m →
  let ms := (foldl (add_contribution bases features) (newMapState ids features cinfo, mkChangeState None None None) cs).1 in
  (lookup ms x).2 = true ∧
  findMatchingRule m dd = if MapStateEntry_IsDeny (lookup ms x).1 then DecisionDenied else DecisionAllowed.
Proof.
  intros Hs Hn Hle Hr HC HT Hf Wx HD Hm HS. pose proof (assigned_resolve _ _ _ _ Hs Hn Hle Hr) as AS.
  apply (lookup_represents cinfo dir rules bases out); try done; [apply fresh_new|].
  by apply (matching_represents cinfo dir out).
Qed.
End lookup.

(** ** An example

    A tier that passes one identity on and denies the cluster, a tier that allows the
    port, and the default. *)
Definition demo_policy : list PolicyEntry := [
  order_entry 0 0 Pass "pass"; order_entry 0 1 Deny "deny";
  order_entry 1 0 Allow "allow"; order_entry 2 0 Deny "default"].

Definition demo_resolved : list Z * list (PolicyEntry * Z) :=
  match resolveL4Policy assign [] demo_policy with inr x => x | inl _ => ([], []) end.

Definition demo_cluster_key : Key := WithIdentity IngressKey ReservedIdentityAggregateCluster.

Definition demo_contributions : list contribution :=
  zip_with (λ '(r, p) k, mkContribution r p k NilRuleOrigin 0 0) demo_resolved.2
    [WithIdentity IngressKey demo_leaf; demo_cluster_key;
     WithTCPPortPrefix demo_cluster_key 80 12; demo_cluster_key].

Lemma demo_contributes : Forall (contributes Ingress demo_resolved.2) demo_contributions.
Proof.
  vm_compute. repeat constructor; try (cbn; lia); try done; set_solver.
Qed.

#[export] Instance entry_le_dec a b : Decision (entry_le a b).
Proof.
  refine (cast_if (decide (Tier a < Tier b ∨ Tier a = Tier b ∧ (Qle_bool (Priority b) (Priority a) = false ∨
    Qeq_bool (Priority a) (Priority b) = true ∧ verdictOrder (pe_Verdict a) ≤ verdictOrder (pe_Verdict b)))));
    unfold entry_le; (assert (Qlt (Priority a) (Priority b) ↔ Qle_bool (Priority b) (Priority a) = false) as ->
      by (rewrite <- not_true_iff_false, Qle_bool_iff; split; [apply Qlt_not_le|apply Qnot_le_lt]));
    rewrite <- Qeq_bool_iff; done.
Defined.

Lemma lookup_simulates_witness :
  let ms := (foldl (add_contribution (TR:=bitlpm) (GR:=range_elements) demo_resolved.1 allFeatures)
    (newMapState ∅ allFeatures demo_cluster, mkChangeState None None None) demo_contributions).1 in
  MapStateEntry_IsDeny (lookup ms demo_web).1 = false ∧
  findMatchingRule demo_policy true =
    if MapStateEntry_IsDeny (lookup ms demo_web).1 then DecisionDenied else DecisionAllowed.
Proof.
  cbn zeta. split; [vm_compute; reflexivity|].
  apply (lookup_simulates (TR:=bitlpm) (TL:=bitlpm_TrieLaws) (GR:=range_elements)
    demo_cluster Ingress demo_policy 50 demo_resolved.1 demo_resolved.2 demo_contributions ∅ allFeatures demo_web demo_policy true).
  - by apply sorted_rules_check.
  - by vm_compute.
  - by vm_compute.
  - by vm_compute.
  - exact demo_contributes.
  - by apply (bool_decide_eq_true_1 _).
  - by vm_compute.
  - repeat split; vm_compute; congruence.
  - exists (mkContribution (order_entry 2 0 Deny "default") 40 demo_cluster_key NilRuleOrigin 0 0).
    split; [by apply list_elem_of_lookup; exists 3%nat; vm_compute|].
    split; [by apply (bool_decide_eq_true_1 _)|]. intros r Hr. unfold demo_policy in Hr. set_solver.
  - apply reflexive_eq. by vm_compute.
  - by apply (bool_decide_eq_true_1 _).
Defined.
