(* ===== verification/PlainEvaluation.v ===== *)
(** * Evaluation of policies without passes

    A direction whose rules contribute no pass verdicts is inserted by the simpler part of
    [insertWithChanges].  Its verdicts are those of the simulator as well, and flows that no
    rule matches are denied. *)

From Stdlib Require Import QArith.
From stdpp Require Import sorting.
From S2P Require Import Prelude Precedence BitLPM PolicyKey Identity RuleOrigin PassMeta.
From S2P Require Import MapState MapStateIndex MapStateLookup MapStateOps MapStateFrame MapStatePolicy PolicyRule.
From S2P Require Import TierOrder TierState TierInvariant TierPolicy TierPriorities TierEvaluation.

Local Open Scope Z_scope.

Definition direction_scope (dir : Z) (k : Key) : Prop := TrafficDirection k = dir.

Lemma direction_closed dir : closed (direction_scope dir).
Proof. intros cinfo k k' [[E _] _]. unfold direction_scope. by rewrite E. Qed.

(** The first entry of the sorted entries decides. *)
Lemma find_first l e : e ∈ l → StronglySorted entry_le l → (∀ a, a ∈ l → 0 ≤ Tier a) →
  ∃ a l', l = a :: l' ∧ ∀ dd, pe_Verdict a ≠ Pass →
    findMatchingRule l dd = match pe_Verdict a with Allow => DecisionAllowed | _ => DecisionDenied end.
Proof.
  intros He HS HT. destruct l as [|a l']; [by apply elem_of_nil in He|]. exists a, l'. split; [done|]. intros dd Hv.
  cbn [findMatchingRule match_loop]. destruct (Z.ltb_spec (Tier a) 0) as [Hlt|_]; [specialize (HT a ltac:(by left)); lia|].
  by destruct (pe_Verdict a).
Qed.

Section plain.
Context {TR : Trie LPMKey IDSet} {TL : TrieLaws LPMKey IDSet TR} {GR : GoRange}.
Context (cinfo : ClusterInfo) (dir : Z) (rules : list PolicyEntry) (bases : list Z) (out : list (PolicyEntry * Z)).
Context (AS : assigned rules bases out) (cs : list contribution) (HC : Forall (contributes dir out) cs).
Context (features : Z) (s : mapState TR * ChangeState) (FR : fresh cinfo dir s).

Notation add := (add_contribution (TR:=TR) bases features).

(** The other direction stays as it is. *)
Lemma contributions_frames :
  frames dir s (foldl add s cs) ∧ st_inv cinfo wf_key wf_key (foldl add s cs).
Proof.
  pose proof (fr_state _ _ _ FR) as Hs. clear FR. revert s Hs. induction HC as [|c l Hc HC' IH]; intros s0 Hs; [done|].
  cbn [foldl]. destruct Hc as [_ Wk _ _ Hd]. destruct s0 as [ms ch].
  destruct (IH HC' (add (ms, ch) c)) as [F S]; [by apply insertWithChanges_ok|]. split; [|done].
  eapply frames_trans; [|exact F]. by apply (insertWithChanges_frames cinfo dir).
Qed.

Context (Hpass : contains features passRules = false).
Context (Hplain : ∀ c, c ∈ cs → pe_Verdict (co_rule c) ≠ Pass).
Context (Hfeat : contains features precedenceFeatures = true ∨
  ∀ c c', c ∈ cs → c' ∈ cs → Precedence (co_entry bases c) = Precedence (co_entry bases c')).

Definition plain_rule (c : contribution) : Key * mapStateEntry := (co_key c, co_entry bases c).

Lemma plain_rule_ok c : c ∈ cs → rule_ok (plain_rule c).
Proof.
  intros Hc. pose proof (proj1 (Forall_forall _ _) HC c Hc) as Cc.
  destruct (contributed_ok bases dir rules out AS c Cc) as [_ Wk _ _ HV _]. constructor; [done|]. apply HV.
  rewrite contributed_is_pass. specialize (Hplain c Hc). by destruct (pe_Verdict (co_rule c)).
Qed.

Lemma contributions_policy :
  policy_inv (direction_scope dir) (foldl add s cs).1 (map plain_rule (reverse cs)).
Proof.
  assert (HG : ∀ l1 l2 s0, cs = l1 ++ l2 → st_inv cinfo wf_key wf_key s0 →
    policy_inv (direction_scope dir) s0.1 (map plain_rule (reverse l1)) →
    policy_inv (direction_scope dir) (foldl add s0 l2).1 (map plain_rule (reverse cs))).
  { intros l1 l2. revert l1. induction l2 as [|c l2 IH]; intros l1 s0 El Hs Pol.
    - rewrite app_nil_r in El. by rewrite El.
    - assert (Hc : c ∈ cs) by (rewrite El; set_solver). cbn [foldl]. destruct s0 as [ms ch].
      pose proof (proj1 (Forall_forall _ _) HC c Hc) as [_ Wk _ _ Hd].
      apply (IH (l1 ++ [c])); [by rewrite <- app_assoc|by apply insertWithChanges_ok|].
      rewrite reverse_snoc. cbn [map].
      apply (insert_policy (direction_scope dir) (direction_closed dir)); try done; [by apply plain_rule_ok|].
      destruct Hfeat as [?|Hsame]; [by left|right].
      intros r (c' & <- & Hc'%list_elem_of_In)%list_elem_of_In%in_map_iff. apply Hsame; [|done].
      rewrite El. apply elem_of_app. left. by apply elem_of_reverse. }
  destruct FR as [Hs HE HN]. apply (HG [] cs s eq_refl Hs). constructor; try by intros.
  - apply HE.
  - intros k v Dk E. by rewrite HN in E.
  - intros k v Dk E. by rewrite HN in E.
  - by intros r ?%elem_of_nil.
  - intros k v k' v' Dk _ E. by rewrite HN in E.
  - by intros r ?%elem_of_nil.
Qed.

Lemma plain_sinv : sinv cinfo (foldl add s cs).1.
Proof.
  destruct contributions_frames as [F S]. constructor; [apply S|apply S|]. intros k v E.
  destruct (decide (TrafficDirection k = dir)) as [Dk|Dk].
  - destruct (pol_plain _ _ _ contributions_policy k v Dk E) as [Wv _ Pv]. constructor; [done|].
    unfold Passes. rewrite Pv. constructor.
  - rewrite (F k Dk) in E. by apply (si_entry _ _ (fr_entries _ _ _ FR) k).
Qed.

(** Rules behind the highest entry decide like the first of the matching rules. *)
Lemma highest_first c e m x : represents cinfo cs x m → StronglySorted entry_le m → c ∈ cs → kcovers cinfo (co_key c) x →
  (∀ c', c' ∈ cs → kcovers cinfo (co_key c') x → Precedence (co_entry bases c') ≤ Precedence (co_entry bases c)) →
  (∀ b, b ∈ m → Tier e ≤ Tier b) → first_of_tier m e → pe_Verdict e = pe_Verdict (co_rule c).
Proof.
  intros Hm HS Hc Hk Hmax Hleast Hf. pose proof (proj1 (Forall_forall _ _) HC c Hc) as Cc.
  destruct (first_contribution cinfo dir out cs HC x m e Hm HS Hf) as (d & Hd & Cd & Hkd & Et & Ev & Hfirst).
  assert (HW : ∀ c', c' ∈ cs → word (contributed bases c') = Precedence (co_entry bases c')).
  { intros c' Hc'. unfold word. cbn [contributed tr_entry]. specialize (Hplain c' Hc').
    unfold co_entry, newMapStateEntry. by destruct (pe_Verdict (co_rule c')). }
  pose proof (Hmax d Hd Hkd) as Hle. rewrite <- !HW in Hle by done.
  pose proof (rp_contribution _ _ _ _ Hm c Hc Hk) as Hcm. specialize (Hleast _ Hcm). fold (co_tier c) in Hleast.
  rewrite <- Ev. destruct (decide (co_tier c = Tier e)) as [E|E].
  - apply (word_verdict_order dir rules bases out AS d c); try done; [congruence|]. by apply Hfirst.
  - exfalso. pose proof (contributed_policy bases dir rules out AS cs HC) as TP.
    destruct (contributed_tier bases dir rules out AS c Cc) as [Nc Tc], (contributed_tier bases dir rules out AS d Cd) as [Nd Td].
    pose proof (tier_above (length bases) dir _ _ _ TP (tr_tier (contributed bases d)) (tr_tier (contributed bases c)) ltac:(lia) Nc).
    destruct (contributed_ok bases dir rules out AS c Cc) as [_ _ Wc _ _ _].
    destruct (contributed_ok bases dir rules out AS d Cd) as [_ _ Wd _ _ _]. lia.
Qed.

Lemma lookup_plain (x : Key) (m : list PolicyEntry) : sorted_rules rules → wf_key x → TrafficDirection x = dir →
  represents cinfo cs x m → StronglySorted entry_le m →
  findMatchingRule m true = if MapStateEntry_IsDeny (lookup (foldl add s cs).1 x).1 then DecisionDenied else DecisionAllowed.
Proof.
  intros Hs Wx Dx Hm HS. destruct contributions_frames as [_ S].
  assert (HK : ∀ k : Key, TrafficDirection k = TrafficDirection x → direction_scope dir k) by (intros k E; unfold direction_scope; by rewrite E).
  pose proof (lookup_decides (direction_scope dir) _ _ x HK contributions_policy Wx) as HD.
  rewrite (st_cinfo _ _ _ _ S) in HD.
  assert (HE : ∀ r, r ∈ map plain_rule (reverse cs) ↔ ∃ c, c ∈ cs ∧ r = plain_rule c).
  { intros r. rewrite list_elem_of_In, in_map_iff. split.
    - intros (c & <- & Hc%list_elem_of_In). exists c. split; [|done]. by rewrite elem_of_reverse in Hc.
    - intros (c & Hc & ->). exists c. rewrite <- list_elem_of_In, elem_of_reverse. done. }
  destruct (lookup (foldl add s cs).1 x) as [v []]; cbn [decides fst] in *.
  - destruct HD as [(r & (c & Hc & ->)%HE & Hk & Hp) Hmax]. cbn [plain_rule fst snd] in Hk, Hp.
    pose proof (proj1 (Forall_forall _ _) HC c Hc) as Cc. pose proof (rp_contribution _ _ _ _ Hm c Hc Hk) as Hcm.
    assert (HT : ∀ a, a ∈ m → 0 ≤ Tier a).
    { intros a (c' & Hc' & _ & <- & _)%(rp_rule _ _ _ _ Hm).
      apply (sr_tier _ Hs), (assigned_rule dir rules bases out AS c'). by apply (proj1 (Forall_forall _ _) HC). }
    destruct (find_first m (co_rule c) Hcm HS HT) as (a & l & -> & HF).
    assert (Hv : pe_Verdict a = pe_Verdict (co_rule c)).
    { apply (highest_first c a (a :: l) x); try done.
      - intros c' Hc' Hk'. rewrite Hp. apply (Hmax (plain_rule c')); [apply HE; by exists c'|done].
      - intros b [-> |Hb]%elem_of_cons; [done|]. apply StronglySorted_cons in HS as [HA _].
        destruct (proj1 (Forall_forall _ _) HA b Hb) as [?|[? _]]; lia.
      - exists [], l. split; [done|]. by intros ? ?%elem_of_nil. }
    rewrite HF, Hv by (rewrite Hv; by apply Hplain).
    assert (ED : MapStateEntry_IsDeny v = MapStateEntry_IsDeny (co_entry bases c)) by (unfold MapStateEntry_IsDeny; by rewrite Hp).
    rewrite ED, (co_entry_deny bases dir out rules) by (done || by apply Hplain). specialize (Hplain c Hc). by destruct (pe_Verdict (co_rule c)).
  - destruct HD as [-> Hn]. assert (m = []) as ->; [|done]. apply elem_of_nil_inv. intros e He.
    destruct (rp_rule _ _ _ _ Hm e He) as (c & Hc & Hk & _). apply (Hn (plain_rule c)); [apply HE; by exists c|done].
Qed.
End plain.
