(* ===== verification/MapChanges.v ===== *)
(** * Incremental updates of the map state

    Model of [MapChanges] of [src/pkg/policy/mapstate.go] and of the selector
    snapshots of [src/pkg/policy/types/selector.go]: identity changes are
    accumulated per rule, moved in batches to the synced queue when the selector
    cache publishes a revision, and consumed by the endpoint, which applies them to
    its map state in tier order. *)

From S2P Require Import Prelude Precedence BitLPM PolicyKey Identity RuleOrigin PassMeta.
From S2P Require Import PortRange MapState MapStateIndex MapStateOps MapStateChanges MapStatePolicy.

Local Open Scope Z_scope.

(** ** Sorting *)

(** [slices.SortFunc] permutes the elements.  Where no element compares less than
    another they keep their places: up to twelve elements are sorted by insertion, each
    moving left while it compares less than its neighbour; of more elements the pivot is
    chosen without a swap, which hints at an increasing slice, and the partial insertion
    sort then finds nothing to move and ends the sort. *)
Fixpoint insert_back {A} (cmp : A → A → Z) (x : A) (rev_sorted : list A) : list A :=
  match rev_sorted with
  | [] => [x]
  | y :: l => if cmp x y <? 0 then y :: insert_back cmp x l else x :: y :: l
  end.
Definition insertionSort {A} (cmp : A → A → Z) (l : list A) : list A :=
  reverse (foldl (λ acc x, insert_back cmp x acc) [] l).

Class GoSort := {
  SortFunc : ∀ {A}, (A → A → Z) → list A → list A;
  SortFunc_perm : ∀ {A} (cmp : A → A → Z) l, SortFunc cmp l ≡ₚ l;
  SortFunc_kept : ∀ {A} (cmp : A → A → Z) l, (∀ a b, a ∈ l → b ∈ l → (cmp a b <? 0) = false) → SortFunc cmp l = l;
}.

Lemma insert_back_perm {A} (cmp : A → A → Z) x l : insert_back cmp x l ≡ₚ x :: l.
Proof.
  induction l as [|y l IH]; simpl; [done|]. destruct (_ <? _); [|done]. rewrite IH. apply Permutation_swap.
Qed.

Lemma insertionSort_perm {A} (cmp : A → A → Z) l : insertionSort cmp l ≡ₚ l.
Proof.
  unfold insertionSort. rewrite reverse_Permutation.
  assert (H : ∀ acc, foldl (λ acc x, insert_back cmp x acc) acc l ≡ₚ acc ++ l).
  { induction l as [|x l IH]; intros acc; simpl; [by rewrite app_nil_r|].
    rewrite IH, insert_back_perm. apply Permutation_middle. }
  apply H.
Qed.

Lemma insertionSort_kept {A} (cmp : A → A → Z) l :
  (∀ a b, a ∈ l → b ∈ l → (cmp a b <? 0) = false) → insertionSort cmp l = l.
Proof.
  intros H. unfold insertionSort.
  assert (HF : ∀ l' acc, (∀ a, a ∈ l' ++ acc → a ∈ l) →
    foldl (λ acc x, insert_back cmp x acc) acc l' = reverse l' ++ acc).
  { induction l' as [|x l' IH]; intros acc Hl; [done|]. cbn [foldl].
    assert (insert_back cmp x acc = x :: acc) as ->.
    { destruct acc as [|y acc]; [done|]. cbn [insert_back]. rewrite H; [done|..]; apply Hl; set_solver. }
    rewrite IH, reverse_cons, <- app_assoc; [done|]. intros a Ha. apply Hl. set_solver. }
  rewrite HF, app_nil_r; [apply reverse_involutive|]. intros a. by rewrite app_nil_r.
Qed.

(** The sort of the examples. *)
Definition sort_by_insertion : GoSort := {|
  SortFunc A := insertionSort;
  SortFunc_perm A := insertionSort_perm;
  SortFunc_kept A := insertionSort_kept;
|}.

(** ** Selector snapshots *)

(** The selections are an immutable map of another module, a class with its zero
    value. *)
Class SelectionsMap := { selections_t : Type; no_selections : selections_t }.

Section queue.
Context {SM : SelectionsMap}.

Record SelectorSnapshot := mkSnapshot {
  Revision : Z;
  selections : selections_t;
  valid : bool;
}.

Definition GetSelectorSnapshot (sel : selections_t) (rev : Z) : SelectorSnapshot := mkSnapshot rev sel true.
Definition SelectorSnapshot_Invalidate (s : SelectorSnapshot) : SelectorSnapshot :=
  mkSnapshot (Revision s) no_selections false.
Definition After (s : SelectorSnapshot) (rev : Z) : bool := rev <? Revision s.
Definition SelectorSnapshot_IsValid (s : SelectorSnapshot) : bool := valid s.

(** ** The queue *)

Record mapChange := mkChange {
  Add : bool;
  Tier : Z;
  TierMaxPrecedence : Z;
  mc_Key : Key;
  mc_Value : mapStateEntry;
}.

Record MapChanges := mkMapChanges {
  firstRev : Z;
  mc_changes : list mapChange;
  synced : list mapChange;
  selectors : SelectorSnapshot;
}.

(** The zero value of an entry. *)
Definition zero_entry : mapStateEntry := mkEntry (mkMapStateEntry 0 0 false 0) None None.

Definition append_changes (mc : MapChanges) (l : list mapChange) : MapChanges :=
  mkMapChanges (firstRev mc) (mc_changes mc ++ l) (synced mc) (selectors mc).

Definition AccumulateMapDeletesByID (mc : MapChanges) (tier basePriority : Z) (deletes : list Z) : MapChanges :=
  let tierMaxPrecedence := ToDenyPrecedence basePriority in
  append_changes mc
    ((λ id, mkChange false tier tierMaxPrecedence (mkKey (mkLPMKey 0 0 0) id) zero_entry) <$> deletes).

Definition AccumulateMapChanges (mc : MapChanges) (tier basePriority : Z) (adds deletes : list Z)
    (k : Key) (value : mapStateEntry) : MapChanges :=
  let tierMaxPrecedence := ToDenyPrecedence basePriority in
  append_changes mc
    (((λ nid, mkChange true tier tierMaxPrecedence (WithIdentity k nid) value) <$> adds) ++
     ((λ nid, mkChange false tier tierMaxPrecedence (WithIdentity k nid) value) <$> deletes)).

Definition SyncMapChanges (mc : MapChanges) (sel : SelectorSnapshot) : MapChanges :=
  match mc_changes mc with
  | [] => mkMapChanges (firstRev mc) [] (synced mc) (selectors mc)
  | l =>
      if After sel (firstRev mc)
      then mkMapChanges (firstRev mc) [] (synced mc ++ l) sel
      else mkMapChanges (firstRev mc) [] (synced mc) (selectors mc)
  end.

Definition detach (mc : MapChanges) : MapChanges :=
  mkMapChanges (firstRev mc) (mc_changes mc) (synced mc) (SelectorSnapshot_Invalidate (selectors mc)).

(** The comparison of [consumeMapChanges]: [int(a.Tier - b.Tier)], a difference of
    8-bit unsigned values. *)
Definition tier_cmp (a b : mapChange) : Z := uwrap 8 (Tier a - Tier b).

Context {TR : Trie LPMKey IDSet} {GR : GoRange} {GS : GoSort}.

Definition apply_change (features : Z) (s : mapState TR * ChangeState) (c : mapChange)
  : mapState TR * ChangeState :=
  if Add c then insertWithChanges s.1 (TierMaxPrecedence c) (mc_Key c) (mc_Value c) features s.2
  else
    match byId s.1 with
    | Some _ => deleteIdWithChanges s.1 (Identity (mc_Key c)) s.2
    | None => deleteKeyWithChanges s.1 (mc_Key c) s.2
    end.

Definition consumeMapChanges (mc : MapChanges) (ms : mapState TR) (features : Z)
  : MapChanges * (mapState TR * ChangeState) * SelectorSnapshot :=
  let changes := mkChangeState (Some ∅) (Some ∅) (Some ∅) in
  let sorted := SortFunc tier_cmp (synced mc) in
  let s := foldl (apply_change features) (ms, changes) sorted in
  let version := selectors mc in
  (mkMapChanges (firstRev mc) (mc_changes mc) [] (SelectorSnapshot_Invalidate version), s, version).
End queue.

Arguments MapChanges SM : clear implicits.
Arguments SelectorSnapshot SM : clear implicits.

(** ** Order of application *)

Lemma tier_cmp_nonneg a b : (tier_cmp a b <? 0) = false.
Proof. apply Z.ltb_ge. unfold tier_cmp. apply (uwrap_uint 8). lia. Qed.

Section proofs.
Context {SM : SelectionsMap} {TR : Trie LPMKey IDSet} {TL : TrieLaws LPMKey IDSet TR} {GR : GoRange} {GS : GoSort}.
Implicit Types (ms : mapState TR) (s : mapState TR * ChangeState) (mc : MapChanges SM).

Lemma queue_order cs : SortFunc tier_cmp cs = cs.
Proof. apply SortFunc_kept. intros a b _ _. apply tier_cmp_nonneg. Qed.

(** ** Batches *)

Inductive call :=
| CAccumulate (tier basePriority : Z) (adds deletes : list Z) (k : Key) (value : mapStateEntry)
| CAccumulateByID (tier basePriority : Z) (deletes : list Z)
| CSync (sel : SelectorSnapshot SM).

Definition apply_call mc (c : call) : MapChanges SM :=
  match c with
  | CAccumulate tier base adds deletes k value => AccumulateMapChanges mc tier base adds deletes k value
  | CAccumulateByID tier base deletes => AccumulateMapDeletesByID mc tier base deletes
  | CSync sel => SyncMapChanges mc sel
  end.

(** The changes a call contributes. *)
Definition contributes (c : call) : list mapChange :=
  match c with
  | CAccumulate tier base adds deletes k value =>
      ((λ nid, mkChange true tier (ToDenyPrecedence base) (WithIdentity k nid) value) <$> adds) ++
      ((λ nid, mkChange false tier (ToDenyPrecedence base) (WithIdentity k nid) value) <$> deletes)
  | CAccumulateByID tier base deletes =>
      (λ id, mkChange false tier (ToDenyPrecedence base) (mkKey (mkLPMKey 0 0 0) id) zero_entry) <$> deletes
  | CSync _ => []
  end.

(** A batch: the calls between two syncs, and the sync. *)
Definition batch : Type := list call * SelectorSnapshot SM.
Definition batch_calls (b : batch) : list call := b.1 ++ [CSync b.2].
Definition is_accumulate (c : call) : Prop := match c with CSync _ => False | _ => True end.
Definition batch_changes (rev : Z) (b : batch) : list mapChange :=
  if After b.2 rev then b.1 ≫= contributes else [].

Lemma accumulate_calls cs mc : Forall is_accumulate cs →
  foldl apply_call mc cs =
  mkMapChanges (firstRev mc) (mc_changes mc ++ (cs ≫= contributes)) (synced mc) (selectors mc).
Proof.
  intros H. revert mc. induction H as [|c cs Hc H IH]; intros mc.
  { simpl. rewrite app_nil_r. by destruct mc. }
  rewrite bind_cons. cbn [foldl]. rewrite IH.
  destruct c; try done; simpl; by rewrite <- app_assoc.
Qed.

Lemma batch_synced b mc : Forall is_accumulate b.1 → mc_changes mc = [] →
  let mc' := foldl apply_call mc (batch_calls b) in
  firstRev mc' = firstRev mc ∧ mc_changes mc' = [] ∧
  synced mc' = synced mc ++ batch_changes (firstRev mc) b.
Proof.
  intros H H0 mc'. subst mc'. unfold batch_calls. rewrite foldl_app, (accumulate_calls b.1 mc H).
  unfold batch_changes. rewrite H0. simpl. unfold SyncMapChanges. simpl.
  destruct (b.1 ≫= contributes) as [|c l]; simpl.
  - destruct (After _ _); by rewrite app_nil_r.
  - destruct (After _ _); simpl; by rewrite ?app_nil_r.
Qed.

Lemma batches_synced bs mc : Forall (λ b : batch, Forall is_accumulate b.1) bs → mc_changes mc = [] →
  let mc' := foldl apply_call mc (bs ≫= batch_calls) in
  firstRev mc' = firstRev mc ∧ mc_changes mc' = [] ∧
  synced mc' = synced mc ++ (bs ≫= batch_changes (firstRev mc)).
Proof.
  intros H. revert mc. induction H as [|b bs Hb H IH]; intros mc H0 mc'; subst mc'.
  { simpl. by rewrite app_nil_r. }
  rewrite bind_cons, foldl_app. destruct (batch_synced b mc Hb H0) as (E1 & E2 & E3).
  destruct (IH _ E2) as (F1 & F2 & F3). split_and!; [by rewrite F1|done|].
  by rewrite F3, E3, E1, bind_cons, app_assoc.
Qed.

(** ** The index of identities *)

Lemma ms_delete_byId ms k : is_Some (byId (ms_delete ms k)) ↔ is_Some (byId ms).
Proof.
  unfold ms_delete. destruct (ms_entries ms !! k); [|done]. simpl. apply fmap_is_Some.
Qed.

Lemma delete_keys_byId ks s : is_Some (byId (delete_keys s ks).1) ↔ is_Some (byId s.1).
Proof.
  revert s. induction ks as [|k ks IH]; intros s; [done|].
  change (delete_keys s (k :: ks)) with (delete_keys (deleteKeyWithChanges s.1 k s.2) ks).
  rewrite IH, deleteKey_state.
  apply ms_delete_byId.
Qed.

(** Rounds of consumption, each with its own queue and change record. *)
Definition consume_rounds (features : Z) ms (mcs : list (MapChanges SM)) : mapState TR :=
  foldl (λ ms mc, (consumeMapChanges mc ms features).1.2.1) ms mcs.

(** ** Results *)

(** Consumption applies the changes of exactly the batches synced with a revision
    after the first one, in the order they were accumulated, empties the synced
    queue, hands over the snapshot and invalidates its own copy, and leaves what was
    accumulated since the last sync for later. *)
Theorem consume_applies_batches mc bs tail ms features :
  Forall (λ b : batch, Forall is_accumulate b.1) bs → Forall is_accumulate tail →
  mc_changes mc = [] → synced mc = [] →
  let mc1 := foldl apply_call mc ((bs ≫= batch_calls) ++ tail) in
  let '(mc2, s, version) := consumeMapChanges mc1 ms features in
  s = foldl (apply_change features) (ms, mkChangeState (Some ∅) (Some ∅) (Some ∅))
        (bs ≫= batch_changes (firstRev mc)) ∧
  synced mc2 = [] ∧ mc_changes mc2 = (tail ≫= contributes) ∧
  version = selectors mc1 ∧ SelectorSnapshot_IsValid (selectors mc2) = false.
Proof.
  intros Hb Ht H0 H1 mc1.
  destruct (batches_synced bs mc Hb H0) as (E1 & E2 & E3). rewrite H1 in E3. simpl in E3.
  assert (Emc : mc1 = mkMapChanges (firstRev mc) (tail ≫= contributes) (bs ≫= batch_changes (firstRev mc))
    (selectors (foldl apply_call mc (bs ≫= batch_calls)))).
  { subst mc1. rewrite foldl_app, (accumulate_calls tail _ Ht), E1, E2, E3. done. }
  clearbody mc1. subst mc1. unfold consumeMapChanges. simpl. by rewrite queue_order.
Qed.
End proofs.

(** ** Runs *)

Definition demo_selections : SelectionsMap := {| selections_t := unit; no_selections := tt |}.
Definition demo_snapshot (rev : Z) : SelectorSnapshot demo_selections := @mkSnapshot demo_selections rev tt true.
Definition demo_queue : MapChanges demo_selections := @mkMapChanges demo_selections 3 [] [] (demo_snapshot 3).

(** The rules of [MapStatePolicy.demo_rules] in one round, the removal of the
    identity in the next. *)
Definition demo_round1 : MapChanges demo_selections :=
  @mkMapChanges demo_selections 3 []
    ((λ r, mkChange true 0 MaxPrecedence r.1 r.2) <$> demo_rules) (demo_snapshot 4).
Definition demo_round2 : MapChanges demo_selections :=
  @mkMapChanges demo_selections 3 [] [mkChange false 0 MaxPrecedence demo_web zero_entry] (demo_snapshot 5).

(** Two identities selected at revision 4, another accumulated but not yet synced, and
    a batch of the first revision, which is discarded. *)
Definition demo_accumulate (adds : list Z) : call (SM:=demo_selections) :=
  CAccumulate 0 0 adds [] (WithTCPPort IngressKey 80) (demo_verdict 10 Allow).

Lemma consume_applies_batches_witness :
  let bs := [([demo_accumulate [100005]], demo_snapshot 3); ([demo_accumulate [100000; 100001]], demo_snapshot 4)] in
  let mc := foldl apply_call demo_queue ((bs ≫= batch_calls) ++ [demo_accumulate [100002]]) in
  let '(mc2, s, version) := consumeMapChanges (SM:=demo_selections) (TR:=bitlpm) (GR:=range_elements)
    (GS:=sort_by_insertion) mc (newMapState ∅ precedenceFeatures demo_cluster) precedenceFeatures in
  mapState_Len s.1 = 2%nat ∧ length (mc_changes mc2) = 1%nat ∧ synced mc2 = [] ∧ version = selectors mc.
Proof.
  cbn zeta.
  pose proof (consume_applies_batches (SM:=demo_selections) (TR:=bitlpm) (GR:=range_elements)
    (GS:=sort_by_insertion) demo_queue
    [([demo_accumulate [100005]], demo_snapshot 3); ([demo_accumulate [100000; 100001]], demo_snapshot 4)]
    [demo_accumulate [100002]] (newMapState ∅ precedenceFeatures demo_cluster) precedenceFeatures) as H.
  specialize (H ltac:(repeat constructor) ltac:(repeat constructor) eq_refl eq_refl).
  cbn zeta in H. destruct (consumeMapChanges _ _ _) as [[mc2 s] version]. destruct H as (-> & H1 & -> & H3 & _).
  split; [vm_compute; reflexivity|]. split; [reflexivity|]. by split.
Defined.

(** An identity selected by a pass of the first tier and by an allow of the second,
    where the first tier denies its cluster at a lower precedence than the pass. *)
Definition demo_tiers : mapState bitlpm :=
  (reach (TR:=bitlpm) (GR:=range_elements) ∅ allFeatures demo_cluster
    [OpInsert (ToDenyPrecedence 0) (WithIdentity IngressKey ReservedIdentityAggregateCluster)
       (newMapStateEntry 900 0 1000 NilRuleOrigin 0 0 Deny) allFeatures]).1.
Definition demo_tier0 : mapChange :=
  mkChange true 0 (ToDenyPrecedence 0) demo_all (PassEntry 10 0 1000 NilRuleOrigin).
Definition demo_tier1 : mapChange :=
  mkChange true 1 (ToDenyPrecedence 1000) demo_all (newMapStateEntry 1050 1000 2000 NilRuleOrigin 0 0 Allow).
Definition demo_consume (cs : list mapChange) : mapState bitlpm :=
  (consumeMapChanges (SM:=demo_selections) (TR:=bitlpm) (GR:=range_elements) (GS:=sort_by_insertion)
     (@mkMapChanges demo_selections 3 [] cs (demo_snapshot 4)) demo_tiers allFeatures).1.2.1.

(** The sort of [consumeMapChanges] does not bring higher tiers first: its
    comparison, a difference of unsigned tiers, is never negative, so the queue keeps
    its order, and with it the verdict depends on the order of accumulation.  The
    traffic that the pass and the allow of the next tier let through is denied when
    the allow was accumulated before the pass. *)
Theorem tier_order_lost :
  (∀ (GS : GoSort) cs, SortFunc tier_cmp cs = cs) ∧
  MapStateEntry_IsDeny (lookup (demo_consume [demo_tier0; demo_tier1]) demo_all).1 = false ∧
  MapStateEntry_IsDeny (lookup (demo_consume [demo_tier1; demo_tier0]) demo_all).1 = true.
Proof.
  split; [intros GS cs; apply queue_order|]. split; vm_compute; reflexivity.
Qed.
