(* ===== verification/MapChangesPolicy.v ===== *)
(** * What incremental updates enforce

    A queue of [MapChanges] is consumed in an arbitrary order.  When the changes of a
    round add rules of identities that stay and remove identities together with all
    their keys, the map state holds the policy of the rules that remain and of those
    that were added. *)

From S2P Require Import Prelude Precedence BitLPM PolicyKey Identity RuleOrigin PassMeta.
From S2P Require Import PortRange MapState MapStateIndex MapStateOps MapStateChanges MapStatePolicy MapChanges.

Local Open Scope Z_scope.

Local Notation rule := (Key * mapStateEntry)%type.

Section changes.
Context {TR : Trie LPMKey IDSet} {TL : TrieLaws LPMKey IDSet TR} {GR : GoRange}.
Implicit Types (ms : mapState TR) (s : mapState TR * ChangeState) (k key : Key) (e v : mapStateEntry) (c : mapChange).

(** ** The index of identities *)

Lemma upsert_byId ms k v : is_Some (byId (upsert ms k v)) ↔ is_Some (byId ms).
Proof. unfold upsert. destruct (ms_entries ms !! k); [done|]. simpl. apply fmap_is_Some. Qed.

Lemma addKey_byId ms k e ch : is_Some (byId (addKeyWithChanges ms k e ch).1.1) ↔ is_Some (byId ms).
Proof.
  unfold addKeyWithChanges, ms_get, ms_insert. destruct (ms_entries ms !! k); [|apply upsert_byId].
  destruct (mapStateEntry_Equal _ _); [done|]. destruct (MergeClone _ _). by repeat case_match.
Qed.

Lemma delete_loop_byId l (cond : Key → mapStateEntry → bool) s :
  is_Some (byId (for_keys l (λ k v s, if cond k v then deleteExistingWithChanges s.1 k v s.2 else s) s).1) ↔
  is_Some (byId s.1).
Proof.
  revert s. induction l as [|k l IH]; intros s; [done|]. rewrite for_keys_cons, IH.
  destruct (ms_entries s.1 !! k) as [v|]; [|done]. destruct (cond k v); [|done].
  by rewrite deleteExisting_state, ms_delete_byId.
Qed.

Lemma finish_byId ms k e ch : is_Some (byId (finish ms k e ch).1) ↔ is_Some (byId ms).
Proof.
  unfold finish. rewrite addKey_byId. unfold pruneAggregated.
  destruct (negb _); [done|]. destruct (trie_ExactLookup _ _ _); [|done].
  apply (delete_loop_byId _ (λ _ v, equivalent v e)).
Qed.

Lemma insert_byId ms tier k e features ch : contains features passRules = false →
  is_Some (byId (insertWithChanges ms tier k e features ch).1) ↔ is_Some (byId ms).
Proof.
  intros Hf. unfold insertWithChanges. rewrite Hf. destruct (aggregateIsEquivalent _ _ _); [done|].
  destruct (MapStateEntry_IsDeny e); [destruct (covered_by _ _ _); [done|]|
    destruct (contains features precedenceFeatures); [destruct (covered_by _ _ _); [done|]|]].
  - etrans; [apply finish_byId|]. apply delete_loop_byId.
  - etrans; [apply finish_byId|]. apply (delete_loop_byId _ (λ _ v, Precedence v <? Precedence e)).
  - apply finish_byId.
Qed.

(** ** Insertion adds its key only *)

Lemma addKey_others ms k e ch k' : k' ≠ k →
  ms_entries (addKeyWithChanges ms k e ch).1.1 !! k' = ms_entries ms !! k'.
Proof.
  intros Hn. unfold addKeyWithChanges, ms_get. destruct (ms_entries ms !! k) as [o|] eqn:E; simpl.
  - destruct (mapStateEntry_Equal e o); [done|]. destruct (MergeClone _ _) as [merged upd].
    repeat case_match; simpl; try done; by rewrite lookup_insert_ne.
  - unfold ms_insert. rewrite upsert_entries. by apply lookup_insert_ne.
Qed.

Lemma finish_present ms k e ch k' : ms_inv ms → wf_key k → present (finish ms k e ch).1 k' → k' = k ∨ present ms k'.
Proof.
  intros I W [v Hv]. destruct (decide (k' = k)) as [|Hn]; [by left|right].
  unfold finish in Hv. rewrite addKey_others in Hv by done.
  apply (removes_present _ _ _ _ (pruneAggregated_removes ms k e ch I W)). by exists v.
Qed.

Lemma insert_present ms tier k e features ch k' : contains features passRules = false → ms_inv ms → wf_key k →
  present (insertWithChanges ms tier k e features ch).1 k' → k' = k ∨ present ms k'.
Proof.
  intros Hf I W. unfold insertWithChanges. rewrite Hf. destruct (aggregateIsEquivalent _ _ _); [by right|].
  assert (HC : ∀ cond : Key → mapStateEntry → bool, present (finish (delete_covered ms k cond ch).1 k e
    (delete_covered ms k cond ch).2).1 k' → k' = k ∨ present ms k').
  { intros cond Hp. pose proof (delete_covered_removes ms k cond ch I W) as HR.
    destruct (finish_present _ _ _ _ _ (rem_inv _ _ _ HR) W Hp) as [|Hp']; [by left|right].
    by apply (removes_present _ _ _ _ HR). }
  destruct (MapStateEntry_IsDeny e); [destruct (covered_by _ _ _); [by right|apply HC]|].
  destruct (contains features precedenceFeatures); [destruct (covered_by _ _ _); [by right|apply HC]|].
  by apply finish_present.
Qed.

(** ** One change *)

(** The keys a removal takes away: those of the identity when there is an index of
    identities, its own otherwise. *)
Definition indexed ms : bool := bool_decide (is_Some (byId ms)).
Definition kills ms c k : Prop :=
  Add c = false ∧ if indexed ms then Identity k = Identity (mc_Key c) else k = mc_Key c.

Lemma apply_delete_removes features s c : Add c = false → ms_inv s.1 →
  removes (λ k _, kills s.1 c k) s.1 (apply_change features s c).1.
Proof.
  intros Ha I. unfold apply_change, kills, indexed. rewrite Ha. destruct (byId s.1) as [m|] eqn:Em; cbn.
  - rewrite (deleteId_keys _ _ _ m Em). set (ks := _ <$> _).
    eapply removes_iff; [|apply (delete_keys_removes ks (s.1, s.2) I)].
    intros k v Ek. cbn beta. subst ks. rewrite list_elem_of_fmap. split; [by intros (l & -> & _)|].
    intros [_ Hk]. exists (Key_LPMKey k). split; [by rewrite <- Hk, Key_eta|]. rewrite range_perm, elem_of_elements, <- Hk.
    destruct (proj1 (inv_byId _ I m Em (Key_LPMKey k) (Identity k))) as (ls & -> & ?); [|done].
    rewrite Key_eta. by exists v.
  - eapply removes_iff; [|apply (delete_keys_removes [mc_Key c] s I)].
    intros k v _. cbn beta. rewrite list_elem_of_singleton. naive_solver.
Qed.

Lemma apply_change_byId features s c : contains features passRules = false →
  is_Some (byId (apply_change features s c).1) ↔ is_Some (byId s.1).
Proof.
  intros Hf. unfold apply_change. destruct (Add c); [by apply insert_byId|]. destruct (byId s.1) as [m|] eqn:Em.
  - rewrite (deleteId_keys _ _ _ m Em), delete_keys_byId. cbn [fst]. by rewrite Em.
  - by rewrite deleteKey_state, ms_delete_byId, Em.
Qed.

Lemma apply_change_indexed features s c : contains features passRules = false →
  indexed (apply_change features s c).1 = indexed s.1.
Proof. intros Hf. unfold indexed. apply bool_decide_ext. by apply apply_change_byId. Qed.

Lemma apply_change_ok cinfo features s c : st_inv cinfo wf_key wf_key s → (Add c = true → wf_key (mc_Key c)) →
  st_inv cinfo wf_key wf_key (apply_change features s c).
Proof.
  intros S W. unfold apply_change. destruct (Add c); [destruct s; by apply insertWithChanges_ok; auto|].
  destruct (byId s.1); [by apply deleteId_st|by apply deleteKey_st].
Qed.

(** ** Scopes *)

Lemma policy_same D ms (R R' : list rule) : (∀ r, r ∈ R' ↔ r ∈ R) → policy_inv D ms R → policy_inv D ms R'.
Proof.
  intros HR [I P1 P2 P3 P4 P5]. constructor; try done.
  - intros k v Dk E. destruct (P2 k v Dk E) as (r & Hr & ?). exists r. by rewrite HR.
  - intros r Hr. apply P3. by apply HR.
  - intros r Hr. apply P5. by apply HR.
Qed.

(** The entries of a scope carry the policy of the scope. *)
Lemma policy_keep D ms ms' (R : list rule) : closed D → policy_inv D ms R → ms_inv ms' → clusterInfo ms' = clusterInfo ms →
  (∀ k, D k → ms_entries ms' !! k = ms_entries ms !! k) → policy_inv D ms' R.
Proof.
  intros HD [I P1 P2 P3 P4 P5] I' EC HE. constructor; try done.
  - intros k v Dk. rewrite HE by done. by apply P1.
  - intros k v Dk. rewrite HE by done. by apply P2.
  - intros r Hr. destruct (P3 r Hr) as (k & v & E & Hc & Hle). exists k, v. rewrite HE, EC; [done|].
    eapply HD; [exact Hc|]. by apply P5.
  - intros k v k' v' Dk E E' Hc. rewrite EC in Hc. rewrite HE in E, E' by (done || by eapply HD).
    by apply (P4 k v k' v').
Qed.
End changes.

(** ** A batch *)

Section batch.
Context {TR : Trie LPMKey IDSet} {TL : TrieLaws LPMKey IDSet TR} {GR : GoRange}.
Implicit Types (ms : mapState TR) (s : mapState TR * ChangeState) (k : Key) (c : mapChange).
Context (cinfo : ClusterInfo) (features : Z) (Hpass : contains features passRules = false).

(** The rules in the scope [B] are followed; removed identities are no aggregates. *)
Context (B : Key → Prop) (HB : closed B) (Bdec : ∀ k, Decision (B k)).
Context (Del : gset Z) (HDel : ∀ id, id ∈ Del → id ∉ AllAggregates).

(** Additions out of scope leave the scope alone. *)
Context (Hframe : ∀ s c, st_inv cinfo wf_key wf_key s → Add c = true → wf_key (mc_Key c) → ¬ B (mc_Key c) →
  ∀ k, B k → ms_entries (apply_change features s c).1 !! k = ms_entries s.1 !! k).

Notation state_ok := (st_inv (TR:=TR) cinfo wf_key wf_key).

Definition live k : Prop := B k ∧ Identity k ∉ Del.

Lemma live_closed : closed live.
Proof.
  intros ci k k' Hc [Bk Hn]. split; [by eapply HB|]. destruct Hc as [_ [-> |E]]; [done|].
  intros Hd. apply (HDel _ Hd). rewrite E. apply aggregateFor_in.
Qed.

Definition change_ok c : Prop :=
  if Add c then wf_key (mc_Key c) ∧ (B (mc_Key c) → rule_ok (mc_Key c, mc_Value c) ∧ Identity (mc_Key c) ∉ Del)
  else Identity (mc_Key c) ∈ Del.

Definition adds_rule c (r : rule) : Prop := Add c = true ∧ B (mc_Key c) ∧ r = (mc_Key c, mc_Value c).

Lemma change_ok_state s c : change_ok c → state_ok s → state_ok (apply_change features s c).
Proof. unfold change_ok. intros Hc S. apply apply_change_ok; [done|]. intros Ha. rewrite Ha in Hc. by destruct Hc. Qed.

(** Among the rules of [T], either precedences are compared or all are the same. *)
Context (T : list rule) (Hsame : contains features precedenceFeatures = true ∨
  ∀ r r' : rule, r ∈ T → r' ∈ T → Precedence r.2 = Precedence r'.2).

Lemma change_live s c (R : list rule) : state_ok s → change_ok c → policy_inv live s.1 R → (∀ r, r ∈ R → r ∈ T) →
  (∀ r, adds_rule c r → r ∈ T) →
  ∃ R', (∀ r, r ∈ R' ↔ r ∈ R ∨ adds_rule c r) ∧ policy_inv live (apply_change features s c).1 R'.
Proof.
  intros S Hc Pol HT HTc. pose proof (change_ok_state s c Hc S) as S'. unfold change_ok in Hc.
  assert (HK : (∀ r, ¬ adds_rule c r) → (∀ k, live k → ms_entries (apply_change features s c).1 !! k = ms_entries s.1 !! k) →
    ∃ R', (∀ r, r ∈ R' ↔ r ∈ R ∨ adds_rule c r) ∧ policy_inv live (apply_change features s c).1 R').
  { intros HN HE. exists R. split; [naive_solver|].
    apply (policy_keep live s.1); [apply live_closed|done|apply S'|by rewrite (st_cinfo _ _ _ _ S'), (st_cinfo _ _ _ _ S)|done]. }
  destruct (Add c) eqn:Ha; [destruct (Bdec (mc_Key c)) as [Bk|Bk]|].
  - destruct Hc as [Wk Hr]. destruct (Hr Bk) as [Hok Hid]. exists ((mc_Key c, mc_Value c) :: R). split.
    { intros r. rewrite elem_of_cons. unfold adds_rule. naive_solver. }
    unfold apply_change. rewrite Ha. apply (insert_policy live live_closed); try done.
    destruct Hsame as [|HS]; [by left|right]. intros r Hin. apply (HS r (mc_Key c, mc_Value c)); [auto|].
    apply HTc. by split_and!.
  - apply HK; [by intros r (_ & ? & _)|]. intros k [Hk _]. apply Hframe; try done. by destruct Hc.
  - apply HK; [intros r (? & _); congruence|]. intros k [_ Hk].
    destruct (apply_delete_removes features s c Ha (st_ms _ _ _ _ S)) as [_ _ HL HX].
    destruct (ms_entries s.1 !! k) as [v|] eqn:E.
    + destruct (HX k v E) as [|[_ Hkill]]; [done|]. destruct Hk. destruct (indexed s.1); [by rewrite Hkill|by subst k].
    + destruct (ms_entries (apply_change features s c).1 !! k) as [v|] eqn:E'; [|done]. apply HL in E' as [? _]. congruence.
Qed.

Lemma batch_live cs : Forall change_ok cs → ∀ s (R : list rule), state_ok s → policy_inv live s.1 R →
  (∀ r, r ∈ R → r ∈ T) → (∀ c r, c ∈ cs → adds_rule c r → r ∈ T) →
  let s' := foldl (apply_change features) s cs in state_ok s' ∧
  ∃ R', (∀ r, r ∈ R' ↔ r ∈ R ∨ ∃ c, c ∈ cs ∧ adds_rule c r) ∧ policy_inv live s'.1 R'.
Proof.
  induction 1 as [|c cs Hc H IH]; intros s R S Pol HT HTc; cbn [foldl].
  { split; [done|]. exists R. split; [|done]. intros r. split; [by left|]. intros [?|(c & ?%elem_of_nil & _)]; done. }
  destruct (change_live s c R S Hc Pol HT) as (R1 & E1 & P1); [intros r; apply HTc; by left|].
  destruct (IH (apply_change features s c) R1) as (S' & R' & E' & P'); [by apply change_ok_state|done| |
    intros c' r Hc'; apply HTc; by right|].
  { intros r [?|Hr]%E1; [auto|]. apply (HTc c); [by left|done]. }
  split; [done|]. exists R'. split; [|done]. intros r. rewrite E', E1. setoid_rewrite elem_of_cons. naive_solver.
Qed.

(** The keys of removed identities that remain were there before, and nothing removed them. *)
Lemma change_dead s c k : state_ok s → change_ok c → B k → Identity k ∈ Del →
  present (apply_change features s c).1 k → present s.1 k ∧ ¬ kills s.1 c k.
Proof.
  intros S Hc Bk Hk Hp. unfold change_ok in Hc. destruct (Add c) eqn:Ha.
  - destruct Hc as [Wk Hr]. split; [|intros [? _]; congruence].
    destruct (Bdec (mc_Key c)) as [Bc|Bc]; [|destruct Hp as [v Hv]; rewrite Hframe in Hv by done; by exists v].
    unfold apply_change in Hp. rewrite Ha in Hp.
    destruct (insert_present _ _ _ _ _ _ _ Hpass (st_ms _ _ _ _ S) Wk Hp) as [-> |]; [|done].
    by destruct (Hr Bc).
  - destruct Hp as [v Hv].
    apply (rem_left _ _ _ (apply_delete_removes features s c Ha (st_ms _ _ _ _ S))) in Hv as [Hv ?].
    split; [by exists v|done].
Qed.

Lemma batch_dead cs k : Forall change_ok cs → B k → Identity k ∈ Del → ∀ s, state_ok s →
  present (foldl (apply_change features) s cs).1 k → present s.1 k ∧ ∀ c, c ∈ cs → ¬ kills s.1 c k.
Proof.
  intros H Bk Hk. induction H as [|c cs Hc H IH]; intros s S Hp; cbn [foldl] in Hp.
  { split; [done|]. by intros c ?%elem_of_nil. }
  apply IH in Hp as [Hp HN]; [|by apply change_ok_state]. apply change_dead in Hp as [Hp Hn]; try done.
  split; [done|]. intros c' [-> |Hc']%elem_of_cons; [done|]. specialize (HN c' Hc').
  unfold kills in *. by rewrite apply_change_indexed in HN.
Qed.

Lemma policy_weaken ms (R : list rule) : policy_inv B ms R →
  policy_inv live ms (filter (λ r : rule, Identity r.1 ∉ Del) R).
Proof.
  intros [I P1 P2 P3 P4 P5]. constructor; try done.
  - intros k v [Bk _]. by apply P1.
  - intros k v [Bk Hk] E. destruct (P2 k v Bk E) as (r & Hr & Er & Hp). exists r. split; [|done].
    apply list_elem_of_filter. split; [by rewrite Er|done].
  - intros r [_ Hr]%list_elem_of_filter. by apply P3.
  - intros k v k' v' [Bk _]. by apply P4.
  - intros r [Hn Hr]%list_elem_of_filter. destruct (P5 r Hr). split; [done|by split].
Qed.

Lemma policy_strengthen ms (R : list rule) : policy_inv live ms R →
  (∀ k, B k → Identity k ∈ Del → ¬ present ms k) → policy_inv B ms R.
Proof.
  intros [I P1 P2 P3 P4 P5] HN.
  assert (HL : ∀ k v, B k → ms_entries ms !! k = Some v → live k).
  { intros k v Bk E. split; [done|]. intros Hd. apply (HN k Bk Hd). by exists v. }
  constructor; try done.
  - intros k v Bk E. by apply (P1 k); [eapply HL|].
  - intros k v Bk E. by apply P2; [eapply HL|].
  - intros k v k' v' Bk E E'. apply P4; [by eapply HL|done..].
  - intros r Hr. destruct (P5 r Hr) as [? [? _]]. done.
Qed.

(** A batch that removes all keys of the removed identities. *)
Lemma batch_policy cs s (R R' : list rule) : Forall change_ok cs → state_ok s → policy_inv B s.1 R →
  (∀ r, r ∈ R → r ∈ T) → (∀ c r, c ∈ cs → adds_rule c r → r ∈ T) →
  (∀ r, r ∈ R → Identity r.1 ∈ Del → ∃ c, c ∈ cs ∧ kills s.1 c r.1) →
  (∀ r, r ∈ R' ↔ (r ∈ R ∧ Identity r.1 ∉ Del) ∨ ∃ c, c ∈ cs ∧ adds_rule c r) →
  let s' := foldl (apply_change features) s cs in state_ok s' ∧ policy_inv B s'.1 R' ∧ indexed s'.1 = indexed s.1.
Proof.
  intros Hcs S Pol HT HTc Hkill HR'. cbv zeta.
  destruct (batch_live cs Hcs s _ S (policy_weaken _ _ Pol)) as (S' & R1 & E1 & P1); [|done|].
  { intros r [_ Hr]%list_elem_of_filter. auto. }
  split; [done|]. split.
  - apply (policy_same _ _ R1); [intros r; rewrite HR', E1, list_elem_of_filter; tauto|].
    apply policy_strengthen; [done|]. intros k Bk Hk Hp. destruct (batch_dead cs k Hcs Bk Hk s S Hp) as [[v Hv] HN].
    destruct (pol_sound _ _ _ Pol k v Bk Hv) as (r & Hr & <- & _). destruct (Hkill r Hr Hk) as (c & Hc & ?). by apply (HN c).
  - clear -Hpass. revert s. induction cs as [|c cs IH]; intros s; [done|]. cbn [foldl]. by rewrite IH, apply_change_indexed.
Qed.
End batch.

(** ** Rounds *)

Section rounds.
Context {SM : SelectionsMap} {TR : Trie LPMKey IDSet} {TL : TrieLaws LPMKey IDSet TR} {GR : GoRange} {GS : GoSort}.
Implicit Types (ms : mapState TR) (s : mapState TR * ChangeState) (mc : MapChanges SM) (cs : list mapChange).

(** The identities a queue removes, and the rules in force after it. *)
Definition removed cs : gset Z := list_to_set ((λ c, Identity (mc_Key c)) <$> filter (λ c, Add c = false) cs).

Definition added cs : list rule := (λ c, (mc_Key c, mc_Value c)) <$> filter (λ c, Add c = true) cs.

Definition round_rules (R : list rule) cs : list rule := added cs ++ filter (λ r : rule, Identity r.1 ∉ removed cs) R.

(** What the accumulation ensures: rules without pass verdicts are added, for identities that are
    not removed; identities are removed with the keys of all their rules, one of which is enough
    when there is an index of identities; without the precedence features the rules have one
    precedence. *)
Record round_ok (features : Z) (R : list rule) cs : Prop := {
  ro_add c : c ∈ cs → Add c = true → rule_ok (mc_Key c, mc_Value c) ∧ Identity (mc_Key c) ∉ removed cs;
  ro_del c : c ∈ cs → Add c = false → Identity (mc_Key c) ∉ AllAggregates;
  ro_all r : r ∈ R → Identity r.1 ∈ removed cs →
    contains features (Z.lor passRules namedPortRules) = true ∨ ∃ c, c ∈ cs ∧ Add c = false ∧ mc_Key c = r.1;
  ro_same : contains features precedenceFeatures = true ∨
    ∀ r r' : rule, r ∈ R ++ added cs → r' ∈ R ++ added cs → Precedence r.2 = Precedence r'.2;
}.

Lemma elem_of_removed cs id : id ∈ removed cs ↔ ∃ c, c ∈ cs ∧ Add c = false ∧ Identity (mc_Key c) = id.
Proof.
  unfold removed. rewrite elem_of_list_to_set, list_elem_of_fmap. setoid_rewrite list_elem_of_filter. naive_solver.
Qed.

Lemma elem_of_added cs (r : rule) : r ∈ added cs ↔ ∃ c, c ∈ cs ∧ Add c = true ∧ r = (mc_Key c, mc_Value c).
Proof. unfold added. rewrite list_elem_of_fmap. setoid_rewrite list_elem_of_filter. naive_solver. Qed.

Lemma consume_policy features mc ms (R : list rule) :
  contains features passRules = false → policy_inv every ms R → round_ok features R (synced mc) →
  indexed ms = contains features (Z.lor passRules namedPortRules) →
  let ms' := (consumeMapChanges mc ms features).1.2.1 in
  policy_inv every ms' (round_rules R (synced mc)) ∧ clusterInfo ms' = clusterInfo ms ∧ indexed ms' = indexed ms.
Proof.
  intros Hf Pol [RA RD RK RS] Hix. cbn. set (cs := synced mc) in *. set (ch := mkChangeState _ _ _).
  assert (HP : ∀ c, c ∈ SortFunc tier_cmp cs ↔ c ∈ cs) by (intros c; by rewrite SortFunc_perm).
  assert (S : st_inv (clusterInfo ms) wf_key wf_key (ms, ch)).
  { constructor; [apply Pol|done|apply Pol|]. cbn. intros k o [= <-]. rewrite lookup_empty. by intros []. }
  destruct (batch_policy (clusterInfo ms) features Hf every every_closed ltac:(intros; by left) (removed cs)
    ltac:(intros id (c & Hc & Ha & <-)%elem_of_removed; by apply RD) ltac:(intros ? ? _ _ _ []; done)
    (R ++ added cs) RS (SortFunc tier_cmp cs) (ms, ch) R (round_rules R cs)) as (S' & P' & I'); try done.
  - apply Forall_forall. intros c Hc%HP. unfold change_ok. destruct (Add c) eqn:Ha.
    + destruct (RA c Hc Ha) as [Hr Hn]. split; [apply Hr|done].
    + apply elem_of_removed. by exists c.
  - intros r Hr. apply elem_of_app. by left.
  - intros c r Hc%HP (Ha & _ & ->). apply elem_of_app. right. apply elem_of_added. by exists c.
  - intros r Hr Hd. unfold kills. cbn [fst]. rewrite Hix. destruct (RK r Hr Hd) as [-> |(c & Hc & Ha & Ek)].
    + apply elem_of_removed in Hd as (c & Hc & Ha & <-). exists c. by rewrite HP.
    + exists c. rewrite HP. split; [done|]. split; [done|]. rewrite Ek. by case_match.
  - intros r. unfold round_rules. rewrite elem_of_app, list_elem_of_filter, elem_of_added.
    setoid_rewrite HP. clear. unfold adds_rule. split.
    + intros [(c & Hc & Ha & Er)|[? ?]]; [right; by exists c|by left].
    + intros [[? ?]|(c & Hc & Ha & _ & Er)]; [by right|left; by exists c].
  - split; [done|]. split; [apply S'|done].
Qed.

Fixpoint rounds_ok (features : Z) (R : list rule) (css : list (list mapChange)) : Prop :=
  match css with
  | [] => True
  | cs :: css => round_ok features R cs ∧ rounds_ok features (round_rules R cs) css
  end.

Lemma rounds_policy features mcs : contains features passRules = false → ∀ ms (R : list rule),
  policy_inv every ms R → indexed ms = contains features (Z.lor passRules namedPortRules) →
  rounds_ok features R (synced <$> mcs) →
  policy_inv every (consume_rounds features ms mcs) (foldl round_rules R (synced <$> mcs)) ∧
  clusterInfo (consume_rounds features ms mcs) = clusterInfo ms.
Proof.
  intros Hf. induction mcs as [|mc mcs IH]; intros ms R Pol Hix Hr; [done|]. destruct Hr as [Hr Hrs].
  destruct (consume_policy features mc ms R Hf Pol Hr Hix) as (P' & C' & I').
  destruct (IH _ _ P' ltac:(by rewrite I') Hrs) as [P2 C2]. split; [exact P2|]. etrans; [exact C2|done].
Qed.

(** C18. Incremental updates implement the policy: after any number of rounds, each with a queue of
    any length whose changes add rules and remove identities, whatever order the sort puts them in,
    the lookup of a well-formed key returns the verdict of highest precedence among the rules in force
    that cover the key, and reports no match when there is none.  There are no pass rules (nor the
    feature for them), the rules have well-formed keys, and without the precedence features all rules
    of a round and those in force before it have one precedence.  A round adds no rule of an identity
    that it removes, removes no aggregates, and removes an identity with the keys of all its rules
    unless the map state has an index of identities. *)
Theorem incremental_policy ids features cinfo mcs key :
  contains features passRules = false → rounds_ok features [] (synced <$> mcs) → wf_key key →
  decides cinfo (foldl round_rules [] (synced <$> mcs)) key
    (lookup (consume_rounds features (newMapState ids features cinfo) mcs) key).
Proof.
  intros Hf Hr W.
  destruct (rounds_policy features mcs Hf (newMapState ids features cinfo) []) as [Pol EC]; [apply new_policy| |done|].
  { unfold indexed, newMapState. cbn [byId]. by destruct (contains features (Z.lor passRules namedPortRules)). }
  pose proof (lookup_decides every _ _ key ltac:(done) Pol W) as H. by rewrite EC in H.
Qed.
End rounds.

(** ** A run *)

Lemma demo_rounds_ok : rounds_ok precedenceFeatures [] (synced <$> [demo_round1; demo_round2]).
Proof.
  pose proof demo_rules_ok as HR. rewrite Forall_forall in HR.
  assert (HA : added (synced demo_round1) = demo_rules) by reflexivity.
  split; [constructor|split; [constructor|done]]; try (by left).
  - intros c (r & -> & Hr)%list_elem_of_fmap _. cbn [mc_Key mc_Value]. split; [destruct r; by apply HR|].
    change (removed (synced demo_round1)) with (∅ : gset Z). apply not_elem_of_empty.
  - intros c (r & -> & Hr)%list_elem_of_fmap [=].
  - intros c ->%list_elem_of_singleton [=].
  - intros c ->%list_elem_of_singleton _. vm_compute. intros H. repeat (apply elem_of_cons in H as [[=]|H]). by apply elem_of_nil in H.
  - intros r Hr Hd. right. exists (mkChange false 0 MaxPrecedence demo_web zero_entry). split; [by left|]. split; [done|].
    apply elem_of_removed in Hd as (c & ->%list_elem_of_singleton & _ & Hd).
    assert (Hin : r ∈ demo_rules) by (rewrite <- HA; by apply elem_of_app in Hr as [?|[_ ?%elem_of_nil]%list_elem_of_filter]).
    unfold demo_rules in Hin. rewrite !elem_of_cons, elem_of_nil in Hin.
    destruct Hin as [-> |[-> |[-> |[]]]]; try discriminate Hd. done.
Qed.

Lemma incremental_policy_witness :
  let ms := consume_rounds (SM:=demo_selections) (TR:=bitlpm) (GR:=range_elements) (GS:=sort_by_insertion)
    precedenceFeatures (newMapState ∅ precedenceFeatures demo_cluster) [demo_round1; demo_round2] in
  (lookup ms demo_web).2 = true ∧ MapStateEntry_IsDeny (lookup ms demo_web).1 = false ∧
  decides demo_cluster (foldl round_rules [] (synced <$> [demo_round1; demo_round2])) demo_web (lookup ms demo_web).
Proof.
  cbn zeta. split; [vm_compute; reflexivity|]. split; [vm_compute; reflexivity|].
  apply (incremental_policy (TR:=bitlpm) (TL:=bitlpm_TrieLaws) (GR:=range_elements) (GS:=sort_by_insertion));
    [reflexivity|apply demo_rounds_ok|repeat split; vm_compute; congruence].
Defined.
