(* ===== verification/L4Types.v ===== *)
(** * Per-selector policies

    Model of [PerSelectorPolicy], [L7ParserType] and the layer 7 wildcards of
    [src/pkg/policy/l4.go], and of the merging of per-selector policies of
    [src/pkg/policy/rule.go].  A nil policy is [None]: an allow of the highest
    precedence without any layer 7 restriction. *)

From Stdlib Require Import QArith.
From S2P Require Import Prelude Precedence BitLPM PolicyKey RuleOrigin PassMeta MapState PolicyRule.

Local Open Scope Z_scope.

(** ** Data *)

(** [policy.TLSContext]: the resolved secrets. *)
Record TLSContext := mkTLS {
  TrustedCA : string;
  CertificateChain : string;
  PrivateKey : string;
  Secret : string * string;
  FromFile : bool;
}.

#[export] Instance TLSContext_eq_dec : EqDecision TLSContext.
Proof. solve_decision. Defined.

(** The comparison of two pointers to contexts. *)
Definition TLSContext_Equal (a b : option TLSContext) : bool := bool_decide (a = b).

(** [StringSet]; nil and the empty set behave alike. *)
Definition StringSet := gset string.

Definition NewStringSet (from : list string) : StringSet := list_to_set from.

Definition StringSet_Equal (a b : StringSet) : bool :=
  bool_decide (size a = size b) && forallb (λ k, bool_decide (k ∈ b)) (elements a).

Definition StringSet_Merge (a b : StringSet) : StringSet := if bool_decide (size a = 0%nat) then b else a ∪ b.

Record PerSelectorPolicy := mkPSP {
  L7Parser : string;
  psp_Priority : Z;
  psp_Verdict : Verdict;
  ListenerPriority : Z;
  Listener : string;
  TerminatingTLS : option TLSContext;
  OriginatingTLS : option TLSContext;
  ServerNames : StringSet;
  psp_L7Rules : L7Rules;
}.

(** The zero value of the struct. *)
Definition emptyPolicy : PerSelectorPolicy := mkPSP "" 0 Allow 0 "" None None ∅ (mkL7Rules [] []).

Definition set_L7Rules (r : L7Rules) (p : PerSelectorPolicy) : PerSelectorPolicy :=
  mkPSP (L7Parser p) (psp_Priority p) (psp_Verdict p) (ListenerPriority p) (Listener p)
    (TerminatingTLS p) (OriginatingTLS p) (ServerNames p) r.

(** ** Parser types *)

Definition ParserTypeNone : string := "".
Definition ParserTypeTLS : string := "tls".
Definition ParserTypeCRD : string := "crd".
Definition ParserTypeHTTP : string := "http".
Definition ParserTypeDNS : string := "dns".

Definition ListenerPriorityNone : Z := 0.
Definition ListenerPriorityHTTP : Z := 101.
Definition ListenerPriorityTLS : Z := 116.
Definition ListenerPriorityDNS : Z := 121.
Definition ListenerPriorityCRD : Z := 126.

Definition defaultPriority (l7 : string) : Z :=
  if decide (l7 = ParserTypeNone) then ListenerPriorityNone
  else if decide (l7 = ParserTypeHTTP) then ListenerPriorityHTTP
  else if decide (l7 = ParserTypeTLS) then ListenerPriorityTLS
  else if decide (l7 = ParserTypeDNS) then ListenerPriorityDNS
  else if decide (l7 = ParserTypeCRD) then ListenerPriorityCRD
  else ListenerPriorityNone.

Definition canPromoteTo (from to : string) : bool :=
  if decide (from = ParserTypeNone) then true
  else if decide (from = ParserTypeTLS)
  then bool_decide (to ≠ ParserTypeNone) && bool_decide (to ≠ ParserTypeDNS) && bool_decide (to ≠ ParserTypeCRD)
  else false.

Definition L7ParserType_Merge (a b : string) : error + string :=
  if decide (a = b) then inr a
  else if canPromoteTo a b then inr b
  else if canPromoteTo b a then inr a
  else inl ErrConflictingParsers.

(** [redirectTypes]. *)
Definition redirectTypeNone : Z := 0.
Definition redirectTypeDNS : Z := 1.
Definition redirectTypeEnvoy : Z := 2.

(** ** Layer 7 wildcards *)

Definition hasWildcard (rules : option L7Rules) (parserType : string) : bool :=
  match rules with
  | None => false
  | Some rules =>
      if decide (parserType = ParserTypeDNS)
      then existsb (λ r, bool_decide (MatchPattern r = "*")) (DNS rules)
      else if decide (parserType = ParserTypeHTTP)
      then existsb (λ r, bool_decide (r = wildcardHTTP)) (HTTP rules)
      else false
  end.

Definition addWildcard (rules : L7Rules) (parserType : string) : L7Rules :=
  if decide (parserType = ParserTypeDNS)
  then match DNS rules with [] => rules | _ => mkL7Rules (HTTP rules) (DNS rules ++ [wildcardDNS]) end
  else if decide (parserType = ParserTypeHTTP)
  then match HTTP rules with [] => rules | _ => mkL7Rules (HTTP rules ++ [wildcardHTTP]) (DNS rules) end
  else rules.

Definition ensureWildcard (rules : option L7Rules) (parserType : string) : option L7Rules :=
  match rules with
  | None => None
  | Some r => if hasWildcard (Some r) parserType then Some r else Some (addWildcard r parserType)
  end.

(** ** Operations on a policy *)

Section policy.
Implicit Types (a b o : option PerSelectorPolicy).

Definition GetL7Parser a : string := match a with None => ParserTypeNone | Some p => L7Parser p end.
Definition GetListener a : string := match a with None => "" | Some p => Listener p end.
Definition GetListenerPriority a : Z := match a with None => 0 | Some p => ListenerPriority p end.
Definition GetPriority a : Z := match a with None => 0 | Some p => psp_Priority p end.
Definition GetVerdict a : Verdict := match a with None => Allow | Some p => psp_Verdict p end.

Definition IsRedirect a : bool := bool_decide (GetL7Parser a ≠ ParserTypeNone).

Definition HasL7Rules a : bool :=
  match a with None => false | Some p => negb (L7Rules_IsEmpty (Some (psp_L7Rules p))) end.

Definition PerSelectorPolicy_IsDeny a : bool := bool_decide (GetVerdict a = Deny).
Definition PerSelectorPolicy_IsPass a : bool := bool_decide (GetVerdict a = Pass).

Definition IsAllowAll a : bool :=
  match a with
  | None => true
  | Some p =>
      bool_decide (psp_Verdict p = Allow) && bool_decide (L7Parser p = ParserTypeNone) &&
      bool_decide (Listener p = "") && bool_decide (TerminatingTLS p = None) &&
      bool_decide (OriginatingTLS p = None) && bool_decide (size (ServerNames p) = 0%nat) &&
      (L7Rules_Len (psp_L7Rules p) =? 0)
  end.

Definition PerSelectorPolicy_Equal a b : bool :=
  match a, b with
  | None, None => true
  | Some a, Some b =>
      bool_decide (psp_Priority a = psp_Priority b) && bool_decide (L7Parser a = L7Parser b) &&
      TLSContext_Equal (TerminatingTLS a) (TerminatingTLS b) &&
      TLSContext_Equal (OriginatingTLS a) (OriginatingTLS b) &&
      StringSet_Equal (ServerNames a) (ServerNames b) &&
      bool_decide (Listener a = Listener b) && bool_decide (ListenerPriority a = ListenerPriority b) &&
      bool_decide (psp_Verdict a = psp_Verdict b) &&
      L7Rules_DeepEqual (psp_L7Rules a) (psp_L7Rules b)
  | _, _ => false
  end.

Definition GetPrecedence a : Z :=
  match a with
  | None => MaxAllowPrecedence
  | Some p =>
      match psp_Verdict p with
      | Pass => ToPassPrecedence (psp_Priority p)
      | v => ToPrecedenceWithListenerPriority (psp_Priority p) (bool_decide (v = Deny)) (IsRedirect a)
               (GetListenerPriority a)
      end
  end.

Definition datapathEquivalent a b : bool :=
  (GetPrecedence a =? GetPrecedence b) && bool_decide (GetL7Parser a = GetL7Parser b) &&
  bool_decide (GetListener a = GetListener b).

Definition HasPrecedenceOver a o : bool :=
  match GetVerdict a with
  | Deny => true
  | Allow => bool_decide (GetVerdict o = Pass)
  | Pass => false
  end.

Definition redirectType a : Z :=
  let l7 := GetL7Parser a in
  if decide (l7 = ParserTypeNone) then redirectTypeNone
  else if decide (l7 = ParserTypeDNS) then redirectTypeDNS
  else if decide (l7 = ParserTypeHTTP ∨ l7 = ParserTypeTLS ∨ l7 = ParserTypeCRD) then redirectTypeEnvoy
  else redirectTypeNone.
End policy.

(** ** Merging *)

(** The rules with the wildcard appended if there are any. *)
Definition appendL7WildcardRule (epd : PerSelectorPolicy) : PerSelectorPolicy :=
  let r := psp_L7Rules epd in
  match HTTP r, DNS r with
  | _ :: _, _ =>
      if PortRuleHTTP_Exists wildcardHTTP r then epd
      else set_L7Rules (mkL7Rules (HTTP r ++ [wildcardHTTP]) (DNS r)) epd
  | [], _ :: _ =>
      if PortRuleDNS_Exists wildcardDNS r then epd
      else set_L7Rules (mkL7Rules (HTTP r) (DNS r ++ [wildcardDNS])) epd
  | [], [] => epd
  end.

Definition takesListenerPrecedenceOver (p other : PerSelectorPolicy) : bool :=
  uwrap 8 (ListenerPriority p - 1) <? uwrap 8 (ListenerPriority other - 1).

Definition set_redirect (parser listener : string) (lp : Z) (p : PerSelectorPolicy) : PerSelectorPolicy :=
  mkPSP parser (psp_Priority p) (psp_Verdict p) lp listener
    (TerminatingTLS p) (OriginatingTLS p) (ServerNames p) (psp_L7Rules p).

Definition mergeRedirect (l7Rules newL7Rules : PerSelectorPolicy) : error + PerSelectorPolicy :=
  l7Parser <~ L7ParserType_Merge (L7Parser l7Rules) (L7Parser newL7Rules);;
  let p := if decide (l7Parser = L7Parser l7Rules) then l7Rules
           else set_redirect l7Parser (Listener l7Rules) (ListenerPriority newL7Rules) l7Rules in
  if bool_decide (Listener newL7Rules = "") then inr p
  else if bool_decide (Listener newL7Rules = Listener p) &&
          bool_decide (ListenerPriority p = ListenerPriority newL7Rules) then inr p
  else if takesListenerPrecedenceOver p newL7Rules then inr p
  else if bool_decide (Listener p = "") || takesListenerPrecedenceOver newL7Rules p
  then inr (set_redirect (L7Parser p) (Listener newL7Rules) (ListenerPriority newL7Rules) p)
  else inl ErrConflictingListeners.

Definition merge_TLS (existing new : option TLSContext) : error + option TLSContext :=
  match existing, new with
  | _, None => inr existing
  | None, Some _ => inr new
  | Some _, Some _ => if TLSContext_Equal new existing then inr existing else inl ErrConflictingTLS
  end.

Definition set_TLS (t o : option TLSContext) (names : StringSet) (p : PerSelectorPolicy) : PerSelectorPolicy :=
  mkPSP (L7Parser p) (psp_Priority p) (psp_Verdict p) (ListenerPriority p) (Listener p) t o names (psp_L7Rules p).

(** The rules of the new policy that are not there yet. *)
Definition merge_HTTP (existing : list PortRuleHTTP) (new : list PortRuleHTTP) : list PortRuleHTTP :=
  foldl (λ l r, if bool_decide (r ∈ l) then l else l ++ [r]) existing new.
Definition merge_DNS (existing : list PortRuleDNS) (new : list PortRuleDNS) : list PortRuleDNS :=
  foldl (λ l r, if bool_decide (r ∈ l) then l else l ++ [r]) existing new.

Definition merge_L7 (existing new : PerSelectorPolicy) : PerSelectorPolicy :=
  if negb (HasL7Rules (Some existing)) && HasL7Rules (Some new)
  then set_L7Rules (psp_L7Rules (appendL7WildcardRule new)) existing
  else if HasL7Rules (Some existing) && negb (HasL7Rules (Some new))
  then appendL7WildcardRule existing
  else set_L7Rules (mkL7Rules (merge_HTTP (HTTP (psp_L7Rules existing)) (HTTP (psp_L7Rules new)))
                              (merge_DNS (DNS (psp_L7Rules existing)) (DNS (psp_L7Rules new)))) existing.

(** Two different allow policies of the same precedence level. *)
Definition merge_allow (existing new : PerSelectorPolicy) : error + PerSelectorPolicy :=
  p <~ mergeRedirect existing new;;
  t <~ merge_TLS (TerminatingTLS p) (TerminatingTLS new);;
  o <~ merge_TLS (OriginatingTLS p) (OriginatingTLS new);;
  let p := set_TLS t o (StringSet_Merge (ServerNames p) (ServerNames new)) p in
  if negb (bool_decide (size (ServerNames p) = 0%nat)) && HasL7Rules (Some p) && bool_decide (TerminatingTLS p = None)
  then inl ErrServerNamesWithL7
  else inr (merge_L7 p new).

(** The policy of a selector both filters have, with its origin. *)
Definition merge_policy (existing new : option PerSelectorPolicy) (eo no : ruleOrigin)
  : error + (option PerSelectorPolicy * ruleOrigin) :=
  if PerSelectorPolicy_Equal existing new then inr (existing, ruleOrigin_Merge eo no)
  else
    let priority := GetPriority existing in
    let newPriority := GetPriority new in
    if (priority <? newPriority) || (priority =? newPriority) && HasPrecedenceOver existing new
    then inr (existing, eo)
    else if (newPriority <? priority) || (priority =? newPriority) && HasPrecedenceOver new existing
    then inr (new, no)
    else
      p <~ merge_allow (default emptyPolicy existing) (default emptyPolicy new);;
      inr (Some p, ruleOrigin_Merge eo no).
