(* ===== verification/L4Filter.v ===== *)
(** * L4 filters and policy maps

    Model of [L4Filter] and [L4PolicyMap] of [src/pkg/policy/l4.go] and of the
    resolution of one rule into them, [src/pkg/policy/rule.go]: a rule becomes a filter
    for each of its ports, the filters of the same tier, port and protocol are merged,
    selector by selector. *)

From Stdlib Require Import QArith Ascii.
From S2P Require Import Prelude Precedence BitLPM PolicyKey RuleOrigin PassMeta MapState PolicyRule L4Types.

Local Open Scope Z_scope.

(** ** Selectors

    What the filters need of the selectors: the keys of the wildcard and of the selector
    that never selects, and which selectors have no requirements.  [SelectorCache] returns
    one cached selector for each key. *)
Class SelectorKeys := {
  wildcardSelectorKey : string;
  noneSelectorKey : string;
  selector_IsWildcard : string → bool;
}.

Section selectors.
Context {SK : SelectorKeys}.

Definition IsWildcard (cs : string) : bool := bool_decide (cs = wildcardSelectorKey).
Definition IsNone (cs : string) : bool := bool_decide (cs = noneSelectorKey).

Definition selectsAll (selectors : list string) : bool :=
  match selectors with [] => true | _ => existsb selector_IsWildcard selectors end.

(** The cached selectors of [AddSelectorsTxn]. *)
Definition AddSelectorsTxn (selectors : list string) : list string :=
  if selectsAll selectors then [wildcardSelectorKey] else selectors.
End selectors.

(** ** Filters *)

Record L4Filter := mkL4Filter {
  f_Tier : Z;
  U8Proto : Z;
  Port : Z;
  EndPort : Z;
  Protocol : string;
  PortName : string;
  wildcard : option string;
  PerSelectorPolicies : gmap string (option PerSelectorPolicy);
  f_Ingress : bool;
  RuleOrigin : gmap string ruleOrigin;
}.

Definition set_policies (w : option string) (p : gmap string (option PerSelectorPolicy)) (o : gmap string ruleOrigin)
    (f : L4Filter) : L4Filter :=
  mkL4Filter (f_Tier f) (U8Proto f) (Port f) (EndPort f) (Protocol f) (PortName f) w p (f_Ingress f) o.

(** The state of the resolution of a rule ([policyContext]). *)
Record PolicyContext := mkPolicyContext {
  ctx_ns : string;
  ctx_tier : Z;
  ctx_priority : Z;
  defaultDenyIngress : bool;
  defaultDenyEgress : bool;
  ctx_origin : ruleOrigin;
  GetTLSContext : apiTLSContext → error + (string * string * string * bool);
}.

Definition SetPriority (c : PolicyContext) (tier priority : Z) : PolicyContext :=
  mkPolicyContext (ctx_ns c) tier priority (defaultDenyIngress c) (defaultDenyEgress c) (ctx_origin c) (GetTLSContext c).
Definition SetOrigin (c : PolicyContext) (o : ruleOrigin) : PolicyContext :=
  mkPolicyContext (ctx_ns c) (ctx_tier c) (ctx_priority c) (defaultDenyIngress c) (defaultDenyEgress c) o (GetTLSContext c).

(** ** Creation of a filter *)

Inductive TLSDirection := Terminating | Originating.

Definition getCerts (c : PolicyContext) (tls : option apiTLSContext) (direction : TLSDirection)
  : error + option TLSContext :=
  match tls with
  | None => inr None
  | Some tls =>
      res <~ GetTLSContext c tls;;
      let '(ca, public, private, inlineSecrets) := res : string * string * string * bool in
      if inlineSecrets && match direction with
                          | Terminating => bool_decide (public = "") || bool_decide (private = "")
                          | Originating => bool_decide (ca = "")
                          end
      then inl ErrTLSContext
      else match tls_Secret tls with
           | None => inl NilPointer
           | Some secret => inr (Some (mkTLS ca public private secret inlineSecrets))
           end
  end.

(** [api.ResourceQualifiedName] with [ForceNamespace]. *)
Fixpoint index_slash (l : list Ascii.ascii) : option nat :=
  match l with
  | [] => None
  | c :: l => if bool_decide (c = "/"%char) then Some 0%nat else S <$> index_slash l
  end.

Definition ResourceQualifiedName (namespace cecName resourceName : string) : string :=
  if bool_decide (resourceName = "") ||
     match index_slash (String.list_ascii_of_string resourceName) with
     | None => false
     | Some idx => bool_decide (idx = String.length namespace) && String.prefix namespace resourceName
     end
  then resourceName
  else namespace +:+ "/" +:+ cecName +:+ "/" +:+ resourceName.

(** The listener and its priority. *)
Definition resolve_listener (c : PolicyContext) (l : option EnvoyListener) (listenerPriority : Z)
  : error + (string * Z) :=
  match l with
  | None => inr ("", listenerPriority)
  | Some l =>
      ns <~ (if decide (EnvoyConfig_Kind l = "CiliumEnvoyConfig")
             then if bool_decide (ctx_ns c = "") then inl ErrListenerKind else inr (ctx_ns c)
             else if decide (EnvoyConfig_Kind l = "CiliumClusterwideEnvoyConfig") then inr ""
             else inr (ctx_ns c));;
      inr (ResourceQualifiedName ns (EnvoyConfig_Name l) (Listener_Name l),
           if bool_decide (Listener_Priority l ≠ 0) then Listener_Priority l else listenerPriority)
  end.

(** The parser a port rule needs. *)
Definition parser_type (pr : PortRule) (protocol : string) (terminatingTLS originatingTLS : option TLSContext) : string :=
  let l7Parser :=
    if bool_decide (is_Some terminatingTLS) || bool_decide (is_Some originatingTLS) ||
       negb (bool_decide (pr_ServerNames pr = []))
    then ParserTypeTLS else ParserTypeNone in
  let l7Parser :=
    match pr_Rules pr with
    | None => l7Parser
    | Some rules =>
        if negb (bool_decide (DNS rules = [])) then ParserTypeDNS
        else if bool_decide (protocol = ProtoTCP) && negb (bool_decide (HTTP rules = [])) then ParserTypeHTTP
        else l7Parser
    end in
  if bool_decide (is_Some (pr_Listener pr)) then ParserTypeCRD else l7Parser.

(** What a port rule asks of layer 7. *)
Record l7Part := mkL7Part {
  lp_parser : string;
  lp_terminating : option TLSContext;
  lp_originating : option TLSContext;
  lp_listener : string;
  lp_listenerPriority : Z;
}.

Definition resolve_l7 (c : PolicyContext) (pr : PortRule) (protocol : string) : error + l7Part :=
  terminatingTLS <~ getCerts c (pr_TerminatingTLS pr) Terminating;;
  originatingTLS <~ getCerts c (pr_OriginatingTLS pr) Originating;;
  let l7Parser := parser_type pr protocol terminatingTLS originatingTLS in
  l <~ resolve_listener c (pr_Listener pr) (defaultPriority l7Parser);;
  inr (mkL7Part l7Parser terminatingTLS originatingTLS (fst l) (snd l)).

(** The rules of the policies of the selectors: with default deny disabled the rules of an
    allow policy let other layer 7 traffic pass. *)
Definition modified_rules (c : PolicyContext) (entry : PolicyEntry) (pr : PortRule) (l7Parser : string) : option L7Rules :=
  let isDefaultDenyDisabled :=
    pe_Ingress entry && negb (defaultDenyIngress c) || negb (pe_Ingress entry) && negb (defaultDenyEgress c) in
  if negb (L7Rules_IsEmpty (pr_Rules pr)) && isDefaultDenyDisabled && PolicyEntry_IsAllow entry
  then ensureWildcard (pr_Rules pr) l7Parser
  else pr_Rules pr.

(** The policy of every selector of the filter. *)
Definition addPolicyForSelector (c : PolicyContext) (entry : PolicyEntry) (pr : PortRule) (l7 : l7Part)
  : option PerSelectorPolicy :=
  if negb (bool_decide (lp_parser l7 = ParserTypeNone)) || negb (PolicyEntry_IsAllow entry) ||
     negb (ctx_priority c =? 0)
  then Some (mkPSP (lp_parser l7) (ctx_priority c) (pe_Verdict entry) (lp_listenerPriority l7) (lp_listener l7)
               (lp_terminating l7) (lp_originating l7) (NewStringSet (pr_ServerNames pr))
               (default (mkL7Rules [] []) (modified_rules c entry pr (lp_parser l7))))
  else None.

Section create.
Context {SK : SelectorKeys}.

Definition createL4Filter (c : PolicyContext) (entry : PolicyEntry) (pr : PortRule) (port : PortProtocol)
  : error + L4Filter :=
  let named := IsSvcName (pp_Port port) in
  let p := if named then 0 else ParseUint16 (pp_Port port) in
  let css := AddSelectorsTxn (default [] (L3 entry)) in
  l7 <~ resolve_l7 c pr (pp_Protocol port);;
  let policy := addPolicyForSelector c entry pr l7 in
  inr (mkL4Filter (ctx_tier c) (default 0 (ParseProtocol (pp_Protocol port))) p (uwrap 16 (pp_EndPort port))
         (pp_Protocol port) (if named then pp_Port port else "")
         (if existsb IsWildcard css then Some wildcardSelectorKey else None)
         (list_to_map (map (λ cs, (cs, policy)) css))
         (pe_Ingress entry)
         (list_to_map (map (λ cs, (cs, ctx_origin c)) css))).
End create.

(** ** Policy maps *)

Record portProtoKey := mkPortProto { ppk_Port : Z; ppk_EndPort : Z; ppk_Proto : Z }.

#[export] Instance portProtoKey_eq_dec : EqDecision portProtoKey.
Proof. solve_decision. Defined.
#[export] Instance portProtoKey_countable : Countable portProtoKey.
Proof.
  apply (inj_countable' (λ k, (ppk_Port k, ppk_EndPort k, ppk_Proto k))
    (λ '(p, e, u), mkPortProto p e u)). by intros [].
Defined.

Record L4PolicyMap := mkL4PolicyMap {
  NamedPortMap : gmap string L4Filter;
  RangePortMap : gmap portProtoKey L4Filter;
}.

Definition makeL4PolicyMap : L4PolicyMap := mkL4PolicyMap ∅ ∅.

Definition L4PolicyMap_Len (m : L4PolicyMap) : nat := size (NamedPortMap m) + size (RangePortMap m).

Definition L4PolicyMap_upsert (m : L4PolicyMap) (l4 : L4Filter) : L4PolicyMap :=
  if negb (bool_decide (PortName l4 = ""))
  then mkL4PolicyMap (<[PortName l4 +:+ "/" +:+ Protocol l4 := l4]> (NamedPortMap m)) (RangePortMap m)
  else mkL4PolicyMap (NamedPortMap m) (<[mkPortProto (Port l4) (EndPort l4) (U8Proto l4) := l4]> (RangePortMap m)).

Definition ExactLookupPortName (m : L4PolicyMap) (portName : string) (protocol : Z) : option L4Filter :=
  NamedPortMap m !! (portName +:+ "/" +:+ U8proto_String protocol).

Definition ExactLookupPortNum (m : L4PolicyMap) (port endPort protocol : Z) : option L4Filter :=
  RangePortMap m !! mkPortProto port endPort protocol.

Definition exactLookupFilter (m : L4PolicyMap) (l4 : L4Filter) : option L4Filter :=
  if negb (bool_decide (PortName l4 = "")) then ExactLookupPortName m (PortName l4) (U8Proto l4)
  else ExactLookupPortNum m (Port l4) (EndPort l4) (U8Proto l4).

(** ** Merging of filters *)

Section merge.
Context {SK : SelectorKeys} {GR : GoRange}.

(** One selector of the filter to merge. *)
Definition merge_selector (filterToMerge existing : L4Filter) (cs : string) : error + L4Filter :=
  match PerSelectorPolicies filterToMerge !! cs with
  | None => inr existing
  | Some newPolicy =>
      let newOrigin := default None (RuleOrigin filterToMerge !! cs) in
      match PerSelectorPolicies existing !! cs with
      | None =>
          inr (set_policies (if IsWildcard cs then Some cs else wildcard existing)
                 (<[cs := newPolicy]> (PerSelectorPolicies existing))
                 (<[cs := newOrigin]> (RuleOrigin existing)) existing)
      | Some existingPolicy =>
          if IsNone cs then inr existing
          else
            res <~ merge_policy existingPolicy newPolicy (default None (RuleOrigin existing !! cs)) newOrigin;;
            inr (set_policies (wildcard existing) (<[cs := fst res]> (PerSelectorPolicies existing))
                   (<[cs := snd res]> (RuleOrigin existing)) existing)
      end
  end.

Definition mergePortProto (existing filterToMerge : L4Filter) : error + L4Filter :=
  if negb (f_Tier existing =? f_Tier filterToMerge) then inl ErrDifferentTiers
  else each (merge_selector filterToMerge) existing (range (dom (PerSelectorPolicies filterToMerge))).

Definition addL4Filter (m : L4PolicyMap) (filterToMerge : L4Filter) : error + L4PolicyMap :=
  match exactLookupFilter m filterToMerge with
  | None => inr (L4PolicyMap_upsert m filterToMerge)
  | Some existing =>
      f <~ mergePortProto existing filterToMerge;;
      inr (L4PolicyMap_upsert m f)
  end.

Definition addFilter (c : PolicyContext) (entry : PolicyEntry) (m : L4PolicyMap) (pr : PortRule) (p : PortProtocol)
  : error + L4PolicyMap :=
  f <~ createL4Filter c entry pr p;; addL4Filter m f.

(** The ports a port rule stands for: any protocol is TCP, UDP and SCTP. *)
Definition port_protocols (p : PortProtocol) : list PortProtocol :=
  if IsAny (pp_Protocol p)
  then map (mkPortProtocol (pp_Port p) (pp_EndPort p)) [ProtoTCP; ProtoUDP; ProtoSCTP]
  else [p].

Definition emptyPortRule : PortRule := mkPortRule [] None None [] None None.

Definition mergeL4Filter (c : PolicyContext) (m : L4PolicyMap) (r : PolicyEntry) : error + L4PolicyMap :=
  match L3 r with
  | None => inr m
  | Some l3 =>
      m <~ (if bool_decide (L4 r = []) && negb (bool_decide (l3 = []))
            then addFilter c r m emptyPortRule (mkPortProtocol "0" 0 ProtoAny) else inr m);;
      each (λ m pr, each (λ m p, each (λ m p, addFilter c r m pr p) m (port_protocols p)) m (Ports pr)) m (L4 r)
  end.

(** [L4PolicyMaps], one map for each tier. *)
Definition ensureTier (pms : list L4PolicyMap) (tier : Z) : list L4PolicyMap :=
  pms ++ replicate (Z.to_nat (tier + 1) - length pms) makeL4PolicyMap.

(** [L4PolicyMaps.resolveL4Policy] after [SetPriority]. *)
Definition resolve_into_maps (c : PolicyContext) (pms : list L4PolicyMap) (tier priority : Z) (r : PolicyEntry)
  : error + list L4PolicyMap :=
  let c := SetOrigin (SetPriority c tier priority) (rule_origin r) in
  let pms := ensureTier pms (Tier r) in
  m <~ index pms (Tier r);;
  m <~ mergeL4Filter c m r;;
  store pms (Tier r) m.
End merge.
