(* ===== verification/L4MapState.v ===== *)
(** * From L4 policies to map states

    Model of the conversion of the filters of a policy into map state entries:
    [L4Filter.attach], [L4Filter.toMapState] of [src/pkg/policy/l4.go] and
    [L4DirectionPolicy.toMapState] and [DistillPolicy] of [src/pkg/policy/resolve.go]. *)

From Stdlib Require Import QArith Ascii.
From stdpp Require Import pretty.
From S2P Require Import Prelude Precedence BitLPM PolicyKey PortRange Identity RuleOrigin PassMeta MapState.
From S2P Require Import PolicyRule TierPriorities L4Types L4Filter.

Local Open Scope Z_scope.

(** ** Features *)

(** The features and the redirect types of a filter. *)
Definition policy_features (sp : option PerSelectorPolicy) : Z :=
  match sp with
  | None => 0
  | Some p =>
      Z.lor (if bool_decide (L7Parser p ≠ ParserTypeNone) then redirectRules else 0)
        (Z.lor (if 0 <? psp_Priority p then orderedRules else 0)
           (Z.lor (if bool_decide (psp_Verdict p = Deny) then denyRules else 0)
              (if bool_decide (psp_Verdict p = Pass) then passRules else 0)))
  end.

Definition filter_attach (f : L4Filter) : Z * Z :=
  map_fold (λ _ sp acc, (Z.lor acc.1 (policy_features sp), Z.lor acc.2 (redirectType sp)))
    (if bool_decide (PortName f ≠ "") then namedPortRules else 0, redirectTypeNone) (PerSelectorPolicies f).

(** The filters of a map in the order of [ForEach]. *)
Section filters.
Context {GR : GoRange}.

Definition L4PolicyMap_Filters (m : L4PolicyMap) : list L4Filter :=
  omap (λ k, NamedPortMap m !! k) (range (dom (NamedPortMap m))) ++
  omap (λ k, RangePortMap m !! k) (range (dom (RangePortMap m))).

Definition L4PolicyMaps_Filters (pms : list L4PolicyMap) : list L4Filter := pms ≫= L4PolicyMap_Filters.

Record L4DirectionPolicy := mkDirection {
  PortRules : list L4PolicyMap;
  tierBasePriority : list Z;
  dir_features : Z;
}.

Definition newL4DirectionPolicy : L4DirectionPolicy := mkDirection [makeL4PolicyMap] [0] 0.

Definition direction_attach (d : L4DirectionPolicy) : L4DirectionPolicy * Z :=
  let acc := foldl (λ acc f, (Z.lor acc.1 (filter_attach f).1, Z.lor acc.2 (filter_attach f).2))
               (0, redirectTypeNone) (L4PolicyMaps_Filters (PortRules d)) in
  (mkDirection (PortRules d) (tierBasePriority d) acc.1, acc.2).

(** [GetTierPriorities]. *)
Definition GetTierPriorities (d : L4DirectionPolicy) (tier : Z) : Z * Z :=
  let bases := tierBasePriority d in
  if Z.of_nat (length bases) <=? tier then (HighestPriority, LowestPriority)
  else
    (at_ bases tier,
     if tier + 1 <? Z.of_nat (length bases)
     then if 0 <? at_ bases (tier + 1) then at_ bases (tier + 1) - 1 else LowestPriority
     else LowestPriority).
End filters.

(** ** The endpoint *)

(** What the conversion reads of the endpoint's policy: the identities the selectors select
    in its snapshot, the ports of its proxy redirects, and the named ports. *)
Record EndpointContext := mkEndpoint {
  GetSelectionsAt : string → list Z;
  LookupRedirectPort : bool → string → Z → string → option Z;
  GetIngressNamedPort : string → Z → Z;
  GetEgressNamedPorts : string → Z → list Z → list (Z * Z);
}.

Definition strFormat (n : Z) : string := pretty (Z.to_N n).

Definition ProxyID (endpointID : Z) (ingress : bool) (protocol : string) (port : Z) (listener : string) : string :=
  strFormat endpointID +:+ ":" +:+ (if ingress then "ingress" else "egress") +:+ ":" +:+ protocol +:+ ":" +:+
  strFormat port +:+ ":" +:+ listener.

Definition FallbackRedirectID : string := "fallback".

(** [EndpointPolicy.LookupRedirectPort]; an error is [None]. *)
Definition redirect_port (id : Z) (Redirects : gmap string Z) (ingress : bool) (protocol : string) (port : Z)
    (listener : string) : option Z :=
  match Redirects !! ProxyID id ingress protocol port listener with
  | Some proxyPort => Some proxyPort
  | None =>
      match Redirects !! FallbackRedirectID with
      | Some proxyPort => if bool_decide (size Redirects = 1%nat) then Some proxyPort else None
      | None => None
      end
  end.

Section conversion.
Context {TR : Trie LPMKey IDSet} {GR : GoRange} {SK : SelectorKeys} (e : EndpointContext).
Implicit Types (s : mapState TR * ChangeState).

Definition selectorCoveredByWildcard (l4 : L4Filter) (cs : string) (currentRule : option PerSelectorPolicy)
    (wildcardPort : bool) : bool :=
  match wildcard l4 with
  | None => false
  | Some w =>
      if bool_decide (cs = w) || wildcardPort then false
      else datapathEquivalent currentRule (default None (PerSelectorPolicies l4 !! w))
  end.

Definition makeMapStateEntry (l4 : L4Filter) (port : Z) (cs : string) (currentRule : option PerSelectorPolicy)
    (tierPriority nextTierPriority : Z) : mapStateEntry :=
  let proxyPort :=
    if IsRedirect currentRule
    then LookupRedirectPort e (f_Ingress l4) (Protocol l4) port (GetListener currentRule)
    else Some 0 in
  match proxyPort with
  | None => makeInvalidEntry
  | Some proxyPort =>
      newMapStateEntry (GetPriority currentRule) tierPriority nextTierPriority
        (default None (RuleOrigin l4 !! cs)) proxyPort (GetListenerPriority currentRule) (GetVerdict currentRule)
  end.

(** Unrealized redirects are skipped. *)
Definition insert_entry (tierPriority features : Z) (entry : mapStateEntry) s (key : Key) : mapState TR * ChangeState :=
  insertWithChanges s.1 (ToDenyPrecedence tierPriority) key entry features s.2.

Definition usable (entry : mapStateEntry) : bool := IsValid entry || IsPassEntry entry.

Definition direction_of (l4 : L4Filter) : Z := if f_Ingress l4 then 0 else 1.

(** The entries of one selector. *)
Definition selector_toMapState (l4 : L4Filter) (port : Z) (egressNamedPort : bool)
    (tierPriority nextTierPriority features : Z) s (cs : string) : mapState TR * ChangeState :=
  match PerSelectorPolicies l4 !! cs with
  | None => s
  | Some currentRule =>
      if negb (bool_decide (wildcard l4 = Some cs)) &&
         selectorCoveredByWildcard l4 cs currentRule ((port =? 0) && negb egressNamedPort)
      then s
      else
        let key := WithPortProto (KeyForDirection (direction_of l4)) (U8Proto l4) port in
        let idents := GetSelectionsAt e cs in
        if egressNamedPort then
          foldl (λ s '(id, port),
            let entry := makeMapStateEntry l4 port cs currentRule tierPriority nextTierPriority in
            if negb (usable entry) then s
            else insert_entry tierPriority features entry s (WithPort (WithIdentity key id) port))
            s (GetEgressNamedPorts e (PortName l4) (U8Proto l4) idents)
        else
          let idents := if bool_decide (wildcard l4 = Some cs) then AllAggregates else idents in
          let entry := makeMapStateEntry l4 port cs currentRule tierPriority nextTierPriority in
          if negb (usable entry) then s
          else
            foldl (λ s id, foldl (λ s key, insert_entry tierPriority features entry s (WithIdentity key id))
                             s (keysForRange key port (EndPort l4))) s idents
  end.

Definition L4Filter_toMapState (tierPriority nextTierPriority features : Z) s (l4 : L4Filter) : mapState TR * ChangeState :=
  let named := (Port l4 =? 0) && negb (bool_decide (PortName l4 = "")) in
  let port := if named && f_Ingress l4 then GetIngressNamedPort e (PortName l4) (U8Proto l4) else Port l4 in
  if named && f_Ingress l4 && (port =? 0) then s
  else
    foldl (selector_toMapState l4 port (named && negb (f_Ingress l4)) tierPriority nextTierPriority features)
      s (range (dom (PerSelectorPolicies l4))).

(** The filters of all the tiers; [IndexOutOfRange] when there are more maps than tiers. *)
Definition direction_toMapState (d : L4DirectionPolicy) s : error + (mapState TR * ChangeState) :=
  each (λ s '(tier, m),
    basePriority <~ index (tierBasePriority d) tier;;
    inr (foldl (L4Filter_toMapState basePriority (nextTierPriority (tierBasePriority d) tier) (dir_features d))
           s (L4PolicyMap_Filters m)))
    s (imap (λ i m, (Z.of_nat i, m)) (PortRules d)).

(** [DistillPolicy]: the map state of an endpoint. *)
Definition DistillPolicy (ids : gset Z) (cinfo : ClusterInfo) (ingressEnabled egressEnabled : bool)
    (ingress egress : L4DirectionPolicy) : error + mapState TR :=
  let ms := newMapState ids (Z.lor (dir_features ingress) (dir_features egress)) cinfo in
  let ms := if negb ingressEnabled || negb egressEnabled
            then allowAllIdentities ms (negb ingressEnabled) (negb egressEnabled) else ms in
  s <~ direction_toMapState ingress (ms, mkChangeState None None None);;
  s <~ direction_toMapState egress s;;
  inr s.1.
End conversion.
