(* ===== verification/L4Merge.v ===== *)
(** * Merging of per-selector policies

    The merge of two policies of a selector ([mergePortProto] of
    [src/pkg/policy/rule.go]) has the priority and the verdict of the one that takes
    precedence, and two allow policies of one level allow together what each of them
    allows.  The latter fails for rules that list a layer 7 rule twice. *)

From Stdlib Require Import QArith.
From S2P Require Import Prelude Precedence RuleOrigin MapState PolicyRule TierPriorities L4Types.

Local Open Scope Z_scope.

(** ** Precedence *)

Section rank.
Implicit Types (a b p e n : option PerSelectorPolicy).

(** The order of the policies of a selector within a tier. *)
Definition outranks a b : Prop :=
  GetPriority a < GetPriority b ∨
  GetPriority a = GetPriority b ∧ verdictOrder (GetVerdict a) ≤ verdictOrder (GetVerdict b).

Definition same_rank a b : Prop := GetPriority a = GetPriority b ∧ GetVerdict a = GetVerdict b.

Lemma outranks_refl a b : same_rank a b → outranks a b.
Proof. intros [E1 E2]. right. rewrite E1, E2. lia. Qed.

#[export] Instance outranks_trans : Transitive outranks.
Proof. intros a b c [H1|[H1 H1']] [H2|[H2 H2']]; unfold outranks; lia. Qed.

Lemma HasPrecedenceOver_order a b : HasPrecedenceOver a b = true →
  verdictOrder (GetVerdict a) ≤ verdictOrder (GetVerdict b).
Proof.
  unfold HasPrecedenceOver. destruct (GetVerdict a), (GetVerdict b); simpl; try lia; intros H;
    try done; by apply bool_decide_eq_true in H.
Qed.

Lemma HasPrecedenceOver_neither a b : HasPrecedenceOver a b = false → HasPrecedenceOver b a = false →
  GetVerdict a = GetVerdict b.
Proof. unfold HasPrecedenceOver. by destruct (GetVerdict a), (GetVerdict b). Qed.

Lemma Equal_rank a b : PerSelectorPolicy_Equal a b = true → same_rank a b.
Proof.
  unfold PerSelectorPolicy_Equal, same_rank. destruct a as [a|], b as [b|]; try done.
  rewrite !andb_true_iff, !bool_decide_eq_true. intros ((((((((? & ?) & ?) & ?) & ?) & ?) & ?) & ?) & ?). done.
Qed.

Lemma mergeRedirect_rank (a b p : PerSelectorPolicy) : mergeRedirect a b = inr p →
  psp_Priority p = psp_Priority a ∧ psp_Verdict p = psp_Verdict a ∧ psp_L7Rules p = psp_L7Rules a.
Proof.
  unfold mergeRedirect. intros (l7 & _ & H)%sbind_inr.
  set (q := if decide (l7 = L7Parser a) then a else set_redirect l7 (Listener a) (ListenerPriority b) a) in H.
  assert (Hq : psp_Priority q = psp_Priority a ∧ psp_Verdict q = psp_Verdict a ∧ psp_L7Rules q = psp_L7Rules a)
    by (unfold q; by destruct (decide _)).
  clearbody q. repeat case_match; simplify_eq/=; done.
Qed.

Lemma merge_L7_rank (a b : PerSelectorPolicy) : psp_Priority (merge_L7 a b) = psp_Priority a ∧ psp_Verdict (merge_L7 a b) = psp_Verdict a.
Proof. unfold merge_L7, appendL7WildcardRule. repeat case_match; done. Qed.

Lemma merge_allow_inv (a b p : PerSelectorPolicy) : merge_allow a b = inr p →
  ∃ q, mergeRedirect a b = inr q ∧ ∃ t o ns, p = merge_L7 (set_TLS t o ns q) b.
Proof.
  unfold merge_allow. intros (q & E & (t & _ & (o & _ & H)%sbind_inr)%sbind_inr)%sbind_inr.
  exists q. split; [done|]. case_match; [done|]. injection H as <-. by eexists _, _, _.
Qed.

Lemma merge_allow_rank (a b p : PerSelectorPolicy) : merge_allow a b = inr p →
  psp_Priority p = psp_Priority a ∧ psp_Verdict p = psp_Verdict a.
Proof.
  intros (q & (E1 & E2 & _)%mergeRedirect_rank & t & o & ns & ->)%merge_allow_inv.
  destruct (merge_L7_rank (set_TLS t o ns q) b) as [-> ->]. by simpl.
Qed.

Lemma StringSet_Equal_eq (a b : StringSet) : StringSet_Equal a b = true → a = b.
Proof.
  unfold StringSet_Equal. rewrite andb_true_iff, bool_decide_eq_true, forallb_forall. intros [Hs HF].
  apply set_subseteq_size_eq; [|by rewrite Hs]. intros x Hx. apply (bool_decide_eq_true_1 _), HF, list_elem_of_In, elem_of_elements, Hx.
Qed.

(** The server names of a policy; none allow all. *)
Definition policy_names (a : option PerSelectorPolicy) : StringSet :=
  match a with None => ∅ | Some p => ServerNames p end.

Lemma merge_allow_names (a b p : PerSelectorPolicy) : merge_allow a b = inr p → ServerNames p = ServerNames a ∪ ServerNames b.
Proof.
  unfold merge_allow. intros (q & E & (t & _ & (o & _ & H)%sbind_inr)%sbind_inr)%sbind_inr. case_match eqn:H0; [done|]. injection H as <-.
  assert (Eq : ServerNames q = ServerNames a).
  { revert E. unfold mergeRedirect. intros (l7 & _ & H)%sbind_inr. repeat case_match; by simplify_eq/=. }
  assert (EL : ∀ x : PerSelectorPolicy, ServerNames (merge_L7 x b) = ServerNames x)
    by (intros x; unfold merge_L7, appendL7WildcardRule; repeat case_match; done).
  clear H0. rewrite EL. cbn [ServerNames set_TLS]. rewrite Eq. unfold StringSet_Merge. case_bool_decide as Hs; [|reflexivity].
  apply size_empty_inv in Hs. set_solver.
Qed.

(** The priority of the listener is that of one of the policies. *)
Lemma mergeRedirect_listener (a b p : PerSelectorPolicy) : mergeRedirect a b = inr p →
  ListenerPriority p = ListenerPriority a ∨ ListenerPriority p = ListenerPriority b.
Proof.
  unfold mergeRedirect. intros (l7 & _ & H)%sbind_inr.
  set (q := if decide (l7 = L7Parser a) then a else set_redirect l7 (Listener a) (ListenerPriority b) a) in H.
  assert (Hq : ListenerPriority q = ListenerPriority a ∨ ListenerPriority q = ListenerPriority b)
    by (unfold q; destruct (decide _); [by left|by right]).
  clearbody q. repeat case_match; simplify_eq/=; auto.
Qed.

Lemma merge_policy_listener (P : Z → Prop) e n eo no p o : merge_policy e n eo no = inr (p, o) →
  P 0 → P (GetListenerPriority e) → P (GetListenerPriority n) → P (GetListenerPriority p).
Proof.
  unfold merge_policy. intros H H0 He Hn. do 3 (case_match; [by injection H as <- <-|]).
  apply sbind_inr in H as (m & Hm & [= <- <-]).
  apply merge_allow_inv in Hm as (q & Hq%mergeRedirect_listener & t & o' & ns & ->).
  assert (Hd : ∀ a, ListenerPriority (default emptyPolicy a) = GetListenerPriority a) by by intros [].
  rewrite !Hd in Hq. assert (ListenerPriority (merge_L7 (set_TLS t o' ns q) (default emptyPolicy n)) = ListenerPriority q) as E
    by (unfold merge_L7, appendL7WildcardRule; repeat case_match; done).
  cbn [GetListenerPriority]. rewrite E. by destruct Hq as [-> | ->].
Qed.

(** The merge has the rank of the policy that takes precedence. *)
Lemma merge_policy_rank e n eo no p o : merge_policy e n eo no = inr (p, o) →
  (same_rank p e ∨ same_rank p n) ∧ outranks p e ∧ outranks p n.
Proof.
  unfold merge_policy. destruct (PerSelectorPolicy_Equal e n) eqn:Eq.
  { intros [= <- <-]. apply Equal_rank in Eq. split_and!; [by left|by apply outranks_refl|by apply outranks_refl]. }
  destruct ((GetPriority e <? GetPriority n) || _) eqn:E1.
  { intros [= <- <-]. split; [by left|]. split; [by apply outranks_refl|].
    apply orb_true_iff in E1 as [?%Z.ltb_lt|[?%Z.eqb_eq ?%HasPrecedenceOver_order]%andb_true_iff]; [by left|by right]. }
  destruct ((GetPriority n <? GetPriority e) || _) eqn:E2.
  { intros [= <- <-]. split; [by right|]. split; [|by apply outranks_refl].
    apply orb_true_iff in E2 as [?%Z.ltb_lt|[?%Z.eqb_eq ?%HasPrecedenceOver_order]%andb_true_iff]; [by left|].
    right. split; [done|]. done. }
  intros (q & Hq & [= <- <-])%sbind_inr. apply merge_allow_rank in Hq as [Hp Hv].
  apply orb_false_iff in E1 as [L1%Z.ltb_ge H1]. apply orb_false_iff in E2 as [L2%Z.ltb_ge H2].
  assert (E : GetPriority e = GetPriority n) by lia. rewrite E, Z.eqb_refl in H1, H2. simpl in H1, H2.
  pose proof (HasPrecedenceOver_neither e n H1 H2) as EV.
  assert (same_rank (Some q) e) as Se by (split; simpl; rewrite ?Hp, ?Hv; by destruct e).
  split_and!; [by left|by apply outranks_refl|apply outranks_refl].
  destruct Se. split; congruence.
Qed.
End rank.

(** ** Layer 7 *)

Definition policy_rules (a : option PerSelectorPolicy) : L7Rules :=
  match a with None => mkL7Rules [] [] | Some p => psp_L7Rules p end.

Lemma elem_of_merge {A} `{EqDecision A} (new : list A) : ∀ l x,
  x ∈ foldl (λ l r, if bool_decide (r ∈ l) then l else l ++ [r]) l new ↔ x ∈ l ∨ x ∈ new.
Proof.
  induction new as [|r new IH]; intros l x; simpl; [set_solver|]. rewrite IH, elem_of_cons.
  case_bool_decide; [|rewrite elem_of_app, list_elem_of_singleton]; naive_solver.
Qed.

Lemma unordered_DeepEqual_perm {A} `{EqDecision A} (l1 l2 : list A) :
  NoDup l1 → unordered_DeepEqual l1 l2 = true → l1 ≡ₚ l2.
Proof.
  unfold unordered_DeepEqual. rewrite andb_true_iff, bool_decide_eq_true, forallb_forall. intros HN [HL HF].
  apply submseteq_length_Permutation; [|lia]. apply NoDup_submseteq; [done|].
  intros x Hx. by apply list_elem_of_In, HF, bool_decide_eq_true in Hx.
Qed.

Section l7.
Context {HReq DReq : Type} (http_match : PortRuleHTTP → HReq → Prop) (dns_match : PortRuleDNS → DReq → Prop).
Context (Hhttp : ∀ q, http_match wildcardHTTP q) (Hdns : ∀ q, dns_match wildcardDNS q).

(** The requests the rules of a policy allow: all without rules. *)
Definition allows (r : L7Rules) (q : HReq + DReq) : Prop :=
  L7Rules_IsEmpty (Some r) = true ∨
  match q with
  | inl q => ∃ h, h ∈ HTTP r ∧ http_match h q
  | inr q => ∃ d, d ∈ DNS r ∧ dns_match d q
  end.

(** Rules for the protocol of the request only. *)
Definition of_kind (q : HReq + DReq) (r : L7Rules) : Prop :=
  match q with inl _ => DNS r = [] | inr _ => HTTP r = [] end.

Lemma IsEmpty_iff r : L7Rules_IsEmpty (Some r) = true ↔ HTTP r = [] ∧ DNS r = [].
Proof.
  unfold L7Rules_IsEmpty, L7Rules_Len. rewrite Z.eqb_eq.
  destruct (HTTP r), (DNS r); simpl; split; try done; try lia; by intros [? ?].
Qed.

Lemma HasL7Rules_iff a : HasL7Rules a = false ↔ L7Rules_IsEmpty (Some (policy_rules a)) = true.
Proof. destruct a; simpl; [|done]. by rewrite negb_false_iff. Qed.

Lemma HasL7Rules_rules (p : PerSelectorPolicy) : HasL7Rules (Some p) = true →
  ¬ (HTTP (psp_L7Rules p) = [] ∧ DNS (psp_L7Rules p) = []).
Proof. unfold HasL7Rules. rewrite negb_true_iff, <- IsEmpty_iff. congruence. Qed.

Lemma no_rules_allow a q : HasL7Rules a = false → allows (policy_rules a) q.
Proof. intros H. left. by apply HasL7Rules_iff. Qed.

Lemma wildcard_allows p q : of_kind q (psp_L7Rules p) → HasL7Rules (Some p) = true →
  allows (psp_L7Rules (appendL7WildcardRule p)) q.
Proof.
  intros Hk Hr. right. unfold appendL7WildcardRule, PortRuleHTTP_Exists, PortRuleDNS_Exists.
  apply HasL7Rules_rules in Hr as Hne.
  destruct q as [q|q]; simpl in Hk.
  - destruct (HTTP (psp_L7Rules p)) as [|h hs] eqn:EH; [by destruct Hne|].
    exists wildcardHTTP. split; [|apply Hhttp]. rewrite <- EH. case_bool_decide; [done|]. simpl. set_solver.
  - rewrite Hk in *. destruct (DNS (psp_L7Rules p)) as [|d ds] eqn:ED; [by destruct Hne|].
    exists wildcardDNS. split; [|apply Hdns]. rewrite <- ED. case_bool_decide; [done|]. simpl. set_solver.
Qed.

Lemma merge_L7_allows a b q : of_kind q (psp_L7Rules a) → of_kind q (psp_L7Rules b) →
  allows (psp_L7Rules (merge_L7 a b)) q ↔ allows (psp_L7Rules a) q ∨ allows (psp_L7Rules b) q.
Proof.
  intros Ha Hb. unfold merge_L7. destruct (HasL7Rules (Some a)) eqn:Ea, (HasL7Rules (Some b)) eqn:Eb; cbn [negb andb].
  - unfold allows. rewrite !IsEmpty_iff. cbn [psp_L7Rules set_L7Rules HTTP DNS].
    apply HasL7Rules_rules in Ea as Na, Eb as Nb.
    assert (Nm : ¬ (merge_HTTP (HTTP (psp_L7Rules a)) (HTTP (psp_L7Rules b)) = [] ∧
                    merge_DNS (DNS (psp_L7Rules a)) (DNS (psp_L7Rules b)) = [])).
    { intros [E1 E2]. apply Na. split; apply elem_of_nil_inv; intros x Hx.
      - apply (elem_of_nil x). rewrite <- E1. unfold merge_HTTP. rewrite elem_of_merge. by left.
      - apply (elem_of_nil x). rewrite <- E2. unfold merge_DNS. rewrite elem_of_merge. by left. }
    destruct q; unfold merge_HTTP, merge_DNS in *; setoid_rewrite elem_of_merge; naive_solver.
  - split; [right; by apply (no_rules_allow (Some b))|intros _; by apply wildcard_allows].
  - split; [left; by apply (no_rules_allow (Some a))|intros _; cbn [set_L7Rules psp_L7Rules]; by apply wildcard_allows].
  - apply HasL7Rules_iff, IsEmpty_iff in Ea as [H1 D1]. apply HasL7Rules_iff, IsEmpty_iff in Eb as [H2 D2].
    cbn [policy_rules] in *. cbn [set_L7Rules psp_L7Rules]. rewrite H1, H2, D1, D2. unfold allows.
    rewrite !IsEmpty_iff. cbn [HTTP DNS]. naive_solver.
Qed.

Lemma DeepEqual_allows r r' q : NoDup (HTTP r) → NoDup (DNS r) → L7Rules_DeepEqual r r' = true →
  allows r q ↔ allows r' q.
Proof.
  unfold L7Rules_DeepEqual. rewrite andb_true_iff. intros H1 H2 [P1 P2].
  apply unordered_DeepEqual_perm in P1, P2; [|done..]. unfold allows. rewrite !IsEmpty_iff.
  assert (HTTP r = [] ↔ HTTP r' = []) as ->
    by (split; intros E; rewrite E in P1; [by apply Permutation_nil_l in P1|by apply Permutation_nil_r in P1]).
  assert (DNS r = [] ↔ DNS r' = []) as ->
    by (split; intros E; rewrite E in P2; [by apply Permutation_nil_l in P2|by apply Permutation_nil_r in P2]).
  destruct q; [by setoid_rewrite P1|by setoid_rewrite P2].
Qed.

(** C39. Merging two allow policies of a selector at one priority, when it does not fail, gives a
    policy with the server names of both, whose rules allow exactly the HTTP or DNS requests that the
    rules of one of them allow; provided the rules of the first list none twice, and both have rules
    for the protocol of the request only, as validation ensures (or no rules, which allow all
    requests).  Server names and rules are merged separately: the request of a rule is allowed for
    the names of both policies. *)
Theorem merge_policy_union (e n p : option PerSelectorPolicy) (eo no o : ruleOrigin) (q : HReq + DReq) :
  merge_policy e n eo no = inr (p, o) → GetPriority e = GetPriority n →
  GetVerdict e = Allow → GetVerdict n = Allow →
  NoDup (HTTP (policy_rules e)) → NoDup (DNS (policy_rules e)) →
  of_kind q (policy_rules e) → of_kind q (policy_rules n) →
  policy_names p = policy_names e ∪ policy_names n ∧
  (allows (policy_rules p) q ↔ allows (policy_rules e) q ∨ allows (policy_rules n) q).
Proof.
  unfold merge_policy. intros H EP Ve Vn N1 N2 Ke Kn. destruct (PerSelectorPolicy_Equal e n) eqn:Eq.
  - injection H as <- <-. assert (allows (policy_rules e) q ↔ allows (policy_rules n) q).
    { destruct e as [e|], n as [n|]; try done. apply DeepEqual_allows; [done..|].
      unfold PerSelectorPolicy_Equal in Eq. rewrite !andb_true_iff in Eq. apply Eq. }
    split; [|tauto]. destruct e as [e|], n as [n|]; try done. unfold PerSelectorPolicy_Equal in Eq. rewrite !andb_true_iff in Eq.
    destruct Eq as [[[[[_ HN%StringSet_Equal_eq] _] _] _] _]. cbn. set_solver.
  - assert (HP : HasPrecedenceOver e n = false ∧ HasPrecedenceOver n e = false).
    { unfold HasPrecedenceOver. by rewrite Ve, Vn. }
    destruct HP as [HP1 HP2]. rewrite EP, HP1, HP2, Z.ltb_irrefl, andb_false_r in H. cbn [orb] in H.
    apply sbind_inr in H as (m & Hm & [= <- <-]).
    split; [apply merge_allow_names in Hm; cbn [policy_names]; rewrite Hm; by destruct e, n|].
    apply merge_allow_inv in Hm as (r & (_ & _ & Er)%mergeRedirect_rank & t & o' & ns & ->).
    assert (Hd : ∀ a : option PerSelectorPolicy, psp_L7Rules (default emptyPolicy a) = policy_rules a) by by intros [].
    rewrite Hd in Er. cbn [policy_rules]. rewrite merge_L7_allows; cbn [set_TLS psp_L7Rules]; by rewrite ?Er, ?Hd.
Qed.
End l7.

(** A policy of HTTP rules. *)
Definition http_policy (paths : list string) : option PerSelectorPolicy :=
  Some (mkPSP ParserTypeHTTP 0 Allow ListenerPriorityHTTP "" None None ∅
          (mkL7Rules (map (λ p, mkHTTP p "" "" [] []) paths) [])).

Definition path_match (h : PortRuleHTTP) (path : string) : Prop := Path h = "" ∨ Path h = path.

Lemma merge_policy_union_witness :
  ∃ p o, merge_policy (http_policy ["/a"]) (http_policy ["/b"; "/a"]) None None = inr (p, o) ∧
  policy_names p = policy_names (http_policy ["/a"]) ∪ policy_names (http_policy ["/b"; "/a"]) ∧
  (allows path_match (λ _ (_ : unit), True) (policy_rules p) (inl "/b") ↔
   allows path_match (λ _ (_ : unit), True) (policy_rules (http_policy ["/a"])) (inl "/b") ∨
   allows path_match (λ _ (_ : unit), True) (policy_rules (http_policy ["/b"; "/a"])) (inl "/b")).
Proof.
  eexists _, _. split; [by vm_compute|].
  eapply (merge_policy_union path_match (λ _ _, True) ltac:(by left) ltac:(done)
    (http_policy ["/a"]) (http_policy ["/b"; "/a"]) _ None None _ (inl "/b"));
    [by vm_compute|done|done|done| | |done|done]; apply (bool_decide_eq_true_1 _); by vm_compute.
Defined.

(** With a rule listed twice the comparison of [L7Rules_DeepEqual] takes different
    rules for equal, and the merge loses the other policy's rule: the path it allows is
    no longer allowed. *)
Theorem merge_policy_drops_rule :
  PerSelectorPolicy_Equal (http_policy ["/a"; "/a"]) (http_policy ["/a"; "/b"]) = true ∧
  PerSelectorPolicy_Equal (http_policy ["/a"; "/b"]) (http_policy ["/a"; "/a"]) = false ∧
  ∃ p o, merge_policy (http_policy ["/a"; "/a"]) (http_policy ["/a"; "/b"]) None None = inr (p, o) ∧
    allows path_match (λ _ (_ : unit), True) (policy_rules (http_policy ["/a"; "/b"])) (inl "/b") ∧
    ¬ allows path_match (λ _ (_ : unit), True) (policy_rules p) (inl "/b").
Proof.
  split; [by vm_compute|]. split; [by vm_compute|]. eexists _, _. split; [by vm_compute|]. split.
  - right. exists (mkHTTP "/b" "" "" [] []). split; [cbn; set_solver|by right].
  - intros [H|(h & Hh & Hm)]; [by vm_compute in H|]. cbn in Hh. rewrite !elem_of_cons, elem_of_nil in Hh.
    destruct Hh as [-> |[-> |[]]]; by destruct Hm.
Qed.
