(* ===== verification/L4Resolve.v ===== *)
(** * Resolution of rules into L4 policies

    After any sequence of rules the filters of the policy maps stand for the rules: each
    selector of a filter has the priority and verdict of one of the rules with that
    selector, port and protocol in the tier, and of none that another of them takes
    precedence over. *)

From Stdlib Require Import QArith Ascii.
From S2P Require Import Prelude Precedence BitLPM PolicyKey RuleOrigin PassMeta MapState.
From S2P Require Import PolicyRule TierPriorities L4Types L4Filter L4Merge.

Local Open Scope Z_scope.

(** ** Keys of filters *)

Inductive fkey := FNamed (name proto : string) | FRange (port endPort proto : Z).

#[export] Instance fkey_eq_dec : EqDecision fkey.
Proof. solve_decision. Defined.

Definition filter_fkey (f : L4Filter) : fkey :=
  if bool_decide (PortName f = "") then FRange (Port f) (EndPort f) (U8Proto f)
  else FNamed (PortName f) (Protocol f).

(** The key of the filter of a port. *)
Definition port_fkey (p : PortProtocol) : fkey :=
  if IsSvcName (pp_Port p) then FNamed (pp_Port p) (pp_Protocol p)
  else FRange (ParseUint16 (pp_Port p)) (uwrap 16 (pp_EndPort p)) (default 0 (ParseProtocol (pp_Protocol p))).

Definition fkey_ok (k : fkey) : Prop :=
  match k with FNamed n _ => IsSvcName n = true | FRange _ _ _ => True end.

Definition map_at (m : L4PolicyMap) (k : fkey) : option L4Filter :=
  match k with
  | FNamed n p => NamedPortMap m !! (n +:+ "/" +:+ p)
  | FRange p e u => RangePortMap m !! mkPortProto p e u
  end.

(** A service name has no slash, so that the string of a named port determines it. *)
Lemma svc_name_no_slash l : ∀ d b, svc_name d b l = true → ∀ c, c ∈ l → c ≠ "/"%char.
Proof.
  induction l as [|c l IH]; intros d b H x; simpl in *; [by intros ?%elem_of_nil|].
  intros [-> |Hx]%elem_of_cons; [intros ->; by vm_compute in H|].
  destruct (is_alnum c); [by apply (IH _ _ H)|]. destruct (_ && _); [|done]. by apply (IH _ _ H).
Qed.

Lemma app_slash_inj (l1 l2 r1 r2 : list ascii) : (∀ c, c ∈ l1 → c ≠ "/"%char) → (∀ c, c ∈ l2 → c ≠ "/"%char) →
  l1 ++ "/"%char :: r1 = l2 ++ "/"%char :: r2 → l1 = l2 ∧ r1 = r2.
Proof.
  revert l2. induction l1 as [|x l1 IH]; intros [|y l2] H1 H2; simpl; intros E; injection E as E1.
  - done.
  - destruct (H2 y); [by left|done].
  - destruct (H1 x); [by left|done].
  - subst y. destruct (IH l2) as [-> ->]; [set_solver..|done|done].
Qed.

Lemma string_list_app s t : String.list_ascii_of_string (s +:+ t) = String.list_ascii_of_string s ++ String.list_ascii_of_string t.
Proof. induction s as [|c s IH]; simpl; [done|]. unfold String.app in *. by f_equal. Qed.

Lemma string_list_inj s t : String.list_ascii_of_string s = String.list_ascii_of_string t → s = t.
Proof. revert t. induction s as [|c s IH]; intros [|d t]; simpl; intros [= ]; [done|]. subst. f_equal. by apply IH. Qed.

Lemma named_key_inj n p n' p' : IsSvcName n = true → IsSvcName n' = true →
  n +:+ "/" +:+ p = n' +:+ "/" +:+ p' → n = n' ∧ p = p'.
Proof.
  unfold IsSvcName. rewrite !andb_true_iff. intros [_ H1] [_ H2] E.
  apply (f_equal String.list_ascii_of_string) in E. rewrite !string_list_app in E. simpl in E.
  apply app_slash_inj in E as [E1%string_list_inj E2%string_list_inj]; [done|by eapply svc_name_no_slash..].
Qed.

(** ** Stored filters *)

Section stored.
Implicit Types (m : L4PolicyMap) (f : L4Filter) (k : fkey).

(** Every filter is stored under its key. *)
Record map_ok m : Prop := {
  mo_named s f : NamedPortMap m !! s = Some f → PortName f ≠ "" ∧ s = PortName f +:+ "/" +:+ Protocol f;
  mo_range (k : portProtoKey) f : RangePortMap m !! k = Some f → PortName f = "" ∧ k = mkPortProto (Port f) (EndPort f) (U8Proto f);
  mo_key f : map_at m (filter_fkey f) = Some f → fkey_ok (filter_fkey f);
}.

Lemma map_at_key m k f : map_ok m → fkey_ok k → map_at m k = Some f → filter_fkey f = k.
Proof.
  intros [MN MR MK] Hk Hm. unfold filter_fkey in *. destruct k as [n p|p e u]; simpl in *.
  - destruct (MN _ _ Hm) as [Hn Hs]. specialize (MK f). rewrite bool_decide_false in MK |- * by done.
    simpl in MK. rewrite <- Hs in MK. specialize (MK Hm).
    by apply named_key_inj in Hs as [-> ->].
  - destruct (MR _ _ Hm) as [Hn Hs]. rewrite bool_decide_true by done. by injection Hs as -> -> ->.
Qed.

Lemma upsert_at m f k : fkey_ok k → fkey_ok (filter_fkey f) →
  map_at (L4PolicyMap_upsert m f) k = if decide (k = filter_fkey f) then Some f else map_at m k.
Proof.
  intros Hk Hf. unfold L4PolicyMap_upsert, filter_fkey in *.
  destruct (bool_decide (PortName f = "")) eqn:E; cbn [negb] in *.
  - destruct k as [n p|p e u]; cbn [map_at NamedPortMap RangePortMap]; [by rewrite decide_False by done|].
    destruct (decide (FRange p e u = _)) as [D|D]; [injection D as -> -> ->; apply lookup_insert_eq|].
    rewrite lookup_insert_ne; [done|]. intros [= ? ? ?]. by destruct D; subst.
  - destruct k as [n p|p e u]; cbn [map_at NamedPortMap RangePortMap]; [|by rewrite decide_False by done].
    destruct (decide (FNamed n p = _)) as [D|D]; [injection D as -> ->; apply lookup_insert_eq|].
    rewrite lookup_insert_ne; [done|]. intros Es. apply named_key_inj in Es as [? ?]; [|done..]. by destruct D; subst.
Qed.
End stored.

(** ** Merging of filters *)

Section merging.
Context {SK : SelectorKeys} {GR : GoRange}.
Implicit Types (f ex fm : L4Filter) (cs : string).

Definition shape f : Z * Z * Z * Z * string * string * bool :=
  (f_Tier f, U8Proto f, Port f, EndPort f, Protocol f, PortName f, f_Ingress f).

Lemma shape_fkey f ex : shape f = shape ex → filter_fkey f = filter_fkey ex.
Proof. intros [= ? ? ? ? ? E ?]. unfold filter_fkey. rewrite E. case_bool_decide; congruence. Qed.

(** The wildcard field agrees with the policies. *)
Definition wild_ok f : Prop :=
  wildcard f = if decide (is_Some (PerSelectorPolicies f !! wildcardSelectorKey)) then Some wildcardSelectorKey else None.

(** The policy of a selector after the merge. *)
Definition merged_at ex fm f cs : Prop :=
  match PerSelectorPolicies fm !! cs, PerSelectorPolicies ex !! cs with
  | None, e => PerSelectorPolicies f !! cs = e
  | Some n, None => PerSelectorPolicies f !! cs = Some n
  | Some n, Some e =>
      if IsNone cs then PerSelectorPolicies f !! cs = Some e
      else ∃ p eo no o, PerSelectorPolicies f !! cs = Some p ∧ merge_policy e n eo no = inr (p, o)
  end.

Lemma merge_selector_spec fm f cs f' : merge_selector fm f cs = inr f' → wild_ok f →
  shape f' = shape f ∧ wild_ok f' ∧ merged_at f fm f' cs ∧
  ∀ cs', cs' ≠ cs → PerSelectorPolicies f' !! cs' = PerSelectorPolicies f !! cs'.
Proof.
  intros H W. unfold merge_selector, merged_at in *.
  destruct (PerSelectorPolicies fm !! cs) as [n|] eqn:En; [|by injection H as <-].
  destruct (PerSelectorPolicies f !! cs) as [e|] eqn:Ee.
  - destruct (IsNone cs); [by injection H as <-|].
    apply sbind_inr in H as ([p o] & Hm & [= <-]). split; [done|]. split; [|split].
    + unfold wild_ok in *. cbn [wildcard PerSelectorPolicies set_policies fst]. rewrite W.
      destruct (decide (cs = wildcardSelectorKey)) as [-> |Hne].
      * rewrite Ee, lookup_insert_eq. by rewrite !decide_True by done.
      * by rewrite lookup_insert_ne.
    + exists p, (default None (RuleOrigin f !! cs)), (default None (RuleOrigin fm !! cs)), o.
      split; [apply lookup_insert_eq|done].
    + intros cs' Hne. cbn [PerSelectorPolicies set_policies]. by rewrite lookup_insert_ne.
  - injection H as <-. split; [done|]. cbn [wildcard PerSelectorPolicies set_policies]. split; [|split].
    + unfold wild_ok in *. cbn [wildcard PerSelectorPolicies set_policies]. rewrite W. unfold IsWildcard.
      case_bool_decide as D.
      * subst. rewrite lookup_insert_eq. by rewrite decide_True by done.
      * by rewrite lookup_insert_ne by done.
    + apply lookup_insert_eq.
    + intros cs' Hne. by rewrite lookup_insert_ne.
Qed.

Lemma mergePortProto_spec ex fm f : mergePortProto ex fm = inr f → wild_ok ex →
  f_Tier ex = f_Tier fm ∧ shape f = shape ex ∧ wild_ok f ∧ ∀ cs, merged_at ex fm f cs.
Proof.
  unfold mergePortProto. destruct (Z.eqb_spec (f_Tier ex) (f_Tier fm)) as [Et|]; [|done]. cbn [negb]. intros H W.
  split; [done|]. set (l := range (dom (PerSelectorPolicies fm))) in *.
  assert (Hl : l ≡ₚ elements (dom (PerSelectorPolicies fm))) by apply range_perm.
  assert (HN : NoDup l) by (rewrite Hl; apply NoDup_elements).
  assert (HI : shape f = shape ex ∧ wild_ok f ∧ ∀ cs, (cs ∈ l → merged_at ex fm f cs) ∧
    (cs ∉ l → PerSelectorPolicies f !! cs = PerSelectorPolicies ex !! cs)).
  { apply (each_ind (merge_selector fm) (λ l f, shape f = shape ex ∧ wild_ok f ∧ ∀ cs, (cs ∈ l → merged_at ex fm f cs) ∧
      (cs ∉ l → PerSelectorPolicies f !! cs = PerSelectorPolicies ex !! cs)) l ex f); [| |done].
    - intros l1 x l2 g g' El (S1 & W1 & M1) Hg. destruct (merge_selector_spec _ _ _ _ Hg W1) as (S2 & W2 & M2 & K2).
      split; [congruence|]. split; [done|].
      assert (Hx : x ∉ l1). { rewrite El in HN. apply NoDup_app in HN as (_ & HN & _). intros Hx. apply (HN x Hx). by left. }
      assert (Ex : PerSelectorPolicies g !! x = PerSelectorPolicies ex !! x) by by apply M1.
      intros cs. rewrite elem_of_app, list_elem_of_singleton. destruct (decide (cs = x)) as [-> |Hne].
      + split; [|naive_solver]. intros _. unfold merged_at in *. by rewrite <- Ex.
      + unfold merged_at in *. rewrite K2 by done. destruct (M1 cs) as [M3 M4]. naive_solver.
    - split; [done|]. split; [done|]. intros cs. split; [by intros ?%elem_of_nil|done]. }
  destruct HI as (S & W' & M). split; [done|]. split; [done|]. intros cs. destruct (M cs) as [M1 M2].
  destruct (decide (cs ∈ l)) as [Hc|Hc]; [by apply M1|]. unfold merged_at.
  destruct (PerSelectorPolicies fm !! cs) as [n|] eqn:En; [|by apply M2].
  destruct Hc. rewrite Hl, elem_of_elements. by apply elem_of_dom_2 in En.
Qed.
End merging.

(** ** Filters of a rule *)

Section rules.
Context {SK : SelectorKeys} {GR : GoRange}.
Implicit Types (f ex fm g : L4Filter) (m : L4PolicyMap) (cs : string) (r : PolicyEntry).

Definition stored m f : Prop := map_at m (filter_fkey f) = Some f.

Lemma upsert_stored m f : map_ok m → fkey_ok (filter_fkey f) →
  map_ok (L4PolicyMap_upsert m f) ∧ ∀ g, stored (L4PolicyMap_upsert m f) g ↔ g = f ∨ stored m g ∧ filter_fkey g ≠ filter_fkey f.
Proof.
  intros M Hf. assert (HS : ∀ g, stored (L4PolicyMap_upsert m f) g → g = f ∨ stored m g ∧ filter_fkey g ≠ filter_fkey f).
  { intros g. unfold stored. destruct (decide (filter_fkey g = filter_fkey f)) as [E|E].
    - rewrite E, upsert_at, decide_True by done. intros [= ->]. by left.
    - intros Hg. right. split; [|done]. destruct M as [MN MR _].
      unfold L4PolicyMap_upsert, filter_fkey in *.
      destruct (bool_decide (PortName f = "")) eqn:Ef, (bool_decide (PortName g = "")) eqn:Eg; cbn [negb map_at NamedPortMap RangePortMap] in *; try done.
      + rewrite lookup_insert_ne in Hg; [done|]. intros [= E1 E2 E3]. apply E. by rewrite E1, E2, E3.
      + destruct (decide (PortName f +:+ "/" +:+ Protocol f = PortName g +:+ "/" +:+ Protocol g)) as [Es|Es].
        * rewrite Es, lookup_insert_eq in Hg. injection Hg as ->. by destruct E.
        * by rewrite lookup_insert_ne in Hg. }
  assert (M' : map_ok (L4PolicyMap_upsert m f)).
  { pose proof M as [MN MR MK]. constructor.
    - intros s g. unfold L4PolicyMap_upsert. destruct (bool_decide (PortName f = "")) eqn:Ef; cbn [negb NamedPortMap]; [apply MN|].
      apply bool_decide_eq_false in Ef. destruct (decide (PortName f +:+ "/" +:+ Protocol f = s)) as [<- |Hne];
        [rewrite lookup_insert_eq; by intros [= <-]|rewrite lookup_insert_ne by done; apply MN].
    - intros k g. unfold L4PolicyMap_upsert. destruct (bool_decide (PortName f = "")) eqn:Ef; cbn [negb RangePortMap]; [|apply MR].
      apply bool_decide_eq_true in Ef. destruct (decide (mkPortProto (Port f) (EndPort f) (U8Proto f) = k)) as [<- |Hne];
        [rewrite lookup_insert_eq; by intros [= <-]|rewrite lookup_insert_ne by done; apply MR].
    - intros g Hg. destruct (HS g Hg) as [-> |[Hs _]]; [done|by apply MK]. }
  split; [done|]. intros g. split; [apply HS|]. intros [-> |[Hg Hne]]; unfold stored.
  - by rewrite upsert_at, decide_True.
  - rewrite upsert_at; [by rewrite decide_False|by apply (mo_key _ M)|done].
Qed.

Definition rule_css r : list string := AddSelectorsTxn (default [] (L3 r)).

(** The ports of a rule, with the port rules they come from. *)
Definition rule_ports r : list (PortRule * PortProtocol) :=
  match L3 r with
  | None => []
  | Some l3 =>
      (if bool_decide (L4 r = []) && negb (bool_decide (l3 = []))
       then [(emptyPortRule, mkPortProtocol "0" 0 ProtoAny)] else []) ++
      (L4 r ≫= λ pr, Ports pr ≫= λ p, map (pair pr) (port_protocols p))
  end.

Lemma each_bind {A B S} (f : S → B → error + S) (g : A → list B) (l : list A) : ∀ s,
  each f s (l ≫= g) = each (λ s x, each f s (g x)) s l.
Proof.
  induction l as [|x l IH]; intros s; [done|]. cbn [mbind list_bind each]. rewrite each_app.
  destruct (each f s (g x)); simpl; [done|apply IH].
Qed.

Lemma each_ext {A S} (f g : S → A → error + S) l : (∀ s x, f s x = g s x) → ∀ s, each f s l = each g s l.
Proof. intros E. induction l as [|x l IH]; intros s; simpl; [done|]. rewrite E. destruct (g s x); simpl; [done|apply IH]. Qed.

Lemma mergeL4Filter_ports c m r :
  mergeL4Filter c m r = each (λ m x, addFilter c r m x.1 x.2) m (rule_ports r).
Proof.
  unfold mergeL4Filter, rule_ports. destruct (L3 r) as [l3|]; [|done]. rewrite each_app.
  destruct (_ && _); cbn [each sbind]; [destruct (addFilter c r m _ _) as [|m']; [done|]; cbn [sbind]|];
    rewrite each_bind; apply each_ext; intros s pr; rewrite each_bind; apply each_ext; intros s' p;
    apply (each_map (λ m (x : PortRule * PortProtocol), addFilter c r m x.1 x.2) (pair pr)).
Qed.

(** Ports as the validation of rules leaves them: no port without a protocol, no end of a
    named port, whose protocol is one with the name of its number; and priorities of listeners
    fit a byte. *)
Record port_ok (p : PortProtocol) : Prop := {
  po_any : ParseProtocol (pp_Protocol p) = Some 0 ∨ ParseProtocol (pp_Protocol p) = None →
    IsSvcName (pp_Port p) = false ∧ ParseUint16 (pp_Port p) = 0;
  po_named : IsSvcName (pp_Port p) = true →
    U8proto_String (default 0 (ParseProtocol (pp_Protocol p))) = pp_Protocol p ∧ uwrap 16 (pp_EndPort p) = 0;
}.

Definition listener_ok (pr : PortRule) : Prop := ∀ l, pr_Listener pr = Some l → is_uint 8 (Listener_Priority l).

Definition rule_ok r : Prop := Forall (λ x, listener_ok x.1 ∧ port_ok x.2) (rule_ports r).

Definition proto_ok f : Prop := PortName f ≠ "" → U8proto_String (U8Proto f) = Protocol f ∧
  U8Proto f = default 0 (ParseProtocol (Protocol f)) ∧ Port f = 0 ∧ EndPort f = 0.

Lemma defaultPriority_byte s : is_uint 8 (defaultPriority s).
Proof. unfold defaultPriority, is_uint. repeat case_decide; by vm_compute. Qed.

Lemma resolve_l7_listener c pr proto l : listener_ok pr → resolve_l7 c pr proto = inr l → is_uint 8 (lp_listenerPriority l).
Proof.
  unfold resolve_l7. intros HL (t & _ & (o & _ & ([n p] & Hl & [= <-])%sbind_inr)%sbind_inr)%sbind_inr.
  cbn [lp_listenerPriority snd]. unfold resolve_listener in Hl. destruct (pr_Listener pr) as [x|] eqn:E.
  - apply sbind_inr in Hl as (ns & _ & [= <- <-]). case_bool_decide; [by apply HL|apply defaultPriority_byte].
  - injection Hl as <- <-. apply defaultPriority_byte.
Qed.

Lemma lookup_css {A} (v : A) css cs : (list_to_map (map (λ cs, (cs, v)) css) : gmap string A) !! cs = Some v ∨
  cs ∉ css ∧ (list_to_map (map (λ cs, (cs, v)) css) : gmap string A) !! cs = None.
Proof.
  induction css as [|x css IH]; [right; split; [apply not_elem_of_nil|done]|].
  cbn [map list_to_map foldr uncurry]. destruct (decide (x = cs)) as [-> |Hne]; [left; apply lookup_insert_eq|].
  rewrite lookup_insert_ne by done. rewrite not_elem_of_cons. naive_solver.
Qed.

(** The policy of a created filter. *)
Definition policy_of r (q : Z) (pol : option PerSelectorPolicy) : Prop :=
  GetPriority pol = q ∧ GetVerdict pol = pe_Verdict r ∧ is_uint 8 (GetListenerPriority pol).

Lemma svc_empty p : IsSvcName p = true → p ≠ "".
Proof. by intros H ->. Qed.

Lemma created_policy c r pr l7 : is_uint 8 (lp_listenerPriority l7) →
  policy_of r (ctx_priority c) (addPolicyForSelector c r pr l7).
Proof.
  intros Hl. unfold addPolicyForSelector, policy_of.
  destruct (_ || _ || _) eqn:E; [done|]. rewrite !orb_false_iff, !negb_false_iff, Z.eqb_eq in E.
  destruct E as [[_ E2] ->]. apply bool_decide_eq_true_1 in E2. by rewrite E2.
Qed.

Lemma existsb_wildcard css : existsb IsWildcard css = bool_decide (wildcardSelectorKey ∈ css).
Proof.
  apply eq_true_iff_eq. rewrite existsb_exists, bool_decide_eq_true. unfold IsWildcard. split.
  - intros (x & Hx & ->%bool_decide_eq_true_1). by apply list_elem_of_In.
  - intros Hw. exists wildcardSelectorKey. split; [by apply list_elem_of_In|by apply bool_decide_eq_true_2].
Qed.

Lemma lookup_policies {A} (v : A) css cs : (list_to_map (map (λ cs, (cs, v)) css) : gmap string A) !! cs =
  if bool_decide (cs ∈ css) then Some v else None.
Proof.
  destruct (lookup_css v css cs) as [E|[Hn E]]; rewrite E; [|by rewrite bool_decide_false].
  rewrite bool_decide_true; [done|]. apply elem_of_list_to_map_2 in E.
  apply list_elem_of_In, in_map_iff in E as (x & [= ->] & Hx). by apply list_elem_of_In.
Qed.

Lemma createL4Filter_spec c r pr p f : createL4Filter c r pr p = inr f → listener_ok pr → port_ok p →
  filter_fkey f = port_fkey p ∧ fkey_ok (port_fkey p) ∧ proto_ok f ∧ f_Tier f = ctx_tier c ∧
  f_Ingress f = pe_Ingress r ∧ wild_ok f ∧
  ∃ pol, policy_of r (ctx_priority c) pol ∧
    ∀ cs, PerSelectorPolicies f !! cs = if bool_decide (cs ∈ rule_css r) then Some pol else None.
Proof.
  intros (l & Hl & Hf)%sbind_inr HL HP. apply (inj inr) in Hf. subst f. pose proof (resolve_l7_listener _ _ _ _ HL Hl) as Hlp.
  unfold filter_fkey, port_fkey, proto_ok, wild_ok. cbn [PortName Port EndPort Protocol U8Proto wildcard PerSelectorPolicies].
  fold (rule_css r). rewrite existsb_wildcard, lookup_policies.
  split; [destruct (IsSvcName (pp_Port p)) eqn:En; [by rewrite bool_decide_false by by apply svc_empty|done]|].
  split; [by destruct (IsSvcName (pp_Port p)) eqn:En|]. split; [|split; [done|split; [done|split]]].
  - destruct (IsSvcName (pp_Port p)) eqn:En; [|done]. intros _. by destruct (po_named _ HP En).
  - case_bool_decide; [by rewrite decide_True|rewrite decide_False; [done|by intros [? ?]]].
  - eexists. split; [by apply created_policy|]. intros cs. apply lookup_policies.
Qed.
End rules.

(** ** The rules behind the filters *)

Section summary.
Context {SK : SelectorKeys} {GR : GoRange} (ingress : bool).
Implicit Types (f g : L4Filter) (m : L4PolicyMap) (cs : string) (r : PolicyEntry) (pp : PortProtocol).

(** A rule at a priority and one of its ports. *)
Definition atom : Type := PolicyEntry * Z * PortProtocol.

(** A policy takes precedence over a rule at a priority, or has its rank. *)
Definition beats (pol : option PerSelectorPolicy) (q : Z) (v : Verdict) : Prop :=
  GetPriority pol < q ∨ GetPriority pol = q ∧ verdictOrder (GetVerdict pol) ≤ verdictOrder v.

Record summary (t : Z) (A : list atom) m : Prop := {
  sm_map : map_ok m;
  sm_filter f : stored m f → f_Tier f = t ∧ f_Ingress f = ingress ∧ wild_ok f ∧ proto_ok f;
  sm_sound f cs pol : stored m f → PerSelectorPolicies f !! cs = Some pol →
    ∃ r q pp, (r, q, pp) ∈ A ∧ cs ∈ rule_css r ∧ port_fkey pp = filter_fkey f ∧ policy_of r q pol;
  sm_complete r q pp cs : (r, q, pp) ∈ A → cs ∈ rule_css r → IsNone cs = false →
    ∃ f pol, stored m f ∧ filter_fkey f = port_fkey pp ∧ PerSelectorPolicies f !! cs = Some pol ∧
      beats pol q (pe_Verdict r);
}.

Lemma not_stored_empty f : ¬ stored makeL4PolicyMap f.
Proof. unfold stored. destruct (filter_fkey f); cbn; by rewrite lookup_empty. Qed.

Lemma empty_summary t : summary t [] makeL4PolicyMap.
Proof.
  constructor.
  - constructor; [intros ? ?; cbn; by rewrite lookup_empty..|]. by intros f ?%not_stored_empty.
  - by intros f ?%not_stored_empty.
  - by intros f cs pol ?%not_stored_empty.
  - by intros r q pp cs ?%elem_of_nil.
Qed.

Lemma beats_policy_of r q pol : policy_of r q pol → beats pol q (pe_Verdict r).
Proof. intros (E1 & E2 & _). right. rewrite E1, E2. lia. Qed.

Lemma beats_outranks p pol q v : outranks p pol → beats pol q v → beats p q v.
Proof. unfold outranks, beats. lia. Qed.

Lemma exactLookup_at m f : proto_ok f → exactLookupFilter m f = map_at m (filter_fkey f).
Proof.
  intros HP. unfold exactLookupFilter, filter_fkey, ExactLookupPortName, ExactLookupPortNum.
  case_bool_decide as E; cbn [negb map_at]; [done|]. by rewrite (proj1 (HP E)).
Qed.

(** Replacing the filter of the new atom's key, the rest being kept. *)
Lemma upsert_summary t A m r q pp f pol : summary t A m → wild_ok f → proto_ok f → f_Tier f = t → f_Ingress f = ingress →
  filter_fkey f = port_fkey pp → fkey_ok (port_fkey pp) → policy_of r q pol →
  (∀ cs p, PerSelectorPolicies f !! cs = Some p →
    (cs ∈ rule_css r ∧ policy_of r q p) ∨
    ∃ r' q' pp', (r', q', pp') ∈ A ∧ cs ∈ rule_css r' ∧ port_fkey pp' = filter_fkey f ∧ policy_of r' q' p) →
  (∀ cs, cs ∈ rule_css r → IsNone cs = false → ∃ p, PerSelectorPolicies f !! cs = Some p ∧ beats p q (pe_Verdict r)) →
  (∀ g cs p, stored m g → filter_fkey g = filter_fkey f → PerSelectorPolicies g !! cs = Some p → IsNone cs = false →
    ∃ p', PerSelectorPolicies f !! cs = Some p' ∧ outranks p' p) →
  summary t (A ++ [(r, q, pp)]) (L4PolicyMap_upsert m f).
Proof.
  intros [SM SF SS SC] HW HP Et Ei Ek Hk Hpol Hsound Hnew Hold.
  destruct (upsert_stored m f SM) as [M' HS]; [by rewrite Ek|]. constructor.
  - done.
  - intros g [-> |[Hg _]]%HS; [done|by apply SF].
  - intros g cs p [-> |[Hg _]]%HS Hp.
    + destruct (Hsound _ _ Hp) as [[Hc Ho]|(r' & q' & pp' & Ha & Hc & Hf & Ho)].
      * exists r, q, pp. split; [apply elem_of_app; right; by left|done].
      * exists r', q', pp'. split; [apply elem_of_app; by left|done].
    + destruct (SS _ _ _ Hg Hp) as (r' & q' & pp' & Ha & H'). exists r', q', pp'. split; [apply elem_of_app; by left|done].
  - intros r' q' pp' cs [Ha|Ha]%elem_of_app Hc Hn.
    + destruct (SC _ _ _ _ Ha Hc Hn) as (g & p & Hg & Eg & Hp & Hb).
      destruct (decide (filter_fkey g = filter_fkey f)) as [E|E].
      * destruct (Hold g cs p Hg E Hp Hn) as (p' & Hp' & Ho). exists f, p'.
        split; [apply HS; by left|]. split; [congruence|]. split; [done|]. by eapply beats_outranks.
      * exists g, p. split; [apply HS; by right|done].
    + apply list_elem_of_singleton in Ha as [= -> -> ->]. destruct (Hnew cs Hc Hn) as (p & Hp & Hb).
      exists f, p. split; [apply HS; by left|done].
Qed.

Lemma addFilter_summary t A m c r pr pp m' : summary t A m → addFilter c r m pr pp = inr m' → ctx_tier c = t →
  pe_Ingress r = ingress → listener_ok pr → port_ok pp → summary t (A ++ [(r, ctx_priority c, pp)]) m'.
Proof.
  intros S (f & Hf & Hm)%sbind_inr Et Ei HL HP. pose proof S as [SM SF SS SC].
  destruct (createL4Filter_spec _ _ _ _ _ Hf HL HP) as (Ek & Hk & Hpr & Etf & Eif & HW & pol & Hpol & Hlk).
  unfold addL4Filter in Hm. rewrite exactLookup_at in Hm by done. destruct (map_at m (filter_fkey f)) as [ex|] eqn:Ex.
  - apply sbind_inr in Hm as (f' & Hmg & [= <-]).
    assert (Eke : filter_fkey ex = filter_fkey f) by (apply (map_at_key m); [done|by rewrite Ek|done]).
    assert (Hex : stored m ex) by (unfold stored; by rewrite Eke).
    destruct (SF ex Hex) as (Te & Ie & We & Pe).
    destruct (mergePortProto_spec _ _ _ Hmg We) as (_ & HSh & W' & HM).
    pose proof (shape_fkey _ _ HSh) as Ek'. injection HSh as H1 H2 H3 H4 H5 H6 H7.
    apply (upsert_summary t A m r (ctx_priority c) pp f' pol S W'); try done; try congruence.
    + intros Hn. rewrite H2, H3, H4, H5. apply Pe. congruence.
    + intros cs p Hp. specialize (HM cs). unfold merged_at in HM. rewrite Hlk in HM.
      case_bool_decide as Dc.
      * destruct (PerSelectorPolicies ex !! cs) as [e|] eqn:Ee; [|left; split; [done|by simplify_eq]].
        destruct (SS _ _ _ Hex Ee) as (r' & q' & pp' & Ha & Hc & Hkk & Ho).
        destruct (IsNone cs); [right; exists r', q', pp'; simplify_eq; by rewrite Ek'|].
        destruct HM as (p' & eo & no & o & Hp' & HMp). simplify_eq.
        destruct (merge_policy_rank _ _ _ _ _ _ HMp) as ([[R1 R2]|[R1 R2]] & _ & _);
          pose proof (merge_policy_listener (is_uint 8) _ _ _ _ _ _ HMp ltac:(done) ltac:(apply Ho) ltac:(apply Hpol)) as Hlp.
        -- right. exists r', q', pp'. rewrite Ek'. split_and!; try done. destruct Ho as (O1 & O2 & O3). split; [congruence|]. split; [congruence|done].
        -- left. split; [done|]. destruct Hpol as (O1 & O2 & O3). split; [congruence|]. split; [congruence|done].
      * rewrite HM in Hp. destruct (SS _ _ _ Hex Hp) as (r' & q' & pp' & Ha & Hc & Hkk & Ho).
        right. exists r', q', pp'. by rewrite Ek'.
    + intros cs Hc Hn. specialize (HM cs). unfold merged_at in HM. rewrite Hlk, bool_decide_true, Hn in HM by done.
      destruct (PerSelectorPolicies ex !! cs) as [e|]; [|exists pol; split; [done|by apply beats_policy_of]].
      destruct HM as (p & eo & no & o & Hp & HMp). exists p. split; [done|].
      apply merge_policy_rank in HMp as (_ & _ & Ho). by eapply beats_outranks, beats_policy_of.
    + intros g cs p Hg Eg Hp Hn. assert (g = ex) as ->.
      { unfold stored in Hg. rewrite Eg, Ek', Eke in Hg. congruence. }
      specialize (HM cs). unfold merged_at in HM. rewrite Hlk, Hp, Hn in HM. case_bool_decide.
      * destruct HM as (p' & eo & no & o & Hp' & HMp). exists p'. split; [done|]. by apply merge_policy_rank in HMp as (_ & ? & _).
      * exists p. split; [done|]. by apply outranks_refl.
  - injection Hm as <-. apply (upsert_summary t A m r (ctx_priority c) pp f pol S); try done; try congruence.
    + intros cs p. rewrite Hlk. case_bool_decide; [|done]. intros [= <-]. left. done.
    + intros cs Hc _. exists pol. rewrite Hlk, bool_decide_true by done. split; [done|]. by apply beats_policy_of.
Qed.

(** ** Rules and tiers *)

Definition rule_atoms (x : PolicyEntry * Z) : list atom := map (λ y, (x.1, x.2, y.2)) (rule_ports x.1).

Lemma mergeL4Filter_summary t A m c r m' : summary t A m → mergeL4Filter c m r = inr m' → ctx_tier c = t →
  pe_Ingress r = ingress → rule_ok r → summary t (A ++ rule_atoms (r, ctx_priority c)) m'.
Proof.
  intros S Hm Et Ei HR. rewrite mergeL4Filter_ports in Hm. unfold rule_atoms. cbn [fst snd].
  refine (each_ind _ (λ l m, summary t (A ++ map (λ y : PortRule * PortProtocol, (r, ctx_priority c, y.2)) l) m) _ m m' _ _ Hm);
    [|by rewrite app_nil_r].
  intros l1 x l2 m1 m2 El S1 H1. rewrite map_app, app_assoc.
  assert (Hx : listener_ok x.1 ∧ port_ok x.2).
  { unfold rule_ok in HR. rewrite Forall_forall in HR. apply HR. rewrite El. set_solver. }
  by eapply addFilter_summary; [| |..|apply Hx|apply Hx].
Qed.

Definition tier_atoms (t : Z) (out : list (PolicyEntry * Z)) : list atom :=
  filter (λ x : PolicyEntry * Z, Tier x.1 = t) out ≫= rule_atoms.

Record maps_summary (out : list (PolicyEntry * Z)) (pms : list L4PolicyMap) : Prop := {
  ms_tier i m : pms !! i = Some m → summary (Z.of_nat i) (tier_atoms (Z.of_nat i) out) m;
  ms_len r q : (r, q) ∈ out → 0 ≤ Tier r < Z.of_nat (length pms);
  ms_short : length pms = 1%nat ∨ ∃ r q, (r, q) ∈ out ∧ Z.of_nat (length pms) = Tier r + 1;
}.

Lemma tier_atoms_snoc t out x : tier_atoms t (out ++ [x]) = tier_atoms t out ++ (if decide (Tier x.1 = t) then rule_atoms x else []).
Proof.
  unfold tier_atoms. rewrite filter_app, bind_app. f_equal. cbn [filter list_filter].
  case_decide; simpl; [by rewrite app_nil_r|done].
Qed.

Lemma resolve_into_summary c out pms r q pms' : maps_summary out pms → 0 ≤ Tier r → pe_Ingress r = ingress → rule_ok r →
  resolve_into_maps c pms (Tier r) q r = inr pms' → maps_summary (out ++ [(r, q)]) pms'.
Proof.
  intros [M1 M2 M3] Ht Hi HR. unfold resolve_into_maps. set (pms1 := ensureTier pms (Tier r)).
  intros (m & Em & (m' & Hm & Hs)%sbind_inr)%sbind_inr. unfold index, store in *.
  assert (HE : ∀ i m0, pms1 !! i = Some m0 → summary (Z.of_nat i) (tier_atoms (Z.of_nat i) out) m0).
  { intros i m0. unfold pms1, ensureTier. rewrite lookup_app. destruct (pms !! i) as [m1|] eqn:E.
    - intros [= <-]. by apply M1.
    - intros [-> _]%lookup_replicate. assert (tier_atoms (Z.of_nat i) out = []) as ->; [|apply empty_summary].
      unfold tier_atoms. apply lookup_ge_None in E.
      assert (filter (λ x : PolicyEntry * Z, Tier x.1 = Z.of_nat i) out = []) as ->; [|done].
      apply elem_of_nil_inv. intros [r' q'] [Ht' Hin]%list_elem_of_filter. cbn [fst] in Ht'.
      specialize (M2 _ _ Hin). lia. }
  assert (HL : Z.of_nat (length pms) ≤ Z.of_nat (length pms1) ∧ Tier r < Z.of_nat (length pms1)).
  { unfold pms1, ensureTier. rewrite length_app, length_replicate. lia. }
  destruct (pms1 !! Z.to_nat (Tier r)) as [m1|] eqn:E1; [|done]. simplify_eq. constructor.
  - intros i m0. rewrite tier_atoms_snoc. cbn [fst]. destruct (decide (i = Z.to_nat (Tier r))) as [-> |Hne].
    + rewrite list_lookup_insert_eq by lia. intros [= <-]. rewrite decide_True by lia.
      eapply (mergeL4Filter_summary _ _ _ _ _ _ (HE _ _ E1) Hm); [simpl; lia|done|done].
    + rewrite list_lookup_insert_ne by done. intros Hl. rewrite decide_False by lia. rewrite app_nil_r. by apply HE.
  - intros r' q' [Hin|Hin]%elem_of_app; rewrite length_insert; [specialize (M2 _ _ Hin); lia|].
    apply list_elem_of_singleton in Hin as [= -> ->]. lia.
  - rewrite length_insert. destruct (decide (length pms1 = length pms)) as [-> |Hne].
    + destruct M3 as [?|(r' & q' & Hin & El)]; [by left|]. right. exists r', q'. split; [set_solver|done].
    + right. exists r, q. split; [set_solver|]. unfold pms1, ensureTier in *.
      rewrite length_app, length_replicate in *. lia.
Qed.

(** The policy maps of resolved rules. *)
Lemma resolved_maps c rules need bases pms : sorted_rules rules → levels_needed rules = inr need → need < 2 ^ 63 →
  (∀ r, r ∈ rules → pe_Ingress r = ingress ∧ rule_ok r) →
  resolveL4Policy (resolve_into_maps c) [makeL4PolicyMap] rules = inr (bases, pms) →
  ∃ out, assigned rules bases out ∧ maps_summary out pms.
Proof.
  intros Hs Hn Hfit HR E. pose proof (resolved_levels _ _ _ _ _ Hs Hn Hfit E) as Hle.
  destruct (resolve_assigned rules need Hs Hn Hle) as (b & out & AS & Hr).
  rewrite Hr in E. apply sbind_inr in E as (pms' & He & [= -> ->]). exists out. split; [done|].
  refine (each_ind _ maps_summary _ _ _ _ _ He); [|constructor].
  - intros l1 [r q] l2 p p' El M H. cbn [fst snd] in H.
    assert (Hin : r ∈ rules).
    { rewrite <- (as_rules _ _ _ AS), El, fmap_app. apply elem_of_app. right. by left. }
    destruct (HR r Hin). apply (resolve_into_summary c l1 p r q p'); try done.
    apply (as_range _ _ _ AS r q). rewrite El. set_solver.
  - intros [|i] m; [|done]. intros [= <-]. apply empty_summary.
  - by intros r q ?%elem_of_nil.
  - by left.
Qed.
End summary.
