(* ===== verification/L4Contributions.v ===== *)
(** * Contributions of L4 filters

    The insertions [L4DirectionPolicy.toMapState] makes, as the contributions of resolved
    rules: every filter stands for the rules merged into it, and every selector of a filter for
    one of them at its priority. *)

From Stdlib Require Import QArith Ascii.
From stdpp Require Import sorting.
From S2P Require Import Prelude Precedence BitLPM PolicyKey PortRange Identity RuleOrigin PassMeta.
From S2P Require Import MapState MapStateIndex PolicyRule TierPriorities TierEvaluation.
From S2P Require Import L4Types L4Filter L4MapState L4Merge L4Resolve.

Local Open Scope Z_scope.

(** ** The endpoint *)

Section contributions.
Context {TR : Trie LPMKey IDSet} {GR : GoRange} {SK : SelectorKeys} (e : EndpointContext).
Implicit Types (f : L4Filter) (m : L4PolicyMap) (cs : string) (pol : option PerSelectorPolicy).

(** What the conversion relies on: every redirect has a port; selectors select identities that
    are no aggregates, the wildcard all that any selector does, and the selector that selects
    nothing none; the named ports of identities are ports, found for each identity alone. *)
Record endpoint_ok (cinfo : ClusterInfo) : Prop := {
  eo_keys : noneSelectorKey ≠ wildcardSelectorKey;
  eo_none : GetSelectionsAt e noneSelectorKey = [];
  eo_selection cs id : id ∈ GetSelectionsAt e cs → is_uint 32 id ∧ aggregateFor id cinfo ≠ id;
  eo_wildcard cs id : id ∈ GetSelectionsAt e cs → id ∈ GetSelectionsAt e wildcardSelectorKey;
  eo_redirect ingress proto port l : ∃ p, LookupRedirectPort e ingress proto port l = Some p ∧ is_uint 16 p;
  eo_ingress name proto : is_uint 16 (GetIngressNamedPort e name proto);
  eo_port name proto ids id port : (id, port) ∈ GetEgressNamedPorts e name proto ids →
    id ∈ ids ∧ is_uint 16 port ∧ port ≠ 0;
  eo_each name proto ids ids' id port : (id, port) ∈ GetEgressNamedPorts e name proto ids → id ∈ ids' →
    (id, port) ∈ GetEgressNamedPorts e name proto ids';
}.

(** ** Contributions *)

Context (out : list (PolicyEntry * Z)).

(** A resolved rule that accounts for the policy of a selector. *)
Definition behind f cs pol (x : PolicyEntry * Z) : Prop :=
  Tier x.1 = f_Tier f ∧ x.2 = GetPriority pol ∧ pe_Verdict x.1 = GetVerdict pol ∧
  cs ∈ rule_css x.1 ∧ filter_fkey f ∈ map (λ y, port_fkey y.2) (rule_ports x.1).

#[export] Instance behind_dec f cs pol x : Decision (behind f cs pol x).
Proof. unfold behind. apply _. Defined.

Definition rule_behind f cs pol : PolicyEntry :=
  match filter (behind f cs pol) out with
  | x :: _ => x.1
  | [] => order_entry 0 0 Allow ""
  end.

Definition proxy_port f (port : Z) pol : Z :=
  default 0 (if IsRedirect pol then LookupRedirectPort e (f_Ingress f) (Protocol f) port (GetListener pol) else Some 0).

Definition contribution_of f cs pol (port : Z) (key : Key) : contribution :=
  mkContribution (rule_behind f cs pol) (GetPriority pol) key (default None (RuleOrigin f !! cs))
    (proxy_port f port pol) (GetListenerPriority pol).

Definition named_filter f : bool := (Port f =? 0) && negb (bool_decide (PortName f = "")).
Definition egress_named f : bool := named_filter f && negb (f_Ingress f).
Definition filter_port f : Z :=
  if named_filter f && f_Ingress f then GetIngressNamedPort e (PortName f) (U8Proto f) else Port f.
Definition undefined_port f : bool := named_filter f && f_Ingress f && (filter_port f =? 0).

Definition skipped f cs pol : bool :=
  negb (bool_decide (wildcard f = Some cs)) &&
  selectorCoveredByWildcard f cs pol ((filter_port f =? 0) && negb (egress_named f)).

Definition filter_key f : Key := WithPortProto (KeyForDirection (direction_of f)) (U8Proto f) (filter_port f).

Definition filter_idents f cs : list Z :=
  if bool_decide (wildcard f = Some cs) then AllAggregates else GetSelectionsAt e cs.

Definition policy_contributions f cs pol : list contribution :=
  if egress_named f then
    map (λ y : Z * Z, contribution_of f cs pol y.2 (WithPort (WithIdentity (filter_key f) y.1) y.2))
      (GetEgressNamedPorts e (PortName f) (U8Proto f) (GetSelectionsAt e cs))
  else filter_idents f cs ≫= λ id,
    map (λ k, contribution_of f cs pol (filter_port f) (WithIdentity k id))
      (keysForRange (filter_key f) (filter_port f) (L4Filter.EndPort f)).

Definition selector_contributions f cs : list contribution :=
  match PerSelectorPolicies f !! cs with
  | None => []
  | Some pol => if skipped f cs pol then [] else policy_contributions f cs pol
  end.

Definition filter_contributions f : list contribution :=
  if undefined_port f then [] else range (dom (PerSelectorPolicies f)) ≫= selector_contributions f.

Definition direction_contributions (pms : list L4PolicyMap) : list contribution :=
  pms ≫= λ m, L4PolicyMap_Filters m ≫= filter_contributions.

(** ** The conversion inserts the contributions *)

Definition accounted f : Prop :=
  ∀ cs pol, PerSelectorPolicies f !! cs = Some pol → ∃ x, x ∈ out ∧ behind f cs pol x.

Lemma rule_behind_spec f cs pol : (∃ x, x ∈ out ∧ behind f cs pol x) →
  (rule_behind f cs pol, GetPriority pol) ∈ out ∧ behind f cs pol (rule_behind f cs pol, GetPriority pol).
Proof.
  intros (x & Hx & Hb). unfold rule_behind. destruct (filter (behind f cs pol) out) as [|y l] eqn:E.
  - assert (Hin : x ∈ filter (behind f cs pol) out) by (by apply list_elem_of_filter).
    rewrite E in Hin. by apply elem_of_nil in Hin.
  - assert (Hin : y ∈ filter (behind f cs pol) out) by (rewrite E; by left).
    apply list_elem_of_filter in Hin as [Hb' Hin]. pose proof Hb' as (_ & Hq & _). rewrite <- Hq. by destruct y.
Qed.

Context (bases : list Z) (features : Z) (cinfo : ClusterInfo) (EO : endpoint_ok cinfo).
Notation add := (add_contribution (TR:=TR) bases features).

Lemma proxy_port_spec f port pol : is_uint 16 (proxy_port f port pol) ∧
  (if IsRedirect pol then LookupRedirectPort e (f_Ingress f) (Protocol f) port (GetListener pol) else Some 0) =
  Some (proxy_port f port pol).
Proof.
  unfold proxy_port. destruct (IsRedirect pol); [|done].
  by destruct (eo_redirect _ EO (f_Ingress f) (Protocol f) port (GetListener pol)) as (p & -> & Hp).
Qed.

Lemma entry_usable prio base next o pp lp v : usable (newMapStateEntry prio base next o pp lp v) = true.
Proof.
  unfold usable, newMapStateEntry. destruct v; simpl; rewrite ?NewMapStateEntry_valid; done || by rewrite orb_true_r.
Qed.

Lemma makeMapStateEntry_contribution f cs pol port key : (∃ x, x ∈ out ∧ behind f cs pol x) →
  makeMapStateEntry e f port cs pol (at_ bases (f_Tier f)) (nextTierPriority bases (f_Tier f)) =
  co_entry bases (contribution_of f cs pol port key).
Proof.
  intros (_ & Ht & _ & Hv & _)%rule_behind_spec. cbn [fst] in Ht, Hv. unfold makeMapStateEntry.
  rewrite (proj2 (proxy_port_spec f port pol)). unfold co_entry, contribution_of, co_tier. cbn. by rewrite Ht, Hv.
Qed.

Lemma insert_contribution f cs pol port key s : (∃ x, x ∈ out ∧ behind f cs pol x) →
  insert_entry (at_ bases (f_Tier f)) features
    (makeMapStateEntry e f port cs pol (at_ bases (f_Tier f)) (nextTierPriority bases (f_Tier f))) s key =
  add s (contribution_of f cs pol port key).
Proof.
  intros HB. rewrite (makeMapStateEntry_contribution f cs pol port key HB).
  apply rule_behind_spec in HB as (_ & Ht & _). cbn [fst] in Ht.
  unfold insert_entry, add_contribution, co_tier. cbn [contribution_of co_rule co_key]. by rewrite Ht.
Qed.

Lemma foldl_bind {A B C} (g : C → B → C) (h : A → list B) (l : list A) : ∀ s : C,
  foldl g s (l ≫= h) = foldl (λ s x, foldl g s (h x)) s l.
Proof. induction l as [|x l IH]; intros s; [done|]. cbn [mbind list_bind foldl]. by rewrite foldl_app, IH. Qed.

Lemma foldl_map {A B C} (g : C → B → C) (h : A → B) (l : list A) : ∀ s : C,
  foldl g s (map h l) = foldl (λ s x, g s (h x)) s l.
Proof. induction l as [|x l IH]; intros s; [done|]. apply IH. Qed.

Lemma foldl_ext_in {A C} (g h : C → A → C) (l : list A) : (∀ s x, x ∈ l → g s x = h s x) → ∀ s, foldl g s l = foldl h s l.
Proof.
  induction l as [|x l IH]; intros H s; [done|]. simpl. rewrite H by by left.
  apply IH. intros. apply H. by right.
Qed.

Lemma usable_entry f cs pol port : (∃ x, x ∈ out ∧ behind f cs pol x) →
  usable (makeMapStateEntry e f port cs pol (at_ bases (f_Tier f)) (nextTierPriority bases (f_Tier f))) = true.
Proof. intros HB. rewrite (makeMapStateEntry_contribution f cs pol port IngressKey HB). apply entry_usable. Qed.

Lemma selector_contribution f s cs : accounted f →
  selector_toMapState e f (filter_port f) (egress_named f) (at_ bases (f_Tier f)) (nextTierPriority bases (f_Tier f))
    features s cs = foldl add s (selector_contributions f cs).
Proof.
  intros HA. unfold selector_toMapState, selector_contributions.
  destruct (PerSelectorPolicies f !! cs) as [pol|] eqn:E; [|done]. fold (skipped f cs pol).
  destruct (skipped f cs pol); [done|]. specialize (HA _ _ E). unfold policy_contributions. cbv zeta. fold (filter_key f).
  destruct (egress_named f).
  - rewrite foldl_map. apply foldl_ext_in. intros s' [id port] _. cbn [fst snd].
    rewrite usable_entry by done. cbn [negb]. by apply insert_contribution.
  - fold (filter_idents f cs). rewrite usable_entry by done. cbn [negb]. rewrite foldl_bind. apply foldl_ext_in.
    intros s' id _. rewrite foldl_map. apply foldl_ext_in. intros s'' k _. by apply insert_contribution.
Qed.

Lemma filter_contribution f s : accounted f →
  L4Filter_toMapState e (at_ bases (f_Tier f)) (nextTierPriority bases (f_Tier f)) features s f =
  foldl add s (filter_contributions f).
Proof.
  intros HA. unfold L4Filter_toMapState, filter_contributions. fold (named_filter f). cbv zeta. fold (filter_port f).
  fold (undefined_port f). destruct (undefined_port f); [done|]. fold (egress_named f).
  rewrite foldl_bind. apply foldl_ext_in. intros. by apply selector_contribution.
Qed.

(** ** Policy maps *)

Lemma elem_of_Filters m f : map_ok m → f ∈ L4PolicyMap_Filters m ↔ stored m f.
Proof.
  intros [MN MR _]. unfold L4PolicyMap_Filters, stored, filter_fkey. rewrite elem_of_app, !list_elem_of_omap. split.
  - intros [(s & _ & Hs)|(k & _ & Hk)].
    + destruct (MN _ _ Hs) as [Hn ->]. by rewrite bool_decide_false.
    + destruct (MR _ _ Hk) as [Hn ->]. by rewrite bool_decide_true.
  - case_bool_decide as Hn; cbn [map_at]; intros Hm; [right|left]; eexists; (split; [|done]);
      apply elem_of_range, elem_of_dom; by eexists.
Qed.

Lemma tier_atom t r q pp : (r, q, pp) ∈ tier_atoms t out ↔ (r, q) ∈ out ∧ Tier r = t ∧ ∃ pr, (pr, pp) ∈ rule_ports r.
Proof.
  unfold tier_atoms, rule_atoms. rewrite list_elem_of_bind. split.
  - intros ([r' q'] & (y & [= -> -> <-] & Hy%list_elem_of_In)%list_elem_of_In%in_map_iff & [Ht Hin]%list_elem_of_filter).
    split; [done|]. split; [done|]. exists y.1. by destruct y.
  - intros (Hin & Ht & pr & Hp). exists (r, q). split; [|by apply list_elem_of_filter].
    apply list_elem_of_In, in_map_iff. exists (pr, pp). split; [done|]. by apply list_elem_of_In.
Qed.

Context (ingress : bool) (rules : list PolicyEntry) (AS : assigned rules bases out).
Context (pms : list L4PolicyMap) (MS : maps_summary ingress out pms).

Lemma map_summary i m : pms !! i = Some m → summary ingress (Z.of_nat i) (tier_atoms (Z.of_nat i) out) m.
Proof. apply MS. Qed.

Lemma filter_accounted i m f : pms !! i = Some m → stored m f → f_Tier f = Z.of_nat i ∧ accounted f.
Proof.
  intros Hi Hf. destruct (map_summary i m Hi) as [_ SF SS _]. destruct (SF f Hf) as (Et & _). split; [done|].
  intros cs pol Hp. destruct (SS _ _ _ Hf Hp) as (r & q & pp & (Hin & Ht & pr & Hpr)%tier_atom & Hc & Hk & Hq & Hv & _).
  exists (r, q). split; [done|]. unfold behind. cbn [fst snd]. split_and!; try congruence.
  apply list_elem_of_In, in_map_iff. exists (pr, pp). split; [done|]. by apply list_elem_of_In.
Qed.

(** The maps have no tier beyond those of the rules. *)
Lemma maps_in_range : (length pms ≤ length bases)%nat.
Proof.
  destruct (ms_short _ _ _ MS) as [-> |(r & q & Hin & El)].
  - pose proof (as_tiers _ _ _ AS) as E. destruct (last rules) as [r|] eqn:Er; [|done]. cbn in E. injection E as E.
    assert (Hr : r ∈ rules) by (by apply last_Some_elem_of).
    rewrite <- (as_rules _ _ _ AS) in Hr. apply list_elem_of_fmap in Hr as ([r' q] & -> & Hin).
    destruct (as_range _ _ _ AS _ _ Hin). simpl in *. lia.
  - destruct (as_range _ _ _ AS _ _ Hin). lia.
Qed.

Lemma each_foldl {A S} (g : S → A → error + S) (h : S → A → S) (l : list A) : (∀ s x, x ∈ l → g s x = inr (h s x)) →
  ∀ s, each g s l = inr (foldl h s l).
Proof.
  induction l as [|x l IH]; intros H s; [done|]. cbn [each foldl]. rewrite H by by left.
  apply IH. intros. apply H. by right.
Qed.

Lemma imap_tiers {C} (h : C → L4PolicyMap → C) (l : list L4PolicyMap) (g : nat → C → L4PolicyMap → C) : ∀ k s,
  (∀ i m s, l !! i = Some m → g (k + i)%nat s m = h s m) →
  foldl (λ s (y : Z * L4PolicyMap), g (Z.to_nat y.1) s y.2) s (imap (λ i m, (Z.of_nat (k + i), m)) l) = foldl h s l.
Proof.
  induction l as [|m l IH]; intros k s H; [done|]. cbn [imap foldl fst snd].
  rewrite Nat2Z.id. rewrite (H 0%nat m s) by done.
  erewrite imap_ext; [apply (IH (S k))|].
  - intros i m' s' Hi. rewrite <- (H (S i) m' s' Hi). by rewrite Nat.add_succ_r.
  - intros i x _. simpl. by rewrite Nat.add_succ_r.
Qed.

(** [L4DirectionPolicy.toMapState] inserts the contributions one after the other. *)
Lemma direction_contribution s :
  direction_toMapState e (mkDirection pms bases features) s = inr (foldl add s (direction_contributions pms)).
Proof.
  unfold direction_toMapState, direction_contributions. cbn [PortRules tierBasePriority dir_features].
  rewrite foldl_bind.
  rewrite (each_foldl _ (λ s (y : Z * L4PolicyMap), foldl (L4Filter_toMapState e (at_ bases (Z.of_nat (Z.to_nat y.1)))
    (nextTierPriority bases (Z.of_nat (Z.to_nat y.1))) features) s (L4PolicyMap_Filters y.2))).
  - f_equal. apply (imap_tiers _ pms (λ t s m, foldl (L4Filter_toMapState e (at_ bases (Z.of_nat t))
      (nextTierPriority bases (Z.of_nat t)) features) s (L4PolicyMap_Filters m)) 0%nat).
    intros i m s' Hi. cbn [Nat.add]. rewrite foldl_bind. apply foldl_ext_in. intros s'' f Hf.
    apply elem_of_Filters in Hf; [|by apply (map_summary i)].
    destruct (filter_accounted i m f Hi Hf) as [<- HA]. by apply filter_contribution.
  - intros s' [t m] Hin. cbn [fst snd]. apply list_elem_of_lookup in Hin as (j & Hj).
    rewrite list_lookup_imap in Hj. destruct (pms !! j) as [m'|] eqn:Em; [|done]. cbn in Hj. injection Hj as <- <-.
    apply lookup_lt_Some in Em. pose proof maps_in_range as HR.
    unfold index. rewrite Nat2Z.id. destruct (lookup_lt_is_Some_2 bases j ltac:(lia)) as [b Hb].
    rewrite Hb. cbn [sbind]. unfold at_. by rewrite Nat2Z.id, Hb.
Qed.
End contributions.
