(* ===== verification/L4Evaluation.v ===== *)
(** * Evaluation of L4 policies

    From rules to verdicts: the rules of one direction, resolved into the policy maps of their
    tiers and converted into map state entries, decide every flow as the rules that match it
    do, one after the other. *)

From Stdlib Require Import QArith Ascii.
From stdpp Require Import sorting.
From S2P Require Import Prelude Precedence BitLPM PolicyKey PortRange Identity RuleOrigin PassMeta.
From S2P Require Import MapState MapStateIndex MapStateLookup MapStateOps MapStatePolicy PolicyRule TierPriorities TierEvaluation.
From S2P Require Import L4Types L4Filter L4MapState L4Merge L4Resolve L4Contributions.

Local Open Scope Z_scope.

(** ** What a rule matches *)

Section matching.
Context {SK : SelectorKeys} (e : EndpointContext).

Definition port_proto (pp : PortProtocol) : Z := default 0 (ParseProtocol (pp_Protocol pp)).

Definition selects (cs : string) (x : Key) : Prop := cs = wildcardSelectorKey ∨ Identity x ∈ GetSelectionsAt e cs.

(** The flow goes to a port of a range, or to the port the name stands for: at ingress the
    endpoint's, at egress the one of the identity the flow goes to. *)
Definition port_matches (ingress : bool) (cs : string) (pp : PortProtocol) (x : Key) : Prop :=
  let u := port_proto pp in
  TrafficDirection x = (if ingress then Ingress else Egress) ∧
  if IsSvcName (pp_Port pp) then
    Nexthdr x = u ∧
    if ingress then selects cs x ∧ GetIngressNamedPort e (pp_Port pp) u ≠ 0 ∧ DestPort x = GetIngressNamedPort e (pp_Port pp) u
    else (Identity x, DestPort x) ∈ GetEgressNamedPorts e (pp_Port pp) u (GetSelectionsAt e cs)
  else
    let port := ParseUint16 (pp_Port pp) in
    selects cs x ∧
    (u = 0 ∨ Nexthdr x = u ∧ (port = 0 ∨ port ≤ DestPort x ≤ Z.max port (uwrap 16 (pp_EndPort pp)))).

Definition rule_matches (r : PolicyEntry) (x : Key) : Prop :=
  ∃ cs pr pp, cs ∈ rule_css r ∧ (pr, pp) ∈ rule_ports r ∧ port_matches (pe_Ingress r) cs pp x.

(** The key of a packet: one port of one protocol. *)
Definition flow (x : Key) : Prop := wf_key x ∧ PortPrefixLen x = 16.
End matching.

(** ** Parsed numbers *)

Lemma lower_cases c : Z.of_nat (nat_of_ascii (lower c)) = Z.of_nat (nat_of_ascii c) ∨ 97 ≤ Z.of_nat (nat_of_ascii (lower c)).
Proof.
  unfold lower. destruct (Z.leb_spec 65 (Z.of_nat (nat_of_ascii c))), (Z.leb_spec (Z.of_nat (nat_of_ascii c)) 90);
    cbn [andb]; [|by left..]. right. rewrite nat_ascii_embedding by lia. lia.
Qed.

Lemma parse_digits_range base l : 0 ≤ base → ∀ n u, is_uint 16 n →
  match parse_digits base n u l with inl v => is_uint 16 v | inr (v, _) => is_uint 16 v end.
Proof.
  intros Hb. unfold is_uint. induction l as [|c l IH]; intros n u Hn; cbn [parse_digits]; [done|].
  case_bool_decide; [by apply IH|]. cbv zeta.
  assert (HD : ∀ d, 0 ≤ d → match (if base <=? d then inl 0 else let n1 := n * base + d in
    if 65535 <? n1 then inl 65535 else parse_digits base n1 u l) with inl v => 0 ≤ v < 2 ^ 16 | inr (v, _) => 0 ≤ v < 2 ^ 16 end).
  { intros d Hd. destruct (base <=? d); [lia|]. cbv zeta. destruct (Z.ltb_spec 65535 (n * base + d)); [lia|].
    apply IH. nia. }
  destruct (is_digit c) eqn:Ed; [apply HD; unfold is_digit in Ed; lia|].
  destruct (is_letter c) eqn:El; [apply HD; unfold is_letter in El; lia|]. lia.
Qed.

Lemma ParseUint16_range s : is_uint 16 (ParseUint16 s).
Proof.
  unfold ParseUint16. set (l := String.list_ascii_of_string s). cbv zeta.
  assert (HP : ∀ base digits, 0 ≤ base → is_uint 16 (match l with [] => 0 | _ =>
      match parse_digits base 0 false digits with
      | inl v => v
      | inr (n, underscores) => if underscores && negb (underscoreOK l) then 0 else n
      end end)).
  { intros base digits Hb. destruct l; [done|].
    pose proof (parse_digits_range base digits Hb 0 false ltac:(done)) as HR.
    destruct (parse_digits base 0 false digits) as [v|[v u]]; [done|]. by destruct (_ && _). }
  match goal with |- is_uint 16 (let '(base, digits) := ?p in _) => destruct p as [base digits] eqn:E end.
  apply HP. revert E. clear. destruct l as [|[[] [] [] [] [] [] [] []] [|c l]]; intros E;
    repeat match type of E with context [if ?b then _ else _] => destruct b end; injection E as <- _; lia.
Qed.

Lemma ParseProtocol_range s : is_uint 8 (default 0 (ParseProtocol s)).
Proof.
  unfold ParseProtocol. destruct (ProtoIDs !! ToLower s) as [u|] eqn:E; [|done].
  assert (H : bool_decide (map_Forall (λ _ u, 0 ≤ u < 256) ProtoIDs) = true) by by vm_compute.
  apply bool_decide_eq_true in H. exact (H _ _ E).
Qed.

(** ** Keys and flows *)

Lemma lpm_le_flow k x : wf_key k → flow x → lpm_le k x ↔
  TrafficDirection k = TrafficDirection x ∧ (Nexthdr k = 0 ∨ Nexthdr k = Nexthdr x ∧ port_in k (DestPort x)).
Proof.
  intros [Wk _] [_ Hx]. unfold lpm_le, port_le. rewrite port_in_iff by done. pose proof (wf_plen k Wk). rewrite Hx. tauto.
Qed.

Lemma flow_port x : flow x → is_uint 16 (DestPort x).
Proof. intros [[W _] _]. apply W. Qed.

(** The keys of a range cover the flows to its ports. *)
Lemma range_covers d proto port endPort x : 0 ≤ d ≤ 1 → is_uint 8 proto → is_uint 16 port → is_uint 16 endPort →
  (proto = 0 → port = 0) → flow x →
  (∃ k : Key, k ∈ keysForRange (WithPortProto (KeyForDirection d) proto port) port endPort ∧ lpm_le k x) ↔
  TrafficDirection x = d ∧ (proto = 0 ∨ Nexthdr x = proto ∧ (port = 0 ∨ port ≤ DestPort x ≤ Z.max port endPort)).
Proof.
  intros Hd Hp HP HE Hany Fx. pose proof (flow_port x Fx) as Hx.
  destruct (keysForRange_spec d proto port endPort Hd Hp HP HE Hany) as [HF HL]. specialize (HL _ Hx).
  set (keys := keysForRange _ port endPort) in *. rewrite Forall_forall in HF. split.
  - intros (k & Hk & Hle). destruct (HF k Hk) as (Wk & Ed & En). apply lpm_le_flow in Hle as [E1 E2]; [|done|done].
    split; [congruence|]. destruct E2 as [E2|[E2 E3]]; [left; congruence|]. right. split; [congruence|].
    destruct (decide (port = 0 ∨ port ≤ DestPort x ≤ Z.max port endPort)) as [|Hn]; [done|].
    apply nil_length_inv in HL. assert (Hin : k ∈ filter (λ k : Key, port_in k (DestPort x)) keys)
      by (by apply list_elem_of_filter). rewrite HL in Hin. by apply elem_of_nil in Hin.
  - intros [Ed Hm]. destruct (decide (proto = 0)) as [E0|Hne].
    + rewrite decide_True in HL by (left; auto).
      destruct (filter (λ k : Key, port_in k (DestPort x)) keys) as [|k l] eqn:El; [done|].
      assert (Hk : k ∈ keys) by (apply (list_elem_of_filter (λ k : Key, port_in k (DestPort x))); rewrite El; by left).
      exists k. split; [done|]. destruct (HF k Hk) as (Wk & Ed' & En). apply lpm_le_flow; [done|done|].
      split; [congruence|]. left. congruence.
    + destruct Hm as [?|[En Hm]]; [done|]. rewrite decide_True in HL by done.
      destruct (filter (λ k : Key, port_in k (DestPort x)) keys) as [|k l] eqn:El; [done|].
      assert (Hk : k ∈ filter (λ k : Key, port_in k (DestPort x)) keys) by (rewrite El; by left).
      apply list_elem_of_filter in Hk as [Hin Hk]. exists k. split; [done|]. destruct (HF k Hk) as (Wk & Ed' & En').
      apply lpm_le_flow; [done|done|]. split; [congruence|]. right. split; [congruence|done].
Qed.

Lemma WithPort_Identity k id p : WithPort (WithIdentity (WithPort k 0) id) p = WithIdentity (WithPort k p) id.
Proof.
  unfold WithPort, WithIdentity. cbn -[Z.land Z.lor]. rewrite <- !Z.land_assoc.
  by change (Z.land directionBitMask directionBitMask) with directionBitMask.
Qed.

(** ** Filters and flows *)

Section coverage.
Context {SK : SelectorKeys} {GR : GoRange} (e : EndpointContext) (cinfo : ClusterInfo) (EO : endpoint_ok e cinfo).
Context (out : list (PolicyEntry * Z)).
Implicit Types (f : L4Filter) (cs : string) (pol : option PerSelectorPolicy) (x : Key).

Record filter_wf f : Prop := {
  fw_proto : is_uint 8 (U8Proto f);
  fw_port : is_uint 16 (Port f);
  fw_end : is_uint 16 (L4Filter.EndPort f);
  fw_any : U8Proto f = 0 → Port f = 0 ∧ PortName f = "";
  fw_named : proto_ok f;
  fw_wild : wild_ok f;
}.

Definition filter_matches f cs x : Prop :=
  TrafficDirection x = direction_of f ∧
  if egress_named f then
    Nexthdr x = U8Proto f ∧ (Identity x, DestPort x) ∈ GetEgressNamedPorts e (PortName f) (U8Proto f) (GetSelectionsAt e cs)
  else
    undefined_port e f = false ∧ selects e cs x ∧
    (U8Proto f = 0 ∨ Nexthdr x = U8Proto f ∧
      (filter_port e f = 0 ∨ filter_port e f ≤ DestPort x ≤ Z.max (filter_port e f) (L4Filter.EndPort f))).

Lemma named_filter_eq f : filter_wf f → named_filter f = negb (bool_decide (PortName f = "")).
Proof.
  intros W. unfold named_filter. case_bool_decide as Hn; [by rewrite andb_false_r|].
  by destruct (fw_named f W Hn) as (_ & _ & -> & _).
Qed.

Lemma filter_port_wf f : filter_wf f → is_uint 16 (filter_port e f) ∧ (U8Proto f = 0 → filter_port e f = 0).
Proof.
  intros W. unfold filter_port. rewrite named_filter_eq by done. split.
  - destruct (_ && _); [apply (eo_ingress _ _ EO)|apply W].
  - intros H0. destruct (fw_any f W H0) as [-> ->]. done.
Qed.

Lemma direction_bounds f : 0 ≤ direction_of f ≤ 1.
Proof. unfold direction_of. destruct (f_Ingress f); lia. Qed.

Lemma filter_keys_cover f x : filter_wf f → flow x →
  (∃ k : Key, k ∈ keysForRange (filter_key e f) (filter_port e f) (L4Filter.EndPort f) ∧ lpm_le k x) ↔
  TrafficDirection x = direction_of f ∧ (U8Proto f = 0 ∨ Nexthdr x = U8Proto f ∧
    (filter_port e f = 0 ∨ filter_port e f ≤ DestPort x ≤ Z.max (filter_port e f) (L4Filter.EndPort f))).
Proof.
  intros W Fx. destruct (filter_port_wf f W). apply range_covers; try done; [apply direction_bounds|apply W|apply W].
Qed.

(** The identities of a selector that are in the keys. *)
Lemma idents_cover f cs x : filter_wf f → is_Some (PerSelectorPolicies f !! cs) →
  (∃ id, id ∈ filter_idents e f cs ∧ (id = Identity x ∨ id = aggregateFor (Identity x) cinfo)) ↔ selects e cs x.
Proof.
  intros W Hs. unfold filter_idents, selects. rewrite (fw_wild f W). split.
  - intros (id & Hid & Hx). case_bool_decide as Hw.
    + left. case_decide; [congruence|done].
    + right. destruct (eo_selection _ _ EO _ _ Hid) as [_ Hl]. destruct Hx as [<-|E]; [done|].
      destruct Hl. by rewrite E, aggregateFor_idem.
  - intros Hsel. case_bool_decide as Hw.
    + exists (aggregateFor (Identity x) cinfo). split; [apply aggregateFor_in|by right].
    + destruct Hsel as [-> |Hin]; [by rewrite decide_True in Hw|]. exists (Identity x). auto.
Qed.

Lemma egress_named_port f : filter_wf f → egress_named f = true → filter_port e f = 0 ∧ U8Proto f ≠ 0.
Proof.
  intros W En. unfold egress_named in En. rewrite named_filter_eq in En by done.
  unfold filter_port. destruct (f_Ingress f); [by rewrite andb_false_r in En|]. rewrite andb_false_r.
  case_bool_decide as Hn; [done|]. destruct (fw_named f W Hn) as (_ & _ & -> & _). split; [done|].
  intros [_ ?]%(fw_any f W). done.
Qed.

(** The key of one port. *)
Lemma port_key_covers d proto port x : 0 ≤ d ≤ 1 → is_uint 8 proto → is_uint 16 port → proto ≠ 0 → port ≠ 0 → flow x →
  lpm_le (WithPortProto (KeyForDirection d) proto port) x ↔ TrafficDirection x = d ∧ Nexthdr x = proto ∧ port = DestPort x.
Proof.
  intros Hd Hp HP H0 Hn0 Fx. pose proof (range_covers d proto port 0 x Hd Hp HP ltac:(done) ltac:(done) Fx) as HR.
  unfold keysForRange in HR. destruct (Z.eqb_spec port 0); [done|]. unfold is_uint in HP.
  rewrite (proj2 (Z.leb_le 0 port)) in HR by lia. cbn [orb] in HR. split.
  - intros Hle. destruct (proj1 HR) as (E1 & [?|[E2 [?|E3]]]); [eexists; split; [by left|done]|done..|].
    split_and!; [done..|lia].
  - intros (E1 & E2 & ->). destruct (proj2 HR) as (k & ->%list_elem_of_singleton & Hle); [|done].
    split; [done|]. right. split; [done|]. right. lia.
Qed.

Lemma egress_key_covers f cs (y : Z * Z) x : filter_wf f → flow x → egress_named f = true →
  y ∈ GetEgressNamedPorts e (PortName f) (U8Proto f) (GetSelectionsAt e cs) →
  kcovers cinfo (WithPort (WithIdentity (filter_key e f) y.1) y.2) x ↔
  TrafficDirection x = direction_of f ∧ Nexthdr x = U8Proto f ∧ y = (Identity x, DestPort x).
Proof.
  intros W Fx En Hy. destruct (egress_named_port f W En) as [EP H0]. destruct y as [id port]. cbn [fst snd].
  destruct (eo_port _ _ EO _ _ _ _ _ Hy) as (Hid & HP & Hn0). destruct (eo_selection _ _ EO _ _ Hid) as [_ Hl].
  unfold filter_key. rewrite EP. unfold WithPortProto. rewrite WithPort_Identity, kcovers_leaf by done.
  cbn [Identity WithIdentity Key_LPMKey].
  rewrite (port_key_covers (direction_of f) (U8Proto f) port x) by (done || apply direction_bounds || apply W). split.
  - intros [(E1 & E2 & ->) ->]. done.
  - intros (E1 & E2 & [= -> ->]). done.
Qed.

(** The contributions of a selector cover the flows it matches. *)
Lemma policy_covers f cs pol x : filter_wf f → flow x → PerSelectorPolicies f !! cs = Some pol → undefined_port e f = false →
  (∃ c, c ∈ policy_contributions e out f cs pol ∧ kcovers cinfo (co_key c) x) ↔ filter_matches f cs x.
Proof.
  intros W Fx Hp HU. unfold policy_contributions, filter_matches. destruct (egress_named f) eqn:En.
  - pose proof (egress_key_covers f cs) as HK. split.
    + intros (c & (y & <- & Hy%list_elem_of_In)%list_elem_of_In%in_map_iff & Hk). cbn [co_key contribution_of] in Hk.
      apply HK in Hk as (E1 & E2 & ->); done.
    + intros (E1 & E2 & Hy). eexists. split; [apply list_elem_of_In, in_map_iff; eexists; split; [done|by apply list_elem_of_In]|].
      cbn [co_key contribution_of]. by apply HK.
  - rewrite HU. pose proof (filter_keys_cover f x W Fx) as HK. pose proof (idents_cover f cs x W ltac:(by eexists)) as HI. split.
    + intros (c & (id & (k & <- & Hk%list_elem_of_In)%list_elem_of_In%in_map_iff & Hid)%list_elem_of_bind & [Hle Hx]).
      cbn [co_key contribution_of WithIdentity Identity Key_LPMKey] in Hle, Hx.
      destruct (proj1 HK) as [E1 E2]; [by exists k|]. split_and!; try done. apply HI. by exists id.
    + intros (E1 & _ & Hs & E2). apply HI in Hs as (id & Hid & Hx). destruct (proj2 HK) as (k & Hk & Hle); [done|].
      eexists. split; [apply list_elem_of_bind; exists id; split; [|done]; apply list_elem_of_In, in_map_iff; exists k;
        split; [done|by apply list_elem_of_In]|]. by split.
Qed.

(** ** Filters and ports *)

Lemma FRange_inj p q u p' q' u' : FRange p q u = FRange p' q' u' → p = p' ∧ q = q' ∧ u = u'.
Proof. by intros [= -> -> ->]. Qed.

Lemma filter_port_fkey f pp : proto_ok f → wild_ok f → port_ok pp → port_fkey pp = filter_fkey f →
  filter_wf f ∧ U8Proto f = port_proto pp ∧ bool_decide (PortName f = "") = negb (IsSvcName (pp_Port pp)) ∧
  if IsSvcName (pp_Port pp) then PortName f = pp_Port pp ∧ Port f = 0 ∧ L4Filter.EndPort f = 0 ∧ U8Proto f ≠ 0
  else Port f = ParseUint16 (pp_Port pp) ∧ L4Filter.EndPort f = uwrap 16 (pp_EndPort pp).
Proof.
  intros HP HW PO. unfold port_fkey, filter_fkey.
  assert (HA : port_proto pp = 0 → IsSvcName (pp_Port pp) = false ∧ ParseUint16 (pp_Port pp) = 0).
  { intros H0. apply (po_any _ PO). unfold port_proto in H0. destruct (ParseProtocol (pp_Protocol pp)); simpl in H0; auto.
    left. by subst. }
  pose proof (ParseProtocol_range (pp_Protocol pp)) as Hu. fold (port_proto pp) in Hu.
  pose proof (ParseUint16_range (pp_Port pp)) as HPR. generalize dependent (ParseUint16 (pp_Port pp)). intros n HA HPR.
  case_bool_decide as Hn; destruct (IsSvcName (pp_Port pp)) eqn:Es; try done; cbn [negb].
  - intros (E1 & E2 & E3)%FRange_inj. fold (port_proto pp) in E3. pose proof (uwrap_uint 16 (pp_EndPort pp) ltac:(done)).
    split; [|by rewrite E1, E2, E3]. constructor; rewrite <- ?E1, <- ?E2, <- ?E3; try done.
    intros [_ H0]%HA. done.
  - intros [= E1 E2]. destruct (HP Hn) as (P1 & P2 & P3 & P4). rewrite <- E2 in P2. fold (port_proto pp) in P2.
    assert (U8Proto f ≠ 0) by (rewrite P2; intros [? _]%HA; done).
    split; [|done]. constructor; rewrite ?P3, ?P4; try done. by rewrite P2.
Qed.

Lemma filter_matches_port f cs pp x : proto_ok f → wild_ok f → port_ok pp → port_fkey pp = filter_fkey f →
  filter_matches f cs x ↔ port_matches e (f_Ingress f) cs pp x.
Proof.
  intros HP HW PO HK. destruct (filter_port_fkey f pp HP HW PO HK) as (W & Eu & En & Hs).
  unfold filter_matches, port_matches, undefined_port, filter_port, egress_named, direction_of. rewrite named_filter_eq, En, Eu, negb_involutive by done.
  destruct (IsSvcName (pp_Port pp)); cbn [andb].
  - destruct Hs as (-> & Ep & -> & H0). rewrite Eu in H0. destruct (f_Ingress f); cbn [andb negb]; [|done].
    pose proof (eo_ingress _ _ EO (pp_Port pp) (port_proto pp)) as HI. unfold is_uint in HI. rewrite Z.eqb_neq.
    split; [intros (? & ? & ? & [?|[? [?|?]]]); try done; split_and!; try done; lia|].
    intros (? & ? & ? & ? & ?). split_and!; try done. right. split; [done|]. right. lia.
  - destruct Hs as [-> ->]. split; [by intros (? & ? & ?)|]. by intros (? & ?).
Qed.
End coverage.

(** ** Contributions of a direction *)

Lemma sorted_bind {A} (h : A → list contribution) (l : list A) : ∀ k,
  (∀ i a c, l !! i = Some a → c ∈ h a → co_tier c = Z.of_nat (k + i)) → tier_sorted (l ≫= h).
Proof.
  unfold tier_sorted. induction l as [|a l IH]; intros k H; cbn [mbind list_bind]; [constructor|].
  apply StronglySorted_app; split_and!.
  - intros c c' Hc (a' & Hc' & (i & Hi)%list_elem_of_lookup)%list_elem_of_bind.
    rewrite (H 0%nat a c), (H (S i) a' c') by done. lia.
  - assert (HC : ∀ c, c ∈ h a → co_tier c = Z.of_nat k) by (intros c Hc; rewrite (H 0%nat a c) by done; lia).
    clear -HC. induction (h a) as [|c cs IH]; constructor; [apply IH; intros; apply HC; by right|].
    apply Forall_forall. intros c' Hc'. rewrite (HC c), (HC c') by ((by left) || (by right)). lia.
  - apply (IH (S k)). intros i a' c Hi Hc. rewrite (H (S i) a' c) by done. lia.
Qed.

Section direction.
Context {SK : SelectorKeys} {GR : GoRange} (e : EndpointContext) (cinfo : ClusterInfo) (EO : endpoint_ok e cinfo).
Context (ingress : bool) (rules : list PolicyEntry) (bases : list Z) (out : list (PolicyEntry * Z)).
Context (AS : assigned rules bases out) (pms : list L4PolicyMap) (MS : maps_summary ingress out pms).
Context (HR : ∀ r, r ∈ rules → pe_Ingress r = ingress ∧ rule_ok r).
Implicit Types (f : L4Filter) (m : L4PolicyMap) (cs : string) (pol : option PerSelectorPolicy) (x : Key) (c : contribution).
Notation css := (direction_contributions e out pms).

(** A policy of a selector in the maps. *)
Record in_maps (i : nat) f cs pol : Prop := {
  im_tier : f_Tier f = Z.of_nat i;
  im_ingress : f_Ingress f = ingress;
  im_wild : wild_ok f;
  im_proto : proto_ok f;
  im_filter : filter_wf f;
  im_behind : ∃ r, r ∈ out ∧ behind f cs pol r;
  im_priority : 0 ≤ GetPriority pol ≤ LowestPriority;
  im_listener : is_uint 8 (GetListenerPriority pol);
}.

Lemma rule_port_ok r pr pp : r ∈ rules → (pr, pp) ∈ rule_ports r → port_ok pp.
Proof. intros Hr Hp. destruct (HR r Hr) as [_ HO]. by destruct (proj1 (Forall_forall _ _) HO _ Hp). Qed.

Lemma out_rule r q : (r, q) ∈ out → r ∈ rules.
Proof. intros Hin. rewrite <- (as_rules _ _ _ AS). by apply (list_elem_of_fmap_2 fst) in Hin. Qed.

Lemma out_priority r q : (r, q) ∈ out → 0 ≤ q ≤ LowestPriority.
Proof.
  intros Hin. destruct (as_range _ _ _ AS _ _ Hin) as [Ht Hq]. destruct (as_bases _ _ _ AS _ Ht). lia.
Qed.

Lemma stored_in_maps i m f cs pol : pms !! i = Some m → stored m f → PerSelectorPolicies f !! cs = Some pol → in_maps i f cs pol.
Proof.
  intros Hi Hf Hp. destruct (map_summary out ingress pms MS i m Hi) as [_ SF SS _]. destruct (SF f Hf) as (Et & Ei & HW & HP).
  destruct (SS _ _ _ Hf Hp) as (r & q & pp & (Hin & Ht & pr & Hpr)%tier_atom & Hc & Hk & Hq & Hv & Hl).
  constructor; try done.
  - apply (filter_port_fkey f pp); try done. by apply (rule_port_ok r pr); [apply (out_rule r q)|].
  - destruct (filter_accounted out ingress pms MS i m f Hi Hf) as [_ HA]. by apply HA.
  - rewrite Hq. by apply (out_priority r).
Qed.

Lemma elem_of_direction c : c ∈ css ↔ ∃ i m f cs pol, pms !! i = Some m ∧ stored m f ∧ PerSelectorPolicies f !! cs = Some pol ∧
  undefined_port e f = false ∧ skipped e f cs pol = false ∧ c ∈ policy_contributions e out f cs pol.
Proof.
  unfold direction_contributions. rewrite list_elem_of_bind. split.
  - intros (m & (f & Hc & Hf)%list_elem_of_bind & (i & Hi)%list_elem_of_lookup).
    apply elem_of_Filters in Hf; [|by apply (map_summary out ingress pms MS i)].
    unfold filter_contributions in Hc. destruct (undefined_port e f) eqn:HU; [by apply elem_of_nil in Hc|].
    apply list_elem_of_bind in Hc as (cs & Hc & _). unfold selector_contributions in Hc.
    destruct (PerSelectorPolicies f !! cs) as [pol|] eqn:Hp; [|by apply elem_of_nil in Hc].
    destruct (skipped e f cs pol) eqn:HS; [by apply elem_of_nil in Hc|]. by exists i, m, f, cs, pol.
  - intros (i & m & f & cs & pol & Hi & Hf & Hp & HU & HS & Hc). exists m. split; [|by apply list_elem_of_lookup; exists i].
    apply list_elem_of_bind. exists f. split; [|by apply elem_of_Filters; [apply (map_summary out ingress pms MS i)|]].
    unfold filter_contributions. rewrite HU. apply list_elem_of_bind. exists cs.
    split; [by unfold selector_contributions; rewrite Hp, HS|]. apply elem_of_range, elem_of_dom. by eexists.
Qed.

(** The contributions of a selector come from the rule behind it. *)
Lemma policy_contribution f cs pol c : filter_wf f → c ∈ policy_contributions e out f cs pol →
  ∃ port key, c = contribution_of e out f cs pol port key ∧ wf_key key ∧ TrafficDirection key = direction_of f.
Proof.
  intros W. unfold policy_contributions. destruct (egress_named f) eqn:En.
  - intros ([id port] & <- & Hy%list_elem_of_In)%list_elem_of_In%in_map_iff. eexists _, _. split; [done|]. cbn [fst snd].
    destruct (eo_port _ _ EO _ _ _ _ _ Hy) as (Hid & HP & Hn0). destruct (eo_selection _ _ EO _ _ Hid) as [Hu _].
    destruct (egress_named_port e f W En) as [EP H0]. unfold filter_key. rewrite EP. unfold WithPortProto. rewrite WithPort_Identity.
    destruct (filter_key_spec (direction_of f) (U8Proto f) port) as (Wk & Dk & _); try done;
      [apply direction_bounds|apply W|]. split; [|done]. by apply WithIdentity_wf.
  - intros (id & (k & <- & Hk%list_elem_of_In)%list_elem_of_In%in_map_iff & Hid)%list_elem_of_bind. eexists _, _. split; [done|].
    destruct (filter_port_wf e cinfo EO f W) as [HP Hany].
    destruct (keysForRange_spec (direction_of f) (U8Proto f) (filter_port e f) (L4Filter.EndPort f)
      (direction_bounds f) (fw_proto f W) HP (fw_end f W) Hany) as [HF _].
    destruct (proj1 (Forall_forall _ _) HF k Hk) as (Wk & Dk & _). split; [|done]. unfold filter_idents in Hid. case_bool_decide.
    + by apply aggregate_key_wf.
    + apply WithIdentity_wf; [done|]. apply (eo_selection _ _ EO _ _ Hid).
Qed.

Lemma direction_contributes : Forall (contributes (if ingress then Ingress else Egress) out) css.
Proof.
  apply Forall_forall. intros c (i & m & f & cs & pol & Hi & Hf & Hp & HU & HS & Hc)%elem_of_direction.
  destruct (stored_in_maps i m f cs pol Hi Hf Hp) as [_ Ei _ _ W HB _ HL].
  destruct (policy_contribution f cs pol c W Hc) as (port & key & -> & Wk & Dk). constructor; cbn; try done.
  - by apply rule_behind_spec.
  - apply (proxy_port_spec e cinfo EO).
  - rewrite Dk. unfold direction_of. by rewrite Ei.
Qed.

Lemma contribution_tier c i m f cs pol : pms !! i = Some m → stored m f → PerSelectorPolicies f !! cs = Some pol →
  c ∈ policy_contributions e out f cs pol → co_tier c = Z.of_nat i.
Proof.
  intros Hi Hf Hp Hc. destruct (stored_in_maps i m f cs pol Hi Hf Hp) as [Et _ _ _ W HB _ _].
  destruct (policy_contribution f cs pol c W Hc) as (port & key & -> & _ & _).
  destruct (rule_behind_spec out f cs pol HB) as (_ & Ht & _). unfold co_tier. cbn. cbn in Ht. congruence.
Qed.

Lemma direction_tier_sorted : tier_sorted css.
Proof.
  apply (sorted_bind _ _ 0%nat). intros i m c Hi (f & Hc & Hf)%list_elem_of_bind.
  apply elem_of_Filters in Hf; [|by apply (map_summary out ingress pms MS i)].
  unfold filter_contributions in Hc. destruct (undefined_port e f); [by apply elem_of_nil in Hc|].
  apply list_elem_of_bind in Hc as (cs & Hc & _). unfold selector_contributions in Hc.
  destruct (PerSelectorPolicies f !! cs) as [pol|] eqn:Hp; [|by apply elem_of_nil in Hc].
  destruct (skipped e f cs pol); [by apply elem_of_nil in Hc|]. by apply (contribution_tier c i m f cs pol).
Qed.

(** ** Rules and contributions *)

Lemma rank_entry_le r q r' q' : (r, q) ∈ out → (r', q') ∈ out → Tier r' = Tier r →
  q' < q ∨ q' = q ∧ verdictOrder (pe_Verdict r') ≤ verdictOrder (pe_Verdict r) → entry_le r' r.
Proof.
  intros Hr Hr' Ht Hb. destruct (as_order _ _ _ AS _ _ _ _ Hr' Hr Ht) as [[_ O1] [_ O2]]. unfold entry_le.
  right. split; [done|]. destruct Hb as [?|[? ?]]; [left; auto|right; auto].
Qed.

(** Equal precedences are equal priorities and verdicts. *)
Lemma precedence_rank pol : 0 ≤ GetPriority pol ≤ LowestPriority → is_uint 8 (GetListenerPriority pol) → ∃ b,
  GetPrecedence pol = (LowestPriority - GetPriority pol) * 256 + b ∧
  match GetVerdict pol with Pass => b = 0 | Deny => b = 255 | Allow => 1 ≤ b ≤ 254 end.
Proof.
  intros Hp [Hl _]. destruct pol as [p|]; [|exists 1; by split; [vm_compute|]].
  unfold GetPrecedence, GetVerdict, GetPriority in *. pose proof (listener_byte_bounds (GetListenerPriority (Some p))).
  destruct (psp_Verdict p) eqn:Ev; [| |exists 0; unfold ToPassPrecedence; rewrite toBasePrecedence_eq by lia; split; [|done]; lia];
    rewrite ToPrecedenceWithListenerPriority_eq, Z.min_l by lia; eexists; (split; [done|]); [|done].
  rewrite bool_decide_false by done. destruct (IsRedirect (Some p)); lia.
Qed.

Lemma equivalent_rank p q : 0 ≤ GetPriority p ≤ LowestPriority → is_uint 8 (GetListenerPriority p) →
  0 ≤ GetPriority q ≤ LowestPriority → is_uint 8 (GetListenerPriority q) →
  datapathEquivalent p q = true → GetPriority p = GetPriority q ∧ GetVerdict p = GetVerdict q.
Proof.
  intros Hp Lp Hq Lq HD. unfold datapathEquivalent in HD. rewrite !andb_true_iff in HD. destruct HD as [[HD _] _].
  apply Z.eqb_eq in HD. destruct (precedence_rank p Hp Lp) as (b & E & Hb), (precedence_rank q Hq Lq) as (b' & E' & Hb').
  rewrite E, E' in HD. destruct (GetVerdict p), (GetVerdict q); split; try done; lia.
Qed.

(** A selector is only left out for the wildcard at the same rank. *)
Lemma skipped_wildcard f cs pol : wild_ok f → skipped e f cs pol = true →
  ∃ polw, PerSelectorPolicies f !! wildcardSelectorKey = Some polw ∧ datapathEquivalent pol polw = true ∧
    skipped e f wildcardSelectorKey polw = false.
Proof.
  intros HW. unfold skipped, selectorCoveredByWildcard. rewrite HW. case_decide as Hs; [|by rewrite andb_false_r].
  destruct Hs as [polw Hw]. intros HS. exists polw. rewrite Hw in HS. cbn [default from_option id] in HS.
  split; [done|]. split; [|by rewrite bool_decide_true]. destruct (_ || _); [by rewrite andb_false_r in HS|].
  by apply andb_true_iff in HS as [_ ?].
Qed.

Lemma matches_wildcard f cs x : filter_matches e f cs x → filter_matches e f wildcardSelectorKey x.
Proof.
  unfold filter_matches. intros [E1 E2]. split; [done|]. destruct (egress_named f).
  - destruct E2 as [E2 E3]. split; [done|]. destruct (eo_port _ _ EO _ _ _ _ _ E3) as [Hid _].
    apply (eo_each _ _ EO _ _ _ _ _ _ E3), (eo_wildcard _ _ EO _ _ Hid).
  - destruct E2 as (E2 & _ & E4). split; [done|]. split; [by left|done].
Qed.

Lemma matches_defined f cs x : filter_matches e f cs x → undefined_port e f = false.
Proof.
  unfold filter_matches. intros [_ E2]. destruct (egress_named f) eqn:En; [|by destruct E2].
  unfold egress_named, undefined_port in *. by destruct (named_filter f), (f_Ingress f).
Qed.

(** A policy of a selector that matches is covered by a contribution of its rank. *)
Lemma matching_contribution i m f cs pol x : flow x → pms !! i = Some m → stored m f → PerSelectorPolicies f !! cs = Some pol →
  filter_matches e f cs x → ∃ c, c ∈ css ∧ kcovers cinfo (co_key c) x ∧ co_tier c = Z.of_nat i ∧
    co_priority c = GetPriority pol ∧ pe_Verdict (co_rule c) = GetVerdict pol.
Proof.
  intros Fx Hi Hf. assert (HC : ∀ cs pol, PerSelectorPolicies f !! cs = Some pol → skipped e f cs pol = false →
    filter_matches e f cs x → ∃ c, c ∈ css ∧ kcovers cinfo (co_key c) x ∧ co_tier c = Z.of_nat i ∧
    co_priority c = GetPriority pol ∧ pe_Verdict (co_rule c) = GetVerdict pol).
  { clear cs pol. intros cs pol Hp HS HM. pose proof (matches_defined f cs x HM) as HU.
    destruct (stored_in_maps i m f cs pol Hi Hf Hp) as [_ _ _ _ W HB _ _].
    apply (policy_covers e cinfo EO out f cs pol x W Fx Hp HU) in HM as (c & Hc & Hk). exists c.
    split; [apply elem_of_direction; by exists i, m, f, cs, pol|]. split; [done|].
    split; [by apply (contribution_tier c i m f cs pol)|].
    destruct (policy_contribution f cs pol c W Hc) as (port & key & -> & _ & _). split; [done|]. by apply rule_behind_spec in HB as (_ & _ & _ & ? & _). }
  intros Hp HM. destruct (skipped e f cs pol) eqn:HS; [|by apply (HC cs)].
  destruct (stored_in_maps i m f cs pol Hi Hf Hp) as [_ _ HW _ _ _ P1 L1].
  destruct (skipped_wildcard f cs pol HW HS) as (polw & Hw & HD & HSw).
  destruct (stored_in_maps i m f _ polw Hi Hf Hw) as [_ _ _ _ _ _ P2 L2].
  destruct (equivalent_rank pol polw P1 L1 P2 L2 HD) as [-> ->]. by apply (HC _ polw Hw HSw), (matches_wildcard f cs).
Qed.

Lemma rule_atom r cs pr pp x : r ∈ rules → cs ∈ rule_css r → (pr, pp) ∈ rule_ports r → port_matches e ingress cs pp x →
  ∃ q i m f pol, (r, q) ∈ out ∧ Tier r = Z.of_nat i ∧ pms !! i = Some m ∧ stored m f ∧ PerSelectorPolicies f !! cs = Some pol ∧
    beats pol q (pe_Verdict r) ∧ filter_matches e f cs x.
Proof.
  intros Hr Hc Hpr HM. pose proof Hr as Hin. rewrite <- (as_rules _ _ _ AS) in Hin.
  apply list_elem_of_fmap in Hin as ([r' q] & -> & Hin). cbn [fst] in *. destruct (ms_len _ _ _ MS _ _ Hin) as [Ht0 Ht].
  destruct (lookup_lt_is_Some_2 pms (Z.to_nat (Tier r')) ltac:(lia)) as [m Hm].
  destruct (map_summary out ingress pms MS _ m Hm) as [_ SF _ SC].
  assert (Hn : IsNone cs = false).
  { unfold IsNone. case_bool_decide as E; [|done]. subst cs. exfalso. destruct HM as [_ HM].
    assert (Hns : ¬ selects e noneSelectorKey x).
    { intros [E|E]; [by apply (eo_keys _ _ EO)|]. rewrite (eo_none _ _ EO) in E. by apply elem_of_nil in E. }
    destruct (IsSvcName _), ingress; try by destruct HM as (? & ?); tauto.
    destruct HM as [_ HM]. apply (eo_port _ _ EO) in HM as [HM _]. rewrite (eo_none _ _ EO) in HM. by apply elem_of_nil in HM. }
  destruct (SC r' q pp cs) as (f & pol & Hf & Hk & Hp & Hb); [apply tier_atom; split_and!; [done|lia|by exists pr]|done|done|].
  exists q, (Z.to_nat (Tier r')), m, f, pol. split_and!; try done; [lia|].
  destruct (SF f Hf) as (_ & Ei & HW & HP). apply (filter_matches_port e cinfo EO f cs pp x); try done.
  - by apply (rule_port_ok r' pr).
  - by rewrite Ei.
Qed.

Lemma direction_represents x (m : list PolicyEntry) : flow x → (∀ r, r ∈ m ↔ r ∈ rules ∧ rule_matches e r x) →
  represents cinfo css x m.
Proof.
  intros Fx Hm. constructor.
  - intros c (i & m0 & f & cs & pol & Hi & Hf & Hp & HU & HS & Hc)%elem_of_direction Hk. apply Hm.
    destruct (stored_in_maps i m0 f cs pol Hi Hf Hp) as [_ Ei HW HP W HB _ _].
    assert (HM : filter_matches e f cs x) by (apply (policy_covers e cinfo EO out f cs pol x W Fx Hp HU); by exists c).
    destruct (policy_contribution f cs pol c W Hc) as (port & key & -> & _ & _). cbn [co_rule contribution_of].
    apply rule_behind_spec in HB as (Hin & _ & _ & _ & Hcs & ([pr pp] & Hk' & Hpr%list_elem_of_In)%list_elem_of_In%in_map_iff).
    cbn [fst snd] in *. pose proof (out_rule _ _ Hin) as Hr. split; [done|]. exists cs, pr, pp. split; [done|]. split; [done|].
    rewrite (proj1 (HR _ Hr)), <- Ei. apply (filter_matches_port e cinfo EO f cs pp x); try done. by apply (rule_port_ok _ pr pp Hr).
  - intros r [Hr (cs & pr & pp & Hc & Hpr & HM)]%Hm. rewrite (proj1 (HR r Hr)) in HM.
    destruct (rule_atom r cs pr pp x Hr Hc Hpr HM) as (q & i & m0 & f & pol & Hin & Ht & Hi & Hf & Hp & Hb & HMf).
    destruct (matching_contribution i m0 f cs pol x Fx Hi Hf Hp HMf) as (c & Hcc & Hk & Etc & Eq & Ev).
    exists c. split; [done|]. split; [done|]. split; [congruence|]. right.
    pose proof (proj1 (Forall_forall _ _) direction_contributes c Hcc) as [Hout _ _ _ _].
    apply (rank_entry_le r q (co_rule c) (co_priority c)); try done; [unfold co_tier in Etc; congruence|].
    unfold beats in Hb. rewrite Eq, Ev. done.
Qed.
End direction.
