(* ===== verification/L4Enforcement.v ===== *)
(** * Enforcement of the policy of a direction

    The rules of one direction, resolved into policy maps, attached for their features and
    converted into the map state of an endpoint: every flow gets the verdict of the rules that
    match it, and the other direction is left alone. *)

From Stdlib Require Import QArith.
From stdpp Require Import sorting.
From S2P Require Import Prelude Precedence BitLPM PolicyKey PortRange Identity RuleOrigin PassMeta.
From S2P Require Import MapState MapStateIndex MapStateLookup MapStateOps MapStateFrame MapStatePolicy PolicyRule.
From S2P Require Import TierOrder TierState TierInvariant TierPolicy TierPriorities TierEvaluation PlainEvaluation.
From S2P Require Import L4Types L4Filter L4MapState L4Merge L4Resolve L4Contributions L4Evaluation.

Local Open Scope Z_scope.

(** ** Features *)

Lemma contains_lor a b mask : contains (Z.lor a b) mask = contains a mask || contains b mask.
Proof.
  unfold contains. rewrite Z.land_lor_distr_l. destruct (Z.eqb_spec (Z.lor (Z.land a mask) (Z.land b mask)) 0) as [E|E].
  - apply Z.lor_eq_0_iff in E as [-> ->]. done.
  - destruct (Z.eqb_spec (Z.land a mask) 0) as [E1|], (Z.eqb_spec (Z.land b mask) 0) as [E2|]; try done.
    by rewrite E1, E2 in E.
Qed.

Lemma contains_0 mask : contains 0 mask = false.
Proof. unfold contains. by rewrite Z.land_0_l. Qed.

Lemma filter_attach_features f mask : contains namedPortRules mask = false →
  contains (filter_attach f).1 mask = true ↔
  ∃ cs pol, PerSelectorPolicies f !! cs = Some pol ∧ contains (policy_features pol) mask = true.
Proof.
  intros Hn. unfold filter_attach.
  apply (map_fold_weak_ind (λ r (m : gmap string (option PerSelectorPolicy)), contains r.1 mask = true ↔
    ∃ cs pol, m !! cs = Some pol ∧ contains (policy_features pol) mask = true)).
  - cbn [fst]. split; [|intros (cs & pol & Hl & _); by rewrite lookup_empty in Hl].
    by destruct (bool_decide _); rewrite ?Hn, ?contains_0.
  - intros cs pol m r Hm IH. cbn [fst]. rewrite contains_lor, orb_true_iff, IH. split.
    + intros [(cs' & pol' & Hl & Hc)|Hc].
      * exists cs', pol'. split; [|done]. rewrite lookup_insert_ne; [done|]. intros ->. congruence.
      * exists cs, pol. by rewrite lookup_insert_eq.
    + intros (cs' & pol' & Hl & Hc). destruct (decide (cs = cs')) as [->|Hne].
      * rewrite lookup_insert_eq in Hl. injection Hl as ->. by right.
      * rewrite lookup_insert_ne in Hl by done. left. by exists cs', pol'.
Qed.

Section features.
Context {GR : GoRange}.

Lemma direction_attach_features (pms : list L4PolicyMap) bases mask : contains namedPortRules mask = false →
  contains (dir_features (direction_attach (mkDirection pms bases 0)).1) mask = true ↔
  ∃ m f cs pol, m ∈ pms ∧ f ∈ L4PolicyMap_Filters m ∧ PerSelectorPolicies f !! cs = Some pol ∧
    contains (policy_features pol) mask = true.
Proof.
  intros Hn. unfold direction_attach. cbn [fst dir_features PortRules].
  assert (HG : ∀ (l : list L4Filter) acc, contains (foldl (λ acc f, (Z.lor acc.1 (filter_attach f).1, Z.lor acc.2 (filter_attach f).2))
      acc l).1 mask = true ↔ contains acc.1 mask = true ∨ ∃ f, f ∈ l ∧ contains (filter_attach f).1 mask = true).
  { induction l as [|f l IH]; intros acc; cbn [foldl].
    - split; [by left|]. intros [?|(f & ?%elem_of_nil & _)]; done.
    - rewrite IH. cbn [fst]. rewrite contains_lor, orb_true_iff. setoid_rewrite elem_of_cons. naive_solver. }
  rewrite HG. cbn [fst]. rewrite contains_0. unfold L4PolicyMaps_Filters. split.
  - intros [?|(f & (m & Hf & Hm)%list_elem_of_bind & (cs & pol & Hp & Hc)%filter_attach_features)]; [done| |done].
    by exists m, f, cs, pol.
  - intros (m & f & cs & pol & Hm & Hf & Hp & Hc). right. exists f. split; [apply list_elem_of_bind; by exists m|].
    apply filter_attach_features; [done|]. by exists cs, pol.
Qed.
End features.

Lemma features_pass pol : contains (policy_features pol) passRules = true ↔ GetVerdict pol = Pass.
Proof.
  destruct pol as [p|]; [|done]. unfold policy_features, GetVerdict. rewrite !contains_lor.
  assert (HF : ∀ (b : bool) x, contains x passRules = false → contains (if b then x else 0) passRules = false)
    by (intros [] x Hx; [done|apply contains_0]).
  rewrite !HF by done. cbn [orb]. case_bool_decide; [done|]. rewrite contains_0. done.
Qed.

(** Without these features a policy is the plain allow. *)
Lemma features_precedence pol : 0 ≤ GetPriority pol → contains (policy_features pol) precedenceFeatures = false →
  GetVerdict pol ≠ Pass → GetPriority pol = 0 ∧ GetVerdict pol = Allow ∧ IsRedirect pol = false.
Proof.
  destruct pol as [p|]; [|done]. unfold policy_features, GetPriority, GetVerdict, IsRedirect. rewrite !contains_lor, !orb_false_iff.
  intros H0 (H1 & H2 & H3 & _) Hp. split; [|split].
  - destruct (Z.ltb_spec 0 (psp_Priority p)); [done|lia].
  - destruct (psp_Verdict p); [done|by vm_compute in H3|done].
  - cbn [GetL7Parser]. by destruct (bool_decide (L7Parser p ≠ ParserTypeNone)).
Qed.

(** ** One direction *)

Section direction.
Context {TR : Trie LPMKey IDSet} {TL : TrieLaws LPMKey IDSet TR} {GR : GoRange} {SK : SelectorKeys}.
Context (e : EndpointContext) (cinfo : ClusterInfo) (EO : endpoint_ok e cinfo).
Implicit Types (s : mapState TR * ChangeState) (x : Key).

Definition traffic (ingress : bool) : Z := if ingress then Ingress else Egress.

(** Passes need a rule that decides the flow, in a tier without passes. *)
Definition default_rule (rules : list PolicyEntry) x : Prop :=
  (∃ r, r ∈ rules ∧ pe_Verdict r = Pass) →
  ∃ d, d ∈ rules ∧ rule_matches e d x ∧ ∀ r, r ∈ rules → Tier r = Tier d → pe_Verdict r ≠ Pass.

(** The rules that match a flow, as the simulator sorts them. *)
Definition matched (rules : list PolicyEntry) x (m : list PolicyEntry) : Prop :=
  (∀ r, r ∈ m ↔ r ∈ rules ∧ rule_matches e r x) ∧ StronglySorted entry_le m.

(** The map state enforces the rules of the direction. *)
Record enforces (ingress : bool) (rules : list PolicyEntry) (ms : mapState TR) : Prop := {
  en_ordered : ordered (traffic ingress) ms;
  en_verdict x m : flow x → TrafficDirection x = traffic ingress → default_rule rules x → matched rules x m →
    findMatchingRule m true = if MapStateEntry_IsDeny (lookup ms x).1 then DecisionDenied else DecisionAllowed;
}.

(** What the conversion of a direction does to a state. *)
Record converted (ingress : bool) (rules : list PolicyEntry) s s' : Prop := {
  cv_state : st_inv cinfo wf_key wf_key s';
  cv_sinv : sinv cinfo s'.1;
  cv_frame : frames (traffic ingress) s s';
  cv_enforces : enforces ingress rules s'.1;
}.

Lemma fresh_ordered dir s : fresh cinfo dir s → ordered dir s.1.
Proof.
  intros [Hs HE HN]. constructor; [apply Hs| |].
  - intros k v Dk E. by rewrite HN in E.
  - intros k v k' v' Dk E. by rewrite HN in E.
Qed.

Lemma empty_filters m : m = makeL4PolicyMap → L4PolicyMap_Filters m = [].
Proof.
  intros ->. unfold L4PolicyMap_Filters, makeL4PolicyMap. cbn [NamedPortMap RangePortMap]. by rewrite !dom_empty_L, !range_empty.
Qed.

(** No rules, no entries. *)
Lemma convert_none ingress s : fresh cinfo (traffic ingress) s →
  ∃ s', direction_toMapState e (direction_attach (mkDirection [makeL4PolicyMap] [0] 0)).1 s = inr s' ∧ converted ingress [] s s'.
Proof.
  intros FR. exists s. split.
  - unfold direction_toMapState, direction_attach. cbn. by rewrite (empty_filters makeL4PolicyMap eq_refl).
  - constructor; [apply FR|apply FR|done|]. constructor; [by apply fresh_ordered|].
    intros x m Fx Dx _ [Hm _]. assert (m = []) as ->.
    { apply elem_of_nil_inv. intros r [Hr _]%Hm. by apply elem_of_nil in Hr. }
    pose proof (lookup_entries s.1 x) as HL. rewrite Dx in HL. specialize (HL (fresh_ordered _ s FR) (proj1 Fx)).
    destruct (lookup s.1 x) as [v []]; [|by destruct HL as [-> _]].
    destruct HL as [(k & E & _ & [[Dk _] _]) _]. rewrite (fr_none _ _ _ FR) in E; [done|]. congruence.
Qed.

Context (ingress : bool) (rules : list PolicyEntry) (need : Z) (Hs : sorted_rules rules).
Context (Hn : levels_needed rules = inr need) (Hle : need < 2 ^ 63).
Context (HR : ∀ r, r ∈ rules → pe_Ingress r = ingress ∧ rule_ok r).

Section resolved.
Context (bases : list Z) (out : list (PolicyEntry * Z)) (AS : assigned rules bases out).
Context (pms : list L4PolicyMap) (MS : maps_summary ingress out pms).
Notation dir := (traffic ingress).
Notation css := (direction_contributions e out pms).
Notation features := (dir_features (direction_attach (mkDirection pms bases 0)).1).

Lemma css_ok : Forall (contributes dir out) css.
Proof. apply (direction_contributes e cinfo EO ingress rules bases out AS pms MS HR). Qed.

Lemma css_policy c : c ∈ css → ∃ m f cs pol, m ∈ pms ∧ f ∈ L4PolicyMap_Filters m ∧ PerSelectorPolicies f !! cs = Some pol ∧
  pe_Verdict (co_rule c) = GetVerdict pol ∧ co_priority c = GetPriority pol ∧ 0 ≤ GetPriority pol ∧
  co_listenerPriority c = GetListenerPriority pol ∧ (IsRedirect pol = false → co_proxyPort c = 0).
Proof.
  intros Hc. apply (elem_of_direction e ingress out pms MS) in Hc as (i & m & f & cs & pol & Hi & Hf & Hp & HU & HS & Hc).
  destruct (stored_in_maps ingress rules bases out AS pms MS HR i m f cs pol Hi Hf Hp) as [_ _ _ _ W HB P _].
  destruct (policy_contribution e cinfo EO out f cs pol c W Hc) as (port & key & -> & _ & _).
  exists m, f, cs, pol. split_and!; try done; [by apply list_elem_of_lookup; exists i| | |lia|].
  - apply elem_of_Filters; [|done]. by apply (map_summary out ingress pms MS i).
  - by apply rule_behind_spec in HB as (_ & _ & _ & ? & _).
  - cbn. unfold proxy_port. by intros ->.
Qed.

Lemma policy_in_features m f cs pol mask : contains namedPortRules mask = false →
  m ∈ pms → f ∈ L4PolicyMap_Filters m → PerSelectorPolicies f !! cs = Some pol →
  contains features mask = false → contains (policy_features pol) mask = false.
Proof.
  intros Hnm Hm Hf Hp Hc. destruct (contains (policy_features pol) mask) eqn:Ht; [|done].
  rewrite <- Hc. symmetry. apply direction_attach_features; [done|]. by exists m, f, cs, pol.
Qed.

(** Without pass features no contribution passes. *)
Lemma css_plain : contains features passRules = false → ∀ c, c ∈ css → pe_Verdict (co_rule c) ≠ Pass.
Proof.
  intros Hf c Hc. destruct (css_policy c Hc) as (m & f & cs & pol & Hm & Hfm & Hp & -> & _). intros Hv.
  apply features_pass in Hv. rewrite (policy_in_features m f cs pol) in Hv; done.
Qed.

Lemma css_same : contains features passRules = false →
  contains features precedenceFeatures = true ∨
  ∀ c c', c ∈ css → c' ∈ css → Precedence (co_entry bases c) = Precedence (co_entry bases c').
Proof.
  intros Hf. destruct (contains features precedenceFeatures) eqn:Hp; [by left|right].
  assert (HC : ∀ c, c ∈ css → Precedence (co_entry bases c) = Precedence (NewMapStateEntry 0 false 0 0)).
  { intros c Hc. pose proof (css_plain Hf c Hc) as Hv.
    destruct (css_policy c Hc) as (m & f & cs & pol & Hm & Hfm & Hpol & Ev & Eq & H0 & El & Epp). rewrite Ev in Hv.
    destruct (features_precedence pol H0) as (P0 & Va & Hr); [by apply (policy_in_features m f cs)|done|].
    unfold co_entry, newMapStateEntry. rewrite Ev, Va, Eq, P0, Epp, El by done. done. }
  intros c c' Hc Hc'. by rewrite (HC c), (HC c').
Qed.

Lemma css_pass : contains features passRules = true → ∃ r, r ∈ rules ∧ pe_Verdict r = Pass.
Proof.
  intros (m & f & cs & pol & Hm & Hf & Hp & Hv%features_pass)%direction_attach_features; [|done].
  apply list_elem_of_lookup in Hm as (i & Hi). apply elem_of_Filters in Hf; [|by apply (map_summary out ingress pms MS i)].
  destruct (stored_in_maps ingress rules bases out AS pms MS HR i m f cs pol Hi Hf Hp) as [_ _ _ _ _ (x & Hx & _ & _ & Ev & _) _ _].
  exists x.1. split; [|congruence]. destruct x as [r q]. by apply (out_rule rules bases out AS r q).
Qed.

Lemma convert_resolved s : fresh cinfo dir s →
  ∃ s', direction_toMapState e (direction_attach (mkDirection pms bases 0)).1 s = inr s' ∧ converted ingress rules s s'.
Proof.
  intros FR. eexists. split; [exact (direction_contribution e out bases features cinfo EO ingress rules AS pms MS s)|].
  destruct (contributions_frames cinfo dir bases out css css_ok features s FR) as [F S].
  destruct (contains features passRules) eqn:Hf.
  - pose proof (direction_tier_sorted e cinfo EO ingress rules bases out AS pms MS HR) as HT.
    pose proof (contributions_tinv cinfo dir rules bases out css s features AS FR css_ok HT Hf) as I.
    constructor; [done|apply I|done|]. constructor; [by eapply tinv_ordered|].
    intros x m Fx Dx HD [Hm HS].
    pose proof (direction_represents e cinfo EO ingress rules bases out AS pms MS HR x m Fx Hm) as HRp.
    destruct (HD (css_pass Hf)) as (d & Hd & Hdm & Hdp).
    apply (lookup_represents cinfo dir rules bases out css s features x m true); try done; [apply css_ok|apply Fx|].
    destruct (rp_rule _ _ _ _ HRp d ltac:(by apply Hm)) as (c & Hc & Hk & Et & _).
    exists c. split; [done|]. split; [done|]. intros r Hr. rewrite Et. by apply Hdp.
  - pose proof (css_plain Hf) as Hp. pose proof (css_same Hf) as Hsame.
    constructor; [done|by apply (plain_sinv cinfo dir rules bases out AS css css_ok features s FR Hf Hp Hsame)|done|].
    constructor.
    + apply (pol_ordered_state (direction_scope dir) dir _ (map (plain_rule bases) (reverse css))); [done|].
      by apply (contributions_policy cinfo dir rules bases out AS css css_ok features s FR Hf Hp Hsame).
    + intros x m Fx Dx _ [Hm HS].
      apply (lookup_plain cinfo dir rules bases out AS css css_ok features s FR Hf Hp Hsame x m Hs); try done; [apply Fx|].
      by apply (direction_represents e cinfo EO ingress rules bases out AS pms MS HR).
Qed.
End resolved.

(** The rules of a direction are enforced. *)
Lemma convert_rules c bases pms s : fresh cinfo (traffic ingress) s →
  resolveL4Policy (resolve_into_maps c) [makeL4PolicyMap] rules = inr (bases, pms) →
  ∃ s', direction_toMapState e (direction_attach (mkDirection pms bases 0)).1 s = inr s' ∧ converted ingress rules s s'.
Proof.
  intros FR Hr. destruct (resolved_maps ingress c rules need bases pms Hs Hn Hle HR Hr) as (out & AS & MS).
  by apply (convert_resolved bases out AS pms MS s).
Qed.
End direction.
