(* ===== verification/EndpointPolicy.v ===== *)
(** * The policy of an endpoint

    The map state that [DistillPolicy] of [src/pkg/policy/resolve.go] computes from the resolved
    ingress and egress policies decides every flow as the rules of its direction do, and allows
    all flows of a direction that is not enforced. *)

From Stdlib Require Import QArith.
From S2P Require Import Prelude Precedence BitLPM PolicyKey PortRange Identity RuleOrigin PassMeta MapState.
From S2P Require Import MapStateIndex MapStateLookup MapStateOps MapStateFrame PolicyRule TierState TierPriorities TierEvaluation.
From S2P Require Import L4Types L4Filter L4MapState L4Resolve L4Contributions L4Evaluation L4Enforcement.

Local Open Scope Z_scope.

Section endpoint.
Context {TR : Trie LPMKey IDSet} {TL : TrieLaws LPMKey IDSet TR} {GR : GoRange}.
Implicit Types (s : mapState TR * ChangeState) (ms : mapState TR) (x k : Key) (v : mapStateEntry).

Notation denies ms x := (MapStateEntry_IsDeny (lookup ms x).1).

(** ** The directions do not interfere *)

Lemma lookup_decided ms x v : ordered (TrafficDirection x) ms → wf_key x → highest ms x v →
  denies ms x = MapStateEntry_IsDeny v.
Proof.
  intros HO Wx [(k & E & Hv & Hk) HM]. pose proof (lookup_entries ms x HO Wx) as HL.
  destruct (lookup ms x) as [v0 []]; cbn [fst].
  - destruct HL as [(k0 & E0 & Hv0 & Hk0) HM0]. unfold MapStateEntry_IsDeny. f_equal.
    apply Z.le_antisymm; [by apply (HM k0)|by apply (HM0 k)].
  - destruct HL as [_ HL]. by destruct (HL k v).
Qed.

Lemma kcovers_along cinfo k x : kcovers cinfo k x → TrafficDirection k = TrafficDirection x.
Proof. by intros [[Dk _] _]. Qed.

Lemma ordered_frame dir d s s' : dir ≠ d → frames d s s' → ms_inv s'.1 → clusterInfo s'.1 = clusterInfo s.1 →
  ordered dir s.1 → ordered dir s'.1.
Proof.
  intros Hd F I C [_ HW HC]. constructor; [done| |].
  - intros k v Dk. rewrite (F k) by congruence. by apply HW.
  - intros k v k' v' Dk E Hv E' Hv' Hk. rewrite C in Hk.
    pose proof (kcovers_along _ _ _ Hk). rewrite (F k) in E by congruence. rewrite (F k') in E' by congruence.
    by apply (HC k v k' v').
Qed.

Lemma lookup_frame d s s' x : TrafficDirection x ≠ d → frames d s s' → ms_inv s'.1 → clusterInfo s'.1 = clusterInfo s.1 →
  ordered (TrafficDirection x) s.1 → wf_key x → denies s'.1 x = denies s.1 x.
Proof.
  intros Hd F I C HO Wx. pose proof (ordered_frame _ d s s' Hd F I C HO) as HO'.
  assert (HF : ∀ k, kcovers (clusterInfo s.1) k x → ms_entries s'.1 !! k = ms_entries s.1 !! k).
  { intros k Hk%kcovers_along. apply F. congruence. }
  pose proof (lookup_entries s.1 x HO Wx) as HL. destruct (lookup s.1 x) as [v []] eqn:EL; cbn [fst].
  - apply lookup_decided; [done|done|]. destruct HL as [(k & E & Hv & Hk) HM]. unfold highest. rewrite C. split.
    + exists k. by rewrite (HF k).
    + intros k' v' E' Hv' Hk'. rewrite (HF k') in E' by done. by apply (HM k').
  - destruct HL as [-> HL]. pose proof (lookup_entries s'.1 x HO' Wx) as HL'. rewrite C in HL'.
    destruct (lookup s'.1 x) as [v' []]; cbn [fst]; [|by destruct HL' as [-> _]].
    destruct HL' as [(k & E & Hv & Hk) _]. rewrite C in Hk. rewrite (HF k Hk) in E. by destruct (HL k v').
Qed.

(** ** Directions that are not enforced *)

(** All flows of the direction are allowed. *)
Record open_direction (dir : Z) ms : Prop := {
  op_ordered : ordered dir ms;
  op_allowed x : wf_key x → TrafficDirection x = dir → denies ms x = false;
}.

Lemma open_frame dir d s s' : dir ≠ d → frames d s s' → ms_inv s'.1 → clusterInfo s'.1 = clusterInfo s.1 →
  open_direction dir s.1 → open_direction dir s'.1.
Proof.
  intros Hd F I C [HO HA]. constructor; [by apply (ordered_frame dir d s)|].
  intros x Wx Dx. rewrite (lookup_frame d s s' x); [by apply HA|congruence|done|done|done|by rewrite Dx|done].
Qed.

Definition opened (k0 : Key) v ms : mapState TR := foldl (λ ms nid, upsert ms (WithIdentity k0 nid) v) ms AllAggregates.

Lemma opened_entries k0 v ms k : ms_entries (opened k0 v ms) !! k =
  if bool_decide (Key_LPMKey k = Key_LPMKey k0 ∧ Identity k ∈ AllAggregates) then Some v else ms_entries ms !! k.
Proof.
  unfold opened. assert (HG : ∀ l ms, ms_entries (foldl (λ ms nid, upsert ms (WithIdentity k0 nid) v) ms l) !! k =
    if bool_decide (Key_LPMKey k = Key_LPMKey k0 ∧ Identity k ∈ l) then Some v else ms_entries ms !! k); [|apply HG].
  induction l as [|i l IH]; intros ms0; cbn [foldl].
  - rewrite bool_decide_eq_false_2; [done|]. by intros [_ ?%elem_of_nil].
  - rewrite IH, upsert_entries. destruct (decide (WithIdentity k0 i = k)) as [<-|Hn].
    + rewrite lookup_insert_eq. cbn. rewrite (bool_decide_eq_true_2 (_ ∧ _ ∈ i :: l)) by (split; [done|by left]). by destruct (bool_decide _).
    + rewrite lookup_insert_ne by done.
      erewrite (bool_decide_ext (_ ∧ _ ∈ i :: l)); [reflexivity|]. rewrite elem_of_cons.
      split; [|intros [El Hi]; split; [done|by right]]. intros [El [Ei|Hi]]; [|done]. destruct Hn. destruct k, k0. unfold WithIdentity. cbn in *. congruence.
Qed.

Section open.
Context (cinfo : ClusterInfo) (d : Z) (Hd : d = Ingress ∨ d = Egress) (lbls : string).
Notation allow := (newAllowEntryWithLabels lbls).
Notation k0 := (KeyForDirection d).

Lemma open_wf : wf_key k0.
Proof. apply KeyForDirection_wf. destruct Hd as [-> | ->]; unfold Ingress, Egress; lia. Qed.

Lemma open_along : TrafficDirection k0 = d.
Proof. by destruct Hd as [-> | ->]. Qed.

Lemma allow_tentry : tentry allow.
Proof. constructor; [|constructor]. intros _. apply NewMapStateEntry_wf; unfold is_uint; lia. Qed.

Definition is_open k : Prop := Key_LPMKey k = Key_LPMKey k0 ∧ Identity k ∈ AllAggregates.

Lemma is_open_along k : is_open k → TrafficDirection k = d.
Proof. intros [-> _]. apply open_along. Qed.

(** A fresh direction with only the allow entries is open. *)
Lemma open_state s s' : fresh cinfo d s → st_inv cinfo wf_key wf_key s' →
  (∀ k, is_open k → ms_entries s'.1 !! k = Some allow) → (∀ k, ¬ is_open k → ms_entries s'.1 !! k = ms_entries s.1 !! k) →
  frames d s s' ∧ sinv cinfo s'.1 ∧ open_direction d s'.1.
Proof.
  intros [S HE HN] S' H1 H2.
  assert (F : frames d s s') by (intros k Dk; apply H2; intros Hk%is_open_along; by apply Dk).
  assert (HI : ∀ k v, TrafficDirection k = d → ms_entries s'.1 !! k = Some v → v = allow).
  { intros k v Dk E. destruct (decide (Key_LPMKey k = Key_LPMKey k0 ∧ Identity k ∈ AllAggregates)) as [Ho|Ho];
      [rewrite (H1 k Ho) in E; congruence|]. by rewrite (H2 k Ho), HN in E. }
  assert (HO : ordered d s'.1).
  { constructor; [apply S'| |].
    - intros k v Dk E _. rewrite (HI k v Dk E). by apply allow_tentry.
    - intros k v k' v' Dk E _ E' _ Hk%kcovers_along. rewrite (HI k v Dk E), (HI k' v'); [lia|congruence|done]. }
  split_and!; [done| |].
  - constructor; [apply S'|apply S'|]. intros k v E.
    destruct (decide (TrafficDirection k = d)) as [Dk|Dk]; [rewrite (HI k v Dk E); apply allow_tentry|].
    rewrite (F k Dk) in E. by apply (si_entry _ _ HE k).
  - constructor; [done|]. intros x Wx Dx. pose proof (lookup_entries s'.1 x ltac:(by rewrite Dx) Wx) as HL.
    rewrite (st_cinfo _ _ _ _ S') in HL. destruct (lookup s'.1 x) as [v []]; cbn [fst].
    + destruct HL as [(k & E & _ & Hk%kcovers_along) _]. by rewrite (HI k v); [|congruence|].
    + destruct HL as [_ HL]. destruct (HL (WithIdentity k0 (aggregateFor (Identity x) cinfo)) allow); [|done|].
      * apply H1. split; [done|]. apply aggregateFor_in.
      * split; [|by right]. split; [rewrite Dx; apply open_along|by left].
Qed.

Lemma opened_step s : fresh cinfo d s → let s' := (opened k0 allow s.1, s.2) in
  st_inv cinfo wf_key wf_key s' ∧ frames d s s' ∧ sinv cinfo s'.1 ∧ open_direction d s'.1.
Proof.
  intros FR. cbv zeta.
  assert (S' : st_inv cinfo wf_key wf_key (opened k0 allow s.1, s.2)).
  { apply foldl_st; [|destruct s; apply FR]. intros ms1 id Hid S1.
    apply (upsert_st _ _ _ ltac:(done) _ _ (ms1, s.2)); try done; [apply aggregate_key_wf; [apply open_wf|done]|apply S1]. }
  split; [done|]. apply open_state; [done|done| |]; intros k Hk; cbn [fst]; rewrite opened_entries.
  - by rewrite bool_decide_eq_true_2.
  - by rewrite bool_decide_eq_false_2.
Qed.
End open.

(** ** Both directions *)

Section distill.
Context {SK : SelectorKeys} (e : EndpointContext) (cinfo : ClusterInfo) (EO : endpoint_ok e cinfo).

(** The rules of a direction as the repository hands them over. *)
Record direction_rules (ingress : bool) (rules : list PolicyEntry) : Prop := {
  dr_sorted : sorted_rules rules;
  dr_levels : ∃ need, levels_needed rules = inr need ∧ need < 2 ^ 63;
  dr_rule r : r ∈ rules → pe_Ingress r = ingress ∧ rule_ok r;
}.

(** The resolution of a direction: its rules, or nothing when it is not enforced. *)
Definition direction_resolved (ingress enabled : bool) (rules : list PolicyEntry) (d : L4DirectionPolicy) : Prop :=
  if enabled then
    (rules = [] ∧ d = newL4DirectionPolicy) ∨
    direction_rules ingress rules ∧ ∃ c bases pms, d = mkDirection pms bases 0 ∧
      resolveL4Policy (resolve_into_maps c) [makeL4PolicyMap] rules = inr (bases, pms)
  else d = newL4DirectionPolicy.

Definition direction_enforced (ingress enabled : bool) (rules : list PolicyEntry) ms : Prop :=
  if enabled then enforces e ingress rules ms else open_direction (traffic ingress) ms.

Lemma enforced_frame ingress enabled rules d s s' : traffic ingress ≠ d → frames d s s' → ms_inv s'.1 →
  clusterInfo s'.1 = clusterInfo s.1 → direction_enforced ingress enabled rules s.1 → direction_enforced ingress enabled rules s'.1.
Proof.
  intros Hd F I C. unfold direction_enforced. destruct enabled; [|by apply (open_frame _ d)].
  intros [HO HV]. constructor; [by apply (ordered_frame _ d s)|]. intros x m Fx Dx HD Hm.
  rewrite (lookup_frame d s s' x); [by apply HV|congruence|done|done|done|by rewrite Dx|apply Fx].
Qed.

Lemma convert_direction ingress rules d s : fresh cinfo (traffic ingress) s → direction_resolved ingress true rules d →
  ∃ s', direction_toMapState e (direction_attach d).1 s = inr s' ∧ converted e cinfo ingress rules s s'.
Proof.
  intros FR [[-> ->]|[[Hs (need & Hn & Hle) HR] (c & bases & pms & -> & Hr)]].
  - by apply convert_none.
  - by apply (convert_rules e cinfo EO ingress rules need Hs Hn Hle HR c).
Qed.

Lemma convert_nothing s : direction_toMapState e (direction_attach newL4DirectionPolicy).1 s = inr s.
Proof.
  unfold direction_toMapState, direction_attach. cbn. by rewrite (empty_filters makeL4PolicyMap eq_refl).
Qed.

(** A state that the invariants hold of, reached by steps along one direction. *)
Record stepped (d : Z) s s' : Prop := {
  sp_state : st_inv cinfo wf_key wf_key s';
  sp_entries : sinv cinfo s'.1;
  sp_frame : frames d s s';
}.

(** A direction that awaits its conversion. *)
Definition prepared (ingress enabled : bool) s : Prop :=
  if enabled then fresh cinfo (traffic ingress) s else open_direction (traffic ingress) s.1.

Lemma fresh_frame dir d s s' : dir ≠ d → stepped d s s' → fresh cinfo dir s → fresh cinfo dir s'.
Proof.
  intros Hd [S I F] [_ _ HN]. constructor; [done|done|]. intros k Dk. rewrite (F k) by congruence. by apply HN.
Qed.

Lemma prepared_frame ingress enabled d s s' : traffic ingress ≠ d → st_inv cinfo wf_key wf_key s → stepped d s s' →
  prepared ingress enabled s → prepared ingress enabled s'.
Proof.
  intros Hd S SP. unfold prepared. destruct enabled; [by apply (fresh_frame _ d)|].
  apply (open_frame _ d); [done|apply SP|apply SP|]. by rewrite (st_cinfo _ _ _ _ (sp_state _ _ _ SP)), (st_cinfo _ _ _ _ S).
Qed.

Lemma prepare ingress (enabled : bool) lbls s : fresh cinfo (traffic ingress) s →
  let s' := (if enabled then s.1 else opened (KeyForDirection (traffic ingress)) (newAllowEntryWithLabels lbls) s.1, s.2) in
  stepped (traffic ingress) s s' ∧ prepared ingress enabled s'.
Proof.
  intros FR. cbv zeta. destruct enabled; cbn [prepared].
  - destruct s. split; [|done]. constructor; [apply FR|apply FR|done].
  - destruct (opened_step cinfo (traffic ingress) ltac:(destruct ingress; [by left|by right]) lbls s FR) as (S & F & I & O).
    by split.
Qed.

Lemma convert_prepared ingress enabled rules d s : st_inv cinfo wf_key wf_key s → sinv cinfo s.1 →
  prepared ingress enabled s → direction_resolved ingress enabled rules d →
  ∃ s', direction_toMapState e (direction_attach d).1 s = inr s' ∧ stepped (traffic ingress) s s' ∧
    direction_enforced ingress enabled rules s'.1.
Proof.
  intros S I. unfold prepared, direction_enforced. destruct enabled.
  - intros FR HR. destruct (convert_direction ingress rules d s FR HR) as (s' & E & [S' I' F V]). by exists s'.
  - intros HO ->. exists s. split; [apply convert_nothing|]. done.
Qed.

Lemma allowAll_opened ms (i eg : bool) :
  allowAllIdentities ms i eg =
  let ms := if i then opened (KeyForDirection (traffic true)) (newAllowEntryWithLabels LabelsAllowAnyIngress) ms else ms in
  if eg then opened (KeyForDirection (traffic false)) (newAllowEntryWithLabels LabelsAllowAnyEgress) ms else ms.
Proof.
  unfold allowAllIdentities, opened. change (KeyForDirection (traffic true)) with IngressKey.
  change (KeyForDirection (traffic false)) with EgressKey. reflexivity.
Qed.

(** The map state of an endpoint enforces the rules of both directions. *)
Lemma distill_enforced ids (ingressEnabled egressEnabled : bool) rulesI rulesE dI dE :
  direction_resolved true ingressEnabled rulesI dI → direction_resolved false egressEnabled rulesE dE →
  ∃ ms, DistillPolicy e ids cinfo ingressEnabled egressEnabled (direction_attach dI).1 (direction_attach dE).1 = inr ms ∧
    direction_enforced true ingressEnabled rulesI ms ∧ direction_enforced false egressEnabled rulesE ms.
Proof.
  intros HI HE. unfold DistillPolicy. set (features := Z.lor _ _). set (ms0 := newMapState ids features cinfo).
  set (ch := mkChangeState None None None).
  assert (HD : Ingress ≠ Egress) by done.
  destruct (prepare true ingressEnabled LabelsAllowAnyIngress (ms0, ch) (fresh_new cinfo Ingress ids features)) as [P1 Q1].
  set (s1 := (if ingressEnabled then _ else _, _)) in *.
  destruct (prepare false egressEnabled LabelsAllowAnyEgress s1) as [P2 Q2];
    [by apply (fresh_frame _ Ingress (ms0, ch)); [|apply P1|apply fresh_new]|].
  set (s2 := (if egressEnabled then _ else _, _)) in *.
  assert (Q1' : prepared true ingressEnabled s2) by (apply (prepared_frame _ _ Egress s1); [done|apply P1|done|done]).
  destruct (convert_prepared true ingressEnabled rulesI dI s2) as (s3 & E3 & P3 & V3); [apply P2|apply P2|done|done|].
  assert (Q2' : prepared false egressEnabled s3) by (apply (prepared_frame _ _ Ingress s2); [done|apply P2|done|done]).
  destruct (convert_prepared false egressEnabled rulesE dE s3) as (s4 & E4 & P4 & V4); [apply P3|apply P3|done|done|].
  exists s4.1. split_and!; [|apply (enforced_frame true _ _ Egress s3); [done|apply P4|apply P4| |done]|done].
  - assert (Es : (if negb ingressEnabled || negb egressEnabled then allowAllIdentities ms0 (negb ingressEnabled) (negb egressEnabled)
      else ms0, ch) = s2).
    { rewrite allowAll_opened. unfold s2, s1. generalize opened. intros o. destruct ingressEnabled, egressEnabled; reflexivity. }
    rewrite Es, E3. cbn [sbind]. by rewrite E4.
  - by rewrite (st_cinfo _ _ _ _ (sp_state _ _ _ P4)), (st_cinfo _ _ _ _ (sp_state _ _ _ P3)).
Qed.
End distill.
End endpoint.
