(* ===== verification/L4Typing.v ===== *)
(** * The types of resolved policies

    What the fields of the filters in the policy maps of a direction are: the widths of their
    integers, the tier and the key they are stored under, and the range of the priorities of
    their selectors, for every direction that [resolveL4Policy] resolves. *)

From Stdlib Require Import QArith.
From S2P Require Import Prelude Precedence PolicyKey RuleOrigin PassMeta MapState PolicyRule TierPriorities.
From S2P Require Import L4Types L4Merge L4Filter L4MapState L4Resolve L4Contributions L4Evaluation EndpointPolicy.

Local Open Scope Z_scope.

Section typing.
Context {SK : SelectorKeys} {GR : GoRange}.
Implicit Types (f : L4Filter) (m : L4PolicyMap) (pol : option PerSelectorPolicy).

(** A filter of the map of a tier. *)
Record typed_filter (ingress : bool) (tier : Z) m f : Prop := {
  tf_tier : f_Tier f = tier;
  tf_ingress : f_Ingress f = ingress;
  tf_stored : exactLookupFilter m f = Some f;
  tf_proto : is_uint 8 (U8Proto f);
  tf_port : is_uint 16 (Port f);
  tf_end : is_uint 16 (L4Filter.EndPort f);
  tf_any : U8Proto f = 0 → Port f = 0 ∧ PortName f = "";
  tf_wildcard w : wildcard f = Some w ↔ w = wildcardSelectorKey ∧ is_Some (PerSelectorPolicies f !! w);
}.

(** The policy of one of its selectors. *)
Record typed_policy (bases : list Z) (tier : Z) pol : Prop := {
  tp_priority : at_ bases tier ≤ GetPriority pol < nextTierPriority bases tier;
  tp_listener : is_uint 8 (GetListenerPriority pol);
}.

Lemma wild_ok_iff f w : wild_ok f → wildcard f = Some w ↔ w = wildcardSelectorKey ∧ is_Some (PerSelectorPolicies f !! w).
Proof.
  unfold wild_ok. intros ->. case_decide as Hw; split.
  - by intros [= <-].
  - by intros [-> _].
  - done.
  - by intros [-> ?].
Qed.

End typing.

(** ** Example *)

Definition http_rule : PolicyEntry :=
  mkPolicyEntry 1 0 EmptyString (Some ["client"]) [mkPortRule [mkPortProtocol "80" 90 "TCP"] None None [] None None] "[http]" true Allow true.

#[local] Instance http_keys : SelectorKeys := {|
  wildcardSelectorKey := EmptyString;
  noneSelectorKey := "none";
  selector_IsWildcard := λ s, bool_decide (s = EmptyString);
|}.

Definition http_context : PolicyContext :=
  mkPolicyContext EmptyString 0 0 true true None (λ _, inl ErrTLSContext).

Definition http_resolved : error + (list Z * list L4PolicyMap) :=
  resolveL4Policy (resolve_into_maps (GR := range_elements) http_context) [makeL4PolicyMap] [http_rule].

Lemma http_direction : direction_rules true [http_rule].
Proof.
  constructor.
  - constructor; [repeat constructor| |done]. intros r ->%list_elem_of_singleton. split; vm_compute; congruence.
  - eexists. split; [vm_compute; reflexivity|vm_compute; reflexivity].
  - intros r ->%list_elem_of_singleton. split; [done|]. unfold rule_ok.
    assert (EP : rule_ports http_rule = [(mkPortRule [mkPortProtocol "80" 90 "TCP"] None None [] None None, mkPortProtocol "80" 90 "TCP")]) by (vm_compute; reflexivity).
    rewrite EP. constructor; [|constructor]. split; [by intros l Hl|].
    constructor; cbn [snd pp_Protocol pp_Port]; [intros [HP|HP]|intros HP]; vm_compute in HP; discriminate.
Qed.

