(* ===== verification/L4Incremental.v ===== *)
(** * Incremental updates of endpoint policies

    Model of how changes of a selector's identities reach the endpoints: the notifications
    [L4Filter.IdentitySelectionUpdated] and [IdentitySelectionCommit] of [src/pkg/policy/l4.go], the
    distribution to the users by [L4Policy.AccumulateMapChanges] and [SyncMapChanges], and
    [EndpointPolicy.ConsumeMapChanges], [Ready] and [Detach] of [src/pkg/policy/resolve.go]. *)

From Stdlib Require Import QArith Ascii.
From S2P Require Import Prelude Precedence BitLPM PolicyKey PortRange Identity RuleOrigin PassMeta MapState.
From S2P Require Import MapChanges PolicyRule TierPriorities L4Types L4Filter L4MapState L4Contributions.

Local Open Scope Z_scope.

(** ** Accumulation *)

Section accumulate.
Context {SM : SelectionsMap} {SK : SelectorKeys}.
Implicit Types (e : EndpointContext) (cs : string) (adds deletes : list Z) (mc : MapChanges SM).

(** The port of a redirect, 0 when there is none. *)
Definition lookupProxyPort e (l4 : L4Filter) (pol : option PerSelectorPolicy) (port : Z) : Z :=
  default 0 (LookupRedirectPort e (f_Ingress l4) (Protocol l4) port (GetListener pol)).

(** The proxy port of an entry: [None] leaves the entry out. *)
Definition entry_port e (l4 : L4Filter) (pol : option PerSelectorPolicy) (port : Z) : option Z :=
  if IsRedirect pol then
    let proxyPort := lookupProxyPort e l4 pol port in
    if proxyPort =? 0 then None else Some proxyPort
  else Some 0.

Definition keysToAdd (l4 : L4Filter) : list Key :=
  let port := Port l4 in
  if negb (port =? 0) && (port <? L4Filter.EndPort l4) then
    (λ mp, WithPortProtoPrefix (KeyForDirection (direction_of l4)) (U8Proto l4) (mp_port mp)
             (uwrap 8 (LeadingZeros 16 (unot 16 (mp_mask mp)))))
      <$> PortRangeToMaskedPorts port (L4Filter.EndPort l4)
  else [WithPortProto (KeyForDirection (direction_of l4)) (U8Proto l4) port].

(** The changes for one user. *)
Definition accumulate_user (l4 : L4Filter) cs (pol : option PerSelectorPolicy) (tierPriority nextTierPriority : Z)
    adds deletes e mc : MapChanges SM :=
  let tier := f_Tier l4 in
  let value proxyPort := newMapStateEntry (GetPriority pol) tierPriority nextTierPriority
    (default None (RuleOrigin l4 !! cs)) proxyPort (GetListenerPriority pol) (GetVerdict pol) in
  let key port := WithPortProto (KeyForDirection (direction_of l4)) (U8Proto l4) port in
  if (Port l4 =? 0) && negb (bool_decide (PortName l4 = "")) then
    let mc := if bool_decide (deletes = []) then mc else AccumulateMapDeletesByID mc tier tierPriority deletes in
    if bool_decide (adds = []) then mc
    else if f_Ingress l4 then
      let resolvedPort := GetIngressNamedPort e (PortName l4) (U8Proto l4) in
      if resolvedPort =? 0 then mc
      else match entry_port e l4 pol resolvedPort with
           | None => mc
           | Some proxyPort => AccumulateMapChanges mc tier tierPriority adds [] (key resolvedPort) (value proxyPort)
           end
    else
      foldl (λ mc '(nid, port),
        match entry_port e l4 pol port with
        | None => mc
        | Some proxyPort => AccumulateMapChanges mc tier tierPriority [nid] [] (key port) (value proxyPort)
        end) mc (GetEgressNamedPorts e (PortName l4) (U8Proto l4) adds)
  else
    match entry_port e l4 pol (Port l4) with
    | None => mc
    | Some proxyPort =>
        foldl (λ mc key, AccumulateMapChanges mc tier tierPriority adds deletes key (value proxyPort)) mc (keysToAdd l4)
    end.

(** The users of a policy and their queues; the directions of the policy. *)
Notation users := (list (EndpointContext * MapChanges SM)).
Context (ingress egress : L4DirectionPolicy).

(** [tierBasePriority[tier+1]], the sum at 8 bits. *)
Definition next_base (bases : list Z) (tier : Z) : error + Z :=
  if tier + 1 <? Z.of_nat (length bases) then index bases (uwrap 8 (tier + 1)) else inr LowestPriority.

Definition L4Policy_AccumulateMapChanges (l4 : L4Filter) cs adds deletes (us : users) : error + users :=
  let pol := default None (PerSelectorPolicies l4 !! cs) in
  let wildcardPort := (Port l4 =? 0) && bool_decide (PortName l4 = "") in
  if selectorCoveredByWildcard l4 cs pol wildcardPort then inr us
  else
    let bases := tierBasePriority (if f_Ingress l4 then ingress else egress) in
    tierPriority <~ index bases (f_Tier l4);;
    nextTierPriority <~ next_base bases (f_Tier l4);;
    inr ((λ u, (u.1, accumulate_user l4 cs pol tierPriority nextTierPriority adds deletes u.1 u.2)) <$> us).

Definition L4Policy_SyncMapChanges (txn : SelectorSnapshot SM) (us : users) : users :=
  (λ u, (u.1, SyncMapChanges u.2 txn)) <$> us.

(** The notifications: the filter's policy is gone when it is detached. *)
Definition IdentitySelectionUpdated (attached : bool) (l4 : L4Filter) cs added deleted (us : users) : error + users :=
  if IsWildcard cs && bool_decide (PortName l4 = "") then inr us
  else if attached then L4Policy_AccumulateMapChanges l4 cs added deleted us else inr us.

Definition IdentitySelectionCommit (attached : bool) (txn : SelectorSnapshot SM) (us : users) : users :=
  if attached then L4Policy_SyncMapChanges txn us else us.
End accumulate.

(** ** Consumption *)

Section consume.
Context {SM : SelectionsMap} {TR : Trie LPMKey IDSet} {GR : GoRange} {GS : GoSort}.

Record EndpointPolicy := mkEndpointPolicy {
  ep_selectors : SelectorSnapshot SM;
  policyMapState : mapState TR;
  policyMapChanges : MapChanges SM;
}.

Implicit Types (p : EndpointPolicy).

(** The policy [DistillPolicy] starts from, with its first snapshot. *)
Definition new_EndpointPolicy (sel : SelectorSnapshot SM) (ms : mapState TR) : EndpointPolicy :=
  mkEndpointPolicy sel ms (mkMapChanges (Revision sel) [] [] (mkSnapshot 0 no_selections false)).

(** Fails with [ErrStaleSelectors], [false], when the snapshot was already released. *)
Definition EndpointPolicy_Ready p : EndpointPolicy * bool :=
  if SelectorSnapshot_IsValid (ep_selectors p)
  then (mkEndpointPolicy (SelectorSnapshot_Invalidate (ep_selectors p)) (policyMapState p) (policyMapChanges p), true)
  else (p, false).

(** After [removeUser]. *)
Definition EndpointPolicy_Detach p : EndpointPolicy :=
  let p := (EndpointPolicy_Ready p).1 in
  mkEndpointPolicy (ep_selectors p) (policyMapState p) (detach (policyMapChanges p)).

(** [current] is what [GetSelectorSnapshot] returns; the closer is [Ready] or nothing. *)
Definition EndpointPolicy_ConsumeMapChanges (ingress egress : L4DirectionPolicy) (current : SelectorSnapshot SM) p
  : EndpointPolicy * (EndpointPolicy → EndpointPolicy) * ChangeState :=
  let features := Z.lor (dir_features ingress) (dir_features egress) in
  let '(mc, (ms, changes), selectors) := consumeMapChanges (policyMapChanges p) (policyMapState p) features in
  let selectors :=
    if negb (SelectorSnapshot_IsValid selectors) && negb (SelectorSnapshot_IsValid (ep_selectors p))
    then current else selectors in
  if SelectorSnapshot_IsValid selectors then
    (mkEndpointPolicy selectors ms mc,
     if SelectorSnapshot_IsValid (ep_selectors p) then id else λ p, (EndpointPolicy_Ready p).1,
     changes)
  else (mkEndpointPolicy (ep_selectors p) ms mc, id, changes).

(** The closer releases the snapshot that the consumption opened and no other: after it, the
    policy holds a snapshot exactly when it held one before. *)
Lemma consume_closes ingress egress current p : SelectorSnapshot_IsValid current = true →
  let '(p', closer, _) := EndpointPolicy_ConsumeMapChanges ingress egress current p in
  SelectorSnapshot_IsValid (ep_selectors p') = true ∧
  SelectorSnapshot_IsValid (ep_selectors (closer p')) = SelectorSnapshot_IsValid (ep_selectors p).
Proof.
  intros Hc. unfold EndpointPolicy_ConsumeMapChanges, EndpointPolicy_Ready.
  destruct (consumeMapChanges _ _ _) as [[mc [ms ch]] sel].
  destruct (SelectorSnapshot_IsValid sel) eqn:Es, (SelectorSnapshot_IsValid (ep_selectors p)) eqn:Ep; cbn;
    rewrite ?Hc, ?Es; cbn; rewrite ?Hc, ?Es; done.
Qed.
End consume.

Arguments EndpointPolicy SM TR : clear implicits.
