(* ===== verification/IncrementalRules.v ===== *)
(** * Rules of incremental updates

    The rules an endpoint's map state holds for the filters of a direction, one identity at a time,
    and the changes that a notification of a selector queues: it adds the rules of the added
    identities and removes the keys of the deleted ones. *)

From Stdlib Require Import QArith Ascii.
From S2P Require Import Prelude Precedence BitLPM PolicyKey PortRange Identity RuleOrigin PassMeta.
From S2P Require Import MapState MapStateIndex MapStateOps MapStatePolicy MapChanges MapChangesPolicy.
From S2P Require Import PolicyRule TierPriorities L4Types L4Filter L4MapState L4Resolve L4Contributions L4Evaluation L4Incremental.

Local Open Scope Z_scope.

Local Notation rule := (Key * mapStateEntry)%type.

Lemma range_keys (l4 : L4Filter) :
  keysToAdd l4 = keysForRange (WithPortProto (KeyForDirection (direction_of l4)) (U8Proto l4) (Port l4)) (Port l4) (L4Filter.EndPort l4).
Proof.
  unfold keysToAdd, keysForRange. cbv zeta. rewrite Z.leb_antisym. destruct (Port l4 =? 0) eqn:E0; cbn [negb andb orb]; [done|].
  destruct (Port l4 <? L4Filter.EndPort l4); cbn [negb]; [|done]. apply list_fmap_ext. intros i mp _.
  unfold WithPortProtoPrefix, WithPortProto, WithPort, WithPortPrefix. rewrite E0. cbn -[Z.land Z.lor].
  rewrite Z.land_lor_distr_l, <- Z.land_assoc, Z.land_diag. by rewrite (Z.lor_comm _ (Z.land 16 _)).
Qed.

Section rules.
Context {SM : SelectionsMap} {SK : SelectorKeys} {GR : GoRange} (e : EndpointContext) (cinfo : ClusterInfo).
Implicit Types (f : L4Filter) (cs : string) (pol : option PerSelectorPolicy) (id : Z) (adds dels : list Z).

(** The endpoint with other selections. *)
Definition at_selections (S : string → list Z) : EndpointContext :=
  mkEndpoint S (LookupRedirectPort e) (GetIngressNamedPort e) (GetEgressNamedPorts e).

(** ** One identity *)

Definition identity_keys f id : list (Z * Key) :=
  if egress_named f then
    (λ y : Z * Z, (y.2, WithPort (WithIdentity (filter_key e f) y.1) y.2)) <$> GetEgressNamedPorts e (PortName f) (U8Proto f) [id]
  else (λ k, (filter_port e f, WithIdentity k id)) <$> keysForRange (filter_key e f) (filter_port e f) (L4Filter.EndPort f).

Context (bases : list Z).

Definition filter_entry f cs pol (port : Z) : mapStateEntry :=
  makeMapStateEntry e f port cs pol (at_ bases (f_Tier f)) (nextTierPriority bases (f_Tier f)).

Definition identity_rules f cs pol id : list rule := (λ y, (y.2, filter_entry f cs pol y.1)) <$> identity_keys f id.

(** What holds of the endpoint whatever is selected. *)
Context (S : string → list Z) (EO : endpoint_ok (at_selections S) cinfo).
Context (Hports : ∀ ingress proto port l, LookupRedirectPort e ingress proto port l ≠ Some 0).

Lemma identity_key f id port (key : Key) : filter_wf f → is_uint 32 id → (port, key) ∈ identity_keys f id →
  wf_key key ∧ TrafficDirection key = direction_of f ∧ Identity key = id.
Proof.
  intros W Hid. unfold identity_keys. destruct (egress_named f) eqn:En.
  - intros ([id' port'] & [= -> ->] & Hy)%list_elem_of_fmap. cbn [fst snd].
    destruct (eo_port _ _ EO _ _ _ _ _ Hy) as (->%list_elem_of_singleton & HP & Hn0).
    destruct (egress_named_port e f W En) as [EP H0]. unfold filter_key. rewrite EP. unfold WithPortProto. rewrite WithPort_Identity.
    destruct (filter_key_spec (direction_of f) (U8Proto f) port') as (Wk & Dk & _); try done;
      [apply direction_bounds|apply W|]. split; [by apply WithIdentity_wf|done].
  - intros (k & [= -> ->] & Hk)%list_elem_of_fmap.
    destruct (filter_port_wf (at_selections S) cinfo EO f W) as [HP Hany].
    destruct (keysForRange_spec (direction_of f) (U8Proto f) (filter_port e f) (L4Filter.EndPort f)
      (direction_bounds f) (fw_proto f W) HP (fw_end f W) Hany) as [HF _].
    destruct (proj1 (Forall_forall _ _) HF k Hk) as (Wk & Dk & _). split; [by apply WithIdentity_wf|done].
Qed.

(** The contributions of a selector, identity by identity. *)
Definition whole f cs : bool := negb (egress_named f) && bool_decide (wildcard f = Some cs).

Lemma policy_identities out f cs pol c : c ∈ policy_contributions (at_selections S) out f cs pol ↔
  ∃ id port key, id ∈ (if whole f cs then AllAggregates else S cs) ∧ (port, key) ∈ identity_keys f id ∧
    c = contribution_of (at_selections S) out f cs pol port key.
Proof.
  unfold policy_contributions, identity_keys, whole. destruct (egress_named f); cbn [negb andb].
  - split.
    + intros ([id port] & <- & Hy%list_elem_of_In)%list_elem_of_In%in_map_iff. cbn in Hy.
      destruct (eo_port _ _ EO _ _ _ _ _ Hy) as (Hid & _). exists id, port. eexists. split; [exact Hid|]. split; [|done].
      apply list_elem_of_fmap. exists (id, port). split; [done|]. apply (eo_each _ _ EO _ _ _ _ _ _ Hy). by left.
    + intros (id & port & key & Hid & ([id' port'] & [= -> ->] & Hy)%list_elem_of_fmap & ->). cbn [fst snd].
      destruct (eo_port _ _ EO _ _ _ _ _ Hy) as (->%list_elem_of_singleton & _).
      apply list_elem_of_In, in_map_iff. exists (id, port'). split; [done|]. apply list_elem_of_In.
      apply (eo_each _ _ EO _ _ _ _ _ _ Hy). exact Hid.
  - rewrite list_elem_of_bind. split.
    + intros (id & (k & <- & Hk%list_elem_of_In)%list_elem_of_In%in_map_iff & Hid).
      exists id, (filter_port e f). eexists. split; [exact Hid|]. split; [|done]. apply list_elem_of_fmap. by exists k.
    + intros (id & port & key & Hid & (k & [= -> ->] & Hk)%list_elem_of_fmap & ->). exists id. split; [|exact Hid].
      apply list_elem_of_In, in_map_iff. exists k. split; [done|]. by apply list_elem_of_In.
Qed.

(** ** The changes of a notification *)

Definition deny_base f : Z := ToDenyPrecedence (at_ bases (f_Tier f)).

Definition named_deletes f dels : list mapChange :=
  (λ id, mkChange false (f_Tier f) (deny_base f) (mkKey (mkLPMKey 0 0 0) id) zero_entry) <$> dels.

Definition user_changes f cs pol adds dels : list mapChange :=
  let add key port id := mkChange true (f_Tier f) (deny_base f) (WithIdentity key id) (filter_entry f cs pol port) in
  if named_filter f then
    named_deletes f dels ++
    if f_Ingress f then
      if undefined_port e f then [] else add (filter_key e f) (filter_port e f) <$> adds
    else (λ y : Z * Z, add (WithPortProto (KeyForDirection (direction_of f)) (U8Proto f) y.2) y.2 y.1)
           <$> GetEgressNamedPorts e (PortName f) (U8Proto f) adds
  else
    keysForRange (filter_key e f) (filter_port e f) (L4Filter.EndPort f) ≫= λ key,
      (add key (filter_port e f) <$> adds) ++
      ((λ id, mkChange false (f_Tier f) (deny_base f) (WithIdentity key id) (filter_entry f cs pol (filter_port e f))) <$> dels).

Lemma entry_port_spec f pol port : entry_port e f pol port = Some (proxy_port e f port pol) ∧
  (if IsRedirect pol then LookupRedirectPort e (f_Ingress f) (Protocol f) port (GetListener pol) else Some 0) =
  Some (proxy_port e f port pol).
Proof.
  unfold entry_port, lookupProxyPort, proxy_port. destruct (IsRedirect pol); [|done].
  destruct (eo_redirect _ _ EO (f_Ingress f) (Protocol f) port (GetListener pol)) as (p & Ep & _). cbn in Ep.
  specialize (Hports (f_Ingress f) (Protocol f) port (GetListener pol)). rewrite Ep in *. cbn.
  destruct (Z.eqb_spec p 0) as [-> |]; done.
Qed.

Lemma entry_value f cs pol port : filter_entry f cs pol port =
  newMapStateEntry (GetPriority pol) (at_ bases (f_Tier f)) (nextTierPriority bases (f_Tier f))
    (default None (RuleOrigin f !! cs)) (proxy_port e f port pol) (GetListenerPriority pol) (GetVerdict pol).
Proof. unfold filter_entry, makeMapStateEntry. by rewrite (proj2 (entry_port_spec f pol port)). Qed.

Lemma append_nil (mc : MapChanges SM) : append_changes mc [] = mc.
Proof. destruct mc. unfold append_changes. cbn. by rewrite app_nil_r. Qed.

Lemma append_app (mc : MapChanges SM) l l' : append_changes (append_changes mc l) l' = append_changes mc (l ++ l').
Proof. unfold append_changes. cbn. by rewrite app_assoc. Qed.

Lemma foldl_append {A} (h : A → list mapChange) (l : list A) : ∀ mc : MapChanges SM,
  foldl (λ mc x, append_changes mc (h x)) mc l = append_changes mc (l ≫= h).
Proof.
  induction l as [|x l IH]; intros mc; [by rewrite append_nil|]. cbn [foldl mbind list_bind]. by rewrite IH, append_app.
Qed.

Lemma named_port f : named_filter f = false → filter_port e f = Port f.
Proof. unfold filter_port. by intros ->. Qed.

Lemma bind_singleton {A B} (h : A → B) (l : list A) : l ≫= (λ x, [h x]) = h <$> l.
Proof. induction l as [|x l IH]; [done|]. cbn. by f_equal. Qed.

Lemma accumulate_changes f cs pol adds dels (mc : MapChanges SM) :
  accumulate_user f cs pol (at_ bases (f_Tier f)) (nextTierPriority bases (f_Tier f)) adds dels e mc =
  append_changes mc (user_changes f cs pol adds dels).
Proof.
  unfold accumulate_user, user_changes. cbv zeta. fold (named_filter f). destruct (named_filter f) eqn:En.
  - assert (HD : (if bool_decide (dels = []) then mc else AccumulateMapDeletesByID mc (f_Tier f) (at_ bases (f_Tier f)) dels) =
      append_changes mc (named_deletes f dels)).
    { case_bool_decide as Hd; [|done]. subst dels. by rewrite append_nil. }
    rewrite HD. rewrite <- append_app. set (mc1 := append_changes mc _). clearbody mc1. clear HD.
    assert (EP : f_Ingress f = true → filter_port e f = GetIngressNamedPort e (PortName f) (U8Proto f))
      by (intros Ei; unfold filter_port; by rewrite En, Ei).
    assert (EU : f_Ingress f = true → undefined_port e f = (filter_port e f =? 0))
      by (intros Ei; unfold undefined_port; by rewrite En, Ei).
    case_bool_decide as Ha.
    { subst adds. destruct (f_Ingress f); [by destruct (undefined_port e f); rewrite append_nil|].
      destruct (GetEgressNamedPorts e (PortName f) (U8Proto f) []) as [|[id port] l] eqn:EG; [by rewrite append_nil|].
      destruct (eo_port _ _ EO (PortName f) (U8Proto f) [] id port) as [?%elem_of_nil _]; [|done].
      cbn. rewrite EG. by left. }
    destruct (f_Ingress f) eqn:Ei.
    + rewrite <- EP, <- EU by done. destruct (undefined_port e f); [by rewrite append_nil|].
      rewrite (proj1 (entry_port_spec f pol _)). fold (filter_key e f).
      unfold AccumulateMapChanges. cbn [fmap list_fmap]. rewrite app_nil_r. f_equal. apply list_fmap_ext. intros i id _.
      by rewrite entry_value.
    + rewrite <- bind_singleton, <- foldl_append. apply foldl_ext_in. intros mc' [id port] _.
      rewrite (proj1 (entry_port_spec f pol _)). unfold AccumulateMapChanges. cbn [fst snd fmap list_fmap app].
      by rewrite entry_value.
  - rewrite <- (named_port f En), (proj1 (entry_port_spec f pol _)), range_keys, <- (named_port f En).
    fold (filter_key e f). rewrite <- foldl_append. apply foldl_ext_in. intros mc' k _.
    unfold AccumulateMapChanges. by rewrite <- (entry_value f cs pol (filter_port e f)).
Qed.

Lemma named_keys f : filter_wf f → named_filter f = true → egress_named f = false →
  keysForRange (filter_key e f) (filter_port e f) (L4Filter.EndPort f) = [filter_key e f].
Proof.
  intros W En Ee. pose proof (proj1 (filter_port_wf (at_selections S) cinfo EO f W)) as [H0 _].
  rewrite named_filter_eq in En by done. apply negb_true_iff, bool_decide_eq_false in En.
  destruct (fw_named f W En) as (_ & _ & _ & ->). unfold keysForRange. rewrite (proj2 (Z.leb_le _ _)) by exact H0.
  by rewrite orb_true_r.
Qed.

Lemma egress_key f (y : Z * Z) : filter_wf f → egress_named f = true →
  WithPort (WithIdentity (filter_key e f) y.1) y.2 =
  WithIdentity (WithPortProto (KeyForDirection (direction_of f)) (U8Proto f) y.2) y.1.
Proof.
  intros W En. destruct (egress_named_port e f W En) as [EP _]. unfold filter_key. rewrite EP. unfold WithPortProto.
  apply WithPort_Identity.
Qed.

(** What the changes do. *)
Lemma change_facts f cs pol adds dels c : filter_wf f → c ∈ user_changes f cs pol adds dels →
  (Add c = true ∧ undefined_port e f = false ∧
    ∃ id, id ∈ adds ∧ (mc_Key c, mc_Value c) ∈ identity_rules f cs pol id) ∨
  (Add c = false ∧ Identity (mc_Key c) ∈ dels).
Proof.
  intros W. unfold user_changes, identity_rules, identity_keys. cbv zeta. destruct (named_filter f) eqn:En.
  - rewrite elem_of_app. intros [(id & -> & Hid)%list_elem_of_fmap|Hc]; [by right|left].
    assert (EE : egress_named f = negb (f_Ingress f)) by (unfold egress_named; by rewrite En).
    destruct (f_Ingress f) eqn:Ei; cbn [negb] in EE; rewrite EE.
    + destruct (undefined_port e f); [by apply elem_of_nil in Hc|]. apply list_elem_of_fmap in Hc as (id & -> & Hid).
      split; [done|]. split; [done|]. exists id. split; [done|]. rewrite named_keys by done. by left.
    + apply list_elem_of_fmap in Hc as ([id port] & -> & Hy). split; [done|].
      split; [unfold undefined_port; by rewrite Ei, andb_false_r|].
      destruct (eo_port _ _ EO _ _ _ _ _ Hy) as (Hid & _). exists id. split; [done|]. cbn [mc_Key mc_Value].
      apply list_elem_of_fmap. exists (port, WithPort (WithIdentity (filter_key e f) id) port). cbn [fst snd].
      split; [f_equal; symmetry; by apply (egress_key f (id, port))|].
      apply list_elem_of_fmap. exists (id, port). split; [done|]. apply (eo_each _ _ EO _ _ _ _ _ _ Hy). by left.
  - intros (k & [(id & -> & Hid)%list_elem_of_fmap|(id & -> & Hid)%list_elem_of_fmap]%elem_of_app & Hk)%list_elem_of_bind; [left|by right].
    split; [done|]. split; [unfold undefined_port; by rewrite En|]. exists id. split; [done|].
    unfold egress_named. rewrite En. cbn [andb]. apply list_elem_of_fmap. exists (filter_port e f, WithIdentity k id).
    split; [done|]. apply list_elem_of_fmap. by exists k.
Qed.

Lemma change_adds f cs pol adds dels id (r : rule) : filter_wf f → undefined_port e f = false → id ∈ adds →
  r ∈ identity_rules f cs pol id →
  ∃ c, c ∈ user_changes f cs pol adds dels ∧ Add c = true ∧ r = (mc_Key c, mc_Value c).
Proof.
  intros W HU Hid. unfold user_changes, identity_rules, identity_keys. cbv zeta.
  intros ([port key] & -> & Hy)%list_elem_of_fmap. cbn [fst snd].
  assert (EE : egress_named f = named_filter f && negb (f_Ingress f)) by done.
  destruct (named_filter f) eqn:En; cbn [andb] in EE.
  - setoid_rewrite elem_of_app. destruct (f_Ingress f) eqn:Ei; cbn [negb] in EE; rewrite EE in Hy.
    + rewrite named_keys in Hy by done. apply list_elem_of_singleton in Hy as [= -> ->]. rewrite HU.
      eexists. split; [right; apply list_elem_of_fmap; by exists id|done].
    + apply list_elem_of_fmap in Hy as ([id' port'] & [= -> ->] & Hy).
      destruct (eo_port _ _ EO _ _ _ _ _ Hy) as (->%list_elem_of_singleton & _).
      eexists. split; [right; apply list_elem_of_fmap; exists (id, port'); split; [done|];
        by apply (eo_each _ _ EO _ _ _ _ _ _ Hy)|]. cbn [mc_Key mc_Value Add]. split; [done|]. f_equal.
      by apply (egress_key f (id, port')).
  - rewrite EE in Hy. apply list_elem_of_fmap in Hy as (k & [= -> ->] & Hk).
    eexists. split; [apply list_elem_of_bind; exists k; split; [|done]; apply elem_of_app; left;
      apply list_elem_of_fmap; by exists id|done].
Qed.

Lemma change_dels f cs pol adds dels id (r : rule) : filter_wf f → id ∈ dels → r ∈ identity_rules f cs pol id →
  ∃ c, c ∈ user_changes f cs pol adds dels ∧ Add c = false ∧ Identity (mc_Key c) = id ∧
    (named_filter f = false → mc_Key c = r.1).
Proof.
  intros W Hid. unfold user_changes, identity_rules, identity_keys. cbv zeta.
  intros ([port key] & -> & Hy)%list_elem_of_fmap. cbn [fst snd].
  assert (EE : egress_named f = named_filter f && negb (f_Ingress f)) by done.
  destruct (named_filter f) eqn:En; cbn [andb] in EE.
  - setoid_rewrite elem_of_app. eexists. split; [left; apply list_elem_of_fmap; by exists id|done].
  - rewrite EE in Hy. apply list_elem_of_fmap in Hy as (k & [= -> ->] & Hk).
    eexists. split; [apply list_elem_of_bind; exists k; split; [|done]; apply elem_of_app; right;
      apply list_elem_of_fmap; by exists id|done].
Qed.
End rules.
