(* ===== verification/IncrementalEquivalence.v ===== *)
(** * Incremental updates and recomputation

    An endpoint that follows the notifications of the selector cache, transaction by transaction,
    and consumes the accumulated changes at any time, decides every lookup like an endpoint whose
    map state is computed from scratch for the current selections. *)

From Stdlib Require Import QArith Ascii.
From S2P Require Import Prelude Precedence BitLPM PolicyKey PortRange Identity RuleOrigin PassMeta.
From S2P Require Import MapState MapStateIndex MapStateLookup MapStateOps MapStateFrame MapStatePolicy MapChanges MapChangesPolicy.
From S2P Require Import PolicyRule TierState TierPriorities TierEvaluation PlainEvaluation.
From S2P Require Import L4Types L4Filter L4MapState L4Merge L4Resolve L4Contributions L4Evaluation L4Enforcement EndpointPolicy.
From S2P Require Import L4Incremental IncrementalRules.

Local Open Scope Z_scope.

Local Notation rule := (Key * mapStateEntry)%type.

(** ** Policies that agree *)

Lemma decides_agree cinfo (R R' : list rule) x res res' :
  (∀ r : rule, r ∈ R → kcovers cinfo r.1 x → ∃ r' : rule, r' ∈ R' ∧ kcovers cinfo r'.1 x ∧ Precedence r'.2 = Precedence r.2) →
  (∀ r' : rule, r' ∈ R' → kcovers cinfo r'.1 x → ∃ r : rule, r ∈ R ∧ kcovers cinfo r.1 x ∧ Precedence r.2 = Precedence r'.2) →
  decides cinfo R x res → decides cinfo R' x res' →
  res.2 = res'.2 ∧ (res.2 = true → Precedence res.1 = Precedence res'.1).
Proof.
  intros H1 H2. destruct res as [v []], res' as [v' []]; cbn [decides fst snd].
  - intros [(r & Hr & Hk & Ep) M] [(r' & Hr' & Hk' & Ep') M']. split; [done|]. intros _. apply Z.le_antisymm.
    + destruct (H1 r Hr Hk) as (q & Hq & Hqk & Eq). specialize (M' q Hq Hqk). lia.
    + destruct (H2 r' Hr' Hk') as (q & Hq & Hqk & Eq). specialize (M q Hq Hqk). lia.
  - intros [(r & Hr & Hk & _) _] [_ HN]. destruct (H1 r Hr Hk) as (q & Hq & Hqk & _). by destruct (HN q Hq).
  - intros [_ HN] [(r & Hr & Hk & _) _]. destruct (H2 r Hr Hk) as (q & Hq & Hqk & _). by destruct (HN q Hq).
  - done.
Qed.

(** ** The rules of a direction *)

Section rules.
Context {SK : SelectorKeys} {GR : GoRange} (e : EndpointContext) (cinfo : ClusterInfo).
Implicit Types (f : L4Filter) (cs : string) (pol : option PerSelectorPolicy) (id : Z) (d : L4DirectionPolicy) (S : string → list Z).

Definition policy_of d f cs pol : Prop := f ∈ L4PolicyMaps_Filters (PortRules d) ∧ PerSelectorPolicies f !! cs = Some pol.

(** What the incremental updates rely on in the filters of a direction; [O] are the rules of a
    direction that is not enforced. *)
Record filters_ok (features : Z) (ingress : bool) (O : list rule) d : Prop := {
  fo_wf f cs pol : policy_of d f cs pol → filter_wf f ∧ f_Ingress f = ingress;
  fo_tier f cs pol : policy_of d f cs pol → 0 ≤ f_Tier f < Z.of_nat (length (tierBasePriority d)) ∧
    Z.of_nat (length (tierBasePriority d)) ≤ 256;
  fo_entry f cs pol port : policy_of d f cs pol → plain_entry (filter_entry e (tierBasePriority d) f cs pol port);
  fo_named f cs pol : policy_of d f cs pol → PortName f ≠ "" →
    contains features (Z.lor passRules namedPortRules) = true;
  fo_same : contains features precedenceFeatures = true ∨ ∃ p, (∀ r : rule, r ∈ O → Precedence r.2 = p) ∧
    ∀ f cs pol port, policy_of d f cs pol → Precedence (filter_entry e (tierBasePriority d) f cs pol port) = p;
  fo_open (r : rule) : r ∈ O → Identity r.1 ∈ AllAggregates;
}.

(** The notifications that reach the endpoints. *)
Definition pushed f cs : bool := negb (IsWildcard cs && bool_decide (PortName f = "")).

(** The rules of the identities that [ids] gives for a selector. *)
Definition rules_for (ids : L4Filter → string → Z → Prop) d (r : rule) : Prop :=
  ∃ f cs pol id, policy_of d f cs pol ∧ undefined_port e f = false ∧ skipped e f cs pol = false ∧ ids f cs id ∧
    r ∈ identity_rules e (tierBasePriority d) f cs pol id.

(** What the conversion inserts, and what notifications add. *)
Definition exact S := rules_for (λ f cs id, id ∈ if whole f cs then AllAggregates else S cs).
Definition told S := rules_for (λ f cs id, pushed f cs = true ∧ id ∈ S cs).

Record follows S d (O R : list rule) : Prop := {
  fl_exact r : r ∈ O ∨ exact S d r → r ∈ R;
  fl_told r : r ∈ R → r ∈ O ∨ exact S d r ∨ told S d r;
}.

(** A selector whose updates are held back stands for all identities. *)
Lemma not_pushed f cs pol : filter_wf f → PerSelectorPolicies f !! cs = Some pol → pushed f cs = false → whole f cs = true.
Proof.
  intros W Hp HN. apply negb_false_iff, andb_true_iff in HN as [Hw Hn%bool_decide_eq_true].
  unfold IsWildcard in Hw. apply bool_decide_eq_true in Hw. subst cs. unfold whole, egress_named. rewrite named_filter_eq, Hn by done.
  cbn. rewrite (fw_wild f W), decide_True by (by eexists). by apply bool_decide_eq_true.
Qed.

(** A rule of an identity is covered by the one of its aggregate. *)
Lemma follows_cover S d (O R R' : list rule) x : follows S d O R → follows S d O R' →
  ∀ r : rule, r ∈ R → kcovers cinfo r.1 x → ∃ r' : rule, r' ∈ R' ∧ kcovers cinfo r'.1 x ∧ Precedence r'.2 = Precedence r.2.
Proof.
  intros F F' r Hr Hk. destruct (fl_told _ _ _ _ F r Hr) as [HO|[HE|HT]];
    [exists r; split; [apply (fl_exact _ _ _ _ F'); by left|done]|exists r; split; [apply (fl_exact _ _ _ _ F'); by right|done]|].
  destruct HT as (f & cs & pol & id & HP & HU & HS & [Hpu Hid] & Hin). destruct (whole f cs) eqn:Ew.
  - assert (En : egress_named f = false) by (unfold whole in Ew; by destruct (egress_named f)).
    unfold identity_rules, identity_keys in Hin. rewrite En in Hin.
    apply list_elem_of_fmap in Hin as ([port key] & -> & (k & [= -> ->] & Hkk)%list_elem_of_fmap). cbn [fst snd] in *.
    exists (WithIdentity k (aggregateFor (Identity x) cinfo), filter_entry e (tierBasePriority d) f cs pol (filter_port e f)).
    split; [apply (fl_exact _ _ _ _ F'); right; exists f, cs, pol, (aggregateFor (Identity x) cinfo)|].
    + split; [done|]. split; [done|]. split; [done|]. rewrite Ew. split; [apply aggregateFor_in|].
      unfold identity_rules, identity_keys. rewrite En. apply list_elem_of_fmap.
      exists (filter_port e f, WithIdentity k (aggregateFor (Identity x) cinfo)). split; [done|].
      apply list_elem_of_fmap. by exists k.
    + split; [|done]. destruct Hk as [Hle _]. split; [exact Hle|by right].
  - exists r. split; [|done]. apply (fl_exact _ _ _ _ F'). right. exists f, cs, pol, id. by rewrite Ew.
Qed.
End rules.

(** ** Transactions *)

Record notification := mkNotification {
  n_filter : L4Filter;
  n_selector : string;
  n_added : list Z;
  n_deleted : list Z;
}.

Section transactions.
Context {SM : SelectionsMap} {SK : SelectorKeys} {TR : Trie LPMKey IDSet} {TL : TrieLaws LPMKey IDSet TR} {GR : GoRange} {GS : GoSort}.
Context (e : EndpointContext) (cinfo : ClusterInfo) (dI dE : L4DirectionPolicy).
Context (Hports : ∀ ingress proto port l, LookupRedirectPort e ingress proto port l ≠ Some 0).
Implicit Types (S : string → list Z) (n : notification) (s : mapState TR * ChangeState).

Definition direction (ingress : bool) : L4DirectionPolicy := if ingress then dI else dE.
Notation features := (Z.lor (dir_features dI) (dir_features dE)).

(** What the selector cache tells when the selections change from [S] to [S']: every user of a selector whose
    selections changed is notified once of the difference; a deselected identity is gone from all selectors. *)
Record transaction_ok S S' (ns : list notification) : Prop := {
  tx_known n : n ∈ ns → ∃ ingress pol, policy_of (direction ingress) (n_filter n) (n_selector n) pol;
  tx_added n id : n ∈ ns → id ∈ n_added n ↔ id ∈ S' (n_selector n) ∧ id ∉ S (n_selector n);
  tx_deleted n id : n ∈ ns → id ∈ n_deleted n ↔ id ∈ S (n_selector n) ∧ id ∉ S' (n_selector n);
  tx_all ingress f cs pol id : policy_of (direction ingress) f cs pol → ¬ (id ∈ S cs ↔ id ∈ S' cs) →
    ∃ n, n ∈ ns ∧ n_filter n = f ∧ n_selector n = cs;
  tx_gone cs cs' id : id ∈ S cs → id ∉ S' cs → id ∉ S' cs';
}.

(** The changes a notification queues. *)
Definition notified n : list mapChange :=
  let f := n_filter n in
  match PerSelectorPolicies f !! n_selector n with
  | Some pol =>
      if pushed f (n_selector n) &&
         negb (selectorCoveredByWildcard f (n_selector n) pol ((Port f =? 0) && bool_decide (PortName f = "")))
      then user_changes e (tierBasePriority (direction (f_Ingress f))) f (n_selector n) pol (n_added n) (n_deleted n)
      else []
  | None => []
  end.

Definition notify (us : list (EndpointContext * MapChanges SM)) n :=
  IdentitySelectionUpdated dI dE true (n_filter n) (n_selector n) (n_added n) (n_deleted n) us.

Context (O : bool → list rule) (FO : ∀ ingress, filters_ok e features ingress (O ingress) (direction ingress)).

Lemma next_base_eq bases tier : 0 ≤ tier < Z.of_nat (length bases) → Z.of_nat (length bases) ≤ 256 →
  next_base bases tier = inr (nextTierPriority bases tier).
Proof.
  intros Ht Hl. unfold next_base, nextTierPriority. destruct (Z.ltb_spec (tier + 1) (Z.of_nat (length bases))) as [H|H].
  - unfold index. rewrite uwrap_small by (split; [lia|]; change (2 ^ 8) with 256; lia).
    destruct (lookup_lt_is_Some_2 bases (Z.to_nat (tier + 1)) ltac:(lia)) as [b ->]. done.
  - rewrite lookup_ge_None_2 by lia. done.
Qed.

Lemma notify_changes S n mc : endpoint_ok (at_selections e S) cinfo →
  (∃ ingress pol, policy_of (direction ingress) (n_filter n) (n_selector n) pol) →
  notify [(e, mc)] n = inr [(e, append_changes mc (notified n))].
Proof.
  intros EO (ingress & pol & HP). destruct (FO ingress) as [F1 F2 _ _ _ _].
  destruct (F1 _ _ _ HP) as [_ Ei]. destruct (F2 _ _ _ HP) as [Ht Hl].
  unfold notify, notified, IdentitySelectionUpdated, pushed. rewrite (proj2 HP), Ei.
  destruct (_ && bool_decide (PortName (n_filter n) = "")); cbn [negb andb]; [by rewrite append_nil|].
  unfold L4Policy_AccumulateMapChanges. rewrite (proj2 HP), Ei. cbn [default from_option id].
  destruct (selectorCoveredByWildcard _ _ _ _); cbn [negb]; [by rewrite append_nil|].
  fold (direction ingress). rewrite next_base_eq by done. unfold index.
  destruct (lookup_lt_is_Some_2 (tierBasePriority (direction ingress)) (Z.to_nat (f_Tier (n_filter n))) ltac:(lia)) as [b Hb].
  rewrite Hb. cbn [sbind fmap list_fmap fst snd]. do 3 f_equal.
  assert (b = at_ (tierBasePriority (direction ingress)) (f_Tier (n_filter n))) as -> by (unfold at_; by rewrite Hb).
  by apply (accumulate_changes e cinfo _ S).
Qed.

(** ** The effect of a transaction *)

Lemma covered_skipped f cs pol : filter_wf f → undefined_port e f = false →
  selectorCoveredByWildcard f cs pol ((Port f =? 0) && bool_decide (PortName f = "")) = skipped e f cs pol.
Proof.
  intros W HU. unfold skipped.
  assert (HW : (Port f =? 0) && bool_decide (PortName f = "") = (filter_port e f =? 0) && negb (egress_named f)).
  { unfold undefined_port, egress_named in *. rewrite (named_filter_eq f W) in *. unfold filter_port in *.
    rewrite (named_filter_eq f W) in *. case_bool_decide; cbn [negb andb] in *; [done|].
    destruct (f_Ingress f); cbn [negb andb] in *; [by rewrite HU, andb_false_r|by rewrite !andb_false_r]. }
  rewrite HW. destruct (bool_decide_reflect (wildcard f = Some cs)) as [Hw|]; cbn [negb andb]; [|done].
  unfold selectorCoveredByWildcard. by rewrite Hw, bool_decide_true.
Qed.

Section round.
Context (S S' : string → list Z) (EO : endpoint_ok (at_selections e S) cinfo) (EO' : endpoint_ok (at_selections e S') cinfo).
Context (ns : list notification) (TX : transaction_ok S S' ns).

Definition gone : gset Z := list_to_set (ns ≫= n_deleted).

Lemma elem_of_gone id : id ∈ gone ↔ ∃ n, n ∈ ns ∧ id ∈ n_deleted n.
Proof. unfold gone. rewrite elem_of_list_to_set, list_elem_of_bind. naive_solver. Qed.

Lemma gone_spec id : id ∈ gone → (∃ cs, id ∈ S cs) ∧ ∀ cs, id ∉ S' cs.
Proof.
  intros (n & Hn & [HS HS']%(tx_deleted _ _ _ TX))%elem_of_gone; [|done]. split; [by eexists|].
  intros cs. by apply (tx_gone _ _ _ TX (n_selector n)).
Qed.

Lemma gone_leaf id : id ∈ gone → id ∉ AllAggregates.
Proof.
  intros [[cs Hid] _]%gone_spec. destruct (eo_selection _ _ EO cs id Hid) as [_ Hn].
  intros Ha. apply Hn. by apply aggregateFor_fixed.
Qed.

(** A change comes from a policy of a selector. *)
Definition change_of n (c : mapChange) (ingress : bool) (pol : option PerSelectorPolicy) : Prop :=
  let f := n_filter n in let cs := n_selector n in
  policy_of (direction ingress) f cs pol ∧ pushed f cs = true ∧
  ((Add c = true ∧ undefined_port e f = false ∧ skipped e f cs pol = false ∧
     ∃ id, id ∈ n_added n ∧ (mc_Key c, mc_Value c) ∈ identity_rules e (tierBasePriority (direction ingress)) f cs pol id) ∨
   (Add c = false ∧ Identity (mc_Key c) ∈ n_deleted n)).

Lemma notified_facts n c : n ∈ ns → c ∈ notified n → ∃ ingress pol, change_of n c ingress pol.
Proof.
  intros Hn. destruct (tx_known _ _ _ TX n Hn) as (ingress & pol & HP). unfold notified. rewrite (proj2 HP).
  destruct (fo_wf _ _ _ _ _ (FO ingress) _ _ _ HP) as [W Ei]. rewrite Ei.
  destruct (pushed _ _) eqn:Epu; cbn [andb]; [|by intros ?%elem_of_nil].
  destruct (selectorCoveredByWildcard _ _ _ _) eqn:Ec; cbn [negb]; [by intros ?%elem_of_nil|].
  intros Hc. exists ingress, pol. split; [done|]. split; [done|].
  destruct (change_facts e cinfo _ S EO _ _ _ _ _ _ W Hc) as [(Ha & HU & Hid)|?]; [left|by right].
  split_and!; try done. by rewrite <- covered_skipped.
Qed.

Lemma notified_changes n ingress pol : n ∈ ns → policy_of (direction ingress) (n_filter n) (n_selector n) pol →
  pushed (n_filter n) (n_selector n) = true → undefined_port e (n_filter n) = false →
  skipped e (n_filter n) (n_selector n) pol = false →
  notified n = user_changes e (tierBasePriority (direction ingress)) (n_filter n) (n_selector n) pol (n_added n) (n_deleted n).
Proof.
  intros Hn HP Hpu HU HS. destruct (fo_wf _ _ _ _ _ (FO ingress) _ _ _ HP) as [W Ei].
  unfold notified. by rewrite (proj2 HP), Hpu, covered_skipped, HS, Ei.
Qed.

(** The keys and rules of added identities. *)
Lemma added_rule n c ingress pol : n ∈ ns → change_of n c ingress pol → Add c = true →
  MapStatePolicy.rule_ok (mc_Key c, mc_Value c) ∧ TrafficDirection (mc_Key c) = traffic ingress ∧ Identity (mc_Key c) ∉ gone ∧
  told e S' (direction ingress) (mc_Key c, mc_Value c).
Proof.
  intros Hn (HP & Hpu & [(_ & HU & HS & id & Hid & Hin)|[? _]]) Ha; [|congruence].
  destruct (fo_wf _ _ _ _ _ (FO ingress) _ _ _ HP) as [W Ei].
  apply (tx_added _ _ _ TX n id Hn) in Hid as [Hid _].
  pose proof Hin as ([port key] & [= Ek Ev] & Hy)%list_elem_of_fmap. cbn [fst snd] in Ek, Ev.
  destruct (eo_selection _ _ EO' _ _ Hid) as [Hu _].
  destruct (identity_key e cinfo S EO _ _ _ _ W Hu Hy) as (Wk & Dk & Eid). rewrite Ek. split_and!.
  - constructor; cbn; [done|]. rewrite Ev. by apply (fo_entry _ _ _ _ _ (FO ingress)).
  - rewrite Dk. unfold direction_of. by rewrite Ei.
  - rewrite Eid. intros [_ Hg]%gone_spec. by destruct (Hg (n_selector n)).
  - rewrite <- Ek. by exists (n_filter n), (n_selector n), pol, id.
Qed.

Lemma queue_ok ingress : Forall (change_ok (direction_scope (traffic ingress)) gone) (ns ≫= notified).
Proof.
  apply Forall_forall. intros c (n & Hc & Hn)%list_elem_of_bind.
  destruct (notified_facts n c Hn Hc) as (i & pol & HC). unfold change_ok. destruct (Add c) eqn:Ha.
  - destruct (added_rule n c i pol Hn HC Ha) as (Hr & _ & Hg & _). split; [apply Hr|done].
  - destruct HC as (_ & _ & [[? _]|[_ Hd]]); [congruence|]. apply elem_of_gone. by exists n.
Qed.

Context (ingress : bool).
Notation d := (direction ingress).
Notation B := (direction_scope (traffic ingress)).

(** The identity of a rule. *)
Lemma rule_identity f cs pol id (r : rule) : policy_of d f cs pol → is_uint 32 id →
  r ∈ identity_rules e (tierBasePriority d) f cs pol id → Identity r.1 = id ∧ B r.1.
Proof.
  intros HP Hid ([port key] & -> & Hy)%list_elem_of_fmap. cbn [fst snd].
  destruct (fo_wf _ _ _ _ _ (FO ingress) _ _ _ HP) as [W Ei].
  destruct (identity_key e cinfo S EO _ _ _ _ W Hid Hy) as (_ & Dk & Eid). split; [done|].
  unfold direction_scope. rewrite Dk. unfold direction_of. by rewrite Ei.
Qed.

Lemma aggregate_uint id : id ∈ AllAggregates → is_uint 32 id.
Proof. unfold AllAggregates. rewrite !elem_of_cons, elem_of_nil. by intros [-> |[-> |[-> |[-> |[-> |[]]]]]]. Qed.

Lemma exact_step (r : rule) : exact e S' d r →
  (exact e S d r ∧ Identity r.1 ∉ gone) ∨ ∃ c, c ∈ ns ≫= notified ∧ adds_rule B c r.
Proof.
  intros (f & cs & pol & id & HP & HU & HS & Hid & Hin). destruct (whole f cs) eqn:Ew.
  - left. destruct (rule_identity f cs pol id r HP (aggregate_uint id Hid) Hin) as [Eid _]. split.
    + exists f, cs, pol, id. by rewrite Ew.
    + rewrite Eid. by intros ?%gone_leaf.
  - destruct (eo_selection _ _ EO' _ _ Hid) as [Hu _]. destruct (rule_identity f cs pol id r HP Hu Hin) as [Eid Br].
    destruct (decide (id ∈ S cs)) as [Hs|Hs]; [left|right].
    + split; [exists f, cs, pol, id; by rewrite Ew|]. rewrite Eid. intros [_ Hg]%gone_spec. by apply (Hg cs).
    + destruct (tx_all _ _ _ TX ingress f cs pol id HP) as (n & Hn & <- & <-); [tauto|].
      destruct (fo_wf _ _ _ _ _ (FO ingress) _ _ _ HP) as [W Ei].
      assert (Hpu : pushed (n_filter n) (n_selector n) = true).
      { destruct (pushed _ _) eqn:E; [done|]. by rewrite (not_pushed _ _ pol W (proj2 HP) E) in Ew. }
      destruct (change_adds e cinfo (tierBasePriority d) S EO (n_filter n) (n_selector n) pol (n_added n) (n_deleted n) id r W HU)
        as (c & Hc & Ha & ->); [by apply (tx_added _ _ _ TX)|done|].
      exists c. split; [|by split_and!]. apply list_elem_of_bind. exists n. split; [|done].
      by rewrite (notified_changes n ingress pol).
Qed.

(** Rules of identities that stay. *)
Lemma kept_selection f cs pol id : policy_of d f cs pol → id ∈ S cs → id ∉ gone → id ∈ S' cs.
Proof.
  intros HP Hid Hg. destruct (decide (id ∈ S' cs)) as [|Hn]; [done|]. destruct Hg.
  destruct (tx_all _ _ _ TX ingress f cs pol id HP) as (n & Hin & <- & <-); [tauto|].
  apply elem_of_gone. exists n. split; [done|]. by apply (tx_deleted _ _ _ TX).
Qed.

Lemma exact_kept (r : rule) : exact e S d r → Identity r.1 ∉ gone → exact e S' d r.
Proof.
  intros (f & cs & pol & id & HP & HU & HS & Hid & Hin) Hg. exists f, cs, pol, id. split_and!; try done.
  destruct (whole f cs); [done|]. destruct (eo_selection _ _ EO _ _ Hid) as [Hu _].
  destruct (rule_identity f cs pol id r HP Hu Hin) as [Eid _]. rewrite Eid in Hg. by apply (kept_selection f cs pol).
Qed.

Lemma told_kept (r : rule) : told e S d r → Identity r.1 ∉ gone → told e S' d r.
Proof.
  intros (f & cs & pol & id & HP & HU & HS & [Hpu Hid] & Hin) Hg. exists f, cs, pol, id. split_and!; try done.
  destruct (eo_selection _ _ EO _ _ Hid) as [Hu _].
  destruct (rule_identity f cs pol id r HP Hu Hin) as [Eid _]. rewrite Eid in Hg. by apply (kept_selection f cs pol).
Qed.

(** Rules of removed identities are removed. *)
Lemma gone_killed ms (r : rule) : indexed ms = contains features (Z.lor passRules namedPortRules) →
  exact e S d r ∨ told e S d r → Identity r.1 ∈ gone → ∃ c, c ∈ ns ≫= notified ∧ kills (TR:=TR) ms c r.1.
Proof.
  intros Hix HR Hg.
  assert (∃ f cs pol id, policy_of d f cs pol ∧ undefined_port e f = false ∧ skipped e f cs pol = false ∧
    pushed f cs = true ∧ id ∈ S cs ∧ r ∈ identity_rules e (tierBasePriority d) f cs pol id)
    as (f & cs & pol & id & HP & HU & HS & Hpu & Hid & Hin).
  { destruct HR as [(f & cs & pol & id & HP & HU & HS & Hid & Hin)|(f & cs & pol & id & HP & HU & HS & [Hpu Hid] & Hin)];
      exists f, cs, pol, id; [|done].
    destruct (whole f cs) eqn:Ew.
    - destruct (rule_identity f cs pol id r HP (aggregate_uint id Hid) Hin) as [Eid _]. rewrite Eid in Hg. by apply gone_leaf in Hg.
    - split_and!; try done. destruct (fo_wf _ _ _ _ _ (FO ingress) _ _ _ HP) as [W _].
      destruct (pushed f cs) eqn:E; [done|]. by rewrite (not_pushed _ _ pol W (proj2 HP) E) in Ew. }
  destruct (eo_selection _ _ EO _ _ Hid) as [Hu _]. destruct (rule_identity f cs pol id r HP Hu Hin) as [Eid _].
  rewrite Eid in Hg. apply gone_spec in Hg as [_ Hg].
  destruct (tx_all _ _ _ TX ingress f cs pol id HP) as (n & Hn & <- & <-); [specialize (Hg cs); tauto|].
  destruct (fo_wf _ _ _ _ _ (FO ingress) _ _ _ HP) as [W _].
  destruct (change_dels e (tierBasePriority d) (n_filter n) (n_selector n) pol (n_added n) (n_deleted n) id r W)
    as (c & Hc & Ha & Ei & Ek); [by apply (tx_deleted _ _ _ TX)|done|].
  exists c. split; [apply list_elem_of_bind; exists n; split; [by rewrite (notified_changes n ingress pol)|done]|].
  split; [done|]. rewrite Hix. destruct (contains features (Z.lor passRules namedPortRules)) eqn:Ef; [congruence|].
  symmetry. apply Ek. rewrite named_filter_eq by done. apply negb_false_iff, bool_decide_eq_true.
  destruct (decide (PortName (n_filter n) = "")) as [|Hne]; [done|].
  by rewrite (fo_named _ _ _ _ _ (FO ingress) _ _ _ HP Hne) in Ef.
Qed.

Lemma follows_precedence (R : list rule) : follows e S d (O ingress) R →
  contains features precedenceFeatures = true ∨ ∃ p, (∀ r : rule, r ∈ R → Precedence r.2 = p) ∧
    ∀ r : rule, told e S' d r → Precedence r.2 = p.
Proof.
  intros F. destruct (fo_same _ _ _ _ _ (FO ingress)) as [?|(p & HO & HP)]; [by left|right]. exists p.
  assert (HR : ∀ ids r, rules_for e ids d r → Precedence r.2 = p).
  { intros ids r (f & cs & pol & id & Hp & _ & _ & _ & ([port key] & -> & _)%list_elem_of_fmap). by apply HP. }
  split; [|intros r; apply HR]. intros r [?|[?|?]]%(fl_told _ _ _ _ _ F); [by apply HO|by eapply HR|by eapply HR].
Qed.

Lemma other_direction_kept s c k : st_inv cinfo wf_key wf_key s → Add c = true → wf_key (mc_Key c) → ¬ B (mc_Key c) → B k →
  ms_entries (apply_change features s c).1 !! k = ms_entries s.1 !! k.
Proof.
  intros Ss Ha Wk Hn Bk. unfold apply_change. rewrite Ha. destruct s as [ms ch].
  apply (insertWithChanges_frames cinfo (TrafficDirection (mc_Key c))); try done.
  intros E. apply Hn. unfold direction_scope in *. congruence.
Qed.

(** A transaction takes a state that follows the old selections to one that follows the new ones. *)
Lemma round_policy s (R : list rule) : contains features passRules = false → st_inv cinfo wf_key wf_key s →
  indexed s.1 = contains features (Z.lor passRules namedPortRules) →
  policy_inv B s.1 R → follows e S d (O ingress) R →
  let s' := foldl (apply_change features) s (ns ≫= notified) in
  st_inv cinfo wf_key wf_key s' ∧ indexed s'.1 = indexed s.1 ∧
  ∃ R', policy_inv B s'.1 R' ∧ follows e S' d (O ingress) R'.
Proof.
  intros Hf Ss Hix Pol F. cbv zeta. set (l := ns ≫= notified).
  set (news := filter (λ r : rule, TrafficDirection r.1 = traffic ingress) (MapChangesPolicy.added l)). set (R' := filter (λ r : rule, Identity r.1 ∉ gone) R ++ news).
  assert (HN : ∀ r : rule, r ∈ news ↔ ∃ c, c ∈ l ∧ adds_rule B c r).
  { intros r. unfold news. rewrite list_elem_of_filter, elem_of_added. unfold adds_rule. split.
    - intros (Br & c & Hc & Ha & ->). by exists c.
    - intros (c & Hc & Ha & Br & ->). split; [done|]. by exists c. }
  assert (HT : ∀ r : rule, r ∈ news → told e S' d r).
  { intros r (c & (n & Hc & Hn)%list_elem_of_bind & Ha & Br & ->)%HN.
    destruct (notified_facts n c Hn Hc) as (i & pol & HC). destruct (added_rule n c i pol Hn HC Ha) as (_ & Dk & _ & Ht).
    assert (i = ingress) as <-; [|done]. unfold direction_scope in Br. rewrite Dk in Br. by destruct i, ingress. }
  destruct (batch_policy cinfo features Hf B (direction_closed _) ltac:(intros; unfold direction_scope; apply _) gone
    gone_leaf ltac:(intros; by apply other_direction_kept) (R ++ news)
    ltac:(destruct (follows_precedence R F) as [?|(p & H1 & H2)]; [by left|right; intros r r' Hr Hr'; trans p;
      [|symmetry]; (apply elem_of_app in Hr as [?|?]; apply elem_of_app in Hr' as [?|?]; auto)])
    l s R R' (queue_ok ingress) Ss Pol) as (S1 & P1 & I1).
  - intros r Hr. apply elem_of_app. by left.
  - intros c r Hc Hr. apply elem_of_app. right. apply HN. by exists c.
  - intros r Hr Hg. apply gone_killed; [done| |done].
    destruct (fl_told _ _ _ _ _ F r Hr) as [HO|?]; [|done]. apply (fo_open _ _ _ _ _ (FO ingress)) in HO. by apply gone_leaf in Hg.
  - intros r. unfold R'. rewrite elem_of_app, list_elem_of_filter, HN. tauto.
  - split; [done|]. split; [done|]. exists R'. split; [done|]. constructor; intros r.
    + unfold R'. rewrite elem_of_app, list_elem_of_filter. intros [HO|HE].
      * left. split; [|apply (fl_exact _ _ _ _ _ F); by left]. apply (fo_open _ _ _ _ _ (FO ingress)) in HO. by intros ?%gone_leaf.
      * destruct (exact_step r HE) as [[HE0 Hg]|Hc]; [left|right; by apply HN].
        split; [done|]. apply (fl_exact _ _ _ _ _ F). by right.
    + unfold R'. rewrite elem_of_app, list_elem_of_filter. intros [[Hg Hr]|Hr]; [|right; right; by apply HT].
      destruct (fl_told _ _ _ _ _ F r Hr) as [?|[?|?]]; [by left|right; left; by apply exact_kept|right; right; by apply told_kept].
Qed.
End round.

(** ** Histories of an endpoint *)

(** A transaction of the selector cache, and a consumption that the endpoint closes again. *)
Inductive ep_event :=
| EvTransaction (ns : list notification) (txn : SelectorSnapshot SM)
| EvConsume (current : SelectorSnapshot SM).

Definition ep_step (p : EndpointPolicy SM TR) (ev : ep_event) : error + EndpointPolicy SM TR :=
  match ev with
  | EvTransaction ns txn =>
      us <~ each notify [(e, policyMapChanges p)] ns;;
      let us := foldl (λ us _, IdentitySelectionCommit true txn us) us ns in
      inr (mkEndpointPolicy (ep_selectors p) (policyMapState p) (default (policyMapChanges p) (snd <$> head us)))
  | EvConsume current =>
      let '(p, closer, _) := EndpointPolicy_ConsumeMapChanges dI dE current p in inr (closer p)
  end.

(** The selections follow the transactions, which come after the revision [rev] of the first snapshot. *)
Inductive events_ok (rev : Z) : (string → list Z) → list ep_event → (string → list Z) → Prop :=
| events_none S : events_ok rev S [] S
| events_transaction S S1 S' ns txn evs :
    transaction_ok S S1 ns → endpoint_ok (at_selections e S1) cinfo → After txn rev = true →
    events_ok rev S1 evs S' → events_ok rev S (EvTransaction ns txn :: evs) S'
| events_consume S S' current evs :
    events_ok rev S evs S' → events_ok rev S (EvConsume current :: evs) S'.

Definition old_ok (ch : ChangeState) : Prop := ∀ k o, old ch = Some o → is_Some (o !! k) → wf_key k.

Record follows_state S s : Prop := {
  fs_state : st_inv cinfo wf_key wf_key s;
  fs_indexed : indexed s.1 = contains features (Z.lor passRules namedPortRules);
  fs_rules ingress : ∃ R, policy_inv (direction_scope (traffic ingress)) s.1 R ∧ follows e S (direction ingress) (O ingress) R;
}.

(** The map state and what awaits consumption follow the selections. *)
Record in_step (rev : Z) S (p : EndpointPolicy SM TR) : Prop := {
  is_rev : firstRev (policyMapChanges p) = rev;
  is_none : mc_changes (policyMapChanges p) = [];
  is_follow ch : old_ok ch →
    follows_state S (foldl (apply_change features) (policyMapState p, ch) (synced (policyMapChanges p)));
}.

Context (Hpass : contains features passRules = false).

Lemma round_follows S S' ns s : endpoint_ok (at_selections e S) cinfo → endpoint_ok (at_selections e S') cinfo →
  transaction_ok S S' ns → follows_state S s → follows_state S' (foldl (apply_change features) s (ns ≫= notified)).
Proof.
  intros EO EO' TX [Ss Hix HR]. pose proof (λ ingress, round_policy S S' EO EO' ns TX ingress s) as RP. constructor.
  - destruct (HR true) as (R & P & F). by apply (RP true R Hpass Ss Hix P F).
  - destruct (HR true) as (R & P & F). destruct (RP true R Hpass Ss Hix P F) as (_ & -> & _). done.
  - intros ingress. destruct (HR ingress) as (R & P & F). by apply (RP ingress R Hpass Ss Hix P F).
Qed.

Lemma notify_all S ns : endpoint_ok (at_selections e S) cinfo → ∀ mc,
  (∀ n, n ∈ ns → ∃ ingress pol, policy_of (direction ingress) (n_filter n) (n_selector n) pol) →
  each notify [(e, mc)] ns = inr [(e, append_changes mc (ns ≫= notified))].
Proof.
  intros EO. induction ns as [|n ns IH]; intros mc HN; [cbn; by rewrite append_nil|]. cbn [each mbind list_bind].
  rewrite (notify_changes S) by (done || apply HN; by left). cbn [sbind]. rewrite IH by (intros; apply HN; by right).
  by rewrite append_app.
Qed.

Lemma commit_again mc txn (l : list notification) : mc_changes mc = [] →
  foldl (λ us (_ : notification), IdentitySelectionCommit true txn us) [(e, mc)] l = [(e, mc)].
Proof.
  intros H. induction l as [|n l IH]; [done|]. cbn [foldl]. unfold IdentitySelectionCommit, L4Policy_SyncMapChanges at 2.
  cbn. unfold SyncMapChanges. rewrite H. destruct mc. cbn in *. by subst.
Qed.

Lemma commit_all mc txn (ns : list notification) l : mc_changes mc = [] → After txn (firstRev mc) = true → (ns = [] → l = []) →
  ∃ mc', foldl (λ us (_ : notification), IdentitySelectionCommit true txn us) [(e, append_changes mc l)] ns = [(e, mc')] ∧
    firstRev mc' = firstRev mc ∧ mc_changes mc' = [] ∧ synced mc' = synced mc ++ l.
Proof.
  intros H HA Hn. destruct ns as [|n ns].
  { rewrite Hn, append_nil by done. exists mc. cbn. by rewrite app_nil_r. }
  cbn [foldl]. unfold IdentitySelectionCommit at 2. unfold L4Policy_SyncMapChanges. cbn [fmap list_fmap fst snd].
  assert (HS : firstRev (SyncMapChanges (append_changes mc l) txn) = firstRev mc ∧
    mc_changes (SyncMapChanges (append_changes mc l) txn) = [] ∧ synced (SyncMapChanges (append_changes mc l) txn) = synced mc ++ l).
  { unfold SyncMapChanges, append_changes. cbn. rewrite H. cbn. destruct l; cbn; [by rewrite app_nil_r|]. by rewrite HA. }
  eexists. split; [apply commit_again; apply HS|exact HS].
Qed.

Lemma consumed_old_ok : old_ok (mkChangeState (Some ∅) (Some ∅) (Some ∅)).
Proof. intros k o [= <-]. rewrite lookup_empty. by intros []. Qed.

Lemma consumed_state current p : let p' := EndpointPolicy_ConsumeMapChanges dI dE current p in
  let p2 := p'.1.2 p'.1.1 in
  policyMapState p2 = (foldl (apply_change features) (policyMapState p, mkChangeState (Some ∅) (Some ∅) (Some ∅))
    (synced (policyMapChanges p))).1 ∧
  firstRev (policyMapChanges p2) = firstRev (policyMapChanges p) ∧
  mc_changes (policyMapChanges p2) = mc_changes (policyMapChanges p) ∧ synced (policyMapChanges p2) = [].
Proof.
  cbv zeta. unfold EndpointPolicy_ConsumeMapChanges, consumeMapChanges, EndpointPolicy_Ready. rewrite queue_order.
  destruct (foldl _ _ _) as [ms ch]. by repeat (case_match; cbn).
Qed.

Lemma events_follow rev S evs S' : events_ok rev S evs S' → endpoint_ok (at_selections e S) cinfo →
  ∀ p, in_step rev S p → ∃ p', each ep_step p evs = inr p' ∧ in_step rev S' p' ∧ endpoint_ok (at_selections e S') cinfo.
Proof.
  induction 1 as [S|S S1 S' ns txn evs TX EO1 HA H IH|S S' current evs H IH]; intros EO p I; [by exists p|..]; cbn [each].
  - pose proof I as [I1 I2 I3]. unfold ep_step at 1. rewrite (notify_all S) by (done || apply TX). cbn [sbind].
    destruct (commit_all (policyMapChanges p) txn ns (ns ≫= notified)) as (mc' & -> & E1 & E2 & E3); [done|by rewrite I1|by intros ->|].
    cbn [head fmap option_fmap option_map snd default from_option id]. apply IH; [done|].
    constructor; cbn; [by rewrite E1|done|]. intros ch Hch. rewrite E3, foldl_app. by apply (round_follows S); [..|apply I3].
  - unfold ep_step at 1. destruct (consumed_state current p) as (E1 & E2 & E3 & E4).
    destruct (EndpointPolicy_ConsumeMapChanges dI dE current p) as [[p1 closer] ch1]. cbn [fst snd] in *. cbn [sbind].
    apply IH; [done|]. destruct I as [I1 I2 I3]. constructor; [by rewrite E2|by rewrite E3|].
    intros ch Hch. rewrite E1, E4. cbn [foldl]. destruct (I3 _ consumed_old_ok) as [Ss Hix HR].
    constructor; [|done|done]. destruct Ss as [A1 A2 A3 _]. by constructor.
Qed.
End transactions.
