(* ===== verification/IncrementalDistill.v ===== *)
(** * From the first computation to incremental updates

    The map state that [DistillPolicy] computes follows the selections of its snapshot, so that the
    notifications that come after it keep it up to date: it decides like a map state computed anew. *)

From Stdlib Require Import QArith Ascii.
From stdpp Require Import sorting.
From S2P Require Import Prelude Precedence BitLPM PolicyKey PortRange Identity RuleOrigin PassMeta.
From S2P Require Import MapState MapStateIndex MapStateLookup MapStateOps MapStateFrame MapStatePolicy MapChanges MapChangesPolicy.
From S2P Require Import PolicyRule TierState TierPriorities TierEvaluation PlainEvaluation.
From S2P Require Import L4Types L4Filter L4MapState L4Merge L4Resolve L4Contributions L4Evaluation L4Enforcement EndpointPolicy.
From S2P Require Import L4Typing L4Incremental IncrementalRules IncrementalEquivalence.

Local Open Scope Z_scope.

Local Notation rule := (Key * mapStateEntry)%type.

(** ** Features *)

Section features.
Context {GR : GoRange}.

Lemma attach_contains d f mask : f ∈ L4PolicyMaps_Filters (PortRules d) → contains (filter_attach f).1 mask = true →
  contains (dir_features (direction_attach d).1) mask = true.
Proof.
  unfold direction_attach. cbn [fst dir_features].
  assert (HG : ∀ (l : list L4Filter) acc,
    contains acc.1 mask = true ∨ (∃ f, f ∈ l ∧ contains (filter_attach f).1 mask = true) →
    contains (foldl (λ acc f, (Z.lor acc.1 (filter_attach f).1, Z.lor acc.2 (filter_attach f).2)) acc l).1 mask = true).
  { induction l as [|g l IH]; intros acc; cbn [foldl]; [by intros [?|(g & ?%elem_of_nil & _)]|].
    intros H. apply IH. cbn [fst]. rewrite contains_lor, orb_true_iff. setoid_rewrite elem_of_cons in H. naive_solver. }
  intros Hf Hc. apply HG. right. by exists f.
Qed.

Lemma filter_attach_named f : PortName f ≠ "" → contains (filter_attach f).1 (Z.lor passRules namedPortRules) = true.
Proof.
  intros Hn. unfold filter_attach.
  apply (map_fold_weak_ind (λ r (_ : gmap string (option PerSelectorPolicy)), contains r.1 (Z.lor passRules namedPortRules) = true)).
  - cbn [fst]. by rewrite bool_decide_true.
  - intros cs pol m r _ IH. cbn [fst]. by rewrite contains_lor, IH.
Qed.
End features.

(** ** The filters of a resolved direction *)

Section resolved.
Context {SK : SelectorKeys} {GR : GoRange} (e : EndpointContext) (cinfo : ClusterInfo).
Context (S : string → list Z) (EO : endpoint_ok (at_selections e S) cinfo).
Context (ingress : bool) (rules : list PolicyEntry) (Hs : sorted_rules rules).
Context (HR : ∀ r, r ∈ rules → pe_Ingress r = ingress ∧ rule_ok r).
Context (bases : list Z) (out : list (PolicyEntry * Z)) (AS : assigned rules bases out).
Context (pms : list L4PolicyMap) (MS : maps_summary ingress out pms).
Notation d := (direction_attach (mkDirection pms bases 0)).1.
Notation css := (direction_contributions (at_selections e S) out pms).

Lemma policy_stored f cs pol : policy_of d f cs pol ↔
  ∃ i m, pms !! i = Some m ∧ stored m f ∧ PerSelectorPolicies f !! cs = Some pol.
Proof.
  unfold policy_of, L4PolicyMaps_Filters. cbn [PortRules direction_attach fst]. rewrite list_elem_of_bind. split.
  - intros [(m & Hf & (i & Hi)%list_elem_of_lookup) Hp]. exists i, m. split; [done|]. split; [|done].
    apply elem_of_Filters; [|done]. by apply (map_summary out ingress pms MS i).
  - intros (i & m & Hi & Hf & Hp). split; [|done]. exists m. split; [|by apply list_elem_of_lookup; exists i].
    apply elem_of_Filters; [|done]. by apply (map_summary out ingress pms MS i).
Qed.

Lemma policy_in_maps f cs pol : policy_of d f cs pol → ∃ i, (i < length pms)%nat ∧ in_maps ingress out i f cs pol.
Proof.
  intros (i & m & Hi & Hf & Hp)%policy_stored. exists i. split; [by eapply lookup_lt_Some|].
  by apply (stored_in_maps ingress rules bases out AS pms MS HR i m).
Qed.

Lemma bases_length : Z.of_nat (length bases) ≤ 256.
Proof.
  pose proof (as_tiers _ _ _ AS) as E. destruct (last rules) as [r|] eqn:Er; cbn in E; [|done].
  apply last_Some_elem_of in Er. pose proof (sr_tier _ Hs r Er) as [? ?]. injection E as E. lia.
Qed.

Lemma filter_entry_contribution f cs pol port key : policy_of d f cs pol →
  filter_entry e bases f cs pol port = co_entry bases (contribution_of (at_selections e S) out f cs pol port key).
Proof.
  intros (i & _ & HM)%policy_in_maps.
  apply (makeMapStateEntry_contribution (at_selections e S) out bases cinfo EO f cs pol port key), HM.
Qed.

(** The contributions are the rules of the selections. *)
Lemma exact_contributions (r : rule) : exact e S d r ↔ ∃ c, c ∈ css ∧ r = plain_rule bases c.
Proof.
  assert (HP : ∀ f cs pol, policy_of d f cs pol → ∀ port (key : Key),
    (key, filter_entry e bases f cs pol port) = plain_rule bases (contribution_of (at_selections e S) out f cs pol port key)).
  { intros f cs pol HP port key. unfold plain_rule. by rewrite (filter_entry_contribution f cs pol port key HP). }
  split.
  - intros (f & cs & pol & id & Hp & HU & HS & Hid & ([port key] & -> & Hy)%list_elem_of_fmap). cbn [fst snd].
    exists (contribution_of (at_selections e S) out f cs pol port key). split; [|by apply (HP f)].
    pose proof Hp as (i & m & Hi & Hf & Hpol)%policy_stored.
    apply (elem_of_direction _ ingress out pms MS). exists i, m, f, cs, pol. split_and!; try done.
    apply (policy_identities e cinfo S EO). by exists id, port, key.
  - intros (c & (i & m & f & cs & pol & Hi & Hf & Hp & HU & HS & Hc)%(elem_of_direction _ ingress out pms MS) & ->).
    apply (policy_identities e cinfo S EO) in Hc as (id & port & key & Hid & Hy & ->).
    assert (Hpo : policy_of d f cs pol) by (apply policy_stored; by exists i, m).
    exists f, cs, pol, id. split_and!; try done. rewrite <- (HP f cs pol Hpo port key).
    apply list_elem_of_fmap. by exists (port, key).
Qed.

Context (features : Z) (Hsub : ∀ mask, contains (dir_features d) mask = true → contains features mask = true).
Context (Hpass : contains features passRules = false).

Lemma policy_no_pass f cs pol : policy_of d f cs pol → GetVerdict pol ≠ Pass.
Proof.
  intros (i & m & Hi & Hf & Hp)%policy_stored Hv%features_pass. rewrite (Hsub passRules) in Hpass; [done|].
  apply direction_attach_features; [done|]. exists m, f, cs, pol. split; [apply list_elem_of_lookup; by exists i|].
  split; [apply elem_of_Filters; [by apply (map_summary out ingress pms MS i)|done]|done].
Qed.

Lemma resolved_filters : filters_ok e features ingress [] d.
Proof.
  constructor.
  - intros f cs pol (i & _ & HM)%policy_in_maps. split; apply HM.
  - intros f cs pol (i & Hi & HM)%policy_in_maps. cbn [tierBasePriority direction_attach fst].
    pose proof (maps_in_range out bases ingress rules AS pms MS). rewrite (im_tier _ _ _ _ _ _ HM).
    split; [lia|apply bases_length].
  - intros f cs pol port HP. cbn [tierBasePriority direction_attach fst].
    pose proof (policy_no_pass f cs pol HP) as Hv. pose proof HP as (i & Hi & [_ Ei _ _ W HB _ HL])%policy_in_maps.
    rewrite (filter_entry_contribution f cs pol port (KeyForDirection (traffic ingress)) HP).
    set (c := contribution_of _ _ _ _ _ _ _).
    assert (HC : contributes (traffic ingress) out c).
    { destruct (rule_behind_spec out f cs pol HB) as [Hin _]. constructor; cbn; try done.
      - apply KeyForDirection_wf. destruct ingress; unfold traffic, Ingress, Egress; lia.
      - apply (proxy_port_spec (at_selections e S) cinfo EO).
      - by destruct ingress. }
    apply (rule_plain (plain_rule bases c)).
    apply (plain_rule_ok (traffic ingress) rules bases out AS [c]); [by apply Forall_singleton| |by left].
    intros c' ->%list_elem_of_singleton. cbn. apply rule_behind_spec in HB as (_ & _ & _ & Ev & _). cbn in Ev. by rewrite Ev.
  - intros f cs pol [Hf _] Hn. apply Hsub, (attach_contains _ f); [done|]. by apply filter_attach_named.
  - destruct (contains features precedenceFeatures) eqn:Hp; [by left|right].
    exists (Precedence (NewMapStateEntry 0 false 0 0)). split; [by intros r ?%elem_of_nil|].
    intros f cs pol port HP. cbn [tierBasePriority direction_attach fst].
    pose proof (policy_no_pass f cs pol HP) as Hv. pose proof HP as (i & m & Hi & Hf & Hpol)%policy_stored.
    pose proof HP as (i' & _ & [_ _ _ _ _ _ P0 _])%policy_in_maps.
    destruct (features_precedence pol ltac:(lia)) as (E0 & Va & Hr); [|done|].
    { destruct (contains (policy_features pol) precedenceFeatures) eqn:Hc; [|done]. rewrite <- Hp. symmetry. apply Hsub.
      apply direction_attach_features; [done|]. exists m, f, cs, pol. split; [apply list_elem_of_lookup; by exists i|].
      split; [apply elem_of_Filters; [by apply (map_summary out ingress pms MS i)|done]|done]. }
    unfold filter_entry, makeMapStateEntry. rewrite Hr, Va, E0. done.
  - by intros r ?%elem_of_nil.
Qed.
End resolved.

(** ** Directions without filters *)

Definition open_label (ingress : bool) : string := if ingress then LabelsAllowAnyIngress else LabelsAllowAnyEgress.

Definition open_rules (ingress : bool) : list rule :=
  (λ id, (WithIdentity (KeyForDirection (traffic ingress)) id, newAllowEntryWithLabels (open_label ingress))) <$> AllAggregates.

Definition direction_open (ingress enabled : bool) : list rule := if enabled then [] else open_rules ingress.

Lemma open_direction_code ingress : traffic ingress = Ingress ∨ traffic ingress = Egress.
Proof. destruct ingress; [by left|by right]. Qed.

Section nothing.
Context {SK : SelectorKeys} {GR : GoRange} (e : EndpointContext).

Lemma no_policy f cs pol : ¬ policy_of (direction_attach newL4DirectionPolicy).1 f cs pol.
Proof.
  intros [Hf _]. unfold L4PolicyMaps_Filters in Hf. cbn [PortRules direction_attach newL4DirectionPolicy fst mbind list_bind app] in Hf.
  rewrite (empty_filters _ eq_refl) in Hf. by apply elem_of_nil in Hf.
Qed.

Lemma nothing_filters features ingress enabled :
  filters_ok e features ingress (direction_open ingress enabled) (direction_attach newL4DirectionPolicy).1.
Proof.
  constructor; try (intros f cs pol; intros; by edestruct no_policy).
  - right. exists (Precedence (newAllowEntryWithLabels (open_label ingress))). split; [|intros f cs pol port ?; by edestruct no_policy].
    intros r Hr. destruct enabled; [by apply elem_of_nil in Hr|]. by apply list_elem_of_fmap in Hr as (id & -> & _).
  - intros r Hr. destruct enabled; [by apply elem_of_nil in Hr|]. by apply list_elem_of_fmap in Hr as (id & -> & Hid).
Qed.

Lemma nothing_follows S ingress enabled :
  follows e S (direction_attach newL4DirectionPolicy).1 (direction_open ingress enabled) (direction_open ingress enabled).
Proof.
  constructor; [|by left]. intros r [?|(f & cs & pol & id & HP & _)]; [done|]. by apply no_policy in HP.
Qed.
End nothing.

Section distill.
Context {SK : SelectorKeys} {TR : Trie LPMKey IDSet} {TL : TrieLaws LPMKey IDSet TR} {GR : GoRange}.
Context (e : EndpointContext) (cinfo : ClusterInfo).
Implicit Types (s : mapState TR * ChangeState) (S : string → list Z).

Lemma fresh_policy dir s : fresh cinfo dir s → policy_inv (direction_scope dir) s.1 [].
Proof.
  intros [Hs HE HN]. constructor.
  - apply HE.
  - intros k v Dk E. by rewrite HN in E.
  - intros k v Dk E. by rewrite HN in E.
  - by intros r ?%elem_of_nil.
  - intros k v k' v' Dk _ E. by rewrite HN in E.
  - by intros r ?%elem_of_nil.
Qed.

Lemma open_policy ingress s : fresh cinfo (traffic ingress) s →
  policy_inv (direction_scope (traffic ingress))
    (opened (KeyForDirection (traffic ingress)) (newAllowEntryWithLabels (open_label ingress)) s.1) (open_rules ingress).
Proof.
  intros FR. set (k0 := KeyForDirection _). set (v0 := newAllowEntryWithLabels _).
  destruct (opened_step cinfo (traffic ingress) (open_direction_code ingress) (open_label ingress) s FR) as (S1 & _ & _ & _).
  assert (HI : ∀ (k : Key) v, TrafficDirection k = traffic ingress → ms_entries (opened k0 v0 s.1) !! k = Some v →
    v = v0 ∧ Key_LPMKey k = Key_LPMKey k0 ∧ Identity k ∈ AllAggregates).
  { intros k v Dk. rewrite opened_entries. case_bool_decide as Ho; [by intros [= <-]|]. by rewrite (fr_none _ _ _ FR k Dk). }
  assert (HP : plain_entry v0).
  { destruct (allow_tentry (open_label ingress)) as [Hw _]. constructor; [by apply Hw|done|done]. }
  assert (HO : ∀ k : Key, Key_LPMKey k = Key_LPMKey k0 → Identity k ∈ AllAggregates → (k, v0) ∈ open_rules ingress).
  { intros k El Hid. apply list_elem_of_fmap. exists (Identity k). split; [|done]. f_equal. unfold WithIdentity. fold k0.
    rewrite <- El. by rewrite Key_eta. }
  constructor.
  - apply S1.
  - intros k v Dk [-> _]%HI; done.
  - intros k v Dk (-> & El & Hid)%HI; [|done]. exists (k, v0). split; [by apply HO|done].
  - intros r (id & -> & Hid)%list_elem_of_fmap. cbn [fst snd]. eexists (WithIdentity k0 id), v0.
    split; [rewrite opened_entries, bool_decide_true; done|]. split; [apply kcovers_refl|done].
  - intros k v k' v' Dk' E E' Hk. pose proof (kcovers_along _ _ _ Hk) as Ed.
    apply HI in E as [-> _]; [|unfold direction_scope in Dk'; congruence]. by apply HI in E' as [-> _].
  - intros r (id & -> & Hid)%list_elem_of_fmap. split; [|apply open_along; apply open_direction_code].
    constructor; [|done]. cbn. apply aggregate_key_wf; [apply open_wf, open_direction_code|done].
Qed.

Lemma opened_indexed k0 v (ms : mapState TR) : indexed (opened k0 v ms) = indexed ms.
Proof.
  unfold opened. generalize AllAggregates. intros l. revert ms. induction l as [|i l IH]; intros ms; [done|].
  cbn [foldl]. rewrite IH. unfold indexed. apply bool_decide_ext, upsert_byId.
Qed.

(** What a direction is before its conversion. *)
Definition readied (ingress enabled : bool) s : Prop :=
  if enabled then fresh cinfo (traffic ingress) s
  else policy_inv (direction_scope (traffic ingress)) s.1 (open_rules ingress).

Lemma policy_stepped ingress dir s s' (R : list rule) : traffic ingress ≠ dir → st_inv cinfo wf_key wf_key s → stepped cinfo dir s s' →
  policy_inv (direction_scope (traffic ingress)) s.1 R → policy_inv (direction_scope (traffic ingress)) s'.1 R.
Proof.
  intros Hd Ss [S1 I F] Pol. apply (policy_keep _ s.1); [apply direction_closed|done|apply S1| |].
  - by rewrite (st_cinfo _ _ _ _ S1), (st_cinfo _ _ _ _ Ss).
  - intros k Dk. apply F. unfold direction_scope in Dk. congruence.
Qed.

Lemma readied_stepped ingress enabled dir s s' : traffic ingress ≠ dir → st_inv cinfo wf_key wf_key s → stepped cinfo dir s s' →
  readied ingress enabled s → readied ingress enabled s'.
Proof.
  intros Hd Ss SP. destruct enabled; cbn [readied]; [by apply (fresh_frame _ _ dir)|by apply (policy_stepped _ dir)].
Qed.

Lemma ready ingress (enabled : bool) s : fresh cinfo (traffic ingress) s →
  let s' := (if enabled then s.1 else opened (KeyForDirection (traffic ingress)) (newAllowEntryWithLabels (open_label ingress)) s.1, s.2) in
  stepped cinfo (traffic ingress) s s' ∧ readied ingress enabled s' ∧ indexed s'.1 = indexed s.1.
Proof.
  intros FR. cbv zeta. destruct (prepare cinfo ingress enabled (open_label ingress) s FR) as [SP _]. split; [done|].
  destruct enabled; cbn [readied fst]; [by destruct s|]. split; [by apply open_policy|apply opened_indexed].
Qed.

Lemma contributions_indexed bases features cs : contains features passRules = false → ∀ s,
  indexed (foldl (add_contribution bases features) s cs).1 = indexed s.1.
Proof.
  intros Hf. induction cs as [|c cs IH]; intros s; [done|]. cbn [foldl]. rewrite IH. unfold indexed, add_contribution.
  apply bool_decide_ext. by apply insert_byId.
Qed.

(** The filters of a direction can be followed, and its conversion starts from the rules of the selections. *)
Lemma followed features ingress enabled rules d0 :
  (∃ S, endpoint_ok (at_selections e S) cinfo) → direction_resolved ingress enabled rules d0 →
  (∀ mask, contains (dir_features (direction_attach d0).1) mask = true → contains features mask = true) →
  contains features passRules = false → filters_ok e features ingress (direction_open ingress enabled) (direction_attach d0).1.
Proof.
  intros [S EO] HR Hsub Hpass. destruct enabled; [|cbn in HR; subst d0; apply nothing_filters].
  destruct HR as [[_ ->]|[[Hs (need & Hn & Hle) Hr] (c & bases & pms & -> & HR)]]; [apply (nothing_filters e features ingress true)|].
  destruct (resolved_maps ingress c rules need bases pms Hs Hn Hle Hr HR) as (out & AS & MS).
  by apply (resolved_filters e cinfo S EO ingress rules Hs Hr bases out AS pms MS).
Qed.

Lemma convert_followed S ingress enabled rules d0 s : endpoint_ok (at_selections e S) cinfo →
  direction_resolved ingress enabled rules d0 → contains (dir_features (direction_attach d0).1) passRules = false →
  st_inv cinfo wf_key wf_key s → sinv cinfo s.1 → readied ingress enabled s →
  ∃ s', direction_toMapState (at_selections e S) (direction_attach d0).1 s = inr s' ∧ stepped cinfo (traffic ingress) s s' ∧
    indexed s'.1 = indexed s.1 ∧ ∃ R, policy_inv (direction_scope (traffic ingress)) s'.1 R ∧
      follows e S (direction_attach d0).1 (direction_open ingress enabled) R.
Proof.
  intros EO HR Hpass Ss I Hrd.
  assert (HN : d0 = newL4DirectionPolicy → policy_inv (direction_scope (traffic ingress)) s.1 (direction_open ingress enabled) →
    ∃ s', direction_toMapState (at_selections e S) (direction_attach d0).1 s = inr s' ∧ stepped cinfo (traffic ingress) s s' ∧
    indexed s'.1 = indexed s.1 ∧ ∃ R, policy_inv (direction_scope (traffic ingress)) s'.1 R ∧
      follows e S (direction_attach d0).1 (direction_open ingress enabled) R).
  { intros -> Pol. exists s. split; [apply convert_nothing|]. split; [done|]. split; [done|].
    exists (direction_open ingress enabled). split; [done|apply nothing_follows]. }
  destruct enabled; [|by apply HN].
  destruct HR as [[_ ->]|[[Hs (need & Hn & Hle) Hr] (c & bases & pms & -> & HR)]]; [apply HN; [done|by apply fresh_policy]|].
  clear HN. destruct (resolved_maps ingress c rules need bases pms Hs Hn Hle Hr HR) as (out & AS & MS).
  eexists. split; [exact (direction_contribution (at_selections e S) out bases _ cinfo EO ingress rules AS pms MS s)|].
  set (css := direction_contributions _ _ _). set (fe := dir_features _) in Hpass.
  pose proof (css_ok (at_selections e S) cinfo EO ingress rules Hr bases out AS pms MS) as HC.
  pose proof (css_plain (at_selections e S) cinfo EO ingress rules Hr bases out AS pms MS Hpass) as Hp.
  pose proof (css_same (at_selections e S) cinfo EO ingress rules Hr bases out AS pms MS Hpass) as Hsm. fold css in HC, Hp, Hsm.
  destruct (contributions_frames cinfo (traffic ingress) bases out css HC fe s Hrd) as [F S1].
  split; [constructor; [done|by apply (plain_sinv cinfo (traffic ingress) rules bases out AS css HC fe s Hrd)|done]|].
  split; [by apply contributions_indexed|]. exists (map (plain_rule bases) (reverse css)).
  split; [by apply (contributions_policy cinfo (traffic ingress) rules bases out AS css HC)|].
  assert (HE : ∀ r, r ∈ map (plain_rule bases) (reverse css) ↔
    exact e S (direction_attach {| PortRules := pms; tierBasePriority := bases; dir_features := 0 |}).1 r).
  { intros r. rewrite (exact_contributions e cinfo S EO ingress rules Hr bases out AS pms MS), list_elem_of_In, in_map_iff.
    setoid_rewrite <- list_elem_of_In. setoid_rewrite elem_of_reverse. naive_solver. }
  constructor; intros r; rewrite HE; [|by right; left]. intros [Hr'|?]; [by apply elem_of_nil in Hr'|done].
Qed.

Context (Hports : ∀ ingress proto port l, LookupRedirectPort e ingress proto port l ≠ Some 0).
Context (ingressEnabled egressEnabled : bool) (rulesI rulesE : list PolicyEntry) (dI dE : L4DirectionPolicy).
Context (HI : direction_resolved true ingressEnabled rulesI dI) (HE : direction_resolved false egressEnabled rulesE dE).
Notation aI := (direction_attach dI).1.
Notation aE := (direction_attach dE).1.
Notation features := (Z.lor (dir_features aI) (dir_features aE)).
Context (Hpass : contains features passRules = false).

Definition opens (ingress : bool) : list rule := direction_open ingress (if ingress then ingressEnabled else egressEnabled).

Lemma endpoint_filters S : endpoint_ok (at_selections e S) cinfo → ∀ ingress,
  filters_ok e features ingress (opens ingress) (direction aI aE ingress).
Proof.
  intros EO [].
  - eapply followed; [by exists S|exact HI| |done]. intros mask Hm. by rewrite contains_lor, Hm.
  - eapply followed; [by exists S|exact HE| |done]. intros mask Hm. by rewrite contains_lor, Hm, orb_true_r.
Qed.

Lemma distill_follows ids S : endpoint_ok (at_selections e S) cinfo →
  ∃ ms, DistillPolicy (at_selections e S) ids cinfo ingressEnabled egressEnabled aI aE = inr ms ∧
    ∀ ch, old_ok ch → follows_state e cinfo aI aE opens S (ms, ch).
Proof.
  intros EO. unfold DistillPolicy. set (ms0 := newMapState ids features cinfo). set (ch := mkChangeState None None None).
  rewrite contains_lor in Hpass. apply orb_false_iff in Hpass as [PI PE].
  destruct (ready true ingressEnabled (ms0, ch) (fresh_new cinfo Ingress ids features)) as (P1 & Q1 & X1).
  set (s1 := (if ingressEnabled then _ else _, _)) in *.
  destruct (ready false egressEnabled s1) as (P2 & Q2 & X2); [by apply (fresh_frame _ _ Ingress (ms0, ch)); [|apply P1|apply fresh_new]|].
  set (s2 := (if egressEnabled then _ else _, _)) in *.
  pose proof (readied_stepped true ingressEnabled Egress s1 s2 ltac:(done) (sp_state _ _ _ _ P1) P2 Q1) as Q1'.
  destruct (convert_followed S true ingressEnabled rulesI dI s2) as (s3 & E3 & P3 & X3 & R3 & Pol3 & F3); try done; [apply P2|apply P2|].
  pose proof (readied_stepped false egressEnabled Ingress s2 s3 ltac:(done) (sp_state _ _ _ _ P2) P3 Q2) as Q2'.
  destruct (convert_followed S false egressEnabled rulesE dE s3) as (s4 & E4 & P4 & X4 & R4 & Pol4 & F4); try done; [apply P3|apply P3|].
  exists s4.1. split.
  - assert (Es : (if negb ingressEnabled || negb egressEnabled then allowAllIdentities ms0 (negb ingressEnabled) (negb egressEnabled)
      else ms0, ch) = s2).
    { rewrite allowAll_opened. unfold s2, s1. generalize (@opened TR). intros o. destruct ingressEnabled, egressEnabled; reflexivity. }
    rewrite Es, E3. cbn [sbind]. by rewrite E4.
  - intros ch' Hch. destruct P4 as [S4 I4 F4']. constructor.
    + destruct S4 as [A1 A2 A3 _]. by constructor.
    + cbn [fst]. rewrite X4, X3, X2, X1. unfold indexed, ms0, newMapState. cbn [fst byId].
      by destruct (contains features (Z.lor passRules namedPortRules)).
    + intros []; cbn [fst]; [exists R3|exists R4]; (split; [|done]); [|done].
      by apply (policy_stepped true Egress s3); [|apply P3|..].
Qed.

Lemma lookup_none_deny (ms : mapState TR) x v : lookup ms x = (v, false) → MapStateEntry_IsDeny v = true.
Proof. unfold lookup. intros E. repeat case_match; simplify_eq. done. Qed.

(** Lookups in states that follow the same selections agree. *)
Lemma follows_lookup S s s' x : follows_state e cinfo aI aE opens S s → follows_state e cinfo aI aE opens S s' → wf_key x →
  (lookup s.1 x).2 = (lookup s'.1 x).2 ∧ ((lookup s.1 x).2 = true → Precedence (lookup s.1 x).1 = Precedence (lookup s'.1 x).1).
Proof.
  intros [S1 _ H1] [S2 _ H2] Wx.
  assert (∃ ingress, TrafficDirection x = traffic ingress) as [ingress Dx].
  { destruct (TrafficDirection_range x (wf_lpm_ok x (wf_key_lpm x Wx))) as [E|E]; [by exists true|by exists false]. }
  destruct (H1 ingress) as (R & P & F), (H2 ingress) as (R' & P' & F').
  assert (HK : ∀ k : Key, TrafficDirection k = TrafficDirection x → direction_scope (traffic ingress) k) by (intros k E; unfold direction_scope; congruence).
  pose proof (lookup_decides _ _ _ x HK P Wx) as D. pose proof (lookup_decides _ _ _ x HK P' Wx) as D'.
  rewrite (st_cinfo _ _ _ _ S1) in D. rewrite (st_cinfo _ _ _ _ S2) in D'.
  apply (decides_agree cinfo R R' x); [by apply (follows_cover e cinfo S _ _ _ _ x F F')|by apply (follows_cover e cinfo S _ _ _ _ x F' F)|done|done].
Qed.

Context {SM : SelectionsMap} {GS : GoSort}.

End distill.

(** ** A run *)

Module Examples.
#[local] Existing Instances range_elements sort_by_insertion http_keys.

Definition cluster : ClusterInfo := mkClusterInfo 1 "local" 255.

(** The clients are identity 300 first, then 301. *)
Definition clients (id : Z) (cs : string) : list Z :=
  if bool_decide (cs = "client") then [id] else if bool_decide (cs = EmptyString) then [1; id; 400] else [].

Definition endpoint : EndpointContext := mkEndpoint (λ _, []) (λ _ _ _ _, Some 10000) (λ _ _, 0) (λ _ _ _, []).

Lemma incremental_example_ok id : id = 300 ∨ id = 301 → endpoint_ok (at_selections endpoint (clients id)) cluster.
Proof.
  intros Hid. constructor; cbn.
  - done.
  - done.
  - intros cs i. unfold clients. repeat case_bool_decide; rewrite ?elem_of_cons, ?elem_of_nil; intros Hin;
      repeat destruct Hin as [->|Hin]; try done; destruct Hid as [->|Hid]; subst; by vm_compute.
  - intros cs i. unfold clients. repeat case_bool_decide; subst; try done; rewrite ?elem_of_cons, ?elem_of_nil; tauto.
  - intros. by exists 10000.
  - done.
  - by intros name proto ids i port ?%elem_of_nil.
  - by intros name proto ids ids' i port ?%elem_of_nil.
Qed.

Definition http_direction_policy : L4DirectionPolicy :=
  match http_resolved with inr (bases, pms) => mkDirection pms bases 0 | inl _ => newL4DirectionPolicy end.

Notation aI := (direction_attach http_direction_policy).1.
Notation aE := (direction_attach newL4DirectionPolicy).1.

Definition http_filter : L4Filter :=
  default (mkL4Filter 0 0 0 0 "" "" None ∅ false ∅) (head (L4PolicyMaps_Filters (PortRules aI))).

Lemma http_filters : L4PolicyMaps_Filters (PortRules aI) = [http_filter].
Proof. vm_compute. reflexivity. Qed.

Lemma http_policy ingress f cs pol : policy_of (direction aI aE ingress) f cs pol → ingress = true ∧ f = http_filter ∧ cs = "client".
Proof.
  destruct ingress; [|by intros ?%no_policy]. intros [Hf Hp]. cbn [direction] in Hf. rewrite http_filters in Hf.
  apply list_elem_of_singleton in Hf as ->. split; [done|]. split; [done|].
  assert (ED : dom (PerSelectorPolicies http_filter) = {[ "client" ]}) by (vm_compute; reflexivity).
  apply elem_of_dom_2 in Hp. rewrite ED in Hp. by apply elem_of_singleton in Hp.
Qed.

Lemma http_policy_client : ∃ pol, policy_of (direction aI aE true) http_filter "client" pol.
Proof.
  destruct (PerSelectorPolicies http_filter !! "client") as [pol|] eqn:E; [|vm_compute in E; discriminate].
  exists pol. split; [|done]. cbn [direction]. rewrite http_filters. by left.
Qed.

(** Identity 301 replaces 300. *)
Definition replaced : notification := mkNotification http_filter "client" [301] [300].

Lemma replaced_ok : transaction_ok aI aE (clients 300) (clients 301) [replaced].
Proof.
  constructor.
  - intros n ->%list_elem_of_singleton. exists true. apply http_policy_client.
  - intros n id ->%list_elem_of_singleton. cbn [n_added n_selector replaced]. unfold clients. rewrite bool_decide_true by done. set_solver by lia.
  - intros n id ->%list_elem_of_singleton. cbn [n_deleted n_selector replaced]. unfold clients. rewrite bool_decide_true by done. set_solver by lia.
  - intros ingress f cs pol id (_ & -> & ->)%http_policy _. exists replaced. split; [by left|done].
  - intros cs cs' id. unfold clients. repeat case_bool_decide; rewrite ?elem_of_cons, ?elem_of_nil; intros; lia.
Qed.

Definition demo_txn : SelectorSnapshot demo_selections := demo_snapshot 4.

(** The new client may connect, the old one may not any more. *)
Definition client_flow (id : Z) : Key := WithTCPPort (WithIdentity IngressKey id) 85.

Lemma client_flow_wf id : is_uint 32 id → wf_key (client_flow id).
Proof.
  intros Hid. apply (WithPortProtoPrefix_wf (WithIdentity IngressKey id) 6 85 16); [|by vm_compute..].
  apply WithIdentity_wf; [|done]. repeat split; vm_compute; congruence.
Qed.


(** The same run, evaluated. *)
Lemma replaced_run :
  let run := ms <~ DistillPolicy (TR := bitlpm) (at_selections endpoint (clients 300)) ∅ cluster true false aI aE;;
             each (ep_step (SM := demo_selections) endpoint aI aE) (new_EndpointPolicy (demo_snapshot 3) ms)
               [EvTransaction [replaced] demo_txn; EvConsume demo_txn] in
  match run with
  | inr p => MapStateEntry_IsDeny (lookup (policyMapState p) (client_flow 300)).1 = true ∧
             MapStateEntry_IsDeny (lookup (policyMapState p) (client_flow 301)).1 = false
  | inl _ => False
  end.
Proof. vm_compute. split; reflexivity. Qed.
End Examples.
