(* ===== verification/Text.v ===== *)
(** * Text

    Strings as lists of bytes, and the functions of Go's [strings] package that split them. *)

From Stdlib Require Import Ascii.
From S2P Require Import Prelude.

Notation text := (list ascii).
Notation of_string := String.list_ascii_of_string.
Notation to_string := String.string_of_list_ascii.

Definition code (c : ascii) : Z := Z.of_nat (nat_of_ascii c).
Definition chr (n : Z) : ascii := ascii_of_nat (Z.to_nat n).

(** Splits a text at the first character of a kind; the character is dropped. *)
Fixpoint cut_at (p : ascii) (s : text) : option (text * text) :=
  match s with
  | [] => None
  | c :: s => if bool_decide (c = p) then Some ([], s) else (λ x, (c :: x.1, x.2)) <$> cut_at p s
  end.

(** Splits a text at the last character of a kind. *)
Fixpoint cut_last (p : ascii) (s : text) : option (text * text) :=
  match s with
  | [] => None
  | c :: s =>
      match cut_last p s with
      | Some (a, b) => Some (c :: a, b)
      | None => if bool_decide (c = p) then Some ([], s) else None
      end
  end.

(** [strings.IndexByte] with the text before and after the byte. *)
Definition cut (c : ascii) (s : string) : option (string * string) :=
  (λ x, (to_string x.1, to_string x.2)) <$> cut_at c (of_string s).

(** [strings.ReplaceAll] of a byte. *)
Definition replace_all (a b : ascii) (s : text) : text := map (λ c, if bool_decide (c = a) then b else c) s.

(** [strings.Split] at a byte. *)
Fixpoint split_text (c : ascii) (s : text) : list text :=
  match s with
  | [] => [[]]
  | x :: s =>
      if bool_decide (x = c) then [] :: split_text c s
      else match split_text c s with
           | [] => [[x]]
           | w :: ws => (x :: w) :: ws
           end
  end.

Definition Split (s : string) (c : ascii) : list string := map to_string (split_text c (of_string s)).

(** ** Lemmas *)

Lemma of_to_string s : of_string (to_string s) = s.
Proof. apply String.list_ascii_of_string_of_list_ascii. Qed.

Lemma to_of_string s : to_string (of_string s) = s.
Proof. apply String.string_of_list_ascii_of_string. Qed.

#[export] Instance of_string_inj : Inj eq eq of_string.
Proof. intros s s' E. by rewrite <- (to_of_string s), E, to_of_string. Qed.

Lemma of_string_app (a b : string) : of_string (a +:+ b) = of_string a ++ of_string b.
Proof. induction a as [|c a IH]; [done|]. exact (f_equal (cons c) IH). Qed.

Lemma to_string_app a b : to_string (a ++ b) = to_string a +:+ to_string b.
Proof. apply (inj of_string). by rewrite of_string_app, !of_to_string. Qed.

Lemma cut_at_app c a b : c ∉ a → cut_at c (a ++ c :: b) = Some (a, b).
Proof.
  induction a as [|x a IH]; intros Hn; cbn.
  - by rewrite bool_decide_eq_true_2.
  - rewrite not_elem_of_cons in Hn. destruct Hn as [Hx Ha]. rewrite bool_decide_eq_false_2 by done. by rewrite IH.
Qed.

Lemma cut_at_None c a : c ∉ a → cut_at c a = None.
Proof.
  induction a as [|x a IH]; intros Hn; cbn; [done|].
  rewrite not_elem_of_cons in Hn. destruct Hn as [Hx Ha]. rewrite bool_decide_eq_false_2 by done. by rewrite IH.
Qed.

Lemma cut_app c (a b : string) : c ∉ of_string a → cut c (a +:+ String c b) = Some (a, b).
Proof.
  intros Hn. unfold cut. rewrite of_string_app. cbn. rewrite cut_at_app by done. cbn. by rewrite !to_of_string.
Qed.

Lemma cut_None c (a : string) : c ∉ of_string a → cut c a = None.
Proof. intros Hn. unfold cut. by rewrite cut_at_None. Qed.

Lemma cut_last_None c a : c ∉ a → cut_last c a = None.
Proof.
  induction a as [|x a IH]; intros Hn; cbn; [done|].
  rewrite not_elem_of_cons in Hn. destruct Hn as [Hx Ha]. rewrite IH by done. by rewrite bool_decide_eq_false_2.
Qed.

Lemma cut_last_app c a b : c ∉ b → cut_last c (a ++ c :: b) = Some (a, b).
Proof.
  intros Hn. induction a as [|x a IH]; cbn; [|by rewrite IH]. rewrite cut_last_None by done. by rewrite bool_decide_eq_true_2.
Qed.

Lemma split_text_nonempty c s : split_text c s ≠ [].
Proof. destruct s as [|x s]; cbn; [done|]. case_bool_decide; [done|]. by destruct (split_text c s). Qed.

Lemma split_text_app c a b : c ∉ a → split_text c (a ++ c :: b) = a :: split_text c b.
Proof.
  induction a as [|x a IH]; intros Hn; cbn.
  - by rewrite bool_decide_eq_true_2.
  - rewrite not_elem_of_cons in Hn. destruct Hn as [Hx Ha]. rewrite bool_decide_eq_false_2 by done. by rewrite IH.
Qed.

Lemma split_text_one c a : c ∉ a → split_text c a = [a].
Proof.
  induction a as [|x a IH]; intros Hn; cbn; [done|].
  rewrite not_elem_of_cons in Hn. destruct Hn as [Hx Ha]. rewrite bool_decide_eq_false_2 by done. by rewrite IH.
Qed.

Lemma replace_all_app a b s t : replace_all a b (s ++ t) = replace_all a b s ++ replace_all a b t.
Proof. apply map_app. Qed.

Lemma replace_all_id a b s : a ∉ s → replace_all a b s = s.
Proof.
  induction s as [|c s IH]; intros Hn; [done|]. rewrite not_elem_of_cons in Hn. destruct Hn as [Hc Hs].
  unfold replace_all in *. cbn. rewrite bool_decide_eq_false_2 by done. by rewrite IH.
Qed.
