(* ===== verification/Netip.v ===== *)
(** * IP addresses and prefixes

    The part of Go's [net/netip] that labels and selectors use: addresses, prefixes, their
    text form and containment. *)

From Stdlib Require Import Ascii.
From stdpp Require Import pretty.
From S2P Require Import Prelude Text.

Local Open Scope Z_scope.

(** ** Addresses *)

(** A 32-bit address, or a 128-bit address with a zone. *)
Inductive Addr := V4 (a : Z) | V6 (a : Z) (zone : text).

#[export] Instance Addr_eq_dec : EqDecision Addr.
Proof. solve_decision. Defined.

Definition Is4 (a : Addr) : bool := match a with V4 _ => true | V6 _ _ => false end.
Definition Is6 (a : Addr) : bool := negb (Is4 a).
Definition BitLen (a : Addr) : Z := if Is4 a then 32 else 128.
Definition hasZone (a : Addr) : bool := match a with V4 _ => false | V6 _ z => bool_decide (z ≠ []) end.
Definition addr_word (a : Addr) : Z := match a with V4 w => w | V6 w _ => w end.

(** An IPv4 address mapped into IPv6. *)
Definition Is4In6 (w : Z) : bool := Z.shiftr w 32 =? 65535.

(** ** Parsing *)

Definition decval (c : ascii) : option Z :=
  let n := code c in if (48 <=? n) && (n <=? 57) then Some (n - 48) else None.

Definition hexval (c : ascii) : option Z :=
  let n := code c in
  if (48 <=? n) && (n <=? 57) then Some (n - 48)
  else if (97 <=? n) && (n <=? 102) then Some (n - 97 + 10)
  else if (65 <=? n) && (n <=? 70) then Some (n - 65 + 10)
  else None.

(** [parseIPv4Fields]: the four bytes.  [dot] is whether no digit of the current field was
    seen yet, which is the case at the start and after a dot. *)
Fixpoint parseIPv4Fields (val digLen : Z) (dot : bool) (fields : list Z) (s : text) : option (list Z) :=
  match s with
  | [] => if (length fields <? 3)%nat then None else Some (fields ++ [val])
  | c :: s =>
      match decval c with
      | Some d =>
          if (digLen =? 1) && (val =? 0) then None
          else if 255 <? val * 10 + d then None
          else parseIPv4Fields (val * 10 + d) (digLen + 1) false fields s
      | None =>
          if bool_decide (c = "."%char) then
            if dot || bool_decide (s = []) then None
            else if (length fields =? 3)%nat then None
            else parseIPv4Fields 0 0 true (fields ++ [val]) s
          else None
      end
  end.

Definition parseIPv4 (s : text) : option (list Z) := parseIPv4Fields 0 0 true [] s.

(** The word of some parts of [w] bits, the first one highest. *)
Definition join (w : Z) (parts : list Z) : Z := foldl (λ acc p, Z.lor (Z.shiftl acc w) p) 0 parts.

(** One group of hexadecimal digits: its value, how many digits it has and what follows. *)
Fixpoint hex_group (off acc : Z) (s : text) : option (Z * Z * text) :=
  match s with
  | [] => Some (acc, off, [])
  | c :: s' =>
      match hexval c with
      | None => Some (acc, off, s)
      | Some d =>
          let acc := acc * 16 + d in
          if 3 <? off then None
          else if 65535 <? acc then None
          else hex_group (off + 1) acc s'
      end
  end.

(** The loop of [parseIPv6]: what is left of the text, the groups and where the ellipsis is.
    The fuel is the number of groups that fit. *)
Fixpoint parse_groups (fuel : nat) (groups : list Z) (ellipsis : option nat) (s : text) : option (text * list Z * option nat) :=
  match fuel with
  | O => Some (s, groups, ellipsis)
  | S fuel =>
      match hex_group 0 0 s with
      | None => None
      | Some (acc, off, rest) =>
          if off =? 0 then None
          else match rest with
          | [] => Some ([], groups ++ [acc], ellipsis)
          | c :: s1 =>
              if bool_decide (c = "."%char) then
                if bool_decide (ellipsis = None) && negb (length groups =? 6)%nat then None
                else if (8 <? length groups + 2)%nat then None
                else match parseIPv4 s with
                     | Some [a; b; c; d] => Some ([], groups ++ [a * 256 + b; c * 256 + d], ellipsis)
                     | _ => None
                     end
              else if bool_decide (c = ":"%char) then
                let groups := groups ++ [acc] in
                match s1 with
                | [] => None
                | c1 :: s2 =>
                    if bool_decide (c1 = ":"%char) then
                      match ellipsis with
                      | Some _ => None
                      | None =>
                          if bool_decide (s2 = []) then Some ([], groups, Some (length groups))
                          else parse_groups fuel groups (Some (length groups)) s2
                      end
                    else parse_groups fuel groups ellipsis s1
                end
              else None
          end
      end
  end.

(** The groups with the ellipsis filled in. *)
Definition expand (groups : list Z) (ellipsis : option nat) : option (list Z) :=
  if (length groups <? 8)%nat then
    match ellipsis with
    | None => None
    | Some i => Some (take i groups ++ replicate (8 - length groups) 0 ++ drop i groups)
    end
  else if bool_decide (ellipsis = None) then Some groups else None.

Definition parseIPv6 (s : text) : option Addr :=
  match (match cut_at "%" s with
         | None => Some (s, [])
         | Some (s, zone) => if bool_decide (zone = []) then None else Some (s, zone)
         end) with
  | None => None
  | Some (s, zone) =>
      let start :=
        match s with
        | c :: c' :: s' => if bool_decide (c = ":"%char) && bool_decide (c' = ":"%char) then (s', Some 0%nat) else (s, None)
        | _ => (s, None)
        end in
      if bool_decide (start.1 = []) && bool_decide (start.2 = Some 0%nat) then Some (V6 0 zone)
      else match parse_groups 8 [] start.2 start.1 with
           | Some ([], groups, ellipsis) => (λ l, V6 (join 16 l) zone) <$> expand groups ellipsis
           | _ => None
           end
  end.

(** [ParseAddr] goes by the first separator. *)
Fixpoint addr_kind (s : text) : option bool :=
  match s with
  | [] => None
  | c :: s =>
      if bool_decide (c = "."%char) then Some true
      else if bool_decide (c = ":"%char) then Some false
      else if bool_decide (c = "%"%char) then None
      else addr_kind s
  end.

Definition ParseAddr (s : text) : option Addr :=
  match addr_kind s with
  | Some true => (λ l, V4 (join 8 l)) <$> parseIPv4 s
  | Some false => parseIPv6 s
  | None => None
  end.

(** ** Prefixes *)

Record Prefix := mkPrefix { pfx_Addr : Addr; pfx_Bits : Z }.

#[export] Instance Prefix_eq_dec : EqDecision Prefix.
Proof. solve_decision. Defined.

(** The digits of a number without sign. *)
Fixpoint decimal (acc : Z) (s : text) : option Z :=
  match s with
  | [] => Some acc
  | c :: s => match decval c with Some d => decimal (acc * 10 + d) s | None => None end
  end.

Definition parse_bits (s : text) : option Z :=
  match s with
  | [] => None
  | [c] => decval c
  | c :: _ => match decval c with Some d => if d =? 0 then None else decimal 0 s | None => None end
  end.

Definition ParsePrefix (s : text) : option Prefix :=
  match cut_last "/" s with
  | None => None
  | Some (addr, bits) =>
      match ParseAddr addr with
      | None => None
      | Some ip =>
          if hasZone ip then None
          else match parse_bits bits with
               | None => None
               | Some n => if n <=? BitLen ip then Some (mkPrefix ip n) else None
               end
      end
  end.

(** The word without its bits past the prefix. *)
Definition mask_word (len bits w : Z) : Z := Z.shiftl (Z.shiftr w (len - bits)) (len - bits).

Definition Masked (p : Prefix) : Prefix :=
  match pfx_Addr p with
  | V4 w => mkPrefix (V4 (mask_word 32 (pfx_Bits p) w)) (pfx_Bits p)
  | V6 w _ => mkPrefix (V6 (mask_word 128 (pfx_Bits p) w) []) (pfx_Bits p)
  end.

Definition Prefix_Contains (p : Prefix) (ip : Addr) : bool :=
  negb (hasZone ip) && bool_decide (Is4 (pfx_Addr p) = Is4 ip) &&
  (Z.shiftr (Z.lxor (addr_word ip) (addr_word (pfx_Addr p))) (BitLen ip - pfx_Bits p) =? 0).

(** ** Printing *)

Definition hexdigit (d : Z) : ascii := chr (if d <? 10 then 48 + d else 87 + d).

Definition appendDecimal (x : Z) : text :=
  (if 100 <=? x then [hexdigit (x / 100)] else []) ++
  (if 10 <=? x then [hexdigit (x / 10 mod 10)] else []) ++ [hexdigit (x mod 10)].

Definition appendHex (x : Z) : text :=
  (if 4096 <=? x then [hexdigit (Z.shiftr x 12)] else []) ++
  (if 256 <=? x then [hexdigit (Z.land (Z.shiftr x 8) 15)] else []) ++
  (if 16 <=? x then [hexdigit (Z.land (Z.shiftr x 4) 15)] else []) ++ [hexdigit (Z.land x 15)].

(** The parts of a word. *)
Definition split (n : nat) (w word : Z) : list Z :=
  map (λ i, Z.land (Z.shiftr word (w * Z.of_nat (n - 1 - i))) (Z.ones w)) (seq 0 n).

Definition string4 (w : Z) : text :=
  match split 4 8 w with
  | [a; b; c; d] => appendDecimal a ++ ["."%char] ++ appendDecimal b ++ ["."%char] ++ appendDecimal c ++ ["."%char] ++ appendDecimal d
  | _ => []
  end.

(** How many zero groups a list starts with. *)
Fixpoint zero_run (l : list Z) : nat :=
  match l with
  | [] => 0%nat
  | x :: l => if x =? 0 then S (zero_run l) else 0%nat
  end.

(** The first longest run of at least two zero groups: its start and its end, both 255 when
    there is none. *)
Fixpoint longest_run (i : nat) (best : nat * nat) (l : list Z) : nat * nat :=
  match l with
  | [] => best
  | x :: l' =>
      let n := zero_run l in
      longest_run (S i) (if (2 <=? n)%nat && (best.2 - best.1 <? n)%nat then (i, i + n)%nat else best) l'
  end.

(** The loop of [appendTo6] from group [i]. *)
Fixpoint print_groups (zeroStart zeroEnd : nat) (skip i : nat) (l : list Z) : text :=
  match l with
  | [] => []
  | x :: l =>
      if (i <? skip)%nat then print_groups zeroStart zeroEnd skip (S i) l
      else if (i =? zeroStart)%nat then [":"; ":"]%char ++ print_groups zeroStart zeroEnd zeroEnd (S i) l
      else (if negb (i =? 0)%nat && negb (i =? zeroEnd)%nat then [":"%char] else []) ++ appendHex x ++
           print_groups zeroStart zeroEnd skip (S i) l
  end.

Definition string6 (w : Z) : text :=
  let l := split 8 16 w in
  let '(zeroStart, zeroEnd) := longest_run 0 (255, 255)%nat l in
  print_groups zeroStart zeroEnd 0 0 l.

Definition string4In6 (w : Z) : text := of_string "::ffff:" ++ string4 (Z.land w (Z.ones 32)).

Definition Addr_String (a : Addr) : text :=
  match a with
  | V4 w => string4 w
  | V6 w zone =>
      (if Is4In6 w then string4In6 w else string6 w) ++ (if bool_decide (zone = []) then [] else "%"%char :: zone)
  end.

Definition Itoa (n : Z) : text := of_string (pretty (Z.to_N n)).

Definition Prefix_String (p : Prefix) : text := Addr_String (pfx_Addr p) ++ ["/"%char] ++ Itoa (pfx_Bits p).

(** ** Digits *)

(** Checking a property of the numbers below a bound. *)
Lemma below_check (n : nat) (P : Z → bool) : forallb P (map Z.of_nat (seq 0 n)) = true → ∀ d, 0 ≤ d < Z.of_nat n → P d = true.
Proof.
  rewrite List.forallb_forall. intros H d Hd. apply H. apply in_map_iff. exists (Z.to_nat d). split; [lia|]. apply in_seq. lia.
Qed.

Lemma hexval_digit d : 0 ≤ d < 16 → hexval (hexdigit d) = Some d.
Proof.
  intros Hd. pose proof (below_check 16 (λ d, bool_decide (hexval (hexdigit d) = Some d)) ltac:(by vm_compute) d ltac:(lia)) as H.
  by apply bool_decide_eq_true in H.
Qed.

Lemma decval_digit d : 0 ≤ d < 10 → decval (hexdigit d) = Some d.
Proof.
  intros Hd. pose proof (below_check 10 (λ d, bool_decide (decval (hexdigit d) = Some d)) ltac:(by vm_compute) d ltac:(lia)) as H.
  by apply bool_decide_eq_true in H.
Qed.

(** A character that ends a group. *)
Definition stops (s : text) : Prop := match s with [] => True | c :: _ => hexval c = None end.
Definition not_decimal (s : text) : Prop := match s with [] => True | c :: _ => decval c = None end.

Lemma hex_group_stop off acc s : stops s → hex_group off acc s = Some (acc, off, s).
Proof. destruct s as [|c s]; cbn; [done|]. by intros ->. Qed.

Lemma hex_group_digit off acc d s : 0 ≤ d < 16 → off ≤ 3 → acc * 16 + d ≤ 65535 →
  hex_group off acc (hexdigit d :: s) = hex_group (off + 1) (acc * 16 + d) s.
Proof.
  intros Hd Ho Ha. cbn. rewrite hexval_digit by done. destruct (Z.ltb_spec 3 off); [lia|]. by destruct (Z.ltb_spec 65535 (acc * 16 + d)); [lia|].
Qed.

(** The hexadecimal digits of a 16-bit word. *)
Lemma appendHex_digits x : 0 ≤ x < 65536 →
  appendHex x = (if 4096 <=? x then [hexdigit (x / 4096)] else []) ++ (if 256 <=? x then [hexdigit (x / 256 mod 16)] else []) ++
    (if 16 <=? x then [hexdigit (x / 16 mod 16)] else []) ++ [hexdigit (x mod 16)].
Proof.
  intros Hx. unfold appendHex. change 15 with (Z.ones 4). rewrite !Z.land_ones, !Z.shiftr_div_pow2 by lia. done.
Qed.

Lemma hex_group_append x s : 0 ≤ x < 65536 → stops s → ∃ off, 0 < off ∧ hex_group 0 0 (appendHex x ++ s) = Some (x, off, s).
Proof.
  intros Hx Hs. rewrite appendHex_digits by done.
  destruct (Z.leb_spec 4096 x); [|destruct (Z.leb_spec 256 x); [|destruct (Z.leb_spec 16 x)]].
  1: destruct (Z.leb_spec 256 x); [|lia]; destruct (Z.leb_spec 16 x); [|lia]; exists 4.
  2: destruct (Z.leb_spec 16 x); [|lia]; exists 3.
  3: exists 2. 4: exists 1.
  all: split; [lia|]; cbn [app].
  all: rewrite !hex_group_digit by dlia; rewrite hex_group_stop by done;
    match goal with |- Some (?a, _, _) = _ => replace a with x by dlia; done end.
Qed.

Lemma appendHex_head x : 0 ≤ x < 65536 → ∃ d s, appendHex x = hexdigit d :: s ∧ 0 ≤ d < 16.
Proof.
  intros Hx. rewrite appendHex_digits by done.
  destruct (Z.leb_spec 4096 x); [|destruct (Z.leb_spec 256 x); [|destruct (Z.leb_spec 16 x)]]; cbn [app]; eexists _, _; split; try done; dlia.
Qed.
