(* ===== verification/Labels.v ===== *)
(** * Labels

    Model of [src/pkg/labels]: labels, sets and arrays of labels, their text forms and the
    labels of CIDRs ([labels.go], [array.go], [cidr.go]). *)

From Stdlib Require Import Ascii.
From S2P Require Import Prelude Text Netip.

Local Open Scope string_scope.

Definition SourceDelimiter : ascii := ":".

Definition LabelSourceUnspec : string := "unspec".
Definition LabelSourceAny : string := "any".
Definition LabelSourceK8s : string := "k8s".
Definition LabelSourceReserved : string := "reserved".
Definition LabelSourceCIDR : string := "cidr".

Definition IDNameHost : string := "host".
Definition IDNameRemoteNode : string := "remote-node".
Definition IDNameWorld : string := "world".
Definition IDNameWorldIPv4 : string := "world-ipv4".
Definition IDNameWorldIPv6 : string := "world-ipv6".
Definition IDNameInit : string := "init".

(** ** Strings *)

(** The order of Go's strings. *)
Definition string_lt (a b : string) : bool := match String.compare a b with Lt => true | _ => false end.

(** ** Labels *)

Record Label := mkLabel {
  lbl_Key : string;
  lbl_Value : string;
  lbl_Source : string;
  lbl_cidr : option Prefix;
}.

#[export] Instance Label_eq_dec : EqDecision Label.
Proof. solve_decision. Defined.

(** The settings that labels depend on. *)
Record LabelConfig := mkLabelConfig { EnableIPv4 : bool; EnableIPv6 : bool }.

Definition keyToPrefix (key : string) : option Prefix := ParsePrefix (replace_all "-" ":" (of_string key)).

(** The label with its prefix parsed when it is a CIDR label. *)
Definition parse_cidr (key value source : string) : Label :=
  mkLabel key value source (if bool_decide (source = LabelSourceCIDR) then keyToPrefix key else None).

Definition parseSource (str : string) (delim : ascii) : string * string :=
  match str with
  | EmptyString => ("", "")
  | String c s =>
      if bool_decide (c = "$"%char) then (LabelSourceReserved, s)
      else match cut delim str with
           | None => ("", str)
           | Some (src, next) => (src, next)
           end
  end.

Definition NewLabel (key value source : string) : Label :=
  let '(src, key) := parseSource key SourceDelimiter in
  let source := if bool_decide (source = "") then (if bool_decide (src = "") then LabelSourceUnspec else src) else source in
  let '(key, value) := if bool_decide (src = LabelSourceReserved) && bool_decide (key = "") then (value, "") else (key, value) in
  parse_cidr key value source.

Definition IsAnySource (l : Label) : bool := bool_decide (lbl_Source l = LabelSourceAny).
Definition IsReservedSource (l : Label) : bool := bool_decide (lbl_Source l = LabelSourceReserved).

Definition Label_Equals (l b : Label) : bool :=
  if negb (IsAnySource l) && bool_decide (lbl_Source l ≠ lbl_Source b) then false
  else bool_decide (lbl_Key l = lbl_Key b) && bool_decide (lbl_Value l = lbl_Value b).

(** The prefix of a CIDR label, from its key when it was not parsed. *)
Definition label_prefix (l : Label) : option Prefix :=
  match lbl_cidr l with Some p => Some p | None => keyToPrefix (lbl_Key l) end.

Definition HasKey (l target : Label) : bool :=
  if negb (IsAnySource target) && bool_decide (lbl_Source l ≠ lbl_Source target) then false
  else if bool_decide (lbl_Source target = LabelSourceCIDR) && bool_decide (lbl_Source l = LabelSourceCIDR) then
    match label_prefix target, label_prefix l with
    | Some tc, Some lc => (pfx_Bits tc <=? pfx_Bits lc)%Z && Prefix_Contains tc (pfx_Addr lc)
    | _, _ => false
    end
  else bool_decide (lbl_Key l = lbl_Key target).

Definition Label_Has (l target : Label) : bool := HasKey l target && bool_decide (lbl_Value l = lbl_Value target).

Definition Label_String (l : Label) : string :=
  lbl_Source l ++ ":" ++ lbl_Key l ++ (if bool_decide (lbl_Value l = "") then "" else "=" ++ lbl_Value l).

Definition GetExtendedKey (l : Label) : string := lbl_Source l ++ ":" ++ lbl_Key l.

Definition parseLabel (str : string) (delim : ascii) : Label :=
  let '(src, next) := parseSource str delim in
  let source := if bool_decide (src = "") then LabelSourceUnspec else src in
  let '(key, value) :=
    match cut "=" next with
    | None => (next, "")
    | Some (k, v) => if bool_decide (k = "") && bool_decide (src = LabelSourceReserved) then (v, "") else (k, v)
    end in
  parse_cidr key value source.

Definition ParseLabel (str : string) : Label := parseLabel str SourceDelimiter.

Definition set_source (source : string) (l : Label) : Label := mkLabel (lbl_Key l) (lbl_Value l) source (lbl_cidr l).

Definition parseSelectLabel (str : string) (delim : ascii) : Label :=
  let lbl := parseLabel str delim in
  if bool_decide (lbl_Source lbl = LabelSourceUnspec) then set_source LabelSourceAny lbl else lbl.

Definition ParseSelectLabel (str : string) : Label := parseSelectLabel str SourceDelimiter.

Definition NewSourceEncodedLabelKey (sourcePrefix key : string) : string :=
  let '(src, next) := parseSource key SourceDelimiter in
  if bool_decide (src = "") then sourcePrefix ++ next else src ++ ":" ++ next.

Definition CIDRGroupEncodedSep : string := "+".

Definition EncodedCIDRGroupLabel (key val source : string) : Label :=
  mkLabel (key ++ CIDRGroupEncodedSep ++ val) "" source None.

Definition formatForKVStore (l : Label) : string :=
  lbl_Source l ++ ":" ++ lbl_Key l ++ "=" ++ lbl_Value l ++ ";".

(** ** Sets of labels *)

Definition Labels : Type := gmap string Label.

Definition HasLabelWithKey (l : Labels) (key : string) : bool := bool_decide (is_Some (l !! key)).
Definition HasHostLabel (l : Labels) : bool := HasLabelWithKey l IDNameHost.
Definition HasRemoteNodeLabel (l : Labels) : bool := HasLabelWithKey l IDNameRemoteNode.
Definition HasWorldLabel (l : Labels) : bool :=
  HasLabelWithKey l IDNameWorld || HasLabelWithKey l IDNameWorldIPv4 || HasLabelWithKey l IDNameWorldIPv6.

Definition same_label (a b : Label) : bool :=
  bool_decide (lbl_Source a = lbl_Source b) && bool_decide (lbl_Key a = lbl_Key b) && bool_decide (lbl_Value a = lbl_Value b).

Definition Labels_Equals (l other : Labels) : bool :=
  bool_decide (size l = size other) &&
  forallb (λ x, match other !! x.1 with Some b => same_label x.2 b | None => false end) (map_to_list l).

Definition GetFromSource (l : Labels) (source : string) : Labels := filter (λ x, lbl_Source x.2 = source) l.
Definition RemoveFromSource (l : Labels) (source : string) : Labels := filter (λ x, lbl_Source x.2 ≠ source) l.

Definition Labels_Contains (l needed : Labels) : bool :=
  forallb (λ x, match l !! x.1 with Some lbl => Label_Has lbl x.2 | None => false end) (map_to_list needed).

Definition FromSlice (labels : list Label) : Labels := foldl (λ m l, <[lbl_Key l := l]> m) ∅ labels.
Definition ParseLabels (labels : list string) : Labels := FromSlice (map ParseLabel labels).

Definition NewLabelsFromModel (base : list string) : Labels :=
  FromSlice (base ≫= λ v, let lbl := ParseLabel v in if bool_decide (lbl_Key lbl = "") then [] else [lbl]).

Definition NewLabelsFromSortedList (list : string) : Labels := NewLabelsFromModel (Split list ";").

Definition MergeLabels (l from : Labels) : Labels := from ∪ l.
Definition NewFrom (ll : list Labels) : Labels := foldl MergeLabels ∅ ll.
Definition Labels_Remove (l from : Labels) : Labels := filter (λ x, from !! x.1 = None) l.

Definition HasSource (l : Labels) (source : string) : bool :=
  existsb (λ x, bool_decide (lbl_Source x.2 = source)) (map_to_list l).
Definition CollectSources (l : Labels) : gset string := list_to_set (map (λ x, lbl_Source x.2) (map_to_list l)).

(** The keys in order. *)
Definition sorted_keys {GS : GoSort} {A} (l : gmap string A) : list string := sort_by String.le (map fst (map_to_list l)).

Definition SortedList {GS : GoSort} (l : Labels) : string :=
  String.concat "" (map (λ k, from_option formatForKVStore "" (l !! k)) (sorted_keys l)).

(** ** Arrays of labels *)

Definition LabelArray : Type := list Label.

Section array.
Context {GS : GoSort}.
Implicit Types (ls needed : LabelArray).

Definition key_le (a b : Label) : Prop := String.le (lbl_Key a) (lbl_Key b).

#[export] Instance key_le_dec a b : Decision (key_le a b).
Proof. apply _. Defined.

Definition Sort ls : LabelArray := sort_by key_le ls.

(** [LabelArray.Labels]. *)
Definition LabelArray_Labels ls : Labels := FromSlice ls.

Definition LabelArray_LookupLabel ls (keyLabel : Label) : string * bool :=
  match List.find (λ l, HasKey l keyLabel) ls with
  | Some l => (lbl_Value l, true)
  | None => ("", false)
  end.

Definition LabelArray_Has ls (key : string) : bool := (LabelArray_LookupLabel ls (ParseSelectLabel key)).2.
Definition LabelArray_Get ls (key : string) : string := (LabelArray_LookupLabel ls (ParseSelectLabel key)).1.

Definition LabelArray_Contains ls needed : bool := forallb (λ n, existsb (λ l, Label_Has l n) ls) needed.

Definition IntersectsLabel ls (target : Label) : bool := existsb (λ l, Label_Has l target) ls.
Definition Intersects ls needed : bool := existsb (IntersectsLabel ls) needed.

(** The loop of [Lacks] over [ls] for one needed label, from index [l] of [ls]: whether it is
    found, [None] when the index of [needed] is out of range. *)
Fixpoint lacks_scan (l : nat) ls needed : option bool :=
  match ls with
  | [] => Some false
  | x :: ls => match needed !! l with
               | None => None
               | Some n => if Label_Has x n then Some true else lacks_scan (S l) ls needed
               end
  end.

Fixpoint lacks_loop ls needed (todo : LabelArray) : option LabelArray :=
  match todo with
  | [] => Some []
  | n :: todo =>
      match lacks_scan 0 ls needed with
      | None => None
      | Some found => (λ missing, if found then missing else n :: missing) <$> lacks_loop ls needed todo
      end
  end.

(** [None] is the panic. *)
Definition Lacks ls needed : option LabelArray := lacks_loop ls needed needed.

Definition LabelArray_Equals ls (b : LabelArray) : bool :=
  bool_decide (length ls = length b) && forallb (λ x, Label_Equals x.1 x.2) (zip ls b).

Fixpoint LabelArray_Less ls (b : LabelArray) : bool :=
  match ls, b with
  | _, [] => false
  | [], _ :: _ => true
  | x :: ls, y :: b =>
      if string_lt (lbl_Key x) (lbl_Key y) then true
      else if string_lt (lbl_Key y) (lbl_Key x) then false
      else if string_lt (lbl_Value x) (lbl_Value y) then true
      else if string_lt (lbl_Value y) (lbl_Value x) then false
      else if string_lt (lbl_Source x) (lbl_Source y) then true
      else if string_lt (lbl_Source y) (lbl_Source x) then false
      else LabelArray_Less ls b
  end.

Definition LabelArray_String ls : string := "[" ++ String.concat " " (map Label_String ls) ++ "]".

(** [LabelArrayFromString]; [None] is nil. *)
Definition LabelArrayFromString (str : string) : option LabelArray :=
  match str with
  | String "["%char rest =>
      match reverse (of_string rest) with
      | "]"%char :: (_ :: _) as body => Some (map ParseLabel (Split (to_string (reverse (tail (reverse (of_string rest))))) " "))
      | _ => None
      end
  | _ => None
  end.
End array.

Section lookup.
Context {GR : GoRange} {GS : GoSort}.

(** [Labels.LookupLabel]: CIDR labels of the set may contain the CIDR that is looked up. *)
Definition LookupLabel (l : Labels) (keyLabel : Label) : string * bool :=
  if bool_decide (lbl_Source keyLabel ≠ LabelSourceCIDR) then
    match l !! lbl_Key keyLabel with
    | Some lbl => if HasKey lbl keyLabel then (lbl_Value lbl, true) else ("", false)
    | None => ("", false)
    end
  else LabelArray_LookupLabel (range_values l) keyLabel.

(** [Labels.LabelArray]. *)
Definition Labels_LabelArray (l : Labels) : LabelArray := Sort (range_values l).

Definition Labels_Has (l : Labels) (key : string) : bool := (LookupLabel l (ParseSelectLabel key)).2.
Definition Labels_Get (l : Labels) (key : string) : string := (LookupLabel l (ParseSelectLabel key)).1.
Definition HasLabel (l : Labels) (label : Label) : bool :=
  let '(val, exists_) := LookupLabel l label in exists_ && bool_decide (val = lbl_Value label).

End lookup.

(** ** Labels of CIDRs *)

Definition WorldLabel : Label := mkLabel IDNameWorld "" LabelSourceReserved None.
Definition WorldLabelV4 : Label := mkLabel IDNameWorldIPv4 "" LabelSourceReserved None.
Definition WorldLabelV6 : Label := mkLabel IDNameWorldIPv6 "" LabelSourceReserved None.

Definition getWorldLabel (c : LabelConfig) (addr : Addr) : Label :=
  if Is4 addr && EnableIPv6 c then WorldLabelV4
  else if Is6 addr && EnableIPv4 c then WorldLabelV6
  else WorldLabel.

(** The address with dashes for colons, and zeros so that no dash is at an end. *)
Fixpoint dashes (first : bool) (s : text) : text :=
  match s with
  | [] => []
  | c :: s =>
      (if bool_decide (c = ":"%char) then
         if first then ["0"; "-"]%char
         else if bool_decide (s = []) then ["-"; "0"]%char
         else ["-"%char]
       else [c]) ++ dashes false s
  end.

Definition cidr_key (prefix : Prefix) : text :=
  let ipStr := Addr_String (pfx_Addr (Masked prefix)) in
  (if Is6 (pfx_Addr prefix) then dashes true ipStr else ipStr) ++ ["/"%char] ++ Itoa (pfx_Bits prefix).

Definition getCIDRLabel (prefix : Prefix) : Label :=
  mkLabel (to_string (cidr_key prefix)) "" LabelSourceCIDR (Some prefix).

Definition IPStringToLabel (c : LabelConfig) (ip : string) : option Label :=
  let prefix :=
    if bool_decide ("/"%char ∈ of_string ip) then ParsePrefix (of_string ip)
    else (λ a, mkPrefix (match a with V4 w => V4 w | V6 w _ => V6 w [] end) (BitLen a)) <$> ParseAddr (of_string ip) in
  (λ p, if (0 <? pfx_Bits p)%Z then getCIDRLabel p else getWorldLabel c (pfx_Addr p)) <$> prefix.

Definition ToCIDRString (l : Label) : option string :=
  match lbl_cidr l with
  | Some p => if bool_decide (lbl_Source l = LabelSourceCIDR) && bool_decide (lbl_Value l = "")
              then Some (to_string (Prefix_String p)) else None
  | None => None
  end.

Definition AddWorldLabel (c : LabelConfig) (lbls : Labels) (addr : Addr) : Labels :=
  let lbl := getWorldLabel c addr in <[lbl_Key lbl := lbl]> lbls.

Definition GetCIDRLabels (c : LabelConfig) (prefix : Prefix) : Labels :=
  AddWorldLabel c
    (if (0 <? pfx_Bits prefix)%Z then {[ lbl_Key (getCIDRLabel prefix) := getCIDRLabel prefix ]} else ∅)
    (pfx_Addr prefix).

Definition GetCIDRLabelArray (c : LabelConfig) (prefix : Prefix) : LabelArray :=
  ((if (0 <? pfx_Bits prefix)%Z then [getCIDRLabel prefix] else []) ++ [getWorldLabel c (pfx_Addr prefix)])%list.

(** ** Text forms *)

(** Labels whose text form can be parsed back. *)
Record label_ok (l : Label) : Prop := {
  lo_source : lbl_Source l ≠ "" ∧ ":"%char ∉ of_string (lbl_Source l) ∧ head (of_string (lbl_Source l)) ≠ Some "$"%char;
  lo_key : "="%char ∉ of_string (lbl_Key l);
  lo_reserved : lbl_Source l = LabelSourceReserved → lbl_Key l = "" → lbl_Value l = "";
  lo_cidr : lbl_cidr l = if bool_decide (lbl_Source l = LabelSourceCIDR) then keyToPrefix (lbl_Key l) else None;
}.

Lemma parseSource_app (src next : string) : src ≠ "" → ":"%char ∉ of_string src → head (of_string src) ≠ Some "$"%char →
  parseSource (src ++ ":" ++ next) ":" = (src, next).
Proof.
  intros Hne Hn Hd. assert (HC : cut ":" (src ++ ":" ++ next) = Some (src, next)) by apply (cut_app _ _ _ Hn).
  destruct src as [|c src]; [done|]. change (String c src ++ ":" ++ next) with (String c (src ++ ":" ++ next)) in *.
  unfold parseSource. rewrite HC, bool_decide_eq_false_2; [done|]. intros ->. by apply Hd.
Qed.

(** The label of its parts. *)
Lemma parsed_label l : label_ok l → parse_cidr (lbl_Key l) (lbl_Value l) (lbl_Source l) = l.
Proof. intros [_ _ _ HC]. unfold parse_cidr. rewrite <- HC. by destruct l. Qed.

(** Parsing a text with an explicit source, a key and a value. *)
Lemma ParseLabel_parts l (rest : string) : label_ok l →
  (rest = lbl_Key l ∧ lbl_Value l = "" ∨ rest = lbl_Key l ++ "=" ++ lbl_Value l) →
  ParseLabel (lbl_Source l ++ ":" ++ rest) = l.
Proof.
  intros L Hr. destruct (lo_source _ L) as (H1 & H2 & H3). unfold ParseLabel, parseLabel, SourceDelimiter.
  rewrite parseSource_app by done. rewrite (bool_decide_eq_false_2 (lbl_Source l = "")) by done.
  destruct Hr as [[-> Hv]| ->].
  - rewrite cut_None by apply (lo_key _ L). rewrite <- Hv. by apply parsed_label.
  - change ("=" ++ lbl_Value l) with (String "=" (lbl_Value l)). rewrite (cut_app _ _ _ (lo_key _ L)). destruct (bool_decide_reflect (lbl_Key l = "")) as [Hk|]; cbn [andb];
      [|by apply parsed_label].
    case_bool_decide as Hs; [|by apply parsed_label]. pose proof (lo_reserved _ L Hs Hk) as Hv.
    pose proof (parsed_label l L) as HP. rewrite Hk, Hv in HP. by rewrite Hv.
Qed.

(** The text form of a label can be parsed back. *)
Lemma ParseLabel_String l : label_ok l → ParseLabel (Label_String l) = l.
Proof.
  intros L. apply (ParseLabel_parts l); [done|]. case_bool_decide; [left|by right].
  split; [|done]. apply (inj of_string). by rewrite of_string_app, app_nil_r.
Qed.

(** ** Sorted lists *)

(** Labels that the key-value store can hold: each under its key, none with a semicolon. *)
Record labels_ok (l : Labels) : Prop := {
  lso_label k x : l !! k = Some x → label_ok x ∧ k = lbl_Key x ∧ lbl_Key x ≠ "";
  lso_separator k x : l !! k = Some x → ";"%char ∉ (of_string (lbl_Source x) ++ of_string (lbl_Key x) ++ of_string (lbl_Value x))%list;
}.

Lemma split_concat c (ws : list text) : Forall (λ w, c ∉ w) ws → split_text c (concat (map (λ w, w ++ [c])%list ws)) = (ws ++ [[]])%list.
Proof.
  induction 1 as [|w ws Hw _ IH]; [done|]. cbn [map concat]. rewrite <- app_assoc. cbn [app].
  by rewrite split_text_app, IH.
Qed.

Lemma of_string_concat (ws : list string) : of_string (String.concat "" ws) = concat (map of_string ws).
Proof.
  induction ws as [|w ws IH]; [done|]. destruct ws as [|w' ws].
  - cbn. by rewrite app_nil_r.
  - change (String.concat "" (w :: w' :: ws)) with (w ++ "" ++ String.concat "" (w' :: ws)). rewrite of_string_app. cbn [map concat].
    f_equal. apply IH.
Qed.

Lemma FromSlice_lookup ls k : NoDup (map lbl_Key ls) → FromSlice ls !! k = List.find (λ x, bool_decide (lbl_Key x = k)) ls.
Proof.
  unfold FromSlice. intros ND. assert (HG : ∀ m : Labels, foldl (λ (m : Labels) x, <[lbl_Key x := x]> m) m ls !! k =
    match List.find (λ x, bool_decide (lbl_Key x = k)) ls with Some x => Some x | None => m !! k end).
  { induction ls as [|x ls IH]; intros m; [done|]. cbn [foldl List.find map] in *. apply NoDup_cons in ND as [Hx ND]. rewrite (IH ND).
    case_bool_decide as Hk; [|destruct (List.find _ ls); [done|by apply lookup_insert_ne]].
    destruct (List.find _ ls) as [y|] eqn:E; [|subst k; by apply lookup_insert_eq].
    apply List.find_some in E as [Hy Hk'%bool_decide_eq_true]. destruct Hx. apply list_elem_of_fmap. exists y.
    split; [congruence|by apply list_elem_of_In]. }
  rewrite HG. by destruct (List.find _ ls).
Qed.

(** The labels in the order of their keys. *)
Definition sorted_labels {GS : GoSort} (l : Labels) : list Label := omap (λ k, l !! k) (sorted_keys l).

Lemma elem_of_sorted_keys {GS : GoSort} {A} (l : gmap string A) k : k ∈ sorted_keys l ↔ is_Some (l !! k).
Proof.
  unfold sorted_keys. rewrite sort_by_perm, list_elem_of_fmap. split.
  - intros ([k' x] & -> & Hx%elem_of_map_to_list). by exists x.
  - intros (x & E). exists (k, x). by rewrite elem_of_map_to_list.
Qed.

Lemma NoDup_sorted_keys {GS : GoSort} {A} (l : gmap string A) : NoDup (sorted_keys l).
Proof. unfold sorted_keys. rewrite sort_by_perm. apply NoDup_fst_map_to_list. Qed.

Section sorted.
Context {GS : GoSort} (l : Labels) (L : labels_ok l).

Lemma elem_of_sorted_labels x : x ∈ sorted_labels l ↔ l !! lbl_Key x = Some x.
Proof.
  unfold sorted_labels. rewrite list_elem_of_omap. split.
  - intros (k & _ & E). by destruct (lso_label _ L k x E) as (_ & <- & _).
  - intros E. exists (lbl_Key x). split; [|done]. apply elem_of_sorted_keys. by exists x.
Qed.

Lemma sorted_labels_keys : map lbl_Key (sorted_labels l) = sorted_keys l.
Proof.
  unfold sorted_labels. assert (HK : ∀ ks, (∀ k, k ∈ ks → is_Some (l !! k)) → map lbl_Key (omap (λ k, l !! k) ks) = ks).
  { induction ks as [|k ks IH]; intros H; [done|]. cbn. destruct (H k ltac:(by left)) as [x E]. rewrite E. cbn.
    destruct (lso_label _ L k x E) as (_ & <- & _). f_equal. apply IH. intros. apply H. by right. }
  apply HK. intros k. apply elem_of_sorted_keys.
Qed.

Definition format_body (x : Label) : text := of_string (lbl_Source x ++ ":" ++ lbl_Key x ++ "=" ++ lbl_Value x).

Lemma format_body_spec x : of_string (formatForKVStore x) = (format_body x ++ [";"%char])%list.
Proof. unfold formatForKVStore, format_body. rewrite !of_string_app. by list_simplifier. Qed.

Lemma SortedList_text : of_string (SortedList l) = concat (map (λ w, w ++ [";"%char])%list (map format_body (sorted_labels l))).
Proof.
  unfold SortedList, sorted_labels. rewrite of_string_concat. induction (sorted_keys l) as [|k ks IH]; [done|].
  cbn. destruct (l !! k) as [x|]; cbn; [|done]. by rewrite format_body_spec, IH.
Qed.

Lemma SortedList_words : map to_string (split_text ";" (of_string (SortedList l))) =
  (map (λ x, to_string (format_body x)) (sorted_labels l) ++ [""])%list.
Proof.
  rewrite SortedList_text, split_concat, map_app, map_map; [done|].
  apply Forall_forall. intros w (x & -> & Hx)%list_elem_of_fmap Hc. apply elem_of_sorted_labels in Hx.
  apply (lso_separator _ L _ _ Hx). revert Hc. unfold format_body. rewrite !of_string_app. cbn.
  rewrite !elem_of_app, !elem_of_cons, !elem_of_app, !elem_of_cons. naive_solver.
Qed.

Lemma parsed_words ls : Forall (λ x, label_ok x ∧ lbl_Key x ≠ "") ls →
  NewLabelsFromModel (map (λ x, to_string (format_body x)) ls ++ [""])%list = FromSlice ls.
Proof.
  intros HL. unfold NewLabelsFromModel. f_equal. rewrite bind_app. cbn. rewrite app_nil_r.
  induction HL as [|x ls [Hx Hk] _ IH]; [done|]. cbn.
  assert (EP : ParseLabel (to_string (format_body x)) = x).
  { unfold format_body. rewrite to_of_string. apply ParseLabel_parts; [done|by right]. }
  rewrite EP. rewrite bool_decide_eq_false_2 by done. cbn. by rewrite IH.
Qed.

(** C37. The sorted list of a set of labels, the key of its identity in the key-value store, can
    be parsed back: [NewLabelsFromSortedList] is the inverse of [SortedList] on labels that are
    filed under their keys and whose parts keep clear of the separators: no ";" anywhere, a source
    that is not empty, has no ":" and does not begin with "$", a key that is not empty and has no
    "=", and the prefix of the key for the source cidr (none for others). *)
Theorem SortedList_parsed : NewLabelsFromSortedList (SortedList l) = l.
Proof.
  unfold NewLabelsFromSortedList, Split. rewrite SortedList_words, parsed_words.
  - apply map_eq. intros k. rewrite FromSlice_lookup by (rewrite sorted_labels_keys; apply NoDup_sorted_keys).
    destruct (List.find _ _) as [x|] eqn:E.
    + apply List.find_some in E as [Hx%list_elem_of_In Hk%bool_decide_eq_true]. apply elem_of_sorted_labels in Hx. by rewrite <- Hk.
    + destruct (l !! k) as [x|] eqn:Ek; [|done]. destruct (lso_label _ L k x Ek) as (_ & Hk & _).
      assert (Hx : x ∈ sorted_labels l) by (apply elem_of_sorted_labels; congruence).
      apply list_elem_of_In, (List.find_none _ _ E), bool_decide_eq_false in Hx. congruence.
  - apply Forall_forall. intros x Hx%elem_of_sorted_labels. by destruct (lso_label _ L _ _ Hx) as (? & _ & ?).
Qed.
End sorted.

(** Nothing escapes a semicolon: one label whose value has it is stored under the same text as two
    labels. *)
Example SortedList_collision :
  let one := FromSlice [NewLabel "a" "b;k8s:c=d" LabelSourceK8s] in
  let two := FromSlice [NewLabel "a" "b" LabelSourceK8s; NewLabel "c" "d" LabelSourceK8s] in
  SortedList (GS := sort_merge) one = SortedList (GS := sort_merge) two ∧ one ≠ two.
Proof. split; [by vm_compute|]. intros H. apply (f_equal size) in H. by vm_compute in H. Qed.

Definition stored_labels : Labels := FromSlice [NewLabel "app" "web" LabelSourceK8s; NewLabel "host" "" LabelSourceReserved].

Lemma SortedList_parsed_witness :
  labels_ok stored_labels ∧ NewLabelsFromSortedList (SortedList (GS := sort_merge) stored_labels) = stored_labels.
Proof.
  assert (L : labels_ok stored_labels).
  { assert (HI : ∀ k x, stored_labels !! k = Some x →
      (k, x) ∈ [("app", NewLabel "app" "web" LabelSourceK8s); ("host", NewLabel "host" "" LabelSourceReserved)]).
    { intros k x E. apply (elem_of_map_to_list (M := gmap string)) in E. by vm_compute in E |- *. }
    constructor; intros k x E%HI; rewrite !elem_of_cons in E; destruct E as [[= -> ->]|[[= -> ->]|E%elem_of_nil]]; try done.
    1,2: split_and!; [constructor|done|done]; [split_and!; [done| |done]|..]; try done; by apply (bool_decide_eq_true_1 _).
    all: by apply (bool_decide_eq_true_1 _). }
  split; [exact L|]. apply (SortedList_parsed stored_labels L).
Defined.

(** [Lacks] does not find the missing labels: it compares the wrong needed label, so it
    reports labels that [Contains] finds, and it panics when the array is longer than the
    needed labels. *)
Theorem Lacks_wrong :
  let a := NewLabel "a" "" LabelSourceK8s in let b := NewLabel "b" "" LabelSourceK8s in
  LabelArray_Contains [a; b] [b; a] = true ∧ Lacks [a; b] [b; a] = Some [b; a] ∧
  LabelArray_Contains [a; b] [b] = true ∧ Lacks [a; b] [b] = None.
Proof. by vm_compute. Qed.
