(* ===== verification/NetipText.v ===== *)
(** * Text forms of addresses

    The text form of an address, as [net/netip] prints it and as the labels of CIDRs change
    it, is parsed back to the address. *)

From Stdlib Require Import Ascii.
From stdpp Require Import pretty.
From S2P Require Import Prelude Text Netip Labels.

Local Open Scope Z_scope.

Notation is_group x := (0 ≤ x < 65536).

(** ** Words and their parts *)

Lemma join_step w acc p : 0 ≤ w → 0 ≤ p < 2 ^ w → Z.lor (Z.shiftl acc w) p = acc * 2 ^ w + p.
Proof.
  intros Hw Hp. rewrite Z.shiftl_mul_pow2 by done. rewrite <- Z.add_lor_land.
  replace (Z.land (acc * 2 ^ w) p) with 0; [lia|]. symmetry. apply Z.bits_inj'. intros i Hi. rewrite Z.land_spec, Z.bits_0.
  destruct (Z.lt_ge_cases i w).
  - by rewrite Z.mul_pow2_bits_low.
  - rewrite andb_comm. destruct (Z.testbit p i) eqn:E; [|done]. exfalso.
    rewrite <- (Z.mod_small p (2 ^ w)) in E by done. rewrite Z.mod_pow2_bits_high in E by lia. done.
Qed.

Lemma split_S n w x : split (S n) w x = Z.land (Z.shiftr x (w * Z.of_nat n)) (Z.ones w) :: split n w x.
Proof.
  unfold split. cbn [seq map]. f_equal; [do 3 f_equal; lia|]. rewrite <- seq_shift, map_map. apply map_ext. intros i.
  do 4 f_equal. lia.
Qed.

Lemma split_parts n w x : 0 ≤ w → Forall (λ p, 0 ≤ p < 2 ^ w) (split n w x).
Proof.
  intros Hw. induction n as [|n IH]; [constructor|]. rewrite split_S. constructor; [|done].
  rewrite Z.land_ones by done. apply Z.mod_pos_bound. by apply pow2_pos.
Qed.

Lemma split_length n w x : length (split n w x) = n.
Proof. unfold split. by rewrite length_map, length_seq. Qed.

Lemma join_split_acc n w x acc : 0 ≤ w →
  foldl (λ acc p, Z.lor (Z.shiftl acc w) p) acc (split n w x) = acc * 2 ^ (w * Z.of_nat n) + x mod 2 ^ (w * Z.of_nat n).
Proof.
  intros Hw. revert acc. induction n as [|n IH]; intros acc.
  - cbn. rewrite Z.mul_0_r, Z.mod_1_r. lia.
  - rewrite split_S. cbn [foldl]. rewrite IH, join_step.
    + rewrite Z.land_ones, Z.shiftr_div_pow2 by lia. replace (w * Z.of_nat (S n)) with (w * Z.of_nat n + w) by lia.
      rewrite Z.pow_add_r by lia. set (a := 2 ^ (w * Z.of_nat n)). pose proof (pow2_pos (w * Z.of_nat n) ltac:(lia)).
      rewrite (Z.rem_mul_r x a (2 ^ w)) by (pose proof (pow2_pos w Hw); lia). lia.
    + done.
    + rewrite Z.land_ones by done. apply Z.mod_pos_bound. by apply pow2_pos.
Qed.

Lemma join_split n w x : 0 ≤ w → 0 ≤ x < 2 ^ (w * Z.of_nat n) → join w (split n w x) = x.
Proof. intros Hw Hx. unfold join. rewrite join_split_acc by done. rewrite Z.mod_small by done. lia. Qed.

(** ** Groups *)

(** Groups with colons before them and between them. *)
Definition colon_groups (l : list Z) : text := concat (map (λ x, ":"%char :: appendHex x) l).
Definition colons (l : list Z) : text := match l with [] => [] | x :: l => appendHex x ++ colon_groups l end.

Lemma colon_groups_cons x l : colon_groups (x :: l) = ":"%char :: colons (x :: l).
Proof. done. Qed.

Lemma colon_groups_app l l' : colon_groups (l ++ l') = colon_groups l ++ colon_groups l'.
Proof. unfold colon_groups. by rewrite map_app, concat_app. Qed.

Lemma hexdigit_not_colon d : 0 ≤ d < 16 → hexdigit d ≠ ":"%char ∧ hexdigit d ≠ "."%char.
Proof. intros Hd. split; intros E; pose proof (hexval_digit d Hd) as H; rewrite E in H; done. Qed.

(** One group of [parse_groups]. *)
Lemma parse_group fuel groups ell x s : is_group x → stops s →
  parse_groups (S fuel) groups ell (appendHex x ++ s) =
  match s with
  | [] => Some ([], groups ++ [x], ell)
  | c :: s1 =>
      if bool_decide (c = "."%char) then
        if bool_decide (ell = None) && negb (length groups =? 6)%nat then None
        else if (8 <? length groups + 2)%nat then None
        else match parseIPv4 (appendHex x ++ s) with
             | Some [a; b; c; d] => Some ([], groups ++ [a * 256 + b; c * 256 + d], ell)
             | _ => None
             end
      else if bool_decide (c = ":"%char) then
        match s1 with
        | [] => None
        | c1 :: s2 =>
            if bool_decide (c1 = ":"%char) then
              match ell with
              | Some _ => None
              | None =>
                  if bool_decide (s2 = []) then Some ([], groups ++ [x], Some (length (groups ++ [x])))
                  else parse_groups fuel (groups ++ [x]) (Some (length (groups ++ [x]))) s2
              end
            else parse_groups fuel (groups ++ [x]) ell s1
        end
      else None
  end.
Proof.
  intros Hx Hs. destruct (hex_group_append x s Hx Hs) as (off & Ho & E). cbn [parse_groups]. rewrite E.
  destruct (Z.eqb_spec off 0); [lia|done].
Qed.

(** The groups after a colon. *)
Lemma parse_colon fuel groups ell x y l s : is_group x → is_group y →
  parse_groups (S fuel) groups ell (appendHex x ++ colon_groups (y :: l) ++ s) =
  parse_groups fuel (groups ++ [x]) ell (colons (y :: l) ++ s).
Proof.
  intros Hx Hy. rewrite colon_groups_cons. cbn [app]. rewrite parse_group by done.
  rewrite bool_decide_eq_false_2, bool_decide_eq_true_2 by done. cbn [colons].
  destruct (appendHex_head y Hy) as (d & s' & -> & Hd). cbn [app].
  by rewrite bool_decide_eq_false_2 by (apply (hexdigit_not_colon d Hd)).
Qed.

Lemma parse_list x l fuel groups ell : Forall (λ x, is_group x) (x :: l) → (length (x :: l) ≤ fuel)%nat →
  parse_groups fuel groups ell (colons (x :: l)) = Some ([], groups ++ x :: l, ell).
Proof.
  revert x fuel groups. induction l as [|y l IH]; intros x fuel groups HF Hf; apply Forall_cons in HF as [Hx HF];
    (destruct fuel as [|fuel]; [cbn in Hf; lia|]).
  - cbn [colons]. by rewrite parse_group by done.
  - pose proof HF as [Hy _]%Forall_cons. cbn [colons]. rewrite <- (app_nil_r (colon_groups _)), parse_colon by done.
    rewrite app_nil_r, IH; [|done|cbn in *; lia]. by rewrite <- app_assoc.
Qed.

Lemma parse_ellipsis x l fuel groups c s : Forall (λ x, is_group x) (x :: l) → (length (x :: l) ≤ fuel)%nat →
  parse_groups fuel groups None (colons (x :: l) ++ [":"; ":"]%char ++ c :: s) =
  parse_groups (fuel - length (x :: l)) (groups ++ x :: l) (Some (length (groups ++ x :: l))) (c :: s).
Proof.
  revert x fuel groups. induction l as [|y l IH]; intros x fuel groups HF Hf; apply Forall_cons in HF as [Hx HF];
    (destruct fuel as [|fuel]; [cbn in Hf; lia|]).
  - cbn [colons colon_groups map concat]. rewrite app_nil_r, parse_group by done. cbn [app length].
    rewrite bool_decide_eq_false_2, !bool_decide_eq_true_2 by done. rewrite bool_decide_eq_false_2 by done.
    by rewrite Nat.sub_succ, Nat.sub_0_r.
  - pose proof HF as [Hy _]%Forall_cons. cbn [colons]. rewrite <- app_assoc, parse_colon by done.
    rewrite IH; [|done|cbn in *; lia]. rewrite <- app_assoc. done.
Qed.

Lemma colons_head x l : is_group x → ∃ d s, colons (x :: l) = hexdigit d :: s ∧ 0 ≤ d < 16.
Proof. intros Hx. destruct (appendHex_head x Hx) as (d & s & E & Hd). cbn [colons]. rewrite E. by exists d, (s ++ colon_groups l). Qed.

(** An address with an ellipsis between groups. *)
Lemma parse_parts a l b l' : Forall (λ x, is_group x) (a :: l) → Forall (λ x, is_group x) (b :: l') →
  (length (a :: l) + length (b :: l') ≤ 8)%nat →
  parse_groups 8 [] None (colons (a :: l) ++ [":"; ":"]%char ++ colons (b :: l')) =
  Some ([], (a :: l) ++ b :: l', Some (length (a :: l))).
Proof.
  intros HA HB HL. pose proof HB as [Hb _]%Forall_cons. destruct (colons_head b l' Hb) as (d & s & E & _).
  rewrite E, parse_ellipsis, <- E by (done || lia). apply parse_list; [done|lia].
Qed.

(** ** IPv4 *)

Lemma field_digit val digLen dot fields d s : 0 ≤ d < 10 → (digLen = 1 → val ≠ 0) → val * 10 + d ≤ 255 →
  parseIPv4Fields val digLen dot fields (hexdigit d :: s) = parseIPv4Fields (val * 10 + d) (digLen + 1) false fields s.
Proof.
  intros Hd Hz Hv. cbn. rewrite decval_digit by done.
  replace ((digLen =? 1) && (val =? 0)) with false by (destruct (Z.eqb_spec digLen 1), (Z.eqb_spec val 0); done || (by destruct Hz)).
  by destruct (Z.ltb_spec 255 (val * 10 + d)); [lia|].
Qed.

(** One field of an IPv4 address. *)
Lemma parse_field dot fields x s : 0 ≤ x < 256 →
  ∃ n, parseIPv4Fields 0 0 dot fields (appendDecimal x ++ s) = parseIPv4Fields x n false fields s.
Proof.
  intros Hx. unfold appendDecimal. destruct (Z.leb_spec 100 x); [|destruct (Z.leb_spec 10 x)].
  1: destruct (Z.leb_spec 10 x); [|lia].
  all: eexists; cbn [app]; rewrite !field_digit by dlia; f_equal; dlia.
Qed.

Lemma parse_dot val digLen fields x s : (length fields < 3)%nat → 0 ≤ x < 256 →
  ∃ n, parseIPv4Fields val digLen false fields ("."%char :: appendDecimal x ++ s) =
       parseIPv4Fields x n false (fields ++ [val]) s.
Proof.
  intros Hl Hx. destruct (parse_field true (fields ++ [val]) x s Hx) as (n & E). exists n. rewrite <- E.
  cbn [parseIPv4Fields]. rewrite bool_decide_eq_true_2 by done.
  assert (HD : appendDecimal x ++ s ≠ []).
  { unfold appendDecimal. intros HN. apply (f_equal length) in HN. rewrite !length_app in HN. cbn in HN. lia. }
  rewrite bool_decide_eq_false_2 by done. cbn [decval orb]. by destruct (Nat.eqb_spec (length fields) 3); [lia|].
Qed.

Definition dotted (a b c d : Z) : text :=
  appendDecimal a ++ ["."%char] ++ appendDecimal b ++ ["."%char] ++ appendDecimal c ++ ["."%char] ++ appendDecimal d.

Lemma parse_dotted a b c d : 0 ≤ a < 256 → 0 ≤ b < 256 → 0 ≤ c < 256 → 0 ≤ d < 256 →
  parseIPv4 (dotted a b c d) = Some [a; b; c; d].
Proof.
  intros Ha Hb Hc Hd. unfold parseIPv4, dotted. cbn [app]. destruct (parse_field true [] a ("."%char :: appendDecimal b ++
    "."%char :: appendDecimal c ++ "."%char :: appendDecimal d) Ha) as (n1 & ->).
  destruct (parse_dot a n1 [] b ("."%char :: appendDecimal c ++ "."%char :: appendDecimal d)) as (n2 & ->); [cbn; lia|done|].
  destruct (parse_dot b n2 [a] c ("."%char :: appendDecimal d)) as (n3 & E); [cbn; lia|done|]. cbn [app] in *. rewrite E.
  destruct (parse_dot c n3 [a; b] d []) as (n4 & E4); [cbn; lia|done|]. rewrite app_nil_r in E4. rewrite E4. done.
Qed.

(** ** Printing IPv6 *)

Lemma zero_run_spec l : (zero_run l ≤ length l)%nat ∧ take (zero_run l) l = replicate (zero_run l) 0.
Proof.
  induction l as [|x l [IH1 IH2]]; [done|]. cbn. destruct (Z.eqb_spec x 0) as [->|]; [|split; [lia|done]].
  split; [lia|]. cbn. by rewrite IH2.
Qed.

(** A run of zero groups. *)
Definition is_run (L : list Z) (r : nat * nat) : Prop :=
  (r.1 + 2 ≤ r.2)%nat ∧ (r.2 ≤ length L)%nat ∧ take (r.2 - r.1) (drop r.1 L) = replicate (r.2 - r.1) 0.

Lemma longest_run_spec L i best : (best = (255, 255)%nat ∨ is_run L best) →
  let r := longest_run i best (drop i L) in r = (255, 255)%nat ∨ is_run L r.
Proof.
  cbv zeta. remember (drop i L) as l eqn:El. revert i best El. induction l as [|x l IH]; intros i best El Hb; [done|].
  cbn [longest_run]. apply IH.
  - replace (S i) with (i + 1)%nat by lia. by rewrite <- drop_drop, <- El.
  - destruct (zero_run_spec (x :: l)) as [H1 H2]. destruct ((2 <=? _)%nat && _) eqn:E; [|done]. right.
    apply andb_true_iff in E as [E%Nat.leb_le _]. pose proof (f_equal length El) as HL. rewrite length_drop in HL.
    unfold is_run. cbn [fst snd]. rewrite <- El. replace (i + zero_run (x :: l) - i)%nat with (zero_run (x :: l)) by lia.
    split_and!; [lia| |done]. cbn [length] in *. lia.
Qed.

(** The groups around a run. *)
Lemma run_parts L r : is_run L r → L = take r.1 L ++ replicate (r.2 - r.1) 0 ++ drop r.2 L.
Proof.
  intros (H1 & H2 & H3). rewrite <- H3. rewrite <- (take_drop r.1 L) at 1. f_equal.
  rewrite <- (take_drop (r.2 - r.1) (drop r.1 L)) at 1. f_equal. rewrite drop_drop. f_equal. lia.
Qed.

Section print.
Context (zs ze : nat).

(** After the run, or without one. *)
Lemma print_after skip i l : (skip ≤ i)%nat → (∀ j, (i ≤ j < i + length l)%nat → j ≠ zs ∧ j ≠ ze ∧ j ≠ 0%nat) →
  print_groups zs ze skip i l = colon_groups l.
Proof.
  revert i. induction l as [|x l IH]; intros i Hs Hi; [done|]. cbn [print_groups].
  destruct (Hi i ltac:(cbn; lia)) as (H1 & H2 & H3). destruct (Nat.ltb_spec i skip); [lia|].
  rewrite (proj2 (Nat.eqb_neq i zs)), (proj2 (Nat.eqb_neq i ze)), (proj2 (Nat.eqb_neq i 0)) by done. cbn [negb andb].
  rewrite IH; [done|lia|]. intros j Hj. apply Hi. cbn. lia.
Qed.

(** Within the run and after it. *)
Lemma print_run i l : (zs < i ≤ ze)%nat → print_groups zs ze ze i l = colons (drop (ze - i) l).
Proof.
  revert i. induction l as [|x l IH]; intros i Hi; [by rewrite drop_nil|]. cbn [print_groups].
  destruct (Nat.ltb_spec i ze).
  - rewrite IH by lia. by replace (ze - i)%nat with (S (ze - S i)) by lia.
  - replace i with ze by lia. rewrite Nat.sub_diag, drop_0, Nat.eqb_refl, andb_false_r.
    rewrite (proj2 (Nat.eqb_neq ze zs)) by lia. rewrite print_after; [done|lia|lia].
Qed.

(** Up to the run. *)
Lemma print_before i l : (0 < i ≤ zs)%nat → (zs < ze)%nat → (zs < i + length l)%nat →
  print_groups zs ze 0 i l = colon_groups (take (zs - i) l) ++ [":"; ":"]%char ++ colons (drop (ze - i) l).
Proof.
  revert i. induction l as [|x l IH]; intros i Hi Hz Hl; [cbn in Hl; lia|]. cbn [print_groups].
  destruct (Nat.ltb_spec i 0); [lia|]. destruct (Nat.eqb_spec i zs) as [->|].
  - rewrite Nat.sub_diag, print_run by lia. cbn [take colon_groups map concat app].
    by replace (ze - zs)%nat with (S (ze - S zs)) by lia.
  - rewrite (proj2 (Nat.eqb_neq i 0)), (proj2 (Nat.eqb_neq i ze)) by lia. cbn [negb andb]. cbn [length] in Hl.
    rewrite IH by lia. replace (zs - i)%nat with (S (zs - S i)) by lia. replace (ze - i)%nat with (S (ze - S i)) by lia.
    cbn [take drop]. rewrite colon_groups_cons. cbn [colons app]. by rewrite <- app_assoc.
Qed.

Lemma print_with_run l : (zs < ze)%nat → (zs < length l)%nat →
  print_groups zs ze 0 0 l = colons (take zs l) ++ [":"; ":"]%char ++ colons (drop ze l).
Proof.
  intros Hz Hl. destruct l as [|x l]; [cbn in Hl; lia|]. cbn [print_groups Nat.ltb Nat.leb].
  destruct zs as [|z] eqn:Ez; cbn [Nat.eqb].
  - rewrite <- Ez, print_run, Ez by lia. by replace (drop ze (x :: l)) with (drop (ze - 1) l) by (destruct ze; [lia|]; by rewrite Nat.sub_1_r).
  - cbn [negb andb]. rewrite <- Ez, print_before by (cbn in *; lia).
    replace (drop ze (x :: l)) with (drop (ze - 1) l) by (destruct ze; [lia|]; by rewrite Nat.sub_1_r).
    rewrite Ez. cbn [take colons app]. replace (S z - 1)%nat with z by lia. by rewrite <- app_assoc.
Qed.
End print.

Lemma print_without_run l : (length l ≤ 8)%nat → print_groups 255 255 0 0 l = colons l.
Proof.
  intros Hl. destruct l as [|x l]; [done|]. cbn [print_groups Nat.ltb Nat.leb Nat.eqb negb andb app colons].
  rewrite print_after; [done|lia|]. cbn in Hl. lia.
Qed.

(** ** Characters *)

Definition addr_char (c : ascii) : Prop := hexval c ≠ None ∨ c = ":"%char ∨ c = "."%char.

Lemma hexdigit_char d : 0 ≤ d < 16 → hexval (hexdigit d) ≠ None.
Proof. intros Hd. by rewrite hexval_digit. Qed.

Lemma appendHex_chars x : 0 ≤ x < 65536 → Forall (λ c, hexval c ≠ None) (appendHex x).
Proof.
  intros Hx. rewrite appendHex_digits by done. rewrite !Forall_app.
  split_and!; try (case_match; constructor; [|constructor]); try constructor; try constructor; apply hexdigit_char; dlia.
Qed.

Lemma appendDecimal_chars x : 0 ≤ x < 256 → Forall (λ c, hexval c ≠ None) (appendDecimal x).
Proof.
  intros Hx. unfold appendDecimal. rewrite !Forall_app.
  split_and!; try (case_match; constructor; [|constructor]); try constructor; try constructor; apply hexdigit_char; dlia.
Qed.

Lemma chars_addr s : Forall (λ c, hexval c ≠ None) s → Forall addr_char s.
Proof. intros H. apply (Forall_impl _ _ _ H). intros c Hc. by left. Qed.

Lemma colon_groups_chars l : Forall (λ x, is_group x) l → Forall addr_char (colon_groups l).
Proof.
  induction 1 as [|x l Hx _ IH]; [constructor|]. unfold colon_groups in *. cbn. constructor; [by right; left|].
  apply Forall_app. split; [|done]. by apply chars_addr, appendHex_chars.
Qed.

Lemma colons_chars l : Forall (λ x, is_group x) l → Forall addr_char (colons l).
Proof.
  intros HF. destruct l as [|x l]; [constructor|]. apply Forall_cons in HF as [Hx HF]. cbn. apply Forall_app.
  split; [by apply chars_addr, appendHex_chars|by apply colon_groups_chars].
Qed.

Lemma addr_char_not c s : hexval c = None → c ≠ ":"%char → c ≠ "."%char → Forall addr_char s → c ∉ s.
Proof. rewrite Forall_forall. intros H1 H2 H3 H Hc. destruct (H c Hc) as [?|[?|?]]; done. Qed.

Lemma addr_kind_skip s c t b : Forall (λ c, hexval c ≠ None) s → addr_kind (c :: t) = Some b → addr_kind (s ++ c :: t) = Some b.
Proof.
  intros HF Hk. induction HF as [|x s Hx _ IH]; [done|]. cbn [app]. cbn [addr_kind].
  rewrite !bool_decide_eq_false_2; [done|..]; by intros ->.
Qed.

(** ** Dashes *)

Definition pad (b : bool) : text := if b then ["0"%char] else [].

Lemma replace_dashes s : "-"%char ∉ s →
  replace_all "-" ":" (dashes false s) = s ++ pad (bool_decide (last s = Some ":"%char)).
Proof.
  induction s as [|c s IH]; intros Hn; [done|]. rewrite not_elem_of_cons in Hn. destruct Hn as [Hc Hs].
  cbn [dashes]. rewrite replace_all_app, IH by done. destruct (bool_decide_reflect (c = ":"%char)) as [->|Hcc].
  - destruct s as [|c' s]; [done|]. by rewrite bool_decide_eq_false_2.
  - assert (E : replace_all "-" ":" [c] = [c]) by (apply replace_all_id; set_solver). rewrite E. cbn [app]. f_equal. f_equal.
    destruct s as [|c' s]; [|done]. cbn. by rewrite !bool_decide_eq_false_2 by (done || congruence).
Qed.

(** ** Addresses in labels *)

Lemma last_hex d s : 0 ≤ d < 16 → bool_decide (last (s ++ [hexdigit d]) = Some ":"%char) = false.
Proof. intros Hd. apply bool_decide_eq_false_2. rewrite last_snoc. intros E%(inj Some). by destruct (hexdigit_not_colon d Hd). Qed.

Lemma appendHex_last x : is_group x → ∃ s d, appendHex x = s ++ [hexdigit d] ∧ 0 ≤ d < 16.
Proof. intros Hx. rewrite appendHex_digits by done. rewrite !app_assoc. eexists _, _. split; [reflexivity|]. dlia. Qed.

Lemma colons_last l : l ≠ [] → Forall (λ x, is_group x) l → ∃ s d, colons l = s ++ [hexdigit d] ∧ 0 ≤ d < 16.
Proof.
  intros Hne HF. destruct (exists_last Hne) as (l' & x & ->). apply Forall_app in HF as [_ [Hx _]%Forall_cons].
  destruct (appendHex_last x Hx) as (s & d & E & Hd). destruct l' as [|y l']; cbn.
  - exists s, d. by rewrite app_nil_r.
  - rewrite colon_groups_app. unfold colon_groups at 2. cbn. rewrite E, app_nil_r.
    exists (appendHex y ++ colon_groups l' ++ ":"%char :: s), d. split; [|done]. by rewrite <- !app_assoc.
Qed.

(** The groups of one side of the ellipsis, which a label pads. *)
Definition padded (l : list Z) : list Z := match l with [] => [0] | _ => l end.

Lemma padded_groups l : Forall (λ x, is_group x) l → Forall (λ x, is_group x) (padded l).
Proof. destruct l; [|done]. intros _. by repeat constructor. Qed.

Lemma padded_colons l : colons (padded l) = pad (bool_decide (l = [])) ++ colons l.
Proof. by destruct l. Qed.

Lemma first_dash s : "-"%char ∉ s →
  replace_all "-" ":" (dashes true s) =
  pad (bool_decide (head s = Some ":"%char)) ++ s ++ pad (bool_decide (last s = Some ":"%char) && negb (bool_decide (s = [":"%char]))).
Proof.
  intros Hn. destruct s as [|c s]; [done|]. pose proof (replace_dashes s) as HR. rewrite not_elem_of_cons in Hn.
  destruct Hn as [Hc Hs]. specialize (HR Hs). cbn [dashes]. rewrite replace_all_app, HR. cbn [head].
  destruct (bool_decide_reflect (c = ":"%char)) as [->|Hcc].
  - rewrite (bool_decide_eq_true_2 (Some _ = Some _)) by done. cbn. do 3 f_equal. destruct s as [|c' s]; [done|].
    rewrite (bool_decide_eq_false_2 (_ :: _ = _)) by done. by rewrite andb_true_r.
  - rewrite (bool_decide_eq_false_2 (Some c = _)) by congruence. rewrite (bool_decide_eq_false_2 (c :: s = _)) by congruence.
    assert (E : replace_all "-" ":" [c] = [c]) by (apply replace_all_id; set_solver). rewrite E, andb_true_r. cbn [pad app]. do 2 f_equal.
    destruct s as [|c' s]; [|done]. cbn. by rewrite !bool_decide_eq_false_2 by (done || congruence).
Qed.

Lemma no_dash s : Forall addr_char s → "-"%char ∉ s.
Proof. by apply addr_char_not. Qed.

(** A text with an ellipsis, as a label has it. *)
Lemma label_ellipsis l l' : Forall (λ x, is_group x) l → Forall (λ x, is_group x) l' →
  replace_all "-" ":" (dashes true (colons l ++ [":"; ":"]%char ++ colons l')) =
  colons (padded l) ++ [":"; ":"]%char ++ colons (padded l').
Proof.
  intros Hl Hl'. rewrite first_dash.
  - replace (bool_decide (head (colons l ++ [":"; ":"]%char ++ colons l') = Some ":"%char)) with (bool_decide (l = [])).
    2: { destruct l as [|x l]; [done|]. apply Forall_cons in Hl as [Hx _]. destruct (colons_head x l Hx) as (d & s & -> & Hd).
      cbn. rewrite !bool_decide_eq_false_2; [done|]. intros E%(inj Some). by destruct (hexdigit_not_colon d Hd). }
    replace (bool_decide (last _ = _) && _) with (bool_decide (l' = [])); [rewrite !padded_colons, <- !app_assoc; destruct l'; by rewrite ?app_nil_r|].
    rewrite (bool_decide_eq_false_2 (_ ++ _ = _)), andb_true_r by (intros E%(f_equal length); rewrite !length_app in E; cbn in E; lia).
    destruct l' as [|y l'].
    + cbn [colons]. rewrite !bool_decide_eq_true_2; [done| |done]. by rewrite last_app.
    + rewrite (bool_decide_eq_false_2 (_ :: _ = [])) by done.
      destruct (colons_last (y :: l') ltac:(done) Hl') as (s & d & -> & Hd). by rewrite !app_assoc, last_hex.
  - apply no_dash. apply Forall_app. split; [by apply colons_chars|]. constructor; [by right; left|].
    constructor; [by right; left|]. by apply colons_chars.
Qed.

Lemma label_colons x l : Forall (λ x, is_group x) (x :: l) →
  replace_all "-" ":" (dashes true (colons (x :: l))) = colons (x :: l).
Proof.
  intros HF. rewrite first_dash by (by apply no_dash, colons_chars).
  destruct (colons_last (x :: l) ltac:(done) HF) as (s & d & E & Hd). apply Forall_cons in HF as [Hx _].
  destruct (colons_head x l Hx) as (d' & s' & E' & Hd').
  assert (H1 : bool_decide (head (colons (x :: l)) = Some ":"%char) = false).
  { apply bool_decide_eq_false_2. rewrite E'. intros H%(inj Some). by destruct (hexdigit_not_colon d' Hd'). }
  assert (H2 : bool_decide (last (colons (x :: l)) = Some ":"%char) = false) by (rewrite E; by apply last_hex).
  rewrite H1, H2. cbn [pad andb app]. by rewrite app_nil_r.
Qed.

(** ** Round trips *)

Definition horner (w : Z) (l : list Z) : Z := foldl (λ acc p, acc * 2 ^ w + p) 0 l.

Lemma join_horner w l : 0 ≤ w → Forall (λ p, 0 ≤ p < 2 ^ w) l → join w l = horner w l.
Proof.
  intros Hw HF. unfold join, horner. generalize 0 as acc. induction HF as [|p l Hp _ IH]; intros acc; [done|].
  cbn [foldl]. by rewrite join_step, IH.
Qed.

Lemma cut_zone s : Forall addr_char s → cut_at "%" s = None.
Proof. intros HF. by apply cut_at_None, addr_char_not. Qed.

(** [parseIPv6] of a text that does not start with a colon. *)
Lemma parseIPv6_groups c s : hexval c ≠ None → Forall addr_char (c :: s) →
  parseIPv6 (c :: s) = match parse_groups 8 [] None (c :: s) with
                       | Some ([], groups, ellipsis) => (λ l, V6 (join 16 l) []) <$> expand groups ellipsis
                       | _ => None
                       end.
Proof.
  intros Hc HF. unfold parseIPv6. rewrite cut_zone by done.
  assert (ES : match s with
    | [] => (c :: s, None)
    | c' :: s' => if bool_decide (c = ":"%char) && bool_decide (c' = ":"%char) then (s', Some 0%nat) else (c :: s, None)
    end = (c :: s, None)).
  { destruct s as [|c' s]; [done|]. rewrite bool_decide_eq_false_2; [done|]. by intros ->. }
  rewrite ES. done.
Qed.

Lemma split_groups w : Forall (λ x, is_group x) (split 8 16 w).
Proof. apply (split_parts 8 16 w). lia. Qed.

Lemma padded_run l l' k : (2 ≤ k)%nat →
  padded l ++ replicate (length l + k + length l' - length (padded l ++ padded l')) 0 ++ padded l' = l ++ replicate k 0 ++ l'.
Proof.
  intros Hk. rewrite length_app. set (n := (_ - _)%nat).
  assert (HN : n = (k - length (pad (bool_decide (l = []))) - length (pad (bool_decide (l' = []))))%nat)
    by (destruct l, l'; unfold n; cbn; lia).
  clearbody n. subst n. destruct l as [|x l], l' as [|y l']; cbn [padded app bool_decide pad length].
  all: repeat first [rewrite bool_decide_eq_true_2 by done | rewrite bool_decide_eq_false_2 by done]; cbn [pad length];
    rewrite ?Nat.sub_0_r, ?app_nil_r.
  - destruct k as [|[|k]]; [lia..|]. cbn [Nat.sub replicate]. rewrite Nat.sub_0_r, replicate_cons_app. done.
  - destruct k as [|k]; [lia|]. cbn [Nat.sub replicate app]. by rewrite Nat.sub_0_r.
  - destruct k as [|k]; [lia|]. cbn [Nat.sub]. by rewrite Nat.sub_0_r, replicate_S_end.
  - done.
Qed.

Lemma addr_kind_colons x l s : is_group x → addr_kind (colons (x :: l) ++ ":"%char :: s) = Some false.
Proof.
  intros Hx. cbn [colons]. rewrite <- app_assoc. destruct l as [|y l].
  - by apply addr_kind_skip; [apply appendHex_chars|].
  - rewrite colon_groups_cons. cbn [app]. by apply addr_kind_skip; [apply appendHex_chars|].
Qed.

(** The groups of an address, printed with its longest run as an ellipsis and padded, are
    parsed back. *)
Lemma parse_run L r : length L = 8%nat → Forall (λ x, is_group x) L → is_run L r →
  ParseAddr (colons (padded (take r.1 L)) ++ [":"; ":"]%char ++ colons (padded (drop r.2 L))) = Some (V6 (join 16 L) []).
Proof.
  intros HL HF HR. pose proof (run_parts _ _ HR) as EP. destruct HR as (H1 & H2 & _).
  pose proof (padded_run (take r.1 L) (drop r.2 L) (r.2 - r.1) ltac:(lia)) as EE. rewrite <- EP in EE.
  rewrite length_take, length_drop in EE. replace (r.1 `min` length L + (r.2 - r.1) + (length L - r.2))%nat with 8%nat in EE by lia.
  assert (HN : (length (padded (take r.1 L) ++ padded (drop r.2 L)) ≤ 7)%nat).
  { rewrite length_app. assert (HP : ∀ l, (length (padded l) ≤ Nat.max 1 (length l))%nat) by (intros []; cbn; lia).
    pose proof (HP (take r.1 L)). pose proof (HP (drop r.2 L)). rewrite length_take, length_drop in *. lia. }
  assert (HA : Forall (λ x, is_group x) (padded (take r.1 L))) by (apply padded_groups; by apply Forall_take).
  assert (HB : Forall (λ x, is_group x) (padded (drop r.2 L))) by (apply padded_groups; by apply Forall_drop).
  destruct (padded (take r.1 L)) as [|a A] eqn:EA; [by destruct (take r.1 L)|].
  destruct (padded (drop r.2 L)) as [|b B] eqn:EB; [by destruct (drop r.2 L)|].
  pose proof HA as [Ha _]%Forall_cons. destruct (colons_head a A Ha) as (d & s & Es & Hd).
  assert (HC : Forall addr_char (colons (a :: A) ++ [":"; ":"]%char ++ colons (b :: B))).
  { apply Forall_app. split; [by apply colons_chars|]. constructor; [by right; left|]. constructor; [by right; left|]. by apply colons_chars. }
  unfold ParseAddr. pose proof (addr_kind_colons a A (":"%char :: colons (b :: B)) Ha) as HK.
  change (":"%char :: ":"%char :: colons (b :: B)) with ([":"; ":"]%char ++ colons (b :: B)) in HK. rewrite HK, Es.
  change ((hexdigit d :: s) ++ ?t) with (hexdigit d :: (s ++ t)). rewrite parseIPv6_groups.
  - change (hexdigit d :: s ++ ?t) with ((hexdigit d :: s) ++ t).
    rewrite <- Es, parse_parts by (done || rewrite length_app in HN; lia). unfold expand.
    destruct (Nat.ltb_spec (length ((a :: A) ++ b :: B)) 8); [|lia]. by rewrite take_app_length, drop_app_length, EE.
  - by apply hexdigit_char.
  - by rewrite Es in HC.
Qed.

(** The groups of an address without an ellipsis. *)
Lemma parse_all x l : length (x :: l) = 8%nat → Forall (λ x, is_group x) (x :: l) →
  ParseAddr (colons (x :: l)) = Some (V6 (join 16 (x :: l)) []).
Proof.
  intros HL HF. pose proof HF as [Hx HF']%Forall_cons. destruct l as [|y l]; [done|].
  destruct (colons_head x (y :: l) Hx) as (d & s & Es & Hd). unfold ParseAddr.
  assert (HK : addr_kind (colons (x :: y :: l)) = Some false).
  { cbn [colons]. rewrite colon_groups_cons. by apply addr_kind_skip; [apply appendHex_chars|]. }
  rewrite HK, Es, parseIPv6_groups, <- Es.
  - rewrite parse_list by (done || lia). unfold expand. cbn [app]. by rewrite HL.
  - by apply hexdigit_char.
  - rewrite <- Es. by apply colons_chars.
Qed.

(** ** IPv4 *)

Lemma dotted_split w : string4 w = match split 4 8 w with [a; b; c; d] => dotted a b c d | _ => [] end.
Proof. unfold string4, dotted. by destruct (split 4 8 w) as [|? [|? [|? [|? [|]]]]]. Qed.

Lemma split_bytes w : ∃ a b c d, split 4 8 w = [a; b; c; d] ∧ 0 ≤ a < 256 ∧ 0 ≤ b < 256 ∧ 0 ≤ c < 256 ∧ 0 ≤ d < 256.
Proof.
  pose proof (split_parts 4 8 w ltac:(lia)) as HF. pose proof (split_length 4 8 w) as HL.
  destruct (split 4 8 w) as [|a [|b [|c [|d [|]]]]]; try done. rewrite !Forall_cons in HF. destruct HF as (? & ? & ? & ? & _).
  by exists a, b, c, d.
Qed.

Lemma dotted_chars a b c d : 0 ≤ a < 256 → 0 ≤ b < 256 → 0 ≤ c < 256 → 0 ≤ d < 256 → Forall addr_char (dotted a b c d).
Proof.
  intros Ha Hb Hc Hd. assert (HP : addr_char "."%char) by (by right; right).
  unfold dotted. rewrite !Forall_app, !Forall_singleton. split_and!; (done || by apply chars_addr, appendDecimal_chars).
Qed.

Lemma parse_string4 w : is_uint 32 w → ParseAddr (string4 w) = Some (V4 w).
Proof.
  intros Hw. rewrite dotted_split. destruct (split_bytes w) as (a & b & c & d & E & Ha & Hb & Hc & Hd). rewrite E. unfold ParseAddr.
  assert (HK : addr_kind (dotted a b c d) = Some true) by (by apply addr_kind_skip; [apply appendDecimal_chars|]).
  rewrite HK, parse_dotted by done. cbn [fmap option_fmap option_map]. by rewrite <- E, join_split.
Qed.

Lemma string4_chars w : Forall addr_char (string4 w).
Proof.
  rewrite dotted_split. destruct (split_bytes w) as (a & b & c & d & E & Ha & Hb & Hc & Hd). rewrite E. by apply dotted_chars.
Qed.

(** ** IPv4 in IPv6 *)

Lemma hex_group_decimal x s : 0 ≤ x < 256 → stops s → ∃ v off, 0 < off ∧ hex_group 0 0 (appendDecimal x ++ s) = Some (v, off, s).
Proof.
  intros Hx Hs. unfold appendDecimal. destruct (Z.leb_spec 100 x); [|destruct (Z.leb_spec 10 x)].
  1: destruct (Z.leb_spec 10 x); [|lia].
  all: eexists _, _; split; [|cbn [app]; rewrite !hex_group_digit by dlia; by rewrite hex_group_stop]; lia.
Qed.

Lemma appendDecimal_head x : 0 ≤ x < 256 → ∃ d s, appendDecimal x = hexdigit d :: s ∧ 0 ≤ d < 16.
Proof.
  intros Hx. unfold appendDecimal. destruct (Z.leb_spec 100 x); [|destruct (Z.leb_spec 10 x)]; cbn [app]; eexists _, _; split; try done; dlia.
Qed.

Lemma dotted_tail a b c d : ∃ s, dotted a b c d = appendDecimal a ++ "."%char :: s.
Proof. unfold dotted. by eexists. Qed.

Lemma parse_mapped a b c d : 0 ≤ a < 256 → 0 ≤ b < 256 → 0 ≤ c < 256 → 0 ≤ d < 256 →
  parse_groups 8 [] None (of_string "0::ffff:" ++ dotted a b c d) = Some ([], [0; 65535; a * 256 + b; c * 256 + d], Some 1%nat).
Proof.
  intros Ha Hb Hc Hd. pose proof (parse_dotted a b c d Ha Hb Hc Hd) as HD. destruct (dotted_tail a b c d) as (s & ES). rewrite ES in *.
  destruct (appendDecimal_head a Ha) as (d0 & s0 & E0 & Hd0).
  change (of_string "0::ffff:" ++ ?t) with (colons [0] ++ [":"; ":"]%char ++ "f"%char :: ["f"; "f"; "f"; ":"]%char ++ t).
  rewrite parse_ellipsis by (by repeat constructor). cbn [length app Nat.sub].
  change ("f" :: "f" :: "f" :: "f" :: ":" :: ?t)%char with (appendHex 65535 ++ ":"%char :: t).
  rewrite parse_group by done. rewrite bool_decide_eq_false_2, bool_decide_eq_true_2 by done. rewrite E0 at 1. cbn [app].
  rewrite bool_decide_eq_false_2 by (apply (hexdigit_not_colon d0 Hd0)).
  destruct (hex_group_decimal a ("."%char :: s) Ha ltac:(done)) as (v & off & Ho & EG).
  cbn [parse_groups]. rewrite EG. destruct (Z.eqb_spec off 0); [lia|]. by rewrite HD.
Qed.

Lemma mapped_chars : Forall addr_char (of_string "::ffff:").
Proof. cbn. repeat (constructor; [((by left) || (by right; left))|]). constructor. Qed.

Lemma label_mapped s d : 0 ≤ d < 16 → Forall addr_char s →
  replace_all "-" ":" (dashes true (of_string "::ffff:" ++ s ++ [hexdigit d])) = of_string "0::ffff:" ++ s ++ [hexdigit d].
Proof.
  intros Hd Hs. rewrite first_dash.
  - assert (HL : bool_decide (last (of_string "::ffff:" ++ s ++ [hexdigit d]) = Some ":"%char) = false)
      by (rewrite app_assoc; by apply last_hex). rewrite HL. cbn [andb pad]. by rewrite app_nil_r.
  - apply no_dash. rewrite !Forall_app, Forall_singleton. split_and!; [apply mapped_chars|done|by left; apply hexdigit_char].
Qed.

Lemma dotted_last a b c d : 0 ≤ a < 256 → 0 ≤ b < 256 → 0 ≤ c < 256 → 0 ≤ d < 256 →
  ∃ s x, dotted a b c d = s ++ [hexdigit x] ∧ 0 ≤ x < 16 ∧ Forall addr_char s.
Proof.
  intros Ha Hb Hc Hd. pose proof (dotted_chars a b c d Ha Hb Hc Hd) as HC. 
  assert (EL : ∃ s x, appendDecimal d = s ++ [hexdigit x] ∧ 0 ≤ x < 16).
  { unfold appendDecimal. rewrite app_assoc. eexists _, _. split; [reflexivity|dlia]. }
  destruct EL as (s & x & E & Hx). revert HC. unfold dotted. rewrite E, !app_assoc.
  intros [HC _]%Forall_app. eexists _, x. split; [reflexivity|]. by split.
Qed.

Lemma parse_label_mapped w : is_uint 128 w → Is4In6 w = true →
  ParseAddr (replace_all "-" ":" (dashes true (string4In6 w))) = Some (V6 w []).
Proof.
  intros Hw HM%Z.eqb_eq. unfold string4In6. rewrite dotted_split.
  destruct (split_bytes (Z.land w (Z.ones 32))) as (a & b & c & d & E & Ha & Hb & Hc & Hd). rewrite E.
  destruct (dotted_last a b c d Ha Hb Hc Hd) as (s & x & ES & Hx & Hs). rewrite ES, label_mapped, <- ES by done.
  unfold ParseAddr. change (addr_kind (of_string "0::ffff:" ++ dotted a b c d)) with (Some false). cbv iota beta.
  change (of_string "0::ffff:" ++ ?t) with ("0"%char :: of_string "::ffff:" ++ t). rewrite parseIPv6_groups; [|done|].
  - change ("0"%char :: of_string "::ffff:" ++ ?t) with (of_string "0::ffff:" ++ t). rewrite parse_mapped by done.
    cbn [expand length Nat.ltb Nat.leb Nat.sub take drop replicate app fmap option_fmap option_map]. do 2 f_equal.
    pose proof (join_split 4 8 (Z.land w (Z.ones 32)) ltac:(lia)) as HJ. rewrite E, Z.land_ones in HJ by lia.
    specialize (HJ (Z.mod_pos_bound w (2 ^ 32) ltac:(lia))). rewrite Z.shiftr_div_pow2 in HM by lia.
    rewrite join_horner in HJ by (lia || by rewrite !Forall_cons). rewrite join_horner by (lia || by rewrite !Forall_cons; split_and!; (lia || done)).
    unfold horner in *. cbn [foldl] in *. pose proof (Z.div_mod w (2 ^ 32) ltac:(lia)). lia.
  - constructor; [by left|]. apply Forall_app. split; [apply mapped_chars|by apply dotted_chars].
Qed.

(** An address of a label is parsed back. *)
Lemma parse_label6 w : is_uint 128 w → ParseAddr (replace_all "-" ":" (dashes true (Addr_String (V6 w [])))) = Some (V6 w []).
Proof.
  intros Hw. unfold Addr_String. rewrite bool_decide_eq_true_2, app_nil_r by done.
  destruct (Is4In6 w) eqn:HM; [by apply parse_label_mapped|]. unfold string6.
  pose proof (split_groups w) as HF. pose proof (split_length 8 16 w) as HL.
  pose proof (join_split 8 16 w ltac:(lia) Hw) as HJ. set (L := split 8 16 w) in *.
  destruct (longest_run_spec L 0 (255, 255)%nat ltac:(by left)) as [E|HR]; rewrite drop_0 in *.
  - rewrite E, print_without_run by lia. destruct L as [|x l]; [done|]. rewrite label_colons, parse_all by done. by rewrite HJ.
  - pose proof (parse_run L _ HL HF HR) as HP. destruct (longest_run 0 _ L) as [zs ze]. cbn [fst snd] in *.
    pose proof HR as (H1 & H2 & _). cbn [fst snd] in *. rewrite print_with_run by lia.
    rewrite label_ellipsis, HP, HJ by (by apply Forall_take || by apply Forall_drop). done.
Qed.

(** ** Prefixes *)

(** The prefixes that Go represents. *)
Definition prefix_ok (p : Prefix) : Prop :=
  0 ≤ pfx_Bits p ≤ BitLen (pfx_Addr p) ∧
  match pfx_Addr p with V4 w => is_uint 32 w | V6 w zone => is_uint 128 w ∧ zone = [] end.

Lemma mask_word_range len bits w : 0 ≤ bits ≤ len → is_uint len w → is_uint len (mask_word len bits w).
Proof.
  intros Hb Hw. unfold mask_word, is_uint in *. rewrite Z.shiftl_mul_pow2, Z.shiftr_div_pow2 by lia.
  pose proof (pow2_pos (len - bits) ltac:(lia)). pose proof (Z.mul_div_le w (2 ^ (len - bits)) ltac:(lia)).
  pose proof (Z.div_pos w (2 ^ (len - bits)) ltac:(lia) ltac:(lia)). nia.
Qed.

Lemma Itoa_bits n : 0 ≤ n ≤ 128 → parse_bits (Itoa n) = Some n ∧ "/"%char ∉ Itoa n ∧ "-"%char ∉ Itoa n.
Proof.
  intros Hn. pose proof (below_check 129 (λ n, bool_decide (parse_bits (Itoa n) = Some n ∧ "/"%char ∉ Itoa n ∧ "-"%char ∉ Itoa n))
    ltac:(by vm_compute) n ltac:(lia)) as H. by apply bool_decide_eq_true in H.
Qed.

Lemma parse_prefix_text s addr bits : ParseAddr s = Some addr → hasZone addr = false → 0 ≤ bits ≤ BitLen addr →
  ParsePrefix (s ++ "/"%char :: Itoa bits) = Some (mkPrefix addr bits).
Proof.
  intros HA HZ HB. assert (BitLen addr ≤ 128) by (unfold BitLen; case_match; lia).
  destruct (Itoa_bits bits ltac:(lia)) as (H1 & H2 & _). unfold ParsePrefix.
  rewrite cut_last_app, HA, HZ, H1 by done. by rewrite (proj2 (Z.leb_le _ _)) by lia.
Qed.

(** C38. The key of the label of a CIDR gives the prefix back, without the bits past its length,
    for every IPv4 and IPv6 prefix: the text form with its colons replaced is parsed by
    [keyToPrefix]. *)
Theorem keyToPrefix_cidr p : prefix_ok p → keyToPrefix (lbl_Key (getCIDRLabel p)) = Some (Masked p).
Proof.
  intros [HB HP]. destruct p as [[w|w z] bits]; cbn [pfx_Addr pfx_Bits] in *; unfold keyToPrefix, getCIDRLabel, cidr_key, Masked;
    cbn [lbl_Key pfx_Addr pfx_Bits Is6 Is4 negb]; rewrite of_to_string, !replace_all_app;
    destruct (Itoa_bits bits ltac:(unfold BitLen in HB; cbn in HB; lia)) as (_ & _ & HD);
    rewrite (replace_all_id _ _ (Itoa bits)) by done; cbn [app].
  - cbn [Addr_String]. rewrite replace_all_id by apply no_dash, string4_chars. apply parse_prefix_text; [|done|done].
    apply parse_string4, mask_word_range; [|done]. done.
  - destruct HP as [Hw ->]. apply parse_prefix_text; [|done|done]. by apply parse_label6, mask_word_range.
Qed.

(** ** Containment *)

(** Addresses of an address family without zone. *)
Definition addr_ok (a : Addr) : Prop := match a with V4 w => is_uint 32 w | V6 w zone => is_uint 128 w ∧ zone = [] end.

Lemma addr_word_range a : addr_ok a → is_uint (BitLen a) (addr_word a).
Proof. destruct a; cbn; [done|]. by intros [? _]. Qed.

Lemma addr_no_zone a : addr_ok a → hasZone a = false.
Proof. destruct a; cbn; [done|]. by intros [_ ->]. Qed.

Definition with_word (a : Addr) (w : Z) : Addr := match a with V4 _ => V4 w | V6 _ z => V6 w z end.

Lemma Contains_spec p a : addr_ok a →
  Prefix_Contains p a = true ↔
  Is4 (pfx_Addr p) = Is4 a ∧ Z.shiftr (Z.lxor (addr_word a) (addr_word (pfx_Addr p))) (BitLen a - pfx_Bits p) = 0.
Proof.
  intros Ha. unfold Prefix_Contains. rewrite (addr_no_zone a Ha). cbn [negb andb].
  by rewrite andb_true_iff, bool_decide_eq_true, Z.eqb_eq.
Qed.

Lemma BitLen_kind a b : Is4 a = Is4 b → BitLen a = BitLen b.
Proof. unfold BitLen. by intros ->. Qed.

(** Two words agree above a bit when they do with a third one. *)
Lemma shiftr_lxor_trans a b c i j : 0 ≤ i ≤ j → Z.shiftr (Z.lxor a b) i = 0 → Z.shiftr (Z.lxor b c) j = 0 → Z.shiftr (Z.lxor a c) j = 0.
Proof.
  intros Hij H1 H2. assert (H1' : Z.shiftr (Z.lxor a b) j = 0).
  { replace j with (i + (j - i)) by lia. rewrite <- Z.shiftr_shiftr, H1 by lia. apply Z.shiftr_0_l. }
  replace (Z.lxor a c) with (Z.lxor (Z.lxor a b) (Z.lxor b c)).
  - by rewrite Z.shiftr_lxor, H1', H2.
  - rewrite Z.lxor_assoc, <- (Z.lxor_assoc b b c), Z.lxor_nilpotent, Z.lxor_0_l. done.
Qed.

Lemma lxor_range n a b : 0 ≤ n → is_uint n a → is_uint n b → is_uint n (Z.lxor a b).
Proof.
  intros Hn [Ha0 Ha] [Hb0 Hb]. assert (H0 : 0 ≤ Z.lxor a b) by (apply Z.lxor_nonneg; lia). split; [done|].
  destruct (Z.eq_dec (Z.lxor a b) 0) as [->|Hne]; [by apply pow2_pos|]. apply Z.log2_lt_pow2; [lia|].
  pose proof (Z.log2_lxor a b Ha0 Hb0). destruct (Z.eq_dec a 0) as [->|]; [|destruct (Z.eq_dec b 0) as [->|]].
  - rewrite Z.lxor_0_l in *. by apply Z.log2_lt_pow2; lia.
  - rewrite Z.lxor_0_r in *. by apply Z.log2_lt_pow2; lia.
  - pose proof (proj1 (Z.log2_lt_pow2 a n ltac:(lia)) Ha). pose proof (proj1 (Z.log2_lt_pow2 b n ltac:(lia)) Hb). lia.
Qed.

(** A word that agrees with another one above a bit, but not at it. *)
Lemma flip_bit w i : 0 ≤ i → Z.shiftr (Z.lxor (Z.lxor w (2 ^ i)) w) (i + 1) = 0 ∧
  ∀ q j, 0 ≤ j ≤ i → Z.shiftr (Z.lxor w q) j = 0 → Z.shiftr (Z.lxor (Z.lxor w (2 ^ i)) q) j ≠ 0.
Proof.
  intros Hi. split.
  - rewrite (Z.lxor_comm (Z.lxor _ _)), <- Z.lxor_assoc, Z.lxor_nilpotent, Z.lxor_0_l, Z.shiftr_div_pow2 by lia.
    apply Z.div_small. split; [apply Z.pow_nonneg; lia|]. apply Z.pow_lt_mono_r; lia.
  - intros q j Hj Hq E. rewrite Z.lxor_assoc, (Z.lxor_comm (2 ^ i)), <- Z.lxor_assoc, Z.shiftr_lxor, Hq, Z.lxor_0_l in E.
    rewrite Z.shiftr_div_pow2 in E by lia. replace i with (j + (i - j)) in E by lia. rewrite Z.pow_add_r, Z.mul_comm, Z.div_mul in E by lia.
    pose proof (pow2_pos (i - j) ltac:(lia)). lia.
Qed.

Lemma label_prefix_cidr p : label_prefix (getCIDRLabel p) = Some p.
Proof. done. Qed.

Lemma HasKey_cidr p q : HasKey (getCIDRLabel p) (getCIDRLabel q) = (pfx_Bits q <=? pfx_Bits p) && Prefix_Contains q (pfx_Addr p).
Proof. done. Qed.

(** A CIDR label has another one as its key exactly when every address of the first CIDR is
    an address of the second one. *)
Theorem cidr_contained p q : prefix_ok p → prefix_ok q →
  HasKey (getCIDRLabel p) (getCIDRLabel q) = true ↔
  ∀ a, addr_ok a → Prefix_Contains p a = true → Prefix_Contains q a = true.
Proof.
  intros [Bp Ap] [Bq Aq]. rewrite HasKey_cidr, andb_true_iff, Z.leb_le, Contains_spec by done. split.
  - intros [HB [HK HC]] a Ha. rewrite !Contains_spec by done. intros [Hk Hc]. split; [congruence|].
    rewrite (BitLen_kind a (pfx_Addr p)) in * by done. by apply (shiftr_lxor_trans _ (addr_word (pfx_Addr p)) _ (BitLen (pfx_Addr p) - pfx_Bits p)); [lia| |].
  - intros H. assert (HS : Prefix_Contains p (pfx_Addr p) = true).
    { apply Contains_spec; [done|]. split; [done|]. by rewrite Z.lxor_nilpotent, Z.shiftr_0_l. }
    specialize (H (pfx_Addr p) Ap HS) as HQ. apply Contains_spec in HQ as [HK HC]; [|done]. split; [|done].
    destruct (Z.le_gt_cases (pfx_Bits q) (pfx_Bits p)) as [|Hlt]; [done|exfalso].
    pose proof (BitLen_kind _ _ HK) as HL. set (n := BitLen (pfx_Addr p)) in *. set (i := n - pfx_Bits p - 1).
    destruct (flip_bit (addr_word (pfx_Addr p)) i ltac:(lia)) as [F1 F2].
    set (a := with_word (pfx_Addr p) (Z.lxor (addr_word (pfx_Addr p)) (2 ^ i))).
    assert (Ka : Is4 a = Is4 (pfx_Addr p) ∧ BitLen a = n ∧ addr_word a = Z.lxor (addr_word (pfx_Addr p)) (2 ^ i))
      by (unfold a, n; by destruct (pfx_Addr p)). destruct Ka as (Ka & Kn & Kw).
    assert (Ha : addr_ok a).
    { pose proof (lxor_range n (addr_word (pfx_Addr p)) (2 ^ i)) as HX. unfold a, n in *. destruct (pfx_Addr p); cbn in *;
        [|destruct Ap as [Ap ->]; split; [|done]]; apply HX; (lia || done || apply is_uint_pow2; lia). }
    specialize (H a Ha). rewrite !Contains_spec, Kn, Kw in H by done.
    destruct H as [_ H]; [split; [congruence|]|].
    + replace (n - pfx_Bits p) with (i + 1) by lia. done.
    + by apply (F2 _ (n - pfx_Bits q)) in H; [|lia|].
Qed.

Definition private : Prefix := mkPrefix (V4 0x0A000000) 8.
Definition subnet : Prefix := mkPrefix (V4 0x0A010203) 16.
Definition documentation : Prefix := mkPrefix (V6 0x20010db8000000000000000000000001 []) 32.

Lemma keyToPrefix_cidr_witness :
  prefix_ok documentation ∧ keyToPrefix (lbl_Key (getCIDRLabel documentation)) = Some (Masked documentation).
Proof. assert (P : prefix_ok documentation) by (by vm_compute). split; [exact P|]. apply (keyToPrefix_cidr documentation P). Defined.

Lemma cidr_contained_witness :
  prefix_ok subnet ∧ prefix_ok private ∧ ∀ a, addr_ok a → Prefix_Contains subnet a = true → Prefix_Contains private a = true.
Proof.
  assert (P : prefix_ok subnet) by (by vm_compute). assert (Q : prefix_ok private) by (by vm_compute). split_and!; [exact P|exact Q|].
  apply (cidr_contained subnet private P Q). by vm_compute.
Defined.
