(* ===== verification/Selectors.v ===== *)
(** * Selectors

    Model of the selectors of peers and subjects: requirements on labels
    ([src/pkg/policy/types/requirements.go]) and the selectors made of them
    ([src/pkg/policy/types/selector.go]). *)

From Stdlib Require Import Ascii.
From S2P Require Import Prelude Text Netip Labels.

Local Open Scope string_scope.

(** ** Requirements *)

(** [selection.Operator]. *)
Inductive Operator := DoesNotExist | Equals | DoubleEquals | In | NotEquals | NotIn | Exists | GreaterThan | LessThan.

#[export] Instance Operator_eq_dec : EqDecision Operator.
Proof. solve_decision. Defined.

Record Requirement := mkRequirement {
  r_key : Label;
  r_operator : Operator;
  r_values : gset string;
}.

Definition NewRequirement (key : string) (op : Operator) (values : list string) : Requirement :=
  mkRequirement (ParseSelectLabel key) op (list_to_set values).
Definition NewExistRequirement (lbl : Label) : Requirement := mkRequirement lbl Exists ∅.
Definition NewExceptRequirement (lbl : Label) : Requirement := mkRequirement lbl DoesNotExist ∅.
Definition NewEqualsRequirement (lbl : Label) : Requirement :=
  mkRequirement (mkLabel (lbl_Key lbl) "" (lbl_Source lbl) None) Equals {[ lbl_Value lbl ]}.

Definition HasValue (r : Requirement) (value : string) : bool := bool_decide (value ∈ r_values r).

(** [strconv.ParseInt] with base 10 and 64 bits. *)
Definition ParseInt (s : string) : option Z :=
  let '(neg, digits) :=
    match of_string s with
    | "+"%char :: d => (false, d)
    | "-"%char :: d => (true, d)
    | d => (false, d)
    end in
  if bool_decide (digits = []) then None
  else match decimal 0 digits with
       | None => None
       | Some n =>
           let n := if (neg : bool) then (- n)%Z else n in
           if (- 2 ^ 63 <=? n)%Z && (n <? 2 ^ 63)%Z then Some n else None
       end.

(** [MatchesRequirement] of labels that are looked up with [ls]. *)
Definition MatchesRequirement (r : Requirement) (ls : Label → string * bool) : bool :=
  let '(val, exists_) := ls (r_key r) in
  match r_operator r with
  | In | Equals | DoubleEquals => exists_ && HasValue r val
  | NotIn | NotEquals => negb exists_ || negb (HasValue r val)
  | Exists => exists_
  | DoesNotExist => negb exists_
  | GreaterThan | LessThan =>
      if negb exists_ then false
      else match ParseInt val with
           | None => false
           | Some lsValue =>
               match elements (r_values r) with
               | [v] =>
                   match ParseInt v with
                   | None => false
                   | Some rValue =>
                       bool_decide (r_operator r = GreaterThan) && (rValue <? lsValue)%Z ||
                       bool_decide (r_operator r = LessThan) && (lsValue <? rValue)%Z
                   end
               | _ => false
               end
           end
  end.

Definition MatchesRequirements (reqs : list Requirement) (ls : Label → string * bool) : bool :=
  forallb (λ r, MatchesRequirement r ls) reqs.

Section selectors.
Context {GR : GoRange} {GS : GoSort}.

(** [matchesEncodedRequirement]. *)
Definition matchesEncodedRequirement (r : Requirement) (ls : Labels) : bool :=
  let encodedValueExists :=
    existsb (λ val, (LookupLabel ls (EncodedCIDRGroupLabel (lbl_Key (r_key r)) val (lbl_Source (r_key r)))).2) (elements (r_values r)) in
  match r_operator r with
  | In | Equals | DoubleEquals => encodedValueExists
  | NotIn | NotEquals => negb encodedValueExists
  | Exists | DoesNotExist => MatchesRequirement r (LookupLabel ls)
  | _ => false
  end.

Definition matchesEncodedRequirements (reqs : list Requirement) (ls : Labels) : bool :=
  forallb (λ r, matchesEncodedRequirement r ls) reqs.

(** [Requirements.GetFirstK8sMatch]; the values in the order of an iteration. *)
Fixpoint GetFirstK8sMatch (reqs : list Requirement) (key : string) : list string * bool :=
  match reqs with
  | [] => ([], false)
  | r :: reqs =>
      if bool_decide (lbl_Source (r_key r) = LabelSourceK8s) && bool_decide (lbl_Key (r_key r) = key) then
        match r_operator r with
        | In | Equals | DoubleEquals => (range (r_values r), true)
        | _ => GetFirstK8sMatch reqs key
        end
      else GetFirstK8sMatch reqs key
  end.

(** The expressions of a Kubernetes label selector; [OpOther] is any other operator. *)
Inductive LabelSelectorOperator := OpIn | OpNotIn | OpExists | OpDoesNotExist | OpOther.

Record LabelSelectorRequirement := mkExpr {
  ex_Key : string;
  ex_Operator : LabelSelectorOperator;
  ex_Values : list string;
}.

Record slimLabelSelector := mkLabelSelector {
  MatchLabels : gmap string string;
  MatchExpressions : list LabelSelectorRequirement;
}.

Definition expr_operator (o : LabelSelectorOperator) : option Operator :=
  match o with
  | OpIn => Some In
  | OpNotIn => Some NotIn
  | OpExists => Some Exists
  | OpDoesNotExist => Some DoesNotExist
  | OpOther => None
  end.

Definition requirement_le (a b : Requirement) : Prop := String.le (GetExtendedKey (r_key a)) (GetExtendedKey (r_key b)).

#[export] Instance requirement_le_dec a b : Decision (requirement_le a b).
Proof. apply _. Defined.

Definition LabelSelectorToRequirements (ls : option slimLabelSelector) : list Requirement :=
  match ls with
  | None => []
  | Some ls =>
      sort_by requirement_le
        (omap (λ k, (λ v, NewRequirement k Equals [v]) <$> MatchLabels ls !! k) (range (dom (MatchLabels ls))) ++
         omap (λ e, (λ op, NewRequirement (ex_Key e) op (ex_Values e)) <$> expr_operator (ex_Operator e)) (MatchExpressions ls))%list
  end.

(** ** Selectors *)

Definition PodNamespaceLabel : string := "io.kubernetes.pod.namespace".
Definition podNamespaceLabel : Label := NewLabel PodNamespaceLabel "" LabelSourceK8s.

(** The concrete types of the interface [Selector]. *)
Inductive Selector :=
  | LabelSelector (key : string) (requirements : list Requirement) (namespaces : list string)
  | FQDNSelector (key : string) (label : Label)
  | CIDRSelector (key : string) (requirements : list Requirement) (encoded : bool).

(** [NewLabelSelector]; the key is that of the endpoint selector. *)
Definition NewLabelSelector (key : string) (ls : option slimLabelSelector) : Selector :=
  let requirements := LabelSelectorToRequirements ls in
  LabelSelector key requirements (GetFirstK8sMatch requirements PodNamespaceLabel).1.

Definition Selector_Key (s : Selector) : string :=
  match s with LabelSelector k _ _ => k | FQDNSelector k _ => k | CIDRSelector k _ _ => k end.

Definition Selector_IsWildcard (s : Selector) : bool :=
  match s with LabelSelector _ reqs _ => bool_decide (reqs = []) | _ => false end.

Definition SelectedNamespaces (s : Selector) : list string :=
  match s with LabelSelector _ _ ns => ns | _ => [] end.

(** The settings that the matching of CIDRs depends on. *)
Record SelectorConfig := mkSelectorConfig {
  PolicyCIDRMatchesNodes : bool;
  PolicyCIDRMatchesPods : bool;
  IPv4Enabled : bool;
  IPv6Enabled : bool;
}.

Definition hasCIDRLabel (lbls : Labels) (is4 : bool) : bool :=
  existsb (λ x, match lbl_cidr x.2 with Some p => bool_decide (Is4 (pfx_Addr p) = is4) | None => false end) (map_to_list lbls).

Definition matchesCIDRWildcard (c : SelectorConfig) (req : Requirement) (lbls : Labels) : bool :=
  let key := lbl_Key (r_key req) in
  if bool_decide (lbl_Source (r_key req) ≠ LabelSourceReserved) then false
  else IPv4Enabled c && (bool_decide (key = IDNameWorldIPv4) || bool_decide (key = IDNameWorld)) && hasCIDRLabel lbls true ||
       IPv6Enabled c && (bool_decide (key = IDNameWorldIPv6) || bool_decide (key = IDNameWorld)) && hasCIDRLabel lbls false.

Definition Selector_Matches (c : SelectorConfig) (s : Selector) (lbls : Labels) : bool :=
  match s with
  | LabelSelector _ reqs _ => MatchesRequirements reqs (LookupLabel lbls)
  | FQDNSelector _ label => HasLabel lbls label
  | CIDRSelector _ reqs encoded =>
      let isNode := HasHostLabel lbls || HasRemoteNodeLabel lbls in
      let allowed := HasWorldLabel lbls || isNode && PolicyCIDRMatchesNodes c || negb isNode && PolicyCIDRMatchesPods c in
      if negb allowed then false
      else if encoded then matchesEncodedRequirements reqs lbls
      else forallb (λ r, matchesCIDRWildcard c r lbls || MatchesRequirement r (LookupLabel lbls)) reqs
  end.

(** ** Namespaces *)

(** The namespace of an identity with the labels. *)
Definition namespace_of (lbls : Labels) : string := (LookupLabel lbls podNamespaceLabel).1.

(** Labels that match requirements have one of the values the requirements have for a key. *)
Lemma first_match_value reqs key ls : (GetFirstK8sMatch reqs key).2 = true → MatchesRequirements reqs ls = true →
  ∃ l, lbl_Source l = LabelSourceK8s ∧ lbl_Key l = key ∧ (ls l).2 = true ∧ (ls l).1 ∈ (GetFirstK8sMatch reqs key).1.
Proof.
  induction reqs as [|r reqs IH]; [done|]. cbn [GetFirstK8sMatch MatchesRequirements forallb]. intros Hf [Hr Hm]%andb_true_iff.
  destruct (bool_decide_reflect (lbl_Source (r_key r) = LabelSourceK8s)) as [Hs|]; [|by apply IH].
  destruct (bool_decide_reflect (lbl_Key (r_key r) = key)) as [Hk|]; [|by apply IH]. cbn [andb] in *.
  unfold MatchesRequirement in Hr. destruct (r_operator r); try (by apply IH).
  all: exists (r_key r); destruct (ls (r_key r)) as [val ex]; apply andb_true_iff in Hr as [-> Hv%bool_decide_eq_true];
    split_and!; try done; by apply elem_of_range.
Qed.

(** The lookup of a label that is not a CIDR goes by its source and its key. *)
Lemma LookupLabel_same lbls l l' : lbl_Source l = lbl_Source l' → lbl_Key l = lbl_Key l' → lbl_Source l ≠ LabelSourceCIDR →
  LookupLabel lbls l = LookupLabel lbls l'.
Proof.
  intros Hs Hk Hc. unfold LookupLabel. rewrite <- Hs, <- Hk, bool_decide_eq_true_2 by done.
  destruct (lbls !! lbl_Key l) as [x|]; [|done].
  assert (E : HasKey x l = HasKey x l'); [|by rewrite E].
  unfold HasKey, IsAnySource. rewrite <- Hs, <- Hk. rewrite (bool_decide_eq_false_2 (lbl_Source l = LabelSourceCIDR)) by done. done.
Qed.

(** Labels that match requirements with namespaces are of one of the namespaces. *)
Lemma requirements_namespace reqs lbls : (GetFirstK8sMatch reqs PodNamespaceLabel).1 ≠ [] →
  MatchesRequirements reqs (LookupLabel lbls) = true → namespace_of lbls ∈ (GetFirstK8sMatch reqs PodNamespaceLabel).1.
Proof.
  intros Hn Hm. assert (Hf : (GetFirstK8sMatch reqs PodNamespaceLabel).2 = true).
  { clear Hm. induction reqs as [|r reqs IH]; [done|]. revert Hn. cbn. destruct (_ && _); [|done]. by destruct (r_operator r). }
  destruct (first_match_value reqs PodNamespaceLabel (LookupLabel lbls) Hf Hm) as (l & Hs & Hk & _ & Hv).
  unfold namespace_of. rewrite (LookupLabel_same lbls podNamespaceLabel l); [done|by rewrite Hs|by rewrite Hk|done].
Qed.
End selectors.
