(* ===== verification/SelectorCache.v ===== *)
(** * The selector cache

    Model of [src/pkg/policy/selectorcache.go] and [selectorcache_selector.go]: the identities
    and the selectors of policies, the identities each selector selects, and the notifications
    to the users of the selectors. *)

From S2P Require Import Prelude Labels Selectors.

Local Open Scope Z_scope.

(** What the cache uses of the interface [Selector], and the package's [WildcardSelector]: only
    identities of the selected namespaces match, and a wildcard selector matches all. *)
Class CacheSelector (S : Type) `{GoRange} `{GoSort} := {
  cs_Key : S → string;
  cs_Matches : S → Labels → bool;
  cs_Namespaces : S → list string;
  cs_IsFQDN : S → bool;
  cs_IsWildcard : S → bool;
  cs_WildcardSelector : S;
  cs_wildcard : ∀ s lbls, cs_IsWildcard s = true → cs_Matches s lbls = true;
  cs_WildcardSelector_wildcard : cs_IsWildcard cs_WildcardSelector = true;
  cs_namespace : ∀ s lbls, cs_Namespaces s ≠ [] → cs_Matches s lbls = true → namespace_of lbls ∈ cs_Namespaces s;
}.

(** ** Identities *)

Record scIdentity := mkScIdentity {
  NID : Z;
  sc_lbls : Labels;
  sc_namespace : string;
}.

(** The identities are objects; those of a namespace are a set of pointers. *)
Record scIdentityCache := mkIdentityCache {
  ic_ids : gmap Z (nat * scIdentity);
  byNamespace : gmap string (gmap nat scIdentity);
  ic_next : nat;
}.

Section identities.
Context {GR : GoRange} {GS : GoSort} {Sel : Type} {CS : CacheSelector Sel}.
Implicit Types (c : scIdentityCache).

Definition emptyIdentityCache : scIdentityCache := mkIdentityCache ∅ ∅ 0.

Definition ic_insert c (nid : Z) (lbls : Labels) : scIdentityCache :=
  let namespace := namespace_of lbls in
  let id := mkScIdentity nid lbls namespace in
  mkIdentityCache (<[nid := (ic_next c, id)]> (ic_ids c))
    (<[namespace := <[ic_next c := id]> (default ∅ (byNamespace c !! namespace))]> (byNamespace c)) (S (ic_next c)).

Definition newScIdentityCache (ids : gmap Z Labels) : scIdentityCache :=
  foldl (λ c nid, match ids !! nid with Some lbls => ic_insert c nid lbls | None => c end) emptyIdentityCache (range (dom ids)).

Definition ic_delete c (nid : Z) : scIdentityCache :=
  match ic_ids c !! nid with
  | None => c
  | Some (p, id) =>
      let ns := sc_namespace id in
      let byNamespace :=
        match byNamespace c !! ns with
        | None => byNamespace c
        | Some m =>
            let m := delete p m in
            if bool_decide (m = ∅) then delete ns (byNamespace c) else <[ns := m]> (byNamespace c)
        end in
      mkIdentityCache (delete nid (ic_ids c)) byNamespace (ic_next c)
  end.

Definition ic_find c (nid : Z) : option scIdentity := snd <$> ic_ids c !! nid.

(** [scIdentityCache.selections]: the matching identities, in the order of the iteration. *)
Definition ic_selections c (sel : Sel) : list Z :=
  let pick id := if cs_Matches sel (sc_lbls id) then [NID id] else [] in
  match cs_Namespaces sel with
  | [] => range_values (ic_ids c) ≫= λ x, pick x.2
  | namespaces => namespaces ≫= λ ns, range_values (default ∅ (byNamespace c !! ns)) ≫= pick
  end.
End identities.

(** ** Selectors *)

Record identitySelector (Sel U : Type) `{Countable U} := mkIdentitySelector {
  is_source : Sel;
  is_key : string;
  is_users : gset U;
  cachedSelections : gset Z;
}.
Arguments mkIdentitySelector {Sel U _ _}.
Arguments is_source {Sel U _ _}.
Arguments is_key {Sel U _ _}.
Arguments is_users {Sel U _ _}.
Arguments cachedSelections {Sel U _ _}.

(** A notification: a change of a selector, or a commit with its snapshot. *)
Record CacheSnapshot := mkCacheSnapshot { sn_revision : Z; sn_selections : gmap Z (list Z) }.

Inductive notification (U : Type) :=
  | SelectionUpdated (user : U) (selector : Z) (added deleted : list Z)
  | SelectionCommit (user : U) (txn : CacheSnapshot).
Arguments SelectionUpdated {U}.
Arguments SelectionCommit {U}.

(** The selectors are objects, which their identifiers stand for. *)
Record SelectorCache (Sel U : Type) `{Countable U} := mkSelectorCache {
  readTxn : CacheSnapshot;
  sc_revision : Z;
  writeableSelections : gmap Z (list Z);
  idCache : scIdentityCache;
  objects : gmap Z (identitySelector Sel U);
  selectors : gmap string Z;
  selectorsByNamespace : gmap string (gset Z);
  userNotes : list (notification U);
  notifiedUsers : gset U;
  lastSelectorId : Z;
  fqdnNotes : list (bool * string);
}.
Arguments mkSelectorCache {Sel U _ _}.
Arguments readTxn {Sel U _ _}.
Arguments sc_revision {Sel U _ _}.
Arguments writeableSelections {Sel U _ _}.
Arguments idCache {Sel U _ _}.
Arguments objects {Sel U _ _}.
Arguments selectors {Sel U _ _}.
Arguments selectorsByNamespace {Sel U _ _}.
Arguments userNotes {Sel U _ _}.
Arguments notifiedUsers {Sel U _ _}.
Arguments lastSelectorId {Sel U _ _}.
Arguments fqdnNotes {Sel U _ _}.

Section cache.
Context {GR : GoRange} {GS : GoSort} {Sel : Type} {CS : CacheSelector Sel} {U : Type} `{Countable U}.
Implicit Types (sc : SelectorCache Sel U) (o : identitySelector Sel U) (id nid : Z) (user : U).

(** *** Field updates *)

Definition set_objects f sc : SelectorCache Sel U :=
  mkSelectorCache (readTxn sc) (sc_revision sc) (writeableSelections sc) (idCache sc) (f (objects sc)) (selectors sc)
    (selectorsByNamespace sc) (userNotes sc) (notifiedUsers sc) (lastSelectorId sc) (fqdnNotes sc).
Definition set_writeable f sc : SelectorCache Sel U :=
  mkSelectorCache (readTxn sc) (sc_revision sc) (f (writeableSelections sc)) (idCache sc) (objects sc) (selectors sc)
    (selectorsByNamespace sc) (userNotes sc) (notifiedUsers sc) (lastSelectorId sc) (fqdnNotes sc).
Definition set_idCache c sc : SelectorCache Sel U :=
  mkSelectorCache (readTxn sc) (sc_revision sc) (writeableSelections sc) c (objects sc) (selectors sc)
    (selectorsByNamespace sc) (userNotes sc) (notifiedUsers sc) (lastSelectorId sc) (fqdnNotes sc).
Definition set_index (m : gmap string Z) (n : gmap string (gset Z)) sc : SelectorCache Sel U :=
  mkSelectorCache (readTxn sc) (sc_revision sc) (writeableSelections sc) (idCache sc) (objects sc) m
    n (userNotes sc) (notifiedUsers sc) (lastSelectorId sc) (fqdnNotes sc).
Definition set_notes (l : list (notification U)) (s : gset U) sc : SelectorCache Sel U :=
  mkSelectorCache (readTxn sc) (sc_revision sc) (writeableSelections sc) (idCache sc) (objects sc) (selectors sc)
    (selectorsByNamespace sc) l s (lastSelectorId sc) (fqdnNotes sc).
Definition set_lastSelectorId id sc : SelectorCache Sel U :=
  mkSelectorCache (readTxn sc) (sc_revision sc) (writeableSelections sc) (idCache sc) (objects sc) (selectors sc)
    (selectorsByNamespace sc) (userNotes sc) (notifiedUsers sc) id (fqdnNotes sc).
Definition add_fqdnNote n sc : SelectorCache Sel U :=
  mkSelectorCache (readTxn sc) (sc_revision sc) (writeableSelections sc) (idCache sc) (objects sc) (selectors sc)
    (selectorsByNamespace sc) (userNotes sc) (notifiedUsers sc) (lastSelectorId sc) (fqdnNotes sc ++ [n]).

Definition set_cached (s : gset Z) o : identitySelector Sel U := mkIdentitySelector (is_source o) (is_key o) (is_users o) s.
Definition set_users (s : gset U) o : identitySelector Sel U := mkIdentitySelector (is_source o) (is_key o) s (cachedSelections o).

Definition NewSelectorCache (ids : gmap Z Labels) : SelectorCache Sel U :=
  mkSelectorCache (mkCacheSnapshot 0 ∅) 0 ∅ (newScIdentityCache ids) ∅ ∅ ∅ [] ∅ 0 [].

(** *** Selections *)

Definition sorted_ids (s : gset Z) : list Z := sort_by Z.le (range s).

(** [identitySelector.updateSelections]. *)
Definition publish id (s : gset Z) sc : SelectorCache Sel U :=
  set_writeable (λ w, if bool_decide (s = ∅) then delete id w else <[id := sorted_ids s]> w) sc.

(** [SelectorCache.commit]. *)
Definition commit sc : SelectorCache Sel U :=
  let rev := uwrap 64 (sc_revision sc + 1) in
  mkSelectorCache (mkCacheSnapshot rev (writeableSelections sc)) rev (writeableSelections sc) (idCache sc) (objects sc) (selectors sc)
    (selectorsByNamespace sc) (userNotes sc) (notifiedUsers sc) (lastSelectorId sc) (fqdnNotes sc).

(** [SelectorSnapshot.Get] and [identitySelector.GetSelections]. *)
Definition GetSelectionsAt (sn : CacheSnapshot) id : list Z := default [] (sn_selections sn !! id).
Definition GetSelections sc id : list Z := GetSelectionsAt (readTxn sc) id.

(** [sort.Search] between [i] and [j]. *)
Fixpoint Search (fuel : nat) (i j : nat) (f : nat → bool) : nat :=
  match fuel with
  | O => i
  | S fuel =>
      if (i <? j)%nat then
        let h := ((i + j) / 2)%nat in
        if f h then Search fuel i h f else Search fuel (S h) j f
      else i
  end.

(** [identitySelector.Selects]; [wildcard] is the key of the wildcard selector. *)
Definition Selects (wildcard : string) sc id nid : bool :=
  match objects sc !! id with
  | None => false
  | Some o =>
      if bool_decide (is_key o = wildcard) then true
      else
        let nids := GetSelections sc id in
        let idx := Search (length nids) 0 (length nids) (λ i, match nids !! i with Some x => nid <=? x | None => false end) in
        bool_decide (nids !! idx = Some nid)
  end.

(** *** Users *)

(** [addUser]; [notifier] is whether the FQDN subsystem is told. *)
Definition addUser (notifier : bool) id user sc : SelectorCache Sel U * bool :=
  match objects sc !! id with
  | None => (sc, false)
  | Some o =>
      if bool_decide (user ∈ is_users o) then (sc, false)
      else
        let o := set_users ({[ user ]} ∪ is_users o) o in
        let sc := set_objects (insert id o) sc in
        (if bool_decide (size (is_users o) = 1%nat) && notifier && cs_IsFQDN (is_source o)
         then add_fqdnNote (true, is_key o) sc else sc, true)
  end.

Definition removeUser (notifier : bool) id user sc : SelectorCache Sel U * bool :=
  match objects sc !! id with
  | None => (sc, false)
  | Some o =>
      if bool_decide (user ∈ is_users o) then
        let o := set_users (is_users o ∖ {[ user ]}) o in
        let sc := set_objects (insert id o) sc in
        if bool_decide (is_users o = ∅) then
          (if notifier && cs_IsFQDN (is_source o) then add_fqdnNote (false, is_key o) sc else sc, true)
        else (sc, false)
      else (sc, false)
  end.

(** *** The map of selectors *)

(** The namespaces a selector is indexed under. *)
Definition index_namespaces (sel : Sel) : list string := match cs_Namespaces sel with [] => [EmptyString] | l => l end.

Definition selectorMap_Set (key : string) id (sel : Sel) sc : SelectorCache Sel U :=
  set_index (<[key := id]> (selectors sc))
    (foldl (λ m ns, <[ns := {[ id ]} ∪ default ∅ (m !! ns)]> m) (selectorsByNamespace sc) (index_namespaces sel)) sc.

Definition selectorMap_Delete (key : string) id (sel : Sel) sc : SelectorCache Sel U :=
  set_index (delete key (selectors sc))
    (foldl (λ m ns, match m !! ns with
                    | None => m
                    | Some idx => let idx := idx ∖ {[ id ]} in
                                  if bool_decide (idx = ∅) then delete ns m else <[ns := idx]> m
                    end) (selectorsByNamespace sc) (index_namespaces sel)) sc.

(** *** Adding and removing selectors *)

Definition addSelectorLocked (key : string) (source : Sel) sc : SelectorCache Sel U * Z :=
  let id := uwrap 64 (lastSelectorId sc + 1) in
  let sc := set_lastSelectorId id sc in
  let sc := selectorMap_Set key id source sc in
  let cached : gset Z := list_to_set (ic_selections (idCache sc) source) in
  let sc := set_objects (insert id (mkIdentitySelector source key ∅ cached)) sc in
  (publish id cached sc, id).

(** One selector of [addSelectorsTxn]: its identifier and whether the user is new. *)
Definition addSelectorTxn (notifier : bool) user (x : SelectorCache Sel U * list Z * bool) (selector : Sel)
    : SelectorCache Sel U * list Z * bool :=
  let '(sc, css, added) := x in
  let '(sc, id) :=
    match selectors sc !! cs_Key selector with
    | Some id => (sc, id)
    | None => addSelectorLocked (cs_Key selector) selector sc
    end in
  let '(sc, new) := addUser notifier id user sc in
  (sc, css ++ [id], added || new).

Definition addSelectorsTxn (notifier : bool) user (sels : list Sel) sc : SelectorCache Sel U * list Z * bool :=
  foldl (addSelectorTxn notifier user) (sc, [], false) sels.

(** [selectsAll]. *)
Definition sc_selectsAll (sels : list Sel) : bool :=
  match sels with [] => true | _ => existsb cs_IsWildcard sels end.

(** The selectors that stand for the given ones in the cache. *)
Definition cached_selectors (sels : list Sel) : list Sel :=
  if sc_selectsAll sels then [cs_WildcardSelector] else sels.

(** [SelectorCache.AddSelectorsTxn] does not commit, [AddSelectors] does. *)
Definition sc_AddSelectorsTxn (notifier : bool) user (sels : list Sel) sc : SelectorCache Sel U * list Z * bool :=
  addSelectorsTxn notifier user (cached_selectors sels) sc.

Definition AddSelectors (notifier : bool) user (sels : list Sel) sc : SelectorCache Sel U * list Z * bool :=
  let '(sc, css, added) := addSelectorsTxn notifier user (cached_selectors sels) sc in (commit sc, css, added).

Definition removeSelectorLocked (notifier : bool) user sc (key : string) : SelectorCache Sel U :=
  match selectors sc !! key with
  | None => sc
  | Some id =>
      let '(sc, last) := removeUser notifier id user sc in
      if last then
        match objects sc !! id with
        | Some o => publish id (cachedSelections o) (selectorMap_Delete key id (is_source o) sc)
        | None => sc
        end
      else sc
  end.

Definition RemoveSelectors (notifier : bool) user (keys : list string) sc : SelectorCache Sel U :=
  commit (foldl (removeSelectorLocked notifier user) sc keys).

Definition RemoveSelector (notifier : bool) user (key : string) sc : SelectorCache Sel U :=
  commit (removeSelectorLocked notifier user sc key).

Definition ChangeUser (key : string) (from to : U) sc : SelectorCache Sel U :=
  match selectors sc !! key with
  | None => sc
  | Some id => (removeUser false id from (addUser false id to sc).1).1
  end.

(** *** Updating identities *)

Definition CanSkipUpdate (added deleted : gmap Z Labels) sc : bool :=
  forallb (λ nid, bool_decide (ic_find (idCache sc) nid = None)) (elements (dom deleted)) &&
  forallb (λ x, match ic_find (idCache sc) x.1 with
                | None => false
                | Some id => Labels_Equals (sc_lbls id) x.2
                end) (map_to_list added).

(** [queueUserNotification] for each user of a selector. *)
Definition notifyUsers id (users : gset U) (adds dels : list Z) sc : SelectorCache Sel U :=
  set_notes (userNotes sc ++ map (λ u, SelectionUpdated u id adds dels) (range users)) (notifiedUsers sc ∪ users) sc.

Definition queueNotifiedUsersCommit sc : SelectorCache Sel U :=
  set_notes (userNotes sc ++ map (λ u, SelectionCommit u (readTxn sc)) (range (notifiedUsers sc))) ∅ sc.

(** The loop of [updateSelections] over the deleted identities. *)
Definition drop_deleted (deleted cached : gset Z) : list Z * gset Z :=
  (filter (.∈ cached) (range deleted), cached ∖ deleted).

(** The loop over the added ones: the additions, the selections and whether one was mutated. *)
Definition scan_added (c : scIdentityCache) (source : Sel) (x : list Z * gset Z * bool) nid : list Z * gset Z * bool :=
  let '(adds, cached, mutated) := x in
  match ic_find c nid with
  | None => x
  | Some id =>
      let matches := cs_Matches source (sc_lbls id) in
      if matches && negb (bool_decide (nid ∈ cached)) then (adds ++ [nid], {[ nid ]} ∪ cached, mutated)
      else if negb matches && bool_decide (nid ∈ cached) then (adds, cached ∖ {[ nid ]}, true)
      else x
  end.

(** [SelectorCache.updateSelections]. *)
Definition updateSelections (added : list Z) (deleted : gset Z) (x : SelectorCache Sel U * bool * bool) id
    : SelectorCache Sel U * bool * bool :=
  let '(sc, updated, mutated) := x in
  match objects sc !! id with
  | None => x
  | Some o =>
      let '(dels, cached) := drop_deleted deleted (cachedSelections o) in
      let '(adds, cached, m) := foldl (scan_added (idCache sc) (is_source o)) ([], cached, false) added in
      let sc := set_objects (insert id (set_cached cached o)) sc in
      if bool_decide (dels ++ adds = []) then (sc, updated, mutated || m)
      else (notifyUsers id (is_users o) adds dels (publish id cached sc), true, mutated || m)
  end.

(** The deletions of [UpdateIdentities]: the identities, the namespaces to scan and what is
    left of the deletions. *)
Definition delete_identity (x : scIdentityCache * gmap string (list Z) * gset Z) nid
    : scIdentityCache * gmap string (list Z) * gset Z :=
  let '(c, namespaces, deleted) := x in
  match ic_find c nid with
  | None => x
  | Some old => (ic_delete c nid, <[sc_namespace old := []]> namespaces, {[ nid ]} ∪ deleted)
  end.

Definition append_to (m : gmap string (list Z)) (ns : string) nid : gmap string (list Z) :=
  <[ns := default [] (m !! ns) ++ [nid]]> m.

(** The additions: an identity with the same labels is skipped. *)
Definition add_identity (added : gmap Z Labels) (x : scIdentityCache * gmap string (list Z) * list Z) nid
    : scIdentityCache * gmap string (list Z) * list Z :=
  let '(c, namespaces, rest) := x in
  match added !! nid with
  | None => x
  | Some lbls =>
      if match ic_find c nid with Some old => Labels_Equals lbls (sc_lbls old) | None => false end then x
      else
        let ns := namespace_of lbls in
        let namespaces := append_to namespaces ns nid in
        (ic_insert c nid lbls, if bool_decide (ns = EmptyString) then namespaces else append_to namespaces EmptyString nid, rest ++ [nid])
  end.

(** The selectors to scan, each with the identities added to its namespace. *)
Definition scan_items (namespaces : gmap string (list Z)) sc : list (Z * list Z) :=
  range (dom namespaces) ≫= λ ns,
    map (λ id, (id, default [] (namespaces !! ns))) (range (default ∅ (selectorsByNamespace sc !! ns))).

Definition UpdateIdentities (added deleted : gmap Z Labels) sc : SelectorCache Sel U * bool :=
  let '(c, namespaces, deleted) := foldl delete_identity (idCache sc, {[ EmptyString := [] ]}, ∅) (range (dom deleted)) in
  let '(c, namespaces, rest) := foldl (add_identity added) (c, namespaces, []) (range (dom added)) in
  let sc := set_idCache c sc in
  let '(sc, updated, mutated) :=
    if bool_decide (elements deleted ++ rest = []) then (sc, false, false)
    else foldl (λ x item, updateSelections item.2 deleted x item.1) (sc, false, false) (scan_items namespaces sc) in
  (if updated : bool then queueNotifiedUsersCommit (commit sc) else sc, mutated).

(** One round of [handleUserNotifications] takes the queued notifications. *)
Definition handleUserNotifications sc : SelectorCache Sel U * list (notification U) :=
  (set_notes [] (notifiedUsers sc) sc, userNotes sc).
End cache.
