(* ===== verification/SelectorCacheInv.v ===== *)
(** * Invariants of the selector cache

    The indices of the selector cache ([src/pkg/policy/selectorcache.go]) are exact, and every
    selector selects exactly the identities it matches. *)

From S2P Require Import Prelude Labels Selectors SelectorCache.

Local Open Scope Z_scope.

Section identities.
Context {GR : GoRange} {GS : GoSort} {Sel : Type} {CS : CacheSelector Sel}.
Implicit Types (c : scIdentityCache) (nid : Z) (sel : Sel).

(** ** Identities *)

(** Every identity is in the set of its namespace, and the sets hold nothing else. *)
Record ic_inv c : Prop := {
  ii_id nid p id : ic_ids c !! nid = Some (p, id) →
    NID id = nid ∧ sc_namespace id = namespace_of (sc_lbls id) ∧ (p < ic_next c)%nat;
  ii_indexed nid p id : ic_ids c !! nid = Some (p, id) → byNamespace c !! sc_namespace id ≫= lookup p = Some id;
  ii_exact ns p id : byNamespace c !! ns ≫= lookup p = Some id → sc_namespace id = ns ∧ ic_ids c !! NID id = Some (p, id);
}.

Lemma empty_inv : ic_inv emptyIdentityCache.
Proof. constructor; cbn; intros *; rewrite ?lookup_empty; done. Qed.

Lemma ic_insert_inv c nid lbls : ic_inv c → ic_ids c !! nid = None → ic_inv (ic_insert c nid lbls).
Proof.
  intros [I1 I2 I3] Hn. unfold ic_insert.
  assert (HB : ∀ ns p, <[namespace_of lbls := <[ic_next c := mkScIdentity nid lbls (namespace_of lbls)]>
    (default ∅ (byNamespace c !! namespace_of lbls))]> (byNamespace c) !! ns ≫= lookup p =
    if bool_decide (ns = namespace_of lbls ∧ p = ic_next c) then Some (mkScIdentity nid lbls (namespace_of lbls))
    else byNamespace c !! ns ≫= lookup p).
  { intros ns p. destruct (decide (ns = namespace_of lbls)) as [->|Hne].
    - rewrite lookup_insert_eq. cbn. destruct (decide (p = ic_next c)) as [->|Hp].
      + by rewrite lookup_insert_eq, bool_decide_eq_true_2.
      + rewrite lookup_insert_ne, bool_decide_eq_false_2 by naive_solver. by destruct (byNamespace c !! _).
    - rewrite lookup_insert_ne, bool_decide_eq_false_2 by naive_solver. done. }
  constructor; cbn.
  - intros nid' p id [[<- [= <- <-]]|[_ E]]%lookup_insert_Some; cbn; [split_and!; (done || lia)|].
    destruct (I1 _ _ _ E) as (? & ? & ?). split_and!; (done || lia).
  - intros nid' p id [[<- [= <- <-]]|[_ E]]%lookup_insert_Some; rewrite HB; cbn.
    + by rewrite bool_decide_eq_true_2.
    + rewrite bool_decide_eq_false_2; [by apply (I2 nid')|]. intros [_ ->]. destruct (I1 _ _ _ E) as (_ & _ & ?). lia.
  - intros ns p id. rewrite HB. case_bool_decide as Hb.
    + intros [= <-]. destruct Hb as [-> ->]. cbn. by rewrite lookup_insert_eq.
    + intros E. destruct (I3 _ _ _ E) as [Hns Hid]. split; [done|]. rewrite lookup_insert_ne; [done|]. intros ->. by rewrite Hn in Hid.
Qed.

Lemma ic_delete_inv c nid : ic_inv c → ic_inv (ic_delete c nid).
Proof.
  intros I. unfold ic_delete. destruct (ic_ids c !! nid) as [[p0 id0]|] eqn:E0; [|done]. destruct I as [I1 I2 I3].
  pose proof (I2 _ _ _ E0) as HI. destruct (I1 _ _ _ E0) as (HN0 & _ & _).
  set (bn := match byNamespace c !! sc_namespace id0 with None => _ | Some m => _ end).
  assert (HB : ∀ ns p, bn !! ns ≫= lookup p =
    if bool_decide (ns = sc_namespace id0 ∧ p = p0) then None else byNamespace c !! ns ≫= lookup p).
  { intros ns p. unfold bn. destruct (byNamespace c !! sc_namespace id0) as [m|] eqn:Em; [|done]. cbn in HI.
    destruct (decide (ns = sc_namespace id0)) as [->|Hne].
    - rewrite Em. change (Some m ≫= lookup p) with (m !! p). assert (HD : delete p0 m !! p = if bool_decide (sc_namespace id0 = sc_namespace id0 ∧ p = p0) then None else m !! p).
      { destruct (decide (p = p0)) as [->|Hp]; [by rewrite lookup_delete_eq, bool_decide_eq_true_2|].
        by rewrite lookup_delete_ne, bool_decide_eq_false_2 by naive_solver. }
      rewrite <- HD. clear HD. case_bool_decide as Hm; [rewrite lookup_delete_eq; symmetry; by rewrite Hm, lookup_empty|]. by rewrite lookup_insert_eq.
    - rewrite (bool_decide_eq_false_2 (ns = _ ∧ _)) by naive_solver.
      case_bool_decide; [by rewrite lookup_delete_ne|by rewrite lookup_insert_ne]. }
  constructor; cbn.
  - intros nid' p id [_ E]%lookup_delete_Some. by apply I1.
  - intros nid' p id [Hn E]%lookup_delete_Some. rewrite HB, bool_decide_eq_false_2; [by apply (I2 nid')|].
    intros [Ens ->]. pose proof (I2 _ _ _ E) as HI'. rewrite Ens, HI in HI'. injection HI' as ->.
    destruct (I1 _ _ _ E) as (<- & _). done.
  - intros ns p id. rewrite HB. case_bool_decide as Hb; [done|]. intros E. destruct (I3 _ _ _ E) as [Hns Hid]. split; [done|].
    apply lookup_delete_Some. split; [|done]. intros Heq. rewrite <- Heq, E0 in Hid. injection Hid as <- <-. by destruct Hb.
Qed.

(** ** Selections *)

(** The identities a selector matches. *)
Definition selected c sel : gset Z :=
  dom (filter (λ x : Z * (nat * scIdentity), cs_Matches sel (sc_lbls x.2.2) = true) (ic_ids c)).

Lemma elem_of_selected c sel nid : nid ∈ selected c sel ↔ ∃ id, ic_find c nid = Some id ∧ cs_Matches sel (sc_lbls id) = true.
Proof.
  unfold selected, ic_find. rewrite elem_of_dom. split.
  - intros ([p id] & [E Hm]%map_lookup_filter_Some). exists id. by rewrite E.
  - intros (id & E & Hm). apply fmap_Some in E as ([p id'] & E & ->). exists (p, id'). by apply map_lookup_filter_Some.
Qed.

Lemma find_inv c nid id : ic_inv c → ic_find c nid = Some id → NID id = nid ∧ sc_namespace id = namespace_of (sc_lbls id).
Proof. intros I E. unfold ic_find in E. apply fmap_Some in E as ([p id'] & E & ->). by destruct (ii_id _ I _ _ _ E) as (? & ? & _). Qed.

(** Scanning the namespaces of a selector finds what scanning all identities finds. *)
Lemma selections_exact c sel nid : ic_inv c → nid ∈ ic_selections c sel ↔ nid ∈ selected c sel.
Proof.
  intros I. rewrite elem_of_selected. unfold ic_selections.
  assert (HP : ∀ id, nid ∈ (if cs_Matches sel (sc_lbls id) then [NID id] else []) ↔ nid = NID id ∧ cs_Matches sel (sc_lbls id) = true).
  { intros id. destruct (cs_Matches sel (sc_lbls id)); rewrite ?list_elem_of_singleton, ?elem_of_nil; naive_solver. }
  destruct (cs_Namespaces sel) as [|n ns] eqn:EN.
  - rewrite list_elem_of_bind. split.
    + intros ([p id] & [-> Hm]%HP & (nid' & E)%elem_of_range_values). exists id. split; [|done]. cbn [snd].
      destruct (ii_id _ I _ _ _ E) as (-> & _). unfold ic_find. by rewrite E.
    + intros (id & E & Hm). pose proof (find_inv c nid id I E) as [HN _]. apply fmap_Some in E as ([p id'] & E & ->).
      exists (p, id'). split; [by apply HP|]. apply elem_of_range_values. by exists nid.
  - rewrite <- EN, list_elem_of_bind. split.
    + intros (ns' & Hin & _). apply list_elem_of_bind in Hin as (id & [-> Hm]%HP & (p & E)%elem_of_range_values). exists id. split; [|done].
      destruct (ii_exact _ I ns' p id) as [_ Hid]; [by destruct (byNamespace c !! ns')|]. unfold ic_find. by rewrite Hid.
    + intros (id & E & Hm). pose proof (find_inv c nid id I E) as [HN Hns]. apply fmap_Some in E as ([p id'] & E & ->). cbn [snd] in *.
      exists (sc_namespace id'). split.
      * apply list_elem_of_bind. exists id'. split; [by apply HP|]. apply elem_of_range_values. exists p.
        pose proof (ii_indexed _ I _ _ _ E) as HI. by destruct (byNamespace c !! sc_namespace id').
      * rewrite Hns. apply cs_namespace; [by rewrite EN|done].
Qed.
End identities.

(** ** The cache *)

Section cache.
Context {GR : GoRange} {GS : GoSort} {Sel : Type} {CS : CacheSelector Sel} {U : Type} `{Countable U}.
Implicit Types (sc : SelectorCache Sel U) (o : identitySelector Sel U) (id nid : Z) (user : U).

(** The selectors that are in use. *)
Definition live sc id o : Prop := objects sc !! id = Some o ∧ selectors sc !! is_key o = Some id.

Definition published (s : gset Z) : option (list Z) := if bool_decide (s = ∅) then None else Some (sorted_ids s).

Record sc_inv sc : Prop := {
  sci_ids : ic_inv (idCache sc);
  sci_key key id : selectors sc !! key = Some id → ∃ o, objects sc !! id = Some o ∧ is_key o = key;
  sci_index ns id : id ∈ default ∅ (selectorsByNamespace sc !! ns) ↔ ∃ o, live sc id o ∧ ns ∈ index_namespaces (is_source o);
  sci_fresh id : is_Some (objects sc !! id) → 0 < id ≤ lastSelectorId sc;
  sci_last : 0 ≤ lastSelectorId sc;
  sci_selected id o : live sc id o → cachedSelections o = selected (idCache sc) (is_source o);
  sci_published id o : live sc id o → writeableSelections sc !! id = published (cachedSelections o);
}.

Lemma sc_inv_same sc sc' : idCache sc' = idCache sc → objects sc' = objects sc → selectors sc' = selectors sc →
  selectorsByNamespace sc' = selectorsByNamespace sc → lastSelectorId sc' = lastSelectorId sc →
  writeableSelections sc' = writeableSelections sc → sc_inv sc → sc_inv sc'.
Proof.
  intros E1 E2 E3 E4 E5 E6 [I1 I2 I3 I4 I5 I6 I7].
  assert (HL : ∀ id o, live sc' id o ↔ live sc id o) by (intros; unfold live; by rewrite E2, E3).
  constructor; rewrite ?E1, ?E2, ?E3, ?E4, ?E5, ?E6; try done.
  - intros ns id. rewrite I3. by setoid_rewrite HL.
  - intros id o Hl%HL. by apply (I6 id).
  - intros id o Hl%HL. by apply I7.
Qed.

Lemma live_key sc id o : live sc id o → selectors sc !! is_key o = Some id.
Proof. by intros [_ ?]. Qed.

(** Changing the users of a selector. *)
Lemma users_inv sc id o s : sc_inv sc → objects sc !! id = Some o → sc_inv (set_objects (insert id (set_users s o)) sc).
Proof.
  intros [I1 I2 I3 I4 I5 I6 I7] Ho. set (sc' := set_objects _ sc).
  assert (HL : ∀ i x, live sc' i x ↔ ∃ y, live sc i y ∧ x = if bool_decide (i = id) then set_users s y else y).
  { intros i x. unfold live, sc'. cbn. destruct (decide (i = id)) as [->|Hne].
    - rewrite lookup_insert_eq, bool_decide_eq_true_2 by done. split.
      + intros [[= <-] Hs]. by exists o.
      + intros (y & [Hy Hs] & ->). rewrite Ho in Hy. by injection Hy as <-.
    - rewrite lookup_insert_ne, bool_decide_eq_false_2 by done. naive_solver. }
  assert (HU : ∀ (b : bool) (y : identitySelector Sel U), is_source (if b then set_users s y else y) = is_source y ∧
    cachedSelections (if b then set_users s y else y) = cachedSelections y) by (intros []; done).
  constructor; [done| | | |done| |].
  - intros key i Hi. destruct (I2 key i Hi) as (x & Hx & Hk). unfold sc'. cbn. destruct (decide (i = id)) as [->|].
    + rewrite lookup_insert_eq. eexists. split; [done|]. cbn. rewrite Ho in Hx. by injection Hx as <-.
    + rewrite lookup_insert_ne by done. by exists x.
  - intros ns i. cbn. rewrite I3. split.
    + intros (x & Hl & Hn). eexists. split; [apply HL; by exists x|]. by rewrite (proj1 (HU _ x)).
    + intros (x & (y & Hl & ->)%HL & Hn). exists y. by rewrite (proj1 (HU _ y)) in Hn.
  - intros i. cbn. rewrite lookup_insert_is_Some. intros [<-|[_ Hi]]; apply I4; [by exists o|done].
  - intros i x (y & Hl & ->)%HL. rewrite (proj1 (HU _ y)), (proj2 (HU _ y)). by apply (I6 i).
  - intros i x (y & Hl & ->)%HL. rewrite (proj2 (HU _ y)). by apply I7.
Qed.

Lemma addUser_inv notifier id user sc : sc_inv sc → sc_inv (addUser notifier id user sc).1.
Proof.
  intros I. unfold addUser. destruct (objects sc !! id) as [o|] eqn:Ho; [|done]. case_bool_decide; [done|]. cbn [fst].
  destruct (_ && _); [apply (sc_inv_same (set_objects (insert id (set_users ({[user]} ∪ is_users o) o)) sc)); try done|]; by apply users_inv.
Qed.

Lemma removeUser_inv notifier id user sc : sc_inv sc → sc_inv (removeUser notifier id user sc).1.
Proof.
  intros I. unfold removeUser. destruct (objects sc !! id) as [o|] eqn:Ho; [|done]. case_bool_decide; [|done].
  case_bool_decide; cbn [fst]; [|by apply users_inv].
  destruct (_ && _); [apply (sc_inv_same (set_objects (insert id (set_users (is_users o ∖ {[user]}) o)) sc)); try done|]; by apply users_inv.
Qed.

(** *** The index of the selectors *)

Lemma index_add id l (m : gmap string (gset Z)) ns i :
  i ∈ default ∅ (foldl (λ m ns, <[ns := {[ id ]} ∪ default ∅ (m !! ns)]> m) m l !! ns) ↔ i ∈ default ∅ (m !! ns) ∨ i = id ∧ ns ∈ l.
Proof.
  revert m. induction l as [|n l IH]; intros m; cbn [foldl]; [rewrite elem_of_nil; naive_solver|].
  rewrite IH, elem_of_cons. destruct (decide (ns = n)) as [->|Hne].
  - rewrite lookup_insert_eq. cbn. rewrite elem_of_union, elem_of_singleton. naive_solver.
  - rewrite lookup_insert_ne by done. naive_solver.
Qed.

Lemma index_delete id l (m : gmap string (gset Z)) ns i :
  i ∈ default ∅ (foldl (λ m ns, match m !! ns with
                                | None => m
                                | Some idx => let idx := idx ∖ {[ id ]} in if bool_decide (idx = ∅) then delete ns m else <[ns := idx]> m
                                end) m l !! ns) ↔ i ∈ default ∅ (m !! ns) ∧ ¬ (i = id ∧ ns ∈ l).
Proof.
  revert m. induction l as [|n l IH]; intros m; cbn [foldl]; [rewrite elem_of_nil; naive_solver|].
  rewrite IH, elem_of_cons. set (m' := match m !! n with None => _ | Some _ => _ end).
  assert (HM : i ∈ default ∅ (m' !! ns) ↔ i ∈ default ∅ (m !! ns) ∧ ¬ (i = id ∧ ns = n)).
  { unfold m'. destruct (decide (ns = n)) as [->|Hne].
    - destruct (m !! n) as [idx|] eqn:E; [|rewrite E; set_solver]. cbn zeta. case_bool_decide as Hb.
      + rewrite lookup_delete_eq. cbn. split; [set_solver|]. intros [Hi Hn]. assert (Hc : i ∈ idx ∖ {[id]}) by set_solver. rewrite Hb in Hc. set_solver.
      + rewrite lookup_insert_eq. cbn. set_solver.
    - destruct (m !! n) as [idx|]; [|naive_solver]. cbn zeta.
      case_bool_decide; [rewrite lookup_delete_ne by done|rewrite lookup_insert_ne by done]; naive_solver. }
  rewrite HM. naive_solver.
Qed.

(** *** Adding a selector *)

Lemma selected_list c (sel : Sel) : ic_inv c → list_to_set (ic_selections c sel) = selected c sel.
Proof. intros I. apply set_eq. intros nid. rewrite elem_of_list_to_set. by apply selections_exact. Qed.

Lemma publish_lookup id s sc i :
  writeableSelections (publish id s sc) !! i = if bool_decide (i = id) then published s else writeableSelections sc !! i.
Proof.
  unfold publish, published. cbn. destruct (decide (i = id)) as [->|Hne].
  - rewrite (bool_decide_eq_true_2 (id = id)) by done. case_bool_decide; [apply lookup_delete_eq|apply lookup_insert_eq].
  - rewrite (bool_decide_eq_false_2 (i = id)) by done. case_bool_decide; [by apply lookup_delete_ne|by apply lookup_insert_ne].
Qed.

Lemma addSelector_inv key sel sc : sc_inv sc → selectors sc !! key = None → lastSelectorId sc + 1 < 2 ^ 64 →
  let r := addSelectorLocked key sel sc in
  sc_inv r.1 ∧ r.2 = lastSelectorId sc + 1 ∧ lastSelectorId r.1 = lastSelectorId sc + 1 ∧
  objects r.1 !! r.2 = Some (mkIdentitySelector sel key ∅ (selected (idCache sc) sel)) ∧ selectors r.1 = <[key := r.2]> (selectors sc).
Proof.
  intros [I1 I2 I3 I4 I5 I6 I7] Hk Hl. cbv zeta. unfold addSelectorLocked. cbn [idCache set_lastSelectorId selectorMap_Set set_index lastSelectorId].
  rewrite selected_list by done. unfold uwrap. rewrite Z.mod_small by lia. set (id := lastSelectorId sc + 1). set (s := selected (idCache sc) sel).
  set (o0 := mkIdentitySelector sel key ∅ s). set (sc' := publish _ _ _).
  assert (Hf : objects sc !! id = None). { destruct (objects sc !! id) eqn:E; [|done]. assert (0 < id ≤ lastSelectorId sc) by (apply I4; by rewrite E). lia. }
  assert (HL : ∀ i x, live sc' i x ↔ live sc i x ∨ i = id ∧ x = o0).
  { intros i x. unfold live, sc'. cbn [objects selectors publish set_writeable set_objects selectorMap_Set set_index set_lastSelectorId].
    destruct (decide (i = id)) as [->|Hne].
    - rewrite lookup_insert_eq, Hf. split; [intros [[= <-] _]; by right|].
      intros [[? _]|[_ ->]]; [done|]. split; [done|]. apply lookup_insert_eq.
    - rewrite lookup_insert_ne by done. split.
      + intros [Hx [[_ ?]|[_ Hs]]%lookup_insert_Some]; [congruence|by left].
      + intros [[Hx Hs]|[? _]]; [|done]. split; [done|]. rewrite lookup_insert_ne; [done|]. intros E. by rewrite <- E, Hk in Hs. }
  cbn [fst snd]. split_and!; try done; [|apply lookup_insert_eq]. constructor; [done| | | | | |].
  - intros k i. unfold sc'. cbn. intros [[<- <-]|[Hn Hi]]%lookup_insert_Some; [exists o0; by rewrite lookup_insert_eq|].
    destruct (I2 k i Hi) as (x & Hx & <-). exists x. split; [|done]. rewrite lookup_insert_ne; [done|]. intros <-. by rewrite Hf in Hx.
  - intros ns i. unfold sc' at 1. cbn [publish set_writeable set_objects selectorMap_Set set_index set_lastSelectorId selectorsByNamespace].
    rewrite index_add, I3. setoid_rewrite HL. naive_solver.
  - intros i. unfold sc'. cbn. rewrite lookup_insert_is_Some. intros [<-|[_ Hi]]; [lia|]. specialize (I4 i Hi). lia.
  - unfold sc'. cbn. lia.
  - intros i x [Hx|[-> ->]]%HL; [by apply (I6 i)|done].
  - intros i x. unfold sc' at 2. rewrite HL, publish_lookup. intros [Hx|[-> ->]]; [|by rewrite bool_decide_eq_true_2].
    rewrite bool_decide_eq_false_2; [by apply I7|]. intros ->. destruct Hx as [Hx _]. by rewrite Hf in Hx.
Qed.

Lemma addUser_last notifier id user sc : lastSelectorId (addUser notifier id user sc).1 = lastSelectorId sc.
Proof. unfold addUser. repeat (case_match; try done). Qed.

Lemma addSelectors_inv notifier user sels sc css added : sc_inv sc → lastSelectorId sc + Z.of_nat (length sels) < 2 ^ 64 →
  sc_inv (foldl (addSelectorTxn notifier user) (sc, css, added) sels).1.1.
Proof.
  revert sc css added. induction sels as [|sel sels IH]; intros sc css added I Hl; [done|]. cbn [foldl length] in *.
  unfold addSelectorTxn at 2. destruct (selectors sc !! cs_Key sel) as [id|] eqn:Ek.
  - destruct (addUser notifier id user sc) as [sc' new] eqn:EA. pose proof (addUser_inv notifier id user sc I) as IA.
    pose proof (addUser_last notifier id user sc) as LA. rewrite EA in *. apply IH; [done|]. cbn in LA. lia.
  - destruct (addSelector_inv (cs_Key sel) sel sc I Ek ltac:(lia)) as (I' & Eid & El & _).
    destruct (addSelectorLocked (cs_Key sel) sel sc) as [sc1 id]. cbn [fst snd] in *.
    destruct (addUser notifier id user sc1) as [sc' new] eqn:EA. pose proof (addUser_inv notifier id user sc1 I') as IA.
    pose proof (addUser_last notifier id user sc1) as LA. rewrite EA in *. apply IH; [done|]. cbn in LA. lia.
Qed.

(** *** Removing a selector *)

Lemma delete_selector_inv key id o sc : sc_inv sc → selectors sc !! key = Some id → objects sc !! id = Some o →
  sc_inv (publish id (cachedSelections o) (selectorMap_Delete key id (is_source o) sc)).
Proof.
  intros [I1 I2 I3 I4 I5 I6 I7] Hk Ho. set (sc' := publish _ _ _).
  assert (Eo : is_key o = key) by (destruct (I2 key id Hk) as (x & Hx & <-); congruence).
  assert (HL : ∀ i x, live sc' i x ↔ live sc i x ∧ i ≠ id).
  { intros i x. unfold live, sc'. cbn. split.
    - intros [Hx [Hn Hs]%lookup_delete_Some]. split; [done|]. intros ->. congruence.
    - intros [[Hx Hs] Hn]. split; [done|]. rewrite lookup_delete_ne; [done|]. intros E. congruence. }
  constructor; [done| | |done|done| |].
  - intros k i. unfold sc'. cbn. intros [_ Hi]%lookup_delete_Some. by apply I2.
  - intros ns i. unfold sc' at 1. cbn [publish set_writeable selectorMap_Delete set_index selectorsByNamespace].
    rewrite index_delete, I3. setoid_rewrite HL. split.
    + intros [(x & Hx & Hn) Hne]. exists x. split; [|done]. split; [done|]. intros ->. destruct Hne. split; [done|].
      destruct Hx as [Hx _]. rewrite Ho in Hx. by injection Hx as ->.
    + intros (x & [Hx Hne] & Hn). split; [by exists x|]. naive_solver.
  - intros i x [Hx Hn]%HL. by apply (I6 i).
  - intros i x [Hx Hn]%HL. unfold sc'. rewrite publish_lookup, bool_decide_eq_false_2 by done. by apply I7.
Qed.

Lemma removeUser_selectors notifier id user sc : selectors (removeUser notifier id user sc).1 = selectors sc.
Proof. unfold removeUser. repeat (case_match; try done). Qed.

Lemma removeSelector_inv notifier user sc key : sc_inv sc → sc_inv (removeSelectorLocked notifier user sc key).
Proof.
  intros I. unfold removeSelectorLocked. destruct (selectors sc !! key) as [id|] eqn:Ek; [|done].
  pose proof (removeUser_inv notifier id user sc I) as I'. pose proof (removeUser_selectors notifier id user sc) as ES.
  destruct (removeUser notifier id user sc) as [sc1 lst]. cbn [fst] in *. destruct lst; [|done].
  destruct (objects sc1 !! id) as [o|] eqn:Eo; [|done]. apply delete_selector_inv; [done|by rewrite ES|done].
Qed.
End cache.
