(* ===== verification/SelectorCacheUpdate.v ===== *)
(** * Updates of the selector cache

    [UpdateIdentities] of [src/pkg/policy/selectorcache.go] brings the selections of all
    selectors up to date, and the users of a selector can follow its selections by the
    notifications. *)

From S2P Require Import Prelude Labels Selectors SelectorCache SelectorCacheInv.

Local Open Scope Z_scope.

Lemma if_decide_ext {A} (P Q : Prop) `{Decision P, Decision Q} (a b : A) :
  (P ↔ Q) → (if bool_decide P then a else b) = (if bool_decide Q then a else b).
Proof. intros HPQ. by rewrite (bool_decide_ext P Q). Qed.

Section identities.
Context {GR : GoRange} {GS : GoSort}.
Implicit Types (c : scIdentityCache) (nid : Z).

Lemma find_delete c n nid : ic_find (ic_delete c n) nid = if bool_decide (nid = n) then None else ic_find c nid.
Proof.
  unfold ic_delete, ic_find. destruct (ic_ids c !! n) as [[p id]|] eqn:E; cbn.
  - destruct (decide (nid = n)) as [->|]; [by rewrite lookup_delete_eq, bool_decide_eq_true_2|].
    by rewrite lookup_delete_ne, bool_decide_eq_false_2.
  - case_bool_decide; subst; [by rewrite E|done].
Qed.

Lemma find_insert c n lbls nid :
  ic_find (ic_insert c n lbls) nid = if bool_decide (nid = n) then Some (mkScIdentity n lbls (namespace_of lbls)) else ic_find c nid.
Proof.
  unfold ic_insert, ic_find. cbn. destruct (decide (nid = n)) as [->|]; [by rewrite lookup_insert_eq, bool_decide_eq_true_2|].
  by rewrite lookup_insert_ne, bool_decide_eq_false_2.
Qed.

Lemma find_None c nid : ic_find c nid = None ↔ ic_ids c !! nid = None.
Proof. unfold ic_find. by rewrite fmap_None. Qed.

(** ** Deletions *)

(** The identities, the namespaces and the deletions after the first loop. *)
Record deletions c (l : list Z) (x : scIdentityCache * gmap string (list Z) * gset Z) : Prop := {
  de_inv : ic_inv x.1.1;
  de_find nid : ic_find x.1.1 nid = if bool_decide (nid ∈ l) then None else ic_find c nid;
  de_deleted nid : nid ∈ x.2 ↔ nid ∈ l ∧ is_Some (ic_find c nid);
  de_empty ns l' : x.1.2 !! ns = Some l' → l' = [];
  de_root : is_Some (x.1.2 !! EmptyString);
  de_namespace nid id : nid ∈ x.2 → ic_find c nid = Some id → is_Some (x.1.2 !! sc_namespace id);
}.

Lemma deletions_spec c l : ic_inv c → deletions c l (foldl delete_identity (c, {[ EmptyString := [] ]}, ∅) l).
Proof.
  intros I. induction l as [|n l IH] using rev_ind.
  - constructor; cbn; [done| | | | |].
    + intros nid. by rewrite bool_decide_eq_false_2 by (by intros ?%elem_of_nil).
    + intros nid. rewrite elem_of_nil. set_solver.
    + intros ns l' [<- <-]%lookup_singleton_Some. done.
    + rewrite lookup_singleton_eq. by eexists.
    + set_solver.
  - rewrite foldl_snoc. destruct (foldl _ _ l) as [[c' ns'] d']. destruct IH as [J1 J2 J3 J4 J5 J6]. cbn [fst snd] in *.
    unfold delete_identity. rewrite J2. destruct (decide (n ∈ l)) as [Hin|Hin]; [rewrite bool_decide_eq_true_2 by done|rewrite bool_decide_eq_false_2 by done].
    { constructor; cbn; try done.
      - intros nid. rewrite J2. apply if_decide_ext. rewrite elem_of_app, list_elem_of_singleton. naive_solver.
      - intros nid. rewrite J3, elem_of_app, list_elem_of_singleton. naive_solver. }
    destruct (ic_find c n) as [old|] eqn:En.
    + constructor; cbn; [by apply ic_delete_inv| | | | |].
      * intros nid. rewrite find_delete, J2. destruct (decide (nid = n)) as [->|].
        { rewrite !bool_decide_eq_true_2; [done| |done]. apply elem_of_app. right. by apply list_elem_of_singleton. }
        rewrite (bool_decide_eq_false_2 (nid = n)) by done. apply if_decide_ext. rewrite elem_of_app, list_elem_of_singleton. naive_solver.
      * intros nid. rewrite elem_of_union, elem_of_singleton, J3, elem_of_app, list_elem_of_singleton. split; [|naive_solver].
        intros [->|[? ?]]; [|naive_solver]. split; [by right|]. by rewrite En.
      * intros ns l' [[_ <-]|[_ E]]%lookup_insert_Some; [done|by apply (J4 ns)].
      * apply lookup_insert_is_Some. destruct (decide (sc_namespace old = EmptyString)); [by left|by right].
      * intros nid id [->%elem_of_singleton|Hd]%elem_of_union Ef.
        { rewrite En in Ef. injection Ef as ->. rewrite lookup_insert_eq. by eexists. }
        apply lookup_insert_is_Some. destruct (decide (sc_namespace old = sc_namespace id)); [by left|right; split; [done|]]. by apply (J6 nid).
    + constructor; cbn; try done.
      * intros nid. rewrite J2. destruct (decide (nid = n)) as [->|].
        { rewrite (bool_decide_eq_false_2 (n ∈ l)), En by done. by case_bool_decide. }
        apply if_decide_ext. rewrite elem_of_app, list_elem_of_singleton. naive_solver.
      * intros nid. rewrite J3, elem_of_app, list_elem_of_singleton. split; [naive_solver|].
        intros [[?| ->] Hs]; [done|]. rewrite En in Hs. by destruct Hs.
Qed.

(** ** Additions *)

Definition new_identity nid (lbls : Labels) : scIdentity := mkScIdentity nid lbls (namespace_of lbls).

(** No identity gets other labels. *)
Definition unchanged c (added : gmap Z Labels) : Prop :=
  ∀ nid lbls id, added !! nid = Some lbls → ic_find c nid = Some id → Labels_Equals lbls (sc_lbls id) = true.

(** The identities, the namespaces with the additions and all additions after the second loop. *)
Record additions c (namespaces : gmap string (list Z)) (added : gmap Z Labels) (l : list Z)
    (x : scIdentityCache * gmap string (list Z) * list Z) : Prop := {
  ad_inv : ic_inv x.1.1;
  ad_find nid : ic_find x.1.1 nid =
    match ic_find c nid with Some id => Some id | None => if bool_decide (nid ∈ l) then new_identity nid <$> added !! nid else None end;
  ad_rest nid : nid ∈ x.2 ↔ nid ∈ l ∧ ic_find c nid = None ∧ is_Some (added !! nid);
  ad_listed ns nid : nid ∈ default [] (x.1.2 !! ns) → nid ∈ x.2;
  ad_dom ns : is_Some (namespaces !! ns) → is_Some (x.1.2 !! ns);
  ad_root nid : nid ∈ x.2 → nid ∈ default [] (x.1.2 !! EmptyString);
  ad_namespace nid lbls : nid ∈ x.2 → added !! nid = Some lbls → nid ∈ default [] (x.1.2 !! namespace_of lbls);
}.

Lemma elem_of_append_to m ns n ns' nid :
  nid ∈ default [] (append_to m ns n !! ns') ↔ nid ∈ default [] (m !! ns') ∨ ns' = ns ∧ nid = n.
Proof.
  unfold append_to. destruct (decide (ns = ns')) as [<-|Hne].
  - rewrite lookup_insert_eq. cbn. rewrite elem_of_app, list_elem_of_singleton. naive_solver.
  - rewrite lookup_insert_ne by done. naive_solver.
Qed.

Lemma append_to_dom m ns n ns' : is_Some (m !! ns') → is_Some (append_to m ns n !! ns').
Proof. intros Hs. apply lookup_insert_is_Some. destruct (decide (ns = ns')); [by left|by right]. Qed.

(** The namespaces an addition is listed under. *)
Definition list_addition (m : gmap string (list Z)) (ns : string) nid : gmap string (list Z) :=
  if bool_decide (ns = EmptyString) then append_to m ns nid else append_to (append_to m ns nid) EmptyString nid.

Lemma elem_of_list_addition m ns n ns' nid :
  nid ∈ default [] (list_addition m ns n !! ns') ↔ nid ∈ default [] (m !! ns') ∨ (ns' = ns ∨ ns' = EmptyString) ∧ nid = n.
Proof. unfold list_addition. case_bool_decide; rewrite !elem_of_append_to; naive_solver. Qed.

Lemma list_addition_dom m ns n ns' : is_Some (m !! ns') → is_Some (list_addition m ns n !! ns').
Proof. intros Hs. unfold list_addition. case_bool_decide; by repeat apply append_to_dom. Qed.

Section additions.
Context (c : scIdentityCache) (namespaces : gmap string (list Z)) (added : gmap Z Labels).
Context (I : ic_inv c) (HE : ∀ ns l, namespaces !! ns = Some l → l = []) (HU : unchanged c added).

Lemma addition_step l n x : n ∉ l → additions c namespaces added l x →
  additions c namespaces added (l ++ [n]) (add_identity added x n).
Proof.
  intros Hn J. destruct x as [[c' ns'] r']. destruct J as [J1 J2 J3 J4 J5 J6 J7]. cbn [fst snd] in *.
  assert (HL : ∀ nid, nid ∈ l ++ [n] ↔ nid ∈ l ∨ nid = n) by (intros; by rewrite elem_of_app, list_elem_of_singleton).
  unfold add_identity. destruct (added !! n) as [lbls|] eqn:En.
  2: { constructor; cbn; try done.
    - intros nid. rewrite J2. destruct (ic_find c nid); [done|]. destruct (decide (nid = n)) as [->|].
      + rewrite En. by repeat case_bool_decide.
      + apply if_decide_ext. rewrite HL. tauto.
    - intros nid. rewrite J3, HL. split; [tauto|]. intros ([?| ->] & ? & Hs); [done|]. rewrite En in Hs. by destruct Hs. }
  rewrite J2. destruct (ic_find c n) as [id|] eqn:Ec.
  { rewrite (HU n lbls id) by done. constructor; cbn; try done.
    - intros nid. rewrite J2. destruct (ic_find c nid) eqn:Ef; [done|]. apply if_decide_ext. rewrite HL. split; [by left|].
      intros [?| ->]; [done|congruence].
    - intros nid. rewrite J3, HL. split; [tauto|]. intros ([?| ->] & ? & Hs); [done|congruence]. }
  rewrite (bool_decide_eq_false_2 (n ∈ l)) by done.
  assert (ENS : (if bool_decide (namespace_of lbls = EmptyString) then append_to ns' (namespace_of lbls) n
    else append_to (append_to ns' (namespace_of lbls) n) EmptyString n) = list_addition ns' (namespace_of lbls) n) by done.
  rewrite ENS. assert (HR : ∀ nid, nid ∈ r' ++ [n] ↔ nid ∈ r' ∨ nid = n) by (intros; by rewrite elem_of_app, list_elem_of_singleton).
  constructor; cbn.
  - apply ic_insert_inv; [done|]. apply find_None. by rewrite J2, Ec, bool_decide_eq_false_2.
  - intros nid. rewrite find_insert. destruct (decide (nid = n)) as [->|].
    + rewrite Ec, En, !bool_decide_eq_true_2; [done| |done]. apply HL. by right.
    + rewrite (bool_decide_eq_false_2 (nid = n)), J2 by done. destruct (ic_find c nid); [done|]. apply if_decide_ext. rewrite HL. tauto.
  - intros nid. rewrite HR, J3, HL. split; [|tauto]. intros [?| ->]; [tauto|]. split_and!; [by right|done|by exists lbls].
  - intros ns nid [Hin|[_ ->]]%elem_of_list_addition; apply HR; [left; by apply (J4 ns)|by right].
  - intros ns Hs. by apply list_addition_dom, J5.
  - intros nid [Hin| ->]%HR; apply elem_of_list_addition; [left; by apply J6|right; split; [by right|done]].
  - intros nid lbls' [Hin| ->]%HR El; apply elem_of_list_addition; [left; by apply J7|]. rewrite En in El. injection El as <-.
    right. split; [by left|done].
Qed.

Lemma additions_spec l : NoDup l → additions c namespaces added l (foldl (add_identity added) (c, namespaces, []) l).
Proof.
  induction l as [|n l IH] using rev_ind; intros HN.
  - assert (HD : ∀ ns, default [] (namespaces !! ns) = []) by (intros ns; destruct (namespaces !! ns) eqn:E; [|done]; by rewrite (HE ns _ E)).
    constructor; cbn; try done.
    + intros nid. by destruct (ic_find c nid).
    + intros nid. rewrite elem_of_nil. naive_solver.
    + intros ns nid. by rewrite HD.
    + by intros nid ?%elem_of_nil.
    + by intros nid lbls ?%elem_of_nil.
  - apply NoDup_app in HN as (HN & Hd & _). rewrite foldl_snoc. apply addition_step; [|by apply IH].
    intros Hin. apply (Hd n Hin). by apply list_elem_of_singleton.
Qed.
End additions.
End identities.

(** ** Scanning the selectors *)

Section scan.
Context {GR : GoRange} {GS : GoSort} {Sel : Type} {CS : CacheSelector Sel} {U : Type} `{Countable U}.
Implicit Types (sc : SelectorCache Sel U) (o : identitySelector Sel U) (id nid : Z) (user : U).

(** Whether a selector matches a known identity. *)
Definition matched (c : scIdentityCache) (sel : Sel) nid : Prop := nid ∈ selected c sel.

(** The loop over the added identities: all of them are decided anew, and what is not added
    to the notification was mutated. *)
Lemma scan_added_spec c sel l s : (∀ nid, nid ∈ l → is_Some (ic_find c nid)) →
  let r := foldl (scan_added c sel) ([], s, false) l in
  (∀ nid, nid ∈ r.1.2 ↔ (nid ∈ l ∧ matched c sel nid) ∨ (nid ∉ l ∧ nid ∈ s)) ∧
  (r.2 = false → r.1.2 = s ∪ list_to_set r.1.1 ∧ NoDup r.1.1 ∧ ∀ nid, nid ∈ r.1.1 → nid ∉ s) ∧ (∀ nid, nid ∈ r.1.1 → nid ∈ l) ∧
  ((∀ nid, nid ∈ l → nid ∈ s → matched c sel nid) → r.2 = false).
Proof.
  cbv zeta. induction l as [|n l IH] using rev_ind; intros HK.
  - cbn. split_and!; [|intros _; split_and!; [set_solver|constructor|by intros nid ?%elem_of_nil]|by intros nid ?%elem_of_nil|done].
    intros nid. rewrite elem_of_nil. naive_solver.
  - destruct IH as (J1 & J2 & J3 & J4); [intros nid Hnid; apply HK, elem_of_app; by left|]. rewrite foldl_snoc.
    destruct (foldl _ _ l) as [[adds cached] m]. cbn [fst snd] in *.
    destruct (HK n) as [id Eid]; [apply elem_of_app; right; by apply list_elem_of_singleton|].
    assert (HL : ∀ nid, nid ∈ l ++ [n] ↔ nid ∈ l ∨ nid = n) by (intros; by rewrite elem_of_app, list_elem_of_singleton).
    assert (HM : matched c sel n ↔ cs_Matches sel (sc_lbls id) = true) by (unfold matched; rewrite elem_of_selected; clear -Eid; naive_solver).
    unfold scan_added. rewrite Eid. destruct (cs_Matches sel (sc_lbls id)); cbn [andb negb].
    + assert (Hm : matched c sel n) by (by apply HM).
      destruct (bool_decide_reflect (n ∈ cached)) as [Hc|Hc]; cbn [negb fst snd]; split_and!.
      * intros nid. rewrite HL, J1. destruct (decide (nid = n)) as [->|]; [|clear J1 J2 J3 J4 HK HM HL Eid; tauto]. rewrite J1 in Hc. clear J1 J2 J3 J4 HK HM HL Eid; tauto.
      * done.
      * intros nid Hin. apply HL. left. by apply J3.
      * intros HI. apply J4. intros nid Hn. apply HI, HL. by left.
      * intros nid. rewrite elem_of_union, elem_of_singleton, HL, J1. destruct (decide (nid = n)) as [->|]; clear J1 J2 J3 J4 HK HM HL Eid; tauto.
      * intros Hf. destruct (J2 Hf) as (E & HN & HS). subst cached. split_and!; [rewrite list_to_set_app_L; set_solver| |].
        -- apply NoDup_app. split_and!; [done| |apply NoDup_singleton]. intros nid Hin ->%list_elem_of_singleton. set_solver.
        -- intros nid [Hin| ->%list_elem_of_singleton]%elem_of_app; [by apply HS|set_solver].
      * intros nid. rewrite HL, elem_of_app, list_elem_of_singleton. intros [Hin| ->]; [left; by apply J3|by right].
      * intros HI. apply J4. intros nid Hn. apply HI, HL. by left.
    + assert (Hm : ¬ matched c sel n) by (rewrite HM; done).
      destruct (bool_decide_reflect (n ∈ cached)) as [Hc|Hc]; cbn [fst snd]; split_and!.
      * intros nid. rewrite elem_of_difference, elem_of_singleton, HL, J1. destruct (decide (nid = n)) as [->|]; clear J1 J2 J3 J4 HK HM HL Eid; tauto.
      * done.
      * intros nid Hin. apply HL. left. by apply J3.
      * intros HI. destruct Hm. apply J1 in Hc as [[_ ?]|[Hl Hs]]; [done|]. apply HI; [apply HL; by right|done].
      * intros nid. rewrite HL, J1. destruct (decide (nid = n)) as [->|]; [|clear J1 J2 J3 J4 HK HM HL Eid; tauto]. rewrite J1 in Hc. clear J1 J2 J3 J4 HK HM HL Eid; tauto.
      * done.
      * intros nid Hin. apply HL. left. by apply J3.
      * intros HI. apply J4. intros nid Hn. apply HI, HL. by left.
Qed.

(** ** Notifications *)

(** The additions and deletions a user of a selector is told. *)
Definition told user id (notes : list (notification U)) : list (list Z * list Z) :=
  omap (λ n, match n with
             | SelectionUpdated u i added deleted => if bool_decide (u = user ∧ i = id) then Some (added, deleted) else None
             | SelectionCommit _ _ => None
             end) notes.

(** The user is told of every identity that the selections gain, and of every one that they lose,
    once, and of no other. *)
Record difference_told user id (notes : list (notification U)) (before after : gset Z) : Prop := {
  dt_added nid : nid ∈ concat (fst <$> told user id notes) ↔ nid ∈ after ∧ nid ∉ before;
  dt_deleted nid : nid ∈ concat (snd <$> told user id notes) ↔ nid ∈ before ∧ nid ∉ after;
  dt_added_once : NoDup (concat (fst <$> told user id notes));
  dt_deleted_once : NoDup (concat (snd <$> told user id notes));
}.

Lemma told_users user id (users : gset U) i adds dels :
  told user id (map (λ u, SelectionUpdated u i adds dels) (range users)) =
  if bool_decide (i = id ∧ user ∈ users) then [(adds, dels)] else [].
Proof.
  assert (HG : ∀ l, NoDup l → told user id (map (λ u, SelectionUpdated u i adds dels) l) =
    if bool_decide (i = id ∧ user ∈ l) then [(adds, dels)] else []).
  { induction 1 as [|u l Hu HN IH]; cbn.
    - rewrite bool_decide_eq_false_2; [done|]. by intros [_ ?%elem_of_nil].
    - unfold told in IH. cbn in IH. rewrite IH. destruct (decide (u = user ∧ i = id)) as [[-> ->]|Hne].
      + rewrite (bool_decide_eq_true_2 (user = user ∧ _)), (bool_decide_eq_true_2 (id = id ∧ _ ∈ _ :: _)) by (split; [done|by left] || done).
        rewrite bool_decide_eq_false_2; [done|]. by intros [_ ?].
      + rewrite (bool_decide_eq_false_2 (u = user ∧ _)) by done. apply if_decide_ext. rewrite elem_of_cons. naive_solver. }
  rewrite HG by apply NoDup_range. apply if_decide_ext. by rewrite elem_of_range.
Qed.

Lemma told_app user id l l' : told user id (l ++ l') = told user id l ++ told user id l'.
Proof. apply omap_app. Qed.

Lemma told_commits user id (l : list U) txn : told user id (map (λ u, SelectionCommit u txn) l) = [].
Proof. by induction l. Qed.

Lemma difference_nil user id s : difference_told user id [] s s.
Proof. constructor; cbn; try constructor; rewrite ?elem_of_nil; tauto. Qed.

(** One more notification to the users of a selector. *)
Lemma difference_step user id notes c s adds dels (users : gset U) : difference_told user id notes c s → user ∈ users →
  NoDup adds → NoDup dels → (∀ n, n ∈ adds → n ∉ s ∧ n ∉ c) → (∀ n, n ∈ dels → n ∈ s ∧ n ∈ c) →
  difference_told user id (notes ++ map (λ u, SelectionUpdated u id adds dels) (range users)) c ((s ∖ list_to_set dels) ∪ list_to_set adds).
Proof.
  intros [D1 D2 D3 D4] Hu NA ND HA HD.
  assert (E : told user id (notes ++ map (λ u, SelectionUpdated u id adds dels) (range users)) = told user id notes ++ [(adds, dels)]).
  { by rewrite told_app, told_users, bool_decide_eq_true_2. }
  constructor; rewrite E, fmap_app, concat_app; cbn [fmap list_fmap concat fst snd]; rewrite app_nil_r.
  - intros n. rewrite elem_of_app, D1. specialize (HA n). specialize (HD n).
    rewrite elem_of_union, elem_of_difference, !elem_of_list_to_set. destruct (decide (n ∈ dels)), (decide (n ∈ adds)); tauto.
  - intros n. rewrite elem_of_app, D2. specialize (HA n). specialize (HD n).
    rewrite elem_of_union, elem_of_difference, !elem_of_list_to_set. destruct (decide (n ∈ dels)), (decide (n ∈ adds)); tauto.
  - apply NoDup_app. split_and!; [done| |done]. intros n [? _]%D1 [? _]%HA. done.
  - apply NoDup_app. split_and!; [done| |done]. intros n [_ ?]%D2 [? _]%HD. done.
Qed.

Lemma difference_other user id notes c s i adds dels (users : gset U) : i ≠ id → difference_told user id notes c s →
  difference_told user id (notes ++ map (λ u, SelectionUpdated u i adds dels) (range users)) c s.
Proof.
  intros Hi [D1 D2 D3 D4].
  assert (E : told user id (notes ++ map (λ u, SelectionUpdated u i adds dels) (range users)) = told user id notes).
  { rewrite told_app, told_users, bool_decide_eq_false_2 by tauto. apply app_nil_r. }
  constructor; by rewrite E.
Qed.

(** What the users of the selectors are told when the cache changes. *)
Record notices sc sc' (new : list (notification U)) : Prop := {
  no_update n : n ∈ new → ∃ user id adds dels o, n = SelectionUpdated user id adds dels ∧ adds ++ dels ≠ [] ∧
    live sc id o ∧ user ∈ is_users o;
  no_told id o s user : objects sc !! id = Some o → objects sc' !! id = Some (set_cached s o) → user ∈ is_users o →
    difference_told user id new (cachedSelections o) s;
}.

Definition is_told user (notes : list (notification U)) : Prop := ∃ id adds dels, SelectionUpdated user id adds dels ∈ notes.

Lemma notify_lookup id users adds dels s sc i :
  writeableSelections (notifyUsers id users adds dels (publish id s sc)) !! i =
  if bool_decide (i = id) then published s else writeableSelections sc !! i.
Proof. apply publish_lookup. Qed.

(** ** All selectors *)

Section items.
Context (sc : SelectorCache Sel U) (D : gset Z) (items : list (Z * list Z)).

(** The identities of the items are known, and new. *)
Context (HK : ∀ id l nid, (id, l) ∈ items → nid ∈ l → is_Some (ic_find (idCache sc) nid)).
Context (HN : ∀ id o l nid, (id, l) ∈ items → nid ∈ l → objects sc !! id = Some o → nid ∉ cachedSelections o).
Context (HD : ∀ id l nid, (id, l) ∈ items → nid ∈ l → nid ∉ D).
Context (HV : ∀ id l, (id, l) ∈ items → ∃ o, live sc id o).

(** The selections of a selector after some of the items. *)
Definition rescanned (l : list (Z * list Z)) id o nid : Prop :=
  (∃ adds, (id, adds) ∈ l ∧ nid ∈ adds ∧ matched (idCache sc) (is_source o) nid) ∨
  (nid ∈ cachedSelections o ∧ ((∃ adds, (id, adds) ∈ l) → nid ∉ D)).

Record scanned (l : list (Z * list Z)) (x : SelectorCache Sel U * bool * bool) : Prop := {
  sn_idCache : idCache x.1.1 = idCache sc;
  sn_selectors : selectors x.1.1 = selectors sc;
  sn_index : selectorsByNamespace x.1.1 = selectorsByNamespace sc;
  sn_last : lastSelectorId x.1.1 = lastSelectorId sc;
  sn_read : readTxn x.1.1 = readTxn sc;
  sn_objects id : is_Some (objects x.1.1 !! id) → is_Some (objects sc !! id);
  sn_selector id o : objects sc !! id = Some o → ∃ s, objects x.1.1 !! id = Some (set_cached s o) ∧
    (∀ nid, nid ∈ s ↔ rescanned l id o nid) ∧
    (writeableSelections sc !! id = published (cachedSelections o) → writeableSelections x.1.1 !! id = published s);
  sn_unmutated : x.2 = false;
  sn_updated : x.1.2 = false → writeableSelections x.1.1 = writeableSelections sc ∧ userNotes x.1.1 = userNotes sc;
  sn_notes : ∃ new, userNotes x.1.1 = userNotes sc ++ new ∧ notices sc x.1.1 new ∧
    ∀ user, user ∈ notifiedUsers x.1.1 ↔ user ∈ notifiedUsers sc ∨ is_told user new;
}.

Lemma set_cached_inj s s' o : set_cached s o = set_cached s' o → s = s'.
Proof. intros E. by injection E. Qed.

Lemma scanned_nil : scanned [] (sc, false, false).
Proof.
  constructor; try done.
  - intros id o Ho. exists (cachedSelections o). split; [cbn; rewrite Ho; by destruct o|]. split; [|done]. intros nid. unfold rescanned. split.
    + intros Hn. right. split; [done|]. by intros (? & ?%elem_of_nil).
    + by intros [(? & ?%elem_of_nil & _)|[? _]].
  - exists []. rewrite app_nil_r. split_and!; [done| |].
    + constructor; [by intros n ?%elem_of_nil|]. intros id o s user Ho Ho' _. cbn in *. rewrite Ho in Ho'. injection Ho' as ->. apply difference_nil.
    + intros user. split; [by left|]. by intros [?|(? & ? & ? & ?%elem_of_nil)].
Qed.

Lemma range_filter (cached : gset Z) : cached ∖ D = cached ∖ list_to_set (filter (.∈ cached) (range D)).
Proof.
  apply set_eq. intros nid. rewrite !elem_of_difference, elem_of_list_to_set, list_elem_of_filter, elem_of_range. tauto.
Qed.

(** The selections of the item's selector. *)
Lemma rescanned_step l id adds o s (cached' : gset Z) :
  (id, adds) ∈ items → (∀ y, y ∈ l → y ∈ items) → objects sc !! id = Some o → (∀ nid, nid ∈ s ↔ rescanned l id o nid) →
  (∀ nid, nid ∈ cached' ↔ (nid ∈ adds ∧ matched (idCache sc) (is_source o) nid) ∨ (nid ∉ adds ∧ nid ∈ s ∖ D)) →
  ∀ nid, nid ∈ cached' ↔ rescanned (l ++ [(id, adds)]) id o nid.
Proof.
  intros Hi Hl Ho Hs Hc nid. rewrite Hc, elem_of_difference, Hs. unfold rescanned. split.
  - intros [[Ha Hm]|(Ha & [(a & Hin & Hn & Hm)|[Hco _]] & Hd)].
    + left. exists adds. split; [|done]. apply elem_of_app. right. by apply list_elem_of_singleton.
    + left. exists a. split; [apply elem_of_app; by left|done].
    + right. by split.
  - intros [(a & [Hin|[= ->]%list_elem_of_singleton]%elem_of_app & Hn & Hm)|[Hco Hd]].
    + destruct (decide (nid ∈ adds)); [by left|]. right. split; [done|]. split; [left; by exists a|]. apply (HD id a); [by apply Hl|done].
    + by left.
    + right. assert (Hd' : nid ∉ D) by (apply Hd; exists adds; apply elem_of_app; right; by apply list_elem_of_singleton).
      split; [|split; [by right|done]]. intros Ha. by apply (HN id o adds nid).
Qed.

Lemma rescanned_other l id id' adds o nid : id' ≠ id → rescanned (l ++ [(id, adds)]) id' o nid ↔ rescanned l id' o nid.
Proof.
  intros Hne. unfold rescanned. assert (HL : ∀ a, (id', a) ∈ l ++ [(id, adds)] ↔ (id', a) ∈ l).
  { intros a. rewrite elem_of_app, list_elem_of_singleton. split; [|by left]. by intros [?|[= -> _]]. }
  setoid_rewrite HL. done.
Qed.

(** One selector of an item. *)
Lemma scanned_step l id adds x : (id, adds) ∈ items → (∀ y, y ∈ l → y ∈ items) →
  scanned l x → scanned (l ++ [(id, adds)]) (updateSelections adds D x id).
Proof.
  intros Hi Hl J. destruct (HV id adds Hi) as (o & Hv). pose proof Hv as [Ho _]. destruct x as [[sc' u] m]. pose proof J as [J1 J2 J3 J4 J5 J6 J7 J8 J9 (new & J10 & [J11 J12] & J13)]. cbn [fst snd] in *.
  destruct (J7 id o Ho) as (s & Hs & HS & HW). unfold updateSelections. rewrite Hs. unfold drop_deleted. cbn [set_cached cachedSelections is_source is_users].
  destruct (scan_added_spec (idCache sc') (is_source o) adds (s ∖ D)) as (K1 & K2 & K3 & K4).
  { intros nid Hn. rewrite J1. by apply (HK id adds). }
  destruct (foldl _ _ adds) as [[added cached'] m']. cbn [fst snd] in *. rewrite J1 in K1, K4.
  assert (Em : m' = false).
  { apply K4. intros nid Hn [Hs' _]%elem_of_difference. apply HS in Hs' as [(a & _ & _ & ?)|[Hc _]]; [done|]. by destruct (HN id o adds nid). }
  subst m' m. destruct (K2 eq_refl) as (K2' & KN & KS). clear K2. rename K2' into K2. clear K4. pose proof (rescanned_step l id adds o s cached' Hi Hl Ho HS K1) as HC. rewrite range_filter in K2.
  set (dels := filter (.∈ s) (range D)) in *. set (o' := set_cached cached' (set_cached s o)). assert (Eo : o' = set_cached cached' o) by done.
  assert (HO : ∀ i, (<[id := o']> (objects sc')) !! i = if bool_decide (i = id) then Some o' else objects sc' !! i).
  { intros i. destruct (decide (i = id)) as [->|]; [by rewrite lookup_insert_eq, bool_decide_eq_true_2|by rewrite lookup_insert_ne, bool_decide_eq_false_2]. }
  assert (HO' : ∀ i, is_Some ((<[id := o']> (objects sc')) !! i) → is_Some (objects sc !! i)).
  { intros i. rewrite HO. destruct (decide (i = id)) as [->|]; [by rewrite Ho|]. rewrite bool_decide_eq_false_2 by done. apply J6. }
  case_bool_decide as Hd.
  - apply app_nil in Hd as [Ed ->]. rewrite Ed in K2. cbn in K2.
    assert (Ec : cached' = s) by (rewrite K2; set_solver). clear K2. subst cached'.
    constructor; cbn [fst snd set_objects objects idCache selectors selectorsByNamespace lastSelectorId readTxn writeableSelections userNotes]; try done.
    + intros i o0 H0. destruct (decide (i = id)) as [->|Hne].
      * assert (o0 = o) as -> by congruence. exists s. split; [|by split]. by rewrite HO, bool_decide_eq_true_2.
      * destruct (J7 i o0 H0) as (s0 & A & B & C). exists s0. split; [by rewrite HO, bool_decide_eq_false_2|]. split; [|done].
        intros nid. by rewrite rescanned_other.
    + exists new. split_and!; [done| |done]. constructor; [done|]. intros i o0 s0 user H0 H1 Hu. apply (J12 i o0 s0 user); [done| |done].
      cbn [set_objects objects] in H1. rewrite HO in H1.
      destruct (decide (i = id)) as [->|]; [rewrite bool_decide_eq_true_2 in H1 by done|by rewrite bool_decide_eq_false_2 in H1].
      by rewrite Hs, <- H1, Eo.
  - constructor; cbn [fst snd]; try done.
    + intros i o0 H0. rewrite notify_lookup. cbn [notifyUsers set_notes publish set_writeable set_objects objects].
      destruct (decide (i = id)) as [->|Hne].
      * assert (o0 = o) as -> by congruence. exists cached'. split; [by rewrite HO, bool_decide_eq_true_2|]. split; [done|]. by rewrite bool_decide_eq_true_2.
      * destruct (J7 i o0 H0) as (s0 & A & B & C). exists s0. split; [by rewrite HO, bool_decide_eq_false_2|].
        rewrite bool_decide_eq_false_2 by done. split; [|done]. intros nid. by rewrite rescanned_other.
    + exists (new ++ map (λ u0, SelectionUpdated u0 id added dels) (range (is_users o))).
      split_and!; [cbn; by rewrite J10, app_assoc| |].
      * constructor; cbn [notifyUsers set_notes publish set_writeable set_objects objects].
        -- intros n [?|(u0 & -> & Hu%elem_of_range)%list_elem_of_fmap]%elem_of_app; [by apply J11|].
           exists u0, id, added, dels, o. split_and!; [done| |done|done]. intros [-> E]%app_nil. by rewrite E in Hd.
        -- intros i o0 s0 user H0 H1 Hu. rewrite HO in H1. destruct (decide (i = id)) as [->|Hne].
           ++ assert (o0 = o) as -> by congruence. rewrite bool_decide_eq_true_2 in H1 by done. apply (inj Some) in H1. rewrite Eo in H1. apply set_cached_inj in H1. subst s0.
              rewrite K2. apply difference_step; [by apply (J12 id o s user)|done|done|apply NoDup_filter, NoDup_range| |].
              ** intros n Hn. specialize (KS n Hn). apply K3 in Hn. split; [|by apply (HN id o adds)].
                 pose proof (HD id adds n Hi Hn) as HnD. clear -KS HnD. set_solver.
              ** intros n [Hns HnD%elem_of_range]%list_elem_of_filter. split; [done|].
                 apply HS in Hns as [(a & Ha & Hna & _)|[? _]]; [|done]. by destruct (HD id a n (Hl _ Ha) Hna).
           ++ rewrite bool_decide_eq_false_2 in H1 by done. apply difference_other; [done|]. by apply (J12 i o0 s0 user).
      * intros user. cbn. rewrite elem_of_union, J13. unfold is_told. setoid_rewrite elem_of_app. setoid_rewrite list_elem_of_fmap.
        split.
        -- intros [[?|(i & a & d & ?)]|?]; [by left|right; exists i, a, d; by left|right]. exists id, added, dels. right. exists user. split; [done|by apply elem_of_range].
        -- intros [?|(i & a & d & [?|(u0 & [= -> -> -> ->] & ?%elem_of_range)])]; [by left; left|left; right; by exists i, a, d|by right].
Qed.

Lemma scanned_items l : (∀ y, y ∈ l → y ∈ items) →
  scanned l (foldl (λ x item, updateSelections item.2 D x item.1) (sc, false, false) l).
Proof.
  induction l as [|[id adds] l IH] using rev_ind; intros Hl; [apply scanned_nil|]. rewrite foldl_snoc.
  assert (Hi : (id, adds) ∈ items) by (apply Hl, elem_of_app; right; by apply list_elem_of_singleton).
  apply scanned_step; [done| |].
  - intros y Hy. apply Hl, elem_of_app. by left.
  - apply IH. intros y Hy. apply Hl, elem_of_app. by left.
Qed.
End items.

(** ** The whole update *)

Section update.
Context (sc : SelectorCache Sel U) (added deleted : gmap Z Labels).
Context (I : sc_inv sc) (HU : unchanged (idCache sc) added) (HD : dom added ## dom deleted).

Lemma elem_of_items (namespaces : gmap string (list Z)) id adds : (id, adds) ∈ scan_items namespaces sc ↔
  ∃ ns o, namespaces !! ns = Some adds ∧ live sc id o ∧ ns ∈ index_namespaces (is_source o).
Proof.
  unfold scan_items. rewrite list_elem_of_bind. split.
  - intros (ns & (i & [= -> ->] & Hi%elem_of_range)%list_elem_of_fmap & [l Hl]%elem_of_range%elem_of_dom).
    apply sci_index in Hi as (o & Ho & Hn); [|done]. exists ns, o. by rewrite Hl.
  - intros (ns & o & Hl & Ho & Hn). exists ns. split; [|apply elem_of_range, elem_of_dom; by exists adds].
    apply list_elem_of_fmap. exists id. rewrite Hl. split; [done|]. apply elem_of_range, sci_index; [done|]. by exists o.
Qed.

Context (c1 c2 : scIdentityCache) (N1 N2 : gmap string (list Z)) (D : gset Z) (rest : list Z).
Context (JD : deletions (idCache sc) (range (dom deleted)) (c1, N1, D)).
Context (JA : additions c1 N1 added (range (dom added)) (c2, N2, rest)).

Lemma update_find nid : ic_find c2 nid =
  if bool_decide (nid ∈ dom deleted) then None
  else match ic_find (idCache sc) nid with Some x => Some x | None => new_identity nid <$> added !! nid end.
Proof.
  pose proof (ad_find _ _ _ _ _ JA nid) as HA. pose proof (de_find _ _ _ JD nid) as HF. cbn [fst] in *. rewrite HA, HF.
  assert (HX : (if bool_decide (nid ∈ range (dom added)) then new_identity nid <$> added !! nid else None) = new_identity nid <$> added !! nid).
  { destruct (bool_decide_reflect (nid ∈ range (dom added))) as [Hn|Hn]; [done|]. rewrite elem_of_range, not_elem_of_dom in Hn. by rewrite Hn. }
  rewrite HX. clear HA HF HX. destruct (decide (nid ∈ dom deleted)) as [Hd|Hd].
  - rewrite !bool_decide_eq_true_2; [|done|by apply elem_of_range]. assert (Ha : added !! nid = None) by (apply not_elem_of_dom; set_solver).
    by rewrite Ha.
  - rewrite (bool_decide_eq_false_2 (nid ∈ dom deleted)), bool_decide_eq_false_2 by (by rewrite ?elem_of_range). done.
Qed.

Lemma rest_new nid : nid ∈ rest → ic_find (idCache sc) nid = None ∧ is_Some (added !! nid) ∧ nid ∉ D ∧ is_Some (ic_find c2 nid).
Proof.
  intros Hr. apply (ad_rest _ _ _ _ _ JA) in Hr as (_ & Hc & Ha). pose proof (de_find _ _ _ JD nid) as HF. cbn [fst] in *.
  assert (Hd : nid ∉ dom deleted) by (intros ?; apply elem_of_dom in Ha; by apply (HD nid)).
  rewrite HF, bool_decide_eq_false_2 in Hc by (by rewrite elem_of_range). split_and!; [done|done| |].
  - intros [Hin _]%(de_deleted _ _ _ JD). by apply elem_of_range in Hin.
  - rewrite update_find, bool_decide_eq_false_2, Hc by done. destruct Ha as [l ->]. by eexists.
Qed.

(** The scan of a matching identity's namespace includes the selector. *)
Lemma matching_namespace (sel : Sel) lbls : cs_Matches sel lbls = true →
  EmptyString ∈ index_namespaces sel ∨ namespace_of lbls ∈ index_namespaces sel.
Proof.
  intros Hm. unfold index_namespaces. destruct (cs_Namespaces sel) as [|n ns] eqn:E; [left; by apply list_elem_of_singleton|].
  right. rewrite <- E. apply cs_namespace; [by rewrite E|done].
Qed.

Lemma deleted_item id o nid : live sc id o → nid ∈ D → nid ∈ selected (idCache sc) (is_source o) →
  ∃ adds, (id, adds) ∈ scan_items N2 sc.
Proof.
  intros Ho Hd (x & Ex & Hm)%elem_of_selected. pose proof (de_namespace _ _ _ JD nid x Hd Ex) as HN.
  destruct (find_inv (idCache sc) nid x) as [_ Ens]; [by apply sci_ids|done|].
  assert (HS : ∃ ns, is_Some (N2 !! ns) ∧ ns ∈ index_namespaces (is_source o)).
  { destruct (matching_namespace _ _ Hm) as [Hi|Hi]; eexists; (split; [|done]); apply (ad_dom _ _ _ _ _ JA).
    - apply (de_root _ _ _ JD).
    - by rewrite <- Ens. }
  destruct HS as (ns & [adds Ea] & Hn). exists adds. apply elem_of_items. by exists ns, o.
Qed.

Lemma rescanned_selected id o nid : live sc id o →
  rescanned (set_idCache c2 sc) D (scan_items N2 sc) id o nid ↔ nid ∈ selected c2 (is_source o).
Proof.
  intros Ho. pose proof (update_find nid) as HF. unfold rescanned, matched. cbn [idCache set_idCache]. rewrite (sci_selected _ I id o Ho).
  rewrite (elem_of_selected c2). split.
  - intros [(adds & _ & _ & Hm)|[Hc Hd]]; [by apply elem_of_selected|]. pose proof Hc as (x & Ex & Hm)%elem_of_selected. exists x. split; [|done].
    rewrite HF, Ex, bool_decide_eq_false_2; [done|]. intros Hn. assert (HnD : nid ∈ D).
    { apply (de_deleted _ _ _ JD). split; [by apply elem_of_range|]. by exists x. }
    by apply Hd; [apply (deleted_item id o nid)|].
  - intros (x & Ex & Hm). rewrite HF in Ex. case_bool_decide as Hd; [done|]. destruct (ic_find (idCache sc) nid) as [y|] eqn:Ey.
    + injection Ex as ->. right. split; [apply elem_of_selected; by exists x|]. intros _ [Hin _]%(de_deleted _ _ _ JD). by apply elem_of_range in Hin.
    + left. apply fmap_Some in Ex as (lbls & Ea & ->). cbn [sc_lbls new_identity] in Hm.
      assert (Hr : nid ∈ rest).
      { apply (ad_rest _ _ _ _ _ JA). split_and!; [apply elem_of_range, elem_of_dom; by exists lbls| |by exists lbls].
        pose proof (de_find _ _ _ JD nid) as HF'. cbn [fst] in HF'. rewrite HF', Ey. by case_bool_decide. }
      assert (HS : ∃ ns, nid ∈ default [] (N2 !! ns) ∧ ns ∈ index_namespaces (is_source o)).
      { destruct (matching_namespace _ _ Hm) as [Hi|Hi]; eexists; (split; [|done]).
        - by apply (ad_root _ _ _ _ _ JA).
        - by apply (ad_namespace _ _ _ _ _ JA). }
      destruct HS as (ns & Hin & Hn). destruct (N2 !! ns) as [adds|] eqn:En; [|by apply elem_of_nil in Hin]. exists adds. split_and!.
      * apply elem_of_items. by exists ns, o.
      * done.
      * apply elem_of_selected. exists (new_identity nid lbls). split; [|done]. by rewrite HF, Ea.
Qed.

(** The scan of all selectors. *)
Lemma scan_all : scanned (set_idCache c2 sc) D (scan_items N2 sc)
  (foldl (λ x item, updateSelections item.2 D x item.1) (set_idCache c2 sc, false, false) (scan_items N2 sc)).
Proof.
  assert (HR : ∀ id l nid, (id, l) ∈ scan_items N2 sc → nid ∈ l → nid ∈ rest).
  { intros id l nid (ns & o & Hl & _ & _)%elem_of_items Hn. apply (ad_listed _ _ _ _ _ JA ns). cbn [fst snd]. by rewrite Hl. }
  apply (scanned_items _ _ (scan_items N2 sc)).
  - intros id l nid Hi Hn. by apply rest_new, (HR id l).
  - intros id o l nid Hi Hn Ho. pose proof Hi as (ns & o' & _ & Hl & _)%elem_of_items. assert (o' = o) as ->.
    { destruct Hl as [Hl _]. cbn in Ho. congruence. }
    rewrite (sci_selected _ I id o Hl), elem_of_selected. intros (x & Ex & _).
    destruct (rest_new nid) as (En & _); [by apply (HR id l)|]. congruence.
  - intros id l nid Hi Hn. by apply rest_new, (HR id l).
  - intros id l (ns & o & _ & Ho & _)%elem_of_items. by exists o.
  - done.
Qed.
End update.

(** ** [UpdateIdentities] *)

(** The published selections are the current ones. *)
Definition synced sc : Prop := sn_selections (readTxn sc) = writeableSelections sc.

(** What an update of the identities does. *)
Record updates (find : Z → option scIdentity) sc sc' : Prop := {
  up_inv : sc_inv sc';
  up_find nid : ic_find (idCache sc') nid = find nid;
  up_selectors : selectors sc' = selectors sc;
  up_last : lastSelectorId sc' = lastSelectorId sc;
  up_objects id : is_Some (objects sc' !! id) → is_Some (objects sc !! id);
  up_object id o : objects sc !! id = Some o → ∃ s, objects sc' !! id = Some (set_cached s o);
  up_synced : synced sc → synced sc';
  up_notes : notifiedUsers sc = ∅ → notifiedUsers sc' = ∅ ∧ ∃ new users,
    userNotes sc' = userNotes sc ++ new ++ map (λ u, SelectionCommit u (readTxn sc')) users ∧ notices sc sc' new ∧
    (NoDup users ∧ ∀ user, user ∈ users ↔ is_told user new) ∧ (new = [] ∨ synced sc');
}.

Lemma selected_ext c c' (sel : Sel) : (∀ nid, ic_find c' nid = ic_find c nid) → selected c' sel = selected c sel.
Proof. intros HF. apply set_eq. intros nid. rewrite !elem_of_selected. by setoid_rewrite HF. Qed.

(** A cache with the same selectors, each with the selections it should have. *)
Lemma refreshed_inv sc sc' : sc_inv sc → ic_inv (idCache sc') → selectors sc' = selectors sc →
  selectorsByNamespace sc' = selectorsByNamespace sc → lastSelectorId sc' = lastSelectorId sc →
  (∀ id, is_Some (objects sc' !! id) → is_Some (objects sc !! id)) →
  (∀ id o, objects sc !! id = Some o → ∃ s, objects sc' !! id = Some (set_cached s o) ∧
    (live sc id o → s = selected (idCache sc') (is_source o) ∧ writeableSelections sc' !! id = published s)) →
  sc_inv sc'.
Proof.
  intros [I1 I2 I3 I4 I5 I6 I7] H1 H2 H3 H4 H5 H6.
  assert (HL : ∀ id o', live sc' id o' → ∃ o s, live sc id o ∧ o' = set_cached s o ∧ s = selected (idCache sc') (is_source o) ∧
    writeableSelections sc' !! id = published s).
  { intros id o' [Ho Hs]. destruct (H5 id) as [o Eo]; [by exists o'|]. destruct (H6 id o Eo) as (s & Es & HR).
    rewrite Ho in Es. injection Es as ->. rewrite H2 in Hs. assert (Hl : live sc id o) by done. exists o, s. by destruct (HR Hl). }
  constructor; rewrite ?H2, ?H3, ?H4; [done| | |naive_solver|done| |].
  - intros key id Hk. destruct (I2 key id Hk) as (o & Ho & Ek). destruct (H6 id o Ho) as (s & Es & _). by exists (set_cached s o).
  - intros ns id. rewrite I3. split.
    + intros (o & [Ho Hs] & Hn). destruct (H6 id o Ho) as (s & Es & _). exists (set_cached s o). split; [|done]. split; [done|]. by rewrite H2.
    + intros (o' & Hl & Hn). destruct (HL id o' Hl) as (o & s & Hl' & -> & _). by exists o.
  - intros id o' Hl. by destruct (HL id o' Hl) as (o & s & Hl' & -> & -> & _).
  - intros id o' Hl. by destruct (HL id o' Hl) as (o & s & Hl' & -> & _ & Hw).
Qed.

(** The identities after an update that changes the labels of none. *)
Definition updated_ids (added deleted : gmap Z Labels) sc nid : option scIdentity :=
  if bool_decide (nid ∈ dom deleted) then None
  else match ic_find (idCache sc) nid with Some x => Some x | None => new_identity nid <$> added !! nid end.

Lemma update_spec sc added deleted : sc_inv sc → unchanged (idCache sc) added → dom added ## dom deleted →
  updates (updated_ids added deleted sc) sc (UpdateIdentities added deleted sc).1 ∧ (UpdateIdentities added deleted sc).2 = false.
Proof.
  intros I HU HD. pose proof (deletions_spec (idCache sc) (range (dom deleted)) (sci_ids _ I)) as JD. unfold UpdateIdentities.
  destruct (foldl delete_identity _ _) as [[c1 N1] D]. assert (HU1 : unchanged c1 added).
  { intros nid lbls x Ha Hc. pose proof (de_find _ _ _ JD nid) as HF. cbn [fst] in HF. rewrite HF in Hc. case_bool_decide; [done|]. by apply (HU nid). }
  pose proof (additions_spec c1 N1 added (de_inv _ _ _ JD) (de_empty _ _ _ JD) HU1 (range (dom added)) (NoDup_range _)) as JA.
  destruct (foldl (add_identity added) _ _) as [[c2 N2] rest].
  pose proof (update_find sc added deleted I HU HD c1 c2 N1 N2 D rest JD JA) as HF. pose proof (ad_inv _ _ _ _ _ JA) as IC. cbn [fst] in IC.
  destruct (bool_decide_reflect (elements D ++ rest = [])) as [He|He].
  - apply app_nil in He as [ED%elements_empty_inv%leibniz_equiv Er].
    assert (HE : ∀ nid, ic_find c2 nid = ic_find (idCache sc) nid).
    { intros nid. pose proof (de_deleted _ _ _ JD nid) as HD'. pose proof (ad_rest _ _ _ _ _ JA nid) as HR. cbn [snd] in *.
      pose proof (de_find _ _ _ JD nid) as HF1. cbn [fst] in HF1. rewrite (HF nid). subst D rest. destruct (bool_decide_reflect (nid ∈ dom deleted)) as [Hd|Hd].
      - destruct (ic_find (idCache sc) nid) eqn:E; [|done]. exfalso. apply (not_elem_of_empty (C := gset Z) nid). apply HD'. split; [by apply elem_of_range|done].
      - destruct (ic_find (idCache sc) nid) eqn:E; [done|]. destruct (added !! nid) as [l|] eqn:Ea; [|done]. exfalso. apply (elem_of_nil nid).
        apply HR. split_and!; [apply elem_of_range, elem_of_dom; by exists l| |by exists l]. rewrite HF1. by case_bool_decide. }
    split; [|done]. constructor; cbn [fst]; try done.
    + apply (refreshed_inv sc); try done. intros id o Ho. exists (cachedSelections o). cbn. rewrite Ho. split; [by destruct o|].
      intros Hl. rewrite (selected_ext _ _ _ HE). split; [by apply (sci_selected _ I id)|by apply (sci_published _ I)].
    + intros id o Ho. exists (cachedSelections o). cbn. rewrite Ho. by destruct o.
    + intros Hu. split; [done|]. exists [], []. cbn. rewrite app_nil_r. split_and!; [done| |constructor| |by left].
      * constructor; [by intros n ?%elem_of_nil|]. intros id o s user Ho Ho' _. cbn in *. rewrite Ho in Ho'. injection Ho' as ->. apply difference_nil.
      * intros user. rewrite elem_of_nil. split; [done|]. by intros (? & ? & ? & ?%elem_of_nil).
  - pose proof (scan_all sc added deleted I HU HD c1 c2 N1 N2 D rest JD JA) as J.
    change (scan_items N2 (set_idCache c2 sc)) with (scan_items N2 sc).
    pose proof (rescanned_selected sc added deleted I HU HD c1 c2 N1 N2 D rest JD JA) as HS.
    destruct (foldl _ _ (scan_items N2 sc)) as [[sc' u] m]. destruct J as [J1 J2 J3 J4 J5 J6 J7 J8 J9 (new & J10 & [J11 J12] & J13)].
    cbn [fst snd set_idCache idCache objects selectors selectorsByNamespace lastSelectorId readTxn writeableSelections userNotes notifiedUsers] in *. split; [|done].
    assert (I' : sc_inv sc').
    { apply (refreshed_inv sc); try done; [by rewrite J1|]. intros id o Ho. destruct (J7 id o Ho) as (s & Es & Hs & Hw). exists s. split; [done|].
      intros Hl. split; [|apply Hw; by apply (sci_published _ I)]. apply set_eq. intros nid. by rewrite Hs, HS, J1. }
    assert (HO : ∀ id o, objects sc !! id = Some o → ∃ s, objects sc' !! id = Some (set_cached s o)) by (intros id o Ho; destruct (J7 id o Ho) as (s & ? & _); by exists s).
    destruct u.
    + constructor; cbn; try done.
      * by apply (sc_inv_same sc').
      * intros nid. by rewrite J1, HF.
      * intros Hu. split; [done|]. exists new, (range (notifiedUsers sc')). split_and!; [by rewrite J10, app_assoc|by constructor|apply NoDup_range| |by right].
        intros user. rewrite elem_of_range, J13, Hu. set_solver.
    + destruct (J9 eq_refl) as [E1 E2]. constructor; try done.
      * intros nid. by rewrite J1, HF.
      * unfold synced. by rewrite J5, E1.
      * assert (new = []) as -> by (apply (app_inv_head (userNotes sc)); by rewrite app_nil_r, <- J10).
        assert (HT : ∀ user, ¬ is_told user []) by (by intros user (? & ? & ? & ?%elem_of_nil)).
        intros Hu. split; [apply set_eq; intros user; rewrite J13, Hu; specialize (HT user); set_solver|].
        exists [], []. cbn. rewrite app_nil_r in J10 |- *. split_and!; [done|by constructor|constructor| |by left].
        intros user. rewrite elem_of_nil. specialize (HT user). tauto.
Qed.
End scan.
