(* ===== verification/SelectorCacheSpec.v ===== *)
(** * The specification of the selector cache

    What the selector cache of [src/pkg/policy/selectorcache.go] promises: it keeps the known
    identities and, for each selector in use, its users; a selector selects exactly the known
    identities it matches.  The cache implements this for every sequence of its operations
    that does not change the labels of a known identity. *)

From S2P Require Import Prelude Labels Selectors SelectorCache SelectorCacheInv SelectorCacheUpdate.

Local Open Scope Z_scope.

(** ** Operations *)

Inductive operation (Sel U : Type) :=
  | OAddTxn (user : U) (sels : list Sel)
  | OAdd (user : U) (sels : list Sel)
  | ORemove (user : U) (keys : list string)
  | OChangeUser (key : string) (from to : U)
  | OUpdate (added deleted : gmap Z Labels)
  | OCommit
  | OHandle.
Arguments OAddTxn {Sel U}.
Arguments OAdd {Sel U}.
Arguments ORemove {Sel U}.
Arguments OChangeUser {Sel U}.
Arguments OUpdate {Sel U}.
Arguments OCommit {Sel U}.
Arguments OHandle {Sel U}.

(** The specification's state. *)
Record spec (Sel U : Type) `{Countable U} := mkSpec {
  sp_ids : gmap Z Labels;
  sp_selectors : gmap string (Sel * gset U);
}.
Arguments mkSpec {Sel U _ _}.
Arguments sp_ids {Sel U _ _}.
Arguments sp_selectors {Sel U _ _}.

Section spec.
Context {GR : GoRange} {GS : GoSort} {Sel : Type} {CS : CacheSelector Sel} {U : Type} `{Countable U} (notifier : bool).
Implicit Types (sc : SelectorCache Sel U) (o : identitySelector Sel U) (id nid : Z) (user : U) (sp : spec Sel U) (op : operation Sel U)
  (m : gmap string (Sel * gset U)).

(** *** The cache *)

Definition run op sc : SelectorCache Sel U :=
  match op with
  | OAddTxn user sels => (sc_AddSelectorsTxn notifier user sels sc).1.1
  | OAdd user sels => (AddSelectors notifier user sels sc).1.1
  | ORemove user keys => RemoveSelectors notifier user keys sc
  | OChangeUser key from to => ChangeUser key from to sc
  | OUpdate added deleted => (UpdateIdentities added deleted sc).1
  | OCommit => commit sc
  | OHandle => (handleUserNotifications sc).1
  end.

(** *** The specification *)

Definition spec_add user m (sel : Sel) : gmap string (Sel * gset U) :=
  match m !! cs_Key sel with
  | Some (source, users) => <[cs_Key sel := (source, {[ user ]} ∪ users)]> m
  | None => <[cs_Key sel := (sel, {[ user ]})]> m
  end.

Definition spec_remove user m (key : string) : gmap string (Sel * gset U) :=
  match m !! key with
  | Some (source, users) =>
      if bool_decide (user ∈ users) then
        if bool_decide (users ∖ {[ user ]} = ∅) then delete key m else <[key := (source, users ∖ {[ user ]})]> m
      else m
  | None => m
  end.

Definition spec_run op sp : spec Sel U :=
  match op with
  | OAddTxn user sels | OAdd user sels => mkSpec (sp_ids sp) (foldl (spec_add user) (sp_selectors sp) (cached_selectors sels))
  | ORemove user keys => mkSpec (sp_ids sp) (foldl (spec_remove user) (sp_selectors sp) keys)
  | OChangeUser key from to =>
      mkSpec (sp_ids sp) (alter (λ x, (x.1, ({[ to ]} ∪ x.2) ∖ {[ from ]})) key (sp_selectors sp))
  | OUpdate added deleted => mkSpec (filter (λ x, x.1 ∉ dom deleted) (sp_ids sp) ∪ added) (sp_selectors sp)
  | OCommit | OHandle => sp
  end.

(** The identities a selector selects. *)
Definition spec_selects sp (sel : Sel) : gset Z := dom (filter (λ x : Z * Labels, cs_Matches sel x.2 = true) (sp_ids sp)).

(** *** Refinement *)

Definition view_selector sc (key : string) : option (Sel * gset U) :=
  (λ o, (is_source o, is_users o)) <$> (selectors sc !! key ≫= λ id, objects sc !! id).

Record refines sp sc : Prop := {
  re_inv : sc_inv sc;
  re_ids nid : sc_lbls <$> ic_find (idCache sc) nid = sp_ids sp !! nid;
  re_selectors key : view_selector sc key = sp_selectors sp !! key;
}.

Lemma refines_same sp sc sc' : idCache sc' = idCache sc → objects sc' = objects sc → selectors sc' = selectors sc →
  selectorsByNamespace sc' = selectorsByNamespace sc → lastSelectorId sc' = lastSelectorId sc →
  writeableSelections sc' = writeableSelections sc → refines sp sc → refines sp sc'.
Proof.
  intros E1 E2 E3 E4 E5 E6 [R1 R2 R3]. constructor; [by apply (sc_inv_same sc)|by rewrite E1|].
  intros key. rewrite <- R3. unfold view_selector. by rewrite E2, E3.
Qed.

Lemma commit_refines sp sc : refines sp sc → refines sp (commit sc).
Proof. by apply refines_same. Qed.

(** *** Users *)

Lemma view_users sc id o s k key : sc_inv sc → selectors sc !! k = Some id → objects sc !! id = Some o →
  view_selector (set_objects (insert id (set_users s o)) sc) key = if bool_decide (key = k) then Some (is_source o, s) else view_selector sc key.
Proof.
  intros I Hk Ho. unfold view_selector. cbn. destruct (decide (key = k)) as [->|Hne].
  - by rewrite Hk, bool_decide_eq_true_2; cbn; rewrite ?lookup_insert_eq.
  - rewrite bool_decide_eq_false_2 by done. destruct (selectors sc !! key) as [i|] eqn:Ei; [|done]. cbn.
    rewrite lookup_insert_ne; [done|]. intros <-. destruct (sci_key _ I _ _ Hk) as (o1 & E1 & <-). destruct (sci_key _ I _ _ Ei) as (o2 & E2 & <-). congruence.
Qed.

Lemma view_addUser sc id o user n k key : sc_inv sc → selectors sc !! k = Some id → objects sc !! id = Some o →
  view_selector (addUser n id user sc).1 key = if bool_decide (key = k) then Some (is_source o, {[ user ]} ∪ is_users o) else view_selector sc key.
Proof.
  intros I Hk Ho. unfold addUser. rewrite Ho. destruct (bool_decide_reflect (user ∈ is_users o)) as [Hu|Hu]; cbn [fst].
  - replace ({[user]} ∪ is_users o) with (is_users o) by set_solver. case_bool_decide as Hb; [|done]. subst key.
    unfold view_selector. rewrite Hk. cbn. by rewrite Ho.
  - rewrite <- (view_users sc id o _ k key I Hk Ho). by destruct (_ && _).
Qed.

Lemma view_removeUser sc id o user n k key : sc_inv sc → selectors sc !! k = Some id → objects sc !! id = Some o →
  view_selector (removeUser n id user sc).1 key = if bool_decide (key = k) then Some (is_source o, is_users o ∖ {[ user ]}) else view_selector sc key.
Proof.
  intros I Hk Ho. unfold removeUser. rewrite Ho. destruct (bool_decide_reflect (user ∈ is_users o)) as [Hu|Hu].
  - rewrite <- (view_users sc id o _ k key I Hk Ho). case_bool_decide; [|done]. by destruct (_ && _).
  - cbn [fst]. replace (is_users o ∖ {[user]}) with (is_users o) by set_solver. case_bool_decide as Hb; [|done]. subst key.
    unfold view_selector. rewrite Hk. cbn. by rewrite Ho.
Qed.

Lemma addUser_frame n id user sc : idCache (addUser n id user sc).1 = idCache sc ∧ selectors (addUser n id user sc).1 = selectors sc ∧
  writeableSelections (addUser n id user sc).1 = writeableSelections sc ∧ readTxn (addUser n id user sc).1 = readTxn sc.
Proof. unfold addUser. repeat (case_match; try done). Qed.

Lemma removeUser_frame n id user sc : idCache (removeUser n id user sc).1 = idCache sc ∧ lastSelectorId (removeUser n id user sc).1 = lastSelectorId sc ∧
  writeableSelections (removeUser n id user sc).1 = writeableSelections sc ∧ readTxn (removeUser n id user sc).1 = readTxn sc.
Proof. unfold removeUser. repeat (case_match; try done). Qed.

(** *** Adding selectors *)

Lemma view_Some sc key id : sc_inv sc → selectors sc !! key = Some id →
  ∃ o, objects sc !! id = Some o ∧ is_key o = key ∧ view_selector sc key = Some (is_source o, is_users o).
Proof.
  intros I Hk. destruct (sci_key _ I _ _ Hk) as (o & Ho & Ek). exists o. split_and!; [done..|]. unfold view_selector. rewrite Hk. cbn. by rewrite Ho.
Qed.

Lemma view_None sc key : selectors sc !! key = None → view_selector sc key = None.
Proof. intros Hk. unfold view_selector. by rewrite Hk. Qed.

Lemma view_addSelector sc key sel key' : sc_inv sc → selectors sc !! key = None → lastSelectorId sc + 1 < 2 ^ 64 →
  view_selector (addSelectorLocked key sel sc).1 key' = if bool_decide (key' = key) then Some (sel, ∅) else view_selector sc key'.
Proof.
  intros I Hk Hl. destruct (addSelector_inv key sel sc I Hk Hl) as (_ & Eid & _ & Eo & Es). unfold view_selector. rewrite Es.
  destruct (decide (key' = key)) as [->|Hne].
  - rewrite lookup_insert_eq, bool_decide_eq_true_2 by done. cbn [mbind option_bind]. by rewrite Eo.
  - rewrite lookup_insert_ne, bool_decide_eq_false_2 by done. destruct (selectors sc !! key') as [i|] eqn:Ei; [|done]. cbn [mbind option_bind].
    assert (Hi : i ≠ (addSelectorLocked key sel sc).2).
    { rewrite Eid. intros ->. destruct (sci_key _ I _ _ Ei) as (o & Ho & _). pose proof (sci_fresh _ I _ (mk_is_Some _ _ Ho)). lia. }
    cbn in Hi |- *. by rewrite lookup_insert_ne.
Qed.

Lemma add_refines sp sc user css b sel : refines sp sc → lastSelectorId sc + 1 < 2 ^ 64 →
  let r := addSelectorTxn notifier user (sc, css, b) sel in
  refines (mkSpec (sp_ids sp) (spec_add user (sp_selectors sp) sel)) r.1.1 ∧ lastSelectorId r.1.1 ≤ lastSelectorId sc + 1.
Proof.
  intros [R1 R2 R3] Hl. cbv zeta. unfold addSelectorTxn, spec_add. rewrite <- R3.
  destruct (selectors sc !! cs_Key sel) as [id|] eqn:Ek.
  - destruct (view_Some sc _ id R1 Ek) as (o & Ho & _ & ->). pose proof (addUser_inv notifier id user sc R1) as I'.
    pose proof (view_addUser sc id o user notifier (cs_Key sel)) as HV. pose proof (addUser_last notifier id user sc) as HL.
    pose proof (addUser_frame notifier id user sc) as (HI & _). destruct (addUser _ _ _ _) as [sc' new]. cbn [fst snd] in *. split; [|lia].
    constructor; [done|by rewrite HI|]. intros key. rewrite HV by done. cbn. destruct (decide (key = cs_Key sel)) as [->|].
    + by rewrite bool_decide_eq_true_2, lookup_insert_eq.
    + by rewrite bool_decide_eq_false_2, lookup_insert_ne, R3.
  - rewrite (view_None sc _ Ek). pose proof (view_addSelector sc (cs_Key sel) sel) as HV1.
    destruct (addSelector_inv (cs_Key sel) sel sc R1 Ek Hl) as (I1 & _ & El & Eo & Es).
    assert (HI1 : idCache (addSelectorLocked (cs_Key sel) sel sc).1 = idCache sc) by done.
    destruct (addSelectorLocked _ _ _) as [sc1 id]. cbn [fst snd] in *. set (o := mkIdentitySelector _ _ _ _) in Eo.
    pose proof (addUser_inv notifier id user sc1 I1) as I'.
    pose proof (λ key, view_addUser sc1 id o user notifier (cs_Key sel) key I1 ltac:(by rewrite Es, lookup_insert_eq) Eo) as HV.
    pose proof (addUser_last notifier id user sc1) as HL.
    pose proof (addUser_frame notifier id user sc1) as (HI & _). destruct (addUser _ _ _ _) as [sc' new]. cbn [fst snd] in *. split; [|lia].
    constructor; [done|by rewrite HI, HI1|]. intros key. rewrite HV, HV1 by done. cbn. destruct (decide (key = cs_Key sel)) as [->|].
    + rewrite bool_decide_eq_true_2, lookup_insert_eq, (right_id_L ∅ (∪)) by done. done.
    + by rewrite !bool_decide_eq_false_2, lookup_insert_ne, R3.
Qed.

Lemma adds_refines sp sc user css b sels : refines sp sc → lastSelectorId sc + Z.of_nat (length sels) < 2 ^ 64 →
  let r := foldl (addSelectorTxn notifier user) (sc, css, b) sels in
  refines (mkSpec (sp_ids sp) (foldl (spec_add user) (sp_selectors sp) sels)) r.1.1 ∧
  lastSelectorId r.1.1 ≤ lastSelectorId sc + Z.of_nat (length sels).
Proof.
  revert sp sc css b. induction sels as [|sel sels IH]; intros sp sc css b R Hl; cbn [foldl length] in *.
  - split; [by destruct sp|cbn; lia].
  - destruct (add_refines sp sc user css b sel R) as [R' Hl']; [lia|]. destruct (addSelectorTxn _ _ _ _) as [[sc' css'] b']. cbn [fst] in *.
    destruct (IH _ sc' css' b' R') as [R'' Hl'']; [lia|]. split; [done|lia].
Qed.

(** *** Removing selectors *)

Lemma remove_refines sp sc user key : refines sp sc →
  refines (mkSpec (sp_ids sp) (spec_remove user (sp_selectors sp) key)) (removeSelectorLocked notifier user sc key) ∧
  lastSelectorId (removeSelectorLocked notifier user sc key) = lastSelectorId sc.
Proof.
  intros [R1 R2 R3]. pose proof (removeSelector_inv notifier user sc key R1) as I'. revert I'. unfold removeSelectorLocked, spec_remove. rewrite <- R3.
  destruct (selectors sc !! key) as [id|] eqn:Ek; [|rewrite (view_None sc _ Ek); by destruct sp]. destruct (view_Some sc _ id R1 Ek) as (o & Ho & Eo & ->).
  pose proof (λ k, view_removeUser sc id o user notifier key k R1 Ek Ho) as HV. pose proof (removeUser_frame notifier id user sc) as (HI & HL & _).
  pose proof (removeUser_selectors notifier id user sc) as HS.
  assert (HO : ∃ o', objects (removeUser notifier id user sc).1 !! id = Some o').
  { unfold removeUser. rewrite Ho. case_bool_decide; [|by exists o]. eexists. cbn zeta. case_bool_decide; [destruct (notifier && _)|]; apply lookup_insert_eq. }
  assert (HB : (removeUser notifier id user sc).2 = bool_decide (user ∈ is_users o) && bool_decide (is_users o ∖ {[user]} = ∅)).
  { unfold removeUser. rewrite Ho. case_bool_decide; [|done]. cbn [andb is_users set_users]. by case_bool_decide. }
  destruct (removeUser _ _ _ _) as [sc' last]. cbn [fst snd] in *. destruct HO as [o' Ho']. intros I'.
  destruct (bool_decide_reflect (user ∈ is_users o)) as [Hu|Hu]; [destruct (bool_decide_reflect (is_users o ∖ {[user]} = ∅)) as [He|He]|]; cbn [andb] in HB; subst last.
  - rewrite Ho' in *. split; [|done]. constructor; [done|by cbn; rewrite HI|]. intros k. unfold view_selector. cbn. destruct (decide (k = key)) as [->|].
    + by rewrite !lookup_delete_eq.
    + rewrite !lookup_delete_ne by done. rewrite <- R3. specialize (HV k). by rewrite bool_decide_eq_false_2 in HV.
  - split; [|done]. constructor; [done|by rewrite HI|]. intros k. rewrite HV. cbn. destruct (decide (k = key)) as [->|].
    + by rewrite bool_decide_eq_true_2, lookup_insert_eq.
    + by rewrite bool_decide_eq_false_2, lookup_insert_ne, R3.
  - split; [|done]. constructor; [done|by rewrite HI|]. intros k. rewrite HV. cbn. destruct (decide (k = key)) as [->|].
    + rewrite bool_decide_eq_true_2 by done. rewrite <- R3. destruct (view_Some sc _ id R1 Ek) as (o1 & Ho1 & _ & ->).
      assert (o1 = o) as -> by congruence. f_equal. f_equal. set_solver.
    + by rewrite bool_decide_eq_false_2, R3.
Qed.

Lemma removes_refines sp sc user keys : refines sp sc →
  refines (mkSpec (sp_ids sp) (foldl (spec_remove user) (sp_selectors sp) keys)) (foldl (removeSelectorLocked notifier user) sc keys) ∧
  lastSelectorId (foldl (removeSelectorLocked notifier user) sc keys) = lastSelectorId sc.
Proof.
  revert sp sc. induction keys as [|key keys IH]; intros sp sc R; cbn [foldl]; [split; [by destruct sp|done]|].
  destruct (remove_refines sp sc user key R) as [R' HL]. destruct (IH _ _ R') as [R'' HL']. split; [done|]. by rewrite HL'.
Qed.

Lemma change_refines sp sc key from to : refines sp sc →
  refines (spec_run (OChangeUser key from to) sp) (ChangeUser key from to sc) ∧ lastSelectorId (ChangeUser key from to sc) = lastSelectorId sc.
Proof.
  intros [R1 R2 R3]. unfold ChangeUser. cbn [spec_run]. destruct (selectors sc !! key) as [id|] eqn:Ek.
  - destruct (view_Some sc _ id R1 Ek) as (o & Ho & Eo & EV). pose proof (λ k, view_addUser sc id o to false key k R1 Ek Ho) as HV.
    pose proof (addUser_inv false id to sc R1) as I1. pose proof (addUser_frame false id to sc) as (HI & HS & _). pose proof (addUser_last false id to sc) as HL.
    destruct (addUser false id to sc) as [sc1 b]. cbn [fst] in *. rewrite <- HS in Ek. destruct (view_Some sc1 _ id I1 Ek) as (o1 & Ho1 & _ & EV1).
    pose proof (λ k, view_removeUser sc1 id o1 from false key k I1 Ek Ho1) as HV1. pose proof (removeUser_frame false id from sc1) as (HI1 & HL1 & _).
    split; [|by rewrite HL1]. constructor; [by apply removeUser_inv|by rewrite HI1, HI|]. intros k. rewrite HV1. cbn [sp_selectors].
    destruct (decide (k = key)) as [->|Hne].
    + rewrite bool_decide_eq_true_2, lookup_alter_eq, <- R3, EV by done. rewrite HV, bool_decide_eq_true_2 in EV1 by done. by injection EV1 as <- <-.
    + by rewrite bool_decide_eq_false_2, lookup_alter_ne, HV, bool_decide_eq_false_2, R3.
  - split; [|done]. constructor; [done..|]. intros k. cbn [sp_selectors]. destruct (decide (k = key)) as [->|Hne].
    + rewrite lookup_alter_eq, <- R3. by rewrite (view_None sc _ Ek).
    + by rewrite lookup_alter_ne, R3.
Qed.

(** *** Updating identities *)

Lemma same_label_refl l : same_label l l = true.
Proof. unfold same_label. by rewrite !bool_decide_eq_true_2. Qed.

Lemma Labels_Equals_refl (l : Labels) : Labels_Equals l l = true.
Proof.
  unfold Labels_Equals. rewrite bool_decide_eq_true_2 by done. cbn [andb]. apply forallb_forall. intros [k x] Hx%list_elem_of_In%elem_of_map_to_list. cbn [fst snd].
  assert (E : lookup (M := gmap string Label) k l = Some x) by exact Hx. setoid_rewrite E. apply same_label_refl.
Qed.

(** An update keeps the labels of the identities that are known, as [Labels.Equals] has it; and the
    caller does not add and delete the same identity. *)
Definition labels_kept (ids added deleted : gmap Z Labels) : Prop :=
  (∀ nid l l', ids !! nid = Some l → added !! nid = Some l' → Labels_Equals l' l = true) ∧ dom added ## dom deleted.

Lemma update_refines sp sc added deleted : refines sp sc → labels_kept (sp_ids sp) added deleted →
  updates (updated_ids added deleted sc) sc (UpdateIdentities added deleted sc).1 ∧
  refines (spec_run (OUpdate added deleted) sp) (UpdateIdentities added deleted sc).1.
Proof.
  intros [R1 R2 R3] [HA HD]. destruct (update_spec sc added deleted R1) as [HU _]; [|done|].
  { intros nid lbls x Ha Hx. apply (HA nid); [|done]. by rewrite <- R2, Hx. }
  split; [done|]. destruct HU as [U1 U2 U3 U4 U5 U6 U7 _]. constructor; [done| |].
  - intros nid. cbn [spec_run sp_ids]. rewrite U2. unfold updated_ids. destruct (decide (nid ∈ dom deleted)) as [Hd|Hd].
    + rewrite bool_decide_eq_true_2 by done. symmetry. apply lookup_union_None. split.
      * apply map_lookup_filter_None. right. intros ? _. cbn. tauto.
      * apply not_elem_of_dom. set_solver.
    + rewrite bool_decide_eq_false_2 by done. rewrite lookup_union, map_lookup_filter, <- R2.
      destruct (ic_find (idCache sc) nid) as [x|]; cbn.
      * rewrite option_guard_True by done. by destruct (added !! nid).
      * by destruct (added !! nid).
  - intros key. cbn [spec_run sp_selectors]. rewrite <- R3. unfold view_selector. rewrite U3. destruct (selectors sc !! key) as [id|] eqn:Ek; [|done]. cbn.
    destruct (sci_key _ R1 _ _ Ek) as (o & Ho & _). destruct (U6 id o Ho) as (s & ->). by rewrite Ho.
Qed.

(** *** Histories *)

(** No operation changes the labels of an identity that is known. *)
Definition op_ok sp op : Prop :=
  match op with
  | OUpdate added deleted => labels_kept (sp_ids sp) added deleted
  | _ => True
  end.

Definition op_size op : Z := match op with OAddTxn _ sels | OAdd _ sels => Z.of_nat (length (cached_selectors sels)) | _ => 0 end.

(** The operations that publish what they change. *)
Definition publishes op : bool := match op with OAddTxn _ _ => false | _ => true end.

Lemma run_refines sp sc op : refines sp sc → op_ok sp op → lastSelectorId sc + op_size op < 2 ^ 64 →
  refines (spec_run op sp) (run op sc) ∧ lastSelectorId (run op sc) ≤ lastSelectorId sc + op_size op.
Proof.
  intros R HF HS. destruct op as [user sels|user sels|user keys|key from to|added deleted| |]; cbn [run op_size] in *.
  - destruct (adds_refines sp sc user [] false (cached_selectors sels) R HS) as [R' Hl]. split; [done|]. by unfold sc_AddSelectorsTxn, addSelectorsTxn.
  - destruct (adds_refines sp sc user [] false (cached_selectors sels) R HS) as [R' Hl]. unfold AddSelectors, addSelectorsTxn.
    destruct (foldl (addSelectorTxn _ _) _ _) as [[sc' css] b]. cbn [fst] in *. split; [by apply commit_refines|done].
  - destruct (removes_refines sp sc user keys R) as [R' Hl]. unfold RemoveSelectors. split; [by apply commit_refines|].
    change (lastSelectorId (commit ?x)) with (lastSelectorId x). lia.
  - destruct (change_refines sp sc key from to R) as [R' Hl]. split; [done|lia].
  - destruct (update_refines sp sc added deleted R HF) as [HU R']. split; [done|]. rewrite (up_last _ _ _ HU). lia.
  - split; [by apply (refines_same _ sc)|cbn; lia].
  - split; [by apply (refines_same _ sc)|cbn; lia].
Qed.

Lemma removes_synced user keys sc : synced (RemoveSelectors notifier user keys sc).
Proof. done. Qed.

(** No user waits for a commit between operations. *)
Lemma addUser_notified n id user sc : notifiedUsers (addUser n id user sc).1 = notifiedUsers sc.
Proof. unfold addUser. repeat (case_match; try done). Qed.

Lemma removeUser_notified n id user sc : notifiedUsers (removeUser n id user sc).1 = notifiedUsers sc.
Proof. unfold removeUser. repeat (case_match; try done). Qed.

Lemma adds_notified user sels : ∀ x, notifiedUsers (foldl (addSelectorTxn notifier user) x sels).1.1 = notifiedUsers x.1.1.
Proof.
  induction sels as [|sel sels IH]; intros [[sc css] b]; [done|]. cbn [foldl]. rewrite IH. unfold addSelectorTxn.
  destruct (selectors sc !! cs_Key sel) as [id|].
  - pose proof (addUser_notified notifier id user sc) as E. by destruct (addUser _ _ _ _).
  - destruct (addSelectorLocked (cs_Key sel) sel sc) as [sc1 id] eqn:EL. pose proof (addUser_notified notifier id user sc1) as E.
    destruct (addUser _ _ _ _) as [sc2 new]. cbn [fst] in *. rewrite E. unfold addSelectorLocked in EL. by injection EL as <- _.
Qed.

Lemma removes_notified user keys : ∀ sc, notifiedUsers (foldl (removeSelectorLocked notifier user) sc keys) = notifiedUsers sc.
Proof.
  induction keys as [|key keys IH]; intros sc; [done|]. cbn [foldl]. rewrite IH. unfold removeSelectorLocked.
  destruct (selectors sc !! key) as [id|]; [|done]. pose proof (removeUser_notified notifier id user sc) as E.
  destruct (removeUser _ _ _ _) as [sc' []]; cbn [fst] in E; [|done]. by destruct (objects sc' !! id).
Qed.

Lemma run_notified sp sc op : refines sp sc → op_ok sp op → notifiedUsers sc = ∅ → notifiedUsers (run op sc) = ∅.
Proof.
  intros R HF HN. destruct op as [user sels|user sels|user keys|key from to|added deleted| |]; cbn [run]; try done.
  - unfold sc_AddSelectorsTxn, addSelectorsTxn. by rewrite adds_notified.
  - pose proof (adds_notified user (cached_selectors sels) (sc, [], false)) as E. unfold AddSelectors, addSelectorsTxn.
    destruct (foldl _ _ _) as [[sc' css] b]. cbn in *. congruence.
  - unfold RemoveSelectors. cbn. by rewrite removes_notified.
  - unfold ChangeUser. destruct (selectors sc !! key); [|done]. by rewrite removeUser_notified, addUser_notified.
  - destruct (update_refines sp sc added deleted R HF) as [HU _]. by apply (up_notes _ _ _ HU).
Qed.

Lemma run_synced sp sc op : refines sp sc → op_ok sp op → publishes op = true → synced sc → synced (run op sc).
Proof.
  intros R HF HP HS. destruct op as [user sels|user sels|user keys|key from to|added deleted| |]; cbn [run] in *; try done.
  - unfold AddSelectors. by destruct (addSelectorsTxn _ _ _ _) as [[sc' css] b].
  - unfold ChangeUser. destruct (selectors sc !! key) as [id|]; [|done]. unfold synced.
    destruct (addUser_frame false id to sc) as (_ & _ & E1 & E2). destruct (removeUser_frame false id from (addUser false id to sc).1) as (_ & _ & E3 & E4).
    by rewrite E4, E2, E3, E1.
  - destruct (update_refines sp sc added deleted R HF) as [HU _]. by apply (up_synced _ _ _ HU).
Qed.

Definition runs (ops : list (operation Sel U)) sc : SelectorCache Sel U := foldl (λ sc op, run op sc) sc ops.
Definition spec_runs (ops : list (operation Sel U)) sp : spec Sel U := foldl (λ sp op, spec_run op sp) sp ops.

Definition total_size (ops : list (operation Sel U)) : Z := foldr (λ op n, op_size op + n) 0 ops.

Lemma op_size_nonneg op : 0 ≤ op_size op.
Proof. destruct op; cbn; lia. Qed.

Lemma total_size_nonneg ops : 0 ≤ total_size ops.
Proof. induction ops as [|op ops IH]; [done|]. change (0 ≤ op_size op + total_size ops). pose proof (op_size_nonneg op). lia. Qed.

Fixpoint ops_ok sp (ops : list (operation Sel U)) : Prop :=
  match ops with [] => True | op :: ops => op_ok sp op ∧ ops_ok (spec_run op sp) ops end.

Lemma ops_ok_app sp ops ops' : ops_ok sp (ops ++ ops') ↔ ops_ok sp ops ∧ ops_ok (spec_runs ops sp) ops'.
Proof. revert sp. induction ops as [|op ops IH]; intros sp; cbn; [tauto|]. rewrite IH. unfold spec_runs. cbn. tauto. Qed.

Lemma runs_refines ops sp sc : refines sp sc → ops_ok sp ops → lastSelectorId sc + total_size ops < 2 ^ 64 →
  refines (spec_runs ops sp) (runs ops sc) ∧ (forallb publishes ops = true → synced sc → synced (runs ops sc)) ∧
  (notifiedUsers sc = ∅ → notifiedUsers (runs ops sc) = ∅).
Proof.
  revert sp sc. induction ops as [|op ops IH]; intros sp sc R HF HS; [done|]. destruct HF as [HF HFs].
  pose proof (total_size_nonneg ops) as Hn. assert (HT : total_size (op :: ops) = op_size op + total_size ops) by done.
  destruct (run_refines sp sc op R HF) as (R' & Hl); [lia|]. cbn [runs spec_runs foldl].
  destruct (IH _ _ R' HFs) as (R'' & HP & HN); [lia|]. split_and!; [done| |].
  - cbn. intros [Hop Hops]%andb_true_iff Hs. apply HP; [done|]. by apply (run_synced sp).
  - intros E. apply HN. by apply (run_notified sp).
Qed.

(** *** The empty cache *)

Lemma new_identities ids : ic_inv (newScIdentityCache ids) ∧ ∀ nid, sc_lbls <$> ic_find (newScIdentityCache ids) nid = ids !! nid.
Proof.
  unfold newScIdentityCache. assert (HG : ∀ l, NoDup l → let c := foldl (λ c nid, match ids !! nid with Some lbls => ic_insert c nid lbls | None => c end) emptyIdentityCache l in
    ic_inv c ∧ ∀ nid, sc_lbls <$> ic_find c nid = if bool_decide (nid ∈ l) then ids !! nid else None).
  { induction l as [|n l IH] using rev_ind; intros HN; [split; [apply empty_inv|done]|]. apply NoDup_app in HN as (HN & Hd & _).
    destruct (IH HN) as [I HF]. rewrite foldl_snoc. cbv zeta in *. set (c := foldl _ _ l) in *. clearbody c.
    assert (Hn : n ∉ l) by (intros Hn; apply (Hd n Hn); by apply list_elem_of_singleton).
    assert (HI : ∀ nid, nid ≠ n → (if bool_decide (nid ∈ l ++ [n]) then ids !! nid else None) = if bool_decide (nid ∈ l) then ids !! nid else None).
    { intros nid Hne. apply if_decide_ext. rewrite elem_of_app, list_elem_of_singleton. tauto. }
    assert (Hc : sc_lbls <$> ic_find c n = None) by (by rewrite HF, bool_decide_eq_false_2).
    assert (HB : bool_decide (n ∈ l ++ [n]) = true) by (apply bool_decide_eq_true_2, elem_of_app; right; by apply list_elem_of_singleton).
    destruct (ids !! n) as [lbls|] eqn:En; split.
    - apply ic_insert_inv; [done|]. apply find_None. by apply fmap_None in Hc.
    - intros nid. rewrite find_insert. destruct (decide (nid = n)) as [->|Hne]; [by rewrite HB, bool_decide_eq_true_2|]. by rewrite HI, bool_decide_eq_false_2, HF.
    - done.
    - intros nid. destruct (decide (nid = n)) as [->|Hne]; [by rewrite HB, En, Hc|]. by rewrite HI, HF. }
  destruct (HG (range (dom ids)) (NoDup_range _)) as [I HF]. split; [done|]. intros nid. rewrite HF. case_bool_decide as Hn; [done|].
  rewrite elem_of_range, not_elem_of_dom in Hn. done.
Qed.

Lemma new_refines ids : refines (mkSpec ids ∅) (NewSelectorCache ids : SelectorCache Sel U).
Proof.
  destruct (new_identities ids) as [I HF]. constructor; [|done|done].
  constructor; try done; cbn [NewSelectorCache selectors objects selectorsByNamespace].
  - intros ns id. rewrite lookup_empty. split; [cbn; set_solver|]. intros (o & [Ho _] & _). done.
  - intros id [o Ho]. done.
  - intros id o [Ho _]. done.
  - intros id o [Ho _]. done.
Qed.
End spec.
