(* ===== verification/SelectorCacheHistory.v ===== *)
(** * Histories of the selector cache

    The published selections of [src/pkg/policy/selectorcache.go] after any sequence of
    operations, the notifications that an update of the identities queues, and what happens
    when the labels of an identity change. *)

From S2P Require Import Prelude Labels Selectors SelectorCache SelectorCacheInv SelectorCacheUpdate SelectorCacheSpec.

Local Open Scope Z_scope.

(** ** The binary search *)

(** [sort.Search] finds the least index from which the predicate holds. *)
Lemma Search_spec fuel i j f : (i ≤ j)%nat → (j - i ≤ fuel)%nat → (∀ a b, i ≤ a → a ≤ b → b < j → f a = true → f b = true)%nat →
  let r := Search fuel i j f in (i ≤ r ≤ j)%nat ∧ (∀ a, i ≤ a → a < r → f a = false)%nat ∧ ((r < j)%nat → f r = true).
Proof.
  revert i j. induction fuel as [|fuel IH]; intros i j Hij Hf Hm; cbn [Search]; [split_and!; lia|].
  destruct (Nat.ltb_spec i j) as [Hlt|Hlt]; [|split_and!; lia].
  assert (Hh : (i ≤ (i + j) / 2 < j)%nat). { pose proof (Nat.div_mod (i + j) 2). pose proof (Nat.mod_upper_bound (i + j) 2). lia. }
  set (h := ((i + j) / 2)%nat) in *. destruct (f h) eqn:Eh.
  - destruct (IH i h) as (H1 & H2 & H3); [lia|lia|intros; apply (Hm a); (done || lia)|]. split_and!; [lia|lia|done|].
    intros Hr. destruct (decide (Search fuel i h f = h)) as [->|]; [done|]. apply H3. lia.
  - destruct (IH (S h) j) as (H1 & H2 & H3); [lia|lia|intros; apply (Hm a); (done || lia)|]. split_and!; [lia|lia| |done].
    intros a Ha Hr. destruct (decide (S h ≤ a)%nat); [by apply H2|]. destruct (f a) eqn:Ea; [|done].
    assert (f h = true) by (apply (Hm a); (done || lia)). congruence.
Qed.

Lemma sorted_nth (l : list Z) a b x y : StronglySorted Z.le l → (a ≤ b)%nat → l !! a = Some x → l !! b = Some y → x ≤ y.
Proof.
  intros HS. revert a b. induction HS as [|z l HS IH HF]; intros a b Hab Ha Hb; [done|]. destruct a as [|a], b as [|b]; cbn in *.
  - injection Ha as ->. injection Hb as ->. lia.
  - injection Ha as ->. rewrite Forall_lookup in HF. by apply (HF b).
  - lia.
  - apply (IH a b); (done || lia).
Qed.

(** The search for an element of a sorted list. *)
Lemma search_elem (l : list Z) x : StronglySorted Z.le l →
  bool_decide (l !! Search (length l) 0 (length l) (λ i, match l !! i with Some y => x <=? y | None => false end) = Some x) = bool_decide (x ∈ l).
Proof.
  intros HS. set (f := λ i, match l !! i with Some y => x <=? y | None => false end).
  destruct (Search_spec (length l) 0 (length l) f) as (H1 & H2 & H3); [lia|lia| |].
  { intros a b _ Hab Hb. unfold f. destruct (l !! a) as [y|] eqn:Ea; [|done]. destruct (lookup_lt_is_Some_2 l b Hb) as [z Ez]. rewrite Ez.
    pose proof (sorted_nth l a b y z HS Hab Ea Ez). lia. }
  set (r := Search _ _ _ f) in *. apply bool_decide_ext. split; [by apply list_elem_of_lookup_2|].
  intros (k & Hk)%list_elem_of_lookup. assert (Hr : (r ≤ k)%nat).
  { destruct (decide (k < r)%nat) as [Hlt|]; [|lia]. specialize (H2 k ltac:(lia) Hlt). unfold f in H2. rewrite Hk in H2. lia. }
  pose proof (lookup_lt_Some _ _ _ Hk). destruct (lookup_lt_is_Some_2 l r) as [y Ey]; [lia|]. specialize (H3 ltac:(lia)). unfold f in H3. rewrite Ey in H3.
  pose proof (sorted_nth l r k y x HS Hr Ey Hk). rewrite Ey. f_equal. lia.
Qed.

(** ** Selections *)

Section history.
Context {GR : GoRange} {GS : GoSort} {Sel : Type} {CS : CacheSelector Sel} {U : Type} `{Countable U} (notifier : bool).
Implicit Types (sc : SelectorCache Sel U) (o : identitySelector Sel U) (id nid : Z) (user : U) (sp : spec Sel U).

Lemma sorted_ids_sorted (s : gset Z) : StronglySorted Z.le (sorted_ids s).
Proof. unfold sorted_ids. apply (sort_by_sorted Z.le). Qed.

Lemma elem_of_sorted_ids (s : gset Z) nid : nid ∈ sorted_ids s ↔ nid ∈ s.
Proof. unfold sorted_ids. by rewrite sort_by_perm, elem_of_range. Qed.

Lemma NoDup_sorted_ids (s : gset Z) : NoDup (sorted_ids s).
Proof. unfold sorted_ids. rewrite sort_by_perm. apply NoDup_range. Qed.

Lemma default_published (s : gset Z) : default [] (published s) = sorted_ids s.
Proof.
  unfold published. case_bool_decide as Hs; [|done]. subst s. cbn. symmetry. apply Permutation_nil_r.
  unfold sorted_ids. by rewrite sort_by_perm, range_empty.
Qed.

Lemma spec_selected sp sc (sel : Sel) : refines sp sc → selected (idCache sc) sel = spec_selects sp sel.
Proof.
  intros [_ R2 _]. apply set_eq. intros nid. rewrite elem_of_selected. unfold spec_selects. rewrite elem_of_dom. split.
  - intros (x & Ex & Hm). exists (sc_lbls x). apply map_lookup_filter_Some. split; [|done]. by rewrite <- R2, Ex.
  - intros (l & [El Hm]%map_lookup_filter_Some). rewrite <- R2 in El. apply fmap_Some in El as (x & Ex & ->). by exists x.
Qed.

(** The selector of a key in a cache that implements the specification. *)
Lemma refines_selector sp sc key sel users : refines sp sc → sp_selectors sp !! key = Some (sel, users) →
  ∃ id o, selectors sc !! key = Some id ∧ live sc id o ∧ is_key o = key ∧ is_source o = sel ∧ is_users o = users ∧
    cachedSelections o = spec_selects sp sel.
Proof.
  intros R Hk. pose proof (re_inv _ _ R) as I. rewrite <- (re_selectors _ _ R) in Hk. unfold view_selector in Hk.
  destruct (selectors sc !! key) as [id|] eqn:Ek; [|done]. cbn in Hk. destruct (sci_key _ I _ _ Ek) as (o & Ho & Eo). rewrite Ho in Hk.
  injection Hk as <- <-. assert (Hl : live sc id o) by (split; [done|by rewrite Eo]). exists id, o. split_and!; try done.
  rewrite (sci_selected _ I id o Hl). by apply spec_selected.
Qed.

Lemma synced_selections sp sc key sel users : refines sp sc → synced sc → sp_selectors sp !! key = Some (sel, users) →
  ∃ id, selectors sc !! key = Some id ∧ GetSelections sc id = sorted_ids (spec_selects sp sel) ∧
    ∀ wildcard nid, Selects wildcard sc id nid = bool_decide (key = wildcard) || bool_decide (nid ∈ spec_selects sp sel).
Proof.
  intros R HS Hk. destruct (refines_selector sp sc key sel users R Hk) as (id & o & Ei & Hl & Eo & _ & _ & Ec). exists id. split; [done|].
  assert (EG : GetSelections sc id = sorted_ids (spec_selects sp sel)).
  { unfold GetSelections, GetSelectionsAt. rewrite HS, (sci_published _ (re_inv _ _ R) id o Hl), Ec. apply default_published. }
  split; [done|]. intros wildcard nid. unfold Selects. destruct Hl as [Ho _]. rewrite Ho, Eo, EG. case_bool_decide; [done|]. cbn [orb].
  rewrite search_elem by apply sorted_ids_sorted. apply bool_decide_ext, elem_of_sorted_ids.
Qed.

(** ** Histories *)

(** No update changes the labels of an identity that is known at the time, and the identifiers of
    the selectors do not wrap. *)
Record well_labelled (ids : gmap Z Labels) (ops : list (operation Sel U)) : Prop := {
  wl_ops : ops_ok (mkSpec ids ∅) ops;
  wl_size : total_size ops < 2 ^ 64;
}.

Lemma history_refines ids ops : well_labelled ids ops →
  let sp := spec_runs ops (mkSpec ids ∅) in
  let sc := runs notifier ops (NewSelectorCache ids : SelectorCache Sel U) in
  refines sp sc ∧ (forallb publishes ops = true → synced sc) ∧ notifiedUsers sc = ∅.
Proof.
  intros [W1 W2]. destruct (runs_refines notifier ops (mkSpec ids ∅) (NewSelectorCache ids)) as (R & HS & HN); [apply new_refines|done|done|].
  split_and!; [done| |by apply HN]. intros HP. by apply HS.
Qed.

Lemma sorted_lt (l : list Z) : NoDup l → StronglySorted Z.le l → StronglySorted Z.lt l.
Proof.
  intros HN HS. induction HS as [|x l HS IH HF]; [constructor|]. apply NoDup_cons in HN as [Hx HN]. constructor; [by apply IH|].
  rewrite Forall_forall in HF |- *. intros y Hy. specialize (HF y Hy). assert (x ≠ y) by (intros ->; done). lia.
Qed.


(** C13. After any sequence as above, an update of the identities that keeps the labels of those known
    queues, for each user of each selector, notifications that add exactly the identities its
    selections gain and delete exactly those they lose, each once; there are no empty notifications
    and none to others than the users of the selector.  After these, one commit is queued for each
    user that was told something, and for no other, with the snapshot that the cache publishes, and
    this snapshot has the new selections. *)
Theorem selector_cache_notifications ids ops added deleted : well_labelled ids (ops ++ [OUpdate added deleted]) →
  let sp := spec_runs ops (mkSpec ids ∅) in
  let sc := runs notifier ops (NewSelectorCache ids : SelectorCache Sel U) in
  let sp' := spec_run (OUpdate added deleted) sp in
  let sc' := run notifier (OUpdate added deleted) sc in
  ∃ new committed, userNotes sc' = userNotes sc ++ new ++ map (λ u, SelectionCommit u (readTxn sc')) committed ∧
    (NoDup committed ∧ ∀ user, user ∈ committed ↔ is_told user new) ∧
    (∀ n, n ∈ new → ∃ user id adds dels key sel users, n = SelectionUpdated user id adds dels ∧ adds ++ dels ≠ [] ∧
       selectors sc' !! key = Some id ∧ sp_selectors sp !! key = Some (sel, users) ∧ user ∈ users) ∧
    ∀ key sel users, sp_selectors sp !! key = Some (sel, users) → ∃ id, selectors sc' !! key = Some id ∧
      (∀ user, user ∈ users → difference_told user id new (spec_selects sp sel) (spec_selects sp' sel)) ∧
      (new ≠ [] → GetSelectionsAt (readTxn sc') id = sorted_ids (spec_selects sp' sel)).
Proof.
  intros [[W1 [HF _]]%ops_ok_app W2]. cbv zeta.
  assert (W : well_labelled ids ops) by (constructor; [done|]; unfold total_size in *; rewrite foldr_app in W2; exact W2).
  destruct (history_refines ids ops W) as (R & _ & HE). cbv zeta in *. set (sp := spec_runs ops _) in *. set (sc := runs _ ops _) in *. clearbody sp sc.
  destruct (update_refines sp sc added deleted R HF) as [HU R']. cbn [run].
  destruct (up_notes _ _ _ HU HE) as (_ & new & committed & En & [HN1 HN2] & HC & HS). exists new, committed. split_and!; [done|apply HC|apply HC| |].
  - intros n (user & id & adds & dels & o & -> & Hne & Hl & Hu)%HN1. exists user, id, adds, dels, (is_key o), (is_source o), (is_users o).
    rewrite (up_selectors _ _ _ HU). destruct Hl as [Ho Hs]. split_and!; [done|done|done| |done]. rewrite <- (re_selectors _ _ R). unfold view_selector.
    rewrite Hs. cbn. by rewrite Ho.
  - intros key sel users Hk. destruct (refines_selector sp sc key sel users R Hk) as (id & o & Ei & [Ho Hs] & Eo & Es & Eu & Ec).
    destruct (refines_selector _ _ key sel users R' Hk) as (id' & o' & Ei' & [Ho' _] & _ & _ & _ & Ec').
    rewrite (up_selectors _ _ _ HU) in Ei' |- *. assert (id' = id) as -> by congruence. destruct (up_object _ _ _ HU id o Ho) as (s & Es').
    rewrite Es' in Ho'. injection Ho' as <-. exists id. split_and!; [done| |].
    + intros user Hu. rewrite <- Ec, <- Ec'. apply (HN2 id o s user); [done|done|by rewrite Eu].
    + intros Hne. destruct HS as [?|HS]; [done|]. destruct (synced_selections _ _ key sel users R' HS Hk) as (id' & Ei2 & EG & _).
      rewrite (up_selectors _ _ _ HU) in Ei2. assert (id' = id) as -> by congruence. exact EG.
Qed.

(** ** Updates that can be skipped *)

Lemma same_label_sym a b : same_label a b = same_label b a.
Proof. unfold same_label. f_equal; [f_equal|]; by apply bool_decide_ext. Qed.

Lemma Labels_Equals_lookup (l l' : gmap string Label) : Labels_Equals l l' = true ↔
  size l = size l' ∧ ∀ k x, l !! k = Some x → ∃ y, l' !! k = Some y ∧ same_label x y = true.
Proof.
  unfold Labels_Equals. rewrite andb_true_iff, bool_decide_eq_true, forallb_forall. apply and_iff_compat_l. split.
  - intros HF k x Hx. specialize (HF (k, x)). cbn [fst snd] in HF. specialize (HF ltac:(by apply list_elem_of_In, elem_of_map_to_list)).
    change (match l' !! k with Some b => same_label x b | None => false end = true) in HF. destruct (l' !! k) as [y|]; [by exists y|done].
  - intros HF [k x] Hx%list_elem_of_In%elem_of_map_to_list. destruct (HF k x Hx) as (y & Ey & Hs). cbn [fst snd].
    change (match l' !! k with Some b => same_label x b | None => false end = true). by rewrite Ey.
Qed.

Lemma Labels_Equals_sym (l l' : gmap string Label) : Labels_Equals l l' = true → Labels_Equals l' l = true.
Proof.
  intros [HS HF]%Labels_Equals_lookup. apply Labels_Equals_lookup. split; [done|].
  assert (HD : dom l = dom l').
  { apply set_subseteq_size_eq; [|rewrite !size_dom; lia]. intros k [x Hx]%elem_of_dom. destruct (HF k x Hx) as (y & Hy & _). apply elem_of_dom. by exists y. }
  intros k y Hy. assert (Hk : k ∈ dom l) by (rewrite HD; apply elem_of_dom; by exists y). apply elem_of_dom in Hk as [x Hx]. exists x. split; [done|].
  destruct (HF k x Hx) as (y' & Hy' & Hs). rewrite same_label_sym. by replace y with y' by congruence.
Qed.

Lemma foldl_fix {A B} (f : A → B → A) a l : (∀ b, b ∈ l → f a b = a) → foldl f a l = a.
Proof.
  induction l as [|b l IH]; intros HF; [done|]. cbn [foldl]. rewrite (HF b) by (apply elem_of_cons; by left). apply IH. intros c Hc. apply HF, elem_of_cons. by right.
Qed.

(** An update that [CanSkipUpdate] allows to skip would change nothing, and queue nothing. *)
Theorem can_skip_update added deleted sc : CanSkipUpdate added deleted sc = true → UpdateIdentities added deleted sc = (sc, false).
Proof.
  unfold CanSkipUpdate. rewrite andb_true_iff, !forallb_forall. intros [HD HA]. unfold UpdateIdentities.
  rewrite (foldl_fix delete_identity); cbn [delete_identity].
  2: { intros nid Hn%elem_of_range. specialize (HD nid ltac:(by apply list_elem_of_In, elem_of_elements)). apply bool_decide_eq_true in HD. by rewrite HD. }
  rewrite (foldl_fix (add_identity added)); cbn [add_identity].
  2: { intros nid [lbls Hn]%elem_of_range%elem_of_dom. specialize (HA (nid, lbls) ltac:(by apply list_elem_of_In, elem_of_map_to_list)). cbn [fst snd] in HA.
    rewrite Hn. destruct (ic_find (idCache sc) nid) as [x|]; [|done]. by rewrite (Labels_Equals_sym _ _ HA). }
  rewrite elements_empty. cbn. by destruct sc.
Qed.
End history.

(** ** The selectors of policies *)

(** The namespaces of a label selector are those of its requirements, as [NewLabelSelector]
    makes them. *)
Definition namespaces_ok `{GoRange} (s : Selector) : Prop :=
  match s with
  | LabelSelector _ reqs ns => ns = (GetFirstK8sMatch reqs PodNamespaceLabel).1
  | _ => True
  end.

Definition policySelector `{GoRange} : Type := {s : Selector | namespaces_ok s}.

(** A label selector, as the cache takes it. *)
Definition label_selector `{GoRange} `{GoSort} (key : string) (ls : slimLabelSelector) : policySelector :=
  exist namespaces_ok (NewLabelSelector key (Some ls)) eq_refl.

(** [WildcardSelector] has no requirements; [wildcard] is its key. *)
Definition wildcard_selector `{GoRange} `{GoSort} (wildcard : string) : policySelector :=
  label_selector wildcard (mkLabelSelector ∅ []).

Lemma wildcard_selector_wildcard `{GoRange} `{GoSort} wildcard : Selector_IsWildcard (proj1_sig (wildcard_selector wildcard)) = true.
Proof.
  cbn. apply bool_decide_eq_true. apply Permutation_nil_r. rewrite sort_by_perm. cbn. by rewrite dom_empty_L, range_empty.
Qed.

(** The selectors of policies are selectors of the cache. *)
Definition policySelectors `{GoRange} `{GoSort} (c : SelectorConfig) (wildcard : string) : CacheSelector policySelector.
Proof.
  refine {|
    cs_Key s := Selector_Key (`s);
    cs_Matches s := Selector_Matches c (`s);
    cs_Namespaces s := SelectedNamespaces (`s);
    cs_IsFQDN s := match `s with FQDNSelector _ _ => true | _ => false end;
    cs_IsWildcard s := Selector_IsWildcard (`s);
    cs_WildcardSelector := wildcard_selector wildcard;
  |}.
  { by intros [[key reqs ns| |] Hs] lbls Hw; cbn in *; [apply bool_decide_eq_true in Hw as ->|..]. }
  { apply wildcard_selector_wildcard. }
  intros [[key reqs ns| |] Hs] lbls Hn Hm; [|done..]. cbn in Hs, Hn, Hm |- *. subst ns. by apply requirements_namespace.
Defined.

(** ** Examples *)

Module Examples.
#[local] Existing Instances range_elements sort_merge.
Local Open Scope string_scope.

Definition config : SelectorConfig := mkSelectorConfig false false true true.

#[local] Instance selectors_ok : CacheSelector policySelector := policySelectors config "all".

Definition web : Labels := FromSlice [NewLabel "app" "web" "k8s"; NewLabel PodNamespaceLabel "prod" "k8s"].
Definition db : Labels := FromSlice [NewLabel "app" "db" "k8s"; NewLabel PodNamespaceLabel "prod" "k8s"].
Definition web_dev : Labels := FromSlice [NewLabel "app" "web" "k8s"; NewLabel PodNamespaceLabel "dev" "k8s"].

Definition prod_selector : policySelector :=
  label_selector "web-prod" (mkLabelSelector {[ "k8s:app" := "web"; "k8s:io.kubernetes.pod.namespace" := "prod" ]} []).
Definition web_selector : policySelector := label_selector "web" (mkLabelSelector {[ "k8s:app" := "web" ]} []).

Definition ids : gmap Z Labels := {[100%Z := web; 200%Z := db]}.
Definition ops : list (operation policySelector Z) :=
  [OAdd 1%Z [prod_selector; web_selector]; OUpdate {[300%Z := web]} ∅; OHandle; OChangeUser "web" 1%Z 2%Z].
Definition removal : operation policySelector Z := OUpdate ∅ {[100%Z := web]}.

Lemma well_labelled_ops : well_labelled ids (ops ++ [removal]).
Proof.
  constructor; [|by vm_compute]. unfold ops, removal. cbn [app ops_ok op_ok]. unfold labels_kept. split_and!; try done.
  - intros nid l l' E [<- <-]%lookup_singleton_Some. by vm_compute in E.
Qed.


Lemma selector_cache_notifications_witness :
  well_labelled ids (ops ++ [removal]) ∧
  ∃ new id, 100%Z ∈ concat (snd <$> told 2%Z id new) ∧
    GetSelectionsAt (readTxn (run true removal (runs true ops (NewSelectorCache ids)))) id = [300%Z].
Proof.
  split; [apply well_labelled_ops|].
  destruct (selector_cache_notifications true ids ops ∅ {[100%Z := web]} well_labelled_ops) as (new & committed & _ & _ & _ & HG).
  destruct (HG "web" web_selector {[ 2%Z ]}) as (id & _ & HD & HS); [by vm_compute|]. exists new, id.
  assert (H100 : 100%Z ∈ concat (snd <$> told 2%Z id new)).
  { destruct (HD 2%Z) as [_ HDel _ _]; [set_solver|]. apply HDel. split; apply (bool_decide_eq_true_1 _); by vm_compute. }
  split; [exact H100|]. unfold removal. rewrite HS; [by vm_compute|]. intros ->. by apply elem_of_nil in H100.
Defined.

Lemma can_skip_update_witness :
  CanSkipUpdate {[100%Z := web]} {[400%Z := web]} (runs true ops (NewSelectorCache ids)) = true ∧
  UpdateIdentities {[100%Z := web]} {[400%Z := web]} (runs true ops (NewSelectorCache ids)) = (runs true ops (NewSelectorCache ids), false).
Proof. split; [by vm_compute|]. apply (can_skip_update {[100%Z := web]} {[400%Z := web]}). by vm_compute. Defined.

(** When the labels of an identity change the cache is not exact: a selector that no longer
    matches the identity still publishes it, although the update asks to recompute all
    policies; and a selector of the identity's former namespace that is added later selects
    it by its former labels. *)
Theorem changed_labels_stale :
  (∃ (sc : SelectorCache policySelector Z) id, sc = (UpdateIdentities {[100%Z := db]} ∅ (runs true [OAdd 1%Z [web_selector]] (NewSelectorCache ids))).1 ∧
    (UpdateIdentities {[100%Z := db]} ∅ (runs true [OAdd 1%Z [web_selector]] (NewSelectorCache ids))).2 = true ∧
    selectors sc !! "web" = Some id ∧ option_map (λ o, elements (cachedSelections o)) (objects sc !! id) = Some [] ∧
    GetSelections sc id = [100%Z] ∧ GetSelections (commit sc) id = [100%Z]) ∧
  (∃ (sc : SelectorCache policySelector Z) id,
    sc = runs true [OUpdate {[100%Z := web_dev]} ∅; OAdd 1%Z [prod_selector]] (NewSelectorCache ids) ∧
    selectors sc !! "web-prod" = Some id ∧ GetSelections sc id = [100%Z] ∧
    option_map (λ x, Selector_Matches config (`prod_selector) (sc_lbls x)) (ic_find (idCache sc) 100) = Some false).
Proof.
  split.
  - eexists _, 1%Z. split; [reflexivity|]. split_and!; vm_compute; reflexivity.
  - eexists _, 1%Z. split; [reflexivity|]. split_and!; vm_compute; reflexivity.
Qed.

(** The selections of a selector that is removed stay in the published snapshots: no
    operation refers to them any more. *)
Theorem removed_selections_leak :
  ∃ sc : SelectorCache policySelector Z,
    sc = runs true [OAdd 1%Z [web_selector]; ORemove 1%Z ["web"]] (NewSelectorCache ids) ∧
    selectors sc = ∅ ∧ sn_selections (readTxn sc) = {[ 1%Z := [100%Z] ]}.
Proof. eexists. split; [reflexivity|]. split; by vm_compute. Qed.
End Examples.
