(* ===== verification/PolicyLifecycle.v ===== *)
(** * The life of a selector policy

    Model of the users and holds of [L4Policy] ([src/pkg/policy/l4.go]): endpoints fetch a
    policy under a hold, register the endpoint policies they distil from it and remove them
    later; the policy is superseded by a newer one, and when it is no longer held nor used its
    filters are removed from the selector cache.  The methods run concurrently: each is one
    step under the policy's mutex, and what [finishDetach] does without the mutex is a job
    that removes one filter after the other, interleaved with all else.  The removal of a filter's
    selectors and the clearing of its pointer to the policy are one step: the notifications of the
    selector cache, which read the pointer, are not among the steps here.
    [selectorPolicy.Detach], which detaches a policy regardless of holds and users, has no caller
    outside the tests and is left out. *)

From S2P Require Import Prelude L4Types L4Filter L4MapState Labels Selectors SelectorCache SelectorCacheInv SelectorCacheSpec.
From S2P Require Import SelectorCacheHistory.

Local Open Scope Z_scope.

(** ** The policy *)

Section policy.
Context {E : Type} `{Countable E}.

(** The users are [None] once the policy is detached; [detached] is whether [detachedTime] is
    set. *)
Record L4Policy := mkL4Policy {
  lp_users : option (gset E);
  holdCount : Z;
  superseded : bool;
  detached : bool;
}.
Implicit Types (l : L4Policy) (user : E).

Definition NewL4Policy : L4Policy := mkL4Policy (Some ∅) 0 false false.

Definition addHold l : L4Policy * bool :=
  if bool_decide (lp_users l = None) || superseded l then (l, false)
  else (mkL4Policy (lp_users l) (holdCount l + 1) (superseded l) (detached l), true).

(** The policy and whether the caller must call [finishDetach]. *)
Definition shouldDetachLocked l : L4Policy * bool :=
  if (holdCount l =? 0) && bool_decide (lp_users l = Some ∅) && superseded l
  then (mkL4Policy None (holdCount l) (superseded l) true, true)
  else (l, false).

Definition releaseHold l : L4Policy * bool :=
  shouldDetachLocked
    (mkL4Policy (lp_users l) (if 0 <? holdCount l then holdCount l - 1 else holdCount l) (superseded l) (detached l)).

(** The policy and whether the endpoint is regenerated. *)
Definition insertUser user l : L4Policy * bool :=
  let l := mkL4Policy ((λ us, {[ user ]} ∪ us) <$> lp_users l) (holdCount l) (superseded l) (detached l) in
  (l, bool_decide (lp_users l = None) || superseded l).

Definition removeUser user l : L4Policy * bool :=
  shouldDetachLocked (mkL4Policy ((λ us, us ∖ {[ user ]}) <$> lp_users l) (holdCount l) (superseded l) (detached l)).

(** The policy, the endpoints that are regenerated, and whether to call [finishDetach]. *)
Definition supersede (GetID : E → Z) (endpointID : Z) l : L4Policy * gset E * bool :=
  let regenerated := filter (λ u, endpointID ≠ GetID u) (default ∅ (lp_users l)) in
  let '(l, needsDetach) := shouldDetachLocked (mkL4Policy (lp_users l) (holdCount l) true (detached l)) in
  (l, regenerated, needsDetach).

End policy.
Arguments L4Policy E {_ _}.

(** ** The cache the filters are removed from *)

(** What the policy relies on: removing a filter from the selectors of some keys makes it no
    longer a user of these selectors, and changes nothing for other users. *)
Class UserCache (C U : Type) := {
  uc_ok : C → Prop;
  uc_uses : C → U → string → Prop;
  uc_remove : U → list string → C → C;
  uc_remove_ok c u keys : uc_ok c → uc_ok (uc_remove u keys c);
  uc_remove_uses c u keys u' key : uc_ok c → uc_uses (uc_remove u keys c) u' key ↔ uc_uses c u' key ∧ ¬ (u' = u ∧ key ∈ keys);
}.

Section cache.
Context {GR : GoRange} {GS : GoSort} {Sel : Type} {CS : CacheSelector Sel} {U : Type} `{Countable U}.

Definition is_user (m : gmap string (Sel * gset U)) (u : U) (key : string) : Prop :=
  ∃ sel users, m !! key = Some (sel, users) ∧ u ∈ users.

Lemma spec_remove_user u m key u' k : is_user (spec_remove u m key) u' k ↔ is_user m u' k ∧ ¬ (u' = u ∧ k = key).
Proof.
  unfold is_user, spec_remove. destruct (m !! key) as [[sel users]|] eqn:Ek; [|naive_solver].
  destruct (bool_decide_reflect (u ∈ users)) as [Hu|Hu]; [|naive_solver].
  destruct (decide (k = key)) as [->|Hne].
  - rewrite Ek. destruct (bool_decide_reflect (users ∖ {[ u ]} = ∅)) as [He|_].
    + rewrite lookup_delete_eq. split; [naive_solver|]. intros [(? & ? & [= <- <-] & Hu') Hn]. set_solver.
    + rewrite lookup_insert_eq. split; [intros (? & ? & [= <- <-] & Hu'); split; [exists sel, users|]; set_solver|].
      intros [(? & ? & [= <- <-] & Hu') Hn]. exists sel, (users ∖ {[ u ]}). set_solver.
  - assert (El : (if bool_decide (users ∖ {[ u ]} = ∅) then delete key m else <[key:=(sel, users ∖ {[ u ]})]> m) !! k = m !! k)
      by (case_bool_decide; [by apply lookup_delete_ne|by apply lookup_insert_ne]).
    rewrite El. naive_solver.
Qed.

Lemma spec_removes_user u keys : ∀ m u' k, is_user (foldl (spec_remove u) m keys) u' k ↔ is_user m u' k ∧ ¬ (u' = u ∧ k ∈ keys).
Proof.
  induction keys as [|key keys IH]; intros m u' k; cbn [foldl]; [set_solver|]. rewrite IH, spec_remove_user, elem_of_cons. naive_solver.
Qed.

(** The selector cache keeps the promise. *)
Definition selectorCache_users (notifier : bool) : UserCache (SelectorCache Sel U) U.
Proof.
  refine {| uc_ok sc := ∃ sp, refines sp sc; uc_uses sc u key := ∃ sel users, view_selector sc key = Some (sel, users) ∧ u ∈ users;
            uc_remove u keys sc := RemoveSelectors notifier u keys sc |}.
  - intros sc u keys [sp R]. eexists. by apply commit_refines, removes_refines.
  - intros sc u keys u' key [sp R]. pose proof (commit_refines _ _ (proj1 (removes_refines notifier sp sc u keys R))) as R'.
    unfold RemoveSelectors. rewrite (re_selectors _ _ R'), (re_selectors _ _ R). apply spec_removes_user.
Defined.
End cache.

(** ** The endpoints *)

(** An endpoint policy: the hold under which the policy was fetched, and its registration. *)
Inductive holdPhase := NotFetched | Refused | Held | Released.
Inductive userPhase := NotInserted | Inserted | Removed.

Record thread := mkThread { th_hold : holdPhase; th_user : userPhase }.

#[export] Instance holdPhase_eq_dec : EqDecision holdPhase.
Proof. solve_decision. Defined.
#[export] Instance userPhase_eq_dec : EqDecision userPhase.
Proof. solve_decision. Defined.

Section system.
Context {E : Type} `{Countable E} {C U : Type} `{Countable U} {UC : UserCache C U} {GR : GoRange}.
(** The identifier of the endpoint of an endpoint policy, and the policy's filters with their
    addresses. *)
Context (GetID : E → Z) (filters : list (U * L4Filter)) (distinct : NoDup filters.*1).

(** [L4Filter.removeSelectors]: the selectors of a filter. *)
Definition filter_selectors (f : L4Filter) : list string := range (dom (PerSelectorPolicies f)).

(** The policy, the endpoint policies, the jobs of [finishDetach], the cache, the filters that
    point back to the policy, the endpoints that are regenerated, and how often the policy
    will still be superseded. *)
Record system := mkSystem {
  sys_policy : L4Policy E;
  sys_threads : gmap E thread;
  sys_jobs : list (list (U * L4Filter));
  sys_cache : C;
  sys_attached : gset U;
  sys_regenerated : gset E;
  sys_supersedes : nat;
}.
Implicit Types (s : system) (e : E) (job : list (U * L4Filter)).

(** [finishDetach] goes through the filters in some order. *)
Definition detach_job (needsDetach : bool) (jobs jobs' : list (list (U * L4Filter))) : Prop :=
  if needsDetach then ∃ job, job ≡ₚ filters ∧ jobs' = jobs ++ [job] else jobs' = jobs.

Inductive action : system → system → Prop :=
  | do_AddHold s e t l ok :
      sys_threads s !! e = Some t → th_hold t = NotFetched → addHold (sys_policy s) = (l, ok) →
      action s (mkSystem l (<[e := mkThread (if ok then Held else Refused) (th_user t)]> (sys_threads s)) (sys_jobs s)
        (sys_cache s) (sys_attached s) (sys_regenerated s) (sys_supersedes s))
  | do_insertUser s e t l regenerate :
      sys_threads s !! e = Some t → th_user t = NotInserted → insertUser e (sys_policy s) = (l, regenerate) →
      action s (mkSystem l (<[e := mkThread (th_hold t) Inserted]> (sys_threads s)) (sys_jobs s) (sys_cache s) (sys_attached s)
        (if regenerate then {[ e ]} ∪ sys_regenerated s else sys_regenerated s) (sys_supersedes s))
  | do_ReleaseHold s e t l needsDetach jobs :
      sys_threads s !! e = Some t → th_hold t = Held → releaseHold (sys_policy s) = (l, needsDetach) →
      detach_job needsDetach (sys_jobs s) jobs →
      action s (mkSystem l (<[e := mkThread Released (th_user t)]> (sys_threads s)) jobs
        (sys_cache s) (sys_attached s) (sys_regenerated s) (sys_supersedes s))
  | do_removeUser s e t l needsDetach jobs :
      sys_threads s !! e = Some t → th_user t = Inserted → removeUser e (sys_policy s) = (l, needsDetach) →
      detach_job needsDetach (sys_jobs s) jobs →
      action s (mkSystem l (<[e := mkThread (th_hold t) Removed]> (sys_threads s)) jobs
        (sys_cache s) (sys_attached s) (sys_regenerated s) (sys_supersedes s))
  | do_Supersede s n l regenerated needsDetach jobs :
      sys_supersedes s = S n → supersede GetID 0 (sys_policy s) = (l, regenerated, needsDetach) →
      detach_job needsDetach (sys_jobs s) jobs →
      action s (mkSystem l (sys_threads s) jobs (sys_cache s) (sys_attached s) (regenerated ∪ sys_regenerated s) n)
  | do_finishDetach s i u f job :
      sys_jobs s !! i = Some ((u, f) :: job) →
      action s (mkSystem (sys_policy s) (sys_threads s) (<[i := job]> (sys_jobs s)) (uc_remove u (filter_selectors f) (sys_cache s))
        (sys_attached s ∖ {[ u ]}) (sys_regenerated s) (sys_supersedes s)).

(** Other users of the cache may change it, but not what it knows of the policy's filters. *)
Definition interferes (c c' : C) : Prop :=
  (uc_ok c → uc_ok c') ∧ ∀ u key, u ∈ filters.*1 → uc_uses c' u key ↔ uc_uses c u key.

Definition set_cache c s : system :=
  mkSystem (sys_policy s) (sys_threads s) (sys_jobs s) c (sys_attached s) (sys_regenerated s) (sys_supersedes s).

Definition step s s' : Prop := ∃ s1 c, action s s1 ∧ interferes (sys_cache s1) c ∧ s' = set_cache c s1.

(** A policy that was just attached: the filters are the users of their selectors. *)
Record initial s : Prop := {
  ini_policy : sys_policy s = NewL4Policy;
  ini_threads e t : sys_threads s !! e = Some t → t = mkThread NotFetched NotInserted;
  ini_jobs : sys_jobs s = [];
  ini_cache : uc_ok (sys_cache s);
  ini_uses u key : u ∈ filters.*1 → uc_uses (sys_cache s) u key ↔ ∃ f, (u, f) ∈ filters ∧ key ∈ filter_selectors f;
  ini_attached : sys_attached s = list_to_set filters.*1;
}.

Definition reachable s : Prop := ∃ s0, initial s0 ∧ rtc step s0 s.

(** *** Invariant *)

Definition holding s : gmap E thread := filter (λ x, th_hold x.2 = Held) (sys_threads s).
Definition inserted s : gset E := dom (filter (λ x, th_user x.2 = Inserted) (sys_threads s)).

(** The filters that are still in the cache. *)
Definition pending s : list (U * L4Filter) :=
  match lp_users (sys_policy s) with Some _ => filters | None => concat (sys_jobs s) end.

Record counted s : Prop := {
  iv_holds : holdCount (sys_policy s) = Z.of_nat (size (holding s));
  iv_users us : lp_users (sys_policy s) = Some us → us = inserted s ∧ sys_jobs s = [];
  iv_detached : lp_users (sys_policy s) = None → superseded (sys_policy s) = true ∧ holdCount (sys_policy s) = 0;
  iv_time : detached (sys_policy s) = bool_decide (lp_users (sys_policy s) = None);
  iv_regenerated e : e ∈ inserted s → superseded (sys_policy s) = true → GetID e ≠ 0 → e ∈ sys_regenerated s;
}.

Record cached s : Prop := {
  iv_distinct : NoDup (pending s).*1;
  iv_subset x : x ∈ pending s → x ∈ filters;
  iv_cache : uc_ok (sys_cache s);
  iv_uses u key : u ∈ filters.*1 → uc_uses (sys_cache s) u key ↔ ∃ f, (u, f) ∈ pending s ∧ key ∈ filter_selectors f;
  iv_attached : sys_attached s = list_to_set (pending s).*1;
}.

(** A superseded policy that nobody holds or uses is detached. *)
Definition settled s : Prop :=
  superseded (sys_policy s) = true → holdCount (sys_policy s) = 0 → lp_users (sys_policy s) ≠ Some ∅.

Record inv s : Prop := { iv_counted : counted s; iv_cached : cached s; iv_settled : settled s }.

Lemma held_insert (m : gmap E thread) e t t' : m !! e = Some t →
  (size (filter (λ x, th_hold x.2 = Held) (<[e := t']> m)) + (if decide (th_hold t = Held) then 1 else 0) =
   size (filter (λ x, th_hold x.2 = Held) m) + (if decide (th_hold t' = Held) then 1 else 0))%nat.
Proof.
  intros Ht. set (P := λ x : E * thread, th_hold x.2 = Held).
  assert (HF : filter P m !! e = if decide (th_hold t = Held) then Some t else None).
  { case_decide as Hh; [by apply map_lookup_filter_Some_2|]. apply map_lookup_filter_None. right. intros t2 Ht2. by simplify_eq. }
  rewrite map_filter_insert. unfold P at 1. cbn [snd]. destruct (decide (th_hold t' = Held)) as [Ht'|Ht'].
  - rewrite map_size_insert, HF. destruct (decide (th_hold t = Held)); cbn; lia.
  - rewrite map_filter_delete, map_size_delete, HF. case_decide; cbn; [|lia].
    assert (size (filter P m) ≠ 0%nat); [|lia]. rewrite map_size_non_empty_iff. intros HE. by rewrite HE, lookup_empty in HF.
Qed.

Lemma inserted_insert (m : gmap E thread) e t' :
  dom (filter (λ x, th_user x.2 = Inserted) (<[e := t']> m)) =
  if decide (th_user t' = Inserted) then {[ e ]} ∪ dom (filter (λ x, th_user x.2 = Inserted) m)
  else dom (filter (λ x, th_user x.2 = Inserted) m) ∖ {[ e ]}.
Proof.
  rewrite map_filter_insert. cbn [snd]. case_decide; [by rewrite dom_insert_L|]. by rewrite map_filter_delete, dom_delete_L.
Qed.

(** The last part of the operations that may detach the policy. *)
Lemma settle s l needsDetach jobs : counted s → cached s → shouldDetachLocked (sys_policy s) = (l, needsDetach) →
  detach_job needsDetach (sys_jobs s) jobs →
  inv (mkSystem l (sys_threads s) jobs (sys_cache s) (sys_attached s) (sys_regenerated s) (sys_supersedes s)).
Proof.
  intros HC HD. pose proof HC as [H1 H2 H3 H4 H5]. pose proof HD as [D1 D2 D3 D4 D5]. unfold shouldDetachLocked, detach_job.
  destruct (_ && superseded _) eqn:Ed.
  - apply andb_true_iff in Ed as [[Eh%Z.eqb_eq Eu%bool_decide_eq_true]%andb_true_iff Es]. intros [= <- <-] (job & HP & ->).
    destruct (H2 _ Eu) as [Ei Ej]. unfold pending in *. rewrite Eu in *. rewrite Ej. cbn [app].
    assert (EC : concat [job] ≡ₚ filters) by (cbn; by rewrite app_nil_r).
    split; [constructor|constructor|]; unfold pending; cbn [sys_policy lp_users sys_jobs sys_cache sys_attached]; try done.
    + by rewrite EC.
    + intros x. by rewrite EC.
    + intros u key. setoid_rewrite EC. apply D4.
    + by rewrite EC.
  - intros [= <- <-] ->. split; [by constructor|by constructor|]. intros Es Eh Eu. cbn in *.
    by rewrite Es, Eh, Eu in Ed.
Qed.
Lemma inserted_same (m : gmap E thread) e t t' : m !! e = Some t → th_user t' = th_user t →
  dom (filter (λ x, th_user x.2 = Inserted) (<[e := t']> m)) = dom (filter (λ x, th_user x.2 = Inserted) m).
Proof.
  intros Ht Hu. rewrite inserted_insert, Hu. case_decide as Hi.
  - assert (e ∈ dom (filter (λ x, th_user x.2 = Inserted) m)); [|set_solver]. apply elem_of_dom. exists t. by apply map_lookup_filter_Some_2.
  - assert (e ∉ dom (filter (λ x, th_user x.2 = Inserted) m)); [|set_solver]. rewrite elem_of_dom. intros (t2 & [Ht2 ?]%map_lookup_filter_Some).
    by simplify_eq.
Qed.

Lemma held_same (m : gmap E thread) e t t' : m !! e = Some t → th_hold t' = Held ↔ th_hold t = Held →
  size (filter (λ x, th_hold x.2 = Held) (<[e := t']> m)) = size (filter (λ x, th_hold x.2 = Held) m).
Proof. intros Ht Hh. pose proof (held_insert m e t t' Ht). repeat case_decide; try tauto; lia. Qed.

Lemma held_more (m : gmap E thread) e t t' : m !! e = Some t → th_hold t ≠ Held → th_hold t' = Held →
  size (filter (λ x, th_hold x.2 = Held) (<[e := t']> m)) = S (size (filter (λ x, th_hold x.2 = Held) m)).
Proof. intros Ht H1 H2. pose proof (held_insert m e t t' Ht) as EH. rewrite decide_False, decide_True in EH by done. lia. Qed.

Lemma held_less (m : gmap E thread) e t t' : m !! e = Some t → th_hold t = Held → th_hold t' ≠ Held →
  size (filter (λ x, th_hold x.2 = Held) m) = S (size (filter (λ x, th_hold x.2 = Held) (<[e := t']> m))).
Proof. intros Ht H1 H2. pose proof (held_insert m e t t' Ht) as EH. rewrite decide_True, decide_False in EH by done. lia. Qed.

(** A step of a thread that keeps the policy's filters. *)
Lemma cached_same s l threads regenerated n : (lp_users l = None ↔ lp_users (sys_policy s) = None) → cached s →
  cached (mkSystem l threads (sys_jobs s) (sys_cache s) (sys_attached s) regenerated n).
Proof.
  intros HL [D1 D2 D3 D4 D5]. unfold pending in *.
  assert (EP : match lp_users l with Some _ => filters | None => concat (sys_jobs s) end = pending s).
  { unfold pending. destruct (lp_users l), (lp_users (sys_policy s)); naive_solver. }
  constructor; unfold pending; cbn [sys_policy sys_jobs sys_cache sys_attached]; rewrite ?EP; done.
Qed.

Lemma hold_inv s e t l ok : inv s → sys_threads s !! e = Some t → th_hold t = NotFetched → addHold (sys_policy s) = (l, ok) →
  inv (mkSystem l (<[e := mkThread (if ok then Held else Refused) (th_user t)]> (sys_threads s)) (sys_jobs s)
    (sys_cache s) (sys_attached s) (sys_regenerated s) (sys_supersedes s)).
Proof.
  intros [[H1 H2 H3 H4 H5] HD HS] Ht Hh. unfold addHold.
  pose proof (inserted_same (sys_threads s) e t (mkThread (if ok then Held else Refused) (th_user t)) Ht eq_refl) as EI.
  destruct (_ || _) eqn:Eb; intros [= <- <-].
  - split; [|by apply cached_same|done]. constructor; unfold holding, inserted; cbn [sys_policy sys_threads sys_jobs sys_regenerated]; rewrite ?EI; try done.
    rewrite (held_same _ _ t); [done|done|]. cbn. by rewrite Hh.
  - apply orb_false_iff in Eb as [Eu%bool_decide_eq_false Es].
    split; [|by apply cached_same|by intros Es'; cbn in Es'; congruence].
    constructor; unfold holding, inserted; cbn [sys_policy sys_threads sys_jobs sys_regenerated lp_users holdCount superseded detached]; rewrite ?EI; try done.
    rewrite (held_more _ _ t), H1; [unfold holding; lia|done|by rewrite Hh|done].
Qed.

Lemma register_inv s e t l regenerate : inv s → sys_threads s !! e = Some t → th_user t = NotInserted →
  insertUser e (sys_policy s) = (l, regenerate) →
  inv (mkSystem l (<[e := mkThread (th_hold t) Inserted]> (sys_threads s)) (sys_jobs s) (sys_cache s) (sys_attached s)
    (if regenerate then {[ e ]} ∪ sys_regenerated s else sys_regenerated s) (sys_supersedes s)).
Proof.
  intros [[H1 H2 H3 H4 H5] HD HS] Ht Hu [= <- <-].
  pose proof (inserted_insert (sys_threads s) e (mkThread (th_hold t) Inserted)) as EI. rewrite decide_True in EI by done.
  split; [| |].
  - constructor; unfold holding, inserted; cbn [sys_policy sys_threads sys_jobs sys_regenerated lp_users holdCount superseded detached]; rewrite ?EI.
    + rewrite (held_same _ _ t); done.
    + intros us (us0 & E0 & ->)%fmap_Some. destruct (H2 us0 E0) as [-> EJ]. done.
    + intros E0%fmap_None. by apply H3.
    + rewrite H4. apply bool_decide_ext. symmetry. apply fmap_None.
    + intros e' [->%elem_of_singleton|He']%elem_of_union Es Hg; [rewrite Es, orb_true_r; by apply elem_of_union_l, elem_of_singleton|].
      rewrite Es, orb_true_r. apply elem_of_union_r. by apply H5.
  - apply cached_same; [apply fmap_None|done].
  - intros Es Eh Eu. cbn in *. apply fmap_Some in Eu as (us & _ & Eu). apply (not_elem_of_empty (C := gset E) e). rewrite Eu. by apply elem_of_union_l, elem_of_singleton.
Qed.

Lemma release_hold_inv s e t l needsDetach jobs : inv s → sys_threads s !! e = Some t → th_hold t = Held →
  releaseHold (sys_policy s) = (l, needsDetach) → detach_job needsDetach (sys_jobs s) jobs →
  inv (mkSystem l (<[e := mkThread Released (th_user t)]> (sys_threads s)) jobs
    (sys_cache s) (sys_attached s) (sys_regenerated s) (sys_supersedes s)).
Proof.
  intros [[H1 H2 H3 H4 H5] HD HS] Ht Hh. unfold releaseHold. intros Hl Hj.
  pose proof (inserted_same (sys_threads s) e t (mkThread Released (th_user t)) Ht eq_refl) as EI.
  pose proof (held_less _ _ t (mkThread Released (th_user t)) Ht Hh ltac:(done)) as EH.
  refine (settle (mkSystem _ (<[e := mkThread Released (th_user t)]> (sys_threads s)) (sys_jobs s)
    (sys_cache s) (sys_attached s) (sys_regenerated s) (sys_supersedes s)) l needsDetach jobs _ _ Hl Hj).
  - constructor; unfold holding, inserted in *; cbn [sys_policy sys_threads sys_jobs sys_regenerated lp_users holdCount superseded detached]; rewrite ?EI; try done.
    + case_match; lia.
    + intros [??]%H3. lia.
  - by apply cached_same.
Qed.

Lemma remove_inv s e t l needsDetach jobs : inv s → sys_threads s !! e = Some t → th_user t = Inserted →
  removeUser e (sys_policy s) = (l, needsDetach) → detach_job needsDetach (sys_jobs s) jobs →
  inv (mkSystem l (<[e := mkThread (th_hold t) Removed]> (sys_threads s)) jobs
    (sys_cache s) (sys_attached s) (sys_regenerated s) (sys_supersedes s)).
Proof.
  intros [[H1 H2 H3 H4 H5] HD HS] Ht Hu. unfold removeUser. intros Hl Hj.
  pose proof (inserted_insert (sys_threads s) e (mkThread (th_hold t) Removed)) as EI. rewrite decide_False in EI by done.
  refine (settle (mkSystem _ (<[e := mkThread (th_hold t) Removed]> (sys_threads s)) (sys_jobs s)
    (sys_cache s) (sys_attached s) (sys_regenerated s) (sys_supersedes s)) l needsDetach jobs _ _ Hl Hj).
  - constructor; unfold holding, inserted in *; cbn [sys_policy sys_threads sys_jobs sys_regenerated lp_users holdCount superseded detached]; rewrite ?EI.
    + by rewrite (held_same _ _ t).
    + intros us (us0 & E0 & ->)%fmap_Some. by destruct (H2 us0 E0) as [-> ->].
    + intros E0%fmap_None. by apply H3.
    + rewrite H4. apply bool_decide_ext. symmetry. apply fmap_None.
    + intros e' [He' _]%elem_of_difference. by apply H5.
  - apply cached_same; [apply fmap_None|done].
Qed.

Lemma supersede_inv s n l regenerated needsDetach jobs : inv s → supersede GetID 0 (sys_policy s) = (l, regenerated, needsDetach) →
  detach_job needsDetach (sys_jobs s) jobs →
  inv (mkSystem l (sys_threads s) jobs (sys_cache s) (sys_attached s) (regenerated ∪ sys_regenerated s) n).
Proof.
  intros [[H1 H2 H3 H4 H5] HD HS]. unfold supersede. destruct (shouldDetachLocked _) as [l' b] eqn:Hl. intros [= <- <- <-] Hj.
  refine (settle (mkSystem _ (sys_threads s) (sys_jobs s) (sys_cache s) (sys_attached s)
    (filter (λ u, 0 ≠ GetID u) (default ∅ (lp_users (sys_policy s))) ∪ sys_regenerated s) n) l' b jobs _ _ Hl Hj).
  - constructor; unfold holding, inserted in *; cbn [sys_policy sys_threads sys_jobs sys_regenerated lp_users holdCount superseded detached]; try done.
    + intros E0. split; [done|by apply H3].
    + intros e He _ Hg. destruct (lp_users (sys_policy s)) as [us|] eqn:Eu.
      * destruct (H2 us eq_refl) as [-> _]. apply elem_of_union_l, elem_of_filter. split; [congruence|done].
      * apply elem_of_union_r. by apply H5; [|apply H3|].
  - by apply cached_same.
Qed.

Lemma job_inv s i u f job : inv s → sys_jobs s !! i = Some ((u, f) :: job) →
  inv (mkSystem (sys_policy s) (sys_threads s) (<[i := job]> (sys_jobs s)) (uc_remove u (filter_selectors f) (sys_cache s))
    (sys_attached s ∖ {[ u ]}) (sys_regenerated s) (sys_supersedes s)).
Proof.
  intros [[H1 H2 H3 H4 H5] [D1 D2 D3 D4 D5] HS] Hi. unfold pending in *.
  destruct (lp_users (sys_policy s)) as [us|] eqn:Eu; [by destruct (H2 us eq_refl) as [_ EJ]; rewrite EJ in Hi|].
  assert (EC : concat (sys_jobs s) ≡ₚ (u, f) :: concat (<[i := job]> (sys_jobs s))).
  { rewrite <- (take_drop_middle _ _ _ Hi) at 1. rewrite insert_take_drop by (by eapply lookup_lt_Some).
    rewrite !concat_app. cbn [concat app]. by rewrite <- Permutation_middle. }
  rewrite EC in D1. cbn in D1. apply NoDup_cons in D1 as [Hu D1].
  split; [constructor|constructor|done]; unfold pending; cbn [sys_policy sys_threads sys_jobs sys_cache sys_attached]; rewrite ?Eu; try done.
  - intros x Hx. apply D2. rewrite EC. by right.
  - by apply uc_remove_ok.
  - intros u' key Hu'. rewrite uc_remove_uses, D4 by done. setoid_rewrite EC. split.
    + intros [(f' & [[= -> ->]|Hf']%elem_of_cons & Hk) Hn]; [by destruct Hn|by exists f'].
    + intros (f' & Hf' & Hk). split; [exists f'; split; [by right|done]|]. intros [-> _]. apply Hu, list_elem_of_fmap. by exists (u, f').
  - rewrite D5, EC. cbn. clear -Hu. set_solver.
Qed.

Lemma action_inv s s' : inv s → action s s' → inv s'.
Proof. intros I HA. destruct HA; eauto using hold_inv, register_inv, release_hold_inv, remove_inv, supersede_inv, job_inv. Qed.

Lemma interferes_inv s c : inv s → interferes (sys_cache s) c → inv (set_cache c s).
Proof.
  intros [[H1 H2 H3 H4 H5] [D1 D2 D3 D4 D5] HS] [I1 I2]. split; [by constructor| |done].
  constructor; try done; [by apply I1|]. intros u key Hu. cbn. rewrite I2 by done. by apply D4.
Qed.

Lemma step_inv s s' : inv s → step s s' → inv s'.
Proof. intros I (s1 & c & HA & HI & ->). apply interferes_inv; [by eapply action_inv|done]. Qed.

Lemma initial_inv s : initial s → inv s.
Proof.
  intros [I1 I2 I3 I4 I5 I6].
  assert (EH : holding s = ∅).
  { apply map_empty. intros e. apply map_lookup_filter_None. right. intros t Ht. by rewrite (I2 e t Ht). }
  assert (EI : inserted s = ∅).
  { apply dom_empty_iff_L, map_empty. intros e. apply map_lookup_filter_None. right. intros t Ht. by rewrite (I2 e t Ht). }
  split; [constructor|constructor|]; unfold pending, settled; rewrite ?I1; cbn; try done.
  - by rewrite EH.
  - intros us [= <-]. by rewrite EI.
Qed.

Lemma steps_inv s s' : inv s → rtc step s s' → inv s'.
Proof. intros I HR. induction HR as [|s s1 s' Hs _ IH]; [done|]. apply IH. by eapply step_inv. Qed.

Lemma reachable_inv s : reachable s → inv s.
Proof.
  intros (s0 & HI & HR). apply (steps_inv s0); [by apply initial_inv|done].
Qed.

(** *** Progress *)

Definition weight (t : thread) : nat :=
  (match th_hold t with NotFetched => 2 | Held => 1 | _ => 0 end + match th_user t with NotInserted => 2 | Inserted => 1 | Removed => 0 end)%nat.

Definition weights (m : gmap E thread) : nat := map_fold (λ _ t n, (weight t + n)%nat) 0%nat m.

Lemma weights_insert m e t t' : m !! e = Some t → (weights (<[e := t']> m) + weight t = weights m + weight t')%nat.
Proof.
  intros Ht. unfold weights. rewrite <- insert_delete_eq.
  rewrite (map_fold_insert_L _ _ e t' (delete e m)); [|lia|by apply lookup_delete_eq].
  rewrite <- (insert_delete_id m e t Ht) at 2.
  rewrite (map_fold_insert_L _ _ e t (delete e m)); [|lia|by apply lookup_delete_eq]. lia.
Qed.

(** What is left to do: the steps of the endpoints, the calls of [Supersede] and the filters
    that are still to be removed. *)
Definition remaining s : nat :=
  weights (sys_threads s) + sys_supersedes s + length (concat (sys_jobs s)) +
  match lp_users (sys_policy s) with Some _ => length filters | None => 0 end.

Lemma shouldDetach_jobs (l l' : L4Policy E) needsDetach jobs jobs' : shouldDetachLocked l = (l', needsDetach) → detach_job needsDetach jobs jobs' →
  (length (concat jobs') + match lp_users l' with Some _ => length filters | None => 0 end =
   length (concat jobs) + match lp_users l with Some _ => length filters | None => 0 end)%nat.
Proof.
  unfold shouldDetachLocked, detach_job. destruct (_ && superseded _) eqn:Ed.
  - apply andb_true_iff in Ed as [[_ ->%bool_decide_eq_true]%andb_true_iff _]. intros [= <- <-] (job & HP & ->). cbn.
    rewrite concat_app, length_app. cbn. rewrite app_nil_r, HP. lia.
  - by intros [= <- <-] ->.
Qed.

Lemma fmap_measure {A B} (f : A → B) (x : option A) (n : nat) :
  match f <$> x with Some _ => n | None => 0%nat end = match x with Some _ => n | None => 0%nat end.
Proof. by destruct x. Qed.

Lemma action_remaining s s' : action s s' → (remaining s' < remaining s)%nat.
Proof.
  unfold remaining. destruct 1 as [s e t l ok Ht Hh Hl|s e t l r Ht Hu Hl|s e t l b jobs Ht Hh Hl Hj|s e t l b jobs Ht Hu Hl Hj|s n l rs b jobs Hn Hl Hj|s i u f job Hi]; cbn.
  - pose proof (weights_insert _ e t (mkThread (if ok then Held else Refused) (th_user t)) Ht) as HW.
    unfold weight in HW at 1 2. rewrite Hh in HW. cbn in HW.
    assert (lp_users l = lp_users (sys_policy s)) as -> by (unfold addHold in Hl; destruct (_ || _); by injection Hl as <- _).
    destruct ok; lia.
  - injection Hl as <- _. cbn. rewrite fmap_measure.
    pose proof (weights_insert _ e t (mkThread (th_hold t) Inserted) Ht) as HW. unfold weight in HW at 1 2. rewrite Hu in HW. cbn in HW. lia.
  - pose proof (shouldDetach_jobs _ _ _ _ _ Hl Hj) as HJ. cbn in HJ.
    pose proof (weights_insert _ e t (mkThread Released (th_user t)) Ht) as HW. unfold weight in HW at 1 2. rewrite Hh in HW. cbn in HW. lia.
  - pose proof (shouldDetach_jobs _ _ _ _ _ Hl Hj) as HJ. cbn in HJ. rewrite fmap_measure in HJ.
    pose proof (weights_insert _ e t (mkThread (th_hold t) Removed) Ht) as HW. unfold weight in HW at 1 2. rewrite Hu in HW. cbn in HW. lia.
  - unfold supersede in Hl. destruct (shouldDetachLocked _) as [l' b'] eqn:Es. injection Hl as <- <- <-.
    pose proof (shouldDetach_jobs _ _ _ _ _ Es Hj) as HJ. cbn in HJ. lia.
  - assert (length (concat (sys_jobs s)) = S (length (concat (<[i := job]> (sys_jobs s))))); [|lia].
    rewrite <- (take_drop_middle _ _ _ Hi) at 1. rewrite insert_take_drop by (by eapply lookup_lt_Some).
    rewrite !concat_app, !length_app. cbn. rewrite !length_app. lia.
Qed.

Lemma step_remaining s s' : step s s' → (remaining s' < remaining s)%nat.
Proof. intros (s1 & c & HA & _ & ->). by apply action_remaining in HA. Qed.

Lemma step_terminates s : Acc (λ s2 s1, step s1 s2) s.
Proof. apply (wf_projected lt remaining); [intros s2 s1; apply step_remaining|apply lt_wf]. Qed.

(** *** Registered users *)

Lemma thread_action s s' e t : action s s' → sys_threads s !! e = Some t →
  ∃ t', sys_threads s' !! e = Some t' ∧ (th_user t' = Inserted → th_user t = Inserted ∨ th_user t = NotInserted) ∧
    (th_user t = Removed → th_user t' = Removed) ∧ (th_user t = Inserted → th_user t' ≠ NotInserted).
Proof.
  intros HA Ht. assert (HN : (th_user t = Inserted → th_user t = Inserted ∨ th_user t = NotInserted) ∧
    (th_user t = Removed → th_user t = Removed) ∧ (th_user t = Inserted → th_user t ≠ NotInserted)) by (destruct (th_user t); naive_solver).
  destruct HA as [s e' t' l ok Ht' Hh Hl|s e' t' l r Ht' Hu Hl|s e' t' l b jobs Ht' Hh Hl Hj|s e' t' l b jobs Ht' Hu Hl Hj|s n l rs b jobs Hn Hl Hj|s i u f job Hi];
    cbn; try (by exists t); (destruct (decide (e = e')) as [<-|Hne]; [rewrite lookup_insert_eq|rewrite lookup_insert_ne by done; by exists t]);
    eexists; (split; [reflexivity|]); simplify_eq; cbn; split_and!; try done; try tauto; try congruence.
Qed.

(** The policy is only detached when no endpoint policy is registered. *)
Lemma shouldDetach_users (l l' : L4Policy E) needsDetach us : shouldDetachLocked l = (l', needsDetach) → lp_users l = Some us →
  lp_users l' = None → us = ∅.
Proof.
  unfold shouldDetachLocked. intros Hl Hu. destruct (_ && superseded _) eqn:Ed; [|injection Hl as <- _; congruence].
  apply andb_true_iff in Ed as [[_ Eu%bool_decide_eq_true]%andb_true_iff _]. congruence.
Qed.

Lemma action_registered s s' e us : inv s → action s s' → lp_users (sys_policy s) = Some us → e ∈ inserted s' →
  ∃ us', lp_users (sys_policy s') = Some us' ∧ e ∈ us'.
Proof.
  intros I HA Eu He. pose proof (action_inv s s' I HA) as I'. destruct (iv_users _ (iv_counted _ I) us Eu) as [Ei _].
  destruct (lp_users (sys_policy s')) as [us'|] eqn:Eu'; [exists us'; split; [done|]; by destruct (iv_users _ (iv_counted _ I') us' Eu') as [-> _]|].
  exfalso. destruct HA as [s e' t' l ok Ht' Hh Hl|s e' t' l r Ht' Hu Hl|s e' t' l b jobs Ht' Hh Hl Hj|s e' t' l b jobs Ht' Hu Hl Hj|s n l rs b jobs Hn Hl Hj|s i u f job Hi]; cbn in *.
  - unfold addHold in Hl. destruct (_ || _); injection Hl as <- _; cbn in *; congruence.
  - injection Hl as <- _. cbn in Eu'. apply fmap_None in Eu'. congruence.
  - apply (shouldDetach_users _ _ _ us Hl) in Eu'; [|done]. unfold inserted in *. cbn in He. rewrite (inserted_same _ _ t') in He by done. set_solver.
  - apply (shouldDetach_users _ _ _ (us ∖ {[ e' ]}) Hl) in Eu'; [|by cbn; rewrite Eu]. unfold inserted in *. cbn in He.
    rewrite inserted_insert in He. cbn in He. set_solver.
  - unfold supersede in Hl. destruct (shouldDetachLocked _) as [l' b'] eqn:Es. injection Hl as <- <- <-.
    apply (shouldDetach_users _ _ _ us Es) in Eu'; [|done]. unfold inserted in *. cbn in He. set_solver.
  - congruence.
Qed.

Lemma elem_of_inserted s e : e ∈ inserted s ↔ ∃ t, sys_threads s !! e = Some t ∧ th_user t = Inserted.
Proof.
  unfold inserted. rewrite elem_of_dom. split.
  - intros [t [Ht Hu]%map_lookup_filter_Some]. by exists t.
  - intros (t & Ht & Hu). exists t. by apply map_lookup_filter_Some_2.
Qed.

(** A registered endpoint policy stays registered until it is removed. *)
Lemma stays_registered s s' e us : inv s → rtc step s s' → lp_users (sys_policy s) = Some us → e ∈ inserted s → e ∈ inserted s' →
  ∃ us', lp_users (sys_policy s') = Some us' ∧ e ∈ us'.
Proof.
  intros I HR. revert us. induction HR as [s|s s1 s' Hs HR IH]; intros us Eu He He'.
  - exists us. split; [done|]. by destruct (iv_users _ (iv_counted _ I) us Eu) as [-> _].
  - pose proof (step_inv _ _ I Hs) as I1. assert (He1 : e ∈ inserted s1).
    { apply elem_of_inserted in He as (t & Ht & Hu). destruct Hs as (s2 & c & HA & _ & ->).
      destruct (thread_action _ _ e t HA Ht) as (t1 & Ht1 & _ & _ & Hn). apply elem_of_inserted. exists t1. split; [done|].
      destruct (th_user t1) eqn:E1; [by destruct Hn|done|exfalso]. clear -HR Ht1 E1 He'.
      apply elem_of_inserted in He' as (t' & Ht' & Hu'). change (sys_threads s2) with (sys_threads (set_cache c s2)) in Ht1.
      revert t1 Ht1 E1. induction HR as [s|s s1 s' (s3 & c' & HA & _ & ->) _ IH]; intros t1 Ht1 E1; [congruence|].
      destruct (thread_action _ _ e t1 HA Ht1) as (t3 & Ht3 & _ & Hr & _). by apply (IH Ht' t3); [|apply Hr]. }
    destruct Hs as (s2 & c & HA & HI & ->). destruct (action_registered s s2 e us I HA Eu He1) as (us1 & Eu1 & _). by apply (IH I1 us1).
Qed.

Lemma attached_while_used s us u f key : inv s → lp_users (sys_policy s) = Some us → (u, f) ∈ filters → key ∈ filter_selectors f →
  u ∈ sys_attached s ∧ uc_uses (sys_cache s) u key.
Proof.
  intros [_ [_ _ _ D4 D5] _] Eu Hf Hk. unfold pending in *. rewrite Eu in *.
  assert (Hu : u ∈ filters.*1) by (apply list_elem_of_fmap; by exists (u, f)). split.
  - rewrite D5. by apply elem_of_list_to_set.
  - apply D4; [done|]. by exists f.
Qed.

Lemma held_not_detached s e t : inv s → sys_threads s !! e = Some t → th_hold t = Held → ∃ us, lp_users (sys_policy s) = Some us.
Proof.
  intros [[H1 _ H3 _ _] _ _] Ht Hh. destruct (lp_users (sys_policy s)) as [us|] eqn:Eu; [by exists us|exfalso].
  destruct (H3 eq_refl) as [_ H0']. rewrite H1 in H0'. assert (HE : holding s = ∅) by (apply map_size_empty_iff; lia).
  assert (HL : holding s !! e = Some t) by (by apply map_lookup_filter_Some_2). by rewrite HE in HL.
Qed.

(** C12. No endpoint uses a detached policy.  As long as an endpoint holds the policy, or its
    endpoint policy is registered, every filter of the policy is attached and a user of all its
    selectors in the cache, so that it is notified of changes of the identities.  An endpoint
    policy that is registered under a hold stays registered until it is removed, whatever other
    endpoints and [Supersede] do meanwhile. *)
Theorem no_use_after_detach s e t : reachable s → sys_threads s !! e = Some t →
  th_hold t = Held ∨ e ∈ default ∅ (lp_users (sys_policy s)) →
  (∀ u f key, (u, f) ∈ filters → key ∈ filter_selectors f → u ∈ sys_attached s ∧ uc_uses (sys_cache s) u key) ∧
  (th_user t = Inserted → ∀ s' t', rtc step s s' → sys_threads s' !! e = Some t' → th_user t' = Inserted →
    e ∈ default ∅ (lp_users (sys_policy s')) ∧
    ∀ u f key, (u, f) ∈ filters → key ∈ filter_selectors f → u ∈ sys_attached s' ∧ uc_uses (sys_cache s') u key).
Proof.
  intros I%reachable_inv Ht Hor. assert (∃ us, lp_users (sys_policy s) = Some us) as [us Eu].
  { destruct Hor as [Hh|He]; [by eapply held_not_detached|]. destruct (lp_users (sys_policy s)) as [us|]; [by exists us|set_solver]. }
  split; [intros u f key; by eapply attached_while_used|]. intros Hu s' t' HR Ht' Hu'.
  pose proof (steps_inv _ _ I HR) as I'.
  destruct (stays_registered s s' e us I HR Eu) as (us' & Eu' & He'); [apply elem_of_inserted; by exists t|apply elem_of_inserted; by exists t'|].
  rewrite Eu'. split; [done|]. intros u f key. by eapply attached_while_used.
Qed.

(** Nothing is left to do for the endpoints and the jobs. *)
Definition finished s : Prop := holding s = ∅ ∧ inserted s = ∅ ∧ concat (sys_jobs s) = [].

Lemma concat_cons {A} (ls : list (list A)) x l : concat ls = x :: l → ∃ i y l', ls !! i = Some (y :: l').
Proof.
  induction ls as [|[|y l'] ls IH]; [done| |by exists 0%nat, y, l']. intros (i & y & l' & Hi)%IH. by exists (S i), y, l'.
Qed.

Lemma job_exists needsDetach jobs : ∃ jobs', detach_job needsDetach jobs jobs'.
Proof. destruct needsDetach; [by exists (jobs ++ [filters]), filters|by exists jobs]. Qed.

Lemma action_step s s' : action s s' → ∃ s2, step s s2.
Proof. intros HA. exists (set_cache (sys_cache s') s'), s', (sys_cache s'). by split_and!. Qed.

Lemma unfinished_step s : ¬ finished s → ∃ s', step s s'.
Proof.
  intros HF. destruct (decide (inserted s = ∅)) as [EI|HI].
  - destruct (concat (sys_jobs s)) as [|x l] eqn:EJ.
    + assert (EH : holding s ≠ ∅) by (by intros EH; apply HF).
      apply map_choose in EH as (e & t & [Ht Hh]%map_lookup_filter_Some).
      destruct (releaseHold (sys_policy s)) as [l b] eqn:El. destruct (job_exists b (sys_jobs s)) as [jobs Hj].
      eapply action_step, do_ReleaseHold; done.
    + destruct (concat_cons _ _ _ EJ) as (i & [u f] & job & Hi). by eapply action_step, do_finishDetach.
  - apply set_choose_L in HI as [e (t & Ht & Hu)%elem_of_inserted].
    destruct (removeUser e (sys_policy s)) as [l b] eqn:El. destruct (job_exists b (sys_jobs s)) as [jobs Hj].
    eapply action_step, do_removeUser; done.
Qed.

Lemma shouldDetach_superseded (l l' : L4Policy E) b : shouldDetachLocked l = (l', b) → superseded l' = superseded l.
Proof. unfold shouldDetachLocked. destruct (_ && superseded _); by intros [= <- _]. Qed.

Lemma steps_superseded s s' : rtc step s s' → superseded (sys_policy s) = true → superseded (sys_policy s') = true.
Proof.
  induction 1 as [|s s1 s' (s2 & c & HA & _ & ->) _ IH]; [done|]. intros Hs. apply IH. cbn. clear IH.
  destruct HA as [s e' t' l ok Ht' Hh Hl|s e' t' l r Ht' Hu Hl|s e' t' l b jobs Ht' Hh Hl Hj|s e' t' l b jobs Ht' Hu Hl Hj|s n l rs b jobs Hn Hl Hj|s i u f job Hi]; cbn in *.
  - unfold addHold in Hl. destruct (_ || _); by injection Hl as <- _.
  - by injection Hl as <- _.
  - by rewrite (shouldDetach_superseded _ _ _ Hl).
  - by rewrite (shouldDetach_superseded _ _ _ Hl).
  - unfold supersede in Hl. destruct (shouldDetachLocked _) as [l' b'] eqn:Es. injection Hl as <- <- <-. by rewrite (shouldDetach_superseded _ _ _ Es).
  - done.
Qed.

Lemma finished_detached s : inv s → superseded (sys_policy s) = true → finished s →
  detached (sys_policy s) = true ∧ ∀ u key, u ∈ filters.*1 → u ∉ sys_attached s ∧ ¬ uc_uses (sys_cache s) u key.
Proof.
  intros [[H1 H2 H3 H4 _] [_ _ _ D4 D5] HS] Hs (EH & EI & EJ).
  assert (Eu : lp_users (sys_policy s) = None).
  { destruct (lp_users (sys_policy s)) as [us|] eqn:Eu; [exfalso|done]. destruct (H2 us eq_refl) as [-> _].
    apply HS; [done|by rewrite H1, EH|by rewrite Eu, EI]. }
  rewrite H4, Eu. split; [done|]. intros u key Hu. unfold pending in *. rewrite Eu, EJ in *. rewrite D5, D4 by done. split; [set_solver|].
  intros (f & ?%elem_of_nil & _). done.
Qed.

(** C9. A superseded policy is released.  Every endpoint whose policy is still registered is
    told to regenerate; all executions are finite, and until no endpoint holds the policy, none
    is registered and no removal is under way they can go on; then the policy is marked as
    detached and none of its filters is attached or the user of a selector any more. *)
Theorem superseded_released s : reachable s → superseded (sys_policy s) = true →
  (∀ e t, sys_threads s !! e = Some t → th_user t = Inserted → GetID e ≠ 0 → e ∈ sys_regenerated s) ∧
  Acc (λ s2 s1, step s1 s2) s ∧
  ∀ s', rtc step s s' →
    (¬ finished s' → ∃ s'', step s' s'') ∧
    (finished s' → detached (sys_policy s') = true ∧
      ∀ u key, u ∈ filters.*1 → u ∉ sys_attached s' ∧ ¬ uc_uses (sys_cache s') u key).
Proof.
  intros I%reachable_inv Hs. split; [|split; [apply step_terminates|]].
  - intros e t Ht Hu Hg. apply (iv_regenerated _ (iv_counted _ I)); [|done|done]. apply elem_of_inserted. by exists t.
  - intros s' HR. pose proof (steps_inv _ _ I HR) as I'. split; [by apply unfinished_step|].
    apply finished_detached; [done|]. by eapply steps_superseded.
Qed.
End system.

(** ** Example *)

Module Examples.
#[local] Existing Instances range_elements sort_merge SelectorCacheHistory.Examples.selectors_ok.
Import SelectorCacheHistory.Examples.
Local Open Scope string_scope.

(** A policy with one filter, at address 7, and one endpoint policy. *)
Definition web_filter : L4Filter := mkL4Filter 0 6 80 0 "TCP" "" None {[ "web" := None ]} true ∅.
Definition web_filters : list (Z * L4Filter) := [(7%Z, web_filter)].

#[local] Instance web_cache_users : UserCache (SelectorCache policySelector Z) Z := selectorCache_users true.

Definition web_cache : SelectorCache policySelector Z := runs true [OAdd 7%Z [web_selector]] (NewSelectorCache ids).

Definition web_system : Type := system (E := Z) (U := Z) (C := SelectorCache policySelector Z).

Definition started : web_system := mkSystem NewL4Policy {[ 1%Z := mkThread NotFetched NotInserted ]} [] web_cache {[ 7%Z ]} ∅ 1.
Definition fetched : web_system :=
  mkSystem (mkL4Policy (Some ∅) 1 false false) {[ 1%Z := mkThread Held NotInserted ]} [] web_cache {[ 7%Z ]} ∅ 1.
Definition used : web_system :=
  mkSystem (mkL4Policy (Some {[ 1%Z ]}) 1 false false) {[ 1%Z := mkThread Held Inserted ]} [] web_cache {[ 7%Z ]} ∅ 1.
Definition replaced : web_system :=
  mkSystem (mkL4Policy (Some {[ 1%Z ]}) 1 true false) {[ 1%Z := mkThread Held Inserted ]} [] web_cache {[ 7%Z ]} {[ 1%Z ]} 0.

Lemma web_history : well_labelled ids [OAdd 7%Z [web_selector]].
Proof. constructor; [|by vm_compute]. by repeat constructor. Qed.

Lemma web_refines : refines (mkSpec ids {[ "web" := (web_selector, {[ 7%Z ]}) ]}) web_cache.
Proof.
  destruct (history_refines true ids [OAdd 7%Z [web_selector]] web_history) as (R & _). exact R.
Qed.

Lemma started_initial : initial web_filters started.
Proof.
  constructor; try done.
  - intros e t Ht. cbn in Ht. by apply lookup_singleton_Some in Ht as [<- <-].
  - exists (mkSpec ids {[ "web" := (web_selector, {[ 7%Z ]}) ]}). exact web_refines.
  - intros u key ->%list_elem_of_singleton. cbn [uc_uses web_cache_users selectorCache_users]. rewrite (re_selectors _ _ web_refines). cbn [sp_selectors].
    unfold filter_selectors. split.
    + intros (sel & us & [<- [= <- <-]]%lookup_singleton_Some & _). exists web_filter. split; [by left|]. by vm_compute; left.
    + intros (f & [= ->]%list_elem_of_singleton & Hk%elem_of_range). cbn in Hk. rewrite dom_singleton_L in Hk. apply elem_of_singleton in Hk as ->.
      eexists _, _. split; [apply lookup_singleton_eq|]. by apply elem_of_singleton.
Qed.

Lemma same_step (s s' : web_system) : action (λ e, e) web_filters s s' → step (λ e, e) web_filters s s'.
Proof. intros HA. exists s', (sys_cache s'). split; [done|]. split; [done|by destruct s']. Qed.

(** The endpoint fetches the policy and registers its own. *)
Lemma used_reachable : reachable (λ e, e) web_filters used.
Proof.
  exists started. split; [apply started_initial|].
  apply (rtc_l _ _ fetched); [apply same_step, (do_AddHold _ _ started 1%Z (mkThread NotFetched NotInserted) _ _ eq_refl eq_refl eq_refl)|].
  apply rtc_once, same_step, (do_insertUser _ _ fetched 1%Z (mkThread Held NotInserted) _ _ eq_refl eq_refl eq_refl).
Qed.

Lemma replaced_reachable : reachable (λ e, e) web_filters replaced.
Proof.
  destruct used_reachable as (s & HI & HR). exists s. split; [done|]. eapply rtc_r; [exact HR|]. apply same_step.
  refine (do_Supersede _ _ used 0 _ _ _ _ eq_refl eq_refl _). reflexivity.
Qed.

Lemma no_use_after_detach_witness : reachable (λ e, e) web_filters used ∧ uc_uses (sys_cache used) 7%Z "web".
Proof.
  split; [apply used_reachable|].
  destruct (no_use_after_detach (λ e, e) web_filters ltac:(repeat constructor; set_solver) used 1%Z (mkThread Held Inserted) used_reachable) as [HU _];
    [reflexivity|by left|].
  apply (HU 7%Z web_filter "web"); [by left|by vm_compute; left].
Defined.

Lemma superseded_released_witness : reachable (λ e, e) web_filters replaced ∧
  Acc (λ s2 s1, step (λ e, e) web_filters s1 s2) replaced ∧ ∃ s, step (λ e, e) web_filters replaced s.
Proof.
  split; [apply replaced_reachable|].
  destruct (superseded_released (λ e, e) web_filters ltac:(repeat constructor; set_solver) replaced replaced_reachable) as (_ & HA & HF); [reflexivity|].
  split; [exact HA|]. apply (HF replaced); [constructor|]. intros [HE _]. vm_compute in HE. discriminate.
Defined.
End Examples.
