(* ===== verification/GoLib.v ===== *)
(** * Go's time, floating-point numbers and heaps

    What the code uses of Go's [time] and [container/heap], and of [float64]. *)

From Stdlib Require Import QArith.
From S2P Require Import Prelude.

Local Open Scope Z_scope.

Definition Time : Type := Z.
Definition zeroTime : Time := 0.
Definition second : Z := 1000000000.

Definition time_After (t u : Time) : bool := u <? t.
Definition time_Before (t u : Time) : bool := t <? u.
Definition time_IsZero (t : Time) : bool := t =? 0.
Definition time_Add (t : Time) (d : Z) : Time := t + d.

(** Rounding down counts from the zero time as well. *)
Definition time_Truncate (t : Time) (d : Z) : Time := if d <=? 0 then t else t - t mod d.

(** Seconds since 1970. *)
Definition time_Unix (t : Time) : Z := t / second - 62135596800.

(** [time.Duration(n) * time.Second], at 64 bits. *)
Definition signed64 (n : Z) : Z := (n + 2 ^ 63) mod 2 ^ 64 - 2 ^ 63.
Definition seconds (n : Z) : Z := signed64 (n * second).

Lemma seconds_small n : 0 ≤ n < 2 ^ 32 → seconds n = n * second.
Proof.
  intros H. unfold seconds, signed64. rewrite Z.mod_small; [lia|]. unfold second.
  change (2 ^ 32) with 4294967296 in H. change (2 ^ 63) with 9223372036854775808. change (2 ^ 64) with 18446744073709551616. lia.
Qed.

Lemma Unix_mono t u : t ≤ u → time_Unix t ≤ time_Unix u.
Proof. intros H. unfold time_Unix, second. pose proof (Z.div_le_mono t u 1000000000 ltac:(lia) H). lia. Qed.

(** The start of the next second. *)
Definition next_second (t : Time) : Time := time_Truncate (time_Add t second) second.

Lemma next_second_spec t : next_second t = (t / second + 1) * second ∧ t < next_second t ≤ t + second.
Proof.
  unfold next_second, time_Truncate, time_Add, second. cbn [Z.leb Z.compare].
  pose proof (Z.div_mod (t + 1000000000) 1000000000 ltac:(lia)). pose proof (Z.mod_pos_bound (t + 1000000000) 1000000000 ltac:(lia)).
  assert (E : (t + 1000000000) / 1000000000 = t / 1000000000 + 1).
  { rewrite <- (Z.div_add t 1 1000000000) by lia. f_equal. }
  rewrite E in *. lia.
Qed.

(** * Floats *)

(** Rounding to the nearest integer, ties to even, of a quotient. *)
Definition round_even (n d : Z) : Z :=
  let k := n / d in
  let r := n mod d in
  if 2 * r <? d then k else if d <? 2 * r then k + 1 else if Z.even k then k else k + 1.

(** The exponent of [n / d]. *)
Definition exponent (n d : Z) : Z :=
  let e0 := Z.log2 n - Z.log2 d in
  if (if 0 <=? e0 then d * 2 ^ e0 <=? n else d <=? n * 2 ^ (- e0)) then e0 else e0 - 1.

(** Rounding to a [float64]: 53 significant bits.  The results here are neither subnormal nor out of
    range. *)
Definition round64 (q : Q) : Q :=
  let n := Z.abs (Qnum q) in
  let d := Zpos (Qden q) in
  if n =? 0 then 0%Q
  else
    let s := exponent n d - 52 in
    if 0 <=? s then inject_Z (Z.sgn (Qnum q) * (round_even n (d * 2 ^ s) * 2 ^ s))
    else Qmake (Z.sgn (Qnum q) * round_even (n * 2 ^ (- s)) d) (Z.to_pos (2 ^ (- s))).

Definition float_add (p q : Q) : Q := round64 (p + q).

Lemma round_even_error n d : 0 < d → 2 * Z.abs (round_even n d * d - n) ≤ d.
Proof.
  intros Hd. unfold round_even. pose proof (Z.div_mod n d ltac:(lia)) as HD. pose proof (Z.mod_pos_bound n d Hd) as HM.
  set (k := n / d) in *. set (r := n mod d) in *.
  assert (H1 : k * d - n = - r) by lia. assert (H2 : (k + 1) * d - n = d - r) by lia.
  destruct (Z.ltb_spec (2 * r) d); [rewrite H1; lia|]. destruct (Z.ltb_spec d (2 * r)); [rewrite H2; lia|].
  destruct (Z.even k); [rewrite H1|rewrite H2]; lia.
Qed.

Lemma round_even_nonneg n d : 0 < d → 0 ≤ n → 0 ≤ round_even n d.
Proof.
  intros Hd Hn. unfold round_even. pose proof (Z.div_pos n d Hn Hd). repeat case_match; lia.
Qed.

(** [2 ^ e] is at most [n / d]. *)
Definition below (e n d : Z) : Prop := if 0 <=? e then d * 2 ^ e ≤ n else d ≤ n * 2 ^ (- e).

Lemma exponent_below n d : 0 < n → 0 < d → below (exponent n d) n d.
Proof.
  intros Hn Hd. unfold exponent. cbn zeta. set (e0 := Z.log2 n - Z.log2 d). unfold below.
  destruct (if 0 <=? e0 then d * 2 ^ e0 <=? n else d <=? n * 2 ^ (- e0)) eqn:E; [by destruct (0 <=? e0); apply Z.leb_le in E|]. clear E.
  destruct (Z.log2_spec n Hn) as [Ln _]. destruct (Z.log2_spec d Hd) as [_ Ud]. pose proof (Z.log2_nonneg n). pose proof (Z.log2_nonneg d).
  destruct (Z.leb_spec 0 (e0 - 1)) as [H1|H1].
  - transitivity (2 ^ Z.log2 n); [|done]. replace (Z.log2 n) with (Z.succ (Z.log2 d) + (e0 - 1)) by (unfold e0; lia).
    rewrite Z.pow_add_r by lia. apply Z.mul_le_mono_nonneg_r; [apply Z.pow_nonneg; lia|lia].
  - transitivity (2 ^ Z.succ (Z.log2 d)); [lia|]. replace (Z.succ (Z.log2 d)) with (Z.log2 n + - (e0 - 1)) by (unfold e0; lia).
    rewrite Z.pow_add_r by lia. apply Z.mul_le_mono_nonneg_r; [apply Z.pow_nonneg; lia|lia].
Qed.

(** The error of the rounding of a quotient, scaled. *)
Lemma scaled_error e n d : 0 < n → 0 < d → below e n d → let s := e - 52 in
  if 0 <=? s then 2 ^ 53 * Z.abs (round_even n (d * 2 ^ s) * 2 ^ s * d - n) ≤ n
  else 2 ^ 53 * Z.abs (round_even (n * 2 ^ (- s)) d * d - n * 2 ^ (- s)) ≤ n * 2 ^ (- s).
Proof.
  intros Hn Hd HB s. unfold below in HB. destruct (Z.leb_spec 0 s) as [Hs|Hs].
  - rewrite (proj2 (Z.leb_le 0 e)) in HB by (unfold s in Hs; lia). assert (Hp : 0 < d * 2 ^ s) by (pose proof (pow2_pos s Hs); nia).
    pose proof (round_even_error n (d * 2 ^ s) Hp) as HE. set (R := round_even n (d * 2 ^ s)) in *.
    assert (HP : 2 ^ e = 2 ^ s * 2 ^ 52) by (rewrite <- Z.pow_add_r by lia; f_equal; unfold s; lia). rewrite HP in HB.
    replace (R * 2 ^ s * d) with (R * (d * 2 ^ s)) by ring. lia.
  - pose proof (round_even_error (n * 2 ^ (- s)) d Hd) as HE. enough (d * 2 ^ 52 ≤ n * 2 ^ (- s)) by lia.
    destruct (Z.leb_spec 0 e) as [He|He].
    + replace (2 ^ 52) with (2 ^ e * 2 ^ (- s)) by (rewrite <- Z.pow_add_r by lia; f_equal; unfold s; lia).
      rewrite Z.mul_assoc. apply Z.mul_le_mono_nonneg_r; [apply Z.pow_nonneg; lia|done].
    + replace (2 ^ (- s)) with (2 ^ (- e) * 2 ^ 52) by (rewrite <- Z.pow_add_r by lia; f_equal; unfold s; lia).
      rewrite Z.mul_assoc. apply Z.mul_le_mono_nonneg_r; [apply Z.pow_nonneg; lia|done].
Qed.

Local Open Scope Q_scope.

(** Half a unit in the last place, as a relative error. *)
Definition ulp : Q := 1 # 9007199254740992.

Lemma round64_bounds q : 0 < q → q * (1 - ulp) <= round64 q /\ round64 q <= q * (1 + ulp).
Proof.
  destruct q as [n d]. unfold Qlt. cbn. rewrite Z.mul_1_r. intros Hn. unfold round64. cbn [Qnum Qden]. rewrite (Z.abs_eq n) by lia.
  rewrite (proj2 (Z.eqb_neq n 0)) by lia. rewrite (Z.sgn_pos n) by lia.
  pose proof (exponent_below n (Zpos d) Hn ltac:(lia)) as HB. set (e := exponent n (Zpos d)) in *.
  pose proof (scaled_error e n (Zpos d) Hn ltac:(lia) HB) as HE. cbv zeta in HE. change (2 ^ 53)%Z with 9007199254740992%Z in HE.
  destruct (Z.leb_spec 0 (e - 52)) as [Hs|Hs].
  - set (R := (round_even n (Z.pos d * 2 ^ (e - 52)) * 2 ^ (e - 52))%Z) in *. unfold Qle, ulp. cbn. lia.
  - set (p := (2 ^ (- (e - 52)))%Z) in *. assert (Hp : (0 < p)%Z) by (apply pow2_pos; lia).
    set (R := round_even (n * p) (Zpos d)) in *. unfold Qle, ulp. cbn. rewrite Z2Pos.id by done. nia.
Qed.

(** * Heaps *)

Local Open Scope nat_scope.

Section heap.
Context {A : Type} (less : A → A → bool).
Implicit Types (h : list A) (i j n : nat).

(** [h.Less(i, j)] and [h.Swap(i, j)]. *)
Definition Less h i j : bool :=
  match h !! i, h !! j with Some x, Some y => less x y | _, _ => false end.

Definition Swap h i j : list A :=
  match h !! i, h !! j with Some x, Some y => <[j := x]> (<[i := y]> h) | _, _ => h end.

(** [(j - 1) / 2] is 0 for the root, in Go as in [nat]. *)
Fixpoint up (fuel : nat) h j : list A :=
  match fuel with
  | O => h
  | S fuel =>
      let i := (j - 1) / 2 in
      if (i =? j) || negb (Less h j i) then h else up fuel (Swap h i j) i
  end.

(** The slice and where the element ends up. *)
Fixpoint down (fuel : nat) h i n : list A * nat :=
  match fuel with
  | O => (h, i)
  | S fuel =>
      let j1 := 2 * i + 1 in
      if n <=? j1 then (h, i)
      else
        let j2 := j1 + 1 in
        let j := if (j2 <? n) && Less h j2 j1 then j2 else j1 in
        if negb (Less h j i) then (h, i) else down fuel (Swap h i j) j n
  end.

Definition fix_at h i n : list A :=
  let '(h', i') := down n h i n in if i <? i' then h' else up (S i) h' i.

(** [heap.Fix].  An index out of range other than 0 panics. *)
Definition Fix h i : option (list A) :=
  if (i <? length h) || (i =? 0) then Some (fix_at h i (length h)) else None.

(** [heap.Remove], which panics when the index is out of range. *)
Definition Remove h i : option (list A * A) :=
  let n := length h - 1 in
  if i <? length h then
    let h := if n =? i then h else fix_at (Swap h i n) i n in
    (λ x, (take n h, x)) <$> h !! n
  else None.

(** [heap.Push]. *)
Definition heap_Push h (x : A) : list A := up (S (length h)) (h ++ [x]) (length h).

(** ** The elements *)

Lemma Swap_spec h i j k : (i ≠ k → j ≠ k → Swap h i j !! k = h !! k) ∧ length (Swap h i j) = length h ∧
  (i < length h → j < length h → Swap h i j !! j = h !! i).
Proof.
  unfold Swap. destruct (h !! i) as [x|] eqn:Ei.
  - destruct (h !! j) as [y|] eqn:Ej.
    + split; [intros; by rewrite !list_lookup_insert_ne|]. rewrite !length_insert. split; [done|]. intros _ Hj. by rewrite list_lookup_insert_eq by (by rewrite length_insert).
    + split; [done|]. split; [done|]. intros _ Hj. apply lookup_ge_None in Ej. lia.
  - split; [done|]. split; [done|]. intros Hi. apply lookup_ge_None in Ei. lia.
Qed.

Lemma Swap_perm h i j : Swap h i j ≡ₚ h.
Proof.
  unfold Swap. destruct (h !! i) as [x|] eqn:Ei; [|done]. destruct (h !! j) as [y|] eqn:Ej; [|done]. destruct (decide (i = j)) as [->|Hn].
  - simplify_eq. by rewrite list_insert_insert_eq, list_insert_id.
  - apply (Permutation_insert_swap h i j x y); done.
Qed.

Lemma up_perm fuel h j : up fuel h j ≡ₚ h.
Proof.
  revert h j. induction fuel as [|fuel IH]; intros h j; [done|]. cbn [up]. destruct (_ || _); [done|]. by rewrite IH, Swap_perm.
Qed.

Lemma down_perm fuel h i n : (down fuel h i n).1 ≡ₚ h.
Proof.
  revert h i. induction fuel as [|fuel IH]; intros h i; [done|]. cbn [down]. destruct (_ <=? _); [done|]. set (j := if _ && _ then _ else _).
  destruct (negb _); [done|]. by rewrite IH, Swap_perm.
Qed.

Lemma fix_at_perm h i n : fix_at h i n ≡ₚ h.
Proof.
  unfold fix_at. pose proof (down_perm n h i n) as HD. destruct (down n h i n) as [h' i']. cbn in HD. destruct (_ <? _); [done|]. by rewrite up_perm.
Qed.

(** An element moves up among the indices up to its own, and down among those below [n]. *)
Lemma up_keeps fuel h j k : j < k → up fuel h j !! k = h !! k.
Proof.
  revert h j. induction fuel as [|fuel IH]; intros h j Hk; [done|]. cbn [up]. destruct (_ || _); [done|].
  assert (Hi : (j - 1) / 2 ≤ j) by (transitivity (j - 1); [apply Nat.Div0.div_le_upper_bound|]; lia).
  rewrite IH by lia. apply Swap_spec; lia.
Qed.

Lemma down_keeps fuel h i n k : i < n → n ≤ k → (down fuel h i n).1 !! k = h !! k.
Proof.
  revert h i. induction fuel as [|fuel IH]; intros h i Hi Hk; [done|]. cbn [down]. destruct (Nat.leb_spec n (2 * i + 1)); [done|].
  set (j := if _ && _ then _ else _). assert (Hj : j < n).
  { unfold j. destruct (Nat.ltb_spec (2 * i + 1 + 1) n); cbn [andb]; [|lia]. destruct (Less _ _ _); lia. }
  destruct (negb _); [done|]. rewrite IH by lia. apply Swap_spec; lia.
Qed.

Lemma fix_at_keeps h i n k : i < n → n ≤ k → fix_at h i n !! k = h !! k.
Proof.
  intros Hi Hk. unfold fix_at. pose proof (down_keeps n h i n k Hi Hk) as HD. destruct (down n h i n) as [h' i']. cbn in HD.
  destruct (_ <? _); [done|]. rewrite up_keeps by lia. done.
Qed.

Lemma Fix_ok h i : i < length h → ∃ h', Fix h i = Some h' ∧ h' ≡ₚ h.
Proof. intros Hi. unfold Fix. rewrite (proj2 (Nat.ltb_lt _ _) Hi). cbn. eexists. split; [done|]. apply fix_at_perm. Qed.

Lemma heap_Push_perm h x : heap_Push h x ≡ₚ x :: h.
Proof. unfold heap_Push. rewrite up_perm. by rewrite Permutation_app_comm. Qed.

(** The element at the index is removed. *)
Lemma Remove_ok h i x : h !! i = Some x → ∃ h', Remove h i = Some (h', x) ∧ x :: h' ≡ₚ h.
Proof.
  intros Hx. pose proof (lookup_lt_Some _ _ _ Hx) as Hi. unfold Remove. rewrite (proj2 (Nat.ltb_lt _ _) Hi). set (n := length h - 1).
  set (h1 := if n =? i then h else _). assert (H1 : h1 !! n = Some x ∧ h1 ≡ₚ h).
  { unfold h1. destruct (Nat.eqb_spec n i) as [E|Hn]; [by rewrite E|]. split; [|by rewrite fix_at_perm, Swap_perm].
    rewrite fix_at_keeps by lia. rewrite (proj2 (proj2 (Swap_spec h i n 0))) by lia. done. }
  destruct H1 as [H1 H2]. rewrite H1. cbn. exists (take n h1). split; [done|].
  rewrite <- H2. rewrite <- (take_drop n h1) at 2. rewrite (drop_S _ _ _ H1). assert (HL : length h1 = length h) by (by rewrite H2).
  rewrite (drop_ge h1 (S n)) by lia. by rewrite Permutation_app_comm.
Qed.
End heap.
