(* ===== verification/Repository.v ===== *)
(** * The policy repository

    Model of [src/pkg/policy/repository.go] with the parts of [rule.go] and [rules.go] it
    uses: the rules by key, namespace and resource, the selectors of their subjects in a
    selector cache of their own, and the rules that apply to an identity. *)

From Stdlib Require Import QArith Ascii.
From S2P Require Import Prelude Text Precedence PolicyKey Identity RuleOrigin PassMeta MapState PolicyRule TierPriorities L4Filter L4MapState.
From S2P Require Import Labels Selectors SelectorCache GoLib.

Local Open Scope Z_scope.

(** ** Rules *)

(** [ruleKey]. *)
Record ruleKey := mkRuleKey { rk_resource : string; rk_idx : Z }.

#[export] Instance ruleKey_eq_dec : EqDecision ruleKey.
Proof. solve_decision. Defined.

#[export] Instance ruleKey_countable : Countable ruleKey.
Proof. refine (inj_countable' (λ k, (rk_resource k, rk_idx k)) (λ x, mkRuleKey x.1 x.2) _). by intros []. Defined.

(** [ResourceID.Namespace]: the second of at most three parts. *)
Definition Namespace (r : string) : string :=
  match cut "/"%char r with
  | None => EmptyString
  | Some (_, rest) => match cut "/"%char rest with None => rest | Some (ns, _) => ns end
  end.

(** A policy entry with its subject. *)
Record subjectEntry (Sel : Type) := mkSubjectEntry { se_entry : PolicyEntry; Subject : Sel; Node : bool }.
Arguments mkSubjectEntry {Sel}.
Arguments se_entry {Sel}.
Arguments Subject {Sel}.
Arguments Node {Sel}.

(** A rule is an object: [r_ptr] is its address, which the selector cache knows it by.  The
    cached selector is the one of the subject's selector cache; synthesized rules have none. *)
Record rule (Sel : Type) := mkRule {
  r_entry : subjectEntry Sel;
  r_key : ruleKey;
  r_ptr : Z;
  subjectSelector : option Z;
}.
Arguments mkRule {Sel}.
Arguments r_entry {Sel}.
Arguments r_key {Sel}.
Arguments r_ptr {Sel}.
Arguments subjectSelector {Sel}.

Notation pe r := (se_entry (r_entry r)).

(** What the repository uses of an identity. *)
Record identity := mkIdentity { id_ID : Z; id_Labels : Labels.Labels; id_LabelArray : LabelArray }.

Inductive PolicyMode := DefaultEnforcement | AlwaysEnforce | NeverEnforce.

#[export] Instance PolicyMode_eq_dec : EqDecision PolicyMode.
Proof. solve_decision. Defined.

Record RepoConfig := mkRepoConfig { EnableHostFirewall : bool; policyMode : PolicyMode; AlwaysAllowLocalhost : bool }.

Record Repository (Sel : Type) := mkRepository {
  repo_rules : gmap ruleKey (rule Sel);
  rulesByNamespace : gmap string (gset ruleKey);
  rulesByResource : gmap string (gmap ruleKey (rule Sel));
  nextID : Z;
  revision : Z;
  subjectSelectorCache : SelectorCache Sel Z;
  next_ptr : Z;
}.
Arguments mkRepository {Sel}.
Arguments repo_rules {Sel}.
Arguments rulesByNamespace {Sel}.
Arguments rulesByResource {Sel}.
Arguments nextID {Sel}.
Arguments revision {Sel}.
Arguments subjectSelectorCache {Sel}.
Arguments next_ptr {Sel}.

(** ** Order of the rules *)

(** [cmp.Compare] of finite floats. *)
Definition compare_prio (p q : Q) : comparison := (p ?= q)%Q.

Section rules.
Context {Sel : Type}.
Implicit Types (r : rule Sel).

(** The comparison of [ruleSlice.sort]. *)
Definition rule_cmp r1 r2 : comparison :=
  match (Tier (pe r1) ?= Tier (pe r2)) with
  | Eq => match compare_prio (Priority (pe r1)) (Priority (pe r2)) with
          | Eq => match String.compare (rk_resource (r_key r1)) (rk_resource (r_key r2)) with
                  | Eq => (rk_idx (r_key r1) ?= rk_idx (r_key r2))
                  | c => c
                  end
          | c => c
          end
  | c => c
  end.

Definition rule_order r1 r2 : Prop := rule_cmp r1 r2 ≠ Gt.

#[export] Instance rule_order_dec r1 r2 : Decision (rule_order r1 r2).
Proof. unfold rule_order. destruct (rule_cmp r1 r2); [left|left|right]; congruence. Defined.

Definition ruleSlice_sort {GS : GoSort} (rules : list (rule Sel)) : list (rule Sel) := sort_by rule_order rules.

Definition AsPolicyEntries (rules : list (rule Sel)) : list PolicyEntry := map (λ r, pe r) rules.
End rules.

(** ** The repository *)

Definition DefaultPolicy : Z := 255.

Definition LabelsDenyAnyIngress : string := "[reserved:io.cilium.policy.derived-from=deny-any-ingress]".
Definition LabelsDenyAnyEgress : string := "[reserved:io.cilium.policy.derived-from=deny-any-egress]".
Definition LabelsLocalHostIngress : string := "[reserved:io.cilium.policy.derived-from=allow-localhost-ingress]".

(** The repository's selectors: the key of the host selector, and the subject selector of
    synthesized rules, which nothing evaluates. *)
Class RepositoryKeys (Sel : Type) `{SelectorKeys} := {
  hostSelectorKey : string;
  host_not_wildcard : selector_IsWildcard hostSelectorKey = false;
  labelsSelector : LabelArray → Sel;
}.

Section repository.
Context {GR : GoRange} {GS : GoSort} {Sel : Type} {CS : CacheSelector Sel} {SK : SelectorKeys} {RK : RepositoryKeys Sel}.
Implicit Types (p : Repository Sel) (r : rule Sel) (rules : list (rule Sel)) (k : ruleKey) (si : identity).

Definition NewPolicyRepository : Repository Sel := mkRepository ∅ ∅ ∅ 0 1 (NewSelectorCache ∅) 0.

Definition set_rules f g h p : Repository Sel :=
  mkRepository (f (repo_rules p)) (g (rulesByNamespace p)) (h (rulesByResource p)) (nextID p) (revision p) (subjectSelectorCache p) (next_ptr p).
Definition set_subjects sc p : Repository Sel :=
  mkRepository (repo_rules p) (rulesByNamespace p) (rulesByResource p) (nextID p) (revision p) sc (next_ptr p).

Definition repo_UpdateIdentities (added deleted : gmap Z Labels.Labels) p : Repository Sel :=
  set_subjects (UpdateIdentities added deleted (subjectSelectorCache p)).1 p.

Definition repo_Search p : list PolicyEntry * Z :=
  (map (λ r : rule Sel, pe r) (range_values (repo_rules p)), revision p).

Definition BumpRevision p : Repository Sel :=
  mkRepository (repo_rules p) (rulesByNamespace p) (rulesByResource p) (nextID p) (uwrap 64 (revision p + 1)) (subjectSelectorCache p) (next_ptr p).

Definition repo_insert r p : Repository Sel :=
  let namespace := Namespace (rk_resource (r_key r)) in
  let rid := rk_resource (r_key r) in
  set_rules (insert (r_key r) r) (λ m, <[namespace := {[ r_key r ]} ∪ default ∅ (m !! namespace)]> m)
    (λ m, if bool_decide (rid ≠ EmptyString) then <[rid := <[r_key r := r]> (default ∅ (m !! rid))]> m else m) p.

Definition repo_del p k : Repository Sel :=
  match repo_rules p !! k with
  | None => p
  | Some r =>
      let namespace := Namespace (rk_resource (r_key r)) in
      let rid := rk_resource k in
      set_rules (delete k)
        (λ m, let s := default ∅ (m !! namespace) ∖ {[ k ]} in
              if bool_decide (s = ∅) then delete namespace m else <[namespace := s]> m)
        (λ m, match m !! rid with
              | Some rs => if bool_decide (rid ≠ EmptyString) then
                             let rs := delete k rs in
                             if bool_decide (rs = ∅) then delete rid m else <[rid := rs]> m
                           else m
              | None => m
              end) p
  end.

(** [newRule]: the cached selector of the subject is the first one [AddSelectors] returns. *)
Definition newRule (e : subjectEntry Sel) k p : Repository Sel * rule Sel :=
  let ptr := next_ptr p in
  let '(sc, css, _) := AddSelectors false ptr [Subject e] (subjectSelectorCache p) in
  (mkRepository (repo_rules p) (rulesByNamespace p) (rulesByResource p) (nextID p) (revision p) sc (ptr + 1),
   mkRule e k ptr (head css)).

Definition releaseRule p r : Repository Sel :=
  match subjectSelector r with
  | None => p
  | Some id =>
      match objects (subjectSelectorCache p) !! id with
      | Some o => set_subjects (RemoveSelector false (r_ptr r) (is_key o) (subjectSelectorCache p)) p
      | None => p
      end
  end.

Definition addListLocked (entries : list (subjectEntry Sel)) p : Repository Sel * list (rule Sel) :=
  let '(p, rules) := foldl (λ x e, let '(p, rules) := x in
      let '(p, r) := newRule e (mkRuleKey EmptyString (nextID p)) p in
      let p := repo_insert r p in
      (mkRepository (repo_rules p) (rulesByNamespace p) (rulesByResource p) (uwrap 64 (nextID p + 1)) (revision p)
         (subjectSelectorCache p) (next_ptr p), rules ++ [r])) (p, []) entries in
  (BumpRevision p, rules).

(** *** Replacing the rules of a resource *)

(** [rule.getSubjects]. *)
Definition getSubjects p r : list Z :=
  if Node (r_entry r) then [ReservedIdentityHost]
  else match subjectSelector r with
       | Some id => GetSelections (subjectSelectorCache p) id
       | None => []
       end.

Definition replace_old (old : gmap ruleKey (rule Sel)) (x : Repository Sel * gset Z) k : Repository Sel * gset Z :=
  let '(p, affected) := x in
  match old !! k with
  | None => x
  | Some r => (repo_del p k, affected ∪ list_to_set (getSubjects p r))
  end.

Definition replace_new (resource : string) (x : Repository Sel * gset Z * Z) (e : subjectEntry Sel) : Repository Sel * gset Z * Z :=
  let '(p, affected, i) := x in
  let '(p, r) := newRule e (mkRuleKey resource i) p in
  let p := repo_insert r p in
  (p, affected ∪ list_to_set (getSubjects p r), i + 1).

(** The repository, the affected identities and the number of old rules; the repository is left
    alone when there is no resource. *)
Definition ReplaceByResource (entries : list (subjectEntry Sel)) (resource : string) p : Repository Sel * gset Z * Z :=
  if bool_decide (resource = EmptyString) then (p, ∅, 0)
  else
    let oldRules := default ∅ (rulesByResource p !! resource) in
    let '(p, affected) := foldl (replace_old oldRules) (p, ∅) (range (dom oldRules)) in
    let '(p, affected, _) :=
      if bool_decide (entries = []) then (p, affected, 0)
      else foldl (replace_new resource) (set_rules id id (insert resource ∅) p, affected, 0) entries in
    let p := foldl (λ p k, match oldRules !! k with Some r => releaseRule p r | None => p end) p (range (dom oldRules)) in
    (BumpRevision p, affected, Z.of_nat (size oldRules)).

(** *** The rules of an identity *)

(** [rule.matchesSubject]. *)
Definition matchesSubject p si r : bool :=
  let subjectIsNode := bool_decide (id_ID si = ReservedIdentityHost) in
  let ruleSelectsNode := Node (r_entry r) in
  if negb (eqb ruleSelectsNode subjectIsNode) then false
  else match subjectSelector r with
       | None => cs_Matches (Subject (r_entry r)) (id_Labels si)
       | Some id =>
           if ruleSelectsNode then cs_Matches (Subject (r_entry r)) (id_Labels si)
           else Selects wildcardSelectorKey (subjectSelectorCache p) id (id_ID si)
       end.

(** What the loops of [computePolicyEnforcementAndRules] collect for a direction: whether there
    is a default deny and a pass verdict, and the rules. *)
Record collected := mkCollected { hasDefaultDeny : bool; hasPassVerdict : bool; col_rules : list (rule Sel) }.

Definition collect (c : collected) r : collected :=
  mkCollected (hasDefaultDeny c || DefaultDeny (pe r)) (hasPassVerdict c || bool_decide (pe_Verdict (pe r) = Pass)) (col_rules c ++ [r]).

(** [processKey]: a key without a rule is a nil pointer. *)
Definition processKey p si (x : collected * collected) k : error + (collected * collected) :=
  match repo_rules p !! k with
  | None => inl NilPointer
  | Some r =>
      inr (if matchesSubject p si r then
             if pe_Ingress (pe r) then (collect x.1 r, x.2) else (x.1, collect x.2 r)
           else x)
  end.

(** The subject of a synthesized rule is the identity itself, and it is in no index. *)
Definition addDefaultRule si (peers : list string) (lbls : string) (verdict : Verdict) rules : error + list (rule Sel) :=
  match last rules with
  | None => inl IndexOutOfRange
  | Some lastRule =>
      let priority := if Tier (pe lastRule) =? DefaultPolicy then float_add (Priority (pe lastRule)) 1 else 0%Q in
      let e := mkPolicyEntry DefaultPolicy priority EmptyString (Some peers) [] lbls false verdict (pe_Ingress (pe lastRule)) in
      inr (rules ++ [mkRule (mkSubjectEntry e (labelsSelector (id_LabelArray si)) false) (mkRuleKey EmptyString 0) 0 None])
  end.

(** The default rules of a direction, the localhost rule at ingress among them. *)
Definition defaultRules cfg si (ingress : bool) (c : collected) : error + list (rule Sel) :=
  match col_rules c with
  | [] => inr []
  | _ =>
      if negb (hasDefaultDeny c) then
        addDefaultRule si [wildcardSelectorKey] (if ingress then LabelsAllowAnyIngress else LabelsAllowAnyEgress) Allow (col_rules c)
      else
        rules <~ (if ingress && AlwaysAllowLocalhost cfg && bool_decide (id_ID si ≠ ReservedIdentityHost)
                  then addDefaultRule si [hostSelectorKey] LabelsLocalHostIngress Allow (col_rules c) else inr (col_rules c));;
        if hasPassVerdict c then
          addDefaultRule si [wildcardSelectorKey] (if ingress then LabelsDenyAnyIngress else LabelsDenyAnyEgress) Deny rules
        else inr rules
  end.

(** A direction's result: whether it is enforced, whether it denies by default, its rules. *)
Record enforcement := mkEnforcement { en_has : bool; en_defaultDeny : bool; en_rules : list (rule Sel) }.

Definition notEnforced : enforcement := mkEnforcement false false [].

Definition enforce cfg si (ingress : bool) (c : collected) : error + enforcement :=
  let c := mkCollected (hasDefaultDeny c) (hasPassVerdict c) (ruleSlice_sort (col_rules c)) in
  let has := bool_decide (col_rules c ≠ []) in
  let always := bool_decide (policyMode cfg = AlwaysEnforce) || LabelArray_Has (id_LabelArray si) IDNameInit in
  let c := mkCollected (hasDefaultDeny c || always) (hasPassVerdict c) (col_rules c) in
  rules <~ defaultRules cfg si ingress c;;
  inr (mkEnforcement (has || always) (hasDefaultDeny c) rules).

Definition emptyCollected : collected := mkCollected false false [].

Definition computePolicyEnforcementAndRules cfg si p : error + (enforcement * enforcement) :=
  if bool_decide (id_ID si = ReservedIdentityHost) && negb (EnableHostFirewall cfg) then inr (notEnforced, notEnforced)
  else if bool_decide (policyMode cfg = NeverEnforce) then inr (notEnforced, notEnforced)
  else
    c <~ each (processKey p si) (emptyCollected, emptyCollected) (range (default ∅ (rulesByNamespace p !! EmptyString)));;
    let namespace := (LabelArray_LookupLabel (id_LabelArray si) podNamespaceLabel).1 in
    c <~ (if bool_decide (namespace ≠ EmptyString)
          then each (processKey p si) c (range (default ∅ (rulesByNamespace p !! namespace))) else inr c);;
    i <~ enforce cfg si true c.1;;
    e <~ enforce cfg si false c.2;;
    inr (i, e).

(** *** Resolving the policy of an identity *)

Record selectorPolicy := mkSelectorPolicy {
  sp_Revision : Z;
  IngressPolicyEnabled : bool;
  EgressPolicyEnabled : bool;
  sp_Ingress : L4DirectionPolicy;
  sp_Egress : L4DirectionPolicy;
}.

Definition resolveDirection (c : PolicyContext) (e : enforcement) : error + L4DirectionPolicy :=
  if en_has e then
    x <~ resolveL4Policy (resolve_into_maps c) [makeL4PolicyMap] (AsPolicyEntries (en_rules e));;
    inr (mkDirection x.2 x.1 0)
  else inr newL4DirectionPolicy.

(** [getTLS] looks up the secrets of TLS contexts. *)
Definition resolvePolicyLocked cfg (getTLS : apiTLSContext → error + (string * string * string * bool)) si p : error + selectorPolicy :=
  x <~ computePolicyEnforcementAndRules cfg si p;;
  let ns := LabelArray_Get (id_LabelArray si) (LabelSourceK8s +:+ ":" +:+ PodNamespaceLabel) in
  let c := mkPolicyContext ns 0 0 (en_defaultDeny x.1) (en_defaultDeny x.2) NilRuleOrigin getTLS in
  i <~ resolveDirection c x.1;;
  e <~ resolveDirection c x.2;;
  inr (mkSelectorPolicy (revision p) (en_has x.1) (en_has x.2) (direction_attach i).1 (direction_attach e).1).
End repository.
