(* ===== verification/RuleSort.v ===== *)
(** * The order of the rules

    [ruleSlice.sort] of [src/pkg/policy/rules.go] compares rules by tier, priority, resource and
    index: a total order, in which rules with different keys are never equal.  The sorted rules
    do not depend on the order in which the repository's maps are iterated. *)

From Stdlib Require Import QArith.
From stdpp Require Import sorting.
From S2P Require Import Prelude PassMeta MapState PolicyRule TierPriorities Repository.

Local Open Scope Z_scope.

(** ** Comparisons *)

(** A comparison that is a total order. *)
Record total_cmp {A} (c : A → A → comparison) : Prop := {
  tc_sym x y : c y x = CompOpp (c x y);
  tc_eq x y z : c x y = Eq → c x z = c y z;
  tc_trans x y z : c x y = Lt → c y z = Lt → c x z = Lt;
}.

Definition lex_cmp {A} (c c' : A → A → comparison) (x y : A) : comparison :=
  match c x y with Eq => c' x y | r => r end.

Lemma lex_total {A} (c c' : A → A → comparison) : total_cmp c → total_cmp c' → total_cmp (lex_cmp c c').
Proof.
  intros [S1 E1 T1] [S2 E2 T2]. unfold lex_cmp. constructor.
  - intros x y. rewrite (S1 x y). destruct (c x y); cbn; [apply S2|done|done].
  - intros x y z. destruct (c x y) eqn:Exy; try done. intros Exy'. rewrite (E1 _ _ z Exy). destruct (c y z); [by apply E2|done|done].
  - intros x y z. destruct (c x y) eqn:Exy; try done.
    + rewrite (E1 _ _ z Exy). destruct (c y z); try done. apply T2.
    + destruct (c y z) eqn:Eyz; try done; intros _ _; [|by rewrite (T1 x y z)].
      assert (E : c x z = Lt); [|by rewrite E]. rewrite (S1 z x), (E1 z y x); [by rewrite (S1 x y), Exy|]. by rewrite (S1 y z), Eyz.
Qed.

Lemma map_total {A B} (f : B → A) (c : A → A → comparison) : total_cmp c → total_cmp (λ x y, c (f x) (f y)).
Proof. intros [S E T]. constructor; intros *; [apply S|apply E|apply T]. Qed.

Lemma Z_total : total_cmp Z.compare.
Proof.
  constructor; intros *.
  - apply Z.compare_antisym.
  - by intros ->%Z.compare_eq_iff.
  - rewrite !Z.compare_lt_iff. lia.
Qed.

Lemma Q_total : total_cmp compare_prio.
Proof.
  unfold compare_prio. constructor; intros *.
  - symmetry. apply Qcompare_antisym.
  - intros E%Qeq_alt. by apply Qcompare_comp.
  - rewrite <- !Qlt_alt. apply Qlt_trans.
Qed.

Lemma string_total : total_cmp String.compare.
Proof.
  constructor; intros x y.
  - apply String.compare_antisym.
  - by intros z ->%String.compare_eq_iff.
  - intros z Exy Eyz. assert (HL : String.le x z) by (transitivity y; unfold String.le, String.leb; rewrite ?Exy, ?Eyz; done).
    unfold String.le, String.leb in HL. destruct (String.compare x z) eqn:E; [|done|done].
    apply String.compare_eq_iff in E as ->. rewrite String.compare_antisym, Exy in Eyz. done.
Qed.

(** ** The order *)

Section order.
Context {Sel : Type}.
Implicit Types (r : rule Sel).

Lemma rule_cmp_total : total_cmp (rule_cmp (Sel := Sel)).
Proof.
  apply (lex_total (λ r1 r2, Tier (pe r1) ?= Tier (pe r2)) (lex_cmp (λ r1 r2, compare_prio (Priority (pe r1)) (Priority (pe r2)))
    (lex_cmp (λ r1 r2, String.compare (rk_resource (r_key r1)) (rk_resource (r_key r2))) (λ r1 r2, rk_idx (r_key r1) ?= rk_idx (r_key r2))))).
  - apply (map_total _ _ Z_total).
  - apply lex_total; [apply (map_total _ _ Q_total)|]. apply lex_total; [apply (map_total _ _ string_total)|apply (map_total _ _ Z_total)].
Qed.

#[export] Instance rule_order_total : Total (rule_order (Sel := Sel)).
Proof.
  intros r1 r2. unfold rule_order. rewrite (tc_sym _ rule_cmp_total r1 r2). destruct (rule_cmp r1 r2); cbn; [left|left|right]; done.
Qed.

#[export] Instance rule_order_trans : Transitive (rule_order (Sel := Sel)).
Proof.
  destruct rule_cmp_total as [S E T]. intros x y z. unfold rule_order. destruct (rule_cmp x y) eqn:Exy; [|destruct (rule_cmp y z) eqn:Eyz|done].
  - by rewrite (E _ _ z Exy).
  - assert (EL : rule_cmp x z = Lt); [|by rewrite EL]. rewrite (S z x), (E z y x); [by rewrite (S x y), Exy|]. by rewrite (S y z), Eyz.
  - by rewrite (T x y z).
  - done.
Qed.

(** Rules that compare equal have the same key. *)
Lemma rule_cmp_key r1 r2 : rule_order r1 r2 → rule_order r2 r1 → r_key r1 = r_key r2.
Proof.
  unfold rule_order. rewrite (tc_sym _ rule_cmp_total r1 r2). destruct (rule_cmp r1 r2) eqn:E; try done. intros _ _. revert E. unfold rule_cmp.
  destruct (_ ?= _); try done. destruct (compare_prio _ _); try done. destruct (String.compare _ _) eqn:Es; try done.
  intros Ei%Z.compare_eq_iff. apply String.compare_eq_iff in Es. destruct (r_key r1), (r_key r2). by cbn in *; subst.
Qed.

(** The order refines the one that the resolution of policies needs. *)
Lemma rule_order_le r1 r2 : rule_order r1 r2 → rule_le (pe r1) (pe r2).
Proof.
  unfold rule_order, rule_cmp, rule_le. destruct (Z.compare_spec (Tier (pe r1)) (Tier (pe r2))) as [Et|Et|Et]; [|by left|done].
  intros HO. right. split; [done|]. unfold compare_prio in HO. apply Qle_alt. intros Eg. by rewrite Eg in HO.
Qed.

Context {GS : GoSort}.

Lemma sort_perm (l : list (rule Sel)) : ruleSlice_sort l ≡ₚ l.
Proof. apply sort_by_perm. Qed.

Lemma sort_sorted (l : list (rule Sel)) : StronglySorted rule_order (ruleSlice_sort l).
Proof. unfold ruleSlice_sort. apply (sort_by_sorted rule_order). Qed.

(** The sorted rules of an identity do not depend on the order in which the rules were
    collected from the repository's maps: rules with different keys have one sorted order. *)
Theorem rule_sort_deterministic (l l' : list (rule Sel)) : (∀ r1 r2, r1 ∈ l → r2 ∈ l → r_key r1 = r_key r2 → r1 = r2) → l ≡ₚ l' →
  ruleSlice_sort l = ruleSlice_sort l'.
Proof.
  intros HK HP. apply (StronglySorted_unique_strong rule_order); [|apply sort_sorted|apply sort_sorted|by rewrite !sort_perm].
  intros r1 r2. rewrite !sort_perm, <- HP. intros H1 H2 H12 H21. apply HK; [done|done|]. by apply rule_cmp_key.
Qed.
End order.

(** ** Example *)

Definition demo_rule (resource : string) (priority : Q) : rule unit :=
  mkRule (mkSubjectEntry (order_entry 200 priority Allow resource) tt false) (mkRuleKey resource 0) 0 None.

Lemma rule_sort_deterministic_witness :
  ruleSlice_sort (GS := sort_merge) [demo_rule "b" 1; demo_rule "a" 1; demo_rule "c" 0] =
  ruleSlice_sort (GS := sort_merge) [demo_rule "a" 1; demo_rule "c" 0; demo_rule "b" 1].
Proof.
  apply (rule_sort_deterministic (GS := sort_merge)).
  - intros r1 r2. rewrite !elem_of_cons, !elem_of_nil. intros [->|[->|[->|[]]]] [->|[->|[->|[]]]]; done.
  - apply (Permutation_cons_append [demo_rule "a" 1; demo_rule "c" 0]).
Defined.
