(* ===== verification/RepositoryInv.v ===== *)
(** * Invariants of the policy repository

    The indices of the repository ([src/pkg/policy/repository.go]) are exact, and every rule
    holds the cached selector of its subject, through additions and replacements of rules. *)

From Stdlib Require Import QArith.
From S2P Require Import Prelude Text Identity PolicyRule L4Filter Labels Selectors.
From S2P Require Import SelectorCache SelectorCacheInv SelectorCacheUpdate SelectorCacheSpec SelectorCacheHistory Repository.

Local Open Scope Z_scope.

(** ** Cached selectors *)

Section subjects.
Context {GR : GoRange} {GS : GoSort} {Sel : Type} {CS : CacheSelector Sel}.
Implicit Types (sc : SelectorCache Sel Z) (sp : spec Sel Z) (r : rule Sel) (R : list (rule Sel)) (e : subjectEntry Sel).

(** The selector that stands for a subject in the cache. *)
Definition cached_subject e : Sel := if cs_IsWildcard (Subject e) then cs_WildcardSelector else Subject e.

Lemma cached_subject_one e : cached_selectors [Subject e] = [cached_subject e].
Proof. unfold cached_selectors, cached_subject. cbn. rewrite orb_false_r. by destruct (cs_IsWildcard _). Qed.

Lemma cached_subject_matches e lbls : cs_Matches (cached_subject e) lbls = cs_Matches (Subject e) lbls.
Proof.
  unfold cached_subject. destruct (cs_IsWildcard (Subject e)) eqn:E; [|done].
  rewrite (cs_wildcard _ _ E). apply cs_wildcard, cs_WildcardSelector_wildcard.
Qed.

Definition sub_key r : string := cs_Key (cached_subject (r_entry r)).

Definition users_of sp key : gset Z := from_option snd ∅ (sp_selectors sp !! key).

(** The rules [R] hold the cached selectors of their subjects, and nobody else does. *)
Record holds sp sc R : Prop := {
  ho_refines : refines sp sc;
  ho_synced : synced sc;
  ho_selector key sel users : sp_selectors sp !! key = Some (sel, users) → cs_Key sel = key;
  ho_users key u : u ∈ users_of sp key ↔ ∃ r, r ∈ R ∧ sub_key r = key ∧ r_ptr r = u;
  ho_id r : r ∈ R → ∃ id, subjectSelector r = Some id ∧ selectors sc !! sub_key r = Some id;
  ho_ptr : NoDup (map r_ptr R);
}.

Lemma holds_perm sp sc R R' : R ≡ₚ R' → holds sp sc R → holds sp sc R'.
Proof.
  intros HP [H1 H2 H3 H4 H5 H6]. constructor; [done..| | |].
  - intros key u. rewrite H4. by setoid_rewrite HP.
  - intros r Hr. apply H5. by rewrite HP.
  - by rewrite <- HP.
Qed.

(** The identifier of the added selector; those of the others stay. *)
Lemma add_selectors ptr (s : Sel) sc : let x := addSelectorTxn false ptr (sc, [], false) s in
  lastSelectorId sc + 1 < 2 ^ 64 → sc_inv sc →
  (∃ id, x.1.2 = [id] ∧ selectors x.1.1 !! cs_Key s = Some id) ∧ ∀ key i, selectors sc !! key = Some i → selectors x.1.1 !! key = Some i.
Proof.
  cbv zeta. intros HL I. unfold addSelectorTxn. destruct (selectors sc !! cs_Key s) as [id|] eqn:Ek.
  - pose proof (addUser_frame false id ptr sc) as (_ & HS & _). destruct (addUser _ _ _ _) as [sc' new]. cbn [fst snd] in *. rewrite HS.
    split; [by exists id|done].
  - destruct (addSelector_inv (cs_Key s) s sc I Ek HL) as (_ & _ & _ & _ & Es). destruct (addSelectorLocked _ _ _) as [sc1 id]. cbn [fst snd] in *.
    pose proof (addUser_frame false id ptr sc1) as (_ & HS & _). destruct (addUser _ _ _ _) as [sc' new]. cbn [fst snd] in *. rewrite HS, Es.
    split; [exists id; by rewrite lookup_insert_eq|]. intros key i Hk. rewrite lookup_insert_ne; [done|]. congruence.
Qed.

Lemma users_add sp ids ptr (s : Sel) key u : u ∈ users_of (mkSpec ids (spec_add ptr (sp_selectors sp) s)) key ↔
  u ∈ users_of sp key ∨ key = cs_Key s ∧ u = ptr.
Proof.
  unfold users_of, spec_add. cbn. destruct (sp_selectors sp !! cs_Key s) as [[src users]|] eqn:Es; destruct (decide (key = cs_Key s)) as [->|Hne].
  - rewrite lookup_insert_eq, Es. cbn. rewrite elem_of_union, elem_of_singleton. tauto.
  - rewrite lookup_insert_ne by done. tauto.
  - rewrite lookup_insert_eq, Es. cbn. rewrite elem_of_singleton. set_solver.
  - rewrite lookup_insert_ne by done. tauto.
Qed.

(** A new rule holds its selector. *)
Lemma holds_new sp sc R e k ptr : holds sp sc R → ptr ∉ map r_ptr R → lastSelectorId sc + 1 < 2 ^ 64 →
  let x := AddSelectors false ptr [Subject e] sc in
  holds (mkSpec (sp_ids sp) (spec_add ptr (sp_selectors sp) (cached_subject e))) x.1.1 (mkRule e k ptr (head x.1.2) :: R) ∧
  lastSelectorId x.1.1 ≤ lastSelectorId sc + 1.
Proof.
  intros [H1 H2 H3 H4 H5 H6] Hp HL. cbv zeta. unfold AddSelectors, addSelectorsTxn. rewrite cached_subject_one. cbn [foldl].
  destruct (add_refines false sp sc ptr [] false (cached_subject e) H1 HL) as [R' HL'].
  destruct (add_selectors ptr (cached_subject e) sc HL (re_inv _ _ H1)) as [(id & Ec & Eid) HI].
  destruct (addSelectorTxn _ _ _ _) as [[sc' css] b]. cbn [fst snd] in *. subst css. split; [|done]. constructor.
  - by apply commit_refines.
  - done.
  - intros key sel users. cbn. unfold spec_add. destruct (sp_selectors sp !! cs_Key (cached_subject e)) as [[src us]|] eqn:Es.
    + intros [[<- [= <- <-]]|[_ Hk]]%lookup_insert_Some; [by apply (H3 _ src us)|by apply (H3 key sel users)].
    + intros [[<- [= <- <-]]|[_ Hk]]%lookup_insert_Some; [done|by apply (H3 key sel users)].
  - intros key u. rewrite users_add, H4. setoid_rewrite elem_of_cons. split.
    + intros [(r & Hr & Hk & Hu)|[-> ->]]; [exists r; by split; [right|]|eexists; split; [by left|done]].
    + intros (r & [->|Hr] & Hk & Hu); [by right|left; by exists r].
  - intros r [->|Hr]%elem_of_cons.
    + exists id. split; [done|]. cbn. done.
    + destruct (H5 r Hr) as (i & Hi & Hs). exists i. split; [done|]. cbn. by apply HI.
  - cbn [map]. by apply NoDup_cons.
Qed.

(** A released rule holds its selector no more. *)
Lemma remove_selectors ptr sc key k i : selectors sc !! k = Some i → 
  selectors (removeSelectorLocked false ptr sc key) !! k = Some i ∨ selectors (removeSelectorLocked false ptr sc key) !! k = None.
Proof.
  intros Hk. unfold removeSelectorLocked. destruct (selectors sc !! key) as [id|] eqn:Ek; [|by left].
  pose proof (removeUser_selectors false id ptr sc) as ES. destruct (removeUser _ _ _ _) as [sc1 lst]. cbn [fst] in *.
  destruct lst; [|left; by rewrite ES]. destruct (objects sc1 !! id) as [o|]; [|left; by rewrite ES]. cbn. rewrite ES.
  destruct (decide (k = key)) as [->|]; [right; apply lookup_delete_eq|left; by rewrite lookup_delete_ne].
Qed.

Lemma users_remove sp ids ptr key k u : u ∈ users_of (mkSpec ids (spec_remove ptr (sp_selectors sp) key)) k ↔
  u ∈ users_of sp k ∧ ¬ (k = key ∧ u = ptr).
Proof.
  unfold users_of, spec_remove. cbn. destruct (sp_selectors sp !! key) as [[src users]|] eqn:Es.
  - case_bool_decide as Hu; [case_bool_decide as He|].
    + destruct (decide (k = key)) as [->|]; [rewrite lookup_delete_eq, Es; cbn; set_solver|]. rewrite lookup_delete_ne by done. tauto.
    + destruct (decide (k = key)) as [->|]; [rewrite lookup_insert_eq, Es; cbn; set_solver|]. rewrite lookup_insert_ne by done. tauto.
    + split; [|tauto]. intros Hk. split; [done|]. intros [-> ->]. rewrite Es in Hk. done.
  - split; [|tauto]. intros Hk. split; [done|]. intros [-> ->]. rewrite Es in Hk. cbn in Hk. set_solver.
Qed.

Lemma holds_release sp sc r R : holds sp sc (r :: R) →
  ∃ id o, subjectSelector r = Some id ∧ objects sc !! id = Some o ∧
    holds (mkSpec (sp_ids sp) (spec_remove (r_ptr r) (sp_selectors sp) (sub_key r))) (RemoveSelector false (r_ptr r) (is_key o) sc) R ∧
    lastSelectorId (RemoveSelector false (r_ptr r) (is_key o) sc) = lastSelectorId sc.
Proof.
  intros [H1 H2 H3 H4 H5 H6]. destruct (H5 r) as (id & Hi & Hs); [by left|].
  destruct (sci_key _ (re_inv _ _ H1) _ _ Hs) as (o & Ho & Eo). exists id, o. split; [done|]. split; [done|]. rewrite Eo. unfold RemoveSelector.
  destruct (remove_refines false sp sc (r_ptr r) (sub_key r) H1) as [R' HL].
  cbn [map] in H6. apply NoDup_cons in H6 as [Hp H6]. split; [|exact HL]. constructor.
  - by apply commit_refines.
  - done.
  - intros key sel users. cbn. unfold spec_remove. destruct (sp_selectors sp !! sub_key r) as [[src us]|] eqn:Es; [|apply H3].
    case_bool_decide; [|apply H3]. case_bool_decide; [intros [_ Hk]%lookup_delete_Some; by apply (H3 key sel users)|].
    intros [[<- [= <- <-]]|[_ Hk]]%lookup_insert_Some; [by apply (H3 _ src us)|by apply (H3 key sel users)].
  - intros key u. rewrite users_remove, H4. setoid_rewrite elem_of_cons. split.
    + intros [(r' & [->|Hr] & Hk & Hu) Hn]; [by destruct Hn|by exists r'].
    + intros (r' & Hr & Hk & Hu). split; [exists r'; by split; [right|]|]. intros [_ ->]. apply Hp. rewrite <- Hu. apply list_elem_of_fmap. by exists r'.
  - intros r' Hr. destruct (H5 r') as (i & Hi' & Hs'); [by right|]. exists i. split; [done|].
    destruct (remove_selectors (r_ptr r) sc (sub_key r) _ _ Hs') as [?|Hn]; [done|exfalso].
    pose proof (re_selectors _ _ R' (sub_key r')) as HV. rewrite (view_None _ _ Hn) in HV.
    assert (HU : r_ptr r' ∈ users_of (mkSpec (sp_ids sp) (spec_remove (r_ptr r) (sp_selectors sp) (sub_key r))) (sub_key r')).
    { apply users_remove. split; [apply H4; exists r'; by split; [right|]|]. intros [_ E]. apply Hp. rewrite <- E. apply list_elem_of_fmap. by exists r'. }
    unfold users_of in HU. rewrite <- HV in HU. cbn in HU. set_solver.
  - done.
Qed.

Lemma holds_identities sp sc R added deleted : holds sp sc R → labels_kept (sp_ids sp) added deleted →
  holds (spec_run (OUpdate added deleted) sp) (UpdateIdentities added deleted sc).1 R ∧
  lastSelectorId (UpdateIdentities added deleted sc).1 = lastSelectorId sc.
Proof.
  intros [H1 H2 H3 H4 H5 H6] HL. destruct (update_refines sp sc added deleted H1 HL) as [HU R']. split; [|apply HU].
  constructor; [done|by apply (up_synced _ _ _ HU)|exact H3|exact H4| |done]. intros r Hr. rewrite (up_selectors _ _ _ HU). by apply H5.
Qed.

(** Selectors with the same key match alike. *)
Context (KM : ∀ (s s' : Sel) lbls, cs_Key s = cs_Key s' → cs_Matches s lbls = cs_Matches s' lbls).

(** The identities a subject stands for. *)
Definition subject_of sp e nid : Prop :=
  if Node e then nid = ReservedIdentityHost else ∃ lbls, sp_ids sp !! nid = Some lbls ∧ cs_Matches (Subject e) lbls = true.

(** The selections of a rule's subject. *)
Lemma holds_selections sp sc R r : holds sp sc R → r ∈ R →
  ∃ id, subjectSelector r = Some id ∧
    (∀ nid, nid ∈ GetSelections sc id ↔ ∃ lbls, sp_ids sp !! nid = Some lbls ∧ cs_Matches (Subject (r_entry r)) lbls = true) ∧
    ∀ wildcard nid, Selects wildcard sc id nid = bool_decide (sub_key r = wildcard) || bool_decide (nid ∈ GetSelections sc id).
Proof.
  intros [H1 H2 H3 H4 H5 H6] Hr. destruct (H5 r Hr) as (id & Hi & Hs). exists id. split; [done|].
  destruct (view_Some sc _ id (re_inv _ _ H1) Hs) as (o & Ho & Ek & EV). rewrite (re_selectors _ _ H1) in EV.
  destruct (synced_selections sp sc _ _ _ H1 H2 EV) as (id' & Hs' & EG & EQ). assert (id' = id) as -> by congruence. rewrite EG. split.
  - intros nid. rewrite elem_of_sorted_ids. unfold spec_selects. rewrite elem_of_dom. unfold is_Some. setoid_rewrite map_lookup_filter_Some. cbn [snd].
    assert (HK : ∀ lbls, cs_Matches (is_source o) lbls = cs_Matches (Subject (r_entry r)) lbls).
    { intros lbls. rewrite <- cached_subject_matches. apply KM. by apply (H3 _ _ _ EV). }
    by setoid_rewrite HK.
  - intros wildcard nid. rewrite EQ. f_equal. apply bool_decide_ext. by rewrite elem_of_sorted_ids.
Qed.
End subjects.

(** ** The repository *)

Section repository.
Context {GR : GoRange} {GS : GoSort} {Sel : Type} {CS : CacheSelector Sel} {SK : SelectorKeys}.
Implicit Types (sp : spec Sel Z) (p : Repository Sel) (r : rule Sel) (X : list (rule Sel)) (e : subjectEntry Sel) (k : ruleKey).

(** The indices are exact; the rules and those of [X], which are about to be released, hold
    their selectors. *)
Record repo_inv sp X p : Prop := {
  ri_holds : holds sp (subjectSelectorCache p) (X ++ map snd (map_to_list (repo_rules p)));
  ri_key k r : repo_rules p !! k = Some r → r_key r = k;
  ri_namespace ns k : k ∈ default ∅ (rulesByNamespace p !! ns) ↔ is_Some (repo_rules p !! k) ∧ Namespace (rk_resource k) = ns;
  ri_resource rid k : default ∅ (rulesByResource p !! rid) !! k =
    if bool_decide (rk_resource k = rid ∧ rid ≠ EmptyString) then repo_rules p !! k else None;
  ri_ptr r : r ∈ X ++ map snd (map_to_list (repo_rules p)) → r_ptr r < next_ptr p;
}.

Lemma repo_rule_held sp X p k r : repo_inv sp X p → repo_rules p !! k = Some r → r ∈ X ++ map snd (map_to_list (repo_rules p)).
Proof.
  intros I Hk. apply elem_of_app. right. apply list_elem_of_fmap. exists (k, r). split; [done|]. by apply elem_of_map_to_list.
Qed.

(** *** Deletion *)

Lemma del_resource k rid rid' k' (m : gmap string (gmap ruleKey (rule Sel))) :
  default ∅ (match m !! rid with
             | Some rs => if bool_decide (rid ≠ EmptyString) then
                            let rs := delete k rs in if bool_decide (rs = ∅) then delete rid m else <[rid := rs]> m
                          else m
             | None => m
             end !! rid') !! k' =
  if bool_decide (rid ≠ EmptyString ∧ rid' = rid ∧ k' = k) then None else default ∅ (m !! rid') !! k'.
Proof.
  destruct (decide (rid = EmptyString)) as [Hr|Hr].
  { rewrite (bool_decide_eq_false_2 (rid ≠ _)), (bool_decide_eq_false_2 (rid ≠ _ ∧ _)) by tauto. by destruct (m !! rid). }
  destruct (m !! rid) as [rs|] eqn:Em.
  - rewrite (bool_decide_eq_true_2 (rid ≠ _)) by done. cbn zeta. assert (HD : delete k rs !! k' = if bool_decide (k' = k) then None else rs !! k').
    { destruct (decide (k' = k)) as [->|]; [by rewrite lookup_delete_eq, bool_decide_eq_true_2|by rewrite lookup_delete_ne, bool_decide_eq_false_2]. }
    destruct (decide (rid' = rid)) as [->|Hne].
    + assert (E : default ∅ ((if bool_decide (delete k rs = ∅) then delete rid m else <[rid:=delete k rs]> m) !! rid) !! k' = delete k rs !! k').
      { destruct (bool_decide_reflect (delete k rs = ∅)) as [He|]; [by rewrite lookup_delete_eq, He|]. by rewrite lookup_insert_eq. }
      rewrite E, HD, Em. cbn. apply if_decide_ext. tauto.
    + rewrite (bool_decide_eq_false_2 (_ ∧ rid' = rid ∧ _)) by tauto. clear HD. case_bool_decide; [by rewrite lookup_delete_ne|by rewrite lookup_insert_ne].
  - destruct (bool_decide_reflect (rid ≠ EmptyString ∧ rid' = rid ∧ k' = k)) as [(_ & -> & ->)|]; [by rewrite Em|done].
Qed.

Lemma del_inv sp X p k r : repo_inv sp X p → repo_rules p !! k = Some r → repo_inv sp (r :: X) (repo_del p k).
Proof.
  intros I Hk. pose proof I as [I1 I2 I3 I4 I5]. pose proof (I2 k r Hk) as Ek. unfold repo_del. rewrite Hk, Ek.
  assert (HP : (r :: X) ++ map snd (map_to_list (delete k (repo_rules p))) ≡ₚ X ++ map snd (map_to_list (repo_rules p))).
  { rewrite <- (map_to_list_delete _ _ _ Hk). cbn. by rewrite Permutation_middle. }
  constructor; cbn [repo_rules rulesByNamespace rulesByResource subjectSelectorCache next_ptr set_rules].
  - by apply (holds_perm _ _ (X ++ map snd (map_to_list (repo_rules p)))).
  - intros k' r' [_ Hk']%lookup_delete_Some. by apply I2.
  - intros ns k'. set (s := default ∅ _ ∖ _). assert (E : k' ∈ default ∅ ((if bool_decide (s = ∅) then delete (Namespace (rk_resource k)) (rulesByNamespace p)
      else <[Namespace (rk_resource k) := s]> (rulesByNamespace p)) !! ns) ↔ k' ∈ default ∅ (rulesByNamespace p !! ns) ∧ k' ≠ k).
    { destruct (decide (ns = Namespace (rk_resource k))) as [->|Hne].
      - assert (Hs : k' ∈ s ↔ k' ∈ default ∅ (rulesByNamespace p !! Namespace (rk_resource k)) ∧ k' ≠ k)
          by (unfold s; by rewrite elem_of_difference, elem_of_singleton).
        rewrite <- Hs. case_bool_decide as He; [by rewrite lookup_delete_eq, He|by rewrite lookup_insert_eq].
      - assert (Hn : k' ∈ default ∅ (rulesByNamespace p !! ns) → k' ≠ k) by (intros [_ Hn]%I3 ->; by destruct Hne).
        case_bool_decide; [rewrite lookup_delete_ne by done|rewrite lookup_insert_ne by done]; tauto. }
    rewrite E, I3, lookup_delete_is_Some. naive_solver.
  - intros rid k'. rewrite del_resource, I4. destruct (decide (k' = k)) as [->|Hne].
    + rewrite lookup_delete_eq. destruct (bool_decide_reflect (rk_resource k = rid ∧ rid ≠ EmptyString)) as [[<- Hr]|]; [|by case_bool_decide].
      by rewrite bool_decide_eq_true_2.
    + rewrite lookup_delete_ne by done. rewrite (bool_decide_eq_false_2 (_ ∧ _ ∧ k' = k)) by tauto. done.
  - intros r' Hr. apply I5. by rewrite <- HP.
Qed.

(** *** Insertion *)

Definition add_rule e k p : Repository Sel * rule Sel := let '(p, r) := newRule e k p in (repo_insert r p, r).

Lemma insert_namespace k ns k' (m : gmap string (gset ruleKey)) :
  k' ∈ default ∅ (<[Namespace (rk_resource k) := {[ k ]} ∪ default ∅ (m !! Namespace (rk_resource k))]> m !! ns) ↔
  k' ∈ default ∅ (m !! ns) ∨ k' = k ∧ Namespace (rk_resource k) = ns.
Proof.
  destruct (decide (ns = Namespace (rk_resource k))) as [->|Hne].
  - rewrite lookup_insert_eq. cbn. rewrite elem_of_union, elem_of_singleton. tauto.
  - rewrite lookup_insert_ne by done. naive_solver.
Qed.

Lemma insert_resource k r rid k' (m : gmap string (gmap ruleKey (rule Sel))) :
  default ∅ ((if bool_decide (rk_resource k ≠ EmptyString) then <[rk_resource k := <[k := r]> (default ∅ (m !! rk_resource k))]> m else m) !! rid) !! k' =
  if bool_decide (rid ≠ EmptyString ∧ rk_resource k = rid ∧ k' = k) then Some r else default ∅ (m !! rid) !! k'.
Proof.
  destruct (bool_decide_reflect (rk_resource k ≠ EmptyString)) as [Hr|Hr].
  - destruct (decide (rid = rk_resource k)) as [->|Hne].
    + rewrite lookup_insert_eq. cbn. destruct (decide (k' = k)) as [->|]; [by rewrite lookup_insert_eq, bool_decide_eq_true_2|].
      rewrite lookup_insert_ne by done. by rewrite bool_decide_eq_false_2 by tauto.
    + rewrite lookup_insert_ne by done. by rewrite bool_decide_eq_false_2 by naive_solver.
  - rewrite bool_decide_eq_false_2; [done|]. intros (H1 & H2 & _). apply Hr. by rewrite H2.
Qed.

Lemma add_rule_inv sp X p e k : repo_inv sp X p → repo_rules p !! k = None → lastSelectorId (subjectSelectorCache p) + 1 < 2 ^ 64 →
  let x := add_rule e k p in
  ∃ sp', repo_inv sp' X x.1 ∧ sp_ids sp' = sp_ids sp ∧ r_entry x.2 = e ∧ repo_rules x.1 = <[k := x.2]> (repo_rules p) ∧
    lastSelectorId (subjectSelectorCache x.1) ≤ lastSelectorId (subjectSelectorCache p) + 1 ∧ nextID x.1 = nextID p.
Proof.
  intros [I1 I2 I3 I4 I5] Hk HL. cbv zeta. unfold add_rule, newRule.
  destruct (holds_new sp (subjectSelectorCache p) _ e k (next_ptr p) I1) as [HH HL']; [|done|].
  { intros (r & E & Hr)%list_elem_of_fmap. specialize (I5 r Hr). lia. }
  destruct (AddSelectors false (next_ptr p) [Subject e] (subjectSelectorCache p)) as [[sc css] b]. cbn [fst snd] in *.
  set (r := mkRule e k (next_ptr p) (head css)) in *.
  assert (HP : r :: X ++ map snd (map_to_list (repo_rules p)) ≡ₚ X ++ map snd (map_to_list (<[k := r]> (repo_rules p)))).
  { rewrite (map_to_list_insert _ _ _ Hk). cbn. by rewrite Permutation_middle. }
  exists (mkSpec (sp_ids sp) (spec_add (next_ptr p) (sp_selectors sp) (cached_subject e))). split_and!; [|done..].
  constructor; cbn [repo_rules rulesByNamespace rulesByResource subjectSelectorCache next_ptr set_rules repo_insert];
    change (r_key r) with k.
  - apply (holds_perm _ _ _ _ HP). exact HH.
  - intros k' r' [[<- <-]|[_ Hk']]%lookup_insert_Some; [done|by apply I2].
  - intros ns k'. rewrite insert_namespace, I3, lookup_insert_is_Some. destruct (decide (k = k')) as [->|]; naive_solver.
  - intros rid k'. rewrite insert_resource, I4. destruct (decide (k' = k)) as [->|Hne].
    + rewrite lookup_insert_eq. destruct (bool_decide_reflect (rk_resource k = rid ∧ rid ≠ EmptyString)) as [[<- Hr]|Hr]; [by rewrite bool_decide_eq_true_2|].
      rewrite bool_decide_eq_false_2; [done|]. intros (? & ? & _). by apply Hr.
    + rewrite lookup_insert_ne by done. by rewrite (bool_decide_eq_false_2 (_ ∧ _ ∧ k' = k)) by tauto.
  - intros r' Hr. rewrite <- HP in Hr. apply elem_of_cons in Hr as [->|Hr]; [cbn; lia|]. specialize (I5 r' Hr). lia.
Qed.

(** *** Release *)

Lemma release_inv sp X p r : repo_inv sp (r :: X) p →
  ∃ sp', repo_inv sp' X (releaseRule p r) ∧ sp_ids sp' = sp_ids sp ∧ repo_rules (releaseRule p r) = repo_rules p ∧
    lastSelectorId (subjectSelectorCache (releaseRule p r)) = lastSelectorId (subjectSelectorCache p) ∧ nextID (releaseRule p r) = nextID p.
Proof.
  intros [I1 I2 I3 I4 I5]. destruct (holds_release sp _ r _ I1) as (id & o & Hi & Ho & HH & HL). unfold releaseRule. rewrite Hi, Ho.
  exists (mkSpec (sp_ids sp) (spec_remove (r_ptr r) (sp_selectors sp) (sub_key r))). split_and!; [|done..]. constructor; [exact HH|done..|]. intros r' Hr. apply I5. by right.
Qed.

Lemma bump_inv sp X p : repo_inv sp X p → repo_inv sp X (BumpRevision p).
Proof. intros [I1 I2 I3 I4 I5]. by constructor. Qed.

Lemma repo_inv_perm sp X X' p : X ≡ₚ X' → repo_inv sp X p → repo_inv sp X' p.
Proof.
  intros HP [I1 I2 I3 I4 I5]. constructor; [by apply (holds_perm _ _ _ _ (Permutation_app_tail _ HP))|done..|]. intros r. rewrite <- HP. apply I5.
Qed.

(** *** Replacement *)

Context (KM : ∀ (s s' : Sel) lbls, cs_Key s = cs_Key s' → cs_Matches s lbls = cs_Matches s' lbls).

(** The entries of the rules. *)
Definition entries_of p : gmap ruleKey (subjectEntry Sel) := r_entry <$> repo_rules p.

Lemma getSubjects_spec sp X p r nid : repo_inv sp X p → r ∈ X ++ map snd (map_to_list (repo_rules p)) →
  nid ∈ getSubjects p r ↔ subject_of sp (r_entry r) nid.
Proof.
  intros I Hr. unfold getSubjects, subject_of. destruct (Node (r_entry r)); [apply list_elem_of_singleton|].
  destruct (holds_selections KM sp _ _ r (ri_holds _ _ _ I) Hr) as (id & -> & HG & _). apply HG.
Qed.

(** The rules that are replaced. *)
Lemma replace_old_spec sp old l : ∀ X p (A : gset Z), repo_inv sp X p → NoDup l → (∀ k, k ∈ l → ∃ r, old !! k = Some r ∧ repo_rules p !! k = Some r) →
  let x := foldl (replace_old old) (p, A) l in
  repo_inv sp (reverse (omap (λ k, old !! k) l) ++ X) x.1 ∧ repo_rules x.1 = filter (λ y, y.1 ∉ l) (repo_rules p) ∧
  subjectSelectorCache x.1 = subjectSelectorCache p ∧ nextID x.1 = nextID p ∧
  ∀ nid, nid ∈ x.2 ↔ nid ∈ A ∨ ∃ k r, k ∈ l ∧ old !! k = Some r ∧ subject_of sp (r_entry r) nid.
Proof.
  induction l as [|k l IH]; intros X p A I HN HL; cbv zeta; cbn [foldl omap list_omap reverse].
  - split_and!; [done| |done|done|].
    + symmetry. apply map_filter_id. intros ? ? _. apply not_elem_of_nil.
    + intros nid. split; [by left|]. by intros [?|(k & r & ?%elem_of_nil & _)].
  - apply NoDup_cons in HN as [Hk HN]. destruct (HL k) as (r & Ho & Hr); [by left|]. unfold replace_old at 2 4 6 8 10. rewrite Ho.
    pose proof (del_inv sp X p k r I Hr) as I'. assert (EC : subjectSelectorCache (repo_del p k) = subjectSelectorCache p) by (unfold repo_del; by rewrite Hr).
    assert (EN : nextID (repo_del p k) = nextID p) by (unfold repo_del; by rewrite Hr).
    assert (ER : repo_rules (repo_del p k) = delete k (repo_rules p)) by (unfold repo_del; by rewrite Hr).
    destruct (IH (r :: X) (repo_del p k) (A ∪ list_to_set (getSubjects p r)) I' HN) as (J1 & J2 & J3 & J4 & J5).
    { intros k' Hk'. destruct (HL k') as (r' & ? & ?); [by right|]. exists r'. split; [done|]. rewrite ER, lookup_delete_ne; [done|]. intros <-. done. }
    split_and!.
    + rewrite reverse_cons, <- app_assoc. done.
    + rewrite J2, ER. apply map_eq. intros k'. apply option_eq. intros y. rewrite !map_lookup_filter_Some, lookup_delete_Some. cbn.
      rewrite elem_of_cons. naive_solver.
    + by rewrite J3.
    + by rewrite J4.
    + intros nid. rewrite J5, elem_of_union, elem_of_list_to_set.
      rewrite (getSubjects_spec sp X p r nid I) by (by apply (repo_rule_held sp X p k)). setoid_rewrite elem_of_cons. split.
      * intros [[?|?]|(k' & r' & ? & ? & ?)]; [by left|right; exists k, r; split_and!; [by left|done..]|right; exists k', r'; split_and!; [by right|done..]].
      * intros [?|(k' & r' & [->|?] & ? & ?)]; [by left; left|left; right; congruence|right; by exists k', r'].
Qed.

(** The entries of a resource from an index on. *)
Fixpoint new_entries (resource : string) (i : Z) (entries : list (subjectEntry Sel)) : gmap ruleKey (subjectEntry Sel) :=
  match entries with
  | [] => ∅
  | e :: entries => <[mkRuleKey resource i := e]> (new_entries resource (i + 1) entries)
  end.

Lemma new_entries_fresh resource i entries k : rk_idx k < i → new_entries resource i entries !! k = None.
Proof.
  revert i. induction entries as [|e es IH]; intros i Hk; cbn; [done|]. rewrite lookup_insert_ne; [apply IH; lia|]. intros <-. cbn in Hk. lia.
Qed.

Lemma replace_new_spec resource entries : ∀ sp X p (A : gset Z) i, repo_inv sp X p →
  (∀ k, rk_resource k = resource → i ≤ rk_idx k → repo_rules p !! k = None) →
  lastSelectorId (subjectSelectorCache p) + Z.of_nat (length entries) < 2 ^ 64 →
  let x := foldl (replace_new resource) (p, A, i) entries in
  ∃ sp', repo_inv sp' X x.1.1 ∧ sp_ids sp' = sp_ids sp ∧ entries_of x.1.1 = new_entries resource i entries ∪ entries_of p ∧
    lastSelectorId (subjectSelectorCache x.1.1) ≤ lastSelectorId (subjectSelectorCache p) + Z.of_nat (length entries) ∧ nextID x.1.1 = nextID p ∧
    ∀ nid, nid ∈ x.1.2 ↔ nid ∈ A ∨ ∃ e, e ∈ entries ∧ subject_of sp e nid.
Proof.
  induction entries as [|e es IH]; intros sp X p A i I HF HL; cbv zeta; cbn [foldl length] in *.
  - exists sp. split_and!; [done|done|symmetry; apply (map_empty_union (M := gmap ruleKey))|cbn; lia|done|]. intros nid. split; [by left|]. by intros [?|(e & ?%elem_of_nil & _)].
  - destruct (add_rule_inv sp X p e (mkRuleKey resource i) I) as (sp1 & I1 & Ei & Ee & Er & El & En); [apply HF; [done|cbn; lia]|lia|].
    unfold replace_new at 2 4 6 8 10. unfold add_rule in *. destruct (newRule e _ p) as [p1 r]. cbn [fst snd] in *. set (p2 := repo_insert r p1) in *.
    destruct (IH sp1 X p2 (A ∪ list_to_set (getSubjects p2 r)) (i + 1) I1) as (sp2 & J1 & J2 & J3 & J4 & J5 & J6).
    { intros k Hk Hi. rewrite Er, lookup_insert_ne; [apply HF; [done|lia]|]. intros <-. cbn in Hi. lia. }
    { lia. }
    exists sp2. split_and!; [done|by rewrite J2| |lia|by rewrite J5|].
    + rewrite J3. unfold entries_of at 1. rewrite Er, fmap_insert, Ee. cbn [new_entries].
      rewrite <- insert_union_r by (apply new_entries_fresh; cbn; lia). by rewrite insert_union_l.
    + intros nid. rewrite J6, elem_of_union, elem_of_list_to_set.
      rewrite (getSubjects_spec sp1 X p2 r nid I1) by (apply (repo_rule_held sp1 X p2 (mkRuleKey resource i)); [done|by rewrite Er, lookup_insert_eq]).
      rewrite Ee. unfold subject_of. rewrite Ei. setoid_rewrite elem_of_cons. split.
      * intros [[?|?]|(e' & ? & ?)]; [by left|right; exists e; by split; [left|]|right; exists e'; by split; [right|]].
      * intros [?|(e' & [->|?] & ?)]; [by left; left|by left; right|right; by exists e'].
Qed.

(** The old rules are released. *)
Lemma release_all (old : gmap ruleKey (rule Sel)) l : ∀ sp X p, repo_inv sp (omap (λ k, old !! k) l ++ X) p →
  let p' := foldl (λ p k, match old !! k with Some r => releaseRule p r | None => p end) p l in
  ∃ sp', repo_inv sp' X p' ∧ sp_ids sp' = sp_ids sp ∧ repo_rules p' = repo_rules p ∧
    lastSelectorId (subjectSelectorCache p') = lastSelectorId (subjectSelectorCache p) ∧ nextID p' = nextID p.
Proof.
  induction l as [|k l IH]; intros sp X p I; cbv zeta; cbn [foldl]; [by exists sp|].
  cbn in I. destruct (old !! k) as [r|]; cbn in I; [|by apply (IH sp)].
  destruct (release_inv sp _ p r I) as (sp1 & I1 & E1 & E2 & E3 & E4). destruct (IH sp1 X _ I1) as (sp2 & I2 & F1 & F2 & F3 & F4).
  exists sp2. split_and!; [done|congruence..].
Qed.
End repository.
