(* ===== verification/RepositorySpec.v ===== *)
(** * The specification of the policy repository

    What the repository of [src/pkg/policy/repository.go] promises: it keeps the entries of
    every resource, a replacement reports all identities that the replaced or the new entries
    apply to, and the rules that are resolved for an identity are exactly those whose subject
    it is. *)

From Stdlib Require Import QArith.
From S2P Require Import Prelude Text Identity PolicyRule L4Filter Labels Selectors.
From S2P Require Import SelectorCache SelectorCacheInv SelectorCacheUpdate SelectorCacheSpec SelectorCacheHistory Repository RepositoryInv.

Local Open Scope Z_scope.

(** Selectors with the same key match alike, and the one with the wildcard's key matches all. *)
Class SubjectKeys (Sel : Type) `{CS : CacheSelector Sel} `{SK : SelectorKeys} := {
  key_matches : ∀ (s s' : Sel) lbls, cs_Key s = cs_Key s' → cs_Matches s lbls = cs_Matches s' lbls;
  wildcard_matches : ∀ (s : Sel) lbls, cs_Key s = wildcardSelectorKey → cs_Matches s lbls = true;
}.

Section spec.
Context {GR : GoRange} {GS : GoSort} {Sel : Type} {CS : CacheSelector Sel} {SK : SelectorKeys} {RK : RepositoryKeys Sel} {SU : SubjectKeys Sel}.
Implicit Types (sp : spec Sel Z) (p : Repository Sel) (r : rule Sel) (X : list (rule Sel)) (e : subjectEntry Sel) (k : ruleKey).

Notation subjects p := (subjectSelectorCache p).

(** ** Replacement *)

Lemma reset_inv sp X p resource : repo_inv sp X p → (∀ k, rk_resource k = resource → repo_rules p !! k = None) →
  repo_inv sp X (set_rules id id (insert resource ∅) p).
Proof.
  intros [I1 I2 I3 I4 I5] HR. constructor; [done..| |done]. cbn. intros rid k. destruct (decide (rid = resource)) as [->|Hne].
  - rewrite lookup_insert_eq. cbn. case_bool_decide as Hb; [|done]. destruct Hb as [Hb _]. by rewrite HR.
  - rewrite lookup_insert_ne by done. apply I4.
Qed.

Definition is_old (resource : string) p e : Prop := ∃ k, rk_resource k = resource ∧ entries_of p !! k = Some e.

Lemma replace_spec sp p entries resource : repo_inv sp [] p → resource ≠ EmptyString →
  lastSelectorId (subjects p) + Z.of_nat (length entries) < 2 ^ 64 →
  let x := ReplaceByResource entries resource p in
  ∃ sp', repo_inv sp' [] x.1.1 ∧ sp_ids sp' = sp_ids sp ∧
    entries_of x.1.1 = new_entries resource 0 entries ∪ filter (λ y, rk_resource y.1 ≠ resource) (entries_of p) ∧
    lastSelectorId (subjects x.1.1) ≤ lastSelectorId (subjects p) + Z.of_nat (length entries) ∧ nextID x.1.1 = nextID p ∧
    (∀ nid, nid ∈ x.1.2 ↔ ∃ e, (is_old resource p e ∨ e ∈ entries) ∧ subject_of sp e nid) ∧
    x.2 = Z.of_nat (size (filter (λ y, rk_resource y.1 = resource) (entries_of p))).
Proof.
  intros I Hres HL. cbv zeta. unfold ReplaceByResource. rewrite bool_decide_eq_false_2 by done.
  set (old := default ∅ (rulesByResource p !! resource)).
  assert (HO : ∀ k, old !! k = if bool_decide (rk_resource k = resource) then repo_rules p !! k else None).
  { intros k. unfold old. rewrite (ri_resource _ _ _ I). apply if_decide_ext. tauto. }
  destruct (replace_old_spec key_matches sp old (range (dom old)) [] p ∅ I (NoDup_range _)) as (I1 & E1 & C1 & N1 & A1).
  { intros k [r Hr]%elem_of_range%elem_of_dom. exists r. split; [done|]. rewrite HO in Hr. by case_bool_decide. }
  destruct (foldl (replace_old old) _ _) as [p1 A]. cbn [fst snd] in *.
  assert (EF : entries_of p1 = filter (λ y, rk_resource y.1 ≠ resource) (entries_of p)).
  { unfold entries_of. rewrite E1. apply map_eq. intros k. rewrite lookup_fmap. apply option_eq. intros e.
    rewrite map_lookup_filter_Some, lookup_fmap, !fmap_Some. split.
    - intros (r & [Hr Hn]%map_lookup_filter_Some & ->). split; [by exists r|]. cbn in *. intros Hk. apply Hn, elem_of_range, elem_of_dom.
      exists r. by rewrite HO, bool_decide_eq_true_2.
    - intros [(r & Hr & ->) Hn]. exists r. split; [|done]. apply map_lookup_filter_Some. split; [done|]. cbn in *. rewrite elem_of_range, not_elem_of_dom, HO.
      by rewrite bool_decide_eq_false_2. }
  assert (HN : ∀ k, rk_resource k = resource → repo_rules p1 !! k = None).
  { intros k Hk. assert (E : entries_of p1 !! k = None) by (rewrite EF; apply map_lookup_filter_None; right; naive_solver).
    unfold entries_of in E. rewrite lookup_fmap in E. by apply fmap_None in E. }
  assert (H2 : ∃ sp2, let x := if bool_decide (entries = []) then (p1, A, 0)
      else foldl (replace_new resource) (set_rules id id (insert resource ∅) p1, A, 0) entries in
    repo_inv sp2 (reverse (omap (λ k, old !! k) (range (dom old))) ++ []) x.1.1 ∧ sp_ids sp2 = sp_ids sp ∧
    entries_of x.1.1 = new_entries resource 0 entries ∪ entries_of p1 ∧
    lastSelectorId (subjects x.1.1) ≤ lastSelectorId (subjects p1) + Z.of_nat (length entries) ∧ nextID x.1.1 = nextID p1 ∧
    ∀ nid, nid ∈ x.1.2 ↔ nid ∈ A ∨ ∃ e, e ∈ entries ∧ subject_of sp e nid).
  { cbv zeta. case_bool_decide as He.
    - exists sp. subst entries. split_and!; [done|done|symmetry; apply (map_empty_union (M := gmap ruleKey))|cbn; lia|done|].
      intros nid. split; [by left|]. by intros [?|(e & ?%elem_of_nil & _)].
    - destruct (replace_new_spec key_matches resource entries sp _ (set_rules id id (insert resource ∅) p1) A 0 (reset_inv _ _ _ _ I1 HN)) as (sp2 & J);
        [intros k Hk _; by apply HN|by cbn; rewrite C1|]. exists sp2. apply J. }
  destruct H2 as (sp2 & J). cbv zeta in J. destruct (if bool_decide (entries = []) then _ else _) as [[p2 B] i].
  cbn [fst snd] in *. destruct J as (J1 & J2 & J3 & J4 & J5 & J6).
  destruct (release_all old (range (dom old)) sp2 [] p2) as (sp3 & K1 & K2 & K3 & K4 & K5).
  { apply (repo_inv_perm _ (reverse (omap (λ k, old !! k) (range (dom old))) ++ [])); [|done]. by rewrite !app_nil_r, reverse_Permutation. }
  exists sp3. split_and!.
  - by apply bump_inv.
  - by rewrite K2.
  - rewrite <- EF, <- J3. unfold entries_of. cbn. by rewrite K3.
  - cbn. rewrite K4, <- C1. exact J4.
  - cbn. by rewrite K5, J5.
  - intros nid. cbn [fst snd]. rewrite J6, A1. unfold is_old. split.
    + intros [[?|(k & r & Hk & Hr & Hs)]|(e & He & Hs)]; [set_solver| |exists e; by split; [right|]].
      exists (r_entry r). split; [|done]. left. exists k. rewrite HO in Hr. case_bool_decide as Hb; [|done]. split; [done|].
      unfold entries_of. by rewrite lookup_fmap, Hr.
    + intros (e & [(k & Hk & He)|He] & Hs); [|right; by exists e]. left. right. unfold entries_of in He. rewrite lookup_fmap, fmap_Some in He.
      destruct He as (r & Hr & ->). assert (Ho : old !! k = Some r) by (by rewrite HO, bool_decide_eq_true_2).
      exists k, r. split_and!; [apply elem_of_range, elem_of_dom; by exists r|done|done].
  - cbn [snd]. f_equal. rewrite <- (map_size_fmap r_entry old). f_equal. apply map_eq. intros k. unfold entries_of. rewrite lookup_fmap, HO. apply option_eq. intros e.
    rewrite map_lookup_filter_Some, lookup_fmap. cbn. case_bool_decide as Hb; [naive_solver|]. split; [done|]. by intros [_ ?].
Qed.

(** ** Additions *)

(** The keys of added rules are not used yet. *)
Definition next_ok p : Prop := 0 ≤ nextID p ∧ ∀ k, is_Some (entries_of p !! k) → rk_resource k = EmptyString → rk_idx k < nextID p.

Lemma entries_None p k : entries_of p !! k = None ↔ repo_rules p !! k = None.
Proof. unfold entries_of. by rewrite lookup_fmap, fmap_None. Qed.

Definition add_step (x : Repository Sel * list (rule Sel)) e : Repository Sel * list (rule Sel) :=
  let '(p, rules) := x in
  let '(p, r) := newRule e (mkRuleKey EmptyString (nextID p)) p in
  let p := repo_insert r p in
  (mkRepository (repo_rules p) (rulesByNamespace p) (rulesByResource p) (uwrap 64 (nextID p + 1)) (revision p)
     (subjectSelectorCache p) (next_ptr p), rules ++ [r]).

Lemma addList_loop entries : ∀ sp p rs, repo_inv sp [] p → next_ok p → nextID p + Z.of_nat (length entries) < 2 ^ 64 →
  lastSelectorId (subjects p) + Z.of_nat (length entries) < 2 ^ 64 →
  let x := foldl add_step (p, rs) entries in
  ∃ sp', repo_inv sp' [] x.1 ∧ sp_ids sp' = sp_ids sp ∧ entries_of x.1 = new_entries EmptyString (nextID p) entries ∪ entries_of p ∧
    lastSelectorId (subjects x.1) ≤ lastSelectorId (subjects p) + Z.of_nat (length entries) ∧ nextID x.1 = nextID p + Z.of_nat (length entries) ∧ next_ok x.1.
Proof.
  induction entries as [|e es IH]; intros sp p rs I [N0 N1] HN HL; cbv zeta; cbn [foldl length] in *.
  - exists sp. split_and!; [done|done|symmetry; apply (map_empty_union (M := gmap ruleKey))|cbn; lia|cbn; lia|done].
  - set (k := mkRuleKey EmptyString (nextID p)).
    assert (Hk : repo_rules p !! k = None).
    { apply entries_None. destruct (entries_of p !! k) eqn:E; [|done]. specialize (N1 k ltac:(by rewrite E) eq_refl). cbn in N1. lia. }
    destruct (add_rule_inv sp [] p e k I Hk ltac:(lia)) as (sp1 & I1 & Ei & Ee & Er & El & En). unfold add_step at 2 4 6 8 10. fold k.
    unfold add_rule in *. destruct (newRule e k p) as [p1 r]. cbn [fst snd] in *. set (p2 := repo_insert r p1) in *.
    set (p3 := mkRepository _ _ _ _ _ _ _). assert (I3 : repo_inv sp1 [] p3) by (destruct I1; by constructor).
    assert (EN : nextID p3 = nextID p + 1) by (change (nextID p3) with (uwrap 64 (nextID p2 + 1)); rewrite En; unfold uwrap; rewrite Z.mod_small; lia).
    assert (EE : entries_of p3 = <[k := e]> (entries_of p)) by (unfold entries_of; change (repo_rules p3) with (repo_rules p2); by rewrite Er, fmap_insert, Ee).
    destruct (IH sp1 p3 (rs ++ [r]) I3) as (sp2 & J1 & J2 & J3 & J4 & J5 & J6).
    + split; [lia|]. intros k'. rewrite EE, lookup_insert_is_Some, EN. intros [<-|[_ Hs]] Hr; [cbn; lia|]. specialize (N1 k' Hs Hr). lia.
    + lia.
    + change (subjects p3) with (subjects p2). lia.
    + change (subjects p3) with (subjects p2) in J4. exists sp2. split_and!; [done|by rewrite J2| |lia|lia|done]. rewrite J3, EE, EN. cbn [new_entries]. fold k.
      rewrite <- insert_union_r by (apply new_entries_fresh; cbn; lia). by rewrite insert_union_l.
Qed.

Lemma addList_spec sp p entries : repo_inv sp [] p → next_ok p → nextID p + Z.of_nat (length entries) < 2 ^ 64 →
  lastSelectorId (subjects p) + Z.of_nat (length entries) < 2 ^ 64 →
  let x := addListLocked entries p in
  ∃ sp', repo_inv sp' [] x.1 ∧ sp_ids sp' = sp_ids sp ∧ entries_of x.1 = new_entries EmptyString (nextID p) entries ∪ entries_of p ∧
    lastSelectorId (subjects x.1) ≤ lastSelectorId (subjects p) + Z.of_nat (length entries) ∧ nextID x.1 = nextID p + Z.of_nat (length entries) ∧ next_ok x.1.
Proof.
  intros I N HN HL. cbv zeta. destruct (addList_loop entries sp p [] I N HN HL) as (sp' & J). unfold addListLocked.
  change (foldl _ (p, []) entries) with (foldl add_step (p, []) entries). destruct (foldl add_step _ _) as [p' rules]. cbn [fst] in *.
  destruct J as (J1 & J2 & J3 & J4 & J5 & J6). exists sp'. split_and!; try done. by apply bump_inv.
Qed.

(** ** Histories *)

Inductive repo_op :=
  | RAddList (entries : list (subjectEntry Sel))
  | RReplace (entries : list (subjectEntry Sel)) (resource : string)
  | RUpdateIdentities (added deleted : gmap Z Labels.Labels).

Definition repo_run (op : repo_op) p : Repository Sel :=
  match op with
  | RAddList entries => (addListLocked entries p).1
  | RReplace entries resource => (ReplaceByResource entries resource p).1.1
  | RUpdateIdentities added deleted => repo_UpdateIdentities added deleted p
  end.

(** The specification: the identities, the entries by key and the next key. *)
Record repo_spec := mkRepoSpec { rs_ids : gmap Z Labels.Labels; rs_entries : gmap ruleKey (subjectEntry Sel); rs_next : Z }.

Definition repo_spec_run (op : repo_op) (s : repo_spec) : repo_spec :=
  match op with
  | RAddList entries => mkRepoSpec (rs_ids s) (new_entries EmptyString (rs_next s) entries ∪ rs_entries s) (rs_next s + Z.of_nat (length entries))
  | RReplace entries resource =>
      if bool_decide (resource = EmptyString) then s
      else mkRepoSpec (rs_ids s) (new_entries resource 0 entries ∪ filter (λ y, rk_resource y.1 ≠ resource) (rs_entries s)) (rs_next s)
  | RUpdateIdentities added deleted => mkRepoSpec (filter (λ y, y.1 ∉ dom deleted) (rs_ids s) ∪ added) (rs_entries s) (rs_next s)
  end.

(** No update changes the labels of an identity that is known. *)
Definition repo_op_ok (s : repo_spec) (op : repo_op) : Prop :=
  match op with
  | RUpdateIdentities added deleted => labels_kept (rs_ids s) added deleted
  | _ => True
  end.

Definition repo_op_size (op : repo_op) : Z :=
  match op with RAddList entries | RReplace entries _ => Z.of_nat (length entries) | _ => 0 end.

(** The repository implements the specification. *)
Record repo_refines (s : repo_spec) (n : Z) sp p : Prop := {
  rr_inv : repo_inv sp [] p;
  rr_ids : sp_ids sp = rs_ids s;
  rr_entries : entries_of p = rs_entries s;
  rr_next : nextID p = rs_next s ∧ next_ok p ∧ nextID p ≤ n;
  rr_last : lastSelectorId (subjects p) ≤ n;
}.

Lemma repo_run_refines s n sp p op : repo_refines s n sp p → repo_op_ok s op → n + repo_op_size op < 2 ^ 64 →
  ∃ sp', repo_refines (repo_spec_run op s) (n + repo_op_size op) sp' (repo_run op p).
Proof.
  intros [I1 I2 I3 (I4 & I5 & I6) I8] HF HS. destruct op as [entries|entries resource|added deleted]; cbn [repo_run repo_spec_run repo_op_size] in *.
  - destruct (addList_spec sp p entries I1 I5) as (sp' & J1 & J2 & J3 & J4 & J5 & J6); [lia|lia|]. exists sp'.
    constructor; cbn; [done|congruence|congruence|split_and!; [congruence|done|lia]|lia].
  - destruct (bool_decide_reflect (resource = EmptyString)) as [->|Hr].
    + exists sp. unfold ReplaceByResource. rewrite bool_decide_eq_true_2 by done. constructor; cbn; [done..|split_and!; [done|done|lia]|lia].
    + destruct (replace_spec sp p entries resource I1 Hr) as (sp' & J1 & J2 & J3 & J4 & J5 & _ & _); [lia|]. exists sp'.
      constructor; cbn; [done|congruence|congruence|split_and!; [congruence| |lia]|lia].
      destruct I5 as [N0 N1]. split; [lia|]. intros k. rewrite J3, J5, lookup_union_is_Some. intros [Hk|[e He]] Hk'.
      * exfalso. assert (HK : ∀ i, is_Some (new_entries resource i entries !! k) → rk_resource k = resource).
        { clear. induction entries as [|e es IH]; intros i; cbn; [by intros [? ?]|]. rewrite lookup_insert_is_Some. intros [<-|[_ ?]]; [done|by apply (IH (i + 1))]. }
        apply HK in Hk. congruence.
      * apply map_lookup_filter_Some in He as [He _]. apply N1; [by exists e|done].
  - destruct I1 as [H1 H2 H3 H4 H5]. destruct (holds_identities sp _ _ added deleted H1) as [HH HL]; [by rewrite I2|].
    exists (spec_run (OUpdate added deleted) sp). constructor; cbn; [by constructor|by rewrite I2|done|split_and!; [done|done|lia]|rewrite HL; lia].
Qed.

Definition repo_runs (ops : list repo_op) p : Repository Sel := foldl (λ p op, repo_run op p) p ops.
Definition repo_spec_runs (ops : list repo_op) (s : repo_spec) : repo_spec := foldl (λ s op, repo_spec_run op s) s ops.

Definition repo_size (ops : list repo_op) : Z := foldr (λ op n, repo_op_size op + n) 0 ops.

Definition emptyRepoSpec : repo_spec := mkRepoSpec ∅ ∅ 0.

Fixpoint repo_ops_ok (s : repo_spec) (ops : list repo_op) : Prop :=
  match ops with [] => True | op :: ops => repo_op_ok s op ∧ repo_ops_ok (repo_spec_run op s) ops end.

Lemma repo_ops_ok_app s ops ops' : repo_ops_ok s (ops ++ ops') ↔ repo_ops_ok s ops ∧ repo_ops_ok (repo_spec_runs ops s) ops'.
Proof. revert s. induction ops as [|op ops IH]; intros s; cbn; [tauto|]. rewrite IH. unfold repo_spec_runs. cbn. tauto. Qed.

(** A history in which no update changes the labels of a known identity, and no counter wraps. *)
Record repo_history (ops : list repo_op) : Prop := {
  rh_labels : repo_ops_ok emptyRepoSpec ops;
  rh_size : repo_size ops < 2 ^ 64;
}.

Lemma repo_size_nonneg ops : 0 ≤ repo_size ops.
Proof.
  induction ops as [|op ops IH]; [done|]. change (0 ≤ repo_op_size op + repo_size ops). assert (0 ≤ repo_op_size op) by (destruct op; cbn; lia). lia.
Qed.

Lemma repo_size_app ops ops' : repo_size (ops ++ ops') = repo_size ops + repo_size ops'.
Proof.
  induction ops as [|op ops IH]; [done|]. change (repo_op_size op + repo_size (ops ++ ops') = repo_op_size op + repo_size ops + repo_size ops'). lia.
Qed.

Lemma new_repo_refines : ∃ sp, repo_refines emptyRepoSpec 0 sp NewPolicyRepository.
Proof.
  exists (mkSpec ∅ ∅). assert (HE : entries_of (NewPolicyRepository : Repository Sel) = ∅) by (unfold entries_of; cbn; by rewrite fmap_empty).
  constructor; [|done|done| |done].
  - constructor; [|done| | |].
    + cbn. rewrite map_to_list_empty. constructor; [apply new_refines|done|done| | |constructor].
      * intros key u. unfold users_of. cbn. split; [set_solver|]. by intros (r & ?%elem_of_nil & _).
      * by intros r ?%elem_of_nil.
    + intros ns k. cbn. rewrite !lookup_empty. split; [cbn; set_solver|]. by intros [[? ?] _].
    + intros rid k. cbn. by case_bool_decide.
    + cbn. rewrite map_to_list_empty. by intros r ?%elem_of_nil.
  - split_and!; [done| |done]. split; [done|]. intros k. rewrite HE. by intros [? ?].
Qed.

Lemma repo_runs_refines ops : ∀ s n sp p, repo_refines s n sp p → repo_ops_ok s ops → n + repo_size ops < 2 ^ 64 →
  ∃ sp', repo_refines (repo_spec_runs ops s) (n + repo_size ops) sp' (repo_runs ops p).
Proof.
  induction ops as [|op ops IH]; intros s n sp p R HF HS.
  - exists sp. cbn [repo_spec_runs repo_runs foldl repo_size foldr]. by rewrite Z.add_0_r.
  - destruct HF as [HF HFs]. assert (HT : repo_size (op :: ops) = repo_op_size op + repo_size ops) by done.
    pose proof (repo_size_nonneg ops). destruct (repo_run_refines s n sp p op R HF) as (sp1 & R1); [lia|].
    destruct (IH _ _ _ _ R1 HFs) as (sp2 & R2); [lia|]. exists sp2. cbn [repo_spec_runs repo_runs foldl]. rewrite HT.
    by replace (n + (repo_op_size op + repo_size ops)) with (n + repo_op_size op + repo_size ops) by lia.
Qed.

(** Every history implements the specification. *)
Lemma repo_history_refines ops : repo_history ops →
  ∃ sp, repo_refines (repo_spec_runs ops emptyRepoSpec) (repo_size ops) sp (repo_runs ops NewPolicyRepository).
Proof. intros [HF HS]. destruct new_repo_refines as (sp & R). by apply (repo_runs_refines ops _ 0 sp). Qed.

(** The identities an entry applies to. *)
Definition spec_subject (s : repo_spec) e nid : Prop :=
  if Node e then nid = ReservedIdentityHost else ∃ lbls, rs_ids s !! nid = Some lbls ∧ cs_Matches (Subject e) lbls = true.

(** C11. After any history of the repository in which no update changes the labels of an identity
    that is known at the time and no counter wraps, [ReplaceByResource] of a named resource leaves exactly the given
    entries under the resource, one rule for each, and the entries of all other resources alone;
    it returns the number of the replaced rules and exactly the identities that a replaced or a
    new entry applies to, whether or not the entry is new, so that no endpoint misses a
    regeneration. *)
Theorem replace_by_resource ops entries resource : repo_history (ops ++ [RReplace entries resource]) → resource ≠ EmptyString →
  let s := repo_spec_runs ops emptyRepoSpec in
  let x := ReplaceByResource entries resource (repo_runs ops NewPolicyRepository) in
  entries_of x.1.1 = new_entries resource 0 entries ∪ filter (λ y, rk_resource y.1 ≠ resource) (rs_entries s) ∧
  (∀ nid, nid ∈ x.1.2 ↔ ∃ e, ((∃ k, rk_resource k = resource ∧ rs_entries s !! k = Some e) ∨ e ∈ entries) ∧ spec_subject s e nid) ∧
  x.2 = Z.of_nat (size (filter (λ y, rk_resource y.1 = resource) (rs_entries s))).
Proof.
  intros [HF HS] Hr. apply repo_ops_ok_app in HF as [HF _]. rewrite repo_size_app in HS. cbn [repo_size foldr repo_op_size] in HS.
  destruct (repo_history_refines ops) as (sp & [R1 R2 R3 R4 R6]); [constructor; [done|lia]|].
  destruct (replace_spec sp _ entries resource R1 Hr) as (sp' & _ & _ & J3 & _ & _ & J6 & J7); [lia|].
  cbv zeta. rewrite J3, J7, R3. split_and!; [done| |done]. intros nid. rewrite J6. unfold is_old, subject_of, spec_subject. by rewrite R2, R3.
Qed.
End spec.
