(* ===== verification/RepositoryPolicy.v ===== *)
(** * Policies of the repository

    The rules that [computePolicyEnforcementAndRules] of [src/pkg/policy/repository.go] finds for
    an identity, with the default rules it adds, and the verdicts of the policy that is resolved
    and distilled from them. *)

From Stdlib Require Import QArith.
From stdpp Require Import sorting.
From S2P Require Import Prelude Precedence BitLPM PolicyKey PortRange Identity RuleOrigin PassMeta MapState GoLib.
From S2P Require Import MapStateIndex MapStateLookup PolicyRule TierState TierPriorities TierEvaluation.
From S2P Require Import Labels Selectors SelectorCache SelectorCacheInv SelectorCacheSpec Repository RuleSort RepositoryInv RepositorySpec.
From S2P Require Import L4Types L4Filter L4MapState L4Resolve L4Contributions L4Evaluation L4Enforcement EndpointPolicy.

Local Open Scope Z_scope.

(** ** The rules of an identity *)

Section rules.
Context {GR : GoRange} {GS : GoSort} {Sel : Type} {CS : CacheSelector Sel} {SK : SelectorKeys} {RK : RepositoryKeys Sel} {SU : SubjectKeys Sel}.
Implicit Types (sp : spec Sel Z) (p : Repository Sel) (r : rule Sel) (en : subjectEntry Sel) (k : ruleKey) (si : identity).

(** The entry applies to the identity. *)
Definition applies si en : bool :=
  eqb (Node en) (bool_decide (id_ID si = ReservedIdentityHost)) && cs_Matches (Subject en) (id_Labels si).

Definition identity_namespace si : string := (LabelArray_LookupLabel (id_LabelArray si) podNamespaceLabel).1.

(** The identity is known, unless it is the host. *)
Definition known (ids : gmap Z Labels.Labels) si : Prop :=
  id_ID si = ReservedIdentityHost ∨ ids !! id_ID si = Some (id_Labels si).

Lemma matches_spec sp p si k r : repo_inv sp [] p → known (sp_ids sp) si → repo_rules p !! k = Some r →
  matchesSubject p si r = applies si (r_entry r).
Proof.
  intros I HK Hk. unfold matchesSubject, applies. destruct (eqb _ _) eqn:En; cbn [negb andb]; [|done].
  destruct (holds_selections key_matches sp _ _ r (ri_holds _ _ _ I) (repo_rule_held sp [] p k r I Hk)) as (id & -> & HG & HS).
  destruct (Node (r_entry r)) eqn:EN; [done|]. rewrite HS. apply eqb_prop in En. symmetry in En. apply bool_decide_eq_false in En.
  destruct HK as [?|HK]; [done|]. destruct (bool_decide_reflect (sub_key r = wildcardSelectorKey)) as [Hw|Hw]; cbn [orb].
  - symmetry. rewrite <- cached_subject_matches. by apply wildcard_matches.
  - destruct (cs_Matches (Subject (r_entry r)) (id_Labels si)) eqn:Em.
    + apply bool_decide_eq_true, HG. by exists (id_Labels si).
    + apply bool_decide_eq_false. intros (lbls & El & Hm)%HG. congruence.
Qed.

(** The rules at the keys that apply, of one direction. *)
Definition pick p si (ingress : bool) (keys : list ruleKey) : list (rule Sel) :=
  filter (λ r, applies si (r_entry r) = true ∧ pe_Ingress (pe r) = ingress) (omap (λ k, repo_rules p !! k) keys).

Definition collect_all (c : collected) (l : list (rule Sel)) : collected :=
  mkCollected (hasDefaultDeny c || existsb (λ r, DefaultDeny (pe r)) l) (hasPassVerdict c || existsb (λ r, bool_decide (pe_Verdict (pe r) = Pass)) l)
    (col_rules c ++ l).

Lemma collect_all_nil c : collect_all c [] = c.
Proof. destruct c. unfold collect_all. cbn. by rewrite !orb_false_r, app_nil_r. Qed.

Lemma collect_all_cons c r l : collect_all c (r :: l) = collect_all (collect c r) l.
Proof. unfold collect_all, collect. cbn. by rewrite !orb_assoc, <- app_assoc. Qed.

Lemma collect_all_app c l l' : collect_all (collect_all c l) l' = collect_all c (l ++ l').
Proof. unfold collect_all. cbn. by rewrite !existsb_app, !orb_assoc, app_assoc. Qed.

Lemma process_keys sp p si keys : repo_inv sp [] p → known (sp_ids sp) si → (∀ k, k ∈ keys → is_Some (repo_rules p !! k)) →
  ∀ c, each (processKey p si) c keys = inr (collect_all c.1 (pick p si true keys), collect_all c.2 (pick p si false keys)).
Proof.
  intros I HK. induction keys as [|k keys IH]; intros HR [ci ce].
  - unfold pick. cbn. by rewrite !collect_all_nil.
  - destruct (HR k) as [r Hr]; [by left|]. cbn [each]. unfold processKey at 1. rewrite Hr. cbn [sbind]. rewrite (matches_spec sp p si k r I HK Hr).
    rewrite IH by (intros; apply HR; by right). unfold pick at 3 4. cbn [omap list_omap]. rewrite Hr. rewrite !filter_cons.
    destruct (applies si (r_entry r)) eqn:Ea; [destruct (pe_Ingress (pe r)) eqn:Ei|].
    + rewrite decide_True, decide_False by naive_solver. by rewrite collect_all_cons.
    + rewrite decide_False, decide_True by naive_solver. by rewrite collect_all_cons.
    + rewrite !decide_False by naive_solver. done.
Qed.

(** The keys that are looked at. *)
Definition candidates p si : list ruleKey :=
  range (default ∅ (rulesByNamespace p !! EmptyString)) ++
  (if bool_decide (identity_namespace si ≠ EmptyString) then range (default ∅ (rulesByNamespace p !! identity_namespace si)) else []).

Lemma elem_of_candidates sp p si k : repo_inv sp [] p →
  k ∈ candidates p si ↔ is_Some (repo_rules p !! k) ∧ (Namespace (rk_resource k) = EmptyString ∨ Namespace (rk_resource k) = identity_namespace si).
Proof.
  intros I. unfold candidates. rewrite elem_of_app, elem_of_range, (ri_namespace _ _ _ I). case_bool_decide as Hn.
  - rewrite elem_of_range, (ri_namespace _ _ _ I). tauto.
  - rewrite Hn. split; [intros [?|?%elem_of_nil]; tauto|tauto].
Qed.

Lemma NoDup_candidates sp p si : repo_inv sp [] p → NoDup (candidates p si).
Proof.
  intros I. unfold candidates. apply NoDup_app. split_and!; [apply NoDup_range| |case_bool_decide; [apply NoDup_range|constructor]].
  intros k [_ Hk]%elem_of_range%(ri_namespace _ _ _ I). case_bool_decide as Hn; [|by intros ?%elem_of_nil].
  intros [_ Hk']%elem_of_range%(ri_namespace _ _ _ I). congruence.
Qed.

(** The default policy applies whatever the rules are. *)
Definition not_enforced cfg si : bool :=
  bool_decide (id_ID si = ReservedIdentityHost) && negb (EnableHostFirewall cfg) || bool_decide (policyMode cfg = NeverEnforce).

Definition always_enforced cfg si : bool :=
  bool_decide (policyMode cfg = AlwaysEnforce) || LabelArray_Has (id_LabelArray si) IDNameInit.

Lemma compute_spec sp p cfg si : repo_inv sp [] p → known (sp_ids sp) si →
  computePolicyEnforcementAndRules cfg si p =
  if not_enforced cfg si then inr (notEnforced, notEnforced)
  else sbind (enforce cfg si true (collect_all emptyCollected (pick p si true (candidates p si)))) (λ i,
       sbind (enforce cfg si false (collect_all emptyCollected (pick p si false (candidates p si)))) (λ e, inr (i, e))).
Proof.
  intros I HK. unfold computePolicyEnforcementAndRules, not_enforced. destruct (_ && negb _); [done|]. cbn [orb]. case_bool_decide; [done|].
  assert (HC : ∀ k, k ∈ candidates p si → is_Some (repo_rules p !! k)) by (intros k Hk; by apply (elem_of_candidates sp) in Hk as [? _]).
  pose proof (process_keys sp p si (candidates p si) I HK HC (emptyCollected, emptyCollected)) as HP. cbn [fst snd] in HP.
  unfold candidates in HP at 1. rewrite each_app in HP. fold (identity_namespace si). rewrite <- sbind_assoc.
  assert (E : ∀ c, (if bool_decide (identity_namespace si ≠ EmptyString) then each (processKey p si) c (range (default ∅ (rulesByNamespace p !! identity_namespace si)))
    else inr c) = each (processKey p si) c (if bool_decide (identity_namespace si ≠ EmptyString) then range (default ∅ (rulesByNamespace p !! identity_namespace si)) else [])).
  { intros c. by case_bool_decide. }
  erewrite (f_equal (λ m, sbind m _)); [|etrans; [|exact HP]].
  - cbn [sbind fst snd]. done.
  - destruct (each _ _ _); cbn [sbind]; [done|]. apply E.
Qed.
End rules.

(** ** Default rules *)

Section defaults.
Context {GR : GoRange} {GS : GoSort} {Sel : Type} {CS : CacheSelector Sel} {SK : SelectorKeys} {RK : RepositoryKeys Sel}.
Implicit Types (L : list (rule Sel)) (r : rule Sel) (si : identity).

Definition default_entry (priority : Q) (peer : string) (lbls : string) (v : Verdict) (ingress : bool) : PolicyEntry :=
  mkPolicyEntry DefaultPolicy priority EmptyString (Some [peer]) [] lbls false v ingress.

(** Localhost may talk to the endpoint. *)
Definition localhost cfg si (ingress : bool) : bool :=
  ingress && AlwaysAllowLocalhost cfg && bool_decide (id_ID si ≠ ReservedIdentityHost).

(** The entries that are added after the rules. *)
Definition default_entries cfg si (ingress deny pass : bool) : list PolicyEntry :=
  if negb deny then [default_entry 0 wildcardSelectorKey (if ingress then LabelsAllowAnyIngress else LabelsAllowAnyEgress) Allow ingress]
  else
    (if localhost cfg si ingress then [default_entry 0 hostSelectorKey LabelsLocalHostIngress Allow ingress] else []) ++
    (if pass then [default_entry (if localhost cfg si ingress then float_add 0 1 else 0) wildcardSelectorKey
                     (if ingress then LabelsDenyAnyIngress else LabelsDenyAnyEgress) Deny ingress] else []).

Lemma add_default si peer lbls v L r : last L = Some r →
  ∃ d, addDefaultRule si [peer] lbls v L = inr (L ++ [d]) ∧
    pe d = default_entry (if Tier (pe r) =? DefaultPolicy then float_add (Priority (pe r)) 1 else 0%Q) peer lbls v (pe_Ingress (pe r)).
Proof. intros HL. unfold addDefaultRule. rewrite HL. eexists. split; [reflexivity|]. done. Qed.

Lemma default_rules_spec cfg si ingress deny pass L : (∀ r, r ∈ L → Tier (pe r) < DefaultPolicy ∧ pe_Ingress (pe r) = ingress) → L ≠ [] →
  ∃ D, defaultRules cfg si ingress (mkCollected deny pass L) = inr (L ++ D) ∧ map (λ r, pe r) D = default_entries cfg si ingress deny pass.
Proof.
  intros HL Hne. destruct (last L) as [r|] eqn:El; [|by apply last_None in El].
  destruct (HL r) as [Ht Hi]; [by apply last_Some_elem_of|]. assert (Et : (Tier (pe r) =? DefaultPolicy) = false) by lia.
  unfold defaultRules, default_entries. cbn [col_rules hasDefaultDeny hasPassVerdict]. fold (localhost cfg si ingress).
  destruct L as [|r0 L0] eqn:EL; [done|]. rewrite <- EL in *. destruct deny; cbn [negb].
  - destruct (localhost cfg si ingress).
    + destruct (add_default si hostSelectorKey LabelsLocalHostIngress Allow L r El) as (h & Eh & Ph). rewrite Eh, Et, Hi in *. cbn [sbind].
      destruct pass; [|exists [h]; cbn; by rewrite Ph].
      destruct (add_default si wildcardSelectorKey (if ingress then LabelsDenyAnyIngress else LabelsDenyAnyEgress) Deny (L ++ [h]) h (last_snoc _ _)) as (d & Ed & Pd).
      rewrite Ed. exists [h; d]. rewrite <- app_assoc. split; [done|]. cbn [map app]. by rewrite Pd, Ph.
    + cbn [sbind]. destruct pass; [|exists []; by rewrite app_nil_r].
      destruct (add_default si wildcardSelectorKey (if ingress then LabelsDenyAnyIngress else LabelsDenyAnyEgress) Deny L r El) as (d & Ed & Pd).
      rewrite Ed, Et, Hi in *. exists [d]. split; [done|]. cbn. by rewrite Pd.
  - destruct (add_default si wildcardSelectorKey (if ingress then LabelsAllowAnyIngress else LabelsAllowAnyEgress) Allow L r El) as (d & Ed & Pd).
    rewrite Ed, Et, Hi in *. exists [d]. split; [done|]. cbn. by rewrite Pd.
Qed.

(** Whether a direction denies by default. *)
Definition denies_by_default cfg si (rules : list PolicyEntry) : bool := existsb DefaultDeny rules || always_enforced cfg si.

Definition any_pass (rules : list PolicyEntry) : bool := existsb (λ x, bool_decide (pe_Verdict x = Pass)) rules.

Lemma enforce_spec cfg si ingress L : (∀ r, r ∈ L → Tier (pe r) < DefaultPolicy ∧ pe_Ingress (pe r) = ingress) →
  let rules := AsPolicyEntries L in
  ∃ en, enforce cfg si ingress (collect_all emptyCollected L) = inr en ∧
    en_has en = bool_decide (L ≠ []) || always_enforced cfg si ∧
    AsPolicyEntries (en_rules en) = AsPolicyEntries (ruleSlice_sort L) ++
      (if bool_decide (L = []) then [] else default_entries cfg si ingress (denies_by_default cfg si rules) (any_pass rules)).
Proof.
  intros HL. cbv zeta. unfold enforce, collect_all, emptyCollected. cbn [hasDefaultDeny hasPassVerdict col_rules orb app]. fold (always_enforced cfg si).
  assert (HD : existsb (λ r : rule Sel, DefaultDeny (pe r)) L || always_enforced cfg si = denies_by_default cfg si (AsPolicyEntries L)).
  { unfold denies_by_default, AsPolicyEntries. f_equal. clear. induction L as [|r L IH]; [done|]. cbn. by rewrite IH. }
  assert (HP : existsb (λ r : rule Sel, bool_decide (pe_Verdict (pe r) = Pass)) L = any_pass (AsPolicyEntries L)).
  { unfold any_pass, AsPolicyEntries. clear. induction L as [|r L IH]; [done|]. cbn. by rewrite IH. }
  rewrite HD, HP. assert (HN : ruleSlice_sort L = [] ↔ L = []).
  { split; intros E; [apply Permutation_nil_r; by rewrite <- (sort_perm L), E|apply Permutation_nil_r; by rewrite sort_perm, E]. }
  rewrite (bool_decide_ext (ruleSlice_sort L ≠ []) (L ≠ [])) by (by rewrite HN).
  destruct (decide (L = [])) as [->|Hne].
  - rewrite (proj2 HN eq_refl). cbn [defaultRules col_rules sbind]. eexists. split; [reflexivity|]. cbn [en_has en_rules]. split; [done|].
    by rewrite (bool_decide_eq_true_2 ([] = [])).
  - destruct (default_rules_spec cfg si ingress (denies_by_default cfg si (AsPolicyEntries L)) (any_pass (AsPolicyEntries L)) (ruleSlice_sort L)) as (D & ED & PD);
      [intros r; rewrite sort_perm; apply HL|by rewrite HN|]. rewrite ED. cbn [sbind]. eexists. split; [reflexivity|]. cbn [en_has en_rules]. split; [done|].
    rewrite (bool_decide_eq_false_2 (L = [])) by done. unfold AsPolicyEntries at 1. rewrite map_app, PD. done.
Qed.
End defaults.

(** ** Verdicts *)

Definition is_denied (d : FlowDecision) : bool := match d with DecisionDenied => true | DecisionAllowed => false end.

(** The decision of sorted entries: within a tier the first one decides, a pass goes to the next
    tier, and the default applies when nothing decides. *)
Fixpoint decide_flow (default : FlowDecision) (skip : Z) (l : list PolicyEntry) : FlowDecision :=
  match l with
  | [] => default
  | r :: l =>
      if Tier r <? skip then decide_flow default skip l
      else match pe_Verdict r with
           | Pass => decide_flow default (Tier r + 1) l
           | Deny => DecisionDenied
           | Allow => DecisionAllowed
           end
  end.

Lemma match_loop_defaults D skip : Forall (λ d, Tier d = DefaultPolicy ∧ pe_Verdict d ≠ Pass) D → 0 ≤ skip ≤ DefaultPolicy →
  match_loop skip D = match_loop 0 D.
Proof.
  unfold DefaultPolicy. intros HD Hs. destruct HD as [|d D [Ht Hv] HD]; [done|]. cbn. rewrite Ht.
  destruct (Z.ltb_spec 255 skip); [lia|]. destruct (Z.ltb_spec 255 0); [lia|]. by destruct (pe_Verdict d).
Qed.

Lemma match_loop_app D m : ∀ skip, Forall (λ d, Tier d = DefaultPolicy ∧ pe_Verdict d ≠ Pass) D → 0 ≤ skip ≤ DefaultPolicy →
  Forall (λ r, 0 ≤ Tier r < DefaultPolicy) m → match_loop skip (m ++ D) = decide_flow (match_loop 0 D) skip m.
Proof.
  unfold DefaultPolicy. induction m as [|r m IH]; intros skip HD Hs HM; cbn; [by apply match_loop_defaults|].
  apply Forall_cons in HM as [Hr HM]. destruct (Tier r <? skip); [by apply IH|]. destruct (pe_Verdict r); [done|done|].
  unfold uwrap. rewrite Z.mod_small by lia. apply IH; [done|lia|done].
Qed.

Section verdict.
Context {TR : Trie LPMKey IDSet} {TL : TrieLaws LPMKey IDSet TR} {GR : GoRange} {GS : GoSort} {SK : SelectorKeys}.
Context {Sel : Type} {CS : CacheSelector Sel} {RK : RepositoryKeys Sel}.
Context (e : EndpointContext) (cinfo : ClusterInfo) (EO : endpoint_ok e cinfo).
Implicit Types (L : list (rule Sel)) (x : Key) (si : identity) (ms : mapState TR).

#[local] Instance selects_dec cs x : Decision (selects e cs x).
Proof. unfold selects. apply _. Defined.

Lemma default_ports q peer lbls v ingress : rule_ports (default_entry q peer lbls v ingress) = [(emptyPortRule, mkPortProtocol "0" 0 ProtoAny)].
Proof. done. Qed.

Lemma default_matches q peer lbls v ingress x : rule_matches e (default_entry q peer lbls v ingress) x ↔
  TrafficDirection x = traffic ingress ∧ selects e (if selector_IsWildcard peer then wildcardSelectorKey else peer) x.
Proof.
  assert (HC : rule_css (default_entry q peer lbls v ingress) = [if selector_IsWildcard peer then wildcardSelectorKey else peer]).
  { unfold rule_css, AddSelectorsTxn, selectsAll. cbn. by destruct (selector_IsWildcard peer). }
  unfold rule_matches. rewrite default_ports, HC. split.
  - intros (cs & pr & pp & ->%list_elem_of_singleton & [= -> ->]%list_elem_of_singleton & Hd & Hs & _). done.
  - intros [Hd Hs]. eexists _, _, _. split; [by apply list_elem_of_singleton|]. split; [by apply list_elem_of_singleton|].
    split; [done|]. split; [done|by left].
Qed.

Lemma default_wildcard q lbls v ingress x : TrafficDirection x = traffic ingress → rule_matches e (default_entry q wildcardSelectorKey lbls v ingress) x.
Proof. intros Hd. apply default_matches. split; [done|]. destruct (selector_IsWildcard _); by left. Qed.

Lemma default_host q lbls v ingress x : TrafficDirection x = traffic ingress →
  rule_matches e (default_entry q hostSelectorKey lbls v ingress) x ↔ selects e hostSelectorKey x.
Proof. intros Hd. rewrite default_matches, host_not_wildcard. tauto. Qed.

Lemma default_ok q peer lbls v ingress : L4Resolve.rule_ok (default_entry q peer lbls v ingress).
Proof. unfold L4Resolve.rule_ok. rewrite default_ports. constructor; [|constructor]. split; [done|]. by vm_compute. Qed.

(** The decision when no rule decides. *)
Definition default_decision cfg si (ingress : bool) (rules : list PolicyEntry) x : FlowDecision :=
  if denies_by_default cfg si rules then
    if bool_decide (rules ≠ []) && localhost cfg si ingress && bool_decide (selects e hostSelectorKey x) then DecisionAllowed else DecisionDenied
  else DecisionAllowed.

(** The default entries that match a flow. *)
Definition matching_defaults cfg si (ingress deny pass : bool) x : list PolicyEntry :=
  if negb deny then [default_entry 0 wildcardSelectorKey (if ingress then LabelsAllowAnyIngress else LabelsAllowAnyEgress) Allow ingress]
  else
    (if localhost cfg si ingress && bool_decide (selects e hostSelectorKey x)
     then [default_entry 0 hostSelectorKey LabelsLocalHostIngress Allow ingress] else []) ++
    (if pass then [default_entry (if localhost cfg si ingress then float_add 0 1 else 0) wildcardSelectorKey
                     (if ingress then LabelsDenyAnyIngress else LabelsDenyAnyEgress) Deny ingress] else []).

Lemma elem_of_matching_entries cfg si ingress deny pass x d : TrafficDirection x = traffic ingress →
  d ∈ matching_defaults cfg si ingress deny pass x ↔ d ∈ default_entries cfg si ingress deny pass ∧ rule_matches e d x.
Proof.
  intros Hd. pose proof (default_wildcard) as HW. unfold matching_defaults, default_entries.
  assert (HH : d ∈ (if localhost cfg si ingress && bool_decide (selects e hostSelectorKey x) then [default_entry 0 hostSelectorKey LabelsLocalHostIngress Allow ingress] else []) ↔
    d ∈ (if localhost cfg si ingress then [default_entry 0 hostSelectorKey LabelsLocalHostIngress Allow ingress] else []) ∧ rule_matches e d x).
  { destruct (localhost cfg si ingress); cbn [andb]; [|rewrite elem_of_nil; tauto]. rewrite list_elem_of_singleton. case_bool_decide as Hs; split.
    - intros ->%list_elem_of_singleton. split; [done|]. by apply default_host.
    - intros [-> _]. by apply list_elem_of_singleton.
    - by intros ?%elem_of_nil.
    - intros [-> Hm%default_host]; done. }
  destruct deny; cbn [negb].
  - rewrite !elem_of_app, HH. destruct pass; [rewrite list_elem_of_singleton|rewrite elem_of_nil; tauto].
    split; [intros [?| ->]; [tauto|]|tauto]. split; [by right|by apply HW].
  - rewrite list_elem_of_singleton. split; [intros ->; split; [done|by apply HW]|tauto].
Qed.

Lemma default_entries_ok cfg si ingress deny pass d : d ∈ default_entries cfg si ingress deny pass →
  Tier d = DefaultPolicy ∧ pe_Verdict d ≠ Pass ∧ pe_Ingress d = ingress ∧ L4Resolve.rule_ok d.
Proof.
  assert (HE : ∀ q peer lbls v, v ≠ Pass → d = default_entry q peer lbls v ingress →
    Tier d = DefaultPolicy ∧ pe_Verdict d ≠ Pass ∧ pe_Ingress d = ingress ∧ L4Resolve.rule_ok d) by (intros q peer lbls v Hv ->; split_and!; [done..|apply default_ok]).
  unfold default_entries. destruct deny; cbn [negb]; [|intros Hd%list_elem_of_singleton; by eapply HE; [|exact Hd]].
  intros [Hd|Hd]%elem_of_app; [destruct (localhost cfg si ingress)|destruct pass]; try (by apply elem_of_nil in Hd);
    apply list_elem_of_singleton in Hd; by eapply HE; [|exact Hd].
Qed.

Lemma sorted_one {A} (R : relation A) a : StronglySorted R [a].
Proof. constructor; constructor. Qed.

Lemma sorted_two {A} (R : relation A) a b : R a b → StronglySorted R [a; b].
Proof. intros Hab. constructor; [apply sorted_one|]. constructor; [done|constructor]. Qed.

Lemma default_entries_sorted cfg si ingress deny pass : StronglySorted rule_le (default_entries cfg si ingress deny pass).
Proof.
  unfold default_entries. destruct deny; cbn [negb]; [|apply sorted_one].
  destruct (localhost cfg si ingress), pass; cbn [app]; try apply sorted_one; [|constructor]. apply sorted_two. right. split; [done|]. by vm_compute.
Qed.

Lemma matching_sorted cfg si ingress deny pass x : StronglySorted entry_le (matching_defaults cfg si ingress deny pass x).
Proof.
  unfold matching_defaults. destruct deny; cbn [negb]; [|apply sorted_one].
  destruct (localhost cfg si ingress); cbn [andb]; [|destruct pass; [apply sorted_one|constructor]].
  destruct (bool_decide _), pass; cbn [app]; try apply sorted_one; [|constructor]. apply sorted_two. right. split; [done|]. left. by vm_compute.
Qed.

Lemma matching_decision cfg si ingress (rules : list PolicyEntry) pass x : rules ≠ [] →
  match_loop 0 (matching_defaults cfg si ingress (denies_by_default cfg si rules) pass x) = default_decision cfg si ingress rules x.
Proof.
  intros Hne. unfold matching_defaults, default_decision. rewrite (bool_decide_eq_true_2 (rules ≠ [])) by done. cbn [andb].
  destruct (denies_by_default cfg si rules); cbn [negb]; [|done]. destruct (localhost cfg si ingress && _); [done|]. by destruct pass.
Qed.

Lemma sorted_app_le {A} (R : relation A) (l l' : list A) : StronglySorted R l → StronglySorted R l' → (∀ a b, a ∈ l → b ∈ l' → R a b) → StronglySorted R (l ++ l').
Proof.
  intros HS HS' HR. induction HS as [|a l HS IH HF]; [done|]. cbn. constructor; [apply IH; intros b c Hb; apply HR; by right|].
  apply Forall_app. split; [done|]. apply Forall_forall. intros b Hb. apply HR; [by left|done].
Qed.

(** The rules of a direction, as they are resolved. *)
Definition added_entries cfg si (ingress : bool) L : list PolicyEntry :=
  if bool_decide (L = []) then [] else default_entries cfg si ingress (denies_by_default cfg si (AsPolicyEntries L)) (any_pass (AsPolicyEntries L)).

Definition direction_entries cfg si (ingress : bool) L : list PolicyEntry :=
  AsPolicyEntries (ruleSlice_sort L) ++ added_entries cfg si ingress L.

Definition rules_ok (ingress : bool) L : Prop :=
  ∀ r, r ∈ L → 0 ≤ Tier (pe r) < DefaultPolicy ∧ pe_Ingress (pe r) = ingress ∧ L4Resolve.rule_ok (pe r).

Lemma elem_of_sorted_entries L d : d ∈ AsPolicyEntries (ruleSlice_sort L) ↔ d ∈ AsPolicyEntries L.
Proof. unfold AsPolicyEntries. rewrite !list_elem_of_fmap. by setoid_rewrite (sort_perm L). Qed.

Lemma sorted_entry L d : d ∈ AsPolicyEntries (ruleSlice_sort L) → d ∈ AsPolicyEntries L.
Proof. apply elem_of_sorted_entries. Qed.

Lemma AsPolicyEntries_ok ingress L d : rules_ok ingress L → d ∈ AsPolicyEntries L →
  0 ≤ Tier d < DefaultPolicy ∧ pe_Ingress d = ingress ∧ L4Resolve.rule_ok d.
Proof. intros HL (r & -> & Hr)%list_elem_of_fmap. by apply HL. Qed.

Lemma direction_entries_rules cfg si ingress L : rules_ok ingress L → Z.of_nat (length L) < 2 ^ 59 →
  (∃ need, levels_needed (direction_entries cfg si ingress L) = inr need ∧ need < 2 ^ 63) →
  direction_rules ingress (direction_entries cfg si ingress L).
Proof.
  intros HL HN HV. set (D := added_entries cfg si ingress L).
  assert (HD : ∀ d, d ∈ D → Tier d = DefaultPolicy ∧ pe_Verdict d ≠ Pass ∧ pe_Ingress d = ingress ∧ L4Resolve.rule_ok d).
  { intros d. unfold D, added_entries. case_bool_decide; [by intros ?%elem_of_nil|apply default_entries_ok]. }
  assert (HDS : StronglySorted rule_le D) by (unfold D, added_entries; case_bool_decide; [constructor|apply default_entries_sorted]).
  assert (HLen : (length D ≤ 2)%nat).
  { unfold D, added_entries. case_bool_decide; [cbn; lia|]. unfold default_entries. destruct (denies_by_default _ _ _); cbn [negb]; [|cbn; lia].
    destruct (localhost _ _ _), (any_pass _); cbn; lia. }
  constructor; [constructor| |].
  - unfold direction_entries. apply sorted_app_le; [|exact HDS|].
    + unfold AsPolicyEntries. pose proof (sort_sorted L) as HS. induction HS as [|r l HS IH HF]; [constructor|]. cbn. constructor; [done|].
      apply Forall_map. eapply Forall_impl; [exact HF|]. intros r' Hr. by apply rule_order_le.
    + intros a d Ha%sorted_entry Hd. left. destruct (AsPolicyEntries_ok _ _ _ HL Ha) as [[_ ?] _]. destruct (HD d Hd) as (-> & _). done.
  - intros r [Hr%sorted_entry|Hr]%elem_of_app.
    + destruct (AsPolicyEntries_ok _ _ _ HL Hr) as [? _]. unfold is_uint, DefaultPolicy in *. lia.
    + destruct (HD r Hr) as (-> & _). by vm_compute.
  - unfold direction_entries, AsPolicyEntries. rewrite length_app, length_map, (Permutation_length (sort_perm L)). fold D. lia.
  - exact HV.
  - intros r [Hr%sorted_entry|Hr]%elem_of_app.
    + by destruct (AsPolicyEntries_ok _ _ _ HL Hr) as (_ & ? & ?).
    + by destruct (HD r Hr) as (_ & _ & ? & ?).
Qed.

(** A direction that enforces its rules decides flows by the rules and the default. *)
Lemma direction_verdict cfg si ingress L ms x m : rules_ok ingress L →
  direction_enforced e ingress (bool_decide (L ≠ []) || always_enforced cfg si) (direction_entries cfg si ingress L) ms →
  flow x → TrafficDirection x = traffic ingress → matched e (AsPolicyEntries L) x m →
  MapStateEntry_IsDeny (lookup ms x).1 = is_denied (decide_flow (default_decision cfg si ingress (AsPolicyEntries L) x) 0 m).
Proof.
  intros HL HE Fx Dx [Hm HS]. set (rules := AsPolicyEntries L) in *. destruct (decide (L = [])) as [EL|Hne].
  - assert (m = []) as -> by (apply elem_of_nil_inv; intros r [Hr _]%Hm; unfold rules in Hr; rewrite EL in Hr; by apply elem_of_nil in Hr).
    cbn [decide_flow]. unfold default_decision, denies_by_default. assert (ER : rules = []) by (unfold rules; by rewrite EL). rewrite ER. cbn [existsb orb].
    rewrite (bool_decide_eq_false_2 ([] ≠ [])) by tauto. cbn [andb]. rewrite (bool_decide_eq_false_2 (L ≠ [])) in HE by tauto. cbn [orb] in HE.
    unfold direction_enforced in HE. destruct (always_enforced cfg si); [|by apply (op_allowed _ _ HE); [apply Fx|]].
    assert (EE : direction_entries cfg si ingress L = []).
    { unfold direction_entries, added_entries. rewrite bool_decide_eq_true_2, app_nil_r by done. apply elem_of_nil_inv. intros d Hd%sorted_entry.
      fold rules in Hd. rewrite ER in Hd. by apply elem_of_nil in Hd. }
    rewrite EE in HE. assert (HV : findMatchingRule [] true = if MapStateEntry_IsDeny (lookup ms x).1 then DecisionDenied else DecisionAllowed).
    { apply (en_verdict _ _ _ _ HE); [done|done| |].
      - by intros (r & ?%elem_of_nil & _).
      - split; [|constructor]. intros r. rewrite elem_of_nil. tauto. }
    cbn in HV. by destruct (MapStateEntry_IsDeny _).
  - rewrite bool_decide_eq_true_2 in HE by done. cbn [orb direction_enforced] in HE. set (D := added_entries cfg si ingress L) in *.
    set (deny := denies_by_default cfg si rules) in *. set (D' := matching_defaults cfg si ingress deny (any_pass rules) x).
    assert (ED : D = default_entries cfg si ingress deny (any_pass rules)) by (unfold D, added_entries; by rewrite bool_decide_eq_false_2).
    assert (HD' : ∀ d, d ∈ D' ↔ d ∈ D ∧ rule_matches e d x) by (intros d; rewrite ED; by apply elem_of_matching_entries).
    assert (HD : ∀ d, d ∈ D → Tier d = DefaultPolicy ∧ pe_Verdict d ≠ Pass) by (intros d; rewrite ED; by intros (? & ? & _)%default_entries_ok).
    assert (Hmt : Forall (λ r, 0 ≤ Tier r < DefaultPolicy) m).
    { apply Forall_forall. intros r [Hr _]%Hm. by destruct (AsPolicyEntries_ok _ _ _ HL Hr) as [? _]. }
    assert (HV : findMatchingRule (m ++ D') true = if MapStateEntry_IsDeny (lookup ms x).1 then DecisionDenied else DecisionAllowed).
    { apply (en_verdict _ _ _ _ HE); [done|done| |].
      - intros (r & [Hr%sorted_entry|Hr]%elem_of_app & Hp); [|by destruct (HD r Hr)].
        assert (HP : any_pass rules = true) by (apply existsb_exists; exists r; split; [by apply list_elem_of_In|by apply bool_decide_eq_true]).
        assert (HW : ∃ q lbls v, default_entry q wildcardSelectorKey lbls v ingress ∈ D).
        { rewrite ED. unfold default_entries. rewrite HP. destruct deny; cbn [negb]; eexists _, _, _; [apply elem_of_app; right|]; by apply list_elem_of_singleton. }
        destruct HW as (q & lbls & v & Hd). eexists. split; [apply elem_of_app; right; exact Hd|]. split; [by apply default_wildcard|].
        intros r' [Hr'%sorted_entry|Hr']%elem_of_app Et; [|by apply HD]. destruct (AsPolicyEntries_ok _ _ _ HL Hr') as [[_ ?] _].
        assert (Tier r' = DefaultPolicy) by exact Et. lia.
      - split.
        + intros r. unfold direction_entries. rewrite !elem_of_app, Hm, HD', elem_of_sorted_entries. fold rules D. tauto.
        + apply sorted_app_le; [done|apply matching_sorted|]. intros a d Ha Hd. left. rewrite Forall_forall in Hmt. specialize (Hmt a Ha).
          apply HD' in Hd as [Hd _]. destruct (HD d Hd) as [-> _]. lia. }
    assert (EF : findMatchingRule (m ++ D') true = match_loop 0 (m ++ D')) by (unfold findMatchingRule; by destruct (m ++ D')).
    rewrite EF, match_loop_app in HV; [|apply Forall_forall; intros d [Hd _]%HD'; by apply HD|unfold DefaultPolicy; lia|done].
    unfold D', deny in HV. rewrite matching_decision in HV by (unfold rules, AsPolicyEntries; by destruct L). rewrite HV. by destruct (MapStateEntry_IsDeny _).
Qed.
End verdict.
