(* ===== verification/RepositoryVerdict.v ===== *)
(** * Verdicts of the repository's policies

    The whole path from the rules of the repository to the map state of an endpoint
    ([ReplaceByResource], [resolvePolicyLocked] and [DistillPolicy] of [src/pkg/policy]): every
    flow gets the verdict of the rules that apply to the endpoint's identity and match the
    flow, or the default. *)

From Stdlib Require Import QArith.
From S2P Require Import Prelude Precedence BitLPM PolicyKey PortRange Identity RuleOrigin PassMeta MapState.
From S2P Require Import MapStateIndex MapStateLookup PolicyRule TierState TierPriorities TierEvaluation.
From S2P Require Import Labels Selectors SelectorCache SelectorCacheInv SelectorCacheSpec Repository RuleSort RepositoryInv RepositorySpec.
From S2P Require Import L4Types L4Filter L4MapState L4Resolve L4Contributions L4Evaluation L4Enforcement EndpointPolicy RepositoryPolicy.

Local Open Scope Z_scope.

Section verdict.
Context {TR : Trie LPMKey IDSet} {TL : TrieLaws LPMKey IDSet TR} {GR : GoRange} {GS : GoSort}.
Context {Sel : Type} {CS : CacheSelector Sel} {SK : SelectorKeys} {RK : RepositoryKeys Sel} {SU : SubjectKeys Sel}.
Context (e : EndpointContext) (cinfo : ClusterInfo) (EO : endpoint_ok e cinfo).
Implicit Types (p : Repository Sel) (s : repo_spec (Sel := Sel)) (si : identity) (x : Key).

(** The entries of the specification that apply to an identity, in one direction. *)
Definition applicable s si (ingress : bool) (y : ruleKey * subjectEntry Sel) : option PolicyEntry :=
  let ns := Namespace (rk_resource y.1) in
  if (bool_decide (ns = EmptyString) || bool_decide (ns = identity_namespace si)) && applies si y.2 && eqb (pe_Ingress (se_entry y.2)) ingress
  then Some (se_entry y.2) else None.

Definition applicable_entries s si (ingress : bool) : list PolicyEntry := omap (applicable s si ingress) (map_to_list (rs_entries s)).

Lemma elem_of_applicable s si ingress d : d ∈ applicable_entries s si ingress ↔
  ∃ k en, rs_entries s !! k = Some en ∧ (Namespace (rk_resource k) = EmptyString ∨ Namespace (rk_resource k) = identity_namespace si) ∧
    applies si en = true ∧ pe_Ingress (se_entry en) = ingress ∧ d = se_entry en.
Proof.
  unfold applicable_entries. rewrite list_elem_of_omap. split.
  - intros ([k en] & Hk%elem_of_map_to_list & Ha). unfold applicable in Ha. cbn [fst snd] in Ha. destruct (_ && _) eqn:E; [|done]. injection Ha as <-.
    apply andb_true_iff in E as [[E1 E2]%andb_true_iff E3%eqb_prop]. apply orb_true_iff in E1. rewrite !bool_decide_eq_true in E1. by exists k, en.
  - intros (k & en & Hk & Hn & Ha & Hi & ->). exists (k, en). split; [by apply elem_of_map_to_list|]. unfold applicable. cbn [fst snd].
    rewrite Ha, Hi, eqb_reflx. rewrite (proj2 (orb_true_iff _ _)); [done|]. by rewrite !bool_decide_eq_true.
Qed.

(** The rules that are found are the ones that apply. *)
Lemma elem_of_pick sp p s si ingress d : repo_inv sp [] p → entries_of p = rs_entries s →
  d ∈ AsPolicyEntries (pick p si ingress (candidates p si)) ↔ d ∈ applicable_entries s si ingress.
Proof.
  intros I HE. rewrite elem_of_applicable. unfold AsPolicyEntries, pick. rewrite list_elem_of_fmap. split.
  - intros (r & -> & [[Ha Hi] (k & Hk & Hr)%list_elem_of_omap]%list_elem_of_filter). apply (elem_of_candidates sp p si k I) in Hk as [_ Hn].
    exists k, (r_entry r). split_and!; try done. rewrite <- HE. unfold entries_of. by rewrite lookup_fmap, Hr.
  - intros (k & en & Hk & Hn & Ha & Hi & ->). rewrite <- HE in Hk. unfold entries_of in Hk. rewrite lookup_fmap, fmap_Some in Hk.
    destruct Hk as (r & Hr & ->). exists r. split; [done|]. apply list_elem_of_filter. split; [done|]. apply list_elem_of_omap. exists k. split; [|done].
    apply (elem_of_candidates sp p si k I). split; [by exists r|done].
Qed.

Lemma default_decision_ext cfg si ingress (a b : list PolicyEntry) x : (∀ d, d ∈ a ↔ d ∈ b) →
  default_decision e cfg si ingress a x = default_decision e cfg si ingress b x.
Proof.
  intros HAB. assert (HX : existsb DefaultDeny a = existsb DefaultDeny b).
  { apply eq_true_iff_eq. rewrite !existsb_exists. setoid_rewrite <- list_elem_of_In. by setoid_rewrite HAB. }
  assert (HN : a ≠ [] ↔ b ≠ []).
  { split; intros Hne E; apply Hne, elem_of_nil_inv; intros d Hd; [apply HAB in Hd; rewrite E in Hd|apply HAB in Hd; rewrite E in Hd]; by apply elem_of_nil in Hd. }
  unfold default_decision, denies_by_default. rewrite HX. by rewrite (bool_decide_ext _ _ HN).
Qed.

(** Entries as the API admits them: tiers below the default policy's, and valid ports. *)
Record entries_valid s : Prop := {
  ev_entry k en : rs_entries s !! k = Some en → 0 ≤ Tier (se_entry en) < DefaultPolicy ∧ L4Resolve.rule_ok (se_entry en);
  ev_size : Z.of_nat (size (rs_entries s)) < 2 ^ 59;
}.

(** The priority levels of the rules can be counted in 64 bits. *)
Definition levels_fit cfg si p : Prop :=
  ∀ i eg en, computePolicyEnforcementAndRules cfg si p = inr (i, eg) → en ∈ [i; eg] → en_rules en ≠ [] →
    ∃ need, levels_needed (AsPolicyEntries (en_rules en)) = inr need ∧ need < 2 ^ 63.

Lemma pick_ok sp p s si ingress : repo_inv sp [] p → entries_of p = rs_entries s → entries_valid s →
  rules_ok ingress (pick p si ingress (candidates p si)).
Proof.
  intros I HE [HV _] r [[_ Hi] (k & _ & Hr)%list_elem_of_omap]%list_elem_of_filter. destruct (HV k (r_entry r)) as [? ?]; [|split; [done|by split]].
  rewrite <- HE. unfold entries_of. by rewrite lookup_fmap, Hr.
Qed.

Lemma pick_length sp p s si ingress : repo_inv sp [] p → entries_of p = rs_entries s → entries_valid s →
  Z.of_nat (length (pick p si ingress (candidates p si))) < 2 ^ 59.
Proof.
  intros I HE [_ HS]. rewrite <- HE in HS. unfold entries_of in HS. rewrite map_size_fmap in HS.
  assert (HC : (length (candidates p si) ≤ size (repo_rules p))%nat).
  { rewrite <- (size_dom (repo_rules p)). apply (submseteq_length _ (elements (dom (repo_rules p)))), NoDup_submseteq; [by apply (NoDup_candidates sp)|].
    intros k [Hk _]%(elem_of_candidates sp p si k I). by apply elem_of_elements, elem_of_dom. }
  assert (HO : (length (omap (λ k, repo_rules p !! k) (candidates p si)) ≤ length (candidates p si))%nat).
  { generalize (candidates p si). intros l. induction l as [|k l IH]; [done|]. cbn. destruct (repo_rules p !! k); cbn; lia. }
  unfold pick. pose proof (length_filter (λ r : rule Sel, applies si (r_entry r) = true ∧ pe_Ingress (pe r) = ingress) (omap (λ k, repo_rules p !! k) (candidates p si))). lia.
Qed.

(** The resolution of a direction. *)
Lemma resolve_direction cfg si p sp s ingress c en d : repo_inv sp [] p → entries_of p = rs_entries s → entries_valid s →
  enforce cfg si ingress (collect_all emptyCollected (pick p si ingress (candidates p si))) = inr en →
  (en_rules en ≠ [] → ∃ need, levels_needed (AsPolicyEntries (en_rules en)) = inr need ∧ need < 2 ^ 63) →
  resolveDirection c en = inr d →
  let L := pick p si ingress (candidates p si) in
  en_has en = bool_decide (L ≠ []) || always_enforced cfg si ∧
  direction_resolved ingress (en_has en) (direction_entries cfg si ingress L) d.
Proof.
  intros I HE HV EN HL HR. cbv zeta. pose proof (pick_ok sp p s si ingress I HE HV) as HO.
  destruct (enforce_spec cfg si ingress (pick p si ingress (candidates p si))) as (en' & EN' & Hh & Hr); [intros r Hr; destruct (HO r Hr) as (? & ? & _); split; [lia|done]|].
  rewrite EN in EN'. injection EN' as <-. fold (added_entries cfg si ingress (pick p si ingress (candidates p si))) in Hr. 
  fold (direction_entries cfg si ingress (pick p si ingress (candidates p si))) in Hr. split; [done|]. unfold direction_resolved, resolveDirection in *.
  destruct (en_has en); [|by injection HR as <-]. rewrite Hr in HR. apply sbind_inr in HR as ([bases pms] & HR & [= <-]).
  destruct (en_rules en) as [|r0 rs] eqn:Er.
  - left. cbn in Hr. rewrite <- Hr in HR |- *. split; [done|]. cbn in HR. by injection HR as <- <-.
  - right. split; [|by exists c, bases, pms]. rewrite Hr in HL.
    apply direction_entries_rules; [done|by apply (pick_length sp p s)|]. by apply HL.
Qed.

(** The decision on a flow that the matching entries [m] and the configuration ask for. *)
Definition expected cfg s si (ingress : bool) x (m : list PolicyEntry) : FlowDecision :=
  if not_enforced cfg si then DecisionAllowed
  else decide_flow (default_decision e cfg si ingress (applicable_entries s si ingress) x) 0 m.

(** A direction of a distilled policy decides as expected. *)
Lemma direction_expected cfg si p sp s ingress (en : enforcement (Sel := Sel)) (ms : mapState TR) x m : repo_inv sp [] p → entries_of p = rs_entries s → entries_valid s →
  not_enforced cfg si = false → en_has en = bool_decide (pick p si ingress (candidates p si) ≠ []) || always_enforced cfg si →
  direction_enforced e ingress (en_has en) (direction_entries cfg si ingress (pick p si ingress (candidates p si))) ms →
  flow x → TrafficDirection x = traffic ingress → matched e (applicable_entries s si ingress) x m →
  MapStateEntry_IsDeny (lookup ms x).1 = is_denied (expected cfg s si ingress x m).
Proof.
  intros I HE HV Hno Hh HD Fx Dx [Hm HS]. unfold expected. rewrite Hno. rewrite Hh in HD.
  pose proof (λ d, elem_of_pick sp p s si ingress d I HE) as HP. rewrite <- (default_decision_ext cfg si ingress _ _ x HP).
  apply (direction_verdict e cfg si ingress _ ms x m); [by apply (pick_ok sp p s)|done|done|done|]. split; [|done]. intros r. by rewrite Hm, HP.
Qed.

End verdict.

(** ** Example *)

Module Examples.
#[local] Existing Instances range_elements sort_merge.

(** Subjects are selected by the value of one label; the empty value selects all. *)
Definition app_label : Label := NewLabel "app" "" LabelSourceK8s.

#[local] Instance app_selectors : CacheSelector string := {|
  cs_Key s := s;
  cs_Matches s lbls := bool_decide (s = EmptyString) || bool_decide (LookupLabel lbls app_label = (s, true));
  cs_Namespaces s := [];
  cs_IsFQDN s := false;
  cs_IsWildcard s := bool_decide (s = EmptyString);
  cs_WildcardSelector := EmptyString;
  cs_wildcard s lbls H := proj2 (orb_true_iff _ _) (or_introl H);
  cs_WildcardSelector_wildcard := eq_refl;
  cs_namespace s lbls H := ltac:(by destruct H);
|}.

#[local] Instance app_keys : SelectorKeys := {|
  wildcardSelectorKey := EmptyString;
  noneSelectorKey := "none";
  selector_IsWildcard := λ s, bool_decide (s = EmptyString);
|}.

#[local] Instance app_repository : RepositoryKeys string := {|
  hostSelectorKey := "host";
  host_not_wildcard := eq_refl;
  labelsSelector := λ _, EmptyString;
|}.

#[local] Instance app_subjects : SubjectKeys string.
Proof.
  constructor.
  - intros s s' lbls E. cbn in E. by rewrite E.
  - intros s lbls E. cbn in E. by rewrite E.
Qed.

Definition cluster : ClusterInfo := mkClusterInfo 1 "local" 255.

(** Clients have identity 300, the host has 1. *)
Definition selections (cs : string) : list Z :=
  if bool_decide (cs = "client") then [300] else if bool_decide (cs = "host") then [1]
  else if bool_decide (cs = EmptyString) then [1; 300; 400] else [].

Definition endpoint : EndpointContext := mkEndpoint selections (λ _ _ _ _, Some 0) (λ _ _, 0) (λ _ _ _, []).

Lemma endpoint_example_ok : endpoint_ok endpoint cluster.
Proof.
  constructor; cbn.
  - done.
  - done.
  - intros cs id. unfold selections. repeat case_bool_decide; rewrite ?elem_of_cons, ?elem_of_nil; intros Hin; repeat destruct Hin as [->|Hin]; try done; by vm_compute.
  - intros cs id. unfold selections. repeat case_bool_decide; subst; try done; rewrite ?elem_of_cons, ?elem_of_nil; tauto.
  - intros. by exists 0.
  - done.
  - by intros name proto ids id port ?%elem_of_nil.
  - by intros name proto ids ids' id port ?%elem_of_nil.
Qed.

Definition web_labels : Labels.Labels := FromSlice [NewLabel "app" "web" LabelSourceK8s].

(** Clients may connect to port 80 of web servers, nobody else may connect to them. *)
Definition web_rule : PolicyEntry :=
  mkPolicyEntry 200 0 EmptyString (Some ["client"]) [mkPortRule [mkPortProtocol "80" 0 "TCP"] None None [] None None] "[web]" true Allow true.

Definition web_entry : subjectEntry string := mkSubjectEntry web_rule "web" false.

Definition history : list (repo_op (Sel := string)) :=
  [RUpdateIdentities {[ 100 := web_labels ]} ∅; RReplace [web_entry; web_entry] "ccnp//web"; RReplace [web_entry] "ccnp//web"].

Definition web_identity : identity := mkIdentity 100 web_labels [NewLabel "app" "web" LabelSourceK8s].
Definition web_config : RepoConfig := mkRepoConfig false DefaultEnforcement true.
Definition no_secrets : apiTLSContext → error + (string * string * string * bool) := λ _, inl ErrTLSContext.

Definition web_spec : repo_spec (Sel := string) := repo_spec_runs history emptyRepoSpec.
Definition web_repository : Repository string := repo_runs history NewPolicyRepository.

Definition compute_web := computePolicyEnforcementAndRules web_config web_identity web_repository.
Definition web_enforcement : enforcement (Sel := string) * enforcement (Sel := string) :=
  match compute_web with inr x => x | inl _ => (notEnforced, notEnforced) end.

Definition web_policy : selectorPolicy :=
  match resolvePolicyLocked web_config no_secrets web_identity web_repository with
  | inr pol => pol
  | inl _ => mkSelectorPolicy 0 false false newL4DirectionPolicy newL4DirectionPolicy
  end.

(** A flow from a client to port 80. *)
Definition client_flow : Key := WithTCPPort (WithIdentity IngressKey 300) 80.

Lemma history_ok : repo_history history.
Proof.
  constructor; [|by vm_compute]. unfold history. cbn [repo_ops_ok repo_op_ok]. unfold labels_kept. split_and!; try done; try set_solver.
Qed.

Lemma web_valid : entries_valid web_spec.
Proof.
  assert (EM : map_to_list (rs_entries web_spec) = [(mkRuleKey "ccnp//web" 0, web_entry)]) by (by vm_compute).
  constructor; [|by vm_compute]. intros k en Hk%elem_of_map_to_list. rewrite EM in Hk. apply list_elem_of_singleton in Hk as [= -> ->].
  assert (EP : rule_ports web_rule = [(mkPortRule [mkPortProtocol "80" 0 "TCP"] None None [] None None, mkPortProtocol "80" 0 "TCP")]) by (vm_compute; reflexivity).
  split; [split; vm_compute; congruence|].
  unfold L4Resolve.rule_ok.
  change (se_entry web_entry) with web_rule.
  rewrite EP.
  constructor; [|constructor].
  split; [by intros l Hl|].
  constructor; cbn [snd pp_Protocol pp_Port]; [intros [HP|HP]|intros HP]; vm_compute in HP; discriminate.
Qed.

Lemma web_levels : levels_fit web_config web_identity web_repository.
Proof.
  assert (EC : computePolicyEnforcementAndRules web_config web_identity web_repository = inr web_enforcement) by (by vm_compute).
  intros i eg en E Hin Hne. pose proof (inj inr _ _ (eq_trans (eq_sym EC) E)) as E'. clear EC E. rewrite !elem_of_cons, elem_of_nil in Hin.
  pose proof (f_equal fst E') as E1. pose proof (f_equal snd E') as E2. cbn [fst snd] in E1, E2. destruct Hin as [->|[->|[]]].
  - exists 20. rewrite <- E1. split; vm_compute; reflexivity.
  - destruct Hne. rewrite <- E2. vm_compute. reflexivity.
Qed.

Lemma flow_ok : flow client_flow.
Proof.
  split; [|reflexivity]. apply (WithPortProtoPrefix_wf (WithIdentity IngressKey 300) 6 80 16); by vm_compute.
Qed.

Lemma flow_matched : matched endpoint (applicable_entries (repo_spec_runs history emptyRepoSpec) web_identity true) client_flow [web_rule].
Proof.
  assert (EA : applicable_entries (repo_spec_runs history emptyRepoSpec) web_identity true = [web_rule]) by (vm_compute; reflexivity).
  rewrite EA. split; [|constructor; constructor]. intros r. rewrite list_elem_of_singleton. split; [|tauto]. intros ->. split; [done|].
  eexists "client", _, _. split; [by apply list_elem_of_singleton|]. split; [by apply list_elem_of_singleton|].
  split; [reflexivity|]. split; [right; by apply list_elem_of_singleton|]. right. split; [reflexivity|]. right. vm_compute. split; congruence.
Qed.


(** The rules of the resource are removed. *)
Lemma replace_by_resource_witness :
  repo_history (history ++ [RReplace [] "ccnp//web"]) ∧
  entries_of (ReplaceByResource [] "ccnp//web" (repo_runs history NewPolicyRepository)).1.1 =
    new_entries "ccnp//web" 0 [] ∪ filter (λ y, rk_resource y.1 ≠ "ccnp//web") (rs_entries (repo_spec_runs history emptyRepoSpec)).
Proof.
  assert (HH : repo_history (history ++ [RReplace [] "ccnp//web"])).
  { destruct history_ok as [H1 _]. constructor; [|by vm_compute]. apply repo_ops_ok_app. split; [exact H1|]. split; exact I. }
  split; [exact HH|]. apply (replace_by_resource history [] "ccnp//web" HH). discriminate.
Defined.
End Examples.
