(* ===== verification/DnsZombies.v ===== *)
(** * IPs that outlive their DNS records

    Model of [DNSZombieMappings] of [src/pkg/fqdn/cache.go]: addresses whose DNS data expired or was
    evicted are kept as zombies while connections use them.  The connection tracking garbage
    collector marks them alive; the zombies that stay unmarked over two of its runs are dead. *)

From stdpp Require Import sorting.
From S2P Require Import Prelude Text Netip GoLib.

Local Open Scope Z_scope.

#[export] Instance Addr_countable : Countable Addr.
Proof.
  refine (inj_countable' (λ a, match a with V4 w => inl w | V6 w z => inr (w, z) end : Z + Z * text)
    (λ x, match x with inl w => V4 w | inr (w, z) => V6 w z end) _). by intros [].
Defined.

Record DNSZombieMapping := mkZombie {
  Names : gset string;
  z_IP : Addr;
  AliveAt : Time;
  DeletePendingAt : Time;
  revisionAddedAt : Z;
}.

Record DNSZombieMappings := mkZombies {
  deletes : gmap Addr DNSZombieMapping;
  lastCTGCUpdate : Time;
  nextCTGCUpdate : Time;
  ctGCRevision : Z;
  zombies_max : Z;
  zombies_perHostLimit : Z;
}.

Definition NewDNSZombieMappings (max perHostLimit : Z) : DNSZombieMappings :=
  mkZombies ∅ zeroTime zeroTime 0 max perHostLimit.

Definition set_deletes (m : gmap Addr DNSZombieMapping) (zs : DNSZombieMappings) : DNSZombieMappings :=
  mkZombies m (lastCTGCUpdate zs) (nextCTGCUpdate zs) (ctGCRevision zs) (zombies_max zs) (zombies_perHostLimit zs).

(** The revision is not copied. *)
Definition zombie_DeepCopy (z : DNSZombieMapping) : DNSZombieMapping :=
  mkZombie (Names z) (z_IP z) (AliveAt z) (DeletePendingAt z) 0.

(** ** Operations *)

Definition zombies_Upsert (expiryTime : Time) (addr : Addr) (qname : list string) (zs : DNSZombieMappings)
  : DNSZombieMappings * bool :=
  let names := list_to_set qname in
  match deletes zs !! addr with
  | None =>
      (set_deletes (<[addr := mkZombie names addr (lastCTGCUpdate zs) expiryTime (ctGCRevision zs)]> (deletes zs)) zs, false)
  | Some z =>
      let pending := if time_After expiryTime (DeletePendingAt z) then expiryTime else DeletePendingAt z in
      let alive := if time_After (lastCTGCUpdate zs) (AliveAt z) then lastCTGCUpdate zs else AliveAt z in
      (set_deletes (<[addr := mkZombie (Names z ∪ names) (z_IP z) alive pending (revisionAddedAt z)]> (deletes zs)) zs, true)
  end.

Definition MarkAlive (now : Time) (ip : Addr) (zs : DNSZombieMappings) : DNSZombieMappings :=
  match deletes zs !! ip with
  | None => zs
  | Some z => set_deletes (<[ip := mkZombie (Names z) (z_IP z) now (DeletePendingAt z) (revisionAddedAt z)]> (deletes zs)) zs
  end.

Definition SetCTGCTime (ctGCStart estNext : Time) (zs : DNSZombieMappings) : DNSZombieMappings :=
  mkZombies (deletes zs) ctGCStart estNext (uwrap 64 (ctGCRevision zs + 1)) (zombies_max zs) (zombies_perHostLimit zs).

Definition NextCTGCUpdate (zs : DNSZombieMappings) : Time := nextCTGCUpdate zs.

Section zombies.
Context {GR : GoRange} {GS : GoSort} (grace : Z).
Implicit Types (zs : DNSZombieMappings) (z : DNSZombieMapping) (aliveNames : gmap string (list DNSZombieMapping)).

(** [grace] is the option [ToFQDNsIdleConnectionGracePeriod]. *)
Definition isConnectionAlive zs z : bool :=
  if negb (time_After (lastCTGCUpdate zs) (time_Add (DeletePendingAt z) grace)) then true
  else if negb (time_After (lastCTGCUpdate zs) (AliveAt z)) then true
  else ctGCRevision zs <? uwrap 64 (revisionAddedAt z + 2).

Definition add_zombie (create : bool) z aliveNames (name : string) : gmap string (list DNSZombieMapping) :=
  match aliveNames !! name with
  | Some l => <[name := l ++ [z]]> aliveNames
  | None => if create then <[name := [z]]> aliveNames else aliveNames
  end.

Definition getAliveNames zs : gmap string (list DNSZombieMapping) :=
  let all := range_values (deletes zs) in
  let live := foldl (λ m z, if isConnectionAlive zs z then foldl (add_zombie true z) m (range (Names z)) else m) ∅ all in
  foldl (λ m z, if negb (isConnectionAlive zs z) then foldl (add_zombie false z) m (range (Names z)) else m) live all.

Fixpoint alive_loop (limit : Z) aliveNames (alive : bool) (names : list string) : bool * bool :=
  match names with
  | [] => (alive, false)
  | name :: names =>
      match aliveNames !! name with
      | None => alive_loop limit aliveNames alive names
      | Some l =>
          if limit =? 0 then (true, false)
          else if limit <? Z.of_nat (length l) then (true, true)
          else alive_loop limit aliveNames true names
      end
  end.

Definition isZombieAlive zs z aliveNames : bool * bool :=
  let alive := isConnectionAlive zs z in
  if alive && (zombies_perHostLimit zs =? 0) then (true, false)
  else alive_loop (zombies_perHostLimit zs) aliveNames alive (range (Names z)).

(** Less important zombies first: marked alive earlier, scheduled for deletion earlier, fewer names. *)
Definition zombie_le z z' : Prop :=
  AliveAt z < AliveAt z' ∨ AliveAt z = AliveAt z' ∧
    (DeletePendingAt z < DeletePendingAt z' ∨ DeletePendingAt z = DeletePendingAt z' ∧
      (size (Names z) ≤ size (Names z'))%nat).

#[export] Instance zombie_le_dec z z' : Decision (zombie_le z z').
Proof. unfold zombie_le. apply _. Defined.

Definition sortZombieMappingSlice (l : list DNSZombieMapping) : list DNSZombieMapping := sort_by zombie_le l.

(** The names over the limit: the zombies to evict, and those that may stay. *)
Definition evict_names (limit : Z) (names : list (list DNSZombieMapping))
    (acc : list DNSZombieMapping * gmap Addr DNSZombieMapping) : list DNSZombieMapping * gmap Addr DNSZombieMapping :=
  foldl (λ acc l,
    if Z.of_nat (length l) <=? limit then acc
    else
      let sorted := sortZombieMappingSlice l in
      let over := (length l - Z.to_nat limit)%nat in
      (acc.1 ++ take over sorted, foldl (λ m z, <[z_IP z := z]> m) acc.2 (drop over sorted))) acc names.

(** The alive and the dead zombies; pointers to zombies are identified by their addresses. *)
Definition zombies_GC zs : DNSZombieMappings * (list DNSZombieMapping * list DNSZombieMapping) :=
  let aliveNames := getAliveNames zs in
  let acc := foldl (λ acc z,
      let '(alive, overLimit) := isZombieAlive zs z aliveNames in
      if overLimit then acc
      else if alive then (acc.1 ++ [zombie_DeepCopy z], acc.2) else (acc.1, acc.2 ++ [z]))
      ([], []) (range_values (deletes zs)) in
  let acc :=
    if 0 <? zombies_perHostLimit zs then
      let '(evicted, possible) := evict_names (zombies_perHostLimit zs) (range_values aliveNames) ([], ∅) in
      let possible := foldl (λ m z, delete (z_IP z) m) possible evicted in
      (acc.1 ++ (zombie_DeepCopy <$> range_values possible), acc.2 ++ evicted)
    else acc in
  let over := Z.of_nat (length acc.1) - zombies_max zs in
  let acc :=
    if 0 <? over then
      let sorted := sortZombieMappingSlice acc.1 in
      (drop (Z.to_nat over) sorted, acc.2 ++ take (Z.to_nat over) sorted)
    else acc in
  (set_deletes (foldl (λ m z, delete (z_IP z) m) (deletes zs) acc.2) zs, acc).

(** ** Forced expiry *)

(** Only with a time the zombies scheduled after it are spared. *)
Definition spared (expireLookupsBefore : Time) z : bool :=
  negb (time_IsZero expireLookupsBefore) && time_After (DeletePendingAt z) expireLookupsBefore.

(** [nameMatch]: [None] matches all names. *)
Definition zombies_ForceExpire (expireLookupsBefore : Time) (nameMatch : option (string → bool)) zs
  : DNSZombieMappings * list string :=
  let matched name := match nameMatch with Some m => m name | None => true end in
  let '(m, affected) := foldl (λ acc ip,
      match acc.1 !! ip with
      | None => acc
      | Some z =>
          if spared expireLookupsBefore z then acc
          else
            let gone := filter (λ name, matched name = true) (range (Names z)) in
            (<[ip := mkZombie (Names z ∖ list_to_set gone) (z_IP z) (AliveAt z) (DeletePendingAt z) (revisionAddedAt z)]> acc.1,
             acc.2 ++ gone)
      end) (deletes zs, []) (range (dom (deletes zs))) in
  let toDelete := filter (λ z, negb (spared expireLookupsBefore z) = true ∧ Names z = ∅) (range_values m) in
  (set_deletes (foldl (λ m z, delete (z_IP z) m) m toDelete) zs, affected).

Definition zombies_ForceExpireByNameIP (expireLookupsBefore : Time) (name : string) (ips : list Addr) zs : DNSZombieMappings :=
  foldl (λ zs ip,
    match deletes zs !! ip with
    | None => zs
    | Some z =>
        if spared expireLookupsBefore z then zs
        else
          let names := Names z ∖ {[name]} in
          set_deletes
            (if bool_decide (names = ∅) then delete ip (deletes zs)
             else <[ip := mkZombie names (z_IP z) (AliveAt z) (DeletePendingAt z) (revisionAddedAt z)]> (deletes zs)) zs
    end) zs ips.

(** ** Reading *)

Definition DumpAlive (prefixMatcher : option (Addr → bool)) zs : list DNSZombieMapping :=
  let aliveNames := getAliveNames zs in
  zombie_DeepCopy <$> filter (λ z,
    (isZombieAlive zs z aliveNames).1 = true ∧
    match prefixMatcher with Some m => m (z_IP z) | None => true end = true) (range_values (deletes zs)).

(** After restoring, the revisions start again; [m] is the map that the decoder leaves. *)
Definition zombies_restore (m : gmap Addr DNSZombieMapping) zs : DNSZombieMappings :=
  set_deletes ((λ z, mkZombie (Names z) (z_IP z) (AliveAt z) (DeletePendingAt z) (ctGCRevision zs)) <$> m) zs.
End zombies.
