(* ===== verification/DnsZombiesGC.v ===== *)
(** * Garbage collection of zombies

    [DNSZombieMappings.GC] splits the zombies into those that stay and those that are removed: every
    zombie is in one of the two, the limits hold afterwards and cost the least important zombies, and
    as long as the limits do not bind a zombie is removed only after two runs of the connection
    tracking garbage collector that did not see it, or by a forced expiry. *)

From stdpp Require Import sorting.
From S2P Require Import Prelude Text Netip GoLib DnsZombies.

Local Open Scope Z_scope.

#[export] Instance zombie_le_total : Total zombie_le.
Proof. intros z z'. unfold zombie_le. lia. Qed.

#[export] Instance zombie_le_trans : Transitive zombie_le.
Proof. intros x y z. unfold zombie_le. lia. Qed.

Lemma take_drop_elem {A} n (l : list A) x : x ∈ l ↔ x ∈ take n l ∨ x ∈ drop n l.
Proof. rewrite <- elem_of_app. by rewrite take_drop. Qed.

Section gc.
Context {GR : GoRange} {GS : GoSort} (grace : Z).
Implicit Types (zs : DNSZombieMappings) (z : DNSZombieMapping) (name : string) (m : gmap string (list DNSZombieMapping)).

(** Zombies are filed under their addresses. *)
Definition zombies_ok zs : Prop := ∀ ip z, deletes zs !! ip = Some z → z_IP z = ip.

Notation alive zs := (isConnectionAlive grace zs).
Notation all zs := (range_values (deletes zs)).

(** ** Names *)

Definition extended (create : bool) (old : option (list DNSZombieMapping)) (l : list DNSZombieMapping) : option (list DNSZombieMapping) :=
  match old with
  | Some l0 => Some (l0 ++ l)
  | None => if create then match l with [] => None | _ => Some l end else None
  end.

Lemma add_names create z names : NoDup names → ∀ m name,
  foldl (add_zombie create z) m names !! name = if bool_decide (name ∈ names) then extended create (m !! name) [z] else m !! name.
Proof.
  induction 1 as [|n names Hn H IH]; intros m name; [done|]. cbn [foldl]. rewrite IH.
  assert (HA : add_zombie create z m n !! name = if decide (n = name) then extended create (m !! name) [z] else m !! name).
  { unfold add_zombie, extended. destruct (decide (n = name)) as [<-|Hne].
    - destruct (m !! n) as [l|] eqn:E; [by rewrite lookup_insert_eq|]. destruct create; [by rewrite lookup_insert_eq|done].
    - destruct (m !! n) as [l|]; [by rewrite lookup_insert_ne|]. destruct create; [by rewrite lookup_insert_ne|done]. }
  rewrite HA. destruct (decide (n = name)) as [<-|Hne].
  - rewrite bool_decide_eq_false_2 by done. rewrite bool_decide_eq_true_2 by (by left). done.
  - destruct (bool_decide_reflect (name ∈ names)).
    + rewrite bool_decide_eq_true_2 by (by right). done.
    + rewrite bool_decide_eq_false_2; [done|]. intros [?|?]%elem_of_cons; congruence.
Qed.

Lemma add_zombies create (P : DNSZombieMapping → bool) (l : list DNSZombieMapping) : ∀ m name,
  foldl (λ m z, if P z then foldl (add_zombie create z) m (range (Names z)) else m) m l !! name =
  extended create (m !! name) (filter (λ z, P z = true ∧ name ∈ Names z) l).
Proof.
  induction l as [|z l IH]; intros m name; cbn [foldl].
  { unfold extended. destruct (m !! name); [by rewrite filter_nil, app_nil_r|by destruct create]. }
  rewrite IH, filter_cons. destruct (P z) eqn:EP.
  - rewrite add_names by apply NoDup_range. destruct (bool_decide_reflect (name ∈ range (Names z))) as [Hn|Hn]; rewrite elem_of_range in Hn.
    + rewrite decide_True by done. unfold extended. destruct (m !! name); [by rewrite <- app_assoc|]. by destruct create.
    + rewrite decide_False by naive_solver. done.
  - rewrite decide_False by (intros [? _]; congruence). done.
Qed.

(** The zombies of a name that some live connection uses. *)
Lemma getAliveNames_lookup zs name : getAliveNames grace zs !! name =
  let live := filter (λ z, alive zs z = true ∧ name ∈ Names z) (all zs) in
  match live with
  | [] => None
  | _ => Some (live ++ filter (λ z, negb (alive zs z) = true ∧ name ∈ Names z) (all zs))
  end.
Proof.
  unfold getAliveNames. rewrite (add_zombies false (λ z, negb (alive zs z))), (add_zombies true (alive zs)), lookup_empty.
  cbn [extended]. by destruct (filter _ (all zs)).
Qed.

Lemma alive_names_elem zs name l z : getAliveNames grace zs !! name = Some l → z ∈ l ↔ z ∈ all zs ∧ name ∈ Names z.
Proof.
  rewrite getAliveNames_lookup. cbv zeta. destruct (filter (λ z, alive zs z = true ∧ name ∈ Names z) (all zs)) as [|z0 l0] eqn:E; [done|].
  intros [= <-]. rewrite app_comm_cons, <- E, elem_of_app, !list_elem_of_filter. destruct (alive zs z) eqn:Ez; cbn; naive_solver.
Qed.

Lemma alive_names_some zs name : is_Some (getAliveNames grace zs !! name) ↔ ∃ z, z ∈ all zs ∧ alive zs z = true ∧ name ∈ Names z.
Proof.
  rewrite getAliveNames_lookup. cbv zeta. destruct (filter (λ z, alive zs z = true ∧ name ∈ Names z) (all zs)) as [|z0 l0] eqn:E.
  - split; [by intros []|]. intros (z & Hz & Ha). assert (Hin : z ∈ filter (λ z, alive zs z = true ∧ name ∈ Names z) (all zs)) by (by apply list_elem_of_filter).
    rewrite E in Hin. by apply elem_of_nil in Hin.
  - split; [intros _|by eexists]. exists z0.
    assert (Hin : z0 ∈ filter (λ z, alive zs z = true ∧ name ∈ Names z) (all zs)) by (rewrite E; by left).
    apply list_elem_of_filter in Hin. naive_solver.
Qed.

(** ** Which zombies are alive *)

Definition named_live zs z : Prop := ∃ name, name ∈ Names z ∧ is_Some (getAliveNames grace zs !! name).
Definition over_limit zs z : Prop := ∃ name l, name ∈ Names z ∧ getAliveNames grace zs !! name = Some l ∧
  zombies_perHostLimit zs < Z.of_nat (length l).

(** The other zombies of a name that are at least as important. *)
Definition outranked zs name z : Z :=
  Z.of_nat (length (filter (λ k, name ∈ Names k ∧ zombie_le z k ∧ z_IP k ≠ z_IP z) (all zs))).

(** A name in use has the limit's number of zombies without this one. *)
Definition over_host zs z : Prop := ∃ name, name ∈ Names z ∧ is_Some (getAliveNames grace zs !! name) ∧
  zombies_perHostLimit zs ≤ outranked zs name z.

Lemma alive_loop_spec limit m names : ∀ b,
  let r := alive_loop limit m b names in
  (r.2 = true ↔ limit ≠ 0 ∧ ∃ name l, name ∈ names ∧ m !! name = Some l ∧ limit < Z.of_nat (length l)) ∧
  (r.2 = false → r.1 = true ↔ b = true ∨ ∃ name, name ∈ names ∧ is_Some (m !! name)).
Proof.
  induction names as [|n names IH]; intros b; cbn [alive_loop].
  { split; [|by intros _; split; [left|intros [?|(name & ?%elem_of_nil & _)]]]. split; [done|]. by intros (_ & name & l & ?%elem_of_nil & _). }
  assert (HE : ∀ P : string → Prop, (∃ name, name ∈ n :: names ∧ P name) ↔ P n ∨ ∃ name, name ∈ names ∧ P name).
  { intros P. setoid_rewrite elem_of_cons. naive_solver. }
  assert (HE2 : (∃ name l, name ∈ n :: names ∧ m !! name = Some l ∧ limit < Z.of_nat (length l)) ↔
    (∃ l, m !! n = Some l ∧ limit < Z.of_nat (length l)) ∨ ∃ name l, name ∈ names ∧ m !! name = Some l ∧ limit < Z.of_nat (length l)).
  { split.
    - intros (name & l & [-> |Hn]%elem_of_cons & Hl); [left; by exists l|right; by exists name, l].
    - intros [(l & Hl)|(name & l & Hn & Hl)]; [exists n, l; split; [by left|done]|exists name, l; split; [by right|done]]. }
  rewrite HE, HE2. clear HE HE2. pose proof (IH true) as [T1 T2]. pose proof (IH b) as [B1 B2]. clear IH.
  set (over := ∃ name l, name ∈ names ∧ _) in *. set (some := ∃ name, name ∈ names ∧ _) in *. clearbody over some.
  destruct (m !! n) as [l|] eqn:E.
  - assert (HS : is_Some (Some l)) by done.
    destruct (Z.eqb_spec limit 0) as [E0|E0]; [|destruct (Z.ltb_spec limit (Z.of_nat (length l))) as [HL|HL]]; cbn [fst snd].
    + split; [|tauto]. split; [done|tauto].
    + split; [|done]. split; [|done]. intros _. split; [done|]. left. by exists l.
    + split; [|tauto]. rewrite T1. split; [tauto|]. intros (_ & [(l' & [= <-] & ?)|?]); [lia|tauto].
  - assert (HS : ¬ is_Some (None : option (list DNSZombieMapping))) by (by intros []).
    split; [|tauto]. rewrite B1. split; [tauto|]. intros (H0 & [(l' & [=] & _)|?]). tauto.
Qed.

Lemma isZombieAlive_spec zs z : let r := isZombieAlive grace zs z (getAliveNames grace zs) in
  (r.2 = true ↔ zombies_perHostLimit zs ≠ 0 ∧ over_limit zs z) ∧
  (r.2 = false → r.1 = true ↔ alive zs z = true ∨ named_live zs z).
Proof.
  cbv zeta. unfold isZombieAlive. destruct (_ && _) eqn:E.
  - apply andb_true_iff in E as [Ha H0%Z.eqb_eq]. cbn. split; [naive_solver|]. intros _. rewrite Ha. naive_solver.
  - destruct (alive_loop_spec (zombies_perHostLimit zs) (getAliveNames grace zs) (range (Names z)) (alive zs z)) as [H1 H2].
    rewrite H1. unfold over_limit, named_live. setoid_rewrite elem_of_range. split; [done|]. intros Hr. rewrite (H2 Hr).
    by setoid_rewrite elem_of_range.
Qed.

(** ** The stages of the collection *)

Notation ips := (fmap z_IP).

Lemma classify zs (l : list DNSZombieMapping) : ∀ acc : list DNSZombieMapping * list DNSZombieMapping,
  foldl (λ acc z,
      let '(alive, overLimit) := isZombieAlive grace zs z (getAliveNames grace zs) in
      if overLimit then acc
      else if alive then (acc.1 ++ [zombie_DeepCopy z], acc.2) else (acc.1, acc.2 ++ [z])) acc l =
  (acc.1 ++ (zombie_DeepCopy <$> filter (λ z, isZombieAlive grace zs z (getAliveNames grace zs) = (true, false)) l),
   acc.2 ++ filter (λ z, isZombieAlive grace zs z (getAliveNames grace zs) = (false, false)) l).
Proof.
  induction l as [|z l IH]; intros acc; cbn [foldl]; [rewrite !app_nil_r; by destruct acc|].
  rewrite IH, !filter_cons. destruct (isZombieAlive grace zs z (getAliveNames grace zs)) as [[] []]; cbn [fst snd];
    repeat (first [rewrite decide_True by done|rewrite decide_False by done]); cbn; by rewrite <- ?app_assoc.
Qed.

Definition kept_of limit (l : list DNSZombieMapping) := drop (length l - Z.to_nat limit) (sortZombieMappingSlice l).
Definition evicted_of limit (l : list DNSZombieMapping) := take (length l - Z.to_nat limit) (sortZombieMappingSlice l).

Lemma kept_or_evicted limit l z : z ∈ l ↔ z ∈ evicted_of limit l ∨ z ∈ kept_of limit l.
Proof. unfold kept_of, evicted_of. rewrite <- take_drop_elem. unfold sortZombieMappingSlice. by rewrite sort_by_perm. Qed.

Lemma insert_zombies (l : list DNSZombieMapping) : ∀ (m : gmap Addr DNSZombieMapping) ip z,
  foldl (λ d z, <[z_IP z := z]> d) m l !! ip = Some z → m !! ip = Some z ∨ z ∈ l ∧ z_IP z = ip.
Proof.
  induction l as [|z0 l IH]; intros m ip z; cbn [foldl]; [by left|]. intros [E|[? ?]]%IH; [|right; split; [by right|done]].
  apply lookup_insert_Some in E as [[<- <-]|[_ ?]]; [right; split; [by left|done]|by left].
Qed.

Lemma insert_zombies_dom (l : list DNSZombieMapping) : ∀ (m : gmap Addr DNSZombieMapping) ip,
  is_Some (m !! ip) ∨ ip ∈ ips l → is_Some (foldl (λ d z, <[z_IP z := z]> d) m l !! ip).
Proof.
  induction l as [|z0 l IH]; intros m ip; cbn [foldl fmap list_fmap]; [by intros [?|?%elem_of_nil]|]. intros H. apply IH.
  rewrite lookup_insert_is_Some'. rewrite elem_of_cons in H. naive_solver.
Qed.

Lemma delete_zombies (l : list DNSZombieMapping) : ∀ (m : gmap Addr DNSZombieMapping) ip z,
  foldl (λ d z, delete (z_IP z) d) m l !! ip = Some z ↔ m !! ip = Some z ∧ ip ∉ ips l.
Proof.
  induction l as [|z0 l IH]; intros m ip z; cbn [foldl fmap list_fmap]; [split; [intros; split; [done|apply not_elem_of_nil]|naive_solver]|].
  rewrite IH, lookup_delete_Some, not_elem_of_cons. naive_solver.
Qed.

Lemma evict_spec limit (ls : list (list DNSZombieMapping)) : ∀ acc,
  let r := evict_names limit ls acc in
  (∀ z, z ∈ r.1 ↔ z ∈ acc.1 ∨ ∃ l, l ∈ ls ∧ limit < Z.of_nat (length l) ∧ z ∈ evicted_of limit l) ∧
  (∀ ip z, r.2 !! ip = Some z → acc.2 !! ip = Some z ∨ ∃ l, l ∈ ls ∧ limit < Z.of_nat (length l) ∧ z ∈ kept_of limit l ∧ z_IP z = ip) ∧
  (∀ ip, is_Some (acc.2 !! ip) ∨ (∃ l z, l ∈ ls ∧ limit < Z.of_nat (length l) ∧ z ∈ kept_of limit l ∧ z_IP z = ip) → is_Some (r.2 !! ip)).
Proof.
  induction ls as [|l ls IH]; intros acc; cbv zeta; unfold evict_names; cbn [foldl].
  { split_and!.
    - intros z. split; [by left|]. by intros [?|(l & ?%elem_of_nil & _)].
    - intros ip z ?. by left.
    - intros ip [?|(l & z & ?%elem_of_nil & _)]; done. }
  fold (evict_names limit ls). setoid_rewrite elem_of_cons. destruct (Z.leb_spec (Z.of_nat (length l)) limit) as [HL|HL].
  - destruct (IH acc) as (I1 & I2 & I3). split_and!.
    + intros z. rewrite I1. split; [naive_solver|]. intros [?|(l' & [-> |Hl] & Ho & Hz)]; [by left|lia|right; by exists l'].
    + intros ip z [?|(l' & Hl & Ho & Hz)]%I2; [by left|right; exists l'; auto].
    + intros ip [?|(l' & z & [-> |Hl] & Ho & Hz)]; [apply I3; by left|lia|apply I3; right; by exists l', z].
  - destruct (IH (acc.1 ++ evicted_of limit l, foldl (λ d z, <[z_IP z := z]> d) acc.2 (kept_of limit l))) as (I1 & I2 & I3).
    cbn [fst snd] in I1, I2, I3. split_and!.
    + intros z. setoid_rewrite I1. rewrite elem_of_app. split.
      * intros [[?|?]|(l' & Hl & Hr)]; [by left|right; exists l; auto|right; exists l'; auto].
      * intros [?|(l' & [-> |Hl] & Ho & Hz)]; [by left; left|by left; right|right; by exists l'].
    + intros ip z Hr. apply I2 in Hr as [[?|[Hz Hi]]%insert_zombies|(l' & Hl & Hr)]; [by left|right; exists l; auto|right; exists l'; auto].
    + intros ip H. apply I3. destruct H as [?|(l' & z & [-> |Hl] & Ho & Hz & <-)].
      * left. apply insert_zombies_dom. by left.
      * left. apply insert_zombies_dom. right. by apply list_elem_of_fmap_2.
      * right. by exists l', z.
Qed.

(** A division of the zombies into copies that stay and zombies to remove. *)
Record gc_split zs (A D : list DNSZombieMapping) : Prop := {
  gs_alive z : z ∈ A → ∃ z0, deletes zs !! z_IP z = Some z0 ∧ z = zombie_DeepCopy z0;
  gs_dead z : z ∈ D → is_Some (deletes zs !! z_IP z);
  gs_nodup : NoDup (ips A);
  gs_all ip : is_Some (deletes zs !! ip) → ip ∈ ips A ∨ ip ∈ ips D;
  gs_disjoint ip : ip ∈ ips A → ip ∉ ips D;
}.

Section collection.
Context (zs : DNSZombieMappings) (OK : zombies_ok zs).

Lemma elem_of_all z : z ∈ all zs ↔ deletes zs !! z_IP z = Some z.
Proof.
  rewrite elem_of_range_values. split; [|by eexists]. intros (ip & E). by rewrite (OK ip z E).
Qed.

Lemma NoDup_all : NoDup (ips (all zs)).
Proof.
  unfold range_values. assert (HG : ∀ l : list Addr, NoDup l → NoDup (ips (omap (λ k, deletes zs !! k) l))); [|apply HG, NoDup_range].
  induction 1 as [|ip l Hn H IH]; [constructor|]. cbn [omap list_omap]. destruct (deletes zs !! ip) as [z|] eqn:E; [|done].
  cbn [fmap list_fmap]. rewrite (OK ip z E). constructor; [|done].
  intros (z' & -> & (ip' & Hip & E')%list_elem_of_omap)%list_elem_of_fmap. apply Hn. by rewrite (OK ip' z' E').
Qed.

Lemma all_inj z z' : z ∈ all zs → z' ∈ all zs → z_IP z = z_IP z' → z = z'.
Proof. rewrite !elem_of_all. intros E E' Hi. rewrite Hi in E. congruence. Qed.

(** The zombies kept or removed outright. *)
Notation status z := (isZombieAlive grace zs z (getAliveNames grace zs)).
Notation A0 := (zombie_DeepCopy <$> filter (λ z, status z = (true, false)) (all zs)).
Notation D0 := (filter (λ z, status z = (false, false)) (all zs)).

Lemma copy_ips (l : list DNSZombieMapping) : ips (zombie_DeepCopy <$> l) = ips l.
Proof. rewrite <- list_fmap_compose. done. Qed.

Lemma NoDup_ips_filter (P : DNSZombieMapping → Prop) `{∀ z, Decision (P z)} l : NoDup (ips l) → NoDup (ips (filter P l)).
Proof.
  induction l as [|z l IH]; [done|]. cbn [fmap list_fmap]. rewrite NoDup_cons. intros [Hn Hl]. rewrite filter_cons.
  destruct (decide (P z)); [|by apply IH]. cbn [fmap list_fmap]. constructor; [|by apply IH].
  intros (z' & Ez & [_ Hz]%list_elem_of_filter)%list_elem_of_fmap. apply Hn. rewrite Ez. by apply list_elem_of_fmap_2.
Qed.

Lemma stage_free : zombies_perHostLimit zs = 0 → gc_split zs A0 D0.
Proof.
  intros H0.
  assert (HO : ∀ z, (status z).2 = false).
  { intros z. destruct (isZombieAlive_spec zs z) as [H1 _]. destruct (status z).2; [|done]. by destruct (proj1 H1 eq_refl). }
  constructor.
  - intros z (z0 & -> & [_ Hz%elem_of_all]%list_elem_of_filter)%list_elem_of_fmap. by exists z0.
  - intros z [_ Hz%elem_of_all]%list_elem_of_filter. by eexists.
  - rewrite copy_ips. apply NoDup_ips_filter, NoDup_all.
  - intros ip [z Hz]. pose proof (OK ip z Hz) as Hi. subst ip. apply elem_of_all in Hz. rewrite copy_ips.
    specialize (HO z). destruct (status z) as [[] b] eqn:Es; cbn in HO; subst b; [left|right];
      apply list_elem_of_fmap_2, list_elem_of_filter; done.
  - intros ip. rewrite copy_ips. intros (z & -> & [E1 Hz]%list_elem_of_filter)%list_elem_of_fmap
      (z' & Hi & [E2 Hz']%list_elem_of_filter)%list_elem_of_fmap. rewrite (all_inj z z' Hz Hz' Hi) in E1. congruence.
Qed.

(** With a limit per host. *)
Notation limit := (zombies_perHostLimit zs).
Notation ev := (evict_names limit (range_values (getAliveNames grace zs)) ([], ∅)).
Notation possible := (foldl (λ d z, delete (z_IP z) d) ev.2 ev.1).

Lemma over_elem z : z ∈ all zs → limit ≠ 0 → (status z).2 = true ↔
  ∃ l, l ∈ range_values (getAliveNames grace zs) ∧ limit < Z.of_nat (length l) ∧ z ∈ l.
Proof.
  intros Hz Hl. rewrite (proj1 (isZombieAlive_spec zs z)). split.
  - intros (_ & name & l & Hn & E & Ho). exists l. split; [apply elem_of_range_values; by exists name|]. split; [done|].
    by apply (alive_names_elem zs name).
  - intros (l & (name & E)%elem_of_range_values & Ho & Hzl). split; [done|]. exists name, l.
    apply (alive_names_elem zs name l z E) in Hzl as [_ ?]. done.
Qed.

Lemma evicted_in_all l z : l ∈ range_values (getAliveNames grace zs) → z ∈ l → z ∈ all zs.
Proof. intros (name & E)%elem_of_range_values Hz. by apply (alive_names_elem zs name l z E) in Hz as [? _]. Qed.

Lemma possible_elem ip z : possible !! ip = Some z → z ∈ all zs ∧ z_IP z = ip ∧ (status z).2 = true.
Proof.
  destruct (evict_spec limit (range_values (getAliveNames grace zs)) ([], ∅)) as (_ & E2 & _). cbn [fst snd] in E2.
  intros [[Hn|(l & Hl & Ho & Hz & Hi)]%E2 _]%delete_zombies; [by rewrite lookup_empty in Hn|].
  assert (Hzl : z ∈ l) by (apply (kept_or_evicted limit); by right). pose proof (evicted_in_all l z Hl Hzl) as Ha.
  split; [done|]. split; [done|]. apply (proj1 (isZombieAlive_spec zs z)).
  apply elem_of_range_values in Hl as (name & En). pose proof (proj2 (proj1 (alive_names_elem zs name l z En) Hzl)) as Hn.
  split; [|by exists name, l]. intros H0.
  unfold kept_of in Hz. rewrite H0, drop_ge in Hz; [by apply elem_of_nil in Hz|].
  unfold sortZombieMappingSlice. rewrite sort_by_perm. cbn. lia.
Qed.

Lemma stage_limited : 0 < limit → gc_split zs (A0 ++ (zombie_DeepCopy <$> range_values possible)) (D0 ++ ev.1).
Proof.
  intros Hlim. destruct (evict_spec limit (range_values (getAliveNames grace zs)) ([], ∅)) as (E1 & E2 & E3). cbn [fst snd] in *.
  assert (HE : ∀ z, z ∈ ev.1 → z ∈ all zs ∧ (status z).2 = true).
  { intros z Hz. apply E1 in Hz as [?%elem_of_nil|(l & Hl & Ho & Hz)]; [done|].
    assert (Hzl : z ∈ l) by (apply (kept_or_evicted limit); by left). pose proof (evicted_in_all l z Hl Hzl).
    split; [done|]. apply over_elem; [done|lia|by exists l]. }
  assert (HPo : ∀ z, z ∈ range_values possible → z ∈ all zs ∧ (status z).2 = true ∧ z_IP z ∉ ips ev.1).
  { intros z (ip & Ep)%elem_of_range_values. destruct (possible_elem ip z Ep) as (? & Hi & ?). split; [done|]. split; [done|].
    rewrite Hi. by apply delete_zombies in Ep as [_ ?]. }
  constructor.
  - intros z [(z0 & -> & [_ Hz%elem_of_all]%list_elem_of_filter)%list_elem_of_fmap|(z0 & -> & Hz)%list_elem_of_fmap]%elem_of_app; [by exists z0|].
    destruct (HPo z0 Hz) as [?%elem_of_all _]. by exists z0.
  - intros z [[_ Hz%elem_of_all]%list_elem_of_filter|[Hz%elem_of_all _]%HE]%elem_of_app; by eexists.
  - rewrite fmap_app, !copy_ips. apply NoDup_app. split; [apply NoDup_ips_filter, NoDup_all|]. split.
    + intros ip (z & -> & [Es Hz]%list_elem_of_filter)%list_elem_of_fmap (z' & Hi & Hz')%list_elem_of_fmap.
      destruct (HPo z' Hz') as (Ha & Ho & _). rewrite <- (all_inj z z' Hz Ha Hi), Es in Ho. done.
    + unfold range_values.
      assert (HG : ∀ l : list Addr, NoDup l → NoDup (ips (omap (λ k, possible !! k) l))); [|apply HG, NoDup_range].
      induction 1 as [|ip l Hn H IH]; [constructor|]. cbn [omap list_omap]. destruct (possible !! ip) as [z|] eqn:E; [|done].
      cbn [fmap list_fmap]. destruct (possible_elem ip z E) as (_ & -> & _). constructor; [|done].
      intros (z' & -> & (ip' & Hip & E')%list_elem_of_omap)%list_elem_of_fmap. apply Hn.
      by destruct (possible_elem ip' z' E') as (_ & -> & _).
  - intros ip [z Hz]. pose proof (OK ip z Hz) as Hi. subst ip. apply elem_of_all in Hz. rewrite !fmap_app, !copy_ips, !elem_of_app.
    destruct (status z) as [a o] eqn:Es. destruct o.
    + assert (Ho : (status z).2 = true) by (by rewrite Es). apply over_elem in Ho as (l & Hl & Ho & Hzl); [|done|lia].
      apply (kept_or_evicted limit) in Hzl as [Hev|Hk]; [right; right; apply list_elem_of_fmap_2, E1; right; by exists l|].
      destruct (decide (z_IP z ∈ ips ev.1)) as [|Hn]; [by right; right|]. left. right.
      destruct (E3 (z_IP z)) as [z' Hz']; [right; by exists l, z|].
      assert (Ep : possible !! z_IP z = Some z') by (by apply delete_zombies).
      apply list_elem_of_fmap. exists z'. split; [by destruct (possible_elem _ _ Ep) as (_ & -> & _)|].
      apply elem_of_range_values. by eexists.
    + destruct a; [left; left|right; left]; apply list_elem_of_fmap_2, list_elem_of_filter; done.
  - intros ip. rewrite !fmap_app, !copy_ips, !elem_of_app. intros HA HD.
    assert (∃ z, z ∈ all zs ∧ z_IP z = ip ∧ (status z = (true, false) ∨ (status z).2 = true ∧ ip ∉ ips ev.1)) as (z & Hz & Hi & HS).
    { destruct HA as [(z & -> & [Es Hz]%list_elem_of_filter)%list_elem_of_fmap|(z & -> & Hz)%list_elem_of_fmap]; exists z; [by auto|].
      destruct (HPo z Hz) as (? & ? & ?). auto. }
    destruct HD as [(z' & -> & [Es Hz']%list_elem_of_filter)%list_elem_of_fmap|Hev].
    + rewrite (all_inj z z' Hz Hz' Hi), Es in HS. by destruct HS as [[=]|[[=] _]].
    + destruct HS as [Es|[_ ?]]; [|done]. apply list_elem_of_fmap in Hev as (z' & -> & [Hz' Ho]%HE).
      by rewrite <- (all_inj z z' Hz Hz' Hi), Es in Ho.
Qed.

Lemma stage_max A D n : gc_split zs A D →
  gc_split zs (drop n (sortZombieMappingSlice A)) (D ++ take n (sortZombieMappingSlice A)).
Proof.
  intros [G1 G2 G3 G4 G5]. set (S := sortZombieMappingSlice A). assert (HP : S ≡ₚ A) by apply sort_by_perm.
  assert (HN : NoDup (ips S)) by (by rewrite HP). rewrite <- (take_drop n S), fmap_app, NoDup_app in HN.
  destruct HN as (N1 & N2 & N3). assert (HE : ∀ z, z ∈ S ↔ z ∈ A) by (intros z; by rewrite HP).
  assert (HI : ∀ ip, ip ∈ ips S ↔ ip ∈ ips A) by (intros ip; by rewrite HP).
  constructor.
  - intros z Hz. apply G1, HE. apply (take_drop_elem n). by right.
  - intros z [?|Hz]%elem_of_app; [by apply G2|]. destruct (G1 z) as (z0 & ? & _); [apply HE, (take_drop_elem n); by left|]. by eexists.
  - done.
  - intros ip [H|H]%G4; rewrite fmap_app, elem_of_app; [|by auto]. apply HI in H.
    rewrite <- (take_drop n S), fmap_app, elem_of_app in H. tauto.
  - intros ip H. rewrite fmap_app, elem_of_app. intros [HD|HT]; [|by apply (N2 ip)]. apply (G5 ip); [|done]. apply HI.
    rewrite <- (take_drop n S), fmap_app, elem_of_app. by right.
Qed.

(** ** Results of the collection *)

Definition before_max : list DNSZombieMapping * list DNSZombieMapping :=
  if 0 <? limit then (A0 ++ (zombie_DeepCopy <$> range_values possible), D0 ++ ev.1) else (A0, D0).

Definition after_max (acc : list DNSZombieMapping * list DNSZombieMapping) : list DNSZombieMapping * list DNSZombieMapping :=
  let over := Z.of_nat (length acc.1) - zombies_max zs in
  if 0 <? over then (drop (Z.to_nat over) (sortZombieMappingSlice acc.1), acc.2 ++ take (Z.to_nat over) (sortZombieMappingSlice acc.1)) else acc.

Lemma GC_stages : zombies_GC grace zs =
  (set_deletes (foldl (λ d z, delete (z_IP z) d) (deletes zs) (after_max before_max).2) zs, after_max before_max).
Proof.
  unfold zombies_GC, before_max, after_max. cbv zeta. rewrite (classify zs (all zs) ([], [])). cbn [fst snd app].
  destruct (0 <? limit); [|done]. destruct ev as [evicted poss]. done.
Qed.

Lemma before_split : 0 ≤ limit → gc_split zs before_max.1 before_max.2.
Proof.
  intros Hl. unfold before_max. destruct (Z.ltb_spec 0 limit); [by apply stage_limited|]. apply stage_free. lia.
Qed.

Lemma after_split : 0 ≤ limit → gc_split zs (after_max before_max).1 (after_max before_max).2.
Proof.
  intros Hl. pose proof (before_split Hl) as G. unfold after_max. cbv zeta. destruct (0 <? _); [|done]. cbn [fst snd]. by apply stage_max.
Qed.

Lemma sort_length l : length (sortZombieMappingSlice l) = length l.
Proof. apply Permutation_length, sort_by_perm. Qed.

Lemma after_bound acc : 0 ≤ zombies_max zs → Z.of_nat (length (after_max acc).1) ≤ zombies_max zs.
Proof.
  intros Hm. unfold after_max. cbv zeta. destruct (Z.ltb_spec 0 (Z.of_nat (length acc.1) - zombies_max zs)); cbn [fst]; [|lia].
  rewrite length_drop, sort_length. lia.
Qed.

Lemma after_subset acc z : z ∈ (after_max acc).1 → z ∈ acc.1.
Proof.
  unfold after_max. cbv zeta. destruct (0 <? _); [|done]. cbn [fst]. intros Hz.
  rewrite <- (sort_by_perm zombie_le acc.1). apply (take_drop_elem (Z.to_nat (Z.of_nat (length acc.1) - zombies_max zs))). by right.
Qed.

(** The zombies that stay are those filed under their addresses. *)
Lemma alive_filed A D z : gc_split zs A D → z ∈ A → ∃ z0, z0 ∈ all zs ∧ z = zombie_DeepCopy z0.
Proof.
  intros G Hz. destruct (gs_alive _ _ _ G z Hz) as (z0 & E & ->). exists z0. split; [|done]. by apply elem_of_all.
Qed.

(** Of a name that a live connection uses no more zombies than the limit stay. *)
Lemma per_host_bound name l : 0 < limit → getAliveNames grace zs !! name = Some l →
  Z.of_nat (length (filter (λ z, name ∈ Names z) (after_max before_max).1)) ≤ limit.
Proof.
  intros Hl E. pose proof (after_split ltac:(lia)) as G. set (A := (after_max before_max).1) in *.
  assert (HA : ∀ z, z ∈ A → ∃ z0, z0 ∈ all zs ∧ z = zombie_DeepCopy z0) by (intros z; by eapply alive_filed).
  assert (HS : ∃ l', Z.of_nat (length l') ≤ limit ∧ ∀ z, z ∈ A → name ∈ Names z → z_IP z ∈ ips l').
  { destruct (Z.le_gt_cases (Z.of_nat (length l)) limit) as [Hle|Hgt].
    - exists l. split; [done|]. intros z (z0 & Hz & ->)%HA Hn. cbn. apply list_elem_of_fmap_2. by apply (alive_names_elem zs name l z0 E).
    - exists (kept_of limit l). split; [unfold kept_of; rewrite length_drop, sort_length; lia|].
      intros z Hz Hn. destruct (HA z Hz) as (z0 & Hz0 & ->). cbn in *.
      assert (Hzl : z0 ∈ l) by (by apply (alive_names_elem zs name l z0 E)).
      apply (kept_or_evicted limit) in Hzl as [Hev|?]; [|by apply list_elem_of_fmap_2]. exfalso.
      apply (gs_disjoint _ _ _ G (z_IP z0)); [by apply (list_elem_of_fmap_2 z_IP) in Hz|].
      assert (HB : z0 ∈ before_max.2).
      { unfold before_max. rewrite (proj2 (Z.ltb_lt 0 limit) Hl). cbn [snd]. apply elem_of_app. right.
        apply (proj1 (evict_spec limit (range_values (getAliveNames grace zs)) ([], ∅))). right. exists l.
        split; [apply elem_of_range_values; by exists name|done]. }
      apply list_elem_of_fmap_2. unfold after_max. cbv zeta. destruct (0 <? _); [|done]. cbn [snd]. apply elem_of_app. by left. }
  destruct HS as (l' & Hl' & Hsub). etrans; [|exact Hl']. apply inj_le. rewrite <- (length_fmap z_IP), <- (length_fmap z_IP l').
  apply submseteq_length, NoDup_submseteq; [apply NoDup_ips_filter, G|].
  intros ip (z & -> & [Hn Hz]%list_elem_of_filter)%list_elem_of_fmap. by apply Hsub.
Qed.

(** ** Why a zombie stays or goes *)

Lemma alive_list_nodup name l : getAliveNames grace zs !! name = Some l → NoDup l.
Proof.
  pose proof (NoDup_fmap_1 _ _ NoDup_all) as HN. rewrite getAliveNames_lookup. cbv zeta.
  destruct (filter (λ z, alive zs z = true ∧ name ∈ Names z) (all zs)) as [|z0 l0] eqn:E; [done|]. intros [= <-]. rewrite app_comm_cons, <- E.
  apply NoDup_app. split_and!; [by apply NoDup_filter| |by apply NoDup_filter].
  intros z [[H1 _] _]%list_elem_of_filter [[H2 _] _]%list_elem_of_filter. by rewrite H1 in H2.
Qed.

(** Less important zombies go first. *)
Lemma taken_le n (l : list DNSZombieMapping) z k : z ∈ take n (sortZombieMappingSlice l) → k ∈ drop n (sortZombieMappingSlice l) → zombie_le z k.
Proof.
  apply StronglySorted_app_1_elem_of. rewrite take_drop. apply (sort_by_sorted zombie_le).
Qed.

Lemma evicted_outranked name l z : 0 ≤ limit → getAliveNames grace zs !! name = Some l → limit < Z.of_nat (length l) →
  z ∈ evicted_of limit l → name ∈ Names z ∧ limit ≤ outranked zs name z.
Proof.
  intros Hl E Ho Hz. assert (HE : ∀ k, k ∈ l ↔ k ∈ all zs ∧ name ∈ Names k) by (intros k; by apply alive_names_elem).
  assert (Hzl : z ∈ l) by (apply (kept_or_evicted limit); by left). split; [by apply HE|].
  assert (HN : NoDup (sortZombieMappingSlice l)) by (unfold sortZombieMappingSlice; rewrite sort_by_perm; by apply (alive_list_nodup name)).
  rewrite <- (take_drop (length l - Z.to_nat limit)) in HN. apply NoDup_app in HN as (_ & Hdis & HN).
  assert (HK : Z.of_nat (length (kept_of limit l)) = limit) by (unfold kept_of; rewrite length_drop, sort_length; lia).
  rewrite <- HK. unfold outranked. apply inj_le, submseteq_length, NoDup_submseteq; [exact HN|].
  intros k Hk. assert (Hkl : k ∈ l) by (apply (kept_or_evicted limit); by right). pose proof (proj1 (HE k) Hkl) as [Hka Hkn].
  apply list_elem_of_filter. split_and!; [done|by apply (taken_le (length l - Z.to_nat limit) l)| |done]. intros Hi.
  apply (Hdis z Hz). rewrite <- (all_inj k z Hka (proj1 (proj1 (HE z) Hzl)) Hi). exact Hk.
Qed.

(** Why a zombie is removed. *)
Lemma dead_reason ip z : 0 ≤ limit → deletes zs !! ip = Some z → ip ∈ ips (after_max before_max).2 →
  (alive zs z = false ∧ ¬ named_live zs z) ∨ (0 < limit ∧ over_host zs z) ∨
  (Z.of_nat (length (after_max before_max).1) = Z.max 0 (zombies_max zs) ∧ ∀ a, a ∈ (after_max before_max).1 → zombie_le z a).
Proof.
  intros Hl Ez Hd. pose proof (OK ip z Ez) as Hi. subst ip. pose proof (proj2 (elem_of_all z) Ez) as Hz.
  destruct (decide (z_IP z ∈ ips before_max.2)) as [Hb|Hb].
  - unfold before_max in Hb. assert (HD0 : z_IP z ∈ ips D0 → alive zs z = false ∧ ¬ named_live zs z).
    { intros (z' & Hi & [Es Hz']%list_elem_of_filter)%list_elem_of_fmap. rewrite <- (all_inj z z' Hz Hz' Hi) in Es.
      destruct (isZombieAlive_spec zs z) as [_ S2]. rewrite Es in S2. destruct (S2 eq_refl) as [_ S3]. destruct (alive zs z); split; try done.
      - discriminate S3. by left.
      - intros Hn. discriminate S3. by right.
      - intros Hn. discriminate S3. by right. }
    destruct (Z.ltb_spec 0 limit) as [El|El]; cbn [snd] in Hb; [|left; by apply HD0]. rewrite fmap_app, elem_of_app in Hb.
    destruct Hb as [?|(z' & Hi & Hev)%list_elem_of_fmap]; [left; by apply HD0|right; left]. split; [done|].
    apply (proj1 (evict_spec limit (range_values (getAliveNames grace zs)) ([], ∅))) in Hev as [?%elem_of_nil|(l & Hll & Ho & Hev)]; [done|].
    assert (z = z') as <- by (apply all_inj; try done; apply (evicted_in_all l); [done|]; apply (kept_or_evicted limit); by left).
    apply elem_of_range_values in Hll as (name & E). destruct (evicted_outranked name l z Hl E Ho Hev) as [Hn Hr].
    exists name. by rewrite E.
  - right. right. pose proof (before_split Hl) as G. revert Hd. unfold after_max. cbv zeta.
    destruct (Z.ltb_spec 0 (Z.of_nat (length before_max.1) - zombies_max zs)) as [Ho|Ho]; [|done]. cbn [fst snd].
    rewrite fmap_app, elem_of_app. intros [?|(z' & Hi & Hz')%list_elem_of_fmap]; [done|]. split; [rewrite length_drop, sort_length; lia|].
    intros a Ha. pose proof (taken_le _ _ z' a Hz' Ha) as HL. assert (Hb' : z' ∈ before_max.1).
    { rewrite <- (sort_by_perm zombie_le before_max.1). apply (take_drop_elem (Z.to_nat (Z.of_nat (length before_max.1) - zombies_max zs))). by left. }
    destruct (gs_alive _ _ _ G z' Hb') as (z0 & E0 & ->). cbn [z_IP zombie_DeepCopy] in Hi, E0. rewrite <- Hi, Ez in E0. injection E0 as <-. exact HL.
Qed.

(** Why it stays. *)
Lemma kept_reason ip z : 0 ≤ limit → deletes zs !! ip = Some z → ip ∈ ips (after_max before_max).1 → alive zs z = true ∨ named_live zs z.
Proof.
  intros Hl Ez (z' & -> & Hz')%list_elem_of_fmap. apply after_subset in Hz'.
  assert (HI : ∀ z0, z0 ∈ all zs → z_IP z0 = z_IP z' → z0 = z) by (intros z0 E0%elem_of_all Hi; rewrite Hi in E0; congruence).
  assert (HA0 : z' ∈ A0 → alive zs z = true ∨ named_live zs z).
  { intros (z0 & E0 & [Es Hz0]%list_elem_of_filter)%list_elem_of_fmap. rewrite (HI z0 Hz0) in Es by (by rewrite E0).
    destruct (isZombieAlive_spec zs z) as [_ S2]. rewrite Es in S2. by apply S2. }
  unfold before_max in Hz'. destruct (Z.ltb_spec 0 limit) as [El|El]; cbn [fst] in Hz'; [|by apply HA0].
  apply elem_of_app in Hz' as [?|(z0 & E0 & (ip & Ep)%elem_of_range_values)%list_elem_of_fmap]; [by apply HA0|right].
  destruct (possible_elem ip z0 Ep) as (Hz0 & _ & Ho). rewrite (HI z0 Hz0) in Ho by (by rewrite E0).
  apply (proj1 (isZombieAlive_spec zs z)) in Ho as (_ & name & l & Hn & E & _). exists name. by rewrite E.
Qed.
End collection.

(** What a collection achieves. *)
Record gc_result zs zs' (A D : list DNSZombieMapping) : Prop := {
  gr_split : gc_split zs A D;
  gr_deletes ip z : deletes zs' !! ip = Some z ↔ deletes zs !! ip = Some z ∧ ip ∈ ips A;
  gr_max : 0 ≤ zombies_max zs → Z.of_nat (length A) ≤ zombies_max zs;
  gr_host name l : 0 < zombies_perHostLimit zs → getAliveNames grace zs !! name = Some l →
    Z.of_nat (length (filter (λ z, name ∈ Names z) A)) ≤ zombies_perHostLimit zs;
  gr_kept ip z : deletes zs !! ip = Some z → ip ∈ ips A → alive zs z = true ∨ named_live zs z;
  gr_reason ip z : deletes zs !! ip = Some z → ip ∈ ips D →
    (alive zs z = false ∧ ¬ named_live zs z) ∨ (0 < zombies_perHostLimit zs ∧ over_host zs z) ∨
    (Z.of_nat (length A) = Z.max 0 (zombies_max zs) ∧ ∀ a, a ∈ A → zombie_le z a);
}.

Lemma GC_result zs : zombies_ok zs → 0 ≤ zombies_perHostLimit zs →
  let r := zombies_GC grace zs in gc_result zs r.1 r.2.1 r.2.2.
Proof.
  intros OK Hl. rewrite GC_stages. cbv zeta. cbn [fst snd]. pose proof (after_split zs OK Hl) as G. constructor; [done|..].
  - intros ip z. cbn [set_deletes deletes]. rewrite delete_zombies. split.
    + intros [E Hn]. split; [done|]. by destruct (gs_all _ _ _ G ip ltac:(by eexists)).
    + intros [E Ha]. split; [done|]. by apply (gs_disjoint _ _ _ G).
  - by apply after_bound.
  - intros name l H. by apply per_host_bound.
  - intros ip z. by apply kept_reason.
  - intros ip z. by apply dead_reason.
Qed.

(** ** Histories *)

Inductive zombie_op :=
| ZUpsert (expiry : Time) (ip : Addr) (names : list string)
| ZMarkAlive (now : Time) (ip : Addr)
| ZSetCTGCTime (start next : Time)
| ZCollect
| ZForceExpire (before : Time) (nameMatch : option (string → bool))
| ZForceExpireByNameIP (before : Time) (name : string) (addrs : list Addr)
| ZRestore (dump : gmap Addr DNSZombieMapping).

Definition zombie_step zs (op : zombie_op) : DNSZombieMappings :=
  match op with
  | ZUpsert t ip names => (zombies_Upsert t ip names zs).1
  | ZMarkAlive now ip => MarkAlive now ip zs
  | ZSetCTGCTime start next => SetCTGCTime start next zs
  | ZCollect => (zombies_GC grace zs).1
  | ZForceExpire t nameMatch => (zombies_ForceExpire t nameMatch zs).1
  | ZForceExpireByNameIP t name addrs => zombies_ForceExpireByNameIP t name addrs zs
  | ZRestore dump => zombies_restore (dump ∪ deletes zs) zs
  end.

(** What is restored was written by [MarshalJSON]: zombies under their addresses. The decoder enters
    them into the map that is there. *)
Definition zombie_op_ok (op : zombie_op) : Prop :=
  match op with ZRestore dump => ∀ ip z, dump !! ip = Some z → z_IP z = ip | _ => True end.

Definition zombie_runs zs (ops : list zombie_op) : DNSZombieMappings := foldl zombie_step zs ops.

(** The zombies that an operation can add. *)
Definition adds (op : zombie_op) : nat := match op with ZUpsert _ _ _ => 1 | ZRestore dump => size dump | _ => 0 end.
Definition is_ctgc (op : zombie_op) : bool := match op with ZSetCTGCTime _ _ => true | _ => false end.

Lemma Upsert_deletes t ip names zs ip' : deletes (zombies_Upsert t ip names zs).1 !! ip' =
  if decide (ip = ip') then
    Some (match deletes zs !! ip with
          | None => mkZombie (list_to_set names) ip (lastCTGCUpdate zs) t (ctGCRevision zs)
          | Some z => mkZombie (Names z ∪ list_to_set names) (z_IP z)
              (if time_After (lastCTGCUpdate zs) (AliveAt z) then lastCTGCUpdate zs else AliveAt z)
              (if time_After t (DeletePendingAt z) then t else DeletePendingAt z) (revisionAddedAt z)
          end)
  else deletes zs !! ip'.
Proof.
  unfold zombies_Upsert. destruct (decide (ip = ip')) as [<-|Hn]; destruct (deletes zs !! ip); cbn;
    by rewrite ?lookup_insert_eq, ?lookup_insert_ne.
Qed.

Lemma MarkAlive_deletes now ip zs ip' : deletes (MarkAlive now ip zs) !! ip' =
  if decide (ip = ip') then (λ z, mkZombie (Names z) (z_IP z) now (DeletePendingAt z) (revisionAddedAt z)) <$> deletes zs !! ip'
  else deletes zs !! ip'.
Proof.
  unfold MarkAlive. destruct (decide (ip = ip')) as [<-|Hn]; destruct (deletes zs !! ip) eqn:E; cbn;
    rewrite ?lookup_insert_eq, ?lookup_insert_ne by done; rewrite ?E; done.
Qed.

Definition matched (nameMatch : option (string → bool)) name : bool := match nameMatch with Some m => m name | None => true end.

Definition expired (t : Time) (matched : string → bool) z : DNSZombieMapping :=
  if spared t z then z
  else mkZombie (Names z ∖ list_to_set (filter (λ name, matched name = true) (range (Names z)))) (z_IP z) (AliveAt z) (DeletePendingAt z) (revisionAddedAt z).

Lemma expired_names t matched z name : name ∈ Names (expired t matched z) ↔ name ∈ Names z ∧ (spared t z = true ∨ matched name = false).
Proof.
  unfold expired. destruct (spared t z); [naive_solver|]. cbn [Names].
  rewrite elem_of_difference, elem_of_list_to_set, list_elem_of_filter, elem_of_range. destruct (matched name); naive_solver.
Qed.

Lemma expire_loop t matched (l : list Addr) : NoDup l → ∀ acc : gmap Addr DNSZombieMapping * list string, ∀ ip,
  (foldl (λ acc ip,
      match acc.1 !! ip with
      | None => acc
      | Some z =>
          if spared t z then acc
          else
            let gone := filter (λ name, matched name = true) (range (Names z)) in
            (<[ip := mkZombie (Names z ∖ list_to_set gone) (z_IP z) (AliveAt z) (DeletePendingAt z) (revisionAddedAt z)]> acc.1, acc.2 ++ gone)
      end) acc l).1 !! ip = if bool_decide (ip ∈ l) then expired t matched <$> acc.1 !! ip else acc.1 !! ip.
Proof.
  induction 1 as [|i l Hi H IH]; intros acc ip; [done|]. cbn [foldl]. rewrite IH. clear IH.
  set (acc' := match acc.1 !! i with Some _ => _ | None => _ end).
  assert (HA : acc'.1 !! ip = if decide (i = ip) then expired t matched <$> acc.1 !! ip else acc.1 !! ip).
  { unfold acc', expired. destruct (decide (i = ip)) as [<-|Hn]; destruct (acc.1 !! i) as [z|] eqn:E; [|by rewrite E| |done].
    - cbn [fmap option_fmap option_map]. destruct (spared t z) eqn:Es; cbv zeta; cbn [fst]; [by rewrite E|]. by rewrite lookup_insert_eq.
    - destruct (spared t z); [done|]. cbv zeta. cbn [fst]. by rewrite lookup_insert_ne. }
  rewrite HA. destruct (decide (i = ip)) as [<-|Hn].
  - rewrite bool_decide_eq_false_2, bool_decide_eq_true_2 by (done || by left). done.
  - by rewrite (bool_decide_ext (ip ∈ l) (ip ∈ i :: l)) by (rewrite elem_of_cons; naive_solver).
Qed.

(** A forced expiry keeps the zombies with names left, and those it spares. *)
Lemma ForceExpire_deletes t nameMatch zs ip z' : zombies_ok zs →
  deletes (zombies_ForceExpire t nameMatch zs).1 !! ip = Some z' ↔
  ∃ z, deletes zs !! ip = Some z ∧ z' = expired t (matched nameMatch) z ∧ (spared t z = true ∨ Names z' ≠ ∅).
Proof.
  intros OK. unfold zombies_ForceExpire. fold (matched nameMatch). set (matched := matched nameMatch).
  pose proof (expire_loop t matched (range (dom (deletes zs))) (NoDup_range _) (deletes zs, [])) as HL.
  destruct (foldl _ (deletes zs, []) _) as [d affected]. cbn [fst snd] in HL. cbn [fst deletes set_deletes].
  assert (HD : ∀ ip, d !! ip = expired t matched <$> deletes zs !! ip).
  { intros i. rewrite HL. destruct (bool_decide_reflect (i ∈ range (dom (deletes zs)))) as [|Hn]; [done|].
    rewrite elem_of_range, not_elem_of_dom in Hn. by rewrite Hn. }
  assert (HS : ∀ z, spared t (expired t matched z) = spared t z) by (intros z; unfold expired; by destruct (spared t z) eqn:E).
  assert (HI : ∀ z, z_IP (expired t matched z) = z_IP z) by (intros z; unfold expired; by destruct (spared t z)).
  rewrite delete_zombies, HD, fmap_Some. split.
  - intros [(z & E & ->) Hn]. exists z. split_and!; [done|done|]. destruct (spared t z) eqn:Es; [by left|right]. intros H0. apply Hn.
    apply list_elem_of_fmap. exists (expired t matched z). rewrite HI, (OK ip z E). split; [done|].
    apply list_elem_of_filter. rewrite HS, Es. split; [done|]. apply elem_of_range_values. exists ip. by rewrite HD, E.
  - intros (z & E & -> & Hk). split; [by exists z|]. intros (z' & Hi & [[H1 H2] (ip' & E')%elem_of_range_values]%list_elem_of_filter)%list_elem_of_fmap.
    rewrite HD, fmap_Some in E'. destruct E' as (z0 & E0 & ->). rewrite HI, (OK ip' z0 E0) in Hi. subst ip'.
    rewrite E in E0. injection E0 as <-. rewrite HS in H1. destruct (spared t z); [done|]. by destruct Hk.
Qed.

Definition expire_one (t : Time) name zs ip : DNSZombieMappings := zombies_ForceExpireByNameIP t name [ip] zs.

Lemma ForceExpireByNameIP_cons t name ip addrs zs :
  zombies_ForceExpireByNameIP t name (ip :: addrs) zs = zombies_ForceExpireByNameIP t name addrs (expire_one t name zs ip).
Proof. done. Qed.

Lemma expire_one_deletes t name zs ip ip' : deletes (expire_one t name zs ip) !! ip' =
  if decide (ip = ip') then
    z ← deletes zs !! ip';
    if spared t z then Some z
    else if bool_decide (Names z ∖ {[name]} = ∅) then None
    else Some (mkZombie (Names z ∖ {[name]}) (z_IP z) (AliveAt z) (DeletePendingAt z) (revisionAddedAt z))
  else deletes zs !! ip'.
Proof.
  unfold expire_one, zombies_ForceExpireByNameIP. cbn [foldl]. destruct (decide (ip = ip')) as [<-|Hn];
    destruct (deletes zs !! ip) as [z|] eqn:E; cbn; try done; destruct (spared t z); try done; cbn;
    case_bool_decide; by rewrite ?lookup_insert_eq, ?lookup_insert_ne, ?lookup_delete_eq, ?lookup_delete_ne.
Qed.

Lemma expire_one_rest t name zs ip : expire_one t name zs ip = set_deletes (deletes (expire_one t name zs ip)) zs.
Proof.
  unfold expire_one, zombies_ForceExpireByNameIP. cbn [foldl]. destruct (deletes zs !! ip); [|by destruct zs].
  destruct (spared _ _); [by destruct zs|done].
Qed.

(** Whatever the expiry of a single address preserves. *)
Lemma ForceExpireByNameIP_inv (P : DNSZombieMappings → Prop) t name addrs :
  (∀ zs ip, ip ∈ addrs → P zs → P (expire_one t name zs ip)) → ∀ zs, P zs → P (zombies_ForceExpireByNameIP t name addrs zs).
Proof.
  induction addrs as [|ip addrs IH]; intros HP zs Hz; [done|]. rewrite ForceExpireByNameIP_cons.
  apply IH; [intros; apply HP; [by right|done]|]. apply HP; [by left|done].
Qed.

Lemma zombie_step_ok zs op : zombies_ok zs → 0 ≤ zombies_perHostLimit zs → zombie_op_ok op → zombies_ok (zombie_step zs op).
Proof.
  intros OK Hl Hop ip z. destruct op as [t ip' names|now ip'|start next| |t m|t name addrs|dump]; cbn [zombie_step].
  - rewrite Upsert_deletes. destruct (decide (ip' = ip)) as [<-|]; [|by apply OK]. intros [= <-].
    destruct (deletes zs !! ip') as [z0|] eqn:E; [by apply OK in E|done].
  - rewrite MarkAlive_deletes. destruct (decide (ip' = ip)) as [<-|]; [|by apply OK].
    intros (z0 & E & ->)%fmap_Some. by apply OK in E.
  - apply OK.
  - intros [E _]%(gr_deletes _ _ _ _ (GC_result zs OK Hl)). by apply OK.
  - intros (z0 & E & -> & _)%ForceExpire_deletes; [|done]. apply OK in E. unfold expired. by destruct (spared t z0).
  - revert ip z. apply (ForceExpireByNameIP_inv zombies_ok); [|done]. intros zs' ip' _ OK' ip z. rewrite expire_one_deletes.
    destruct (decide (ip' = ip)) as [<-|]; [|by apply OK']. intros (z0 & E & Hz)%bind_Some. apply OK' in E.
    destruct (spared t z0); [congruence|]. case_bool_decide; [done|]. by injection Hz as <-.
  - cbn [zombies_restore set_deletes deletes]. rewrite lookup_fmap, fmap_Some. intros (z0 & E & ->). cbn.
    apply lookup_union_Some_raw in E as [E|[_ E]]; [by apply Hop|by apply OK].
Qed.

Lemma zombie_step_limits zs op : zombies_max (zombie_step zs op) = zombies_max zs ∧
  zombies_perHostLimit (zombie_step zs op) = zombies_perHostLimit zs.
Proof.
  destruct op; cbn [zombie_step]; [unfold zombies_Upsert; by destruct (deletes zs !! _)|unfold MarkAlive; by destruct (deletes zs !! _)|done|..|done].
  - rewrite GC_stages. done.
  - unfold zombies_ForceExpire. by destruct (foldl _ _ _).
  - apply (ForceExpireByNameIP_inv (λ zs', zombies_max zs' = zombies_max zs ∧ zombies_perHostLimit zs' = zombies_perHostLimit zs)); [|done].
    intros zs' ip _ H. rewrite expire_one_rest. exact H.
Qed.

(** No zombie comes into being by a step that only takes. *)
Lemma size_dom_le (m m' : gmap Addr DNSZombieMapping) : (∀ ip, is_Some (m' !! ip) → is_Some (m !! ip)) → (size m' ≤ size m)%nat.
Proof.
  intros H. rewrite <- !(size_dom (M := gmap Addr)). apply subseteq_size. intros ip. rewrite !elem_of_dom. apply H.
Qed.

Lemma zombie_step_size zs op : zombies_ok zs → 0 ≤ zombies_perHostLimit zs →
  (size (deletes (zombie_step zs op)) ≤ size (deletes zs) + adds op)%nat.
Proof.
  intros OK Hl. destruct op as [t ip names|now ip|start next| |t m|t name addrs|dump]; cbn [zombie_step adds]; rewrite ?Nat.add_0_r.
  - unfold zombies_Upsert. destruct (deletes zs !! ip) eqn:E; cbn; rewrite map_size_insert, E; cbn; lia.
  - unfold MarkAlive. destruct (deletes zs !! ip) eqn:E; cbn; [rewrite map_size_insert, E|]; cbn; lia.
  - cbn. lia.
  - apply size_dom_le. intros ip [z [Hz _]%(gr_deletes _ _ _ _ (GC_result zs OK Hl))]. by eexists.
  - apply size_dom_le. intros ip [z (z0 & E & _)%ForceExpire_deletes]; [by eexists|done].
  - apply size_dom_le. apply (ForceExpireByNameIP_inv (λ zs', ∀ ip, is_Some (deletes zs' !! ip) → is_Some (deletes zs !! ip))); [|done].
    intros zs' ip' _ H ip [z Hz]. apply H. rewrite expire_one_deletes in Hz. destruct (decide (ip' = ip)); [|by eexists].
    apply bind_Some in Hz as (z0 & E & _). by eexists.
  - cbn. rewrite map_size_fmap, <- (size_dom (M := gmap Addr) (dump ∪ deletes zs)), dom_union_L, size_union_alt.
    rewrite size_dom. pose proof (subseteq_size (dom (deletes zs) ∖ dom dump) (dom (deletes zs)) ltac:(set_solver)) as HS.
    rewrite (size_dom (M := gmap Addr) (deletes zs)) in HS. lia.
Qed.

Lemma length_all_size zs : zombies_ok zs → length (all zs) = size (deletes zs).
Proof.
  intros OK. rewrite <- (length_fmap z_IP), <- (size_dom (M := gmap Addr)). unfold size, set_size. cbn.
  apply Permutation_length, NoDup_Permutation; [by apply NoDup_all|apply NoDup_elements|]. intros ip.
  rewrite elem_of_elements, elem_of_dom, list_elem_of_fmap. split.
  - intros (z & -> & Hz%(elem_of_all zs OK)). by eexists.
  - intros [z E]. exists z. rewrite (elem_of_all zs OK), (OK ip z E). done.
Qed.

(** Under limits that the number of zombies does not reach only the connections decide. *)
Lemma unlimited_alive zs ip z : zombies_ok zs → Z.of_nat (size (deletes zs)) ≤ zombies_max zs →
  zombies_perHostLimit zs = 0 ∨ Z.of_nat (size (deletes zs)) ≤ zombies_perHostLimit zs →
  deletes zs !! ip = Some z → alive zs z = true → deletes (zombies_GC grace zs).1 !! ip = Some z.
Proof.
  intros OK Hm Hl E Ha. pose proof (OK ip z E) as Hi. assert (Hz : z ∈ all zs) by (apply (elem_of_all zs OK); by rewrite Hi).
  pose proof (GC_result zs OK ltac:(lia)) as G. apply (gr_deletes _ _ _ _ G). split; [done|]. pose proof (gr_split _ _ _ _ G) as S.
  destruct (gs_all _ _ _ S ip ltac:(by eexists)) as [|Hd]; [done|exfalso].
  destruct (gr_reason _ _ _ _ G ip z E Hd) as [[? _]|[(H0 & name & _ & _ & Ho)|[HL _]]]; [congruence|..].
  - destruct Hl as [Hl|Hl]; [lia|]. unfold outranked in Ho. rewrite <- (length_all_size zs OK) in Hl.
    pose proof (length_filter_lt (λ k, name ∈ Names k ∧ zombie_le z k ∧ z_IP k ≠ z_IP z) (all zs) z Hz ltac:(naive_solver)). lia.
  - assert (HA : (length (ip :: ips (zombies_GC grace zs).2.1) ≤ size (deletes zs))%nat).
    { rewrite <- (size_dom (M := gmap Addr)). unfold size, set_size. cbn [compose]. apply submseteq_length, NoDup_submseteq.
      - constructor; [|apply S]. intros H. by apply (gs_disjoint _ _ _ S ip).
      - intros ip' [-> |(a & -> & (z0 & E0 & _)%(gs_alive _ _ _ S))%list_elem_of_fmap]%elem_of_cons;
          apply elem_of_elements, elem_of_dom; by eexists. }
    cbn [length] in HA. rewrite length_fmap in HA. lia.
Qed.

(** ** Zombies that were entered recently *)

(** The zombie at [ip] was entered at revision [rev] or later, under [name], to be deleted no earlier
    than [expiry]. *)
Definition entered zs ip (rev : Z) name (expiry : Time) : Prop :=
  ∃ z, deletes zs !! ip = Some z ∧ rev ≤ revisionAddedAt z ≤ ctGCRevision zs ∧ name ∈ Names z ∧ expiry ≤ DeletePendingAt z.

(** A forced expiry that may hit it, or a dump that replaces it by something less. *)
Definition hits ip name (expiry : Time) (op : zombie_op) : bool :=
  match op with
  | ZForceExpire t nameMatch => (time_IsZero t || negb (time_After expiry t)) && matched nameMatch name
  | ZForceExpireByNameIP t n addrs => (time_IsZero t || negb (time_After expiry t)) && bool_decide (n = name ∧ ip ∈ addrs)
  | ZRestore dump =>
      match dump !! ip with Some z => negb (bool_decide (name ∈ Names z ∧ expiry ≤ DeletePendingAt z)) | None => false end
  | _ => false
  end.

Lemma spared_later t z expiry : expiry ≤ DeletePendingAt z → time_IsZero t || negb (time_After expiry t) = false → spared t z = true.
Proof. unfold spared, time_After. destruct (time_IsZero t); [done|]. cbn. intros He Hn%negb_false_iff%Z.ltb_lt. apply Z.ltb_lt. lia. Qed.

Lemma forced_entered zs op ip rev name expiry : zombies_ok zs → match op with ZForceExpire _ _ | ZForceExpireByNameIP _ _ _ => True | _ => False end →
  hits ip name expiry op = false → entered zs ip rev name expiry → entered (zombie_step zs op) ip rev name expiry.
Proof.
  intros OK Hop Hh. destruct op as [| | | |t m|t n addrs|]; try done; cbn [zombie_step hits] in *; apply andb_false_iff in Hh.
  - intros (z & E & Hr & Hn & He). assert (HN : name ∈ Names (expired t (matched m) z)).
    { apply expired_names. split; [done|]. destruct Hh as [Hh|Hh]; [left; by eapply spared_later|by right]. }
    exists (expired t (matched m) z). split; [apply ForceExpire_deletes; [done|]; exists z; split_and!; [done|done|right; set_solver]|].
    unfold zombies_ForceExpire. destruct (foldl _ _ _). cbn [fst ctGCRevision set_deletes].
    split_and!; [..|done|]; unfold expired; destruct (spared t z); cbn; lia.
  - apply (ForceExpireByNameIP_inv (λ zs, entered zs ip rev name expiry)). intros zs' ip' Hi (z & E & Hr & Hn & He).
    unfold entered. rewrite expire_one_deletes, expire_one_rest. cbn [ctGCRevision set_deletes]. destruct (decide (ip' = ip)) as [-> |]; [|by exists z].
    rewrite E. cbn. destruct (spared t z) eqn:Es; [by exists z|].
    assert (n ≠ name) by (destruct Hh as [Hh|Hh%bool_decide_eq_false]; [by rewrite (spared_later t z expiry) in Es|naive_solver]).
    rewrite bool_decide_eq_false_2 by set_solver. eexists. split; [done|]. cbn. set_solver.
Qed.

Lemma step_entered zs op ip rev name expiry : zombies_ok zs → Z.of_nat (size (deletes zs)) ≤ zombies_max zs →
  zombies_perHostLimit zs = 0 ∨ Z.of_nat (size (deletes zs)) ≤ zombies_perHostLimit zs → 0 ≤ rev → ctGCRevision zs ≤ rev + 1 → rev + 3 < 2 ^ 64 →
  hits ip name expiry op = false → entered zs ip rev name expiry → entered (zombie_step zs op) ip rev name expiry.
Proof.
  intros OK Hm Hl H0 Hc H64 Hh HE. destruct op as [t ip' names|now ip'|start next| |t m|t n addrs|dump];
    [..|by apply forced_entered|by apply forced_entered|]; destruct HE as (z & E & Hr & Hn & He); unfold entered; cbn [zombie_step].
  - assert (HC : ctGCRevision (zombies_Upsert t ip' names zs).1 = ctGCRevision zs) by (unfold zombies_Upsert; by destruct (deletes zs !! ip')).
    rewrite HC, Upsert_deletes. destruct (decide (ip' = ip)) as [<-|]; [|by exists z]. rewrite E. eexists. split; [done|]. cbn.
    split_and!; [lia|lia|set_solver|]. unfold time_After. destruct (Z.ltb_spec (DeletePendingAt z) t); lia.
  - assert (HC : ctGCRevision (MarkAlive now ip' zs) = ctGCRevision zs) by (unfold MarkAlive; by destruct (deletes zs !! ip')).
    rewrite HC, MarkAlive_deletes, E. destruct (decide (ip' = ip)); [|by exists z]. by eexists.
  - exists z. cbn. rewrite uwrap_small by (unfold is_uint; lia). split_and!; [done|lia|lia|done|done].
  - exists z. rewrite GC_stages at 2. cbn [fst ctGCRevision set_deletes]. split; [|done]. apply unlimited_alive; try done.
    unfold isConnectionAlive. rewrite uwrap_small by (unfold is_uint; lia). rewrite (proj2 (Z.ltb_lt (ctGCRevision zs) (revisionAddedAt z + 2)) ltac:(lia)).
    by repeat case_match.
  - cbn [zombies_restore set_deletes deletes ctGCRevision]. setoid_rewrite lookup_fmap. setoid_rewrite fmap_Some.
    cbn [hits] in Hh. destruct (dump !! ip) as [z'|] eqn:Ed.
    + apply negb_false_iff, bool_decide_eq_true in Hh as [? ?]. eexists. split; [exists z'; split; [by apply lookup_union_Some_l|done]|]. cbn. split_and!; done || lia.
    + eexists. split; [exists z; split; [by rewrite lookup_union_r|done]|]. cbn. split_and!; done || lia.
Qed.

Lemma revision_step zs op : 0 ≤ ctGCRevision zs → ctGCRevision zs + 1 < 2 ^ 64 →
  ctGCRevision (zombie_step zs op) = ctGCRevision zs + (if is_ctgc op then 1 else 0).
Proof.
  intros H0 H1. destruct op as [t ip' nm|now ip'|start next| |t m|t n addrs|dump]; cbn [zombie_step is_ctgc]; rewrite ?Z.add_0_r.
  - unfold zombies_Upsert. by destruct (deletes zs !! ip').
  - unfold MarkAlive. by destruct (deletes zs !! ip').
  - cbn. apply uwrap_small. unfold is_uint. lia.
  - by rewrite GC_stages.
  - unfold zombies_ForceExpire. by destruct (foldl _ _ _).
  - apply (ForceExpireByNameIP_inv (λ zs', ctGCRevision zs' = ctGCRevision zs)); [|done]. intros zs' ip _ H. by rewrite expire_one_rest.
  - done.
Qed.

Definition runs_of (P : zombie_op → bool) (ops : list zombie_op) : nat := length (filter (λ op, P op = true) ops).

Lemma runs_of_cons P op ops : runs_of P (op :: ops) = ((if P op then 1 else 0) + runs_of P ops)%nat.
Proof. unfold runs_of. rewrite filter_cons. destruct (P op); [by rewrite decide_True|by rewrite decide_False]. Qed.

(** Room for [n] zombies under both limits. *)
Definition room zs (n : nat) : Prop :=
  Z.of_nat n ≤ zombies_max zs ∧ (zombies_perHostLimit zs = 0 ∨ Z.of_nat n ≤ zombies_perHostLimit zs).

Lemma entered_run ip rev name expiry ops : 0 ≤ rev → rev + 3 < 2 ^ 64 →
  Forall zombie_op_ok ops → Forall (λ op, hits ip name expiry op = false) ops → ∀ zs, zombies_ok zs →
  rev ≤ ctGCRevision zs → ctGCRevision zs + Z.of_nat (runs_of is_ctgc ops) ≤ rev + 1 →
  room zs (size (deletes zs) + sum_list_with adds ops) → entered zs ip rev name expiry → entered (zombie_runs zs ops) ip rev name expiry.
Proof.
  intros H0 Hr. unfold zombie_runs. induction ops as [|op ops IH]; [done|]. intros [Hok Hoks]%Forall_cons [Hh Hhs]%Forall_cons zs OK Hk Hc [Hm Hl] HE.
  cbn [foldl]. cbn [sum_list_with] in Hm, Hl. rewrite runs_of_cons in Hc. destruct (zombie_step_limits zs op) as [M1 L1].
  pose proof (zombie_step_size zs op OK ltac:(lia)) as HZ. pose proof (revision_step zs op ltac:(lia) ltac:(lia)) as HR.
  apply IH; [done|done|..].
  - apply zombie_step_ok; [done|lia|done].
  - rewrite HR. destruct (is_ctgc op); lia.
  - rewrite HR. destruct (is_ctgc op); lia.
  - split; rewrite ?M1, ?L1; lia.
  - apply step_entered; try done; lia.
Qed.
End gc.

(** C27. A zombie survives until the connection tracking garbage collector has run twice since it was
    entered: after any history of upserts, liveness marks, collections, forced expiries and restored
    dumps with at most one further run it is still there under the name it was entered with, provided
    the limits leave room for all zombies of the history (no limit per host, or one that all of them
    together do not reach), no forced expiry hits the name (it is before the zombie's time, or of
    another name or address), and a dump that has the address has it with that name and no earlier
    time. *)
Theorem zombie_two_runs {GR : GoRange} {GS : GoSort} grace zs expiry ip name names ops :
  zombies_ok zs → deletes zs !! ip = None → name ∈ names → Forall zombie_op_ok ops →
  0 ≤ ctGCRevision zs → ctGCRevision zs + 3 < 2 ^ 64 → (runs_of is_ctgc ops ≤ 1)%nat →
  Forall (λ op, hits ip name expiry op = false) ops →
  room zs (S (size (deletes zs)) + sum_list_with adds ops) →
  ∃ z, deletes (zombie_runs grace zs (ZUpsert expiry ip names :: ops)) !! ip = Some z ∧ name ∈ Names z.
Proof.
  intros OK E Hn Hok H0 Hr Hc Hh [Hm Hl]. set (op := ZUpsert expiry ip names).
  pose proof (zombie_step_limits grace zs op) as [M1 L1]. pose proof (revision_step grace zs op ltac:(lia) ltac:(lia)) as HR.
  pose proof (zombie_step_size grace zs op OK ltac:(lia)) as HZ. cbn [op adds is_ctgc] in HR, HZ.
  destruct (entered_run grace ip (ctGCRevision zs) name expiry ops H0 Hr Hok Hh (zombie_step grace zs op)) as (z & Hz & _ & HN & _);
    [apply zombie_step_ok; [done|lia|done]|lia|lia|split; rewrite ?M1, ?L1; lia| |by exists z].
  unfold entered. rewrite HR. cbn [op zombie_step]. rewrite Upsert_deletes, decide_True, E by done. eexists. split; [done|]. cbn.
  split_and!; [lia|lia|by apply elem_of_list_to_set|lia].
Qed.

Lemma runs_ok {GR : GoRange} {GS : GoSort} grace ops : Forall zombie_op_ok ops → ∀ zs, zombies_ok zs → 0 ≤ zombies_perHostLimit zs →
  zombies_ok (zombie_runs grace zs ops) ∧ zombies_perHostLimit (zombie_runs grace zs ops) = zombies_perHostLimit zs.
Proof.
  unfold zombie_runs. induction 1 as [|op ops Hop _ IH]; intros zs OK Hl; [done|]. cbn [foldl].
  destruct (zombie_step_limits grace zs op) as [_ L1]. rewrite <- L1. apply IH; [by apply zombie_step_ok|congruence].
Qed.

(** C26. A collection of the zombies, after any history of upserts, liveness marks, connection
    tracking runs, collections, forced expiries (all names, names of a pattern, a name at given
    addresses) and restored dumps with the zombies under their addresses, and for a limit per host
    that is not negative: it splits the zombies into alive and dead, each address once, and keeps
    exactly the alive ones; at most the maximum stay, and of those with a name in use by a live
    connection at most the limit per host. A zombie that stays has a live connection or shares a name
    with one. A zombie dies only when neither its connection nor another one of its names is alive; or
    when one of its names in use has, besides it, the limit's number of zombies at least as important
    (marked alive later, or scheduled for deletion later, or with more names); or when the maximum is
    reached by zombies that are all at least as important. *)
Theorem zombies_collected {GR : GoRange} {GS : GoSort} grace max limit ops : 0 ≤ limit → Forall zombie_op_ok ops →
  let zs := zombie_runs grace (NewDNSZombieMappings max limit) ops in
  let r := zombies_GC grace zs in gc_result grace zs r.1 r.2.1 r.2.2.
Proof.
  intros Hl Hops zs. assert (OK : zombies_ok (NewDNSZombieMappings max limit)) by (intros ip z; cbn; by rewrite lookup_empty).
  destruct (runs_ok grace ops Hops _ OK Hl) as [OK' L']. apply GC_result; [done|]. fold zs in L'. rewrite L'. done.
Qed.

Module Examples.
#[local] Existing Instance range_elements.
#[local] Existing Instance sort_merge.

Definition host (n : Z) : Addr := V4 n.

(** Three addresses expire; one of them stays in use, a run of the collector passes and one more
    begins, then the zombies are collected. *)
Definition history : list zombie_op :=
  [ZUpsert 1000 (host 1) ["cilium.io"%string]; ZUpsert 1000 (host 2) ["cilium.io"%string];
   ZUpsert 2000 (host 3) ["ebpf.io"%string]; ZSetCTGCTime 3000 4000; ZMarkAlive 5000 (host 1);
   ZForceExpire 500 (Some (λ _, true)); ZForceExpireByNameIP 0 "cilium.io" [host 3]; ZSetCTGCTime 4500 6000].

Definition collected (limit : Z) : list Addr * list Addr :=
  let r := zombies_GC 0 (zombie_runs 0 (NewDNSZombieMappings 10 limit) history) in
  (z_IP <$> r.2.1, z_IP <$> r.2.2).

Lemma zombies_collected_witness : 0 ≤ 1 ∧ Forall zombie_op_ok history ∧ collected 1 = ([host 1], [host 3; host 2]) ∧
  (∀ ip z, deletes (zombies_GC 0 (zombie_runs 0 (NewDNSZombieMappings 10 1) history)).1 !! ip = Some z → ip = host 1).
Proof.
  split; [lia|]. split; [repeat constructor|]. split; [vm_compute; reflexivity|].
  pose proof (zombies_collected 0 10 1 history ltac:(lia) ltac:(repeat constructor)) as G. intros ip z H.
  apply (gr_deletes _ _ _ _ _ G) in H as [_ H]. revert H. cbn zeta.
  assert (E : z_IP <$> (zombies_GC 0 (zombie_runs 0 (NewDNSZombieMappings 10 1) history)).2.1 = [host 1]) by (vm_compute; reflexivity).
  rewrite E. apply list_elem_of_singleton.
Defined.

(** One run, another zombie, a collection, an expiry of what was pending before 900, one of another
    name at the same address, and a restored dump. *)
Definition survivor : list zombie_op :=
  [ZCollect; ZSetCTGCTime 3000 4000; ZUpsert 3500 (host 2) ["ebpf.io"%string]; ZCollect; ZForceExpire 900 None;
   ZForceExpireByNameIP 0 "ebpf.io" [host 1; host 2]; ZRestore {[host 3 := mkZombie {["cilium.io"%string]} (host 3) 0 2000 7]}; ZCollect].

Lemma zombie_two_runs_witness : (runs_of is_ctgc survivor ≤ 1)%nat ∧
  ∃ z, deletes (zombie_runs 0 (NewDNSZombieMappings 10 5) (ZUpsert 1000 (host 1) ["cilium.io"%string] :: survivor)) !! host 1 = Some z ∧
    "cilium.io"%string ∈ Names z.
Proof.
  split; [vm_compute; lia|]. apply zombie_two_runs; try (vm_compute; (reflexivity || lia || discriminate)).
  - by left.
  - repeat constructor. intros ip z. rewrite lookup_singleton_Some. by intros [<- <-].
  - repeat constructor.
  - split; [vm_compute; discriminate|right; vm_compute; discriminate].
Defined.
End Examples.
