(* ===== verification/DnsCache.v ===== *)
(** * The DNS cache

    Model of [DNSCache] of [src/pkg/fqdn/cache.go]: for every name the addresses it resolved to,
    each with the lookup that expires last, and the names of every address.  Expired lookups and
    lookups over the limit of addresses per name leave the cache in its garbage collection, which
    hands them to the zombies. *)

From stdpp Require Import sorting.
From S2P Require Import Prelude Text Netip GoLib DnsZombies.

Local Open Scope Z_scope.

(** The address of an entry identifies it: [e_ptr]. *)
Record cacheEntry := mkEntry {
  e_ptr : Z;
  e_Name : string;
  LookupTime : Time;
  ExpirationTime : Time;
  TTL : Z;
  e_IPs : list Addr;
}.

#[export] Instance cacheEntry_eq : EqDecision cacheEntry.
Proof. solve_decision. Defined.

Record UpdateStatus := mkStatus { Updated : bool; Upserted : bool }.

Definition isExpiredBy (entry : cacheEntry) (pointInTime : Time) : bool := time_After pointInTime (ExpirationTime entry).

Notation ipEntries := (gmap Addr cacheEntry).
Notation nameEntries := (gmap string cacheEntry).

(** [cleanup] is [None] once the tracking is disabled; [updated] holds addresses of other caches. *)
Record DNSCache := mkCache {
  forward : gmap string ipEntries;
  reverse : gmap Addr nameEntries;
  lastCleanup : Time;
  cleanup : option (gmap Z (list string));
  overLimit : gset string;
  perHostLimit : Z;
  minTTL : Z;
  updated : gset Z;
}.

Definition set_forward m (c : DNSCache) : DNSCache :=
  mkCache m (reverse c) (lastCleanup c) (cleanup c) (overLimit c) (perHostLimit c) (minTTL c) (updated c).
Definition set_reverse m (c : DNSCache) : DNSCache :=
  mkCache (forward c) m (lastCleanup c) (cleanup c) (overLimit c) (perHostLimit c) (minTTL c) (updated c).
Definition set_cleanup t m (c : DNSCache) : DNSCache :=
  mkCache (forward c) (reverse c) t m (overLimit c) (perHostLimit c) (minTTL c) (updated c).
Definition set_overLimit s (c : DNSCache) : DNSCache :=
  mkCache (forward c) (reverse c) (lastCleanup c) (cleanup c) s (perHostLimit c) (minTTL c) (updated c).
Definition set_updated s (c : DNSCache) : DNSCache :=
  mkCache (forward c) (reverse c) (lastCleanup c) (cleanup c) (overLimit c) (perHostLimit c) (minTTL c) s.

Definition NewDNSCacheWithLimit (minTTL limit : Z) : DNSCache := mkCache ∅ ∅ zeroTime (Some ∅) ∅ limit minTTL ∅.
Definition NewDNSCache (minTTL : Z) : DNSCache := NewDNSCacheWithLimit minTTL 0.

Definition DisableCleanupTrack (c : DNSCache) : DNSCache := set_cleanup (lastCleanup c) None c.

(** The addresses of a name; no entry and an empty map read alike. *)
Definition entries_of (c : DNSCache) (name : string) : ipEntries := default ∅ (forward c !! name).
Definition names_of (c : DNSCache) (ip : Addr) : nameEntries := default ∅ (reverse c !! ip).

(** ** Insertion *)

Definition upsertReverse (ip : Addr) (entry : cacheEntry) (c : DNSCache) : DNSCache :=
  set_reverse (<[ip := <[e_Name entry := entry]> (names_of c ip)]> (reverse c)) c.

Definition addNameToCleanup (entry : cacheEntry) (c : DNSCache) : DNSCache :=
  match cleanup c with
  | None => c
  | Some m =>
      let last := if time_IsZero (lastCleanup c) || time_Before (ExpirationTime entry) (lastCleanup c)
                  then ExpirationTime entry else lastCleanup c in
      let expiration := time_Unix (ExpirationTime entry) in
      set_cleanup last (Some (<[expiration := default [] (m !! expiration) ++ [e_Name entry]]> m)) c
  end.

(** The map of the name's addresses is the one stored in [forward]. *)
Definition update_ip (entry : cacheEntry) (acc : DNSCache * UpdateStatus) (ip : Addr) : DNSCache * UpdateStatus :=
  let '(c, st) := acc in
  let old := entries_of c (e_Name entry) !! ip in
  let replace := match old with None => true | Some o => isExpiredBy o (ExpirationTime entry) end in
  (if replace
   then addNameToCleanup entry (upsertReverse ip entry
          (set_forward (<[e_Name entry := <[ip := entry]> (entries_of c (e_Name entry))]> (forward c)) c))
   else c,
   mkStatus (Updated st || replace) (Upserted st || bool_decide (old = None))).

Definition updateWithEntryIPs (entry : cacheEntry) (c : DNSCache) : DNSCache * UpdateStatus :=
  foldl (update_ip entry) (c, mkStatus false false) (e_IPs entry).

Definition updateWithEntry (entry : cacheEntry) (c : DNSCache) : DNSCache * UpdateStatus :=
  let c := set_forward (<[e_Name entry := entries_of c (e_Name entry)]> (forward c)) c in
  let '(c, st) := updateWithEntryIPs entry c in
  (if (0 <? perHostLimit c) && (perHostLimit c <? Z.of_nat (size (entries_of c (e_Name entry))))
   then set_overLimit ({[e_Name entry]} ∪ overLimit c) c else c, st).

(** [ptr] is the address of the new entry. *)
Definition Update (ptr : Z) (lookupTime : Time) (name : string) (ips : list Addr) (ttl : Z) (updates : list Z) (c : DNSCache)
  : DNSCache * UpdateStatus :=
  let ttl := if ttl <? minTTL c then minTTL c else ttl in
  let entry := mkEntry ptr name lookupTime (time_Add lookupTime (seconds ttl)) ttl ips in
  updateWithEntry entry (set_updated (list_to_set updates ∪ updated c) c).

(** ** Removal *)

Definition removeForward (ip : Addr) (entry : cacheEntry) (c : DNSCache) : DNSCache :=
  match forward c !! e_Name entry with
  | None => c
  | Some entries =>
      let entries := delete ip entries in
      set_forward (if bool_decide (size entries = 0%nat) then delete (e_Name entry) (forward c)
                   else <[e_Name entry := entries]> (forward c)) c
  end.

Definition removeReverse (ip : Addr) (entry : cacheEntry) (c : DNSCache) : DNSCache :=
  match reverse c !! ip with
  | None => c
  | Some entries =>
      let entries := delete (e_Name entry) entries in
      set_reverse (if bool_decide (size entries = 0%nat) then delete ip (reverse c)
                   else <[ip := entries]> (reverse c)) c
  end.

Definition cache_remove (ip : Addr) (entry : cacheEntry) (c : DNSCache) : DNSCache :=
  removeReverse ip entry (removeForward ip entry c).

(** [delete(entries, ip)] on the map stored for [name]. *)
Definition delete_ip (name : string) (ip : Addr) (c : DNSCache) : DNSCache := set_forward (alter (delete ip) name (forward c)) c.

Section cache.
Context {GR : GoRange} {GS : GoSort}.
Implicit Types (c : DNSCache) (entry : cacheEntry) (name : string) (ip : Addr) (now : Time).

Definition remove_if (cond : cacheEntry → bool) name (entries : ipEntries) (acc : DNSCache * ipEntries) ip : DNSCache * ipEntries :=
  match entries !! ip with
  | Some entry =>
      if cond entry then (cache_remove ip entry (delete_ip name ip acc.1), <[ip := entry]> acc.2) else acc
  | None => acc
  end.

Definition expires_by now (expireLookupsBefore : Time) entry : bool :=
  isExpiredBy entry now || time_Before (LookupTime entry) expireLookupsBefore.

(** The entries of the map stored for [name], ranged over while they are deleted. *)
Definition removeExpired name now (expireLookupsBefore : Time) c : DNSCache * ipEntries :=
  let entries := entries_of c name in
  foldl (remove_if (expires_by now expireLookupsBefore) name entries) (c, ∅) (range (dom entries)).

(** ** Garbage collection *)

Notation removals := (gmap Addr (list cacheEntry)).

Definition append_removed (m : removals) ip entry : removals := <[ip := default [] (m !! ip) ++ [entry]]> m.

(** The seconds from [last] to [expires]: the new [lastCleanup], the remaining cleanup and the names
    to clean; [None] when out of fuel. *)
Fixpoint cleanup_loop (fuel : nat) (expires last : Time) (cl : option (gmap Z (list string))) (names : gset string)
  : option (Time * option (gmap Z (list string)) * gset string) :=
  match fuel with
  | O => None
  | S fuel =>
      if time_Before last expires then
        let key := time_Unix last in
        let next := time_Truncate (time_Add last second) second in
        match cl ≫= (.!! key) with
        | Some l => cleanup_loop fuel expires next (delete key <$> cl) (names ∪ list_to_set l)
        | None => cleanup_loop fuel expires next cl names
        end
      else Some (last, cl, names)
  end.

(** One round for each second begun, and the last test. *)
Definition cleanup_fuel (expires last : Time) : nat := S (S (Z.to_nat (expires / second - last / second))).

(** A name is affected when it has a map of addresses, even if none of them expired. *)
Definition cleanup_name (acc : DNSCache * (gset string * removals)) name : DNSCache * (gset string * removals) :=
  let '(c, (affected, removed)) := acc in
  match forward c !! name with
  | None => acc
  | Some _ =>
      let '(c, gone) := removeExpired name (lastCleanup c) zeroTime c in
      (c, ({[name]} ∪ affected,
           foldl (λ m ip, match gone !! ip with Some e => append_removed m ip e | None => m end) removed (range (dom gone))))
  end.

Definition cleanupExpiredEntries (expires : Time) c : option (DNSCache * (gset string * removals)) :=
  if time_IsZero (lastCleanup c) then Some (c, (∅, ∅))
  else
    '(last, cl, names) ← cleanup_loop (cleanup_fuel expires (lastCleanup c)) expires (lastCleanup c) (cleanup c) ∅;
    Some (foldl cleanup_name (set_cleanup last cl c, (∅, ∅)) (range names)).

Definition expires_before (x y : Addr * cacheEntry) : Prop := ExpirationTime x.2 ≤ ExpirationTime y.2.

#[export] Instance expires_before_dec x y : Decision (expires_before x y).
Proof. unfold expires_before. apply _. Defined.

Definition range_pairs {K A} `{Countable K} (m : gmap K A) : list (K * A) := omap (λ k, pair k <$> m !! k) (range (dom m)).

Definition evict_ip name (acc : DNSCache * removals) (key : Addr * cacheEntry) : DNSCache * removals :=
  (cache_remove key.1 key.2 (delete_ip name key.1 acc.1), append_removed acc.2 key.1 key.2).

Definition cleanup_over (acc : DNSCache * (gset string * removals)) dnsName : DNSCache * (gset string * removals) :=
  let '(c, (affected, removed)) := acc in
  match forward c !! dnsName with
  | None => acc
  | Some entries =>
      let over := Z.of_nat (size entries) - perHostLimit c in
      if over <=? 0 then acc
      else
        let sortedEntries := sort_by expires_before (range_pairs entries) in
        let '(c, removed) := foldl (evict_ip dnsName) (c, removed) (take (Z.to_nat over) sortedEntries) in
        (c, ({[dnsName]} ∪ affected, removed))
  end.

Definition cleanupOverLimitEntries c : DNSCache * (gset string * removals) :=
  if perHostLimit c =? 0 then (c, (∅, ∅))
  else
    let '(c, r) := foldl cleanup_over (c, (∅, ∅)) (range (overLimit c)) in
    (set_overLimit ∅ c, r).

Definition bury_entry now ip (zs : DNSZombieMappings) entry : DNSZombieMappings :=
  let expireTime := if time_After (ExpirationTime entry) now then ExpirationTime entry else now in
  (zombies_Upsert expireTime ip [e_Name entry] zs).1.

Definition bury now (m : removals) (zs : DNSZombieMappings) : DNSZombieMappings :=
  foldl (λ zs ip, foldl (bury_entry now ip) zs (default [] (m !! ip))) zs (range (dom m)).

Definition cache_GC now (zombies : option DNSZombieMappings) c : option (DNSCache * option DNSZombieMappings * gset string) :=
  '(c, (expiredNames, expiredEntries)) ← cleanupExpiredEntries now c;
  let '(c, (overLimitNames, overLimitEntries)) := cleanupOverLimitEntries c in
  Some (c, (λ zs, bury now overLimitEntries (bury now expiredEntries zs)) <$> zombies, expiredNames ∪ overLimitNames).

(** ** Merging caches *)

Definition UpdateFromCache (update : option DNSCache) c : DNSCache :=
  match update with
  | None => c
  | Some u => foldl (λ c entries, foldl (λ c e, (updateWithEntry e c).1) c (range_values entries)) c (range_values (forward u))
  end.

(** [next] is the address of the next new entry. *)
Definition restore_entry (oldEntries : gmap Addr (list string)) (acc : DNSCache * Z) entry : DNSCache * Z :=
  let '(c, next) := acc in
  let newIps := filter (λ ip, e_Name entry ∈ default [] (oldEntries !! ip)) (e_IPs entry) in
  if bool_decide (newIps = []) then acc
  else ((updateWithEntry (mkEntry next (e_Name entry) (LookupTime entry) (ExpirationTime entry) (TTL entry) newIps) c).1, next + 1).

Definition partialRestoreFromCache (update : DNSCache) (namesToUpdate : list string) (oldEntries : gmap Addr (list string))
    (acc : DNSCache * Z) : DNSCache * Z :=
  foldl (λ acc name,
    match forward update !! name with
    | None => acc
    | Some newEntries => foldl (restore_entry oldEntries) acc (range_values newEntries)
    end) acc namesToUpdate.

Definition getIPs c : gmap Addr (list string) := (λ names, range (dom names)) <$> reverse c.

Definition matched (nameMatch : option (string → bool)) name : bool :=
  match nameMatch with Some m => m name | None => true end.

Definition force_name (expireLookupsBefore : Time) (nameMatch : option (string → bool)) (acc : DNSCache * gset string) name
  : DNSCache * gset string :=
  if matched nameMatch name then
    let '(c, gone) := removeExpired name expireLookupsBefore expireLookupsBefore acc.1 in
    (c, list_to_set (e_Name <$> range_values gone) ∪ acc.2)
  else acc.

Definition cache_ForceExpire (expireLookupsBefore : Time) (nameMatch : option (string → bool)) c : DNSCache * gset string :=
  foldl (force_name expireLookupsBefore nameMatch) (c, ∅) (range (dom (forward c))).

Definition forceExpireByNames (expireLookupsBefore : Time) (names : list string) c : DNSCache :=
  foldl (λ c name,
    match forward c !! name with
    | None => c
    | Some _ => (removeExpired name expireLookupsBefore expireLookupsBefore c).1
    end) c names.

(** [heap] holds the other caches, by their addresses; [now] is read from the clock. *)
Definition ReplaceFromCacheByNames (heap : gmap Z DNSCache) now (namesToUpdate : list string) (updates : list Z) (acc : DNSCache * Z)
  : DNSCache * Z * gmap Addr (list string) :=
  let '(c, next) := acc in
  let c := set_updated (list_to_set updates ∪ updated c) c in
  let oldEntries := getIPs c in
  let c := forceExpireByNames now namesToUpdate c in
  let '(c, next) := foldl (λ acc p,
      match heap !! p with
      | Some update => partialRestoreFromCache update namesToUpdate oldEntries acc
      | None => acc
      end) (c, next) (range (updated c)) in
  (set_updated ∅ c, next, oldEntries).

(** ** Reading *)

Definition Unmap (a : Addr) : Addr :=
  match a with V6 w zone => if Is4In6 w then V4 (w mod 2 ^ 32) else a | V4 _ => a end.

Definition entries_getIPs now (s : ipEntries) : list Addr :=
  omap (λ ip, match s !! ip with Some e => if isExpiredBy e now then None else Some (Unmap ip) | None => None end) (range (dom s)).

Definition lookupByTime now name c : list Addr :=
  match forward c !! name with Some entries => entries_getIPs now entries | None => [] end.

Definition Lookup name c : list Addr := lookupByTime (lastCleanup c) name c.

Definition lookupByRegexpByTime now (re : string → bool) c : gmap string (list Addr) :=
  map_imap (λ name entries,
    if re name then match entries_getIPs now entries with [] => None | ips => Some ips end else None) (forward c).

Definition LookupByRegexp (re : string → bool) c : gmap string (list Addr) := lookupByRegexpByTime (lastCleanup c) re c.

Definition lookupIPByTime now ip c : list string :=
  match reverse c !! ip with
  | None => []
  | Some entries =>
      sort_by String.le (filter (λ name, from_option (λ e, negb (isExpiredBy e now)) false (entries !! name) = true) (range (dom entries)))
  end.

Definition LookupIP ip c : list string := lookupIPByTime (lastCleanup c) ip c.

Definition RemoveKnown (mappings : gmap Addr (list string)) c : gmap Addr (list string) :=
  map_imap (λ ip names,
    Some (match reverse c !! ip with
          | Some rnames => if bool_decide (size rnames = 0%nat) then names else filter (λ name, rnames !! name = None) names
          | None => names
          end)) mappings.

Definition ptr_le (x y : cacheEntry) : Prop := e_ptr x ≤ e_ptr y.

#[export] Instance ptr_le_dec x y : Decision (ptr_le x y).
Proof. unfold ptr_le. apply _. Defined.

(** The entries that differ from the one kept last. *)
Fixpoint dedup_after (last : Z) (lookups : list cacheEntry) : list cacheEntry :=
  match lookups with
  | [] => []
  | e :: lookups => if e_ptr e =? last then dedup_after last lookups else e :: dedup_after (e_ptr e) lookups
  end.

Definition dedup (lookups : list cacheEntry) : list cacheEntry :=
  match lookups with [] => [] | e :: lookups => e :: dedup_after (e_ptr e) lookups end.

Definition Dump c : list cacheEntry :=
  dedup (sort_by ptr_le (range_values (forward c) ≫= range_values)).

Definition DumpNames c : gset string := dom (forward c).

Definition Count c : Z * Z :=
  (uwrap 64 (Z.of_nat (size (forward c))),
   foldl (λ n (entries : ipEntries), uwrap 64 (n + uwrap 64 (Z.of_nat (size entries)))) 0 (range_values (forward c))).

(** [UnmarshalJSON]; [lookups] is what the decoder read.  Only the two maps start anew. *)
Definition cache_restore (lookups : list cacheEntry) c : DNSCache :=
  foldl (λ c e, (updateWithEntry e c).1) (set_reverse ∅ (set_forward ∅ c)) lookups.
End cache.
