(* ===== verification/DnsCacheInv.v ===== *)
(** * The DNS cache: its invariant, insertion and removal

    The forward and the reverse map of a [DNSCache] hold the same lookups; insertion keeps for every
    pair of name and address the lookup that expires last, and removal takes out exactly the pairs
    asked for. *)

From stdpp Require Import sorting.
From S2P Require Import Prelude Text Netip GoLib DnsZombies DnsCache.

Local Open Scope Z_scope.

Implicit Types (c : DNSCache) (e : cacheEntry) (n : string) (ip : Addr).

(** What the two maps say of each other. *)
Record cache_ok c : Prop := {
  ok_entry n ip e : entries_of c n !! ip = Some e → e_Name e = n ∧ ip ∈ e_IPs e;
  ok_reverse n ip : names_of c ip !! n = entries_of c n !! ip;
  ok_nonempty ip : reverse c !! ip ≠ Some ∅;
}.

(** The names that are over the limit are known. *)
Definition limit_ok c : Prop := 0 < perHostLimit c →
  ∀ n, perHostLimit c < Z.of_nat (size (entries_of c n)) → n ∈ overLimit c.

(** The times of a lookup come after the zero time. *)
Definition timely e : Prop := 0 ≤ LookupTime e ∧ 0 < ExpirationTime e.

(** The names of all lookups are filed under the seconds in which they expire, and no lookup expired
    before the last cleanup. *)
Record tracked c : Prop := {
  tr_on : is_Some (cleanup c);
  tr_pos : 0 ≤ lastCleanup c;
  tr_filed n ip e m : cleanup c = Some m → entries_of c n !! ip = Some e →
    n ∈ default [] (m !! time_Unix (ExpirationTime e));
  tr_last n ip e : entries_of c n !! ip = Some e → 0 < lastCleanup c ≤ ExpirationTime e;
  tr_lookup n ip e : entries_of c n !! ip = Some e → 0 ≤ LookupTime e;
}.

Lemma new_cache_ok ttl limit : let c := NewDNSCacheWithLimit ttl limit in cache_ok c ∧ limit_ok c ∧ tracked c.
Proof.
  assert (HE : ∀ n ip, entries_of (NewDNSCacheWithLimit ttl limit) n !! ip = None).
  { intros n ip. unfold entries_of. cbn. by rewrite lookup_empty. }
  split; [|split].
  - constructor; [intros n ip e; by rewrite HE|intros n ip; rewrite HE; unfold names_of; cbn; by rewrite lookup_empty|done].
  - intros Hl n. unfold entries_of. cbn. rewrite lookup_empty. cbn. rewrite map_size_empty. cbn in Hl. lia.
  - constructor; [by eexists|done|intros n ip e m _; by rewrite HE|intros n ip e; by rewrite HE|intros n ip e; by rewrite HE].
Qed.

(** ** Insertion *)

Definition newer (old : option cacheEntry) e : cacheEntry :=
  match old with Some o => if isExpiredBy o (ExpirationTime e) then e else o | None => e end.

Definition insert_pair e ip c : DNSCache :=
  addNameToCleanup e (upsertReverse ip e (set_forward (<[e_Name e := <[ip := e]> (entries_of c (e_Name e))]> (forward c)) c)).

Lemma track_maps e c : forward (addNameToCleanup e c) = forward c ∧ reverse (addNameToCleanup e c) = reverse c ∧
  overLimit (addNameToCleanup e c) = overLimit c ∧ perHostLimit (addNameToCleanup e c) = perHostLimit c ∧
  minTTL (addNameToCleanup e c) = minTTL c ∧ updated (addNameToCleanup e c) = updated c.
Proof. unfold addNameToCleanup. by destruct (cleanup c). Qed.

Lemma insert_entries e ip c n : entries_of (insert_pair e ip c) n =
  if decide (n = e_Name e) then <[ip := e]> (entries_of c n) else entries_of c n.
Proof.
  unfold insert_pair. destruct (track_maps e (upsertReverse ip e
    (set_forward (<[e_Name e := <[ip := e]> (entries_of c (e_Name e))]> (forward c)) c))) as (HF & _).
  unfold entries_of at 1. rewrite HF. cbn. destruct (decide (n = e_Name e)) as [->|Hn].
  - by rewrite lookup_insert_eq.
  - by rewrite lookup_insert_ne by done.
Qed.

Lemma insert_reverse e ip c : reverse (insert_pair e ip c) = <[ip := <[e_Name e := e]> (names_of c ip)]> (reverse c).
Proof.
  unfold insert_pair. destruct (track_maps e (upsertReverse ip e
    (set_forward (<[e_Name e := <[ip := e]> (entries_of c (e_Name e))]> (forward c)) c))) as (_ & HR & _).
  by rewrite HR.
Qed.

Lemma insert_ok e ip c : cache_ok c → ip ∈ e_IPs e → cache_ok (insert_pair e ip c).
Proof.
  intros OK HI. constructor.
  - intros n ip' e'. rewrite insert_entries. destruct (decide (n = e_Name e)) as [->|Hn]; [|by apply OK].
    rewrite lookup_insert_Some. intros [[<- <-]|[_ H]]; [done|by apply OK].
  - intros n ip'. rewrite insert_entries. unfold names_of at 1. rewrite insert_reverse.
    destruct (decide (ip' = ip)) as [->|Hip].
    + rewrite lookup_insert_eq. cbn. destruct (decide (n = e_Name e)) as [->|Hn]; [by rewrite !lookup_insert_eq|].
      rewrite lookup_insert_ne by done. apply OK.
    + rewrite lookup_insert_ne by done. change (default ∅ (reverse c !! ip')) with (names_of c ip').
      rewrite (ok_reverse c OK). destruct (decide (n = e_Name e)); [by rewrite lookup_insert_ne by done|done].
  - intros ip'. rewrite insert_reverse. destruct (decide (ip' = ip)) as [->|Hip].
    + rewrite lookup_insert_eq. intros [=H]. by apply insert_non_empty in H.
    + rewrite lookup_insert_ne by done. apply OK.
Qed.

Lemma insert_tracked e ip c : tracked c → timely e → tracked (insert_pair e ip c).
Proof.
  intros T [HL0 HE]. assert (HT : ∃ m, cleanup c = Some m) by apply T. destruct HT as [m Em].
  set (key := time_Unix (ExpirationTime e)).
  assert (HC : cleanup (insert_pair e ip c) = Some (<[key := default [] (m !! key) ++ [e_Name e]]> m) ∧
    lastCleanup (insert_pair e ip c) = if time_IsZero (lastCleanup c) || time_Before (ExpirationTime e) (lastCleanup c)
      then ExpirationTime e else lastCleanup c).
  { unfold insert_pair, addNameToCleanup. cbn. rewrite Em. done. }
  destruct HC as [HC HL]. unfold time_IsZero, time_Before in HL. constructor.
  - rewrite HC. by eexists.
  - rewrite HL. pose proof (tr_pos c T). by repeat case_match; lia.
  - intros n ip' e' m'. rewrite HC, insert_entries. intros [= <-] H.
    assert (HF : (n = e_Name e ∧ e' = e) ∨ n ∈ default [] (m !! time_Unix (ExpirationTime e'))).
    { destruct (decide (n = e_Name e)) as [->|]; [|right; by eapply T].
      apply lookup_insert_Some in H as [[_ <-]|[_ H]]; [by left|right; by eapply T]. }
    destruct (decide (time_Unix (ExpirationTime e') = key)) as [Ek|Ek].
    + rewrite Ek, lookup_insert_eq. cbn. apply elem_of_app. rewrite list_elem_of_singleton.
      destruct HF as [[-> _]|HF]; [by right|left; by rewrite <- Ek].
    + rewrite lookup_insert_ne by done. by destruct HF as [[_ ->]|HF].
  - intros n ip' e'. rewrite HL, insert_entries. intros H.
    assert (HF : e' = e ∨ 0 < lastCleanup c ≤ ExpirationTime e').
    { destruct (decide (n = e_Name e)) as [->|]; [|right; by eapply T].
      apply lookup_insert_Some in H as [[_ <-]|[_ H]]; [by left|right; by eapply T]. }
    pose proof (tr_pos c T).
    destruct (Z.eqb_spec (lastCleanup c) 0), (Z.ltb_spec (ExpirationTime e) (lastCleanup c)); cbn; destruct HF as [->|HF]; lia.
  - intros n ip' e'. rewrite insert_entries. destruct (decide (n = e_Name e)); [|by eapply T].
    rewrite lookup_insert_Some. intros [[_ <-]|[_ H]]; [done|by eapply T].
Qed.

(** What an insertion of the addresses [l] of [e] does to the whole cache. *)
Record inserted e (l : list Addr) c c' : Prop := {
  in_at n ip : entries_of c' n !! ip =
    if decide (n = e_Name e ∧ ip ∈ l) then Some (newer (entries_of c n !! ip) e) else entries_of c n !! ip;
  in_ok : cache_ok c → (∀ ip, ip ∈ l → ip ∈ e_IPs e) → cache_ok c';
  in_tracked : tracked c → timely e → tracked c';
  in_limit : perHostLimit c' = perHostLimit c;
  in_over : overLimit c' = overLimit c;
  in_min : minTTL c' = minTTL c;
  in_updated : updated c' = updated c;
  in_tracks : is_Some (cleanup c') ↔ is_Some (cleanup c);
}.

Lemma newer_twice o e : newer (Some (newer o e)) e = newer o e.
Proof.
  unfold newer, isExpiredBy, time_After. destruct o as [o|]; [|by rewrite Z.ltb_irrefl].
  destruct (ExpirationTime o <? ExpirationTime e) eqn:E; [by rewrite Z.ltb_irrefl|by rewrite E].
Qed.

Lemma update_ip_inserted e c st ip : inserted e [ip] c (update_ip e (c, st) ip).1.
Proof.
  unfold update_ip. fold (insert_pair e ip c).
  set (replace := match entries_of c (e_Name e) !! ip with None => true | Some o => isExpiredBy o (ExpirationTime e) end).
  cbn [fst]. constructor.
  - intros n ip'. assert (HN : newer (entries_of c (e_Name e) !! ip) e =
      if replace then e else default e (entries_of c (e_Name e) !! ip)).
    { unfold replace, newer. destruct (entries_of c (e_Name e) !! ip); [by destruct (isExpiredBy _ _)|done]. }
    destruct (decide (n = e_Name e ∧ ip' ∈ [ip])) as [[-> ->%list_elem_of_singleton]|Hn].
    + rewrite HN. destruct replace eqn:R; [rewrite insert_entries, decide_True, lookup_insert_eq by done; done|].
      unfold replace in R. by destruct (entries_of c (e_Name e) !! ip).
    + destruct replace; [|done]. rewrite insert_entries. destruct (decide (n = e_Name e)); [|done].
      rewrite lookup_insert_ne; [done|]. intros ->. apply Hn. set_solver.
  - intros OK HI. destruct replace; [apply insert_ok; [done|]; apply HI; set_solver|done].
  - intros T HE. destruct replace; [by apply insert_tracked|done].
  - destruct replace; [|done]. unfold insert_pair, addNameToCleanup. cbn. by destruct (cleanup c).
  - destruct replace; [|done]. unfold insert_pair, addNameToCleanup. cbn. by destruct (cleanup c).
  - destruct replace; [|done]. unfold insert_pair, addNameToCleanup. cbn. by destruct (cleanup c).
  - destruct replace; [|done]. unfold insert_pair, addNameToCleanup. cbn. by destruct (cleanup c).
  - destruct replace; [|done]. unfold insert_pair, addNameToCleanup. cbn. destruct (cleanup c) eqn:E; cbn; rewrite ?E; split; intros [? ?]; by try eexists.
Qed.

Lemma inserted_trans e l l' c c' c'' : inserted e l c c' → inserted e l' c' c'' → inserted e (l ++ l') c c''.
Proof.
  intros I I'. constructor.
  - intros n ip. rewrite (in_at _ _ _ _ I'), (in_at _ _ _ _ I). pose proof (newer_twice (entries_of c n !! ip) e).
    repeat case_decide; try done; try (f_equal; done); exfalso; set_solver.
  - intros OK H. apply I'; [apply I; [done|]; set_solver|set_solver].
  - intros T H. apply I'; [by apply I|done].
  - etrans; [apply I'|apply I].
  - etrans; [apply I'|apply I].
  - etrans; [apply I'|apply I].
  - etrans; [apply I'|apply I].
  - etrans; [apply I'|apply I].
Qed.

Lemma inserted_nil e c : inserted e [] c c.
Proof.
  constructor; try done. intros n ip. rewrite decide_False; [done|]. set_solver.
Qed.

Lemma update_ips_inserted e l : ∀ c st, inserted e l c (foldl (update_ip e) (c, st) l).1.
Proof.
  induction l as [|ip l IH]; intros c st; [apply inserted_nil|]. cbn [foldl].
  destruct (update_ip e (c, st) ip) as [c1 st1] eqn:E. apply (inserted_trans e [ip] l c c1); [|apply IH].
  pose proof (update_ip_inserted e c st ip) as H. by rewrite E in H.
Qed.

(** The status tells whether a lookup was stored, and whether a pair is new. *)
Lemma update_ips_status e l : ∀ c st, let r := foldl (update_ip e) (c, st) l in
  (Updated r.2 = true ↔ Updated st = true ∨ ∃ ip, ip ∈ l ∧
     match entries_of c (e_Name e) !! ip with Some o => isExpiredBy o (ExpirationTime e) = true | None => True end) ∧
  (Upserted r.2 = true ↔ Upserted st = true ∨ ∃ ip, ip ∈ l ∧ entries_of c (e_Name e) !! ip = None).
Proof.
  induction l as [|ip l IH]; intros c st; cbn zeta; [cbn; set_solver|]. cbn [foldl].
  destruct (update_ip e (c, st) ip) as [c1 st1] eqn:E. destruct (IH c1 st1) as [H1 H2]. rewrite H1, H2. clear H1 H2 IH.
  pose proof (in_at _ _ _ _ (update_ip_inserted e c st ip) (e_Name e)) as HA. rewrite E in HA. cbn [fst] in HA.
  assert (HS : st1 = (update_ip e (c, st) ip).2) by by rewrite E. unfold update_ip in HS. cbn [snd] in HS. rewrite HS. cbn [Updated Upserted].
  rewrite !orb_true_iff, bool_decide_eq_true.
  assert (HD : ∀ ip', ip' ≠ ip → entries_of c1 (e_Name e) !! ip' = entries_of c (e_Name e) !! ip').
  { intros ip' Hn. rewrite HA, decide_False; [done|]. set_solver. }
  assert (HI : entries_of c1 (e_Name e) !! ip = Some (newer (entries_of c (e_Name e) !! ip) e)).
  { rewrite HA, decide_True; [done|]. set_solver. }
  split.
  - assert (HI' : isExpiredBy (newer (entries_of c (e_Name e) !! ip) e) (ExpirationTime e) = false).
    { unfold newer, isExpiredBy, time_After. repeat case_match; lia. }
    setoid_rewrite elem_of_cons. split.
    + intros [[?|H]|(ip' & Hl & H)]; [by left|right; exists ip; split; [by left|by destruct (entries_of c _ !! ip)]|].
      right. destruct (decide (ip' = ip)) as [->|Hn]; [rewrite HI in H; congruence|]. exists ip'. rewrite (HD ip' Hn) in H. by split; [right|].
    + intros [?|(ip' & Hl & H)]; [by left; left|]. destruct (decide (ip' = ip)) as [->|Hn].
      * left; right. by destruct (entries_of c _ !! ip).
      * right. exists ip'. rewrite (HD ip' Hn). destruct Hl; done.
  - setoid_rewrite elem_of_cons. split.
    + intros [[?|H]|(ip' & Hl & H)]; [by left|right; exists ip; by split; [left|]|].
      right. destruct (decide (ip' = ip)) as [->|Hn]; [congruence|]. exists ip'. rewrite (HD ip' Hn) in H. by split; [right|].
    + intros [?|(ip' & Hl & H)]; [by left; left|]. destruct (decide (ip' = ip)) as [->|Hn]; [by left; right|].
      right. exists ip'. rewrite (HD ip' Hn). destruct Hl; done.
Qed.

(** What an insertion of the lookup [e] does. *)
Record updated_by e c c' : Prop := {
  up_at n ip : entries_of c' n !! ip =
    if decide (n = e_Name e ∧ ip ∈ e_IPs e) then Some (newer (entries_of c n !! ip) e) else entries_of c n !! ip;
  up_ok : cache_ok c → cache_ok c';
  up_tracked : tracked c → timely e → tracked c';
  up_limit_ok : limit_ok c → limit_ok c';
  up_limit : perHostLimit c' = perHostLimit c;
  up_min : minTTL c' = minTTL c;
  up_updated : updated c' = updated c;
}.

Lemma entries_same c c' : (∀ n, entries_of c' n = entries_of c n) → reverse c' = reverse c → cache_ok c → cache_ok c'.
Proof.
  intros HE HR OK. assert (HN : ∀ ip, names_of c' ip = names_of c ip) by (intros ip; unfold names_of; by rewrite HR).
  constructor; [intros n ip e; rewrite HE; apply OK|intros n ip; rewrite HE, HN; apply OK|intros ip; rewrite HR; apply OK].
Qed.

Lemma tracked_same c c' : (∀ n, entries_of c' n = entries_of c n) → cleanup c' = cleanup c → lastCleanup c' = lastCleanup c →
  tracked c → tracked c'.
Proof.
  intros HE HC HL T. constructor; rewrite ?HC, ?HL; [apply T|apply T| | |].
  - intros n ip e m. rewrite HE. apply T.
  - intros n ip e. rewrite HE. apply T.
  - intros n ip e. rewrite HE. apply T.
Qed.

Lemma register_entries e c n : entries_of (set_forward (<[e_Name e := entries_of c (e_Name e)]> (forward c)) c) n = entries_of c n.
Proof.
  unfold entries_of at 1. cbn. destruct (decide (n = e_Name e)) as [->|Hn]; [by rewrite lookup_insert_eq|].
  by rewrite lookup_insert_ne by done.
Qed.

Lemma updateWithEntry_spec e c : updated_by e c (updateWithEntry e c).1.
Proof.
  unfold updateWithEntry. set (c0 := set_forward _ c).
  assert (HE : ∀ n, entries_of c0 n = entries_of c n) by apply register_entries.
  unfold updateWithEntryIPs. pose proof (update_ips_inserted e (e_IPs e) c0 (mkStatus false false)) as I.
  destruct (foldl (update_ip e) (c0, mkStatus false false) (e_IPs e)) as [c1 st]. cbn [fst] in I |- *.
  set (over := (0 <? perHostLimit c1) && _). set (c2 := if over then set_overLimit ({[e_Name e]} ∪ overLimit c1) c1 else c1).
  assert (HE2 : ∀ n, entries_of c2 n = entries_of c1 n) by (intros n; unfold c2; by destruct over).
  assert (HR2 : reverse c2 = reverse c1 ∧ cleanup c2 = cleanup c1 ∧ lastCleanup c2 = lastCleanup c1 ∧
    perHostLimit c2 = perHostLimit c1 ∧ minTTL c2 = minTTL c1 ∧ updated c2 = updated c1) by (unfold c2; by destruct over).
  destruct HR2 as (R2 & C2 & L2 & P2 & M2 & U2). constructor.
  - intros n ip. by rewrite HE2, (in_at _ _ _ _ I), HE.
  - intros OK. apply (entries_same c1); [done|done|]. apply I; [by apply (entries_same c)|done].
  - intros T Hx. apply (tracked_same c1); [done|done|done|]. apply I; [by apply (tracked_same c)|done].
  - intros L Hp n. rewrite HE2, P2. intros HS. rewrite P2 in Hp.
    assert (HO : c2 = set_overLimit ({[e_Name e]} ∪ overLimit c1) c1 ∨ overLimit c2 = overLimit c1 ∧
      Z.of_nat (size (entries_of c1 (e_Name e))) ≤ perHostLimit c1).
    { unfold c2. destruct over eqn:EO; [by left|right; split; [done|]]. unfold over in EO. apply andb_false_iff in EO. lia. }
    destruct (decide (n = e_Name e)) as [->|Hn].
    + destruct HO as [->|[_ HO]]; [cbn; set_solver|lia].
    + assert (HN : n ∈ overLimit c).
      { assert (PL : perHostLimit c1 = perHostLimit c) by apply I. apply L; rewrite <- PL; [done|].
        rewrite <- HE. replace (entries_of c0 n) with (entries_of c1 n); [done|].
        apply map_eq. intros ip. rewrite (in_at _ _ _ _ I), decide_False; [done|]. naive_solver. }
      destruct HO as [->|[-> _]]; rewrite (in_over _ _ _ _ I); cbn; set_solver.
  - rewrite P2. apply I.
  - rewrite M2. apply I.
  - rewrite U2. apply I.
Qed.

(** ** Removal *)

(** [c'] is [c] without the pairs in [P]. *)
Record removes (P : string → Addr → cacheEntry → Prop) c c' : Prop := {
  rm_at n ip e : entries_of c' n !! ip = Some e ↔ entries_of c n !! ip = Some e ∧ ¬ P n ip e;
  rm_ok : cache_ok c → cache_ok c';
  rm_last : lastCleanup c' = lastCleanup c;
  rm_cleanup : cleanup c' = cleanup c;
  rm_over : overLimit c' = overLimit c;
  rm_limit : perHostLimit c' = perHostLimit c;
  rm_min : minTTL c' = minTTL c;
  rm_updated : updated c' = updated c;
}.

Lemma withdraw_none c P : (∀ n ip e, entries_of c n !! ip = Some e → ¬ P n ip e) → removes P c c.
Proof. intros H. constructor; try done. intros n ip e. specialize (H n ip e). tauto. Qed.

Lemma withdraw_trans P Q c c' c'' : removes P c c' → removes Q c' c'' → removes (λ n ip e, P n ip e ∨ Q n ip e) c c''.
Proof.
  intros R R'. constructor.
  - intros n ip e. rewrite (rm_at _ _ _ R'), (rm_at _ _ _ R). tauto.
  - intros OK. by apply R', R.
  - etrans; [apply R'|apply R].
  - etrans; [apply R'|apply R].
  - etrans; [apply R'|apply R].
  - etrans; [apply R'|apply R].
  - etrans; [apply R'|apply R].
  - etrans; [apply R'|apply R].
Qed.

Lemma withdraw_iff P Q c c' : (∀ n ip e, entries_of c n !! ip = Some e → P n ip e ↔ Q n ip e) → removes P c c' → removes Q c c'.
Proof.
  intros H R. constructor; try apply R. intros n ip e. rewrite (rm_at _ _ _ R). specialize (H n ip e). tauto.
Qed.

Lemma removes_sub P c c' n : removes P c c' → entries_of c' n ⊆ entries_of c n.
Proof. intros R. apply map_subseteq_spec. intros ip e H. by apply (rm_at _ _ _ R) in H as [H _]. Qed.

Lemma removes_limit P c c' : removes P c c' → limit_ok c → limit_ok c'.
Proof.
  intros R L Hp n. rewrite (rm_over _ _ _ R), (rm_limit _ _ _ R) in *. intros HS. apply L; [done|].
  assert (HL : (size (entries_of c' n) ≤ size (entries_of c n))%nat).
  { rewrite <- !(size_dom (M := gmap Addr)). by apply subseteq_size, subseteq_dom, (removes_sub P). }
  lia.
Qed.

Lemma removes_tracked P c c' : removes P c c' → tracked c → tracked c'.
Proof.
  intros R T. constructor; rewrite ?(rm_last _ _ _ R), ?(rm_cleanup _ _ _ R); [apply T|apply T| | |].
  - intros n ip e m Hm [H _]%(rm_at _ _ _ R). by eapply T.
  - intros n ip e [H _]%(rm_at _ _ _ R). by eapply T.
  - intros n ip e [H _]%(rm_at _ _ _ R). by eapply T.
Qed.

Lemma delete_entries n ip c n' : entries_of (delete_ip n ip c) n' = if decide (n' = n) then delete ip (entries_of c n') else entries_of c n'.
Proof.
  unfold delete_ip, entries_of. cbn. destruct (decide (n' = n)) as [->|Hn]; [|by rewrite lookup_alter_ne].
  rewrite lookup_alter_eq. destruct (forward c !! n); cbn; [done|by rewrite delete_empty].
Qed.

Lemma removeForward_entries ip e c n : entries_of (removeForward ip e c) n =
  if decide (n = e_Name e) then delete ip (entries_of c n) else entries_of c n.
Proof.
  unfold removeForward. destruct (forward c !! e_Name e) as [es|] eqn:E.
  - unfold entries_of at 1. cbn. destruct (decide (n = e_Name e)) as [->|Hn].
    + assert (HE : entries_of c (e_Name e) = es) by (unfold entries_of; by rewrite E). rewrite HE.
      case_bool_decide as HS; [|by rewrite lookup_insert_eq]. rewrite lookup_delete_eq. cbn. symmetry. by apply map_size_empty_inv.
    + case_bool_decide; [by rewrite lookup_delete_ne|by rewrite lookup_insert_ne].
  - destruct (decide (n = e_Name e)) as [->|Hn]; [|done]. unfold entries_of. rewrite E. cbn. by rewrite delete_empty.
Qed.

Lemma removeReverse_names ip e c ip' : names_of (removeReverse ip e c) ip' =
  if decide (ip' = ip) then delete (e_Name e) (names_of c ip') else names_of c ip'.
Proof.
  unfold removeReverse. destruct (reverse c !! ip) as [es|] eqn:E.
  - unfold names_of at 1. cbn. destruct (decide (ip' = ip)) as [->|Hn].
    + assert (HE : names_of c ip = es) by (unfold names_of; by rewrite E). rewrite HE.
      case_bool_decide as HS; [|by rewrite lookup_insert_eq]. rewrite lookup_delete_eq. cbn. symmetry. by apply map_size_empty_inv.
    + case_bool_decide; [by rewrite lookup_delete_ne|by rewrite lookup_insert_ne].
  - destruct (decide (ip' = ip)) as [->|Hn]; [|done]. unfold names_of. rewrite E. cbn. by rewrite delete_empty.
Qed.

Lemma removeReverse_nonempty ip e c : (∀ ip', reverse c !! ip' ≠ Some ∅) → ∀ ip', reverse (removeReverse ip e c) !! ip' ≠ Some ∅.
Proof.
  intros H ip'. unfold removeReverse. destruct (reverse c !! ip) as [es|] eqn:E; [|done]. cbn.
  case_bool_decide as HS.
  - rewrite lookup_delete_Some. intros [_ ?]. by eapply H.
  - rewrite lookup_insert_Some. intros [[_ HE]|[_ ?]]; [rewrite HE, map_size_empty in HS; done|by eapply H].
Qed.

(** The pair of a name and an address leaves both maps. *)
Lemma take_out n ip e c : e_Name e = n → removes (λ n' ip' _, n' = n ∧ ip' = ip) c (cache_remove ip e (delete_ip n ip c)).
Proof.
  intros En. unfold cache_remove. set (c1 := delete_ip n ip c). set (c2 := removeForward ip e c1). set (c3 := removeReverse ip e c2).
  assert (HE : ∀ n', entries_of c3 n' = if decide (n' = n) then delete ip (entries_of c n') else entries_of c n').
  { intros n'. replace (entries_of c3 n') with (entries_of c2 n') by (unfold c3, removeReverse; by destruct (reverse c2 !! ip)).
    unfold c2, c1. rewrite removeForward_entries, delete_entries, En. destruct (decide (n' = n)); [by rewrite delete_delete_eq|done]. }
  assert (HR : reverse c2 = reverse c) by (unfold c2, removeForward; by destruct (forward c1 !! _)).
  assert (HN : ∀ ip', names_of c3 ip' = if decide (ip' = ip) then delete n (names_of c ip') else names_of c ip').
  { intros ip'. unfold c3. rewrite removeReverse_names, En. unfold names_of. by rewrite HR. }
  assert (HF : lastCleanup c3 = lastCleanup c ∧ cleanup c3 = cleanup c ∧ overLimit c3 = overLimit c ∧
    perHostLimit c3 = perHostLimit c ∧ minTTL c3 = minTTL c ∧ updated c3 = updated c).
  { unfold c3, removeReverse. destruct (reverse c2 !! ip); unfold c2, removeForward; by destruct (forward c1 !! _). }
  assert (HA : ∀ n' ip' e', entries_of c3 n' !! ip' = Some e' ↔ entries_of c n' !! ip' = Some e' ∧ ¬ (n' = n ∧ ip' = ip)).
  { intros n' ip' e'. rewrite HE. destruct (decide (n' = n)) as [->|]; [|naive_solver]. rewrite lookup_delete_Some. naive_solver. }
  constructor; try apply HF; [done|]. intros OK. constructor.
  - intros n' ip' e' [H _]%HA. by apply OK.
  - intros n' ip'. rewrite HN, HE. pose proof (ok_reverse c OK n' ip') as HO.
    destruct (decide (ip' = ip)) as [->|], (decide (n' = n)) as [->|]; rewrite ?lookup_delete_eq, ?lookup_delete_ne by done; done.
  - apply removeReverse_nonempty. rewrite HR. apply OK.
Qed.

Lemma remove_fold (cond : cacheEntry → bool) name (es : ipEntries) l : (∀ ip e, es !! ip = Some e → e_Name e = name) →
  ∀ c gone, gone ⊆ es → let r := foldl (remove_if cond name es) (c, gone) l in
  removes (λ n ip _, n = name ∧ ip ∈ l ∧ ∃ e, es !! ip = Some e ∧ cond e = true) c r.1 ∧
  (∀ ip e, r.2 !! ip = Some e ↔ gone !! ip = Some e ∨ ip ∈ l ∧ es !! ip = Some e ∧ cond e = true).
Proof.
  intros HN. induction l as [|ip l IH]; intros c gone HG; cbn zeta.
  { split; [apply withdraw_none; set_solver|]. set_solver. }
  assert (HS : ∀ ip', (ip' ∈ ip :: l) ↔ ip' = ip ∨ ip' ∈ l) by (intros; apply elem_of_cons).
  cbn [foldl]. unfold remove_if at 2 4. destruct (es !! ip) as [e|] eqn:E; [destruct (cond e) eqn:C|].
  - destruct (IH (cache_remove ip e (delete_ip name ip c)) (<[ip := e]> gone)) as [R G]; [by apply insert_subseteq_l|]. split.
    + eapply withdraw_iff; [|eapply withdraw_trans; [apply take_out; by eapply HN|exact R]]. intros n ip' e' _. cbn beta. rewrite HS.
      split; [intros [[-> ->]|(? & ? & ?)]; [split_and!; [done|by left|by exists e]|by eauto]|].
      intros (-> & [->|?] & ?); [by left|by right].
    + intros ip' e'. cbn [snd fst]. rewrite G, lookup_insert_Some, HS. pose proof (proj1 (map_subseteq_spec _ _) HG ip' e') as Hs. clear -E C Hs.
      destruct (decide (ip' = ip)) as [->|Hn]; [rewrite E in *|].
      * split; [intros [[[_ [= ->]]|[? _]]|(? & ? & ?)]; [by eauto|done|by eauto]|].
        intros [H|(_ & [= ->] & _)]; [specialize (Hs H); injection Hs as ->|]; by left; left.
      * split; [intros [[[? _]|[_ ?]]|(? & ? & ?)]; [done|by left|by eauto]|]. intros [?|([?|?] & ? & ?)]; [by left; right|done|by eauto].
  - destruct (IH c gone HG) as [R G]. split.
    + eapply withdraw_iff; [|exact R]. intros n ip' e' _. cbn beta. rewrite HS. clear -E C.
      split; [intros (? & ? & ?); by eauto|]. intros (? & [->|?] & e1 & He & ?); [congruence|by eauto].
    + intros ip' e'. rewrite G, HS. clear -E C. split; [intros [?|(? & ? & ?)]; by eauto|].
      intros [?|([->|?] & ? & ?)]; [by left|congruence|by eauto].
  - destruct (IH c gone HG) as [R G]. split.
    + eapply withdraw_iff; [|exact R]. intros n ip' e' _. cbn beta. rewrite HS. clear -E.
      split; [intros (? & ? & ?); by eauto|]. intros (? & [->|?] & e1 & He & ?); [congruence|by eauto].
    + intros ip' e'. rewrite G, HS. clear -E. split; [intros [?|(? & ? & ?)]; by eauto|].
      intros [?|([->|?] & ? & ?)]; [by left|congruence|by eauto].
Qed.

Section removal.
Context {GR : GoRange} {GS : GoSort}.

(** [removeExpired] takes out the lookups of a name that match, and returns them. *)
Lemma removeExpired_spec name now before c : cache_ok c → let r := removeExpired name now before c in
  removes (λ n ip e, n = name ∧ expires_by now before e = true) c r.1 ∧
  (∀ ip e, r.2 !! ip = Some e ↔ entries_of c name !! ip = Some e ∧ expires_by now before e = true).
Proof.
  intros OK. unfold removeExpired. destruct (remove_fold (expires_by now before) name (entries_of c name) (range (dom (entries_of c name)))
    ltac:(intros ip e H; by apply OK in H as [? _]) c ∅ ltac:(apply map_empty_subseteq)) as [R G].
  assert (HD : ∀ ip e, entries_of c name !! ip = Some e → ip ∈ range (dom (entries_of c name))).
  { intros ip e H. by apply elem_of_range, elem_of_dom. }
  split.
  - eapply withdraw_iff; [|exact R]. intros n ip e H. cbn beta. specialize (HD ip). split; [intros (-> & _ & e' & ? & ?); naive_solver|].
    intros [-> ?]. split; [done|]. split; [by eapply HD|]. by exists e.
  - intros ip e. rewrite G, lookup_empty. specialize (HD ip e). naive_solver.
Qed.

Lemma expires_plain now e : expires_by now zeroTime e = true ↔ ExpirationTime e < now ∨ LookupTime e < 0.
Proof. unfold expires_by, isExpiredBy, time_After, time_Before, zeroTime. rewrite orb_true_iff. lia. Qed.
End removal.
