(* ===== verification/DnsCacheGC.v ===== *)
(** * The DNS cache: garbage collection

    [cleanupExpiredEntries], [cleanupOverLimitEntries] and [GC] of [src/pkg/fqdn/cache.go].  The
    collection ends, removes all expired lookups and the surplus of every name, and hands what it
    removed to the zombies. *)

From stdpp Require Import sorting.
From S2P Require Import Prelude Text Netip GoLib DnsZombies DnsZombiesGC DnsCache DnsCacheInv.

Local Open Scope Z_scope.

Implicit Types (c : DNSCache) (e : cacheEntry) (n : string) (ip : Addr).

(** ** The seconds of the cleanup *)

(** Up to the second in which [expires] falls. *)
Definition swept (expires last : Time) : Time := if last <? expires then - (- expires / second) * second else last.

Lemma swept_next expires last : last < expires → swept expires (next_second last) = swept expires last.
Proof.
  intros H. unfold swept. rewrite (proj2 (Z.ltb_lt _ _) H). destruct (next_second_spec last) as [E _].
  destruct (Z.ltb_spec (next_second last) expires) as [|Hn]; [done|]. rewrite E in *.
  assert (HQ : - expires / second = - (last / second + 1)); [|lia]. unfold second in *.
  pose proof (Z.div_mod last 1000000000 ltac:(lia)). pose proof (Z.mod_pos_bound last 1000000000 ltac:(lia)).
  symmetry. apply (Z.div_unique_pos _ _ _ ((last / 1000000000 + 1) * 1000000000 - expires)); lia.
Qed.

Lemma swept_bounds expires last : last < expires → expires ≤ swept expires last < expires + second.
Proof.
  intros H. unfold swept. rewrite (proj2 (Z.ltb_lt _ _) H). unfold second.
  pose proof (Z.div_mod (- expires) 1000000000 ltac:(lia)). pose proof (Z.mod_pos_bound (- expires) 1000000000 ltac:(lia)). lia.
Qed.

Lemma swept_le expires last : last ≤ swept expires last ∧ expires ≤ swept expires last.
Proof.
  destruct (decide (last < expires)) as [H|H]; [pose proof (swept_bounds expires last H); lia|].
  unfold swept. rewrite (proj2 (Z.ltb_ge _ _)) by lia. lia.
Qed.

(** A time lies before the end of the cleanup when its second does. *)
Lemma swept_second expires last t : last < expires → t < swept expires last ↔ time_Unix t < time_Unix (swept expires last).
Proof.
  intros H. unfold swept. rewrite (proj2 (Z.ltb_lt _ _) H). unfold time_Unix. rewrite Z.div_mul by done.
  set (q := - (- expires / second)). unfold second. pose proof (Z.div_mod t 1000000000 ltac:(lia)).
  pose proof (Z.mod_pos_bound t 1000000000 ltac:(lia)). nia.
Qed.

Lemma next_Unix last : time_Unix (next_second last) = time_Unix last + 1.
Proof. destruct (next_second_spec last) as [E _]. unfold time_Unix. rewrite E, Z.div_mul by done. lia. Qed.

Lemma loop_ends fuel expires : ∀ last cl names, expires / second - last / second + 1 < Z.of_nat fuel → 0 < Z.of_nat fuel →
  ∃ cl' names', cleanup_loop fuel expires last cl names = Some (swept expires last, cl', names') ∧
    (is_Some cl' ↔ is_Some cl) ∧
    (∀ k, default ∅ cl' !! k = if decide (time_Unix last ≤ k < time_Unix (swept expires last)) then None else default ∅ cl !! k) ∧
    (∀ n, n ∈ names' ↔ n ∈ names ∨ ∃ k, time_Unix last ≤ k < time_Unix (swept expires last) ∧ n ∈ default [] (default ∅ cl !! k)).
Proof.
  induction fuel as [|fuel IH]; intros last cl names Hf H0; [lia|]. cbn [cleanup_loop]. unfold time_Before.
  destruct (Z.ltb_spec last expires) as [Hl|Hl]; [|unfold swept; rewrite (proj2 (Z.ltb_ge _ _) Hl)].
  - fold (next_second last). set (key := time_Unix last). rewrite <- (swept_next expires last Hl).
    assert (HE : next_second last / second = last / second + 1).
    { destruct (next_second_spec last) as [E _]. rewrite E. by apply Z.div_mul. }
    assert (HM : last / second ≤ expires / second) by (apply Z.div_le_mono; [done|lia]).
    pose proof (next_Unix last) as HU. pose proof (Unix_mono _ _ (proj1 (swept_le expires (next_second last)))) as HS.
    set (stop := time_Unix (swept expires (next_second last))) in *. fold key in HU. rewrite HU in HS.
    assert (Hcl : cl ≫= (.!! key) = default ∅ cl !! key) by (destruct cl; cbn; [done|by rewrite lookup_empty]). rewrite Hcl.
    assert (HK : ∀ k, key ≤ k < stop ↔ k = key ∨ key + 1 ≤ k < stop) by lia.
    destruct (default ∅ cl !! key) as [l|] eqn:Ek.
    + destruct (IH (next_second last) (delete key <$> cl) (names ∪ list_to_set l)) as (cl' & names' & -> & HI & HD & HN); [lia|lia|].
      exists cl', names'. split; [done|]. fold stop in HD, HN. rewrite HU in HD, HN.
      assert (Hdel : ∀ k, default ∅ (delete key <$> cl) !! k = if decide (k = key) then None else default ∅ cl !! k).
      { intros k. destruct cl; cbn; [|rewrite lookup_empty; by case_decide]. destruct (decide (k = key)) as [->|]; [apply lookup_delete_eq|by apply lookup_delete_ne]. }
      split; [rewrite HI; by destruct cl; split; intros [? ?]|]. split.
      * intros k. rewrite HD, Hdel. specialize (HK k). repeat case_decide; done || lia.
      * intros n. rewrite HN, elem_of_union, elem_of_list_to_set. split.
        -- intros [[?|?]|(k & Hk & Hn)]; [by left|right; exists key; split; [lia|by rewrite Ek]|].
           right. exists k. split; [lia|]. rewrite Hdel, decide_False in Hn by lia. done.
        -- intros [?|(k & Hk%HK & Hn)]; [by left; left|]. destruct Hk as [->|Hk]; [rewrite Ek in Hn; by left; right|].
           right. exists k. split; [done|]. by rewrite Hdel, decide_False by lia.
    + destruct (IH (next_second last) cl names) as (cl' & names' & -> & HI & HD & HN); [lia|lia|].
      exists cl', names'. split; [done|]. split; [done|]. fold stop in HD, HN. rewrite HU in HD, HN. split.
      * intros k. rewrite HD. specialize (HK k). destruct (decide (k = key)) as [->|]; [rewrite Ek; by repeat case_decide|].
        repeat case_decide; done || lia.
      * intros n. rewrite HN. split; [intros [?|(k & Hk & Hn)]; [by left|]; right; exists k; split; [lia|done]|].
        intros [?|(k & Hk%HK & Hn)]; [by left|]. destruct Hk as [->|Hk]; [rewrite Ek in Hn; by apply elem_of_nil in Hn|]. right. by exists k.
  - exists cl, names. split_and!; [done|done| |].
    + intros k. rewrite decide_False by lia. done.
    + intros n. split; [by left|]. intros [?|(k & Hk & _)]; [done|lia].
Qed.

(** ** Expired lookups *)

Notation removals := (gmap Addr (list cacheEntry)).

Definition in_removed (m : removals) ip e : Prop := e ∈ default [] (m !! ip).

Lemma append_in (m : removals) ip e ip' e' : in_removed (append_removed m ip e) ip' e' ↔ in_removed m ip' e' ∨ ip' = ip ∧ e' = e.
Proof.
  unfold in_removed, append_removed. destruct (decide (ip' = ip)) as [->|Hn].
  - rewrite lookup_insert_eq. cbn. rewrite elem_of_app, list_elem_of_singleton. naive_solver.
  - rewrite lookup_insert_ne by done. naive_solver.
Qed.

Section gc.
Context {GR : GoRange} {GS : GoSort}.

Lemma collect_in (gone : ipEntries) l : ∀ (m : removals) ip e,
  in_removed (foldl (λ m ip, match gone !! ip with Some e => append_removed m ip e | None => m end) m l) ip e ↔
  in_removed m ip e ∨ ip ∈ l ∧ gone !! ip = Some e.
Proof.
  induction l as [|ip0 l IH]; intros m ip e; cbn; [set_solver|]. rewrite IH, elem_of_cons.
  destruct (gone !! ip0) as [e0|] eqn:E; [rewrite append_in|]; naive_solver.
Qed.

Lemma entries_registered c n ip e : entries_of c n !! ip = Some e → ∃ es, forward c !! n = Some es ∧ es !! ip = Some e.
Proof. unfold entries_of. destruct (forward c !! n) as [es|]; cbn; [by eauto|by rewrite lookup_empty]. Qed.

Lemma removes_other P c c' n : removes P c c' → (∀ ip e, ¬ P n ip e) → entries_of c' n = entries_of c n.
Proof.
  intros R H. apply map_eq. intros ip. apply option_eq. intros e. rewrite (rm_at _ _ _ R). specialize (H ip e). tauto.
Qed.

(** The lookups of the names [l] in [P] are removed, and reported. *)
Record purged (P : string → Addr → cacheEntry → Prop) (l : list string) c (aff : gset string) (rem : removals) c' (aff' : gset string) (rem' : removals) : Prop := {
  en_removes : removes (λ n ip e, n ∈ l ∧ P n ip e) c c';
  en_removed ip e : in_removed rem' ip e ↔ in_removed rem ip e ∨
    ∃ n, n ∈ l ∧ entries_of c n !! ip = Some e ∧ P n ip e;
  en_affected n ip e : n ∈ l → entries_of c n !! ip = Some e → P n ip e → n ∈ aff';
  en_aff n : n ∈ aff → n ∈ aff';
}.

Lemma cleanup_name_spec n c aff rem : cache_ok c →
  let r := cleanup_name (c, (aff, rem)) n in purged (λ _ _ e, expires_by (lastCleanup c) zeroTime e = true) [n] c aff rem r.1 r.2.1 r.2.2.
Proof.
  intros OK. cbn zeta. unfold cleanup_name. destruct (forward c !! n) as [es|] eqn:E.
  - pose proof (removeExpired_spec n (lastCleanup c) zeroTime c OK) as H. destruct (removeExpired n _ _ c) as [c' gone].
    destruct H as [R G]. cbn [fst snd] in *. constructor; [|intros ip e|intros n' ip e Hn _ _; set_solver|set_solver].
    + eapply withdraw_iff; [|exact R]. set_solver.
    + rewrite collect_in, elem_of_range, elem_of_dom, G. split.
      * intros [?|[_ ?]]; [by left|]. right. exists n. set_solver.
      * intros [?|(n' & ->%list_elem_of_singleton & ?)]; [by left|right; split; [|done]]. exists e. by apply G.
  - assert (HE : ∀ ip, entries_of c n !! ip = None) by (intros ip; unfold entries_of; rewrite E; apply lookup_empty).
    cbn [fst snd]. constructor; [|intros ip e|intros n' ip e ->%list_elem_of_singleton; by rewrite HE|done].
    + apply withdraw_none. intros n' ip e H [->%list_elem_of_singleton _]. by rewrite HE in H.
    + split; [by left|]. intros [?|(n' & ->%list_elem_of_singleton & H & _)]; [done|]. by rewrite HE in H.
Qed.

Lemma purged_trans P l l' c aff rem c' aff' rem' c'' aff'' rem'' : purged P l c aff rem c' aff' rem' →
  purged P l' c' aff' rem' c'' aff'' rem'' → purged P (l ++ l') c aff rem c'' aff'' rem''.
Proof.
  intros X X'. pose proof (en_removes _ _ _ _ _ _ _ _ X) as R. constructor.
  - eapply withdraw_iff; [|eapply withdraw_trans; [exact R|apply X']]. intros n ip e _. cbn beta. rewrite elem_of_app. tauto.
  - intros ip e. rewrite (en_removed _ _ _ _ _ _ _ _ X'), (en_removed _ _ _ _ _ _ _ _ X). split.
    + intros [[?|(n & ? & ? & ?)]|(n & ? & [? _]%(rm_at _ _ _ R) & ?)]; [by left|right; exists n; set_solver|right; exists n; set_solver].
    + intros [?|(n & [Hn|Hn]%elem_of_app & ? & ?)]; [by left; left|left; right; by exists n|].
      destruct (decide (n ∈ l)) as [Hl|Hl]; [left; right; by exists n|]. right. exists n. split; [done|]. split; [|done].
      apply (rm_at _ _ _ R). tauto.
  - intros n ip e Hn H HP. destruct (decide (n ∈ l)) as [Hl|Hl]; [eapply en_aff; [exact X'|]; by eapply (en_affected _ _ _ _ _ _ _ _ X)|].
    apply elem_of_app in Hn as [?|Hn]; [done|]. eapply (en_affected _ _ _ _ _ _ _ _ X'); [done| |done]. apply (rm_at _ _ _ R). split; [done|tauto].
  - intros n Hn. by eapply en_aff, en_aff, Hn; [exact X'|exact X].
Qed.

Lemma cleanup_names_spec l : ∀ c aff rem, cache_ok c →
  let r := foldl cleanup_name (c, (aff, rem)) l in purged (λ _ _ e, expires_by (lastCleanup c) zeroTime e = true) l c aff rem r.1 r.2.1 r.2.2.
Proof.
  induction l as [|n l IH]; intros c aff rem OK; cbn zeta.
  { constructor; [apply withdraw_none; set_solver|intros ip e; set_solver|set_solver|done]. }
  cbn [foldl]. pose proof (cleanup_name_spec n c aff rem OK) as X. destruct (cleanup_name (c, (aff, rem)) n) as [c1 [aff1 rem1]].
  cbn [fst snd] in X. pose proof (en_removes _ _ _ _ _ _ _ _ X) as R. rewrite <- (rm_last _ _ _ R).
  eapply (purged_trans _ [n] l); [|apply IH; by apply R]. by rewrite (rm_last _ _ _ R).
Qed.

(** The whole of [cleanupExpiredEntries] on a tracked cache: it ends; all that expired is gone. *)
Record expiry (now : Time) c c' (aff : gset string) (rem : removals) : Prop := {
  ex_last : lastCleanup c' = if decide (lastCleanup c = 0) then 0 else swept now (lastCleanup c);
  ex_at n ip e : entries_of c' n !! ip = Some e ↔ entries_of c n !! ip = Some e ∧ swept now (lastCleanup c) ≤ ExpirationTime e;
  ex_ok : cache_ok c';
  ex_tracked : tracked c';
  ex_limit_ok : limit_ok c → limit_ok c';
  ex_over : overLimit c' = overLimit c;
  ex_limit : perHostLimit c' = perHostLimit c;
  ex_min : minTTL c' = minTTL c;
  ex_updated : updated c' = updated c;
  ex_removed ip e : in_removed rem ip e ↔ ∃ n, entries_of c n !! ip = Some e ∧ ExpirationTime e < swept now (lastCleanup c);
  ex_affected n ip e : entries_of c n !! ip = Some e → ExpirationTime e < swept now (lastCleanup c) → n ∈ aff;
}.

Lemma cleanup_terminates now c : is_Some (cleanupExpiredEntries now c).
Proof.
  unfold cleanupExpiredEntries. destruct (time_IsZero _); [by eexists|].
  destruct (loop_ends (cleanup_fuel now (lastCleanup c)) now (lastCleanup c) (cleanup c) ∅) as (cl & names & -> & _);
    [unfold cleanup_fuel; lia|unfold cleanup_fuel; lia|]. by eexists.
Qed.

(** The names found by the cleanup include those of all expired lookups. *)
Lemma filed_found now c m : tracked c → cleanup c = Some m → ∀ n ip e, entries_of c n !! ip = Some e →
  ExpirationTime e < swept now (lastCleanup c) →
  ∃ k, time_Unix (lastCleanup c) ≤ k < time_Unix (swept now (lastCleanup c)) ∧ n ∈ default [] (m !! k).
Proof.
  intros T Em n ip e H Hx. pose proof (tr_last c T n ip e H) as HL.
  assert (Hn : lastCleanup c < now).
  { unfold swept in Hx. destruct (Z.ltb_spec (lastCleanup c) now); [done|lia]. }
  exists (time_Unix (ExpirationTime e)). split; [|by eapply T]. split; [apply Unix_mono; lia|by apply (swept_second now)].
Qed.

Lemma cleanup_expiry now c : cache_ok c → tracked c →
  ∃ c' aff rem, cleanupExpiredEntries now c = Some (c', (aff, rem)) ∧ expiry now c c' aff rem.
Proof.
  intros OK T. destruct (tr_on c T) as [m Em]. unfold cleanupExpiredEntries, time_IsZero. destruct (Z.eqb_spec (lastCleanup c) 0) as [Z0|Z0].
  { exists c, ∅, ∅. split; [done|]. assert (HE : ∀ n ip e, entries_of c n !! ip ≠ Some e).
    { intros n ip e H. pose proof (tr_last c T n ip e H). lia. }
    constructor; try done.
    - by rewrite decide_True.
    - intros n ip e. specialize (HE n ip e). tauto.
    - intros ip e. unfold in_removed. rewrite lookup_empty. cbn. rewrite elem_of_nil. naive_solver.
    - intros n ip e H. by destruct (HE n ip e). }
  destruct (loop_ends (cleanup_fuel now (lastCleanup c)) now (lastCleanup c) (cleanup c) ∅) as (cl & names & -> & HI & HD & HN);
    [unfold cleanup_fuel; lia|unfold cleanup_fuel; lia|]. cbn [mbind option_bind].
  rewrite Em in HD, HN, HI. cbn in HD, HN. set (last := swept now (lastCleanup c)) in *. set (c0 := set_cleanup last cl c).
  pose proof (cleanup_names_spec (range names) c0 ∅ ∅) as X. cbv zeta in X.
  destruct (foldl cleanup_name (c0, (∅, ∅)) (range names)) as [c' [aff rem]]. cbn [fst snd] in X.
  specialize (X ltac:(by apply (entries_same c))). pose proof (en_removes _ _ _ _ _ _ _ _ X) as R. cbn [c0 lastCleanup set_cleanup] in X, R.
  assert (HF : ∀ n ip e, entries_of c n !! ip = Some e → (n ∈ range names ∧ expires_by last zeroTime e = true ↔ ExpirationTime e < last)).
  { intros n ip e H. rewrite expires_plain, elem_of_range, HN. pose proof (tr_lookup c T n ip e H).
    split; [lia|]. intros Hx. split; [|lia]. right. by apply (filed_found now c m T Em n ip e). }
  assert (HA : ∀ n ip e, entries_of c' n !! ip = Some e ↔ entries_of c n !! ip = Some e ∧ last ≤ ExpirationTime e).
  { intros n ip e. rewrite (rm_at _ _ _ R). change (entries_of c0 n) with (entries_of c n). specialize (HF n ip e).
    split; intros [H ?]; specialize (HF H); (split; [done|]); [apply Z.nlt_ge|apply Z.nlt_ge in H0]; tauto. }
  exists c', aff, rem. split; [done|]. constructor.
  - rewrite (rm_last _ _ _ R), decide_False by done. done.
  - done.
  - by apply R, (entries_same c).
  - pose proof (swept_le now (lastCleanup c)) as [SL _]. fold last in SL. constructor.
    + rewrite (rm_cleanup _ _ _ R). apply HI. by eexists.
    + rewrite (rm_last _ _ _ R). cbn. pose proof (tr_pos c T). lia.
    + intros n ip e m'. rewrite (rm_cleanup _ _ _ R). cbn. intros -> [H Hx]%HA. cbn in HD. rewrite HD, decide_False; [by eapply T|].
      pose proof (Unix_mono _ _ Hx). lia.
    + intros n ip e [H Hx]%HA. rewrite (rm_last _ _ _ R). cbn. pose proof (tr_last c T n ip e H). lia.
    + intros n ip e [H Hx]%HA. by eapply T.
  - intros L. apply (removes_limit _ _ _ R). done.
  - apply R.
  - apply R.
  - apply R.
  - apply R.
  - intros ip e. rewrite (en_removed _ _ _ _ _ _ _ _ X). unfold in_removed at 1. rewrite lookup_empty. cbn. rewrite elem_of_nil. split.
    + intros [[]|(n & Hn & H & Hx)]. exists n. split; [done|]. by apply (HF n ip e).
    + intros (n & H & Hx). right. exists n. apply (HF n ip e H) in Hx. tauto.
  - intros n ip e H Hx. apply (HF n ip e H) in Hx as [Hn ?]. by apply (en_affected _ _ _ _ _ _ _ _ X n ip e).
Qed.

(** ** Names over the limit *)

Definition over_count c n : nat := Z.to_nat (Z.of_nat (size (entries_of c n)) - perHostLimit c).
Definition by_expiration c n : list (Addr * cacheEntry) := sort_by expires_before (range_pairs (entries_of c n)).

(** The lookups of a name that have to go: those that expire first. *)
Definition surplus c n : list (Addr * cacheEntry) := take (over_count c n) (by_expiration c n).

Lemma elem_range_pairs (m : ipEntries) ip e : (ip, e) ∈ range_pairs m ↔ m !! ip = Some e.
Proof.
  unfold range_pairs. rewrite list_elem_of_omap. split.
  - intros (ip' & _ & H). apply fmap_Some in H as (e' & E & [= -> ->]). done.
  - intros E. exists ip. split; [by apply elem_of_range, elem_of_dom|]. by rewrite E.
Qed.

Lemma range_pairs_length (m : ipEntries) : length (range_pairs m) = size m.
Proof.
  unfold range_pairs. rewrite <- (size_dom (M := gmap Addr)). unfold size, set_size. cbn.
  rewrite <- (range_perm (dom m)). assert (H : ∀ ip, ip ∈ range (dom m) → is_Some (m !! ip)) by (intros ip; by rewrite elem_of_range, elem_of_dom).
  induction (range (dom m)) as [|ip l IH]; [done|]. cbn. destruct (H ip ltac:(left)) as [e ->]. cbn.
  f_equal. apply IH. intros ip' Hl. apply H. by right.
Qed.

Lemma elem_by_expiration c n ip e : (ip, e) ∈ by_expiration c n ↔ entries_of c n !! ip = Some e.
Proof. unfold by_expiration. by rewrite sort_by_perm, elem_range_pairs. Qed.

Lemma by_expiration_length c n : length (by_expiration c n) = size (entries_of c n).
Proof. unfold by_expiration. by rewrite sort_by_perm, range_pairs_length. Qed.

Lemma surplus_in c n ip e : (ip, e) ∈ surplus c n → entries_of c n !! ip = Some e.
Proof. intros H. apply elem_by_expiration. rewrite <- (take_drop (over_count c n)). apply elem_of_app. by left. Qed.

#[local] Instance expires_total : Total expires_before.
Proof. intros x y. unfold expires_before. lia. Qed.
#[local] Instance expires_trans : Transitive expires_before.
Proof. intros x y z. unfold expires_before. lia. Qed.

(** What stays expires no earlier than what goes. *)
Lemma surplus_first c n ip e ip' e' : (ip, e) ∈ surplus c n → entries_of c n !! ip' = Some e' → (ip', e') ∉ surplus c n →
  ExpirationTime e ≤ ExpirationTime e'.
Proof.
  intros H H' Hn. apply elem_by_expiration in H'. rewrite <- (take_drop (over_count c n)) in H'.
  apply elem_of_app in H' as [?|Hd]; [done|]. pose proof (sort_by_sorted expires_before (range_pairs (entries_of c n))) as HS.
  fold (by_expiration c n) in HS. rewrite <- (take_drop (over_count c n)) in HS.
  apply StronglySorted_app in HS as [HS _]. exact (HS _ _ H Hd).
Qed.

Lemma evict_fold n l : ∀ c rem, (∀ ip e, (ip, e) ∈ l → e_Name e = n) → let r := foldl (evict_ip n) (c, rem) l in
  removes (λ n' ip _, n' = n ∧ ip ∈ l.*1) c r.1 ∧ (∀ ip e, in_removed r.2 ip e ↔ in_removed rem ip e ∨ (ip, e) ∈ l).
Proof.
  induction l as [|[ip0 e0] l IH]; intros c rem HN; cbn zeta; [split; [apply withdraw_none; set_solver|set_solver]|].
  cbn [foldl evict_ip fst snd]. destruct (IH (cache_remove ip0 e0 (delete_ip n ip0 c)) (append_removed rem ip0 e0)) as [R G].
  { intros ip e H. apply (HN ip e). by right. }
  split.
  - eapply withdraw_iff; [|eapply withdraw_trans; [apply (take_out n ip0 e0); apply (HN ip0); by left|exact R]].
    intros n' ip e _. cbn [fmap list_fmap fst]. rewrite elem_of_cons. naive_solver.
  - intros ip e. unfold evict_ip at 2. cbn [fst snd]. rewrite G, append_in, elem_of_cons. naive_solver.
Qed.

Lemma cleanup_over_spec n c aff rem : cache_ok c → let r := cleanup_over (c, (aff, rem)) n in
  purged (λ n ip e, (ip, e) ∈ surplus c n) [n] c aff rem r.1 r.2.1 r.2.2.
Proof.
  intros OK. cbn zeta. assert (HNO : surplus c n = [] → purged (λ n ip e, (ip, e) ∈ surplus c n) [n] c aff rem c aff rem).
  { intros HS. constructor; [|intros ip e|intros n' ip e ->%list_elem_of_singleton; rewrite HS; set_solver|done].
    - apply withdraw_none. intros n' ip e _ [->%list_elem_of_singleton H]. rewrite HS in H. by apply elem_of_nil in H.
    - split; [by left|]. intros [?|(n' & ->%list_elem_of_singleton & _ & H)]; [done|]. rewrite HS in H. by apply elem_of_nil in H. }
  unfold cleanup_over. destruct (forward c !! n) as [es|] eqn:E.
  2:{ apply HNO. unfold surplus. apply nil_length_inv. rewrite length_take, by_expiration_length. unfold entries_of. rewrite E. cbn.
      rewrite map_size_empty. lia. }
  assert (HE : entries_of c n = es) by (unfold entries_of; by rewrite E). rewrite <- HE. cbn zeta.
  destruct (Z.leb_spec (Z.of_nat (size (entries_of c n)) - perHostLimit c) 0) as [Hl|Hl].
  { apply HNO. unfold surplus, over_count. by rewrite (Z2Nat.nonpos _ Hl). }
  fold (by_expiration c n). fold (over_count c n). fold (surplus c n).
  destruct (evict_fold n (surplus c n) c rem) as [R G].
  { intros ip e H%surplus_in. by apply OK in H as [? _]. }
  destruct (foldl (evict_ip n) (c, rem) (surplus c n)) as [c' rem']. cbn [fst snd] in *.
  constructor; [|intros ip e|intros n' ip e ->%list_elem_of_singleton; set_solver|set_solver].
  - eapply withdraw_iff; [|exact R]. intros n' ip e H. cbn beta. rewrite list_elem_of_singleton. split; [|intros [-> Hs]; split; [done|]].
    + intros [-> ([ip' e'] & -> & Hs)%list_elem_of_fmap]. split; [done|]. cbn in H.
      pose proof (surplus_in _ _ _ _ Hs). by simplify_eq.
    + apply list_elem_of_fmap. by exists (ip, e).
  - rewrite G. split; [intros [?|Hs]; [by left|]|intros [?|(n' & ->%list_elem_of_singleton & _ & ?)]; [by left|by right]].
    right. exists n. split; [by left|]. split; [by apply surplus_in|done].
Qed.

Lemma purged_iff P Q l c aff rem c' aff' rem' : (∀ n ip e, n ∈ l → P n ip e ↔ Q n ip e) → purged P l c aff rem c' aff' rem' →
  purged Q l c aff rem c' aff' rem'.
Proof.
  intros HPQ X. constructor.
  - eapply withdraw_iff; [|apply X]. intros n ip e _. cbn beta. specialize (HPQ n ip e). tauto.
  - intros ip e. rewrite (en_removed _ _ _ _ _ _ _ _ X). split; (intros [?|(n & Hn & ? & ?)]; [by left|]); right; exists n;
      specialize (HPQ n ip e Hn); tauto.
  - intros n ip e Hn H HQ. apply (en_affected _ _ _ _ _ _ _ _ X n ip e); [done|done|]. by apply HPQ.
  - apply X.
Qed.

Lemma cleanup_overs_spec l : NoDup l → ∀ c aff rem, cache_ok c → let r := foldl cleanup_over (c, (aff, rem)) l in
  purged (λ n ip e, (ip, e) ∈ surplus c n) l c aff rem r.1 r.2.1 r.2.2.
Proof.
  induction 1 as [|n l Hn ND IH]; intros c aff rem OK; cbn zeta.
  { constructor; [apply withdraw_none; set_solver|intros ip e; set_solver|set_solver|done]. }
  cbn [foldl]. pose proof (cleanup_over_spec n c aff rem OK) as X. destruct (cleanup_over (c, (aff, rem)) n) as [c1 [aff1 rem1]].
  cbn [fst snd] in X. pose proof (en_removes _ _ _ _ _ _ _ _ X) as R.
  eapply (purged_trans _ [n] l); [exact X|]. eapply purged_iff; [|apply IH; by apply R].
  intros n' ip e Hl. cbn beta. unfold surplus, over_count, by_expiration. rewrite (rm_limit _ _ _ R), (removes_other _ _ _ n' R); [done|].
  intros ip' e' [->%list_elem_of_singleton _]. done.
Qed.

(** What [cleanupOverLimitEntries] does. *)
Record trimmed c c' (aff : gset string) (rem : removals) : Prop := {
  tm_at n ip e : entries_of c' n !! ip = Some e ↔ entries_of c n !! ip = Some e ∧ ¬ (0 < perHostLimit c ∧ (ip, e) ∈ surplus c n);
  tm_bound n : 0 < perHostLimit c → Z.of_nat (size (entries_of c' n)) ≤ perHostLimit c;
  tm_ok : cache_ok c';
  tm_tracked : tracked c → tracked c';
  tm_limit_ok : limit_ok c';
  tm_last : lastCleanup c' = lastCleanup c;
  tm_limit : perHostLimit c' = perHostLimit c;
  tm_min : minTTL c' = minTTL c;
  tm_updated : updated c' = updated c;
  tm_removed ip e : in_removed rem ip e ↔ ∃ n, 0 < perHostLimit c ∧ (ip, e) ∈ surplus c n;
  tm_affected n ip e : 0 < perHostLimit c → (ip, e) ∈ surplus c n → n ∈ aff;
}.

Lemma surplus_none c n : Z.of_nat (size (entries_of c n)) ≤ perHostLimit c → surplus c n = [].
Proof. intros H. unfold surplus, over_count. by rewrite Z2Nat.nonpos by lia. Qed.

Lemma trimmed_size c c' n : 0 ≤ perHostLimit c →
  (∀ ip e, entries_of c' n !! ip = Some e → entries_of c n !! ip = Some e ∧ (ip, e) ∉ surplus c n) →
  Z.of_nat (size (entries_of c' n)) ≤ perHostLimit c.
Proof.
  intros H0 H. set (rest := drop (over_count c n) (by_expiration c n)).
  assert (HL : (size (dom (entries_of c' n)) ≤ length rest)%nat).
  { rewrite <- (length_fmap fst rest). apply submseteq_length, NoDup_submseteq; [apply NoDup_elements|].
    intros ip [e He]%elem_of_elements%elem_of_dom. apply list_elem_of_fmap. exists (ip, e). split; [done|].
    apply H in He as [He Hn]. apply elem_by_expiration in He. rewrite <- (take_drop (over_count c n)) in He.
    by apply elem_of_app in He as [?|?]. }
  rewrite size_dom in HL. unfold rest in HL. rewrite length_drop, by_expiration_length in HL. unfold over_count in HL. lia.
Qed.

Lemma cleanup_trimmed c : cache_ok c → limit_ok c → 0 ≤ perHostLimit c →
  let r := cleanupOverLimitEntries c in trimmed c r.1 r.2.1 r.2.2.
Proof.
  intros OK L H0. unfold cleanupOverLimitEntries. destruct (Z.eqb_spec (perHostLimit c) 0) as [Hz|Hz]; cbn zeta.
  { constructor; try done; try (intros; lia).
    - intros n ip e. split; [intros H; split; [done|lia]|tauto].
    - intros ip e. unfold in_removed. cbn. rewrite lookup_empty. cbn. rewrite elem_of_nil. split; [done|]. intros (? & ? & _). lia. }
  pose proof (cleanup_overs_spec (range (overLimit c)) (NoDup_range _) c ∅ ∅ OK) as X. cbv zeta in X.
  destruct (foldl cleanup_over (c, (∅, ∅)) (range (overLimit c))) as [c' [aff rem]]. cbn [fst snd] in *.
  pose proof (en_removes _ _ _ _ _ _ _ _ X) as R.
  assert (HO : ∀ n ip e, (ip, e) ∈ surplus c n → n ∈ range (overLimit c)).
  { intros n ip e H. apply elem_of_range. apply L; [lia|]. destruct (decide (Z.of_nat (size (entries_of c n)) ≤ perHostLimit c)) as [Hl|]; [|lia].
    rewrite (surplus_none _ _ Hl) in H. by apply elem_of_nil in H. }
  assert (HA : ∀ n ip e, entries_of c' n !! ip = Some e ↔ entries_of c n !! ip = Some e ∧ (ip, e) ∉ surplus c n).
  { intros n ip e. rewrite (rm_at _ _ _ R). specialize (HO n ip e). tauto. }
  assert (HB : ∀ n, Z.of_nat (size (entries_of c' n)) ≤ perHostLimit c).
  { intros n. apply trimmed_size; [done|]. intros ip e. apply HA. }
  assert (HE : ∀ n, entries_of (set_overLimit ∅ c') n = entries_of c' n) by done. constructor.
  - intros n ip e. rewrite HE, HA. assert (0 < perHostLimit c) by lia. tauto.
  - intros n _. apply HB.
  - apply (entries_same c'); [done|done|]. by apply R.
  - intros T. apply (tracked_same c'); [done|done|done|]. by apply (removes_tracked _ _ _ R).
  - intros _ n. rewrite HE. specialize (HB n). cbn. rewrite (rm_limit _ _ _ R). lia.
  - apply R.
  - apply R.
  - apply R.
  - apply R.
  - intros ip e. rewrite (en_removed _ _ _ _ _ _ _ _ X). unfold in_removed at 1. rewrite lookup_empty. cbn. rewrite elem_of_nil. split.
    + intros [[]|(n & _ & _ & H)]. exists n. split; [lia|done].
    + intros (n & _ & H). right. exists n. split; [by eapply HO|]. split; [by apply surplus_in|done].
  - intros n ip e _ H. apply (en_affected _ _ _ _ _ _ _ _ X n ip e); [by eapply HO|by apply surplus_in|done].
Qed.

(** ** The zombies *)

(** The name has a zombie at the address that is to be deleted no earlier than [t]. *)
Definition buried (t : Time) (zs : DNSZombieMappings) ip n : Prop :=
  ∃ z, deletes zs !! ip = Some z ∧ n ∈ Names z ∧ t ≤ DeletePendingAt z.

(** The name has a zombie at the address. *)
Definition haunts (zs : DNSZombieMappings) ip n : Prop := ∃ z, deletes zs !! ip = Some z ∧ n ∈ Names z.

Lemma bury_entry_spec now ip0 zs e : let zs' := bury_entry now ip0 zs e in
  (∀ ip n, haunts zs' ip n ↔ haunts zs ip n ∨ ip = ip0 ∧ n = e_Name e) ∧
  (∀ t ip n, buried t zs ip n → buried t zs' ip n) ∧ buried (Z.max now (ExpirationTime e)) zs' ip0 (e_Name e).
Proof.
  cbn zeta. unfold bury_entry. set (t := if time_After (ExpirationTime e) now then _ else _).
  assert (Ht : Z.max now (ExpirationTime e) ≤ t) by (unfold t, time_After; destruct (Z.ltb_spec now (ExpirationTime e)); lia).
  assert (HP : ∀ p, p ≤ (if time_After t p then t else p) ∧ t ≤ (if time_After t p then t else p)).
  { intros p. unfold time_After. destruct (Z.ltb_spec p t); lia. }
  unfold haunts, buried. split; [|split].
  - intros ip n. rewrite Upsert_deletes. destruct (decide (ip0 = ip)) as [<-|Hn]; [|naive_solver].
    assert (HX : ∀ (z : DNSZombieMapping) (P : DNSZombieMapping → Prop), (∃ z', Some z = Some z' ∧ P z') ↔ P z) by (intros z P; split; [by intros (? & [= <-] & ?)|by eauto]).
    rewrite (HX _ (λ z, n ∈ Names z)). destruct (deletes zs !! ip0) as [z|]; [rewrite (HX _ (λ z, n ∈ Names z))|]; cbn; set_solver.
  - intros t' ip n (z & Hz & Hn & Hp). rewrite Upsert_deletes. destruct (decide (ip0 = ip)) as [<-|]; [|by exists z].
    rewrite Hz. eexists. split; [done|]. split; [cbn; set_solver|]. etrans; [exact Hp|]. apply HP.
  - rewrite Upsert_deletes, decide_True by done. eexists. split; [done|]. destruct (deletes zs !! ip0) as [z|].
    + split; [cbn; set_solver|]. etrans; [exact Ht|]. apply HP.
    + split; [cbn; set_solver|done].
Qed.

Lemma bury_list_spec now ip0 l : ∀ zs, let zs' := foldl (bury_entry now ip0) zs l in
  (∀ ip n, haunts zs' ip n ↔ haunts zs ip n ∨ ip = ip0 ∧ ∃ e, e ∈ l ∧ n = e_Name e) ∧
  (∀ t ip n, buried t zs ip n → buried t zs' ip n) ∧ (∀ e, e ∈ l → buried (Z.max now (ExpirationTime e)) zs' ip0 (e_Name e)).
Proof.
  induction l as [|e l IH]; intros zs; cbn zeta; [cbn; set_solver|]. cbn [foldl].
  destruct (bury_entry_spec now ip0 zs e) as (H1 & H2 & H3). destruct (IH (bury_entry now ip0 zs e)) as (I1 & I2 & I3). split; [|split].
  - intros ip n. rewrite I1, H1. setoid_rewrite elem_of_cons. naive_solver.
  - intros t ip n H. by apply I2, H2.
  - intros e' [->|H]%elem_of_cons; [by apply I2|by apply I3].
Qed.

Lemma bury_spec now (m : removals) zs : let zs' := bury now m zs in
  (∀ ip n, haunts zs' ip n ↔ haunts zs ip n ∨ ∃ e, in_removed m ip e ∧ n = e_Name e) ∧
  (∀ t ip n, buried t zs ip n → buried t zs' ip n) ∧ (∀ ip e, in_removed m ip e → buried (Z.max now (ExpirationTime e)) zs' ip (e_Name e)).
Proof.
  unfold bury. assert (HD : ∀ ip e, in_removed m ip e → ip ∈ range (dom m)).
  { intros ip e H. apply elem_of_range, elem_of_dom. unfold in_removed in H. destruct (m !! ip); [by eexists|by apply elem_of_nil in H]. }
  cut (∀ l zs, let zs' := foldl (λ zs ip, foldl (bury_entry now ip) zs (default [] (m !! ip))) zs l in
    (∀ ip n, haunts zs' ip n ↔ haunts zs ip n ∨ ip ∈ l ∧ ∃ e, in_removed m ip e ∧ n = e_Name e) ∧
    (∀ t ip n, buried t zs ip n → buried t zs' ip n) ∧
    (∀ ip e, ip ∈ l → in_removed m ip e → buried (Z.max now (ExpirationTime e)) zs' ip (e_Name e))).
  { intros HG. destruct (HG (range (dom m)) zs) as (H1 & H2 & H3). split; [|split; [done|]].
    - intros ip n. rewrite H1. naive_solver.
    - intros ip e H. apply H3; [by eapply HD|done]. }
  clear zs HD. induction l as [|ip0 l IH]; intros zs; cbn zeta; [cbn; set_solver|]. cbn [foldl].
  destruct (bury_list_spec now ip0 (default [] (m !! ip0)) zs) as (H1 & H2 & H3).
  destruct (IH (foldl (bury_entry now ip0) zs (default [] (m !! ip0)))) as (I1 & I2 & I3). clear IH. split; [|split].
  - intros ip n. rewrite I1, H1, elem_of_cons. unfold in_removed. naive_solver.
  - intros t ip n H. by apply I2, H2.
  - intros ip e [->|Hl]%elem_of_cons H; [by apply I2, H3|by apply I3].
Qed.
End gc.
