(* ===== verification/DnsCacheRefine.v ===== *)
(** * The DNS cache as a table of lookups

    A [DNSCache] of [src/pkg/fqdn/cache.go] behaves as a table from pairs of a name and an address to
    lookups: insertions keep the lookup that expires last, the garbage collection removes what expired
    and the surplus of a name, forced expiry removes what matches, and both kinds of queries are
    answered from the table. *)

From stdpp Require Import sorting.
From S2P Require Import Prelude Text Netip GoLib DnsZombies DnsZombiesGC DnsCache DnsCacheInv DnsCacheGC.

Local Open Scope Z_scope.

Implicit Types (c : DNSCache) (e : cacheEntry) (n : string) (ip : Addr).

(** ** Insertions *)

(** One of the lookups in [S] that expire last, if there is any. *)
Definition latest (S : cacheEntry → Prop) (o : option cacheEntry) : Prop :=
  match o with
  | Some e => S e ∧ ∀ e', S e' → ExpirationTime e' ≤ ExpirationTime e
  | None => ∀ e, ¬ S e
  end.

#[export] Instance latest_proper : Proper (pointwise_relation _ iff ==> eq ==> iff) latest.
Proof. intros S S' H o _ <-. unfold pointwise_relation in H. destruct o; cbn; setoid_rewrite H; done. Qed.

Lemma latest_trans (S S' : cacheEntry → Prop) o o' : latest S o → latest (λ e, o = Some e ∨ S' e) o' → latest (λ e, S e ∨ S' e) o'.
Proof.
  intros H H'. destruct o as [e1|], o' as [e2|]; cbn in *.
  - destruct H as [H1 H2], H' as [H1' H2']. split; [destruct H1' as [[= <-]|?]; tauto|]. intros e' [He|He]; [|apply H2'; by right].
    specialize (H2 e' He). specialize (H2' e1 ltac:(by left)). lia.
  - destruct (H' e1). by left.
  - destruct H' as [[?|?] H2']; [done|]. split; [by right|]. intros e' [He|He]; [by destruct (H e')|apply H2'; by right].
  - intros e' [He|He]; [by destruct (H e')|destruct (H' e'); by right].
Qed.

Lemma newer_latest o e : latest (λ x, o = Some x ∨ x = e) (Some (newer o e)).
Proof.
  unfold newer, isExpiredBy, time_After. destruct o as [o|]; cbn; [|split; [by right|]; by intros ? [? | ->]].
  destruct (Z.ltb_spec (ExpirationTime o) (ExpirationTime e)); (split; [naive_solver|]); intros e' [[= <-] | ->]; lia.
Qed.

Definition insert_all (l : list cacheEntry) c : DNSCache := foldl (λ c e, (updateWithEntry e c).1) c l.

(** The lookups offered for a pair. *)
Definition offers (l : list cacheEntry) n ip e : Prop := e ∈ l ∧ e_Name e = n ∧ ip ∈ e_IPs e.

Record inserts (l : list cacheEntry) c c' : Prop := {
  is_at n ip : latest (λ e, entries_of c n !! ip = Some e ∨ offers l n ip e) (entries_of c' n !! ip);
  is_ok : cache_ok c → cache_ok c';
  is_tracked : tracked c → (∀ e, e ∈ l → timely e) → tracked c';
  is_limit_ok : limit_ok c → limit_ok c';
  is_limit : perHostLimit c' = perHostLimit c;
  is_min : minTTL c' = minTTL c;
  is_updated : updated c' = updated c;
}.

Lemma insert_one e c : inserts [e] c (updateWithEntry e c).1.
Proof.
  destruct (updateWithEntry_spec e c) as [HA HK HT HL HP HM HU]. constructor; try done.
  - intros n ip. rewrite HA. unfold offers. case_decide as Hd.
    + destruct Hd as [-> Hip]. eapply latest_proper; [|done|apply newer_latest]. intros x. rewrite list_elem_of_singleton. naive_solver.
    + destruct (entries_of c n !! ip) as [o|] eqn:E; cbn.
      * split; [by left|]. intros e' [[= <-]|(->%list_elem_of_singleton & ? & ?)]; [done|naive_solver].
      * intros e' [?|(->%list_elem_of_singleton & ? & ?)]; [done|naive_solver].
  - intros T H. apply HT; [done|]. apply H. by left.
Qed.

Lemma inserts_trans l l' c c' c'' : inserts l c c' → inserts l' c' c'' → inserts (l ++ l') c c''.
Proof.
  intros I I'. constructor.
  - intros n ip. eapply latest_proper; [|done|exact (latest_trans _ _ _ _ (is_at _ _ _ I n ip) (is_at _ _ _ I' n ip))].
    intros e. unfold offers. rewrite elem_of_app. tauto.
  - intros OK. by apply I', I.
  - intros T Ht. apply I'; [apply I; [done|]|]; intros e He; apply Ht, elem_of_app; by auto.
  - intros L. by apply I', I.
  - etrans; [apply I'|apply I].
  - etrans; [apply I'|apply I].
  - etrans; [apply I'|apply I].
Qed.

Lemma insert_all_spec l : ∀ c, inserts l c (insert_all l c).
Proof.
  unfold insert_all. induction l as [|e l IH]; intros c; cbn [foldl].
  - constructor; try done. intros n ip. unfold offers. destruct (entries_of c n !! ip) as [o|]; cbn.
    + split; [by left|]. intros e' [[= <-]|[[]%elem_of_nil _]]; done.
    + intros e' [?|[[]%elem_of_nil _]]; done.
  - apply (inserts_trans [e] l _ _ _ (insert_one e c)), IH.
Qed.

Section refine.
Context {GR : GoRange} {GS : GoSort}.

(** All lookups of a cache. *)
Definition lookups_of c : list cacheEntry := range_values (forward c) ≫= range_values.

Lemma elem_lookups c e : e ∈ lookups_of c ↔ ∃ n ip, entries_of c n !! ip = Some e.
Proof.
  unfold lookups_of. rewrite list_elem_of_bind. setoid_rewrite elem_of_range_values. split.
  - intros (es & [ip E] & [n E']). exists n, ip. unfold entries_of. by rewrite E'.
  - intros (n & ip & (es & E & E')%entries_registered). exists es. by eauto.
Qed.

Lemma UpdateFromCache_insert u c : UpdateFromCache (Some u) c = insert_all (lookups_of u) c.
Proof.
  unfold UpdateFromCache, insert_all, lookups_of. revert c. generalize (range_values (forward u)).
  induction l as [|es l IH]; intros c; [done|]. cbn. by rewrite IH, foldl_app.
Qed.

(** ** Forced expiry *)

Lemma force_fold before m l : ∀ c aff, cache_ok c → let r := foldl (force_name before m) (c, aff) l in
  let P n e := n ∈ l ∧ matched m n = true ∧ expires_by before before e = true in
  removes (λ n _ e, P n e) c r.1 ∧ (∀ n, n ∈ r.2 ↔ n ∈ aff ∨ ∃ ip e, entries_of c n !! ip = Some e ∧ P n e).
Proof.
  induction l as [|n0 l IH]; intros c aff OK; cbn zeta; [split; [apply withdraw_none|]; cbn; set_solver|]. cbn [foldl].
  unfold force_name at 2 4. destruct (matched m n0) eqn:ES.
  2:{ destruct (IH c aff OK) as [R G]. assert (HP : ∀ n, (n ∈ l ∧ matched m n = true) ↔ (n ∈ n0 :: l ∧ matched m n = true)).
      { intros n. rewrite elem_of_cons. split; [tauto|]. intros [[->|?] ?]; [congruence|done]. }
      split; [eapply withdraw_iff; [|exact R]; intros n ip e _; specialize (HP n); tauto|]. intros n. rewrite G. specialize (HP n).
      split; (intros [?|(ip & e & ? & ?)]; [by left|right; exists ip, e; tauto]). }
  cbn [fst snd]. destruct (removeExpired_spec n0 before before c OK) as [R0 G0]. destruct (removeExpired n0 before before c) as [c1 gone].
  cbn [fst snd] in *. destruct (IH c1 (list_to_set (e_Name <$> range_values gone) ∪ aff)) as [R G]; [by apply R0|]. split.
  - eapply withdraw_iff; [|eapply withdraw_trans; [exact R0|exact R]]. intros n ip e _. cbn beta. rewrite elem_of_cons. clear -ES. naive_solver.
  - intros n. rewrite G, elem_of_union, elem_of_list_to_set, list_elem_of_fmap. setoid_rewrite elem_of_range_values.
    assert (HG : (∃ e, n = e_Name e ∧ ∃ ip, gone !! ip = Some e) ↔ n = n0 ∧ ∃ ip e, entries_of c n0 !! ip = Some e ∧ expires_by before before e = true).
    { split; [intros (e & -> & ip & [E X]%G0); pose proof (proj1 (ok_entry c OK _ _ _ E)); by eauto|].
      intros (-> & ip & e & E & X). exists e. split; [symmetry; by apply (ok_entry c OK) in E as [? _]|]. exists ip. by apply G0. }
    rewrite HG. setoid_rewrite (rm_at _ _ _ R0). setoid_rewrite elem_of_cons. clear -ES.
    destruct (decide (n = n0)) as [->|]; naive_solver.
Qed.

Lemma ForceExpire_spec before m c : cache_ok c → let r := cache_ForceExpire before m c in
  let P n e := matched m n = true ∧ expires_by before before e = true in
  removes (λ n _ e, P n e) c r.1 ∧ (∀ n, n ∈ r.2 ↔ ∃ ip e, entries_of c n !! ip = Some e ∧ P n e).
Proof.
  intros OK. unfold cache_ForceExpire. destruct (force_fold before m (range (dom (forward c))) c ∅ OK) as [R G].
  assert (HD : ∀ n ip e, entries_of c n !! ip = Some e → n ∈ range (dom (forward c))).
  { intros n ip e (es & E & _)%entries_registered. by apply elem_of_range, elem_of_dom. }
  split.
  - eapply withdraw_iff; [|exact R]. intros n ip e H%HD. cbn beta. tauto.
  - intros n. rewrite G. split; [intros [[]%elem_of_empty|(ip & e & H & _ & ?)]; by eauto|].
    intros (ip & e & H & ?). right. exists ip, e. by eauto.
Qed.

Lemma forceByNames_spec before names : ∀ c, cache_ok c →
  removes (λ n _ e, n ∈ names ∧ expires_by before before e = true) c (forceExpireByNames before names c).
Proof.
  unfold forceExpireByNames. induction names as [|n0 l IH]; intros c OK; cbn [foldl]; [apply withdraw_none; set_solver|].
  set (c1 := match forward c !! n0 with None => c | Some _ => _ end).
  assert (R0 : removes (λ n _ e, n = n0 ∧ expires_by before before e = true) c c1).
  { unfold c1. destruct (forward c !! n0) eqn:E; [by apply removeExpired_spec|]. apply withdraw_none.
    intros n ip e H [-> _]. unfold entries_of in H. rewrite E in H. cbn in H. by rewrite lookup_empty in H. }
  eapply withdraw_iff; [|eapply withdraw_trans; [exact R0|apply IH; by apply R0]]. intros n ip e _. cbn beta. rewrite elem_of_cons. tauto.
Qed.

(** ** Garbage collection *)

Definition lost c c' n ip : Prop := is_Some (entries_of c n !! ip) ∧ entries_of c' n !! ip = None.

(** The lookups that do not expire before [t]. *)
Definition unexpired (t : Time) (entries : ipEntries) : ipEntries := filter (λ p, t ≤ ExpirationTime p.2) entries.

(** What a collection may do to the tables of the names: beyond the expired lookups only the surplus
    of a name goes, first what expires first. *)
Definition spec_collect (limit : Z) (now : Time) (A A' : string → ipEntries) : Prop :=
  (∃ t, now ≤ t < now + second ∧
    (∀ n ip e, A' n !! ip = Some e → A n !! ip = Some e ∧ t ≤ ExpirationTime e) ∧
    (∀ n ip e, A n !! ip = Some e → A' n !! ip = None →
      ExpirationTime e < t ∨
      0 < limit < Z.of_nat (size (unexpired t (A n))) ∧ (∀ ip' e', A' n !! ip' = Some e' → ExpirationTime e ≤ ExpirationTime e'))) ∧
  (0 < limit → ∀ n, Z.of_nat (size (A' n)) ≤ limit).

Record collection (now : Time) c c' : Prop := {
  co_spec : spec_collect (perHostLimit c) now (entries_of c) (entries_of c');
  co_ok : cache_ok c';
  co_tracked : tracked c';
  co_limit_ok : limit_ok c';
  co_limit : perHostLimit c' = perHostLimit c;
  co_min : minTTL c' = minTTL c;
}.

(** The time up to which the lookups of a tracked cache are collected. *)
Lemma collect_time now c : tracked c → ∃ t, now ≤ t < now + second ∧
  ∀ n ip e, entries_of c n !! ip = Some e → (ExpirationTime e < t ↔ ExpirationTime e < swept now (lastCleanup c)).
Proof.
  intros T. destruct (decide (lastCleanup c < now)) as [Hl|Hl].
  - exists (swept now (lastCleanup c)). split; [by apply swept_bounds|done].
  - exists now. split; [unfold second; lia|]. intros n ip e H. pose proof (tr_last c T n ip e H).
    unfold swept. rewrite (proj2 (Z.ltb_ge _ _)) by lia. lia.
Qed.

(** The two halves of a collection, the expiry from [c] to [c1] and the trimming from [c1] to [c2]. *)
Section stages.
Context (now : Time) (c c1 c2 : DNSCache) (aff1 aff2 : gset string) (rem1 rem2 : gmap Addr (list cacheEntry)).
Context (OK : cache_ok c) (X : expiry now c c1 aff1 rem1) (Y : trimmed c1 c2 aff2 rem2).

Lemma lost_why n ip : lost c c2 n ip ↔ ∃ e, entries_of c n !! ip = Some e ∧
  (ExpirationTime e < swept now (lastCleanup c) ∨ 0 < perHostLimit c1 ∧ (ip, e) ∈ surplus c1 n).
Proof.
  unfold lost. split.
  - intros [[e E] HN]. exists e. split; [done|]. destruct (decide (ExpirationTime e < swept now (lastCleanup c))) as [|Hx]; [by left|right].
    assert (E1 : entries_of c1 n !! ip = Some e) by (apply (ex_at _ _ _ _ _ X); split; [done|lia]).
    destruct (decide (0 < perHostLimit c1 ∧ (ip, e) ∈ surplus c1 n)) as [|Hn]; [done|].
    assert (E2 : entries_of c2 n !! ip = Some e) by by apply (tm_at _ _ _ _ Y). congruence.
  - intros (e & E & HX). split; [by eexists|]. destruct (entries_of c2 n !! ip) as [e2|] eqn:E2; [|done]. exfalso.
    apply (tm_at _ _ _ _ Y) in E2 as [[E2 Hx]%(ex_at _ _ _ _ _ X) Hn]. simplify_eq. destruct HX as [?|?]; [lia|tauto].
Qed.

Lemma lost_affected n ip : lost c c2 n ip → n ∈ aff1 ∪ aff2.
Proof.
  intros (e & E & [Hx|[Hp Hs]])%lost_why; apply elem_of_union; [left; by eapply (ex_affected _ _ _ _ _ X)|right].
  by apply (tm_affected _ _ _ _ Y n ip e).
Qed.

Lemma lost_removed n ip : lost c c2 n ip ↔ ∃ e, (in_removed rem1 ip e ∨ in_removed rem2 ip e) ∧ n = e_Name e.
Proof.
  rewrite lost_why. setoid_rewrite (ex_removed _ _ _ _ _ X). setoid_rewrite (tm_removed _ _ _ _ Y). split.
  - intros (e & E & HX). exists e. split; [|symmetry; by apply (ok_entry c OK) in E as [? _]].
    destruct HX as [?|[? ?]]; [left|right]; by eauto.
  - intros (e & [(n' & E & Hx)|(n' & Hp & Hs)] & ->); exists e.
    + pose proof (proj1 (ok_entry c OK _ _ _ E)) as ->. by split; [|left].
    + pose proof (surplus_in _ _ _ _ Hs) as [E1 _]%(ex_at _ _ _ _ _ X). pose proof (proj1 (ok_entry c OK _ _ _ E1)) as ->. by split; [|right].
Qed.

Lemma lost_entry n ip e : lost c c2 n ip → entries_of c n !! ip = Some e → n = e_Name e ∧ (in_removed rem1 ip e ∨ in_removed rem2 ip e).
Proof.
  intros (e' & E' & HX)%lost_why E. rewrite E in E'. injection E' as <-. split; [symmetry; by apply (ok_entry c OK) in E as [? _]|].
  rewrite (ex_removed _ _ _ _ _ X), (tm_removed _ _ _ _ Y). destruct HX as [?|[? ?]]; [left|right]; by eauto.
Qed.

Lemma stages_buried zs : let zs' := bury now rem2 (bury now rem1 zs) in
  (∀ ip n, haunts zs' ip n ↔ haunts zs ip n ∨ lost c c2 n ip) ∧
  (∀ n ip e, lost c c2 n ip → entries_of c n !! ip = Some e → buried (Z.max now (ExpirationTime e)) zs' ip n).
Proof.
  destruct (bury_spec now rem1 zs) as (B1 & B2 & B3). destruct (bury_spec now rem2 (bury now rem1 zs)) as (C1 & C2 & C3). split.
  - intros ip n. rewrite C1, B1, lost_removed. naive_solver.
  - intros n ip e HL E. destruct (lost_entry n ip e HL E) as [-> [H|H]]; [by apply C2, B3|by apply C3].
Qed.

Lemma stages_collect : tracked c → collection now c c2.
Proof.
  intros T. destruct (collect_time now c T) as (t & Ht & HT).
  assert (HU : ∀ n, unexpired t (entries_of c n) = entries_of c1 n).
  { intros n. unfold unexpired. apply map_eq. intros ip. apply option_eq. intros e. rewrite map_lookup_filter_Some, (ex_at _ _ _ _ _ X). cbn.
    specialize (HT n ip e). split; intros [H ?]; specialize (HT H); (split; [done|lia]). }
  constructor; try apply Y; [split|by apply X| |].
  - exists t. split; [done|]. split.
    + intros n ip e [[E Hx]%(ex_at _ _ _ _ _ X) _]%(tm_at _ _ _ _ Y). split; [done|]. specialize (HT n ip e E). lia.
    + intros n ip e E HN. destruct (proj1 (lost_why n ip) ltac:(split; [by eexists|done])) as (e' & E' & HX). simplify_eq.
      destruct HX as [?|[Hp Hs]]; [left; by apply (HT n ip e)|]. right. rewrite HU, <- (ex_limit _ _ _ _ _ X). split.
      * split; [done|]. destruct (decide (Z.of_nat (size (entries_of c1 n)) ≤ perHostLimit c1)) as [Hb|]; [|lia].
        rewrite (surplus_none _ _ Hb) in Hs. by apply elem_of_nil in Hs.
      * intros ip' e' [E' Hn]%(tm_at _ _ _ _ Y). apply (surplus_first c1 n ip e ip' e'); [done|done|tauto].
  - intros Hp n. rewrite <- (ex_limit _ _ _ _ _ X) in *. by apply Y.
  - rewrite <- (ex_limit _ _ _ _ _ X). apply Y.
  - rewrite <- (ex_min _ _ _ _ _ X). apply Y.
Qed.
End stages.

Lemma GC_collects now zombies c : cache_ok c → tracked c → limit_ok c → 0 ≤ perHostLimit c →
  ∃ c' zombies' aff, cache_GC now zombies c = Some (c', zombies', aff) ∧ collection now c c' ∧
    (∀ n ip, lost c c' n ip → n ∈ aff) ∧
    match zombies with
    | None => zombies' = None
    | Some zs => ∃ zs', zombies' = Some zs' ∧
        (∀ ip n, haunts zs' ip n ↔ haunts zs ip n ∨ lost c c' n ip) ∧
        (∀ n ip e, lost c c' n ip → entries_of c n !! ip = Some e → buried (Z.max now (ExpirationTime e)) zs' ip n)
    end.
Proof.
  intros OK T L H0. unfold cache_GC. destruct (cleanup_expiry now c OK T) as (c1 & aff1 & rem1 & -> & X). cbn [mbind option_bind].
  pose proof (cleanup_trimmed c1 (ex_ok _ _ _ _ _ X) (ex_limit_ok _ _ _ _ _ X L) ltac:(by rewrite (ex_limit _ _ _ _ _ X))) as Y.
  destruct (cleanupOverLimitEntries c1) as [c2 [aff2 rem2]]. cbn [fst snd] in Y.
  exists c2, ((λ zs, bury now rem2 (bury now rem1 zs)) <$> zombies), (aff1 ∪ aff2). split; [done|].
  split; [by apply (stages_collect now c c1 c2 aff1 aff2 rem1 rem2)|]. split; [intros n ip; by apply (lost_affected now c c1 c2 aff1 aff2 rem1 rem2)|].
  destruct zombies as [zs|]; [|done]. eexists. split; [done|]. by apply (stages_buried now c c1 c2 aff1 aff2 rem1 rem2).
Qed.
End refine.
