(* ===== verification/DnsCacheHistory.v ===== *)
(** * Histories of the DNS cache

    Every history of insertions, merges, collections, forced expiries and restores of a [DNSCache] of
    [src/pkg/fqdn/cache.go] follows the table of its lookups, and the queries answer from the table. *)

From stdpp Require Import sorting.
From S2P Require Import Prelude Text Netip GoLib DnsZombies DnsZombiesGC DnsCache DnsCacheInv DnsCacheGC DnsCacheRefine.

Local Open Scope Z_scope.

Implicit Types (c : DNSCache) (e : cacheEntry) (n : string) (ip : Addr).

Lemma filter_true {A} (P : A → Prop) `{∀ x, Decision (P x)} (l : list A) : (∀ x, x ∈ l → P x) → filter P l = l.
Proof.
  induction l as [|x l IH]; intros HP; [done|]. rewrite filter_cons, decide_True by (apply HP; by left). f_equal.
  apply IH. intros y Hy. apply HP. by right.
Qed.

Section queries.
Context {GR : GoRange} {GS : GoSort}.

(** ** Queries *)

Lemma lookup_by_time now n c ip' : ip' ∈ lookupByTime now n c ↔
  ∃ ip e, entries_of c n !! ip = Some e ∧ now ≤ ExpirationTime e ∧ ip' = Unmap ip.
Proof.
  assert (HE : lookupByTime now n c = entries_getIPs now (entries_of c n)).
  { unfold lookupByTime, entries_of. destruct (forward c !! n); [done|]. cbn. unfold entries_getIPs. by rewrite dom_empty_L, range_empty. }
  rewrite HE. unfold entries_getIPs, isExpiredBy, time_After. rewrite list_elem_of_omap. setoid_rewrite elem_of_range. split.
  - intros (ip & _ & H). destruct (entries_of c n !! ip) as [e|] eqn:E; [|done].
    destruct (Z.ltb_spec (ExpirationTime e) now); [done|]. injection H as <-. by exists ip, e.
  - intros (ip & e & E & Hx & ->). exists ip. split; [by apply elem_of_dom|]. by rewrite E, (proj2 (Z.ltb_ge _ _) Hx).
Qed.

Lemma lookup_ip_by_time now ip c n : cache_ok c → n ∈ lookupIPByTime now ip c ↔
  ∃ e, entries_of c n !! ip = Some e ∧ now ≤ ExpirationTime e.
Proof.
  intros OK. unfold lookupIPByTime, isExpiredBy, time_After. pose proof (ok_reverse c OK n ip) as HR. unfold names_of in HR.
  destruct (reverse c !! ip) as [es|]; cbn in HR.
  - rewrite sort_by_perm, list_elem_of_filter, elem_of_range, elem_of_dom. rewrite <- HR. destruct (es !! n) as [e|]; cbn.
    + assert (HX : negb (ExpirationTime e <? now) = true ↔ now ≤ ExpirationTime e) by lia. rewrite HX.
      split; [intros [? _]; by exists e|]. intros (? & [= <-] & ?). split; [done|by eexists].
    + split; [intros [? _]; done|naive_solver].
  - rewrite <- HR. rewrite lookup_empty, elem_of_nil. naive_solver.
Qed.

Lemma regexp_by_time now re c n l : lookupByRegexpByTime now re c !! n = Some l ↔
  re n = true ∧ l = lookupByTime now n c ∧ l ≠ [].
Proof.
  unfold lookupByRegexpByTime, lookupByTime. rewrite map_lookup_imap. destruct (forward c !! n) as [es|]; cbn; [|naive_solver].
  destruct (re n); [|naive_solver]. destruct (entries_getIPs now es); naive_solver.
Qed.

Lemma getIPs_spec c ip n : cache_ok c → n ∈ default [] (getIPs c !! ip) ↔ is_Some (entries_of c n !! ip).
Proof.
  intros OK. rewrite <- (ok_reverse c OK). unfold getIPs, names_of. rewrite lookup_fmap. destruct (reverse c !! ip) as [es|]; cbn.
  - by rewrite elem_of_range, elem_of_dom.
  - rewrite lookup_empty, elem_of_nil. split; [done|]. by intros [].
Qed.

(** [RemoveKnown] keeps the names that the cache does not have for the address. *)
Lemma RemoveKnown_spec m c ip : cache_ok c →
  RemoveKnown m c !! ip = (λ names, filter (λ n, entries_of c n !! ip = None) names) <$> m !! ip.
Proof.
  intros OK. unfold RemoveKnown. rewrite map_lookup_imap. destruct (m !! ip) as [names|]; cbn; [|done]. f_equal.
  assert (HN : ∀ n, entries_of c n !! ip = names_of c ip !! n) by (intros n; symmetry; by apply OK).
  assert (HF : filter (λ n, entries_of c n !! ip = None) names = filter (λ n, names_of c ip !! n = None) names).
  { apply list_filter_iff. intros n. by rewrite HN. }
  rewrite HF. unfold names_of. destruct (reverse c !! ip) as [es|]; cbn.
  - case_bool_decide as HS; [|done]. apply map_size_empty_inv in HS as ->. symmetry. apply filter_true. intros n _. apply lookup_empty.
  - symmetry. apply filter_true. intros n _. apply lookup_empty.
Qed.

End queries.

(** ** Histories *)

Inductive dns_op :=
| DUpdate (ptr : Z) (lookupTime : Time) (name : string) (ips : list Addr) (ttl : Z) (updates : list Z)
| DMerge (other : DNSCache)
| DCollect (now : Time) (zombies : option DNSZombieMappings)
| DForceExpire (before : Time) (nameMatch : option (string → bool))
| DRestore (lookups : list cacheEntry).

(** The lookup that [Update] stores. *)
Definition update_entry (minTTL ptr : Z) (lookupTime : Time) (name : string) (ips : list Addr) (ttl : Z) : cacheEntry :=
  let ttl := if ttl <? minTTL then minTTL else ttl in mkEntry ptr name lookupTime (time_Add lookupTime (seconds ttl)) ttl ips.

(** The lookups that come in were made, and expire, after the zero time. *)
Definition op_ok (minTTL : Z) (op : dns_op) : Prop :=
  match op with
  | DUpdate ptr t n ips ttl _ => timely (update_entry minTTL ptr t n ips ttl)
  | DMerge u => ∀ n ip e, entries_of u n !! ip = Some e → timely e
  | DRestore l => ∀ e, e ∈ l → timely e
  | _ => True
  end.

Section history.
Context {GR : GoRange} {GS : GoSort}.

Definition dns_step (op : dns_op) c : option DNSCache :=
  match op with
  | DUpdate ptr t n ips ttl updates => Some (Update ptr t n ips ttl updates c).1
  | DMerge u => Some (UpdateFromCache (Some u) c)
  | DCollect now zombies => '(c, _, _) ← cache_GC now zombies c; Some c
  | DForceExpire before m => Some (cache_ForceExpire before m c).1
  | DRestore l => Some (cache_restore l c)
  end.

Definition dns_run (ops : list dns_op) c : option DNSCache := foldl (λ o op, o ≫= dns_step op) (Some c) ops.

(** The table of the lookups of every name, and what an operation may make of it. *)
Definition spec_insert (l : list cacheEntry) (A A' : string → ipEntries) : Prop :=
  ∀ n ip, latest (λ e, A n !! ip = Some e ∨ offers l n ip e) (A' n !! ip).

Definition spec_force (before : Time) (m : option (string → bool)) (A A' : string → ipEntries) : Prop :=
  ∀ n ip e, A' n !! ip = Some e ↔ A n !! ip = Some e ∧
    ¬ (matched m n = true ∧ (ExpirationTime e < before ∨ LookupTime e < before)).

Definition spec_step (minTTL limit : Z) (op : dns_op) (A A' : string → ipEntries) : Prop :=
  match op with
  | DUpdate ptr t n ips ttl _ => spec_insert [update_entry minTTL ptr t n ips ttl] A A'
  | DMerge u => spec_insert (lookups_of u) A A'
  | DCollect now _ => spec_collect limit now A A'
  | DForceExpire before m => spec_force before m A A'
  | DRestore l => spec_insert l (λ _, ∅) A'
  end.

Inductive spec_run (minTTL limit : Z) : list dns_op → (string → ipEntries) → (string → ipEntries) → Prop :=
| spec_done A : spec_run minTTL limit [] A A
| spec_next op ops A A' A'' : spec_step minTTL limit op A A' → spec_run minTTL limit ops A' A'' → spec_run minTTL limit (op :: ops) A A''.

Record cache_inv (minT limit : Z) c : Prop := {
  ci_ok : cache_ok c;
  ci_tracked : tracked c;
  ci_limit_ok : limit_ok c;
  ci_limit : perHostLimit c = limit;
  ci_min : minTTL c = minT;
}.

Lemma inserts_inv minT limit l c c' : inserts l c c' → (∀ e, e ∈ l → timely e) → cache_inv minT limit c → cache_inv minT limit c'.
Proof.
  intros I Ht V. constructor; [apply I, V|apply I; [apply V|done]|apply I, V| |].
  - rewrite (is_limit _ _ _ I). apply V.
  - rewrite (is_min _ _ _ I). apply V.
Qed.

Lemma cleared_inv minT limit c : cache_inv minT limit c → cache_inv minT limit (set_reverse ∅ (set_forward ∅ c)).
Proof.
  intros V. assert (HE : ∀ n ip, entries_of (set_reverse ∅ (set_forward ∅ c)) n !! ip = None).
  { intros n ip. unfold entries_of. cbn. by rewrite lookup_empty. }
  constructor; [| | |apply V|apply V].
  - constructor; [intros n ip e; by rewrite HE|intros n ip; rewrite HE; unfold names_of; cbn; by rewrite lookup_empty|done].
  - constructor; [apply V|apply V|intros n ip e m _; by rewrite HE|intros n ip e; by rewrite HE|intros n ip e; by rewrite HE].
  - intros Hl n. unfold entries_of. cbn. rewrite lookup_empty. cbn. rewrite map_size_empty. cbn in Hl. lia.
Qed.

Lemma force_refines before m c : cache_ok c → spec_force before m (entries_of c) (entries_of (cache_ForceExpire before m c).1).
Proof.
  intros OK n ip e. destruct (ForceExpire_spec before m c OK) as [R _]. rewrite (rm_at _ _ _ R).
  unfold expires_by, isExpiredBy, time_After, time_Before. rewrite orb_true_iff, !Z.ltb_lt. done.
Qed.

(** One operation: it completes, keeps the invariant and follows the table. *)
Lemma step_refines minT limit op c : 0 ≤ limit → op_ok minT op → cache_inv minT limit c →
  ∃ c', dns_step op c = Some c' ∧ cache_inv minT limit c' ∧ spec_step minT limit op (entries_of c) (entries_of c').
Proof.
  intros H0 HO V. destruct op as [ptr t n ips ttl us|u|now zombies|before m|l]; cbn [dns_step].
  - eexists. split; [done|]. unfold Update. rewrite (ci_min _ _ _ V). fold (update_entry minT ptr t n ips ttl).
    set (e := update_entry minT ptr t n ips ttl). set (c0 := set_updated _ c).
    assert (V0 : cache_inv minT limit c0).
    { constructor; [apply (entries_same c), V; done|apply (tracked_same c), V; done|exact (ci_limit_ok _ _ _ V)|apply V|apply V]. }
    pose proof (insert_one e c0) as I. split; [apply (inserts_inv _ _ _ _ _ I); [by intros ? ->%list_elem_of_singleton|done]|]. exact (is_at _ _ _ I).
  - eexists. split; [done|]. rewrite UpdateFromCache_insert. pose proof (insert_all_spec (lookups_of u) c) as I.
    split; [apply (inserts_inv _ _ _ _ _ I); [|done]; intros e (n & ip & H)%elem_lookups; by eapply HO|]. exact (is_at _ _ _ I).
  - destruct (GC_collects now zombies c) as (c' & zs & aff & -> & C & _); try apply V; [by rewrite (ci_limit _ _ _ V)|].
    exists c'. split; [done|]. split; [|cbn; rewrite <- (ci_limit _ _ _ V); apply C].
    constructor; try apply C; [rewrite (co_limit _ _ _ C)|rewrite (co_min _ _ _ C)]; apply V.
  - eexists. split; [done|]. destruct (ForceExpire_spec before m c (ci_ok _ _ _ V)) as [R _].
    split; [|by apply force_refines, V]. constructor; [apply R, V|apply (removes_tracked _ _ _ R), V|apply (removes_limit _ _ _ R), V| |].
    + rewrite (rm_limit _ _ _ R). apply V.
    + rewrite (rm_min _ _ _ R). apply V.
  - eexists. split; [done|]. unfold cache_restore. fold (insert_all l (set_reverse ∅ (set_forward ∅ c))).
    pose proof (insert_all_spec l (set_reverse ∅ (set_forward ∅ c))) as I.
    split; [apply (inserts_inv _ _ _ _ _ I); [done|by apply cleared_inv]|]. cbn. intros n ip.
    eapply latest_proper; [|done|apply I]. intros e. unfold entries_of. cbn. by rewrite !lookup_empty.
Qed.

Lemma dns_run_refines minT limit ops : 0 ≤ limit → Forall (op_ok minT) ops → ∀ c, cache_inv minT limit c →
  ∃ c', dns_run ops c = Some c' ∧ cache_inv minT limit c' ∧ spec_run minT limit ops (entries_of c) (entries_of c').
Proof.
  intros H0. unfold dns_run. induction 1 as [|op ops HO _ IH]; intros c V; cbn [foldl]; [exists c; split_and!; [done..|constructor]|].
  destruct (step_refines minT limit op c H0 HO V) as (c1 & E & V1 & S1). cbn [mbind option_bind]. rewrite E.
  destruct (IH c1 V1) as (c' & E' & V' & S'). exists c'. split; [done|]. split; [done|]. by econstructor.
Qed.

(** The answers of a cache: all of its lookups, from both sides, and nothing else. *)
Record answers c : Prop := {
  an_forward n ip' : ip' ∈ Lookup n c ↔ ∃ ip, is_Some (entries_of c n !! ip) ∧ ip' = Unmap ip;
  an_reverse n ip : n ∈ LookupIP ip c ↔ is_Some (entries_of c n !! ip);
  an_sorted ip : StronglySorted String.le (LookupIP ip c);
  an_regexp re n l : LookupByRegexp re c !! n = Some l ↔ re n = true ∧ l = Lookup n c ∧ l ≠ [];
  an_known m ip : RemoveKnown m c !! ip = (λ names, filter (λ n, entries_of c n !! ip = None) names) <$> m !! ip;
  an_ips ip n : n ∈ default [] (getIPs c !! ip) ↔ is_Some (entries_of c n !! ip);
}.

Lemma inv_answers minT limit c : cache_inv minT limit c → answers c.
Proof.
  intros [OK T _ _ _]. constructor.
  - intros n ip'. unfold Lookup. rewrite lookup_by_time. split; [intros (ip & e & ? & _ & ?); by eauto|].
    intros (ip & [e E] & ->). exists ip, e. split_and!; [done| |done]. by eapply T.
  - intros n ip. unfold LookupIP. rewrite lookup_ip_by_time by done. split; [intros (e & ? & _); by eexists|].
    intros [e E]. exists e. split; [done|]. by eapply T.
  - intros ip. unfold LookupIP, lookupIPByTime. destruct (reverse c !! ip); [apply sort_by_sorted; apply _|constructor].
  - intros re n l. apply regexp_by_time.
  - intros m ip. by apply RemoveKnown_spec.
  - intros ip n. by apply getIPs_spec.
Qed.
End history.

Lemma new_inv minT limit : cache_inv minT limit (NewDNSCacheWithLimit minT limit).
Proof. destruct (new_cache_ok minT limit) as (? & ? & ?). by constructor. Qed.

(** C3. Every history of updates, merges with other caches, collections, forced expiries and restores
    completes and follows the table of lookups: insertions keep for every pair of name and address the
    lookup that expires last, collections remove what expired and the surplus of a name, forced expiry
    what matches.  Afterwards the queries by name, by address and by pattern return exactly what the
    table holds, so the two maps of the cache answer alike. *)
Theorem dns_cache_refines {GR : GoRange} {GS : GoSort} minT limit ops : 0 ≤ limit → Forall (op_ok minT) ops →
  ∃ c, dns_run ops (NewDNSCacheWithLimit minT limit) = Some c ∧
    spec_run minT limit ops (λ _, ∅) (entries_of c) ∧ answers c.
Proof.
  intros H0 HO. destruct (dns_run_refines minT limit ops H0 HO _ (new_inv minT limit)) as (c & E & V & S). exists c.
  split; [done|]. split; [|by eapply inv_answers]. assert (HE : entries_of (NewDNSCacheWithLimit minT limit) = λ _, ∅).
  { unfold entries_of. cbn. reflexivity. }
  by rewrite HE in S.
Qed.

(** C10. The garbage collection of a cache after any history with admissible times and lookups, with
    zombies: it ends; every pair of name and address that leaves the cache becomes a zombie, to be
    deleted no earlier than the collection and no earlier than its lookup expires, and its name is
    reported; the zombies gain no other pair and lose none. *)
Theorem collection_loses_nothing {GR : GoRange} {GS : GoSort} minT limit ops now zs : 0 ≤ limit → Forall (op_ok minT) ops →
  ∃ c c' zs' affected, dns_run ops (NewDNSCacheWithLimit minT limit) = Some c ∧
    cache_GC now (Some zs) c = Some (c', Some zs', affected) ∧
    spec_collect limit now (entries_of c) (entries_of c') ∧
    (∀ n ip e, lost c c' n ip → entries_of c n !! ip = Some e → n ∈ affected ∧ buried (Z.max now (ExpirationTime e)) zs' ip n) ∧
    (∀ n ip, haunts zs' ip n ↔ haunts zs ip n ∨ lost c c' n ip).
Proof.
  intros H0 HO. destruct (dns_run_refines minT limit ops H0 HO _ (new_inv minT limit)) as (c & E & V & _).
  destruct (GC_collects now (Some zs) c) as (c' & zs' & aff & E' & C & HA & zs1 & -> & HZ & HB); try apply V; [by rewrite (ci_limit _ _ _ V)|].
  exists c, c', zs1, aff. split_and!; [done|done| |by intros n ip e HL He; split; [by eapply HA|by apply HB]|intros n ip; apply HZ].
  rewrite <- (ci_limit _ _ _ V). apply C.
Qed.

(** C40. [ForceExpire] with the zero time, documented as the time that matches everything, expires
    nothing, after any history and for any names. *)
Theorem force_expire_zero {GR : GoRange} {GS : GoSort} minT limit ops m : 0 ≤ limit → Forall (op_ok minT) ops →
  ∃ c, dns_run ops (NewDNSCacheWithLimit minT limit) = Some c ∧
    (∀ n, entries_of (cache_ForceExpire zeroTime m c).1 n = entries_of c n) ∧ (cache_ForceExpire zeroTime m c).2 = ∅.
Proof.
  intros H0 HO. destruct (dns_run_refines minT limit ops H0 HO _ (new_inv minT limit)) as (c & E & [OK T _ _ _] & _). exists c.
  split; [done|]. destruct (ForceExpire_spec zeroTime m c OK) as [R A].
  assert (HN : ∀ n ip e, entries_of c n !! ip = Some e → expires_by zeroTime zeroTime e ≠ true).
  { intros n ip e H X%expires_plain. pose proof (tr_last c T n ip e H). pose proof (tr_lookup c T n ip e H). unfold zeroTime in X. lia. }
  split.
  - intros n. apply map_eq. intros ip. apply option_eq. intros e. rewrite (rm_at _ _ _ R). specialize (HN n ip e). tauto.
  - apply set_eq. intros n. rewrite A. split; [|set_solver]. intros (ip & e & H & _ & X). by destruct (HN n ip e H).
Qed.

Module Examples.
#[local] Existing Instance range_elements.
#[local] Existing Instance sort_merge.

Definition addr (n : Z) : Addr := V4 n.

(** Two lookups of a name, one of them expiring before the collection. *)
Definition dns_history : list dns_op :=
  [DUpdate 1 (100 * second) "cilium.io" [addr 1; addr 2] 10 []; DUpdate 2 (105 * second) "cilium.io" [addr 2; addr 3] 60 [];
   DUpdate 3 (105 * second) "ebpf.io" [addr 2] 5 []; DCollect (112 * second) None; DForceExpire 0 None].

Lemma dns_history_ok : Forall (op_ok 0) dns_history.
Proof. repeat constructor; vm_compute; (lia || discriminate || done). Qed.

Lemma force_expire_zero_witness : 0 ≤ 2 ∧ ∃ c, dns_run dns_history (NewDNSCacheWithLimit 0 2) = Some c ∧
  entries_of (cache_ForceExpire zeroTime None c).1 "cilium.io" = entries_of c "cilium.io".
Proof.
  split; [lia|]. destruct (force_expire_zero 0 2 dns_history None ltac:(lia) dns_history_ok) as (c & E & H & _).
  exists c. split; [done|]. apply H.
Defined.

Lemma dns_cache_refines_witness : 0 ≤ 2 ∧
  ∃ c, dns_run dns_history (NewDNSCacheWithLimit 0 2) = Some c ∧
    (∀ n ip, n ∈ LookupIP ip c ↔ is_Some (entries_of c n !! ip)) ∧
    (λ c, (Lookup "cilium.io" c, LookupIP (addr 2) c)) <$> dns_run dns_history (NewDNSCacheWithLimit 0 2) =
      Some ([addr 3; addr 2], ["cilium.io"%string]).
Proof.
  split; [lia|]. destruct (dns_cache_refines 0 2 dns_history ltac:(lia) dns_history_ok) as (c & E & _ & A).
  exists c. split; [done|]. split; [apply A|]. vm_compute. reflexivity.
Defined.

Definition zombies_left : option nat :=
  match dns_run dns_history (NewDNSCacheWithLimit 0 1) with
  | Some c =>
      match cache_GC (200 * second) (Some (NewDNSZombieMappings 10 0)) c with
      | Some (_, Some zs, _) => Some (size (deletes zs))
      | _ => None
      end
  | None => None
  end.

Lemma collection_loses_nothing_witness : 0 ≤ 1 ∧ zombies_left = Some 1%nat ∧
  ∃ c c' zs', dns_run dns_history (NewDNSCacheWithLimit 0 1) = Some c ∧
    (∀ n ip e, lost c c' n ip → entries_of c n !! ip = Some e → buried (Z.max (200 * second) (ExpirationTime e)) zs' ip n).
Proof.
  split; [lia|]. split; [vm_compute; reflexivity|].
  destruct (collection_loses_nothing 0 1 dns_history (200 * second) (NewDNSZombieMappings 10 0) ltac:(lia) dns_history_ok)
    as (c & c' & zs' & aff & E & _ & _ & HL & _).
  exists c, c', zs'. split; [done|]. intros n ip e H He. by apply HL.
Defined.
End Examples.
