(* ===== verification/DnsCacheShare.v ===== *)
(** * Sharing the DNS cache

    Dumping and restoring a [DNSCache] of [src/pkg/fqdn/cache.go], and rebuilding names of the global
    cache from the caches of the endpoints. *)

From stdpp Require Import sorting.
From S2P Require Import Prelude Text Netip GoLib DnsZombies DnsZombiesGC DnsCache DnsCacheInv DnsCacheGC DnsCacheRefine DnsCacheHistory.

Local Open Scope Z_scope.

Implicit Types (c : DNSCache) (e : cacheEntry) (n : string) (ip : Addr).

(** ** Dumping *)

(** Entries at one address in memory are one entry. *)
Definition one_per_ptr (l : list cacheEntry) : Prop := ∀ e e', e ∈ l → e' ∈ l → e_ptr e = e_ptr e' → e = e'.

Lemma dedup_after_spec l : ∀ last, StronglySorted ptr_le l → (∀ e, e ∈ l → last ≤ e_ptr e) →
  let d := dedup_after last l in NoDup (e_ptr <$> d) ∧ (∀ e, e ∈ d → e ∈ l ∧ last < e_ptr e) ∧
  (∀ e, e ∈ l → last < e_ptr e → ∃ e', e' ∈ d ∧ e_ptr e' = e_ptr e).
Proof.
  induction l as [|e0 l IH]; intros last SS HL; cbn; [split; [constructor|set_solver]|].
  apply StronglySorted_inv in SS as [SS HF]. rewrite Forall_forall in HF. pose proof (HL e0 ltac:(left)) as H0.
  destruct (Z.eqb_spec (e_ptr e0) last) as [Heq|Hne].
  - destruct (IH last SS) as (N & I & C); [intros e He; apply HL; by right|]. split_and!; [done| |].
    + intros e He. destruct (I e He). by split; [right|].
    + intros e [->|He]%elem_of_cons Hp; [lia|by apply C].
  - destruct (IH (e_ptr e0) SS) as (N & I & C); [intros e He; by apply HF|]. split_and!.
    + cbn. constructor; [|done]. intros (e & E & [_ ?]%I)%list_elem_of_fmap. lia.
    + intros e [->|He]%elem_of_cons; [split; [by left|lia]|]. destruct (I e He). split; [by right|lia].
    + intros e [->|He]%elem_of_cons Hp; [exists e0; by split; [left|]|].
      destruct (decide (e_ptr e = e_ptr e0)) as [Heq|Hn]; [exists e0; by split; [left|]|].
      destruct (C e He) as (e' & ? & ?); [pose proof (HF e He) as Hpe; unfold ptr_le in Hpe; lia|]. exists e'. by split; [right|].
Qed.

Lemma dedup_spec l : StronglySorted ptr_le l → one_per_ptr l → NoDup (e_ptr <$> dedup l) ∧ ∀ e, e ∈ dedup l ↔ e ∈ l.
Proof.
  destruct l as [|e0 l]; intros SS HO; [split; [constructor|done]|]. apply StronglySorted_inv in SS as [SS HF]. rewrite Forall_forall in HF.
  destruct (dedup_after_spec l (e_ptr e0) SS ltac:(intros e He; by apply HF)) as (N & I & C). cbn [dedup]. split.
  - cbn. constructor; [|done]. intros (e & E & [_ ?]%I)%list_elem_of_fmap. lia.
  - intros e. rewrite !elem_of_cons. split; [intros [?|[? _]%I]; tauto|]. intros [->|He]; [by left|].
    destruct (decide (e_ptr e = e_ptr e0)) as [Heq|Hn]; [left; apply HO; [by right|by left|done]|].
    destruct (C e He) as (e' & He' & Ep); [pose proof (HF e He) as Hpe; unfold ptr_le in Hpe; lia|]. right.
    replace e with e'; [done|]. apply HO; [right; by apply I|by right|done].
Qed.

Section share.
Context {GR : GoRange} {GS : GoSort}.

#[local] Instance ptr_le_total : Total ptr_le.
Proof. intros x y. unfold ptr_le. lia. Qed.
#[local] Instance ptr_le_trans : Transitive ptr_le.
Proof. intros x y z. unfold ptr_le. lia. Qed.

(** A dump holds every lookup of the cache once. *)
Lemma Dump_spec c : one_per_ptr (lookups_of c) → NoDup (e_ptr <$> Dump c) ∧ ∀ e, e ∈ Dump c ↔ ∃ n ip, entries_of c n !! ip = Some e.
Proof.
  intros HO. unfold Dump. fold (lookups_of c).
  assert (HE : ∀ e, e ∈ sort_by ptr_le (lookups_of c) ↔ e ∈ lookups_of c) by (intros e; by rewrite sort_by_perm).
  destruct (dedup_spec (sort_by ptr_le (lookups_of c))) as [N I].
  - apply sort_by_sorted; apply _.
  - intros e e' He He'. apply HO; by apply HE.
  - split; [done|]. intros e. by rewrite I, HE, elem_lookups.
Qed.

(** ** Restoring *)

(** The lookups of a pair that are still in the cache do not outlive the one stored for it. *)
Definition complete c : Prop := ∀ n ip e ip', entries_of c n !! ip = Some e → ip' ∈ e_IPs e →
  ∃ e', entries_of c n !! ip' = Some e' ∧ ExpirationTime e ≤ ExpirationTime e'.

Lemma latest_above (S : cacheEntry → Prop) o e : latest S o → S e → ∃ e', o = Some e' ∧ ExpirationTime e ≤ ExpirationTime e'.
Proof. destruct o as [e'|]; cbn; [intros [_ H] HS; exists e'; split; [done|by apply H]|intros H HS; by destruct (H e)]. Qed.

Lemma inserts_complete l c c' : inserts l c c' → complete c → complete c'.
Proof.
  intros I HC n ip e ip' E Hip. pose proof (is_at _ _ _ I n ip) as HA. rewrite E in HA. destruct HA as [[HO|(Hl & Hn & _)] _].
  - destruct (HC n ip e ip' HO Hip) as (e1 & E1 & L1). destruct (latest_above _ _ e1 (is_at _ _ _ I n ip') ltac:(by left)) as (e2 & E2 & L2).
    exists e2. split; [done|lia].
  - apply (latest_above _ _ e (is_at _ _ _ I n ip')). by right.
Qed.

Lemma collect_complete now A A' : spec_collect 0 now A A' →
  (∀ n ip e ip', A n !! ip = Some e → ip' ∈ e_IPs e → ∃ e', A n !! ip' = Some e' ∧ ExpirationTime e ≤ ExpirationTime e') →
  ∀ n ip e ip', A' n !! ip = Some e → ip' ∈ e_IPs e → ∃ e', A' n !! ip' = Some e' ∧ ExpirationTime e ≤ ExpirationTime e'.
Proof.
  intros [(t & Ht & HK & HG) _] HC n ip e ip' E Hip. destruct (HK n ip e E) as [E0 Hx]. destruct (HC n ip e ip' E0 Hip) as (e1 & E1 & L1).
  destruct (A' n !! ip') as [e2|] eqn:E2.
  - exists e2. split; [done|]. destruct (HK n ip' e2 E2) as [? _]. by simplify_eq.
  - destruct (HG n ip' e1 E1 E2) as [?|[? _]]; lia.
Qed.

Definition is_force (op : dns_op) : bool := match op with DForceExpire _ _ => true | _ => false end.

Lemma step_complete minT op c : op_ok minT op → cache_inv minT 0 c → is_force op = false → complete c →
  ∃ c', dns_step op c = Some c' ∧ cache_inv minT 0 c' ∧ complete c'.
Proof.
  intros HO V HF HC. destruct (step_refines minT 0 op c ltac:(lia) HO V) as (c' & E & V' & S'). exists c'. split; [done|]. split; [done|].
  destruct op as [ptr t n ips ttl us|u|now zombies|before m|l]; cbn in E, S'; try done.
  - injection E as <-. unfold Update. eapply inserts_complete; [apply insert_one|]. exact HC.
  - injection E as <-. eapply inserts_complete; [|exact HC]. pose proof (UpdateFromCache_insert u c) as HU. cbn in HU. rewrite HU. apply insert_all_spec.
  - exact (collect_complete now _ _ S' HC).
  - injection E as <-. unfold cache_restore. eapply inserts_complete; [apply insert_all_spec|].
    intros n ip e ip' H. unfold entries_of in H. cbn in H. by rewrite lookup_empty in H.
Qed.

Lemma run_complete minT ops : Forall (op_ok minT) ops → Forall (λ op, is_force op = false) ops → ∀ c, cache_inv minT 0 c → complete c →
  ∃ c', dns_run ops c = Some c' ∧ cache_inv minT 0 c' ∧ complete c'.
Proof.
  unfold dns_run. induction 1 as [|op ops HO _ IH]; intros HF c V HC; cbn [foldl]; [by exists c|].
  apply Forall_cons in HF as [HF1 HF]. destruct (step_complete minT op c HO V HF1 HC) as (c1 & E & V1 & C1). cbn [mbind option_bind].
  rewrite E. by apply IH.
Qed.

(** What the decoder returns: the lookups that were encoded, at new addresses. *)
Definition same_lookup e e' : Prop := e_Name e = e_Name e' ∧ LookupTime e = LookupTime e' ∧
  ExpirationTime e = ExpirationTime e' ∧ TTL e = TTL e' ∧ e_IPs e = e_IPs e'.

Lemma restored_expirations c l r : cache_ok c → complete c → one_per_ptr (lookups_of c) → Forall2 same_lookup l (Dump c) →
  ∀ n ip, ExpirationTime <$> entries_of (cache_restore l r) n !! ip = ExpirationTime <$> entries_of c n !! ip.
Proof.
  intros OK HC HO HL n ip. destruct (Dump_spec c HO) as [_ HD]. unfold cache_restore.
  pose proof (is_at _ _ _ (insert_all_spec l (set_reverse ∅ (set_forward ∅ r))) n ip) as HA.
  fold (insert_all l (set_reverse ∅ (set_forward ∅ r))). set (r' := insert_all l _) in *.
  assert (H1 : ∀ e, offers l n ip e → ∃ e', entries_of c n !! ip = Some e' ∧ ExpirationTime e ≤ ExpirationTime e').
  { intros e (He & Hn & Hip). apply list_elem_of_lookup in He as [i Hi]. destruct (Forall2_lookup_l _ _ _ _ _ HL Hi) as (e1 & Hi1 & S1).
    apply list_elem_of_lookup_2, HD in Hi1 as (n1 & ip1 & E1). destruct S1 as (Sn & _ & Sx & _ & Si). rewrite Sx.
    destruct (ok_entry c OK _ _ _ E1) as [HN _]. assert (Hnn : n1 = n) by congruence. rewrite Hnn in E1. apply (HC n ip1 e1 ip E1). by rewrite <- Si. }
  assert (H2 : ∀ e, entries_of c n !! ip = Some e → ∃ e', offers l n ip e' ∧ ExpirationTime e' = ExpirationTime e).
  { intros e E. assert (He : e ∈ Dump c) by (apply HD; by eauto). apply list_elem_of_lookup in He as [i Hi].
    destruct (Forall2_lookup_r _ _ _ _ _ HL Hi) as (e1 & Hi1 & (Sn & _ & Sx & _ & Si)). exists e1.
    destruct (ok_entry c OK _ _ _ E) as [HN HI]. split; [|done]. split; [by eapply list_elem_of_lookup_2|]. split; [congruence|by rewrite Si]. }
  assert (H0 : ∀ e, entries_of (set_reverse ∅ (set_forward ∅ r)) n !! ip ≠ Some e).
  { intros e. unfold entries_of. cbn. by rewrite lookup_empty. }
  destruct (entries_of r' n !! ip) as [e1|], (entries_of c n !! ip) as [e2|]; cbn in *.
  - destruct HA as [[?|HA] HM]; [by destruct (H0 e1)|]. destruct (H1 e1 HA) as (? & [= <-] & L1). destruct (H2 e2 eq_refl) as (e3 & O3 & X3).
    specialize (HM e3 ltac:(by right)). f_equal. lia.
  - destruct HA as [[?|HA] HM]; [by destruct (H0 e1)|]. by destruct (H1 e1 HA) as (? & ? & _).
  - destruct (H2 e2 eq_refl) as (e3 & O3 & _). destruct (HA e3). by right.
  - done.
Qed.

(** ** Rebuilding names from other caches *)

(** The copies that [partialRestoreFromCache] stores: lookups cut to the known pairs. *)
Definition copy_of (known : Addr → string → Prop) e x : Prop :=
  e_Name x = e_Name e ∧ LookupTime x = LookupTime e ∧ ExpirationTime x = ExpirationTime e ∧
  ∀ ip, ip ∈ e_IPs x ↔ ip ∈ e_IPs e ∧ known ip (e_Name e).

(** The insertions stand for the lookups in [S], and for all of them. *)
Record restores (known : Addr → string → Prop) (S : cacheEntry → Prop) c c' : Prop := {
  rs_list : ∃ l, inserts l c c' ∧ (∀ x, x ∈ l → ∃ e, S e ∧ copy_of known e x) ∧
    (∀ e ip, S e → ip ∈ e_IPs e → known ip (e_Name e) → ∃ x, x ∈ l ∧ copy_of known e x);
}.

Lemma restores_trans known S S' c c' c'' : restores known S c c' → restores known S' c' c'' → restores known (λ e, S e ∨ S' e) c c''.
Proof.
  intros [(l & I & H1 & H2)] [(l' & I' & H1' & H2')]. constructor. exists (l ++ l'). split; [by eapply inserts_trans|].
  setoid_rewrite elem_of_app. split.
  - intros x [H|H]; [destruct (H1 x H) as (e & ? & ?)|destruct (H1' x H) as (e & ? & ?)]; exists e; tauto.
  - intros e ip [H|H] Hi Hk; [destruct (H2 e ip H Hi Hk) as (x & ? & ?)|destruct (H2' e ip H Hi Hk) as (x & ? & ?)]; exists x; tauto.
Qed.

Lemma restores_none known c : restores known (λ _, False) c c.
Proof. constructor. exists []. split; [apply (insert_all_spec [] c)|set_solver]. Qed.

Lemma restores_iff known S S' c c' : (∀ e, S e ↔ S' e) → restores known S c c' → restores known S' c c'.
Proof. intros H [(l & I & H1 & H2)]. constructor. exists l. setoid_rewrite <- H. by eauto. Qed.

Section replace.
Context (old : gmap Addr (list string)).

Definition known_pair ip n : Prop := n ∈ default [] (old !! ip).

Lemma restore_entry_spec e acc : restores known_pair (λ x, x = e) acc.1 (restore_entry old acc e).1.
Proof.
  destruct acc as [c next]. unfold restore_entry. cbn [fst].
  set (ips := filter (λ ip, e_Name e ∈ default [] (old !! ip)) (e_IPs e)).
  assert (HI : ∀ ip, ip ∈ ips ↔ ip ∈ e_IPs e ∧ known_pair ip (e_Name e)).
  { intros ip. unfold ips, known_pair. rewrite list_elem_of_filter. tauto. }
  case_bool_decide as HE; constructor.
  - exists []. split; [apply (insert_all_spec [] c)|]. split; [set_solver|]. intros ? ip -> Hi Hk. rewrite HE in HI.
    by destruct (proj1 (elem_of_nil ip) (proj2 (HI ip) (conj Hi Hk))).
  - eexists [_]. split; [apply insert_one|]. setoid_rewrite list_elem_of_singleton. split.
    + intros x ->. exists e. by split.
    + intros ? ip -> _ _. by eexists.
Qed.

Lemma restore_list_spec l : ∀ acc, restores known_pair (λ x, x ∈ l) acc.1 (foldl (restore_entry old) acc l).1.
Proof.
  induction l as [|e l IH]; intros acc; cbn [foldl].
  - eapply restores_iff; [|apply restores_none]. set_solver.
  - eapply restores_iff; [|eapply restores_trans; [apply (restore_entry_spec e acc)|apply IH]]. set_solver.
Qed.

Lemma partial_spec u names : ∀ acc,
  restores known_pair (λ x, ∃ n ip, n ∈ names ∧ entries_of u n !! ip = Some x) acc.1 (partialRestoreFromCache u names old acc).1.
Proof.
  unfold partialRestoreFromCache. induction names as [|n0 names IH]; intros acc; cbn [foldl].
  { eapply restores_iff; [|apply restores_none]. set_solver. }
  set (acc1 := match forward u !! n0 with None => acc | Some _ => _ end).
  assert (R : restores known_pair (λ x, ∃ ip, entries_of u n0 !! ip = Some x) acc.1 acc1.1).
  { unfold acc1, entries_of. destruct (forward u !! n0) as [es|]; cbn [default].
    - eapply restores_iff; [|apply restore_list_spec]. intros x. cbn. apply elem_of_range_values.
    - eapply restores_iff; [|apply restores_none]. intros x. cbn. setoid_rewrite lookup_empty. naive_solver. }
  eapply restores_iff; [|eapply restores_trans; [exact R|apply IH]]. intros x. cbn beta. setoid_rewrite elem_of_cons. naive_solver.
Qed.

Lemma heap_spec (heap : gmap Z DNSCache) names l : ∀ acc,
  restores known_pair (λ x, ∃ p u n ip, p ∈ l ∧ heap !! p = Some u ∧ n ∈ names ∧ entries_of u n !! ip = Some x) acc.1
    (foldl (λ acc p, match heap !! p with Some update => partialRestoreFromCache update names old acc | None => acc end) acc l).1.
Proof.
  induction l as [|p0 l IH]; intros acc; cbn [foldl].
  { eapply restores_iff; [|apply restores_none]. set_solver. }
  set (acc1 := match heap !! p0 with None => acc | Some _ => _ end).
  assert (R : restores known_pair (λ x, ∃ u n ip, heap !! p0 = Some u ∧ n ∈ names ∧ entries_of u n !! ip = Some x) acc.1 acc1.1).
  { unfold acc1. destruct (heap !! p0) as [u|].
    - eapply restores_iff; [|apply (partial_spec u names acc)]. naive_solver.
    - eapply restores_iff; [|apply restores_none]. naive_solver. }
  eapply restores_iff; [|eapply restores_trans; [exact R|apply IH]]. intros x. cbn beta. setoid_rewrite elem_of_cons. naive_solver.
Qed.
End replace.
End share.

(** What rebuilding the names from the caches at [ps] makes of [c]. *)
Record rebuilt (heap : gmap Z DNSCache) (now : Time) (names : list string) (ps : gset Z) c c' : Prop := {
  rb_known n ip : is_Some (entries_of c' n !! ip) → is_Some (entries_of c n !! ip);
  rb_other n : n ∉ names → entries_of c' n = entries_of c n;
  rb_kept p u n ip ip0 e : p ∈ ps → heap !! p = Some u → n ∈ names → entries_of u n !! ip0 = Some e → ip ∈ e_IPs e →
    is_Some (entries_of c n !! ip) → ∃ e', entries_of c' n !! ip = Some e' ∧ ExpirationTime e ≤ ExpirationTime e';
  rb_from n ip e' : n ∈ names → entries_of c' n !! ip = Some e' →
    (entries_of c n !! ip = Some e' ∧ now ≤ ExpirationTime e' ∧ now ≤ LookupTime e') ∨
    ∃ p u ip0 e, p ∈ ps ∧ heap !! p = Some u ∧ entries_of u n !! ip0 = Some e ∧ ip ∈ e_IPs e ∧
      ExpirationTime e' = ExpirationTime e ∧ LookupTime e' = LookupTime e;
  rb_ok : cache_ok c';
  rb_reset : updated c' = ∅;
}.

Lemma latest_in (S : cacheEntry → Prop) o e : latest S o → o = Some e → S e.
Proof. by intros H ->; destruct H. Qed.

Lemma restored_rebuilt {GR : GoRange} heap now names ps c c1 c2 : cache_ok c → (∀ p u, heap !! p = Some u → cache_ok u) →
  (∀ n ip e, entries_of c1 n !! ip = Some e ↔ entries_of c n !! ip = Some e ∧ ¬ (n ∈ names ∧ expires_by now now e = true)) → cache_ok c1 →
  restores (λ ip n, is_Some (entries_of c n !! ip))
    (λ x, ∃ p u n ip, p ∈ ps ∧ heap !! p = Some u ∧ n ∈ names ∧ entries_of u n !! ip = Some x) c1 c2 →
  rebuilt heap now names ps c (set_updated ∅ c2).
Proof.
  intros OK HH R OK1 [(l & I & H1 & H2)].
  assert (HX : ∀ e, expires_by now now e = true ↔ ¬ (now ≤ ExpirationTime e ∧ now ≤ LookupTime e)).
  { intros e. unfold expires_by, isExpiredBy, time_After, time_Before. rewrite orb_true_iff. lia. }
  assert (HO : ∀ n ip x, offers l n ip x → is_Some (entries_of c n !! ip) ∧ n ∈ names ∧ ∃ p u ip0 e, p ∈ ps ∧ heap !! p = Some u ∧
    entries_of u n !! ip0 = Some e ∧ ip ∈ e_IPs e ∧ ExpirationTime x = ExpirationTime e ∧ LookupTime x = LookupTime e).
  { intros n ip x (Hx & Hn & Hip). destruct (H1 x Hx) as (e & (p & u & n' & ip0 & ? & Hp & ? & E) & (Cn & Cl & Cx & Ci)).
    destruct (ok_entry u (HH p u Hp) _ _ _ E) as [En _]. destruct (proj1 (Ci ip) Hip) as [Hip' Hk]. assert (HNN : n' = n) by congruence.
    rewrite HNN in *. rewrite En in Hk. split; [done|]. split; [done|]. by exists p, u, ip0, e. }
  constructor; change (entries_of (set_updated ∅ c2)) with (entries_of c2).
  - intros n ip [e E]. destruct (latest_in _ _ e (is_at _ _ _ I n ip) E) as [[? _]%R|H]; [by eexists|by apply HO in H as [? _]].
  - intros n Hn. apply map_eq. intros ip. pose proof (is_at _ _ _ I n ip) as HA.
    assert (E1 : entries_of c1 n = entries_of c n) by (apply map_eq; intros a; apply option_eq; intros e; rewrite R; tauto). rewrite E1 in HA.
    destruct (entries_of c2 n !! ip) as [e|].
    + destruct HA as [[?|H] _]; [done|]. by apply HO in H as (_ & ? & _).
    + destruct (entries_of c n !! ip) as [e0|]; [|done]. by destruct (HA e0); left.
  - intros p u n ip ip0 e Hp Hu Hn E Hip Hk. destruct (ok_entry u (HH p u Hu) _ _ _ E) as [En _].
    destruct (H2 e ip ltac:(by exists p, u, n, ip0) Hip ltac:(by rewrite En)) as (x & Hx & (Cn & Cl & Cx & Ci)). rewrite <- Cx.
    apply (latest_above _ _ x (is_at _ _ _ I n ip)). right. split; [done|]. split; [congruence|]. apply Ci. by rewrite En.
  - intros n ip e' Hn E. destruct (latest_in _ _ e' (is_at _ _ _ I n ip) E) as [[? HN]%R|H].
    + left. split; [done|]. destruct (decide (now ≤ ExpirationTime e' ∧ now ≤ LookupTime e')) as [|Hd]; [done|].
      apply HX in Hd. tauto.
    + right. by apply HO in H as (_ & _ & H).
  - apply (entries_same c2); [done|done|]. by apply I.
  - done.
Qed.

(** C28. Rebuilding names of the global cache from the caches of the endpoints, those given and those
    that contributed since the last time: no pair of name and address appears that was not known, the
    other names are untouched, every known pair that one of the caches still has is kept with at least
    its expiration, and what is kept comes from one of the caches, lookups newer than the clock apart. *)
Theorem names_replaced {GR : GoRange} {GS : GoSort} heap now names updates c next : cache_ok c →
  (∀ p u, heap !! p = Some u → cache_ok u) →
  let r := ReplaceFromCacheByNames heap now names updates (c, next) in
  rebuilt heap now names (list_to_set updates ∪ updated c) c r.1.1 ∧ r.2 = getIPs c.
Proof.
  intros OK HH. cbn zeta. unfold ReplaceFromCacheByNames. set (c0 := set_updated _ c).
  assert (OK0 : cache_ok c0) by by apply (entries_same c).
  pose proof (forceByNames_spec now names c0 OK0) as R. set (c1 := forceExpireByNames now names c0) in *.
  pose proof (heap_spec (getIPs c0) heap names (range (updated c1)) (c1, next)) as S.
  destruct (foldl _ (c1, next) (range (updated c1))) as [c2 next2]. cbn [fst snd] in *. split; [|done].
  apply (restored_rebuilt heap now names _ c c1 c2); [done|done|apply R|by apply R|].
  destruct S as [(l & I & H1 & H2)]. constructor. exists l. split; [done|].
  assert (HK : ∀ ip n, known_pair (getIPs c0) ip n ↔ is_Some (entries_of c n !! ip)) by (intros ip n; by apply (getIPs_spec c0)).
  assert (HC : ∀ e x, copy_of (known_pair (getIPs c0)) e x ↔ copy_of (λ ip n, is_Some (entries_of c n !! ip)) e x).
  { intros e x. unfold copy_of. setoid_rewrite HK. done. }
  assert (HP : ∀ p, p ∈ range (updated c1) ↔ p ∈ list_to_set updates ∪ updated c).
  { intros p. rewrite elem_of_range, (rm_updated _ _ _ R). done. }
  setoid_rewrite <- HC. setoid_rewrite <- HK. setoid_rewrite <- HP. by split.
Qed.

(** C29. Dumping a cache and restoring the dump into any cache gives a cache with the same answers at
    every time: after any history of updates, merges, collections and restores without a limit of
    addresses per name and without forced expiry. *)
Theorem dns_restore_roundtrip {GR : GoRange} {GS : GoSort} minT ops :
  Forall (op_ok minT) ops → Forall (λ op, is_force op = false) ops →
  ∃ c, dns_run ops (NewDNSCache minT) = Some c ∧
    ∀ l r, one_per_ptr (lookups_of c) → Forall2 same_lookup l (Dump c) →
      ∀ now n ip, (ip ∈ lookupByTime now n (cache_restore l r) ↔ ip ∈ lookupByTime now n c) ∧
        (n ∈ lookupIPByTime now ip (cache_restore l r) ↔ n ∈ lookupIPByTime now ip c).
Proof.
  intros HO HF. destruct (run_complete minT ops HO HF (NewDNSCache minT) (new_inv minT 0)) as (c & E & V & HC).
  { intros n ip e ip' H. unfold entries_of in H. cbn in H. by rewrite lookup_empty in H. }
  exists c. split; [done|]. intros l r HP HL now n ip.
  pose proof (restored_expirations c l r (ci_ok _ _ _ V) HC HP HL) as HX.
  assert (HS : ∀ m a, (∃ e, entries_of (cache_restore l r) m !! a = Some e ∧ now ≤ ExpirationTime e) ↔
    (∃ e, entries_of c m !! a = Some e ∧ now ≤ ExpirationTime e)).
  { intros m a. specialize (HX m a). destruct (entries_of (cache_restore l r) m !! a), (entries_of c m !! a); cbn in HX; try done.
    injection HX as HX. split; intros (? & [= <-] & ?); eexists; (split; [done|lia]). }
  assert (OKr : cache_ok (cache_restore l r)).
  { apply (insert_all_spec l (set_reverse ∅ (set_forward ∅ r))). constructor; [|done|done].
    intros m a e. unfold entries_of. cbn. by rewrite lookup_empty. }
  split; [rewrite !lookup_by_time|rewrite !lookup_ip_by_time by (done || apply V); apply HS].
  split; intros (a & e & ? & ? & ->); [destruct (proj1 (HS n a)) as (e' & ? & ?)|destruct (proj2 (HS n a)) as (e' & ? & ?)];
    [by exists e|by exists a, e'|by exists e|by exists a, e'].
Qed.

Module Examples.
#[local] Existing Instance range_elements.
#[local] Existing Instance sort_merge.

Definition addr (n : Z) : Addr := V4 n.

Definition merged_history : list dns_op :=
  [DUpdate 1 (100 * second) "cilium.io" [addr 1; addr 2] 10 []; DUpdate 2 (105 * second) "cilium.io" [addr 2; addr 3] 60 [];
   DCollect (112 * second) None].

Lemma same_lookups (l : list cacheEntry) : Forall2 same_lookup l l.
Proof. induction l; constructor; [by repeat split|done]. Qed.

Definition restored_lookup : option (list Addr) :=
  match dns_run merged_history (NewDNSCache 0) with
  | Some c => Some (lookupByTime (112 * second) "cilium.io" (cache_restore (Dump c) (NewDNSCache 0)))
  | None => None
  end.

Lemma dns_restore_roundtrip_witness : restored_lookup = Some [addr 3; addr 2] ∧
  ∃ c, dns_run merged_history (NewDNSCache 0) = Some c ∧ one_per_ptr (lookups_of c) ∧
    ∀ now n ip, ip ∈ lookupByTime now n (cache_restore (Dump c) (NewDNSCache 0)) ↔ ip ∈ lookupByTime now n c.
Proof.
  split; [vm_compute; reflexivity|].
  assert (HO : Forall (op_ok 0) merged_history) by (repeat constructor; vm_compute; (lia || discriminate || done)).
  destruct (dns_restore_roundtrip 0 merged_history HO ltac:(repeat constructor)) as (c & E & H). exists c. split; [done|].
  assert (HL : lookups_of <$> dns_run merged_history (NewDNSCache 0) =
    Some (replicate 2 (update_entry 0 2 (105 * second) "cilium.io" [addr 2; addr 3] 60))) by (vm_compute; reflexivity).
  rewrite E in HL. apply (inj Some) in HL.
  assert (HP : one_per_ptr (lookups_of c)).
  { rewrite HL. intros e e' ->%elem_of_replicate_inv ->%elem_of_replicate_inv. done. }
  split; [done|]. intros now n ip. apply H; [done|]. apply same_lookups.
Defined.

(** The surplus of a name that the collection evicted returns with a restore: a lookup that stays
    lists it. *)
Definition evicting_history : list dns_op :=
  [DUpdate 1 (100 * second) "cilium.io" [addr 1; addr 2] 50 []; DCollect (110 * second) None].

Definition restored_answers : option (list Addr * list Addr) :=
  match dns_run evicting_history (NewDNSCacheWithLimit 0 1) with
  | Some c => Some (lookupByTime (111 * second) "cilium.io" c,
                    lookupByTime (111 * second) "cilium.io" (cache_restore (Dump c) (NewDNSCacheWithLimit 0 1)))
  | None => None
  end.

Lemma restore_resurrects : restored_answers = Some ([addr 1], [addr 2; addr 1]).
Proof. vm_compute. reflexivity. Qed.

(** The global cache knows one address of the name; an endpoint has two. *)
Definition global_cache : DNSCache := (Update 1 (100 * second) "cilium.io" [addr 1; addr 4] 10 [] (NewDNSCache 0)).1.
Definition endpoint_cache : DNSCache := (Update 2 (105 * second) "cilium.io" [addr 1; addr 2] 60 [] (NewDNSCache 0)).1.
Definition endpoint_heap : gmap Z DNSCache := {[7 := endpoint_cache]}.

Definition replaced_cache : DNSCache :=
  (ReplaceFromCacheByNames endpoint_heap (120 * second) ["cilium.io"%string] [7] (global_cache, 10)).1.1.

Lemma names_replaced_witness :
  rebuilt endpoint_heap (120 * second) ["cilium.io"%string] {[7]} global_cache replaced_cache ∧
  dom (entries_of replaced_cache "cilium.io") = {[addr 1]}.
Proof.
  split; [|vm_compute; reflexivity].
  assert (HN : cache_ok (NewDNSCache 0)) by apply (new_cache_ok 0 0).
  destruct (names_replaced endpoint_heap (120 * second) ["cilium.io"%string] [7] global_cache 10) as [H _].
  - unfold global_cache, Update. apply updateWithEntry_spec. exact HN.
  - intros p u H. unfold endpoint_heap in H. apply lookup_singleton_Some in H as [_ <-]. unfold endpoint_cache, Update. apply updateWithEntry_spec. exact HN.
  - exact H.
Defined.
End Examples.
