(* ===== verification/LocalIdentity.v ===== *)
(** * The allocator of local identities

    Model of [localIdentityCache] of [src/pkg/identity/cache/local.go]: numeric identities for sets
    of labels, of one scope, allocated and counted on this node.  The two maps of the cache point to
    the same identities; observers are told of every identity that appears or goes. *)

From S2P Require Import Prelude Identity Labels GoLib.

Local Open Scope Z_scope.

Record Identity := mkIdentity {
  ID : Z;
  id_Labels : Labels;
  id_LabelArray : LabelArray;
  ReferenceCount : Z;
}.

Inductive IdentityChange :=
| IdentityChangeUpsert (nid : Z) (lbls : Labels)
| IdentityChangeDelete (nid : Z)
| IdentityChangeSync.

(** [identities] holds the identities by their addresses, [new_ptr] is the next address; [emitted]
    are the changes passed to [emitChange]. *)
Record localIdentityCache := mkLocal {
  identities : gmap Z Identity;
  new_ptr : Z;
  identitiesByID : gmap Z Z;
  identitiesByLabels : gmap string Z;
  nextNumericIdentity : Z;
  scope : Z;
  minID : Z;
  maxID : Z;
  withheldIdentities : gset Z;
  emitted : list IdentityChange;
}.

Definition newLocalIdentityCache (scope minID maxID : Z) : localIdentityCache := mkLocal ∅ 0 ∅ ∅ minID scope minID maxID ∅ [].

Definition set_identities h ptr ids lbls ems (l : localIdentityCache) : localIdentityCache :=
  mkLocal h ptr ids lbls (nextNumericIdentity l) (scope l) (minID l) (maxID l) (withheldIdentities l) ems.
Definition set_next n (l : localIdentityCache) : localIdentityCache :=
  mkLocal (identities l) (new_ptr l) (identitiesByID l) (identitiesByLabels l) n (scope l) (minID l) (maxID l) (withheldIdentities l) (emitted l).
Definition set_withheld w (l : localIdentityCache) : localIdentityCache :=
  mkLocal (identities l) (new_ptr l) (identitiesByID l) (identitiesByLabels l) (nextNumericIdentity l) (scope l) (minID l) (maxID l) w (emitted l).

Section local.
Context {GR : GoRange} {GS : GoSort}.
Implicit Types (l : localIdentityCache) (nid : Z) (lbls : Labels).

(** ** Allocation *)

Definition taken l nid : bool := bool_decide (is_Some (identitiesByID l !! nid)).
Definition withheld l nid : bool := bool_decide (nid ∈ withheldIdentities l).

Definition bumpNextNumericIdentity l : localIdentityCache :=
  set_next (if nextNumericIdentity l =? maxID l then minID l else uwrap 32 (nextNumericIdentity l + 1)) l.

(** The first withheld identity that is not taken. *)
Fixpoint claim_withheld l (ids : list Z) : localIdentityCache * option Z :=
  match ids with
  | [] => (l, None)
  | nid :: ids => if taken l nid then claim_withheld l ids else (set_withheld (withheldIdentities l ∖ {[nid]}) l, Some nid)
  end.

(** The outer [None] is lack of fuel, the inner one the error. *)
Fixpoint search_loop (fuel : nat) (firstID : Z) l : option (localIdentityCache * option Z) :=
  match fuel with
  | O => None
  | S fuel =>
      let idCandidate := Z.lor (nextNumericIdentity l) (scope l) in
      let l' := bumpNextNumericIdentity l in
      if negb (taken l idCandidate) && negb (withheld l idCandidate) then Some (l', Some idCandidate)
      else if nextNumericIdentity l' =? firstID then Some (claim_withheld l' (range (withheldIdentities l')))
      else search_loop fuel firstID l'
  end.

(** As many rounds as there are numbers. *)
Definition search_fuel l : nat := Z.to_nat (maxID l - minID l + 1).

Definition getNextFreeNumericIdentity (idCandidate : Z) l : option (localIdentityCache * option Z) :=
  if (Scope idCandidate =? scope l) && negb (taken l idCandidate) then Some (l, Some idCandidate)
  else search_loop (search_fuel l) (nextNumericIdentity l) l.

(** The identity is returned by its address; the flag tells whether it is new. *)
Definition lookupOrCreate lbls (oldNID : Z) l : option (localIdentityCache * option (Z * bool)) :=
  let repr := SortedList lbls in
  match identitiesByLabels l !! repr with
  | Some p =>
      Some (set_identities
        (alter (λ id, mkIdentity (ID id) (id_Labels id) (id_LabelArray id) (signed64 (ReferenceCount id + 1))) p (identities l))
        (new_ptr l) (identitiesByID l) (identitiesByLabels l) (emitted l) l, Some (p, false))
  | None =>
      match getNextFreeNumericIdentity oldNID l with
      | None => None
      | Some (l, None) => Some (l, None)
      | Some (l, Some nid) =>
          let p := new_ptr l in
          Some (set_identities (<[p := mkIdentity nid lbls (Labels_LabelArray lbls) 1]> (identities l)) (p + 1)
            (<[nid := p]> (identitiesByID l)) (<[repr := p]> (identitiesByLabels l))
            (emitted l ++ [IdentityChangeUpsert nid lbls]) l, Some (p, true))
      end
  end.

(** [nid] is the [ID] of the identity passed in. *)
Definition release nid l : localIdentityCache * bool :=
  match identitiesByID l !! nid with
  | None => (l, false)
  | Some p =>
      match identities l !! p with
      | None => (l, false)
      | Some id =>
          if 1 <? ReferenceCount id then
            (set_identities
              (<[p := mkIdentity (ID id) (id_Labels id) (id_LabelArray id) (ReferenceCount id - 1)]> (identities l))
              (new_ptr l) (identitiesByID l) (identitiesByLabels l) (emitted l) l, false)
          else if ReferenceCount id =? 1 then
            (set_identities (identities l) (new_ptr l) (delete (ID id) (identitiesByID l))
              (delete (SortedList (id_Labels id)) (identitiesByLabels l)) (emitted l ++ [IdentityChangeDelete (ID id)]) l, true)
          else (l, false)
      end
  end.

(** ** Withheld identities *)

Definition withhold (nids : list Z) l : localIdentityCache * list Z :=
  foldl (λ '(l, unused) nid,
    if Scope nid =? scope l then (set_withheld ({[nid]} ∪ withheldIdentities l) l, unused) else (l, unused ++ [nid])) (l, []) nids.

Definition unwithhold (nids : list Z) l : localIdentityCache :=
  foldl (λ l nid, if Scope nid =? scope l then set_withheld (withheldIdentities l ∖ {[nid]}) l else l) l nids.

(** ** Reading *)

Definition local_lookup lbls l : option Identity := identitiesByLabels l !! SortedList lbls ≫= (identities l !!.).
Definition lookupByID nid l : option Identity := identitiesByID l !! nid ≫= (identities l !!.).
Definition GetIdentities l : gmap Z Identity := omap (identities l !!.) (identitiesByID l).
Definition checkpoint (dst : list Identity) l : list Identity := dst ++ range_values (GetIdentities l).
Definition local_size l : Z := Z.of_nat (size (identitiesByID l)).

(** What an observer is sent on subscribing; the changes emitted later follow. *)
Definition Observe l : list IdentityChange :=
  omap (λ nid, (λ id, IdentityChangeUpsert nid (id_Labels id)) <$> lookupByID nid l) (range (dom (identitiesByID l))) ++ [IdentityChangeSync].
End local.
