(* ===== verification/LocalIdentityHistory.v ===== *)
(** * Histories of local identities

    The invariant of [localIdentityCache] of [src/pkg/identity/cache/local.go], the search for a free
    number, and the abstract allocator that every history follows. *)

From S2P Require Import Prelude Identity Labels GoLib LocalIdentity.

Local Open Scope Z_scope.

Implicit Types (l : localIdentityCache) (nid p : Z) (lbls : Labels) (o : Identity).

(** ** Numbers of a scope *)

(** The numbers that the allocator counts through. *)
Record numbers_ok l : Prop := {
  no_min : 0 ≤ minID l ≤ nextNumericIdentity l;
  no_max : nextNumericIdentity l ≤ maxID l < 2 ^ 24;
  no_scope : is_uint 32 (scope l) ∧ Scope (scope l) = scope l;
}.

Lemma Scope_number i s : 0 ≤ i < 2 ^ 24 → Scope s = s → Scope (Z.lor i s) = s.
Proof.
  intros Hi Hs. unfold Scope in *. rewrite Z.land_lor_distr_l, Hs. replace (Z.land i IdentityScopeMask) with 0; [done|].
  symmetry. change (Scope i = 0). rewrite Scope_eq by (unfold is_uint; lia). rewrite Z.div_small by lia. done.
Qed.

Definition count l : Z := maxID l - minID l + 1.

(** The number [k] steps ahead. *)
Definition ahead l (k : Z) : Z := minID l + (nextNumericIdentity l - minID l + k) mod count l.

Lemma count_pos l : numbers_ok l → 0 < count l.
Proof. intros [? ? _]. unfold count. lia. Qed.

Lemma ahead_0 l : numbers_ok l → ahead l 0 = nextNumericIdentity l.
Proof. intros [? ? _]. unfold ahead, count. rewrite Z.add_0_r, Z.mod_small; lia. Qed.

Lemma ahead_range l k : numbers_ok l → minID l ≤ ahead l k ≤ maxID l.
Proof. intros B. pose proof (Z.mod_pos_bound (nextNumericIdentity l - minID l + k) (count l) (count_pos l B)). unfold ahead, count in *. lia. Qed.

Lemma ahead_count l : numbers_ok l → ahead l (count l) = nextNumericIdentity l.
Proof.
  intros B. rewrite <- (ahead_0 l B). unfold ahead. f_equal. rewrite Z.add_0_r.
  rewrite <- (Z.mul_1_l (count l)) at 1. by rewrite Z_mod_plus_full.
Qed.

Lemma ahead_other l k : numbers_ok l → 0 < k < count l → ahead l k ≠ nextNumericIdentity l.
Proof.
  intros B Hk E. rewrite <- (ahead_0 l B) in E. unfold ahead in E. rewrite Z.add_0_r in E. destruct B as [H1 H2 _].
  assert (E' : (nextNumericIdentity l - minID l + k) mod count l = (nextNumericIdentity l - minID l) mod count l) by lia. clear E.
  rewrite (Z.mod_small (nextNumericIdentity l - minID l)) in E' by (unfold count; lia).
  set (a := nextNumericIdentity l - minID l) in *. pose proof (Z.div_mod (a + k) (count l) ltac:(lia)) as HD. rewrite E' in HD.
  assert (HQ : k = count l * ((a + k) / count l)) by lia. destruct (decide ((a + k) / count l ≤ 0)); [nia|].
  assert (1 ≤ (a + k) / count l) by lia. nia.
Qed.

Lemma ahead_all l i : numbers_ok l → minID l ≤ i ≤ maxID l → ∃ k, 0 ≤ k < count l ∧ ahead l k = i.
Proof.
  intros B Hi. destruct B as [H1 H2 _]. unfold ahead. set (a := nextNumericIdentity l - minID l) in *.
  destruct (decide (nextNumericIdentity l ≤ i)).
  - exists (i - nextNumericIdentity l). unfold count. split; [lia|]. rewrite Z.mod_small; lia.
  - exists (i - nextNumericIdentity l + count l). unfold count in *. split; [lia|].
    replace (a + (i - nextNumericIdentity l + (maxID l - minID l + 1))) with (i - minID l + 1 * (maxID l - minID l + 1)) by lia.
    rewrite Z_mod_plus_full, Z.mod_small; lia.
Qed.

Lemma bump_next l : numbers_ok l → nextNumericIdentity (bumpNextNumericIdentity l) = ahead l 1.
Proof.
  intros B. destruct (B) as [H1 H2 _]. unfold bumpNextNumericIdentity. cbn. unfold ahead, count.
  destruct (Z.eqb_spec (nextNumericIdentity l) (maxID l)) as [E|E].
  - rewrite E. replace (maxID l - minID l + 1) with (1 * (maxID l - minID l + 1)) at 1 by lia. rewrite Z_mod_mult. lia.
  - rewrite Z.mod_small by lia. rewrite uwrap_small; [lia|]. unfold is_uint. lia.
Qed.

Lemma bump_ok l : numbers_ok l → numbers_ok (bumpNextNumericIdentity l).
Proof.
  intros B. pose proof (bump_next l B) as E. pose proof (ahead_range l 1 B) as HR. destruct (B) as [H1 H2 H3].
  constructor; [rewrite E|rewrite E|done]; cbn; lia.
Qed.

Lemma bump_ahead l k : numbers_ok l → ahead (bumpNextNumericIdentity l) k = ahead l (k + 1).
Proof.
  intros B. unfold ahead. rewrite (bump_next l B). change (minID (bumpNextNumericIdentity l)) with (minID l).
  change (count (bumpNextNumericIdentity l)) with (count l). unfold ahead. f_equal.
  replace (minID l + (nextNumericIdentity l - minID l + 1) mod count l - minID l + k)
    with ((nextNumericIdentity l - minID l + 1) mod count l + k) by lia.
  pose proof (count_pos l B). rewrite Zplus_mod_idemp_l. f_equal. lia.
Qed.

(** ** The search for a free number *)

(** Only the position and the withheld identities differ. *)
Record same_maps l l' : Prop := {
  sm_identities : identities l' = identities l;
  sm_ptr : new_ptr l' = new_ptr l;
  sm_ids : identitiesByID l' = identitiesByID l;
  sm_labels : identitiesByLabels l' = identitiesByLabels l;
  sm_scope : scope l' = scope l;
  sm_min : minID l' = minID l;
  sm_max : maxID l' = maxID l;
  sm_emitted : emitted l' = emitted l;
}.

Lemma same_maps_trans l1 l2 l3 : same_maps l1 l2 → same_maps l2 l3 → same_maps l1 l3.
Proof. intros [] []. constructor; congruence. Qed.

Lemma bump_same l : same_maps l (bumpNextNumericIdentity l).
Proof. by constructor. Qed.

Lemma taken_same l l' nid : same_maps l l' → taken l' nid = taken l nid.
Proof. intros S. unfold taken. by rewrite (sm_ids _ _ S). Qed.

Definition free l nid : Prop := taken l nid = false ∧ withheld l nid = false.

Lemma free_bool l nid : negb (taken l nid) && negb (withheld l nid) = true ↔ free l nid.
Proof. unfold free. destruct (taken l nid), (withheld l nid); cbn; naive_solver. Qed.

Lemma claim_spec l ids : let r := claim_withheld l ids in
  (∃ nid, nid ∈ ids ∧ taken l nid = false ∧ r = (set_withheld (withheldIdentities l ∖ {[nid]}) l, Some nid)) ∨
  (∀ nid, nid ∈ ids → taken l nid = true) ∧ r = (l, None).
Proof.
  cbn zeta. induction ids as [|nid ids IH]; cbn [claim_withheld]; [right; set_solver|]. destruct (taken l nid) eqn:E.
  - destruct IH as [(n & Hn & ? & ->)|[H ->]]; [left; exists n; split; [by right|done]|right; split; [|done]].
    intros n [->|Hn]%elem_of_cons; [done|by apply H].
  - left. exists nid. split; [by left|done].
Qed.

(** The outcomes of a search over the numbers [d] steps ahead. *)
Inductive search_result l (d : Z) : localIdentityCache → option Z → Prop :=
| found_free l' k : same_maps l l' → numbers_ok l' → withheldIdentities l' = withheldIdentities l → 0 ≤ k < d →
    free l (Z.lor (ahead l k) (scope l)) → search_result l d l' (Some (Z.lor (ahead l k) (scope l)))
| found_withheld l' nid : same_maps l l' → numbers_ok l' → (∀ k, 0 ≤ k < d → ¬ free l (Z.lor (ahead l k) (scope l))) →
    nid ∈ withheldIdentities l → taken l nid = false → withheldIdentities l' = withheldIdentities l ∖ {[nid]} → search_result l d l' (Some nid)
| found_none l' : same_maps l l' → numbers_ok l' → withheldIdentities l' = withheldIdentities l →
    (∀ k, 0 ≤ k < d → ¬ free l (Z.lor (ahead l k) (scope l))) → (∀ nid, nid ∈ withheldIdentities l → taken l nid = true) →
    search_result l d l' None.

Section search.
Context {GR : GoRange}.

Lemma search_spec fuel first : ∀ l d, numbers_ok l → 1 ≤ d ≤ Z.of_nat fuel → ahead l d = first →
  (∀ k, 0 < k < d → ahead l k ≠ first) →
  ∃ l' r, search_loop fuel first l = Some (l', r) ∧ search_result l d l' r.
Proof.
  induction fuel as [|fuel IH]; intros l d B Hd HF HN; [lia|]. cbn [search_loop].
  assert (HA0 : Z.lor (nextNumericIdentity l) (scope l) = Z.lor (ahead l 0) (scope l)) by by rewrite ahead_0. rewrite HA0.
  pose proof (bump_same l) as S. pose proof (bump_ok l B) as B'. set (l1 := bumpNextNumericIdentity l) in *.
  destruct (negb (taken l _) && negb (withheld l _)) eqn:E.
  { apply free_bool in E. eexists _, _. split; [done|]. by apply (found_free l d l1 0); [..|lia|]. }
  assert (HE : ¬ free l (Z.lor (ahead l 0) (scope l))) by (intros H%free_bool; congruence). clear E.
  unfold l1 at 1. rewrite (bump_next l B). fold l1. destruct (Z.eqb_spec (ahead l 1) first) as [E1|E1].
  - assert (d = 1) as -> by (destruct (decide (d = 1)); [done|]; by destruct (HN 1); [lia|]).
    assert (HD : ∀ k, 0 ≤ k < 1 → ¬ free l (Z.lor (ahead l k) (scope l))) by (intros k Hk; by replace k with 0 by lia).
    destruct (claim_spec l1 (range (withheldIdentities l1))) as [(nid & Hn & Ht & ->)|[H ->]]; eexists _, _; (split; [done|]).
    + apply (found_withheld l 1 _ nid); [by constructor|by constructor; apply B'|done|by apply elem_of_range in Hn| |done].
      by rewrite (taken_same l l1 nid S) in Ht.
    + apply found_none; [done|done|done|done|]. intros nid Hn. rewrite <- (taken_same l l1 nid S). by apply H, elem_of_range.
  - assert (Hd1 : d ≠ 1) by (intros ->; done).
    destruct (IH l1 (d - 1)) as (l' & r & -> & HR); [done|lia|unfold l1; rewrite bump_ahead by done; by replace (d - 1 + 1) with d by lia| |].
    { intros k Hk. unfold l1. rewrite bump_ahead by done. apply HN. lia. }
    exists l', r. split; [done|].
    assert (HA : ∀ k, Z.lor (ahead l1 k) (scope l1) = Z.lor (ahead l (k + 1)) (scope l)) by (intros k; unfold l1; by rewrite bump_ahead).
    assert (HA' : ∀ nid, free l1 nid ↔ free l nid) by done.
    assert (HL : (∀ k, 0 ≤ k < d - 1 → ¬ free l1 (Z.lor (ahead l1 k) (scope l1))) → ∀ k, 0 ≤ k < d → ¬ free l (Z.lor (ahead l k) (scope l))).
    { intros H k Hk. destruct (decide (k = 0)) as [->|]; [done|]. specialize (H (k - 1) ltac:(lia)). rewrite HA in H.
      by replace (k - 1 + 1) with k in H by lia. }
    destruct HR as [l' k S' B'' HW Hk Hfr|l' nid S' B'' Hall Hn Ht HW|l' S' B'' HW Hall Hw].
    + rewrite HA in Hfr |- *. apply (found_free l d l' (k + 1)); [by eapply same_maps_trans|done|done|lia|done].
    + apply (found_withheld l d l' nid); [by eapply same_maps_trans|done|by apply HL|done|done|done].
    + apply found_none; [by eapply same_maps_trans|done|done|by apply HL|done].
Qed.

(** The allocation: the number asked for if it can be had, else a free number of the range, else a
    withheld one, and an error only when all are in use. *)
Record allocation l (old : Z) l' (r : option Z) : Prop := {
  al_same : same_maps l l';
  al_numbers : numbers_ok l';
  al_old : Scope old = scope l → taken l old = false → r = Some old ∧ l' = l;
  al_new nid : r = Some nid → taken l nid = false;
  al_search nid : ¬ (Scope old = scope l ∧ taken l old = false) → r = Some nid →
    (∃ i, minID l ≤ i ≤ maxID l ∧ nid = Z.lor i (scope l) ∧ withheld l nid = false ∧ withheldIdentities l' = withheldIdentities l) ∨
    (∀ i, minID l ≤ i ≤ maxID l → ¬ free l (Z.lor i (scope l))) ∧ nid ∈ withheldIdentities l ∧
      withheldIdentities l' = withheldIdentities l ∖ {[nid]};
  al_error : r = None → withheldIdentities l' = withheldIdentities l ∧
    (∀ i, minID l ≤ i ≤ maxID l → taken l (Z.lor i (scope l)) = true) ∧ (∀ nid, nid ∈ withheldIdentities l → taken l nid = true);
}.

Lemma getNextFree_spec old l : numbers_ok l → ∃ l' r, getNextFreeNumericIdentity old l = Some (l', r) ∧ allocation l old l' r.
Proof.
  intros B. unfold getNextFreeNumericIdentity.
  destruct ((Scope old =? scope l) && negb (taken l old)) eqn:E.
  { apply andb_true_iff in E as [E1%Z.eqb_eq E2%negb_true_iff]. exists l, (Some old). split; [done|].
    constructor; [by constructor|done|done|by intros ? [= <-]|intros nid H; by destruct H|done]. }
  assert (HO : ¬ (Scope old = scope l ∧ taken l old = false)).
  { intros [E1 E2]. by rewrite E1, E2, Z.eqb_refl in E. }
  pose proof (count_pos l B) as HC.
  destruct (search_spec (search_fuel l) (nextNumericIdentity l) l (count l)) as (l' & r & -> & HR);
    [done|unfold search_fuel; fold (count l); lia|by apply ahead_count|intros k Hk; by apply ahead_other|].
  exists l', r. split; [done|].
  assert (HA : (∀ k, 0 ≤ k < count l → ¬ free l (Z.lor (ahead l k) (scope l))) → ∀ i, minID l ≤ i ≤ maxID l → ¬ free l (Z.lor i (scope l))).
  { intros H i Hi. destruct (ahead_all l i B Hi) as (k & Hk & <-). by apply H. }
  destruct HR as [l' k S B' HW Hk Hfr|l' nid S B' Hall Hn Ht HW|l' S B' HW Hall Hw].
  - constructor; [done|done|tauto| |intros nid _ [= <-]; left|done].
    + intros nid [= <-]. apply Hfr.
    + exists (ahead l k). split; [by apply ahead_range|]. split; [done|]. split; [apply Hfr|done].
  - constructor; [done|done|tauto|by intros ? [= <-]|intros ? _ [= <-]; right; by auto|done].
  - constructor; [done|done|tauto|done|done|]. intros _. split; [done|]. split; [|done]. intros i Hi.
    specialize (HA Hall i Hi). unfold free in HA. destruct (taken l (Z.lor i (scope l))) eqn:ET; [done|].
    destruct (withheld l (Z.lor i (scope l))) eqn:EW; [|tauto]. apply bool_decide_eq_true in EW. rewrite (Hw _ EW) in ET. done.
Qed.
End search.

(** * Histories of the allocator of local identities *)

(** ** The table *)

Record holding := mkHolding { h_nid : Z; h_labels : Labels; h_count : Z }.

Definition in_use (A : gmap string holding) nid : Prop := ∃ r h, A !! r = Some h ∧ h_nid h = nid.

Section spec.
Context {GR : GoRange} {GS : GoSort} (sc mn mx : Z).
Implicit Types (A : gmap string holding) (W : gset Z).

(** The number of new labels: the one asked for if it can be had, else one of the range that is not
    withheld, else a withheld one. *)
Definition usable (old : Z) A : Prop := Scope old = sc ∧ ¬ in_use A old.

Definition spec_number (old : Z) A W nid W' : Prop :=
  ¬ in_use A nid ∧ Scope nid = sc ∧ (usable old A → nid = old ∧ W' = W) ∧
  (¬ usable old A →
    (∃ i, mn ≤ i ≤ mx ∧ nid = Z.lor i sc ∧ nid ∉ W ∧ W' = W) ∨
    (∀ i, mn ≤ i ≤ mx → in_use A (Z.lor i sc) ∨ Z.lor i sc ∈ W) ∧ nid ∈ W ∧ W' = W ∖ {[nid]}).

Definition exhausted A : Prop := ∀ i, mn ≤ i ≤ mx → in_use A (Z.lor i sc).

Definition spec_acquire lbls (old : Z) A W A' W' : Prop :=
  match A !! SortedList lbls with
  | Some h => A' = <[SortedList lbls := mkHolding (h_nid h) (h_labels h) (h_count h + 1)]> A ∧ W' = W
  | None =>
      (∃ nid, spec_number old A W nid W' ∧ A' = <[SortedList lbls := mkHolding nid lbls 1]> A) ∨
      exhausted A ∧ (∀ nid, nid ∈ W → in_use A nid) ∧ A' = A ∧ W' = W
  end.

Definition spec_release nid A A' : Prop :=
  (∃ r h, A !! r = Some h ∧ h_nid h = nid ∧
    A' = if h_count h =? 1 then delete r A else <[r := mkHolding (h_nid h) (h_labels h) (h_count h - 1)]> A) ∨
  ¬ in_use A nid ∧ A' = A.

Inductive local_op :=
| LAcquire (lbls : Labels) (old : Z)
| LRelease (nid : Z)
| LWithhold (nids : list Z)
| LUnwithhold (nids : list Z).

Definition in_scope (nids : list Z) : gset Z := list_to_set (filter (λ nid, Scope nid = sc) nids).

Definition spec_step (op : local_op) A W A' W' : Prop :=
  match op with
  | LAcquire lbls old => spec_acquire lbls old A W A' W'
  | LRelease nid => spec_release nid A A' ∧ W' = W
  | LWithhold nids => A' = A ∧ W' = W ∪ in_scope nids
  | LUnwithhold nids => A' = A ∧ W' = W ∖ in_scope nids
  end.

Inductive spec_run : list local_op → gmap string holding → gset Z → gmap string holding → gset Z → Prop :=
| run_done A W : spec_run [] A W A W
| run_next op ops A W A1 W1 A' W' : spec_step op A W A1 W1 → spec_run ops A1 W1 A' W' → spec_run (op :: ops) A W A' W'.

Definition local_step (op : local_op) l : option localIdentityCache :=
  match op with
  | LAcquire lbls old => fst <$> lookupOrCreate lbls old l
  | LRelease nid => Some (release nid l).1
  | LWithhold nids => Some (withhold nids l).1
  | LUnwithhold nids => Some (unwithhold nids l)
  end.

Definition local_run (ops : list local_op) l : option localIdentityCache := foldl (λ r op, r ≫= local_step op) (Some l) ops.

(** ** The invariant *)

(** The counters are at most [N]. *)
Record local_ok (N : Z) l : Prop := {
  lk_numbers : numbers_ok l;
  lk_range : scope l = sc ∧ minID l = mn ∧ maxID l = mx;
  lk_byID nid p : identitiesByID l !! nid = Some p →
    ∃ o, identities l !! p = Some o ∧ ID o = nid ∧ identitiesByLabels l !! SortedList (id_Labels o) = Some p;
  lk_byLabels r p : identitiesByLabels l !! r = Some p →
    ∃ o, identities l !! p = Some o ∧ SortedList (id_Labels o) = r ∧ identitiesByID l !! ID o = Some p ∧
      1 ≤ ReferenceCount o ≤ N ∧ Scope (ID o) = sc;
  lk_fresh p o : identities l !! p = Some o → p < new_ptr l;
  lk_withheld nid : nid ∈ withheldIdentities l → Scope nid = sc;
}.

Definition to_holding o : holding := mkHolding (ID o) (id_Labels o) (ReferenceCount o).

Definition view l : gmap string holding := omap (λ p, to_holding <$> identities l !! p) (identitiesByLabels l).

Lemma view_lookup l r h : view l !! r = Some h ↔ ∃ p o, identitiesByLabels l !! r = Some p ∧ identities l !! p = Some o ∧ h = to_holding o.
Proof.
  unfold view. rewrite lookup_omap. destruct (identitiesByLabels l !! r) as [p|]; cbn; [|naive_solver].
  rewrite fmap_Some. naive_solver.
Qed.

Lemma view_none N l r : local_ok N l → view l !! r = None ↔ identitiesByLabels l !! r = None.
Proof.
  intros K. unfold view. rewrite lookup_omap. destruct (identitiesByLabels l !! r) as [p|] eqn:E; cbn; [|done].
  apply (lk_byLabels N l K) in E as (o & -> & _). done.
Qed.

Lemma taken_in_use N l nid : local_ok N l → taken l nid = true ↔ in_use (view l) nid.
Proof.
  intros K. unfold taken. rewrite bool_decide_eq_true. split.
  - intros [p Hp]. apply (lk_byID N l K) in Hp as (o & Ho & <- & HL). exists (SortedList (id_Labels o)), (to_holding o).
    split; [|done]. apply view_lookup. by eauto.
  - intros (r & h & (p & o & HL & Ho & ->)%view_lookup & <-). apply (lk_byLabels N l K) in HL as (o' & Ho' & _ & HI & _). simplify_eq. by exists p.
Qed.

Lemma not_in_use N l nid : local_ok N l → taken l nid = false ↔ ¬ in_use (view l) nid.
Proof. intros K. rewrite <- (taken_in_use N l nid K). destruct (taken l nid); naive_solver. Qed.

Lemma view_same l l' : identities l' = identities l → identitiesByLabels l' = identitiesByLabels l → view l' = view l.
Proof. intros H1 H2. unfold view. by rewrite H1, H2. Qed.

Lemma local_ok_weaken N N' l : N ≤ N' → local_ok N l → local_ok N' l.
Proof.
  intros HN K. constructor; try apply K. intros r p H. apply K in H as (o & ? & ? & ? & ? & ?). exists o. split_and!; (done || lia).
Qed.

Lemma same_ok N l l' : same_maps l l' → numbers_ok l' → (∀ nid, nid ∈ withheldIdentities l' → Scope nid = sc) → local_ok N l → local_ok N l'.
Proof.
  intros [E1 E2 E3 E4 E5 E6 E7 _] B HW K. constructor; rewrite ?E1, ?E2, ?E3, ?E4, ?E5, ?E6, ?E7; (done || apply K).
Qed.

(** ** The operations *)

(** Another reference to the identity at [p]. *)
Lemma recount_ok N l r p o k : local_ok N l → identitiesByLabels l !! r = Some p → identities l !! p = Some o → 1 ≤ k → ∀ M, k ≤ M → N ≤ M →
  let l' := set_identities (<[p := mkIdentity (ID o) (id_Labels o) (id_LabelArray o) k]> (identities l))
    (new_ptr l) (identitiesByID l) (identitiesByLabels l) (emitted l) l in
  local_ok M l' ∧ view l' = <[r := mkHolding (ID o) (id_Labels o) k]> (view l).
Proof.
  intros K HL Ho Hk M HM HN. cbn zeta. set (o' := mkIdentity (ID o) (id_Labels o) (id_LabelArray o) k).
  destruct (lk_byLabels N l K r p HL) as (o0 & Ho0 & HS & HI & _ & HC). simplify_eq. split.
  - constructor; [by destruct (lk_numbers N l K)|apply K| | | |apply K]; cbn [set_identities identitiesByID identitiesByLabels identities new_ptr].
    + intros nid q H. destruct (lk_byID N l K nid q H) as (oq & Hq & Eq & Lq). destruct (decide (q = p)) as [->|Hn].
      * rewrite lookup_insert_eq. exists o'. simplify_eq. by auto.
      * rewrite lookup_insert_ne by done. by eauto.
    + intros r' q H. destruct (lk_byLabels N l K r' q H) as (oq & Hq & Eq & Iq & Cq & Sq). destruct (decide (q = p)) as [->|Hn].
      * rewrite lookup_insert_eq. exists o'. simplify_eq. split_and!; (done || cbn; lia).
      * rewrite lookup_insert_ne by done. exists oq. split_and!; (done || lia).
    + intros q oq. rewrite lookup_insert_Some. intros [[<- _]|[_ H]]; by eapply lk_fresh.
  - apply map_eq. intros r'. apply option_eq. intros h. rewrite view_lookup, lookup_insert_Some, view_lookup. cbn. split.
    + intros (q & oq & Lq & Hq & ->). destruct (decide (q = p)) as [->|Hn].
      * rewrite lookup_insert_eq in Hq. injection Hq as <-. left. split; [|done].
        destruct (lk_byLabels N l K r' p Lq) as (o1 & ? & ? & _). by simplify_eq.
      * rewrite lookup_insert_ne in Hq by done. right. split; [|by eauto]. intros <-. simplify_eq.
    + intros [[<- <-]|[Hr (q & oq & Lq & Hq & ->)]].
      * exists p, o'. split_and!; [done|apply lookup_insert_eq|done].
      * exists q, oq. split_and!; [done| |done]. rewrite lookup_insert_ne; [done|]. intros <-.
        destruct (lk_byLabels N l K r' p Lq) as (o1 & ? & ? & _). by simplify_eq.
Qed.

(** A new identity. *)
Lemma create_ok N l lbls nid : local_ok N l → 1 ≤ N → identitiesByLabels l !! SortedList lbls = None → taken l nid = false → Scope nid = sc →
  let p := new_ptr l in
  let l' := set_identities (<[p := mkIdentity nid lbls (Labels_LabelArray lbls) 1]> (identities l)) (p + 1)
    (<[nid := p]> (identitiesByID l)) (<[SortedList lbls := p]> (identitiesByLabels l))
    (emitted l ++ [IdentityChangeUpsert nid lbls]) l in
  local_ok N l' ∧ view l' = <[SortedList lbls := mkHolding nid lbls 1]> (view l).
Proof.
  intros K H1 HL HT HS p l'. set (o := mkIdentity nid lbls (Labels_LabelArray lbls) 1).
  assert (HF : ∀ q oq, identities l !! q = Some oq → q ≠ p) by (intros q oq H ->; apply (lk_fresh N l K) in H; unfold p in H; lia).
  assert (HN : identitiesByID l !! nid = None) by (unfold taken in HT; apply bool_decide_eq_false in HT; by apply eq_None_not_Some).
  split.
  - constructor; [by destruct (lk_numbers N l K)|apply K| | | |apply K]; cbn [l' set_identities identitiesByID identitiesByLabels identities new_ptr].
    + intros nid' q [[<- <-]|[Hn H]]%lookup_insert_Some; [exists o; by rewrite !lookup_insert_eq|].
      destruct (lk_byID N l K nid' q H) as (oq & Hq & Eq & Lq). exists oq. pose proof (HF q oq Hq).
      rewrite !lookup_insert_ne; [done| |done]. intros E. rewrite E in HL. congruence.
    + intros r q [[<- <-]|[Hn H]]%lookup_insert_Some; [exists o; rewrite !lookup_insert_eq; split_and!; (done || cbn; lia)|].
      destruct (lk_byLabels N l K r q H) as (oq & Hq & Eq & Iq & Cq & Sq). exists oq. pose proof (HF q oq Hq).
      rewrite !lookup_insert_ne; [done| |done]. intros E. congruence.
    + intros q oq [[<- _]|[_ H]]%lookup_insert_Some; [lia|]. apply (lk_fresh N l K) in H. unfold p. lia.
  - apply map_eq. intros r. apply option_eq. intros h. rewrite view_lookup, lookup_insert_Some, view_lookup.
    cbn [l' set_identities identitiesByLabels identities]. split.
    + intros (q & oq & [[<- <-]|[Hr Lq]]%lookup_insert_Some & Hq & ->); [rewrite lookup_insert_eq in Hq; injection Hq as <-; by left|].
      right. split; [done|]. exists q, oq. split_and!; [done| |done]. destruct (lk_byLabels N l K r q Lq) as (o1 & Hq1 & _).
      rewrite lookup_insert_ne in Hq by (intros <-; by eapply HF). done.
    + intros [[<- <-]|[Hr (q & oq & Lq & Hq & ->)]].
      * exists p, o. by rewrite !lookup_insert_eq.
      * exists q, oq. rewrite !lookup_insert_ne; [done|intros <-; by eapply HF|done].
Qed.

(** The last reference to the identity at [p] goes. *)
Lemma forget_ok N l p o ev : local_ok N l → identitiesByID l !! ID o = Some p → identities l !! p = Some o →
  let l' := set_identities (identities l) (new_ptr l) (delete (ID o) (identitiesByID l))
    (delete (SortedList (id_Labels o)) (identitiesByLabels l)) ev l in
  local_ok N l' ∧ view l' = delete (SortedList (id_Labels o)) (view l).
Proof.
  intros K HI Ho l'. destruct (lk_byID N l K _ p HI) as (o0 & Ho0 & _ & HL). simplify_eq. split.
  - constructor; [by destruct (lk_numbers N l K)|apply K| | |apply K|apply K]; cbn [l' set_identities identitiesByID identitiesByLabels identities new_ptr].
    + intros nid q [Hn H]%lookup_delete_Some. destruct (lk_byID N l K nid q H) as (oq & Hq & Eq & Lq). exists oq.
      rewrite lookup_delete_ne; [done|]. intros E. rewrite E in HL. simplify_eq.
    + intros r q [Hn H]%lookup_delete_Some. destruct (lk_byLabels N l K r q H) as (oq & Hq & Eq & Iq & Cq & Sq). exists oq.
      rewrite lookup_delete_ne; [done|]. intros E. rewrite E in HI. simplify_eq.
  - apply map_eq. intros r. apply option_eq. intros h. rewrite view_lookup, lookup_delete_Some, view_lookup.
    cbn [l' set_identities identitiesByLabels identities]. setoid_rewrite lookup_delete_Some. naive_solver.
Qed.

(** ** What observers know *)

Definition observe_change (m : gmap Z Labels) (ev : IdentityChange) : gmap Z Labels :=
  match ev with
  | IdentityChangeUpsert nid lbls => <[nid := lbls]> m
  | IdentityChangeDelete nid => delete nid m
  | IdentityChangeSync => m
  end.

Definition labels_of l : gmap Z Labels := id_Labels <$> GetIdentities l.

Lemma labels_lookup l nid lbls : labels_of l !! nid = Some lbls ↔ ∃ p o, identitiesByID l !! nid = Some p ∧ identities l !! p = Some o ∧ lbls = id_Labels o.
Proof.
  unfold labels_of, GetIdentities. rewrite lookup_fmap, lookup_omap. destruct (identitiesByID l !! nid) as [p|]; cbn; [|naive_solver].
  rewrite fmap_Some. naive_solver.
Qed.

Lemma labels_view N l nid lbls : local_ok N l → labels_of l !! nid = Some lbls ↔ ∃ r h, view l !! r = Some h ∧ h_nid h = nid ∧ h_labels h = lbls.
Proof.
  intros K. rewrite labels_lookup. setoid_rewrite view_lookup. split.
  - intros (p & o & HI & Ho & ->). destruct (lk_byID N l K nid p HI) as (o' & Ho' & <- & HL). simplify_eq.
    exists (SortedList (id_Labels o)), (to_holding o). split; [by eauto|done].
  - intros (r & h & (p & o & HL & Ho & ->) & <- & <-). destruct (lk_byLabels N l K r p HL) as (o' & Ho' & _ & HI & _). simplify_eq. by exists p, o.
Qed.

Lemma create_labels N l lbls nid ev : local_ok N l → let p := new_ptr l in
  labels_of (set_identities (<[p := mkIdentity nid lbls (Labels_LabelArray lbls) 1]> (identities l)) (p + 1)
    (<[nid := p]> (identitiesByID l)) (<[SortedList lbls := p]> (identitiesByLabels l)) ev l) = <[nid := lbls]> (labels_of l).
Proof.
  intros K p. apply map_eq. intros i. apply option_eq. intros ls. rewrite lookup_insert_Some, !labels_lookup.
  cbn [set_identities identitiesByID identities]. setoid_rewrite lookup_insert_Some.
  assert (HF : ∀ q oq, identities l !! q = Some oq → p ≠ q) by (intros q oq Hq E; apply (lk_fresh N l K) in Hq; unfold p in *; lia).
  split.
  - intros (q & oq & [[<- <-]|[Hn Hq]] & [[E <-]|[En Hoq]] & ->); [by left|done| |right; split; [done|by exists q, oq]].
    exfalso. destruct (lk_byID N l K _ _ Hq) as (oq & Hoq & _). rewrite <- E in Hoq. by eapply HF.
  - intros [[<- <-]|[Hn (q & oq & Hq & Hoq & ->)]]; [eexists _, _; split; [by left|]; split; [by left|done]|].
    exists q, oq. split; [by right|]. split; [right; split; [by eapply HF|done]|done].
Qed.

(** Different labels have different numbers. *)
Lemma view_unique N l r r' h h' : local_ok N l → view l !! r = Some h → view l !! r' = Some h' → h_nid h = h_nid h' → r = r'.
Proof.
  intros K (p & o & HL & Ho & ->)%view_lookup (p' & o' & HL' & Ho' & ->)%view_lookup E. cbn in E.
  destruct (lk_byLabels N l K r p HL) as (o1 & ? & <- & HI & _). destruct (lk_byLabels N l K r' p' HL') as (o2 & ? & <- & HI' & _). simplify_eq.
  rewrite E in HI. by simplify_eq.
Qed.

(** An operation: the table and the observers follow. *)
Record follows N l A' W' l' : Prop := {
  fo_ok : local_ok N l';
  fo_view : view l' = A';
  fo_withheld : withheldIdentities l' = W';
  fo_events : ∃ evs, emitted l' = emitted l ++ evs ∧ foldl observe_change (labels_of l) evs = labels_of l';
}.

Lemma quiet N l l' : local_ok N l → local_ok N l' → view l' = view l → emitted l' = emitted l → follows N l (view l) (withheldIdentities l') l'.
Proof.
  intros K K' HV HE. constructor; [done|done|done|]. exists []. rewrite app_nil_r. split; [done|]. cbn. apply map_eq. intros nid.
  apply option_eq. intros lbls. by rewrite (labels_view N l nid lbls K), (labels_view N l' nid lbls K'), HV.
Qed.

Lemma labels_recount N M l l' r h k : local_ok N l → local_ok M l' → view l !! r = Some h → view l' = <[r := mkHolding (h_nid h) (h_labels h) k]> (view l) →
  labels_of l' = labels_of l.
Proof.
  intros K K' Hr HV. apply map_eq. intros nid. apply option_eq. intros lbls. rewrite (labels_view N l nid lbls K), (labels_view M l' nid lbls K'), HV.
  setoid_rewrite lookup_insert_Some. split.
  - intros (r' & h' & [[<- <-]|[Hn H]] & E1 & E2); [by exists r, h|by exists r', h'].
  - intros (r' & h' & H & E1 & E2). destruct (decide (r = r')) as [->|Hn]; [|by exists r', h'; auto].
    simplify_eq. eexists r', _. split; [by left|done].
Qed.

Lemma signed64_small k : - 2 ^ 63 ≤ k < 2 ^ 63 → signed64 k = k.
Proof. intros H. unfold signed64. rewrite Z.mod_small; lia. Qed.

(** An allocation, seen from the table. *)
Lemma allocation_spec N l old l1 r : local_ok N l → allocation l old l1 r →
  local_ok N l1 ∧ view l1 = view l ∧ match r with
  | Some nid => spec_number old (view l) (withheldIdentities l) nid (withheldIdentities l1)
  | None => exhausted (view l) ∧ (∀ nid, nid ∈ withheldIdentities l → in_use (view l) nid) ∧ withheldIdentities l1 = withheldIdentities l
  end.
Proof.
  intros K AL. destruct (lk_range N l K) as (Es & Em & Ex). pose proof (al_same _ _ _ _ AL) as S.
  assert (HU : usable old (view l) ↔ Scope old = scope l ∧ taken l old = false) by (unfold usable; by rewrite (not_in_use N l old K), Es).
  assert (HV : view l1 = view l) by (apply view_same; apply S).
  assert (HW : ∀ nid, nid ∈ withheldIdentities l1 → nid ∈ withheldIdentities l).
  { destruct r as [nid|]; [|by rewrite (proj1 (al_error _ _ _ _ AL eq_refl))].
    destruct (decide (Scope old = scope l ∧ taken l old = false)) as [[E1 E2]|Hn]; [by destruct (al_old _ _ _ _ AL E1 E2) as [_ ->]|].
    destruct (al_search _ _ _ _ AL nid Hn eq_refl) as [(i & _ & _ & _ & ->)|(_ & _ & ->)]; set_solver. }
  assert (K1 : local_ok N l1).
  { apply (same_ok N l l1 S (al_numbers _ _ _ _ AL)); [|done]. intros nid Hn. by apply (lk_withheld N l K), HW. }
  split; [done|]. split; [done|]. destruct r as [nid|].
  - assert (HT : ∀ nid, taken l nid = false ↔ ¬ in_use (view l) nid) by (intros; by apply (not_in_use N)).
    split; [by apply HT, (al_new _ _ _ _ AL)|]. rewrite HU.
    destruct (decide (Scope old = scope l ∧ taken l old = false)) as [[E1 E2]|Hn].
    + destruct (al_old _ _ _ _ AL E1 E2) as [[= ->] ->]. rewrite Es in *. split; [done|]. split; [done|]. intros HX. by destruct HX.
    + pose proof (al_search _ _ _ _ AL nid Hn eq_refl) as HS. rewrite Es, Em, Ex in HS. split.
      * destruct HS as [(i & Hi & -> & _)|(_ & Hw & _)]; [|by apply (lk_withheld N l K)].
        destruct (lk_numbers N l K) as [B1 B2 [B3 B4]]. rewrite Es in B4. apply Scope_number; [lia|done].
      * split; [tauto|]. intros _. destruct HS as [(i & Hi & -> & HF & ->)|(Hall & Hw & ->)]; [left; exists i|right].
        -- apply bool_decide_eq_false in HF. by auto.
        -- split; [|done]. intros i Hi. specialize (Hall i Hi). unfold free in Hall. destruct (taken l (Z.lor i sc)) eqn:ET.
           ++ left. by apply (taken_in_use N).
           ++ right. destruct (withheld l (Z.lor i sc)) eqn:EW; [by apply bool_decide_eq_true in EW|tauto].
  - destruct (al_error _ _ _ _ AL eq_refl) as (HW1 & HR & HN). rewrite Es, Em, Ex in HR.
    split; [intros i Hi; apply (taken_in_use N); [done|by apply HR]|]. split; [|done]. intros nid Hn. apply (taken_in_use N); [done|by apply HN].
Qed.

Lemma acquire_follows N lbls old l : local_ok N l → 0 ≤ N → N + 1 < 2 ^ 63 →
  ∃ l' r A' W', lookupOrCreate lbls old l = Some (l', r) ∧ follows (N + 1) l A' W' l' ∧
    spec_acquire lbls old (view l) (withheldIdentities l) A' W'.
Proof.
  intros K H0 HN. unfold lookupOrCreate, spec_acquire. destruct (identitiesByLabels l !! SortedList lbls) as [p|] eqn:EL.
  - destruct (lk_byLabels N l K _ p EL) as (o & Ho & ES & HI & HC & _).
    set (f := λ id, mkIdentity (ID id) (id_Labels id) (id_LabelArray id) (signed64 (ReferenceCount id + 1))).
    assert (HA : alter f p (identities l) = <[p := mkIdentity (ID o) (id_Labels o) (id_LabelArray o) (ReferenceCount o + 1)]> (identities l)).
    { apply map_eq. intros q. destruct (decide (q = p)) as [->|]; [|by rewrite lookup_alter_ne, lookup_insert_ne].
      rewrite lookup_alter_eq, Ho, lookup_insert_eq. cbn. unfold f. by rewrite signed64_small by lia. }
    rewrite HA. destruct (recount_ok N l _ p o (ReferenceCount o + 1) K EL Ho ltac:(lia) (N + 1) ltac:(lia) ltac:(lia)) as [K' HV].
    assert (HR : view l !! SortedList lbls = Some (to_holding o)) by (apply view_lookup; by eauto). rewrite HR.
    eexists _, _, _, _. split; [done|]. split; [|done]. constructor; [done|done|done|]. exists []. rewrite app_nil_r. split; [done|].
    symmetry. by eapply (labels_recount N (N + 1)).
  - rewrite (proj2 (view_none N l _ K) EL). destruct (getNextFree_spec old l (lk_numbers N l K)) as (l1 & r & -> & AL).
    pose proof (al_same _ _ _ _ AL) as S. pose proof (al_new _ _ _ _ AL) as HNew.
    apply (allocation_spec N) in AL as (K1 & HV1 & HS); [|done]. apply (local_ok_weaken N (N + 1)) in K1; [|lia].
    destruct r as [nid|].
    + rewrite <- (sm_labels _ _ S) in EL. destruct (create_ok (N + 1) l1 lbls nid K1 ltac:(lia) EL) as [K' HV'];
        [rewrite (taken_same _ _ _ S); by apply HNew|apply HS|].
      eexists _, _, _, _. split; [done|]. split; [|left; exists nid; split; [exact HS|by rewrite <- HV1, <- HV']].
      constructor; [done|done|done|]. exists [IdentityChangeUpsert nid lbls]. rewrite <- (sm_emitted _ _ S). split; [done|].
      cbn [foldl observe_change]. rewrite (create_labels (N + 1) l1 lbls nid _ K1). unfold labels_of, GetIdentities.
      by rewrite (sm_ids _ _ S), (sm_identities _ _ S).
    + eexists _, _, (view l), _. split; [done|]. destruct HS as (HE & HWu & HW). split.
      * apply quiet; [by apply (local_ok_weaken N); [lia|]|done|done|apply S].
      * right. by auto.
Qed.

Lemma release_follows N nid l : local_ok N l → ∃ A', follows N l A' (withheldIdentities l) (release nid l).1 ∧ spec_release nid (view l) A'.
Proof.
  intros K. unfold release. destruct (identitiesByID l !! nid) as [p|] eqn:EI.
  - destruct (lk_byID N l K nid p EI) as (o & Ho & <- & HL). rewrite Ho.
    destruct (lk_byLabels N l K _ p HL) as (o' & Ho' & _ & _ & HC & _). simplify_eq.
    assert (HR : view l !! SortedList (id_Labels o) = Some (to_holding o)) by (apply view_lookup; by eauto).
    destruct (Z.ltb_spec 1 (ReferenceCount o)) as [H1|H1]; [|rewrite (proj2 (Z.eqb_eq _ _)) by lia].
    + destruct (recount_ok N l _ p o (ReferenceCount o - 1) K HL Ho ltac:(lia) N ltac:(lia) ltac:(lia)) as [K' HV]. cbn [fst].
      eexists. split.
      * constructor; [done|done|done|]. exists []. rewrite app_nil_r. split; [done|]. symmetry. by eapply (labels_recount N N).
      * left. exists (SortedList (id_Labels o)), (to_holding o). split; [done|]. split; [done|]. cbn. rewrite (proj2 (Z.eqb_neq _ _)) by lia. done.
    + destruct (forget_ok N l p o (emitted l ++ [IdentityChangeDelete (ID o)]) K EI Ho) as [K' HV]. cbn [fst]. eexists. split.
      * constructor; [done|done|done|]. exists [IdentityChangeDelete (ID o)]. split; [done|]. cbn [foldl observe_change].
        apply map_eq. intros i. apply option_eq. intros ls. rewrite lookup_delete_Some, !labels_lookup.
        cbn [set_identities identitiesByID identities]. setoid_rewrite lookup_delete_Some. naive_solver.
      * left. exists (SortedList (id_Labels o)), (to_holding o). split; [done|]. split; [done|]. cbn. rewrite (proj2 (Z.eqb_eq _ _)) by lia. done.
  - exists (view l). cbn [fst]. split; [by apply quiet|]. right. split; [|done]. rewrite <- (not_in_use N l nid K).
    unfold taken. rewrite EI. by apply bool_decide_eq_false, is_Some_None.
Qed.

Lemma in_scope_cons nid nids : in_scope (nid :: nids) = if decide (Scope nid = sc) then {[nid]} ∪ in_scope nids else in_scope nids.
Proof. unfold in_scope. rewrite filter_cons. by case_decide. Qed.

Lemma set_withheld_same l W : W = withheldIdentities l → l = set_withheld W l.
Proof. intros ->. by destruct l. Qed.

Lemma withhold_fold nids : ∀ l u, scope l = sc → let l' := (foldl (λ '(l, unused) nid,
    if Scope nid =? scope l then (set_withheld ({[nid]} ∪ withheldIdentities l) l, unused) else (l, unused ++ [nid])) (l, u) nids).1 in
  l' = set_withheld (withheldIdentities l ∪ in_scope nids) l.
Proof.
  induction nids as [|nid nids IH]; intros l u HS; cbn [foldl]; cbn zeta.
  - apply set_withheld_same. apply (right_id_L ∅ (∪)).
  - rewrite in_scope_cons, HS. destruct (Z.eqb_spec (Scope nid) sc) as [E|E].
    + rewrite decide_True by done. rewrite IH by done. unfold set_withheld. cbn. f_equal. set_solver.
    + rewrite decide_False by done. by apply IH.
Qed.

Lemma unwithhold_fold nids : ∀ l, scope l = sc → unwithhold nids l = set_withheld (withheldIdentities l ∖ in_scope nids) l.
Proof.
  unfold unwithhold. induction nids as [|nid nids IH]; intros l HS; cbn [foldl].
  - apply set_withheld_same. apply difference_empty_L.
  - rewrite in_scope_cons, HS. destruct (Z.eqb_spec (Scope nid) sc) as [E|E].
    + rewrite decide_True by done. rewrite IH by done. unfold set_withheld. cbn. f_equal. set_solver.
    + rewrite decide_False by done. by apply IH.
Qed.

Lemma withheld_ok N l W : local_ok N l → (∀ nid, nid ∈ W → Scope nid = sc) → local_ok N (set_withheld W l).
Proof. intros K HW. apply (same_ok N l); [by constructor|by destruct (lk_numbers N l K)|done|done]. Qed.

Lemma step_follows N op l : local_ok N l → 0 ≤ N → N + 1 < 2 ^ 63 →
  ∃ l' A' W', local_step op l = Some l' ∧ follows (N + 1) l A' W' l' ∧ spec_step op (view l) (withheldIdentities l) A' W'.
Proof.
  intros K H0 HN. assert (K1 : local_ok (N + 1) l) by (apply (local_ok_weaken N); [lia|done]).
  destruct op as [lbls old|nid|nids|nids]; cbn [local_step spec_step].
  - destruct (acquire_follows N lbls old l K H0 HN) as (l' & r & A' & W' & -> & F & S). by exists l', A', W'.
  - destruct (release_follows (N + 1) nid l K1) as (A' & F & S). by eexists _, A', _.
  - unfold withhold. rewrite (withhold_fold nids l []) by apply K. eexists _, (view l), _. split; [done|]. split; [apply quiet|]; try done.
    apply withheld_ok; [done|]. unfold in_scope. intros nid [H|H]%elem_of_union; [by apply (lk_withheld N l K)|].
    apply elem_of_list_to_set, list_elem_of_filter in H. by destruct H.
  - rewrite (unwithhold_fold nids l) by apply K. eexists _, (view l), _. split; [done|]. split; [apply quiet|]; try done.
    apply withheld_ok; [done|]. intros nid [H _]%elem_of_difference. by apply (lk_withheld N l K).
Qed.

Lemma local_run_follows ops : ∀ N l, local_ok N l → 0 ≤ N → N + Z.of_nat (length ops) < 2 ^ 63 →
  ∃ l' A' W', local_run ops l = Some l' ∧ follows (N + Z.of_nat (length ops)) l A' W' l' ∧
    spec_run ops (view l) (withheldIdentities l) A' W'.
Proof.
  unfold local_run. induction ops as [|op ops IH]; intros N l K H0 HN; cbn [foldl length].
  - exists l, (view l), (withheldIdentities l). split; [done|]. rewrite Z.add_0_r. split; [by apply quiet|constructor].
  - destruct (step_follows N op l K H0 ltac:(cbn in HN; lia)) as (l1 & A1 & W1 & E & F & S1). cbn [mbind option_bind]. rewrite E.
    destruct F as [K1 <- <- (evs & E1 & F1)]. destruct (IH (N + 1) l1 K1) as (l' & A' & W' & E' & F' & S'); [lia|cbn in HN; lia|].
    exists l', A', W'. split; [done|]. replace (N + Z.of_nat (S (length ops))) with (N + 1 + Z.of_nat (length ops)) by lia.
    destruct F' as [K' HV HW (evs' & E2 & F2)]. split; [|by econstructor]. constructor; [done|done|done|].
    exists (evs ++ evs'). split; [by rewrite E2, E1, app_assoc|]. by rewrite foldl_app, F1.
Qed.
End spec.

Section histories.
Context {GR : GoRange} {GS : GoSort}.

Lemma new_local_ok sc mn mx : 0 ≤ mn ≤ mx → mx < 2 ^ 24 → is_uint 32 sc → Scope sc = sc → local_ok sc mn mx 0 (newLocalIdentityCache sc mn mx).
Proof.
  intros H1 H2 H3 H4. constructor; [constructor; cbn; [lia|lia|done]|done|intros nid p; cbn; by rewrite lookup_empty|intros r p; cbn; by rewrite lookup_empty|
    intros p o; cbn; by rewrite lookup_empty|intros nid; cbn; set_solver].
Qed.

(** The initial changes tell an observer all identities. *)
Lemma Observe_spec sc mn mx N l : local_ok sc mn mx N l → foldl observe_change ∅ (Observe l) = labels_of l.
Proof.
  intros K. unfold Observe. rewrite foldl_app. cbn [foldl observe_change].
  assert (HG : ∀ ids m, NoDup ids → (∀ nid, nid ∈ ids → is_Some (identitiesByID l !! nid)) → ∀ nid,
    foldl observe_change m (omap (λ nid, (λ id, IdentityChangeUpsert nid (id_Labels id)) <$> lookupByID nid l) ids) !! nid =
    if decide (nid ∈ ids) then labels_of l !! nid else m !! nid).
  { induction ids as [|i ids IH]; intros m ND HI nid; [by rewrite decide_False by set_solver|].
    apply NoDup_cons in ND as [Hi ND]. destruct (HI i ltac:(left)) as [p Hp].
    destruct (lk_byID sc mn mx N l K i p Hp) as (o & Ho & _ & _).
    assert (HL : lookupByID i l = Some o) by (unfold lookupByID; rewrite Hp; exact Ho). cbn [omap list_omap]. rewrite HL. cbn [fmap option_fmap option_map foldl observe_change].
    rewrite IH; [|done|intros; apply HI; by right]. destruct (decide (nid = i)) as [->|Hn].
    - rewrite decide_False, decide_True by (done || by left). rewrite lookup_insert_eq. symmetry. apply labels_lookup. by eauto.
    - rewrite lookup_insert_ne by done. destruct (decide (nid ∈ ids)); [rewrite decide_True by (by right); done|].
      rewrite decide_False; [done|]. by intros [?|?]%elem_of_cons. }
  apply map_eq. intros nid. rewrite HG; [|apply NoDup_range|intros i; by rewrite elem_of_range, elem_of_dom].
  case_decide as Hd; [done|]. rewrite lookup_empty. symmetry. apply eq_None_not_Some. intros [ls (p & o & Hp & _)%labels_lookup].
  apply Hd, elem_of_range, elem_of_dom. by eexists.
Qed.
End histories.


(** C24. An observer that subscribes after any history and follows the changes emitted by any further
    history knows exactly the identities of the cache and their labels. *)
Theorem observers_in_sync {GR : GoRange} {GS : GoSort} sc mn mx ops ops' :
  0 ≤ mn ≤ mx → mx < 2 ^ 24 → is_uint 32 sc → Scope sc = sc → Z.of_nat (length (ops ++ ops')) < 2 ^ 63 →
  ∃ l l' evs, local_run ops (newLocalIdentityCache sc mn mx) = Some l ∧ local_run ops' l = Some l' ∧
    emitted l' = emitted l ++ evs ∧ foldl observe_change ∅ (Observe l ++ evs) = id_Labels <$> GetIdentities l'.
Proof.
  intros H1 H2 H3 H4 HN. rewrite length_app in HN.
  destruct (local_run_follows sc mn mx ops 0 _ (new_local_ok sc mn mx H1 H2 H3 H4)) as (l & A & W & E & [K _ _ _] & _); [lia|lia|].
  destruct (local_run_follows sc mn mx ops' _ l K) as (l' & A' & W' & E' & [K' _ _ (evs & EE & FE)] & _); [lia|lia|].
  exists l, l', evs. split_and!; [done|done|done|]. rewrite foldl_app, (Observe_spec sc mn mx _ l K). exact FE.
Qed.

Module Examples.
#[local] Existing Instance range_elements.
#[local] Existing Instance sort_merge.

Definition cidr_labels (cidr : string) : Labels := {[cidr := mkLabel cidr EmptyString "cidr"%string None]}.

Definition first_ops : list local_op :=
  [LWithhold [16777218; 5]; LAcquire (cidr_labels "10.0.0.0/8") 0; LAcquire (cidr_labels "10.0.0.0/16") 0; LAcquire (cidr_labels "10.0.0.0/8") 0].
Definition more_ops : list local_op :=
  [LRelease 16777217; LRelease 16777219; LAcquire (cidr_labels "10.1.0.0/16") 0; LAcquire (cidr_labels "10.2.0.0/16") 0; LAcquire (cidr_labels "10.3.0.0/16") 0].

Definition numbers (ops : list local_op) : option (list (Z * Z)) :=
  (λ l, (λ id, (ID id, ReferenceCount id)) <$> checkpoint [] l) <$> local_run ops (newLocalIdentityCache IdentityScopeLocal 1 3).


Lemma observers_in_sync_witness :
  ∃ l l' evs, local_run first_ops (newLocalIdentityCache IdentityScopeLocal 1 3) = Some l ∧ local_run more_ops l = Some l' ∧
    emitted l' = emitted l ++ evs ∧ foldl observe_change ∅ (Observe l ++ evs) = id_Labels <$> GetIdentities l'.
Proof.
  apply observers_in_sync; [lia|lia|vm_compute; split; congruence|vm_compute; reflexivity|vm_compute; reflexivity].
Defined.
End Examples.
