(* ===== verification/Maglev.v ===== *)
(** * Maglev lookup tables

    Model of [src/pkg/murmur3/murmur3.go], the hash, and of [src/pkg/maglev/maglev.go]: the table that
    spreads the connections to a service over its backends.  Every backend has a permutation of the slots,
    derived from its hash; the backends take turns, as often as their weights say, and each takes its next
    slot that is still empty. *)

From Stdlib Require Import QArith Qround Ascii.
From S2P Require Import Prelude Text Netip GoLib.

Local Open Scope Z_scope.

Implicit Types (data tail : list Z) (h k : Z).

Definition mul64 (x y : Z) : Z := uwrap 64 (x * y).
Definition add64 (x y : Z) : Z := uwrap 64 (x + y).

Definition rotl64 (x r : Z) : Z := Z.lor (ushl 64 x r) (ushr 64 x (64 - r)).

Definition fmix64 k : Z :=
  let k := Z.lxor k (ushr 64 k 33) in
  let k := mul64 k 18397679294719823053 in
  let k := Z.lxor k (ushr 64 k 33) in
  let k := mul64 k 14181476777654086739 in
  Z.lxor k (ushr 64 k 33).

Definition c1 : Z := 9782798678568883157.
Definition c2 : Z := 5545529020109919103.

(** Eight bytes as a word. *)
Definition word64 data : Z := foldr (λ b w, Z.lor b (Z.shiftl w 8)) 0 data.

Definition mix1 k : Z := mul64 (rotl64 (mul64 k c1) 31) c2.
Definition mix2 k : Z := mul64 (rotl64 (mul64 k c2) 33) c1.

(** A block of 16 bytes. *)
Definition hash_block (hs : Z * Z) (block : list Z) : Z * Z :=
  let '(h1, h2) := hs in
  let h1 := Z.lxor h1 (mix1 (word64 (take 8 block))) in
  let h1 := add64 (rotl64 h1 27) h2 in
  let h1 := add64 (mul64 h1 5) 1390208809 in
  let h2 := Z.lxor h2 (mix2 (word64 (drop 8 block))) in
  let h2 := add64 (rotl64 h2 31) h1 in
  let h2 := add64 (mul64 h2 5) 944331445 in
  (h1, h2).

Fixpoint hash_blocks (nblocks : nat) (hs : Z * Z) data : Z * Z :=
  match nblocks with
  | O => hs
  | S nblocks => hash_blocks nblocks (hash_block hs (take 16 data)) (drop 16 data)
  end.

(** The cases of the [switch] fall through: bytes 9 to 15 of the tail go into [k2], the first eight
    into [k1]. *)
Definition hash_tail (hs : Z * Z) tail : Z * Z :=
  let '(h1, h2) := hs in
  (if bool_decide (tail = []) then h1 else Z.lxor h1 (mix1 (word64 (take 8 tail))),
   if bool_decide (length tail ≤ 8)%nat then h2 else Z.lxor h2 (mix2 (word64 (drop 8 tail)))).

Definition Hash128 data (seed : Z) : Z * Z :=
  let nblocks := (length data / 16)%nat in
  let hs := hash_blocks nblocks (seed, seed) data in
  let '(h1, h2) := hash_tail hs (drop (nblocks * 16) data) in
  let h1 := Z.lxor h1 (Z.of_nat (length data)) in
  let h2 := Z.lxor h2 (Z.of_nat (length data)) in
  let h1 := add64 h1 h2 in
  let h2 := add64 h2 h1 in
  let h1 := fmix64 h1 in
  let h2 := fmix64 h2 in
  let h1 := add64 h1 h2 in
  let h2 := add64 h2 h1 in
  (h1, h2).

(** The hashes are words. *)
Lemma Hash128_words data seed : is_uint 64 (Hash128 data seed).1 ∧ is_uint 64 (Hash128 data seed).2.
Proof.
  unfold Hash128. destruct (hash_tail _ _) as [h1 h2]. split; apply uwrap_uint; lia.
Qed.

Definition bytes_of (s : string) : list Z := map (λ c, Z.of_nat (Ascii.nat_of_ascii c)) (String.list_ascii_of_string s).

(** The hashes of the reference implementation. *)
Example Hash128_reference :
  Hash128 (bytes_of "") 0 = (0, 0) ∧
  Hash128 (bytes_of "hello world") 1234 = (1597032835483895452, 3561256304456150733) ∧
  Hash128 (bytes_of "lorem ipsum dolor sit amet") 500 = (1769749660974278622, 1949754287416413366) ∧
  Hash128 (bytes_of "this is a test of 31 bytes long") 31 = (2643718519955531882, 9043699266771680918) ∧
  Hash128 (bytes_of "The quick brown fox jumps over the lazy dog.") 3337 = (6777872448119806694, 3402161731480542663).
Proof. vm_compute. repeat split. Qed.

(** * Tables *)

(** ** Backends *)

(** [L3n4Addr] of [src/pkg/loadbalancer/loadbalancer.go], with its [AddrCluster]. *)
Record L3n4Addr := mkL3n4 {
  be_addr : Addr;
  be_clusterID : Z;
  be_port : Z;
  be_protocol : string;
  be_scope : Z;
}.

Definition ScopeExternal : Z := 0.
Definition ScopeInternal : Z := 1.

Definition AddrCluster_String (a : Addr) (clusterID : Z) : text :=
  if clusterID =? 0 then Addr_String a else Addr_String a ++ of_string "@" ++ Itoa clusterID.

Record BackendInfo := mkBackend {
  b_ID : Z;
  b_Addr : L3n4Addr;
  Weight : Z;
  hashString : text;
}.

Definition hash_text (a : L3n4Addr) : text :=
  let s := AddrCluster_String (be_addr a) (be_clusterID a) in
  of_string "[" ++
  (if Is6 (be_addr a) then of_string "[" ++ s ++ of_string "]:" else s ++ of_string ":") ++
  Itoa (be_port a) ++ of_string "/" ++ of_string (be_protocol a) ++
  (if be_scope a =? ScopeInternal then of_string "/i" else []) ++
  of_string ",State:active]".

Definition setHashString (bi : BackendInfo) : BackendInfo :=
  if bool_decide (hashString bi = []) then mkBackend (b_ID bi) (b_Addr bi) (Weight bi) (hash_text (b_Addr bi)) else bi.

(** ** Permutations *)

Definition maglevSupportedTableSizes : list Z := [251; 509; 1021; 2039; 4093; 8191; 16381; 32749; 65521; 131071].

(** [permutations] is the buffer that is used again. *)
Record Maglev := mkMaglev {
  TableSize : Z;
  SeedMurmur : Z;
  permutations : list Z;
}.

(** ** Configuration *)

(** The value of a character of the standard base64 alphabet. *)
Definition base64_value (c : ascii) : option Z :=
  let n := code c in
  if (65 <=? n) && (n <=? 90) then Some (n - 65)
  else if (97 <=? n) && (n <=? 122) then Some (n - 71)
  else if (48 <=? n) && (n <=? 57) then Some (n + 4)
  else if n =? 43 then Some 62
  else if n =? 47 then Some 63
  else None.

(** The bytes of four characters, some of which are padding. *)
Definition base64_quantum (a b : ascii) (c d : option ascii) : option (list Z) :=
  va ← base64_value a;
  vb ← base64_value b;
  let b0 := va * 4 + vb / 16 in
  match c, d with
  | None, _ => Some [b0]
  | Some c, None => vc ← base64_value c; Some [b0; vb mod 16 * 16 + vc / 4]
  | Some c, Some d => vc ← base64_value c; vd ← base64_value d; Some [b0; vb mod 16 * 16 + vc / 4; vc mod 4 * 64 + vd]
  end.

Fixpoint base64_decode (s : text) : option (list Z) :=
  match s with
  | [] => Some []
  | a :: b :: c :: d :: rest =>
      if bool_decide (d = "="%char) && bool_decide (rest = []) then
        base64_quantum a b (if bool_decide (c = "="%char) then None else Some c) None
      else q ← base64_quantum a b (Some c) (Some d); r ← base64_decode rest; Some (q ++ r)
  | _ => None
  end.

(** [base64.StdEncoding.DecodeString], which skips the ends of lines. *)
Definition DecodeString (s : text) : option (list Z) := base64_decode (filter (λ c, code c ≠ 10 ∧ code c ≠ 13) s).

Record UserConfig := mkUserConfig { u_TableSize : Z; u_HashSeed : text }.

Record Config := mkConfig { c_TableSize : Z; c_HashSeed : text; SeedJhash0 : Z; SeedJhash1 : Z; c_SeedMurmur : Z }.

Inductive config_error := InvalidTableSize | InvalidBase64 | InvalidSeedLength.

(** Four bytes of the seed, the first one highest. *)
Definition seed_word (a b c d : Z) : Z := Z.lor (Z.lor (Z.lor (Z.shiftl a 24) (Z.shiftl b 16)) (Z.shiftl c 8)) d.

Definition ToConfig (userCfg : UserConfig) : config_error + Config :=
  if bool_decide (u_TableSize userCfg ∈ maglevSupportedTableSizes) then
    match DecodeString (u_HashSeed userCfg) with
    | None => inl InvalidBase64
    | Some [d0; d1; d2; d3; d4; d5; d6; d7; d8; d9; d10; d11] =>
        inr (mkConfig (u_TableSize userCfg) (u_HashSeed userCfg) (seed_word d4 d5 d6 d7) (seed_word d8 d9 d10 d11) (seed_word d0 d1 d2 d3))
    | Some _ => inl InvalidSeedLength
    end
  else inl InvalidTableSize.

Definition DefaultUserConfig : UserConfig := mkUserConfig 16381 (of_string "JLfvgnHc2kaSUFaI").

(** [New]. *)
Definition NewMaglev (cfg : Config) : Maglev := mkMaglev (c_TableSize cfg) (c_SeedMurmur cfg) [].

(** ** Hashes *)

Definition derivePermutationSliceLen (m : Z) : Z := m / 100 * m.

Definition getOffsetAndSkip (addr : text) (m seed : Z) : Z * Z :=
  let '(h1, h2) := Hash128 (code <$> addr) seed in (h1 mod m, h2 mod (m - 1) + 1).

(** The order in which the worker pool runs the tasks.  The tasks write to parts of the buffer of their
    own, so that running them together gives what some order gives. *)
Class WorkerPool := {
  Drain : list (nat * nat) → list (nat * nat);
  Drain_perm tasks : Drain tasks ≡ₚ tasks;
}.

Definition pool_in_order : WorkerPool := {| Drain tasks := tasks; Drain_perm tasks := Permutation_refl tasks |}.

Section maglev.
Context {WP : WorkerPool} {GS : GoSort}.
Implicit Types (ml : Maglev) (backends : list BackendInfo) (perm entry : list Z) (m i n : nat).

Definition at_ perm (k : nat) : Z := default 0 (perm !! k).

(** The row of a backend. *)
Definition fill_row m (seed : Z) (bi : BackendInfo) (i : nat) perm : list Z :=
  let '(offset, skip) := getOffsetAndSkip (hashString bi) (Z.of_nat m) seed in
  let start := (i * m)%nat in
  foldl (λ perm j, <[(start + j)%nat := (at_ perm (start + (j - 1)) + skip) mod Z.of_nat m]> perm)
    (<[start := offset]> perm) (seq 1 (m - 1)).

Definition run_task m (seed : Z) backends perm (task : nat * nat) : list Z :=
  foldl (λ perm i, match backends !! i with Some bi => fill_row m seed bi i perm | None => perm end)
    perm (seq task.1 (task.2 - task.1)).

(** The batches from backend [g] on. *)
Fixpoint batches (fuel g batchSize bCount : nat) : list (nat * nat) :=
  match fuel with
  | O => []
  | S fuel => if (g <? bCount)%nat then (g, Nat.min (g + batchSize) bCount) :: batches fuel (g + batchSize) batchSize bCount else []
  end.

Definition getPermutation backends (numCPU : nat) ml : Maglev * list Z :=
  if bool_decide (backends = []) then (ml, [])
  else
    let m := Z.to_nat (TableSize ml) in
    let bCount := length backends in
    let size := (bCount * m)%nat in
    let buffer :=
      if (length (permutations ml) <? size)%nat
      then replicate (Nat.max (Z.to_nat (derivePermutationSliceLen (TableSize ml))) size) 0
      else permutations ml in
    let batchSize := (if bCount / numCPU =? 0 then bCount else bCount / numCPU)%nat in
    let buffer := foldl (run_task m (SeedMurmur ml) backends) buffer (Drain (batches bCount 0 batchSize bCount)) in
    (mkMaglev (TableSize ml) (SeedMurmur ml) buffer, take size buffer).

(** ** The table *)

Inductive failure := DivisionByZero | OutOfFuel.

Definition sentinel : Z := 4294967295.

(** The backend whose turn it is, from [i] on. *)
Fixpoint take_turn (fuel : nat) backends (weightSum : Z) (n i : nat) (weightCntr : list Q) : option (nat * list Q) :=
  match fuel with
  | O => None
  | S fuel =>
      let l := length backends in
      let w := from_option Weight 0 (backends !! i) in
      let cntr := default 0%Q (weightCntr !! i) in
      if uwrap 64 (Z.of_nat (n + 1) * w) <? Qfloor cntr then take_turn fuel backends weightSum n ((i + 1) mod l)%nat weightCntr
      else Some (i, <[i := float_add cntr (inject_Z weightSum)]> weightCntr)
  end.

(** The next empty slot of backend [i]. *)
Fixpoint next_slot (fuel : nat) perm entry (m i next : nat) : option (nat * nat) :=
  match fuel with
  | O => None
  | S fuel =>
      let c := Z.to_nat (at_ perm (i * m + next)) in
      if at_ entry c =? sentinel then Some (c, next) else next_slot fuel perm entry m i (next + 1)
  end.

Definition float_of_div (a b : Z) : Q := round64 (inject_Z a / inject_Z b).

Record table_state := mkTable { weightCntr : list Q; nexts : list nat; entries : list Z }.

Definition table_step backends perm (m : nat) (weightsUsed : bool) (weightSum : Z) (st : table_state) (n : nat) : option table_state :=
  let i := (n mod length backends)%nat in
  '(i, cntr) ← (if weightsUsed then take_turn (length backends) backends weightSum n i (weightCntr st) else Some (i, weightCntr st));
  '(c, next) ← next_slot m perm (entries st) m i (default 0%nat (nexts st !! i));
  Some (mkTable cntr (<[i := (next + 1)%nat]> (nexts st)) (<[c := from_option b_ID 0 (backends !! i)]> (entries st))).

Fixpoint table_loop backends perm (m : nat) (weightsUsed : bool) (weightSum : Z) (st : table_state) (ns : list nat) : option table_state :=
  match ns with
  | [] => Some st
  | n :: ns => st ← table_step backends perm m weightsUsed weightSum st n; table_loop backends perm m weightsUsed weightSum st ns
  end.

Definition weight_sum backends : Z := foldl (λ s bi, uwrap 64 (s + Weight bi)) 0 backends.

Definition computeLookupTable (numCPU : nat) backends ml : failure + Maglev * list Z :=
  let m := Z.to_nat (TableSize ml) in
  let l := length backends in
  let weightSum := weight_sum backends in
  if bool_decide (l = 0%nat) then inl DivisionByZero
  else
    let cntr := map (λ bi, float_of_div (Weight bi) (Z.of_nat l)) backends in
    let weightsUsed := 1 <? weightSum / Z.of_nat l in
    let '(ml, perm) := getPermutation backends numCPU ml in
    match table_loop backends perm m weightsUsed weightSum (mkTable cntr (replicate l 0%nat) (replicate m sentinel)) (seq 0 m) with
    | Some st => inr (ml, entries st)
    | None => inl OutOfFuel
    end.

Definition hash_le (a b : BackendInfo) : Prop := String.le (to_string (hashString a)) (to_string (hashString b)).

#[export] Instance hash_le_dec a b : Decision (hash_le a b).
Proof. unfold hash_le. apply _. Defined.

Definition GetLookupTable (numCPU : nat) backends ml : failure + Maglev * list Z :=
  computeLookupTable numCPU (sort_by hash_le (setHashString <$> backends)) ml.
End maglev.

Module Examples.
#[local] Existing Instance pool_in_order.
#[local] Existing Instance sort_merge.

Definition tcp (i : Z) : L3n4Addr := mkL3n4 (V4 i) 0 (i mod 65535) "TCP" ScopeExternal.

Definition four_backends : list BackendInfo :=
  [mkBackend 0 (tcp 1) 2 []; mkBackend 1 (tcp 3) 13 []; mkBackend 2 (tcp 4) 111 []; mkBackend 3 (tcp 5) 10 []].

(** The smallest table, with the default seed. *)
Definition small_config : UserConfig := mkUserConfig 251 (u_HashSeed DefaultUserConfig).

Definition small_maglev : Maglev := mkMaglev 251 616034178 [].

Example small_ToConfig : NewMaglev <$> (match ToConfig small_config with inr c => Some c | inl _ => None end) = Some small_maglev.
Proof. vm_compute. reflexivity. Qed.

(** Runs of the same backend. *)
Fixpoint runs (cur : Z) (len : nat) (ids : list Z) : list (Z * nat) :=
  match ids with
  | [] => [(cur, len)]
  | id :: ids => if id =? cur then runs cur (S len) ids else (cur, len) :: runs id 1 ids
  end.

Definition table_runs (r : failure + Maglev * list Z) : list (Z * nat) :=
  match r with inr (_, id :: ids) => runs id 1 ids | _ => [] end.
End Examples.
