(* ===== verification/MaglevTurn.v ===== *)
(** * Turns and permutations of Maglev tables

    The turns of [computeLookupTable] of [src/pkg/maglev/maglev.go]: the counters of the backends are
    floating-point numbers; with their rounding errors bounded, some backend always has a turn, and no
    backend has more turns than its weight allows.  [getPermutation] fills the row of every backend with a
    permutation of the slots, whatever the buffer held and in whatever order the workers run. *)

From Stdlib Require Import QArith Qround Lqa.
From Stdlib Require Import QArith Znumtheory.
From S2P Require Import Prelude Text Netip Maglev GoLib.

Local Open Scope Z_scope.

(** ** Sums over the backends *)

Definition zsum (f : nat → Z) (l : nat) : Z := foldr (λ i s, f i + s) 0 (seq 0 l).

Lemma foldr_sum_app (f : nat → Z) l1 l2 :
  foldr (λ i s, f i + s) 0 (l1 ++ l2) = foldr (λ i s, f i + s) 0 l1 + foldr (λ i s, f i + s) 0 l2.
Proof. induction l1; cbn; lia. Qed.

Lemma zsum_S f l : zsum f (S l) = zsum f l + f l.
Proof. unfold zsum. rewrite seq_S, foldr_sum_app. cbn. lia. Qed.

Lemma zsum_le f g l : (∀ i, (i < l)%nat → f i ≤ g i) → zsum f l ≤ zsum g l.
Proof. induction l as [|l IH]; intros HL; [done|]. rewrite !zsum_S. pose proof (HL l ltac:(lia)). specialize (IH ltac:(intros; apply HL; lia)). lia. Qed.

Lemma zsum_linear (a b c : Z) f g l : zsum (λ i, a * f i + b * g i + c) l = a * zsum f l + b * zsum g l + c * Z.of_nat l.
Proof. induction l as [|l IH]; [cbn; lia|]. rewrite !zsum_S, IH. lia. Qed.

Lemma zsum_scale (a : Z) f l : zsum (λ i, a * f i) l = a * zsum f l.
Proof. induction l as [|l IH]; [cbn; lia|]. rewrite !zsum_S, IH. lia. Qed.

(** A sum, but for one summand. *)
Lemma zsum_but f g l (c : Z) i : (i < l)%nat → (∀ j, (j < l)%nat → f j ≤ g j + c) → zsum f l - f i ≤ zsum g l - g i + c * (Z.of_nat l - 1).
Proof.
  induction l as [|l IH]; intros Hi HL; [lia|]. rewrite !zsum_S. pose proof (HL l ltac:(lia)). destruct (decide (i = l)) as [->|Hn].
  - assert (HS : zsum f l ≤ zsum (λ j, 1 * g j + 0 * g j + c) l) by (apply zsum_le; intros j Hj; pose proof (HL j ltac:(lia)); lia).
    rewrite (zsum_linear 1 0 c g g) in HS. lia.
  - specialize (IH ltac:(lia) ltac:(intros; apply HL; lia)). lia.
Qed.

Notation turns owners i := (Z.of_nat (count_occ Nat.eq_dec owners i)).

Lemma zsum_turns owners l : Forall (λ i, (i < l)%nat) owners → zsum (λ i, turns owners i) l = Z.of_nat (length owners).
Proof.
  assert (HO : ∀ x k, zsum (λ i, turns [x] i) k = if decide (x < k)%nat then 1 else 0).
  { intros x k. induction k as [|k IH]; [done|]. rewrite zsum_S, IH. cbn. destruct (Nat.eq_dec x k); repeat case_decide; cbn; lia. }
  induction 1 as [|x owners Hx Ho IH].
  - induction l as [|l IH]; [done|]. by rewrite zsum_S, IH.
  - specialize (HO x l). rewrite decide_True in HO by done. cbn [length].
    pose proof (zsum_linear 1 1 0 (λ i, turns [x] i) (λ i, turns owners i) l) as HS.
    replace (zsum (λ i, turns (x :: owners) i) l) with (zsum (λ i, 1 * turns [x] i + 1 * turns owners i + 0) l); [lia|].
    clear. induction l as [|l IH]; [done|]. rewrite !zsum_S, IH. cbn [count_occ]. destruct (Nat.eq_dec x l); lia.
Qed.

Definition weight_of (backends : list BackendInfo) (i : nat) : Z := from_option Weight 0 (backends !! i).

Definition small_weight (bi : BackendInfo) : Prop := 0 ≤ Weight bi < 65536.

Lemma weight_of_bound backends i : Forall small_weight backends → 0 ≤ weight_of backends i < 65536.
Proof. intros HF. unfold weight_of. destruct (backends !! i) eqn:E; cbn; [by eapply (Forall_lookup_1 _ _ _ _ HF)|lia]. Qed.

(** The sum does not overflow. *)
Lemma weight_sum_ok backends : Forall small_weight backends → Z.of_nat (length backends) < 2 ^ 32 →
  weight_sum backends = zsum (weight_of backends) (length backends) ∧ 0 ≤ weight_sum backends ≤ 65535 * Z.of_nat (length backends).
Proof.
  unfold weight_sum. induction backends as [|bi backends IH] using rev_ind; intros HF HL; [done|]. apply Forall_app in HF as [HF Hb].
  rewrite Forall_singleton in Hb. unfold small_weight in Hb. rewrite length_app in *. cbn [length] in *. specialize (IH HF ltac:(lia)) as [IH HB].
  rewrite foldl_app. cbn [foldl]. rewrite Nat.add_1_r, zsum_S. set (s := foldl _ 0 backends) in *. unfold uwrap. rewrite Z.mod_small by lia.
  assert (HE : zsum (weight_of (backends ++ [bi])) (length backends) = zsum (weight_of backends) (length backends)).
  { apply Z.le_antisymm; apply zsum_le; intros i Hi; unfold weight_of; rewrite lookup_app_l by done; lia. }
  unfold weight_of at 2. rewrite lookup_app_r, Nat.sub_diag by lia. cbn [list_lookup from_option lookup]. rewrite HE, <- IH. lia.
Qed.

(** ** Counters *)

Definition D : Z := 4503599627370496.

Section step.
Local Open Scope Q_scope.
Variables (c W N L K r d : Q).
Hypothesis (Hd : d == 4503599627370496) (HW : 0 <= W) (HN : 0 <= N) (HL : 0 < L) (HK : 0 <= K) (HKd : K <= d).

Lemma step_upper : c * L * d <= N * (d + K) → r <= (c + W) * (1 + ulp) → r * L * d <= (N + W * L) * (d + K + 1).
Proof.
  intros HC HR. unfold ulp in HR. assert (HWL : 0 <= W * L) by nra. assert (Hu : (1 # 9007199254740992) * d == 1 # 2) by (rewrite Hd; reflexivity).
  apply Qle_trans with ((c + W) * (1 + (1 # 9007199254740992)) * (L * d)); [nra|].
  assert (H1 : (c + W) * (L * d) <= (N + W * L) * (d + K)) by nra.
  apply Qle_trans with ((N + W * L) * (d + K) * (1 + (1 # 9007199254740992))); [nra|].
  assert (H2 : (1 # 9007199254740992) * K <= 1 # 2) by nra.
  assert (HA : 0 <= N + W * L) by nra. set (A := N + W * L) in *. clearbody A. nra.
Qed.

Lemma step_lower : N * (d - K) <= c * L * d → (c + W) * (1 - ulp) <= r → (N + W * L) * (d - K - 1) <= r * L * d.
Proof.
  intros HC HR. unfold ulp in HR. assert (HWL : 0 <= W * L) by nra. assert (Hu : (1 # 9007199254740992) * d == 1 # 2) by (rewrite Hd; reflexivity).
  apply Qle_trans with ((c + W) * (1 - (1 # 9007199254740992)) * (L * d)); [|nra].
  assert (H1 : (N + W * L) * (d - K) <= (c + W) * (L * d)) by nra.
  apply Qle_trans with ((N + W * L) * (d - K) * (1 - (1 # 9007199254740992))); [|nra].
  assert (H2 : 0 <= (1 # 9007199254740992) * K) by nra.
  assert (HA : 0 <= N + W * L) by nra. set (A := N + W * L) in *. clearbody A. nra.
Qed.
End step.

(** The counter of a backend of weight [w] that had [k] turns: about [w / l + k * W]. *)
Definition cntr_ok (l W w k : Z) (q : Q) : Prop :=
  (inject_Z (w + l * k * W) * inject_Z (D - (k + 1)) <= q * inject_Z l * inject_Z D)%Q ∧
  (q * inject_Z l * inject_Z D <= inject_Z (w + l * k * W) * inject_Z (D + (k + 1)))%Q.

Lemma round64_zero q : (q == 0)%Q → round64 q = 0%Q.
Proof. unfold Qeq, round64. cbn. intros H. by rewrite (proj2 (Z.eqb_eq (Z.abs (Qnum q)) 0)) by lia. Qed.

Lemma inject_nonneg z : 0 ≤ z → (0 <= inject_Z z)%Q.
Proof. by rewrite (Zle_Qle 0 z). Qed.

Lemma inject_pos z : 0 < z → (0 < inject_Z z)%Q.
Proof. by rewrite (Zlt_Qlt 0 z). Qed.

Lemma cntr_init l W w : 0 < l → 0 ≤ w → cntr_ok l W w 0 (float_of_div w l).
Proof.
  intros Hl Hw. unfold cntr_ok, float_of_div. rewrite Z.mul_0_r, Z.mul_0_l, Z.add_0_r.
  assert (HL : (0 < inject_Z l)%Q) by (by apply inject_pos). set (L := inject_Z l) in *.
  assert (HQ : (inject_Z w / L * L == inject_Z w)%Q) by (field; intros HL0; rewrite HL0 in HL; by apply Qlt_irrefl in HL).
  set (q := (inject_Z w / L)%Q) in *. destruct (decide (w = 0)) as [->|Hn].
  - rewrite round64_zero; [|unfold q; change (inject_Z 0) with 0%Q; unfold Qdiv; by rewrite Qmult_0_l].
    change (inject_Z 0) with 0%Q. split; rewrite !Qmult_0_l; apply Qle_refl.
  - assert (HW : (0 < inject_Z w)%Q) by (apply inject_pos; lia).
    assert (Hq : (0 < q)%Q) by nra. destruct (round64_bounds q Hq) as [H1 H2]. unfold ulp in *. set (r := round64 q) in *. clearbody r q L.
    change (inject_Z D) with (4503599627370496 # 1)%Q. change (inject_Z (D - (0 + 1))) with (4503599627370495 # 1)%Q.
    change (inject_Z (D + (0 + 1))) with (4503599627370497 # 1)%Q. set (v := inject_Z w) in *. clearbody v. split; nra.
Qed.

Lemma cntr_nonneg l W w k q : 0 < l → 0 ≤ w → 0 ≤ W → 0 ≤ k → k + 1 ≤ D → cntr_ok l W w k q → (0 <= q)%Q.
Proof.
  intros Hl Hw HW Hk HD [H _]. assert (HL : (0 < inject_Z l)%Q) by (by apply inject_pos).
  assert (H1 : (0 <= inject_Z (w + l * k * W))%Q) by (apply inject_nonneg; nia).
  assert (H2 : (0 <= inject_Z (D - (k + 1)))%Q) by (apply inject_nonneg; lia).
  assert (H3 : (0 < inject_Z D)%Q) by done. set (d := inject_Z D) in *. clearbody d.
  set (L := inject_Z l) in *. clearbody L. destruct (Qlt_le_dec q 0) as [Hq|]; [|done].
  assert (0 < L * d)%Q by nra. nra.
Qed.

Lemma cntr_add l W w k q : 0 < l → 0 ≤ w → 0 < W → 0 ≤ k → k + 1 ≤ D → cntr_ok l W w k q → cntr_ok l W w (k + 1) (float_add q (inject_Z W)).
Proof.
  intros Hl Hw HW Hk HD Hc. pose proof (cntr_nonneg l W w k q Hl Hw ltac:(lia) Hk HD Hc) as Hq. destruct Hc as [HC1 HC2].
  assert (HWq : (0 < inject_Z W)%Q) by (by apply inject_pos). destruct (round64_bounds (q + inject_Z W)) as [H1 H2]; [lra|].
  unfold cntr_ok, float_add. set (r := round64 _) in *.
  assert (E : (inject_Z (w + l * (k + 1) * W) == inject_Z (w + l * k * W) + inject_Z W * inject_Z l)%Q).
  { rewrite <- inject_Z_mult, <- inject_Z_plus. replace (w + l * (k + 1) * W) with (w + l * k * W + W * l) by ring. reflexivity. }
  assert (HN : (0 <= inject_Z (w + l * k * W))%Q) by (apply inject_nonneg; nia).
  assert (HK : (0 <= inject_Z (k + 1))%Q) by (apply inject_nonneg; lia).
  assert (HKD : (inject_Z (k + 1) <= inject_Z D)%Q) by (by rewrite <- Zle_Qle).
  assert (HL : (0 < inject_Z l)%Q) by (by apply inject_pos).
  assert (EM : ∀ a, (inject_Z (D - a) == inject_Z D - inject_Z a)%Q) by (intros a; unfold Z.sub; rewrite inject_Z_plus, inject_Z_opp; reflexivity).
  assert (EP : ∀ a, (inject_Z (D + a) == inject_Z D + inject_Z a)%Q) by (intros a; rewrite inject_Z_plus; reflexivity).
  rewrite EM in HC1. rewrite EP in HC2. rewrite E, EM, EP, !(inject_Z_plus (k + 1) 1). change (inject_Z 1) with 1%Q. split.
  - pose proof (step_lower q (inject_Z W) _ (inject_Z l) (inject_Z (k + 1)) r (inject_Z D) ltac:(reflexivity) ltac:(lra) HN HL HK HC1 H1). lra.
  - pose proof (step_upper q (inject_Z W) _ (inject_Z l) (inject_Z (k + 1)) r (inject_Z D) ltac:(reflexivity) ltac:(lra) HN HL HK HKD HC2 H2). lra.
Qed.

(** What a comparison of the counter says. *)
Lemma turn_refused l W w k q x : 0 < l → cntr_ok l W w k q → x < Qfloor q → (x + 1) * l * D ≤ (w + l * k * W) * (D + (k + 1)).
Proof.
  intros Hl [_ H] Hx. rewrite Zle_Qle, !inject_Z_mult. eapply Qle_trans; [|exact H].
  assert (HX : (inject_Z (x + 1) <= q)%Q) by (apply Qle_trans with (inject_Z (Qfloor q)); [rewrite <- Zle_Qle; lia|apply Qfloor_le]).
  assert (HL : (0 < inject_Z l)%Q) by (by apply inject_pos). assert (HD : (0 < inject_Z D)%Q) by done.
  set (d := inject_Z D) in *. clearbody d. assert (0 < inject_Z l * d)%Q by nra. nra.
Qed.

Lemma turn_taken l W w k q x : 0 < l → cntr_ok l W w k q → Qfloor q ≤ x → (w + l * k * W) * (D - (k + 1)) ≤ (x + 1) * l * D.
Proof.
  intros Hl [H _] Hx. rewrite Zle_Qle, !inject_Z_mult. eapply Qle_trans; [exact H|].
  assert (HX : (q <= inject_Z (x + 1))%Q) by (apply Qle_trans with (inject_Z (Qfloor q + 1)); [apply Qlt_le_weak, Qlt_floor|rewrite <- Zle_Qle; lia]).
  assert (HL : (0 < inject_Z l)%Q) by (by apply inject_pos). assert (HD : (0 < inject_Z D)%Q) by done.
  set (d := inject_Z D) in *. clearbody d. assert (0 < inject_Z l * d)%Q by nra. nra.
Qed.

(** ** Turns *)

Section turns.
Context (backends : list BackendInfo) (Hl : (0 < length backends)%nat) (Hw : Forall small_weight backends).

Notation l := (length backends).
Notation w := (weight_of backends).
Notation W := (zsum w l).

Context (HW : 2 ≤ W).

Definition cntrs_ok (owners : list nat) (cntrs : list Q) : Prop :=
  length cntrs = l ∧ ∀ i, (i < l)%nat → cntr_ok (Z.of_nat l) W (w i) (turns owners i) (default 0%Q (cntrs !! i)).

(** Backend [i] has no turn. *)
Definition refused (n : nat) (cntrs : list Q) (i : nat) : bool :=
  uwrap 64 (Z.of_nat (n + 1) * w i) <? Qfloor (default 0%Q (cntrs !! i)).

Lemma w_bound i : 0 ≤ w i < 65536.
Proof. by apply weight_of_bound. Qed.

Lemma w_le_sum i : (i < l)%nat → w i ≤ W.
Proof.
  assert (HS : ∀ k, 0 ≤ zsum w k ∧ ((i < k)%nat → w i ≤ zsum w k)).
  { induction k as [|k [IH1 IH2]]; [by split; [|intros ?%Nat.nlt_0_r]|]. rewrite zsum_S. pose proof (w_bound k). split; [lia|]. intros Hi.
    destruct (decide (i = k)) as [->|]; [lia|]. specialize (IH2 ltac:(lia)). lia. }
  intros Hi. by apply HS.
Qed.

Lemma refused_iff n cntrs i : Z.of_nat n < 131072 → refused n cntrs i = true ↔ Z.of_nat (n + 1) * w i < Qfloor (default 0%Q (cntrs !! i)).
Proof. intros Hn. unfold refused. pose proof (w_bound i).
  assert (0 ≤ Z.of_nat (n + 1) * w i ≤ 131072 * 65536) by (split; [apply Z.mul_nonneg_nonneg|apply Z.mul_le_mono_nonneg]; lia). unfold uwrap. rewrite Z.mod_small by lia. apply Z.ltb_lt. Qed.

Lemma take_turn_spec fuel n cntrs : ∀ i, (i < l)%nat →
  match take_turn fuel backends W n i cntrs with
  | Some (i', c') => (i' < l)%nat ∧ refused n cntrs i' = false ∧ c' = <[i' := float_add (default 0%Q (cntrs !! i')) (inject_Z W)]> cntrs
  | None => ∀ d, (d < fuel)%nat → refused n cntrs ((i + d) mod l) = true
  end.
Proof.
  induction fuel as [|fuel IH]; intros i Hi; cbn [take_turn]; [lia|]. fold (w i). fold (refused n cntrs i).
  destruct (refused n cntrs i) eqn:E; [|done]. assert (Hn : ((i + 1) mod l < l)%nat) by (apply Nat.mod_upper_bound; lia).
  specialize (IH _ Hn). destruct (take_turn fuel _ _ _ _ _) as [[i' c']|]; [done|]. intros [|d] Hd.
  - by rewrite Nat.add_0_r, Nat.mod_small by done.
  - specialize (IH d ltac:(lia)). rewrite Nat.Div0.add_mod_idemp_l in IH. by replace (i + S d)%nat with (i + 1 + d)%nat by lia.
Qed.

(** Not all backends are refused. *)
Lemma some_turn n owners cntrs : Z.of_nat n < 131072 → length owners = n → Forall (λ i, (i < l)%nat) owners → cntrs_ok owners cntrs →
  ¬ (∀ i, (i < l)%nat → refused n cntrs i = true).
Proof.
  intros Hn HL HO [_ HC] HR. pose proof (zsum_turns owners l HO) as HT.
  set (L := Z.of_nat l) in *. set (N := Z.of_nat n). assert (HL1 : 1 ≤ L) by lia.
  assert (HE : ∀ i, (i < l)%nat → (L * D * (N + 1)) * w i + 0 * turns owners i + L * D ≤
    (D + N + 1) * w i + (L * W * (D + N + 1)) * turns owners i + 0).
  { intros i Hi. specialize (HR i Hi). rewrite refused_iff in HR by done. pose proof (turn_refused L W (w i) _ _ _ ltac:(lia) (HC i Hi) HR) as HQ.
    pose proof (count_occ_bound Nat.eq_dec i owners) as HB. rewrite HL in HB. set (k := turns owners i) in *. pose proof (w_bound i).
    transitivity ((Z.of_nat (n + 1) * w i + 1) * L * D); [unfold N; lia|]. transitivity ((w i + L * k * W) * (D + (k + 1))); [done|].
    assert (0 ≤ w i + L * k * W) by nia. transitivity ((w i + L * k * W) * (D + (N + 1))); [|lia].
    apply Z.mul_le_mono_nonneg_l; [done|]. unfold k, N. lia. }
  apply zsum_le in HE. rewrite !zsum_linear, HT, HL in HE. fold N L in HE. fold N in HE.
  assert (HN : 0 ≤ N < 131072) by (unfold N; lia).
  assert (HE2 : D * (L * W - W + L * L) ≤ W * (1 + L * N) * (N + 1)) by lia.
  assert (HB : W * (1 + L * N) * (N + 1) ≤ L * W * 17179869184).
  { transitivity (L * W * ((N + 1) * (N + 1))); [|apply Z.mul_le_mono_nonneg_l; nia].
    replace (L * W * ((N + 1) * (N + 1))) with (W * (L * (N + 1)) * (N + 1)) by ring. apply Z.mul_le_mono_nonneg_r; [lia|]. apply Z.mul_le_mono_nonneg_l; nia. }
  unfold D in HE2. destruct (decide (L = 1)) as [HL2|HL2].
  - assert (W < 65536); [|rewrite HL2 in *; lia]. assert (El : l = 1%nat) by (unfold L in HL2; lia). rewrite El. unfold zsum. cbn. pose proof (w_bound 0). lia.
  - assert (L * W ≤ 2 * (L * W - W)) by nia. nia.
Qed.

(** The share of a backend that takes a turn. *)
Lemma turn_share n owners cntrs i : Z.of_nat n < 131072 → length owners = n → cntrs_ok owners cntrs → (i < l)%nat →
  refused n cntrs i = false → turns owners i * W ≤ Z.of_nat (n + 1) * w i + W.
Proof.
  intros Hn HL [_ HC] Hi HR. apply not_true_iff_false in HR. rewrite refused_iff in HR by done. apply Z.nlt_ge in HR.
  pose proof (turn_taken (Z.of_nat l) W (w i) _ _ _ ltac:(lia) (HC i Hi) HR) as HQ. pose proof (count_occ_bound Nat.eq_dec i owners) as HB.
  rewrite HL in HB. pose proof (w_bound i). pose proof (w_le_sum i Hi). set (k := turns owners i) in *. assert (Hk : 0 ≤ k < 131072) by (unfold k; lia).
  set (L := Z.of_nat l) in *. assert (HL1 : 1 ≤ L) by lia. set (x := Z.of_nat (n + 1) * w i) in *. clearbody k x L. clear HR HC.
  assert (H1 : (w i + L * k * W) * (k + 1) ≤ L * (W * 17179869184)).
  { transitivity (L * W * (k + 1) * (k + 1)); [apply Z.mul_le_mono_nonneg_r; nia|].
    replace (L * W * (k + 1) * (k + 1)) with (L * (W * ((k + 1) * (k + 1)))) by ring. apply Z.mul_le_mono_nonneg_l; [lia|]. apply Z.mul_le_mono_nonneg_l; nia. }
  assert (H2 : L * (k * W * D) ≤ L * ((x + 1) * D + W * 17179869184)).
  { transitivity ((w i + L * k * W) * D - (w i) * D + 0); [lia|]. assert (0 ≤ w i * D) by (unfold D; lia). lia. }
  apply Z.mul_le_mono_pos_l in H2; [|lia]. unfold D in H2. lia.
Qed.

Lemma cntrs_add n owners cntrs i : Z.of_nat n < 131072 → length owners = n → cntrs_ok owners cntrs → (i < l)%nat →
  cntrs_ok (i :: owners) (<[i := float_add (default 0%Q (cntrs !! i)) (inject_Z W)]> cntrs).
Proof.
  intros Hn HL [HC1 HC] Hi. split; [by rewrite length_insert|]. intros j Hj. cbn [count_occ]. destruct (Nat.eq_dec i j) as [->|Hij].
  - rewrite list_lookup_insert_eq by lia. cbn [default from_option id]. rewrite Nat2Z.inj_succ, <- Z.add_1_r.
    pose proof (count_occ_bound Nat.eq_dec j owners). pose proof (w_bound j). apply cntr_add; [lia..| |by apply HC]. unfold D. lia.
  - rewrite list_lookup_insert_ne by done. by apply HC.
Qed.

(** The turn of step [n]. *)
Lemma take_turn_ok n owners cntrs : Z.of_nat n < 131072 → length owners = n → Forall (λ i, (i < l)%nat) owners → cntrs_ok owners cntrs →
  ∃ i c, take_turn l backends W n (n mod l) cntrs = Some (i, c) ∧ (i < l)%nat ∧ cntrs_ok (i :: owners) c ∧
    turns owners i * W ≤ Z.of_nat (n + 1) * w i + W.
Proof.
  intros Hn HL HO HC. assert (Hm : (n mod l < l)%nat) by (apply Nat.mod_upper_bound; lia).
  pose proof (take_turn_spec l n cntrs _ Hm) as HS. destruct (take_turn _ _ _ _ _ _) as [[i c]|].
  - destruct HS as (Hi & HR & ->). exists i, (<[i := float_add (default 0%Q (cntrs !! i)) (inject_Z W)]> cntrs).
    split; [done|]. split; [done|]. split; [by eapply cntrs_add|by eapply turn_share].
  - destruct (some_turn n owners cntrs); [done..|]. intros i Hi. specialize (HS ((i + (l - n mod l)) mod l)%nat).
    rewrite Nat.Div0.add_mod_idemp_r in HS. replace (n mod l + (i + (l - n mod l)))%nat with (i + 1 * l)%nat in HS by lia.
    rewrite Nat.Div0.mod_add, (Nat.mod_small i) in HS by done. apply HS. apply Nat.mod_upper_bound. lia.
Qed.
End turns.

(** * Maglev permutations *)

Implicit Types (backends : list BackendInfo) (perm : list Z) (m i j k : nat).

(** ** Table sizes are prime *)

(** No number from 2 on, with a square up to [m], divides [m]. *)
Definition no_divisor (m : Z) : bool :=
  forallb (λ d, negb (m mod Z.of_nat d =? 0)) (seq 2 (Z.to_nat (Z.sqrt m))).

Lemma no_divisor_prime (m : Z) : 1 < m → no_divisor m = true → prime m.
Proof.
  intros Hm HN. apply prime_alt. split; [done|]. unfold no_divisor in HN. rewrite forallb_forall in HN.
  assert (HS : ∀ d, 1 < d → d * d ≤ m → ¬ (d | m)).
  { intros d Hd Hdd HV. assert (Hs : d ≤ Z.sqrt m) by (apply Z.sqrt_le_square; lia).
    specialize (HN (Z.to_nat d)). rewrite in_seq in HN. specialize (HN ltac:(lia)).
    rewrite Z2Nat.id in HN by lia. apply Z.mod_divide in HV; [|lia]. rewrite HV in HN. done. }
  intros n Hn HV. destruct (decide (n * n ≤ m)) as [|Hnn]; [by apply (HS n); [lia|..]|]. destruct HV as [q Hq].
  apply (HS q); [nia|nia|]. exists n. lia.
Qed.

Lemma supported_prime (m : Z) : m ∈ maglevSupportedTableSizes → prime m ∧ 251 ≤ m ≤ 131071.
Proof.
  assert (HF : Forall (λ m : Z, no_divisor m = true ∧ 251 ≤ m ≤ 131071) maglevSupportedTableSizes).
  { repeat constructor; (vm_compute; reflexivity) || lia. }
  intros Hm. rewrite Forall_forall in HF. destruct (HF m Hm) as [HN HB]. split; [|done]. by apply no_divisor_prime; [lia|].
Qed.

(** ** Rows *)

(** Slot [j] of a row. *)
Definition slot_of (seed : Z) m (bi : BackendInfo) (j : nat) : Z :=
  let '(offset, skip) := getOffsetAndSkip (hashString bi) (Z.of_nat m) seed in (offset + Z.of_nat j * skip) mod Z.of_nat m.

Lemma offset_skip s (m seed : Z) : 1 < m → let r := getOffsetAndSkip s m seed in 0 ≤ r.1 < m ∧ 1 ≤ r.2 < m.
Proof.
  intros Hm. unfold getOffsetAndSkip. destruct (Hash128 _ _) as [h1 h2]. cbn.
  pose proof (Z.mod_pos_bound h1 m ltac:(lia)). pose proof (Z.mod_pos_bound h2 (m - 1) ltac:(lia)). lia.
Qed.

Lemma slot_bound seed m bi j : (0 < m)%nat → 0 ≤ slot_of seed m bi j < Z.of_nat m.
Proof. intros Hm. unfold slot_of. destruct (getOffsetAndSkip _ _ _). apply Z.mod_pos_bound. lia. Qed.

(** The slots of a row differ. *)
Lemma slot_inj seed m bi j j' : prime (Z.of_nat m) → (j < m)%nat → (j' < m)%nat → slot_of seed m bi j = slot_of seed m bi j' → j = j'.
Proof.
  intros HP Hj Hj' E. pose proof (prime_ge_2 _ HP). unfold slot_of in E.
  pose proof (offset_skip (hashString bi) (Z.of_nat m) seed ltac:(lia)) as HO.
  destruct (getOffsetAndSkip _ _ _) as [offset skip]. cbn in HO. destruct HO as [_ Hs].
  assert (HD : (Z.of_nat m | (Z.of_nat j - Z.of_nat j') * skip)).
  { apply Z.mod_divide; [lia|]. replace ((Z.of_nat j - Z.of_nat j') * skip) with (offset + Z.of_nat j * skip - (offset + Z.of_nat j' * skip)) by ring.
    rewrite Zminus_mod, E, Z.sub_diag. apply Zmod_0_l. }
  assert (HR : rel_prime (Z.of_nat m) skip).
  { apply rel_prime_sym, rel_prime_le_prime; [done|lia]. }
  rewrite Z.mul_comm in HD. apply Gauss in HD; [|done]. destruct HD as [q Hq]. destruct (decide (q = 0)) as [->|]; [lia|].
  destruct (decide (0 < q)); nia.
Qed.

(** Every slot is in the row. *)
Lemma slot_surj seed m bi (c : nat) : prime (Z.of_nat m) → (c < m)%nat → ∃ j, (j < m)%nat ∧ slot_of seed m bi j = Z.of_nat c.
Proof.
  intros HP Hc. pose proof (prime_ge_2 _ HP). set (f := λ j, Z.to_nat (slot_of seed m bi j)).
  assert (HB : ∀ j, 0 ≤ slot_of seed m bi j < Z.of_nat m) by (intros j; apply slot_bound; lia).
  assert (HN : NoDup (f <$> seq 0 m)).
  { apply NoDup_fmap_2_strong; [|apply NoDup_seq]. intros j j' Hj%elem_of_seq Hj'%elem_of_seq E. unfold f in E.
    pose proof (HB j). pose proof (HB j'). apply (slot_inj seed m bi); [done|lia|lia|lia]. }
  assert (HP' : f <$> seq 0 m ≡ₚ seq 0 m).
  { apply submseteq_length_Permutation; [|by rewrite length_fmap]. apply NoDup_submseteq; [done|].
    intros c' (j & -> & _)%list_elem_of_fmap. apply elem_of_seq. unfold f. pose proof (HB j). lia. }
  assert (Hin : c ∈ f <$> seq 0 m) by (rewrite HP'; apply elem_of_seq; lia).
  apply list_elem_of_fmap in Hin as (j & Hj & Hs%elem_of_seq). exists j. split; [lia|]. unfold f in Hj. pose proof (HB j). lia.
Qed.

Section fill.
Context (seed : Z) (m : nat) (Hm : (1 < m)%nat).

Definition row_ok backends perm i : Prop :=
  ∀ bi j, backends !! i = Some bi → (j < m)%nat → perm !! (i * m + j)%nat = Some (slot_of seed m bi j).

Lemma slot_next bi j : let r := getOffsetAndSkip (hashString bi) (Z.of_nat m) seed in
  slot_of seed m bi 0 = r.1 ∧ (slot_of seed m bi j + r.2) mod Z.of_nat m = slot_of seed m bi (S j).
Proof.
  pose proof (offset_skip (hashString bi) (Z.of_nat m) seed ltac:(lia)) as HO. cbn zeta. unfold slot_of.
  destruct (getOffsetAndSkip _ _ _) as [offset skip]. cbn in *. split; [rewrite Z.mod_small; lia|].
  rewrite Zplus_mod_idemp_l. f_equal. lia.
Qed.

Lemma fill_row_spec bi i perm : ((i + 1) * m ≤ length perm)%nat → let p := fill_row m seed bi i perm in
  length p = length perm ∧ (∀ j, (j < m)%nat → p !! (i * m + j)%nat = Some (slot_of seed m bi j)) ∧
  (∀ k, (k < i * m ∨ (i + 1) * m ≤ k)%nat → p !! k = perm !! k).
Proof.
  intros HL. cbn zeta. unfold fill_row. pose proof (slot_next bi) as HS. cbv zeta in HS. destruct (getOffsetAndSkip _ _ _) as [offset skip].
  cbn [fst snd] in HS. set (start := (i * m)%nat) in *.
  cut (∀ n, (n < m)%nat → let p := foldl (λ perm j, <[(start + j)%nat := (at_ perm (start + (j - 1)) + skip) mod Z.of_nat m]> perm)
      (<[start := offset]> perm) (seq 1 n) in
    length p = length perm ∧ (∀ j, (j ≤ n)%nat → p !! (start + j)%nat = Some (slot_of seed m bi j)) ∧
    (∀ k, (k < start ∨ (i + 1) * m ≤ k)%nat → p !! k = perm !! k)).
  { intros HG. destruct (HG (m - 1)%nat ltac:(lia)) as (H1 & H2 & H3). split; [done|]. split; [|done]. intros j Hj. apply H2. lia. }
  induction n as [|n IH]; intros Hn.
  - cbn. rewrite length_insert. split; [done|]. split.
    + intros j Hj. replace (start + j)%nat with start by lia. replace j with 0%nat by lia. rewrite list_lookup_insert_eq by lia. f_equal. symmetry. apply (HS 0%nat).
    + intros k Hk. apply list_lookup_insert_ne. lia.
  - rewrite seq_S, foldl_app. cbn [foldl]. cbn zeta. specialize (IH ltac:(lia)). set (p := foldl _ _ (seq 1 n)) in *.
    destruct IH as (H1 & H2 & H3). rewrite length_insert. split; [done|]. split.
    + intros j Hj. destruct (decide (j = S n)) as [->|Hjn].
      * rewrite list_lookup_insert_eq by lia. f_equal. unfold at_. replace (1 + n - 1)%nat with n by lia. rewrite H2 by lia. apply (HS n).
      * rewrite list_lookup_insert_ne by lia. apply H2. lia.
    + intros k Hk. rewrite list_lookup_insert_ne by lia. by apply H3.
Qed.

Lemma fill_row_ok backends bi i i' perm : backends !! i = Some bi → (length backends * m ≤ length perm)%nat →
  length (fill_row m seed bi i perm) = length perm ∧
  (row_ok backends perm i' ∨ i' = i → row_ok backends (fill_row m seed bi i perm) i').
Proof.
  intros Hb HL. pose proof (lookup_lt_Some _ _ _ Hb). destruct (fill_row_spec bi i perm) as (H1 & H2 & H3); [nia|]. split; [done|].
  intros HR bi' j Hb' Hj. destruct (decide (i' = i)) as [->|Hn]; [simplify_eq; by apply H2|]. destruct HR as [HR|?]; [|done].
  rewrite H3; [by apply HR|]. destruct (decide (i' < i)%nat); nia.
Qed.

Lemma run_task_ok backends task perm : (length backends * m ≤ length perm)%nat → let p := run_task m seed backends perm task in
  length p = length perm ∧ ∀ i, row_ok backends perm i ∨ (task.1 ≤ i < task.2)%nat → row_ok backends p i.
Proof.
  intros HL. cbn zeta. unfold run_task. destruct task as [a b]. cbn [fst snd].
  cut (∀ l perm, (length backends * m ≤ length perm)%nat → let p := foldl (λ perm i, match backends !! i with Some bi => fill_row m seed bi i perm | None => perm end) perm l in
    length p = length perm ∧ ∀ i, row_ok backends perm i ∨ i ∈ l → row_ok backends p i).
  { intros HG. destruct (HG (seq a (b - a)) perm HL) as [H1 H2]. split; [done|]. intros i [H|H]; apply H2; [by left|right; apply elem_of_seq; lia]. }
  clear perm HL. induction l as [|i0 l IH]; intros perm HL; cbn [foldl]; cbn zeta; [split; [done|]; intros i [?|?%elem_of_nil]; done|].
  destruct (backends !! i0) as [bi|] eqn:Eb.
  - destruct (fill_row_ok backends bi i0 i0 perm Eb HL) as [HL1 _]. destruct (IH (fill_row m seed bi i0 perm)) as [H1 H2]; [lia|].
    split; [lia|]. intros i Hi. apply H2. destruct (decide (i ∈ l)); [by right|left].
    apply (fill_row_ok backends bi i0 i perm Eb HL). rewrite elem_of_cons in Hi. tauto.
  - destruct (IH perm HL) as [H1 H2]. split; [done|]. intros i Hi. apply H2. rewrite elem_of_cons in Hi.
    destruct Hi as [?|[->|?]]; [by left| |by right]. left. intros bi j Hb. congruence.
Qed.

Lemma run_tasks_ok backends tasks : ∀ perm, (length backends * m ≤ length perm)%nat → let p := foldl (run_task m seed backends) perm tasks in
  length p = length perm ∧ ∀ i, row_ok backends perm i ∨ (∃ a b, (a, b) ∈ tasks ∧ (a ≤ i < b)%nat) → row_ok backends p i.
Proof.
  induction tasks as [|[a b] tasks IH]; intros perm HL; cbn [foldl]; cbn zeta; [split; [done|]; intros i [?|(? & ? & ?%elem_of_nil & _)]; done|].
  destruct (run_task_ok backends (a, b) perm HL) as [HL1 HR]. destruct (IH (run_task m seed backends perm (a, b))) as [H1 H2]; [lia|].
  split; [lia|]. intros i Hi. apply H2. destruct Hi as [Hi|(a' & b' & [[= -> ->]|Hi]%elem_of_cons & Hab)]; [left; apply HR; by left|left; apply HR; by right|right].
  by exists a', b'.
Qed.
End fill.

(** The batches cover all backends. *)
Lemma batches_cover fuel g size bCount : (0 < size)%nat → (bCount ≤ g + fuel)%nat → ∀ i, (g ≤ i < bCount)%nat →
  ∃ a b, (a, b) ∈ batches fuel g size bCount ∧ (a ≤ i < b)%nat.
Proof.
  intros Hs. revert g. induction fuel as [|fuel IH]; intros g Hf i Hi; [lia|]. cbn [batches]. rewrite (proj2 (Nat.ltb_lt _ _)) by lia.
  destruct (decide (i < g + size)%nat); [exists g, (Nat.min (g + size) bCount); split; [by left|lia]|].
  destruct (IH (g + size)%nat ltac:(lia) i ltac:(lia)) as (a & b & H & Hab). exists a, b. by split; [right|].
Qed.

Lemma getPermutation_length {WP : WorkerPool} backends numCPU ml m : backends ≠ [] → m = Z.to_nat (TableSize ml) → (1 < m)%nat →
  (length backends * m ≤ length (permutations (getPermutation backends numCPU ml).1))%nat ∧
  length (getPermutation backends numCPU ml).2 = (length backends * m)%nat.
Proof.
  intros HB -> Hm. unfold getPermutation. rewrite bool_decide_false by done. set (m := Z.to_nat (TableSize ml)) in *.
  set (buffer := if (length (permutations ml) <? _)%nat then _ else _). assert (HL : (length backends * m ≤ length buffer)%nat).
  { unfold buffer. destruct (Nat.ltb_spec (length (permutations ml)) (length backends * m)); [rewrite length_replicate; lia|done]. }
  cbn [fst snd permutations]. set (tasks := Drain _). rewrite length_take.
  destruct (run_tasks_ok (SeedMurmur ml) m Hm backends tasks buffer HL) as [-> _]. lia.
Qed.

(** The rows of the backends, of any buffer and schedule. *)
Lemma getPermutation_ok {WP : WorkerPool} backends numCPU ml : 1 < TableSize ml → backends ≠ [] →
  let m := Z.to_nat (TableSize ml) in let r := getPermutation backends numCPU ml in
  TableSize r.1 = TableSize ml ∧ SeedMurmur r.1 = SeedMurmur ml ∧
  ∀ i bi j, backends !! i = Some bi → (j < m)%nat → r.2 !! (i * m + j)%nat = Some (slot_of (SeedMurmur ml) m bi j).
Proof.
  intros Hm HB. cbn zeta. unfold getPermutation. rewrite bool_decide_false by done. set (m := Z.to_nat (TableSize ml)).
  set (bCount := length backends). set (buffer := if (length (permutations ml) <? bCount * m)%nat then _ else _).
  assert (HL : (bCount * m ≤ length buffer)%nat).
  { unfold buffer. destruct (Nat.ltb_spec (length (permutations ml)) (bCount * m)); [rewrite length_replicate; lia|done]. }
  set (batchSize := (if bCount / numCPU =? 0 then bCount else bCount / numCPU)%nat).
  assert (Hc : (0 < bCount)%nat) by (unfold bCount; destruct backends; [done|cbn; lia]).
  assert (Hs : (0 < batchSize)%nat) by (unfold batchSize; destruct (Nat.eqb_spec (bCount / numCPU) 0); lia).
  destruct (run_tasks_ok (SeedMurmur ml) m ltac:(unfold m; lia) backends (Drain (batches bCount 0 batchSize bCount)) buffer HL) as [H1 H2].
  cbn [fst snd TableSize SeedMurmur]. split; [done|]. split; [done|]. intros i bi j Hi Hj. pose proof (lookup_lt_Some _ _ _ Hi) as Hlt.
  rewrite lookup_take_lt by (fold bCount in Hlt; nia). apply (H2 i); [right|done|done].
  destruct (batches_cover bCount 0 batchSize bCount Hs ltac:(lia) i ltac:(fold bCount in Hlt; lia)) as (a & b & Hab & ?).
  exists a, b. split; [|done]. by rewrite Drain_perm.
Qed.
