(* ===== verification/MaglevTable.v ===== *)
(** * Maglev tables are complete and fair

    The table of [computeLookupTable] of [src/pkg/maglev/maglev.go]: the loop always ends with every slot
    given to a backend, each backend has a share of the slots that follows its weight, and the table does
    not depend on the order in which the backends are listed, on the buffers or on the scheduling. *)

From Stdlib Require Import QArith Qround Znumtheory.
From S2P Require Import Prelude Text Netip Maglev GoLib MaglevTurn.

Local Open Scope Z_scope.

Implicit Types (backends : list BackendInfo) (perm entry : list Z) (m i j n c : nat) (owners : list nat).

Notation filled := (filter (λ e : Z, e ≠ sentinel)).
Notation turns owners i := (Z.of_nat (count_occ Nat.eq_dec owners i)).

(** ** Slots *)

Lemma filled_insert entry c id : entry !! c = Some sentinel → id ≠ sentinel → filled (<[c := id]> entry) ≡ₚ id :: filled entry.
Proof.
  intros Hc Hid. rewrite <- (take_drop_middle entry c sentinel Hc) at 2. rewrite insert_take_drop by (by eapply lookup_lt_Some).
  rewrite !filter_app, !filter_cons, decide_True by done. rewrite decide_False by (intros H; by apply H). by rewrite Permutation_middle.
Qed.

Lemma empty_slot entry : (length (filled entry) < length entry)%nat → ∃ c, (c < length entry)%nat ∧ at_ entry c = sentinel.
Proof.
  unfold at_. induction entry as [|e entry IH]; cbn [length]; [lia|]. rewrite filter_cons. case_decide as He; intros HL.
  - cbn [length] in HL. destruct IH as (c & Hc & E); [lia|]. exists (S c). split; [lia|done].
  - exists 0%nat. split; [lia|]. cbn. destruct (decide (e = sentinel)); [done|contradiction].
Qed.

Lemma filled_all entry : length (filled entry) = length entry → filled entry = entry.
Proof.
  induction entry as [|e entry IH]; [done|]. rewrite filter_cons. pose proof (length_filter (λ e, e ≠ sentinel) entry).
  case_decide; cbn [length]; intros HL; [f_equal; apply IH; lia|lia].
Qed.

Section table.
Context (seed : Z) (m : nat) (backends : list BackendInfo) (perm : list Z).
Context (HP : prime (Z.of_nat m)) (Hl : (0 < length backends)%nat).
Context (Hperm : ∀ i bi j, backends !! i = Some bi → (j < m)%nat → perm !! (i * m + j)%nat = Some (slot_of seed m bi j)).
Context (Hid : Forall (λ bi, b_ID bi ≠ sentinel) backends).

Notation l := (length backends).

Definition id_of i : Z := from_option b_ID 0 (backends !! i).

(** The slots are given to [owners]; the slots that a backend has passed are taken. *)
Record slots_ok owners (nexts : list nat) entry : Prop := {
  so_length : length entry = m;
  so_nexts : length nexts = l;
  so_filled : filled entry ≡ₚ id_of <$> owners;
  so_passed : ∀ i bi j, backends !! i = Some bi → (j < default 0 (nexts !! i))%nat → at_ entry (Z.to_nat (slot_of seed m bi j)) ≠ sentinel;
  so_le : ∀ i, (default 0 (nexts !! i) ≤ m)%nat;
}.

Lemma m_pos : (1 < m)%nat.
Proof. pose proof (prime_ge_2 _ HP). lia. Qed.

Lemma slot_nat bi j : (Z.to_nat (slot_of seed m bi j) < m)%nat.
Proof. pose proof m_pos. pose proof (slot_bound seed m bi j ltac:(lia)). lia. Qed.

Lemma next_slot_spec i bi entry : backends !! i = Some bi → ∀ fuel next j, (next ≤ j < m)%nat → (j < next + fuel)%nat →
  at_ entry (Z.to_nat (slot_of seed m bi j)) = sentinel → ∃ j', (next ≤ j' < m)%nat ∧
    next_slot fuel perm entry m i next = Some (Z.to_nat (slot_of seed m bi j'), j') ∧ at_ entry (Z.to_nat (slot_of seed m bi j')) = sentinel ∧
    ∀ k, (next ≤ k < j')%nat → at_ entry (Z.to_nat (slot_of seed m bi k)) ≠ sentinel.
Proof.
  intros Hi. induction fuel as [|fuel IH]; intros next j Hj Hf HE; [lia|]. cbn [next_slot].
  assert (EA : at_ perm (i * m + next) = slot_of seed m bi next) by (unfold at_; rewrite (Hperm i bi next Hi) by lia; done). rewrite EA.
  destruct (Z.eqb_spec (at_ entry (Z.to_nat (slot_of seed m bi next))) sentinel) as [E|E].
  - exists next. split; [lia|]. split; [done|]. split; [done|]. intros k Hk. lia.
  - assert (j ≠ next) by congruence. destruct (IH (next + 1)%nat j) as (j' & H1 & H2 & H3 & H4); [lia|lia|done|].
    exists j'. split; [lia|]. split; [done|]. split; [done|]. intros k Hk. destruct (decide (k = next)) as [->|]; [done|]. apply H4. lia.
Qed.

(** A backend takes a slot. *)
Lemma slot_step owners nexts entry i : slots_ok owners nexts entry → (length owners < m)%nat → (i < l)%nat →
  ∃ c next, next_slot m perm entry m i (default 0%nat (nexts !! i)) = Some (c, next) ∧
    slots_ok (i :: owners) (<[i := (next + 1)%nat]> nexts) (<[c := id_of i]> entry).
Proof.
  intros [S1 S2 S3 S4 S5] HO Hi. destruct (lookup_lt_is_Some_2 backends i Hi) as [bi Hb].
  assert (HF : length (filled entry) = length owners) by (by rewrite S3, length_fmap).
  destruct (empty_slot entry ltac:(lia)) as (c & Hc & EC). rewrite S1 in Hc. destruct (slot_surj seed m bi c HP Hc) as (j & Hj & Ej).
  assert (EJ : at_ entry (Z.to_nat (slot_of seed m bi j)) = sentinel) by (by rewrite Ej, Nat2Z.id).
  assert (Hn : (default 0 (nexts !! i) ≤ j)%nat).
  { destruct (decide (j < default 0 (nexts !! i))%nat) as [Hlt|]; [|lia]. by destruct (S4 i bi j Hb Hlt). }
  destruct (next_slot_spec i bi entry Hb m (default 0%nat (nexts !! i)) j ltac:(lia) ltac:(lia) EJ) as (j' & HJ1 & HJ2 & HJ3 & HJ4).
  exists (Z.to_nat (slot_of seed m bi j')), j'. split; [done|]. pose proof (slot_nat bi j') as HB.
  assert (EE : entry !! Z.to_nat (slot_of seed m bi j') = Some sentinel).
  { unfold at_ in HJ3. destruct (entry !! _) as [e|] eqn:E; [by cbn in HJ3; subst|]. apply lookup_ge_None in E. lia. }
  assert (HID : id_of i ≠ sentinel) by (unfold id_of; rewrite Hb; by apply (Forall_lookup_1 _ _ _ _ Hid Hb)).
  assert (HK : ∀ k, at_ entry k ≠ sentinel ∨ k = Z.to_nat (slot_of seed m bi j') → at_ (<[Z.to_nat (slot_of seed m bi j') := id_of i]> entry) k ≠ sentinel).
  { intros k HK. unfold at_ in *. destruct (decide (k = Z.to_nat (slot_of seed m bi j'))) as [->|Hne].
    - by rewrite list_lookup_insert_eq by lia.
    - rewrite list_lookup_insert_ne by done. by destruct HK. }
  split.
  - by rewrite length_insert.
  - by rewrite length_insert.
  - rewrite filled_insert by done. by rewrite S3.
  - intros i' bi' k Hb' Hk. apply HK. destruct (decide (i' = i)) as [->|Hne].
    + rewrite list_lookup_insert_eq in Hk by lia. simplify_eq. cbn in Hk. destruct (decide (k = j')) as [->|]; [by right|left].
      destruct (decide (k < default 0 (nexts !! i))%nat); [by eapply S4|]. apply HJ4. lia.
    + rewrite list_lookup_insert_ne in Hk by done. left. by eapply S4.
  - intros i'. destruct (decide (i' = i)) as [->|Hne]; [rewrite list_lookup_insert_eq by lia; cbn; lia|].
    rewrite list_lookup_insert_ne by done. apply S5.
Qed.

(** ** The loop *)

Context (Hm : Z.of_nat m ≤ 131072) (Hw : Forall small_weight backends).

Notation w := (weight_of backends).
Notation W := (zsum w l).

(** The turns up to step [n]: with weights, the counters are right and the shares follow the weights;
    without, the backends take turns in order. *)
Definition turns_ok (used : bool) n owners (cntrs : list Q) : Prop :=
  if used then cntrs_ok backends owners cntrs ∧ ∀ i, (i < l)%nat → turns owners i * W ≤ Z.of_nat n * w i + 2 * W
  else owners = reverse ((λ n, n mod l)%nat <$> seq 0 n).

Record loop_ok (used : bool) n owners (st : table_state) : Prop := {
  lo_length : length owners = n;
  lo_owners : Forall (λ i, (i < l)%nat) owners;
  lo_slots : slots_ok owners (nexts st) (entries st);
  lo_turns : turns_ok used n owners (weightCntr st);
}.

Lemma step_ok used n owners st : (used = true → 2 ≤ W) → (n < m)%nat → loop_ok used n owners st →
  ∃ i st', table_step backends perm m used W st n = Some st' ∧ loop_ok used (S n) (i :: owners) st'.
Proof.
  intros HU Hn [L1 L2 L3 L4]. unfold table_step.
  assert (HT : ∃ i cntrs, (if used then take_turn l backends W n (n mod l) (weightCntr st) else Some ((n mod l)%nat, weightCntr st)) = Some (i, cntrs) ∧
    (i < l)%nat ∧ turns_ok used (S n) (i :: owners) cntrs).
  { destruct used; cbn [turns_ok] in *.
    - destruct L4 as [HC HS]. destruct (take_turn_ok backends Hl Hw (HU eq_refl) n owners (weightCntr st)) as (i & c & H1 & H2 & H3 & H4); [lia|done..|].
      exists i, c. split; [done|]. split; [done|]. split; [done|]. intros j Hj. specialize (HS j Hj). cbn [count_occ].
      pose proof (w_bound backends Hw j). destruct (Nat.eq_dec i j) as [<-|]; lia.
    - eexists _, _. split; [done|]. split; [apply Nat.mod_upper_bound; lia|]. unfold turns_ok in *. by rewrite seq_S, fmap_app, reverse_app, L4. }
  destruct HT as (i & cntrs & -> & Hi & HT). cbn [mbind option_bind].
  destruct (slot_step owners (nexts st) (entries st) i L3 ltac:(lia) Hi) as (c & next & -> & HS). cbn [mbind option_bind].
  eexists i, _. split; [done|]. split; [cbn; lia|by constructor|done|done].
Qed.

Lemma loop_complete used : (used = true → 2 ≤ W) → ∀ k n owners st, (n + k = m)%nat → loop_ok used n owners st →
  ∃ owners' st', table_loop backends perm m used W st (seq n k) = Some st' ∧ loop_ok used m owners' st'.
Proof.
  intros HU. induction k as [|k IH]; intros n owners st Hk HL; cbn [seq table_loop]; [exists owners, st; split; [done|]; by replace m with n by lia|].
  destruct (step_ok used n owners st HU ltac:(lia) HL) as (i & st' & -> & HL'). cbn [mbind option_bind]. by apply (IH (S n) (i :: owners)); [lia|].
Qed.
End table.

(** ** The table *)

(** Turns in order, counted. *)
Lemma count_round_robin l i : (i < l)%nat → ∀ n, let k := count_occ Nat.eq_dec ((λ n, n mod l)%nat <$> seq 0 n) i in
  (l * k ≤ n + l - 1 - i < l * k + l)%nat.
Proof.
  intros Hi. induction n as [|n IH]; [cbn; lia|]. cbn zeta in *. rewrite seq_S, fmap_app, count_occ_app. cbn [fmap list_fmap count_occ].
  set (k := count_occ _ _ i) in *. rewrite Nat.add_0_l. pose proof (Nat.div_mod_eq n l) as HD. destruct (Nat.eq_dec (n mod l)%nat i) as [E|E].
  - rewrite E in HD. split; [|lia]. assert (k ≤ n / l)%nat; [|nia]. destruct (decide (k ≤ n / l)%nat); [done|]. nia.
  - split; [lia|]. destruct (decide (n - i = l * k ∧ i ≤ n)%nat) as [[E2 Hin]|]; [|lia]. destruct E.
    replace n with (i + k * l)%nat by lia. by rewrite Nat.Div0.mod_add, Nat.mod_small.
Qed.

(** The slots that a backend of weight [w] out of [W] gets of [m], with [l] backends. *)
Definition fair_share (l m W w k : Z) : Prop :=
  if 1 <? W / l then m * w - 2 * (l - 1) * W ≤ k * W ≤ m * w + 2 * W else m / l ≤ k ≤ (m + l - 1) / l.

Lemma turns_fair backends m used owners cntrs i : (i < length backends)%nat → length owners = m → Forall (λ i, (i < length backends)%nat) owners →
  let l := Z.of_nat (length backends) in let W := zsum (weight_of backends) (length backends) in used = (1 <? W / l) →
  turns_ok backends used m owners cntrs → fair_share l (Z.of_nat m) W (weight_of backends i) (turns owners i).
Proof.
  intros Hi HL HO l W HU HT. unfold fair_share. rewrite <- HU. destruct used; cbn [turns_ok] in HT.
  - destruct HT as [_ HS]. split; [|by apply HS]. pose proof (zsum_but (λ j, W * turns owners j) (λ j, Z.of_nat m * weight_of backends j) _ (2 * W) i Hi
      ltac:(intros j Hj; cbn beta; specialize (HS j Hj); fold W in HS; lia)) as HB. cbn beta in HB.
    rewrite (zsum_scale W), (zsum_scale (Z.of_nat m)), (zsum_turns owners _ HO), HL in HB. fold W l in HB. lia.
  - unfold turns_ok in HT. pose proof (count_round_robin (length backends) i Hi m) as HC. cbv zeta in HC.
    assert (E : count_occ Nat.eq_dec owners i = count_occ Nat.eq_dec ((λ n, n mod length backends)%nat <$> seq 0 m) i).
    { rewrite HT. by apply Permutation_count_occ, reverse_Permutation. }
    rewrite E. set (k := count_occ _ _ i) in *. split.
    + apply Z.lt_succ_r, Z.div_lt_upper_bound; lia.
    + apply Z.div_le_lower_bound; lia.
Qed.

Definition backend_ok (bi : BackendInfo) : Prop := small_weight bi ∧ 0 ≤ b_ID bi < sentinel.

(** Few enough backends for the sum of the weights to be exact. *)
Definition backends_ok backends : Prop := Forall backend_ok backends ∧ Z.of_nat (length backends) < 2 ^ 32.

Lemma computeLookupTable_ok {WP : WorkerPool} numCPU backends ml :
  TableSize ml ∈ maglevSupportedTableSizes → backends ≠ [] → backends_ok backends →
  let m := Z.to_nat (TableSize ml) in let l := Z.of_nat (length backends) in let W := weight_sum backends in
  ∃ ml' table owners, computeLookupTable numCPU backends ml = inr (ml', table) ∧ length table = m ∧
    Forall (λ i, (i < length backends)%nat) owners ∧ table ≡ₚ id_of backends <$> owners ∧
    ∀ i, (i < length backends)%nat → fair_share l (TableSize ml) W (weight_of backends i) (turns owners i).
Proof.
  intros HT HB [HF HL] m l W. destruct (supported_prime _ HT) as [HP Hm].
  assert (Em : Z.of_nat m = TableSize ml) by (unfold m; lia). rewrite <- Em in HP, Hm.
  assert (Hl : (0 < length backends)%nat) by (destruct backends; [done|cbn; lia]).
  assert (HW : Forall small_weight backends) by (eapply Forall_impl; [exact HF|]; by intros ? []).
  assert (HI : Forall (λ bi, b_ID bi ≠ sentinel) backends) by (eapply Forall_impl; [exact HF|]; intros ? []; cbn beta; lia).
  destruct (weight_sum_ok backends HW HL) as [EW _]. unfold computeLookupTable. rewrite bool_decide_false by lia.
  destruct (getPermutation_ok backends numCPU ml ltac:(lia) HB) as (_ & _ & Hperm). destruct (getPermutation backends numCPU ml) as [ml' perm].
  cbn [snd] in Hperm. fold m in Hperm |- *. fold l W. set (used := 1 <? W / l). set (st := mkTable _ _ _).
  assert (HS : loop_ok (SeedMurmur ml) m backends used 0 [] st).
  { split; [done|constructor|split|]; unfold st; cbn.
    - by rewrite length_replicate.
    - by rewrite length_replicate.
    - clear. by induction m.
    - intros i bi j _. destruct (replicate _ _ !! i) eqn:E; [apply lookup_replicate in E as [-> _]|]; cbn; lia.
    - intros i. destruct (replicate _ _ !! i) eqn:E; [apply lookup_replicate in E as [-> _]|]; cbn; lia.
    - unfold turns_ok. destruct used eqn:EU; [|done]. split.
      + split; [by rewrite length_map|]. intros i Hi. destruct (lookup_lt_is_Some_2 backends i Hi) as [bi Hb].
        unfold weight_of. rewrite list_lookup_fmap, Hb. cbn. apply cntr_init; [lia|]. by apply (Forall_lookup_1 _ _ _ _ HW Hb).
      + intros i Hi. cbn. pose proof (w_bound backends HW 0). pose proof (weight_sum_ok backends HW HL). lia. }
  destruct (loop_complete (SeedMurmur ml) m backends perm HP Hl Hperm HI ltac:(lia) HW used) with (k := m) (n := 0%nat) (owners := @nil nat) (st := st)
    as (owners & st' & HE & [L1 L2 [S1 S2 S3 S4 S5] L4]); [|lia|done|].
  { intros HU. unfold used in HU. apply Z.ltb_lt in HU. rewrite <- EW. fold W. assert (2 * l ≤ W); [|lia].
    transitivity (l * (W / l)); [nia|]. apply Z.mul_div_le. lia. }
  rewrite <- EW in HE. fold W in HE. rewrite HE. exists ml', (entries st'), owners. split; [done|]. split; [done|]. split; [done|]. split.
  - rewrite <- S3. rewrite filled_all; [done|]. by rewrite S3, length_fmap, L1.
  - intros i Hi. rewrite <- Em. unfold W. rewrite EW. eapply turns_fair; [done|done|done| |done]. unfold used, W, l. by rewrite EW.
Qed.

(** ** Any order of the backends *)

Lemma backends_ok_perm backends backends' : backends ≡ₚ backends' → backends_ok backends → backends_ok backends'.
Proof. intros HP [H1 H2]. split; [by rewrite <- HP|by rewrite <- HP]. Qed.

Lemma weight_sum_perm backends backends' : backends ≡ₚ backends' → weight_sum backends = weight_sum backends'.
Proof.
  assert (HS : ∀ b s, foldl (λ s bi, uwrap 64 (s + Weight bi)) s b = match b with [] => s | _ => uwrap 64 (s + foldr (λ bi t, Weight bi + t) 0 b) end).
  { induction b as [|bi b IH]; intros s; [done|]. cbn [foldl foldr]. rewrite IH. unfold uwrap. destruct b; [cbn; by rewrite Z.add_0_r|].
    rewrite Zplus_mod_idemp_l. f_equal. lia. }
  assert (HT : ∀ b b', b ≡ₚ b' → foldr (λ bi t, Weight bi + t) 0 b = foldr (λ bi t, Weight bi + t) 0 b') by (induction 1; cbn; lia).
  intros HP. unfold weight_sum. rewrite !HS, (HT _ _ HP). destruct backends, backends'; [done|by apply Permutation_nil_cons in HP|by symmetry in HP; apply Permutation_nil_cons in HP|done].
Qed.

Lemma setHashString_fields bi : b_ID (setHashString bi) = b_ID bi ∧ Weight (setHashString bi) = Weight bi.
Proof. unfold setHashString. by case_bool_decide. Qed.

Lemma hashed_ids backends : b_ID <$> (setHashString <$> backends) = b_ID <$> backends.
Proof. rewrite <- list_fmap_compose. apply list_fmap_ext. intros i bi _. apply setHashString_fields. Qed.

Lemma hashed_ok backends : backends_ok backends → backends_ok (setHashString <$> backends).
Proof.
  intros [H1 H2]. split; [|by rewrite length_fmap]. rewrite Forall_fmap. eapply Forall_impl; [exact H1|]. intros bi Hb. cbn.
  unfold backend_ok, small_weight in *. by destruct (setHashString_fields bi) as [-> ->].
Qed.

Lemma hashed_weight_sum backends : weight_sum (setHashString <$> backends) = weight_sum backends.
Proof. unfold weight_sum. generalize 0. induction backends as [|bi b IH]; intros s; [done|]. cbn. by rewrite IH, (proj2 (setHashString_fields bi)). Qed.

(** The slots of the table that hold the identifier of a backend. *)
Definition share (table : list Z) (bi : BackendInfo) : Z := Z.of_nat (count_occ Z.eq_dec table (b_ID bi)).

Lemma count_ids backends owners i bi : NoDup (b_ID <$> backends) → Forall (λ i, (i < length backends)%nat) owners → backends !! i = Some bi →
  count_occ Z.eq_dec (id_of backends <$> owners) (b_ID bi) = count_occ Nat.eq_dec owners i.
Proof.
  intros HN HO Hb. induction HO as [|j owners Hj HO IH]; [done|]. cbn [fmap list_fmap count_occ]. rewrite IH.
  destruct (lookup_lt_is_Some_2 backends j Hj) as [bj Hbj].
  assert (HE : id_of backends j = b_ID bi ↔ j = i).
  { unfold id_of. rewrite Hbj. cbn. split; [|intros ->; congruence]. intros E. eapply (NoDup_lookup _ _ _ (b_ID bi) HN); rewrite list_lookup_fmap.
    - by rewrite Hbj, <- E.
    - by rewrite Hb. }
  destruct (Z.eq_dec _ _), (Nat.eq_dec j i); tauto || lia.
Qed.

(** The rows are all that the buffer holds. *)
Lemma getPermutation_unique (WP WP' : WorkerPool) backends backends' numCPU numCPU' ml ml' :
  1 < TableSize ml → TableSize ml = TableSize ml' → SeedMurmur ml = SeedMurmur ml' → hashString <$> backends = hashString <$> backends' →
  (@getPermutation WP backends numCPU ml).2 = (@getPermutation WP' backends' numCPU' ml').2.
Proof.
  intros HT ET ES EH. assert (EL : length backends = length backends') by (by rewrite <- (length_fmap hashString), EH, length_fmap).
  destruct (decide (backends = [])) as [->|HB]; [by destruct backends'|]. assert (HB' : backends' ≠ []) by (by intros ->; destruct backends).
  destruct (@getPermutation_ok WP backends numCPU ml HT HB) as (_ & _ & H1). destruct (@getPermutation_ok WP' backends' numCPU' ml' ltac:(lia) HB') as (_ & _ & H2).
  rewrite <- ET, <- ES in H2. set (m := Z.to_nat (TableSize ml)) in *. apply (list_eq_same_length _ _ (length backends * m)).
  - rewrite EL. apply getPermutation_length; [done|unfold m; by rewrite ET|unfold m; lia].
  - apply getPermutation_length; [done|done|unfold m; lia].
  - intros k x y Hk Hx Hy. assert (Hm : (0 < m)%nat) by (unfold m; lia). pose proof (Nat.div_mod_eq k m) as EK.
    assert (Hi : (k / m < length backends)%nat) by (apply Nat.Div0.div_lt_upper_bound; lia).
    destruct (lookup_lt_is_Some_2 backends _ Hi) as [bi Hb]. rewrite EL in Hi. destruct (lookup_lt_is_Some_2 backends' _ Hi) as [bi' Hb'].
    pose proof (Nat.mod_upper_bound k m ltac:(lia)) as Hj. specialize (H1 _ _ _ Hb Hj). specialize (H2 _ _ _ Hb' Hj).
    assert (EB : hashString bi = hashString bi').
    { pose proof (f_equal (.!! (k / m)%nat) EH) as HE. cbn in HE. rewrite !list_lookup_fmap, Hb, Hb' in HE. by injection HE. }
    unfold slot_of in *. rewrite <- EB in H2. replace (k / m * m + k mod m)%nat with k in * by lia. congruence.
Qed.

(** ** Configurations *)

Lemma base64_value_range (ch : Ascii.ascii) v : base64_value ch = Some v → 0 ≤ v < 64.
Proof. unfold base64_value. intros H. repeat (case_match; simplify_eq; try lia). Qed.

(** Bytes of base64 digits. *)
Ltac bytes := rewrite !Forall_cons, Forall_nil; change (2 ^ 8) with 256; repeat split; Z.to_euclidean_division_equations; lia.

Lemma base64_quantum_bytes a b (c d : option Ascii.ascii) q : base64_quantum a b c d = Some q → Forall (is_uint 8) q.
Proof.
  unfold base64_quantum, is_uint. intros H. destruct (base64_value a) as [va|] eqn:Ea; [|done]. destruct (base64_value b) as [vb|] eqn:Eb; [|done].
  apply base64_value_range in Ea, Eb. cbn [mbind option_bind] in H. destruct c as [c|]; [|simplify_eq; bytes].
  destruct (base64_value c) as [vc|] eqn:Ec; [apply base64_value_range in Ec|by destruct d].
  destruct d as [d|]; [|simplify_eq; cbn in H; simplify_eq; bytes]. cbn [mbind option_bind] in H.
  destruct (base64_value d) as [vd|] eqn:Ed; [apply base64_value_range in Ed|done]. cbn in H. simplify_eq. bytes.
Qed.

Lemma base64_decode_bytes s r : base64_decode s = Some r → Forall (is_uint 8) r.
Proof.
  revert r. induction s as [s IH] using (induction_ltof1 _ length). unfold ltof in IH. intros r. destruct s as [|a [|b [|c [|d rest]]]]; [by intros [= <-]|done..|].
  cbn [base64_decode]. destruct (_ && _); [apply base64_quantum_bytes|]. destruct (base64_quantum _ _ _ _) as [q|] eqn:Eq; [|done].
  destruct (base64_decode rest) as [r'|] eqn:Er; [|done]. intros [= <-]. apply Forall_app. split; [by eapply base64_quantum_bytes|]. apply (IH rest); [cbn; lia|done].
Qed.

Lemma seed_word_range (a b c d : Z) : is_uint 8 a → is_uint 8 b → is_uint 8 c → is_uint 8 d → is_uint 32 (seed_word a b c d).
Proof.
  unfold is_uint, seed_word. intros Ha Hb Hc Hd. rewrite !Z.shiftl_mul_pow2 by lia.
  assert (HL : ∀ x y, 0 ≤ x < 2 ^ 32 → 0 ≤ y < 2 ^ 32 → 0 ≤ Z.lor x y < 2 ^ 32).
  { intros x y Hx Hy. assert (0 ≤ Z.lor x y) by (apply Z.lor_nonneg; lia). split; [done|]. destruct (decide (Z.lor x y = 0)) as [->|Hn]; [done|].
    apply Z.log2_lt_pow2; [lia|]. rewrite Z.log2_lor by lia. apply Z.max_lub_lt; [destruct (decide (x = 0)) as [->|]; [done|]|destruct (decide (y = 0)) as [->|]; [done|]]; apply Z.log2_lt_pow2; lia. }
  repeat apply HL; lia.
Qed.

(** An accepted configuration has a supported size and seeds of 32 bits. *)
Lemma ToConfig_ok userCfg cfg : ToConfig userCfg = inr cfg →
  c_TableSize cfg ∈ maglevSupportedTableSizes ∧ is_uint 32 (c_SeedMurmur cfg) ∧ is_uint 32 (SeedJhash0 cfg) ∧ is_uint 32 (SeedJhash1 cfg).
Proof.
  unfold ToConfig. case_bool_decide as HT; [|done]. destruct (DecodeString _) as [d|] eqn:E; [|done]. apply base64_decode_bytes in E.
  do 13 (destruct d as [|? d]; try done). intros [= <-]. cbn. rewrite !Forall_cons in E. destruct_and! E. auto using seed_word_range.
Qed.

Section claims.
Context {WP : WorkerPool} {GS : GoSort}.

(** [GetLookupTable] in terms of the backends as they were listed. *)
Lemma GetLookupTable_ok numCPU backends ml : TableSize ml ∈ maglevSupportedTableSizes → backends ≠ [] → backends_ok backends →
  ∃ ml' table owners sorted, GetLookupTable numCPU backends ml = inr (ml', table) ∧ sorted ≡ₚ setHashString <$> backends ∧
    length table = Z.to_nat (TableSize ml) ∧ Forall (λ i, (i < length sorted)%nat) owners ∧ table ≡ₚ id_of sorted <$> owners ∧
    ∀ i, (i < length sorted)%nat →
      fair_share (Z.of_nat (length backends)) (TableSize ml) (weight_sum backends) (weight_of sorted i) (turns owners i).
Proof.
  intros HT HB HO. unfold GetLookupTable. pose proof (sort_by_perm hash_le (setHashString <$> backends)) as HP. set (sorted := sort_by _ _) in *.
  destruct (computeLookupTable_ok numCPU sorted ml HT) as (ml' & table & owners & H1 & H2 & H3 & H4 & H5).
  { intros E. rewrite E in HP. symmetry in HP. apply Permutation_nil_r in HP. by apply fmap_nil_inv in HP. }
  { eapply backends_ok_perm; [symmetry; exact HP|by apply hashed_ok]. }
  exists ml', table, owners, sorted. split; [done|]. split; [done|]. split; [done|]. split; [done|]. split; [done|]. intros i Hi.
  rewrite <- hashed_weight_sum, <- (weight_sum_perm _ _ HP). replace (length backends) with (length sorted) by (by rewrite HP, length_fmap). by apply H5.
Qed.

(** C5. With an accepted configuration a lookup table is always found, whatever the weights (of 16 bits) and in spite of the rounding
    of the floating-point counters: the loop over the turns ends, and every slot of the table holds the
    identifier of one of the backends, never the mark of an empty slot. *)
Theorem maglev_table_complete userCfg cfg numCPU backends ml : ToConfig userCfg = inr cfg → TableSize ml = c_TableSize cfg → backends ≠ [] → backends_ok backends →
  ∃ ml' table, GetLookupTable numCPU backends ml = inr (ml', table) ∧ length table = Z.to_nat (TableSize ml) ∧
    ∀ id, id ∈ table → id ∈ b_ID <$> backends.
Proof.
  intros HC HT HB HO. apply ToConfig_ok in HC as [HC _]. rewrite <- HT in HC.
  destruct (GetLookupTable_ok numCPU backends ml HC HB HO) as (ml' & table & owners & sorted & H1 & HP & H2 & H3 & H4 & _).
  exists ml', table. split; [done|]. split; [done|]. intros id. rewrite H4. intros (i & -> & Hi)%list_elem_of_fmap.
  rewrite Forall_forall in H3. destruct (lookup_lt_is_Some_2 sorted i (H3 i Hi)) as [bi Hb]. rewrite <- hashed_ids, <- HP. unfold id_of. rewrite Hb.
  apply list_elem_of_fmap. exists bi. split; [done|]. by eapply list_elem_of_lookup_2.
Qed.

(** C25. The shares of the backends follow their weights.  When the weights are used, a backend has at
    most two slots more than its weight's share of the table, and at most two slots less for every other
    backend; else every backend has the same number of slots, up to one. *)
Theorem maglev_shares numCPU backends ml : TableSize ml ∈ maglevSupportedTableSizes → backends ≠ [] → backends_ok backends →
  NoDup (b_ID <$> backends) → ∃ ml' table, GetLookupTable numCPU backends ml = inr (ml', table) ∧
    ∀ bi, bi ∈ backends → fair_share (Z.of_nat (length backends)) (TableSize ml) (weight_sum backends) (Weight bi) (share table bi).
Proof.
  intros HT HB HO HN. destruct (GetLookupTable_ok numCPU backends ml HT HB HO) as (ml' & table & owners & sorted & H1 & HP & _ & H3 & H4 & H5).
  exists ml', table. split; [done|]. intros bi Hb.
  assert (Hs : setHashString bi ∈ sorted) by (rewrite HP; by apply list_elem_of_fmap_2). apply list_elem_of_lookup_1 in Hs as [i Hi].
  assert (HN' : NoDup (b_ID <$> sorted)) by (by rewrite HP, hashed_ids). destruct (setHashString_fields bi) as [E1 E2].
  unfold share. rewrite (proj1 (Permutation_count_occ Z.eq_dec _ _) H4 (b_ID bi)), <- E1, (count_ids sorted owners i) by done.
  specialize (H5 i (lookup_lt_Some _ _ _ Hi)). unfold weight_of in H5. rewrite Hi in H5. cbn in H5. by rewrite E2 in H5.
Qed.
End claims.

#[export] Instance hash_le_total : Total hash_le.
Proof. intros a b. apply (total String.le). Qed.

#[export] Instance hash_le_trans : Transitive hash_le.
Proof. intros a b c. unfold hash_le. apply transitivity. Qed.

(** Backends that are not ordered have the same hash string. *)
Lemma hash_le_antisymm (b : list BackendInfo) x1 x2 : NoDup (hashString <$> b) → x1 ∈ b → x2 ∈ b → hash_le x1 x2 → hash_le x2 x1 → x1 = x2.
Proof.
  intros HN [i1 H1]%list_elem_of_lookup_1 [i2 H2]%list_elem_of_lookup_1 L1 L2.
  assert (E : hashString x1 = hashString x2) by (rewrite <- (of_to_string (hashString x1)), <- (of_to_string (hashString x2)); f_equal; by apply (anti_symm String.le)).
  assert (i1 = i2) by (eapply (NoDup_lookup _ _ _ (hashString x1) HN); rewrite list_lookup_fmap; [by rewrite H1|by rewrite H2, E]). congruence.
Qed.

(** Backends with different hash strings are sorted in one way. *)
Lemma sorted_backends_unique (GS GS' : GoSort) (b b' : list BackendInfo) : b ≡ₚ b' → NoDup (hashString <$> b) →
  @sort_by GS _ hash_le _ b = @sort_by GS' _ hash_le _ b'.
Proof.
  intros HP HN. eapply (StronglySorted_unique_strong hash_le).
  - intros x1 x2 H1 H2 L1 L2. rewrite sort_by_perm in H1. rewrite sort_by_perm, <- HP in H2.
    by apply (hash_le_antisymm _ _ _ HN).
  - apply sort_by_sorted; apply _.
  - apply sort_by_sorted; apply _.
  - by rewrite !sort_by_perm.
Qed.

(** ** Identifiers of other nodes *)

Section rename.
Context (f : Z → Z) (Hf : ∀ id, f id = sentinel ↔ id = sentinel).

(** The backend as another node knows it. *)
Definition rename (bi : BackendInfo) : BackendInfo := mkBackend (f (b_ID bi)) (b_Addr bi) (Weight bi) (hashString bi).

Lemma rename_hashed bi : setHashString (rename bi) = rename (setHashString bi).
Proof. unfold setHashString. cbn. by case_bool_decide. Qed.

Lemma at_rename entry c : (at_ (f <$> entry) c =? sentinel) = (at_ entry c =? sentinel).
Proof.
  apply eq_true_iff_eq. rewrite !Z.eqb_eq. unfold at_. rewrite list_lookup_fmap. destruct (entry !! c); [apply Hf|done].
Qed.

Lemma next_slot_rename fuel perm entry m i next : next_slot fuel perm (f <$> entry) m i next = next_slot fuel perm entry m i next.
Proof. revert next. induction fuel as [|fuel IH]; intros next; [done|]. cbn [next_slot]. by rewrite at_rename, IH. Qed.

Lemma take_turn_rename fuel backends W n i cntrs : take_turn fuel (rename <$> backends) W n i cntrs = take_turn fuel backends W n i cntrs.
Proof.
  revert i. induction fuel as [|fuel IH]; intros i; [done|]. cbn [take_turn]. rewrite list_lookup_fmap, length_fmap, IH. by destruct (backends !! i).
Qed.

Lemma take_turn_lt fuel backends W n i cntrs i' cntrs' : (i < length backends)%nat → take_turn fuel backends W n i cntrs = Some (i', cntrs') → (i' < length backends)%nat.
Proof.
  revert i. induction fuel as [|fuel IH]; intros i Hi; [done|]. cbn [take_turn]. destruct (_ <? _); [|by intros [= <- _]].
  apply IH. apply Nat.mod_upper_bound. lia.
Qed.

Definition rename_state (st : table_state) : table_state := mkTable (weightCntr st) (nexts st) (f <$> entries st).

Lemma table_step_rename backends perm m used W st n : backends ≠ [] →
  table_step (rename <$> backends) perm m used W (rename_state st) n = rename_state <$> table_step backends perm m used W st n.
Proof.
  intros HB. unfold table_step. rewrite length_fmap, take_turn_rename. cbn [weightCntr rename_state].
  assert (Hl : (n mod length backends < length backends)%nat) by (apply Nat.mod_upper_bound; by destruct backends).
  destruct (if used then _ else _) as [[i c]|] eqn:E; [|done]. cbn [mbind option_bind entries nexts rename_state]. rewrite next_slot_rename.
  assert (Hi : (i < length backends)%nat) by (destruct used; [by eapply take_turn_lt|by simplify_eq]).
  destruct (next_slot _ _ _ _ _ _) as [[c' next]|]; [|done]. cbn [mbind option_bind fmap option_fmap option_map]. unfold rename_state. cbn.
  destruct (lookup_lt_is_Some_2 backends i Hi) as [bi Hb]. by rewrite list_lookup_fmap, Hb, list_fmap_insert.
Qed.

Lemma table_loop_rename backends perm m used W ns : backends ≠ [] → ∀ st,
  table_loop (rename <$> backends) perm m used W (rename_state st) ns = rename_state <$> table_loop backends perm m used W st ns.
Proof.
  intros HB. induction ns as [|n ns IH]; intros st; [done|]. cbn [table_loop]. rewrite table_step_rename by done.
  destruct (table_step _ _ _ _ _ _ _); [|done]. cbn [mbind option_bind fmap option_fmap option_map]. apply IH.
Qed.

Lemma rename_weight_sum backends : weight_sum (rename <$> backends) = weight_sum backends.
Proof. unfold weight_sum. generalize 0. induction backends as [|bi b IH]; intros s; [done|]. apply IH. Qed.

(** Sorted lists of backends, renamed. *)
Lemma sorted_rename (GS GS' : GoSort) (b b' : list BackendInfo) : b' ≡ₚ rename <$> b → NoDup (hashString <$> b) →
  @sort_by GS' _ hash_le _ b' = rename <$> @sort_by GS _ hash_le _ b.
Proof.
  intros HP HN. rewrite (sorted_backends_unique GS' GS b' (rename <$> b)); [|done|by rewrite HP, <- list_fmap_compose].
  assert (HN' : NoDup (hashString <$> (rename <$> b))) by (by rewrite <- list_fmap_compose). eapply (StronglySorted_unique_strong hash_le).
  - intros x1 x2 H1 H2. rewrite sort_by_perm in H1. rewrite sort_by_perm in H2. by apply (hash_le_antisymm _ _ _ HN').
  - apply sort_by_sorted; apply _.
  - assert (HS : StronglySorted hash_le (@sort_by GS _ hash_le _ b)) by (apply sort_by_sorted; apply _).
    induction HS as [|bi l HS IH HF]; [constructor|]. constructor; [done|]. change (Forall (hash_le (rename bi)) (rename <$> l)). by rewrite Forall_fmap.
  - by rewrite !sort_by_perm.
Qed.
End rename.

(** The table, or how its computation failed. *)
Definition table_of (r : failure + Maglev * list Z) : failure + list Z :=
  match r with inl e => inl e | inr (_, table) => inr table end.

(** The table of another node. *)
Definition rename_table (f : Z → Z) (r : failure + list Z) : failure + list Z :=
  match r with inl e => inl e | inr table => inr (f <$> table) end.

(** C7. Nodes agree on the table of a service, up to the identifiers of the backends, which are local to
    a node: the table does not depend on the order in which the backends are listed, on the sorting
    algorithm, on the number of processors, on the order in which the workers run or on what the buffer
    held before. *)
Theorem maglev_nodes_agree (WP WP' : WorkerPool) (GS GS' : GoSort) numCPU numCPU' backends backends' ml ml' (f : Z → Z) :
  TableSize ml ∈ maglevSupportedTableSizes → TableSize ml = TableSize ml' → SeedMurmur ml = SeedMurmur ml' →
  (∀ id, f id = sentinel ↔ id = sentinel) → backends' ≡ₚ rename f <$> backends → NoDup (hashString <$> (setHashString <$> backends)) →
  table_of (@GetLookupTable WP' GS' numCPU' backends' ml') = rename_table f (table_of (@GetLookupTable WP GS numCPU backends ml)).
Proof.
  intros HT ET ES Hf HP HN. unfold GetLookupTable.
  assert (HP' : setHashString <$> backends' ≡ₚ rename f <$> (setHashString <$> backends)).
  { rewrite HP, <- !list_fmap_compose. erewrite list_fmap_ext; [done|]. intros i bi _. apply rename_hashed. }
  rewrite (sorted_rename f GS GS' _ _ HP' HN). set (sorted := @sort_by GS _ _ _ _). destruct (supported_prime _ HT) as [_ Hm].
  unfold computeLookupTable. rewrite length_fmap, rename_weight_sum. case_bool_decide as Hl; [done|].
  assert (HB : sorted ≠ []) by (by intros ->). rewrite <- ET.
  pose proof (getPermutation_unique WP WP' sorted (rename f <$> sorted) numCPU numCPU' ml ml' ltac:(lia) ET ES) as E.
  destruct (@getPermutation WP sorted numCPU ml) as [ml1 perm1], (@getPermutation WP' (rename f <$> sorted) numCPU' ml') as [ml2 perm2].
  cbn [snd] in E. rewrite <- E by (by rewrite <- list_fmap_compose).
  set (st := mkTable (map _ sorted) _ _). set (st' := mkTable (map _ (rename f <$> sorted)) _ _).
  assert (ES' : st' = rename_state f st).
  { unfold st', st, rename_state. cbn. f_equal; [|by rewrite fmap_replicate, (proj2 (Hf sentinel) eq_refl)].
    change (map ?g ?x) with (g <$> x). by rewrite <- list_fmap_compose. }
  rewrite ES', table_loop_rename by done. by destruct (table_loop _ _ _ _ _ _ _).
Qed.

(** Without backends the division of the weights by their number fails. *)
Lemma maglev_no_backends {WP : WorkerPool} {GS : GoSort} numCPU ml : GetLookupTable numCPU [] ml = inl DivisionByZero.
Proof.
  unfold GetLookupTable, computeLookupTable. pose proof (sort_by_perm hash_le (setHashString <$> [])) as HP.
  symmetry in HP. apply Permutation_nil_l in HP. by rewrite <- HP.
Qed.

Module Examples.
Import Maglev.Examples.
#[local] Existing Instance pool_in_order.
#[local] Existing Instance sort_merge.

(** The workers run the last task first. *)
Definition pool_last_first : WorkerPool := {| Drain tasks := reverse tasks; Drain_perm tasks := reverse_Permutation tasks |}.

(** The runs of [TestReproducible] of [src/pkg/maglev/maglev_test.go]. *)
Definition expected_runs : list (Z * nat) :=
  [(2, 5%nat); (3, 1%nat); (2, 3%nat); (1, 1%nat); (2, 2%nat); (0, 1%nat); (2, 1%nat); (3, 1%nat);
   (2, 1%nat); (3, 1%nat); (2, 1%nat); (1, 1%nat); (2, 7%nat); (1, 1%nat); (2, 14%nat); (3, 1%nat);
   (2, 1%nat); (1, 2%nat); (2, 12%nat); (3, 1%nat); (2, 3%nat); (1, 1%nat); (2, 4%nat); (3, 1%nat);
   (2, 8%nat); (3, 1%nat); (2, 2%nat); (1, 1%nat); (2, 16%nat); (1, 2%nat); (2, 3%nat); (3, 1%nat);
   (2, 11%nat); (1, 2%nat); (2, 4%nat); (3, 1%nat); (2, 3%nat); (1, 1%nat); (2, 4%nat); (3, 1%nat);
   (2, 1%nat); (0, 1%nat); (1, 1%nat); (2, 8%nat); (1, 1%nat); (2, 7%nat); (1, 1%nat); (2, 4%nat);
   (3, 1%nat); (2, 1%nat); (3, 1%nat); (2, 9%nat); (1, 2%nat); (2, 5%nat); (1, 1%nat); (2, 7%nat);
   (3, 1%nat); (2, 1%nat); (3, 1%nat); (1, 1%nat); (2, 8%nat); (1, 1%nat); (2, 4%nat); (0, 1%nat);
   (2, 1%nat); (1, 1%nat); (2, 5%nat); (3, 1%nat); (2, 3%nat); (1, 1%nat); (2, 4%nat); (3, 1%nat);
   (2, 3%nat); (1, 1%nat); (2, 12%nat); (0, 1%nat); (3, 1%nat); (2, 3%nat); (3, 1%nat); (2, 4%nat);
   (3, 1%nat); (2, 2%nat); (1, 1%nat); (2, 7%nat)].

(** The table of [TestReproducible] of [src/pkg/maglev/maglev_test.go]. *)
Example reproducible : table_runs (GetLookupTable 4 four_backends small_maglev) = expected_runs.
Proof. vm_compute. reflexivity. Qed.

Lemma four_ok : backends_ok four_backends.
Proof. split; [|by vm_compute]. repeat (constructor; [split; unfold small_weight, sentinel; cbn; lia|]). constructor. Qed.

Lemma small_supported : TableSize small_maglev ∈ maglevSupportedTableSizes.
Proof. by left. Qed.

Lemma maglev_table_complete_witness : ∃ ml' table, GetLookupTable 4 four_backends small_maglev = inr (ml', table) ∧ length table = 251%nat ∧
  ∀ id, id ∈ table → id ∈ [0; 1; 2; 3].
Proof.
  exact (maglev_table_complete small_config _ 4 four_backends small_maglev (ltac:(vm_compute; reflexivity) : ToConfig small_config = inr (mkConfig 251 _ _ _ _))
    eq_refl ltac:(discriminate) four_ok).
Defined.

Lemma maglev_shares_witness : ∃ ml' table, GetLookupTable 4 four_backends small_maglev = inr (ml', table) ∧
  ∀ bi, bi ∈ four_backends → fair_share 4 251 136 (Weight bi) (share table bi).
Proof.
  exact (maglev_shares 4 four_backends small_maglev small_supported ltac:(discriminate) four_ok
    ltac:(apply (bool_decide_unpack _); vm_compute; exact I)).
Defined.

(** The other node has the identifiers 0 and 1 swapped. *)
Definition swap (id : Z) : Z := if id =? 0 then 1 else if id =? 1 then 0 else id.

Lemma swap_sentinel id : swap id = sentinel ↔ id = sentinel.
Proof. unfold swap, sentinel. destruct (Z.eqb_spec id 0), (Z.eqb_spec id 1); lia. Qed.

Lemma maglev_nodes_agree_witness :
  table_of (@GetLookupTable pool_last_first sort_merge 2 (reverse (rename swap <$> four_backends)) (mkMaglev 251 616034178 (replicate 2000 7))) =
  rename_table swap (table_of (GetLookupTable 4 four_backends small_maglev)).
Proof.
  apply (maglev_nodes_agree pool_in_order pool_last_first sort_merge sort_merge); [exact small_supported|reflexivity|reflexivity|exact swap_sentinel|apply reverse_Permutation|].
  apply (bool_decide_unpack _). vm_compute. exact I.
Defined.
End Examples.
