(* ===== verification/IpAlloc.v ===== *)
(** * The IP address allocator

    Model of [HashAllocator] of [src/pkg/ipalloc/ipalloc.go].  The free addresses are kept in blocks that
    are at once the elements of a heap, ordered by size, and of a list linked in the order of the
    addresses; blocks are objects, and heap and links refer to them by their addresses in memory. *)

From stdpp Require Import countable.
From S2P Require Import Prelude Text Netip GoLib.

Local Open Scope Z_scope.

(** ** Addresses *)

#[export] Instance Addr_countable : Countable Addr.
Proof.
  refine (inj_countable' (λ a, match a with V4 w => inl w | V6 w z => inr (w, z) end)
    (λ x, match x with inl w => V4 w | inr (w, z) => V6 w z end) _). by intros [].
Defined.

(** [netip.Addr]; [None] is its zero value. *)
Definition IP : Type := option Addr.

Definition IP_BitLen (ip : IP) : Z := match ip with None => 0 | Some a => BitLen a end.

Definition cmp_Z (x y : Z) : Z := if x <? y then -1 else if y <? x then 1 else 0.

Definition Zone (ip : IP) : text := match ip with Some (V6 _ z) => z | _ => [] end.

Definition IP_word (ip : IP) : Z := match ip with None => 0 | Some a => addr_word a end.

Definition Compare (ip ip2 : IP) : Z :=
  let c := cmp_Z (IP_BitLen ip) (IP_BitLen ip2) in
  if negb (c =? 0) then c
  else
    let c := cmp_Z (IP_word ip) (IP_word ip2) in
    if negb (c =? 0) then c
    else match String.compare (to_string (Zone ip)) (to_string (Zone ip2)) with Lt => -1 | Gt => 1 | Eq => 0 end.

Definition Next (ip : IP) : IP :=
  match ip with
  | None => None
  | Some (V4 w) => if uwrap 32 (w + 1) =? 0 then None else Some (V4 (w + 1))
  | Some (V6 w z) => if uwrap 128 (w + 1) =? 0 then None else Some (V6 (w + 1) z)
  end.

Definition Prev (ip : IP) : IP :=
  match ip with
  | None => None
  | Some (V4 w) => if w =? 0 then None else Some (V4 (w - 1))
  | Some (V6 w z) => if w =? 0 then None else Some (V6 (w - 1) z)
  end.

Definition As16 (ip : IP) : Z :=
  match ip with None => 0 | Some (V4 w) => Z.lor (Z.shiftl 65535 32) w | Some (V6 w _) => w end.

(** ** Sizes *)

Record uint128 := mkUint128 { hi : Z; lo : Z }.

Definition uint128_less (u other : uint128) : bool := if hi u =? hi other then lo u <? lo other else hi u <? hi other.

Definition uint128_sub (u other : uint128) : uint128 :=
  let h := uwrap 64 (hi u - hi other) in
  let l := uwrap 64 (lo u - lo other) in
  mkUint128 (if lo u <? lo other then uwrap 64 (h - 1) else h) l.

Definition uint128FromAddr (ip : IP) : uint128 := mkUint128 (Z.shiftr (As16 ip) 64) (Z.land (As16 ip) (Z.ones 64)).

Definition addrDiff (from to : IP) : uint128 := uint128_sub (uint128FromAddr to) (uint128FromAddr from).

(** ** Blocks *)

Record linkedBlock := mkBlock { from : IP; to : IP; bsize : uint128; prev : option Z; next : option Z }.

Definition within (b : linkedBlock) (ip : IP) : bool := (0 <=? Compare ip (from b)) && (Compare ip (to b) <=? 0).

Definition calcSize (b : linkedBlock) : linkedBlock := mkBlock (from b) (to b) (addrDiff (from b) (to b)) (prev b) (next b).

Definition set_from ip b : linkedBlock := mkBlock ip (to b) (bsize b) (prev b) (next b).
Definition set_to ip b : linkedBlock := mkBlock (from b) ip (bsize b) (prev b) (next b).
Definition set_prev p b : linkedBlock := mkBlock (from b) (to b) (bsize b) p (next b).
Definition set_next p b : linkedBlock := mkBlock (from b) (to b) (bsize b) (prev b) p.

(** The slice of the blocks, the blocks by their addresses, and the address of the next block. *)
Record availableBlockList := mkAbl { slots : list Z; objs : gmap Z linkedBlock; fresh : Z }.

Inductive alloc_error := ErrFull | ErrOutOfRange | ErrInUse | ErrNotFound | ErrBadLoop | Panic | OutOfFuel.

Definition ebind {A B} (m : alloc_error + A) (f : A → alloc_error + B) : alloc_error + B :=
  match m with inl e => inl e | inr x => f x end.
#[local] Notation "x '<~' m ';;' k" := (ebind m (λ x, k)) (at level 100, m at next level, right associativity).

Implicit Types (s : availableBlockList) (p q : Z) (ip : IP).

Definition block_at s p : linkedBlock := default (mkBlock None None (mkUint128 0 0) None None) (objs s !! p).

Definition update p (f : linkedBlock → linkedBlock) s : availableBlockList := mkAbl (slots s) (alter f p (objs s)) (fresh s).

(** [if p != nil { f }]. *)
Definition update_opt (p : option Z) (f : linkedBlock → linkedBlock) s : availableBlockList :=
  match p with Some p => update p f s | None => s end.

Definition new_block (b : linkedBlock) s : availableBlockList * Z := (mkAbl (slots s) (<[fresh s := b]> (objs s)) (fresh s + 1), fresh s).

Definition block_less s p q : bool := uint128_less (bsize (block_at s p)) (bsize (block_at s q)).

Definition heap_fix (i : nat) s : alloc_error + availableBlockList :=
  match Fix (block_less s) (slots s) i with Some l => inr (mkAbl l (objs s) (fresh s)) | None => inl Panic end.

Definition heap_remove (i : nat) s : alloc_error + availableBlockList * Z :=
  match Remove (block_less s) (slots s) i with Some (l, p) => inr (mkAbl l (objs s) (fresh s), p) | None => inl Panic end.

Definition heap_push p s : availableBlockList := mkAbl (heap_Push (block_less s) (slots s) p) (objs s) (fresh s).

(** ** Taking an address *)

Definition abl_delete (idx : nat) s : alloc_error + availableBlockList :=
  r <~ heap_remove idx s;;
  let '(s, elem) := r in
  let s := update_opt (prev (block_at s elem)) (set_next (next (block_at s elem))) s in
  inr (update_opt (next (block_at s elem)) (set_prev (prev (block_at s elem))) s).

Definition split_block (index : nat) p ip s : alloc_error + availableBlockList :=
  r <~ heap_remove index s;;
  let b := block_at s p in
  let '(s, leftBlock) := new_block (calcSize (mkBlock (from b) (Prev ip) (mkUint128 0 0) None None)) r.1 in
  let '(s, rightBlock) := new_block (calcSize (mkBlock (Next ip) (to b) (mkUint128 0 0) None None)) s in
  let s := match prev b with Some q => update leftBlock (set_prev (Some q)) (update q (set_next (Some leftBlock)) s) | None => s end in
  let s := update rightBlock (set_prev (Some leftBlock)) (update leftBlock (set_next (Some rightBlock)) s) in
  let s := match next b with Some q => update q (set_prev (Some rightBlock)) (update rightBlock (set_next (Some q)) s) | None => s end in
  inr (heap_push rightBlock (heap_push leftBlock s)).

Definition take_ip ip s : alloc_error + availableBlockList :=
  match list_find (λ p, within (block_at s p) ip) (slots s) with
  | None => inl ErrInUse
  | Some (index, p) =>
      let b := block_at s p in
      if bool_decide (from b = ip) then
        if bool_decide (from b = to b) then abl_delete index s
        else heap_fix index (update p (λ b, calcSize (set_from (Next (from b)) b)) s)
      else if bool_decide (to b = ip) then
        if bool_decide (from b = to b) then abl_delete index s
        else heap_fix index (update p (λ b, calcSize (set_to (Prev (to b)) b)) s)
      else split_block index p ip s
  end.

(** ** Returning an address *)

(** [slices.Index], and the panic of [heap.Remove] for an index of -1. *)
Definition remove_block p s : alloc_error + availableBlockList :=
  match list_find (p =.) (slots s) with
  | None => inl Panic
  | Some (i, _) => r <~ heap_remove i s;; inr r.1
  end.

Definition merge (left right : Z) s : alloc_error + availableBlockList :=
  let leftOfLeft := prev (block_at s left) in
  let rightOfRight := next (block_at s right) in
  let '(s, merged) := new_block (calcSize (mkBlock (from (block_at s left)) (to (block_at s right)) (mkUint128 0 0) leftOfLeft rightOfRight)) s in
  let s := update_opt leftOfLeft (set_next (Some merged)) s in
  let s := update_opt rightOfRight (set_prev (Some merged)) s in
  s <~ remove_block left s;;
  s <~ remove_block right s;;
  inr (heap_push merged s).

Definition insert_block (left right : option Z) ip s : availableBlockList :=
  let '(s, p) := new_block (mkBlock ip ip (mkUint128 0 1) left right) s in
  let s := update_opt left (set_next (Some p)) s in
  heap_push p (update_opt right (set_prev (Some p)) s).

Definition grow_left curr s : alloc_error + availableBlockList :=
  let s := update curr (λ b, calcSize (set_from (Prev (from b)) b)) s in
  match prev (block_at s curr) with
  | Some q => if bool_decide (to (block_at s q) = Prev (from (block_at s curr))) then merge q curr s else inr s
  | None => inr s
  end.

(** The index passed to [heap.Fix] is the counter of the loop. *)
Definition grow_right (i : Z) curr s : alloc_error + availableBlockList :=
  s <~ heap_fix (Z.to_nat i) (update curr (λ b, calcSize (set_to (Next (to b)) b)) s);;
  match next (block_at s curr) with
  | Some q => if bool_decide (from (block_at s q) = Next (to (block_at s curr))) then merge curr q s else inr s
  | None => inr s
  end.

Definition maxIter : Z := 1000000.

Fixpoint put_loop (fuel : nat) (i curr : Z) (back : option Z) ip s : alloc_error + availableBlockList :=
  match fuel with
  | O => inl OutOfFuel
  | S fuel =>
      if maxIter <=? i then inl ErrBadLoop
      else
        let b := block_at s curr in
        if Compare ip (from b) <? 0 then
          if bool_decide (Prev (from b) = ip) then grow_left curr s
          else match prev b with
          | Some q =>
              if bool_decide (Some q = back) then inr (insert_block (Some q) (Some curr) ip s)
              else put_loop fuel (i + 1) q (Some curr) ip s
          | None => inr (insert_block None (Some curr) ip s)
          end
        else if bool_decide (Next (to b) = ip) then grow_right i curr s
        else match next b with
        | Some q =>
            if bool_decide (Some q = back) then inr (insert_block (Some curr) (Some q) ip s)
            else put_loop fuel (i + 1) q (Some curr) ip s
        | None => inr (insert_block (Some curr) None ip s)
        end
  end.

Definition put ip s : alloc_error + availableBlockList :=
  match slots s with
  | [] => let '(s, p) := new_block (mkBlock ip ip (mkUint128 0 1) None None) s in inr (heap_push p s)
  | curr :: _ => put_loop (S (length (slots s))) 0 curr None ip s
  end.

(** ** The allocator *)

Record HashAllocator (T : Type) := mkAllocator {
  a_start : IP;
  a_stop : IP;
  peakAllocations : Z;
  allocations : gmap Addr T;
  availableBlocks : availableBlockList;
}.
Arguments mkAllocator {T}.
Arguments a_start {T}.
Arguments a_stop {T}.
Arguments peakAllocations {T}.
Arguments allocations {T}.
Arguments availableBlocks {T}.

Inductive range_error := Uninitialized | FamiliesDiffer | StartAfterStop.

Section allocator.
Context {T : Type}.
Implicit Types (a : HashAllocator T) (v : T).

Definition NewHashAllocator (start stop : IP) : range_error + HashAllocator T :=
  if bool_decide (start = None) then inl Uninitialized
  else if negb (IP_BitLen start =? IP_BitLen stop) then inl FamiliesDiffer
  else if 0 <? Compare start stop then inl StartAfterStop
  else inr (mkAllocator start stop 0 ∅ (mkAbl [0] {[0 := calcSize (mkBlock start stop (mkUint128 0 0) None None)]} 1)).

(** The value stored under an address; the zero value of [netip.Addr] is never allocated. *)
Definition allocated a ip : option T := ip ≫= λ x, allocations a !! x.

Definition set_value ip v (m : gmap Addr T) : gmap Addr T := match ip with Some x => <[x := v]> m | None => m end.

(** The tail of [AllocAny] and [Alloc]. *)
Definition record_alloc ip v (s : availableBlockList) a : HashAllocator T :=
  let m := set_value ip v (allocations a) in
  mkAllocator (a_start a) (a_stop a) (if peakAllocations a <? Z.of_nat (size m) then Z.of_nat (size m) else peakAllocations a) m s.

Definition AllocAny v a : alloc_error + HashAllocator T * IP :=
  match slots (availableBlocks a) with
  | [] => inl ErrFull
  | p :: _ =>
      let ip := from (block_at (availableBlocks a) p) in
      s <~ take_ip ip (availableBlocks a);;
      inr (record_alloc ip v s a, ip)
  end.

Definition Alloc ip v a : alloc_error + HashAllocator T :=
  if (Compare ip (a_start a) <? 0) || (0 <? Compare ip (a_stop a)) then inl ErrOutOfRange
  else if bool_decide (is_Some (allocated a ip)) then inl ErrInUse
  else if bool_decide (slots (availableBlocks a) = []) then inl ErrFull
  else
    s <~ take_ip ip (availableBlocks a);;
    inr (record_alloc ip v s a).

Definition Update ip v a : alloc_error + HashAllocator T :=
  if bool_decide (is_Some (allocated a ip))
  then inr (mkAllocator (a_start a) (a_stop a) (peakAllocations a) (set_value ip v (allocations a)) (availableBlocks a))
  else inl ErrNotFound.

Definition Free ip a : alloc_error + HashAllocator T :=
  match ip with
  | Some x =>
      if bool_decide (is_Some (allocations a !! x)) then
        s <~ put ip (availableBlocks a);;
        let m := delete x (allocations a) in
        let n := Z.of_nat (size m) in
        inr (mkAllocator (a_start a) (a_stop a) (if n * 3 <? peakAllocations a then n else peakAllocations a) m s)
      else inl ErrNotFound
  | None => inl ErrNotFound
  end.

Definition Get ip a : option T := allocated a ip.

Definition Stats a : Z * Z :=
  let n := Z.of_nat (size (allocations a)) in (n, IP_word (a_stop a) - IP_word (a_start a) + 1 - n).

Definition Range a : IP * IP := (a_start a, a_stop a).

(** The loop of [ForEach], whose function changes a state [St] of its own and may fail. *)
Fixpoint each_alloc {St E : Type} (fn : Addr → T → St → St * option E) (m : gmap Addr T) (addrs : list Addr) (st : St) : St * option E :=
  match addrs with
  | [] => (st, None)
  | x :: addrs =>
      match m !! x with
      | Some v => match fn x v st with (st, None) => each_alloc fn m addrs st | r => r end
      | None => each_alloc fn m addrs st
      end
  end.

Definition ForEach {GR : GoRange} {St E : Type} (fn : Addr → T → St → St * option E) a (st : St) : St * option E :=
  each_alloc fn (allocations a) (range (dom (allocations a))) st.
End allocator.
