(* ===== verification/IpAllocBlocks.v ===== *)
(** * The blocks of the IP address allocator

    The linked blocks of [src/pkg/ipalloc/ipalloc.go] list disjoint ranges of free addresses in order, with
    an address in use between any two of them.  Taking and returning an address completes, keeps the
    blocks so, and changes the free addresses by that address, whatever the order of the heap; the walk
    of [put] along the linked blocks ends within as many steps as there are blocks. *)

From S2P Require Import Prelude Text Netip GoLib IpAlloc.

Local Open Scope Z_scope.

(** ** Addresses of one family *)

Section family.
Context (v4 : bool).

(** The address of a word, without a zone. *)
Definition mk (w : Z) : IP := Some (if v4 then V4 w else V6 w []).
Definition top : Z := if v4 then 4294967295 else 340282366920938463463374607431768211455.

Lemma mk_inj x y : mk x = mk y ↔ x = y.
Proof. unfold mk. destruct v4; split; congruence. Qed.

Lemma Compare_mk x y : Compare (mk x) (mk y) = cmp_Z x y.
Proof.
  unfold Compare, mk, cmp_Z. destruct v4; cbn; destruct (Z.ltb_spec x y); try done; destruct (Z.ltb_spec y x); done.
Qed.

Lemma Compare_lt x y : (Compare (mk x) (mk y) <? 0) = (x <? y).
Proof. rewrite Compare_mk. unfold cmp_Z. destruct (Z.ltb_spec x y), (Z.ltb_spec y x); done. Qed.

Lemma Compare_gt x y : (0 <? Compare (mk x) (mk y)) = (y <? x).
Proof. rewrite Compare_mk. unfold cmp_Z. destruct (Z.ltb_spec x y), (Z.ltb_spec y x); try done. lia. Qed.

Lemma Next_mk x y : 0 ≤ x ≤ top → Next (mk x) = mk y ↔ y = x + 1 ∧ x ≠ top.
Proof.
  unfold Next, mk, top, uwrap. intros Hx. destruct v4.
  - destruct (decide (x = 4294967295)) as [->|]; [cbn; split; [done|lia]|]. rewrite Z.mod_small by lia.
    rewrite (proj2 (Z.eqb_neq (x + 1) 0)) by lia. split; [intros [= <-]; lia|intros [-> _]; done].
  - destruct (decide (x = 340282366920938463463374607431768211455)) as [->|]; [cbn; split; [done|lia]|]. rewrite Z.mod_small by lia.
    rewrite (proj2 (Z.eqb_neq (x + 1) 0)) by lia. split; [intros [= <-]; lia|intros [-> _]; done].
Qed.

Lemma Prev_mk x y : 0 ≤ x ≤ top → Prev (mk x) = mk y ↔ y = x - 1 ∧ x ≠ 0.
Proof.
  unfold Prev, mk. intros Hx. destruct v4; destruct (Z.eqb_spec x 0) as [->|Hn]; split; (done || lia || (intros [= <-]; lia) || (intros [-> _]; done)).
Qed.

Lemma Next_eq x : 0 ≤ x < top → Next (mk x) = mk (x + 1).
Proof. intros Hx. apply Next_mk; lia. Qed.

Lemma Prev_eq x : 0 < x ≤ top → Prev (mk x) = mk (x - 1).
Proof. intros Hx. apply Prev_mk; lia. Qed.

(** ** Chains *)

(** A block and the range of its addresses. *)
Record cell := Cell { c_ptr : Z; c_lo : Z; c_hi : Z }.

Implicit Types (c d : cell) (cs : list cell) (o : gmap Z linkedBlock) (w : Z).

Notation ptrs cs := (c_ptr <$> cs).

Definition head_ptr cs (nx : option Z) : option Z := match cs with [] => nx | c :: _ => Some (c_ptr c) end.
Definition last_ptr (pv : option Z) cs : option Z := foldl (λ _ c, Some (c_ptr c)) pv cs.

(** The blocks [cs] are linked, after [pv] and before [nx]. *)
Fixpoint chain o (pv : option Z) cs (nx : option Z) : Prop :=
  match cs with
  | [] => True
  | c :: cs => (∃ sz, o !! c_ptr c = Some (mkBlock (mk (c_lo c)) (mk (c_hi c)) sz pv (head_ptr cs nx))) ∧ chain o (Some (c_ptr c)) cs nx
  end.

Lemma chain_app o pv cs1 cs2 nx : chain o pv (cs1 ++ cs2) nx ↔ chain o pv cs1 (head_ptr cs2 nx) ∧ chain o (last_ptr pv cs1) cs2 nx.
Proof.
  revert pv. induction cs1 as [|c cs1 IH]; intros pv; cbn; [tauto|]. rewrite IH. unfold last_ptr. cbn. destruct cs1; cbn; tauto.
Qed.

Lemma chain_frame o o' pv cs nx : (∀ p, p ∈ ptrs cs → o' !! p = o !! p) → chain o pv cs nx → chain o' pv cs nx.
Proof.
  revert pv. induction cs as [|c cs IH]; intros pv HF; cbn; [done|]. intros [HC HR]. split; [rewrite HF by (by left); done|].
  apply IH; [|done]. intros p Hp. apply HF. by right.
Qed.

Definition alter_opt (p : option Z) (f : linkedBlock → linkedBlock) o : gmap Z linkedBlock := match p with Some p => alter f p o | None => o end.

Lemma chain_set_prev o pv cs nx pv' : NoDup (ptrs cs) → chain o pv cs nx → chain (alter_opt (head_ptr cs None) (set_prev pv') o) pv' cs nx.
Proof.
  destruct cs as [|c cs]; [done|]. rewrite fmap_cons, NoDup_cons. intros [Hn _] [[sz HC] HR]. cbn [head_ptr alter_opt chain]. split.
  - exists sz. by rewrite lookup_alter_eq, HC.
  - eapply chain_frame; [|done]. intros p Hp. apply lookup_alter_ne. intros E. apply Hn. by rewrite E.
Qed.

Lemma last_ptr_elem pv cs p : last_ptr pv cs = Some p → Some p = pv ∨ p ∈ ptrs cs.
Proof.
  revert pv. induction cs as [|c cs IH]; intros pv; cbn; [by left|]. intros HL. apply IH in HL as [[= <-]|H]; right; [by left|by right].
Qed.

Lemma last_ptr_cons c cs : last_ptr None (c :: cs) = last_ptr (Some (c_ptr c)) cs.
Proof. done. Qed.

Lemma chain_set_next o pv cs nx nx' : NoDup (ptrs cs) → chain o pv cs nx → chain (alter_opt (last_ptr None cs) (set_next nx') o) pv cs nx'.
Proof.
  destruct cs as [|c cs _] using rev_ind; [done|]. rewrite fmap_app, NoDup_app. intros (HN & Hd & _). unfold last_ptr. rewrite foldl_app. cbn [foldl].
  rewrite !chain_app. intros [HC [[sz HR] _]]. cbn [alter_opt]. split.
  - eapply chain_frame; [|exact HC]. intros p Hp. apply lookup_alter_ne. intros E. apply (Hd p); [done|]. rewrite <- E. by left.
  - split; [|done]. exists sz. by rewrite lookup_alter_eq, HR.
Qed.

(** ** Invariant *)

Definition gap c d : Prop := c_hi c + 1 < c_lo d.

Definition ordered cs : Prop := Forall (λ c, 0 ≤ c_lo c ≤ c_hi c ∧ c_hi c ≤ top) cs ∧ StronglySorted gap cs.

(** The blocks in the order of their addresses. *)
Record blocks_ok (s : availableBlockList) cs : Prop := {
  bk_slots : slots s ≡ₚ ptrs cs;
  bk_nodup : NoDup (ptrs cs);
  bk_chain : chain (objs s) None cs None;
  bk_ordered : ordered cs;
  bk_fresh : Forall (λ c, c_ptr c < fresh s) cs;
}.

(** The address is free. *)
Definition covered cs w : Prop := ∃ c, c ∈ cs ∧ c_lo c ≤ w ≤ c_hi c.

Lemma ordered_app cs1 cs2 : ordered (cs1 ++ cs2) ↔ ordered cs1 ∧ ordered cs2 ∧ ∀ c d, c ∈ cs1 → d ∈ cs2 → gap c d.
Proof.
  unfold ordered. rewrite Forall_app. induction cs1 as [|c cs1 IH]; cbn [app].
  - split; [intros [[? ?] ?]; split; [split; constructor|]; split; [by split|]; by intros ? ? ?%elem_of_nil|].
    intros (_ & [? ?] & _). split; [split; [constructor|done]|done].
  - split.
    + intros [[H1 H2] H3]. apply Forall_cons in H1 as [H0 H1]. inversion H3 as [|? ? H4 H5]. subst. apply Forall_app in H5 as [H5 H6].
      destruct (proj1 IH) as ([I1 I2] & I3 & I4); [split; [by split|done]|]. split; [split; [by constructor|by constructor]|]. split; [done|].
      intros x y [->|Hx]%elem_of_cons Hy; [by eapply Forall_forall in H6|by apply I4].
    + intros ([H1 H2] & [H3 H4] & H5). apply Forall_cons in H1 as [H0 H1]. inversion H2 as [|? ? H6 H7]. subst.
      destruct (proj2 IH) as [_ IS]; [split; [by split|]; split; [by split|]; intros; apply H5; [by right|done]|].
      split; [split; [by constructor|done]|]. constructor; [done|]. apply Forall_app. split; [done|]. apply Forall_forall. intros y Hy. apply H5; [by left|done].
Qed.

Lemma ordered_one c : ordered [c] ↔ 0 ≤ c_lo c ≤ c_hi c ∧ c_hi c ≤ top.
Proof. unfold ordered. rewrite Forall_singleton. split; [by intros []|]. intros H. split; [done|]. repeat constructor. Qed.

Lemma head_ptr_elem cs p : head_ptr cs None = Some p → p ∈ ptrs cs.
Proof. destruct cs; [done|]. intros [= <-]. by left. Qed.

Lemma head_ptr_app cs1 cs2 nx : head_ptr (cs1 ++ cs2) nx = head_ptr cs1 (head_ptr cs2 nx).
Proof. by destruct cs1. Qed.

Lemma last_ptr_app pv cs1 cs2 : last_ptr pv (cs1 ++ cs2) = last_ptr (last_ptr pv cs1) cs2.
Proof. apply foldl_app. Qed.

Lemma lookup_alter_opt_ne (p : option Z) f o q : p ≠ Some q → alter_opt p f o !! q = o !! q.
Proof. destruct p; [|done]. intros Hn. apply lookup_alter_ne. congruence. Qed.

Lemma objs_update_opt p f s : objs (update_opt p f s) = alter_opt p f (objs s).
Proof. by destruct p. Qed.

Lemma slots_update_opt p f s : slots (update_opt p f s) = slots s ∧ fresh (update_opt p f s) = fresh s.
Proof. by destruct p. Qed.

(** What is known of a part of the chain and its neighbours. *)
Lemma blocks_apart s cs1 mid cs2 : blocks_ok s (cs1 ++ mid ++ cs2) →
  (∀ p, p ∈ ptrs cs1 → p ∉ ptrs mid ∧ p ∉ ptrs cs2 ∧ p < fresh s) ∧ (∀ p, p ∈ ptrs mid → p ∉ ptrs cs2 ∧ p < fresh s) ∧ (∀ p, p ∈ ptrs cs2 → p < fresh s) ∧
  NoDup (ptrs cs1) ∧ NoDup (ptrs mid) ∧ NoDup (ptrs cs2).
Proof.
  intros [_ HN _ _ HF]. rewrite !fmap_app, !NoDup_app in HN. destruct HN as (N1 & N2 & N3 & N4 & N5).
  assert (HP : ∀ cs p, Forall (λ c, c_ptr c < fresh s) cs → p ∈ ptrs cs → p < fresh s).
  { intros cs p HA (c & -> & Hc)%list_elem_of_fmap. by eapply Forall_forall in HA. }
  rewrite !Forall_app in HF. destruct HF as (F1 & F2 & F3). split_and!; [|by eauto..|done|done|done].
  intros p Hp. specialize (N2 p Hp). rewrite elem_of_app in N2. split_and!; [tauto|tauto|by eauto].
Qed.

Lemma middle_block s cs1 c cs2 : blocks_ok s (cs1 ++ c :: cs2) →
  ∃ sz, block_at s (c_ptr c) = mkBlock (mk (c_lo c)) (mk (c_hi c)) sz (last_ptr None cs1) (head_ptr cs2 None) ∧
    objs s !! c_ptr c = Some (mkBlock (mk (c_lo c)) (mk (c_hi c)) sz (last_ptr None cs1) (head_ptr cs2 None)).
Proof.
  intros [_ _ HC _ _]. rewrite chain_app in HC. destruct HC as [_ [[sz HC] _]]. exists sz. unfold block_at. by rewrite HC.
Qed.

(** A part of the chain is replaced. *)
Lemma blocks_replace s s' cs1 mid mid' cs2 : blocks_ok s (cs1 ++ mid ++ cs2) →
  (∀ p, p ∈ ptrs cs1 → objs s' !! p = alter_opt (last_ptr None cs1) (set_next (head_ptr mid' (head_ptr cs2 None))) (objs s) !! p) →
  (∀ p, p ∈ ptrs cs2 → objs s' !! p = alter_opt (head_ptr cs2 None) (set_prev (last_ptr (last_ptr None cs1) mid')) (objs s) !! p) →
  chain (objs s') (last_ptr None cs1) mid' (head_ptr cs2 None) →
  slots s' ≡ₚ ptrs (cs1 ++ mid' ++ cs2) → fresh s ≤ fresh s' →
  NoDup (ptrs mid') → (∀ p, p ∈ ptrs mid' → (p ∈ ptrs mid ∨ fresh s ≤ p) ∧ p < fresh s') →
  ordered mid' → (∀ c d, c ∈ cs1 → d ∈ mid' → gap c d) → (∀ c d, c ∈ mid' → d ∈ cs2 → gap c d) →
  blocks_ok s' (cs1 ++ mid' ++ cs2).
Proof.
  intros HB H1 H2 HM HS HF HN HP HO G1 G2. pose proof (blocks_apart _ _ _ _ HB) as (A1 & A2 & A3 & N1 & N2 & N3). destruct HB as [_ _ BC BO _].
  rewrite !chain_app in BC. destruct BC as (C1 & C2 & C3). split; [done| | | |].
  - rewrite !fmap_app, !NoDup_app. split_and!; [done| |done| |done].
    + intros p Hp. rewrite elem_of_app. specialize (A1 p Hp). intros [Hq|Hq]; [|tauto]. specialize (HP p Hq). destruct HP as [[?|?] _]; [tauto|lia].
    + intros p Hp Hq. destruct (HP p Hp) as [[?|?] _]; [by apply (A2 p)|]. specialize (A3 p Hq). lia.
  - rewrite !chain_app. split_and!.
    + eapply chain_frame; [exact H1|]. rewrite head_ptr_app. by eapply chain_set_next.
    + done.
    + eapply chain_frame; [exact H2|]. by eapply chain_set_prev.
  - rewrite !ordered_app in BO |- *. destruct BO as (O1 & (O2 & O3 & O4) & O5). split_and!; [done|done|done|done|].
    intros c d Hc [Hd|Hd]%elem_of_app; [by apply G1|]. apply O5; [done|]. apply elem_of_app. by right.
  - assert (HA : ∀ cs, (∀ p, p ∈ ptrs cs → p < fresh s') → Forall (λ c, c_ptr c < fresh s') cs).
    { intros cs HA. apply Forall_forall. intros c Hc. apply HA. by apply list_elem_of_fmap_2. }
    rewrite !Forall_app. split_and!; apply HA; intros p Hp; [specialize (A1 p Hp); lia|by apply HP|specialize (A3 p Hp); lia].
Qed.
End family.

(** * Taking and returning addresses *)

Section blocks.
Context (v4 : bool).
Implicit Types (c d : cell) (cs : list cell) (s : availableBlockList) (w : Z).

Notation mk := (mk v4).
Notation top := (top v4).
Notation chain := (chain v4).
Notation ordered := (ordered v4).
Notation blocks_ok := (blocks_ok v4).
Notation ptrs cs := (c_ptr <$> cs).

(** ** Free addresses *)

Lemma covered_app cs1 cs2 w : covered (cs1 ++ cs2) w ↔ covered cs1 w ∨ covered cs2 w.
Proof. unfold covered. setoid_rewrite elem_of_app. naive_solver. Qed.

Lemma covered_nil w : ¬ covered [] w.
Proof. by intros (c & ?%elem_of_nil & _). Qed.

Lemma covered_cons c cs w : covered (c :: cs) w ↔ c_lo c ≤ w ≤ c_hi c ∨ covered cs w.
Proof. unfold covered. setoid_rewrite elem_of_cons. naive_solver. Qed.

(** The neighbours of a block keep away from it. *)
Lemma ordered_middle cs1 c cs2 : ordered (cs1 ++ c :: cs2) → (0 ≤ c_lo c ≤ c_hi c ∧ c_hi c ≤ top) ∧
  (∀ d, d ∈ cs1 → gap d c ∧ 0 ≤ c_lo d ≤ c_hi d) ∧ (∀ d, d ∈ cs2 → gap c d ∧ c_lo d ≤ c_hi d ∧ c_hi d ≤ top).
Proof.
  change (c :: cs2) with ([c] ++ cs2). rewrite !ordered_app, ordered_one. intros ([F1 _] & (H2 & [F3 _] & H4) & H5). split; [done|]. split.
  - intros d Hd. rewrite Forall_forall in F1. destruct (F1 d Hd). split; [|done]. apply H5; [done|]. by left.
  - intros d Hd. rewrite Forall_forall in F3. destruct (F3 d Hd) as [? ?]. split; [apply H4; [by left|done]|lia].
Qed.

Lemma not_covered_middle cs1 c cs2 w : ordered (cs1 ++ c :: cs2) → c_lo c - 1 ≤ w ≤ c_hi c + 1 → ¬ covered cs1 w ∧ ¬ covered cs2 w.
Proof.
  intros (_ & H1 & H2)%ordered_middle Hw. unfold gap in *. split; intros (d & Hd & Hx); [destruct (H1 d Hd)|destruct (H2 d Hd)]; lia.
Qed.

(** ** Blocks *)

(** The range of a block changes; the heap is permuted. *)
Lemma resize_ok s cs1 c cs2 f lo' hi' sl : blocks_ok s (cs1 ++ c :: cs2) →
  (∀ sz pv nx, ∃ sz', f (mkBlock (mk (c_lo c)) (mk (c_hi c)) sz pv nx) = mkBlock (mk lo') (mk hi') sz' pv nx) →
  sl ≡ₚ slots s → 0 ≤ lo' ≤ hi' → hi' ≤ top → (∀ d, d ∈ cs1 → c_hi d + 1 < lo') → (∀ d, d ∈ cs2 → hi' + 1 < c_lo d) →
  blocks_ok (mkAbl sl (alter f (c_ptr c) (objs s)) (fresh s)) (cs1 ++ Cell (c_ptr c) lo' hi' :: cs2).
Proof.
  intros HB Hf HS Hlo Hhi H1 H2. pose proof (middle_block _ _ _ _ _ HB) as (sz & _ & HC). pose proof (blocks_apart v4 s cs1 [c] cs2 HB) as (A1 & A2 & A3 & N1 & N2 & N3).
  assert (HP : ∀ p, p ∈ ptrs cs1 ∨ p ∈ ptrs cs2 → c_ptr c ≠ p).
  { intros p [Hp|Hp] <-; [destruct (A1 _ Hp) as [[] _]; by left|]. destruct (A2 (c_ptr c)) as [[] _]; [by left|done]. }
  pose proof HB as HB'. destruct HB' as [BS _ BC _ _]. change (c :: cs2) with ([c] ++ cs2) in BC. rewrite !chain_app in BC. destruct BC as (C1 & _ & C3).
  apply (blocks_replace v4 s _ cs1 [c] [Cell (c_ptr c) lo' hi'] cs2 HB); cbn [objs slots fresh].
  - intros p Hp. rewrite lookup_alter_ne by (apply HP; by left). destruct (last_ptr None cs1) as [q|] eqn:E; [|done]. cbn [alter_opt].
    destruct (decide (q = p)) as [->|]; [|by rewrite lookup_alter_ne]. rewrite lookup_alter_eq.
    destruct cs1 as [|d cs1 _] using rev_ind; [done|]. rewrite last_ptr_app in E. injection E as <-. rewrite chain_app in C1. destruct C1 as (_ & [sz1 ->] & _). done.
  - intros p Hp. rewrite lookup_alter_ne by (apply HP; by right). destruct cs2 as [|d cs2]; [done|]. cbn [head_ptr alter_opt].
    destruct (decide (c_ptr d = p)) as [<-|]; [|by rewrite lookup_alter_ne]. rewrite lookup_alter_eq. destruct C3 as [[sz1 ->] _]. done.
  - split; [|done]. destruct (Hf sz (last_ptr None cs1) (head_ptr cs2 None)) as [sz' E]. exists sz'. cbn. by rewrite lookup_alter_eq, HC, <- E.
  - rewrite HS, BS, !fmap_app. done.
  - done.
  - apply NoDup_singleton.
  - intros p ->%list_elem_of_singleton. split; [left; by left|]. cbn. apply (A2 (c_ptr c)). by left.
  - apply ordered_one. cbn. lia.
  - intros a b Ha ->%list_elem_of_singleton. by apply H1.
  - intros a b ->%list_elem_of_singleton Hb. by apply H2.
Qed.

(** A block is removed from the heap. *)
Lemma heap_remove_ok s i p : slots s !! i = Some p → ∃ sl, heap_remove i s = inr (mkAbl sl (objs s) (fresh s), p) ∧ p :: sl ≡ₚ slots s.
Proof. intros Hp. unfold heap_remove. destruct (Remove_ok (block_less s) _ _ _ Hp) as (sl & -> & HS). by exists sl. Qed.

Lemma delete_ok s cs1 c cs2 i : blocks_ok s (cs1 ++ c :: cs2) → slots s !! i = Some (c_ptr c) →
  ∃ s', abl_delete i s = inr s' ∧ blocks_ok s' (cs1 ++ cs2).
Proof.
  intros HB Hi. pose proof (middle_block _ _ _ _ _ HB) as (sz & EB & _). pose proof (blocks_apart v4 s cs1 [c] cs2 HB) as (A1 & A2 & A3 & N1 & N2 & N3).
  unfold abl_delete. destruct (heap_remove_ok s i _ Hi) as (sl & -> & HS). cbn [ebind].
  set (s1 := mkAbl sl (objs s) (fresh s)). assert (E1 : block_at s1 (c_ptr c) = block_at s (c_ptr c)) by done. rewrite E1, EB. cbn [prev next].
  set (s2 := update_opt (last_ptr None cs1) _ s1).
  assert (E2 : block_at s2 (c_ptr c) = block_at s (c_ptr c)).
  { unfold block_at, s2. rewrite objs_update_opt, lookup_alter_opt_ne; [done|]. intros [E|HL]%last_ptr_elem; [done|]. destruct (A1 _ HL) as [[] _]. by left. }
  rewrite E2, EB. cbn [prev next]. eexists. split; [done|]. apply (blocks_replace v4 s _ cs1 [c] [] cs2 HB).
  - intros p Hp. rewrite objs_update_opt, lookup_alter_opt_ne; [unfold s2; by rewrite objs_update_opt|]. intros HH%head_ptr_elem. by destruct (A1 p) as (_ & [] & _).
  - intros p Hp. rewrite objs_update_opt. cbn [last_ptr foldl]. destruct (decide (head_ptr cs2 None = Some p)) as [E|E].
    + rewrite E. cbn [alter_opt]. rewrite !lookup_alter_eq. f_equal. unfold s2. rewrite objs_update_opt. apply lookup_alter_opt_ne.
      intros [?|HL]%last_ptr_elem; [done|]. by destruct (A1 p) as (_ & [] & _).
    + rewrite !lookup_alter_opt_ne by done. unfold s2. rewrite objs_update_opt. apply lookup_alter_opt_ne. intros [?|HL]%last_ptr_elem; [done|]. by destruct (A1 p) as (_ & [] & _).
  - done.
  - rewrite (proj1 (slots_update_opt _ _ _)). unfold s2. rewrite (proj1 (slots_update_opt _ _ _)). cbn. destruct HB as [BS _ _ _ _].
    apply (Permutation_cons_inv (a := c_ptr c)). rewrite HS, BS, !fmap_app. cbn. by rewrite Permutation_middle.
  - rewrite (proj2 (slots_update_opt _ _ _)). unfold s2. rewrite (proj2 (slots_update_opt _ _ _)). done.
  - constructor.
  - by intros p ?%elem_of_nil.
  - split; constructor.
  - by intros a b _ ?%elem_of_nil.
  - by intros a b ?%elem_of_nil.
Qed.

(** Lookups after updates of other blocks. *)
Ltac look := repeat first
  [ rewrite lookup_alter_eq | rewrite lookup_insert_eq
  | rewrite lookup_alter_ne by (lia || congruence) | rewrite lookup_insert_ne by (lia || congruence) ].

(** The neighbours of a part of the chain. *)
Lemma neighbours s cs1 mid cs2 : blocks_ok s (cs1 ++ mid ++ cs2) →
  (∀ p, last_ptr None cs1 = Some p → p ∈ ptrs cs1) ∧ (∀ p, head_ptr cs2 None = Some p → p ∈ ptrs cs2) ∧
  (∀ p q, p ∈ ptrs cs1 → head_ptr cs2 None = Some q → p ≠ q) ∧ (∀ p q, p ∈ ptrs cs2 → last_ptr None cs1 = Some q → p ≠ q) ∧
  (∀ p, p ∈ ptrs cs1 ∨ p ∈ ptrs cs2 → p < fresh s) ∧ (∀ p, p ∈ ptrs cs1 ∨ p ∈ ptrs cs2 → p ∉ ptrs mid).
Proof.
  intros HB. destruct (blocks_apart _ _ _ _ _ HB) as (A1 & A2 & A3 & _).
  assert (HL : ∀ p, last_ptr None cs1 = Some p → p ∈ ptrs cs1) by (by intros p [?|?]%last_ptr_elem).
  split_and!; [done|apply head_ptr_elem| | | |].
  - intros p q Hp Hq%head_ptr_elem ->. by destruct (A1 q Hp) as (_ & [] & _).
  - intros p q Hp Hq%HL ->. by destruct (A1 q Hq) as (_ & [] & _).
  - intros p [Hp|Hp]; [by apply A1|by apply A3].
  - intros p [Hp|Hp]; [by apply A1|]. intros Hm. by destruct (A2 p Hm).
Qed.

Lemma split_ok s cs1 c cs2 i w : blocks_ok s (cs1 ++ c :: cs2) → slots s !! i = Some (c_ptr c) → c_lo c < w < c_hi c →
  ∃ s' p1 p2, split_block i (c_ptr c) (mk w) s = inr s' ∧ blocks_ok s' (cs1 ++ [Cell p1 (c_lo c) (w - 1); Cell p2 (w + 1) (c_hi c)] ++ cs2).
Proof.
  intros HB Hi Hw. pose proof (middle_block _ _ _ _ _ HB) as (sz & EB & _). destruct (neighbours s cs1 [c] cs2 HB) as (L1 & H1 & D1 & D2 & F & M).
  pose proof (ordered_middle cs1 c cs2 (bk_ordered _ _ _ HB)) as (OC & G1 & G2). unfold gap in G1, G2.
  unfold split_block. destruct (heap_remove_ok s i _ Hi) as (sl & -> & HS). cbn [ebind fst]. rewrite EB. cbn [from to prev next new_block slots objs fresh].
  set (pv := last_ptr None cs1) in *. set (nx := head_ptr cs2 None) in *. set (p1 := fresh s) in *. set (p2 := p1 + 1) in *.
  eexists _, p1, p2. split; [reflexivity|]. apply (blocks_replace v4 s _ cs1 [c] [Cell p1 (c_lo c) (w - 1); Cell p2 (w + 1) (c_hi c)] cs2 HB); fold pv nx; fold p1.
  - intros p Hp. pose proof (F p (or_introl Hp)) as HF. cbn [head_ptr c_ptr].
    destruct pv as [a|] eqn:Ea, nx as [b|] eqn:Eb; cbn [heap_push update objs slots alter_opt]; try pose proof (D1 p b Hp eq_refl); unfold p2; try (pose proof (F a ltac:(left; by apply L1)));
      try (destruct (decide (a = p)) as [->|]); look; done.
  - intros p Hp. pose proof (F p (or_intror Hp)) as HF. cbn [last_ptr foldl c_ptr].
    destruct pv as [a|] eqn:Ea, nx as [b|] eqn:Eb; cbn [heap_push update objs slots alter_opt]; try pose proof (D2 p a Hp eq_refl); unfold p2; try (pose proof (F b ltac:(right; by apply H1)));
      try (destruct (decide (b = p)) as [->|]); look; done.
  - cbn [chain c_ptr c_lo c_hi head_ptr]. rewrite Prev_eq by lia. rewrite Next_eq by lia.
    destruct pv as [a|] eqn:Ea, nx as [b|] eqn:Eb; cbn [heap_push update objs slots]; unfold p2; try (pose proof (F a ltac:(left; by apply L1))); try (pose proof (F b ltac:(right; by apply H1)));
      look; (split; [|split; [|done]]); look; cbn; eexists; reflexivity.
  - assert (HSL : ∀ o fr, slots (heap_push p2 (heap_push p1 (mkAbl sl o fr))) ≡ₚ ptrs (cs1 ++ [Cell p1 (c_lo c) (w - 1); Cell p2 (w + 1) (c_hi c)] ++ cs2)).
    { intros o fr. unfold heap_push. cbn [slots]. rewrite !heap_Push_perm. cbn [slots]. rewrite !fmap_app. cbn [fmap list_fmap c_ptr].
      assert (HSL : sl ≡ₚ ptrs cs1 ++ ptrs cs2).
      { apply (Permutation_cons_inv (a := c_ptr c)). rewrite HS, (bk_slots _ _ _ HB), fmap_app. cbn. by rewrite Permutation_middle. }
      rewrite HSL. cbn. rewrite (Permutation_swap p2 p1). by rewrite <- !Permutation_middle. }
    destruct pv, nx; apply HSL.
  - destruct pv, nx; cbn; lia.
  - cbn. repeat constructor; set_solver by lia.
  - cbn. intros p Hp. rewrite !elem_of_cons, elem_of_nil in Hp. destruct pv, nx; cbn; lia.
  - split; [repeat constructor; cbn; lia|]. repeat constructor. unfold gap. cbn. lia.
  - intros x y Hx Hy. destruct (G1 x Hx). rewrite !elem_of_cons, elem_of_nil in Hy. unfold gap. destruct Hy as [->|[->|[]]]; cbn; lia.
  - intros x y Hx Hy. destruct (G2 y Hy). rewrite !elem_of_cons, elem_of_nil in Hx. unfold gap. destruct Hx as [->|[->|[]]]; cbn; lia.
Qed.

Lemma insert_block_ok s cs1 cs2 w : blocks_ok s (cs1 ++ cs2) → 0 ≤ w ≤ top → (∀ d, d ∈ cs1 → c_hi d + 1 < w) → (∀ d, d ∈ cs2 → w + 1 < c_lo d) →
  ∃ p, blocks_ok (insert_block (last_ptr None cs1) (head_ptr cs2 None) (mk w) s) (cs1 ++ Cell p w w :: cs2).
Proof.
  intros HB Hw G1 G2. destruct (neighbours s cs1 [] cs2 HB) as (L1 & H1 & D1 & D2 & F & _). exists (fresh s).
  unfold insert_block. cbn [new_block]. set (p := fresh s) in *.
  apply (blocks_replace v4 s _ cs1 [] [Cell p w w] cs2 HB); cbn [heap_push objs slots fresh]; rewrite ?objs_update_opt; cbn [objs head_ptr c_ptr last_ptr foldl].
  - intros q Hq. pose proof (F q (or_introl Hq)). rewrite lookup_alter_opt_ne by (intros E; by apply (D1 q q Hq E)).
    destruct (decide (last_ptr None cs1 = Some q)) as [E|E]; [rewrite E; cbn; by look|]. rewrite !lookup_alter_opt_ne by done. by look.
  - intros q Hq. pose proof (F q (or_intror Hq)). destruct (decide (head_ptr cs2 None = Some q)) as [E|E].
    + rewrite E. cbn. look. f_equal. rewrite lookup_alter_opt_ne by (intros E'; by apply (D2 q q Hq E')). by look.
    + rewrite !lookup_alter_opt_ne by (done || intros E'; by apply (D2 q q Hq E')). by look.
  - split; [|done]. cbn [c_ptr c_lo c_hi head_ptr]. exists (mkUint128 0 1).
    rewrite !lookup_alter_opt_ne; [by look|..].
    + intros E%L1. pose proof (F p (or_introl E)). unfold p in *. lia.
    + intros E%H1. pose proof (F p (or_intror E)). unfold p in *. lia.
  - rewrite heap_Push_perm. rewrite !(proj1 (slots_update_opt _ _ _)). cbn [slots]. rewrite (bk_slots _ _ _ HB), !fmap_app. cbn. by rewrite <- Permutation_middle.
  - rewrite !(proj2 (slots_update_opt _ _ _)). cbn. lia.
  - apply NoDup_singleton.
  - intros q ->%list_elem_of_singleton. rewrite !(proj2 (slots_update_opt _ _ _)). cbn. unfold p. lia.
  - apply ordered_one. cbn. lia.
  - intros a b Ha ->%list_elem_of_singleton. by apply G1.
  - intros a b ->%list_elem_of_singleton Hb. by apply G2.
Qed.

Lemma remove_block_ok s p sl : slots s ≡ₚ p :: sl → ∃ sl', remove_block p s = inr (mkAbl sl' (objs s) (fresh s)) ∧ sl' ≡ₚ sl.
Proof.
  intros HS. unfold remove_block. assert (Hp : p ∈ slots s) by (rewrite HS; by left).
  destruct (list_find_elem_of (p =.) (slots s) p Hp eq_refl) as [[i q] E]. rewrite E. apply list_find_Some in E as (Ei & <- & _).
  destruct (heap_remove_ok s i p Ei) as (sl' & -> & HS'). cbn. exists sl'. split; [done|]. apply (Permutation_cons_inv (a := p)). by rewrite HS', HS.
Qed.

(** Two blocks are merged, after one of them has grown ([s1]) to the address before the other. *)
Lemma merge_ok s s1 cs1 c d cs2 lo hi : blocks_ok s (cs1 ++ [c; d] ++ cs2) → slots s1 ≡ₚ slots s → fresh s1 = fresh s →
  (∀ p, p ∉ ptrs [c; d] → objs s1 !! p = objs s !! p) →
  from (block_at s1 (c_ptr c)) = mk lo → prev (block_at s1 (c_ptr c)) = last_ptr None cs1 →
  to (block_at s1 (c_ptr d)) = mk hi → next (block_at s1 (c_ptr d)) = head_ptr cs2 None →
  0 ≤ lo ≤ hi → hi ≤ top → (∀ e, e ∈ cs1 → c_hi e + 1 < lo) → (∀ e, e ∈ cs2 → hi + 1 < c_lo e) →
  ∃ s' p, merge (c_ptr c) (c_ptr d) s1 = inr s' ∧ blocks_ok s' (cs1 ++ [Cell p lo hi] ++ cs2).
Proof.
  intros HB HS HF HO E1 E2 E3 E4 Hlo Hhi G1 G2. destruct (neighbours s cs1 [c; d] cs2 HB) as (L1 & H1 & D1 & D2 & F & M).
  unfold merge. rewrite E1, E2, E3, E4. cbn [new_block]. rewrite HF. set (p := fresh s) in *.
  set (s2 := update_opt (head_ptr cs2 None) _ _).
  assert (ES : slots s2 ≡ₚ c_ptr c :: c_ptr d :: ptrs (cs1 ++ cs2)).
  { unfold s2. rewrite !(proj1 (slots_update_opt _ _ _)). cbn [slots]. rewrite HS, (bk_slots _ _ _ HB), !fmap_app. cbn. by rewrite <- !Permutation_middle. }
  destruct (remove_block_ok s2 _ _ ES) as (sl1 & -> & ES1). cbn [ebind]. destruct (remove_block_ok (mkAbl sl1 (objs s2) (fresh s2)) _ _ ES1) as (sl2 & -> & ES2). cbn [ebind objs fresh].
  eexists _, p. split; [reflexivity|]. apply (blocks_replace v4 s _ cs1 [c; d] [Cell p lo hi] cs2 HB); cbn [heap_push objs slots fresh];
    unfold s2; rewrite ?objs_update_opt, ?(proj2 (slots_update_opt _ _ _)); cbn [objs fresh head_ptr c_ptr last_ptr foldl].
  - intros q Hq. pose proof (F q (or_introl Hq)). pose proof (HO q (M q (or_introl Hq))) as HQ. rewrite lookup_alter_opt_ne by (intros E; by apply (D1 q q Hq E)).
    destruct (decide (last_ptr None cs1 = Some q)) as [E|E]; [rewrite E; cbn; look; by rewrite HQ|]. rewrite !lookup_alter_opt_ne by done. look. done.
  - intros q Hq. pose proof (F q (or_intror Hq)). pose proof (HO q (M q (or_intror Hq))) as HQ. destruct (decide (head_ptr cs2 None = Some q)) as [E|E].
    + rewrite E. cbn. look. f_equal. rewrite lookup_alter_opt_ne by (intros E'; by apply (D2 q q Hq E')). by look.
    + rewrite !lookup_alter_opt_ne by (done || intros E'; by apply (D2 q q Hq E')). by look.
  - split; [|done]. cbn [c_ptr c_lo c_hi head_ptr]. eexists.
    rewrite !lookup_alter_opt_ne; [by look|..].
    + intros E%L1. pose proof (F p (or_introl E)). unfold p in *. lia.
    + intros E%H1. pose proof (F p (or_intror E)). unfold p in *. lia.
  - rewrite heap_Push_perm, ES2, !fmap_app. cbn. by rewrite <- Permutation_middle.
  - lia.
  - apply NoDup_singleton.
  - intros q ->%list_elem_of_singleton. unfold p. cbn. lia.
  - apply ordered_one. cbn. lia.
  - intros a b Ha ->%list_elem_of_singleton. by apply G1.
  - intros a b ->%list_elem_of_singleton Hb. by apply G2.
Qed.
End blocks.

(** * The free addresses of an allocator *)

Section put.
Context (v4 : bool).
Implicit Types (c d : cell) (cs : list cell) (s : availableBlockList) (w : Z).

Notation mk := (mk v4).
Notation top := (top v4).
Notation ordered := (ordered v4).
Notation blocks_ok := (blocks_ok v4).
Notation ptrs cs := (c_ptr <$> cs).

Lemma covered_in_range s cs w : blocks_ok s cs → covered cs w → 0 ≤ w ≤ top.
Proof. intros [_ _ _ [HF _] _] (c & Hc & Hw). rewrite Forall_forall in HF. destruct (HF c Hc). lia. Qed.

Lemma within_iff s cs1 c cs2 w : blocks_ok s (cs1 ++ c :: cs2) → within (block_at s (c_ptr c)) (mk w) = true ↔ c_lo c ≤ w ≤ c_hi c.
Proof.
  intros HB. destruct (middle_block _ _ _ _ _ HB) as (sz & -> & _). unfold within. cbn [from to]. rewrite !Compare_mk, andb_true_iff, !Z.leb_le. unfold cmp_Z.
  destruct (Z.ltb_spec w (c_lo c)), (Z.ltb_spec (c_lo c) w), (Z.ltb_spec w (c_hi c)), (Z.ltb_spec (c_hi c) w); lia.
Qed.

Lemma slot_cell s cs p : blocks_ok s cs → p ∈ slots s → ∃ cs1 c cs2, cs = cs1 ++ c :: cs2 ∧ p = c_ptr c.
Proof.
  intros HB Hp. rewrite (bk_slots _ _ _ HB) in Hp. apply list_elem_of_fmap in Hp as (c & -> & Hc). apply list_elem_of_split in Hc as (cs1 & cs2 & ->). by exists cs1, c, cs2.
Qed.

(** ** Taking *)

(** The block of a free address is found. *)
Lemma find_block s cs w : blocks_ok s cs → covered cs w → ∃ i cs1 c cs2, cs = cs1 ++ c :: cs2 ∧ c_lo c ≤ w ≤ c_hi c ∧
  list_find (λ p, within (block_at s p) (mk w)) (slots s) = Some (i, c_ptr c) ∧ slots s !! i = Some (c_ptr c).
Proof.
  intros HB (c & Hc & Hw). apply list_elem_of_split in Hc as (cs1 & cs2 & ->).
  assert (Hp : c_ptr c ∈ slots s) by (rewrite (bk_slots _ _ _ HB), fmap_app; apply elem_of_app; right; by left).
  assert (HW : within (block_at s (c_ptr c)) (mk w)) by (by apply Is_true_true, (within_iff s cs1 c cs2)).
  destruct (list_find_elem_of (λ p, within (block_at s p) (mk w)) (slots s) (c_ptr c) Hp HW) as [[i q] E].
  pose proof E as E'. apply list_find_Some in E' as (Ei & Wq & _). destruct (slot_cell s _ q HB) as (cs1' & c' & cs2' & EC & ->); [by eapply list_elem_of_lookup_2|].
  exists i, cs1', c', cs2'. split; [done|]. split; [|done]. apply Is_true_true in Wq. rewrite EC in HB. by apply (within_iff s cs1' c' cs2').
Qed.

Lemma take_ok s cs w : blocks_ok s cs → covered cs w →
  ∃ s' cs', take_ip (mk w) s = inr s' ∧ blocks_ok s' cs' ∧ ∀ x, covered cs' x ↔ covered cs x ∧ x ≠ w.
Proof.
  intros HB HC. pose proof (covered_in_range _ _ _ HB HC) as HW. destruct (find_block s cs w HB HC) as (i & cs1 & c & cs2 & -> & Hw & E & Hi).
  unfold take_ip. rewrite E. destruct (middle_block _ _ _ _ _ HB) as (sz & -> & _). cbn [from to]. rewrite (bool_decide_ext _ _ (mk_inj v4 (c_lo c) w)), (bool_decide_ext _ _ (mk_inj v4 (c_hi c) w)), (bool_decide_ext _ _ (mk_inj v4 (c_lo c) (c_hi c))).
  pose proof (ordered_middle v4 cs1 c cs2 (bk_ordered _ _ _ HB)) as (OC & G1 & G2). unfold gap in G1, G2.
  pose proof (not_covered_middle v4 cs1 c cs2 w (bk_ordered _ _ _ HB) ltac:(lia)) as [NC1 NC2].
  assert (HX : ∀ x, covered cs1 x ∨ covered cs2 x → x ≠ w) by (intros x [?|?] ->; done).
  assert (HF : ∀ f, ∃ sl, heap_fix i (update (c_ptr c) f s) = inr (mkAbl sl (alter f (c_ptr c) (objs s)) (fresh s)) ∧ sl ≡ₚ slots s).
  { intros f. unfold heap_fix. destruct (Fix_ok (block_less (update (c_ptr c) f s)) (slots s) i) as (sl & EF & HS); [by eapply lookup_lt_Some|].
    cbn [update slots objs fresh]. rewrite EF. by exists sl. }
  destruct (decide (c_lo c = w)) as [El|Nl]; [rewrite bool_decide_true by done|rewrite (bool_decide_false (c_lo c = w)) by done].
  - destruct (decide (c_lo c = c_hi c)) as [Eh|Nh]; [rewrite bool_decide_true by done|rewrite bool_decide_false by done].
    + destruct (delete_ok v4 s cs1 c cs2 i HB Hi) as (s' & ES & HB'). exists s', (cs1 ++ cs2). split; [done|]. split; [done|].
      intros x. rewrite !covered_app, covered_cons. specialize (HX x). naive_solver lia.
    + destruct (HF (λ b, calcSize (set_from (Next (from b)) b))) as (sl & -> & HS). eexists _, (cs1 ++ Cell (c_ptr c) (w + 1) (c_hi c) :: cs2). split; [done|]. split.
      * apply (resize_ok v4); [done| |done|lia|lia| |]; [|intros d Hd; destruct (G1 d Hd); lia|intros d Hd; destruct (G2 d Hd); lia].
        intros sz' pv nx. unfold calcSize, set_from. cbn [from to prev next bsize]. rewrite El, Next_eq by lia. by eexists.
      * intros x. rewrite !covered_app, !covered_cons. cbn [c_lo c_hi]. specialize (HX x). rewrite <- El in *. intuition lia.
  - destruct (decide (c_hi c = w)) as [Eh|Nh]; [rewrite bool_decide_true by done|rewrite bool_decide_false by done].
    + rewrite bool_decide_false by lia. destruct (HF (λ b, calcSize (set_to (Prev (to b)) b))) as (sl & -> & HS).
      eexists _, (cs1 ++ Cell (c_ptr c) (c_lo c) (w - 1) :: cs2). split; [done|]. split.
      * apply (resize_ok v4); [done| |done|lia|lia| |]; [|intros d Hd; destruct (G1 d Hd); lia|intros d Hd; destruct (G2 d Hd); lia].
        intros sz' pv nx. unfold calcSize, set_to. cbn [from to prev next bsize]. rewrite Eh, Prev_eq by lia. by eexists.
      * intros x. rewrite !covered_app, !covered_cons. cbn [c_lo c_hi]. specialize (HX x). rewrite <- Eh in *. intuition lia.
    + destruct (split_ok v4 s cs1 c cs2 i w HB Hi ltac:(lia)) as (s' & p1 & p2 & -> & HB'). eexists _, _. split; [done|]. split; [done|].
      intros x. rewrite !covered_app, !covered_cons. cbn [c_lo c_hi]. specialize (HX x). pose proof (covered_nil x). intuition lia.
Qed.

Lemma take_in_use s cs w : blocks_ok s cs → ¬ covered cs w → take_ip (mk w) s = inl ErrInUse.
Proof.
  intros HB HN. unfold take_ip. destruct (list_find _ _) as [[i p]|] eqn:E; [|done]. apply list_find_Some in E as (Ei & HW & _).
  destruct (slot_cell s cs p HB) as (cs1 & c & cs2 & -> & ->); [by eapply list_elem_of_lookup_2|]. apply Is_true_true in HW. apply (within_iff s cs1 c cs2) in HW; [|done].
  destruct HN. rewrite covered_app, covered_cons. auto.
Qed.

(** ** Returning *)

(** The address becomes free. *)
Definition returned cs w (r : alloc_error + availableBlockList) : Prop :=
  ∃ s' cs', r = inr s' ∧ blocks_ok s' cs' ∧ ∀ x, covered cs' x ↔ covered cs x ∨ x = w.

Lemma covered_middle cs1 c cs2 x : covered (cs1 ++ c :: cs2) x ↔ covered cs1 x ∨ c_lo c ≤ x ≤ c_hi c ∨ covered cs2 x.
Proof. by rewrite covered_app, covered_cons. Qed.

(** What lies before a block lies before its predecessor. *)
Lemma before_last cs1 d cs2 e : ordered ((cs1 ++ [d]) ++ cs2) → e ∈ cs1 ++ [d] → c_hi e ≤ c_hi d.
Proof.
  rewrite <- (app_assoc cs1 [d] cs2). intros HO He. apply (ordered_middle v4 cs1 d cs2) in HO as (OD & G & _).
  apply elem_of_app in He as [He| ->%list_elem_of_singleton]; [|lia]. destruct (G e He) as [HG _]. unfold gap in HG. lia.
Qed.

Lemma after_head cs1 d cs2 e : ordered (cs1 ++ d :: cs2) → e ∈ d :: cs2 → c_lo d ≤ c_lo e.
Proof.
  intros HO He. apply (ordered_middle v4 cs1 d cs2) in HO as (OD & _ & G). apply elem_of_cons in He as [->|He]; [lia|]. destruct (G e He) as [HG _]. unfold gap in HG. lia.
Qed.

Lemma grow_left_ok s cs1 c cs2 w : blocks_ok s (cs1 ++ c :: cs2) → 0 ≤ w → w + 1 = c_lo c → returned (cs1 ++ c :: cs2) w (grow_left (c_ptr c) s).
Proof.
  intros HB Hw E. pose proof (ordered_middle v4 cs1 c cs2 (bk_ordered _ _ _ HB)) as (OC & G1 & G2). unfold gap in G1, G2.
  destruct (middle_block _ _ _ _ _ HB) as (sz & _ & EO). unfold grow_left. set (f := λ b, calcSize (set_from (Prev (from b)) b)).
  assert (Ef : ∀ sz pv nx, f (mkBlock (mk (c_lo c)) (mk (c_hi c)) sz pv nx) = mkBlock (mk w) (mk (c_hi c)) (addrDiff (mk w) (mk (c_hi c))) pv nx).
  { intros sz' pv nx. unfold f, calcSize, set_from. cbn [from to prev next bsize]. rewrite Prev_eq by lia. by replace (c_lo c - 1) with w by lia. }
  set (s1 := update (c_ptr c) f s).
  assert (EB : block_at s1 (c_ptr c) = mkBlock (mk w) (mk (c_hi c)) (addrDiff (mk w) (mk (c_hi c))) (last_ptr None cs1) (head_ptr cs2 None)).
  { unfold block_at, s1. cbn [update objs]. rewrite lookup_alter_eq, EO. cbn [fmap option_fmap option_map default]. apply Ef. }
  assert (HR : (∀ d, d ∈ cs1 → c_hi d + 1 < w) → returned (cs1 ++ c :: cs2) w (inr s1)).
  { intros HG. exists s1, (cs1 ++ Cell (c_ptr c) w (c_hi c) :: cs2). split; [done|]. split.
    - apply (resize_ok v4); [done| |done|lia|lia|done|]; [intros sz' pv nx; rewrite Ef; by eexists|]. intros d Hd. destruct (G2 d Hd). lia.
    - intros x. rewrite !covered_middle. cbn [c_lo c_hi]. intuition lia. }
  rewrite EB. cbn [prev from]. destruct cs1 as [|d cs1 _] using rev_ind; [apply HR; by intros d ?%elem_of_nil|].
  rewrite last_ptr_app. cbn [last_ptr foldl]. pose proof (bk_nodup _ _ _ HB) as HN.
  assert (Hdc : c_ptr c ≠ c_ptr d). { rewrite !fmap_app, NoDup_app in HN. destruct HN as (_ & HD & _). intros EE. apply (HD (c_ptr d)); [apply elem_of_app; right; by left|rewrite <- EE; by left]. }
  rewrite <- app_assoc in HB. destruct (middle_block v4 s cs1 d (c :: cs2) HB) as (szd & EBd & EOd).
  assert (ED : block_at s1 (c_ptr d) = block_at s (c_ptr d)) by (unfold block_at, s1; cbn [update objs]; by rewrite lookup_alter_ne).
  rewrite ED, EBd. cbn [to]. pose proof (ordered_middle v4 cs1 d (c :: cs2) (bk_ordered _ _ _ HB)) as (OD & GD & _). unfold gap in GD.
  destruct (G1 d) as [G1d _]; [apply elem_of_app; right; by left|].
  case_bool_decide as EM.
  - symmetry in EM. apply Prev_mk in EM as [EM _]; [|lia].
    destruct (merge_ok v4 s s1 cs1 d c cs2 (c_lo d) (c_hi c) HB) as (s' & p & -> & HB'); [done|done| | | | | |lia|lia| | |].
    + intros p Hp. unfold s1. cbn [update objs]. apply lookup_alter_ne. intros <-. apply Hp. right. by left.
    + by rewrite ED, EBd.
    + by rewrite ED, EBd.
    + by rewrite EB.
    + by rewrite EB.
    + intros e He. destruct (GD e He). lia.
    + intros e He. destruct (G2 e He). lia.
    + eexists _, _. split; [done|]. split; [done|]. intros x. rewrite !covered_app, !covered_cons. cbn [c_lo c_hi]. pose proof (covered_nil x). intuition lia.
  - apply HR. intros e He. apply (before_last cs1 d (c :: cs2)) in He; [|rewrite <- app_assoc; apply HB].
    destruct (decide (c_hi d + 1 = w)) as [EE|]; [|lia]. destruct EM. symmetry. apply Prev_mk; lia.
Qed.

Lemma grow_right_ok s cs1 c cs2 w i : blocks_ok s (cs1 ++ c :: cs2) → w ≤ top → w = c_hi c + 1 → (Z.to_nat i < length (cs1 ++ c :: cs2))%nat →
  returned (cs1 ++ c :: cs2) w (grow_right i (c_ptr c) s).
Proof.
  intros HB Hw E Hi. pose proof (ordered_middle v4 cs1 c cs2 (bk_ordered _ _ _ HB)) as (OC & G1 & G2). unfold gap in G1, G2.
  destruct (middle_block _ _ _ _ _ HB) as (sz & _ & EO). unfold grow_right. set (f := λ b, calcSize (set_to (Next (to b)) b)).
  assert (Ef : ∀ sz pv nx, f (mkBlock (mk (c_lo c)) (mk (c_hi c)) sz pv nx) = mkBlock (mk (c_lo c)) (mk w) (addrDiff (mk (c_lo c)) (mk w)) pv nx).
  { intros sz' pv nx. unfold f, calcSize, set_to. cbn [from to prev next bsize]. rewrite Next_eq by lia. by replace (c_hi c + 1) with w by lia. }
  unfold heap_fix. destruct (Fix_ok (block_less (update (c_ptr c) f s)) (slots s) (Z.to_nat i)) as (sl & EF & HS).
  { by rewrite (bk_slots _ _ _ HB), length_fmap. }
  cbn [update slots objs fresh] in EF |- *. rewrite EF. cbn [ebind]. set (s1 := mkAbl sl (alter f (c_ptr c) (objs s)) (fresh s)).
  assert (EB : block_at s1 (c_ptr c) = mkBlock (mk (c_lo c)) (mk w) (addrDiff (mk (c_lo c)) (mk w)) (last_ptr None cs1) (head_ptr cs2 None)).
  { unfold block_at, s1. cbn [objs]. rewrite lookup_alter_eq, EO. cbn [fmap option_fmap option_map default]. apply Ef. }
  assert (HR : (∀ d, d ∈ cs2 → w + 1 < c_lo d) → returned (cs1 ++ c :: cs2) w (inr s1)).
  { intros HG. exists s1, (cs1 ++ Cell (c_ptr c) (c_lo c) w :: cs2). split; [done|]. split.
    - apply (resize_ok v4); [done| |done|lia|lia| |done]; [intros sz' pv nx; rewrite Ef; by eexists|]. intros d Hd. destruct (G1 d Hd). lia.
    - intros x. rewrite !covered_middle. cbn [c_lo c_hi]. intuition lia. }
  rewrite EB. cbn [next to]. destruct cs2 as [|d cs2]; [apply HR; by intros d ?%elem_of_nil|]. cbn [head_ptr].
  assert (HB2 : blocks_ok s ((cs1 ++ [c]) ++ d :: cs2)) by (by rewrite <- app_assoc).
  assert (Hdc : c_ptr c ≠ c_ptr d). { pose proof (bk_nodup _ _ _ HB) as HN. rewrite fmap_app, NoDup_app in HN. destruct HN as (_ & _ & HD). cbn in HD.
    apply NoDup_cons in HD as [HD _]. intros EE. apply HD. rewrite EE. by left. }
  destruct (middle_block v4 s (cs1 ++ [c]) d cs2 HB2) as (szd & EBd & EOd).
  assert (ED : block_at s1 (c_ptr d) = block_at s (c_ptr d)) by (unfold block_at, s1; cbn [objs]; by rewrite lookup_alter_ne).
  rewrite ED, EBd. cbn [from]. pose proof (ordered_middle v4 _ d cs2 (bk_ordered _ _ _ HB2)) as (OD & _ & GD). unfold gap in GD.
  destruct (G2 d) as [G2d _]; [by left|].
  case_bool_decide as EM.
  - symmetry in EM. apply Next_mk in EM as [EM _]; [|lia].
    destruct (merge_ok v4 s s1 cs1 c d cs2 (c_lo c) (c_hi d) HB) as (s' & p & -> & HB'); [done|done| | | | | |lia|lia| | |].
    + intros p Hp. unfold s1. cbn [objs]. apply lookup_alter_ne. intros <-. apply Hp. by left.
    + by rewrite EB.
    + by rewrite EB.
    + by rewrite ED, EBd.
    + by rewrite ED, EBd.
    + intros e He. destruct (G1 e He). lia.
    + intros e He. destruct (GD e He). lia.
    + eexists _, _. split; [done|]. split; [done|]. intros x. rewrite !covered_app, !covered_cons. cbn [c_lo c_hi]. pose proof (covered_nil x). intuition lia.
  - apply HR. intros e He. apply (after_head (cs1 ++ [c]) d cs2) in He; [|by apply HB2].
    destruct (decide (c_lo d = w + 1)) as [EE|]; [|lia]. destruct EM. symmetry. apply Next_mk; lia.
Qed.

(** The outcome of the walk of [put]; only with more than a million blocks is it given up. *)
Definition put_spec cs w (r : alloc_error + availableBlockList) : Prop :=
  returned cs w r ∨ (r = inl ErrBadLoop ∧ maxIter < Z.of_nat (length cs)).

Lemma inserted s cs1 cs2 w : blocks_ok s (cs1 ++ cs2) → 0 ≤ w ≤ top → (∀ d, d ∈ cs1 → c_hi d + 1 < w) → (∀ d, d ∈ cs2 → w + 1 < c_lo d) →
  put_spec (cs1 ++ cs2) w (inr (insert_block (last_ptr None cs1) (head_ptr cs2 None) (mk w) s)).
Proof.
  intros HB Hw G1 G2. destruct (insert_block_ok v4 s cs1 cs2 w HB Hw G1 G2) as [p HB']. left. eexists _, _. split; [done|]. split; [done|].
  intros x. rewrite !covered_app, covered_cons. cbn [c_lo c_hi]. intuition lia.
Qed.

(** The comparisons of a step of the walk. *)
Lemma walk_step s cs1 c cs2 w fuel i back : blocks_ok s (cs1 ++ c :: cs2) → 0 ≤ w ≤ top → ¬ covered (cs1 ++ c :: cs2) w → 0 ≤ i < maxIter →
  (Z.to_nat i < length (cs1 ++ c :: cs2))%nat →
  let r := put_loop (S fuel) i (c_ptr c) back (mk w) s in
  put_spec (cs1 ++ c :: cs2) w r ∨
  (w + 1 < c_lo c ∧ r = match last_ptr None cs1 with
    | Some q => if bool_decide (Some q = back) then inr (insert_block (Some q) (Some (c_ptr c)) (mk w) s) else put_loop fuel (i + 1) q (Some (c_ptr c)) (mk w) s
    | None => inr (insert_block None (Some (c_ptr c)) (mk w) s) end) ∨
  (c_hi c + 1 < w ∧ r = match head_ptr cs2 None with
    | Some q => if bool_decide (Some q = back) then inr (insert_block (Some (c_ptr c)) (Some q) (mk w) s) else put_loop fuel (i + 1) q (Some (c_ptr c)) (mk w) s
    | None => inr (insert_block (Some (c_ptr c)) None (mk w) s) end).
Proof.
  intros HB Hw HN Hi HL. cbn [put_loop]. rewrite (proj2 (Z.leb_gt _ _)) by lia. destruct (middle_block _ _ _ _ _ HB) as (sz & -> & _). cbn [from to prev next].
  pose proof (ordered_middle v4 cs1 c cs2 (bk_ordered _ _ _ HB)) as (OC & _ & _). rewrite covered_middle in HN. rewrite Compare_lt.
  destruct (Z.ltb_spec w (c_lo c)) as [Hlt|Hge].
  - case_bool_decide as E; [apply Prev_mk in E as [E _]; [|lia]; left; left; apply grow_left_ok; [done|lia|lia]|].
    right. left. split; [|done]. destruct (decide (w + 1 = c_lo c)) as [EE|]; [|lia]. destruct E. apply Prev_mk; lia.
  - assert (c_hi c < w) by (destruct (decide (w ≤ c_hi c)); [|lia]; destruct HN; right; left; lia).
    case_bool_decide as E; [apply Next_mk in E as [E _]; [|lia]; left; left; apply grow_right_ok; [done|lia|lia|done]|].
    right. right. split; [|done]. destruct (decide (w = c_hi c + 1)) as [EE|]; [|lia]. destruct E. apply Next_mk; lia.
Qed.

(** The counter has not reached the limit, or there are too many blocks. *)
Lemma walk_limit fuel i curr back w s cs : (Z.to_nat i < length cs)%nat → 0 ≤ i → (i < maxIter → put_spec cs w (put_loop (S fuel) i curr back (mk w) s)) →
  put_spec cs w (put_loop (S fuel) i curr back (mk w) s).
Proof.
  intros Hi H0 HP. destruct (decide (i < maxIter)) as [|Hn]; [by apply HP|]. right. cbn [put_loop]. rewrite (proj2 (Z.leb_le _ _)) by lia. split; [done|]. lia.
Qed.

(** Before the first address of [d], and not next to it. *)
Lemma gaps_after s cs1 d cs2 w : blocks_ok s (cs1 ++ d :: cs2) → w + 1 < c_lo d → ∀ e, e ∈ d :: cs2 → w + 1 < c_lo e.
Proof. intros HB Hw e He. apply (after_head cs1 d cs2) in He; [lia|apply HB]. Qed.

Lemma gaps_before s cs1 d cs2 w : blocks_ok s ((cs1 ++ [d]) ++ cs2) → c_hi d + 1 < w → ∀ e, e ∈ cs1 ++ [d] → c_hi e + 1 < w.
Proof. intros HB Hw e He. apply (before_last cs1 d cs2) in He; [lia|apply HB]. Qed.

Lemma walk_left s w cs1 : ∀ c d cs2 fuel i, blocks_ok s (cs1 ++ c :: d :: cs2) → 0 ≤ w ≤ top → ¬ covered (cs1 ++ c :: d :: cs2) w → w + 1 < c_lo d →
  (length cs1 < fuel)%nat → 0 ≤ i → (Z.to_nat i + length cs1 < length (cs1 ++ c :: d :: cs2))%nat →
  put_spec (cs1 ++ c :: d :: cs2) w (put_loop fuel i (c_ptr c) (Some (c_ptr d)) (mk w) s).
Proof.
  induction cs1 as [|e cs1 IH] using rev_ind; intros c d cs2 fuel i HB Hw HN Hd Hf H0 Hi; (destruct fuel as [|fuel]; [lia|]); apply walk_limit; [lia|done| |lia|done|]; intros Hm.
  - destruct (walk_step s [] c (d :: cs2) w fuel i (Some (c_ptr d)) HB Hw HN ltac:(lia) ltac:(lia)) as [HR|[[Hc ->]|[Hc ->]]]; [done|..].
    + apply (inserted s [] (c :: d :: cs2)); [done|done|by intros x ?%elem_of_nil|exact (gaps_after s [] c (d :: cs2) w HB Hc)].
    + cbn [head_ptr]. rewrite bool_decide_true by done. apply (inserted s [c] (d :: cs2)); [done|done|exact (gaps_before s [] c (d :: cs2) w HB Hc)|exact (gaps_after s [c] d cs2 w HB Hd)].
  - destruct (walk_step s (cs1 ++ [e]) c (d :: cs2) w fuel i (Some (c_ptr d)) HB Hw HN ltac:(lia) ltac:(lia)) as [HR|[[Hc ->]|[Hc ->]]]; [done|..].
    + rewrite last_ptr_app. cbn [last_ptr foldl]. rewrite <- app_assoc in *. cbn [app] in *. rewrite bool_decide_false.
      * rewrite length_app in *. cbn [length] in *. apply (IH e c (d :: cs2)); [done|done|done|lia|lia|lia|]. rewrite ?length_app in *. cbn [length] in *. lia.
      * intros [= E]. pose proof (bk_nodup _ _ _ HB) as ND. rewrite fmap_app, NoDup_app in ND. destruct ND as (_ & _ & ND). cbn in ND. apply NoDup_cons in ND as [ND _].
        apply ND. rewrite E. right. by left.
    + cbn [head_ptr]. rewrite bool_decide_true by done. assert (HB2 : blocks_ok s (((cs1 ++ [e]) ++ [c]) ++ d :: cs2)) by (by rewrite <- !app_assoc in *).
      pose proof (inserted s ((cs1 ++ [e]) ++ [c]) (d :: cs2) w HB2 Hw (gaps_before s _ c _ w HB2 Hc) (gaps_after s _ d cs2 w HB2 Hd)) as HI.
      rewrite last_ptr_app in HI. cbn [last_ptr foldl head_ptr] in HI. by rewrite <- (app_assoc (cs1 ++ [e]) [c]) in HI.
Qed.

Lemma walk_right s w cs2 : ∀ cs1 d c fuel i, blocks_ok s ((cs1 ++ [d]) ++ c :: cs2) → 0 ≤ w ≤ top → ¬ covered ((cs1 ++ [d]) ++ c :: cs2) w → c_hi d + 1 < w →
  (length cs2 < fuel)%nat → 0 ≤ i → (Z.to_nat i + length cs2 < length ((cs1 ++ [d]) ++ c :: cs2))%nat →
  put_spec ((cs1 ++ [d]) ++ c :: cs2) w (put_loop fuel i (c_ptr c) (Some (c_ptr d)) (mk w) s).
Proof.
  induction cs2 as [|e cs2 IH]; intros cs1 d c fuel i HB Hw HN Hd Hf H0 Hi; (destruct fuel as [|fuel]; [lia|]); apply walk_limit; [lia|done| |lia|done|]; intros Hm.
  - destruct (walk_step s (cs1 ++ [d]) c [] w fuel i (Some (c_ptr d)) HB Hw HN ltac:(lia) ltac:(lia)) as [HR|[[Hc ->]|[Hc ->]]]; [done|..].
    + rewrite last_ptr_app. cbn [last_ptr foldl]. rewrite bool_decide_true by done.
      pose proof (inserted s (cs1 ++ [d]) [c] w HB Hw (gaps_before s _ d _ w HB Hd) (gaps_after s _ c [] w HB Hc)) as HI. by rewrite last_ptr_app in HI.
    + cbn [head_ptr]. assert (HB2 : blocks_ok s (((cs1 ++ [d]) ++ [c]) ++ [])) by (by rewrite app_nil_r).
      pose proof (inserted s ((cs1 ++ [d]) ++ [c]) [] w HB2 Hw (gaps_before s _ c _ w HB2 Hc) ltac:(by intros x ?%elem_of_nil)) as HI.
      rewrite last_ptr_app in HI. by rewrite app_nil_r in HI.
  - destruct (walk_step s (cs1 ++ [d]) c (e :: cs2) w fuel i (Some (c_ptr d)) HB Hw HN ltac:(lia) ltac:(lia)) as [HR|[[Hc ->]|[Hc ->]]]; [done|..].
    + rewrite last_ptr_app. cbn [last_ptr foldl]. rewrite bool_decide_true by done.
      pose proof (inserted s (cs1 ++ [d]) (c :: e :: cs2) w HB Hw (gaps_before s _ d _ w HB Hd) (gaps_after s _ c _ w HB Hc)) as HI. by rewrite last_ptr_app in HI.
    + cbn [head_ptr]. assert (HB2 : blocks_ok s (((cs1 ++ [d]) ++ [c]) ++ e :: cs2)) by (by rewrite <- app_assoc).
      rewrite bool_decide_false.
      * change (c :: e :: cs2) with ([c] ++ e :: cs2) in *. rewrite (app_assoc (cs1 ++ [d]) [c]) in *. cbn [length] in *.
        apply (IH (cs1 ++ [d]) c e); [done|done|done|lia|lia|lia|]. lia.
      * intros [= E]. rewrite <- !app_assoc in HB. cbn [app] in HB. pose proof (bk_nodup _ _ _ HB) as ND. rewrite fmap_app, NoDup_app in ND.
        destruct ND as (_ & _ & ND). cbn in ND. apply NoDup_cons in ND as [ND _]. apply ND. rewrite <- E. right. by left.
Qed.

(** Returning an address in use makes it free. *)
Lemma put_ok s cs w : blocks_ok s cs → 0 ≤ w ≤ top → ¬ covered cs w → put_spec cs w (put (mk w) s).
Proof.
  intros HB Hw HN. unfold put. destruct (slots s) as [|p sl] eqn:ES.
  - assert (cs = []) as ->. { pose proof (bk_slots _ _ _ HB) as HS. rewrite ES in HS. apply Permutation_nil_l in HS. by apply symmetry, fmap_nil_inv in HS. }
    apply (inserted s [] []); [done|done|by intros x ?%elem_of_nil..].
  - assert (HL : length cs = S (length sl)) by (rewrite <- (length_fmap c_ptr), <- (bk_slots _ _ _ HB), ES; done).
    destruct (slot_cell s cs p HB) as (cs1 & c & cs2 & -> & ->); [rewrite ES; by left|]. cbn [length].
    assert (HL' : (length cs1 + S (length cs2) = S (length sl))%nat) by (by rewrite length_app in HL).
    destruct (walk_step s cs1 c cs2 w (S (length sl)) 0 None HB Hw HN ltac:(done) ltac:(lia)) as [HR|[[Hc ->]|[Hc ->]]]; [done|..].
    + destruct cs1 as [|e cs1 _] using rev_ind.
      * apply (inserted s [] (c :: cs2)); [done|done|by intros x ?%elem_of_nil|exact (gaps_after s [] c cs2 w HB Hc)].
      * rewrite last_ptr_app. cbn [last_ptr foldl]. rewrite bool_decide_false by done. rewrite <- app_assoc in *. cbn [app] in *. rewrite length_app in *. cbn [length] in *.
        apply walk_left; [done|done|done|lia|lia|lia|]. rewrite length_app. cbn [length]. lia.
    + destruct cs2 as [|e cs2].
      * assert (HB2 : blocks_ok s ((cs1 ++ [c]) ++ [])) by (by rewrite app_nil_r).
        pose proof (inserted s (cs1 ++ [c]) [] w HB2 Hw (gaps_before s _ c _ w HB2 Hc) ltac:(by intros x ?%elem_of_nil)) as HI. rewrite last_ptr_app in HI. by rewrite app_nil_r in HI.
      * cbn [head_ptr]. rewrite bool_decide_false by done. change (c :: e :: cs2) with ([c] ++ e :: cs2) in *. rewrite (app_assoc cs1 [c]) in *. cbn [length] in *.
        apply walk_right; [done|done|done|lia|lia|lia|]. rewrite HL. lia.
Qed.
End put.
