(* ===== verification/IpAllocRefine.v ===== *)
(** * The IP address allocator refines a table

    Every history of [HashAllocator] of [src/pkg/ipalloc/ipalloc.go] follows a table from the addresses in
    use to their values: an address is refused only when it is in use or out of range, and an allocator is
    full only when all its addresses are in use.  [ServiceAllocatorAdapter] of [src/pkg/ipalloc/adapter.go]
    is the allocator as the interface of service addresses. *)

From S2P Require Import Prelude Text Netip GoLib IpAlloc IpAllocBlocks NetipText.

Local Open Scope Z_scope.

(** Operations, and what they return: an error or the address. *)
Inductive alloc_op (T : Type) := OpAllocAny (v : T) | OpAlloc (ip : IP) (v : T) | OpUpdate (ip : IP) (v : T) | OpFree (ip : IP).
Arguments OpAllocAny {T}.
Arguments OpAlloc {T}.
Arguments OpUpdate {T}.
Arguments OpFree {T}.

Section history.
Context {T : Type}.
Implicit Types (a : HashAllocator T) (op : alloc_op T).

Definition outcome a ip (r : alloc_error + HashAllocator T) : HashAllocator T * (alloc_error + IP) :=
  match r with inl e => (a, inl e) | inr a' => (a', inr ip) end.

Definition alloc_step op a : HashAllocator T * (alloc_error + IP) :=
  match op with
  | OpAllocAny v => match AllocAny v a with inl e => (a, inl e) | inr (a', ip) => (a', inr ip) end
  | OpAlloc ip v => outcome a ip (Alloc ip v a)
  | OpUpdate ip v => outcome a ip (Update ip v a)
  | OpFree ip => outcome a ip (Free ip a)
  end.

(** The results of a history. *)
Fixpoint alloc_run (ops : list (alloc_op T)) a : HashAllocator T * list (alloc_error + IP) :=
  match ops with
  | [] => (a, [])
  | op :: ops => let '(a, r) := alloc_step op a in let '(a, rs) := alloc_run ops a in (a, r :: rs)
  end.

(** An operation on an address without a zone. *)
Definition zoneless op : Prop :=
  match op with OpAllocAny _ => True | OpAlloc ip _ | OpUpdate ip _ | OpFree ip => Zone ip = [] end.
End history.

Section refine.
Context {T : Type} (v4 : bool) (lo hi : Z).
Implicit Types (t : gmap Z T) (a : HashAllocator T) (op : alloc_op T) (cs : list cell) (x w : Z).

Notation mk := (mk v4).
Notation top := (top v4).

(** ** The table *)

(** The word of an address of the family of the allocator. *)
Definition word_of (ip : IP) : option Z :=
  match ip with
  | Some (V4 w) => if v4 then Some w else None
  | Some (V6 w []) => if v4 then None else Some w
  | _ => None
  end.

Definition in_range (ip : IP) : option Z := x ← word_of ip; if (lo <=? x) && (x <=? hi) then Some x else None.

Definition held t (ip : IP) : option T := x ← word_of ip; t !! x.

Definition spec_step op t (r : alloc_error + IP) t' : Prop :=
  match op with
  | OpAllocAny v =>
      ((∀ x, lo ≤ x ≤ hi → is_Some (t !! x)) ∧ r = inl ErrFull ∧ t' = t) ∨
      (∃ x, lo ≤ x ≤ hi ∧ t !! x = None ∧ r = inr (mk x) ∧ t' = <[x := v]> t)
  | OpAlloc ip v =>
      match in_range ip with
      | None => r = inl ErrOutOfRange ∧ t' = t
      | Some x => if bool_decide (is_Some (t !! x)) then r = inl ErrInUse ∧ t' = t else r = inr ip ∧ t' = <[x := v]> t
      end
  | OpUpdate ip v =>
      match word_of ip with
      | Some x => if bool_decide (is_Some (t !! x)) then r = inr ip ∧ t' = <[x := v]> t else r = inl ErrNotFound ∧ t' = t
      | None => r = inl ErrNotFound ∧ t' = t
      end
  | OpFree ip =>
      match word_of ip with
      | Some x =>
          if bool_decide (is_Some (t !! x))
          then (r = inr ip ∧ t' = delete x t) ∨ (r = inl ErrBadLoop ∧ t' = t ∧ maxIter ≤ Z.of_nat (size t))
          else r = inl ErrNotFound ∧ t' = t
      | None => r = inl ErrNotFound ∧ t' = t
      end
  end.

Fixpoint spec_run (ops : list (alloc_op T)) t (rs : list (alloc_error + IP)) t' : Prop :=
  match ops, rs with
  | [], [] => t' = t
  | op :: ops, r :: rs => ∃ t1, spec_step op t r t1 ∧ spec_run ops t1 rs t'
  | _, _ => False
  end.

(** ** The invariant *)

Definition addr x : Addr := if v4 then V4 x else V6 x [].

#[local] Instance addr_inj : Inj (=) (=) addr.
Proof. intros x y. unfold addr. destruct v4; congruence. Qed.

Record allocator_ok a t cs : Prop := {
  ao_start : a_start a = mk lo;
  ao_stop : a_stop a = mk hi;
  ao_alloc : allocations a = kmap addr t;
  ao_range : ∀ x, is_Some (t !! x) → lo ≤ x ≤ hi;
  ao_blocks : blocks_ok v4 (availableBlocks a) cs;
  ao_free : ∀ x, covered cs x ↔ lo ≤ x ≤ hi ∧ t !! x = None;
}.

Context (Hr : 0 ≤ lo ≤ hi ∧ hi ≤ top).

Lemma mk_addr x : mk x = Some (addr x).
Proof. done. Qed.

Lemma word_of_Some ip x : Zone ip = [] → word_of ip = Some x → ip = mk x.
Proof. unfold word_of, IpAllocBlocks.mk. destruct ip as [[w|w [|ch z]]|], v4; cbn; congruence. Qed.

Lemma word_of_mk x : word_of (mk x) = Some x.
Proof. unfold word_of, IpAllocBlocks.mk. by destruct v4. Qed.

Lemma allocated_ok a t cs ip : allocator_ok a t cs → Zone ip = [] → allocated a ip = held t ip.
Proof.
  intros HA HZ. unfold allocated, held. rewrite (ao_alloc _ _ _ HA). destruct (word_of ip) as [x|] eqn:E.
  - rewrite (word_of_Some ip x HZ E). cbn. apply (lookup_kmap addr t x).
  - destruct ip as [ad|]; [|done]. cbn [mbind option_bind]. apply lookup_kmap_None; [apply _|]. intros x ->. by rewrite <- mk_addr, word_of_mk in E.
Qed.

(** The test of [Alloc] for the range. *)
Lemma out_of_range ip : Zone ip = [] → (Compare ip (mk lo) <? 0) || (0 <? Compare ip (mk hi)) = bool_decide (in_range ip = None).
Proof.
  intros HZ. unfold in_range. destruct (word_of ip) as [x|] eqn:E.
  - rewrite (word_of_Some ip x HZ E), Compare_lt, Compare_gt. cbn. destruct (Z.ltb_spec x lo), (Z.ltb_spec hi x), (Z.leb_spec lo x), (Z.leb_spec x hi); cbn; (lia || done).
  - rewrite bool_decide_true by done. unfold word_of in E. unfold Compare, IpAllocBlocks.mk, Zone in *.
    destruct ip as [[w|w z]|]; destruct v4; cbn in *; try done. by subst z.
Qed.

Lemma record_ok a t cs s cs' x v : allocator_ok a t cs → lo ≤ x ≤ hi → blocks_ok v4 s cs' → (∀ y, covered cs' y ↔ covered cs y ∧ y ≠ x) →
  allocator_ok (record_alloc (mk x) v s a) (<[x := v]> t) cs'.
Proof.
  intros [H1 H2 H3 H4 H5 H6] Hx HB HC. split; cbn [record_alloc a_start a_stop allocations availableBlocks]; [done|done| | |done|].
  - rewrite mk_addr. cbn [set_value]. by rewrite H3, (kmap_insert addr).
  - intros y [?|[? ?]]%lookup_insert_is_Some; [lia|auto].
  - intros y. rewrite HC, H6, lookup_insert_None. intuition congruence.
Qed.

(** An allocator without blocks is full. *)
Lemma no_blocks a t cs : allocator_ok a t cs → slots (availableBlocks a) = [] → ∀ x, lo ≤ x ≤ hi → is_Some (t !! x).
Proof.
  intros HA HS x Hx. destruct (t !! x) eqn:E; [by eexists|]. assert (HC : covered cs x) by (by apply (ao_free _ _ _ HA)).
  pose proof (bk_slots _ _ _ (ao_blocks _ _ _ HA)) as HP. rewrite HS in HP. apply Permutation_nil_l in HP. symmetry in HP. apply fmap_nil_inv in HP. subst cs. by apply covered_nil in HC.
Qed.

(** There is an address in use between any two blocks. *)
Lemma blocks_bound a t cs : allocator_ok a t cs → Z.of_nat (length cs) ≤ Z.of_nat (size t) + 1.
Proof.
  intros HA. destruct cs as [|d cs _] using rev_ind; [cbn; lia|]. pose proof (ao_blocks _ _ _ HA) as HB. pose proof (bk_ordered _ _ _ HB) as HO.
  pose proof (proj1 (ordered_app v4 cs [d]) HO) as ([_ HS] & _ & _). set (after := λ c, c_hi c + 1).
  assert (HN : NoDup (after <$> cs)).
  { assert (HL : Forall (λ c, c_lo c ≤ c_hi c) cs) by (apply Forall_forall; intros c Hc; destruct HO as [HF _]; rewrite Forall_app, !Forall_forall in HF; destruct HF as [HF _]; destruct (HF c Hc); lia).
    clear HO HA HB. induction HS as [|c cs' HS' IH HG]; [constructor|]. rewrite Forall_cons in HL. destruct HL as [_ HL]. cbn. constructor; [|by apply IH].
    intros (e & He & Hin)%list_elem_of_fmap. rewrite Forall_forall in HG, HL. specialize (HG e Hin). specialize (HL e Hin). unfold gap, after in *. lia. }
  assert (HD : (list_to_set (after <$> cs) : gset Z) ⊆ dom t).
  { intros w (c & -> & Hc)%elem_of_list_to_set%list_elem_of_fmap. apply list_elem_of_split in Hc as (cs1 & cs2 & ->). rewrite <- app_assoc in HB, HO. cbn [app] in HB, HO.
    destruct (not_covered_middle v4 cs1 c (cs2 ++ [d]) (after c) HO) as [N1 N2]; [unfold after; pose proof (ordered_middle v4 _ _ _ HO) as (OC & _); lia|].
    pose proof (ordered_middle v4 cs1 c (cs2 ++ [d]) HO) as (OC & _ & G). destruct (G d) as [HG HG']; [apply elem_of_app; right; by left|]. unfold gap in HG.
    assert (HU : ¬ covered ((cs1 ++ c :: cs2) ++ [d]) (after c)) by (rewrite <- app_assoc; cbn [app]; rewrite covered_middle; unfold after in *; intuition lia).
    assert (R1 : lo ≤ c_lo c ≤ hi) by (apply (ao_free _ _ _ HA); rewrite <- app_assoc; cbn [app]; rewrite covered_middle; lia).
    assert (R2 : lo ≤ c_lo d ≤ hi) by (apply (ao_free _ _ _ HA); rewrite covered_app, covered_cons; lia).
    apply elem_of_dom. destruct (t !! after c) eqn:E; [by eexists|]. destruct HU. apply (ao_free _ _ _ HA). split; [unfold after in *; lia|done]. }
  apply subseteq_size in HD. rewrite size_list_to_set in HD by done. rewrite length_fmap in HD. rewrite length_app. cbn [length]. rewrite size_dom in HD. lia.
Qed.

(** ** Steps *)

Lemma AllocAny_ok a t cs v : allocator_ok a t cs → ∃ t' cs', spec_step (OpAllocAny v) t (alloc_step (OpAllocAny v) a).2 t' ∧ allocator_ok (alloc_step (OpAllocAny v) a).1 t' cs'.
Proof.
  intros HA. pose proof (ao_blocks _ _ _ HA) as HB. cbn [alloc_step]. unfold AllocAny. destruct (slots (availableBlocks a)) as [|p sl] eqn:ES.
  - exists t, cs. split; [|done]. left. split; [by eapply no_blocks|done].
  - destruct (slot_cell v4 _ cs p HB) as (cs1 & c & cs2 & -> & ->); [rewrite ES; by left|]. destruct (middle_block _ _ _ _ _ HB) as (sz & -> & _). cbn [from].
    pose proof (ordered_middle v4 cs1 c cs2 (bk_ordered _ _ _ HB)) as (OC & _). assert (HC : covered (cs1 ++ c :: cs2) (c_lo c)) by (rewrite covered_middle; lia).
    destruct (take_ok v4 _ _ (c_lo c) HB HC) as (s' & cs' & -> & HB' & HC'). cbn [ebind fst snd]. apply (ao_free _ _ _ HA) in HC as [HR HN].
    exists (<[c_lo c := v]> t), cs'. split; [|by eapply record_ok]. right. by exists (c_lo c).
Qed.

Lemma Alloc_ok a t cs ip v : allocator_ok a t cs → Zone ip = [] → ∃ t' cs', spec_step (OpAlloc ip v) t (alloc_step (OpAlloc ip v) a).2 t' ∧ allocator_ok (alloc_step (OpAlloc ip v) a).1 t' cs'.
Proof.
  intros HA HZ. pose proof (ao_blocks _ _ _ HA) as HB. cbn [alloc_step spec_step]. unfold Alloc. rewrite (ao_start _ _ _ HA), (ao_stop _ _ _ HA), out_of_range by done.
  destruct (in_range ip) as [x|] eqn:E; [rewrite (bool_decide_false (Some x = None)) by done|exists t, cs; by rewrite (bool_decide_true (@None Z = None)) by done].
  unfold in_range in E. destruct (word_of ip) as [x'|] eqn:EW; [|done]. cbn [mbind option_bind] in E. destruct ((lo <=? x') && (x' <=? hi)) eqn:ER; [|done]. injection E as ->.
  rewrite (allocated_ok a t cs ip HA HZ). unfold held. rewrite EW. cbn [mbind option_bind]. apply andb_true_iff in ER as [ER1%Z.leb_le ER2%Z.leb_le].
  case_bool_decide as HU; [by exists t, cs|]. apply eq_None_not_Some in HU. case_bool_decide as HS.
  - exfalso. destruct (no_blocks a t cs HA HS x) as [? ?]; [lia|congruence].
  - rewrite (word_of_Some ip x HZ EW). destruct (take_ok v4 _ cs x HB) as (s' & cs' & -> & HB' & HC'); [apply (ao_free _ _ _ HA); split; [lia|done]|].
    exists (<[x := v]> t), cs'. split; [done|]. cbn [ebind outcome fst]. eapply record_ok; [done|lia|done|done].
Qed.

Lemma Update_ok a t cs ip v : allocator_ok a t cs → Zone ip = [] → ∃ t' cs', spec_step (OpUpdate ip v) t (alloc_step (OpUpdate ip v) a).2 t' ∧ allocator_ok (alloc_step (OpUpdate ip v) a).1 t' cs'.
Proof.
  intros HA HZ. cbn [alloc_step spec_step]. unfold Update. rewrite (allocated_ok a t cs ip HA HZ). unfold held.
  destruct (word_of ip) as [x|] eqn:EW; [|exists t, cs; done]. cbn [mbind option_bind]. case_bool_decide as HU; [|by exists t, cs].
  exists (<[x := v]> t), cs. split; [done|]. destruct HA as [H1 H2 H3 H4 H5 H6]. cbn [outcome fst]. rewrite (word_of_Some ip x HZ EW), mk_addr.
  split; cbn; [done|done|by rewrite H3, (kmap_insert addr)| |done|].
  - intros y [<-|[? ?]]%lookup_insert_is_Some; auto.
  - intros y. rewrite H6, lookup_insert_None. split; [|tauto]. intros [? E]. split; [done|]. split; [done|]. intros ->. rewrite E in HU. by destruct HU.
Qed.

Lemma Free_ok a t cs ip : allocator_ok a t cs → Zone ip = [] → ∃ t' cs', spec_step (OpFree ip) t (alloc_step (OpFree ip) a).2 t' ∧ allocator_ok (alloc_step (OpFree ip) a).1 t' cs'.
Proof.
  intros HA HZ. pose proof (ao_blocks _ _ _ HA) as HB. pose proof (allocated_ok a t cs ip HA HZ) as HL. cbn [alloc_step spec_step]. unfold Free, allocated, held in *.
  destruct (word_of ip) as [x|] eqn:EW.
  - rewrite (word_of_Some ip x HZ EW) in *. rewrite mk_addr in HL |- *. cbn [mbind option_bind] in HL. rewrite HL. case_bool_decide as HU; [|by exists t, cs].
    assert (HX : lo ≤ x ≤ hi) by (by apply (ao_range _ _ _ HA)). rewrite <- mk_addr.
    assert (HN : ¬ covered cs x) by (intros [_ E]%(ao_free _ _ _ HA); rewrite E in HU; by destruct HU).
    destruct (put_ok v4 _ cs x HB ltac:(lia) HN) as [(s' & cs' & -> & HB' & HC')|[-> HM]]; cbn [ebind outcome fst snd].
    + exists (delete x t), cs'. split; [by left|]. destruct HA as [H1 H2 H3 H4 H5 H6]. split; cbn; [done|done|by rewrite H3, (kmap_delete addr)| |done|].
      * intros y [? ?]%lookup_delete_is_Some. auto.
      * intros y. rewrite HC', H6, lookup_delete_None. split; [intros [[? ?]| ->]; auto|]. intros [? [<-|?]]; auto.
    + exists t, cs. split; [|done]. right. pose proof (blocks_bound a t cs HA). split_and!; [done|done|lia].
  - exists t, cs. destruct ip as [ad|]; [|done]. cbn [mbind option_bind] in HL. rewrite HL. rewrite bool_decide_false by (by intros []). done.
Qed.

Lemma alloc_step_ok a t cs op : allocator_ok a t cs → zoneless op → ∃ t' cs', spec_step op t (alloc_step op a).2 t' ∧ allocator_ok (alloc_step op a).1 t' cs'.
Proof. intros HA HZ. destruct op; [by eapply AllocAny_ok|by eapply Alloc_ok|by eapply Update_ok|by eapply Free_ok]. Qed.

Lemma run_ok ops : ∀ a t cs, allocator_ok a t cs → Forall zoneless ops →
  ∃ t' cs', spec_run ops t (alloc_run ops a).2 t' ∧ allocator_ok (alloc_run ops a).1 t' cs'.
Proof.
  induction ops as [|op ops IH]; intros a t cs HA HZ; [by exists t, cs|]. apply Forall_cons in HZ as [HZ HZs].
  destruct (alloc_step_ok a t cs op HA HZ) as (t1 & cs1 & HS & HA1). cbn [alloc_run]. destruct (alloc_step op a) as [a1 r]. cbn [fst snd] in *.
  destruct (IH a1 t1 cs1 HA1 HZs) as (t2 & cs2 & HR & HA2). destruct (alloc_run ops a1) as [a2 rs]. cbn [fst snd] in *. exists t2, cs2. split; [|done]. by exists t1.
Qed.

(** The addresses that are not in use. *)
Definition free_words t : gset Z := list_to_set (seqZ lo (hi - lo + 1)) ∖ dom t.

Lemma Stats_ok a t cs : allocator_ok a t cs → Stats a = (Z.of_nat (size t), Z.of_nat (size (free_words t))).
Proof.
  intros HA. assert (ES : size (allocations a) = size t).
  { rewrite (ao_alloc _ _ _ HA), <- !length_map_to_list, (map_to_list_kmap addr), length_fmap. done. }
  unfold Stats. rewrite ES, (ao_start _ _ _ HA), (ao_stop _ _ _ HA). f_equal. unfold free_words.
  assert (HD : dom t ⊆ (list_to_set (seqZ lo (hi - lo + 1)) : gset Z)).
  { intros x [v E]%elem_of_dom. apply elem_of_list_to_set, elem_of_seqZ. pose proof (ao_range _ _ _ HA x ltac:(by eexists)). lia. }
  pose proof (subseteq_size _ _ HD) as HL. rewrite size_difference by done. rewrite size_list_to_set, length_seqZ in * by apply NoDup_seqZ. rewrite size_dom in *.
  assert (EW : ∀ w, IP_word (mk w) = w) by (intros w; unfold IpAllocBlocks.mk; by destruct v4). rewrite !EW. lia.
Qed.
End refine.

(** An address that fits its width, or none. *)
Definition valid_ip (ip : IP) : Prop :=
  match ip with None => True | Some (V4 w) => is_uint 32 w | Some (V6 w _) => is_uint 128 w end.

Definition is_v4 (ip : IP) : bool := from_option Is4 false ip.

Lemma new_ok {T} start stop (a : HashAllocator T) : NewHashAllocator start stop = inr a → Zone start = [] → Zone stop = [] → valid_ip start → valid_ip stop →
  let v4 := is_v4 start in let lo := IP_word start in let hi := IP_word stop in
  (0 ≤ lo ≤ hi ∧ hi ≤ top v4) ∧ start = mk v4 lo ∧ stop = mk v4 hi ∧ ∃ cs, allocator_ok v4 lo hi a ∅ cs.
Proof.
  unfold NewHashAllocator. intros HN Z1 Z2 V1 V2. cbv zeta. destruct start as [sa|]; [rewrite bool_decide_false in HN by done|done].
  destruct (IP_BitLen (Some sa) =? IP_BitLen stop) eqn:EB; [|done]. cbn [negb] in HN. apply Z.eqb_eq in EB. destruct stop as [so|]; [|by destruct sa].
  assert (HS : Some sa = mk (is_v4 (Some sa)) (IP_word (Some sa)) ∧ Some so = mk (is_v4 (Some sa)) (IP_word (Some so))).
  { destruct sa as [w1|w1 z1], so as [w2|w2 z2]; cbn in *; try done; subst; done. }
  destruct HS as [HS1 HS2]. set (v4 := is_v4 (Some sa)) in *. set (lo := IP_word (Some sa)) in *. set (hi := IP_word (Some so)) in *. rewrite HS1, HS2 in HN.
  rewrite Compare_gt in HN. destruct (Z.ltb_spec hi lo) as [|HL]; [done|]. injection HN as <-.
  assert (HR : 0 ≤ lo ≤ hi ∧ hi ≤ top v4).
  { clear HS1 HS2. unfold lo, hi, v4 in *. destruct sa, so; cbn in *; unfold is_uint in *; try done; lia. }
  split; [done|]. split; [done|]. split; [done|]. exists [Cell 0 lo hi]. split; cbn [a_start a_stop allocations availableBlocks]; [done|done| | | |].
  - by rewrite kmap_empty.
  - intros x [? ?]. by rewrite lookup_empty in *.
  - split; [done|apply NoDup_singleton| | |by repeat constructor].
    + split; [|done]. eexists. apply lookup_singleton_eq.
    + apply ordered_one. cbn [c_lo c_hi]. lia.
  - intros x. rewrite covered_cons. cbn [c_lo c_hi]. pose proof (covered_nil x). rewrite lookup_empty. intuition lia.
Qed.

(** C6. The allocator of IP addresses follows a table from the addresses in use to their values.  In every
    history on addresses without a zone an allocation of any address succeeds unless all addresses of the
    range are in use, and gives one that is not; the allocation of a given address fails only when it is
    out of range or in use; no operation panics.  Returning an address can fail only with a million
    addresses in use.  The values and the numbers reported are those of the table. *)
Theorem hash_allocator_refines {T} start stop (a : HashAllocator T) ops :
  NewHashAllocator start stop = inr a → Zone start = [] → Zone stop = [] → valid_ip start → valid_ip stop → Forall zoneless ops →
  let v4 := is_v4 start in let lo := IP_word start in let hi := IP_word stop in let '(a', rs) := alloc_run ops a in
  ∃ t, spec_run v4 lo hi ops ∅ rs t ∧ (∀ ip, Zone ip = [] → Get ip a' = held v4 t ip) ∧
    Stats a' = (Z.of_nat (size t), Z.of_nat (size (free_words lo hi t))) ∧ Range a' = (start, stop).
Proof.
  intros HN Z1 Z2 V1 V2 HZ. cbv zeta. destruct (new_ok start stop a HN Z1 Z2 V1 V2) as (HR & E1 & E2 & cs & HA). cbv zeta in *.
  destruct (run_ok _ _ _ HR ops a ∅ cs HA HZ) as (t & cs' & HS & HA'). destruct (alloc_run ops a) as [a' rs]. cbn [fst snd] in *. exists t.
  split; [done|]. split; [intros ip; by apply (allocated_ok _ _ _ HR a' t cs' ip)|]. split; [by eapply Stats_ok|].
  unfold Range. rewrite (ao_start _ _ _ _ _ _ HA'), (ao_stop _ _ _ _ _ _ HA'). by rewrite <- E1, <- E2.
Qed.

Module Examples.
Definition v4_ip (w : Z) : IP := Some (V4 w).

(** The addresses 0.0.0.0 to 0.0.0.11. *)
Definition twelve : HashAllocator bool :=
  mkAllocator (v4_ip 0) (v4_ip 11) 0 ∅ (mkAbl [0] {[0 := calcSize (mkBlock (v4_ip 0) (v4_ip 11) (mkUint128 0 0) None None)]} 1).

Example twelve_new : NewHashAllocator (v4_ip 0) (v4_ip 11) = inr twelve.
Proof. reflexivity. Qed.

(** All addresses are allocated, then some are returned. *)
Definition holes : list (alloc_op bool) := replicate 12 (OpAllocAny true) ++ (OpFree ∘ v4_ip <$> [0; 1; 2; 10; 11; 9; 8]).

Lemma hash_allocator_refines_witness : let '(a', rs) := alloc_run (holes ++ [OpAllocAny true]) twelve in
  ∃ t, spec_run true 0 11 (holes ++ [OpAllocAny true]) ∅ rs t ∧ (∀ ip, Zone ip = [] → Get ip a' = held true t ip) ∧
    Stats a' = (Z.of_nat (size t), Z.of_nat (size (free_words 0 11 t))) ∧ Range a' = (v4_ip 0, v4_ip 11).
Proof.
  exact (hash_allocator_refines (v4_ip 0) (v4_ip 11) twelve (holes ++ [OpAllocAny true]) eq_refl eq_refl eq_refl
    ltac:(cbn; unfold is_uint; lia) ltac:(cbn; unfold is_uint; lia) ltac:(repeat constructor)).
Defined.

(** [put] does not restore the order of the heap when a block grows to the left: the next allocation is
    from the block 8 to 11 and not from the smaller block 0 to 2. *)
Example smallest_block_missed :
  last (alloc_run (holes ++ [OpAllocAny true]) twelve).2 = Some (inr (v4_ip 8)) ∧
  (let s := availableBlocks (alloc_run holes twelve).1 in
   map (λ p, (from (block_at s p), to (block_at s p))) (slots s)) = [(v4_ip 8, v4_ip 11); (v4_ip 0, v4_ip 2)].
Proof. split; vm_compute; reflexivity. Qed.
End Examples.

(** * The adapter of the IP address allocator *)

Definition Allocate (ip : IP) (a : HashAllocator bool) : alloc_error + HashAllocator bool := Alloc ip true a.
Definition AllocateNext (a : HashAllocator bool) : alloc_error + HashAllocator bool * IP := AllocAny true a.
Definition Release (ip : IP) (a : HashAllocator bool) : alloc_error + HashAllocator bool := Free ip a.
Definition Has (ip : IP) (a : HashAllocator bool) : bool := bool_decide (is_Some (Get ip a)).

Fixpoint commonPrefixBits (a b : list Z) : Z :=
  match a, b with
  | x :: a, y :: b => let xor := Z.lxor x y in if xor =? 0 then 8 + commonPrefixBits a b else LeadingZeros 8 xor
  | _, _ => 0
  end.

(** [Addr.Prefix], for a length that is not too long. *)
Definition Addr_Prefix (ip : Addr) (bits : Z) : Prefix := Masked (mkPrefix ip bits).

Definition ipRangeToPrefix (start stop : Addr) : Prefix :=
  let prefixLen :=
    if Is4 start then commonPrefixBits (split 4 8 (addr_word start)) (split 4 8 (addr_word stop))
    else commonPrefixBits (split 16 8 (As16 (Some start))) (split 16 8 (As16 (Some stop))) in
  Addr_Prefix start prefixLen.

Definition CIDR (a : HashAllocator bool) : option Prefix :=
  match Range a with (Some start, Some stop) => Some (ipRangeToPrefix start stop) | _ => None end.

(** ** Common bits *)

Lemma byte_testbit x i k : 0 ≤ k → 0 ≤ i → Z.testbit (Z.land (Z.shiftr x k) (Z.ones 8)) i = (i <? 8) && Z.testbit x (k + i).
Proof.
  intros Hk Hi. rewrite Z.land_spec, Z.shiftr_spec by done. rewrite Z.add_comm, andb_comm. f_equal.
  destruct (Z.ltb_spec i 8); [by apply Z.ones_spec_low|by apply Z.ones_spec_high].
Qed.

(** The words agree on the bits counted, and on no more. *)
Lemma commonPrefixBits_spec n x y : let k := commonPrefixBits (split n 8 x) (split n 8 y) in
  0 ≤ k ≤ 8 * Z.of_nat n ∧ (∀ i, 8 * Z.of_nat n - k ≤ i < 8 * Z.of_nat n → Z.testbit x i = Z.testbit y i) ∧
  (k < 8 * Z.of_nat n → Z.testbit x (8 * Z.of_nat n - k - 1) ≠ Z.testbit y (8 * Z.of_nat n - k - 1)).
Proof.
  induction n as [|n IH]; [cbn; split_and!; lia|]. cbn zeta in *. rewrite !split_S. cbn [commonPrefixBits].
  set (w := 8 * Z.of_nat n) in *. set (bx := Z.land (Z.shiftr x w) (Z.ones 8)). set (byt := Z.land (Z.shiftr y w) (Z.ones 8)).
  assert (HB : ∀ i, 0 ≤ i → Z.testbit (Z.lxor bx byt) i = (i <? 8) && xorb (Z.testbit x (w + i)) (Z.testbit y (w + i))).
  { intros i Hi. rewrite Z.lxor_spec. unfold bx, byt. rewrite !byte_testbit by lia. by destruct (i <? 8). }
  destruct (Z.eqb_spec (Z.lxor bx byt) 0) as [E|E].
  - destruct IH as (I1 & I2 & I3). set (k := commonPrefixBits _ _) in *. split; [lia|]. split.
    + intros i Hi. destruct (decide (i < w)); [apply I2; lia|]. specialize (HB (i - w) ltac:(lia)). rewrite E, Z.bits_0 in HB.
      rewrite (proj2 (Z.ltb_lt _ _)) in HB by lia. replace (w + (i - w)) with i in HB by lia. cbn in HB. by apply xorb_eq.
    + intros Hk. replace (8 * Z.of_nat (S n) - (8 + k) - 1) with (w - k - 1) by lia. apply I3. lia.
  - assert (HU : is_uint 8 (Z.lxor bx byt)).
    { apply lxor_uint; [lia|..]; unfold is_uint, bx, byt; rewrite Z.land_ones by lia; apply Z.mod_pos_bound; done. }
    set (v := Z.lxor bx byt) in *. unfold is_uint in HU. assert (EL : LeadingZeros 8 v = 7 - Z.log2 v) by (unfold LeadingZeros; rewrite (proj2 (Z.eqb_neq v 0)) by done; lia).
    rewrite EL. pose proof (Z.log2_nonneg v). assert (Z.log2 v < 8) by (apply Z.log2_lt_pow2; lia). split; [lia|]. split.
    + intros i Hi. specialize (HB (i - w) ltac:(lia)). rewrite Z.bits_above_log2 in HB by lia. rewrite (proj2 (Z.ltb_lt _ _)) in HB by lia.
      replace (w + (i - w)) with i in HB by lia. cbn in HB. by apply xorb_eq.
    + intros _. specialize (HB (Z.log2 v) ltac:(lia)). rewrite Z.bit_log2 in HB by lia. rewrite (proj2 (Z.ltb_lt _ _)) in HB by lia.
      replace (8 * Z.of_nat (S n) - (7 - Z.log2 v) - 1) with (w + Z.log2 v) by lia. intros EE. rewrite EE, xorb_nilpotent in HB. done.
Qed.

(** ** The prefix of a range *)

(** Two words of a width agree on their first [b] bits. *)
Lemma shift_agree len b x y : 0 ≤ b ≤ len → is_uint len x → is_uint len y →
  Z.shiftr (Z.lxor x y) (len - b) = 0 ↔ ∀ i, len - b ≤ i < len → Z.testbit x i = Z.testbit y i.
Proof.
  intros Hb Hx Hy. assert (HH : ∀ z i, is_uint len z → len ≤ i → Z.testbit z i = false).
  { intros z i [Hz0 Hz] Hi. rewrite <- (Z.mod_small z (2 ^ len)) by done. apply Z.mod_pow2_bits_high. lia. }
  split.
  - intros E i Hi. apply xorb_eq. rewrite <- Z.lxor_spec. replace i with (i - (len - b) + (len - b)) by lia. rewrite <- Z.shiftr_spec by lia. by rewrite E, Z.bits_0.
  - intros HA. apply Z.bits_inj_0. intros i. destruct (decide (0 ≤ i)) as [Hi|]; [|apply Z.testbit_neg_r; lia]. rewrite Z.shiftr_spec, Z.lxor_spec by done.
    destruct (decide (i + (len - b) < len)); [rewrite (HA (i + (len - b))) by lia|rewrite !HH by (done || lia)]; apply xorb_nilpotent.
Qed.

Lemma mask_word_bits len b w i : 0 ≤ b ≤ len → len - b ≤ i → Z.testbit (mask_word len b w) i = Z.testbit w i.
Proof. intros Hb Hi. unfold mask_word. rewrite Z.shiftl_spec, Z.shiftr_spec by lia. f_equal. lia. Qed.

Lemma mask_word_uint len b w : 0 ≤ b ≤ len → is_uint len w → is_uint len (mask_word len b w).
Proof.
  unfold is_uint, mask_word. intros Hb Hw. rewrite Z.shiftl_mul_pow2, Z.shiftr_div_pow2 by lia. pose proof (pow2_pos (len - b) ltac:(lia)).
  pose proof (Z.mul_div_le w (2 ^ (len - b)) ltac:(lia)). pose proof (Z.div_pos w (2 ^ (len - b)) ltac:(lia) ltac:(lia)). nia.
Qed.

(** An address without a zone, of its width. *)
Definition plain_addr (ip : Addr) : Prop := hasZone ip = false ∧ is_uint (BitLen ip) (addr_word ip).

Lemma range_bits start stop : plain_addr start → plain_addr stop → Is4 start = Is4 stop →
  ∃ k, ipRangeToPrefix start stop = Addr_Prefix start k ∧ 0 ≤ k ≤ BitLen start ∧
    (∀ i, BitLen start - k ≤ i < BitLen start → Z.testbit (addr_word start) i = Z.testbit (addr_word stop) i) ∧
    (k < BitLen start → Z.testbit (addr_word start) (BitLen start - k - 1) ≠ Z.testbit (addr_word stop) (BitLen start - k - 1)).
Proof.
  intros _ _ EF. unfold ipRangeToPrefix. destruct start as [w1|w1 z1], stop as [w2|w2 z2]; cbn [Is4] in EF; try done; cbn [Is4 addr_word As16].
  - eexists. split; [done|]. apply (commonPrefixBits_spec 4 w1 w2).
  - eexists. split; [done|]. apply (commonPrefixBits_spec 16 w1 w2).
Qed.

(** The prefix contains an address exactly when they agree on its bits. *)
Lemma prefix_contains_iff start k ip : plain_addr start → plain_addr ip → Is4 start = Is4 ip → 0 ≤ k ≤ BitLen start →
  Prefix_Contains (Addr_Prefix start k) ip = true ↔ ∀ i, BitLen start - k ≤ i < BitLen start → Z.testbit (addr_word ip) i = Z.testbit (addr_word start) i.
Proof.
  intros [_ Hs] [Hz Hi] EF Hk. assert (EB : BitLen ip = BitLen start) by (unfold BitLen; by rewrite EF). unfold Prefix_Contains, Addr_Prefix. rewrite Hz. cbn [negb andb].
  assert (EA : pfx_Bits (Masked (mkPrefix start k)) = k ∧ Is4 (pfx_Addr (Masked (mkPrefix start k))) = Is4 start ∧
    addr_word (pfx_Addr (Masked (mkPrefix start k))) = mask_word (BitLen start) k (addr_word start)) by (by destruct start).
  destruct EA as (-> & -> & ->). rewrite bool_decide_true by done. cbn [andb]. rewrite Z.eqb_eq, EB. rewrite EB in Hi.
  rewrite shift_agree by (done || by apply mask_word_uint). split; intros HA i Hi'; specialize (HA i Hi'); rewrite mask_word_bits in *; (done || lia).
Qed.

(** The prefix of a range is the longest one that contains both ends, and it contains the whole range. *)
Lemma range_prefix start stop : plain_addr start → plain_addr stop → Is4 start = Is4 stop → let p := ipRangeToPrefix start stop in
  (∀ ip, plain_addr ip → Is4 ip = Is4 start → addr_word start ≤ addr_word ip ≤ addr_word stop → Prefix_Contains p ip = true) ∧
  (∀ a b, plain_addr a → Is4 a = Is4 start → 0 ≤ b ≤ BitLen start → Prefix_Contains (Addr_Prefix a b) start = true →
    Prefix_Contains (Addr_Prefix a b) stop = true → b ≤ pfx_Bits p).
Proof.
  intros H1 H2 EF. cbv zeta. destruct (range_bits start stop H1 H2 EF) as (k & -> & Hk & HA & HD). split.
  - intros ip Hi EI HR. apply prefix_contains_iff; [done|done|done|done|]. destruct H1 as [_ U1], H2 as [_ U2], Hi as [_ Ui].
    assert (EB : BitLen ip = BitLen start) by (unfold BitLen; by rewrite EI). assert (EB2 : BitLen stop = BitLen start) by (unfold BitLen; by rewrite <- EF).
    rewrite EB in Ui. rewrite EB2 in U2. apply shift_agree; [done|done|done|].
    assert (ES : Z.shiftr (addr_word start) (BitLen start - k) = Z.shiftr (addr_word stop) (BitLen start - k)).
    { apply Z.lxor_eq. rewrite <- Z.shiftr_lxor. by apply shift_agree. }
    rewrite Z.shiftr_lxor. apply Z.lxor_eq_0_iff. rewrite !Z.shiftr_div_pow2 in * by lia. pose proof (pow2_pos (BitLen start - k) ltac:(lia)).
    pose proof (Z.div_le_mono _ _ (2 ^ (BitLen start - k)) ltac:(lia) (proj1 HR)). pose proof (Z.div_le_mono _ _ (2 ^ (BitLen start - k)) ltac:(lia) (proj2 HR)). lia.
  - intros a b Ha EA Hb C1 C2. assert (EB : BitLen a = BitLen start) by (unfold BitLen; by rewrite EA). rewrite <- EB in Hb.
    rewrite prefix_contains_iff in C1 by (done || congruence). rewrite prefix_contains_iff in C2 by (done || congruence). rewrite EB in *.
    assert (EP : pfx_Bits (Addr_Prefix start k) = k) by (by destruct start). rewrite EP. destruct (decide (b ≤ k)); [done|]. exfalso. apply HD; [lia|].
    rewrite (C1 (BitLen start - k - 1)), (C2 (BitLen start - k - 1)) by lia. done.
Qed.
